(* ===== verification/_CoqProject ===== *)
-Q . S2P
Prelude.v
Serialize.v
MerkleTree.v
Mpt.v
Storage.v
Pedersen.v
Cost.v
DeltaTracking.v
StorageBackend.v
BackendInvariant.v
BackendTheorems.v
VmCost.v
Fab.v
OnchainVm.v
VmProperties.v
VmSafety.v
VmTheorems.v
ZswapMemo.v
Repr.v
Coins.v
Runtime.v
ZswapOffer.v
ZswapLedger.v
Intents.v
Dust.v
DustState.v
DustWallet.v
LedgerData.v
TxCost.v
Ledger.v
Supply.v
FeeTheorems.v
LedgerApply.v
LedgerTheorems.v
Balance.v
Sequencing.v
CallOrder.v
Verify.v
Merge.v
VerifyTheorems.v
