(* ===== verification/Prelude.v ===== *)
(** * A verification library for the Midnight ledger

    The ledger is a set of Rust crates: a binary format ([serialize]), hashes,
    commitments and Merkle trees ([base-crypto], [transient-crypto]), persistent
    maps over a content-addressed store ([storage], [storage-core]), shielded
    coins ([zswap]), contracts and their virtual machine ([onchain-*]), and the
    ledger itself ([ledger]), which applies transactions to a state made of
    these parts.  A node applies transactions to the state and calls an update
    after each block; wallets follow parts of the state.

    ** The files

    - [Prelude] (this file): Rust's [Result], computations that may also panic
      ([outcome]), machine integers of a width as [Z] with wrap-around,
      saturating and checked operations, loops over iterators, lists in chunks,
      and the tactics and hint database [midnight] used throughout.

    - [Serialize] ([serialize/src/util.rs], [serializable.rs],
      [deserializable.rs]): the trait pair [Serializable]/[Deserializable] is
      the record [Codec]; every implementation is one codec.  The class
      [CodecLaws] states what other components rely on: bytes are bytes, the
      announced size, round trips in front of any data.  The theorems discharge
      it for the codecs, and treat compact integers, the tagged format and
      [peek_tag].  A reader is the list of bytes not yet read.

    - [MerkleTree] ([transient-crypto/src/merkle_tree.rs]): sparse trees with
      cached hashes, stubs and collapsed parts.  [Rep h c t] relates a node to
      the contents it stands for; every operation is a refinement of one on
      contents, and roots depend on contents alone.  Hashing is an argument;
      only the theorem on sound paths needs it to be collision free.

    - [Mpt] ([storage/src/merkle_patricia_trie.rs], [Map] of
      [storage/src/storage.rs]): tries over nibbles with annotations.  [get] is
      what a trie holds at a path, [shape] the invariant of nodes, [canon] the
      normal form.  Lookup, insertion, removal, pruning and predecessor search
      act on [get]; tries with the same [get] are equal; maps with lawful key
      encodings refine finite maps.

    - [Storage] ([base-crypto/src/time.rs], [MultiSet] and [TimeFilterMap] of
      [storage/src/storage.rs]): time arithmetic, multisets, maps from times
      that are filtered by age.  The map from times is a finite map, and
      [time_map_refines] shows that the trie under it does the same.

    - [Pedersen] ([transient-crypto/src/commitment.rs]): commitments and the
      proof that a commitment is to zero, over the class [AbelianGroup].

    - [ZswapMemo], [ZswapOffer], [ZswapLedger] ([zswap/src]): memos and their
      binding to the spend proof; inputs, outputs, transients and offers with
      their normal form, well-formedness and merging; the shared state of coins
      and the operations on it.  [State_ok] ties the tree, the set of
      commitments, the first free index and the recent roots together.

    - [Intents] ([ledger/src/semantics.rs], [ledger/src/structure.rs]): replay
      protection by hash and time to live, and unshielded outputs.

    - [Cost] ([base-crypto/src/cost_model.rs]): durations, costs in several
      dimensions, fixed-point numbers at 128 bits, prices and fees.

    - [DeltaTracking] ([storage/src/delta_tracking]): reference counts of the
      stored nodes of a contract, the keys that a change writes and deletes,
      garbage collection with a step limit, and what is charged for it.

    - [StorageBackend] ([storage-core/src/backend.rs], [gc.rs], [cache.rs],
      [db.rs]): the store of nodes under the arena: a read and a write cache,
      pending counts, roots, the in-memory database and the incremental garbage
      collector.  [BackendInvariant] holds the invariant ([Inv]) and what each
      operation does to it, [BackendTheorems] sequences of calls ([Calls]) and
      the theorems on them.

    - [Fab] ([base-crypto/src/fab]), [Repr] ([transient-crypto/src/repr.rs],
      [hash.rs]), [Coins] ([coin-structure/src]): the values that contracts
      compute with, their alignments and binary format; byte strings as field
      elements; tokens, addresses, coins and their hashes.

    - [VmCost], [OnchainVm] ([onchain-vm/src], [onchain-state/src/state.rs]):
      the prices and the instructions of the contracts' virtual machine, in a
      state and error monad over stack, gas, cache and events.  [VmProperties]
      and [VmSafety] hold the lemmas by instruction, [VmTheorems] the theorems
      on runs.

    - [Runtime] ([onchain-runtime/src]): contexts, effects and queries: a call of
      a contract runs the machine of [OnchainVm] and is charged by
      [DeltaTracking].

    - [Dust], [DustState], [DustWallet] ([ledger/src/dust.rs], and the updates
      from cNight in [ledger/src/semantics.rs]): the fee token: values over
      time, spends and registrations of the ledger; the invariant of
      the ledger's Dust; wallets that replay the ledger's events.

    - [LedgerData], [TxCost] ([ledger/src/structure.rs]): transactions, contract
      actions, the ledger's state and parameters; the cost of a transaction.

    - [Ledger], [LedgerApply] ([ledger/src/semantics.rs]): system transactions,
      claims and the update after a block; transactions, section by section.
      They call [ZswapLedger], [Intents], [Dust] and [Runtime].  [Supply],
      [FeeTheorems] and [LedgerTheorems] hold what is proved about them.

    - [Balance], [Sequencing], [Verify] ([ledger/src/verify.rs], with the
      [well_formed] methods of [dust.rs] and [structure.rs]): the checks before a
      transaction is applied.  [CallOrder] and [VerifyTheorems] hold what they
      establish.

    - [Merge] ([Transaction::merge] of [ledger/src/structure.rs]): two
      transactions joined into one, with its theorem.

    ** Interfaces and parameters

    Classes with laws stand between components: [CodecLaws] (Serialize),
    [AbelianGroup] (Pedersen), [Annotation] (Mpt), [Container] (Storage),
    [ConvLaws] (Coins).  [StateReference] (Verify) is the trait of the same name:
    what the checks ask of a state, with the instances [LedgerState] and
    [RevalidationReference].

    Code of other libraries is a field of a class, an argument of the definitions
    that use it.  Laws are attached to the group of commitments, to the cache of
    the back-end ([Lru], with [LruLaws], which a list satisfies) and to the
    orders of hashes and of hash tables ([Platform], with [PlatformLaws]); the
    others have none: [Prims] (the types of keys and commitments, the
    modulus and the hashes of the field, sizes of stored values, the order in
    which a persistent map lists its entries), [Hashes] (hashes of
    intents and addresses of deployments), [CostInputs] and [Serialized] (sizes of serialized data),
    [Crypto] (verification of signatures and proofs, the curve, the bytes that
    are signed, statements).  Where a theorem needs more of them, that is a
    hypothesis or a case of the conclusion: that a map lists each of its entries
    once, or a collision of a hash.  The witness of the theorem has concrete instances.

    ** Conventions

    A definition has the name of the Rust function; methods that would clash
    carry their type as a prefix ([Timestamp_sub]).  [outcome E A] has the
    results [Ret a] (returned), [Fail e] (an [Err]) and [Panic]; functions that
    cannot panic return [result E A].  Theorems about functions with [outcome]
    say that they return, so they exclude panics.  Persistent structures behind
    pointers ([Sp]) are values.  Maps whose order is not observable are finite
    maps; sorted iteration sorts the list of pairs.

    Fuel: the recursive functions on Merkle trees take the height plus one
    (every call goes down one level), loops over halves of an interval take a
    bound on the number of steps; the theorems show that the results are
    returned, so the fuel is enough.  The machine's loop takes as many turns as
    the program has instructions; [vm_terminates] shows that it never runs out
    of them, because every instruction moves on, and that a step limit of the
    program's length makes no difference.  The traversal of stored nodes takes a bound ([traversal_bound] in the ledger)
    that the record [Visible] asks to exceed the number of references; [storage_charged_exactly]
    shows that it returns.  The limit of garbage collection is the code's own.
    In the back-end, the recursion of [update_counts] takes the number of
    references in the write cache, marking in the caches and fetching ahead the
    number of nodes, and [backend_no_loss] shows that every call returns; the
    collector's loops over batches are by recursion on the batch sizes.
    Everything else is structural.

    ** What the theorems show

    - Whole transactions: Night is neither created nor destroyed by a
      transaction (with a Night inflow below 2^126 in each section), a system
      transaction or a claim; no intent is applied twice on a chain, in whatever
      transaction and segment, and no maintenance update twice; shielded offers
      of fallible segments never fail once the guaranteed section has passed, so
      that segments without other fallible parts always take effect ([Supply],
      [LedgerTheorems]).
    - Accepted transactions: inputs are signed by their owners and spent once,
      the transaction is balanced with the fees it is charged, maintenance has
      its threshold of signatures, and revalidation agrees with the full check
      ([VerifyTheorems]).  The order of calls is checked with the code's
      precedence, which contains the specification's and is the same where no
      intent calls a contract twice, and claimed calls are present exactly once,
      after their callers ([CallOrder]).  Merged transactions keep balances and binding ([Merge]).
    - Contracts: programs terminate and never panic; calls keep the state well
      formed and within the gas; reads gathered by a caller verify; storage is
      charged exactly once ([VmTheorems], [Runtime], [DeltaTracking]).  Cells
      stay within the bound that is checked on loading as long as concatenations
      declare results a few bytes below it: the machine compares the sizes of the
      parts, and what it makes of them may be a few bytes larger ([VmSafety]).
    - Storage: whatever is evicted, flushed and collected, nodes that are
      reachable from live nodes and roots can be read, and a collection that
      runs to its end leaves no others ([BackendTheorems]).  This is for callers
      that keep to the documented duties and to four rules that are not
      documented; an example there shows for each of them what happens without.
    - Fees: the exact conditions and amounts, and that declared gas is charged,
      scaled by the factors of the parameters, up to the overflow that the code
      has ([Cost], [FeeTheorems]).
    - Shielded coins: no double spends, exactly which offers are accepted, that
      applying appends to an array of coins, followers of contracts and the
      filter agree with the full state, the recent roots after a block, and the
      invariant of reachable states ([ZswapLedger]); hashes bind coins and
      owners ([Coins]).
    - Offers and memos: merging keeps well-formedness and adds balances, what a
      verified offer guarantees, the memo policy and its binding.
    - Dust: the value function and where it is the documented one, no double spends, registrations create no value,
      the state's invariant, and wallets that follow the ledger.
    - Merkle trees: updates, canonical roots, paths (sound and complete),
      collapsing, collapsed updates, insertion evidence, range listings.
    - Tries: functional correctness of each operation, independence of history,
      refinement of finite maps, also with times as keys, for keys of at most 255
      nibbles none of which is a proper prefix of another.
    - Intents and unshielded outputs: no replay, spending once, amounts.
    - Encodings: round trips, canonicity, prefix freedom, the tagged format, and
      that converted values fit their alignment ([Serialize], [Fab]).

    ** Not modelled

    The proof system, the curve and the hash functions are libraries: they are
    arguments, with what is used of them as hypotheses.  The arena, whose
    pointers load nodes lazily and call the back-end as they are created and
    dropped, is a finite map from hashes to nodes where storage is charged, and
    persistent structures are values elsewhere; the SQL and ParityDB databases
    are input and output, and the layout with reference counts in nodes is
    another configuration.  Left out are the construction and proving of
    transactions and offers, which are calls of the prover and of a source of
    randomness; key derivation; printing and serde forms; the WebAssembly
    bindings, the proof server, the procedural macros, and the circuit compilers
    and interpreters, which build on an external proof system. *)

From Stdlib Require Export ZArith Lia.
From Stdlib Require Sorted.
From stdpp Require Export base decidable option list numbers.

#[export] Set Warnings "-clear-no-such-hyp,-register-all".

(** ** Results *)

(** Rust's [Result<A, E>]. *)
Inductive result (E A : Type) : Type :=
| Ok (a : A)
| Err (e : E).

Arguments Ok {E A} a.
Arguments Err {E A} e.

#[export] Instance result_ret {E} : MRet (result E) := fun _ a => Ok a.

(** The [?] operator: stop at the first error. *)
#[export] Instance result_bind {E} : MBind (result E) :=
  fun _ _ k r => match r with Ok a => k a | Err e => Err e end.

#[export] Instance result_fmap {E} : FMap (result E) :=
  fun _ _ f r => match r with Ok a => Ok (f a) | Err e => Err e end.

#[export] Instance result_eq_dec {E A} `{EqDecision E} `{EqDecision A} :
  EqDecision (result E A).
Proof. solve_decision. Defined.

(** [Result::map_err]. *)
Definition map_err {E F A} (f : E -> F) (r : result E A) : result F A :=
  match r with Ok a => Ok a | Err e => Err (f e) end.

(** [Option::ok_or]. *)
Definition ok_or {E A} (e : E) (o : option A) : result E A :=
  match o with Some a => Ok a | None => Err e end.

(** [Result::ok]. *)
Definition res_ok {E A} (r : result E A) : option A :=
  match r with Ok a => Some a | Err _ => None end.

Definition is_ok {E A} (r : result E A) : bool :=
  match r with Ok _ => true | Err _ => false end.

(** [Iterator::try_for_each]: run a check on each element, left to right. *)
Fixpoint try_for_each {E A} (f : A -> result E unit) (l : list A) : result E unit :=
  match l with
  | [] => Ok tt
  | x :: l' => match f x with Ok _ => try_for_each f l' | Err e => Err e end
  end.

(** [Iterator::try_fold]: thread an accumulator, left to right. *)
Fixpoint try_fold {E A S} (f : S -> A -> result E S) (s : S) (l : list A) : result E S :=
  match l with
  | [] => Ok s
  | x :: l' => match f s x with Ok s' => try_fold f s' l' | Err e => Err e end
  end.

Lemma try_for_each_Ok {E A} (f : A -> result E unit) (l : list A) :
  try_for_each f l = Ok tt <-> Forall (fun x => f x = Ok tt) l.
Proof.
  induction l as [|x l IH]; simpl; [done|].
  split.
  - destruct (f x) as [[]|e] eqn:E1; [|done]. intros H. constructor; [done|]. by apply IH.
  - intros [H1 H2]%Forall_cons_1. rewrite H1. by apply IH.
Qed.

Lemma try_fold_app {E A S} (f : S -> A -> result E S) (s : S) (l1 l2 : list A) :
  try_fold f s (l1 ++ l2) = s' ← try_fold f s l1; try_fold f s' l2.
Proof.
  revert s; induction l1 as [|x l1 IH]; intros s; simpl; [done|].
  destruct (f s x); [apply IH | done].
Qed.

(** A property of the accumulator kept by every successful step is kept by
    the whole fold. *)
Lemma try_fold_ind {E A S} (P : S -> Prop) (f : S -> A -> result E S) (l : list A) :
  (forall s x s', x ∈ l -> P s -> f s x = Ok s' -> P s') ->
  forall s s', P s -> try_fold f s l = Ok s' -> P s'.
Proof.
  induction l as [|x l IH]; intros Hstep s s' Hs; simpl.
  - by intros [= <-].
  - destruct (f s x) as [s1|e] eqn:E1; [|done].
    apply IH.
    + intros; eapply Hstep; eauto. by right.
    + eapply Hstep; eauto. by left.
Qed.

(** ** Outcomes

    A call that returns a [Result] and may also panic ([expect], an index out
    of range, [unreachable!], checked arithmetic).  A model with fuel panics
    when it runs out; the theorems show that it does not. *)
Inductive outcome (E A : Type) : Type :=
| Ret (a : A)
| Fail (e : E)
| Panic.

Arguments Ret {E A} a.
Arguments Fail {E A} e.
Arguments Panic {E A}.

#[export] Instance outcome_ret {E} : MRet (outcome E) := fun _ a => Ret a.
#[export] Instance outcome_bind {E} : MBind (outcome E) :=
  fun _ _ k r => match r with Ret a => k a | Fail e => Fail e | Panic => Panic end.
#[export] Instance outcome_fmap {E} : FMap (outcome E) :=
  fun _ _ f r => match r with Ret a => Ret (f a) | Fail e => Fail e | Panic => Panic end.

#[export] Instance outcome_eq_dec {E A} `{EqDecision E} `{EqDecision A} :
  EqDecision (outcome E A).
Proof. solve_decision. Defined.

(** [Option::expect]. *)
Definition expect {E A} (o : option A) : outcome E A :=
  match o with Some a => Ret a | None => Panic end.

Definition of_result {E A} (r : result E A) : outcome E A :=
  match r with Ok a => Ret a | Err e => Fail e end.

(** [Result::map_err] on a call that may panic. *)
Definition map_fail {E F A} (f : E -> F) (r : outcome E A) : outcome F A :=
  match r with Ret a => Ret a | Fail e => Fail (f e) | Panic => Panic end.

(** [Iterator::try_fold] with calls that may panic. *)
Fixpoint try_fold_o {E S X} (f : S -> X -> outcome E S) (s : S) (l : list X) : outcome E S :=
  match l with
  | [] => mret s
  | x :: l' => s' ← f s x; try_fold_o f s' l'
  end.

Lemma try_fold_o_safe {E S X} (P : S -> Prop) (f : S -> X -> outcome E S) l :
  (forall s x, P s -> f s x <> Panic /\ forall s', f s x = Ret s' -> P s') ->
  forall s, P s -> try_fold_o f s l <> Panic /\ forall s', try_fold_o f s l = Ret s' -> P s'.
Proof.
  intros Hf. induction l as [|x l IH]; intros s Hs; cbn [try_fold_o].
  - split; [done|]. by intros s' [= <-].
  - destruct (Hf s x Hs) as [Hn Hp]. destruct (f s x) as [s1| |]; [|done..].
    apply IH. by apply Hp.
Qed.

Lemma try_fold_o_ind {E S X} (P : S -> Prop) (f : S -> X -> outcome E S) l :
  (forall s x s', P s -> f s x = Ret s' -> P s') -> forall s s', P s -> try_fold_o f s l = Ret s' -> P s'.
Proof.
  intros Hf. induction l as [|x l IH]; intros s s' Hs; cbn [try_fold_o]; [by intros [= <-]|].
  destruct (f s x) as [s1| |] eqn:E1; [|done..]. apply IH. by eapply Hf.
Qed.

Lemma outcome_bind_Ret {E A B} (m : outcome E A) (k : A -> outcome E B) b :
  (m ≫= k) = Ret b <-> exists a, m = Ret a /\ k a = Ret b.
Proof.
  destruct m; simpl; split; [eauto|by intros (? & [= <-] & ?)|done|by intros (? & ? & _)
    |done|by intros (? & ? & _)].
Qed.

(** ** Machine integers

    A Rust integer is a [Z]; the width appears in the range predicate and in
    the operations whose overflow behaviour the code relies on. *)

Local Open Scope Z_scope.

(** [uN::MAX]. *)
Definition u_max (w : Z) : Z := 2 ^ w - 1.
Definition in_u (w x : Z) : Prop := 0 <= x < 2 ^ w.

(** [iN::MIN], [iN::MAX]. *)
Definition i_min (w : Z) : Z := - 2 ^ (w - 1).
Definition i_max (w : Z) : Z := 2 ^ (w - 1) - 1.
Definition in_i (w x : Z) : Prop := i_min w <= x <= i_max w.

(** Wrapping conversion to [w] bits ([as uN]). *)
Definition wrap (w x : Z) : Z := x mod 2 ^ w.

(** [uN::checked_add], [uN::checked_sub]. *)
Definition checked_add (w a b : Z) : option Z :=
  if a + b <=? u_max w then Some (a + b) else None.
Definition checked_sub (a b : Z) : option Z :=
  if b <=? a then Some (a - b) else None.

(** [uN::saturating_add], [uN::saturating_sub], [uN::saturating_mul]. *)
Definition sat_add (w a b : Z) : Z := Z.min (a + b) (u_max w).
Definition sat_sub (a b : Z) : Z := Z.max (a - b) 0.
Definition sat_mul (w a b : Z) : Z := Z.min (a * b) (u_max w).

(** Clamp to the signed range: [iN::saturating_*]. *)
Definition i_clamp (w x : Z) : Z := Z.max (i_min w) (Z.min x (i_max w)).

(** Wrapping to the signed range: [iN] arithmetic without overflow checks. *)
Definition wrap_i (w x : Z) : Z :=
  let y := x mod 2 ^ w in if y <? 2 ^ (w - 1) then y else y - 2 ^ w.

#[export] Instance in_u_dec w x : Decision (in_u w x).
Proof. unfold in_u. apply _. Defined.
#[export] Instance in_i_dec w x : Decision (in_i w x).
Proof. unfold in_i. apply _. Defined.

(** Linear arithmetic with division and modulo by constants. *)
Ltac dlia := Z.to_euclidean_division_equations; lia.

(** [u64::div_ceil], [u128::div_ceil]. *)
Definition div_ceil (a b : Z) : Z := (a + b - 1) / b.

Lemma div_ceil_spec a b : 0 < b -> b * (div_ceil a b - 1) < a <= b * div_ceil a b.
Proof.
  intros Hb. unfold div_ceil. pose proof (Z.mul_div_le (a + b - 1) b Hb).
  pose proof (Z.mul_succ_div_gt (a + b - 1) b Hb). lia.
Qed.

Lemma pow2_half w : 0 < w -> 2 ^ w = 2 * 2 ^ (w - 1).
Proof. intros. rewrite <- Z.pow_succ_r by lia. f_equal. lia. Qed.

Lemma wrap_i_small w x : 0 < w -> in_i w x -> wrap_i w x = x.
Proof.
  intros Hw [Hlo Hhi]. unfold wrap_i, i_min, i_max in *. rewrite (pow2_half w) by done.
  set (P := 2 ^ (w - 1)) in *. clearbody P. cbv zeta. destruct (decide (0 <= x)).
  - rewrite Z.mod_small by lia. destruct (Z.ltb_spec x P); lia.
  - rewrite <- (Z_mod_plus_full x 1), Z.mod_small by lia.
    destruct (Z.ltb_spec (x + 1 * (2 * P)) P); lia.
Qed.

Lemma wrap_i_range w x : 0 < w -> in_i w (wrap_i w x).
Proof.
  intros Hw. unfold in_i, wrap_i, i_min, i_max. rewrite (pow2_half w) by done.
  assert (HP : 0 < 2 ^ (w - 1)) by (apply Z.pow_pos_nonneg; lia).
  set (P := 2 ^ (w - 1)) in *. clearbody P. cbv zeta.
  pose proof (Z.mod_pos_bound x (2 * P) ltac:(lia)).
  destruct (Z.ltb_spec (x mod (2 * P)) P); lia.
Qed.

Lemma wrap_i_mod w x : 0 < w -> exists k, wrap_i w x = x + k * 2 ^ w.
Proof.
  intros Hw. assert (HP : 0 < 2 ^ w) by (apply Z.pow_pos_nonneg; lia).
  unfold wrap_i. rewrite (Z.mod_eq x (2 ^ w)) by lia. cbv zeta. case_match.
  - exists (- (x / 2 ^ w)). lia.
  - exists (- (x / 2 ^ w) - 1). lia.
Qed.

Lemma wrap_i_plus_mul w x k : 0 < w -> wrap_i w (x + k * 2 ^ w) = wrap_i w x.
Proof.
  intros Hw. unfold wrap_i. cbv zeta. rewrite Z.mod_add by (apply Z.pow_nonzero; lia). reflexivity.
Qed.

(** Wrapping once at the end is enough. *)
Lemma wrap_i_add_l w x y : 0 < w -> wrap_i w (wrap_i w x + y) = wrap_i w (x + y).
Proof.
  intros Hw. destruct (wrap_i_mod w x Hw) as [k ->].
  replace (x + k * 2 ^ w + y) with (x + y + k * 2 ^ w) by lia. by apply wrap_i_plus_mul.
Qed.

(** ** Bytes *)

Definition is_byte (b : Z) : Prop := 0 <= b < 256.
Abbreviation bytes_ok := (Forall is_byte).

#[export] Instance is_byte_dec b : Decision (is_byte b).
Proof. unfold is_byte. apply _. Defined.

(** [uN::to_le_bytes], with [n] the width in bytes. *)
Fixpoint to_le_bytes (n : nat) (x : Z) : list Z :=
  match n with
  | O => []
  | S n' => x mod 256 :: to_le_bytes n' (x / 256)
  end.

(** [uN::from_le_bytes]. *)
Fixpoint from_le_bytes (bs : list Z) : Z :=
  match bs with
  | [] => 0
  | b :: bs' => b + 256 * from_le_bytes bs'
  end.

(** [iN::from_le_bytes]: two's complement. *)
Definition from_le_bytes_signed (bs : list Z) : Z :=
  let u := from_le_bytes bs in
  let w := 8 * Z.of_nat (length bs) in
  if u <? 2 ^ (w - 1) then u else u - 2 ^ w.

Create HintDb midnight.

Lemma length_to_le_bytes n x : length (to_le_bytes n x) = n.
Proof. revert x; induction n; intros; simpl; auto. Qed.

Lemma to_le_bytes_ok n x : bytes_ok (to_le_bytes n x).
Proof.
  revert x; induction n as [|n IH]; intros x; simpl; constructor; [|apply IH].
  unfold is_byte. apply Z.mod_pos_bound. lia.
Qed.

Lemma from_le_bytes_bound bs :
  bytes_ok bs -> 0 <= from_le_bytes bs < 256 ^ Z.of_nat (length bs).
Proof.
  induction 1 as [|b bs Hb _ IH]; simpl; [lia|].
  rewrite Nat2Z.inj_succ, Z.pow_succ_r by lia. unfold is_byte in Hb. nia.
Qed.

Lemma pow256_split n : 256 ^ Z.of_nat (S n) = 256 * 256 ^ Z.of_nat n.
Proof. rewrite Nat2Z.inj_succ, Z.pow_succ_r; lia. Qed.

Lemma from_to_le_bytes n x :
  from_le_bytes (to_le_bytes n x) = x mod 256 ^ Z.of_nat n.
Proof.
  revert x; induction n as [|n IH]; intros x.
  - simpl. by rewrite Z.mod_1_r.
  - cbn [to_le_bytes from_le_bytes]. rewrite IH, pow256_split.
    rewrite Z.rem_mul_r by lia. lia.
Qed.

Lemma from_to_le_bytes_small n x :
  0 <= x < 256 ^ Z.of_nat n -> from_le_bytes (to_le_bytes n x) = x.
Proof. intros. rewrite from_to_le_bytes. by apply Z.mod_small. Qed.

Lemma to_from_le_bytes bs :
  bytes_ok bs -> to_le_bytes (length bs) (from_le_bytes bs) = bs.
Proof.
  induction 1 as [|b bs Hb _ IH]; simpl; [done|]. unfold is_byte in Hb.
  f_equal.
  - rewrite Z.mul_comm, Z.mod_add by lia. apply Z.mod_small. lia.
  - rewrite Z.mul_comm, Z.div_add, Z.div_small by lia. simpl. apply IH.
Qed.

Lemma from_le_bytes_inj bs1 bs2 :
  bytes_ok bs1 -> bytes_ok bs2 -> length bs1 = length bs2 ->
  from_le_bytes bs1 = from_le_bytes bs2 -> bs1 = bs2.
Proof.
  intros H1 H2 Hl He. rewrite <- (to_from_le_bytes bs1), <- (to_from_le_bytes bs2) by done.
  by rewrite Hl, He.
Qed.

Lemma from_le_bytes_app bs1 bs2 :
  from_le_bytes (bs1 ++ bs2) =
  from_le_bytes bs1 + 256 ^ Z.of_nat (length bs1) * from_le_bytes bs2.
Proof.
  induction bs1 as [|b bs1 IH]; cbn [app from_le_bytes length].
  - simpl (Z.of_nat 0). lia.
  - rewrite IH, pow256_split. lia.
Qed.

Lemma from_le_bytes_zeros n : from_le_bytes (replicate n 0) = 0.
Proof. induction n as [|n IH]; simpl; [done|]. by rewrite IH. Qed.

(** ** Bit operations on bytes, as arithmetic *)

Lemma land_ones_mod a k : 0 <= k -> Z.land a (2 ^ k - 1) = a mod 2 ^ k.
Proof. intros. rewrite <- Z.land_ones by lia. by rewrite Z.ones_equiv, <- Z.sub_1_r. Qed.

(** Disjoint bit fields: [|] is [+]. *)
Lemma lor_add_low a b k :
  0 <= k -> 0 <= a < 2 ^ k -> Z.lor a (b * 2 ^ k) = a + b * 2 ^ k.
Proof.
  intros Hk Ha. symmetry. apply Z.add_nocarry_lor.
  apply Z.bits_inj'; intros n Hn. rewrite Z.land_spec, Z.bits_0.
  destruct (Z.ltb_spec n k).
  - rewrite Z.mul_pow2_bits_low by lia. apply andb_false_r.
  - destruct (Z.eq_dec a 0) as [->|]; [by rewrite Z.bits_0|].
    rewrite (Z.bits_above_log2 a n); [done|lia|].
    apply Z.log2_lt_pow2; [lia|]. apply Z.lt_le_trans with (2 ^ k); [lia|].
    apply Z.pow_le_mono_r; lia.
Qed.

(** A decidable fact about bytes holds when it holds of the 256 of them. *)
Lemma byte_forall (P : Z -> bool) :
  forallb P (seqZ 0 256) = true -> forall b, is_byte b -> P b = true.
Proof.
  intros H b Hb. rewrite forallb_forall in H. apply H.
  apply list_elem_of_In, elem_of_seqZ. unfold is_byte in Hb. lia.
Qed.

Ltac solve_byte :=
  let b := fresh in let H := fresh in
  intros b H; apply Z.eqb_eq; revert b H; apply byte_forall; vm_compute; reflexivity.

(** ** Slices *)

(** [slice::chunks]; at most one chunk per element. *)
Fixpoint chunks_rec {A} (fuel n : nat) (l : list A) : list (list A) :=
  match fuel with
  | O => []
  | S fuel' => match l with [] => [] | _ => take n l :: chunks_rec fuel' n (drop n l) end
  end.
Definition chunks {A} (n : nat) (l : list A) : list (list A) := chunks_rec (length l) n l.

Lemma chunks_rec_spec {A} fuel n (l : list A) :
  (0 < n)%nat -> (length l <= fuel)%nat ->
  concat (chunks_rec fuel n l) = l /\
  Forall (fun c => (0 < length c <= n)%nat) (chunks_rec fuel n l).
Proof.
  intros Hn. revert l; induction fuel as [|fuel IH]; intros l Hl; simpl.
  - destruct l; [done|simpl in Hl; lia].
  - destruct l as [|x l]; [done|].
    destruct (IH (drop n (x :: l))) as [H1 H2].
    { rewrite length_drop. simpl in *. lia. }
    simpl concat. rewrite H1, take_drop. split; [done|]. constructor; [|done].
    rewrite length_take. simpl. lia.
Qed.

Lemma chunks_spec {A} n (l : list A) :
  (0 < n)%nat -> concat (chunks n l) = l /\ Forall (fun c => (0 < length c <= n)%nat) (chunks n l).
Proof. intros. by apply chunks_rec_spec. Qed.

Lemma chunks_single {A} n (l : list A) :
  (0 < length l <= n)%nat -> chunks n l = [l].
Proof.
  intros Hl. unfold chunks. destruct l as [|x l]; [simpl in Hl; lia|].
  cbn [chunks_rec length]. rewrite take_ge, drop_ge by lia. by destruct (length l).
Qed.

(** ** Hashes *)

(** Two preimages with the same hash. *)
Definition collision {A B} (hash : A -> B) (x y : A) : Prop := x <> y /\ hash x = hash y.

(** ** Filters *)

Lemma filter_fmap {A B} (f : A -> B) (P : B -> Prop) `{!forall x, Decision (P x)} (l : list A) :
  filter P (f <$> l) = f <$> filter (fun x => P (f x)) l.
Proof.
  induction l as [|x l IH]; [done|]. rewrite fmap_cons, !filter_cons, IH. by case_decide.
Qed.

Lemma filter_all {A} (P : A -> Prop) `{!forall x, Decision (P x)} (l : list A) :
  Forall P l -> filter P l = l.
Proof. induction 1 as [|x l Hx _ IH]; [done|]. by rewrite filter_cons_True, IH. Qed.

Lemma filter_none {A} (P : A -> Prop) `{!forall x, Decision (P x)} (l : list A) :
  Forall (fun x => ~ P x) l -> filter P l = [].
Proof. induction 1 as [|x l Hx _ IH]; [done|]. by rewrite filter_cons_False, IH. Qed.

Lemma StronglySorted_filter {X} (R : relation X) (P : X -> Prop) `{!forall x, Decision (P x)} l :
  Sorted.StronglySorted R l -> Sorted.StronglySorted R (filter P l).
Proof.
  induction 1 as [|x l Hl IH Hx]; [constructor|]. rewrite filter_cons. case_decide; [|done].
  constructor; [done|]. clear -Hx. induction Hx as [|y l Hy _ IH]; [constructor|]. rewrite filter_cons. case_decide; [by constructor|done].
Qed.
