(* ===== verification/Serialize.v ===== *)
(** * The [serialize] crate

    Binary encoding of the ledger's data: SCALE-style compact integers, fixed
    width integers, booleans, options, vectors, tuples, and the tagged
    top-level format.  A writer is an in-memory byte vector, so serializing a
    value gives the bytes it appends; a reader is the list of the bytes not yet
    read.  Of a [std::io::Error] the model keeps the [ErrorKind]. *)

From S2P Require Import Prelude.
From stdpp Require Import strings gmap sorting.
From Stdlib Require Import Ascii.

Local Open Scope Z_scope.

(** The [std::io::ErrorKind]s the crate produces. *)
Inductive ErrorKind := UnexpectedEof | InvalidData | InvalidInput.

#[export] Instance ErrorKind_eq_dec : EqDecision ErrorKind.
Proof. solve_decision. Defined.

(** ** Readers *)

Definition Reader (A : Type) : Type := list Z -> result ErrorKind (A * list Z).

#[export] Instance Reader_ret : MRet Reader := fun _ a bs => Ok (a, bs).
#[export] Instance Reader_bind : MBind Reader :=
  fun _ _ k m bs => match m bs with Ok (a, rest) => k a rest | Err e => Err e end.

Definition read_fail {A} (e : ErrorKind) : Reader A := fun _ => Err e.

(** [Read::read_exact] on an in-memory reader. *)
Definition read_exact (n : nat) : Reader (list Z) :=
  fun bs => if (length bs <? n)%nat then Err UnexpectedEof
            else Ok (take n bs, drop n bs).

(** [u8::deserialize]: one byte. *)
Definition read_u8 : Reader Z :=
  fun bs => match bs with [] => Err UnexpectedEof | b :: rest => Ok (b, rest) end.

(** [ReadExt::read_exact_to_vec]: read [n] bytes in chunks of at most 4096. *)
Definition CHUNK_SIZE : nat := 4096.

Fixpoint read_exact_to_vec_loop (fuel n len : nat) (res : list Z) : Reader (list Z) :=
  match fuel with
  | O => mret res
  | S fuel' =>
      if (len <? n)%nat then
        let new_len := Nat.min n (len + CHUNK_SIZE) in
        chunk ← read_exact (new_len - len);
        read_exact_to_vec_loop fuel' n new_len (res ++ chunk)
      else mret res
  end.

Definition read_exact_to_vec (n : nat) : Reader (list Z) :=
  read_exact_to_vec_loop (S n) n 0 [].

(** ** SCALE-style compact integers *)

Definition SCALE_MAX_BYTES : nat := 67.

Definition SCALE_ONE_BYTE_MARKER : Z := 0.
Definition SCALE_TWO_BYTE_MARKER : Z := 1.
Definition SCALE_FOUR_BYTE_MARKER : Z := 2.
Definition SCALE_N_BYTE_MARKER : Z := 3.

(** A [ScaleBigInt] is its array of [SCALE_MAX_BYTES] little-endian bytes. *)
Definition ScaleBigInt_ok (s : list Z) : Prop :=
  length s = SCALE_MAX_BYTES /\ bytes_ok s.

Fixpoint count_leading_zeros (l : list Z) : nat :=
  match l with
  | 0 :: l' => S (count_leading_zeros l')
  | _ => O
  end.

Definition trailing_zeros (l : list Z) : nat := count_leading_zeros (reverse l).

(** Byte [i] of the array ([self.0[i]]). *)
Definition nth_byte (s : list Z) (i : nat) : Z := default 0 (s !! i).

Definition ScaleBigInt_serialized_size (s : list Z) : nat :=
  let occupied := (SCALE_MAX_BYTES - trailing_zeros s)%nat in
  let can_squeeze := nth_byte s (occupied - 1) <? 64 in
  match occupied, can_squeeze with
  | O, _ | 1%nat, true => 1
  | 1%nat, false | 2%nat, true => 2
  | 2%nat, false | 3%nat, _ | 4%nat, true => 4
  | n, _ => n + 1
  end%nat.

(** The closures [top2bits] and [bot6bits] of [serialize]. *)
Definition top2bits (b : Z) : Z := Z.shiftr (Z.land b 192) 6.
Definition bot6bits (b : Z) : Z := wrap 8 (Z.shiftl (Z.land b 63) 2).

Definition ScaleBigInt_serialize (s : list Z) : list Z :=
  let b := nth_byte s in
  match ScaleBigInt_serialized_size s with
  | 1%nat => [Z.lor (bot6bits (b 0%nat)) SCALE_ONE_BYTE_MARKER]
  | 2%nat =>
      [Z.lor (bot6bits (b 0%nat)) SCALE_TWO_BYTE_MARKER;
       Z.lor (top2bits (b 0%nat)) (bot6bits (b 1%nat))]
  | 4%nat =>
      [Z.lor (bot6bits (b 0%nat)) SCALE_FOUR_BYTE_MARKER;
       Z.lor (top2bits (b 0%nat)) (bot6bits (b 1%nat));
       Z.lor (top2bits (b 1%nat)) (bot6bits (b 2%nat));
       Z.lor (top2bits (b 2%nat)) (bot6bits (b 3%nat))]
  | n =>
      Z.lor (wrap 8 (Z.shiftl (wrap 8 (wrap 8 (Z.of_nat n) - 5)) 2)) SCALE_N_BYTE_MARKER
      :: take (n - 1) s
  end.

(** The closures [top6bits] and [bot2bits] of [deserialize]. *)
Definition top6bits (b : Z) : Z := Z.shiftr (Z.land b 252) 2.
Definition bot2bits (b : Z) : Z := wrap 8 (Z.shiftl (Z.land b 3) 6).

(** The zero-initialised array with its first bytes written. *)
Definition scale_of_prefix (bs : list Z) : list Z :=
  bs ++ replicate (SCALE_MAX_BYTES - length bs) 0.

Definition ScaleBigInt_deserialize : Reader (list Z) :=
  first ← read_u8;
  let marker := Z.land first 3 in
  if marker =? SCALE_ONE_BYTE_MARKER then
    mret (scale_of_prefix [top6bits first])
  else if marker =? SCALE_TWO_BYTE_MARKER then
    second ← read_u8;
    if second =? 0 then read_fail InvalidData
    else mret (scale_of_prefix [Z.lor (top6bits first) (bot2bits second);
                                top6bits second])
  else if marker =? SCALE_FOUR_BYTE_MARKER then
    second ← read_u8;
    third ← read_u8;
    fourth ← read_u8;
    if (third =? 0) && (fourth =? 0) then read_fail InvalidData
    else mret (scale_of_prefix [Z.lor (top6bits first) (bot2bits second);
                                Z.lor (top6bits second) (bot2bits third);
                                Z.lor (top6bits third) (bot2bits fourth);
                                top6bits fourth])
  else
    let n := Z.to_nat (top6bits first + 4) in
    bs ← read_exact n;
    if nth_byte bs (n - 1) =? 0 then read_fail InvalidData
    else mret (scale_of_prefix bs).

(** *** Lemmas: the bit closures as arithmetic *)

Lemma top2bits_spec : forall b, is_byte b -> top2bits b = b / 64.
Proof. solve_byte. Qed.
Lemma bot6bits_spec : forall b, is_byte b -> bot6bits b = b mod 64 * 4.
Proof. solve_byte. Qed.
Lemma top6bits_spec : forall b, is_byte b -> top6bits b = b / 4.
Proof. solve_byte. Qed.
Lemma bot2bits_spec : forall b, is_byte b -> bot2bits b = b mod 4 * 64.
Proof. solve_byte. Qed.
Lemma marker_spec : forall b, is_byte b -> Z.land b 3 = b mod 4.
Proof. solve_byte. Qed.

Lemma lor_marker a m : 0 <= m < 4 -> Z.lor (a * 4) m = a * 4 + m.
Proof.
  intros. rewrite Z.lor_comm, Z.add_comm. apply (lor_add_low m a 2); lia.
Qed.

Lemma lor_top2_bot6 a b :
  is_byte a -> is_byte b -> Z.lor (top2bits a) (bot6bits b) = a / 64 + b mod 64 * 4.
Proof.
  intros Ha Hb. rewrite top2bits_spec, bot6bits_spec by done.
  apply (lor_add_low (a / 64) (b mod 64) 2); [lia|]. unfold is_byte in *. dlia.
Qed.

Lemma lor_top6_bot2 a b :
  is_byte a -> is_byte b -> Z.lor (top6bits a) (bot2bits b) = a / 4 + b mod 4 * 64.
Proof.
  intros Ha Hb. rewrite top6bits_spec, bot2bits_spec by done.
  apply (lor_add_low (a / 4) (b mod 4) 6); [lia|]. unfold is_byte in *. dlia.
Qed.

(** *** Lemmas: trailing zeros *)

Lemma count_leading_zeros_replicate n l :
  count_leading_zeros (replicate n 0 ++ l) = (n + count_leading_zeros l)%nat.
Proof. induction n as [|n IH]; simpl; [done|]. by rewrite IH. Qed.

Lemma trailing_zeros_app pre n :
  last pre <> Some 0 -> trailing_zeros (pre ++ replicate n 0) = n.
Proof.
  intros Hl. unfold trailing_zeros. rewrite reverse_app, reverse_replicate.
  rewrite count_leading_zeros_replicate.
  destruct pre as [|x pre _] using rev_ind; [rewrite reverse_nil; simpl; lia|].
  rewrite last_snoc in Hl. rewrite reverse_snoc. destruct x; naive_solver lia.
Qed.

(** Every byte list splits into a part that does not end in zero and zeros. *)
Lemma split_trailing_zeros (s : list Z) :
  exists pre n, s = pre ++ replicate n 0 /\ last pre <> Some 0.
Proof.
  induction s as [|x s IH] using rev_ind.
  - by exists [], 0%nat.
  - destruct (decide (x = 0)) as [->|Hx].
    + destruct IH as (pre & n & -> & Hl). exists pre, (S n).
      split; [|done]. rewrite <- app_assoc. f_equal.
      change [0] with (replicate 1 0). rewrite <- replicate_add. f_equal. lia.
    + exists (s ++ [x]), 0%nat. simpl. rewrite app_nil_r, last_snoc. split; [done|congruence].
Qed.

Lemma scale_split s :
  length s = SCALE_MAX_BYTES -> exists pre,
    s = scale_of_prefix pre /\ last pre <> Some 0 /\ (length pre <= SCALE_MAX_BYTES)%nat.
Proof.
  intros Hs. destruct (split_trailing_zeros s) as (pre & n & -> & Hl).
  rewrite length_app, length_replicate in Hs.
  exists pre. split_and!; [|done|lia]. unfold scale_of_prefix. do 2 f_equal. lia.
Qed.

Lemma nth_byte_app_l pre l i :
  (i < length pre)%nat -> nth_byte (pre ++ l) i = nth_byte pre i.
Proof. intros. unfold nth_byte. by rewrite lookup_app_l. Qed.

(** The encoded size, by the length of the significant prefix and its top byte. *)
Lemma scale_size_prefix pre :
  last pre <> Some 0 -> (length pre <= SCALE_MAX_BYTES)%nat ->
  ScaleBigInt_serialized_size (scale_of_prefix pre) =
  match length pre, (nth_byte pre (length pre - 1) <? 64)%Z with
  | O, _ | 1%nat, true => 1
  | 1%nat, false | 2%nat, true => 2
  | 2%nat, false | 3%nat, _ | 4%nat, true => 4
  | n, _ => n + 1
  end%nat.
Proof.
  intros Hl Hlen. unfold ScaleBigInt_serialized_size, scale_of_prefix.
  rewrite trailing_zeros_app by done. cbv zeta.
  replace (SCALE_MAX_BYTES - (SCALE_MAX_BYTES - length pre))%nat with (length pre) by lia.
  destruct (decide (length pre = 0)%nat) as [E|]; [rewrite E; reflexivity|].
  rewrite nth_byte_app_l by lia. by destruct (length pre) as [|[|[|[|[|]]]]].
Qed.

(** *** Lemmas: arithmetic form of the encoding *)

(** The encoding of a prefix of significant bytes, with the bit operations
    written as arithmetic. *)
Definition scale_enc (pre : list Z) : list Z :=
  match pre with
  | [] => [0]
  | [a] => if a <? 64 then [a * 4] else [a mod 64 * 4 + 1; a / 64]
  | [a; b] => if b <? 64 then [a mod 64 * 4 + 1; a / 64 + b * 4]
              else [a mod 64 * 4 + 2; a / 64 + b mod 64 * 4; b / 64; 0]
  | [a; b; c] => [a mod 64 * 4 + 2; a / 64 + b mod 64 * 4; b / 64 + c mod 64 * 4; c / 64]
  | [a; b; c; d] =>
      if d <? 64 then [a mod 64 * 4 + 2; a / 64 + b mod 64 * 4;
                       b / 64 + c mod 64 * 4; c / 64 + d * 4]
      else 3 :: pre
  | _ => (Z.of_nat (length pre) - 4) * 4 + 3 :: pre
  end.

Lemma bot6bits_marker b m :
  is_byte b -> 0 <= m < 4 -> Z.lor (bot6bits b) m = b mod 64 * 4 + m.
Proof. intros. rewrite bot6bits_spec by done. by apply lor_marker. Qed.

Lemma n_byte_head n :
  (5 <= n <= 68)%nat ->
  Z.lor (wrap 8 (Z.shiftl (wrap 8 (wrap 8 (Z.of_nat n) - 5)) 2)) SCALE_N_BYTE_MARKER
  = (Z.of_nat n - 5) * 4 + 3.
Proof.
  intros Hn. unfold wrap. change (2 ^ 8) with 256.
  rewrite (Z.mod_small (Z.of_nat n)), (Z.mod_small (_ - 5)) by lia.
  rewrite Z.shiftl_mul_pow2 by lia. change (2 ^ 2) with 4.
  rewrite Z.mod_small by lia. apply lor_marker. unfold SCALE_N_BYTE_MARKER. lia.
Qed.

Lemma scale_prefix_take pre n :
  (n <= SCALE_MAX_BYTES)%nat -> length pre = n -> take n (scale_of_prefix pre) = pre.
Proof. intros _ <-. unfold scale_of_prefix. by rewrite take_app_length. Qed.

Lemma nth_byte_prefix pre i :
  (i < length pre)%nat -> nth_byte (scale_of_prefix pre) i = nth_byte pre i.
Proof. apply nth_byte_app_l. Qed.

Lemma nth_byte_prefix_zero pre i :
  (length pre <= i)%nat -> nth_byte (scale_of_prefix pre) i = 0.
Proof.
  intros. unfold nth_byte, scale_of_prefix. rewrite lookup_app_r by lia.
  destruct (decide (i - length pre < SCALE_MAX_BYTES - length pre)%nat).
  - by rewrite lookup_replicate_2.
  - rewrite lookup_ge_None_2; [done|]. rewrite length_replicate. lia.
Qed.

Lemma ScaleBigInt_serialize_prefix pre :
  bytes_ok pre -> last pre <> Some 0 -> (length pre <= SCALE_MAX_BYTES)%nat ->
  ScaleBigInt_serialize (scale_of_prefix pre) = scale_enc pre.
Proof.
  intros Hb Hl Hlen. unfold ScaleBigInt_serialize. rewrite scale_size_prefix by done.
  destruct pre as [|a [|b [|c [|d [|e pre]]]]];
    rewrite ?Forall_cons in Hb; destruct_and?.
  6: { cbn [length] in *. rewrite Nat.sub_succ, Nat.sub_0_r.
       replace (S (S (S (S (S (length pre))))) + 1)%nat with (S (S (S (S (S (S (length pre))))))) by lia.
       cbn [scale_enc length]. rewrite n_byte_head by (unfold SCALE_MAX_BYTES in *; lia).
       f_equal; [lia|]. apply scale_prefix_take; simpl; lia. }
  all: simpl length; simpl (_ - 1)%nat; unfold nth_byte at 1; simpl lookup; simpl default.
  all: cbn [scale_enc];
    try match goal with |- context [?x <? 64] => destruct (x <? 64) eqn:E end;
    try (unfold nth_byte in E; simpl in E; rewrite ?E).
  all: unfold nth_byte; cbn -[Z.mul Z.modulo Z.div Z.lor bot6bits top2bits Z.add wrap].
  all: unfold SCALE_ONE_BYTE_MARKER, SCALE_TWO_BYTE_MARKER, SCALE_FOUR_BYTE_MARKER.
  all: rewrite ?bot6bits_marker, ?lor_top2_bot6 by first [assumption | unfold is_byte; lia].
  all: unfold is_byte in *; repeat apply (f_equal2 cons); first [reflexivity | dlia].
Qed.

(** *** Lemmas: decoding *)

Lemma read_exact_app bs rest : read_exact (length bs) (bs ++ rest) = Ok (bs, rest).
Proof.
  unfold read_exact. rewrite length_app.
  destruct (Nat.ltb_spec (length bs + length rest) (length bs)); [lia|].
  by rewrite take_app_length, drop_app_length.
Qed.

Lemma read_exact_app' n bs rest :
  length bs = n -> read_exact n (bs ++ rest) = Ok (bs, rest).
Proof. intros <-. apply read_exact_app. Qed.

Lemma read_exact_inv n bs l rest :
  read_exact n bs = Ok (l, rest) -> bs = l ++ rest /\ length l = n.
Proof.
  unfold read_exact. destruct (Nat.ltb_spec (length bs) n); [done|]. intros [= <- <-].
  rewrite take_drop, length_take. split; [done|lia].
Qed.

Lemma scale_of_prefix_snoc_zero pre :
  (length pre < SCALE_MAX_BYTES)%nat -> scale_of_prefix (pre ++ [0]) = scale_of_prefix pre.
Proof.
  intros. unfold scale_of_prefix. rewrite length_app, <- app_assoc. simpl. f_equal.
  replace (SCALE_MAX_BYTES - length pre)%nat
    with (S (SCALE_MAX_BYTES - (length pre + 1))) by lia. done.
Qed.

(** The decoder with the bit operations written as arithmetic. *)
Definition scale_dec (bs : list Z) : result ErrorKind (list Z * list Z) :=
  match bs with
  | [] => Err UnexpectedEof
  | f :: bs1 =>
      if f mod 4 =? 0 then Ok (scale_of_prefix [f / 4], bs1)
      else if f mod 4 =? 1 then
        match bs1 with
        | s :: rest => if s =? 0 then Err InvalidData
                       else Ok (scale_of_prefix [f / 4 + s mod 4 * 64; s / 4], rest)
        | _ => Err UnexpectedEof
        end
      else if f mod 4 =? 2 then
        match bs1 with
        | s :: t :: u :: rest =>
            if (t =? 0) && (u =? 0) then Err InvalidData
            else Ok (scale_of_prefix [f / 4 + s mod 4 * 64; s / 4 + t mod 4 * 64;
                                      t / 4 + u mod 4 * 64; u / 4], rest)
        | _ => Err UnexpectedEof
        end
      else
        let n := Z.to_nat (f / 4 + 4) in
        if (length bs1 <? n)%nat then Err UnexpectedEof
        else if nth_byte (take n bs1) (n - 1) =? 0 then Err InvalidData
        else Ok (scale_of_prefix (take n bs1), drop n bs1)
  end.

Lemma ScaleBigInt_deserialize_arith bs :
  bytes_ok bs -> ScaleBigInt_deserialize bs = scale_dec bs.
Proof.
  intros Hb. unfold ScaleBigInt_deserialize, mbind, Reader_bind.
  destruct bs as [|f bs]; [done|]. apply Forall_cons in Hb as [Hf Hb].
  cbn [read_u8 scale_dec]. rewrite marker_spec by done.
  unfold SCALE_ONE_BYTE_MARKER, SCALE_TWO_BYTE_MARKER, SCALE_FOUR_BYTE_MARKER.
  case_match; [by rewrite top6bits_spec|]. case_match.
  { destruct bs as [|s bs]; [done|]. apply Forall_cons in Hb as [Hs Hb]. cbn [read_u8].
    case_match; [done|]. by rewrite lor_top6_bot2, top6bits_spec. }
  case_match.
  { destruct bs as [|s [|t [|u bs]]]; try done.
    rewrite !Forall_cons in Hb. destruct_and!. cbn [read_u8].
    destruct ((t =? 0) && (u =? 0)); [done|]. by rewrite !lor_top6_bot2, top6bits_spec. }
  rewrite top6bits_spec by done. unfold read_exact. cbv zeta.
  destruct (length bs <? _)%nat; [done|]. by destruct (nth_byte _ _ =? 0).
Qed.

Lemma nth_byte_last (l : list Z) n :
  length l = S n -> nth_byte l n = 0 <-> last l = Some 0.
Proof.
  intros Hl. unfold nth_byte. rewrite last_lookup, Hl. simpl.
  destruct (lookup_lt_is_Some_2 l n) as [x ->]; [lia|]. simpl. naive_solver.
Qed.

Lemma scale_enc_ok pre :
  bytes_ok pre -> (length pre <= SCALE_MAX_BYTES)%nat -> bytes_ok (scale_enc pre).
Proof.
  intros Hb Hlen.
  destruct pre as [|a [|b [|c [|d [|e pre]]]]]; cbn [scale_enc];
    repeat case_match; rewrite ?Forall_cons in *; destruct_and?; unfold is_byte in *;
    split_and?; try done; try (cbn [length]; unfold SCALE_MAX_BYTES in *; simpl in Hlen; lia);
    dlia.
Qed.

Lemma scale_dec_enc pre rest :
  bytes_ok pre -> last pre <> Some 0 -> (length pre <= SCALE_MAX_BYTES)%nat ->
  scale_dec (scale_enc pre ++ rest) = Ok (scale_of_prefix pre, rest).
Proof.
  intros Hb Hl Hlen.
  assert (Hn : forall f, f mod 4 = 3 -> f / 4 + 4 = Z.of_nat (length pre) -> pre <> [] ->
    scale_dec (f :: pre ++ rest) = Ok (scale_of_prefix pre, rest)).
  { intros f Hf Hd Hne. unfold scale_dec. rewrite Hf, Hd. cbn [Z.eqb Pos.eqb].
    cbv zeta. rewrite Nat2Z.id, length_app.
    destruct (Nat.ltb_spec (length pre + length rest) (length pre)); [lia|].
    rewrite take_app_length, drop_app_length.
    destruct (length pre) as [|n] eqn:En; [by destruct pre|].
    replace (S n - 1)%nat with n by lia.
    destruct (Z.eqb_spec (nth_byte pre n) 0) as [H0|]; [|done].
    by apply nth_byte_last in H0. }
  destruct pre as [|a [|b [|c [|d [|e pre]]]]]; cbn [scale_enc].
  6: { rewrite <- app_comm_cons. apply Hn; [cbn [length]; dlia | cbn [length]; dlia | done]. }
  5: destruct (d <? 64) eqn:Ed;
     [|change ((3 :: [a; b; c; d]) ++ rest) with (3 :: [a; b; c; d] ++ rest); by apply Hn].
  3: destruct (b <? 64) eqn:Eb.
  2: destruct (a <? 64) eqn:Ea.
  all: rewrite ?Forall_cons in Hb; destruct_and?; clear Hn Hlen; unfold is_byte in *;
    simpl in Hl; try match type of Hl with Some ?x <> _ => assert (x <> 0) by congruence end;
    cbn [app]; unfold scale_dec.
  all: repeat match goal with
    |- context [?x =? ?y] => destruct (Z.eqb_spec x y); try (exfalso; dlia) end.
  all: cbn [andb]; do 2 f_equal; unfold scale_of_prefix;
    cbn -[Z.mul Z.modulo Z.div Z.add]; repeat apply (f_equal2 cons); first [reflexivity | dlia].
Qed.

(** Decoding what was encoded gives the value back and leaves what follows. *)
Lemma ScaleBigInt_roundtrip s rest :
  ScaleBigInt_ok s -> bytes_ok rest ->
  ScaleBigInt_deserialize (ScaleBigInt_serialize s ++ rest) = Ok (s, rest).
Proof.
  intros [Hlen Hb] Hrest. destruct (scale_split s Hlen) as (pre & -> & Hl & Hpre).
  apply Forall_app in Hb as [Hb _].
  rewrite ScaleBigInt_serialize_prefix by done.
  rewrite ScaleBigInt_deserialize_arith; [by apply scale_dec_enc|].
  apply Forall_app; split; [by apply scale_enc_ok | done].
Qed.

Lemma serialize_prefix_tail pre tl :
  bytes_ok pre -> last pre <> Some 0 -> (length pre + tl <= SCALE_MAX_BYTES)%nat ->
  ScaleBigInt_serialize (scale_of_prefix (pre ++ replicate tl 0)) = scale_enc pre.
Proof.
  intros Hb Hl Hlen. rewrite <- ScaleBigInt_serialize_prefix by (done || lia).
  f_equal. unfold scale_of_prefix. rewrite <- app_assoc, length_app, length_replicate.
  f_equal. rewrite <- replicate_add. f_equal. lia.
Qed.

Ltac canon_case pre tl :=
  let H := fresh in
  pose proof (serialize_prefix_tail pre tl) as H; cbn [app replicate] in H; rewrite H; clear H;
  [ cbn [scale_enc app]; repeat case_match; cbn [app];
    repeat apply (f_equal2 cons); first [reflexivity | dlia]
  | repeat constructor; unfold is_byte; dlia
  | simpl; intros [= ?]; dlia
  | simpl; unfold SCALE_MAX_BYTES; lia ].

(** The [n]-byte form: canonical, except for four bytes below 2^30. *)
Lemma scale_enc_n_byte pre :
  (4 <= length pre)%nat -> last pre <> Some 0 -> bytes_ok pre ->
  scale_enc pre = (Z.of_nat (length pre) - 4) * 4 + 3 :: pre \/
  (exists a b c d, pre = [a; b; c; d] /\ 0 < d < 64).
Proof.
  intros Hlen Hl Hb. destruct pre as [|a [|b [|c [|d [|e pre]]]]]; simpl in Hlen; try lia.
  - cbn [scale_enc]. destruct (Z.ltb_spec d 64); [right|by left].
    exists a, b, c, d. split; [done|]. rewrite !Forall_cons in Hb. destruct_and!.
    simpl in Hl. assert (d <> 0) by congruence. unfold is_byte in *. lia.
  - by left.
Qed.

(** Encodings accepted by the decoder: the canonical one, or a value below
    2^30 in the five-byte form. *)
Lemma scale_dec_canonical bs s rest :
  bytes_ok bs -> scale_dec bs = Ok (s, rest) ->
  bs = ScaleBigInt_serialize s ++ rest \/
  (exists a b c d, bs = 3 :: a :: b :: c :: d :: rest /\ 0 < d < 64).
Proof.
  intros Hb. destruct bs as [|f bs]; [done|]. apply Forall_cons in Hb as [Hf Hb].
  unfold is_byte in Hf. cbn [scale_dec].
  destruct (Z.eqb_spec (f mod 4) 0).
  { intros [= <- <-]. left. destruct (decide (f / 4 = 0)) as [E0|].
    - rewrite E0. canon_case (@nil Z) 1%nat.
    - canon_case [f / 4] 0%nat. }
  destruct (Z.eqb_spec (f mod 4) 1).
  { destruct bs as [|s1 bs]; [done|]. apply Forall_cons in Hb as [Hs Hb]. unfold is_byte in Hs.
    destruct (Z.eqb_spec s1 0); [done|]. intros [= <- <-]. left.
    destruct (decide (s1 / 4 = 0)) as [E0|].
    - rewrite E0. canon_case [f / 4 + s1 mod 4 * 64] 1%nat.
    - canon_case [f / 4 + s1 mod 4 * 64; s1 / 4] 0%nat. }
  destruct (Z.eqb_spec (f mod 4) 2).
  { destruct bs as [|s1 [|t1 [|u1 bs]]]; try done.
    rewrite !Forall_cons in Hb. destruct_and!. unfold is_byte in *.
    destruct ((t1 =? 0) && (u1 =? 0)) eqn:E; [done|].
    assert (t1 <> 0 \/ u1 <> 0) by (apply andb_false_iff in E as [?%Z.eqb_neq|?%Z.eqb_neq]; auto).
    clear E. intros [= <- <-]. left.
    destruct (decide (u1 / 4 = 0)) as [E0|].
    - rewrite E0. destruct (decide (t1 / 4 + u1 mod 4 * 64 = 0)) as [E1|].
      + rewrite E1. canon_case [f / 4 + s1 mod 4 * 64; s1 / 4 + t1 mod 4 * 64] 2%nat.
      + canon_case [f / 4 + s1 mod 4 * 64; s1 / 4 + t1 mod 4 * 64; t1 / 4 + u1 mod 4 * 64] 1%nat.
    - canon_case [f / 4 + s1 mod 4 * 64; s1 / 4 + t1 mod 4 * 64;
                  t1 / 4 + u1 mod 4 * 64; u1 / 4] 0%nat. }
  set (k := Z.to_nat (f / 4 + 4)). destruct (Nat.ltb_spec (length bs) k); [done|].
  destruct (Z.eqb_spec (nth_byte (take k bs) (k - 1)) 0) as [|Hlast]; [done|]. intros [= <- <-].
  assert (Hlen : length (take k bs) = k) by (rewrite length_take; lia).
  assert (Hk : (4 <= k <= SCALE_MAX_BYTES)%nat) by (unfold k, SCALE_MAX_BYTES; dlia).
  assert (Hl : last (take k bs) <> Some 0).
  { intros Hx. apply Hlast, nth_byte_last; [lia|done]. }
  assert (Hbk : bytes_ok (take k bs)) by by apply Forall_take.
  rewrite ScaleBigInt_serialize_prefix by (done || lia).
  assert (Hhd : f = (Z.of_nat k - 4) * 4 + 3) by (unfold k; dlia). clearbody k.
  assert (Hsplit : bs = take k bs ++ drop k bs) by (symmetry; apply take_drop).
  destruct (scale_enc_n_byte (take k bs)) as [He|(a & b & c & d & He & Hd)]; [lia|done|done|..].
  - left. rewrite He, Hlen, <- Hhd. simpl. by f_equal.
  - right. exists a, b, c, d. split; [|done]. rewrite He in Hlen, Hsplit. simpl in Hlen.
    rewrite Hsplit at 1. rewrite Hhd, <- Hlen. reflexivity.
Qed.

(** Decoding accepts the canonical encoding of the value it returns, and
    besides it only the five-byte form of a value below 2^30. *)
Lemma ScaleBigInt_canonical bs s rest :
  bytes_ok bs -> ScaleBigInt_deserialize bs = Ok (s, rest) ->
  bs = ScaleBigInt_serialize s ++ rest \/
  (exists a b c d, bs = 3 :: a :: b :: c :: d :: rest /\ 0 < d < 64).
Proof.
  intros Hb. rewrite ScaleBigInt_deserialize_arith by done. by apply scale_dec_canonical.
Qed.

(** ** Chunked reading *)

Lemma read_exact_to_vec_loop_spec fuel n len res bs :
  (len <= n)%nat -> (n - len < fuel)%nat ->
  read_exact_to_vec_loop fuel n len res bs =
  match read_exact (n - len) bs with
  | Ok (a, rest) => Ok (res ++ a, rest)
  | Err e => Err e
  end.
Proof.
  revert len res bs; induction fuel as [|fuel IH]; intros len res bs Hle Hf; [lia|].
  cbn [read_exact_to_vec_loop]. destruct (Nat.ltb_spec len n) as [Hlt|Hge].
  - unfold mbind, Reader_bind, read_exact, CHUNK_SIZE.
    set (k := Nat.min n (len + 4096)). assert (Hk : (len < k <= n)%nat) by lia. clearbody k.
    destruct (Nat.ltb_spec (length bs) (k - len)).
    + destruct (Nat.ltb_spec (length bs) (n - len)); [done|lia].
    + rewrite IH by lia. unfold read_exact. rewrite length_drop.
      destruct (Nat.ltb_spec (length bs - (k - len)) (n - k)),
               (Nat.ltb_spec (length bs) (n - len)); try lia; [done|].
      rewrite <- app_assoc, drop_drop. replace (n - len)%nat with ((k - len) + (n - k))%nat by lia.
      rewrite <- (take_take_drop bs (k - len) (n - k)). done.
  - unfold mret, Reader_ret, read_exact. replace (n - len)%nat with 0%nat by lia.
    destruct (Nat.ltb_spec (length bs) 0); [lia|]. by rewrite app_nil_r.
Qed.

(** Reading in bounded chunks is the same as one [read_exact]. *)
Lemma read_exact_to_vec_spec n bs : read_exact_to_vec n bs = read_exact n bs.
Proof.
  unfold read_exact_to_vec. rewrite read_exact_to_vec_loop_spec by lia.
  rewrite Nat.sub_0_r. by destruct (read_exact n bs) as [[]|].
Qed.

(** ** UTF-8 ([String::from_utf8])

    A [String] is the list of its bytes; [utf8_chars] splits it into
    characters, or fails when it is not valid UTF-8. *)

Definition in_range (lo hi b : Z) : bool := (lo <=? b) && (b <=? hi).
Definition is_cont (b : Z) : bool := in_range 128 191 b.

Fixpoint utf8_chars (bs : list Z) : option (list (list Z)) :=
  match bs with
  | [] => Some []
  | b :: rest1 =>
      if b <? 128 then cons [b] <$> utf8_chars rest1
      else match rest1 with
      | [] => None
      | b1 :: rest2 =>
          if in_range 194 223 b then
            if is_cont b1 then cons [b; b1] <$> utf8_chars rest2 else None
          else match rest2 with
          | [] => None
          | b2 :: rest3 =>
              let ok3 := (in_range 225 236 b || in_range 238 239 b) && is_cont b1
                         || (b =? 224) && in_range 160 191 b1
                         || (b =? 237) && in_range 128 159 b1 in
              if ok3 then
                if is_cont b2 then cons [b; b1; b2] <$> utf8_chars rest3 else None
              else match rest3 with
              | [] => None
              | b3 :: rest4 =>
                  let ok4 := in_range 241 243 b && is_cont b1
                             || (b =? 240) && in_range 144 191 b1
                             || (b =? 244) && in_range 128 143 b1 in
                  if ok4 && is_cont b2 && is_cont b3
                  then cons [b; b1; b2; b3] <$> utf8_chars rest4 else None
              end
          end
      end
  end.

(** ** The traits [Serializable] and [Deserializable] *)

(** [RECURSION_LIMIT] of a release build. *)
Definition RECURSION_LIMIT : Z := 250.

(** What an implementation of the two traits provides: the bytes [serialize]
    writes, [serialized_size], and [deserialize] at a recursion depth. *)
Record Codec (T : Type) := mkCodec {
  serialize : T -> list Z;
  serialized_size : T -> nat;
  deserialize : Z -> Reader T
}.
Arguments mkCodec {T}.
Arguments serialize {T}.
Arguments serialized_size {T}.
Arguments deserialize {T}.

(** [Deserializable::check_rec], followed by the rest at the new depth. *)
Definition check_rec {T} (recursion_depth : Z) (k : Z -> Reader T) : Reader T :=
  let depth := recursion_depth + 1 in
  if RECURSION_LIMIT <? depth then read_fail InvalidData else k depth.

Definition unit_codec : Codec unit :=
  mkCodec (fun _ => []) (fun _ => 0%nat) (fun _ => mret tt).

Definition bool_codec : Codec bool :=
  mkCodec (fun b : bool => [if b then 1 else 0]) (fun _ => 1%nat)
    (fun _ => buf ← read_exact 1;
      let v := nth_byte buf 0 in
      if v =? 0 then mret false else if v =? 1 then mret true
      else read_fail InvalidData).

(** [via_le_bytes!] at an unsigned type of [n] bytes. *)
Definition via_le_bytes (n : nat) : Codec Z :=
  mkCodec (to_le_bytes n) (fun _ => n)
    (fun _ => buf ← read_exact n; mret (from_le_bytes buf)).

(** [via_le_bytes!] at a signed type of [n] bytes. *)
Definition via_le_bytes_signed (n : nat) : Codec Z :=
  mkCodec (to_le_bytes n) (fun _ => n)
    (fun _ => buf ← read_exact n; mret (from_le_bytes_signed buf)).

Definition u8_codec := via_le_bytes 1.
Definition u16_codec := via_le_bytes 2.
Definition i8_codec := via_le_bytes_signed 1.
Definition i16_codec := via_le_bytes_signed 2.
Definition i32_codec := via_le_bytes_signed 4.
Definition i64_codec := via_le_bytes_signed 8.
Definition i128_codec := via_le_bytes_signed 16.

(** [ScaleBigInt::from] and [try_from] at a type of [n] bytes. *)
Definition ScaleBigInt_from (n : nat) (val : Z) : list Z :=
  scale_of_prefix (to_le_bytes n val).

Definition ScaleBigInt_try_into (n : nat) (val : list Z) : result ErrorKind Z :=
  if existsb (fun b => negb (b =? 0)) (drop n val) then Err InvalidData
  else Ok (from_le_bytes (take n val)).

Definition lift_res {A} (r : result ErrorKind A) : Reader A :=
  fun bs => match r with Ok a => Ok (a, bs) | Err e => Err e end.

(** [via_scale!]. *)
Definition via_scale (n : nat) : Codec Z :=
  mkCodec (fun x => ScaleBigInt_serialize (ScaleBigInt_from n x))
    (fun x => ScaleBigInt_serialized_size (ScaleBigInt_from n x))
    (fun _ => s ← ScaleBigInt_deserialize; lift_res (ScaleBigInt_try_into n s)).

Definition u32_codec := via_scale 4.
Definition u64_codec := via_scale 8.
Definition u128_codec := via_scale 16.

(** [for _ in 0..len { result.push(T::deserialize(..)?) }]. *)
Fixpoint read_many {T} (n : nat) (rd : Reader T) : Reader (list T) :=
  match n with
  | O => mret []
  | S n' => x ← rd; l ← read_many n' rd; mret (x :: l)
  end.

Definition Vec_codec {T} (c : Codec T) : Codec (list T) :=
  mkCodec
    (fun v => serialize u32_codec (wrap 32 (Z.of_nat (length v))) ++ v ≫= serialize c)
    (fun v => foldl (fun acc x => acc + serialized_size c x)%nat
                (serialized_size u64_codec (wrap 64 (Z.of_nat (length v)))) v)
    (fun rd => check_rec rd (fun d =>
       len ← deserialize u32_codec d;
       read_many (Z.to_nat len) (deserialize c d))).

Definition Option_codec {T} (c : Codec T) : Codec (option T) :=
  mkCodec
    (fun o => match o with
              | Some v => serialize u8_codec 1 ++ serialize c v
              | None => serialize u8_codec 0
              end)
    (fun o => match o with Some v => 1 + serialized_size c v | None => 1 end)%nat
    (fun rd => check_rec rd (fun d =>
       some ← deserialize u8_codec d;
       if some =? 0 then mret None
       else if some =? 1 then v ← deserialize c d; mret (Some v)
       else read_fail InvalidData)).

(** [[u8; N]]. *)
Definition bytes_codec (n : nat) : Codec (list Z) :=
  mkCodec (fun b => b) (fun _ => n) (fun _ => read_exact n).

(** [Arc<T>] counts as one level of recursion, [Box<T>] as none. *)
Definition Arc_codec {T} (c : Codec T) : Codec T :=
  mkCodec (serialize c) (serialized_size c) (fun rd => check_rec rd (deserialize c)).

(** The fields of a tuple, one after the other, at the same depth. *)
Definition seq_codec {A B} (a : Codec A) (b : Codec B) : Codec (A * B) :=
  mkCodec
    (fun p => serialize a p.1 ++ serialize b p.2)
    (fun p => serialized_size a p.1 + serialized_size b p.2)%nat
    (fun d => x ← deserialize a d; y ← deserialize b d; mret (x, y)).

(** [tuple_serializable!]: the fields, one level deeper.  A tuple of more than
    two fields is nested to the right with [seq_codec], inside one [tuple_codec]. *)
Definition tuple_codec {A B} (a : Codec A) (b : Codec B) : Codec (A * B) :=
  let s := seq_codec a b in
  mkCodec (serialize s) (serialized_size s) (fun rd => check_rec rd (deserialize s)).

(** [String]: written with a [u64] length, read as a [Vec<u8>]. *)
Definition String_codec : Codec (list Z) :=
  mkCodec
    (fun s => serialize u64_codec (wrap 64 (Z.of_nat (length s))) ++ s)
    (fun s => serialized_size u64_codec (wrap 64 (Z.of_nat (length s))) + length s)%nat
    (fun rd => vec ← deserialize (Vec_codec u8_codec) rd;
       match utf8_chars vec with Some _ => mret vec | None => read_fail InvalidData end).

(** *** Lemmas: compact integers at a machine width *)

Lemma scale_of_prefix_ok pre :
  bytes_ok pre -> (length pre <= SCALE_MAX_BYTES)%nat -> ScaleBigInt_ok (scale_of_prefix pre).
Proof.
  intros Hb Hlen. unfold ScaleBigInt_ok, scale_of_prefix.
  rewrite length_app, length_replicate. split; [lia|].
  apply Forall_app; split; [done|]. apply Forall_replicate. unfold is_byte; lia.
Qed.

Lemma ScaleBigInt_serialize_size s :
  ScaleBigInt_ok s -> length (ScaleBigInt_serialize s) = ScaleBigInt_serialized_size s.
Proof.
  intros [Hlen Hb]. destruct (scale_split s Hlen) as (pre & -> & Hl & Hpre).
  apply Forall_app in Hb as [Hb _].
  rewrite ScaleBigInt_serialize_prefix, scale_size_prefix by done.
  destruct pre as [|a [|b [|c [|d [|e pre]]]]]; cbn [scale_enc length];
    unfold nth_byte; simpl; repeat case_match; simpl; lia.
Qed.

Lemma ScaleBigInt_serialize_bytes s :
  ScaleBigInt_ok s -> bytes_ok (ScaleBigInt_serialize s).
Proof.
  intros [Hlen Hb]. destruct (scale_split s Hlen) as (pre & -> & Hl & Hpre).
  apply Forall_app in Hb as [Hb _].
  rewrite ScaleBigInt_serialize_prefix by done. by apply scale_enc_ok.
Qed.

Lemma scale_dec_ok bs s rest :
  bytes_ok bs -> scale_dec bs = Ok (s, rest) -> ScaleBigInt_ok s.
Proof.
  intros Hb. destruct bs as [|f bs]; [done|]. apply Forall_cons in Hb as [Hf Hb].
  unfold is_byte in Hf. cbn [scale_dec].
  destruct (Z.eqb_spec (f mod 4) 0).
  { intros [= <- <-]. apply scale_of_prefix_ok; [|simpl; unfold SCALE_MAX_BYTES; lia].
    repeat constructor; dlia. }
  destruct (Z.eqb_spec (f mod 4) 1).
  { destruct bs as [|s1 bs]; [done|]. apply Forall_cons in Hb as [Hs Hb]. unfold is_byte in Hs.
    case_match; [done|]. intros [= <- <-].
    apply scale_of_prefix_ok; [|simpl; unfold SCALE_MAX_BYTES; lia].
    repeat constructor; dlia. }
  destruct (Z.eqb_spec (f mod 4) 2).
  { destruct bs as [|s1 [|t1 [|u1 bs]]]; try done.
    rewrite !Forall_cons in Hb. destruct_and!. unfold is_byte in *.
    destruct ((t1 =? 0) && (u1 =? 0)); [done|]. intros [= <- <-].
    apply scale_of_prefix_ok; [|simpl; unfold SCALE_MAX_BYTES; lia].
    repeat constructor; dlia. }
  cbv zeta. destruct (Nat.ltb_spec (length bs) (Z.to_nat (f / 4 + 4))); [done|].
  case_match; [done|]. intros [= <- <-].
  apply scale_of_prefix_ok; [by apply Forall_take|].
  rewrite length_take. unfold SCALE_MAX_BYTES. dlia.
Qed.

Lemma ScaleBigInt_deserialize_sound bs s rest :
  bytes_ok bs -> ScaleBigInt_deserialize bs = Ok (s, rest) ->
  ScaleBigInt_ok s /\ exists used, bs = used ++ rest.
Proof.
  intros Hb Hd. pose proof (ScaleBigInt_canonical _ _ _ Hb Hd) as Hc.
  rewrite ScaleBigInt_deserialize_arith in Hd by done. split; [by eapply scale_dec_ok|].
  destruct Hc as [->|(a & b & c & d & -> & _)]; [eauto|].
  by exists [3; a; b; c; d].
Qed.

Lemma ScaleBigInt_from_ok n x :
  (n <= SCALE_MAX_BYTES)%nat -> ScaleBigInt_ok (ScaleBigInt_from n x).
Proof.
  intros. apply scale_of_prefix_ok; [apply to_le_bytes_ok|by rewrite length_to_le_bytes].
Qed.

Lemma ScaleBigInt_from_into n x :
  0 <= x < 256 ^ Z.of_nat n -> ScaleBigInt_try_into n (ScaleBigInt_from n x) = Ok x.
Proof.
  intros Hx. unfold ScaleBigInt_try_into, ScaleBigInt_from, scale_of_prefix.
  rewrite drop_app_length', take_app_length' by (by rewrite length_to_le_bytes).
  rewrite from_to_le_bytes_small by done.
  destruct (existsb _ _) eqn:E; [|done]. apply existsb_exists in E as (b & Hin & Hb).
  apply list_elem_of_In, elem_of_replicate in Hin as [-> _]. done.
Qed.

(** ** What every codec promises

    [ok] says which values the type has, [levels] how many recursion levels
    decoding uses.  The laws: encodings are bytes and as long as announced;
    decoding an encoding gives the value back and leaves what follows it; and
    whatever decoding accepts is a value of the type, read from a prefix. *)
Class CodecLaws {T} (c : Codec T) (ok : T -> Prop) (levels : Z) : Prop := {
  law_levels : 0 <= levels;
  law_bytes x : ok x -> bytes_ok (serialize c x);
  law_size x : ok x -> length (serialize c x) = serialized_size c x;
  law_roundtrip d x rest :
    ok x -> d + levels <= RECURSION_LIMIT -> bytes_ok rest ->
    deserialize c d (serialize c x ++ rest) = Ok (x, rest);
  law_sound d bs x rest :
    bytes_ok bs -> deserialize c d bs = Ok (x, rest) ->
    ok x /\ exists used, bs = used ++ rest
}.

(** Running a reader: the steps of a [bind]. *)
Lemma Reader_bind_Ok {A B} (m : Reader A) (k : A -> Reader B) bs b rest :
  (m ≫= k) bs = Ok (b, rest) <->
  exists a mid, m bs = Ok (a, mid) /\ k a mid = Ok (b, rest).
Proof.
  unfold mbind, Reader_bind. destruct (m bs) as [[a mid]|e]; split.
  - eauto.
  - by intros (? & ? & [= <- <-] & ?).
  - done.
  - by intros (? & ? & ? & _).
Qed.

Lemma Reader_bind_step {A B} (m : Reader A) (k : A -> Reader B) bs a mid :
  m bs = Ok (a, mid) -> (m ≫= k) bs = k a mid.
Proof. unfold mbind, Reader_bind. by intros ->. Qed.

Lemma Reader_ret_Ok {A} (a b : A) bs rest :
  (mret a : Reader A) bs = Ok (b, rest) <-> a = b /\ bs = rest.
Proof. unfold mret, Reader_ret. split; [by intros [= -> ->]|by intros [-> ->]]. Qed.

Lemma check_rec_Ok {T} d (k : Z -> Reader T) bs x rest :
  check_rec d k bs = Ok (x, rest) -> d < RECURSION_LIMIT /\ k (d + 1) bs = Ok (x, rest).
Proof. unfold check_rec. cbv zeta. case_match; [done|]. intros. split; [lia|done]. Qed.

Lemma check_rec_step {T} d (k : Z -> Reader T) bs :
  d + 1 <= RECURSION_LIMIT -> check_rec d k bs = k (d + 1) bs.
Proof. intros. unfold check_rec. cbv zeta. destruct (Z.ltb_spec RECURSION_LIMIT (d + 1)); [lia|done]. Qed.

(** Past the limit, nothing is read. *)
Lemma check_rec_limit {T} d (k : Z -> Reader T) bs :
  RECURSION_LIMIT <= d -> check_rec d k bs = Err InvalidData.
Proof. intros. unfold check_rec. cbv zeta. destruct (Z.ltb_spec RECURSION_LIMIT (d + 1)); [done|lia]. Qed.

#[export] Hint Resolve to_le_bytes_ok Forall_nil_2 : midnight.

#[export] Instance unit_laws : CodecLaws unit_codec (fun _ => True) 0.
Proof.
  split; [lia| |done| |].
  - intros; constructor.
  - by intros d [] rest _ _ _.
  - intros d bs [] rest _ [_ ->]%Reader_ret_Ok. split; [done|by exists []].
Qed.

#[export] Instance bool_laws : CodecLaws bool_codec (fun _ => True) 0.
Proof.
  split; [lia| |done| |].
  - intros [] _; repeat constructor; unfold is_byte; lia.
  - by intros d [] rest _ _ _.
  - intros d bs x rest _ Hd. split; [done|].
    apply Reader_bind_Ok in Hd as (buf & mid & [-> _]%read_exact_inv & Hd).
    exists buf. cbv zeta in Hd. repeat case_match; try done; by apply Reader_ret_Ok in Hd as [_ <-].
Qed.

Lemma via_le_bytes_laws n :
  CodecLaws (via_le_bytes n) (fun x => 0 <= x < 256 ^ Z.of_nat n) 0.
Proof.
  split; [lia|intros; simpl; auto with midnight| | |].
  - intros x _. apply length_to_le_bytes.
  - intros d x rest Hx _ _. simpl. erewrite Reader_bind_step by
      (apply read_exact_app', length_to_le_bytes).
    by rewrite from_to_le_bytes_small.
  - intros d bs x rest Hb Hd. simpl in Hd.
    apply Reader_bind_Ok in Hd as (buf & mid & [-> Hl]%read_exact_inv & Hd).
    apply Reader_ret_Ok in Hd as [<- <-]. apply Forall_app in Hb as [Hb _].
    split; [|eauto]. rewrite <- Hl. by apply from_le_bytes_bound.
Qed.

Lemma pow_bytes n : (0 < n)%nat -> 256 ^ Z.of_nat n = 2 * 2 ^ (8 * Z.of_nat n - 1).
Proof.
  intros. rewrite <- Z.pow_succ_r by lia. change 256 with (2 ^ 8).
  rewrite <- Z.pow_mul_r by lia. f_equal. lia.
Qed.

(** Two's complement: what [to_le_bytes] writes, [from_le_bytes] reads. *)
Lemma from_to_le_bytes_signed n x :
  (0 < n)%nat -> in_i (8 * Z.of_nat n) x -> from_le_bytes_signed (to_le_bytes n x) = x.
Proof.
  intros Hn [Hlo Hhi]. unfold i_min, i_max in *. unfold from_le_bytes_signed.
  rewrite length_to_le_bytes, from_to_le_bytes. cbv zeta.
  pose proof (pow_bytes n Hn) as Hp.
  assert (H2 : 2 ^ (8 * Z.of_nat n) = 256 ^ Z.of_nat n)
    by (rewrite Hp, <- Z.pow_succ_r by lia; f_equal; lia).
  rewrite H2, Hp in *. set (P := 2 ^ (8 * Z.of_nat n - 1)) in *. clearbody P.
  destruct (decide (0 <= x)).
  - rewrite Z.mod_small by lia. destruct (Z.ltb_spec x P); lia.
  - rewrite <- (Z_mod_plus_full x 1), Z.mod_small by lia.
    destruct (Z.ltb_spec (x + 1 * (2 * P)) P); lia.
Qed.

Lemma via_le_bytes_signed_laws n :
  (0 < n)%nat -> CodecLaws (via_le_bytes_signed n) (in_i (8 * Z.of_nat n)) 0.
Proof.
  intros Hn. split; [lia|intros; simpl; auto with midnight| | |].
  - intros x _. apply length_to_le_bytes.
  - intros d x rest Hx _ _. simpl. erewrite Reader_bind_step by
      (apply read_exact_app', length_to_le_bytes).
    by rewrite from_to_le_bytes_signed.
  - intros d bs x rest Hb Hd. simpl in Hd.
    apply Reader_bind_Ok in Hd as (buf & mid & [-> Hl]%read_exact_inv & Hd).
    apply Reader_ret_Ok in Hd as [<- <-]. apply Forall_app in Hb as [Hb _].
    split; [|eauto]. apply from_le_bytes_bound in Hb. unfold from_le_bytes_signed.
    rewrite Hl in *. cbv zeta. pose proof (pow_bytes n Hn) as Hp.
    assert (H2 : 2 ^ (8 * Z.of_nat n) = 256 ^ Z.of_nat n)
      by (rewrite Hp, <- Z.pow_succ_r by lia; f_equal; lia).
    unfold in_i, i_min, i_max. rewrite H2, Hp in *.
    destruct (Z.ltb_spec (from_le_bytes buf) (2 ^ (8 * Z.of_nat n - 1))); lia.
Qed.

Lemma via_scale_laws n :
  (n <= SCALE_MAX_BYTES)%nat -> CodecLaws (via_scale n) (fun x => 0 <= x < 256 ^ Z.of_nat n) 0.
Proof.
  intros Hn. split; [lia| | | |].
  - intros x _. by apply ScaleBigInt_serialize_bytes, ScaleBigInt_from_ok.
  - intros x _. by apply ScaleBigInt_serialize_size, ScaleBigInt_from_ok.
  - intros d x rest Hx _ Hrest. simpl. erewrite Reader_bind_step by
      (apply ScaleBigInt_roundtrip; [by apply ScaleBigInt_from_ok|done]).
    unfold lift_res. by rewrite ScaleBigInt_from_into.
  - intros d bs x rest Hb Hd. simpl in Hd.
    apply Reader_bind_Ok in Hd as (s & mid & Hs & Hd).
    apply ScaleBigInt_deserialize_sound in Hs as [[Hlen Hok] [used ->]]; [|done].
    unfold lift_res, ScaleBigInt_try_into in Hd.
    destruct (existsb _ _); [done|]. injection Hd as <- <-. split; [|eauto].
    assert (Hl : length (take n s) = n) by (rewrite length_take; lia).
    rewrite <- Hl at 3. by apply from_le_bytes_bound, Forall_take.
Qed.

#[export] Instance u8_laws : CodecLaws u8_codec is_byte 0 := via_le_bytes_laws 1.
#[export] Instance u16_laws : CodecLaws u16_codec (in_u 16) 0 := via_le_bytes_laws 2.
#[export] Instance i64_laws : CodecLaws i64_codec (in_i 64) 0.
Proof. apply via_le_bytes_signed_laws. lia. Qed.
#[export] Instance i128_laws : CodecLaws i128_codec (in_i 128) 0.
Proof. apply via_le_bytes_signed_laws. lia. Qed.
#[export] Instance u32_laws : CodecLaws u32_codec (in_u 32) 0.
Proof. apply (via_scale_laws 4). unfold SCALE_MAX_BYTES; lia. Qed.
#[export] Instance u64_laws : CodecLaws u64_codec (in_u 64) 0.
Proof. apply (via_scale_laws 8). unfold SCALE_MAX_BYTES; lia. Qed.
#[export] Instance u128_laws : CodecLaws u128_codec (in_u 128) 0.
Proof. apply (via_scale_laws 16). unfold SCALE_MAX_BYTES; lia. Qed.

#[export] Instance bytes_laws n : CodecLaws (bytes_codec n) (fun b => length b = n /\ bytes_ok b) 0.
Proof.
  split; [lia|by intros x []|by intros x []| |].
  - intros d x rest [Hl _] _ _. by apply read_exact_app'.
  - intros d bs x rest Hb [-> Hl]%read_exact_inv. apply Forall_app in Hb as [Hb _]. eauto.
Qed.

Section combinators.
Context {A B : Type} (a : Codec A) (b : Codec B).
Context {okA : A -> Prop} {okB : B -> Prop} {la lb : Z}.
Context {HA : CodecLaws a okA la} {HB : CodecLaws b okB lb}.

Lemma flat_bytes v : Forall okA v -> bytes_ok (v ≫= serialize a).
Proof. induction 1; csimpl; [constructor|]. apply Forall_app; split; [by apply law_bytes|done]. Qed.

Lemma flat_length v n :
  Forall okA v ->
  foldl (fun acc x => acc + serialized_size a x)%nat n v = (n + length (v ≫= serialize a))%nat.
Proof.
  intros Hv; revert n; induction Hv as [|x v Hx Hv IH]; intros n; csimpl; [lia|].
  rewrite IH, length_app, law_size by done. lia.
Qed.

Lemma read_many_roundtrip d v rest :
  Forall okA v -> d + la <= RECURSION_LIMIT -> bytes_ok rest ->
  read_many (length v) (deserialize a d) ((v ≫= serialize a) ++ rest) = Ok (v, rest).
Proof.
  intros Hv Hd Hrest. induction Hv as [|x v Hx Hv IH]; csimpl; [done|].
  rewrite <- app_assoc. erewrite Reader_bind_step by
    (apply law_roundtrip; [done..|apply Forall_app; split; [by apply flat_bytes|done]]).
  by erewrite Reader_bind_step by apply IH.
Qed.

Lemma read_many_sound d n bs v rest :
  bytes_ok bs -> read_many n (deserialize a d) bs = Ok (v, rest) ->
  Forall okA v /\ length v = n /\ exists used, bs = used ++ rest.
Proof.
  revert bs v; induction n as [|n IH]; intros bs v Hb; cbn [read_many].
  - intros [<- <-]%Reader_ret_Ok. split_and!; [constructor|done|by exists []].
  - intros (x & mid & Hx & (l & mid' & Hl & [<- <-]%Reader_ret_Ok)%Reader_bind_Ok)%Reader_bind_Ok.
    apply law_sound in Hx as [Hx [u ->]]; [|done]. apply Forall_app in Hb as [_ Hb].
    apply IH in Hl as (Hl & <- & [u' ->]); [|done].
    split_and!; [by constructor|done|]. exists (u ++ u'). by rewrite app_assoc.
Qed.

Definition Vec_ok (v : list A) : Prop := Forall okA v /\ in_u 32 (Z.of_nat (length v)).

Lemma u32_u64_size x :
  in_u 32 x -> length (serialize u32_codec x) = serialized_size u64_codec x.
Proof.
  intros Hx. rewrite law_size by done. simpl. f_equal. unfold ScaleBigInt_from.
  unfold in_u in Hx.
  assert (H8 : to_le_bytes 8 x = to_le_bytes 4 x ++ replicate 4 0).
  { cbn [to_le_bytes app replicate]. repeat apply (f_equal2 cons); try done;
      rewrite ?Z.div_div by lia; rewrite Z.div_small by (simpl; lia); done. }
  rewrite H8. unfold scale_of_prefix. rewrite <- app_assoc. f_equal.
Qed.

#[export] Instance Vec_laws : CodecLaws (Vec_codec a) Vec_ok (la + 1).
Proof.
  pose proof (law_levels (c := a)) as Hlv.
  assert (Hw : forall v, Vec_ok v -> wrap 32 (Z.of_nat (length v)) = Z.of_nat (length v)
                                 /\ wrap 64 (Z.of_nat (length v)) = Z.of_nat (length v)).
  { intros v [_ Hv]. unfold in_u in Hv. unfold wrap. rewrite !Z.mod_small by lia. done. }
  split; [lia| | | |].
  - intros v Hv. simpl. rewrite (proj1 (Hw v Hv)). destruct Hv as [Hv Hl].
    apply Forall_app; split; [by apply (law_bytes (c := u32_codec))|by apply flat_bytes].
  - intros v Hv. simpl. destruct (Hw v Hv) as [-> ->]. destruct Hv as [Hv Hl].
    rewrite flat_length, length_app by done. f_equal. by apply u32_u64_size.
  - intros d v rest Hv Hd Hrest. simpl. rewrite check_rec_step by lia.
    rewrite (proj1 (Hw v Hv)). destruct Hv as [Hv Hl]. rewrite <- app_assoc.
    erewrite Reader_bind_step.
    2: { apply (law_roundtrip (c := u32_codec) 0); [done|done|].
         apply Forall_app; split; [by apply flat_bytes|done]. }
    rewrite Nat2Z.id. apply read_many_roundtrip; [done|lia|done].
  - intros d bs v rest Hb (_ & (len & mid & Hlen & Hd)%Reader_bind_Ok)%check_rec_Ok.
    apply (law_sound (c := u32_codec) 0) in Hlen as [Hlen [u ->]]; [|done].
    apply Forall_app in Hb as [_ Hb].
    apply read_many_sound in Hd as (Hv & Hl & [u' ->]); [|done].
    unfold Vec_ok. rewrite Hl. unfold in_u in *. rewrite Z2Nat.id by lia.
    split; [done|]. exists (u ++ u'). by rewrite app_assoc.
Qed.

Definition Option_ok (o : option A) : Prop :=
  match o with Some x => okA x | None => True end.

#[export] Instance Option_laws : CodecLaws (Option_codec a) Option_ok (la + 1).
Proof.
  pose proof (law_levels (c := a)) as Hlv. split; [lia| | | |].
  - intros [x|] Hx; simpl.
    + constructor; [done|by apply law_bytes].
    + by repeat constructor.
  - intros [x|] Hx; simpl; [|done]. f_equal. by apply law_size.
  - intros d [x|] rest Hx Hd Hrest; simpl; rewrite check_rec_step by lia; [|done].
    erewrite Reader_bind_step by done. cbn [Z.eqb]. simpl.
    erewrite Reader_bind_step by (apply law_roundtrip; [done|lia|done]). done.
  - intros d bs o rest Hb (_ & (some & mid & Hs & Hd)%Reader_bind_Ok)%check_rec_Ok.
    apply (law_sound (c := u8_codec) 0) in Hs as [_ [u ->]]; [|done].
    apply Forall_app in Hb as [_ Hb].
    destruct (some =? 0).
    { apply Reader_ret_Ok in Hd as [<- <-]. split; [done|eauto]. }
    destruct (some =? 1); [|done].
    apply Reader_bind_Ok in Hd as (x & mid' & Hx & [<- <-]%Reader_ret_Ok).
    apply law_sound in Hx as [Hx [u' ->]]; [|done]. split; [done|].
    exists (u ++ u'). by rewrite app_assoc.
Qed.

#[export] Instance Arc_laws : CodecLaws (Arc_codec a) okA (la + 1).
Proof.
  pose proof (law_levels (c := a)) as Hlv. split; [lia| | | |].
  - intros x. apply (law_bytes (c := a)).
  - intros x. apply (law_size (c := a)).
  - intros d x rest Hx Hd Hrest. simpl. rewrite check_rec_step by lia.
    apply (law_roundtrip (c := a)); [done|lia|done].
  - intros d bs x rest Hb [_ Hd]%check_rec_Ok. by eapply law_sound.
Qed.

Definition pair_ok (p : A * B) : Prop := okA p.1 /\ okB p.2.

#[export] Instance seq_laws : CodecLaws (seq_codec a b) pair_ok (Z.max la lb).
Proof.
  pose proof (law_levels (c := a)). pose proof (law_levels (c := b)). split; [lia| | | |].
  - intros [x y] [Hx Hy]. simpl. apply Forall_app; split; by apply law_bytes.
  - intros [x y] [Hx Hy]. simpl. rewrite length_app. f_equal; by apply law_size.
  - intros d [x y] rest [Hx Hy] Hd Hrest. simpl in *. rewrite <- app_assoc.
    erewrite Reader_bind_step.
    2: { apply law_roundtrip; [done|lia|]. apply Forall_app; split; [by apply law_bytes|done]. }
    by erewrite Reader_bind_step by (apply law_roundtrip; [done|lia|done]).
  - intros d bs p rest Hb (x & mid & Hx &
      (y & mid' & Hy & [<- <-]%Reader_ret_Ok)%Reader_bind_Ok)%Reader_bind_Ok.
    apply law_sound in Hx as [Hx [u ->]]; [|done]. apply Forall_app in Hb as [_ Hb].
    apply law_sound in Hy as [Hy [u' ->]]; [|done].
    split; [by split|]. exists (u ++ u'). by rewrite app_assoc.
Qed.
End combinators.

#[export] Instance tuple_laws {A B} (a : Codec A) (b : Codec B) okA okB la lb
  {HA : CodecLaws a okA la} {HB : CodecLaws b okB lb} :
  CodecLaws (tuple_codec a b) (@pair_ok A B okA okB) (Z.max la lb + 1).
Proof. exact (Arc_laws (seq_codec a b)). Qed.

Arguments Vec_ok {A} okA v.
Arguments Option_ok {A} okA o.
Arguments pair_ok {A B} okA okB p.

(** ** Strings *)

Definition String_ok (s : list Z) : Prop :=
  utf8_chars s <> None /\ Vec_ok is_byte s.

Lemma flat_u8 s : bytes_ok s -> s ≫= serialize u8_codec = s.
Proof.
  induction 1 as [|b s Hb _ IH]; [done|]. rewrite bind_cons, IH.
  unfold is_byte in Hb. simpl. by rewrite Z.mod_small by lia.
Qed.

Lemma u64_as_u32 x : in_u 32 x -> serialize u64_codec x = serialize u32_codec x.
Proof.
  intros Hx. simpl. unfold ScaleBigInt_from. f_equal.
  assert (H8 : to_le_bytes 8 x = to_le_bytes 4 x ++ replicate 4 0).
  { unfold in_u in Hx. cbn [to_le_bytes app replicate].
    repeat apply (f_equal2 cons); try done;
      rewrite ?Z.div_div by lia; rewrite Z.div_small by (simpl; lia); done. }
  rewrite H8. unfold scale_of_prefix. by rewrite <- app_assoc.
Qed.

#[export] Instance String_laws : CodecLaws String_codec String_ok 1.
Proof.
  assert (Hser : forall s, String_ok s ->
    serialize String_codec s = serialize (Vec_codec u8_codec) s).
  { intros s [_ [Hb Hl]]. unfold String_codec, Vec_codec. cbn [serialize].
    rewrite flat_u8 by done. f_equal.
    unfold wrap. unfold in_u in Hl. rewrite !Z.mod_small by lia. by apply u64_as_u32. }
  split; [lia| | | |].
  - intros s Hs. rewrite Hser by done. destruct Hs. by apply law_bytes.
  - intros s [_ [Hb Hl]]. simpl. rewrite length_app. f_equal.
    apply (law_size (c := u64_codec)). unfold wrap, in_u in *. dlia.
  - intros d s rest Hs Hd Hrest. rewrite Hser by done. destruct Hs as [Hu Hs].
    unfold String_codec. cbn [deserialize].
    erewrite Reader_bind_step by (apply law_roundtrip; [done|lia|done]).
    by destruct (utf8_chars s).
  - intros d bs s rest Hb (v & mid & Hv & Hd)%Reader_bind_Ok.
    apply law_sound in Hv as [Hv Hu]; [|done].
    destruct (utf8_chars v) eqn:E; [|done].
    apply Reader_ret_Ok in Hd as [<- <-]. split; [|done]. by split; [rewrite E|].
Qed.

(** ** Maps

    [HashMap<K, V>] is written in key order and read back by inserting the
    pairs one after the other. *)

Section HashMap.
Context {K V : Type} `{Countable K} (kle : relation K) `{!RelDecision kle}
  `{!Total kle} `{!Transitive kle} `{!AntiSymm (=) kle}.
Context (k : Codec K) (v : Codec V).

Definition entry_le (p q : K * V) : Prop := kle p.1 q.1.

#[global] Instance entry_le_dec : RelDecision entry_le.
Proof. intros p q. unfold entry_le. apply _. Defined.

Definition HashMap_codec : Codec (gmap K V) :=
  mkCodec
    (fun m => serialize u32_codec (wrap 32 (Z.of_nat (size m)))
              ++ merge_sort entry_le (map_to_list m) ≫= serialize (seq_codec k v))
    (fun m => foldl (fun acc p => acc + serialized_size k p.1 + serialized_size v p.2)%nat 4%nat
                (map_to_list m))
    (fun rd => check_rec rd (fun d =>
       len ← deserialize u32_codec d;
       l ← read_many (Z.to_nat len) (deserialize (seq_codec k v) d);
       mret (foldl (fun m p => <[p.1 := p.2]> m) ∅ l))).

Lemma foldl_insert_list_to_map (l : list (K * V)) (m : gmap K V) :
  NoDup l.*1 -> (forall i, i ∈ l.*1 -> m !! i = None) ->
  foldl (fun m p => <[p.1 := p.2]> m) m l = list_to_map l ∪ m.
Proof.
  revert m; induction l as [|[i x] l IH]; intros m Hnd Hm; csimpl in *.
  - by rewrite (left_id_L ∅ (∪)).
  - apply NoDup_cons in Hnd as [Hi Hnd]. rewrite IH; [|done|].
    + rewrite <- insert_union_r, insert_union_l; [done|].
      by apply not_elem_of_list_to_map_1.
    + intros j Hj. rewrite lookup_insert_ne by (intros ->; done). apply Hm. by right.
Qed.

Context {okK : K -> Prop} {okV : V -> Prop} {lk lv : Z}.
Context {HK : CodecLaws k okK lk} {HV : CodecLaws v okV lv}.

(** A map is read back as it was written. *)
Lemma HashMap_roundtrip d m rest :
  map_Forall (fun i x => okK i /\ okV x) m -> in_u 32 (Z.of_nat (size m)) ->
  d + Z.max lk lv + 1 <= RECURSION_LIMIT -> bytes_ok rest ->
  deserialize HashMap_codec d (serialize HashMap_codec m ++ rest) = Ok (m, rest).
Proof.
  intros Hok Hsz Hd Hrest. simpl.
  pose proof (law_levels (c := k)). pose proof (law_levels (c := v)).
  rewrite check_rec_step by lia. unfold wrap. unfold in_u in Hsz. rewrite Z.mod_small by lia.
  set (l := merge_sort entry_le (map_to_list m)).
  assert (Hp : l ≡ₚ map_to_list m) by apply merge_sort_Permutation.
  assert (Hl : Forall (pair_ok okK okV) l).
  { rewrite Hp. apply Forall_forall. intros [i x] Hix%elem_of_map_to_list.
    by apply (Hok i x). }
  assert (Hn : size m = length l) by (rewrite Hp; by rewrite length_map_to_list).
  rewrite <- app_assoc. erewrite Reader_bind_step.
  2: { apply (law_roundtrip (c := u32_codec) 0); [done|done|].
       apply Forall_app; split; [by apply (flat_bytes (seq_codec k v))|done]. }
  rewrite Nat2Z.id, Hn. erewrite Reader_bind_step.
  2: { apply (read_many_roundtrip (seq_codec k v)); [done|lia|done]. }
  unfold mret, Reader_ret. do 2 f_equal.
  assert (Hnd : NoDup l.*1) by (rewrite Hp; apply NoDup_fst_map_to_list).
  rewrite foldl_insert_list_to_map; [|done|intros; apply lookup_empty].
  rewrite (right_id_L ∅ (∪)).
  rewrite (list_to_map_proper l (map_to_list m)) by done. apply list_to_map_to_list.
Qed.
End HashMap.

(** ** The tagged top-level format *)

(** The bytes of an ASCII literal. *)
Definition str_bytes (s : string) : list Z :=
  (fun c => Z.of_N (N_of_ascii c)) <$> String.list_ascii_of_string s.

Definition GLOBAL_TAG : list Z := str_bytes "midnight:".
Definition COLON : Z := 58.

(** [format!("{GLOBAL_TAG}{}:", T::tag())]. *)
Definition tag_header (tag : list Z) : list Z := GLOBAL_TAG ++ tag ++ [COLON].

Section tagged.
Context {T : Type} (tag : list Z) (c : Codec T).

Definition tagged_serialize (value : T) : list Z := tag_header tag ++ serialize c value.

Definition tagged_serialized_size (value : T) : nat :=
  (length tag + length GLOBAL_TAG + 1 + serialized_size c value)%nat.

Definition tagged_deserialize_inner (ensure_consumed : bool) : Reader T :=
  fun bs =>
    let tag_expected := tag_header tag in
    let read_tag := take (length tag_expected) bs in
    if decide (read_tag = tag_expected) then
      match deserialize c 0 (drop (length tag_expected) bs) with
      | Err e => Err e
      | Ok (value, rest) =>
          if negb ensure_consumed then Ok (value, rest)
          else if (length rest =? 0)%nat then Ok (value, [])
          else Err InvalidData
      end
    else Err InvalidData.

Definition tagged_deserialize (bs : list Z) : result ErrorKind T :=
  fst <$> tagged_deserialize_inner true bs.

(** The loop ends: each round reads at least the header.  The fuel is one
    more than the number of bytes. *)
Fixpoint tagged_deserialize_sequence_loop (fuel : nat) (bs : list Z) (res : list T)
  : result ErrorKind (list T) :=
  match fuel with
  | O => Ok res
  | S fuel' =>
      match bs with
      | [] => Ok res
      | _ => match tagged_deserialize_inner false bs with
             | Ok (v, rest) => tagged_deserialize_sequence_loop fuel' rest (res ++ [v])
             | Err e => Err e
             end
      end
  end.

Definition tagged_deserialize_sequence (bs : list Z) : result ErrorKind (list T) :=
  tagged_deserialize_sequence_loop (S (length bs)) bs [].
End tagged.

(** The characters a printed tag may have; any other becomes U+FFFD. *)
Definition is_ascii_alphanumeric (c : Z) : bool :=
  in_range 48 57 c || in_range 65 90 c || in_range 97 122 c.
Definition sanitised_char (ch : list Z) : list Z :=
  match ch with
  | [c] => if is_ascii_alphanumeric c || bool_decide (c ∈ str_bytes ":_-()[],")
           then [c] else [239; 191; 189]
  | _ => [239; 191; 189]
  end.

Definition READ_LIMIT : nat := 512.

(** Index of the [n]-th element satisfying [p]. *)
Fixpoint nth_index (p : Z -> bool) (n i : nat) (l : list Z) : option nat :=
  match l with
  | [] => None
  | x :: l' => if p x then match n with O => Some i | S n' => nth_index p n' (S i) l' end
               else nth_index p n (S i) l'
  end.

(** [peek_tag]: the reader is left where it was, so only the tag is returned. *)
Definition peek_tag (bs : list Z) : result ErrorKind (list Z) :=
  let buf := take READ_LIMIT (bs ++ replicate READ_LIMIT 0) in
  if decide (take (length GLOBAL_TAG) buf = GLOBAL_TAG) then
    second_colon ← ok_or InvalidData (nth_index (fun b => b =? COLON) 1 0 buf);
    let raw_tag := drop (length GLOBAL_TAG) (take second_colon buf) in
    match utf8_chars raw_tag with
    | None => Err InvalidData
    | Some chars => Ok (chars ≫= sanitised_char)
    end
  else Err InvalidData.

Section tagged_lemmas.
Context {T : Type} (tag : list Z) (c : Codec T) {ok : T -> Prop} {levels : Z}.
Context {HC : CodecLaws c ok levels} (Hlv : levels <= RECURSION_LIMIT).

Lemma tagged_inner_roundtrip b value rest :
  ok value -> bytes_ok rest -> (b = true -> rest = []) ->
  tagged_deserialize_inner tag c b (tagged_serialize tag c value ++ rest) = Ok (value, rest).
Proof.
  intros Hok Hrest Hb. unfold tagged_deserialize_inner, tagged_serialize. cbv zeta.
  rewrite <- app_assoc, take_app_length, drop_app_length, decide_True by done.
  rewrite law_roundtrip by done. destruct b; [|done]. by rewrite Hb.
Qed.

(** A tagged value decodes to itself, and announces its size. *)
Lemma tagged_roundtrip value :
  ok value ->
  tagged_deserialize tag c (tagged_serialize tag c value) = Ok value /\
  length (tagged_serialize tag c value) = tagged_serialized_size tag c value.
Proof.
  intros Hok. split.
  - unfold tagged_deserialize. rewrite <- (app_nil_r (tagged_serialize _ _ _)).
    by rewrite tagged_inner_roundtrip by (done || constructor).
  - unfold tagged_serialize, tagged_serialized_size, tag_header.
    rewrite !length_app, law_size by done. simpl. lia.
Qed.

(** Trailing bytes are refused. *)
Lemma tagged_trailing value rest :
  ok value -> bytes_ok rest -> rest <> [] ->
  tagged_deserialize tag c (tagged_serialize tag c value ++ rest) = Err InvalidData.
Proof.
  intros Hok Hrest Hne. unfold tagged_deserialize, tagged_deserialize_inner, tagged_serialize.
  cbv zeta. rewrite <- app_assoc, take_app_length, drop_app_length, decide_True by done.
  rewrite law_roundtrip by done. by destruct rest.
Qed.

Lemma tagged_serialize_bytes values :
  Forall ok values -> bytes_ok tag -> bytes_ok (values ≫= tagged_serialize tag c).
Proof.
  intros Hvs Htag. induction Hvs as [|v values Hv _ IH]; [constructor|].
  rewrite bind_cons. apply Forall_app; split; [|done]. unfold tagged_serialize, tag_header.
  rewrite !Forall_app. split_and!; [|done| |by apply law_bytes]; by repeat constructor.
Qed.

Lemma tagged_sequence_loop values fuel res :
  Forall ok values -> bytes_ok tag -> (length values < fuel)%nat ->
  tagged_deserialize_sequence_loop tag c fuel (values ≫= tagged_serialize tag c) res
  = Ok (res ++ values).
Proof.
  intros Hv Htag. revert fuel res; induction Hv as [|v values Hv Hvs IH]; intros fuel res Hf;
    (destruct fuel as [|fuel]; [simpl in Hf; lia|]).
  - simpl. by rewrite app_nil_r.
  - rewrite bind_cons. cbn [tagged_deserialize_sequence_loop].
    destruct (_ ++ _) eqn:E; [done|]. rewrite <- E.
    rewrite tagged_inner_roundtrip; [|done| |done].
    + rewrite IH by (simpl in Hf; lia). by rewrite <- app_assoc.
    + by apply tagged_serialize_bytes.
Qed.

Lemma tagged_sequence_roundtrip values :
  Forall ok values -> bytes_ok tag ->
  tagged_deserialize_sequence tag c (values ≫= tagged_serialize tag c) = Ok values.
Proof.
  intros Hv Htag. unfold tagged_deserialize_sequence.
  rewrite tagged_sequence_loop; [done|done|done|].
  clear. induction values as [|v values IH]; [simpl; lia|]. rewrite bind_cons, length_app.
  unfold tagged_serialize at 1, tag_header. rewrite !length_app. simpl in *. lia.
Qed.
End tagged_lemmas.

Lemma colon_prefix_inj (t1 t2 r1 r2 : list Z) :
  COLON ∉ t1 -> COLON ∉ t2 -> t1 ++ COLON :: r1 = t2 ++ COLON :: r2 -> t1 = t2.
Proof.
  revert t2; induction t1 as [|x t1 IH]; intros [|y t2] H1 H2 He; simpl in *; try done.
  - injection He as <- _. by destruct H2; left.
  - injection He as -> _. by destruct H1; left.
  - injection He as -> He. f_equal. apply IH; [by intros ?; apply H1; right
      |by intros ?; apply H2; right|done].
Qed.

(** Data tagged as one type is not accepted as another: neither header is a
    prefix of the other. *)
Lemma tagged_wrong_tag {T U} (tag1 tag2 : list Z) (c1 : Codec T) (c2 : Codec U) value rest :
  COLON ∉ tag1 -> COLON ∉ tag2 -> tag1 <> tag2 ->
  tagged_deserialize tag2 c2 (tagged_serialize tag1 c1 value ++ rest) = Err InvalidData.
Proof.
  intros H1 H2 Hne. unfold tagged_deserialize, tagged_deserialize_inner, tagged_serialize.
  cbv zeta. rewrite decide_False; [done|]. intros He. apply Hne.
  pose proof (take_drop (length (tag_header tag2)) ((tag_header tag1 ++ serialize c1 value) ++ rest))
    as Hd.
  rewrite He in Hd. clear He. unfold tag_header in Hd. rewrite <- !app_assoc in Hd.
  apply app_inv_head in Hd. symmetry in Hd. by apply colon_prefix_inj in Hd.
Qed.

Lemma nth_index_skip p n i l1 l2 :
  Forall (fun x => p x = false) l1 ->
  nth_index p n i (l1 ++ l2) = nth_index p n (i + length l1) l2.
Proof.
  intros H; revert i; induction H as [|x l1 Hx _ IH]; intros i; simpl; [f_equal; lia|].
  rewrite Hx, IH. f_equal. lia.
Qed.

(** Characters of a tag by the conventions of [Tagged]. *)
Definition tag_char (ch : Z) : bool :=
  is_ascii_alphanumeric ch || bool_decide (ch ∈ str_bytes "_-()[],").

Lemma tag_char_spec b :
  is_byte b -> tag_char b = true ->
  (b <? 128) = true /\ (b =? COLON) = false /\ sanitised_char [b] = [b].
Proof.
  intros Hb Hc.
  assert (H : implb (tag_char b)
     ((b <? 128) && negb (b =? COLON) && bool_decide (sanitised_char [b] = [b])) = true).
  { revert b Hb Hc. intros b Hb _. revert b Hb. apply byte_forall. vm_compute. reflexivity. }
  rewrite Hc in H. simpl in H. apply andb_true_iff in H as [[H1 H2]%andb_true_iff H3].
  apply bool_decide_eq_true in H3. by apply negb_true_iff in H2.
Qed.

Lemma tag_chars_sanitised tag :
  bytes_ok tag -> Forall (fun b => tag_char b = true) tag ->
  exists chars, utf8_chars tag = Some chars /\ chars ≫= sanitised_char = tag.
Proof.
  intros Hb Ht. induction tag as [|b tag IH]; [by exists []|].
  apply Forall_cons in Hb as [Hb Hbs]. apply Forall_cons in Ht as [Ht Hts].
  destruct (IH Hbs Hts) as (chars & Hc & Hs).
  destruct (tag_char_spec b Hb Ht) as (H1 & _ & H3).
  exists ([b] :: chars). cbn [utf8_chars]. rewrite H1, Hc. split; [done|].
  by rewrite bind_cons, H3, Hs.
Qed.

(** [peek_tag] finds the tag data was written with, when the tag follows the
    conventions of [Tagged] and fits the read limit. *)
Lemma peek_tag_spec {T} tag (c : Codec T) value :
  bytes_ok tag -> Forall (fun b => tag_char b = true) tag -> (length tag <= 502)%nat ->
  peek_tag (tagged_serialize tag c value) = Ok tag.
Proof.
  intros Hb Ht Hl. unfold peek_tag, tagged_serialize, tag_header. cbv zeta.
  set (body := serialize c value).
  set (tl := take (READ_LIMIT - 10 - length tag) (body ++ replicate READ_LIMIT 0)).
  assert (Hbuf : take READ_LIMIT (((GLOBAL_TAG ++ tag ++ [COLON]) ++ body) ++ replicate READ_LIMIT 0)
                 = GLOBAL_TAG ++ tag ++ COLON :: tl).
  { unfold tl. rewrite <- !app_assoc. rewrite take_app_ge by (simpl; unfold READ_LIMIT; lia).
    f_equal. rewrite take_app_ge by (simpl; unfold READ_LIMIT; lia). f_equal.
    change (length GLOBAL_TAG) with 9%nat.
    replace (READ_LIMIT - 9 - length tag)%nat with (S (READ_LIMIT - 10 - length tag))
      by (unfold READ_LIMIT; lia). done. }
  rewrite Hbuf. rewrite take_app_length, decide_True by done.
  assert (Hidx : nth_index (fun b => b =? COLON) 1 0 (GLOBAL_TAG ++ tag ++ COLON :: tl)
                 = Some (9 + length tag)%nat).
  { change (GLOBAL_TAG ++ tag ++ COLON :: tl)
      with (str_bytes "midnight" ++ COLON :: tag ++ COLON :: tl).
    rewrite nth_index_skip by by repeat constructor. cbn [nth_index]. rewrite Z.eqb_refl.
    rewrite nth_index_skip.
    - cbn [nth_index]. rewrite Z.eqb_refl. f_equal.
    - clear -Hb Ht. induction Ht as [|b tag Hc Ht IH]; constructor.
      + apply Forall_cons in Hb as [Hb _]. by apply (tag_char_spec b).
      + apply IH. by apply Forall_cons in Hb as [_ Hb]. }
  rewrite Hidx. simpl ok_or. cbn [mbind result_bind].
  rewrite app_assoc, take_app_length', drop_app_length by (rewrite length_app; done).
  by destruct (tag_chars_sanitised tag Hb Ht) as (chars & -> & ->).
Qed.

(** ** Properties *)

(** Compact integers round trip: decoding the encoding of any 67-byte value, followed by
    any bytes, gives the value back and leaves exactly those bytes, and the
    encoding has the announced length. *)
Theorem scale_bigint_roundtrip (s rest : list Z) :
  ScaleBigInt_ok s -> bytes_ok rest ->
  ScaleBigInt_deserialize (ScaleBigInt_serialize s ++ rest) = Ok (s, rest) /\
  length (ScaleBigInt_serialize s) = ScaleBigInt_serialized_size s.
Proof.
  intros Hs Hr. split; [by apply ScaleBigInt_roundtrip|by apply ScaleBigInt_serialize_size].
Qed.

Lemma scale_bigint_roundtrip_witness :
  ScaleBigInt_deserialize (ScaleBigInt_serialize (scale_of_prefix [0; 1; 7]) ++ [9])
  = Ok (scale_of_prefix [0; 1; 7], [9]).
Proof.
  apply (scale_bigint_roundtrip (scale_of_prefix [0; 1; 7]) [9]).
  - split; [reflexivity|]. apply (bool_decide_unpack _). vm_compute. exact I.
  - apply (bool_decide_unpack _). vm_compute. exact I.
Defined.

(** Compact integers are almost canonical: whatever the decoder accepts is the
    encoding of the value it returns, except for the five-byte form
    [3, a, b, c, d] with [d] below 64, which a value below 2^30 has besides its
    four-byte encoding. *)
Theorem scale_bigint_accepts_canonical (bs s rest : list Z) :
  bytes_ok bs -> ScaleBigInt_deserialize bs = Ok (s, rest) ->
  ScaleBigInt_ok s /\
  (bs = ScaleBigInt_serialize s ++ rest \/
   (exists a b c d, bs = 3 :: a :: b :: c :: d :: rest /\ 0 < d < 64 /\
      s = scale_of_prefix [a; b; c; d] /\ bs <> ScaleBigInt_serialize s ++ rest)).
Proof.
  intros Hb Hd. split; [by eapply ScaleBigInt_deserialize_sound|].
  destruct (ScaleBigInt_canonical bs s rest Hb Hd) as [?|(a & b & c & d & -> & Hr)]; [by left|].
  right. exists a, b, c, d.
  assert (Hs : s = scale_of_prefix [a; b; c; d]).
  { rewrite ScaleBigInt_deserialize_arith in Hd by done.
    change (3 :: a :: b :: c :: d :: rest) with (3 :: [a; b; c; d] ++ rest) in Hd.
    cbn [scale_dec] in Hd. destruct (Z.eqb_spec (3 mod 4) 0); [done|].
    destruct (Z.eqb_spec (3 mod 4) 1); [done|]. destruct (Z.eqb_spec (3 mod 4) 2); [done|].
    change (Z.to_nat (3 / 4 + 4)) with 4%nat in Hd. cbn in Hd. by case_match; simplify_eq. }
  split_and!; [done|lia|lia|done|]. rewrite Hs.
  rewrite !Forall_cons in Hb. destruct_and!.
  rewrite ScaleBigInt_serialize_prefix;
    [|repeat (apply Forall_cons_2; [done|]); apply Forall_nil_2| |simpl; unfold SCALE_MAX_BYTES; lia].
  - cbn [scale_enc]. destruct (Z.ltb_spec d 64); [|lia]. simpl. intros [= ?]. dlia.
  - simpl. intros [= ?]. lia.
Qed.

Lemma scale_bigint_accepts_canonical_witness :
  ScaleBigInt_deserialize [3; 0; 0; 0; 1] = Ok (scale_of_prefix [0; 0; 0; 1], []) /\
  ScaleBigInt_serialize (scale_of_prefix [0; 0; 0; 1]) = [2; 0; 0; 4] /\
  ScaleBigInt_ok (scale_of_prefix [0; 0; 0; 1]).
Proof.
  split_and!; [reflexivity|reflexivity|].
  apply (scale_bigint_accepts_canonical [3; 0; 0; 0; 1] _ []); [|reflexivity].
  apply (bool_decide_unpack _). vm_compute. exact I.
Defined.

(** Lawful encodings are prefix codes: two values of a type followed by any
    bytes are the same bytes only if the values and what follows are the same. *)
Theorem codec_prefix_free {T} (c : Codec T) (ok : T -> Prop) (levels : Z)
  (HC : CodecLaws c ok levels) (x y : T) (r1 r2 : list Z) :
  levels <= RECURSION_LIMIT -> ok x -> ok y -> bytes_ok r1 -> bytes_ok r2 ->
  serialize c x ++ r1 = serialize c y ++ r2 -> x = y /\ r1 = r2.
Proof.
  intros Hl Hx Hy H1 H2 He.
  pose proof (law_roundtrip (c := c) 0 x r1 Hx Hl H1) as Hd.
  rewrite He, law_roundtrip in Hd by done. by injection Hd.
Qed.

Lemma codec_prefix_free_witness :
  serialize (Vec_codec (Option_codec u64_codec)) [Some 300; None] ++ [7] =
    [8; 1; 177; 4; 0; 7] /\ ([Some 300; None] = [Some 300; None] /\ [7] = [7]).
Proof.
  split; [vm_compute; reflexivity|].
  apply (codec_prefix_free (Vec_codec (Option_codec u64_codec)) (Vec_ok (Option_ok (in_u 64)))
           (0 + 1 + 1) _ [Some 300; None] [Some 300; None] [7] [7]).
  - vm_compute. discriminate.
  - split; [repeat constructor; vm_compute; congruence|split; vm_compute; congruence].
  - split; [repeat constructor; vm_compute; congruence|split; vm_compute; congruence].
  - repeat constructor; vm_compute; congruence.
  - repeat constructor; vm_compute; congruence.
  - reflexivity.
Defined.

(** C39. The tagged format, for a payload whose own encoding obeys [CodecLaws] (it
    decodes to the value in front of any bytes and has the size it announces, as
    shown above for the types with instances; the code's hash maps and sets do
    not announce theirs) and within the limit on nesting: a tagged value decodes
    to itself and has the announced size; with bytes after it, it is refused; and
    data written under one tag is refused under any other (tags have no colon). *)
Theorem tagged_format {T U} (tag tag' : list Z) (c : Codec T) (c' : Codec U) (ok : T -> Prop)
  (levels : Z) (HC : CodecLaws c ok levels) (value : T) (extra : list Z) :
  levels <= RECURSION_LIMIT -> ok value -> bytes_ok extra ->
  COLON ∉ tag -> COLON ∉ tag' -> tag <> tag' ->
  tagged_deserialize tag c (tagged_serialize tag c value ++ extra) =
    (if (length extra =? 0)%nat then Ok value else Err InvalidData) /\
  length (tagged_serialize tag c value) = tagged_serialized_size tag c value /\
  tagged_deserialize tag' c' (tagged_serialize tag c value ++ extra) = Err InvalidData.
Proof.
  intros Hl Hok Hb H1 H2 Hne.
  destruct (tagged_roundtrip tag c Hl value Hok) as [Hrt Hsz]. split_and!.
  - destruct extra as [|e extra]; simpl; [by rewrite app_nil_r|]. by apply (tagged_trailing tag c Hl).
  - done.
  - by apply tagged_wrong_tag.
Qed.

Lemma tagged_format_witness :
  tagged_deserialize (str_bytes "u64") u64_codec
    (tagged_serialize (str_bytes "u32") u32_codec 5 ++ []) = Err InvalidData.
Proof.
  apply (tagged_format (str_bytes "u32") (str_bytes "u64") u32_codec u64_codec (in_u 32) 0 _ 5 []);
    apply (bool_decide_unpack _); vm_compute; exact I.
Defined.

(** [peek_tag] returns the tag the data was written with, for tags within the
    character conventions of [Tagged] that fit the read limit. *)
Theorem peek_tag_finds_tag {T} (tag : list Z) (c : Codec T) (value : T) :
  bytes_ok tag -> Forall (fun b => tag_char b = true) tag -> (length tag <= 502)%nat ->
  peek_tag (tagged_serialize tag c value) = Ok tag.
Proof. apply peek_tag_spec. Qed.

Lemma peek_tag_finds_tag_witness :
  peek_tag (tagged_serialize (str_bytes "zswap-offer[v5](proof)") u64_codec 77)
  = Ok (str_bytes "zswap-offer[v5](proof)").
Proof.
  apply peek_tag_finds_tag; apply (bool_decide_unpack _); vm_compute; exact I.
Defined.
