(* ===== verification/MerkleTree.v ===== *)
(** * The sparse Merkle tree ([transient-crypto/src/merkle_tree.rs])

    Trees of fixed height, indexed like an array of [2^height] leaves.  Absent
    parts are stubs (root zero), parts no longer needed are collapsed to their
    hash, and the hash of an inner node is cached until the node is updated.
    The model keeps the four kinds of node and the cached hashes.

    [Rep h c t] says that the node [t] of height [h] represents the contents
    [c], a partial function from indices to leaves; [mroot h c] is the root the
    contents ought to have.  Each operation is shown to act on the contents
    alone, so that roots do not depend on how a tree was built, on what was
    collapsed, or on when it was rehashed.

    The hash functions are arguments of the section: [transient_hash2 a b] is
    [transient_hash(&[a, b])], [leaf_hash] the hash of a leaf's value. *)

From S2P Require Import Prelude.
From stdpp Require Import list sorting.

Local Open Scope Z_scope.

(** ** Ranges *)

Inductive Bound := Unbounded | Included (n : Z) | Excluded (n : Z).
Definition RangeB : Type := Bound * Bound.

Definition U64_MAX : Z := u_max 64.

Definition range_force_inclusive (range : RangeB) : option (Z * Z) :=
  inclusive_start ← match range.1 with
                    | Unbounded => Some 0
                    | Included n => Some n
                    | Excluded n => if n =? U64_MAX then None else Some (n + 1)
                    end;
  inclusive_end ← match range.2 with
                  | Unbounded => Some U64_MAX
                  | Included n => Some n
                  | Excluded n => if n =? 0 then None else Some (n - 1)
                  end;
  Some (inclusive_start, inclusive_end).

Definition range_empty (range : RangeB) : bool :=
  match range_force_inclusive range with
  | Some (start, end_) => end_ <? start
  | None => true
  end.

Definition range_sub (range : RangeB) (sub : Z) : option RangeB :=
  let start := match range.1 with
               | Unbounded => Unbounded
               | Included n => match checked_sub n sub with
                               | Some m => Included m | None => Unbounded end
               | Excluded n => match checked_sub n sub with
                               | Some m => Excluded m | None => Unbounded end
               end in
  end_ ← match range.2 with
         | Unbounded => Some Unbounded
         | Included n => Included <$> checked_sub n sub
         | Excluded n => Excluded <$> checked_sub n sub
         end;
  if range_empty (start, end_) then None else Some (start, end_).

Definition overlap (a b : RangeB) : option (Z * Z) :=
  a_inclusive ← range_force_inclusive a;
  b_inclusive ← range_force_inclusive b;
  let start := Z.max a_inclusive.1 b_inclusive.1 in
  let end_ := Z.min a_inclusive.2 b_inclusive.2 in
  if start <=? end_ then Some (start, end_) else None.

(** [RangeBounds::contains]. *)
Definition range_contains (range : RangeB) (i : Z) : bool :=
  match range.1 with Unbounded => true | Included n => n <=? i | Excluded n => n <? i end &&
  match range.2 with Unbounded => true | Included n => i <=? n | Excluded n => i <? n end.

(** ** Errors *)

Definition InvalidIndex : Type := Z.

Inductive InvalidUpdate :=
| CollapsedIndex (idx : Z) (height : nat)
| StubUpdate (idx : Z) (height : nat)
| EndBeforeStart (start end_ : Z)
| EndOutOfTree (end_ : Z)
| IndexOutOfTree (index : Z)
| WrongNumberOfSegments (expected actual : nat)
| NotFullyRehashed
| BadUpdatePath.

#[export] Instance InvalidUpdate_eq_dec : EqDecision InvalidUpdate.
Proof. solve_decision. Defined.

(** [1 << h] on 64 bits, faithful for trees of height up to 64; those in use have a
    height of at most 32. *)
Definition pow2 (h : nat) : Z := 2 ^ Z.of_nat h.

(** ** Collapsed updates: the steps from [a] to [b] *)

(** Stage 1: add increasing powers of two below the top differing bit. *)
Fixpoint step_sizes_up (n : nat) (bit : nat) (a : Z) : Z * list nat :=
  match n with
  | O => (a, [])
  | S n' =>
      let shifted := pow2 bit in
      if negb (Z.land a shifted =? 0) then
        let '(a', res) := step_sizes_up n' (S bit) (a + shifted) in (a', bit :: res)
      else step_sizes_up n' (S bit) a
  end.

(** Stage 2: the set bits of [b] below the top differing bit, downwards. *)
Fixpoint step_sizes_down (n : nat) (b : Z) : list nat :=
  match n with
  | O => []
  | S bit => (if negb (Z.land b (pow2 bit) =? 0) then [bit] else []) ++ step_sizes_down bit b
  end.

(** [ilog2] panics on zero. *)
Definition step_sizes (a b : Z) : outcome InvalidUpdate (list nat) :=
  if Z.lxor b a =? 0 then Panic
  else
    let msb_diff := Z.to_nat (Z.log2 (Z.lxor b a)) in
    let '(a', res) := step_sizes_up msb_diff 0 a in
    mret (res ++ (if Z.land a' (pow2 msb_diff) =? 0 then [msb_diff] else [])
              ++ step_sizes_down msb_diff b).

(** *** Lemmas: the steps tile the interval *)

Lemma pow2_S h : pow2 (S h) = 2 * pow2 h.
Proof. unfold pow2. rewrite Nat2Z.inj_succ, Z.pow_succ_r; lia. Qed.

Lemma pow2_pos h : 0 < pow2 h.
Proof. apply Z.pow_pos_nonneg; lia. Qed.

(** Each step [s] from [a] covers the aligned block of [2^s] indices at [a]. *)
Fixpoint steps_from (a : Z) (steps : list nat) (b : Z) : Prop :=
  match steps with
  | [] => a = b
  | s :: steps' => (a mod pow2 s = 0) /\ steps_from (a + pow2 s) steps' b
  end.

Lemma steps_from_app a l1 m l2 b :
  steps_from a l1 m -> steps_from m l2 b -> steps_from a (l1 ++ l2) b.
Proof.
  revert a; induction l1 as [|s l1 IH]; intros a H1 H2; simpl in *; [by subst|].
  destruct H1 as [? H1]. split; [done|]. by apply IH.
Qed.

(** The bit test of the code, as arithmetic. *)
Lemma land_pow2 a b :
  0 <= a -> (Z.land a (pow2 b) =? 0) = (a mod pow2 (S b) <? pow2 b).
Proof.
  intros Ha. unfold pow2. rewrite <- Z.shiftl_1_l, Z.shiftl_1_l.
  assert (Hb : Z.land a (2 ^ Z.of_nat b) = if Z.testbit a (Z.of_nat b) then 2 ^ Z.of_nat b else 0).
  { apply Z.bits_inj'. intros n Hn. rewrite Z.land_spec, Z.pow2_bits_eqb by lia.
    destruct (Z.eqb_spec (Z.of_nat b) n) as [<-|].
    - destruct (Z.testbit a (Z.of_nat b)); [by rewrite Z.pow2_bits_true by lia|by rewrite Z.bits_0].
    - rewrite andb_false_r. destruct (Z.testbit a (Z.of_nat b)); [|by rewrite Z.bits_0].
      by rewrite Z.pow2_bits_false by lia. }
  rewrite Hb, Z.testbit_eqb by lia. rewrite Nat2Z.inj_succ, Z.pow_succ_r, (Z.mul_comm 2) by lia.
  pose proof (pow2_pos b) as Hp. unfold pow2 in Hp.
  rewrite Z.rem_mul_r by lia. set (P := 2 ^ Z.of_nat b) in *. clearbody P.
  pose proof (Z.mod_pos_bound a P Hp). pose proof (Z.mod_pos_bound (a / P) 2 ltac:(lia)).
  destruct (Z.eqb_spec ((a / P) mod 2) 1) as [->|].
  - destruct (Z.eqb_spec P 0); [lia|]. destruct (Z.ltb_spec (a mod P + P * 1) P); [lia|done].
  - replace ((a / P) mod 2) with 0 by lia.
    destruct (Z.ltb_spec (a mod P + P * 0) P); [done|lia].
Qed.

Lemma mod_pow2_step a b :
  0 <= a -> a mod pow2 (S b) = a mod pow2 b + (if Z.land a (pow2 b) =? 0 then 0 else pow2 b).
Proof.
  intros Ha. rewrite land_pow2 by done. rewrite pow2_S, (Z.mul_comm 2).
  pose proof (pow2_pos b) as Hp. rewrite Z.rem_mul_r by lia.
  pose proof (Z.mod_pos_bound a (pow2 b) Hp).
  pose proof (Z.mod_pos_bound (a / pow2 b) 2 ltac:(lia)).
  assert ((a / pow2 b) mod 2 = 0 \/ (a / pow2 b) mod 2 = 1) as [-> | ->] by lia;
    match goal with |- context [?x <? ?y] => destruct (Z.ltb_spec x y) end; lia.
Qed.

(** Stage 1 steps up to the next multiple of the top power. *)
Lemma step_sizes_up_spec n bit a a' res :
  0 <= a -> a mod pow2 bit = 0 -> step_sizes_up n bit a = (a', res) ->
  steps_from a res a' /\ a' mod pow2 (bit + n) = 0 /\ a <= a' < a + pow2 (bit + n).
Proof.
  revert bit a a' res; induction n as [|n IH]; intros bit a a' res Ha Hm; cbn [step_sizes_up].
  - intros [= <- <-]. rewrite Nat.add_0_r. pose proof (pow2_pos bit). split_and!; [done|done|lia|lia].
  - pose proof (mod_pow2_step a bit Ha) as Hs. rewrite Hm in Hs. cbv zeta.
    pose proof (pow2_pos bit) as Hp.
    replace (bit + S n)%nat with (S bit + n)%nat by lia.
    destruct (Z.eqb_spec (Z.land a (pow2 bit)) 0); cbn [negb].
    + apply IH; [done|lia].
    + destruct (step_sizes_up n (S bit) (a + pow2 bit)) as [a1 res1] eqn:E. intros [= <- <-].
      apply IH in E as (H1 & H2 & H3); [|lia|].
      * split_and!; [by split|done|lia|].
        enough (a1 <= a + pow2 (S bit + n) - pow2 bit \/ pow2 (S bit + n) <= 0) by lia.
        pose proof (Z.div_mod a1 (pow2 (S bit + n))) as Hd1.
        pose proof (pow2_pos (S bit + n)) as Hpp.
        assert (Hk : exists k, pow2 (S bit + n) = k * pow2 (S bit)).
        { exists (pow2 n). unfold pow2. rewrite <- Z.pow_add_r by lia. f_equal. lia. }
        destruct Hk as [k Hk]. left. rewrite Hk in *.
        pose proof (Z.div_mod a (pow2 (S bit)) ltac:(lia)) as Hda. rewrite Hs in Hda.
        rewrite pow2_S in *. set (P := pow2 bit) in *.
        assert (exists q, a1 = q * (k * (2 * P))) as [q Hq]
          by (exists (a1 / (k * (2 * P))); lia).
        assert (exists r, a = 2 * P * r + P) as [r Hr] by (exists (a / (2 * P)); lia).
        assert (Hlt : 2 * P * (q * k - k) < 2 * P * (r + 1)) by lia.
        apply Z.mul_lt_mono_pos_l in Hlt; [|lia].
        assert (2 * P * (q * k - k) <= 2 * P * r) by (apply Z.mul_le_mono_nonneg_l; lia). lia.
      * rewrite <- Zplus_mod_idemp_l, pow2_S. rewrite pow2_S in Hs. rewrite Hs.
        replace (0 + pow2 bit + pow2 bit) with (1 * (2 * pow2 bit)) by lia. apply Z.mod_mul. lia.
Qed.

Lemma mod_sub_mod a m : (a - a mod m) mod m = 0.
Proof.
  destruct (decide (m = 0)) as [->|]; [by rewrite !Z.mod_0_r, Z.sub_diag|].
  rewrite (Z.mod_eq a m) by done. replace (a - (a - m * (a / m))) with (a / m * m) by lia.
  by apply Z.mod_mul.
Qed.

(** Stage 2 steps down through the low bits of [b]. *)
Lemma step_sizes_down_spec n b :
  0 <= b -> steps_from (b - b mod pow2 n) (step_sizes_down n b) b.
Proof.
  intros Hb. induction n as [|n IH]; cbn [step_sizes_down].
  - simpl. change (pow2 0) with 1. rewrite Z.mod_1_r. lia.
  - pose proof (mod_pow2_step b n Hb) as Hs. pose proof (mod_sub_mod b (pow2 n)) as Hm.
    destruct (Z.land b (pow2 n) =? 0); cbn [negb app].
    + by rewrite Hs, Z.add_0_r.
    + split.
      * rewrite Hs. replace (b - (b mod pow2 n + pow2 n)) with (b - b mod pow2 n + (-1) * pow2 n) by lia.
        rewrite Z.mod_add by (pose proof (pow2_pos n); lia). done.
      * rewrite Hs. by replace (b - (b mod pow2 n + pow2 n) + pow2 n) with (b - b mod pow2 n) by lia.
Qed.

Lemma div_mod_two a P :
  0 < P -> a = 2 * P * (a / (2 * P)) + a mod P + P * ((a / P) mod 2).
Proof.
  intros HP. pose proof (Z.div_mod a P ltac:(lia)) as H1.
  pose proof (Z.div_mod (a / P) 2 ltac:(lia)) as H2.
  rewrite Z.div_div, (Z.mul_comm P 2) in H2 by lia. nia.
Qed.

(** The top differing bit: above it [a] and [b] agree, and [b] has it. *)
Lemma msb_diff_spec a b :
  0 <= a < b -> let m := Z.to_nat (Z.log2 (Z.lxor b a)) in
  exists q, 0 <= q /\ q * pow2 (S m) <= a < q * pow2 (S m) + pow2 m /\
            q * pow2 (S m) + pow2 m <= b < (q + 1) * pow2 (S m).
Proof.
  intros Hab m.
  assert (Hx : 0 < Z.lxor b a).
  { assert (0 <= Z.lxor b a) by (apply Z.lxor_nonneg; lia).
    enough (Z.lxor b a <> 0) by lia. intros ?%Z.lxor_eq. lia. }
  assert (Hm : Z.of_nat m = Z.log2 (Z.lxor b a))
    by (unfold m; rewrite Z2Nat.id; [done|apply Z.log2_nonneg]).
  assert (Hhigh : a / pow2 (S m) = b / pow2 (S m)).
  { unfold pow2. rewrite <- !Z.shiftr_div_pow2 by lia. apply Z.bits_inj'. intros n Hn.
    rewrite !Z.shiftr_spec by lia.
    assert (Hb : Z.testbit (Z.lxor b a) (n + Z.of_nat (S m)) = false)
      by (apply Z.bits_above_log2; lia).
    rewrite Z.lxor_spec in Hb. by destruct (Z.testbit a _), (Z.testbit b _). }
  assert (Hbit : Z.testbit (Z.lxor b a) (Z.of_nat m) = true) by (rewrite Hm; by apply Z.bit_log2).
  rewrite Z.lxor_spec, !Z.testbit_eqb in Hbit by lia.
  pose proof (pow2_pos m) as Hp. rewrite pow2_S in *. exists (a / (2 * pow2 m)).
  pose proof (div_mod_two a (pow2 m) Hp) as Hda.
  pose proof (div_mod_two b (pow2 m) Hp) as Hdb. rewrite <- Hhigh in Hdb.
  pose proof (Z.mod_pos_bound a (pow2 m) Hp). pose proof (Z.mod_pos_bound b (pow2 m) Hp).
  pose proof (Z.mod_pos_bound (a / pow2 m) 2 ltac:(lia)).
  pose proof (Z.mod_pos_bound (b / pow2 m) 2 ltac:(lia)).
  pose proof (Z.div_pos a (2 * pow2 m) ltac:(lia) ltac:(lia)).
  unfold pow2 in Hbit. change (2 ^ Z.of_nat m) with (pow2 m) in Hbit.
  destruct (Z.eqb_spec ((b / pow2 m) mod 2) 1) as [E1|], (Z.eqb_spec ((a / pow2 m) mod 2) 1) as [E2|];
    try done.
  - replace ((a / pow2 m) mod 2) with 0 in Hda by lia. rewrite E1 in Hdb. lia.
  - replace ((b / pow2 m) mod 2) with 0 in Hdb by lia. rewrite E2 in Hda. lia.
Qed.

(** The steps from [a] to [b] are aligned blocks that tile the interval. *)
Lemma step_sizes_spec a b :
  0 <= a < b -> exists steps, step_sizes a b = Ret steps /\ steps_from a steps b.
Proof.
  intros Hab. unfold step_sizes. destruct (Z.eqb_spec (Z.lxor b a) 0) as [?%Z.lxor_eq|]; [lia|].
  destruct (msb_diff_spec a b Hab) as (q & Hq & Ha & Hb). cbv zeta in *.
  set (m := Z.to_nat (Z.log2 (Z.lxor b a))) in *. clearbody m.
  destruct (step_sizes_up m 0 a) as [a' res] eqn:E.
  apply step_sizes_up_spec in E as (H1 & H2 & H3); [|lia|apply Z.mod_1_r].
  eexists. split; [done|]. eapply steps_from_app; [exact H1|]. clear H1.
  replace (0 + m)%nat with m in * by lia.
  pose proof (pow2_pos m) as Hp. rewrite pow2_S in *.
  assert (Hmid : b - b mod pow2 m = q * (2 * pow2 m) + pow2 m).
  { assert (b / pow2 m = 2 * q + 1) as Hd by (symmetry; apply Z.div_unique with (b - (2 * q + 1) * pow2 m); lia).
    rewrite Z.mod_eq, Hd by lia. lia. }
  pose proof (step_sizes_down_spec m b ltac:(lia)) as Hdown. rewrite Hmid in Hdown.
  assert (Hk : exists k, a' = k * pow2 m) by (exists (a' / pow2 m); rewrite (Z.div_mod a' (pow2 m)) at 1 by lia; lia).
  destruct Hk as [k ->].
  assert (Hcase : k = 2 * q \/ k = 2 * q + 1).
  { assert (2 * q * pow2 m <= k * pow2 m) as ?%Z.mul_le_mono_pos_r by lia; [|lia].
    assert (k * pow2 m < (2 * q + 2) * pow2 m) as ?%Z.mul_lt_mono_pos_r by lia; lia. }
  rewrite land_pow2, pow2_S by lia.
  destruct Hcase as [-> | ->].
  - replace (2 * q * pow2 m) with (q * (2 * pow2 m)) in * by lia. rewrite Z.mod_mul by lia.
    destruct (Z.ltb_spec 0 (pow2 m)); [|lia]. cbn [app steps_from]. split; [|done].
    by replace (q * (2 * pow2 m)) with (2 * q * pow2 m) by lia; apply Z.mod_mul; lia.
  - replace ((2 * q + 1) * pow2 m) with (pow2 m + q * (2 * pow2 m)) by lia.
    rewrite Z.mod_add, Z.mod_small by lia. destruct (Z.ltb_spec (pow2 m) (pow2 m)); [lia|].
    cbn [app]. by replace (pow2 m + q * (2 * pow2 m)) with (q * (2 * pow2 m) + pow2 m) by lia.
Qed.

Section MerkleTree.
Context {HashOutput Fr A : Type} `{!EqDecision HashOutput}.
(** [Fr::default()]. *)
Context (fr_zero : Fr).
Context (transient_hash2 : Fr -> Fr -> Fr) (degrade_to_transient : HashOutput -> Fr).

(** ** Nodes *)

Inductive MerkleTreeNode : Type :=
| Leaf (hash : HashOutput) (aux : A)
| Collapsed (hash : Fr) (height : nat)
| Stub (height : nat)
| Node (hash : option Fr) (lft rgt : MerkleTreeNode) (height : nat).

Implicit Types t : MerkleTreeNode.

Definition node_height t : nat :=
  match t with
  | Leaf _ _ => 0
  | Stub height => height
  | Collapsed _ height => height
  | Node _ _ _ height => height
  end.

Definition node_root t : option Fr :=
  match t with
  | Leaf hash _ => Some (degrade_to_transient hash)
  | Stub _ => Some fr_zero
  | Collapsed hash _ => Some hash
  | Node hash _ _ _ => hash
  end.

Definition is_collapsed t : bool :=
  match t with Collapsed _ _ => true | _ => false end.

Definition is_none {X} (o : option X) : bool :=
  match o with None => true | Some _ => false end.

(** [MerkleTreeNode::invariant], checked of every node on deserialization. *)
Definition node_invariant t : bool :=
  match t with
  | Node hash lft rgt height =>
      if (height =? 0)%nat || negb (height - 1 =? node_height lft)%nat
         || negb (height - 1 =? node_height rgt)%nat then false
      else negb (negb (is_none hash)
                 && (is_none (node_root lft) || is_none (node_root rgt)))
  | _ => true
  end.

(** ** Leaves *)

Inductive LeafOrCollapsed :=
| LLeaf (index : Z) (hash : HashOutput) (aux : A)
| LCollapsed (start end_ : Z).

Definition upgrade (shift : Z) (x : LeafOrCollapsed) : LeafOrCollapsed :=
  match x with
  | LLeaf index hash aux => LLeaf (index + shift) hash aux
  | LCollapsed start end_ => LCollapsed (start + shift) (end_ + shift)
  end.

Fixpoint leaves_in_range t (range : RangeB) : list LeafOrCollapsed :=
  match t with
  | Leaf hash aux => if range_contains range 0 then [LLeaf 0 hash aux] else []
  | Stub _ => []
  | Collapsed _ height =>
      match overlap range (Included 0, Excluded (pow2 height)) with
      | Some (start, end_) => [LCollapsed start end_]
      | None => []
      end
  | Node _ lft rgt _ =>
      leaves_in_range lft range ++
      match range_sub range (pow2 (node_height lft)) with
      | Some sub_range => upgrade (pow2 (node_height lft)) <$> leaves_in_range rgt sub_range
      | None => []
      end
  end.

Definition leaves t : list LeafOrCollapsed := leaves_in_range t (Unbounded, Unbounded).

(** [MerkleTree::iter_aux]. *)
Definition as_leaf (x : LeafOrCollapsed) : option (Z * (HashOutput * A)) :=
  match x with LLeaf index hash aux => Some (index, (hash, aux)) | _ => None end.

Definition iter_aux t : list (Z * (HashOutput * A)) := omap as_leaf (leaves t).

Fixpoint node_index t (index : Z) : option (HashOutput * A) :=
  match t with
  | Leaf hash aux => Some (hash, aux)
  | Stub _ => None
  | Collapsed _ _ => None
  | Node _ lft rgt height =>
      let cmp := pow2 (height - 1) in
      if index <? cmp then node_index lft index else node_index rgt (index - cmp)
  end.

(** ** Rehashing, collapsing, updating *)

Fixpoint rehash t : outcome InvalidUpdate MerkleTreeNode :=
  match t with
  | Node None lft rgt height =>
      lft' ← rehash lft;
      rgt' ← rehash rgt;
      l ← expect (node_root lft');
      r ← expect (node_root rgt');
      mret (Node (Some (transient_hash2 l r)) lft' rgt' height)
  | _ => mret t
  end.

(** [self.rehash().root().expect(..)]. *)
Definition rehash_root t : outcome InvalidUpdate Fr :=
  t' ← rehash t; expect (node_root t').

(** The recursion descends one level at a time, through stubs as well; the
    fuel is one more than the height. *)
Fixpoint collapse_rec (fuel : nat) t (start end_ : Z) : outcome InvalidUpdate MerkleTreeNode :=
  match fuel with
  | O => Panic
  | S fuel' =>
      match t with
      | Leaf hash _ => mret (Collapsed (degrade_to_transient hash) 0)
      | Collapsed _ _ => mret t
      | _ =>
          let h := node_height t in
          if (start =? 0) && (end_ =? pow2 h - 1) then
            hash ← rehash_root t; mret (Collapsed hash h)
          else
            node ← match t with
                   | Stub O => Panic
                   | Stub (S h') => mret (Node (Some fr_zero) (Stub h') (Stub h') (S h'))
                   | _ => mret t
                   end;
            match node with
            | Node hash lft rgt height =>
                let cmp := pow2 (h - 1) in
                lft' ← (if start <? cmp then collapse_rec fuel' lft start (Z.min end_ (cmp - 1))
                        else mret lft);
                rgt' ← (if cmp <=? end_ then collapse_rec fuel' rgt (sat_sub start cmp) (end_ - cmp)
                        else mret rgt);
                if is_collapsed lft' && is_collapsed rgt' then
                  hash ← rehash_root t; mret (Collapsed hash height)
                else mret (Node hash lft' rgt' height)
            | _ => Panic
            end
      end
  end.

Definition collapse t (start end_ : Z) : outcome InvalidUpdate MerkleTreeNode :=
  collapse_rec (S (node_height t)) t start end_.

Fixpoint try_update_hash_rec (fuel : nat) t (index : Z) (new_leaf : HashOutput) (new_aux : A)
  : outcome InvalidUpdate MerkleTreeNode :=
  match fuel with
  | O => Panic
  | S fuel' =>
      let h := node_height t in
      if pow2 h <=? index then Fail (IndexOutOfTree index)
      else if is_collapsed t then Fail (CollapsedIndex index h)
      else if (h =? 0)%nat then mret (Leaf new_leaf new_aux)
      else
        let node := match t with
                    | Stub height => Node None (Stub (height - 1)) (Stub (height - 1)) height
                    | _ => t
                    end in
        match node with
        | Node _ lft rgt height =>
            let cmp := pow2 (h - 1) in
            if index <? cmp then
              lft' ← try_update_hash_rec fuel' lft index new_leaf new_aux;
              mret (Node None lft' rgt height)
            else
              rgt' ← try_update_hash_rec fuel' rgt (index - cmp) new_leaf new_aux;
              mret (Node None lft rgt' height)
        | _ => Panic
        end
  end.

Definition try_update_hash t (index : Z) (new_leaf : HashOutput) (new_aux : A)
  : outcome InvalidUpdate MerkleTreeNode :=
  try_update_hash_rec (S (node_height t)) t index new_leaf new_aux.

(** [MerkleTree::blank]. *)
Definition blank (height : nat) : MerkleTreeNode := Stub height.

(** ** Paths *)

Record MerklePathEntry := mkEntry { sibling : Fr; goes_left : bool }.
Record MerklePath (T : Type) := mkPath { path_leaf : T; path : list MerklePathEntry }.
#[global] Arguments mkPath {T}.
#[global] Arguments path_leaf {T}.
#[global] Arguments path {T}.

Definition path_step (acc : Fr) (entry : MerklePathEntry) : Fr :=
  if goes_left entry then transient_hash2 acc (sibling entry)
  else transient_hash2 (sibling entry) acc.

(** [MerklePath::root], with the hash of the leaf's type as an argument. *)
Definition MerklePath_root {T} (leaf_hash : T -> HashOutput) (p : MerklePath T) : Fr :=
  foldl path_step (degrade_to_transient (leaf_hash (path_leaf p))) (path p).

Fixpoint path_for_index_walk t (index i : Z) (siblings : bool)
  (pth : list (option Fr)) (lefts : list bool)
  : outcome InvalidIndex (list (option Fr) * list bool) :=
  if (1 <? node_height t)%nat then
    match t with
    | Leaf _ _ => Panic
    | Stub _ => Fail index
    | Collapsed _ _ => Fail index
    | Node _ lft rgt height =>
        let cmp := pow2 (height - 1) in
        if i <? cmp then
          path_for_index_walk lft index i siblings
            (pth ++ [if siblings then node_root rgt else node_root t]) (lefts ++ [true])
        else
          path_for_index_walk rgt index (i - cmp) siblings
            (pth ++ [if siblings then node_root lft else node_root t]) (lefts ++ [false])
    end
  else
    let lefts := lefts ++ [i =? 0] in
    path_elem ← match t with
                | Stub _ => Fail index
                | _ =>
                    if negb siblings then Ret (node_root t)
                    else match t with
                         | Node _ lft rgt _ =>
                             if i =? 0 then Ret (node_root rgt)
                             else if i =? 1 then Ret (node_root lft) else Panic
                         | _ => Panic
                         end
                end;
    mret (pth ++ [path_elem], lefts).

Definition path_for_index_internal t (index : Z) (siblings : bool)
  : outcome InvalidIndex (list (option Fr) * list bool) :=
  if (node_height t =? 0)%nat then Panic
  else path_for_index_walk t index index siblings [] [].

(** [.map(..).rev().collect::<Result<_, _>>()]. *)
Fixpoint collect {E X} (l : list (result E X)) : result E (list X) :=
  match l with
  | [] => Ok []
  | Ok x :: l' => match collect l' with Ok xs => Ok (x :: xs) | Err e => Err e end
  | Err e :: _ => Err e
  end.

Definition path_for_leaf {T} t (index : Z) (leaf : T) : outcome InvalidIndex (MerklePath T) :=
  if (node_height t =? 0)%nat then
    if index =? 0 then mret (mkPath leaf []) else Fail index
  else
    '(pth, lefts) ← path_for_index_internal t index true;
    entries ← of_result (collect (reverse (zip_with (fun sib is_left =>
                match sib with Some sib => Ok (mkEntry sib is_left) | None => Err index end)
                pth lefts)));
    mret (mkPath leaf entries).

Fixpoint find_first_leaf {T} t (leaf_hash : HashOutput) (leaf : T)
  (l : list (Z * (HashOutput * A))) : outcome InvalidIndex (option (MerklePath T)) :=
  match l with
  | [] => mret None
  | (index, (hash, _)) :: l' =>
      if decide (leaf_hash = hash) then
        match path_for_leaf t index leaf with
        | Ret p => mret (Some p) | Fail _ => mret None | Panic => Panic
        end
      else find_first_leaf t leaf_hash leaf l'
  end.

Definition find_path_for_leaf_inner {T} t (leaf_hash : HashOutput) (leaf : T) (range : RangeB)
  : outcome InvalidIndex (option (MerklePath T)) :=
  find_first_leaf t leaf_hash leaf (omap as_leaf (leaves_in_range t range)).

(** ** Insertion evidence *)

Record TreeInsertionPathEntry := mkInsEntry { ins_hash : option Fr; ins_goes_left : bool }.
Record TreeInsertionPath := mkInsPath {
  ins_leaf : HashOutput * A;
  ins_path : list TreeInsertionPathEntry
}.

Definition insertion_evidence t (index : Z) : outcome InvalidIndex TreeInsertionPath :=
  if (node_height t =? 0)%nat then Fail index
  else
    '(pth, lefts) ← path_for_index_internal t index false;
    leaf ← of_result (ok_or index (node_index t index));
    mret (mkInsPath leaf (reverse (zip_with mkInsEntry pth lefts))).

(** [&path[..path.len() - 1]]. *)
Definition but_last {X} (l : list X) : list X := take (length l - 1) l.

Fixpoint update_from_evidence_internal t (leaf : HashOutput * A)
  (pth : list TreeInsertionPathEntry) : result InvalidUpdate MerkleTreeNode :=
  match t with
  | Collapsed _ height =>
      hash ← match last pth with
             | None => Ok (degrade_to_transient leaf.1)
             | Some entry => ok_or BadUpdatePath (ins_hash entry)
             end;
      Ok (Collapsed hash height)
  | _ =>
      match last pth with
      | None => Ok (Leaf leaf.1 leaf.2)
      | Some entry =>
          match t with
          | Node _ lft rgt height =>
              if ins_goes_left entry then
                lft' ← update_from_evidence_internal lft leaf (but_last pth);
                Ok (Node None lft' rgt height)
              else
                rgt' ← update_from_evidence_internal rgt leaf (but_last pth);
                Ok (Node None lft rgt' height)
          | _ => Err BadUpdatePath
          end
      end
  end.

Definition update_from_evidence t (insertion : TreeInsertionPath)
  : result InvalidUpdate MerkleTreeNode :=
  update_from_evidence_internal t (ins_leaf insertion) (ins_path insertion).

(** ** Collapsed updates *)

Record MerkleTreeCollapsedUpdate := mkCollapsedUpdate {
  upd_start : Z;
  upd_end : Z;
  upd_hashes : list Fr
}.

(** The loop of [partial_index]: [n] rounds left, at round [i]. *)
Fixpoint partial_index_loop (n i : nat) (tree_height : nat) t (idx : Z) (height : nat)
  : outcome InvalidUpdate MerkleTreeNode :=
  match n with
  | O => mret t
  | S n' =>
      let go_left := Z.land idx (pow2 (tree_height - i - 1)) =? 0 in
      match t with
      | Leaf _ _ => Panic
      | Node _ lft rgt _ =>
          partial_index_loop n' (S i) tree_height (if go_left then lft else rgt) idx height
      | Collapsed _ _ => Fail (CollapsedIndex idx height)
      | Stub _ => Fail (StubUpdate idx height)
      end
  end.

Definition partial_index t (idx : Z) (height : nat) : outcome InvalidUpdate Fr :=
  if (node_height t <? height)%nat then Panic
  else
    curr ← partial_index_loop (node_height t - height) 0 (node_height t) t idx height;
    of_result (ok_or NotFullyRehashed (node_root curr)).

Fixpoint collapsed_update_hashes t (curr : Z) (steps : list nat)
  : outcome InvalidUpdate (list Fr) :=
  match steps with
  | [] => mret []
  | step :: steps' =>
      hash ← partial_index t curr step;
      hashes ← collapsed_update_hashes t (curr + pow2 step) steps';
      mret (hash :: hashes)
  end.

Definition collapsed_update_new t (start end_ : Z)
  : outcome InvalidUpdate MerkleTreeCollapsedUpdate :=
  if end_ <? start then Fail (EndBeforeStart start end_)
  else if pow2 (node_height t) <=? end_ then Fail (EndOutOfTree end_)
  else
    steps ← step_sizes start (end_ + 1);
    hashes ← collapsed_update_hashes t start steps;
    mret (mkCollapsedUpdate start end_ hashes).

Fixpoint partial_insert_loop (n i : nat) (theight : nat) t (idx : Z) (height : nat)
  (stack : list (MerkleTreeNode * bool))
  : outcome InvalidUpdate (list (MerkleTreeNode * bool)) :=
  match n with
  | O => mret stack
  | S n' =>
      let go_left := Z.land idx (pow2 (theight - i - 1)) =? 0 in
      match t with
      | Leaf _ _ => Panic
      | Node _ lft rgt _ =>
          partial_insert_loop n' (S i) theight (if go_left then lft else rgt) idx height
            (stack ++ [(if go_left then rgt else lft, go_left)])
      | Stub O => Panic
      | Stub (S h') =>
          partial_insert_loop n' (S i) theight (Stub h') idx height
            (stack ++ [(Stub h', go_left)])
      | Collapsed _ _ => Fail (CollapsedIndex idx height)
      end
  end.

(** The fold that rebuilds the path, over the stack from its top. *)
Fixpoint partial_insert_rebuild (height i : nat) (acc : MerkleTreeNode)
  (rev_stack : list (MerkleTreeNode * bool)) : MerkleTreeNode :=
  match rev_stack with
  | [] => acc
  | (sib, is_left) :: st =>
      let '(lft, rgt) := if is_left : bool then (acc, sib) else (sib, acc) in
      partial_insert_rebuild height (S i) (Node None lft rgt (height + 1 + i)) st
  end.

Definition partial_insert t (idx : Z) (height : nat) (digest : Fr)
  : outcome InvalidUpdate MerkleTreeNode :=
  if (node_height t <? height)%nat then Panic
  else
    stack ← partial_insert_loop (node_height t - height) 0 (node_height t) t idx height [];
    mret (partial_insert_rebuild height 0 (Collapsed digest height) (reverse stack)).

Fixpoint apply_segments t (curr_idx : Z) (segments : list (nat * Fr))
  : outcome InvalidUpdate MerkleTreeNode :=
  match segments with
  | [] => mret t
  | (segment, hash) :: segs =>
      t' ← partial_insert t curr_idx segment hash;
      apply_segments t' (curr_idx + pow2 segment) segs
  end.

Definition apply_collapsed_update t (update : MerkleTreeCollapsedUpdate)
  : outcome InvalidUpdate MerkleTreeNode :=
  segments ← step_sizes (upd_start update) (upd_end update + 1);
  if negb (length segments =? length (upd_hashes update))%nat then
    Fail (WrongNumberOfSegments (length segments) (length (upd_hashes update)))
  else apply_segments t (upd_start update) (zip segments (upd_hashes update)).

(** ** Contents

    What a tree of height [h] stands for: a partial function on the indices
    below [2^h].  Two contents are equal when they agree there. *)

Definition contents : Type := Z -> option (HashOutput * A).
Implicit Types c : contents.

Definition ceq (h : nat) c c' : Prop := forall i, 0 <= i < pow2 h -> c i = c' i.

Definition shift (k : Z) c : contents := fun i => c (i + k).
Definition cupd c (k : Z) (x : HashOutput * A) : contents :=
  fun i => if i =? k then Some x else c i.
Definition cempty : contents := fun _ => None.

Fixpoint mempty (h : nat) c : bool :=
  match h with
  | O => is_none (c 0)
  | S h' => mempty h' c && mempty h' (shift (pow2 h') c)
  end.

(** The root of the contents: zero when there are none. *)
Fixpoint mroot (h : nat) c : Fr :=
  match h with
  | O => match c 0 with Some (x, _) => degrade_to_transient x | None => fr_zero end
  | S h' =>
      if mempty (S h') c then fr_zero
      else transient_hash2 (mroot h' c) (mroot h' (shift (pow2 h') c))
  end.

(** Node [t] of height [h] represents [c].  A cached hash is the right one,
    and a node without one is not empty. *)
Inductive Rep : nat -> contents -> MerkleTreeNode -> Prop :=
| Rep_leaf c x a : c 0 = Some (x, a) -> Rep 0 c (Leaf x a)
| Rep_stub h c : mempty h c = true -> Rep h c (Stub h)
| Rep_collapsed h c : Rep h c (Collapsed (mroot h c) h)
| Rep_node h c ho lft rgt :
    Rep h c lft -> Rep h (shift (pow2 h) c) rgt ->
    match ho with
    | Some x => x = mroot (S h) c /\ is_Some (node_root lft) /\ is_Some (node_root rgt)
    | None => mempty (S h) c = false
    end ->
    Rep (S h) c (Node ho lft rgt (S h)).

(** Whether no collapsed node covers index [i]. *)
Fixpoint visible t (i : Z) : bool :=
  match t with
  | Collapsed _ _ => false
  | Node _ lft rgt height =>
      let cmp := pow2 (height - 1) in
      if i <? cmp then visible lft i else visible rgt (i - cmp)
  | _ => true
  end.

Lemma ceq_left h c c' : ceq (S h) c c' -> ceq h c c'.
Proof. intros H i Hi. apply H. rewrite pow2_S. pose proof (pow2_pos h). lia. Qed.

Lemma ceq_right h c c' : ceq (S h) c c' -> ceq h (shift (pow2 h) c) (shift (pow2 h) c').
Proof. intros H i Hi. apply H. rewrite pow2_S. lia. Qed.

#[local] Hint Resolve ceq_left ceq_right : midnight.

Lemma mempty_ext h c c' : ceq h c c' -> mempty h c = mempty h c'.
Proof.
  revert c c'; induction h as [|h IH]; intros c c' He; simpl.
  - rewrite (He 0); [done|]. unfold pow2. simpl. lia.
  - f_equal; apply IH; auto with midnight.
Qed.

Lemma mroot_ext h c c' : ceq h c c' -> mroot h c = mroot h c'.
Proof.
  revert c c'; induction h as [|h IH]; intros c c' He; simpl.
  - rewrite (He 0); [done|]. unfold pow2. simpl. lia.
  - pose proof (mempty_ext (S h) c c' He) as Hm. simpl in Hm. rewrite Hm.
    rewrite (IH c c'), (IH (shift (pow2 h) c) (shift (pow2 h) c')); auto with midnight.
Qed.

#[global] Instance mroot_proper h : Proper (ceq h ==> eq) (mroot h).
Proof. intros c c'. apply mroot_ext. Qed.

Lemma Rep_ext h c c' t : ceq h c c' -> Rep h c t -> Rep h c' t.
Proof.
  intros He Hr; revert c' He; induction Hr as [c x a Hc|h c Hc|h c|h c ho lft rgt Hl IHl Hr IHr Hho];
    intros c' He.
  - constructor. rewrite <- He; [done|]. unfold pow2; simpl; lia.
  - constructor. by rewrite <- (mempty_ext h c c').
  - rewrite (mroot_ext h c c') by done. constructor.
  - constructor; [auto with midnight..|].
    destruct ho; [by rewrite <- (mroot_ext (S h) c c')|by rewrite <- (mempty_ext (S h) c c')].
Qed.

Lemma Rep_height h c t : Rep h c t -> node_height t = h.
Proof. by destruct 1. Qed.

Lemma mempty_root h c : mempty h c = true -> mroot h c = fr_zero.
Proof.
  destruct h; simpl; [|by intros ->]. by destruct (c 0) as [[]|].
Qed.

Lemma mempty_false h c : mempty h c = false <-> exists i, 0 <= i < pow2 h /\ is_Some (c i).
Proof.
  revert c; induction h as [|h IH]; intros c; simpl.
  - split.
    + intros H. exists 0. split; [unfold pow2; simpl; lia|]. by destruct (c 0).
    + intros (i & Hi & Hc). unfold pow2 in Hi. simpl in Hi. replace i with 0 in Hc by lia.
      by destruct Hc as [? ->].
  - rewrite andb_false_iff, !IH, pow2_S. pose proof (pow2_pos h). split.
    + intros [(i & Hi & Hc)|(i & Hi & Hc)]; [exists i; split; [lia|done]|].
      exists (i + pow2 h). split; [lia|done].
    + intros (i & Hi & Hc). destruct (decide (i < pow2 h)); [left; exists i; split; [lia|done]|].
      right. exists (i - pow2 h). split; [lia|]. unfold shift.
      by replace (i - pow2 h + pow2 h) with i by lia.
Qed.

Lemma Rep_root h c t x : Rep h c t -> node_root t = Some x -> x = mroot h c.
Proof.
  destruct 1 as [c x' a Hc|h c Hc|h c|h c [y|] lft rgt Hl Hr Hho]; simpl; intros [= <-].
  - by rewrite Hc.
  - by rewrite mempty_root.
  - done.
  - apply Hho.
Qed.

(** Rehashing keeps the contents and yields their root. *)
Lemma rehash_spec h c t :
  Rep h c t -> exists t', rehash t = Ret t' /\ Rep h c t' /\ node_root t' = Some (mroot h c).
Proof.
  induction 1 as [c x a Hc|h c Hc|h c|h c ho lft rgt Hl IHl Hr IHr Hho].
  - eexists. split_and!; [done|by constructor|]. simpl. by rewrite Hc.
  - eexists. split_and!; [done|by constructor|]. simpl. by rewrite mempty_root.
  - eexists. split_and!; [done|by constructor|done].
  - destruct ho as [y|].
    + eexists. split_and!; [done|by constructor|]. simpl. f_equal. apply Hho.
    + destruct IHl as (l' & El & Rl & Hl'), IHr as (r' & Er & Rr & Hr').
      cbn [rehash]. rewrite El. cbn [mbind outcome_bind]. rewrite Er. cbn [mbind outcome_bind].
      rewrite Hl', Hr'. cbn [expect mbind outcome_bind mret outcome_ret].
      assert (Hm : mroot (S h) c = transient_hash2 (mroot h c) (mroot h (shift (pow2 h) c))).
      { cbn [mroot]. by rewrite Hho. }
      eexists. split_and!; [done| |by rewrite Hm].
      constructor; [done..|]. rewrite Hl', Hr'. split_and!; [by rewrite Hm|eauto..].
Qed.

Lemma rehash_visible h c t t' :
  Rep h c t -> rehash t = Ret t' -> forall i, visible t' i = visible t i.
Proof.
  intros HR; revert t'; induction HR as [c x a Hc|h c Hc|h c|h c ho lft rgt Hl IHl Hr IHr Hho];
    intros t' E i; [by injection E as <-..|].
  destruct ho as [y|]; [by injection E as <-|].
  cbn [rehash] in E. apply outcome_bind_Ret in E as (l' & El & (r' & Er & E)%outcome_bind_Ret).
  apply outcome_bind_Ret in E as (x & _ & (y & _ & E)%outcome_bind_Ret).
  injection E as <-. cbn [visible]. by rewrite (IHl l' El), (IHr r' Er).
Qed.

Lemma rehash_root_spec h c t : Rep h c t -> rehash_root t = Ret (mroot h c).
Proof.
  intros (t' & E & _ & Hr)%rehash_spec. unfold rehash_root. rewrite E. simpl. by rewrite Hr.
Qed.

Lemma cupd_left_other h c i x : pow2 h <= i -> ceq h c (cupd c i x).
Proof. intros Hi j Hj. unfold cupd. destruct (Z.eqb_spec j i); [lia|done]. Qed.

Lemma cupd_right_other h c i x :
  i < pow2 h -> ceq h (shift (pow2 h) c) (shift (pow2 h) (cupd c i x)).
Proof. intros Hi j Hj. unfold cupd, shift. destruct (Z.eqb_spec (j + pow2 h) i); [lia|done]. Qed.

Lemma cupd_right_same h c i x :
  ceq h (cupd (shift (pow2 h) c) (i - pow2 h) x) (shift (pow2 h) (cupd c i x)).
Proof.
  intros j Hj. unfold cupd, shift.
  destruct (Z.eqb_spec j (i - pow2 h)), (Z.eqb_spec (j + pow2 h) i); try lia; done.
Qed.

Lemma mempty_cupd h c i x : 0 <= i < pow2 h -> mempty h (cupd c i x) = false.
Proof.
  intros Hi. apply mempty_false. exists i. split; [done|]. unfold cupd.
  rewrite Z.eqb_refl. eauto.
Qed.

Lemma Rep_stub_split h c :
  mempty (S h) c = true -> Rep h c (Stub h) /\ Rep h (shift (pow2 h) c) (Stub h).
Proof. cbn [mempty]. intros [H1 H2]%andb_true_iff. split; by constructor. Qed.

(** The node an update or a collapse descends into: a stub is split first. *)
Lemma update_node_step (fuel h : nat) c lft rgt i x a :
  (forall h c t i, Rep h c t -> (h < fuel)%nat -> 0 <= i < pow2 h -> visible t i = true ->
     exists t', try_update_hash_rec fuel t i x a = Ret t' /\ Rep h (cupd c i (x, a)) t' /\
       forall j, 0 <= j < pow2 h -> visible t' j = visible t j) ->
  (h < fuel)%nat -> Rep h c lft -> Rep h (shift (pow2 h) c) rgt -> 0 <= i < pow2 (S h) ->
  (if i <? pow2 h then visible lft i else visible rgt (i - pow2 h)) = true ->
  exists t',
    (if i <? pow2 h then
       lft' ← try_update_hash_rec fuel lft i x a; mret (Node None lft' rgt (S h))
     else rgt' ← try_update_hash_rec fuel rgt (i - pow2 h) x a; mret (Node None lft rgt' (S h)))
    = Ret t' /\ Rep (S h) (cupd c i (x, a)) t' /\
    forall j, 0 <= j < pow2 (S h) -> visible t' j = visible (Node None lft rgt (S h)) j.
Proof.
  intros IH Hf Hl Hr Hi Hv. rewrite pow2_S in Hi.
  destruct (Z.ltb_spec i (pow2 h)) as [Hlt|Hge].
  - destruct (IH h c lft i) as (l' & -> & Rl & Vl); [done|done|lia|done|].
    eexists. split_and!; [done| |].
    + constructor; [done| |apply mempty_cupd; rewrite pow2_S; lia].
      eapply Rep_ext, Hr. by apply cupd_right_other.
    + intros j Hj. rewrite pow2_S in Hj. cbn [visible]. replace (S h - 1)%nat with h by lia.
      cbv zeta. destruct (Z.ltb_spec j (pow2 h)); [apply Vl; lia|done].
  - destruct (IH h (shift (pow2 h) c) rgt (i - pow2 h)) as (r' & -> & Rr & Vr);
      [done|done|lia|done|].
    eexists. split_and!; [done| |].
    + constructor; [| |apply mempty_cupd; rewrite pow2_S; lia].
      * eapply Rep_ext, Hl. by apply cupd_left_other.
      * eapply Rep_ext, Rr. apply cupd_right_same.
    + intros j Hj. rewrite pow2_S in Hj. cbn [visible]. replace (S h - 1)%nat with h by lia.
      cbv zeta. destruct (Z.ltb_spec j (pow2 h)); [done|apply Vr; lia].
Qed.

Lemma try_update_rec_spec fuel h c t i x a :
  Rep h c t -> (h < fuel)%nat -> 0 <= i < pow2 h -> visible t i = true ->
  exists t', try_update_hash_rec fuel t i x a = Ret t' /\ Rep h (cupd c i (x, a)) t' /\
    forall j, 0 <= j < pow2 h -> visible t' j = visible t j.
Proof.
  revert h c t i; induction fuel as [|fuel IH]; intros h c t i HR Hf Hi Hv; [lia|].
  cbn [try_update_hash_rec]. rewrite (Rep_height h c t) by done. cbv zeta.
  destruct (Z.leb_spec (pow2 h) i); [lia|].
  destruct HR as [c y b Hc|h c Hc|h c|h c ho lft rgt Hl Hr Hho]; cbn [is_collapsed].
  - exists (Leaf x a). split_and!; [done| |done]. constructor. unfold pow2 in Hi. simpl in Hi.
    unfold cupd. destruct (Z.eqb_spec 0 i); [done|lia].
  - destruct h as [|h].
    + exists (Leaf x a). split_and!; [done| |done]. constructor. unfold pow2 in Hi. simpl in Hi.
      unfold cupd. destruct (Z.eqb_spec 0 i); [done|lia].
    + apply Rep_stub_split in Hc as [Hl Hr]. cbn [Nat.eqb]. replace (S h - 1)%nat with h by lia.
      destruct (update_node_step fuel h c (Stub h) (Stub h) i x a) as (t' & -> & HR & HV);
        [done|lia|done|done|lia|by case_match|].
      exists t'. split_and!; [done|done|]. intros j Hj. rewrite HV by done.
      cbn [visible]. by repeat case_match.
  - done.
  - cbn [Nat.eqb]. replace (S h - 1)%nat with h by lia.
    cbn [visible] in Hv. replace (S h - 1)%nat with h in Hv by lia.
    destruct (update_node_step fuel h c lft rgt i x a) as (t' & -> & HR & HV);
      [done|lia|done|done|lia|done|].
    by exists t'.
Qed.

(** An update of an index that is not collapsed succeeds and changes that
    entry of the contents, nothing else. *)
Lemma try_update_hash_spec h c t i x a :
  Rep h c t -> 0 <= i < pow2 h -> visible t i = true ->
  exists t', try_update_hash t i x a = Ret t' /\ Rep h (cupd c i (x, a)) t' /\
    forall j, 0 <= j < pow2 h -> visible t' j = visible t j.
Proof.
  intros HR Hi Hv. unfold try_update_hash. rewrite (Rep_height h c t HR).
  apply try_update_rec_spec; [done|lia|done|done].
Qed.

Lemma try_update_rec_collapsed fuel h c t i x a :
  Rep h c t -> (h < fuel)%nat -> 0 <= i < pow2 h -> visible t i = false ->
  exists j k, try_update_hash_rec fuel t i x a = Fail (CollapsedIndex j k).
Proof.
  intros HR; revert fuel i; induction HR as [c y b Hc|h c Hc|h c|h c ho lft rgt Hl IHl Hr IHr Hho];
    intros fuel i Hf Hi Hv; try done; (destruct fuel as [|fuel]; [lia|]);
    cbn [try_update_hash_rec node_height]; cbv zeta.
  - destruct (Z.leb_spec (pow2 h) i); [lia|]. simpl. eauto.
  - destruct (Z.leb_spec (pow2 (S h)) i); [lia|]. cbn [is_collapsed Nat.eqb].
    cbn [visible] in Hv. rewrite pow2_S in Hi.
    replace (S h - 1)%nat with h in * by lia. cbv zeta in Hv.
    destruct (Z.ltb_spec i (pow2 h)).
    + destruct (IHl fuel i) as (j & k & ->); [lia|lia|done|]. simpl. eauto.
    + destruct (IHr fuel (i - pow2 h)) as (j & k & ->); [lia|lia|done|]. simpl. eauto.
Qed.

Lemma try_update_hash_collapsed h c t i x a :
  Rep h c t -> 0 <= i < pow2 h -> visible t i = false ->
  exists j k, try_update_hash t i x a = Fail (CollapsedIndex j k).
Proof.
  intros HR Hi Hv. unfold try_update_hash. rewrite (Rep_height h c t HR).
  eapply try_update_rec_collapsed; eauto.
Qed.

Lemma try_update_hash_out t i x a :
  pow2 (node_height t) <= i -> try_update_hash t i x a = Fail (IndexOutOfTree i).
Proof.
  intros Hi. unfold try_update_hash. cbn [try_update_hash_rec]. cbv zeta.
  destruct (Z.leb_spec (pow2 (node_height t)) i); [done|lia].
Qed.

(** Lookups read the contents, where they are not collapsed. *)
Lemma node_index_spec h c t i :
  Rep h c t -> 0 <= i < pow2 h -> node_index t i = if visible t i then c i else None.
Proof.
  intros HR; revert i; induction HR as [c y b Hc|h c Hc|h c|h c ho lft rgt Hl IHl Hr IHr Hho];
    intros i Hi; simpl; try done.
  - unfold pow2 in Hi. simpl in Hi. by replace i with 0 by lia.
  - destruct (c i) eqn:E; [|done]. enough (mempty h c = false) by congruence.
    apply mempty_false. exists i. split; [done|]. rewrite E. eauto.
  - rewrite Nat.sub_0_r, pow2_S in *. destruct (Z.ltb_spec i (pow2 h)).
    + rewrite IHl by lia. done.
    + rewrite IHr by lia. unfold shift. by replace (i - pow2 h + pow2 h) with i by lia.
Qed.

(** *** Collapsing *)

Definition in_interval (start end_ j : Z) : bool := (start <=? j) && (j <=? end_).

(** What collapsing [start..=end_] does to a node: the contents stay, the
    interval is no longer visible, a cached root stays cached. *)
Definition collapsed_as (h : nat) c t (start end_ : Z) t' : Prop :=
  Rep h c t' /\ (is_Some (node_root t) -> is_Some (node_root t')) /\
  forall j, 0 <= j < pow2 h -> visible t' j = visible t j && negb (in_interval start end_ j).

Lemma collapsed_all_hidden h c t t' start end_ j :
  collapsed_as h c t start end_ t' -> is_collapsed t' = true -> 0 <= j < pow2 h ->
  visible t j && negb (in_interval start end_ j) = false.
Proof. intros (_ & _ & HV) Hc Hj. rewrite <- HV by done. by destruct t'. Qed.

Lemma collapse_side (fuel h : nat) c t (go : bool) start end_ :
  (go = true -> exists t', collapse_rec fuel t start end_ = Ret t' /\
                           collapsed_as h c t start end_ t') ->
  Rep h c t -> (go = false -> forall j, 0 <= j < pow2 h -> in_interval start end_ j = false) ->
  exists t', (if go then collapse_rec fuel t start end_ else mret t) = Ret t' /\
             collapsed_as h c t start end_ t'.
Proof.
  intros H1 HR H2. destruct go; [by apply H1|]. exists t. split; [done|].
  split_and!; [done|done|]. intros j Hj. rewrite H2 by done. by rewrite andb_true_r.
Qed.

(** The intervals a collapse may be asked for: inside the tree, and possibly
    empty with an end just before the start. *)
Definition interval_ok (h : nat) (start end_ : Z) : Prop :=
  0 <= start /\ end_ < pow2 h /\ (start <= end_ \/ (start = end_ + 1 /\ 1 <= start < pow2 h)).

Lemma collapse_node_step (fuel h : nat) c t ho lft rgt start end_ :
  (forall h c t s e, Rep h c t -> (h < fuel)%nat -> interval_ok h s e ->
     exists t', collapse_rec fuel t s e = Ret t' /\ collapsed_as h c t s e t') ->
  (h < fuel)%nat -> Rep (S h) c (Node ho lft rgt (S h)) ->
  rehash_root t = Ret (mroot (S h) c) -> interval_ok (S h) start end_ ->
  exists t',
    (lft' ← (if start <? pow2 h then collapse_rec fuel lft start (Z.min end_ (pow2 h - 1))
             else mret lft);
     rgt' ← (if pow2 h <=? end_ then collapse_rec fuel rgt (sat_sub start (pow2 h)) (end_ - pow2 h)
             else mret rgt);
     if is_collapsed lft' && is_collapsed rgt' then
       hash ← rehash_root t; mret (Collapsed hash (S h))
     else mret (Node ho lft' rgt' (S h))) = Ret t' /\
    collapsed_as (S h) c (Node ho lft rgt (S h)) start end_ t'.
Proof.
  intros IH Hf HR Hrt (Hs & He & Hse). inversion HR as [| | |h' c' ho' l' r' Hl Hr Hho]; subst.
  rewrite pow2_S in He, Hse. pose proof (pow2_pos h).
  destruct (collapse_side fuel h c lft (start <? pow2 h) start (Z.min end_ (pow2 h - 1)))
    as (l1 & -> & Cl).
  { intros ?%Z.ltb_lt. apply IH; [done|lia|]. unfold interval_ok. lia. }
  { done. }
  { intros ?%Z.ltb_ge j Hj. unfold in_interval. lia. }
  destruct (collapse_side fuel h (shift (pow2 h) c) rgt (pow2 h <=? end_)
              (sat_sub start (pow2 h)) (end_ - pow2 h)) as (r1 & Er & Cr).
  { intros ?%Z.leb_le. apply IH; [done|lia|]. unfold interval_ok, sat_sub. lia. }
  { done. }
  { intros ?%Z.leb_gt j Hj. unfold in_interval. lia. }
  cbn [mbind outcome_bind]. rewrite Er. cbn [mbind outcome_bind].
  assert (Hvis : forall j, 0 <= j < pow2 (S h) ->
    visible (Node ho lft rgt (S h)) j && negb (in_interval start end_ j)
    = if j <? pow2 h then visible l1 j else visible r1 (j - pow2 h)).
  { intros j Hj. rewrite pow2_S in Hj. cbn [visible]. rewrite Nat.sub_succ, Nat.sub_0_r. cbv zeta.
    destruct Cl as (_ & _ & Vl), Cr as (_ & _ & Vr).
    destruct (Z.ltb_spec j (pow2 h)); [rewrite Vl by lia|rewrite Vr by lia];
      f_equal; f_equal; unfold in_interval, sat_sub; lia. }
  destruct (is_collapsed l1 && is_collapsed r1) eqn:Hcc.
  - apply andb_true_iff in Hcc as [Hc1 Hc2]. rewrite Hrt. eexists. split; [done|].
    split_and!; [constructor|simpl; eauto|].
    intros j Hj. rewrite Hvis by done. destruct l1, r1; try done. by destruct (j <? pow2 h).
  - eexists. split; [done|]. destruct Cl as (Rl & Sl & Vl), Cr as (Rr & Sr & Vr).
    split_and!; [|done|].
    + constructor; [done..|]. destruct ho; [|done]. destruct Hho as (? & ? & ?). auto.
    + intros j Hj. rewrite Hvis by done. cbn [visible]. by rewrite Nat.sub_succ, Nat.sub_0_r.
Qed.

Lemma collapse_rec_spec fuel h c t start end_ :
  Rep h c t -> (h < fuel)%nat -> interval_ok h start end_ ->
  exists t', collapse_rec fuel t start end_ = Ret t' /\ collapsed_as h c t start end_ t'.
Proof.
  revert h c t start end_; induction fuel as [|fuel IH]; intros h c t start end_ HR Hf Hok; [lia|].
  assert (Hfull : (start =? 0) && (end_ =? pow2 h - 1) = true ->
    collapsed_as h c t start end_ (Collapsed (mroot h c) h)).
  { intros [?%Z.eqb_eq ?%Z.eqb_eq]%andb_true_iff. split_and!; [constructor|simpl; eauto|].
    intros j Hj. simpl. unfold in_interval. subst.
    destruct (Z.leb_spec 0 j), (Z.leb_spec j (pow2 h - 1)); try lia. }
  pose proof (rehash_root_spec h c t HR) as Hrt.
  destruct HR as [c x a Hc|h c Hc|h c|h c ho lft rgt Hl Hr Hho]; cbn [collapse_rec node_height].
  - destruct Hok as (Hs & He & Hse). change (pow2 0) with 1 in *.
    replace start with 0 in * by lia. replace end_ with 0 in * by lia.
    eexists. split; [done|]. pose proof (Hfull eq_refl) as HF. simpl in HF. by rewrite Hc in HF.
  - destruct (_ && _) eqn:E; [rewrite Hrt; simpl; eauto|].
    destruct h as [|h].
    { destruct Hok as (Hs & He & Hse). change (pow2 0) with 1 in *.
      replace start with 0 in E by lia. replace end_ with 0 in E by lia. done. }
    pose proof (Rep_stub_split h c Hc) as [Hl Hr].
    cbn [mbind outcome_bind mret outcome_ret]. rewrite Nat.sub_succ, Nat.sub_0_r. cbv zeta.
    destruct (collapse_node_step fuel h c (Stub (S h)) (Some fr_zero) (Stub h) (Stub h) start end_)
      as (t' & -> & HR' & HS & HV); [done|lia| |done|done|].
    { constructor; [done..|]. rewrite mempty_root by done. simpl. eauto. }
    exists t'. split; [done|]. split_and!; [done|intros _; apply HS; simpl; eauto|].
    intros j Hj. rewrite HV by done. cbn [visible]. by case_match.
  - eexists. split; [done|]. split_and!; [constructor|done|done].
  - destruct (_ && _) eqn:E; [rewrite Hrt; simpl; eauto|].
    cbn [mbind outcome_bind mret outcome_ret]. rewrite Nat.sub_succ, Nat.sub_0_r. cbv zeta.
    apply collapse_node_step; [done|lia|by constructor|done|done].
Qed.

(** Collapsing an interval of the tree always succeeds and keeps the contents,
    hence the root; it hides exactly that interval. *)
Lemma collapse_spec h c t start end_ :
  Rep h c t -> interval_ok h start end_ ->
  exists t', collapse t start end_ = Ret t' /\ collapsed_as h c t start end_ t'.
Proof.
  intros HR Hok. unfold collapse. rewrite (Rep_height h c t HR).
  apply collapse_rec_spec; [done|lia|done].
Qed.

(** *** Merkle paths *)

Definition entries (es : list (Fr * bool)) : list MerklePathEntry :=
  (fun e => mkEntry e.1 e.2) <$> es.

Lemma foldl_path_cons d e es :
  foldl path_step d (reverse (entries (e :: es))) =
  path_step (foldl path_step d (reverse (entries es))) (mkEntry e.1 e.2).
Proof. unfold entries. rewrite fmap_cons, reverse_cons, foldl_app. done. Qed.

Lemma mroot_node h c i x :
  0 <= i < pow2 (S h) -> c i = Some x ->
  mroot (S h) c = transient_hash2 (mroot h c) (mroot h (shift (pow2 h) c)).
Proof.
  intros Hi Hc. cbn [mroot]. replace (mempty (S h) c) with false; [done|].
  symmetry. apply mempty_false. exists i. rewrite Hc. eauto.
Qed.

(** Walking down to a present leaf of a hashed tree collects the siblings
    that lead back to the root. *)
Lemma path_walk_spec h c t index i x a pth lefts :
  Rep (S h) c t -> is_Some (node_root t) -> 0 <= i < pow2 (S h) ->
  c i = Some (x, a) -> visible t i = true ->
  exists es, path_for_index_walk t index i true pth lefts =
               Ret (pth ++ ((fun e => Some e.1) <$> es), lefts ++ es.*2) /\
    length es = S h /\
    foldl path_step (degrade_to_transient x) (reverse (entries es)) = mroot (S h) c.
Proof.
  revert c t i pth lefts; induction h as [|h IH]; intros c t i pth lefts HR Hrt Hi Hc Hv.
  - inversion HR as [|h' c' Hm| |h' c' ho lft rgt Hl Hr Hho]; subst; [|done|].
    { enough (mempty 1 c = false) by congruence. apply mempty_false. exists i. rewrite Hc. eauto. }
    rewrite (mroot_node 0 c i (x, a)) by done.
    destruct ho as [y|]; [|by destruct Hrt]. destruct Hho as (_ & [lr El] & [rr Er]).
    pose proof (Rep_root _ _ _ _ Hl El) as ->. pose proof (Rep_root _ _ _ _ Hr Er) as ->.
    cbn [path_for_index_walk node_height Nat.ltb Nat.leb negb].
    change (pow2 1) with 2 in Hi. change (pow2 0) with 1 in *.
    destruct (Z.eqb_spec i 0) as [->|]; [|destruct (Z.eqb_spec i 1) as [->|]; [|lia]].
    + rewrite Er. exists [(mroot 0 (shift 1 c), true)]. split_and!; [done|done|].
      rewrite foldl_path_cons. simpl. by rewrite Hc.
    + rewrite El. exists [(mroot 0 c, false)]. split_and!; [done|done|].
      rewrite foldl_path_cons. replace (mroot 0 (shift 1 c)) with (degrade_to_transient x); [done|].
      cbn [mroot]. unfold shift. change (0 + 1) with 1. by rewrite Hc.
  - inversion HR as [|h' c' Hm| |h' c' ho lft rgt Hl Hr Hho]; subst; [|done|].
    { enough (mempty (S (S h)) c = false) by congruence. apply mempty_false. exists i.
      rewrite Hc. eauto. }
    rewrite (mroot_node (S h) c i (x, a)) by done.
    destruct ho as [y|]; [|by destruct Hrt]. destruct Hho as (_ & [lr El] & [rr Er]).
    pose proof (Rep_root _ _ _ _ Hl El) as ->. pose proof (Rep_root _ _ _ _ Hr Er) as ->.
    cbn [path_for_index_walk node_height]. cbn [visible] in Hv.
    rewrite pow2_S in Hi. rewrite Nat.sub_succ, Nat.sub_0_r in *. cbv zeta in *.
    change (1 <? S (S h))%nat with true. cbv iota.
    destruct (Z.ltb_spec i (pow2 (S h))) as [Hlt|Hge].
    + destruct (IH c lft i (pth ++ [node_root rgt]) (lefts ++ [true])) as (es & -> & Hlen & Hf);
        [done|eauto|lia|done|done|].
      exists ((mroot (S h) (shift (pow2 (S h)) c), true) :: es).
      rewrite Er, <- !app_assoc. split_and!; [done|simpl; lia|].
      rewrite foldl_path_cons, Hf. done.
    + destruct (IH (shift (pow2 (S h)) c) rgt (i - pow2 (S h)) (pth ++ [node_root lft])
                  (lefts ++ [false])) as (es & -> & Hlen & Hf);
        [done|eauto|lia| |done|].
      { unfold shift. by replace (i - pow2 (S h) + pow2 (S h)) with i by lia. }
      exists ((mroot (S h) c, false) :: es).
      rewrite El, <- !app_assoc. split_and!; [done|simpl; lia|].
      rewrite foldl_path_cons, Hf. done.
Qed.

Lemma collect_entries index (es : list (Fr * bool)) :
  collect (reverse (zip_with (fun sib (is_left : bool) =>
      match sib with Some sib => Ok (mkEntry sib is_left) | None => Err index end)
    ((fun e => Some e.1) <$> es) es.*2)) = (Ok (reverse (entries es)) : result InvalidIndex _).
Proof.
  assert (Hz : zip_with (fun sib (is_left : bool) =>
      match sib with Some sib => Ok (mkEntry sib is_left) | None => Err index end)
    ((fun e => Some e.1) <$> es) es.*2 = (Ok <$> entries es : list (result InvalidIndex _))).
  { induction es as [|[f b] es IH]; csimpl; [done|]. by f_equal. }
  rewrite Hz. rewrite <- fmap_reverse. generalize (reverse (entries es)). clear.
  induction l as [|e l IH]; csimpl; [done|]. by rewrite IH.
Qed.

(** The path of a present, visible leaf of a hashed tree exists and proves
    membership. *)
Lemma path_for_leaf_spec {T} (leaf_hash : T -> HashOutput) h c t i (leaf : T) a :
  Rep h c t -> is_Some (node_root t) -> 0 <= i < pow2 h ->
  c i = Some (leaf_hash leaf, a) -> visible t i = true ->
  exists p, path_for_leaf t i leaf = Ret p /\ length (path p) = h /\ path_leaf p = leaf /\
    MerklePath_root leaf_hash p = mroot h c.
Proof.
  intros HR Hrt Hi Hc Hv. unfold path_for_leaf, path_for_index_internal.
  rewrite (Rep_height h c t HR). destruct h as [|h].
  - change (pow2 0) with 1 in Hi. replace i with 0 in * by lia.
    eexists. split_and!; [done|done|done|]. unfold MerklePath_root. simpl. by rewrite Hc.
  - cbn [Nat.eqb].
    destruct (path_walk_spec h c t i i _ _ [] [] HR Hrt Hi Hc Hv) as (es & -> & Hlen & Hf).
    cbn [mbind outcome_bind app]. rewrite collect_entries. simpl.
    eexists. split_and!; [done| |done|done]. simpl. unfold entries.
    by rewrite length_reverse, length_fmap.
Qed.

(** *** Soundness of paths

    With a collision-free hash whose values are never zero, a path of the
    right length that leads to the root ends in a leaf of the contents. *)
Lemma path_sound h c d es :
  (forall a b a' b', transient_hash2 a b = transient_hash2 a' b' -> a = a' /\ b = b') ->
  (forall a b, transient_hash2 a b <> fr_zero) -> (forall x, degrade_to_transient x <> fr_zero) ->
  length es = h -> foldl path_step (degrade_to_transient d) es = mroot h c ->
  exists i x a, 0 <= i < pow2 h /\ c i = Some (x, a) /\
    degrade_to_transient x = degrade_to_transient d.
Proof.
  intros Hinj Hnz Hdz; revert c es; induction h as [|h IH]; intros c es Hlen Hf.
  - destruct es; [|done]. simpl in Hf. destruct (c 0) as [[x a]|] eqn:Hc; [|by apply Hdz in Hf].
    exists 0, x, a. split_and!; [done|done|done|done].
  - destruct es as [|e es _] using rev_ind; [done|].
    rewrite length_app in Hlen. simpl in Hlen.
    rewrite foldl_app in Hf. cbn [foldl] in Hf. cbn [mroot] in Hf.
    destruct (mempty (S h) c).
    { unfold path_step in Hf. destruct (goes_left e); by apply Hnz in Hf. }
    rewrite pow2_S. pose proof (pow2_pos h).
    unfold path_step in Hf. destruct (goes_left e); apply Hinj in Hf as [Hf1 Hf2].
    + destruct (IH c es) as (i & x & a & Hi & Hc & Hx); [lia|done|].
      exists i, x, a. split_and!; [lia|lia|done|done].
    + destruct (IH (shift (pow2 h) c) es) as (i & x & a & Hi & Hc & Hx); [lia|done|].
      exists (i + pow2 h), x, a. split_and!; [lia|lia|done|done].
Qed.

(** *** Insertion evidence *)

(** [es] lists, from the root down, the roots of the contents along the way
    to [i], and which way it goes. *)
Fixpoint Evidence (h : nat) c (i : Z) (es : list TreeInsertionPathEntry) : Prop :=
  match h with
  | O => es = []
  | S h' =>
      match es with
      | [] => False
      | e :: es' =>
          ins_hash e = Some (mroot (S h') c) /\ ins_goes_left e = (i <? pow2 h') /\
          if i <? pow2 h' then Evidence h' c i es'
          else Evidence h' (shift (pow2 h') c) (i - pow2 h') es'
      end
  end.

Lemma evidence_walk_spec h c t index i x pth lefts :
  Rep (S h) c t -> is_Some (node_root t) -> 0 <= i < pow2 (S h) ->
  c i = Some x -> visible t i = true ->
  exists es, path_for_index_walk t index i false pth lefts =
               Ret (pth ++ (ins_hash <$> es), lefts ++ (ins_goes_left <$> es)) /\
    Evidence (S h) c i es.
Proof.
  revert c t i pth lefts; induction h as [|h IH]; intros c t i pth lefts HR Hrt Hi Hc Hv;
    inversion HR as [|h' c' Hm| |h' c' ho lft rgt Hl Hr Hho]; subst; try done.
  - enough (mempty 1 c = false) by congruence. apply mempty_false. exists i. rewrite Hc. eauto.
  - destruct Hrt as [y Hrt]. pose proof (Rep_root _ _ _ _ HR Hrt) as ->.
    cbn [node_root] in Hrt. subst ho. change (pow2 1) with 2 in Hi.
    exists [mkInsEntry (Some (mroot 1 c)) (i =? 0)]. split; [done|].
    cbn [Evidence]. change (pow2 0) with 1. split_and!; [done|simpl; lia|by destruct (i <? 1)].
  - enough (mempty (S (S h)) c = false) by congruence. apply mempty_false. exists i.
    rewrite Hc. eauto.
  - destruct Hrt as [y Hrt]. pose proof (Rep_root _ _ _ _ HR Hrt) as ->.
    cbn [node_root] in Hrt. subst ho. destruct Hho as (_ & Sl & Sr).
    cbn [path_for_index_walk node_height node_root]. cbn [visible] in Hv.
    rewrite pow2_S in Hi. rewrite Nat.sub_succ, Nat.sub_0_r in *. cbv zeta in *.
    change (1 <? S (S h))%nat with true. cbv iota.
    destruct (Z.ltb_spec i (pow2 (S h))) as [Hlt|Hge].
    + destruct (IH c lft i (pth ++ [Some (mroot (S (S h)) c)]) (lefts ++ [true]))
        as (es & -> & HE); [done|done|lia|done|done|].
      exists (mkInsEntry (Some (mroot (S (S h)) c)) true :: es).
      rewrite <- !app_assoc. split; [done|].
      cbn [Evidence]. destruct (Z.ltb_spec i (pow2 (S h))); [done|lia].
    + destruct (IH (shift (pow2 (S h)) c) rgt (i - pow2 (S h))
                  (pth ++ [Some (mroot (S (S h)) c)]) (lefts ++ [false])) as (es & -> & HE);
        [done|done|lia| |done|].
      { unfold shift. by replace (i - pow2 (S h) + pow2 (S h)) with i by lia. }
      exists (mkInsEntry (Some (mroot (S (S h)) c)) false :: es).
      rewrite <- !app_assoc. split; [done|].
      cbn [Evidence]. destruct (Z.ltb_spec i (pow2 (S h))); [lia|done].
Qed.

Lemma zip_with_mkInsEntry es :
  zip_with mkInsEntry (ins_hash <$> es) (ins_goes_left <$> es) = es.
Proof. induction es as [|[] es IH]; csimpl; [done|]. by f_equal. Qed.

Lemma insertion_evidence_spec h c t i x :
  Rep (S h) c t -> is_Some (node_root t) -> 0 <= i < pow2 (S h) ->
  c i = Some x -> visible t i = true ->
  exists es, insertion_evidence t i = Ret (mkInsPath x (reverse es)) /\ Evidence (S h) c i es.
Proof.
  intros HR Hrt Hi Hc Hv. unfold insertion_evidence, path_for_index_internal.
  rewrite (Rep_height _ _ _ HR). cbn [Nat.eqb].
  destruct (evidence_walk_spec h c t i i x [] [] HR Hrt Hi Hc Hv) as (es & -> & HE).
  cbn [mbind outcome_bind app]. rewrite (node_index_spec _ _ _ _ HR Hi), Hv, Hc.
  cbn [ok_or of_result mbind outcome_bind mret outcome_ret].
  rewrite zip_with_mkInsEntry. eauto.
Qed.

(** The way to [i] meets no stub above the leaves. *)
Fixpoint no_stub_path t (i : Z) : bool :=
  match t with
  | Stub h => (h =? 0)%nat
  | Node _ lft rgt height =>
      let cmp := pow2 (height - 1) in
      if i <? cmp then no_stub_path lft i else no_stub_path rgt (i - cmp)
  | _ => true
  end.

Lemma last_reverse_cons {X} (e : X) es : last (reverse (e :: es)) = Some e.
Proof. by rewrite reverse_cons, last_snoc. Qed.

Lemma but_last_reverse_cons {X} (e : X) es : but_last (reverse (e :: es)) = reverse es.
Proof.
  unfold but_last. rewrite reverse_cons, length_app. simpl.
  rewrite Nat.add_sub, take_app_length. done.
Qed.

(** Replaying an insertion on a tree of the old contents gives a tree of the
    new contents, whatever the tree has collapsed. *)
Lemma update_from_evidence_spec h c c2 t i x es :
  Rep h c2 t -> 0 <= i < pow2 h -> ceq h (cupd c2 i x) c -> Evidence h c i es ->
  no_stub_path t i = true ->
  exists t', update_from_evidence_internal t x (reverse es) = Ok t' /\ Rep h c t' /\
    forall j, visible t' j = visible t j.
Proof.
  revert c c2 t i es; induction h as [|h IH]; intros c c2 t i es HR Hi He HE Hns.
  - simpl in HE. subst es. change (pow2 0) with 1 in Hi. replace i with 0 in * by lia.
    assert (Hc : c 0 = Some x).
    { rewrite <- (He 0) by (change (pow2 0) with 1; lia). done. }
    destruct x as [x a].
    inversion HR; subst; simpl.
    + eexists. split_and!; [done| |done]. by constructor.
    + eexists. split_and!; [done| |done]. by constructor.
    + eexists. split_and!; [done| |done].
      replace (degrade_to_transient x) with (mroot 0 c) by (simpl; by rewrite Hc). constructor.
  - destruct es as [|e es]; [done|]. destruct HE as (Eh & El & HE).
    assert (Hc : c i = Some x) by (rewrite <- (He i) by done; unfold cupd; by rewrite Z.eqb_refl).
    inversion HR as [|h' c' Hm|h' c'|h' c' ho lft rgt Hl Hr Hho]; subst; [done| |].
    + cbn [update_from_evidence_internal]. rewrite last_reverse_cons, Eh.
      eexists. split_and!; [done| |done]. constructor.
    + cbn [update_from_evidence_internal]. rewrite last_reverse_cons, but_last_reverse_cons, El.
      cbn [no_stub_path] in Hns. rewrite pow2_S in Hi. rewrite Nat.sub_succ, Nat.sub_0_r in Hns.
      cbv zeta in Hns. assert (Hne : mempty (S h) c = false).
      { apply mempty_false. exists i. rewrite Hc, pow2_S. eauto. }
      destruct (Z.ltb_spec i (pow2 h)).
      * destruct (IH c c2 lft i es) as (l' & -> & Rl & Vl); [done|lia|auto with midnight|done|done|].
        simpl. eexists. split_and!; [done| |intros j; cbn [visible]; by rewrite Vl].
        constructor; [done| |done].
        eapply Rep_ext, Hr. intros j Hj. rewrite <- (ceq_right _ _ _ He j Hj).
        by apply cupd_right_other.
      * destruct (IH (shift (pow2 h) c) (shift (pow2 h) c2) rgt (i - pow2 h) es)
          as (r' & -> & Rr & Vr); [done|lia| |done|done|].
        { intros j Hj. rewrite <- (ceq_right _ _ _ He j Hj). by apply cupd_right_same. }
        simpl. eexists. split_and!; [done| |intros j; cbn [visible]; by rewrite Vr].
        constructor; [|done|done].
        eapply Rep_ext, Hl. intros j Hj. rewrite <- (ceq_left _ _ _ He j Hj).
        by apply (cupd_left_other h).
Qed.

(** There is no stub on the way to an entry. *)
Lemma no_stub_to_entry h c t i x : Rep h c t -> 0 <= i < pow2 h -> c i = Some x -> no_stub_path t i = true.
Proof.
  intros HR; revert i; induction HR as [c y b Hc|h c Hc|h c|h c ho lft rgt Hl IHl Hr IHr Hho]; intros i Hi Hx; try done.
  - enough (mempty h c = false) by congruence. apply mempty_false. exists i. rewrite Hx. eauto.
  - cbn [no_stub_path]. rewrite Nat.sub_succ, Nat.sub_0_r. cbv zeta. rewrite pow2_S in Hi.
    destruct (Z.ltb_spec i (pow2 h)); [apply IHl; [lia|done]|]. apply IHr; [lia|].
    unfold shift. by replace (i - pow2 h + pow2 h) with i by lia.
Qed.

(** *** Enumerating leaves *)

(** The bounds of a range are [u64]s. *)
Definition bound_ok (b : Bound) : Prop :=
  match b with Unbounded => True | Included n => in_u 64 n | Excluded n => in_u 64 n end.
Definition range_ok (range : RangeB) : Prop := bound_ok range.1 /\ bound_ok range.2.

Lemma range_empty_spec range j :
  range_ok range -> range_empty range = true -> 0 <= j <= U64_MAX ->
  range_contains range j = false.
Proof.
  destruct range as [[|n|n] [|m|m]]; intros [H1 H2]; unfold range_empty, range_force_inclusive,
    range_contains, bound_ok, in_u, U64_MAX, u_max in *; simpl in *; intros He Hj;
    repeat case_match; simplify_eq/=; lia.
Qed.

Lemma range_sub_Some range sub range' :
  range_ok range -> 0 <= sub -> range_sub range sub = Some range' ->
  range_ok range' /\
  forall j, 0 <= j -> range_contains range' j = range_contains range (j + sub).
Proof.
  destruct range as [s e]; intros [H1 H2] Hsub Hr. unfold range_sub in Hr. cbn [fst snd] in *.
  apply bind_Some in Hr as (e' & He & Hr). destruct (range_empty _); [done|].
  injection Hr as <-. unfold checked_sub, range_ok, bound_ok, in_u, range_contains in *.
  cbn [fst snd] in *.
  split; [split|intros j Hj; f_equal];
    destruct s as [|n|n], e as [|m|m]; repeat case_match; simplify_eq/=; lia.
Qed.

Lemma range_sub_None range sub j :
  range_ok range -> 0 <= sub -> range_sub range sub = None -> 0 <= j -> j + sub <= U64_MAX ->
  range_contains range (j + sub) = false.
Proof.
  intros Hok Hsub Hr Hj Hmax. destruct range as [s e]. unfold range_sub in Hr. cbn [fst snd] in *.
  apply bind_None in Hr as [He|(e' & He & Hr)].
  - unfold range_contains. cbn [fst snd]. apply andb_false_iff. right.
    destruct e; unfold checked_sub in He; repeat case_match; simplify_eq/=; lia.
  - destruct (range_empty _) eqn:Hem; [|done]. clear Hr.
    destruct Hok as [H1 H2]. unfold bound_ok in *. cbn [fst snd] in *.
    match type of Hem with range_empty ?r = _ =>
      assert (Hr : range_ok r); [|pose proof (range_empty_spec r j Hr Hem) as Hc] end.
    + unfold checked_sub, range_ok, bound_ok, in_u in *. cbn [fst snd] in *.
      split; [destruct s|destruct e]; repeat case_match; simplify_eq/=; lia.
    + assert (Hcs : range_contains
        (match s with
         | Unbounded => Unbounded
         | Included n => match checked_sub n sub with Some m => Included m | None => Unbounded end
         | Excluded n => match checked_sub n sub with Some m => Excluded m | None => Unbounded end
         end, e') j = false) by (apply Hc; lia).
      rewrite <- Hcs. unfold range_contains, checked_sub in *. cbn [fst snd]. f_equal;
        destruct s, e; repeat case_match; simplify_eq/=; lia.
Qed.

Lemma as_leaf_upgrade k (l : list LeafOrCollapsed) i x :
  (i, x) ∈ omap as_leaf (upgrade k <$> l) <-> (i - k, x) ∈ omap as_leaf l.
Proof.
  rewrite !list_elem_of_omap. split.
  - intros (y & (z & -> & Hz)%list_elem_of_fmap & Hy). exists z. split; [done|].
    destruct z; simplify_eq/=. by rewrite Z.add_simpl_r.
  - intros (z & Hz & Hy). exists (upgrade k z). split; [apply list_elem_of_fmap; eauto|].
    destruct z; simplify_eq/=. do 2 f_equal. lia.
Qed.

(** The leaves listed for a range are those that can be looked up in it. *)
Lemma leaves_in_range_spec h c t range i x :
  Rep h c t -> (h <= 63)%nat -> range_ok range ->
  (i, x) ∈ omap as_leaf (leaves_in_range t range) <->
  0 <= i < pow2 h /\ range_contains range i = true /\ node_index t i = Some x.
Proof.
  intros HR; revert range i; induction HR as [c y b Hc|h c Hc|h c|h c ho lft rgt Hl IHl Hr IHr Hho];
    intros range i Hh Hok.
  - change (pow2 0) with 1. simpl. destruct (range_contains range 0) eqn:E; simpl.
    + rewrite list_elem_of_singleton. split; [by intros [= -> ->]|].
      intros (Hi & _ & [= <-]). f_equal. lia.
    + split; [by intros ?%not_elem_of_nil|]. intros (Hi & Hc' & _).
      replace i with 0 in Hc' by lia. congruence.
  - simpl. split; [by intros ?%not_elem_of_nil|]. by intros (_ & _ & ?).
  - simpl. destruct (overlap _ _) as [[]|]; simpl;
      (split; [by intros ?%not_elem_of_nil|]; by intros (_ & _ & ?)).
  - cbn [leaves_in_range node_index]. rewrite (Rep_height _ _ _ Hl), Nat.sub_succ, Nat.sub_0_r.
    cbv zeta. rewrite omap_app, elem_of_app, IHl, pow2_S by (done || lia).
    pose proof (pow2_pos h) as Hp.
    assert (Hmax : 2 * pow2 h <= U64_MAX + 1).
    { rewrite <- pow2_S. unfold pow2, U64_MAX, u_max. rewrite Z.sub_add.
      apply Z.pow_le_mono_r; lia. }
    destruct (range_sub range (pow2 h)) as [sub_range|] eqn:Hs.
    + destruct (range_sub_Some range (pow2 h) sub_range) as [Hok' Hc']; [done|lia|done|].
      rewrite as_leaf_upgrade, IHr by (done || lia).
      destruct (Z.ltb_spec i (pow2 h)).
      * split; [intros [?|?]|]; [intuition lia|lia|intuition lia].
      * split; [intros [?|(Hi & H2 & H3)]; [lia|]|intros (Hi & H2 & H3); right].
        -- rewrite Hc', Z.sub_add in H2 by lia. split_and!; try done; lia.
        -- rewrite Hc', Z.sub_add by lia. split_and!; try done; lia.
    + simpl. destruct (Z.ltb_spec i (pow2 h)).
      * split; [intros [?|?%not_elem_of_nil]; [intuition lia|done]|intuition lia].
      * split; [intros [?|?%not_elem_of_nil]; [lia|done]|].
        intros (Hi & H2 & _). exfalso.
        pose proof (range_sub_None range (pow2 h) (i - pow2 h) Hok) as Hn.
        rewrite Z.sub_add, H2 in Hn. enough (true = false) by done. apply Hn; (lia || done).
Qed.

(** Leaves are listed in the order of their indices. *)
Lemma leaves_in_range_sorted h c t range :
  Rep h c t -> (h <= 63)%nat -> range_ok range ->
  StronglySorted (fun e e' => e.1 < e'.1) (omap as_leaf (leaves_in_range t range)).
Proof.
  intros HR; revert range; induction HR as [c y b Hc|h c Hc|h c|h c ho lft rgt Hl IHl Hr IHr Hho];
    intros range Hh Hok.
  - simpl. destruct (range_contains range 0); repeat constructor.
  - constructor.
  - simpl. destruct (overlap _ _) as [[]|]; constructor.
  - cbn [leaves_in_range]. rewrite (Rep_height _ _ _ Hl). cbv zeta. rewrite omap_app.
    destruct (range_sub range (pow2 h)) as [sub_range|] eqn:Hs;
      [|cbn [omap list_omap]; rewrite app_nil_r; apply IHl; [lia|done]].
    pose proof (pow2_pos h) as Hp.
    destruct (range_sub_Some range (pow2 h) sub_range) as [Hok' _]; [done|lia|done|].
    apply StronglySorted_app. split_and!.
    + intros [i x] [j y] Hi Hj. apply (leaves_in_range_spec h c lft) in Hi; [|done|lia|done].
      apply as_leaf_upgrade in Hj. apply (leaves_in_range_spec h (shift (pow2 h) c) rgt) in Hj; [|done|lia|done].
      simpl. lia.
    + apply IHl; [lia|done].
    + specialize (IHr sub_range ltac:(lia) Hok'). revert IHr. generalize (leaves_in_range rgt sub_range).
      intros l. induction l as [|[j x y|j k] l IH]; simpl; [done| |done].
      intros [H1 H2]%StronglySorted_cons. constructor; [by apply IH|].
      apply Forall_forall. intros [j' z] Hz%as_leaf_upgrade. rewrite Forall_forall in H1.
      specialize (H1 _ Hz). simpl in *. lia.
Qed.

Lemma find_first_leaf_spec {T} (leaf_hash : T -> HashOutput) h c t (leaf : T) l :
  Rep h c t -> is_Some (node_root t) ->
  Forall (fun e => 0 <= e.1 < pow2 h /\ node_index t e.1 = Some e.2) l ->
  match find_first_leaf t (leaf_hash leaf) leaf l with
  | Ret (Some p) => path_leaf p = leaf /\ MerklePath_root leaf_hash p = mroot h c
  | Ret None => Forall (fun e => e.2.1 <> leaf_hash leaf) l
  | _ => False
  end.
Proof.
  intros HR Hrt. induction 1 as [|[i [x a]] l [Hi Hx] _ IH]; cbn [find_first_leaf]; [by constructor|].
  cbn [fst snd] in *. destruct (decide (leaf_hash leaf = x)) as [<-|Hne].
  - rewrite (node_index_spec h c) in Hx by done. destruct (visible t i) eqn:Hv; [|done].
    destruct (path_for_leaf_spec leaf_hash h c t i leaf a HR Hrt Hi Hx Hv) as (p & -> & _ & ? & ?).
    done.
  - destruct (find_first_leaf _ _ _ _) as [[p|]| |]; [done| |done..].
    constructor; [by intros ?; apply Hne|done].
Qed.

(** *** Collapsed updates *)

(** The contents [c2] with the block [[idx, idx + 2^k)] taken from [c]. *)
Definition block_upd (k : nat) (idx : Z) c c2 : contents :=
  fun i => if (idx <=? i) && (i <? idx + pow2 k) then c i else c2 i.

Lemma partial_insert_rebuild_snoc k i acc l sib (is_left : bool) :
  partial_insert_rebuild k i acc (l ++ [(sib, is_left)]) =
  let t := partial_insert_rebuild k i acc l in
  if is_left then Node None t sib (k + 1 + (i + length l))
  else Node None sib t (k + 1 + (i + length l)).
Proof.
  revert i acc; induction l as [|[s b] l IH]; intros i acc.
  - simpl. rewrite Nat.add_0_r. by destruct is_left.
  - cbn [app partial_insert_rebuild]. destruct b; rewrite IH; cbn [length];
      by replace (S i + length l)%nat with (i + S (length l))%nat by lia.
Qed.

Lemma block_upd_left n k j c c2 :
  (k <= n)%nat -> 0 <= j -> j + pow2 k <= pow2 n ->
  ceq n (shift (pow2 n) c2) (shift (pow2 n) (block_upd k j c c2)).
Proof.
  intros Hk Hj Hb i Hi. unfold shift, block_upd.
  destruct (Z.leb_spec j (i + pow2 n)), (Z.ltb_spec (i + pow2 n) (j + pow2 k)); simpl; try done; lia.
Qed.

Lemma block_upd_right n k j c c2 :
  pow2 n <= j -> ceq n c2 (block_upd k j c c2).
Proof.
  intros Hj i Hi. unfold block_upd. destruct (Z.leb_spec j i); [lia|done].
Qed.

Lemma block_upd_shift n k j c c2 :
  ceq n (block_upd k (j - pow2 n) (shift (pow2 n) c) (shift (pow2 n) c2))
        (shift (pow2 n) (block_upd k j c c2)).
Proof.
  intros i Hi. unfold shift, block_upd.
  destruct (Z.leb_spec (j - pow2 n) i), (Z.leb_spec j (i + pow2 n)),
    (Z.ltb_spec i (j - pow2 n + pow2 k)), (Z.ltb_spec (i + pow2 n) (j + pow2 k)); simpl; try done; lia.
Qed.

Lemma block_upd_nonempty n k j c c2 :
  0 <= j -> j + pow2 k <= pow2 n -> mempty k (shift j c) = false ->
  mempty n (block_upd k j c c2) = false.
Proof.
  intros Hj Hb (i & Hi & Hc)%mempty_false. apply mempty_false. exists (i + j). split; [lia|].
  unfold block_upd. unfold shift in Hc.
  destruct (Z.leb_spec j (i + j)), (Z.ltb_spec (i + j) (j + pow2 k)); simpl; try lia. done.
Qed.

(** An aligned block below [2^(n+1)] lies in one half. *)
Lemma block_half k n j :
  (k <= n)%nat -> j mod pow2 k = 0 -> 0 <= j < pow2 n -> j + pow2 k <= pow2 n.
Proof.
  intros Hk Hm Hj.
  assert (Hd : pow2 n = pow2 (n - k) * pow2 k).
  { unfold pow2. rewrite <- Z.pow_add_r by lia. f_equal. lia. }
  pose proof (pow2_pos k) as Hp. rewrite Hd in *.
  assert (exists q, j = q * pow2 k) as [q ->] by (exists (j / pow2 k); rewrite (Z.div_mod j (pow2 k)) at 1 by lia; lia).
  destruct Hj as [_ Hj%Z.mul_lt_mono_pos_r]; [|done]. nia.
Qed.

Lemma mod_pow2_mod k n idx : (k <= n)%nat -> idx mod pow2 k = 0 -> (idx mod pow2 n) mod pow2 k = 0.
Proof.
  intros Hk Hm. pose proof (pow2_pos k). pose proof (pow2_pos n).
  assert (Hd : pow2 n = pow2 (n - k) * pow2 k).
  { unfold pow2. rewrite <- Z.pow_add_r by lia. f_equal. lia. }
  rewrite (Z.mod_eq idx (pow2 n)) by lia. rewrite Hd at 1.
  replace (idx - pow2 (n - k) * pow2 k * (idx / pow2 n))
    with (idx + (- (pow2 (n - k) * (idx / pow2 n))) * pow2 k) by lia.
  rewrite Z.mod_add by lia. done.
Qed.

Definition outside (k : nat) (j i : Z) : Prop := i < j \/ j + pow2 k <= i.

(** The tree rebuilt from a stack represents the updated contents. *)
Definition rebuilt (n k : nat) (j : Z) (d : Fr) c c2 t (st : list (MerkleTreeNode * bool)) : Prop :=
  let t' := partial_insert_rebuild k 0 (Collapsed d k) (reverse st) in
  length st = n /\ Rep (k + n) (block_upd k j c c2) t' /\
  forall i, 0 <= i < pow2 (k + n) -> outside k j i -> visible t' i = visible t i.

Lemma rebuilt_left n k j d c c2 ho lft rgt st :
  Rep (k + n) (shift (pow2 (k + n)) c2) rgt ->
  0 <= j < pow2 (k + n) -> j mod pow2 k = 0 -> mempty k (shift j c) = false ->
  rebuilt n k j d c c2 lft st ->
  rebuilt (S n) k j d c c2 (Node ho lft rgt (S (k + n))) ((rgt, true) :: st).
Proof.
  intros Hr Hj Hm Hne (Hlen & HR & HV). unfold rebuilt in *. cbv zeta in *.
  rewrite reverse_cons, partial_insert_rebuild_snoc. cbv zeta.
  rewrite length_reverse, Hlen. replace (k + 1 + (0 + n))%nat with (S (k + n)) by lia.
  replace (k + S n)%nat with (S (k + n)) by lia.
  pose proof (block_half k (k + n) j ltac:(lia) Hm Hj) as Hb. pose proof (pow2_pos (k + n)).
  split_and!; [simpl; lia| |].
  - constructor; [done| |].
    + eapply Rep_ext, Hr. apply block_upd_left; lia.
    + apply block_upd_nonempty; [lia|rewrite pow2_S; lia|done].
  - intros i Hi Ho. rewrite pow2_S in Hi. cbn [visible]. rewrite Nat.sub_succ, Nat.sub_0_r. cbv zeta.
    destruct (Z.ltb_spec i (pow2 (k + n))); [apply HV; [lia|done]|done].
Qed.

Lemma rebuilt_right n k j d c c2 ho lft rgt st :
  Rep (k + n) c2 lft ->
  pow2 (k + n) <= j < 2 * pow2 (k + n) -> (j - pow2 (k + n)) mod pow2 k = 0 ->
  mempty k (shift j c) = false ->
  rebuilt n k (j - pow2 (k + n)) d (shift (pow2 (k + n)) c) (shift (pow2 (k + n)) c2) rgt st ->
  rebuilt (S n) k j d c c2 (Node ho lft rgt (S (k + n))) ((lft, false) :: st).
Proof.
  intros Hl Hj Hm Hne (Hlen & HR & HV). unfold rebuilt in *. cbv zeta in *.
  rewrite reverse_cons, partial_insert_rebuild_snoc. cbv zeta.
  rewrite length_reverse, Hlen. replace (k + 1 + (0 + n))%nat with (S (k + n)) by lia.
  replace (k + S n)%nat with (S (k + n)) by lia.
  pose proof (block_half k (k + n) (j - pow2 (k + n)) ltac:(lia) Hm ltac:(lia)) as Hb.
  split_and!; [simpl; lia| |].
  - constructor.
    + eapply Rep_ext, Hl. apply block_upd_right. lia.
    + eapply Rep_ext, HR. apply block_upd_shift.
    + apply block_upd_nonempty; [lia|rewrite pow2_S; lia|done].
  - intros i Hi Ho. rewrite pow2_S in Hi. cbn [visible]. rewrite Nat.sub_succ, Nat.sub_0_r. cbv zeta.
    destruct (Z.ltb_spec i (pow2 (k + n))); [done|apply HV; [lia|unfold outside in *; lia]].
Qed.

Lemma shift_shift_ext k j m c : ceq k (shift j c) (shift (j - m) (shift m c)).
Proof. intros i _. unfold shift. f_equal. lia. Qed.

Lemma partial_insert_loop_spec n : forall i th t c c2 idx k d stack,
  th = (i + (k + n))%nat -> Rep (k + n) c2 t -> 0 <= idx -> idx mod pow2 k = 0 ->
  let j := idx mod pow2 (k + n) in
  visible t j = true -> mempty k (shift j c) = false -> d = mroot k (shift j c) ->
  exists st, partial_insert_loop n i th t idx k stack = Ret (stack ++ st) /\
    rebuilt n k j d c c2 t st.
Proof.
  induction n as [|n IH]; intros i th t c c2 idx k d stack -> HR Hidx Hal j Hv Hne Hd.
  - exists []. rewrite app_nil_r. split; [done|]. unfold rebuilt. cbv zeta. simpl.
    subst d j. rewrite Nat.add_0_r in *. rewrite Hal in *.
    split_and!; [done| |].
    + rewrite (mroot_ext k (shift 0 c) (block_upd k 0 c c2)); [constructor|].
      intros i' Hi'. unfold shift, block_upd. rewrite Z.add_0_r.
      destruct (Z.leb_spec 0 i'), (Z.ltb_spec i' (0 + pow2 k)); simpl; try done; lia.
    + intros i' Hi' Ho. unfold outside in Ho. lia.
  - cbn [partial_insert_loop]. replace (i + (k + S n) - i - 1)%nat with (k + n)%nat by lia.
    assert (Ej0 : idx mod pow2 (S (k + n)) = j) by (unfold j; do 2 f_equal; lia). clearbody j.
    replace (k + S n)%nat with (S (k + n)) in * by lia.
    pose proof (mod_pow2_step idx (k + n) Hidx) as Hstep.
    pose proof (pow2_pos (k + n)) as Hp. rewrite land_pow2 in * by done.
    pose proof (Z.mod_pos_bound idx (pow2 (S (k + n))) (pow2_pos _)) as Hjb.
    pose proof (mod_pow2_mod k (k + n) idx ltac:(lia) Hal) as Hmm.
    rewrite Ej0 in *. cbv zeta. rewrite pow2_S in Hjb.
    assert (Hsub : forall l r, Rep (k + n) c2 l -> Rep (k + n) (shift (pow2 (k + n)) c2) r ->
      (if j <? pow2 (k + n) then visible l j else visible r (j - pow2 (k + n))) = true ->
      forall ho,
      exists st, partial_insert_loop n (S i) (i + S (k + n)) (if j <? pow2 (k + n) then l else r) idx k
                   (stack ++ [(if j <? pow2 (k + n) then r else l, j <? pow2 (k + n))])
                 = Ret (stack ++ st) /\ rebuilt (S n) k j d c c2 (Node ho l r (S (k + n))) st).
    { intros l r Hl Hr Hvis ho. revert Hvis Hstep.
      destruct (Z.ltb_spec j (pow2 (k + n))) as [Hlt|Hge]; intros Hvis Hstep.
      - assert (Ej : idx mod pow2 (k + n) = j) by lia.
        destruct (IH (S i) (i + S (k + n))%nat l c c2 idx k d (stack ++ [(r, true)])) as (st & -> & HB);
          try (rewrite Ej; done); [lia|done|done|done|].
        rewrite Ej in HB. exists ((r, true) :: st). rewrite <- app_assoc. split; [done|].
        apply rebuilt_left; [done|lia|by rewrite <- Ej|done|done].
      - assert (Ej : idx mod pow2 (k + n) = j - pow2 (k + n)) by lia.
        pose proof (shift_shift_ext k j (pow2 (k + n)) c) as Hss.
        destruct (IH (S i) (i + S (k + n))%nat r (shift (pow2 (k + n)) c) (shift (pow2 (k + n)) c2)
                    idx k d (stack ++ [(l, false)])) as (st & -> & HB);
          rewrite ?Ej; [lia|done|done|done|done|by rewrite <- (mempty_ext _ _ _ Hss)
                       |by rewrite Hd; apply mroot_ext|].
        rewrite Ej in HB. exists ((l, false) :: st). rewrite <- app_assoc. split; [done|].
        apply rebuilt_right; [done|lia|by rewrite <- Ej|done|done]. }
    inversion HR as [|h' c' Hm|h' c'|h' c' ho l r Hl Hr Hho]; subst t; try done.
    + apply Rep_stub_split in Hm as [Hl Hr].
      destruct (Hsub (Stub (k + n)) (Stub (k + n)) Hl Hr ltac:(by case_match) None) as (st & Est & HB).
      exists st. split.
      * rewrite <- Est. by destruct (j <? pow2 (k + n)).
      * destruct HB as (? & ? & HV). split_and!; [done|done|]. intros i' Hi' Ho.
        rewrite HV by (done || lia). cbn [visible].
        destruct (i' <? pow2 (S (k + n) - 1)); reflexivity.
    + cbn [visible] in Hv. rewrite Nat.sub_succ, Nat.sub_0_r in Hv. cbv zeta in Hv.
      by apply Hsub.
Qed.

Lemma partial_insert_spec h k t c c2 idx :
  Rep h c2 t -> (k <= h)%nat -> 0 <= idx < pow2 h -> idx mod pow2 k = 0 ->
  visible t idx = true -> mempty k (shift idx c) = false ->
  exists t', partial_insert t idx k (mroot k (shift idx c)) = Ret t' /\
    Rep h (block_upd k idx c c2) t' /\
    forall i, 0 <= i < pow2 h -> outside k idx i -> visible t' i = visible t i.
Proof.
  intros HR Hk Hi Hal Hv Hne. unfold partial_insert. rewrite (Rep_height _ _ _ HR).
  destruct (Nat.ltb_spec h k); [lia|]. replace h with (k + (h - k))%nat in HR by lia.
  assert (Ej : idx mod pow2 (k + (h - k)) = idx).
  { replace (k + (h - k))%nat with h by lia. by apply Z.mod_small. }
  destruct (partial_insert_loop_spec (h - k) 0 h t c c2 idx k (mroot k (shift idx c)) [])
    as (st & -> & HB); rewrite ?Ej; [lia|done|lia|done..|].
  rewrite Ej in HB. destruct HB as (_ & HR' & HV). replace (k + (h - k))%nat with h in * by lia.
  simpl. eauto.
Qed.

Lemma partial_index_loop_spec n : forall i th t c idx k,
  th = (i + (k + n))%nat -> Rep (k + n) c t -> is_Some (node_root t) ->
  0 <= idx -> let j := idx mod pow2 (k + n) in idx mod pow2 k = 0 ->
  visible t j = true -> is_Some (c j) ->
  exists t', partial_index_loop n i th t idx k = Ret t' /\
    node_root t' = Some (mroot k (shift j c)).
Proof.
  induction n as [|n IH]; intros i th t c idx k -> HR Hrt Hidx j Hal Hv Hc.
  - subst j. rewrite Nat.add_0_r in *. rewrite Hal in *. exists t. split; [done|].
    destruct Hrt as [y Hy]. rewrite Hy. f_equal. rewrite (Rep_root _ _ _ _ HR Hy).
    apply mroot_ext. intros i' _. unfold shift. f_equal. lia.
  - cbn [partial_index_loop]. replace (i + (k + S n) - i - 1)%nat with (k + n)%nat by lia.
    assert (Ej0 : idx mod pow2 (S (k + n)) = j) by (unfold j; do 2 f_equal; lia). clearbody j.
    replace (k + S n)%nat with (S (k + n)) in * by lia.
    pose proof (mod_pow2_step idx (k + n) Hidx) as Hstep.
    pose proof (pow2_pos (k + n)) as Hp. rewrite land_pow2 in * by done.
    pose proof (Z.mod_pos_bound idx (pow2 (S (k + n))) (pow2_pos _)) as Hjb.
    rewrite Ej0 in *. cbv zeta.
    inversion HR as [|h' c' Hm|h' c'|h' c' ho l r Hl Hr Hho]; subst t; try done.
    { enough (mempty (S (k + n)) c = false) by congruence. apply mempty_false. by exists j. }
    destruct ho as [y|]; [|by destruct Hrt]. destruct Hho as (_ & Sl & Sr).
    cbn [visible] in Hv. rewrite Nat.sub_succ, Nat.sub_0_r in Hv. cbv zeta in Hv.
    rewrite pow2_S in Hjb. revert Hstep Hv. destruct (Z.ltb_spec j (pow2 (k + n))); intros Hstep Hv.
    + assert (Ej : idx mod pow2 (k + n) = j) by lia.
      destruct (IH (S i) (i + S (k + n))%nat l c idx k) as (t' & -> & Ht');
        rewrite ?Ej; [lia|done..|]. rewrite Ej in Ht'. eauto.
    + assert (Ej : idx mod pow2 (k + n) = j - pow2 (k + n)) by lia.
      destruct (IH (S i) (i + S (k + n))%nat r (shift (pow2 (k + n)) c) idx k) as (t' & -> & Ht');
        rewrite ?Ej; [lia|done..| |].
      { unfold shift. by replace (j - pow2 (k + n) + pow2 (k + n)) with j by lia. }
      rewrite Ej in Ht'. exists t'. split; [done|]. rewrite Ht'. f_equal. symmetry.
      apply mroot_ext, shift_shift_ext.
Qed.

Lemma partial_index_spec h k t c idx :
  Rep h c t -> is_Some (node_root t) -> (k <= h)%nat -> 0 <= idx < pow2 h ->
  idx mod pow2 k = 0 -> visible t idx = true -> is_Some (c idx) ->
  partial_index t idx k = Ret (mroot k (shift idx c)).
Proof.
  intros HR Hrt Hk Hi Hal Hv Hc. unfold partial_index. rewrite (Rep_height _ _ _ HR).
  destruct (Nat.ltb_spec h k); [lia|]. replace h with (k + (h - k))%nat in HR by lia.
  assert (Ej : idx mod pow2 (k + (h - k)) = idx).
  { replace (k + (h - k))%nat with h by lia. by apply Z.mod_small. }
  destruct (partial_index_loop_spec (h - k) 0 h t c idx k) as (t' & -> & Ht');
    rewrite ?Ej; [lia|done|done|lia|done..|].
  rewrite Ej in Ht'. simpl. by rewrite Ht'.
Qed.

(** The contents [c2] with the interval [[a, b)] taken from [c]. *)
Definition range_upd (a b : Z) c c2 : contents :=
  fun i => if (a <=? i) && (i <? b) then c i else c2 i.

Lemma steps_from_le a steps b : steps_from a steps b -> a <= b.
Proof.
  revert a; induction steps as [|s steps IH]; intros a; simpl; [lia|].
  intros [_ H%IH]. pose proof (pow2_pos s). lia.
Qed.

Lemma pow2_le_inv a b : pow2 a <= pow2 b -> (a <= b)%nat.
Proof. unfold pow2. intros H. apply Z.pow_le_mono_r_iff in H; lia. Qed.

Lemma collapsed_update_steps h t c steps : forall a b t2 c2,
  Rep h c t -> is_Some (node_root t) -> Rep h c2 t2 ->
  steps_from a steps b -> 0 <= a -> b <= pow2 h ->
  (forall i, a <= i < b -> is_Some (c i) /\ visible t i = true /\ visible t2 i = true) ->
  exists hs t2', collapsed_update_hashes t a steps = Ret hs /\ length hs = length steps /\
    apply_segments t2 a (zip steps hs) = Ret t2' /\ Rep h (range_upd a b c c2) t2'.
Proof.
  induction steps as [|s steps IH]; intros a b t2 c2 HR Hrt HR2 Hst Ha Hb Hall.
  - simpl in Hst. subst b. exists [], t2. split_and!; [done|done|done|].
    eapply Rep_ext, HR2. intros i _. unfold range_upd.
    destruct (Z.leb_spec a i), (Z.ltb_spec i a); simpl; try done; lia.
  - destruct Hst as [Hal Hst]. pose proof (steps_from_le _ _ _ Hst) as Hle.
    pose proof (pow2_pos s) as Hp.
    assert (Hs : (s <= h)%nat) by (apply pow2_le_inv; lia).
    destruct (Hall a ltac:(lia)) as (Hca & Hva & Hva2).
    assert (Hne : mempty s (shift a c) = false).
    { apply mempty_false. exists 0. split; [lia|]. unfold shift. by rewrite Z.add_0_l. }
    cbn [collapsed_update_hashes].
    rewrite (partial_index_spec h s t c a) by (done || lia). cbn [mbind outcome_bind].
    destruct (partial_insert_spec h s t2 c c2 a) as (t3 & Ht3 & HR3 & HV3); [done|done|lia|done..|].
    destruct (IH (a + pow2 s) b t3 (block_upd s a c c2)) as (hs & t2' & Eh & Hl & Ea & HR');
      [done|done|done|done|lia|done| |].
    { intros i Hi. destruct (Hall i ltac:(lia)) as (? & ? & ?). split_and!; [done|done|].
      rewrite HV3; [done|lia|unfold outside; lia]. }
    rewrite Eh. exists (mroot s (shift a c) :: hs), t2'.
    split_and!; [done|simpl; lia| |].
    + cbn [zip zip_with apply_segments]. rewrite Ht3. done.
    + eapply Rep_ext, HR'. intros i Hi. unfold range_upd, block_upd.
      destruct (Z.leb_spec (a + pow2 s) i), (Z.leb_spec a i), (Z.ltb_spec i b),
        (Z.ltb_spec i (a + pow2 s)); simpl; try done; lia.
Qed.

(** A collapsed update carries an interval of one tree over to another. *)
Lemma collapsed_update_transfer h t c t2 c2 start end_ :
  Rep h c t -> is_Some (node_root t) -> Rep h c2 t2 -> 0 <= start <= end_ -> end_ < pow2 h ->
  (forall i, start <= i <= end_ -> is_Some (c i) /\ visible t i = true /\ visible t2 i = true) ->
  exists u t2', collapsed_update_new t start end_ = Ret u /\
    apply_collapsed_update t2 u = Ret t2' /\ Rep h (range_upd start (end_ + 1) c c2) t2'.
Proof.
  intros HR Hrt HR2 Hs He Hall. unfold collapsed_update_new, apply_collapsed_update.
  rewrite (Rep_height _ _ _ HR).
  destruct (Z.ltb_spec end_ start); [lia|]. destruct (Z.leb_spec (pow2 h) end_); [lia|].
  destruct (step_sizes_spec start (end_ + 1) ltac:(lia)) as (steps & Est & Hst). rewrite Est.
  cbn [mbind outcome_bind].
  destruct (collapsed_update_steps h t c steps start (end_ + 1) t2 c2)
    as (hs & t2' & Eh & Hl & Ea & HR'); [done|done|done|done|lia|lia| |].
  { intros i Hi. apply Hall. lia. }
  rewrite Eh. eexists _, t2'. split; [done|]. cbn [upd_start upd_end upd_hashes].
  rewrite Est. cbn [mbind outcome_bind]. rewrite Hl, Nat.eqb_refl. done.
Qed.
End MerkleTree.

(** ** Properties *)

Arguments Leaf {HashOutput Fr A} hash aux.
Arguments Collapsed {HashOutput Fr A} hash height.
Arguments Stub {HashOutput Fr A} height.
Arguments Node {HashOutput Fr A} hash lft rgt height.

(** A symbolic hash, for the examples: terms are their own hashes. *)
Module Example.
Inductive term := Zero | Atom (n : Z) | Pair (l r : term).
Abbreviation Rep := (Rep Zero Pair Atom).
Abbreviation node := (@MerkleTreeNode Z term unit).

(** Leaves 5 and 6 at indices 0 and 2 of a tree of height 2. *)
Definition c : @contents Z unit := cupd (cupd cempty 0 (5, tt)) 2 (6, tt).
Definition t : node :=
  Node (Some (Pair (Pair (Atom 5) Zero) (Pair (Atom 6) Zero)))
    (Node (Some (Pair (Atom 5) Zero)) (Leaf 5 tt) (Stub 0) 1)
    (Node (Some (Pair (Atom 6) Zero)) (Leaf 6 tt) (Stub 0) 1) 2.

Lemma t_Rep : Rep 2 c t.
Proof.
  repeat first [apply Rep_node | apply Rep_leaf | apply Rep_stub]; try (vm_compute; reflexivity);
    split_and!; try (vm_compute; reflexivity); simpl; eauto.
Qed.
End Example.

Section properties.
Context {HashOutput Fr A : Type} `{!EqDecision HashOutput}.
Context (fr_zero : Fr) (transient_hash2 : Fr -> Fr -> Fr) (degrade_to_transient : HashOutput -> Fr).
Local Abbreviation Rep := (Rep fr_zero transient_hash2 degrade_to_transient).
Local Abbreviation rehash_root := (rehash_root fr_zero transient_hash2 degrade_to_transient).
Local Abbreviation collapse := (collapse fr_zero transient_hash2 degrade_to_transient).
Local Abbreviation node_root := (node_root fr_zero degrade_to_transient).
Local Abbreviation mroot := (mroot fr_zero transient_hash2 degrade_to_transient).
Local Abbreviation path_for_leaf := (path_for_leaf fr_zero degrade_to_transient).
Local Abbreviation MerklePath_root := (MerklePath_root transient_hash2 degrade_to_transient).

(** C36. Updating a tree refines updating an array: inside the tree, an
    update writes the entry and leaves every other one (and what is visible)
    alone, unless the index was collapsed, which is reported; lookups then
    read the written entry.  Outside, it fails with [IndexOutOfTree]. *)
Theorem merkle_update_refines (h : nat) (c : contents) (t : MerkleTreeNode) (i : Z)
  (x : HashOutput) (a : A) :
  Rep h c t -> 0 <= i ->
  if pow2 h <=? i then try_update_hash t i x a = Fail (IndexOutOfTree i)
  else if visible t i then
    exists t', try_update_hash t i x a = Ret t' /\ Rep h (cupd c i (x, a)) t' /\
      node_index t' i = Some (x, a) /\
      forall j, 0 <= j < pow2 h -> j <> i ->
        visible t' j = visible t j /\ node_index t' j = node_index t j
  else exists j k, try_update_hash t i x a = Fail (CollapsedIndex j k).
Proof.
  intros HR Hi. destruct (Z.leb_spec (pow2 h) i).
  { apply try_update_hash_out. by rewrite (Rep_height _ _ _ _ _ _ HR). }
  destruct (visible t i) eqn:Hv; [|by eapply try_update_hash_collapsed; eauto].
  destruct (try_update_hash_spec _ _ _ h c t i x a HR ltac:(lia) Hv) as (t' & E & HR' & HV).
  exists t'. split_and!; [done|done| |].
  - rewrite (node_index_spec _ _ _ h _ t' i HR') by lia. rewrite HV, Hv by lia.
    unfold cupd. by rewrite Z.eqb_refl.
  - intros j Hj Hne. split; [by apply HV|].
    rewrite (node_index_spec _ _ _ h _ t' j HR'), (node_index_spec _ _ _ h _ t j HR) by lia.
    rewrite HV by done. unfold cupd. destruct (Z.eqb_spec j i); [lia|done].
Qed.

(** C37. The root depends on the contents alone: rehashing always succeeds, and
    two trees that represent the same contents, however they were built,
    collapsed or partly hashed, have the same root. *)
Theorem merkle_root_canonical (h : nat) (c c' : contents) (t t' : @MerkleTreeNode HashOutput Fr A) :
  Rep h c t -> Rep h c' t' -> ceq h c c' ->
  rehash_root t = Ret (mroot h c) /\ rehash_root t' = rehash_root t.
Proof.
  intros HR HR' He. rewrite (rehash_root_spec _ _ _ h c t HR), (rehash_root_spec _ _ _ h c' t' HR').
  split; [done|]. f_equal. symmetry. by apply mroot_ext.
Qed.

(** Collapsing is invisible to the root: collapsing an interval succeeds,
    keeps the root, hides exactly that interval, and a later update outside
    it reaches the same root as without collapsing. *)
Theorem merkle_collapse_preserves (h : nat) (c : contents) (t : MerkleTreeNode)
  (start end_ i : Z) (x : HashOutput) (a : A) :
  Rep h c t -> 0 <= start <= end_ -> end_ < pow2 h -> 0 <= i < pow2 h ->
  exists t1, collapse t start end_ = Ret t1 /\ rehash_root t1 = rehash_root t /\
    (forall j, 0 <= j < pow2 h -> visible t1 j = visible t j && negb (in_interval start end_ j)) /\
    (in_interval start end_ i = false -> visible t i = true ->
     exists t2 t3, try_update_hash t1 i x a = Ret t2 /\ try_update_hash t i x a = Ret t3 /\
       rehash_root t2 = rehash_root t3).
Proof.
  intros HR Hs He Hi.
  destruct (collapse_spec _ _ _ h c t start end_ HR) as (t1 & E & HR1 & _ & HV).
  { unfold interval_ok. lia. }
  exists t1. split_and!; [done| |done|].
  - by rewrite (rehash_root_spec _ _ _ h c t1 HR1), (rehash_root_spec _ _ _ h c t HR).
  - intros Hout Hv.
    destruct (try_update_hash_spec _ _ _ h c t1 i x a HR1 Hi) as (t2 & E2 & HR2 & _).
    { by rewrite HV, Hv, Hout. }
    destruct (try_update_hash_spec _ _ _ h c t i x a HR Hi Hv) as (t3 & E3 & HR3 & _).
    exists t2, t3. split_and!; [done..|].
    by rewrite (rehash_root_spec _ _ _ h _ t2 HR2), (rehash_root_spec _ _ _ h _ t3 HR3).
Qed.

(** Membership proofs are complete: for a present leaf that is not
    collapsed, in a hashed tree, [path_for_leaf] returns a path of the tree's
    height whose computed root is the tree's root. *)
Theorem merkle_path_complete {T} (leaf_hash : T -> HashOutput) (h : nat) (c : contents)
  (t : MerkleTreeNode) (i : Z) (leaf : T) (a : A) :
  Rep h c t -> is_Some (node_root t) -> 0 <= i < pow2 h ->
  c i = Some (leaf_hash leaf, a) -> visible t i = true ->
  exists p, path_for_leaf t i leaf = Ret p /\ length (path p) = h /\ path_leaf p = leaf /\
    node_root t = Some (MerklePath_root leaf_hash p).
Proof.
  intros HR Hrt Hi Hc Hv.
  destruct (path_for_leaf_spec fr_zero transient_hash2 degrade_to_transient leaf_hash h c t i leaf a)
    as (p & E & Hl & Hp & Hroot); [done..|].
  exists p. split_and!; [done..|]. destruct Hrt as [y Hy]. rewrite Hy, Hroot. f_equal.
  by eapply Rep_root.
Qed.

(** Membership proofs are sound: if the hash has no collisions and never
    yields zero, a path of the tree's height whose computed root is the
    tree's root ends in a leaf that the tree's contents have. *)
Theorem merkle_path_sound {T} (leaf_hash : T -> HashOutput) (h : nat) (c : contents)
  (t : @MerkleTreeNode HashOutput Fr A) (p : MerklePath T) :
  (forall a b a' b', transient_hash2 a b = transient_hash2 a' b' -> a = a' /\ b = b') ->
  (forall a b, transient_hash2 a b <> fr_zero) ->
  (forall x y, degrade_to_transient x = degrade_to_transient y -> x = y) ->
  (forall x, degrade_to_transient x <> fr_zero) ->
  Rep h c t -> length (path p) = h -> node_root t = Some (MerklePath_root leaf_hash p) ->
  exists i a, 0 <= i < pow2 h /\ c i = Some (leaf_hash (path_leaf p), a).
Proof.
  intros Hinj Hnz Hdinj Hdz HR Hl Hrt. apply (Rep_root _ _ _ _ _ _ _ HR) in Hrt.
  destruct (path_sound fr_zero transient_hash2 degrade_to_transient h c
              (leaf_hash (path_leaf p)) (path p)) as (i & x & a & Hi & Hc & Hx); try done.
  exists i, a. split; [done|]. by rewrite Hc, (Hdinj _ _ Hx).
Qed.

(** Collapsed updates transfer an interval: from a hashed tree in which the
    interval is filled, [new] builds an update, and applying it to any tree of
    that height gives a tree with the interval's entries from the first and
    all others from the second, so with the corresponding root. *)
Theorem merkle_collapsed_update (h : nat) (t t2 : @MerkleTreeNode HashOutput Fr A)
  (c c2 : contents) (start end_ : Z) :
  Rep h c t -> is_Some (node_root t) -> Rep h c2 t2 -> 0 <= start <= end_ -> end_ < pow2 h ->
  (forall i, start <= i <= end_ -> is_Some (c i) /\ visible t i = true /\ visible t2 i = true) ->
  exists u t2',
    collapsed_update_new fr_zero degrade_to_transient t start end_ = Ret u /\
    apply_collapsed_update t2 u = Ret t2' /\
    Rep h (range_upd start (end_ + 1) c c2) t2' /\
    rehash_root t2' = Ret (mroot h (range_upd start (end_ + 1) c c2)).
Proof.
  intros HR Hrt HR2 Hs He Hall.
  destruct (collapsed_update_transfer fr_zero transient_hash2 degrade_to_transient
              h t c t2 c2 start end_) as (u & t2' & Eu & Ea & HR'); [done..|].
  exists u, t2'. split_and!; [done..|]. by eapply rehash_root_spec.
Qed.

(** Insertion evidence replays: the evidence a hashed tree gives for an
    entry, applied to a tree that lacks only that entry (and has no stub on
    the way), gives a tree of the same contents and root, whatever that tree
    has collapsed. *)
Theorem merkle_evidence_replay (h : nat) (c c2 : contents) (t t2 : MerkleTreeNode) (i : Z)
  (x : HashOutput * A) :
  Rep (S h) c t -> is_Some (node_root t) -> Rep (S h) c2 t2 -> 0 <= i < pow2 (S h) ->
  c i = Some x -> visible t i = true -> no_stub_path t2 i = true ->
  ceq (S h) (cupd c2 i x) c ->
  exists ev t2', insertion_evidence fr_zero degrade_to_transient t i = Ret ev /\
    update_from_evidence degrade_to_transient t2 ev = Ok t2' /\
    Rep (S h) c t2' /\ rehash_root t2' = rehash_root t.
Proof.
  intros HR Hrt HR2 Hi Hc Hv Hns He.
  destruct (insertion_evidence_spec fr_zero transient_hash2 degrade_to_transient h c t i x)
    as (es & Ee & HE); [done..|].
  destruct (update_from_evidence_spec fr_zero transient_hash2 degrade_to_transient
              (S h) c c2 t2 i x es) as (t2' & Eu & HR' & _); [done..|].
  eexists _, t2'. split_and!; [done|done|done|].
  by rewrite (rehash_root_spec _ _ _ _ c t2' HR'), (rehash_root_spec _ _ _ _ c t HR).
Qed.

(** Listing the leaves of a range gives exactly the entries that can be
    looked up at indices of the range. *)
Theorem merkle_leaves_in_range (h : nat) (c : contents) (t : MerkleTreeNode) (range : RangeB)
  (i : Z) (x : HashOutput * A) :
  Rep h c t -> (h <= 63)%nat -> range_ok range ->
  (i, x) ∈ omap as_leaf (leaves_in_range t range) <->
  0 <= i < pow2 h /\ range_contains range i = true /\ node_index t i = Some x.
Proof. apply leaves_in_range_spec. Qed.
End properties.

Lemma merkle_update_refines_witness :
  exists t', try_update_hash Example.t 3 9 tt = Ret t' /\ node_index t' 3 = Some (9, tt).
Proof.
  destruct (merkle_update_refines _ _ _ 2 Example.c Example.t 3 9 tt Example.t_Rep)
    as (t' & E & _ & Hi & _); [lia|eauto].
Defined.

Lemma merkle_root_canonical_witness :
  rehash_root Example.Zero Example.Pair Example.Atom
    (Collapsed (mroot Example.Zero Example.Pair Example.Atom 2 Example.c) 2 : Example.node)
  = rehash_root Example.Zero Example.Pair Example.Atom Example.t.
Proof.
  apply (merkle_root_canonical Example.Zero Example.Pair Example.Atom 2 Example.c Example.c
           Example.t (Collapsed _ 2) Example.t_Rep (Rep_collapsed _ _ _ 2 Example.c)).
  intros i _. reflexivity.
Defined.

Lemma merkle_collapse_preserves_witness :
  exists t1, collapse Example.Zero Example.Pair Example.Atom Example.t 0 1 = Ret t1 /\
    visible t1 0 = false /\ visible t1 3 = true.
Proof.
  destruct (merkle_collapse_preserves Example.Zero Example.Pair Example.Atom 2 Example.c Example.t
              0 1 3 9 tt Example.t_Rep) as (t1 & E & _ & HV & _); [lia| | |].
  - vm_compute. reflexivity.
  - vm_compute. split; [discriminate|reflexivity].
  - exists t1. split; [exact E|]. split.
    + rewrite HV by (vm_compute; split; [discriminate|reflexivity]). reflexivity.
    + rewrite HV by (vm_compute; split; [discriminate|reflexivity]). reflexivity.
Defined.

Lemma merkle_path_complete_witness :
  exists p, path_for_leaf Example.Zero Example.Atom Example.t 2 6 = Ret p /\
    node_root Example.Zero Example.Atom Example.t =
    Some (MerklePath_root Example.Pair Example.Atom id p).
Proof.
  destruct (merkle_path_complete Example.Zero Example.Pair Example.Atom id 2 Example.c Example.t 2 6 tt
              Example.t_Rep) as (p & E & _ & _ & Hr).
  - simpl. eauto.
  - vm_compute. split; [discriminate|reflexivity].
  - reflexivity.
  - reflexivity.
  - eauto.
Defined.

Lemma merkle_path_sound_witness :
  exists i a, 0 <= i < pow2 2 /\ Example.c i = Some (6, a).
Proof.
  apply (merkle_path_sound Example.Zero Example.Pair Example.Atom id 2 Example.c Example.t
    (mkPath 6 [mkEntry Example.Zero true; mkEntry (Example.Pair (Example.Atom 5) Example.Zero) false])).
  - intros a b a' b' [= -> ->]. split; reflexivity.
  - discriminate.
  - intros x y [= ->]. reflexivity.
  - discriminate.
  - exact Example.t_Rep.
  - reflexivity.
  - reflexivity.
Defined.

Lemma merkle_collapsed_update_witness :
  exists u t2',
    collapsed_update_new Example.Zero Example.Atom Example.t 0 0 = Ret u /\
    apply_collapsed_update (Stub 2 : Example.node) u = Ret t2' /\
    Example.Rep 2 (range_upd 0 1 Example.c cempty) t2'.
Proof.
  destruct (merkle_collapsed_update Example.Zero Example.Pair Example.Atom 2 Example.t (Stub 2)
              Example.c cempty 0 0 Example.t_Rep) as (u & t2' & E1 & E2 & HR & _).
  - simpl. eauto.
  - constructor. reflexivity.
  - lia.
  - vm_compute. reflexivity.
  - intros i Hi. replace i with 0 by lia. split; [vm_compute; eauto|split; reflexivity].
  - eauto.
Defined.

(** The tree before leaf 6 was written, with leaf 5 collapsed away. *)
Definition Example_before : Example.node :=
  Node None (Collapsed (Example.Pair (Example.Atom 5) Example.Zero) 1)
    (Node (Some Example.Zero) (Stub 0) (Stub 0) 1) 2.

Lemma merkle_evidence_replay_witness :
  exists ev t2', insertion_evidence Example.Zero Example.Atom Example.t 2 = Ret ev /\
    update_from_evidence Example.Atom Example_before ev = Ok t2' /\
    Example.Rep 2 Example.c t2'.
Proof.
  destruct (merkle_evidence_replay Example.Zero Example.Pair Example.Atom 1 Example.c
              (cupd cempty 0 (5, tt)) Example.t Example_before 2 (6, tt) Example.t_Rep)
    as (ev & t2' & E1 & E2 & HR & _).
  - simpl. eauto.
  - apply Rep_node; [| |vm_compute; reflexivity].
    + exact (Rep_collapsed Example.Zero Example.Pair Example.Atom 1 (cupd cempty 0 (5, tt))).
    + apply Rep_node; [apply Rep_stub; vm_compute; reflexivity..|].
      split_and!; [vm_compute; reflexivity|simpl; eauto..].
  - vm_compute. split; [discriminate|reflexivity].
  - reflexivity.
  - reflexivity.
  - reflexivity.
  - intros i _. reflexivity.
  - eauto.
Defined.

Lemma merkle_leaves_in_range_witness :
  (2, (6, tt)) ∈ omap as_leaf (leaves_in_range Example.t (Included 1, Unbounded)).
Proof.
  apply (merkle_leaves_in_range Example.Zero Example.Pair Example.Atom 2 Example.c Example.t
           (Included 1, Unbounded) 2 (6, tt) Example.t_Rep).
  - lia.
  - split; [vm_compute; split; [discriminate|reflexivity]|exact I].
  - split; [vm_compute; split; [discriminate|reflexivity]|split; reflexivity].
Defined.

(** A leaf under a collapsed node of height one: asking for its path does not
    return [InvalidIndex], it panics. *)
Lemma path_for_leaf_collapsed_pair :
  path_for_leaf Example.Zero Example.Atom
    (Node (Some Example.Zero) (Collapsed Example.Zero 1) (Stub 1) 2 : Example.node) 0 5 = Panic.
Proof. reflexivity. Qed.
