(* ===== verification/Mpt.v ===== *)
(** * Merkle Patricia tries ([storage/src/merkle_patricia_trie.rs]) and maps on them

    The persistent maps of the ledger's state: keys are paths of nibbles, chains
    of nodes with one child are compressed into extensions of at most 255
    nibbles, and every node carries an annotation summed over its leaves.  Nodes
    are values here; the arena that shares them is not visible to these
    functions.  The maps of [storage/src/storage.rs] use the serialized key as
    the path.

    [get t p] is what a trie holds at a path.  The operations are shown to act
    on it like those of a finite map, without assumptions on the lengths of
    keys; and for keys of up to 255 nibbles none of which is inserted as a proper
    prefix of another, to keep the trie in the one normal form of its contents. *)

From S2P Require Import Prelude Serialize.
From stdpp Require Import list sorting.

(** ** Annotations *)

(** The traits [Semigroup], [Monoid], [HasSize] and [Annotation], with the laws
    the first two document; the sums of a trie are also taken in another order
    than its invariant takes them, hence commutativity. *)
Class Annotation (V A : Type) := {
  ann_empty : A;
  ann_append : A -> A -> A;
  from_value : V -> A;
  get_size : A -> Z;
  ann_assoc a b c : ann_append a (ann_append b c) = ann_append (ann_append a b) c;
  ann_left_id a : ann_append ann_empty a = a;
  ann_comm a b : ann_append a b = ann_append b a;
  size_empty : get_size ann_empty = 0%Z;
  size_append a b : get_size (ann_append a b) = (get_size a + get_size b)%Z;
  size_value v : get_size (from_value v) = 1%Z
}.

(** [SizeAnn]: the number of leaves. *)
#[export] Instance SizeAnn {V} : Annotation V Z.
Proof.
  refine {| ann_empty := 0%Z; ann_append := Z.add; from_value := fun _ => 1%Z; get_size := id |};
    intros; unfold id; lia.
Defined.

(** A call that may panic and has no other failure. *)
Abbreviation panics := (outcome Empty_set).

Abbreviation nibbles := (list nat).

(** The order of [Vec<u8>]: lexicographic. *)
Fixpoint path_cmp (a b : nibbles) : comparison :=
  match a, b with
  | [], [] => Eq
  | [], _ :: _ => Lt
  | _ :: _, [] => Gt
  | x :: a', y :: b' => match (x ?= y)%nat with Eq => path_cmp a' b' | c => c end
  end.

(** [a.iter().zip(b).take_while(|(a, b)| a == b).count()]. *)
Fixpoint common_len (a b : nibbles) : nat :=
  match a, b with
  | x :: a', y :: b' => if (x =? y)%nat then S (common_len a' b') else O
  | _, _ => O
  end.

Section Mpt.
Context {V A : Type} `{!Annotation V A}.

Inductive node :=
| Empty
| Leaf (ann : A) (value : V)
| Branch (ann : A) (children : list node)
| Extension (ann : A) (compressed_path : nibbles) (child : node)
| MidBranchLeaf (ann : A) (value : V) (child : node).

Implicit Types t c : node.
Implicit Types cs : list node.
Implicit Types p q : nibbles.

Definition node_ann t : A :=
  match t with
  | Empty => ann_empty
  | Leaf ann _ | Branch ann _ | Extension ann _ _ | MidBranchLeaf ann _ _ => ann
  end.

Definition is_empty t : bool := match t with Empty => true | _ => false end.

Definition is_extension t : bool := match t with Extension _ _ _ => true | _ => false end.

(** [children[n]], which panics out of range, and a call on it. *)
Definition with_child {B} (f : node -> B) (out_of_range : B) : list node -> nat -> B :=
  fix go cs n :=
    match cs, n with
    | [], _ => out_of_range
    | c :: _, O => f c
    | _ :: cs', S n' => go cs' n'
    end.

(** The fold of the children's annotations. *)
Definition sum_children cs : A := foldl (fun acc c => ann_append acc (node_ann c)) ann_empty cs.

(** ** Lookup *)

Fixpoint lookup_with t (path : nibbles) : panics (option V) :=
  match t with
  | Empty => mret None
  | Leaf _ value => mret (match path with [] => Some value | _ => None end)
  | Branch _ children =>
      match path with
      | [] => mret None
      | index :: rest => with_child (fun c => lookup_with c rest) Panic children index
      end
  | Extension _ compressed_path child =>
      if (length path <? length compressed_path)%nat then mret None
      else if decide (take (length compressed_path) path = compressed_path)
      then lookup_with child (drop (length compressed_path) path)
      else mret None
  | MidBranchLeaf _ value child =>
      match path with [] => mret (Some value) | _ => lookup_with child path end
  end.

(** ** Extensions *)

Fixpoint extension_absorb (path : nibbles) (cur : node) : nibbles * node :=
  match cur with
  | Extension _ compressed_path child =>
      if (length path mod 255 =? 0)%nat then (path, cur)
      else extension_absorb (path ++ compressed_path) child
  | _ => (path, cur)
  end.

Definition extension (path : nibbles) (child : node) : node :=
  let '(path, cur) := extension_absorb path child in
  foldr (fun working_path cur => Extension (node_ann cur) working_path cur) cur (chunks 255 path).

(** ** Insertion *)

Definition new_leaf (value : V) : node := Leaf (from_value value) value.

(** [insert] at the end of the path. *)
Definition insert_here t (value : V) : node * option V :=
  match t with
  | Empty => (new_leaf value, None)
  | Leaf _ old_val => (new_leaf value, Some old_val)
  | Branch _ _ | Extension _ _ _ =>
      (MidBranchLeaf (ann_append (node_ann t) (from_value value)) value t, None)
  | MidBranchLeaf _ old_val child =>
      (MidBranchLeaf (ann_append (node_ann child) (from_value value)) value child, Some old_val)
  end.

(** [insert] on a branch, given the result for the child at [index]. *)
Definition branch_insert cs (index : nat) (r : panics (node * option V)) : panics (node * option V) :=
  '(new_child, existing) ← r;
  let new_children := <[index := new_child]> cs in
  mret (Branch (sum_children new_children) new_children, existing).

(** [insert] on an empty node. *)
Definition insert_empty (path : nibbles) (value : V) : node * option V :=
  match path with
  | [] => insert_here Empty value
  | _ => (extension path (new_leaf value), None)
  end.

(** The recursive call on the branch that splits an extension: all its children
    but the one on the old path are empty, and the path leads to one of those. *)
Definition insert_split cs (path : nibbles) (value : V) : panics (node * option V) :=
  match path with
  | [] => mret (insert_here (Branch (sum_children cs) cs) value)
  | index :: rest =>
      branch_insert cs index
        (match cs !! index with
         | Some Empty => mret (insert_empty rest value)
         | _ => Panic
         end)
  end.

Fixpoint insert t (path : nibbles) (value : V) : panics (node * option V) :=
  match path with
  | [] => mret (insert_here t value)
  | index :: rest =>
      match t with
      | Empty => mret (insert_empty path value)
      | Leaf existing_ann self_value =>
          mret (MidBranchLeaf (ann_append (from_value value) existing_ann) self_value
                  (extension path (new_leaf value)), None)
      | Branch _ children =>
          branch_insert children index
            (with_child (fun c => insert c rest value) Panic children index)
      | Extension _ compressed_path child =>
          let index := common_len compressed_path (take 255 path) in
          if (index =? length compressed_path)%nat then
            '(new_child, existing) ← insert child (drop index path) value;
            mret (Extension (node_ann new_child) compressed_path new_child, existing)
          else
            let remaining :=
              if (index =? length compressed_path - 1)%nat then child
              else Extension (node_ann child) (drop (index + 1) compressed_path) child in
            compressed_path_index ← expect (compressed_path !! index);
            if (16 <=? compressed_path_index)%nat then Panic else
            let children := <[compressed_path_index := remaining]> (replicate 16 Empty) in
            '(final_branch, existing) ← insert_split children (drop index path) value;
            if (index =? 0)%nat then mret (final_branch, existing)
            else mret (Extension (node_ann final_branch) (take index compressed_path) final_branch,
                       existing)
      | MidBranchLeaf _ leaf_value child =>
          '(new_child, existing) ← insert child path value;
          mret (MidBranchLeaf (ann_append (from_value leaf_value) (node_ann new_child)) leaf_value
                  new_child, existing)
      end
  end.

(** ** Removal *)

Definition count_filled cs : nat := length (filter (fun c => is_empty c = false) cs).

(** [iter().enumerate().find(|(_, c)| !is_empty(c))]. *)
Fixpoint first_filled (i : nat) cs : option (nat * node) :=
  match cs with
  | [] => None
  | c :: cs' => if is_empty c then first_filled (S i) cs' else Some (i, c)
  end.

(** A branch with one child left becomes an extension. *)
Definition lift_only_child (index : nat) (only_child : node) : node :=
  match only_child with
  | Extension _ compressed_path child => extension (index :: compressed_path) child
  | _ => extension [index] only_child
  end.

(** An extension over a changed child. *)
Definition extend_over (ann : A) (compressed_path : nibbles) (child : node) : node :=
  match child with
  | Empty => Empty
  | Extension _ p c => extension (compressed_path ++ p) c
  | _ => Extension ann compressed_path child
  end.

Fixpoint remove t (path : nibbles) : panics (node * option V) :=
  match t with
  | Empty => mret (Empty, None)
  | Leaf ann value =>
      mret (match path with [] => (Empty, Some value) | _ => (Leaf ann value, None) end)
  | Branch _ children =>
      match path with
      | [] => Panic
      | index :: rest =>
          '(new_child, removed) ← with_child (fun c => remove c rest) Panic children index;
          let new_children := <[index := new_child]> children in
          if (count_filled new_children =? 1)%nat then
            '(only_child_index, only_child) ← expect (first_filled 0 new_children);
            mret (lift_only_child only_child_index only_child, removed)
          else mret (Branch (sum_children new_children) new_children, removed)
      end
  | Extension _ compressed_path child =>
      if (length path <? length compressed_path)%nat then mret (t, None)
      else if decide (take (length compressed_path) path = compressed_path) then
        '(new_child, removed) ← remove child (drop (length compressed_path) path);
        mret (extend_over (node_ann new_child) compressed_path new_child, removed)
      else mret (t, None)
  | MidBranchLeaf _ value child =>
      match path with
      | [] => mret (child, Some value)
      | _ =>
          '(child', removed) ← remove child path;
          let new_ann := ann_append (node_ann child') (from_value value) in
          mret (match child' with
                | Empty => Leaf new_ann value
                | _ => MidBranchLeaf new_ann value child'
                end, removed)
      end
  end.

(** ** Iteration *)

(** [Node::iter]: the values. *)
Fixpoint iter t : list V :=
  match t with
  | Empty => []
  | Leaf _ value => [value]
  | Branch _ children => flat_map iter children
  | Extension _ _ child => iter child
  | MidBranchLeaf _ value child => value :: iter child
  end.

(** [children.iter().enumerate().flat_map(..)]. *)
Definition flat_imap {B} (f : nat -> node -> list B) : nat -> list node -> list B :=
  fix go i cs := match cs with [] => [] | c :: cs' => f i c ++ go (S i) cs' end.

(** [Node::leaves]: paths and values. *)
Fixpoint leaves t (current_path : nibbles) : list (nibbles * V) :=
  match t with
  | Empty => []
  | Leaf _ value => [(current_path, value)]
  | Extension _ compressed_path child => leaves child (current_path ++ compressed_path)
  | Branch _ children => flat_imap (fun i child => leaves child (current_path ++ [i])) 0 children
  | MidBranchLeaf _ value child => leaves child current_path ++ [(current_path, value)]
  end.

Definition node_size t : Z :=
  match t with
  | Empty => 0
  | Leaf _ _ => 1
  | Extension ann _ _ | Branch ann _ | MidBranchLeaf ann _ _ => get_size ann
  end.

(** ** Pruning *)

Fixpoint prune t (target_path : nibbles) : panics (node * list V) :=
  match target_path with
  | [] => mret (t, [])
  | path_head :: rest =>
      match t with
      | Empty => mret (Empty, [])
      | Leaf _ value => mret (Empty, [value])
      | Branch an children =>
          if (16 <=? path_head)%nat then Panic else
          let pruned := flat_map iter (take path_head children) in
          let kept := replicate path_head Empty ++ drop path_head children in
          '(child, pruned_2) ← with_child (fun c => prune c rest) Panic children path_head;
          let kept := <[path_head := child]> kept in
          let pruned := pruned ++ pruned_2 in
          let an := match pruned with [] => an | _ => sum_children kept end in
          match count_filled kept with
          | 0%nat => mret (Empty, pruned)
          | 1%nat =>
              '(path_head, child) ← expect (first_filled 0 kept);
              mret (lift_only_child path_head child, pruned)
          | _ => mret (Branch an kept, pruned)
          end
      | Extension an compressed_path child =>
          let relevant_target_path := take (length compressed_path) target_path in
          match path_cmp compressed_path relevant_target_path with
          | Lt => mret (Empty, iter child)
          | Eq =>
              '(child', pruned) ← prune child (drop (length compressed_path) target_path);
              mret (extend_over (match pruned with [] => an | _ => node_ann child' end)
                      compressed_path child', pruned)
          | Gt => mret (t, [])
          end
      | MidBranchLeaf _ value child =>
          '(child', pruned) ← prune child target_path;
          mret (child', value :: pruned)
      end
  end.

(** ** Predecessors *)

(** [iter().rev().find_map(..)] over the children with their indices. *)
Definition rfind_imap {B} (f : nat -> node -> option B) : nat -> list node -> option B :=
  fix go i cs :=
    match cs with
    | [] => None
    | c :: cs' => match go (S i) cs' with Some r => Some r | None => f i c end
    end.

Fixpoint find_largest_key_in_subtree t (current : nibbles) : option (nibbles * V) :=
  match t with
  | Empty => None
  | Leaf _ value => Some (current, value)
  | Branch _ children =>
      rfind_imap (fun i c => find_largest_key_in_subtree c (current ++ [i])) 0 children
  | Extension _ compressed_path child =>
      find_largest_key_in_subtree child (current ++ compressed_path)
  | MidBranchLeaf _ value child =>
      match find_largest_key_in_subtree child current with
      | Some r => Some r
      | None => Some (current, value)
      end
  end.

Definition update_best_pred (best : option (nibbles * V)) (candidate : nibbles * V)
  : option (nibbles * V) :=
  match best with
  | None => Some candidate
  | Some b => match path_cmp candidate.1 b.1 with Gt => Some candidate | _ => best end
  end.

Definition update_best (best candidate : option (nibbles * V)) : option (nibbles * V) :=
  match candidate with Some c => update_best_pred best c | None => best end.

Fixpoint find_predecessor_recursive t (target explored : nibbles) (best : option (nibbles * V))
  : panics (option (nibbles * V)) :=
  let current_depth := length explored in
  let path_remaining :=
    if (current_depth <=? length target)%nat then drop current_depth target else [] in
  match path_remaining with
  | [] => mret best
  | path_head :: _ =>
      match t with
      | Empty => mret best
      | Leaf _ value => mret (update_best_pred best (explored, value))
      | Branch _ children =>
          new_best_pred ← with_child
            (fun c => if is_empty c then mret None
                      else find_predecessor_recursive c target (explored ++ [path_head]) None)
            Panic children path_head;
          match new_best_pred with
          | Some r => mret (Some r)
          | None =>
              mret (update_best best
                (rfind_imap (fun i c => find_largest_key_in_subtree c (explored ++ [i])) 0
                   (take path_head children)))
          end
      | Extension _ compressed_path child =>
          let match_len := common_len compressed_path path_remaining in
          if (match_len =? length compressed_path)%nat then
            find_predecessor_recursive child target (explored ++ compressed_path) best
          else
            diverging_compressed_nibble ← expect (compressed_path !! match_len);
            diverging_remaining_nibble ← expect (path_remaining !! match_len);
            if (diverging_compressed_nibble <? diverging_remaining_nibble)%nat then
              mret (update_best best (find_largest_key_in_subtree t explored))
            else mret best
      | MidBranchLeaf _ value child =>
          new_best_pred ← find_predecessor_recursive child target explored None;
          match new_best_pred with
          | Some r => mret (Some r)
          | None => mret (update_best_pred best (explored, value))
          end
      end
  end.

Definition find_predecessor t (path : nibbles) : panics (option (nibbles * V)) :=
  find_predecessor_recursive t path [] None.

(** ** Checks on loading *)

Definition check_invariant t : result ErrorKind unit :=
  match t with
  | Empty | Leaf _ _ => Ok tt
  | Branch ann children =>
      if (count_filled children <? 2)%nat then Err InvalidData
      else if (get_size ann =? foldr (fun c n => node_size c + n) 0 children)%Z then Ok tt
      else Err InvalidData
  | Extension ann compressed_path child =>
      if is_extension child && negb (length compressed_path =? 255)%nat then Err InvalidData
      else if (255 <? length compressed_path)%nat then Err InvalidData
      else if negb (get_size ann =? node_size child)%Z then Err InvalidData
      else if existsb (fun b => (15 <? b)%nat) compressed_path then Err InvalidData
      else Ok tt
  | MidBranchLeaf ann _ child =>
      match child with
      | Branch _ _ | Extension _ _ _ =>
          if (get_size ann =? node_size child + 1)%Z then Ok tt else Err InvalidData
      | _ => Err InvalidData
      end
  end.

(** [sum_ann] of [MerklePatriciaTrie::invariant]. *)
Fixpoint sum_ann `{!EqDecision A} t : result ErrorKind A :=
  let check (ann true_val : A) := if decide (ann = true_val) then Ok true_val else Err InvalidData in
  match t with
  | Empty => Ok ann_empty
  | Leaf ann value => check ann (from_value value)
  | Branch ann children =>
      true_val ← (fix go acc cs :=
                    match cs with
                    | [] => Ok acc
                    | c :: cs' => a ← sum_ann c; go (ann_append acc a) cs'
                    end) ann_empty children;
      check ann true_val
  | Extension ann _ child => true_val ← sum_ann child; check ann true_val
  | MidBranchLeaf ann value child =>
      a ← sum_ann child; check ann (ann_append a (from_value value))
  end.

(** ** What a trie holds *)

(** The rest of a path after a prefix. *)
Fixpoint strip (pre p : nibbles) : option nibbles :=
  match pre, p with
  | [], _ => Some p
  | x :: pre', y :: p' => if (x =? y)%nat then strip pre' p' else None
  | _ :: _, [] => None
  end.

Fixpoint get t p : option V :=
  match t with
  | Empty => None
  | Leaf _ value => match p with [] => Some value | _ => None end
  | Branch _ cs =>
      match p with [] => None | i :: p' => with_child (fun c => get c p') None cs i end
  | Extension _ cp c => match strip cp p with Some r => get c r | None => None end
  | MidBranchLeaf _ value c => match p with [] => Some value | _ => get c p end
  end.

Definition nibbles_ok : nibbles -> Prop := Forall (fun x => (x < 16)%nat).

Definition inner t : bool := match t with Branch _ _ | Extension _ _ _ => true | _ => false end.

(** Branches have sixteen children, extensions a path of at most 255 nibbles, and
    the node below a mid-branch leaf is a branch or an extension. *)
Inductive shape : node -> Prop :=
| shape_empty : shape Empty
| shape_leaf a v : shape (Leaf a v)
| shape_branch a cs : length cs = 16%nat -> Forall shape cs -> shape (Branch a cs)
| shape_extension a p c :
    p <> [] -> (length p <= 255)%nat -> nibbles_ok p -> shape c -> shape (Extension a p c)
| shape_mid a v c : inner c = true -> shape c -> shape (MidBranchLeaf a v c).

Lemma node_ind' (P : node -> Prop) :
  P Empty -> (forall a v, P (Leaf a v)) ->
  (forall a cs, Forall P cs -> P (Branch a cs)) ->
  (forall a p c, P c -> P (Extension a p c)) ->
  (forall a v c, P c -> P (MidBranchLeaf a v c)) -> forall t, P t.
Proof.
  intros H1 H2 H3 H4 H5. fix IH 1. intros [|a v|a cs|a p c|a v c];
    [exact H1|apply H2| |apply H4, IH|apply H5, IH].
  apply H3. induction cs as [|c cs IHcs]; constructor; [apply IH|exact IHcs].
Qed.

Lemma with_child_lookup {B} (f : node -> B) d cs n :
  with_child f d cs n = match cs !! n with Some c => f c | None => d end.
Proof. revert n; induction cs as [|c cs IH]; intros [|n]; simpl; auto. Qed.

Lemma strip_Some pre p r : strip pre p = Some r <-> p = pre ++ r.
Proof.
  revert p; induction pre as [|x pre IH]; intros p; simpl.
  - split; [by intros [= ->]|by intros ->].
  - destruct p as [|y p]; [done|]. destruct (Nat.eqb_spec x y) as [->|Hne].
    + rewrite IH. split; [by intros ->|by intros [= ->]].
    + split; [done|]. intros [= -> ->]. done.
Qed.

Lemma strip_app p r : strip p (p ++ r) = Some r.
Proof. by apply strip_Some. Qed.

Lemma strip_None pre p : strip pre p = None <-> forall r, p <> pre ++ r.
Proof.
  destruct (strip pre p) as [r|] eqn:E.
  - split; [done|]. intros H. apply strip_Some in E. by destruct (H r).
  - split; [|done]. intros _ r ->. by rewrite strip_app in E.
Qed.

Lemma strip_trans p1 p2 q :
  strip (p1 ++ p2) q = match strip p1 q with Some r => strip p2 r | None => None end.
Proof.
  revert q; induction p1 as [|x p1 IH]; intros q; simpl; [done|].
  destruct q as [|y q]; [done|]. destruct (x =? y)%nat; [apply IH|done].
Qed.

Lemma strip_take pre p :
  strip pre p = if (length p <? length pre)%nat then None
                else if decide (take (length pre) p = pre) then Some (drop (length pre) p) else None.
Proof.
  destruct (strip pre p) as [r|] eqn:E.
  - apply strip_Some in E as ->. rewrite length_app.
    destruct (Nat.ltb_spec (length pre + length r) (length pre)); [lia|].
    rewrite take_app_length, drop_app_length. by rewrite decide_True.
  - rewrite strip_None in E. destruct (Nat.ltb_spec (length p) (length pre)); [done|].
    case_decide as Ht; [|done]. destruct (E (drop (length pre) p)). by rewrite <- Ht at 1; rewrite take_drop.
Qed.

Lemma get_inner_nil t : shape t -> inner t = true -> get t [] = None.
Proof. intros [| | |a p c Hp _ _ _|]; try done. simpl. by destruct p. Qed.

Lemma nibbles_ok_cons x p : nibbles_ok (x :: p) <-> (x < 16)%nat /\ nibbles_ok p.
Proof. unfold nibbles_ok. by rewrite Forall_cons. Qed.

Lemma nibbles_ok_drop n p : nibbles_ok p -> nibbles_ok (drop n p).
Proof. apply Forall_drop. Qed.

Lemma nibbles_ok_app p q : nibbles_ok (p ++ q) <-> nibbles_ok p /\ nibbles_ok q.
Proof. apply Forall_app. Qed.

Lemma child_lookup cs n : length cs = 16%nat -> (n < 16)%nat -> exists c, cs !! n = Some c.
Proof. intros Hl Hn. apply lookup_lt_is_Some. by rewrite Hl. Qed.

(** Looking up reads the contents and does not panic. *)
Lemma lookup_with_get t : shape t -> forall p, nibbles_ok p -> lookup_with t p = Ret (get t p).
Proof.
  induction t as [|a v|a cs IH|a cp c IH|a v c IH] using node_ind'; intros Hs p Hp; inversion Hs; subst; simpl.
  - done.
  - done.
  - destruct p as [|i p]; [done|]. apply nibbles_ok_cons in Hp as [Hi Hp].
    rewrite !with_child_lookup. destruct (child_lookup cs i) as [c Hc]; [done..|].
    rewrite Hc. rewrite Forall_lookup in IH. eapply IH; [exact Hc| |done]. by eapply Forall_lookup_1.
  - rewrite strip_take. destruct (_ <? _)%nat; [done|]. case_decide; [|done].
    apply IH; [done|by apply nibbles_ok_drop].
  - destruct p; [done|]. by apply IH.
Qed.

(** *** Extensions *)

Definition get_at (pre : nibbles) t q : option V :=
  match strip pre q with Some r => get t r | None => None end.

Lemma get_at_app p1 p2 t q :
  get_at (p1 ++ p2) t q = match strip p1 q with Some r => get_at p2 t r | None => None end.
Proof. unfold get_at. rewrite strip_trans. by destruct (strip p1 q). Qed.

Lemma get_absorb cur : forall p p' cur' q,
  extension_absorb p cur = (p', cur') -> get_at p' cur' q = get_at p cur q.
Proof.
  induction cur as [|a v|a cs IH|a cp c IH|a v c IH] using node_ind'; intros p p' cur' q E;
    simpl in E; try (by injection E as <- <-).
  destruct (_ =? _)%nat; [by injection E as <- <-|].
  rewrite (IH _ _ _ q E), get_at_app. unfold get_at. destruct (strip p q); done.
Qed.

Lemma get_foldr_extension chs cur q :
  get (foldr (fun w cur => Extension (node_ann cur) w cur) cur chs) q = get_at (concat chs) cur q.
Proof.
  revert q; induction chs as [|w chs IH]; intros q; simpl; [done|].
  rewrite get_at_app. destruct (strip w q); [|done]. by rewrite IH.
Qed.

Lemma get_extension p t q : get (extension p t) q = get_at p t q.
Proof.
  unfold extension. destruct (extension_absorb p t) as [p' cur'] eqn:E.
  rewrite get_foldr_extension, (proj1 (chunks_spec 255 p' ltac:(lia))). by apply get_absorb.
Qed.

Lemma absorb_shape cur : forall p p' cur',
  shape cur -> p <> [] -> nibbles_ok p -> extension_absorb p cur = (p', cur') ->
  shape cur' /\ p' <> [] /\ nibbles_ok p'.
Proof.
  induction cur as [|a v|a cs IH|a cp c IH|a v c IH] using node_ind'; intros p p' cur' Hs Hp Hn E;
    simpl in E; try (by injection E as <- <-).
  destruct (_ =? _)%nat; [by injection E as <- <-|]. inversion Hs; subst.
  apply IH in E; [done|done|by destruct p|by apply nibbles_ok_app].
Qed.

Lemma extension_shape p t :
  shape t -> p <> [] -> nibbles_ok p ->
  shape (extension p t) /\ is_extension (extension p t) = true.
Proof.
  intros Hs Hp Hn. unfold extension. destruct (extension_absorb p t) as [p' cur'] eqn:E.
  destruct (absorb_shape _ _ _ _ Hs Hp Hn E) as (Hs' & Hp' & Hn').
  destruct (chunks_spec 255 p' ltac:(lia)) as [Hc Hl].
  assert (Hne : chunks 255 p' <> []) by (intros E'; rewrite E' in Hc; by destruct p').
  rewrite <- Hc in Hn'. clear Hc. induction (chunks 255 p') as [|w chs IH]; [done|].
  simpl in *. apply nibbles_ok_app in Hn' as [Hw Hn']. apply Forall_cons in Hl as [Hlw Hl].
  split; [|done]. constructor; [by destruct w; [simpl in Hlw; lia|]|lia|done|].
  destruct chs; [done|]. by apply IH.
Qed.

(** *** Insertion *)

Lemma common_len_take a b k :
  (length a <= k)%nat -> common_len a (take k b) = common_len a b.
Proof.
  revert b k; induction a as [|x a IH]; intros b k Hk; [done|].
  destruct k as [|k]; [simpl in Hk; lia|]. destruct b as [|y b]; [done|]. simpl in *.
  destruct (x =? y)%nat; [|done]. rewrite IH by lia. done.
Qed.

(** Where two paths part. *)
Lemma common_len_split a b :
  (common_len a b = length a /\ exists r, b = a ++ r) \/
  (exists l x a2, a = l ++ x :: a2 /\ common_len a b = length l /\
     (b = l \/ exists y b2, b = l ++ y :: b2 /\ x <> y)).
Proof.
  revert b; induction a as [|x a IH]; intros b; [left; split; [done|by exists b]|].
  destruct b as [|y b]; [right; exists [], x, a; split_and!; [done..|by left]|]. simpl.
  destruct (Nat.eqb_spec x y) as [<-|Hne].
  - destruct (IH b) as [[Hl [r ->]]|(l & z & a2 & -> & Hl & Hb)].
    + left. split; [congruence|by exists r].
    + right. exists (x :: l), z, a2. split_and!; [done|simpl; congruence|].
      destruct Hb as [->|(y & b2 & -> & Hne)]; [by left|right; eauto].
  - right. exists [], x, a. split_and!; [done..|right; eauto].
Qed.

Lemma get_branch_alter a a' cs i c c' rest q o :
  cs !! i = Some c ->
  (forall r, get c' r = if decide (r = rest) then o else get c r) ->
  get (Branch a' (<[i := c']> cs)) q = if decide (q = i :: rest) then o else get (Branch a cs) q.
Proof.
  intros Hc Hg. simpl. destruct q as [|j q]; [done|]. rewrite !with_child_lookup.
  destruct (decide (j = i)) as [->|Hne].
  - rewrite list_lookup_insert_eq by (by eapply lookup_lt_Some). rewrite Hc, Hg.
    do 2 case_decide; congruence.
  - rewrite list_lookup_insert_ne by done. case_decide; congruence.
Qed.

Lemma insert_here_spec t v :
  shape t ->
  (insert_here t v).2 = get t [] /\ shape (insert_here t v).1 /\
  is_empty (insert_here t v).1 = false /\
  forall q, get (insert_here t v).1 q = match q with [] => Some v | _ => get t q end.
Proof.
  intros Hs. destruct t as [|a w|a cs|a cp c|a w c]; cbn [insert_here new_leaf fst snd].
  - split_and!; [done|constructor|done|]. by intros [|].
  - split_and!; [done|constructor|done|]. by intros [|].
  - split_and!; [done|by constructor|done|]. by intros [|].
  - split_and!; [by rewrite (get_inner_nil _ Hs)|by constructor|done|]. by intros [|].
  - inversion Hs; subst. split_and!; [done|by constructor|done|]. by intros [|].
Qed.

Lemma get_new_leaf p v q : get (extension p (new_leaf v)) q = if decide (q = p) then Some v else None.
Proof.
  rewrite get_extension. unfold get_at. destruct (strip p q) as [r|] eqn:E.
  - apply strip_Some in E as ->. destruct r as [|x r]; simpl.
    + rewrite app_nil_r. by rewrite decide_True.
    + rewrite decide_False; [done|]. intros H. apply (f_equal length) in H.
      rewrite length_app in H. simpl in H. lia.
  - rewrite decide_False; [done|]. intros ->. rewrite strip_None in E.
    destruct (E []). by rewrite app_nil_r.
Qed.

Lemma insert_empty_spec p v :
  nibbles_ok p ->
  (insert_empty p v).2 = None /\ shape (insert_empty p v).1 /\
  is_empty (insert_empty p v).1 = false /\
  forall q, get (insert_empty p v).1 q = if decide (q = p) then Some v else None.
Proof.
  intros Hp. destruct p as [|x p]; [simpl; split_and!; [done|constructor|done|by intros [|]]|].
  cbn [insert_empty fst snd].
  destruct (extension_shape (x :: p) (new_leaf v)) as [H1 H2]; [constructor|done|done|].
  split_and!; [done|done|by destruct (extension _ _)|apply get_new_leaf].
Qed.

(** The branch with one child. *)
Definition single (x : nat) (r : node) : list node := <[x := r]> (replicate 16 Empty).

Lemma single_lookup x r z :
  (x < 16)%nat -> single x r !! z = if decide (z = x) then Some r else if (z <? 16)%nat then Some Empty else None.
Proof.
  intros Hx. unfold single. case_decide as Hz.
  - subst. by rewrite list_lookup_insert_eq by (rewrite length_replicate; lia).
  - rewrite list_lookup_insert_ne by done. destruct (Nat.ltb_spec z 16).
    + by apply lookup_replicate_2.
    + by apply lookup_replicate_None.
Qed.

Lemma single_shape x r : shape r -> shape (Branch (sum_children (single x r)) (single x r)).
Proof.
  intros Hr. constructor; [by unfold single; rewrite length_insert, length_replicate|].
  apply Forall_insert; [|done]. apply Forall_replicate. constructor.
Qed.

Lemma get_single a x r q :
  (x < 16)%nat -> get (Branch a (single x r)) q = get_at [x] r q.
Proof.
  intros Hx. unfold get_at. simpl. destruct q as [|z q]; [done|].
  rewrite with_child_lookup, single_lookup by done. destruct (Nat.eqb_spec x z) as [->|Hne].
  - by rewrite decide_True.
  - rewrite decide_False by done. by destruct (z <? 16)%nat.
Qed.

(** Inserting into the branch that splits an extension, off the old path. *)
Lemma insert_split_spec x r p v :
  (x < 16)%nat -> nibbles_ok p -> shape r -> head p <> Some x ->
  exists t', insert_split (single x r) p v = Ret (t', None) /\ shape t' /\ is_empty t' = false /\
    (p <> [] -> inner t' = true) /\
    forall q, get t' q = if decide (q = p) then Some v else get_at [x] r q.
Proof.
  intros Hx Hp Hr Hhd. pose proof (single_shape x r Hr) as Hs.
  destruct p as [|y p]; cbn [insert_split].
  - destruct (insert_here_spec _ v Hs) as (H1 & H2 & H3 & H4).
    destruct (insert_here _ v) as [t' old] eqn:E. simpl in H1, H2, H3, H4. subst old.
    exists t'. split_and!; [done..|]. intros q.
    rewrite H4, <- (get_single (sum_children (single x r))) by done. destruct q; by case_decide.
  - apply nibbles_ok_cons in Hp as [Hy Hp].
    assert (Hne : y <> x) by (intros ->; by destruct Hhd).
    assert (Hc : single x r !! y = Some Empty).
    { rewrite single_lookup, decide_False by done. destruct (Nat.ltb_spec y 16); [done|lia]. }
    rewrite Hc. unfold branch_insert. destruct (insert_empty_spec p v Hp) as (H1 & H2 & H3 & H4).
    destruct (insert_empty p v) as [c' old]. simpl in H1, H2, H3, H4. subst old.
    cbn [mbind outcome_bind mret outcome_ret]. eexists. split_and!; [done| |done|done|].
    + inversion Hs; subst. constructor; [by rewrite length_insert|]. by apply Forall_insert.
    + intros q. rewrite (get_branch_alter (sum_children (single x r)) _ _ y Empty c' p q (Some v) Hc).
      * by rewrite get_single.
      * intros q'. by rewrite H4.
Qed.

(** What inserting off the path of an extension does. *)
Definition remaining (l : nibbles) x (a2 : nibbles) c : node :=
  if (length l =? length (l ++ x :: a2) - 1)%nat then c
  else Extension (node_ann c) (drop (length l + 1) (l ++ x :: a2)) c.

Lemma remaining_eq l x a2 c :
  remaining l x a2 c = match a2 with [] => c | _ => Extension (node_ann c) a2 c end.
Proof.
  unfold remaining. replace (l ++ x :: a2) with ((l ++ [x]) ++ a2) by (by rewrite <- app_assoc).
  replace (length l + 1)%nat with (length (l ++ [x])) by (rewrite length_app; simpl; lia).
  rewrite drop_app_length, !length_app. simpl length.
  destruct a2 as [|y a2]; simpl; case_match eqn:E; try done; [apply Nat.eqb_neq in E|apply Nat.eqb_eq in E]; lia.
Qed.

Lemma insert_parting_eq a l x a2 c v r :
  (length (l ++ x :: a2) <= 255)%nat -> (x < 16)%nat -> head r <> Some x -> l ++ r <> [] ->
  insert (Extension a (l ++ x :: a2) c) (l ++ r) v =
  '(final_branch, existing) ← insert_split (single x (remaining l x a2 c)) r v;
  mret (if (length l =? 0)%nat then final_branch
        else Extension (node_ann final_branch) l final_branch, existing).
Proof.
  intros Hl Hx Hhd Hne.
  assert (Hlen : common_len (l ++ x :: a2) (l ++ r) = length l).
  { clear -Hhd. induction l as [|z l IH]; simpl; [|by rewrite Nat.eqb_refl, IH].
    destruct r as [|y r]; [done|]. destruct (Nat.eqb_spec x y); [subst; by destruct Hhd|done]. }
  destruct (l ++ r) as [|i p] eqn:Ep; [done|]. cbn [insert]. cbv zeta.
  rewrite (common_len_take _ (i :: p) 255 Hl), Hlen, <- Ep, drop_app_length.
  replace (length l =? length (l ++ x :: a2))%nat with false
    by (symmetry; apply Nat.eqb_neq; rewrite length_app; simpl; lia).
  rewrite list_lookup_middle by done. cbn [expect mbind outcome_bind].
  destruct (Nat.leb_spec 16 x); [lia|]. unfold single, remaining.
  destruct (insert_split _ _ _) as [[fb old]| |]; [|done..]. cbn [mbind outcome_bind].
  rewrite take_app_length. by destruct (length l =? 0)%nat.
Qed.

(** An extension whose path parts from the inserted one. *)
Lemma insert_extension_split (l : nibbles) x a2 c p v :
  (length (l ++ x :: a2) <= 255)%nat -> nibbles_ok (l ++ x :: a2) -> shape c -> nibbles_ok p ->
  head p <> Some x ->
  exists t', insert_split (single x (remaining l x a2 c)) p v = Ret (t', None) /\ shape t' /\
    is_empty t' = false /\ (p <> [] -> inner t' = true) /\
    forall q, get t' q = if decide (q = p) then Some v else get_at (x :: a2) c q.
Proof.
  intros Hl Hn Hc Hp Hhd.
  apply nibbles_ok_app in Hn as [Hn1 [Hx Hn2]%nibbles_ok_cons]. rewrite length_app in Hl. simpl in Hl.
  assert (Hrem : shape (remaining l x a2 c) /\ forall q, get (remaining l x a2 c) q = get_at a2 c q).
  { rewrite remaining_eq. destruct a2; [done|]. split; [|done]. constructor; (done || lia). }
  destruct Hrem as [Hr1 Hr2].
  destruct (insert_split_spec x _ p v Hx Hp Hr1 Hhd) as (t' & E & H1 & H2 & H3 & H4).
  exists t'. split_and!; [done..|]. intros q. rewrite H4. case_decide; [done|].
  change (x :: a2) with ([x] ++ a2). rewrite get_at_app. unfold get_at at 1.
  destruct (strip [x] q); [apply Hr2|done].
Qed.

Lemma get_at_alter l t t' p o q :
  (forall r, get t' r = if decide (r = p) then o else get t r) ->
  get_at l t' q = if decide (q = l ++ p) then o else get_at l t q.
Proof.
  intros Hg. unfold get_at. destruct (strip l q) as [r|] eqn:E.
  - apply strip_Some in E as ->. rewrite Hg. do 2 case_decide; subst; try done.
    by apply (inj (app l)) in H0.
  - rewrite decide_False; [done|]. intros ->. by rewrite strip_app in E.
Qed.

(** The result of inserting: the contents change at the path alone. *)
Definition inserted t p v t' : Prop :=
  shape t' /\ is_empty t' = false /\ (p <> [] -> inner t = true -> inner t' = true) /\
  forall q, get t' q = if decide (q = p) then Some v else get t q.

Definition inserts t v p : Prop := exists t', insert t p v = Ret (t', get t p) /\ inserted t p v t'.

Lemma insert_nil t v : shape t -> inserts t v [].
Proof.
  intros Hs. destruct (insert_here_spec t v Hs) as (H1 & H2 & H3 & H4).
  exists (insert_here t v).1. split.
  - rewrite <- H1, <- surjective_pairing. by destruct t.
  - split_and!; [done..|]. intros [|? q]; rewrite H4; by case_decide.
Qed.

Lemma insert_branch a cs v i p :
  shape (Branch a cs) -> (i < 16)%nat -> (forall c, cs !! i = Some c -> inserts c v p) ->
  inserts (Branch a cs) v (i :: p).
Proof.
  intros Hs Hi IH. inversion Hs as [| |? ? Hl Hcs| |]; subst.
  destruct (child_lookup cs i Hl Hi) as [c Hc].
  destruct (IH c Hc) as (c' & E & H1 & H2 & _ & H4).
  eexists. cbn [insert get]. rewrite !with_child_lookup, Hc, E.
  cbn [branch_insert mbind outcome_bind mret outcome_ret]. split; [done|].
  split_and!; [|done|done|by intros; eapply get_branch_alter].
  constructor; [by rewrite length_insert|]. by apply Forall_insert.
Qed.

Lemma insert_through a cp c v r :
  shape (Extension a cp c) -> inserts c v r -> inserts (Extension a cp c) v (cp ++ r).
Proof.
  intros Hs (c' & E & H1 & H2 & _ & H4). inversion Hs as [| | |? ? ? Hcp Hl Hn Hc|]; subst.
  exists (Extension (node_ann c') cp c').
  split; [|split_and!; [by constructor|done|done|intros q; by apply get_at_alter]].
  destruct (cp ++ r) as [|i p] eqn:Ep; [by destruct cp|]. cbn [insert]. cbv zeta.
  rewrite (common_len_take cp (i :: p) 255 Hl), <- Ep.
  destruct (common_len_split cp (cp ++ r)) as [[-> _]|(l & x & a2 & -> & -> & Hpart)].
  - rewrite Nat.eqb_refl, drop_app_length, E. simpl. by rewrite strip_app.
  - rewrite <- app_assoc in Hpart. exfalso. destruct Hpart as [Hl'|(y & b2 & Hl' & Hne)].
    + apply (f_equal length) in Hl'. rewrite !length_app in Hl'. simpl in Hl'. lia.
    + apply app_inv_head in Hl'. by injection Hl' as -> _.
Qed.

Lemma insert_parting a l x a2 c v r :
  shape (Extension a (l ++ x :: a2) c) -> nibbles_ok r -> head r <> Some x -> l ++ r <> [] ->
  inserts (Extension a (l ++ x :: a2) c) v (l ++ r).
Proof.
  intros Hs Hr Hhd Hne. inversion Hs as [| | |? ? ? Hcp Hl Hn Hc|]; subst.
  destruct (insert_extension_split l x a2 c r v Hl Hn Hc Hr Hhd) as (t' & E & H1 & H2 & H3 & H4).
  pose proof Hn as [Hnl [Hx Hn2]%nibbles_ok_cons]%nibbles_ok_app.
  assert (Hget : forall q, get_at l t' q =
    if decide (q = l ++ r) then Some v else get (Extension a (l ++ x :: a2) c) q).
  { intros q. change (get (Extension a (l ++ x :: a2) c) q) with (get_at (l ++ x :: a2) c q).
    rewrite get_at_app. unfold get_at at 1. destruct (strip l q) as [q'|] eqn:Eq.
    - apply strip_Some in Eq as ->. rewrite H4. do 2 case_decide; subst; try done.
      by apply (inj (app l)) in H0.
    - rewrite decide_False; [done|]. intros ->. by rewrite strip_app in Eq. }
  assert (Hold : get (Extension a (l ++ x :: a2) c) (l ++ r) = None).
  { simpl. rewrite strip_trans, strip_app. destruct r as [|y r]; [done|]. simpl.
    destruct (Nat.eqb_spec x y); [subst; by destruct Hhd|done]. }
  exists (if (length l =? 0)%nat then t' else Extension (node_ann t') l t'). split.
  - rewrite Hold, insert_parting_eq, E by done. done.
  - rewrite length_app in Hl. destruct l as [|z l].
    { split_and!; [done|done|by intros ? _; apply H3|exact Hget]. }
    cbn [length Nat.eqb]. split_and!; [by constructor; [|lia|..]|done..].
Qed.

(** Inserting at a path always succeeds, reports what was there, changes the
    contents at that path alone, and keeps the shape. *)
Lemma insert_spec v t : shape t -> forall p, nibbles_ok p -> inserts t v p.
Proof.
  induction t as [|a w|a cs IH|a cp c IH|a w c IH] using node_ind'; intros Hs p Hp.
  all: destruct p as [|i p]; [by apply insert_nil|].
  all: pose proof Hp as [Hi Hp']%nibbles_ok_cons.
  - destruct (insert_empty_spec (i :: p) v Hp) as (H1 & H2 & H3 & H4).
    exists (insert_empty (i :: p) v).1. split; [done|]. by split_and!.
  - destruct (extension_shape (i :: p) (new_leaf v)) as [H1 H2]; [constructor|done|done|].
    eexists. split; [done|]. split_and!; [|done|done|].
    + constructor; [by destruct (extension _ _)|done].
    + intros [|j q]; [done|]. cbn [get]. rewrite get_new_leaf. by case_decide.
  - apply insert_branch; [done|done|]. intros c Hc. inversion Hs; subst.
    rewrite Forall_lookup in IH. eapply IH; [exact Hc|by eapply Forall_lookup_1|done].
  - destruct (common_len_split cp (i :: p)) as [[_ [r Er]]|(l & x & a2 & -> & _ & Hpart)].
    + rewrite Er in Hp |- *. apply nibbles_ok_app in Hp as [_ Hr]. inversion Hs; subst.
      by apply insert_through, IH.
    + assert (Hsplit : exists r, i :: p = l ++ r /\ head r <> Some x).
      { destruct Hpart as [->|(y & b2 & -> & Hne)]; [exists []; by rewrite app_nil_r|].
        exists (y :: b2). split; [done|]. simpl. congruence. }
      destruct Hsplit as (r & Er & Hhd). rewrite Er in Hp |- *. apply nibbles_ok_app in Hp as [_ Hr].
      apply insert_parting; [done..|]. by rewrite <- Er.
  - inversion Hs; subst. destruct (IH ltac:(done) (i :: p) Hp) as (c' & E & H1' & H2' & H3' & H4').
    cbn [inserts insert]. eexists. cbn [insert]. rewrite E. split; [done|]. split_and!; [|done|done|].
    + constructor; [by apply H3'|done].
    + intros [|j q]; [done|]. cbn [get]. apply H4'.
Qed.

(** *** Removal *)

Lemma first_filled_spec cs k i c :
  first_filled k cs = Some (i, c) ->
  exists j, i = (k + j)%nat /\ cs !! j = Some c /\ is_empty c = false.
Proof.
  revert k; induction cs as [|d cs IH]; intros k; simpl; [done|].
  destruct (is_empty d) eqn:E.
  - intros (j & -> & H1 & H2)%IH. exists (S j). split_and!; [lia|done..].
  - intros [= <- <-]. exists 0%nat. split_and!; [lia|done..].
Qed.

Lemma count_filled_cons c cs :
  count_filled (c :: cs) = ((if is_empty c then 0 else 1) + count_filled cs)%nat.
Proof. unfold count_filled. rewrite filter_cons. by destruct (is_empty c). Qed.

Lemma count_filled_0 cs : count_filled cs = 0%nat -> Forall (eq Empty) cs.
Proof.
  induction cs as [|c cs IH]; [constructor|]. rewrite count_filled_cons. intros H.
  destruct c; simpl in H; try lia. constructor; [done|by apply IH].
Qed.

Lemma count_filled_1 cs k :
  count_filled cs = 1%nat ->
  exists j c, first_filled k cs = Some ((k + j)%nat, c) /\ cs !! j = Some c /\ is_empty c = false /\
    forall j' c', cs !! j' = Some c' -> j' <> j -> c' = Empty.
Proof.
  revert k; induction cs as [|c cs IH]; intros k; [done|]. rewrite count_filled_cons. intros H. simpl.
  destruct (is_empty c) eqn:E.
  - destruct (IH (S k) H) as (j & c0 & -> & H1 & H2 & H3). exists (S j), c0.
    split_and!; [do 2 f_equal; lia|done|done|]. intros [|j'] c' Hc' Hne; [|apply (H3 j' c' Hc'); lia].
    injection Hc' as <-. by destruct c.
  - exists 0%nat, c. assert (H0 : count_filled cs = 0%nat) by lia. apply count_filled_0 in H0.
    split_and!; [do 2 f_equal; lia|done|done|]. intros [|j'] c' Hc' Hne; [done|].
    symmetry. by eapply (Forall_lookup_1 (eq Empty)).
Qed.

Lemma get_lift i c q : get (lift_only_child i c) q = get_at [i] c q.
Proof.
  destruct c as [|a v|a cs|a cp c|a v c]; cbn [lift_only_child]; rewrite get_extension; try done.
  change (i :: cp) with ([i] ++ cp). by rewrite get_at_app.
Qed.

Lemma lift_shape i c :
  shape c -> (i < 16)%nat -> shape (lift_only_child i c) /\ is_extension (lift_only_child i c) = true.
Proof.
  intros Hc Hi. assert (Hni : nibbles_ok [i]) by (by constructor).
  destruct c as [|a v|a cs|a cp c|a v c]; cbn [lift_only_child]; try by apply extension_shape.
  inversion Hc; subst. apply extension_shape; [done|done|]. by apply nibbles_ok_cons.
Qed.

Lemma get_extend_over a cp c q : get (extend_over a cp c) q = get_at cp c q.
Proof.
  destruct c as [|b v|b cs|b p c|b v c]; cbn [extend_over]; try done.
  - unfold get_at. by destruct (strip cp q).
  - rewrite get_extension, get_at_app. done.
Qed.

Lemma extend_over_shape a cp c :
  shape c -> cp <> [] -> (length cp <= 255)%nat -> nibbles_ok cp ->
  shape (extend_over a cp c) /\ (inner (extend_over a cp c) = true \/ extend_over a cp c = Empty).
Proof.
  intros Hc Hne Hl Hn. destruct c as [|b v|b cs|b p c|b v c]; cbn [extend_over].
  - split; [constructor|by right].
  - split; [by constructor|by left].
  - split; [by constructor|by left].
  - inversion Hc; subst. destruct (extension_shape (cp ++ p) c) as [H1' H2'];
      [done|by destruct cp|by apply nibbles_ok_app|].
    split; [done|left]. by destruct (extension _ _).
  - split; [by constructor|by left].
Qed.

(** A branch with one filled child holds what an extension to it holds. *)
Lemma get_only_child a cs j c q :
  length cs = 16%nat -> cs !! j = Some c ->
  (forall j' c', cs !! j' = Some c' -> j' <> j -> c' = Empty) ->
  get (Branch a cs) q = get_at [j] c q.
Proof.
  intros Hl Hc Ho. unfold get_at. simpl. destruct q as [|z q]; [done|]. rewrite with_child_lookup.
  destruct (Nat.eqb_spec j z) as [->|Hne]; [by rewrite Hc|].
  destruct (cs !! z) as [d|] eqn:E; [|done]. by rewrite (Ho z d E).
Qed.

(** Whether a path ends at a branch. *)
Fixpoint ends_in_branch t p : bool :=
  match t with
  | Empty | Leaf _ _ => false
  | Branch _ cs =>
      match p with [] => true | i :: p' => with_child (fun c => ends_in_branch c p') false cs i end
  | Extension _ cp c => match strip cp p with Some r => ends_in_branch c r | None => false end
  | MidBranchLeaf _ _ c => match p with [] => false | _ => ends_in_branch c p end
  end.

Definition removed_at t p t' : Prop :=
  shape t' /\ (p <> [] -> inner t = true -> inner t' = true \/ t' = Empty) /\
  forall q, get t' q = if decide (q = p) then None else get t q.

(** What [remove] does at a path: it panics if the path ends at a branch. *)
Definition removes t p : Prop :=
  if ends_in_branch t p then remove t p = Panic
  else exists t', remove t p = Ret (t', get t p) /\ removed_at t p t'.

Lemma remove_branch a cs i p :
  shape (Branch a cs) -> (i < 16)%nat -> (forall c, cs !! i = Some c -> removes c p) ->
  removes (Branch a cs) (i :: p).
Proof.
  intros Hs Hi IH. inversion Hs as [| |? ? Hl Hcs| |]; subst.
  destruct (child_lookup cs i Hl Hi) as [c Hc]. specialize (IH c Hc).
  unfold removes in *. cbn [ends_in_branch remove]. rewrite !with_child_lookup, Hc.
  destruct (ends_in_branch c p); [by rewrite IH|]. destruct IH as (c' & E & H1 & _ & H3).
  rewrite E. cbn [mbind outcome_bind]. set (cs' := <[i := c']> cs). cbv zeta.
  assert (Hcs' : shape (Branch (sum_children cs') cs')).
  { constructor; [by unfold cs'; rewrite length_insert|by apply Forall_insert]. }
  assert (Hg : forall q, get (Branch (sum_children cs') cs') q =
    if decide (q = i :: p) then None else get (Branch a cs) q).
  { intros q. by apply (get_branch_alter a _ _ _ c). }
  cbn [get] in *. rewrite with_child_lookup, Hc. destruct (Nat.eqb_spec (count_filled cs') 1) as [E1|E1].
  - destruct (count_filled_1 cs' 0 E1) as (j & d & -> & Hd & _ & Ho). cbn [expect mbind outcome_bind Nat.add].
    inversion Hcs' as [| |? ? Hl' Hf'| |]; subst. eexists. split; [done|].
    destruct (lift_shape j d) as [HS HE]; [by eapply Forall_lookup_1|..].
    { apply lookup_lt_Some in Hd. lia. }
    split_and!; [done|intros _ _; left; by destruct (lift_only_child j d)|].
    intros q. rewrite get_lift, <- (get_only_child (sum_children cs') cs' j d) by done. apply Hg.
  - eexists. split; [done|]. split_and!; [done|by left|apply Hg].
Qed.

Lemma remove_spec t : shape t -> forall p, nibbles_ok p -> removes t p.
Proof.
  induction t as [|a w|a cs IH|a cp c IH|a w c IH] using node_ind'; intros Hs p Hp.
  - exists Empty. split; [done|]. split_and!; [done|done|]. intros q. by case_decide.
  - destruct p as [|i p]; unfold removes; simpl; eexists; (split; [done|]); split_and!; try done.
    + constructor.
    + intros [|? q]; by case_decide.
    + intros [|? q]; by case_decide.
  - destruct p as [|i p]; [done|]. apply nibbles_ok_cons in Hp as [Hi Hp].
    apply remove_branch; [done|done|]. intros c Hc. inversion Hs; subst.
    rewrite Forall_lookup in IH. eapply IH; [exact Hc|by eapply Forall_lookup_1|done].
  - inversion Hs as [| | |? ? ? Hcp Hl Hn Hc|]; subst. unfold removes.
    cbn [ends_in_branch remove]. pose proof (strip_take cp p) as Hst.
    destruct (strip cp p) as [r|] eqn:E.
    + apply strip_Some in E as ->. rewrite drop_app_length in *.
      destruct (_ <? _)%nat; [done|]. case_decide; [|done].
      apply nibbles_ok_app in Hp as [_ Hr]. specialize (IH Hc r Hr). unfold removes in IH.
      destruct (ends_in_branch c r); [by rewrite IH|]. destruct IH as (c' & E & H1 & _ & H3).
      rewrite E. cbn [mbind outcome_bind get]. rewrite strip_app. eexists. split; [done|].
      destruct (extend_over_shape (node_ann c') cp c') as [HS HI]; [done..|].
      split_and!; [done|intros _ _; exact HI|]. intros q. rewrite get_extend_over. by apply get_at_alter.
    + assert (Hno : get (Extension a cp c) p = None) by (simpl; by rewrite E).
      exists (Extension a cp c). rewrite Hno. split; [destruct (_ <? _)%nat; [done|by case_decide]|].
      split_and!; [done|by left|]. intros q. by destruct (decide (q = p)) as [->|].
  - inversion Hs; subst. unfold removes. cbn [ends_in_branch remove].
    destruct p as [|i p].
    + exists c. split; [done|]. split_and!; [done|done|].
      intros [|j q]; case_decide; try done. by apply get_inner_nil.
    + specialize (IH ltac:(done) _ Hp). unfold removes in IH.
      destruct (ends_in_branch c (i :: p)); [by rewrite IH|]. destruct IH as (c' & E & H1' & H2' & H3').
      rewrite E. cbn [mbind outcome_bind get]. eexists. split; [done|].
      destruct (H2' ltac:(done) ltac:(done)) as [Hin| ->].
      * destruct c'; try done; (split_and!; [by constructor|done|]); intros [|j q]; try done; exact (H3' (j :: q)).
      * split_and!; [constructor|done|]. intros [|j q]; [done|]. exact (H3' (j :: q)).
Qed.

(** *** Leaves *)

Definition prefixed (cur : nibbles) (e : nibbles * V) : nibbles * V := (cur ++ e.1, e.2).

Lemma prefixed_app a b (l : list (nibbles * V)) : prefixed (a ++ b) <$> l = prefixed a <$> (prefixed b <$> l).
Proof.
  rewrite <- list_fmap_compose. apply list_fmap_ext. intros _ [q v] _. unfold prefixed. simpl.
  by rewrite app_assoc.
Qed.

Lemma leaves_prefixed t : forall cur, leaves t cur = prefixed cur <$> leaves t [].
Proof.
  induction t as [|a w|a cs IH|a cp c IH|a w c IH] using node_ind'; intros cur; cbn [leaves].
  - done.
  - unfold prefixed. simpl. by rewrite app_nil_r.
  - generalize 0%nat. induction IH as [|c cs Hc _ IHcs]; intros k; [done|]. cbn [flat_imap].
    rewrite fmap_app, IHcs. f_equal. by rewrite (Hc (cur ++ [k])), (Hc ([] ++ [k])), prefixed_app.
  - by rewrite (IH (cur ++ cp)), (IH ([] ++ cp)), prefixed_app.
  - rewrite fmap_app, IH. unfold prefixed. simpl. by rewrite app_nil_r.
Qed.

Lemma elem_of_flat_imap {B} (f : nat -> node -> list B) cs k x :
  x ∈ flat_imap f k cs <-> exists j c, cs !! j = Some c /\ x ∈ f (k + j)%nat c.
Proof.
  revert k; induction cs as [|c cs IH]; intros k; simpl.
  - split; [by intros ?%not_elem_of_nil|]. by intros (j & c & ? & _).
  - rewrite elem_of_app, IH. split.
    + intros [Hx|(j & d & Hj & Hx)].
      * exists 0%nat, c. by rewrite Nat.add_0_r.
      * exists (S j), d. split; [done|]. by rewrite Nat.add_succ_r.
    + intros ([|j] & d & Hj & Hx).
      * injection Hj as <-. rewrite Nat.add_0_r in Hx. by left.
      * right. exists j, d. split; [done|]. by rewrite Nat.add_succ_r in Hx.
Qed.

Lemma elem_of_prefixed cur q v (l : list (nibbles * V)) :
  (q, v) ∈ prefixed cur <$> l <-> exists r, strip cur q = Some r /\ (r, v) ∈ l.
Proof.
  rewrite list_elem_of_fmap. split.
  - intros ([r w] & E & Hin). unfold prefixed in E. simpl in E. injection E as -> ->.
    exists r. by rewrite strip_app.
  - intros (r & ->%strip_Some & Hin). by exists (r, v).
Qed.

(** The leaves are the entries. *)
Lemma elem_of_leaves t : shape t -> forall q v, (q, v) ∈ leaves t [] <-> get t q = Some v.
Proof.
  induction t as [|a w|a cs IH|a cp c IH|a w c IH] using node_ind'; intros Hs q v; cbn [leaves get app].
  - split; [by intros ?%not_elem_of_nil|done].
  - rewrite list_elem_of_singleton. destruct q; split; try done; by intros [= ->].
  - inversion Hs as [| |? ? Hl Hcs| |]; subst. rewrite elem_of_flat_imap.
    rewrite Forall_lookup in IH, Hcs. split.
    + intros (j & c & Hc & Hin). rewrite leaves_prefixed, elem_of_prefixed in Hin.
      destruct Hin as (r & Hq & Hin). apply strip_Some in Hq as ->. simpl.
      rewrite with_child_lookup, Hc. eapply IH; eauto.
    + destruct q as [|j q]; [done|]. rewrite with_child_lookup.
      destruct (cs !! j) as [c|] eqn:Hc; [|done]. intros Hg. exists j, c. split; [done|].
      rewrite leaves_prefixed, elem_of_prefixed. exists q. split; [by apply strip_Some|].
      eapply IH; eauto.
  - inversion Hs; subst. rewrite leaves_prefixed, elem_of_prefixed. split.
    + intros (r & -> & Hin). by apply IH.
    + destruct (strip _ q) as [r|]; [|done]. intros Hg. exists r. split; [done|]. by apply IH.
  - inversion Hs; subst. rewrite elem_of_app, list_elem_of_singleton. destruct q as [|j q].
    + split; [|intros [= ->]; by right]. intros [Hin|[= ->]]; [|done].
      apply IH in Hin; [|done]. rewrite get_inner_nil in Hin; done.
    + rewrite IH by done. split; [by intros [?|?]|by left].
Qed.

Lemma leaves_NoDup t : shape t -> NoDup (leaves t []).*1.
Proof.
  assert (Hpre : forall (l : list (nibbles * V)) cur, NoDup l.*1 -> NoDup (prefixed cur <$> l).*1).
  { intros l cur Hl. rewrite <- list_fmap_compose.
    change (fst ∘ prefixed cur) with (app cur ∘ (fst : nibbles * V -> nibbles)).
    rewrite list_fmap_compose. by apply NoDup_fmap_2; [apply _|]. }
  induction t as [|a w|a cs IH|a cp c IH|a w c IH] using node_ind'; intros Hs; cbn [leaves app].
  - constructor.
  - apply NoDup_singleton.
  - inversion Hs as [| |? ? _ Hcs| |]; subst. generalize 0%nat. clear Hs.
    induction IH as [|c cs Hc _ IHcs]; intros k; cbn [flat_imap]; [constructor|].
    apply Forall_cons in Hcs as [Hsc Hcs]. rewrite fmap_app. apply NoDup_app. split_and!.
    + rewrite leaves_prefixed. by apply Hpre, Hc.
    + intros q [[q1 v1] [-> H1]]%list_elem_of_fmap [[q2 v2] [E H2]]%list_elem_of_fmap.
      rewrite leaves_prefixed, elem_of_prefixed in H1. destruct H1 as (r & Hr & _).
      apply elem_of_flat_imap in H2 as (j & d & _ & H2). rewrite leaves_prefixed, elem_of_prefixed in H2.
      destruct H2 as (r2 & Hr2 & _). apply strip_Some in Hr, Hr2. simpl in *. subst.
      injection Hr2 as Hk _. lia.
    + by apply IHcs.
  - inversion Hs; subst. rewrite leaves_prefixed. by apply Hpre, IH.
  - inversion Hs; subst. rewrite fmap_app. apply NoDup_app. split_and!; [by apply IH| |apply NoDup_singleton].
    intros q [[q1 v1] [E H1']]%list_elem_of_fmap Hq%list_elem_of_singleton. simpl in E, Hq. subst.
    apply elem_of_leaves in H1'; [|done]. by rewrite get_inner_nil in H1'.
Qed.

Lemma iter_leaves t : iter t ≡ₚ (leaves t []).*2.
Proof.
  assert (Hp : forall t' cur, iter t' ≡ₚ (leaves t' []).*2 -> iter t' ≡ₚ (leaves t' cur).*2).
  { intros t' cur ->. rewrite (leaves_prefixed t' cur), <- list_fmap_compose. done. }
  induction t as [|a w|a cs IH|a cp c IH|a w c IH] using node_ind'; cbn [iter leaves].
  - done.
  - done.
  - generalize 0%nat. induction IH as [|c cs Hc _ IHcs]; intros k; [done|]. cbn [flat_map flat_imap].
    rewrite fmap_app, (IHcs (S k)), (Hp c ([] ++ [k]) Hc). done.
  - by apply Hp.
  - rewrite fmap_app, IH. simpl. by rewrite Permutation_app_comm.
Qed.

(** *** Pruning *)

Definition path_ltb p q : bool := match path_cmp p q with Lt => true | _ => false end.

Definition below (target : nibbles) (l : list (nibbles * V)) : list (nibbles * V) :=
  filter (fun e => path_ltb e.1 target = true) l.

Lemma path_cmp_app l p q : path_cmp (l ++ p) (l ++ q) = path_cmp p q.
Proof. induction l as [|x l IH]; simpl; [done|]. by rewrite Nat.compare_refl. Qed.

Lemma path_cmp_extension cp target r :
  match path_cmp cp (take (length cp) target) with
  | Lt => path_ltb (cp ++ r) target = true
  | Eq => target = cp ++ drop (length cp) target
  | Gt => path_ltb (cp ++ r) target = false
  end.
Proof.
  unfold path_ltb. revert target; induction cp as [|x cp IH]; intros [|y target]; simpl; [done..|].
  destruct (x ?= y)%nat eqn:E; [|done|done].
  apply Nat.compare_eq in E as ->. specialize (IH target).
  destruct (path_cmp cp (take (length cp) target)); [congruence|done|done].
Qed.

Definition pruned_at t target t' (removed : list V) : Prop :=
  shape t' /\
  (forall q, get t' q = if path_ltb q target then None else get t q) /\
  removed ≡ₚ (below target (leaves t [])).*2.

Definition prunes t target : Prop :=
  exists t' removed, prune t target = Ret (t', removed) /\ pruned_at t target t' removed.

(** What becomes of a branch with fewer children. *)
Lemma shrink_branch (pruned : list V) a cs :
  shape (Branch a cs) ->
  exists t', match count_filled cs with
             | 0%nat => mret (Empty, pruned)
             | 1%nat => '(path_head, child) ← expect (first_filled 0 cs);
                        mret (lift_only_child path_head child, pruned)
             | _ => mret (Branch a cs, pruned)
             end = Ret (t', pruned) :> panics (node * list V) /\
    shape t' /\ forall q, get t' q = get (Branch a cs) q.
Proof.
  intros Hs. inversion Hs as [| |? ? Hl Hcs| |]; subst.
  destruct (count_filled cs) as [|[|n]] eqn:E.
  - exists Empty. split_and!; [done|constructor|]. intros [|j q]; [done|]. simpl.
    rewrite with_child_lookup. destruct (cs !! j) as [c|] eqn:Hc; [|done].
    apply count_filled_0 in E. rewrite Forall_lookup in E. by rewrite <- (E j c Hc).
  - destruct (count_filled_1 cs 0 E) as (j & c & -> & Hc & _ & Ho). cbn [expect mbind outcome_bind Nat.add].
    destruct (lift_shape j c) as [HS _]; [by eapply Forall_lookup_1|apply lookup_lt_Some in Hc; lia|].
    eexists. split_and!; [done|done|]. intros q. by rewrite get_lift, <- (get_only_child a cs j c).
  - by exists (Branch a cs).
Qed.

Lemma leaves_range k l : Forall (fun e => exists i q, e.1 = i :: q /\ (k <= i < k + length l)%nat)
  (flat_imap (fun i child => leaves child [i]) k l).
Proof.
  apply Forall_forall. intros [q v] (j & c & Hc & Hin)%elem_of_flat_imap.
  rewrite leaves_prefixed, elem_of_prefixed in Hin. destruct Hin as (r & ->%strip_Some & _).
  exists (k + j)%nat, r. split; [done|]. apply lookup_lt_Some in Hc. lia.
Qed.

Lemma flat_imap_app {B} (f : nat -> node -> list B) k l1 l2 :
  flat_imap f k (l1 ++ l2) = flat_imap f k l1 ++ flat_imap f (k + length l1) l2.
Proof.
  revert k; induction l1 as [|c l1 IH]; intros k; simpl; [by rewrite Nat.add_0_r|].
  rewrite IH, app_assoc. do 2 f_equal. lia.
Qed.

(** The leaves of a branch before a path. *)
Lemma below_branch (l1 l2 : list node) c rest :
  (below (length l1 :: rest) (flat_imap (fun i child => leaves child [i]) 0 (l1 ++ c :: l2))).*2
  ≡ₚ flat_map iter l1 ++ (below rest (leaves c [])).*2.
Proof.
  rewrite flat_imap_app. cbn [flat_imap Nat.add]. unfold below. rewrite !filter_app.
  rewrite (filter_all _ (flat_imap _ 0 l1)); [rewrite (filter_none _ (flat_imap _ (S _) l2))|].
  - rewrite app_nil_r, fmap_app. f_equiv.
    + generalize 0%nat. induction l1 as [|d l1 IH]; intros k; [done|]. cbn [flat_imap flat_map].
      rewrite fmap_app, (IH (S k)), (iter_leaves d), (leaves_prefixed d [k]), <- list_fmap_compose. done.
    + rewrite (leaves_prefixed c [length l1]), filter_fmap, <- list_fmap_compose.
      apply fmap_Permutation. erewrite list_filter_iff; [done|]. intros [q v]. unfold path_ltb. simpl.
      by rewrite Nat.compare_refl.
  - eapply Forall_impl; [apply leaves_range|]. intros [q v] (i & r & -> & Hi). unfold path_ltb. simpl.
    destruct (Nat.compare_spec i (length l1)); [lia|lia|done].
  - eapply Forall_impl; [apply leaves_range|]. intros [q v] (i & r & -> & Hi). unfold path_ltb. simpl.
    destruct (Nat.compare_spec i (length l1)); [lia|done|lia].
Qed.

(** The children kept by pruning. *)
Definition kept (h : nat) (c' : node) cs : list node := <[h := c']> (replicate h Empty ++ drop h cs).

Lemma kept_lookup h c' cs z :
  (h < length cs)%nat ->
  kept h c' cs !! z = if (z <? h)%nat then Some Empty else if (z =? h)%nat then Some c' else cs !! z.
Proof.
  intros Hh. unfold kept. destruct (Nat.eqb_spec z h) as [->|Hne].
  - rewrite list_lookup_insert_eq; [by rewrite Nat.ltb_irrefl|].
    rewrite length_app, length_replicate, length_drop. lia.
  - rewrite list_lookup_insert_ne by done. destruct (Nat.ltb_spec z h).
    + rewrite lookup_app_l by (by rewrite length_replicate). by apply lookup_replicate_2.
    + rewrite lookup_app_r by (by rewrite length_replicate). rewrite length_replicate, lookup_drop.
      f_equal. lia.
Qed.

Lemma kept_shape h c' cs a :
  (h < 16)%nat -> length cs = 16%nat -> Forall shape cs -> shape c' -> shape (Branch a (kept h c' cs)).
Proof.
  intros Hh Hl Hcs Hc'. unfold kept. constructor.
  - rewrite length_insert, length_app, length_replicate, length_drop. lia.
  - apply Forall_insert; [|done]. apply Forall_app. split; [apply Forall_replicate; constructor|].
    by apply Forall_drop.
Qed.

Lemma get_kept a a' h c c' cs rest q :
  (h < 16)%nat -> length cs = 16%nat -> cs !! h = Some c ->
  (forall r, get c' r = if path_ltb r rest then None else get c r) ->
  get (Branch a' (kept h c' cs)) q = if path_ltb q (h :: rest) then None else get (Branch a cs) q.
Proof.
  intros Hh Hl Hc Hg. cbn [get]. destruct q as [|z q]; [by destruct (path_ltb _ _)|].
  rewrite !with_child_lookup, kept_lookup by lia. unfold path_ltb. cbn [path_cmp].
  destruct (Nat.compare_spec z h) as [->|Hlt|Hgt].
  - rewrite Nat.ltb_irrefl, Nat.eqb_refl, Hc. apply Hg.
  - by destruct (Nat.ltb_spec z h); [|lia].
  - destruct (Nat.ltb_spec z h); [lia|]. by destruct (Nat.eqb_spec z h); [lia|].
Qed.

Lemma prune_branch a cs h rest :
  shape (Branch a cs) -> (h < 16)%nat -> (forall c, cs !! h = Some c -> prunes c rest) ->
  prunes (Branch a cs) (h :: rest).
Proof.
  intros Hs Hh IH. inversion Hs as [| |? ? Hl Hcs| |]; subst.
  destruct (child_lookup cs h Hl Hh) as [c Hc].
  destruct (IH c Hc) as (c' & removed & E & H1 & H2 & H3).
  unfold prunes. cbn [prune]. destruct (Nat.leb_spec 16 h); [lia|].
  rewrite with_child_lookup, Hc, E. cbn [mbind outcome_bind].
  change (<[h:=c']> (replicate h Empty ++ drop h cs)) with (kept h c' cs). cbv zeta.
  set (pr := flat_map iter (take h cs) ++ removed).
  set (an := match pr with [] => a | _ => _ end).
  destruct (shrink_branch pr an (kept h c' cs)) as (t' & Et & Ht & Hg); [by apply kept_shape|].
  exists t', pr. split; [exact Et|]. split_and!; [done| |].
  - intros q. rewrite Hg. by apply get_kept with (c := c).
  - cbn [leaves app]. unfold pr. rewrite H3. rewrite <- (take_drop_middle cs h c Hc) at 2.
    replace (h :: rest) with (length (take h cs) :: rest) by (rewrite length_take; f_equal; lia).
    by rewrite below_branch.
Qed.

Lemma prune_nil t : shape t -> prunes t [].
Proof.
  intros Hs. exists t, []. split; [by destruct t|].
  assert (Hf : forall q, path_ltb q [] = false) by (by intros [|]).
  split_and!; [done| |].
  - intros q. by rewrite Hf.
  - unfold below. rewrite filter_none; [done|]. apply Forall_forall. intros [q v] _. by rewrite Hf.
Qed.

Lemma prune_extension a cp c target :
  shape (Extension a cp c) -> nibbles_ok target -> target <> [] ->
  (forall target', nibbles_ok target' -> prunes c target') -> prunes (Extension a cp c) target.
Proof.
  intros Hs Hp Hne IH. inversion Hs as [| | |? ? ? Hcp Hl Hn Hc|]; subst.
  destruct target as [|h rest]; [done|]. unfold prunes. cbn [prune]. cbv zeta.
  set (target := h :: rest) in *. clearbody target. clear Hne.
  pose proof (path_cmp_extension cp target) as Hcmp.
  assert (Hfil : forall b, (forall r, path_ltb (cp ++ r) target = b) ->
    Forall (fun e => path_ltb e.1 target = b) (leaves (Extension a cp c) [])).
  { intros b Hb. cbn [leaves app]. rewrite leaves_prefixed. apply Forall_fmap, Forall_forall.
    intros [r v] _. apply Hb. }
  destruct (path_cmp cp _).
  + specialize (Hcmp []). rewrite Hcmp in Hp. apply nibbles_ok_app in Hp as [_ Hp].
    destruct (IH _ Hp) as (c' & removed & E & H1 & H2 & H3). rewrite E. cbn [mbind outcome_bind].
    eexists _, removed. split; [done|].
    match goal with |- context [extend_over ?x _ _] =>
      destruct (extend_over_shape x cp c') as [HS _]; [done..|] end.
    split_and!; [done| |].
    * intros q. rewrite get_extend_over. unfold get_at. cbn [get].
      destruct (strip cp q) as [r|] eqn:Eq; [|by destruct (path_ltb _ _)].
      apply strip_Some in Eq as ->. rewrite H2, Hcmp. unfold path_ltb.
      by rewrite path_cmp_app, drop_app_length.
    * rewrite H3. cbn [leaves app]. rewrite (leaves_prefixed c cp). unfold below.
      rewrite filter_fmap, <- list_fmap_compose. apply fmap_Permutation.
      erewrite list_filter_iff; [done|]. intros [q v]. simpl. rewrite Hcmp at 2. unfold path_ltb.
      by rewrite path_cmp_app.
  + exists Empty, (iter c). split; [done|]. split_and!; [constructor| |].
    * intros q. cbn [get]. destruct (strip cp q) as [r|] eqn:Eq; [|by destruct (path_ltb _ _)].
      apply strip_Some in Eq as ->. by rewrite Hcmp.
    * unfold below. rewrite filter_all by (by apply Hfil). cbn [leaves app].
      by rewrite iter_leaves, (leaves_prefixed c cp), <- list_fmap_compose.
  + exists (Extension a cp c), []. split; [done|]. split_and!; [done| |].
    * intros q. cbn [get]. destruct (strip cp q) as [r|] eqn:Eq; [|by destruct (path_ltb _ _)].
      apply strip_Some in Eq as ->. by rewrite Hcmp.
    * unfold below. rewrite filter_none; [done|]. eapply Forall_impl; [by apply (Hfil false)|].
      intros e ->. done.
Qed.

(** Pruning removes the entries before the target, returns their values, and
    keeps the others. *)
Lemma prune_spec t : shape t -> forall target, nibbles_ok target -> prunes t target.
Proof.
  induction t as [|a w|a cs IH|a cp c IH|a w c IH] using node_ind'; intros Hs target Hp.
  all: destruct target as [|h rest]; [by apply prune_nil|].
  all: pose proof Hp as [Hh Hp']%nibbles_ok_cons.
  - exists Empty, []. split; [done|]. split_and!; [done|intros q; by destruct (path_ltb _ _)|done].
  - exists Empty, [w]. split; [done|]. split_and!; [constructor| |done].
    intros [|x q]; [done|by destruct (path_ltb _ _)].
  - apply prune_branch; [done|done|]. intros c Hc. inversion Hs; subst.
    rewrite Forall_lookup in IH. eapply IH; [exact Hc|by eapply Forall_lookup_1|done].
  - inversion Hs; subst. apply prune_extension; [done..|]. by apply IH.
  - inversion Hs; subst. destruct (IH ltac:(done) _ Hp) as (c' & removed & E & H1' & H2' & H3').
    unfold prunes. cbn [prune]. rewrite E. cbn [mbind outcome_bind]. eexists _, _. split; [done|].
    split_and!; [done| |].
    + intros [|j q]; rewrite H2'; [done|]. done.
    + cbn [leaves]. unfold below in *. rewrite filter_app, fmap_app, H3'.
      change (filter _ [([], w)]) with [([] : nibbles, w)]. simpl. by rewrite Permutation_app_comm.
Qed.

(** ** The normal form

    Tries whose keys have at most 255 nibbles, with correct annotations: branches
    have two children or more, and extensions are not followed by extensions. *)

Inductive canon : node -> Prop :=
| canon_empty : canon Empty
| canon_leaf v : canon (new_leaf v)
| canon_branch cs :
    length cs = 16%nat -> Forall canon cs -> (2 <= count_filled cs)%nat ->
    canon (Branch (sum_children cs) cs)
| canon_extension p c :
    p <> [] -> (length p <= 255)%nat -> nibbles_ok p -> canon c ->
    is_empty c = false -> is_extension c = false -> canon (Extension (node_ann c) p c)
| canon_mid v c :
    inner c = true -> canon c -> canon (MidBranchLeaf (ann_append (node_ann c) (from_value v)) v c).

Definition key_bound (n : nat) t : Prop := forall p, is_Some (get t p) -> (length p <= n)%nat.

Lemma canon_shape t : canon t -> shape t.
Proof.
  induction t as [|a w|a cs IH|a cp c IH|a w c IH] using node_ind'; inversion 1; subst; constructor; auto.
  by apply Forall_lookup; intros i c Hc; rewrite !Forall_lookup in *; eauto.
Qed.

Lemma count_filled_two cs :
  (2 <= count_filled cs)%nat ->
  exists i j c d, (i < j)%nat /\ cs !! i = Some c /\ cs !! j = Some d /\ is_empty c = false /\ is_empty d = false.
Proof.
  induction cs as [|c cs IH]; [unfold count_filled; simpl; lia|]. rewrite count_filled_cons. intros H.
  destruct (is_empty c) eqn:E.
  - destruct (IH ltac:(lia)) as (i & j & c1 & d & Hij & H1 & H2 & H3 & H4).
    exists (S i), (S j), c1, d. split_and!; [lia|done..].
  - destruct (first_filled 0 cs) as [[j d]|] eqn:Ef.
    + apply first_filled_spec in Ef as (j' & -> & Hj & Hd).
      exists 0%nat, (S j'), c, d. split_and!; [lia|done..].
    + exfalso. assert (Hc0 : count_filled cs = 0%nat); [|lia]. clear -Ef. revert Ef. generalize 0%nat at 1.
      induction cs as [|d cs IH]; intros k Ef; [done|]. rewrite count_filled_cons. simpl in Ef.
      destruct (is_empty d); [|done]. simpl. by eapply IH.
Qed.

(** A non-empty trie has a key. *)
Lemma canon_has_key t : canon t -> is_empty t = false -> exists p, is_Some (get t p).
Proof.
  induction t as [|a w|a cs IH|a cp c IH|a w c IH] using node_ind'; intros Hc He; inversion Hc; subst.
  - done.
  - exists []. simpl. eauto.
  - destruct (count_filled_two cs ltac:(done)) as (i & j & c & d & _ & Hi & _ & H5 & _).
    rewrite !Forall_lookup in *. destruct (IH i c Hi) as [p Hp]; [by eauto|done|].
    exists (i :: p). simpl. by rewrite with_child_lookup, Hi.
  - destruct IH as [p Hp]; [done|done|]. exists (cp ++ p). simpl. by rewrite strip_app.
  - exists []. simpl. eauto.
Qed.

(** *** Uniqueness *)

(** The first nibbles of an inner node's keys: two different ones for a branch. *)
Lemma branch_two_heads a cs :
  canon (Branch a cs) -> exists i j p q, i <> j /\ is_Some (get (Branch a cs) (i :: p)) /\
    is_Some (get (Branch a cs) (j :: q)).
Proof.
  intros Hc. inversion Hc as [| |? Hl Hcs Hcount| |]; subst.
  destruct (count_filled_two cs ltac:(done)) as (i & j & c & d & Hij & Hi & Hj & H5 & H6).
  rewrite Forall_lookup in Hcs.
  destruct (canon_has_key c) as [p Hp]; [by eauto|done|].
  destruct (canon_has_key d) as [q Hq]; [by eauto|done|].
  exists i, j, p, q. split_and!; [lia|..]; simpl; rewrite with_child_lookup; by rewrite ?Hi, ?Hj.
Qed.

(** Below an extension, keys do not share a first nibble. *)
Lemma no_common_head c x :
  canon c -> is_empty c = false -> is_extension c = false ->
  ~ (forall p, is_Some (get c p) -> exists q, p = x :: q).
Proof.
  intros Hc He Hx Hall. destruct c as [|a w|a cs|a cp c|a w c]; try done.
  - destruct (Hall []) as [q ?]; [simpl; eauto|done].
  - destruct (branch_two_heads a cs Hc) as (i & j & p & q & Hne & H1 & H2).
    destruct (Hall _ H1) as [? [= -> _]], (Hall _ H2) as [? [= -> _]]. done.
  - destruct (Hall []) as [q ?]; [simpl; eauto|done].
Qed.

Lemma common_head_of_prefix p x r c d :
  canon c -> is_empty c = false -> is_extension c = false ->
  (forall q, get_at p c q = get_at (p ++ x :: r) d q) -> False.
Proof.
  intros Hc He Hx Hg. apply (no_common_head c x Hc He Hx). intros k Hk.
  specialize (Hg (p ++ k)). rewrite get_at_app in Hg. unfold get_at in Hg. rewrite strip_app in Hg.
  destruct k as [|y k]; simpl in Hg; [rewrite Hg in Hk; by destruct Hk|].
  destruct (Nat.eqb_spec x y) as [->|Hne]; [by exists k|]. rewrite Hg in Hk. by destruct Hk.
Qed.

(** The path of an extension is determined by the keys. *)
Lemma extension_paths p c q d :
  canon c -> is_empty c = false -> is_extension c = false ->
  canon d -> is_empty d = false -> is_extension d = false ->
  (forall r, get_at p c r = get_at q d r) -> p = q.
Proof.
  intros Hc He Hx Hd He' Hx' Hg.
  destruct (common_len_split p q) as [[_ [[|x r] ->]]|(l & x & a2 & -> & _ & [->|(y & b2 & -> & Hne)])].
  - by rewrite app_nil_r.
  - exfalso. by eapply (common_head_of_prefix p x r c d).
  - exfalso. by eapply (common_head_of_prefix l x a2 d c).
  - exfalso. destruct (canon_has_key c Hc He) as [k Hk]. specialize (Hg ((l ++ x :: a2) ++ k)).
    unfold get_at in Hg. rewrite strip_app, <- app_assoc, strip_trans, strip_app in Hg. simpl in Hg.
    destruct (Nat.eqb_spec y x); [congruence|]. rewrite Hg in Hk. by destruct Hk.
Qed.

Lemma inner_not_nil t : canon t -> inner t = true -> get t [] = None.
Proof. intros Hc Hi. apply get_inner_nil; [by apply canon_shape|done]. Qed.

Lemma branch_not_extension a cs b p c :
  canon (Branch a cs) -> canon (Extension b p c) ->
  (forall q, get (Branch a cs) q = get (Extension b p c) q) -> False.
Proof.
  intros Hb He Hg. destruct (branch_two_heads a cs Hb) as (i & j & q & r & Hne & H1 & H2).
  rewrite Hg in H1, H2. inversion He; subst. destruct p as [|x p]; [done|]. simpl in H1, H2.
  destruct (Nat.eqb_spec x i), (Nat.eqb_spec x j); [congruence|by destruct H2|by destruct H1|by destruct H1].
Qed.

(** Only leaves and mid-branch leaves hold a value at the empty path. *)
Lemma leaf_not_mid v w c :
  canon c -> inner c = true ->
  (forall q, get (new_leaf v) q = get (MidBranchLeaf (ann_append (node_ann c) (from_value w)) w c) q) ->
  False.
Proof.
  intros Hc Hi Hg. destruct (canon_has_key c Hc) as [k Hk]; [by destruct c|].
  destruct k as [|x k]; [rewrite inner_not_nil in Hk by done; by destruct Hk|].
  specialize (Hg (x :: k)). simpl in Hg. rewrite <- Hg in Hk. by destruct Hk.
Qed.

Lemma canon_nil_key t :
  canon t ->
  match get t [] with
  | Some v => t = new_leaf v \/
      exists c, t = MidBranchLeaf (ann_append (node_ann c) (from_value v)) v c /\ canon c /\ inner c = true
  | None => t = Empty \/ inner t = true
  end.
Proof.
  intros Hc. destruct Hc as [|v|cs Hl Hcs Hn|p c Hp Hl Hn Hc He Hx|v c Hi Hc]; simpl.
  - by left.
  - by left.
  - by right.
  - destruct p; [done|]. by right.
  - right. eauto.
Qed.

(** The contents determine the trie. *)
Lemma canon_unique t : forall t', canon t -> canon t' -> (forall q, get t q = get t' q) -> t = t'.
Proof.
  induction t as [|a w|a cs IH|a cp c IH|a w c IH] using node_ind'; intros t' Hc Hc' Hg;
    pose proof (canon_nil_key t' Hc') as Hnil; rewrite <- Hg in Hnil.
  - destruct (is_empty t') eqn:E; [by destruct t'|].
    destruct (canon_has_key t' Hc' E) as [p Hp]. rewrite <- Hg in Hp. by destruct Hp.
  - inversion Hc; subst. destruct Hnil as [->|(c & -> & Hcc & Hi)]; [done|]. by destruct (leaf_not_mid w w c).
  - destruct Hnil as [->|Hi].
    { destruct (canon_has_key _ Hc ltac:(done)) as [p Hp]. rewrite Hg in Hp. by destruct Hp. }
    destruct t' as [| |a' cs'|b q d|]; try done; [|by destruct (branch_not_extension a cs b q d)].
    inversion Hc as [| |? Hl Hcs _| |]; inversion Hc' as [| |? Hl' Hcs' _| |]; subst.
    enough (cs = cs') by congruence. apply list_eq_same_length with (n := 16%nat); [done..|].
    intros i c d Hi16 Hci Hdi. rewrite Forall_lookup in IH, Hcs, Hcs'.
    apply (IH i c Hci d); [by eauto|by eauto|]. intros q. specialize (Hg (i :: q)). simpl in Hg.
    by rewrite !with_child_lookup, Hci, Hdi in Hg.
  - inversion Hc as [| | |? ? Hp Hl Hn Hcc He Hx|]; subst. assert (Hnil' : get (Extension (node_ann c) cp c) [] = None).
    { simpl. by destruct cp. }
    rewrite Hnil' in Hnil. destruct Hnil as [->|Hi].
    { destruct (canon_has_key _ Hc ltac:(done)) as [p Hpp]. rewrite Hg in Hpp. by destruct Hpp. }
    destruct t' as [| |a' cs'|b q d|]; try done.
    { exfalso. eapply branch_not_extension; [exact Hc'|exact Hc|]. intros q. symmetry. apply Hg. }
    inversion Hc' as [| | |? ? Hp' Hl' Hn' Hcc' He' Hx'|]; subst.
    assert (cp = q) as -> by (by apply (extension_paths cp c q d)).
    enough (c = d) by congruence. apply IH; [done|done|]. intros r. specialize (Hg (q ++ r)). simpl in Hg.
    by rewrite !strip_app in Hg.
  - inversion Hc as [| | | |? ? Hi Hcc]; subst. destruct Hnil as [->|(d & -> & Hcd & Hid)].
    { exfalso. eapply (leaf_not_mid w w c); [done|done|]. intros q. symmetry. apply Hg. }
    enough (c = d) by congruence. apply IH; [done|done|]. intros [|x q]; [|by apply (Hg (x :: q))].
    by rewrite !inner_not_nil.
Qed.

(** *** The operations keep the normal form *)

Lemma absorb_plain p c : is_extension c = false -> extension_absorb p c = (p, c).
Proof. by destruct c. Qed.

Lemma extension_plain p c :
  is_extension c = false -> (0 < length p <= 255)%nat -> extension p c = Extension (node_ann c) p c.
Proof. intros Hx Hl. unfold extension. by rewrite absorb_plain, chunks_single. Qed.

Lemma canon_extension_fn p c n :
  canon c -> is_empty c = false -> p <> [] -> nibbles_ok p -> key_bound n c ->
  (length p + n <= 255)%nat -> canon (extension p c) /\ node_ann (extension p c) = node_ann c.
Proof.
  intros Hc He Hp Hn Hb Hl. assert (Hp' : (0 < length p)%nat) by (destruct p; [done|simpl; lia]).
  destruct (is_extension c) eqn:Hx.
  - destruct Hc as [| | |cp d Hcp Hlc Hnc Hd Hed Hxd|]; try done.
    destruct (canon_has_key d Hd Hed) as [k Hk].
    assert (Hcl : (length (cp ++ k) <= n)%nat) by (apply Hb; simpl; by rewrite strip_app).
    rewrite length_app in Hcl. assert (0 < length cp)%nat by (destruct cp; [done|simpl; lia]).
    assert (E : extension p (Extension (node_ann d) cp d) = Extension (node_ann d) (p ++ cp) d).
    { unfold extension. cbn [extension_absorb]. destruct (Nat.eqb_spec (length p mod 255) 0) as [E|_].
      - rewrite Nat.mod_small in E by lia. lia.
      - rewrite absorb_plain, chunks_single by (done || rewrite length_app; lia). done. }
    rewrite E. split; [|done]. constructor; [by destruct p|rewrite length_app; lia| |done..].
    by apply nibbles_ok_app.
  - rewrite extension_plain by (done || lia). split; [|done]. constructor; (done || lia).
Qed.

Lemma canon_lift j c n :
  (j < 16)%nat -> canon c -> is_empty c = false -> key_bound n c -> (1 + n <= 255)%nat ->
  canon (lift_only_child j c).
Proof.
  intros Hj Hc He Hb Hl. assert (Hnj : nibbles_ok [j]) by (by constructor).
  destruct c as [|a v|a cs|a cp d|a v d]; cbn [lift_only_child]; try by eapply canon_extension_fn.
  inversion Hc as [| | |? ? Hcp Hlc Hnc Hd Hed Hxd|]; subst.
  destruct (canon_has_key d Hd Hed) as [k Hk].
  assert (Hcl : (length (cp ++ k) <= n)%nat) by (apply Hb; simpl; by rewrite strip_app).
  rewrite length_app in Hcl. rewrite extension_plain by (done || simpl; lia).
  constructor; [done|simpl; lia|by apply nibbles_ok_cons|done..].
Qed.

Lemma canon_extend_over cp c n :
  canon c -> cp <> [] -> nibbles_ok cp -> key_bound n c -> (length cp + n <= 255)%nat ->
  canon (extend_over (node_ann c) cp c).
Proof.
  intros Hc Hcp Hn Hb Hl. assert (Hcp' : (0 < length cp)%nat) by (destruct cp; [done|simpl; lia]).
  destruct c as [|a v|a cs|a p d|a v d]; cbn [extend_over]; try (constructor; (done || lia)).
  inversion Hc as [| | |? ? Hp Hlc Hnc Hd Hed Hxd|]; subst.
  destruct (canon_has_key d Hd Hed) as [k Hk].
  assert (Hcl : (length (p ++ k) <= n)%nat) by (apply Hb; simpl; by rewrite strip_app).
  rewrite length_app in Hcl. rewrite extension_plain by (done || rewrite length_app; lia).
  constructor; [by destruct cp|rewrite length_app; lia|by apply nibbles_ok_app|done..].
Qed.

Lemma key_bound_child n a cs i c : key_bound (S n) (Branch a cs) -> cs !! i = Some c -> key_bound n c.
Proof.
  intros Hb Hc k Hk. specialize (Hb (i :: k)). simpl in Hb. rewrite with_child_lookup, Hc in Hb.
  specialize (Hb Hk). lia.
Qed.

Lemma key_bound_under n a cp c k :
  key_bound n (Extension a cp c) -> is_Some (get c k) -> (length cp + length k <= n)%nat.
Proof. intros Hb Hk. rewrite <- length_app. apply Hb. simpl. by rewrite strip_app. Qed.

Lemma key_bound_mid n a v c : shape c -> inner c = true -> key_bound n (MidBranchLeaf a v c) -> key_bound n c.
Proof.
  intros Hs Hi Hb [|x k] Hk; [by rewrite get_inner_nil in Hk; [destruct Hk|..]|]. by apply Hb.
Qed.

Lemma canon_key_extension n a cp c :
  canon (Extension a cp c) -> key_bound n (Extension a cp c) ->
  (length cp <= n)%nat /\ key_bound (n - length cp) c.
Proof.
  intros Hc Hb. inversion Hc as [| | |? ? Hp Hl Hn Hcc He Hx|]; subst.
  destruct (canon_has_key c Hcc He) as [k Hk]. pose proof (key_bound_under _ _ _ _ _ Hb Hk).
  split; [lia|]. intros k' Hk'. pose proof (key_bound_under _ _ _ _ _ Hb Hk'). lia.
Qed.

Lemma count_filled_insert cs i c c' :
  cs !! i = Some c ->
  (count_filled (<[i := c']> cs) + (if is_empty c then 0 else 1)
   = count_filled cs + (if is_empty c' then 0 else 1))%nat.
Proof.
  revert i; induction cs as [|d cs IH]; intros [|i] Hc; try done.
  - injection Hc as ->. cbn [insert list_insert]. change (<[0%nat:=c']> (c :: cs)) with (c' :: cs).
    rewrite !count_filled_cons. lia.
  - change (<[S i := c']> (d :: cs)) with (d :: <[i := c']> cs). rewrite !count_filled_cons.
    specialize (IH i Hc). lia.
Qed.

Lemma canon_insert_here t v : canon t -> canon (insert_here t v).1.
Proof.
  intros Hc. destruct Hc; cbn [insert_here fst new_leaf]; try apply canon_leaf; apply canon_mid;
    by try constructor.
Qed.

Lemma canon_insert_nil t v t' o : canon t -> insert t [] v = Ret (t', o) -> canon t'.
Proof.
  intros Hc E. pose proof (canon_insert_here t v Hc) as Hh. destruct t; simpl in *; by injection E as <- _.
Qed.

Lemma key_bound_new_leaf v : key_bound 0 (new_leaf v).
Proof. intros [|x p] Hk; [done|]. by destruct Hk. Qed.

Lemma canon_insert_empty p v :
  nibbles_ok p -> (length p <= 255)%nat ->
  canon (insert_empty p v).1 /\ is_empty (insert_empty p v).1 = false.
Proof.
  intros Hn Hl. destruct p as [|x p]; [split; [constructor|done]|]. cbn [insert_empty fst].
  rewrite extension_plain by (done || simpl in *; lia). split; [|done].
  apply canon_extension; [done..|constructor|done|done].
Qed.

Lemma insert_not_extension t p v t' o :
  is_extension t = false -> is_empty t = false -> insert t p v = Ret (t', o) -> is_extension t' = false.
Proof.
  intros Hx He. destruct p as [|i p]; destruct t as [|a w|a cs|a cp c|a w c]; try done; simpl;
    try (by intros [= <- _]); unfold branch_insert; intros ([? ?] & _ & [= <- _])%outcome_bind_Ret; done.
Qed.

(** Inserting a key that no other key extends keeps the normal form. *)
Lemma canon_insert_branch cs i c c' :
  canon (Branch (sum_children cs) cs) -> cs !! i = Some c -> canon c' -> is_empty c' = false ->
  canon (Branch (sum_children (<[i := c']> cs)) (<[i := c']> cs)).
Proof.
  intros Hc Hi Hc' He. inversion Hc as [| |? Hl Hcs Hn| |]; subst.
  pose proof (count_filled_insert cs i c c' Hi) as Hcount. rewrite He in Hcount.
  constructor; [by rewrite length_insert|by apply Forall_insert|]. destruct (is_empty c); lia.
Qed.

Lemma count_single x r : (x < 16)%nat -> is_empty r = false -> count_filled (single x r) = 1%nat.
Proof.
  intros Hx He. pose proof (count_filled_insert (replicate 16 Empty) x Empty r) as Hcount.
  rewrite He in Hcount. cbn [is_empty] in Hcount. fold (single x r) in Hcount.
  assert (count_filled (replicate 16 Empty) = 0%nat) as E by done. rewrite E in Hcount.
  rewrite Nat.add_0_r in Hcount. apply Hcount. by apply lookup_replicate_2.
Qed.

Lemma canon_split x r y p v :
  (x < 16)%nat -> (y < 16)%nat -> nibbles_ok p -> (length p <= 255)%nat -> y <> x -> canon r ->
  is_empty r = false -> forall t' o, insert_split (single x r) (y :: p) v = Ret (t', o) ->
  canon t' /\ is_empty t' = false /\ is_extension t' = false.
Proof.
  intros Hx Hy Hp Hl Hne Hr He t' o. cbn [insert_split].
  assert (Hc : single x r !! y = Some Empty).
  { rewrite single_lookup, decide_False by done. destruct (Nat.ltb_spec y 16); [done|lia]. }
  rewrite Hc. destruct (canon_insert_empty p v Hp Hl) as [H1 H2].
  destruct (insert_empty p v) as [c' old]. cbn [branch_insert mbind outcome_bind mret outcome_ret].
  simpl in H1, H2. intros [= <- _]. split_and!; [|done|done].
  pose proof (count_filled_insert (single x r) y Empty c' Hc) as Hcount.
  rewrite H2, count_single in Hcount by done. constructor.
  - unfold single. by rewrite !length_insert, length_replicate.
  - apply Forall_insert; [|done]. apply Forall_insert; [|done]. apply Forall_replicate. constructor.
  - simpl in Hcount. lia.
Qed.

Lemma canon_insert_parting a l x a2 c v y b2 t' o :
  canon (Extension a (l ++ x :: a2) c) -> nibbles_ok (l ++ y :: b2) ->
  (length (l ++ y :: b2) <= 255)%nat -> x <> y ->
  insert (Extension a (l ++ x :: a2) c) (l ++ y :: b2) v = Ret (t', o) -> canon t'.
Proof.
  intros Hc Hnp Hlp Hne E. inversion Hc as [| | |? ? Hp Hl Hnn Hcc He Hx|]; subst.
  apply nibbles_ok_app in Hnn as [Hnl [Hx16 Hn2]%nibbles_ok_cons].
  apply nibbles_ok_app in Hnp as [_ [Hy Hb2]%nibbles_ok_cons].
  rewrite insert_parting_eq in E; [|done|done|simpl; congruence|by destruct l].
  rewrite !length_app in *. simpl in Hlp, Hl.
  assert (Hrem : canon (remaining l x a2 c) /\ is_empty (remaining l x a2 c) = false).
  { rewrite remaining_eq. destruct a2; [done|]. split; [|done]. constructor; (done || lia). }
  apply outcome_bind_Ret in E as ([fb old] & Es & E).
  apply canon_split in Es as (Hfb & Hefb & Hxfb); [|done..|lia|done|apply Hrem|apply Hrem].
  injection E as <- _. destruct l as [|z l]; [done|]. cbn [length Nat.eqb].
  constructor; (done || lia).
Qed.

Lemma canon_insert_extension v n a cp c p t' o :
  canon (Extension a cp c) -> key_bound n (Extension a cp c) -> (n <= 255)%nat -> nibbles_ok p ->
  (length p <= n)%nat -> (forall r, r <> [] -> get (Extension a cp c) (p ++ r) = None) -> p <> [] ->
  insert (Extension a cp c) p v = Ret (t', o) ->
  (forall n p t' o, canon c -> key_bound n c -> (n <= 255)%nat -> nibbles_ok p -> (length p <= n)%nat ->
     (forall r, r <> [] -> get c (p ++ r) = None) -> insert c p v = Ret (t', o) -> canon t') ->
  canon t'.
Proof.
  intros Hc Hb Hn Hp Hl Hext Hne0 E IH. destruct p as [|i p]; [done|]. simpl in Hl.
  destruct (canon_key_extension n a cp c Hc Hb) as [Hcl Hcb].
  inversion Hc as [| | |? ? Hcp Hlc Hnc Hcc He Hx|]; subst.
  destruct (common_len_split cp (i :: p)) as [[Elen [r Er]]|(l & x & a2 & -> & _ & Hpart)].
  + cbn [insert] in E. cbv zeta in E. rewrite common_len_take, Elen, Nat.eqb_refl in E by done.
    rewrite Er, drop_app_length in E. apply outcome_bind_Ret in E as ([c' old] & Ec & E).
    injection E as <- _. rewrite Er in Hp. apply nibbles_ok_app in Hp as [_ Hr].
    assert (Hlr : (length cp + length r <= n)%nat).
    { rewrite <- length_app, <- Er. simpl. lia. }
    destruct (insert_spec v c (canon_shape c Hcc) r Hr) as (c2 & E2 & _ & He2 & _).
    rewrite E2 in Ec. injection Ec as <- <-.
    apply canon_extension; [done..| |done|by eapply insert_not_extension].
    eapply (IH (n - length cp)%nat r); [done|done|lia|done|lia| |exact E2].
    intros r' Hr'. specialize (Hext r' Hr'). rewrite Er, <- app_assoc in Hext. simpl in Hext.
    by rewrite strip_app in Hext.
  + destruct Hpart as [El|(y & b2 & Eq & Hne)].
    * exfalso. destruct (canon_has_key c Hcc He) as [k Hk].
      specialize (Hext (x :: a2 ++ k) ltac:(done)). rewrite El in Hext. simpl in Hext.
      replace (l ++ x :: a2 ++ k) with ((l ++ x :: a2) ++ k) in Hext by (by rewrite <- app_assoc).
      rewrite strip_app in Hext. rewrite Hext in Hk. by destruct Hk.
    * rewrite Eq in E, Hp. eapply (canon_insert_parting _ l x a2 c v y b2); [exact Hc|done| |done|exact E].
      rewrite <- Eq. simpl. lia.
Qed.

Lemma insert_canon v t : forall n p t' o,
  canon t -> key_bound n t -> (n <= 255)%nat -> nibbles_ok p -> (length p <= n)%nat ->
  (forall r, r <> [] -> get t (p ++ r) = None) -> insert t p v = Ret (t', o) -> canon t'.
Proof.
  induction t as [|a w|a cs IH|a cp c IH|a w c IH] using node_ind'; intros n p t' o Hc Hb Hn Hp Hl Hext E.
  all: destruct p as [|i p]; [by apply canon_insert_nil in E|].
  all: pose proof Hp as [Hi Hp']%nibbles_ok_cons; simpl in Hl.
  - injection E as <- _. rewrite extension_plain by (done || simpl; lia).
    apply canon_extension; [done|simpl; lia|done|constructor|done|done].
  - inversion Hc; subst. injection E as <- _. rewrite extension_plain by (done || simpl; lia).
    apply (canon_mid w (Extension (node_ann (new_leaf v)) (i :: p) (new_leaf v))); [done|].
    apply canon_extension; [done|simpl; lia|done|constructor|done|done].
  - inversion Hc as [| |? Hl16 Hcs Hcount| |]; subst. cbn [insert] in E.
    rewrite with_child_lookup in E. destruct (child_lookup cs i Hl16 Hi) as [c Hci]. rewrite Hci in E.
    apply outcome_bind_Ret in E as ([c' old] & Ec & E). injection E as <- _.
    rewrite Forall_lookup in IH, Hcs. destruct n as [|n]; [lia|].
    eapply canon_insert_branch; [done|exact Hci| |].
    + eapply (IH i c Hci n p); [by eauto|by eapply key_bound_child|lia|done|lia| |exact Ec].
      intros r Hr. specialize (Hext r Hr). simpl in Hext. by rewrite with_child_lookup, Hci in Hext.
    + destruct (insert_spec v c (canon_shape c (Hcs i c Hci)) p Hp') as (c2 & E2 & _ & He & _).
      rewrite E2 in Ec. by injection Ec as <- _.
  - eapply (canon_insert_extension v n a cp c (i :: p)); [done..|exact E|].
    intros. by eapply IH.
  - inversion Hc as [| | | |? ? Hin Hcc]; subst. cbn [insert] in E.
    apply outcome_bind_Ret in E as ([c' old] & Ec & E). injection E as <- _. rewrite ann_comm.
    destruct (insert_spec v c (canon_shape c Hcc) _ Hp) as (c2 & E2 & _ & _ & Hi2 & _).
    rewrite E2 in Ec. injection Ec as <- <-. constructor; [by apply Hi2|].
    eapply (IH n (i :: p)); [done|eapply key_bound_mid; [by apply canon_shape|done..]|done|done|done| |exact E2].
    intros r Hr. apply (Hext r Hr).
Qed.

(** Removing keeps the normal form. *)
Lemma key_bound_removed n t p t' : key_bound n t -> removed_at t p t' -> key_bound n t'.
Proof.
  intros Hb (_ & _ & Hg) q Hq. apply Hb. rewrite Hg in Hq. case_decide; [by destruct Hq|done].
Qed.

Lemma canon_shrink n cs :
  length cs = 16%nat -> Forall canon cs -> key_bound n (Branch (sum_children cs) cs) -> (n <= 255)%nat ->
  forall j c, first_filled 0 cs = Some (j, c) -> canon (lift_only_child j c).
Proof.
  intros Hl Hcs Hb Hn j c Hf. apply first_filled_spec in Hf as (j' & -> & Hj & He). cbn [Nat.add].
  rewrite Forall_lookup in Hcs. destruct (canon_has_key c (Hcs _ _ Hj) He) as [k Hk].
  destruct n as [|n].
  { specialize (Hb (j' :: k)). simpl in Hb. rewrite with_child_lookup, Hj in Hb. specialize (Hb Hk). lia. }
  eapply canon_lift; [|by eapply Hcs|done|by eapply key_bound_child|lia].
  apply lookup_lt_Some in Hj. lia.
Qed.

Lemma canon_remove_branch n a cs p t' o :
  canon (Branch a cs) -> key_bound n (Branch a cs) -> (n <= 255)%nat -> nibbles_ok p ->
  remove (Branch a cs) p = Ret (t', o) ->
  (forall i c, cs !! i = Some c -> forall n p t' o, canon c -> key_bound n c -> (n <= 255)%nat ->
     nibbles_ok p -> remove c p = Ret (t', o) -> canon t') ->
  canon t'.
Proof.
  intros Hc Hb Hn Hp E IH.
  inversion Hc as [| |? Hl16 Hcs Hcount| |]; subst. destruct p as [|i p]; [done|].
  pose proof Hp as [Hi Hp']%nibbles_ok_cons. cbn [remove] in E. rewrite with_child_lookup in E.
  destruct (child_lookup cs i Hl16 Hi) as [c Hci]. rewrite Hci in E.
  apply outcome_bind_Ret in E as ([c' old] & Ec & E). cbv zeta in E.
  pose proof (proj1 (Forall_lookup _ _) Hcs i c Hci) as Hcc.
  pose proof (remove_spec c (canon_shape c Hcc) p Hp') as Hr. unfold removes in Hr.
  destruct (ends_in_branch c p); [by rewrite Hr in Ec|]. destruct Hr as (c2 & E2 & Hr).
  rewrite E2 in Ec. injection Ec as <- <-.
  assert (Hc2 : canon c2).
  { destruct n as [|n]; [|eapply (IH i c Hci n p); [done|by eapply key_bound_child|lia|done|exact E2]].
    exfalso. destruct (branch_two_heads _ _ Hc) as (x & _ & k & _ & _ & Hk & _).
    specialize (Hb _ Hk). simpl in Hb. lia. }
  pose proof (count_filled_insert cs i c c2 Hci) as Hcf.
  assert (Hcs2 : Forall canon (<[i := c2]> cs)) by (by apply Forall_insert).
  destruct (Nat.eqb_spec (count_filled (<[i := c2]> cs)) 1) as [E1|E1].
  + apply outcome_bind_Ret in E as ([j d] & Ed & E). injection E as <- _.
    destruct (first_filled 0 (<[i := c2]> cs)) as [[j' d']|] eqn:Ef; [|done]. injection Ed as -> ->.
    eapply (canon_shrink n (<[i := c2]> cs)); [by rewrite length_insert|done| |done|exact Ef].
    intros q Hq. apply Hb. rewrite (get_branch_alter (sum_children cs) _ cs i c c2 p q None Hci) in Hq.
    * case_decide; [by destruct Hq|done].
    * apply Hr.
  + injection E as <- _. constructor; [by rewrite length_insert|done|].
    destruct (is_empty c), (is_empty c2); lia.
Qed.

Lemma remove_canon t : forall n p t' o,
  canon t -> key_bound n t -> (n <= 255)%nat -> nibbles_ok p -> remove t p = Ret (t', o) -> canon t'.
Proof.
  induction t as [|a w|a cs IH|a cp c IH|a w c IH] using node_ind'; intros n p t' o Hc Hb Hn Hp E.
  - injection E as <- _. constructor.
  - inversion Hc; subst. destruct p; injection E as <- _; constructor.
  - eapply canon_remove_branch; [exact Hc|done..|exact E|].
    intros i c Hi. rewrite Forall_lookup in IH. by apply (IH i c Hi).
  - destruct (canon_key_extension n a cp c Hc Hb) as [Hcl Hcb].
    inversion Hc as [| | |? ? Hcp Hlc Hnc Hcc He Hx|]; subst. cbn [remove] in E.
    destruct (_ <? _)%nat; [by injection E as <- _|]. case_decide as Ht; [|by injection E as <- _].
    apply outcome_bind_Ret in E as ([c' old] & Ec & E). injection E as <- _.
    pose proof (nibbles_ok_drop (length cp) p Hp) as Hp'.
    pose proof (remove_spec c (canon_shape c Hcc) _ Hp') as Hr. unfold removes in Hr.
    destruct (ends_in_branch c _); [by rewrite Hr in Ec|]. destruct Hr as (c2 & E2 & Hr).
    rewrite E2 in Ec. injection Ec as <- <-.
    apply canon_extend_over with (n := (n - length cp)%nat);
      [by eapply (IH (n - length cp)%nat); [done|done|lia|done|exact E2]|done|done| |lia].
    by eapply key_bound_removed.
  - inversion Hc as [| | | |? ? Hin Hcc]; subst. cbn [remove] in E.
    destruct p as [|i p]; [by injection E as <- _|].
    apply outcome_bind_Ret in E as ([c' old] & Ec & E). injection E as <- _.
    pose proof (remove_spec c (canon_shape c Hcc) _ Hp) as Hr. unfold removes in Hr.
    destruct (ends_in_branch c _); [by rewrite Hr in Ec|]. destruct Hr as (c2 & E2 & Hr).
    rewrite E2 in Ec. injection Ec as <- <-.
    assert (Hc2 : canon c2).
    { eapply (IH n (i :: p)); [done|eapply key_bound_mid; [by apply canon_shape|done..]|done|done|exact E2]. }
    destruct Hr as (_ & Hi2 & _). destruct (Hi2 ltac:(done) Hin) as [Hi'| ->].
    + destruct c2; try done; by constructor.
    + cbn [node_ann]. rewrite ann_left_id. constructor.
Qed.

(** Pruning keeps the normal form. *)
Lemma key_bound_pruned n t target t' removed :
  key_bound n t -> pruned_at t target t' removed -> key_bound n t'.
Proof.
  intros Hb (_ & Hg & _) q Hq. apply Hb. rewrite Hg in Hq. case_match; [by destruct Hq|done].
Qed.

(** When nothing was removed, nothing changed. *)
Lemma pruned_nothing t target t' :
  canon t -> canon t' -> pruned_at t target t' [] -> t' = t.
Proof.
  intros Hc Hc' (_ & Hg & Hp). apply canon_unique; [done..|]. intros q. rewrite Hg.
  destruct (path_ltb q target) eqn:E; [|done]. destruct (get t q) as [v|] eqn:Eg; [exfalso|done].
  apply (elem_of_leaves t (canon_shape t Hc)) in Eg.
  assert (Hin : v ∈ (below target (leaves t [])).*2).
  { apply list_elem_of_fmap. exists (q, v). split; [done|]. by apply list_elem_of_filter. }
  rewrite <- Hp in Hin. by apply not_elem_of_nil in Hin.
Qed.

Lemma iter_nil_empty t : canon t -> iter t = [] -> t = Empty.
Proof.
  intros Hc Hi. destruct (is_empty t) eqn:E; [by destruct t|]. exfalso.
  destruct (canon_has_key t Hc E) as [p [v Hp]].
  apply (elem_of_leaves t (canon_shape t Hc)) in Hp.
  assert (Hin : v ∈ iter t) by (rewrite iter_leaves; apply list_elem_of_fmap; by exists (p, v)).
  rewrite Hi in Hin. by apply not_elem_of_nil in Hin.
Qed.

Lemma flat_map_iter_nil l : Forall canon l -> flat_map iter l = [] -> l = replicate (length l) Empty.
Proof.
  induction 1 as [|c l Hc _ IH]; [done|]. simpl. intros [H1 H2]%app_eq_nil.
  by rewrite (iter_nil_empty c), <- IH.
Qed.

Lemma canon_kept n a cs h rest c c' removed :
  canon (Branch a cs) -> key_bound n (Branch a cs) -> (n <= 255)%nat -> (h < 16)%nat ->
  cs !! h = Some c -> canon c' -> pruned_at c rest c' removed ->
  let pr := flat_map iter (take h cs) ++ removed in
  let an := match pr with [] => a | _ => sum_children (kept h c' cs) end in
  forall t', match count_filled (kept h c' cs) with
             | 0%nat => mret (Empty, pr)
             | 1%nat => '(path_head, child) ← expect (first_filled 0 (kept h c' cs));
                        mret (lift_only_child path_head child, pr)
             | _ => mret (Branch an (kept h c' cs), pr)
             end = Ret (t', pr) :> panics (node * list V) -> canon t'.
Proof.
  intros Hc Hb Hn Hh Hi Hc' Hpr pr an t' E. inversion Hc as [| |? Hl Hcs Hcount| |]; subst.
  assert (Hk : Forall canon (kept h c' cs)).
  { apply Forall_insert; [|done]. apply Forall_app. split; [apply Forall_replicate; constructor|].
    by apply Forall_drop. }
  assert (Hkl : length (kept h c' cs) = 16%nat).
  { unfold kept. rewrite length_insert, length_app, length_replicate, length_drop. lia. }
  assert (Hkb : key_bound n (Branch (sum_children (kept h c' cs)) (kept h c' cs))).
  { intros q Hq. rewrite (get_kept (sum_children cs) _ h c c' cs rest) in Hq; [|done..|apply Hpr].
    case_match; [by destruct Hq|by apply Hb]. }
  assert (Han : an = sum_children (kept h c' cs)).
  { unfold an. destruct pr eqn:Epr; [|done]. unfold pr in Epr. apply app_eq_nil in Epr as [E1 ->].
    rewrite (pruned_nothing c rest c') by (done || rewrite Forall_lookup in Hcs; eauto).
    f_equal. unfold kept. apply flat_map_iter_nil in E1; [|by apply Forall_take].
    rewrite length_take, Hl, Nat.min_l in E1 by lia. rewrite <- E1, take_drop. by rewrite list_insert_id. }
  destruct (count_filled (kept h c' cs)) as [|[|m]] eqn:Ec.
  - injection E as <-. constructor.
  - apply outcome_bind_Ret in E as ([j d] & Ed & E). injection E as <-.
    destruct (first_filled 0 (kept h c' cs)) as [[j' d']|] eqn:Ef; [|done]. injection Ed as -> ->.
    by eapply (canon_shrink n (kept h c' cs)).
  - injection E as <-. rewrite Han. constructor; [done..|lia].
Qed.

Lemma prune_canon t : forall n target t' removed,
  canon t -> key_bound n t -> (n <= 255)%nat -> nibbles_ok target ->
  prune t target = Ret (t', removed) -> canon t'.
Proof.
  induction t as [|a w|a cs IH|a cp c IH|a w c IH] using node_ind'; intros n target t' removed Hc Hb Hn Hp E;
    (destruct target as [|h rest]; [simpl in E; by injection E as <- _|]).
  - injection E as <- _. constructor.
  - injection E as <- _. constructor.
  - pose proof Hp as [Hh Hp']%nibbles_ok_cons. cbn [prune] in E.
    destruct (Nat.leb_spec 16 h); [lia|]. rewrite with_child_lookup in E.
    pose proof Hc as Hc0. inversion Hc as [| |? Hl Hcs Hcount| |]; subst.
    destruct (child_lookup cs h Hl Hh) as [c Hci]. rewrite Hci in E.
    pose proof (proj1 (Forall_lookup _ _) Hcs h c Hci) as Hcc.
    destruct (prune_spec c (canon_shape c Hcc) rest Hp') as (c' & rem & Ec & Hpr). rewrite Ec in E.
    cbn [mbind outcome_bind] in E.
    change (<[h:=c']> (replicate h Empty ++ drop h cs)) with (kept h c' cs) in E. cbv zeta in E.
    assert (exists m, n = S m) as [m ->].
    { destruct (branch_two_heads _ _ Hc) as (x & _ & k & _ & _ & Hk & _). specialize (Hb _ Hk).
      simpl in Hb. exists (n - 1)%nat. lia. }
    assert (Hc' : canon c').
    { rewrite Forall_lookup in IH. eapply (IH h c Hci m rest); [done|by eapply key_bound_child|lia|done|exact Ec]. }
    pose proof (canon_kept (S m) _ cs h rest c c' rem Hc Hb Hn Hh Hci Hc' Hpr) as Hk. cbv zeta in Hk.
    assert (removed = flat_map iter (take h cs) ++ rem) as ->; [|by apply Hk].
    destruct (count_filled _) as [|[|]];
      [by injection E as _ E | |by injection E as _ E].
    apply outcome_bind_Ret in E as ([j d] & _ & E). by injection E as _ E.
  - destruct (canon_key_extension n a cp c Hc Hb) as [Hcl Hcb].
    inversion Hc as [| | |? ? Hcp Hlc Hnc Hcc He Hx|]; subst. cbn [prune] in E. cbv zeta in E.
    destruct (path_cmp cp _); [|injection E as <- _; constructor|by injection E as <- _].
    apply outcome_bind_Ret in E as ([c' rem] & Ec & E). injection E as <- _.
    pose proof (nibbles_ok_drop (length cp) _ Hp) as Hp'.
    destruct (prune_spec c (canon_shape c Hcc) _ Hp') as (c2 & rem2 & E2 & Hpr).
    rewrite E2 in Ec. injection Ec as <- <-.
    assert (Hc2 : canon c2) by (eapply (IH (n - length cp)%nat); [done|done|lia|exact Hp'|exact E2]).
    assert (match rem2 with [] => node_ann c | _ => node_ann c2 end = node_ann c2) as ->.
    { destruct rem2; [|done]. f_equal. symmetry. by eapply pruned_nothing. }
    apply canon_extend_over with (n := (n - length cp)%nat); [done..|by eapply key_bound_pruned|lia].
  - inversion Hc as [| | | |? ? Hin Hcc]; subst. cbn [prune] in E.
    apply outcome_bind_Ret in E as ([c' rem] & Ec & E). injection E as <- _.
    eapply (IH n (h :: rest)); [done|eapply key_bound_mid; [by apply canon_shape|done..]|done|done|exact Ec].
Qed.

(** *** Sizes and checks *)

Lemma sum_children_size cs :
  get_size (sum_children cs) = foldr (fun c n => get_size (node_ann c) + n)%Z 0%Z cs.
Proof.
  unfold sum_children. assert (Hg : forall a, get_size (foldl (fun acc c => ann_append acc (node_ann c)) a cs)
    = (get_size a + foldr (fun c n => get_size (node_ann c) + n) 0 cs)%Z).
  { induction cs as [|c cs IH]; intros a; simpl; [lia|]. rewrite IH, size_append. lia. }
  rewrite Hg, size_empty. lia.
Qed.

Lemma leaves_branch_length k cs :
  Z.of_nat (length (flat_imap (fun i child => leaves child [i]) k cs)) =
  foldr (fun c n => Z.of_nat (length (leaves c [])) + n)%Z 0%Z cs.
Proof.
  revert k; induction cs as [|c cs IH]; intros k; simpl; [done|].
  rewrite length_app, (leaves_prefixed c [k]), length_fmap, <- (IH (S k)). lia.
Qed.

Lemma foldr_sum_ext (f g : node -> Z) cs :
  Forall (fun c => f c = g c) cs -> foldr (fun c n => f c + n)%Z 0%Z cs = foldr (fun c n => g c + n)%Z 0%Z cs.
Proof. induction 1 as [|c cs Hc _ IH]; simpl; congruence. Qed.

(** The recorded size is the number of entries. *)
Lemma canon_size t :
  canon t -> get_size (node_ann t) = Z.of_nat (length (leaves t [])) /\ node_size t = get_size (node_ann t).
Proof.
  induction t as [|a w|a cs IH|a cp c IH|a w c IH] using node_ind'; intros Hc;
    inversion Hc as [|?|? Hl Hcs Hn|? ? Hp Hl Hn Hcc He Hx|? ? Hi Hcc]; subst; cbn [node_ann node_size leaves app].
  - by rewrite size_empty.
  - by rewrite size_value.
  - split; [|done]. rewrite sum_children_size, leaves_branch_length. apply foldr_sum_ext.
    rewrite Forall_lookup in *. intros i c Hci. by eapply IH; eauto.
  - split; [|done]. rewrite leaves_prefixed, length_fmap. by apply IH.
  - split; [|done]. rewrite length_app, size_append, size_value, (proj1 (IH Hcc)). simpl. lia.
Qed.

(** Every node of a normal form passes the check. *)
Lemma canon_check t : canon t -> check_invariant t = Ok tt.
Proof.
  intros Hc. destruct Hc as [|v|cs Hl Hcs Hn|p c Hp Hl Hn Hc He Hx|v c Hi Hc]; cbn [check_invariant]; try done.
  - destruct (Nat.ltb_spec (count_filled cs) 2); [lia|]. rewrite sum_children_size.
    rewrite (foldr_sum_ext (fun c => get_size (node_ann c)) node_size), Z.eqb_refl; [done|].
    eapply Forall_impl; [exact Hcs|]. intros c Hc. symmetry. by apply canon_size.
  - rewrite Hx. cbn [andb]. destruct (Nat.ltb_spec 255 (length p)); [lia|].
    rewrite (proj2 (canon_size c Hc)), Z.eqb_refl. cbn [negb].
    replace (existsb _ p) with false; [done|]. symmetry. apply not_true_is_false.
    intros (x & Hx' & Hlt)%existsb_exists. apply list_elem_of_In in Hx'.
    unfold nibbles_ok in Hn. rewrite Forall_forall in Hn. specialize (Hn x Hx'). apply Nat.ltb_lt in Hlt. lia.
  - rewrite size_append, size_value, (proj2 (canon_size c Hc)).
    destruct c; try done; by rewrite Z.eqb_refl.
Qed.

Lemma canon_sum_ann `{!EqDecision A} t : canon t -> sum_ann t = Ok (node_ann t).
Proof.
  induction t as [|a w|a cs IH|a cp c IH|a w c IH] using node_ind'; intros Hc;
    inversion Hc as [|?|? Hl Hcs Hn|? ? Hp Hl Hn Hcc He Hx|? ? Hi Hcc]; subst; cbn [node_ann sum_ann]; cbv zeta.
  - done.
  - by rewrite decide_True.
  - assert (Hgo : forall acc, (fix go (acc : A) (cs : list node) : result ErrorKind A :=
        match cs with [] => Ok acc | c :: cs' => a ← sum_ann c; go (ann_append acc a) cs' end) acc cs
      = Ok (foldl (fun acc c => ann_append acc (node_ann c)) acc cs)).
    { clear Hn Hc Hl. induction IH as [|c cs Hci _ IHcs]; intros acc; [done|].
      apply Forall_cons in Hcs as [H1 Hcs]. rewrite (Hci H1). cbn [mbind result_bind foldl]. by apply IHcs. }
    rewrite Hgo. cbn [mbind result_bind]. by rewrite decide_True.
  - rewrite (IH Hcc). cbn [mbind result_bind]. by rewrite decide_True.
  - rewrite (IH Hcc). cbn [mbind result_bind]. by rewrite decide_True.
Qed.

(** *** Predecessors *)

Lemma path_cmp_refl p : path_cmp p p = Eq.
Proof. rewrite <- (app_nil_r p), path_cmp_app. done. Qed.

Definition is_max t (r : option (nibbles * V)) (e : nibbles) : Prop :=
  match r with
  | None => forall k, get t k = None
  | Some (p, v) => exists k, p = e ++ k /\ get t k = Some v /\
      forall k' v', get t k' = Some v' -> path_cmp k' k <> Gt
  end.

Definition is_pred t (target : nibbles) (r : option (nibbles * V)) (e : nibbles) : Prop :=
  match r with
  | None => forall k v, get t k = Some v -> path_cmp k target <> Lt
  | Some (p, v) => exists k, p = e ++ k /\ get t k = Some v /\ path_cmp k target = Lt /\
      forall k' v', get t k' = Some v' -> path_cmp k' target = Lt -> path_cmp k' k <> Gt
  end.

Lemma rfind_imap_spec {B} (f : nat -> node -> option B) cs k :
  match rfind_imap f k cs with
  | None => forall j c, cs !! j = Some c -> f (k + j)%nat c = None
  | Some r => exists j c, cs !! j = Some c /\ f (k + j)%nat c = Some r /\
      forall j' c', (j < j')%nat -> cs !! j' = Some c' -> f (k + j')%nat c' = None
  end.
Proof.
  revert k; induction cs as [|c cs IH]; intros k; cbn [rfind_imap]; [done|].
  specialize (IH (S k)). destruct (rfind_imap f (S k) cs) as [r|].
  - destruct IH as (j & d & Hj & Hf & Ho). exists (S j), d. rewrite Nat.add_succ_r.
    split_and!; [done|done|]. intros [|j'] c' Hlt Hc'; [lia|]. rewrite Nat.add_succ_r.
    apply Ho; [lia|done].
  - destruct (f k c) as [r|] eqn:E.
    + exists 0%nat, c. rewrite Nat.add_0_r. split_and!; [done|done|].
      intros [|j'] c' Hlt Hc'; [lia|]. rewrite Nat.add_succ_r. by apply IH.
    + intros [|j] d Hd; [injection Hd as <-; by rewrite Nat.add_0_r|].
      rewrite Nat.add_succ_r. by apply IH.
Qed.

(** The largest key of some children of a branch, given that of each child. *)
Lemma largest_of_children (f : node -> nibbles -> option (nibbles * V)) a cs e h :
  Forall (fun c => forall e, is_max c (f c e) e) cs ->
  match rfind_imap (fun i c => f c (e ++ [i])) 0 (take h cs) with
  | None => forall i k, (i < h)%nat -> get (Branch a cs) (i :: k) = None
  | Some (p, v) => exists i k, (i < h)%nat /\ p = e ++ i :: k /\ get (Branch a cs) (i :: k) = Some v /\
      forall i' k' v', (i' < h)%nat -> get (Branch a cs) (i' :: k') = Some v' ->
        path_cmp (i' :: k') (i :: k) <> Gt
  end.
Proof.
  intros Hf. rewrite Forall_lookup in Hf.
  pose proof (rfind_imap_spec (fun i c => f c (e ++ [i])) (take h cs) 0) as Hr.
  assert (Hnone : forall i c k, cs !! i = Some c -> f c (e ++ [i]) = None -> get c k = None).
  { intros i c k Hc Hfc. pose proof (Hf i c Hc (e ++ [i])) as Hm. rewrite Hfc in Hm. apply Hm. }
  destruct (rfind_imap _ 0 (take h cs)) as [[p v]|].
  - destruct Hr as (i & c & Hc & Hfc & Ho). apply lookup_take_Some in Hc as [Hc Hi]. simpl in Hfc.
    pose proof (Hf i c Hc (e ++ [i])) as Hm. rewrite Hfc in Hm. destruct Hm as (k & -> & Hk & Hmax).
    exists i, k. cbn [get]. rewrite with_child_lookup, Hc. split_and!; [done|by rewrite <- app_assoc|done|].
    intros i' k' v'. rewrite with_child_lookup. intros Hi' Hg. destruct (cs !! i') as [c'|] eqn:Hc'; [|done].
    cbn [path_cmp]. destruct (Nat.compare_spec i' i) as [->|Hlt|Hgt]; [|done|].
    + rewrite Hc in Hc'. injection Hc' as <-. by eapply Hmax.
    + rewrite (Hnone i' c' k' Hc') in Hg; [done|]. apply (Ho i' c' Hgt). by apply lookup_take_Some.
  - intros i k Hi. cbn [get]. rewrite with_child_lookup. destruct (cs !! i) as [c|] eqn:Hc; [|done].
    apply (Hnone i c k Hc). apply (Hr i c). by apply lookup_take_Some.
Qed.

Lemma find_largest_spec t : shape t -> forall e, is_max t (find_largest_key_in_subtree t e) e.
Proof.
  induction t as [|a w|a cs IH|a cp c IH|a w c IH] using node_ind'; intros Hs e;
    cbn [find_largest_key_in_subtree].
  - done.
  - exists []. rewrite app_nil_r. split_and!; [done|done|]. by intros [|].
  - inversion Hs as [| |? ? Hl Hcs| |]; subst.
    assert (Hf : Forall (fun c => forall e, is_max c (find_largest_key_in_subtree c e) e) cs).
    { rewrite Forall_lookup in *. eauto. }
    pose proof (largest_of_children find_largest_key_in_subtree a cs e 16 Hf) as Hm.
    rewrite take_ge in Hm by lia.
    assert (Hin : forall i k, is_Some (get (Branch a cs) (i :: k)) -> (i < 16)%nat).
    { intros i k Hk. cbn [get] in Hk. rewrite with_child_lookup in Hk.
      destruct (cs !! i) eqn:Hi; [apply lookup_lt_Some in Hi; lia|by destruct Hk]. }
    destruct (rfind_imap _ 0 cs) as [[p v]|].
    + destruct Hm as (i & k & _ & -> & Hk & Hmax). exists (i :: k). split_and!; [done|done|].
      intros [|i' k'] v' Hg; [done|]. eapply Hmax; [by apply (Hin i' k')|done].
    + intros [|i k]; [done|]. destruct (get (Branch a cs) (i :: k)) eqn:Hg; [|done].
      rewrite Hm in Hg; [done|]. apply (Hin i k). rewrite Hg. eauto.
  - inversion Hs; subst. specialize (IH ltac:(done) (e ++ cp)).
    destruct (find_largest_key_in_subtree c (e ++ cp)) as [[p v]|].
    + destruct IH as (k & -> & Hk & Hmax). exists (cp ++ k). cbn [get]. rewrite strip_app.
      split_and!; [by rewrite app_assoc|done|]. intros k' v'. destruct (strip cp k') eqn:E; [|done].
      apply strip_Some in E as ->. rewrite path_cmp_app. apply Hmax.
    + intros k. cbn [get]. by destruct (strip cp k).
  - inversion Hs; subst. specialize (IH ltac:(done) e).
    destruct (find_largest_key_in_subtree c e) as [[p v]|].
    + destruct IH as (k & -> & Hk & Hmax). destruct k as [|x k]; [by rewrite get_inner_nil in Hk|].
      exists (x :: k). split_and!; [done|done|]. intros [|y k'] v' Hg; [done|]. by eapply Hmax.
    + exists []. rewrite app_nil_r. split_and!; [done|done|]. intros [|y k'] v' Hg; [done|].
      cbn [get] in Hg. by rewrite IH in Hg.
Qed.

(** All keys have the same length. *)
Definition uniform (n : nat) t : Prop := forall k, is_Some (get t k) -> length k = n.

Lemma uniform_child n a cs i c : uniform (S n) (Branch a cs) -> cs !! i = Some c -> uniform n c.
Proof.
  intros Hu Hc k Hk. specialize (Hu (i :: k)). cbn [get] in Hu. rewrite with_child_lookup, Hc in Hu.
  specialize (Hu Hk). simpl in Hu. lia.
Qed.

Lemma pred_branch a cs e h rest r :
  shape (Branch a cs) -> (h < 16)%nat ->
  (forall c, cs !! h = Some c -> is_pred c rest r (e ++ [h])) ->
  is_pred (Branch a cs) (h :: rest)
    (match r with
     | Some r => Some r
     | None => rfind_imap (fun i c => find_largest_key_in_subtree c (e ++ [i])) 0 (take h cs)
     end) e.
Proof.
  intros Hs Hh Hc. inversion Hs as [| |? ? Hl Hcs| |]; subst.
  destruct (child_lookup cs h Hl Hh) as [c Hch]. specialize (Hc c Hch).
  destruct r as [[p v]|].
  - destruct Hc as (k & -> & Hk & Hlt & Hmax). exists (h :: k). cbn [get path_cmp].
    rewrite with_child_lookup, Hch, Nat.compare_refl. split_and!; [by rewrite <- app_assoc|done|done|].
    intros [|i k'] v' Hg; [done|]. rewrite with_child_lookup in Hg. cbn [path_cmp].
    destruct (Nat.compare_spec i h) as [->|Hlt'|Hgt]; [|done|done].
    rewrite Hch in Hg. by eapply Hmax.
  - assert (Hf : Forall (fun c => forall e, is_max c (find_largest_key_in_subtree c e) e) cs).
    { eapply Forall_impl; [exact Hcs|]. intros d Hd. by apply find_largest_spec. }
    pose proof (largest_of_children find_largest_key_in_subtree a cs e h Hf) as Hm.
    assert (Hlow : forall i k v', get (Branch a cs) (i :: k) = Some v' ->
      path_cmp (i :: k) (h :: rest) = Lt -> (i < h)%nat).
    { intros i k v' Hg. cbn [path_cmp]. destruct (Nat.compare_spec i h) as [->|Hlt|Hgt]; [|done|done].
      cbn [get] in Hg. rewrite with_child_lookup, Hch in Hg. intros Hlt. by destruct (Hc k v' Hg). }
    destruct (rfind_imap _ 0 (take h cs)) as [[p v]|].
    + destruct Hm as (i & k & Hi & -> & Hk & Hmax). exists (i :: k). split_and!; [done|done| |].
      * cbn [path_cmp]. by destruct (Nat.compare_spec i h); [lia|..|lia].
      * intros [|i' k'] v' Hg Hlt; [done|]. eapply Hmax; [by eapply Hlow|done].
    + intros [|i k] v Hg Hlt; [done|]. rewrite Hm in Hg; [done|]. by eapply Hlow.
Qed.

Lemma path_remaining_eq (e target : nibbles) :
  (if (length e <=? length (e ++ target))%nat then drop (length e) (e ++ target) else []) = target.
Proof.
  rewrite length_app, drop_app_length. destruct (Nat.leb_spec (length e) (length e + length target)); [done|lia].
Qed.

Lemma pred_extension a cp c n e target :
  canon (Extension a cp c) -> uniform n (Extension a cp c) -> length target = n -> nibbles_ok target ->
  (forall n e target, uniform n c -> length target = n -> nibbles_ok target ->
     exists r, find_predecessor_recursive c (e ++ target) e None = Ret r /\ is_pred c target r e) ->
  exists r, find_predecessor_recursive (Extension a cp c) (e ++ target) e None = Ret r /\
    is_pred (Extension a cp c) target r e.
Proof.
  intros Hc Hu Hl Hn IH. pose proof (canon_shape _ Hc) as Hs.
  inversion Hc as [| | |? ? Hp Hlp Hnp Hcc He Hx|]; subst.
  destruct (canon_has_key c Hcc He) as [k0 Hk0].
  assert (Hlen : forall k, is_Some (get c k) -> (length cp + length k)%nat = length target).
  { intros k Hk. rewrite <- length_app. apply Hu. cbn [get]. by rewrite strip_app. }
  pose proof (Hlen k0 Hk0) as Hlen0. cbn [find_predecessor_recursive]. cbv zeta. rewrite path_remaining_eq.
  destruct target as [|y0 target0] eqn:Et; [destruct cp; [done|simpl in Hlen0; lia]|]. rewrite <- Et in *. clear Et.
  destruct (common_len_split cp target) as [[-> [r ->]]|(l & x & a2 & -> & -> & Hpart)].
  - rewrite Nat.eqb_refl, app_assoc. rewrite length_app in Hlen, Hlen0.
    destruct (IH (length r) (e ++ cp) r) as (res & -> & Hres); [|done|by apply nibbles_ok_app in Hn as [_ ?]|].
    { intros k Hk. specialize (Hlen k Hk). lia. }
    exists res. split; [done|]. destruct res as [[q v]|].
    + destruct Hres as (k & -> & Hk & Hlt & Hmax). exists (cp ++ k). cbn [get]. rewrite strip_app, path_cmp_app.
      split_and!; [by rewrite app_assoc|done|done|]. intros k' v' Hg. destruct (strip cp k') eqn:E; [|done].
      apply strip_Some in E as ->. rewrite !path_cmp_app. by eapply Hmax.
    + intros k v Hg. cbn [get] in Hg. destruct (strip cp k) eqn:E; [|done].
      apply strip_Some in E as ->. rewrite path_cmp_app. by eapply Hres.
  - replace (length l =? length (l ++ x :: a2))%nat with false
      by (symmetry; apply Nat.eqb_neq; rewrite length_app; simpl; lia).
    destruct Hpart as [->|(y & b2 & -> & Hne)].
    { exfalso. rewrite length_app in Hlen0. simpl in Hlen0. lia. }
    rewrite !list_lookup_middle by done. cbn [expect mbind outcome_bind].
    assert (Hcmp : forall k v, get (Extension (node_ann c) (l ++ x :: a2) c) k = Some v ->
      path_cmp k (l ++ y :: b2) = (x ?= y)%nat).
    { intros k v Hg. cbn [get] in Hg. destruct (strip _ k) eqn:E; [|done]. apply strip_Some in E as ->.
      rewrite <- app_assoc, path_cmp_app. simpl. by destruct (Nat.compare_spec x y). }
    destruct (Nat.ltb_spec x y) as [Hxy|Hxy].
    + pose proof (find_largest_spec _ Hs e) as Hm. apply Nat.compare_lt_iff in Hxy.
      destruct (find_largest_key_in_subtree _ e) as [[q v]|]; eexists; (split; [done|]).
      * destruct Hm as (k & -> & Hk & Hmax). exists k. split_and!; [done|done| |].
        -- by rewrite (Hcmp k v Hk).
        -- intros k' v' Hg _. by eapply Hmax.
      * intros k v Hg. by rewrite Hm in Hg.
    + exists None. split; [done|]. intros k v Hg. rewrite (Hcmp k v Hg).
      by destruct (Nat.compare_spec x y); [|lia|].
Qed.

Lemma find_predecessor_spec t : forall n e target,
  canon t -> uniform n t -> length target = n -> nibbles_ok target ->
  exists r, find_predecessor_recursive t (e ++ target) e None = Ret r /\ is_pred t target r e.
Proof.
  induction t as [|a w|a cs IH|a cp c IH|a w c IH] using node_ind'; intros n e target Hc Hu Hl Hn.
  - exists None. split; [|done]. cbn [find_predecessor_recursive]. cbv zeta.
    rewrite path_remaining_eq. by destruct target.
  - assert (Hn0 : length ([] : nibbles) = n) by (apply Hu; simpl; eauto).
    destruct target; [|simpl in *; lia]. exists None. split.
    + cbn [find_predecessor_recursive]. cbv zeta. by rewrite path_remaining_eq.
    + by intros [|].
  - cbn [find_predecessor_recursive]. cbv zeta. rewrite path_remaining_eq.
    destruct target as [|h rest]; [exists None; split; [done|by intros [|]]|].
    pose proof Hn as [Hh Hn']%nibbles_ok_cons. pose proof (canon_shape _ Hc) as Hs.
    inversion Hc as [| |? Hl16 Hcs Hcount| |]; subst.
    destruct (child_lookup cs h Hl16 Hh) as [c Hch]. rewrite with_child_lookup, Hch.
    rewrite Forall_lookup in IH, Hcs.
    assert (Hres : exists r, (if is_empty c then mret None
        else find_predecessor_recursive c (e ++ h :: rest) (e ++ [h]) None) = Ret r /\
      is_pred c rest r (e ++ [h])).
    { destruct (is_empty c) eqn:Ee; [exists None; split; [done|by destruct c]|].
      replace (e ++ h :: rest) with ((e ++ [h]) ++ rest) by (by rewrite <- app_assoc).
      apply (IH h c Hch (length rest)); [by eauto|by eapply uniform_child|done|done]. }
    destruct Hres as (r & -> & Hr). cbn [mbind outcome_bind].
    pose proof (pred_branch (sum_children cs) cs e h rest r Hs Hh) as Hp.
    destruct r as [r|]; (eexists; split; [done|]).
    + apply Hp. intros c' Hc'. rewrite Hch in Hc'. by injection Hc' as <-.
    + assert (Hbest : forall o : option (nibbles * V), update_best None o = o) by (by intros [|]).
      rewrite Hbest. apply Hp. intros c' Hc'. rewrite Hch in Hc'. by injection Hc' as <-.
  - eapply pred_extension; [done|done|done|done|]. inversion Hc; subst. intros. by eapply IH.
  - exfalso. inversion Hc as [| | | |? ? Hi Hcc]; subst.
    assert (Hn0 : length ([] : nibbles) = length target) by (apply Hu; simpl; eauto).
    destruct (canon_has_key c Hcc) as [[|x k] Hk]; [by destruct c|rewrite inner_not_nil in Hk by done; by destruct Hk|].
    specialize (Hu (x :: k) Hk). simpl in *. lia.
Qed.

(** *** Facts for the theorems below *)

Lemma get_nibbles t : shape t -> forall q, is_Some (get t q) -> nibbles_ok q.
Proof.
  induction t as [|a w|a cs IH|a cp c IH|a w c IH] using node_ind'; intros Hs q Hq;
    inversion Hs as [| |? ? Hl Hcs|? ? ? Hp Hl Hn Hc|? ? ? Hi Hc]; subst; cbn [get] in Hq.
  - by destruct Hq.
  - destruct q; [constructor|by destruct Hq].
  - destruct q as [|i q]; [by destruct Hq|]. rewrite with_child_lookup in Hq.
    destruct (cs !! i) as [c|] eqn:Hc; [|by destruct Hq]. rewrite Forall_lookup in *.
    apply nibbles_ok_cons. split; [apply lookup_lt_Some in Hc; lia|by eapply IH; eauto].
  - destruct (strip cp q) as [r|] eqn:E; [|by destruct Hq]. apply strip_Some in E as ->.
    apply nibbles_ok_app. split; [done|by apply IH].
  - destruct q; [constructor|by apply IH].
Qed.

Lemma ends_in_branch_key t : canon t -> forall p,
  ends_in_branch t p = true -> exists r, r <> [] /\ is_Some (get t (p ++ r)).
Proof.
  induction t as [|a w|a cs IH|a cp c IH|a w c IH] using node_ind'; intros Hc p Hp; try done.
  - destruct p as [|i p].
    + destruct (branch_two_heads a cs Hc) as (x & _ & k & _ & _ & Hk & _). by exists (x :: k).
    + cbn [ends_in_branch] in Hp. rewrite with_child_lookup in Hp.
      destruct (cs !! i) as [c|] eqn:Hci; [|done]. inversion Hc; subst. rewrite Forall_lookup in *.
      destruct (IH i c Hci ltac:(eauto) p Hp) as (r & Hr & Hg). exists r. split; [done|].
      simpl. by rewrite with_child_lookup, Hci.
  - cbn [ends_in_branch] in Hp. destruct (strip cp p) as [q|] eqn:E; [|done]. inversion Hc; subst.
    apply strip_Some in E as ->. destruct (IH ltac:(done) q Hp) as (r & Hr & Hg). exists r. split; [done|].
    cbn [get]. by rewrite <- app_assoc, strip_app.
  - destruct p as [|i p]; [done|]. inversion Hc; subst. by apply IH.
Qed.

(** Tries made from the empty one by the operations, where every inserted key has
    at most 255 nibbles and is not a proper prefix of a key that is present.  The
    code checks neither; its maps satisfy both with keys whose encodings have at
    most 127 bytes and are prefix free.  Without them the trie may leave its normal
    form: [insert_prefix_loses_normal_form], [insert_long_loses_normal_form]. *)
Inductive built : node -> Prop :=
| built_new : built Empty
| built_insert t p v t' o :
    built t -> nibbles_ok p -> (length p <= 255)%nat -> (forall r, r <> [] -> get t (p ++ r) = None) ->
    insert t p v = Ret (t', o) -> built t'
| built_remove t p t' o : built t -> nibbles_ok p -> remove t p = Ret (t', o) -> built t'
| built_prune t p t' o : built t -> nibbles_ok p -> prune t p = Ret (t', o) -> built t'.

Lemma built_canon t : built t -> canon t /\ key_bound 255 t.
Proof.
  induction 1 as [|t p v t' o _ [IH1 IH2] Hp Hl Hx E|t p t' o _ [IH1 IH2] Hp E|t p t' o _ [IH1 IH2] Hp E].
  - split; [constructor|]. by intros k [? ?].
  - split; [by eapply insert_canon|].
    destruct (insert_spec v t (canon_shape t IH1) p Hp) as (t2 & E2 & _ & _ & _ & Hg).
    rewrite E in E2. injection E2 as <- _. intros k Hk. rewrite Hg in Hk. case_decide; [by subst|by apply IH2].
  - split; [by eapply remove_canon|].
    pose proof (remove_spec t (canon_shape t IH1) p Hp) as Hr. unfold removes in Hr.
    destruct (ends_in_branch t p); [by rewrite Hr in E|]. destruct Hr as (t2 & E2 & Hr).
    rewrite E in E2. injection E2 as <- _. by eapply key_bound_removed.
  - split; [by eapply prune_canon|].
    destruct (prune_spec t (canon_shape t IH1) p Hp) as (t2 & rem & E2 & Hr).
    rewrite E in E2. injection E2 as <- _. by eapply key_bound_pruned.
Qed.
End Mpt.
Arguments node : clear implicits.

(** ** Packed paths *)

Fixpoint compress_nibbles (l : nibbles) : list Z :=
  match l with
  | [] => []
  | [a] => [Z.shiftl (Z.of_nat a) 4]
  | a :: b :: l' => Z.lor (Z.shiftl (Z.of_nat a) 4) (Z.of_nat b) :: compress_nibbles l'
  end.

(** The nibbles [i..i + n] of a packed path; too few bytes panic. *)
Fixpoint expand_from (compressed : list Z) (i n : nat) : panics nibbles :=
  match n with
  | O => mret []
  | S n' =>
      b ← expect (compressed !! (i / 2)%nat);
      let x := if (i mod 2 =? 0)%nat then Z.shiftr (Z.land b 240) 4 else Z.land b 15 in
      rest ← expand_from compressed (S i) n';
      mret (Z.to_nat x :: rest)
  end.

Definition expand_nibbles (compressed : list Z) (len : nat) : panics nibbles := expand_from compressed 0 len.

Lemma pack_unpack a b :
  (a < 16)%nat -> (b < 16)%nat ->
  let x := Z.lor (Z.shiftl (Z.of_nat a) 4) (Z.of_nat b) in
  Z.to_nat (Z.shiftr (Z.land x 240) 4) = a /\ Z.to_nat (Z.land x 15) = b.
Proof.
  intros Ha Hb. assert (H : forallb (fun a => forallb (fun b =>
    let x := Z.lor (Z.shiftl (Z.of_nat a) 4) (Z.of_nat b) in
    (Z.to_nat (Z.shiftr (Z.land x 240) 4) =? a)%nat && (Z.to_nat (Z.land x 15) =? b)%nat)
    (seq 0 16)) (seq 0 16) = true) by (vm_compute; reflexivity).
  rewrite forallb_forall in H. specialize (H a). rewrite forallb_forall in H.
  specialize (H ltac:(apply in_seq; lia) b ltac:(apply in_seq; lia)).
  apply andb_true_iff in H as [H1 H2]. by apply Nat.eqb_eq in H1, H2.
Qed.

(** Packing loses nothing. *)
Lemma expand_compress l : nibbles_ok l -> expand_nibbles (compress_nibbles l) (length l) = Ret l.
Proof.
  unfold expand_nibbles. assert (Hg : forall n l pre, (length l <= n)%nat -> nibbles_ok l ->
    expand_from (pre ++ compress_nibbles l) (2 * length pre) (length l) = Ret l).
  { induction n as [n IH] using lt_wf_ind. intros l' pre Hl Hn.
    assert (Hdiv : (2 * length pre / 2 = length pre)%nat) by (rewrite Nat.mul_comm; by apply Nat.div_mul).
    assert (Hmod : (2 * length pre mod 2 = 0)%nat) by (rewrite Nat.mul_comm; by apply Nat.Div0.mod_mul).
    destruct l' as [|a [|b l']]; [done| |].
    - apply nibbles_ok_cons in Hn as [Ha _]. cbn [compress_nibbles expand_from length].
      rewrite Hdiv, Hmod, list_lookup_middle by done. cbn [expect mbind outcome_bind mret outcome_ret Nat.eqb].
      destruct (pack_unpack a 0 Ha ltac:(lia)) as [H1 _]. rewrite Z.lor_0_r in H1. by rewrite H1.
    - apply nibbles_ok_cons in Hn as [Ha [Hb Hn]%nibbles_ok_cons].
      destruct (pack_unpack a b Ha Hb) as [H1 H2]. cbv zeta in H1, H2.
      cbn [compress_nibbles expand_from length]. set (x := Z.lor _ _) in *. clearbody x.
      assert (Hdiv' : (S (2 * length pre) / 2 = length pre)%nat).
      { replace (S (2 * length pre)) with (1 + length pre * 2)%nat by lia. rewrite Nat.div_add by lia. done. }
      assert (Hmod' : (S (2 * length pre) mod 2 = 1)%nat).
      { replace (S (2 * length pre)) with (1 + length pre * 2)%nat by lia. by rewrite Nat.Div0.mod_add. }
      rewrite Hdiv, Hdiv', Hmod, Hmod', list_lookup_middle by done.
      cbn [expect mbind outcome_bind mret outcome_ret Nat.eqb].
      replace (pre ++ x :: compress_nibbles l') with ((pre ++ [x]) ++ compress_nibbles l')
        by (by rewrite <- app_assoc).
      replace (S (S (2 * length pre))) with (2 * length (pre ++ [x]))%nat by (rewrite length_app; simpl; lia).
      simpl in Hl. rewrite (IH (length l')) by (done || lia). cbn [mbind outcome_bind]. by rewrite H1, H2. }
  intros Hn. apply (Hg (length l) l [] (le_n _) Hn).
Qed.

(** A packed path with fewer bytes than its length needs makes loading panic. *)
Lemma expand_short_panics : expand_nibbles [18%Z] 3 = Panic.
Proof. reflexivity. Qed.

(** ** Keys as paths ([storage/src/storage.rs]) *)

Definition byte_nibbles (b : Z) : nibbles :=
  [Z.to_nat (Z.shiftr (Z.land b 240) 4); Z.to_nat (Z.land b 15)].

Definition to_nibbles {K} (c : Codec K) (value : K) : nibbles := flat_map byte_nibbles (serialize c value).

(** The byte of a pair of nibbles. *)
Definition nibble_pair (pair : nibbles) : result ErrorKind Z :=
  match pair with
  | [hi; lo] => Ok (Z.lor (Z.shiftl (Z.of_nat hi) 4) (Z.of_nat lo))
  | _ => Err InvalidData
  end.

Fixpoint collect_res {E X} (l : list (result E X)) : result E (list X) :=
  match l with
  | [] => Ok []
  | r :: l' => x ← r; xs ← collect_res l'; Ok (x :: xs)
  end.

Definition from_nibbles {K} (c : Codec K) (value : nibbles) : result ErrorKind K :=
  if existsb (fun v => (16 <=? v)%nat) value then Err InvalidData
  else
    bytes ← collect_res (nibble_pair <$> chunks 2 value);
    '(k, _) ← deserialize c 0 bytes;
    Ok k.

Section Map.
Context {K V A : Type} `{!Annotation V A} (kc : Codec K).
Local Abbreviation Map := (node V A).

Definition Map_new : Map := Empty.
Definition Map_insert (self : Map) (key : K) (value : V) : panics Map :=
  '(t, _) ← insert self (to_nibbles kc key) value; mret t.
Definition Map_remove (self : Map) (key : K) : panics Map :=
  '(t, _) ← remove self (to_nibbles kc key); mret t.
Definition Map_get (self : Map) (key : K) : panics (option V) := lookup_with self (to_nibbles kc key).
Definition Map_contains_key (self : Map) (key : K) : panics bool :=
  r ← Map_get self key; mret (match r with Some _ => true | None => false end).
Definition Map_iter (self : Map) : list (K * V) :=
  omap (fun e => match from_nibbles kc e.1 with Ok key => Some (key, e.2) | Err _ => None end)
    (leaves self []).
Definition Map_is_empty (self : Map) : bool := is_empty self.
Definition Map_size (self : Map) : Z := node_size self.

(** The keys' encodings: lawful, and of at most 127 bytes. *)
Context (ok : K -> Prop) (levels : Z) `{!CodecLaws kc ok levels}.
Hypothesis levels_fit : (levels <= RECURSION_LIMIT)%Z.
Hypothesis keys_short : forall k, ok k -> (length (serialize kc k) <= 127)%nat.

Lemma byte_nibbles_inj b b' : is_byte b -> is_byte b' -> byte_nibbles b = byte_nibbles b' -> b = b'.
Proof.
  assert (Hb : forall x, is_byte x ->
    (16 * Z.of_nat (Z.to_nat (Z.shiftr (Z.land x 240) 4)) + Z.of_nat (Z.to_nat (Z.land x 15)))%Z = x)
    by solve_byte.
  intros H1 H2 [= E1 E2]. rewrite <- (Hb b H1), <- (Hb b' H2). lia.
Qed.

Lemma byte_nibbles_ok b : is_byte b -> nibbles_ok (byte_nibbles b).
Proof.
  intros Hb. assert (H1 : forall b, is_byte b ->
    ((Z.to_nat (Z.shiftr (Z.land b 240) 4) <? 16) && (Z.to_nat (Z.land b 15) <? 16))%nat%bool = true).
  { apply byte_forall. vm_compute. reflexivity. }
  apply H1, andb_true_iff in Hb as [H2 H3]. apply Nat.ltb_lt in H2, H3.
  constructor; [done|]. constructor; [done|constructor].
Qed.

Lemma flat_nibbles_prefix bs bs' r :
  bytes_ok bs -> bytes_ok bs' -> flat_map byte_nibbles bs' = flat_map byte_nibbles bs ++ r ->
  exists rest, bs' = bs ++ rest /\ r = flat_map byte_nibbles rest.
Proof.
  intros Hbs; revert bs'; induction Hbs as [|b bs Hb _ IH]; intros bs' Hbs' E; [by exists bs'|].
  destruct Hbs' as [|b' bs' Hb' Hbs']; [done|]. cbn [flat_map] in E. rewrite <- app_assoc in E.
  assert (Hp : byte_nibbles b' = byte_nibbles b /\ flat_map byte_nibbles bs' = flat_map byte_nibbles bs ++ r).
  { cbn [byte_nibbles app] in E. injection E as E1 E2 E3.
    split; [unfold byte_nibbles; by rewrite E1, E2|exact E3]. }
  destruct Hp as [Hp E']. apply byte_nibbles_inj in Hp as ->; [|done..].
  destruct (IH bs' Hbs' E') as (rest & -> & ->). by exists rest.
Qed.

Lemma to_nibbles_ok k : ok k -> nibbles_ok (to_nibbles kc k) /\ (length (to_nibbles kc k) <= 255)%nat.
Proof.
  intros Hk. pose proof (law_bytes k Hk) as Hb. specialize (keys_short k Hk). unfold to_nibbles. split.
  - clear keys_short. induction Hb as [|b bs Hb _ IH]; [constructor|]. cbn [flat_map]. apply nibbles_ok_app.
    split; [by apply byte_nibbles_ok|done].
  - assert (Hl : length (flat_map byte_nibbles (serialize kc k)) = (2 * length (serialize kc k))%nat).
    { clear. induction (serialize kc k) as [|b bs IH]; [done|]. cbn [flat_map].
      rewrite length_app, IH. simpl. lia. }
    lia.
Qed.

(** No key's path extends another's. *)
Lemma to_nibbles_prefix k k' r :
  ok k -> ok k' -> to_nibbles kc k' = to_nibbles kc k ++ r -> k' = k /\ r = [].
Proof.
  intros Hk Hk' E. pose proof (law_bytes k Hk) as Hb. pose proof (law_bytes k' Hk') as Hb'.
  destruct (flat_nibbles_prefix _ _ _ Hb Hb' E) as (rest & Es & ->).
  assert (Hlev : (0 + levels <= RECURSION_LIMIT)%Z) by done.
  pose proof (law_roundtrip 0 k rest Hk Hlev) as R1.
  pose proof (law_roundtrip 0 k' [] Hk' Hlev ltac:(constructor)) as R2.
  rewrite app_nil_r, Es, R1 in R2; [by injection R2 as -> ->|].
  rewrite Es in Hb'. by apply Forall_app in Hb' as [_ ?].
Qed.

(** A map: a normal form whose paths are keys. *)
Definition Map_ok (m : Map) : Prop :=
  canon m /\ forall p, is_Some (get m p) -> exists k, ok k /\ p = to_nibbles kc k.

Lemma Map_key_bound m : Map_ok m -> key_bound 255 m.
Proof. intros [_ Hk] p (k & Ho & ->)%Hk. by apply to_nibbles_ok. Qed.

Lemma Map_no_extension m k r : Map_ok m -> ok k -> r <> [] -> get m (to_nibbles kc k ++ r) = None.
Proof.
  intros [_ Hk] Ho Hr. destruct (get m (to_nibbles kc k ++ r)) eqn:E; [|done].
  destruct (Hk (to_nibbles kc k ++ r)) as (k' & Ho' & E'); [by rewrite E|].
  symmetry in E'. apply to_nibbles_prefix in E' as [_ ?]; done.
Qed.

Lemma Map_get_spec m k : Map_ok m -> ok k -> Map_get m k = Ret (get m (to_nibbles kc k)).
Proof.
  intros [Hc _] Ho. apply lookup_with_get; [by apply canon_shape|by apply to_nibbles_ok].
Qed.

Lemma Map_insert_spec m k v :
  Map_ok m -> ok k -> exists m', Map_insert m k v = Ret m' /\ Map_ok m' /\
    forall q, get m' q = if decide (q = to_nibbles kc k) then Some v else get m q.
Proof.
  intros Hm Ho. destruct (to_nibbles_ok k Ho) as [Hn Hl]. pose proof Hm as [Hc Hk].
  destruct (insert_spec v m (canon_shape m Hc) _ Hn) as (m' & E & _ & _ & _ & Hg).
  exists m'. unfold Map_insert. rewrite E. split; [done|]. split; [|done]. split.
  - eapply insert_canon; [exact Hc|by apply Map_key_bound|done|exact Hn|done| |exact E].
    intros r Hr. by apply Map_no_extension.
  - intros p Hp. rewrite Hg in Hp. case_decide; [eauto|by apply Hk].
Qed.

Lemma Map_remove_spec m k :
  Map_ok m -> ok k -> exists m', Map_remove m k = Ret m' /\ Map_ok m' /\
    forall q, get m' q = if decide (q = to_nibbles kc k) then None else get m q.
Proof.
  intros Hm Ho. destruct (to_nibbles_ok k Ho) as [Hn Hl]. pose proof Hm as [Hc Hk].
  pose proof (remove_spec m (canon_shape m Hc) _ Hn) as Hr. unfold removes in Hr.
  destruct (ends_in_branch m (to_nibbles kc k)) eqn:Eb.
  { destruct (ends_in_branch_key m Hc _ Eb) as (r & Hr' & Hg).
    rewrite Map_no_extension in Hg by done. by destruct Hg. }
  destruct Hr as (m' & E & Hr). exists m'. unfold Map_remove. rewrite E. split; [done|].
  split; [|apply Hr]. split.
  - eapply remove_canon; [exact Hc|by apply Map_key_bound|done|exact Hn|exact E].
  - intros p Hp. destruct Hr as (_ & _ & Hg). rewrite Hg in Hp. case_decide; [by destruct Hp|by apply Hk].
Qed.
End Map.

(** ** Properties *)

Section properties.
Context {V A : Type} `{!Annotation V A}.
Implicit Types t : node V A.

(** Insert and lookup: inserting at any path of nibbles succeeds, returns
    what a lookup found there before, and afterwards lookups find the new value
    at that path and what they found before at all others; the shape of the
    trie is kept. *)
Theorem mpt_insert_lookup t (p : nibbles) (v : V) :
  shape t -> nibbles_ok p ->
  exists t' old, insert t p v = Ret (t', old) /\ lookup_with t p = Ret old /\ shape t' /\
    forall q, nibbles_ok q ->
      lookup_with t' q = if decide (q = p) then Ret (Some v) else lookup_with t q.
Proof.
  intros Hs Hp. destruct (insert_spec v t Hs p Hp) as (t' & E & Hs' & _ & _ & Hg).
  exists t', (get t p). split_and!; [done|by apply lookup_with_get|done|].
  intros q Hq. rewrite !lookup_with_get by done. rewrite Hg. by case_decide.
Qed.

(** Remove and lookup: removing at a path returns what a lookup found there,
    and afterwards lookups find nothing there and what they found before at all
    other paths; the only exception is a path that ends at a branch, where the
    call panics. *)
Theorem mpt_remove_lookup t (p : nibbles) :
  shape t -> nibbles_ok p ->
  if ends_in_branch t p then remove t p = Panic
  else exists t' old, remove t p = Ret (t', old) /\ lookup_with t p = Ret old /\ shape t' /\
    forall q, nibbles_ok q ->
      lookup_with t' q = if decide (q = p) then Ret None else lookup_with t q.
Proof.
  intros Hs Hp. pose proof (remove_spec t Hs p Hp) as Hr. unfold removes in Hr.
  destruct (ends_in_branch t p); [done|]. destruct Hr as (t' & E & Hs' & _ & Hg).
  exists t', (get t p). split_and!; [done|by apply lookup_with_get|done|].
  intros q Hq. rewrite !lookup_with_get by done. rewrite Hg. by case_decide.
Qed.

(** Pruning splits a trie at a path: it succeeds, lookups afterwards find
    nothing before the path in lexicographic order and what they found before
    from it on, and the returned values are those of the removed entries. *)
Theorem mpt_prune_splits t (target : nibbles) :
  shape t -> nibbles_ok target ->
  exists t' removed, prune t target = Ret (t', removed) /\ shape t' /\
    (forall q, nibbles_ok q ->
       lookup_with t' q = if path_ltb q target then Ret None else lookup_with t q) /\
    removed ≡ₚ (filter (fun e => path_ltb e.1 target = true) (leaves t [])).*2 /\
    (forall q v, (q, v) ∈ leaves t [] <-> nibbles_ok q /\ lookup_with t q = Ret (Some v)).
Proof.
  intros Hs Hp. destruct (prune_spec t Hs target Hp) as (t' & removed & E & Hs' & Hg & Hr).
  exists t', removed. split_and!; [done|done| |done|].
  - intros q Hq. rewrite !lookup_with_get by done. rewrite Hg. by destruct (path_ltb _ _).
  - intros q v. rewrite elem_of_leaves by done. split.
    + intros Hq. assert (Hn : nibbles_ok q) by (eapply get_nibbles; [exact Hs|by rewrite Hq]).
      split; [done|]. by rewrite lookup_with_get, Hq.
    + intros [Hq E']. rewrite lookup_with_get in E' by done. by injection E'.
Qed.

(** Predecessors: in a trie whose keys all have the length of the target, the
    search does not panic and finds the entry with the largest key before the
    target, or nothing if there is none. *)
Theorem mpt_predecessor t (n : nat) (target : nibbles) :
  built t -> uniform n t -> length target = n -> nibbles_ok target ->
  exists r, find_predecessor t target = Ret r /\
    match r with
    | None => forall k v, lookup_with t k = Ret (Some v) -> nibbles_ok k -> path_ltb k target = false
    | Some (k, v) => lookup_with t k = Ret (Some v) /\ path_ltb k target = true /\
        forall k' v', nibbles_ok k' -> lookup_with t k' = Ret (Some v') -> path_ltb k' target = true ->
          path_cmp k' k <> Gt
    end.
Proof.
  intros Hb Hu Hl Hn. destruct (built_canon t Hb) as [Hc _]. pose proof (canon_shape t Hc) as Hs.
  assert (Hlk : forall k v, nibbles_ok k -> lookup_with t k = Ret (Some v) -> get t k = Some v).
  { intros k v Hk E. rewrite lookup_with_get in E by done. by injection E. }
  destruct (find_predecessor_spec t n [] target Hc Hu Hl Hn) as (r & E & Hr).
  exists r. split; [exact E|]. unfold path_ltb. destruct r as [[p v]|].
  - destruct Hr as (k & -> & Hk & Hlt & Hmax). simpl. rewrite Hlt. split_and!; [|done|].
    + rewrite lookup_with_get, Hk; [done|done|]. eapply get_nibbles; [exact Hs|by rewrite Hk].
    + intros k' v' Hk' E' Hlt'. eapply Hmax; [by apply Hlk|]. by destruct (path_cmp k' target).
  - intros k v E' Hk. specialize (Hr k v (Hlk k v Hk E')). by destruct (path_cmp k target).
Qed.

(** C38. Tries do not remember their history: two tries made by insertions,
    removals and prunings, where each inserted key has at most 255 nibbles and is
    not a proper prefix of a key present at the time, and in which lookups find
    the same values, are the same trie; its nodes pass the checks made on
    loading, and its recorded size is the number of its entries.  Both conditions
    on insertions are needed ([insert_prefix_loses_normal_form],
    [insert_long_loses_normal_form]); the ledger's keys meet them. *)
Theorem mpt_history_independent `{!EqDecision A} t t' :
  built t -> built t' -> (forall q, nibbles_ok q -> lookup_with t q = lookup_with t' q) ->
  t = t' /\ check_invariant t = Ok tt /\ sum_ann t = Ok (node_ann t) /\
  node_size t = Z.of_nat (length (leaves t [])).
Proof.
  intros Hb Hb' Hl. destruct (built_canon t Hb) as [Hc _], (built_canon t' Hb') as [Hc' _].
  pose proof (canon_shape t Hc) as Hs. pose proof (canon_shape t' Hc') as Hs'.
  split_and!; [|by apply canon_check|by apply canon_sum_ann|].
  - apply canon_unique; [done..|]. intros q. destruct (decide (nibbles_ok q)) as [Hq|Hq].
    + specialize (Hl q Hq). rewrite !lookup_with_get in Hl by done. by injection Hl.
    + destruct (get t q) eqn:E1; [destruct Hq; eapply get_nibbles; [exact Hs|by rewrite E1]|].
      destruct (get t' q) eqn:E2; [destruct Hq; eapply get_nibbles; [exact Hs'|by rewrite E2]|done].
  - rewrite (proj2 (canon_size t Hc)). by apply canon_size.
Qed.
End properties.

(** Maps refine finite maps: with lawful key encodings of at most 127 bytes,
    insertion, removal and lookup never panic and act on the looked-up values
    as on a finite map, the map stays in normal form, and two maps with the same
    values are the same. *)
Theorem map_refines {K V A} `{!EqDecision K} `{!Annotation V A} (kc : Codec K) (ok : K -> Prop)
  (levels : Z) `{!CodecLaws kc ok levels} (m m2 : node V A) (k : K) (v : V) :
  (levels <= RECURSION_LIMIT)%Z -> (forall k, ok k -> (length (serialize kc k) <= 127)%nat) ->
  Map_ok kc ok m -> Map_ok kc ok m2 -> ok k ->
  (exists m', Map_insert kc m k v = Ret m' /\ Map_ok kc ok m' /\
     forall k', ok k' -> Map_get kc m' k' = if decide (k' = k) then Ret (Some v) else Map_get kc m k') /\
  (exists m', Map_remove kc m k = Ret m' /\ Map_ok kc ok m' /\
     forall k', ok k' -> Map_get kc m' k' = if decide (k' = k) then Ret None else Map_get kc m k') /\
  ((forall k', ok k' -> Map_get kc m k' = Map_get kc m2 k') -> m = m2).
Proof.
  intros Hlev Hshort Hm Hm2 Hk.
  assert (Hinj : forall k', ok k' -> to_nibbles kc k' = to_nibbles kc k <-> k' = k).
  { intros k' Hk'. split; [|by intros ->]. intros E.
    apply (to_nibbles_prefix kc ok levels Hlev k k' []); [done..|]. by rewrite app_nil_r. }
  split_and!.
  - destruct (Map_insert_spec kc ok levels Hlev Hshort m k v Hm Hk) as (m' & E & Hm' & Hg).
    exists m'. split_and!; [done..|]. intros k' Hk'.
    rewrite !(Map_get_spec kc ok levels Hshort) by done. rewrite Hg.
    specialize (Hinj k' Hk'). do 2 case_decide; tauto.
  - destruct (Map_remove_spec kc ok levels Hlev Hshort m k Hm Hk) as (m' & E & Hm' & Hg).
    exists m'. split_and!; [done..|]. intros k' Hk'.
    rewrite !(Map_get_spec kc ok levels Hshort) by done. rewrite Hg.
    specialize (Hinj k' Hk'). do 2 case_decide; tauto.
  - intros Hg. destruct Hm as [Hc Hp], Hm2 as [Hc2 Hp2]. apply canon_unique; [done..|].
    assert (Hkey : forall k', ok k' -> get m (to_nibbles kc k') = get m2 (to_nibbles kc k')).
    { intros k' Hk'. specialize (Hg k' Hk').
      rewrite !(Map_get_spec kc ok levels Hshort) in Hg by done. by injection Hg. }
    intros q. destruct (get m q) eqn:E1.
    + destruct (Hp q) as (k' & Hk' & ->); [by rewrite E1|]. by rewrite <- E1, Hkey.
    + destruct (get m2 q) eqn:E2; [|done].
      destruct (Hp2 q) as (k' & Hk' & ->); [by rewrite E2|]. by rewrite <- E1, <- E2, Hkey.
Qed.

(** ** Examples *)

Module MptExample.
Abbreviation trie := (node Z Z).

Definition run (r : panics (trie * option Z)) : trie := match r with Ret (t, _) => t | _ => Empty end.
Definition ins (t : trie) (p : nibbles) (v : Z) : trie := run (insert t p v).

(** The tries of the code's own tests. *)
Definition t1 : trie := ins Empty [1; 2; 3]%nat 100.
Definition t2 : trie := ins t1 [1; 2; 4]%nat 104.
Definition t3 : trie := ins t2 [2; 2; 4]%nat 105.

Lemma ins_built t p v :
  built t -> nibbles_ok p -> (length p <= 255)%nat -> (forall r, r <> [] -> get t (p ++ r) = None) ->
  built (ins t p v).
Proof.
  intros Hb Hp Hl Hx. destruct (built_canon t Hb) as [Hc _].
  destruct (insert_spec v t (canon_shape t Hc) p Hp) as (t' & E & _).
  unfold ins. rewrite E. by eapply built_insert.
Qed.

Ltac build := apply ins_built; [|repeat constructor; lia|simpl; lia|intros r _; reflexivity].

Lemma t1_built : built t1.
Proof. build. apply built_new. Qed.

Lemma t2_built : built t2.
Proof. build. apply t1_built. Qed.

Lemma t2_shape : shape t2.
Proof. apply canon_shape. apply built_canon, t2_built. Qed.

(** The same entries, the other way round and with one too many. *)
Definition t2' : trie := run (remove (ins (ins (ins Empty [9]%nat 1) [1; 2; 4]%nat 104) [1; 2; 3]%nat 100) [9]%nat).

Lemma t2'_built : built t2'.
Proof.
  eapply (built_remove (ins (ins (ins Empty [9]%nat 1) [1; 2; 4]%nat 104) [1; 2; 3]%nat 100) [9]%nat);
    [|repeat constructor; lia|vm_compute; reflexivity].
  build. build. build. apply built_new.
Qed.
End MptExample.

Lemma mpt_insert_lookup_witness :
  lookup_with MptExample.t3 [1; 2; 4]%nat = Ret (Some 104%Z).
Proof.
  destruct (mpt_insert_lookup MptExample.t2 [2; 2; 4]%nat 105%Z) as (t' & old & E & _ & _ & L).
  - exact MptExample.t2_shape.
  - repeat constructor; lia.
  - assert (E' : insert MptExample.t2 [2; 2; 4]%nat 105%Z = Ret (MptExample.t3, None)) by (vm_compute; reflexivity).
    rewrite E' in E. injection E as <- _. rewrite L; [|repeat constructor; lia].
    rewrite decide_False by done. vm_compute. reflexivity.
Defined.

Lemma mpt_remove_lookup_witness :
  exists t' old, remove MptExample.t2 [1; 2; 3]%nat = Ret (t', old) /\
    lookup_with t' [1; 2; 4]%nat = Ret (Some 104%Z).
Proof.
  pose proof (mpt_remove_lookup MptExample.t2 [1; 2; 3]%nat) as H.
  replace (ends_in_branch MptExample.t2 [1; 2; 3]%nat) with false in H by (vm_compute; reflexivity).
  destruct H as (t' & old & E & _ & _ & L).
  - exact MptExample.t2_shape.
  - repeat constructor; lia.
  - exists t', old. split; [exact E|]. rewrite L; [|repeat constructor; lia].
    rewrite decide_False by done. vm_compute. reflexivity.
Defined.

Lemma mpt_prune_splits_witness :
  exists t' removed, prune MptExample.t2 [1; 2; 4]%nat = Ret (t', removed) /\
    lookup_with t' [1; 2; 4]%nat = Ret (Some 104%Z) /\ removed ≡ₚ [100%Z].
Proof.
  destruct (mpt_prune_splits MptExample.t2 [1; 2; 4]%nat) as (t' & removed & E & _ & L & R & _).
  - exact MptExample.t2_shape.
  - repeat constructor; lia.
  - exists t', removed. split; [exact E|]. split; [rewrite L; [vm_compute; reflexivity|repeat constructor; lia]|].
    rewrite R. vm_compute. reflexivity.
Defined.

Lemma mpt_predecessor_witness :
  exists r, find_predecessor MptExample.t2 [1; 2; 9]%nat = Ret r /\ r = Some ([1; 2; 4]%nat, 104%Z).
Proof.
  destruct (mpt_predecessor MptExample.t2 3 [1; 2; 9]%nat) as (r & E & _).
  - exact MptExample.t2_built.
  - intros k [v Hv]. apply (elem_of_leaves _ MptExample.t2_shape) in Hv. vm_compute in Hv.
    apply elem_of_cons in Hv as [[= -> _]|[[= -> _]|Hv]%elem_of_cons]; [done|done|].
    by apply not_elem_of_nil in Hv.
  - reflexivity.
  - repeat constructor; lia.
  - exists r. split; [exact E|].
    assert (E' : find_predecessor MptExample.t2 [1; 2; 9]%nat = Ret (Some ([1; 2; 4]%nat, 104%Z)))
      by (vm_compute; reflexivity).
    rewrite E' in E. by injection E as <-.
Defined.

Lemma mpt_history_independent_witness : MptExample.t2 = MptExample.t2' /\ node_size MptExample.t2 = 2%Z.
Proof.
  destruct (mpt_history_independent MptExample.t2 MptExample.t2') as (E & _ & _ & S).
  - exact MptExample.t2_built.
  - exact MptExample.t2'_built.
  - intros q _. replace MptExample.t2' with MptExample.t2 by (vm_compute; reflexivity). reflexivity.
  - split; [exact E|]. rewrite S. vm_compute. reflexivity.
Defined.

Lemma map_refines_witness :
  exists m', Map_insert u16_codec (Map_new : node Z Z) 7%Z 1%Z = Ret m' /\
    Map_get u16_codec m' 7%Z = Ret (Some 1%Z) /\ Map_get u16_codec m' 8%Z = Ret None.
Proof.
  assert (H0 : Map_ok u16_codec (in_u 16) (Map_new : node Z Z)).
  { split; [constructor|]. by intros p [? ?]. }
  destruct (map_refines u16_codec (in_u 16) 0 Map_new Map_new 7%Z 1%Z) as ((m' & E & _ & G) & _ & _).
  - vm_compute. congruence.
  - intros k Hk. simpl. lia.
  - exact H0.
  - exact H0.
  - split; vm_compute; congruence.
  - exists m'. split; [exact E|]. split; (rewrite G; [vm_compute; reflexivity|split; vm_compute; congruence]).
Defined.

(** ** Where the normal form is lost

    A key that extends no other but is extended: inserting [[1; 2]] after
    [[1; 2; 3]] leaves a branch with one child, which the check on loading
    refuses; in the other order the trie is another one. *)
Lemma insert_prefix_loses_normal_form :
  let t := MptExample.ins MptExample.t1 [1; 2]%nat 7 in
  let t' := MptExample.ins (MptExample.ins Empty [1; 2]%nat 7) [1; 2; 3]%nat 100 in
  (exists b cs, t = Extension 2%Z [1; 2]%nat (MidBranchLeaf 2%Z 7%Z (Branch b cs)) /\
     check_invariant (Branch b cs) = Err InvalidData) /\
  leaves t [] = leaves t' [] /\ t <> t'.
Proof.
  split; [|split; [vm_compute; reflexivity|vm_compute; congruence]].
  eexists _, _. split; vm_compute; reflexivity.
Qed.

(** Splitting an extension of more than 255 nibbles leaves an extension of other
    than 255 nibbles followed by an extension. *)
Lemma insert_long_loses_normal_form :
  exists a b cs c, MptExample.ins (MptExample.ins Empty (replicate 300 1%nat) 7) (replicate 10 1%nat ++ [2]%nat) 8
      = Extension a (replicate 10 1%nat) (Branch b cs) /\
    cs !! 1%nat = Some c /\ check_invariant c = Err InvalidData.
Proof. eexists _, _, _, _. split; [vm_compute; reflexivity|]. split; vm_compute; reflexivity. Qed.

(** Removing a path that ends at a branch panics. *)
Lemma remove_at_branch_panics : remove MptExample.t2 [1; 2]%nat = Panic.
Proof. vm_compute. reflexivity. Qed.

(** Searching before a target shorter than an extension's path panics. *)
Lemma find_predecessor_short_target_panics : find_predecessor MptExample.t1 [1]%nat = Panic.
Proof. vm_compute. reflexivity. Qed.
