(* ===== verification/Storage.v ===== *)
(** * Time and time-filtered maps

    [base-crypto/src/time.rs]: timestamps ([u64] seconds) and durations
    ([i128] seconds).  [storage/src/storage.rs]: multisets and the
    [TimeFilterMap] that the ledger keeps its past Merkle roots and the hashes
    of recent intents in.  Its map from seconds to containers is a finite map
    here; the last part shows that the trie with big-endian keys that the code
    uses does what the finite map does. *)

From S2P Require Import Prelude Serialize.
From S2P Require Mpt.
From stdpp Require Import gmap.

Local Open Scope Z_scope.

(** ** Timestamps and durations *)

Abbreviation Timestamp := Z (only parsing).
Abbreviation Duration := Z (only parsing).

Definition Timestamp_sub (self rhs : Timestamp) : Duration := self - rhs.

(** The magnitude of a negative duration, [u64::MAX] if it does not fit. *)
Definition neg_magnitude (d : Duration) : Z :=
  if d =? i_min 128 then u_max 64
  else if Z.abs d <=? u_max 64 then Z.abs d else u_max 64.

(** A non-negative duration is cast with [as u64]. *)
Definition Timestamp_add_duration (self : Timestamp) (rhs : Duration) : Timestamp :=
  if 0 <=? rhs then sat_add 64 self (wrap 64 rhs)
  else sat_sub self (neg_magnitude rhs).

Definition Timestamp_sub_duration (self : Timestamp) (rhs : Duration) : Timestamp :=
  if 0 <=? rhs then sat_sub self (wrap 64 rhs)
  else sat_add 64 self (neg_magnitude rhs).

Definition Duration_add (self rhs : Duration) : Duration := i_clamp 128 (self + rhs).
Definition Duration_sub (self rhs : Duration) : Duration := i_clamp 128 (self - rhs).

(** A duration of exactly [2^64] seconds adds nothing, while one second less
    saturates: the cast of a non-negative duration drops its high bits. *)
Lemma Timestamp_add_truncates t :
  in_u 64 t -> Timestamp_add_duration t (2 ^ 64) = t /\ Timestamp_add_duration t (2 ^ 64 - 1) = u_max 64.
Proof.
  unfold in_u, Timestamp_add_duration, sat_add, u_max. intros Ht.
  change (0 <=? 2 ^ 64) with true. change (0 <=? 2 ^ 64 - 1) with true.
  change (wrap 64 (2 ^ 64)) with 0. change (wrap 64 (2 ^ 64 - 1)) with (2 ^ 64 - 1). simpl. lia.
Qed.

(** ** Multisets *)

(** [MultiSet { elements: HashMap<V, u32> }]. *)
Abbreviation MultiSet V := (gmap V Z) (only parsing).

Section MultiSet.
Context {V : Type} `{Countable V}.
Implicit Types s other : MultiSet V.

Definition multiset_count (s : MultiSet V) (element : V) : Z := default 0 (s !! element).

Definition multiset_insert (s : MultiSet V) (element : V) : MultiSet V :=
  let current_count := default 0 (s !! element) in
  <[element := wrap 32 (current_count + 1)]> s.

Definition multiset_remove_n (s : MultiSet V) (element : V) (n : Z) : MultiSet V :=
  let current_count := default 0 (s !! element) in
  let result := default 0 (checked_sub current_count n) in
  if result =? 0 then delete element s else <[element := result]> s.

Definition multiset_remove (s : MultiSet V) (element : V) : MultiSet V :=
  multiset_remove_n s element 1.

Definition multiset_member (s : MultiSet V) (element : V) : bool :=
  bool_decide (is_Some (s !! element)).

Definition multiset_has_subset (s other : MultiSet V) : bool :=
  forallb (fun p => p.2 <=? multiset_count s p.1) (map_to_list other).

(** No element is kept with count zero. *)
Definition multiset_ok (s : MultiSet V) : Prop := map_Forall (fun _ n => 0 < n) s.

Lemma multiset_member_count s v :
  multiset_ok s -> multiset_member s v = (0 <? multiset_count s v).
Proof.
  intros Hs. unfold multiset_member, multiset_count. destruct (s !! v) as [n|] eqn:E; simpl.
  - specialize (Hs v n E). simpl in Hs. symmetry. by apply Z.ltb_lt.
  - done.
Qed.

Lemma multiset_insert_spec s v :
  multiset_ok s -> multiset_count s v < u_max 32 ->
  multiset_ok (multiset_insert s v) /\
  forall w, multiset_count (multiset_insert s v) w =
            multiset_count s w + if decide (w = v) then 1 else 0.
Proof.
  intros Hs Hc. unfold multiset_count, multiset_insert in *.
  assert (Hnn : 0 <= default 0 (s !! v)).
  { destruct (s !! v) as [n|] eqn:E; simpl; [|lia]. specialize (Hs v n E). simpl in Hs. lia. }
  unfold u_max in Hc. unfold wrap. rewrite Z.mod_small by lia. split.
  - apply map_Forall_insert_2; [lia|done].
  - intros w. destruct (decide (w = v)) as [->|].
    + by rewrite lookup_insert_eq.
    + rewrite lookup_insert_ne by done. lia.
Qed.

Lemma multiset_remove_spec s v :
  multiset_ok s ->
  multiset_ok (multiset_remove s v) /\
  forall w, multiset_count (multiset_remove s v) w =
            if decide (w = v) then Z.max 0 (multiset_count s w - 1) else multiset_count s w.
Proof.
  intros Hs. unfold multiset_count, multiset_remove, multiset_remove_n, checked_sub.
  set (n := default 0 (s !! v)).
  assert (Hr : default 0 (if 1 <=? n then Some (n - 1) else None) = Z.max 0 (n - 1)).
  { destruct (Z.leb_spec 1 n); simpl; lia. }
  cbv zeta. rewrite Hr. destruct (Z.eqb_spec (Z.max 0 (n - 1)) 0); split.
  - by apply map_Forall_delete.
  - intros w. destruct (decide (w = v)) as [->|].
    + rewrite lookup_delete_eq. fold n. simpl. lia.
    + by rewrite lookup_delete_ne by done.
  - apply map_Forall_insert_2; [lia|done].
  - intros w. destruct (decide (w = v)) as [->|].
    + by rewrite lookup_insert_eq.
    + by rewrite lookup_insert_ne by done.
Qed.
End MultiSet.

(** ** Containers *)

(** The trait [Container], with what its users rely on: a container built from
    one item holds that item. *)
Class Container (C V : Type) := {
  once : V -> C;
  iter_items : C -> list V;
  iter_items_once v : iter_items (once v) = [v]
}.

(** [Identity<V>], the container of exactly one item. *)
#[export] Instance Identity_container (V : Type) : Container V V := {
  once v := v;
  iter_items v := [v];
  iter_items_once v := eq_refl
}.

(** [HashSet<V>], with its items in the order of a listing. *)
#[export, refine] Instance HashSet_container (V : Type) `{Countable V} : Container (gset V) V := {
  once v := {[v]};
  iter_items s := elements s
}.
Proof. intros v. apply elements_singleton. Defined.

(** [Semigroup + Default], as [upsert] asks of a container; sets have their
    union. *)
Class Mergeable (C : Type) := { merge_default : C; merge_append : C -> C -> C }.

#[export] Instance HashSet_mergeable (V : Type) `{Countable V} : Mergeable (gset V) := {
  merge_default := ∅;
  merge_append s other := s ∪ other
}.

Section TimeFilterMap.
Context {C V : Type} `{Countable V} `{!Container C V}.

Record TimeFilterMap := mkTimeFilterMap {
  time_map : gmap Z C;
  tset : MultiSet V
}.

Definition TimeFilterMap_new : TimeFilterMap := mkTimeFilterMap ∅ ∅.

Definition multiset_remove_all (s : MultiSet V) (l : list V) : MultiSet V :=
  foldl multiset_remove s l.

Definition TimeFilterMap_insert (self : TimeFilterMap) (ts : Timestamp) (v : V) : TimeFilterMap :=
  let s := match time_map self !! ts with
           | Some x => multiset_remove_all (tset self) (iter_items x)
           | None => tset self
           end in
  mkTimeFilterMap (<[ts := once v]> (time_map self)) (multiset_insert s v).

Definition TimeFilterMap_upsert `{!Mergeable C} (self : TimeFilterMap) (ts : Timestamp) (v : C)
  : TimeFilterMap :=
  let xs := default merge_default (time_map self !! ts) in
  mkTimeFilterMap (<[ts := merge_append xs v]> (time_map self))
    (foldl multiset_insert (tset self) (iter_items v)).

Definition TimeFilterMap_upsert_one `{!Mergeable C} (self : TimeFilterMap) (ts : Timestamp) (v : V)
  : TimeFilterMap :=
  TimeFilterMap_upsert self ts (once v).

Definition TimeFilterMap_contains (self : TimeFilterMap) (v : V) : bool :=
  multiset_member (tset self) v.

Definition TimeFilterMap_contains_all (self : TimeFilterMap) (v : C) : bool :=
  forallb (multiset_member (tset self)) (iter_items v).

(** [MerklePatriciaTrie::prune]: the entries from the cutoff on, and the
    values of the ones before it. *)
Definition prune (m : gmap Z C) (cutoff : Timestamp) : gmap Z C * list C :=
  (filter (fun kv => cutoff <= kv.1) m,
   snd <$> map_to_list (filter (fun kv => ~ cutoff <= kv.1) m)).

Definition TimeFilterMap_filter (self : TimeFilterMap) (cutoff : Timestamp) : TimeFilterMap :=
  let '(new_map, removed) := prune (time_map self) cutoff in
  mkTimeFilterMap new_map
    (foldl (fun s items => multiset_remove_all s (iter_items items)) (tset self) removed).

(** [get]: the entry at the timestamp, or the latest one before it. *)
Definition find_predecessor (m : gmap Z C) (ts : Timestamp) : option (Z * C) :=
  foldr (fun p best => match best with
                       | Some q => if p.1 <? q.1 then Some q else Some p
                       | None => Some p
                       end) None
    (map_to_list (filter (fun kv => kv.1 < ts) m)).

Definition TimeFilterMap_get (self : TimeFilterMap) (ts : Timestamp) : option C :=
  match time_map self !! ts with
  | Some res => Some res
  | None => snd <$> find_predecessor (time_map self) ts
  end.

(** *** The multiset counts the items of all entries *)

Definition occ_items (v : V) (l : list V) : Z :=
  Z.of_nat (length (filter (fun w => w = v) l)).

Definition occ (v : V) (l : list C) : Z :=
  foldr (fun c n => occ_items v (iter_items c) + n) 0 l.

Definition entries_of (m : gmap Z C) : list C := snd <$> map_to_list m.

Definition tfm_ok (self : TimeFilterMap) : Prop :=
  multiset_ok (tset self) /\
  forall v, multiset_count (tset self) v = occ v (entries_of (time_map self)).

Lemma occ_cons v c l : occ v (c :: l) = occ_items v (iter_items c) + occ v l.
Proof. done. Qed.

Lemma occ_app v l1 l2 : occ v (l1 ++ l2) = occ v l1 + occ v l2.
Proof. induction l1 as [|c l1 IH]; simpl; [done|]. rewrite IH. lia. Qed.

#[global] Instance occ_perm v : Proper ((≡ₚ) ==> (=)) (occ v).
Proof.
  intros l1 l2 Hp. induction Hp as [|c l1 l2 _ IH|c c' l|l1 l2 l3 _ IH1 _ IH2]; simpl; lia.
Qed.

Lemma occ_nonneg v l : 0 <= occ v l.
Proof. induction l as [|c l IH]; simpl; [lia|]. unfold occ_items. lia. Qed.

Lemma occ_items_cons v w l :
  occ_items v (w :: l) = occ_items v l + if decide (v = w) then 1 else 0.
Proof.
  unfold occ_items. rewrite filter_cons.
  destruct (decide (w = v)), (decide (v = w)); try congruence; simpl; lia.
Qed.

Lemma occ_pos v l : 0 < occ v l <-> exists c, c ∈ l /\ v ∈ iter_items c.
Proof.
  assert (Hi : forall l', 0 < occ_items v l' <-> v ∈ l').
  { intros l'. induction l' as [|w l' IH].
    - split; [done|]. by intros ?%not_elem_of_nil.
    - rewrite occ_items_cons, elem_of_cons. assert (0 <= occ_items v l') by (unfold occ_items; lia).
      destruct (decide (v = w)); [split; [by left|lia]|].
      rewrite Z.add_0_r, IH. split; [by right|by intros [?|?]]. }
  induction l as [|c l IH]; simpl.
  - split; [lia|]. by intros (? & ?%not_elem_of_nil & _).
  - pose proof (occ_nonneg v l). assert (0 <= occ_items v (iter_items c)) by (unfold occ_items; lia).
    split.
    + intros Hp. destruct (decide (0 < occ_items v (iter_items c))) as [Hc|].
      * exists c. split; [by left|by apply Hi].
      * destruct (proj1 IH ltac:(lia)) as (c' & Hc' & Hv). exists c'. split; [by right|done].
    + intros (c' & [->|Hc']%elem_of_cons & Hv).
      * apply Hi in Hv. lia.
      * enough (0 < occ v l) by lia. apply IH. eauto.
Qed.

Lemma multiset_remove_all_spec s l :
  multiset_ok s -> (forall v, occ_items v l <= multiset_count s v) ->
  multiset_ok (multiset_remove_all s l) /\
  forall v, multiset_count (multiset_remove_all s l) v = multiset_count s v - occ_items v l.
Proof.
  revert s; induction l as [|w l IH]; intros s Hs Hle; simpl.
  - split; [done|]. intros v. unfold occ_items. simpl. lia.
  - destruct (multiset_remove_spec s w Hs) as [Hs' Hc].
    assert (Hge : 0 <= occ_items w l) by (unfold occ_items; lia).
    destruct (IH (multiset_remove s w) Hs') as [Hs'' Hc''].
    { intros v. rewrite Hc. specialize (Hle v). rewrite occ_items_cons in Hle.
      destruct (decide (v = w)); [subst; lia|lia]. }
    split; [done|]. intros v. rewrite Hc'', Hc, occ_items_cons.
    specialize (Hle v). rewrite occ_items_cons in Hle.
    destruct (decide (v = w)); [subst; lia|lia].
Qed.

Lemma entries_delete m ts x :
  m !! ts = Some x -> entries_of m ≡ₚ x :: entries_of (delete ts m).
Proof.
  intros Hx. unfold entries_of. rewrite <- (map_to_list_delete m ts x Hx). done.
Qed.

Lemma entries_insert m ts x :
  entries_of (<[ts := x]> m) ≡ₚ x :: entries_of (delete ts m).
Proof.
  rewrite (entries_delete (<[ts := x]> m) ts x) by apply lookup_insert_eq.
  by rewrite delete_insert_eq.
Qed.

(** Inserting replaces the entry at that time and keeps the counts right. *)
Lemma TimeFilterMap_insert_ok self ts v :
  tfm_ok self -> multiset_count (tset self) v < u_max 32 -> tfm_ok (TimeFilterMap_insert self ts v).
Proof.
  intros [Hs Hc] Hmax. unfold TimeFilterMap_insert.
  set (s := match time_map self !! ts with Some x => _ | None => _ end).
  assert (Hspec : multiset_ok s /\
    forall w, multiset_count s w = occ w (entries_of (delete ts (time_map self)))).
  { unfold s. destruct (time_map self !! ts) as [x|] eqn:E.
    - destruct (multiset_remove_all_spec (tset self) (iter_items x) Hs) as [Hs' Hc'].
      + intros w. rewrite Hc, (entries_delete _ _ _ E), occ_cons.
        pose proof (occ_nonneg w (entries_of (delete ts (time_map self)))). lia.
      + split; [done|]. intros w. rewrite Hc', Hc, (entries_delete _ _ _ E), occ_cons. lia.
    - split; [done|]. intros w. by rewrite delete_id. }
  clearbody s. destruct Hspec as [Hs' Hc'].
  assert (Hlt : multiset_count s v < u_max 32).
  { rewrite Hc' . rewrite Hc in Hmax. destruct (time_map self !! ts) as [x|] eqn:E.
    - rewrite (entries_delete _ _ _ E), occ_cons in Hmax.
      assert (0 <= occ_items v (iter_items x)) by (unfold occ_items; lia). lia.
    - by rewrite delete_id. }
  destruct (multiset_insert_spec s v Hs' Hlt) as [Hs'' Hc'']. split; [done|]. cbn [tset time_map].
  intros w. rewrite Hc'', Hc', entries_insert, occ_cons, iter_items_once, occ_items_cons.
  unfold occ_items at 1. simpl. lia.
Qed.

Lemma remove_entries_spec s l :
  multiset_ok s -> (forall v, occ v l <= multiset_count s v) ->
  let s' := foldl (fun s items => multiset_remove_all s (iter_items items)) s l in
  multiset_ok s' /\ forall v, multiset_count s' v = multiset_count s v - occ v l.
Proof.
  revert s; induction l as [|c l IH]; intros s Hs Hle; cbn [foldl].
  - split; [done|]. intros v. unfold occ. simpl. lia.
  - destruct (multiset_remove_all_spec s (iter_items c) Hs) as [Hs' Hc'].
    { intros v. specialize (Hle v). rewrite occ_cons in Hle. pose proof (occ_nonneg v l). lia. }
    destruct (IH _ Hs') as [Hs'' Hc''].
    { intros v. rewrite Hc'. specialize (Hle v). rewrite occ_cons in Hle. lia. }
    split; [done|]. intros v. rewrite Hc'', Hc', occ_cons. lia.
Qed.

Lemma prune_entries m cutoff :
  entries_of m ≡ₚ entries_of (prune m cutoff).1 ++ (prune m cutoff).2.
Proof.
  unfold prune, entries_of. cbn [fst snd]. rewrite <- fmap_app. apply fmap_Permutation.
  apply NoDup_Permutation; [apply NoDup_map_to_list| |].
  - apply NoDup_app. split_and!; [apply NoDup_map_to_list| |apply NoDup_map_to_list].
    intros [k x] [_ H1]%elem_of_map_to_list%map_lookup_filter_Some
      [_ H2]%elem_of_map_to_list%map_lookup_filter_Some. done.
  - intros [k x]. rewrite elem_of_app, !elem_of_map_to_list, !map_lookup_filter_Some. simpl.
    destruct (decide (cutoff <= k)); tauto.
Qed.

(** Filtering drops the entries before the cutoff and keeps the counts right. *)
Lemma TimeFilterMap_filter_ok self cutoff :
  tfm_ok self -> tfm_ok (TimeFilterMap_filter self cutoff).
Proof.
  intros [Hs Hc]. pose proof (prune_entries (time_map self) cutoff) as Hp.
  unfold TimeFilterMap_filter. destruct (prune (time_map self) cutoff) as [new_map removed].
  cbn [fst snd] in Hp.
  destruct (remove_entries_spec (tset self) removed Hs) as [Hs' Hc'].
  { intros v. rewrite Hc, Hp, occ_app. pose proof (occ_nonneg v (entries_of new_map)). lia. }
  split; [done|]. cbn [tset time_map]. intros v. rewrite Hc', Hc, Hp, occ_app. lia.
Qed.

Lemma elem_of_entries m c : c ∈ entries_of m <-> exists ts, m !! ts = Some c.
Proof.
  unfold entries_of. rewrite list_elem_of_fmap. split.
  - intros ([ts c'] & -> & Hin%elem_of_map_to_list). eauto.
  - intros (ts & Hts). exists (ts, c). split; [done|]. by apply elem_of_map_to_list.
Qed.

(** [contains] answers for the entries: some entry has the value. *)
Lemma TimeFilterMap_contains_spec self v :
  tfm_ok self ->
  TimeFilterMap_contains self v = true <->
  exists ts c, time_map self !! ts = Some c /\ v ∈ iter_items c.
Proof.
  intros [Hs Hc]. unfold TimeFilterMap_contains. rewrite multiset_member_count by done.
  rewrite Hc, Z.ltb_lt, occ_pos. split.
  - intros (c & (ts & Hts)%elem_of_entries & Hv). eauto.
  - intros (ts & c & Hts & Hv). exists c. split; [|done]. apply elem_of_entries. eauto.
Qed.

Lemma TimeFilterMap_new_ok : tfm_ok TimeFilterMap_new.
Proof.
  split; [apply map_Forall_empty|]. intros v. unfold multiset_count, entries_of. simpl.
  by rewrite lookup_empty, map_to_list_empty.
Qed.

Lemma TimeFilterMap_filter_lookup self cutoff ts :
  time_map (TimeFilterMap_filter self cutoff) !! ts =
  if decide (cutoff <= ts) then time_map self !! ts else None.
Proof.
  unfold TimeFilterMap_filter, prune. cbn [time_map]. destruct (decide (cutoff <= ts)).
  - destruct (time_map self !! ts) eqn:E.
    + by apply map_lookup_filter_Some_2.
    + apply map_lookup_filter_None. by left.
  - apply map_lookup_filter_None. right. intros x _. simpl. done.
Qed.

(** What a filtered insertion holds: the new value, and the values of the
    other entries that are not older than the cutoff. *)
Lemma insert_filter_contains self ts v cutoff w :
  tfm_ok self -> multiset_count (tset self) v < u_max 32 -> cutoff <= ts ->
  TimeFilterMap_contains (TimeFilterMap_filter (TimeFilterMap_insert self ts v) cutoff) w = true <->
  w = v \/ exists t c, t <> ts /\ cutoff <= t /\ time_map self !! t = Some c /\ w ∈ iter_items c.
Proof.
  intros Hok Hmax Hcut.
  rewrite TimeFilterMap_contains_spec by (by apply TimeFilterMap_filter_ok, TimeFilterMap_insert_ok).
  setoid_rewrite TimeFilterMap_filter_lookup. cbn [TimeFilterMap_insert time_map]. split.
  - intros (t & c & Hc & Hw). case_decide; [|done]. destruct (decide (t = ts)) as [->|Hne].
    + rewrite lookup_insert_eq in Hc. injection Hc as <-. rewrite iter_items_once in Hw.
      left. by apply list_elem_of_singleton in Hw.
    + rewrite lookup_insert_ne in Hc by done. right. eauto 6.
  - intros [->|(t & c & Hne & Ht & Hc & Hw)].
    + exists ts, (once v). rewrite lookup_insert_eq, iter_items_once. case_decide; [|done].
      split; [done|left].
    + exists t, c. rewrite lookup_insert_ne by done. by case_decide.
Qed.
End TimeFilterMap.
Arguments TimeFilterMap C V {_ _}.

(** ** Sets of items per time *)

Section set_map.
Context {V : Type} `{Countable V}.
Implicit Types self : TimeFilterMap (gset V) V.

Lemma occ_items_fresh (v : V) (xs : gset V) (w : V) :
  v ∉ xs -> occ_items w (iter_items ({[v]} ∪ xs)) = occ_items w (iter_items xs) + if decide (w = v) then 1 else 0.
Proof.
  intros Hv. assert (Hp : elements ({[v]} ∪ xs) ≡ₚ v :: elements xs) by by apply elements_union_singleton.
  rewrite <- occ_items_cons. unfold occ_items. cbn [iter_items HashSet_container].
  f_equal. apply Permutation_length, filter_Permutation, Hp.
Qed.

(** Adding an item that is nowhere in the map keeps the counts right. *)
Lemma TimeFilterMap_upsert_one_ok self ts v :
  tfm_ok self -> TimeFilterMap_contains self v = false -> tfm_ok (TimeFilterMap_upsert_one self ts v).
Proof.
  intros Hok Hv. pose proof Hok as [Hs Hc].
  assert (Hzero : multiset_count (tset self) v = 0).
  { unfold TimeFilterMap_contains in Hv. rewrite multiset_member_count in Hv by done.
    pose proof (occ_nonneg v (entries_of (time_map self))) as Hn. rewrite <- Hc in Hn.
    apply Z.ltb_ge in Hv. lia. }
  set (xs := default ∅ (time_map self !! ts)).
  assert (Hfresh : v ∉ xs).
  { intros Hin. unfold xs in Hin. destruct (time_map self !! ts) as [x|] eqn:E; [|set_solver].
    assert (TimeFilterMap_contains self v = true); [|congruence].
    apply TimeFilterMap_contains_spec; [done|]. exists ts, x. split; [done|]. by apply elem_of_elements. }
  assert (Hm : multiset_count (tset self) v < u_max 32) by (rewrite Hzero; done).
  destruct (multiset_insert_spec _ v Hs Hm) as [Hs' Hc'].
  unfold TimeFilterMap_upsert_one, TimeFilterMap_upsert. rewrite iter_items_once. cbn [foldl].
  split; [done|]. cbn [tset time_map]. intros w. rewrite Hc', Hc, entries_insert, occ_cons.
  cbn [merge_append merge_default HashSet_mergeable once HashSet_container]. fold xs.
  rewrite (comm_L (∪)), occ_items_fresh by done. unfold xs.
  destruct (time_map self !! ts) as [x|] eqn:E; cbn [from_option id].
  - rewrite (entries_delete _ _ _ E), occ_cons. lia.
  - rewrite delete_id by done. change (occ_items w (iter_items (∅ : gset V))) with 0. lia.
Qed.

(** The items [upsert_one] makes a map hold. *)
Lemma TimeFilterMap_upsert_one_lookup self ts v t :
  time_map (TimeFilterMap_upsert_one self ts v) !! t =
  if decide (t = ts) then Some (default ∅ (time_map self !! ts) ∪ {[v]}) else time_map self !! t.
Proof.
  unfold TimeFilterMap_upsert_one, TimeFilterMap_upsert. cbn [time_map].
  destruct (decide (t = ts)) as [->|]; [by rewrite lookup_insert_eq|by rewrite lookup_insert_ne].
Qed.
End set_map.

(** Adding an item a second time at its own time counts it twice in the
    multiset and once in the set: it stays contained after its entry is gone. *)
Lemma upsert_twice_outlives_filter :
  let twice := TimeFilterMap_upsert_one (TimeFilterMap_upsert_one TimeFilterMap_new 5 7) 5 7
               : TimeFilterMap (gset Z) Z in
  let filtered := TimeFilterMap_filter twice 6 in
  time_map filtered = ∅ /\ TimeFilterMap_contains filtered 7 = true.
Proof. split; [|vm_compute; reflexivity]. apply map_eq. intros t.
  rewrite TimeFilterMap_filter_lookup, lookup_empty. case_decide; [|done].
  rewrite !TimeFilterMap_upsert_one_lookup. by case_decide; [lia|]. Qed.

(** ** Times as trie keys

    [TimeFilterMap] keeps its entries in a trie under the big-endian bytes of
    the timestamp, so that the order of paths is the order of times. *)

Definition BigEndianU64_codec : Codec Z :=
  mkCodec (fun x => reverse (to_le_bytes 8 x)) (fun _ => 8%nat)
    (fun _ => buf ← read_exact 8; mret (from_le_bytes (reverse buf))).

(** The number that big-endian bytes stand for. *)
Definition be_value (bs : list Z) : Z := from_le_bytes (reverse bs).

Lemma be_value_cons b bs : be_value (b :: bs) = b * 256 ^ Z.of_nat (length bs) + be_value bs.
Proof.
  unfold be_value. rewrite reverse_cons, from_le_bytes_app. simpl. rewrite length_reverse. lia.
Qed.

Lemma be_value_bound bs : bytes_ok bs -> 0 <= be_value bs < 256 ^ Z.of_nat (length bs).
Proof.
  intros Hb. unfold be_value. rewrite <- (length_reverse bs). apply from_le_bytes_bound.
  by apply Forall_reverse.
Qed.

Lemma byte_nibbles_cmp b b' r r' :
  is_byte b -> is_byte b' ->
  Mpt.path_cmp (Mpt.byte_nibbles b ++ r) (Mpt.byte_nibbles b' ++ r') =
  match b ?= b' with Eq => Mpt.path_cmp r r' | c => c end.
Proof.
  intros Hb Hb'. unfold Mpt.byte_nibbles. cbn [app Mpt.path_cmp].
  assert (Hd : forall x, is_byte x ->
    (16 * Z.of_nat (Z.to_nat (Z.shiftr (Z.land x 240) 4)) + Z.of_nat (Z.to_nat (Z.land x 15))) = x)
    by solve_byte.
  assert (Hl : forall x, is_byte x -> (Z.to_nat (Z.land x 15) <? 16)%nat = true).
  { apply byte_forall. vm_compute. reflexivity. }
  pose proof (Hd b Hb) as E. pose proof (Hd b' Hb') as E'.
  apply Hl, Nat.ltb_lt in Hb. apply Hl, Nat.ltb_lt in Hb'. clear Hd Hl.
  set (h := Z.to_nat (Z.shiftr (Z.land b 240) 4)) in *. set (l := Z.to_nat (Z.land b 15)) in *.
  set (h' := Z.to_nat (Z.shiftr (Z.land b' 240) 4)) in *. set (l' := Z.to_nat (Z.land b' 15)) in *.
  clearbody h l h' l'. subst b b'.
  destruct (Nat.compare_spec h h'), (Nat.compare_spec l l'),
    (Z.compare_spec (16 * Z.of_nat h + Z.of_nat l) (16 * Z.of_nat h' + Z.of_nat l')); subst; try done; lia.
Qed.

Lemma be_cmp bs bs' :
  length bs = length bs' -> bytes_ok bs -> bytes_ok bs' ->
  Mpt.path_cmp (flat_map Mpt.byte_nibbles bs) (flat_map Mpt.byte_nibbles bs') = (be_value bs ?= be_value bs').
Proof.
  intros Hl Hb; revert bs' Hl; induction Hb as [|b bs Hb Hbs IH]; intros bs' Hl Hb'.
  - by destruct bs'.
  - destruct Hb' as [|b' bs' Hb' Hbs']; [done|]. cbn [flat_map]. injection Hl as Hl.
    rewrite byte_nibbles_cmp, IH, !be_value_cons by done. rewrite Hl.
    pose proof (be_value_bound bs Hbs) as B1. pose proof (be_value_bound bs' Hbs') as B2. rewrite Hl in B1.
    set (P := 256 ^ Z.of_nat (length bs')) in *. clearbody P. unfold is_byte in *.
    destruct (Z.compare_spec b b') as [->|Hlt|Hgt].
    + destruct (Z.compare_spec (be_value bs) (be_value bs')) as [->|?|?]; symmetry;
        [apply Z.compare_refl|apply Z.compare_lt_iff; lia|apply Z.compare_gt_iff; lia].
    + symmetry. apply Z.compare_lt_iff. nia.
    + symmetry. apply Z.compare_gt_iff. nia.
Qed.

Abbreviation time_path := (Mpt.to_nibbles BigEndianU64_codec).

Lemma time_path_cmp x y : in_u 64 x -> in_u 64 y -> Mpt.path_cmp (time_path x) (time_path y) = (x ?= y).
Proof.
  intros Hx Hy. unfold Mpt.to_nibbles. cbn [serialize BigEndianU64_codec]. rewrite be_cmp.
  - unfold be_value. rewrite !reverse_involutive, !from_to_le_bytes_small; [done|..]; done.
  - by rewrite !length_reverse, !length_to_le_bytes.
  - apply Forall_reverse, to_le_bytes_ok.
  - apply Forall_reverse, to_le_bytes_ok.
Qed.

#[export] Instance BigEndianU64_laws : CodecLaws BigEndianU64_codec (in_u 64) 0.
Proof.
  split; [lia| | | |].
  - intros x _. apply Forall_reverse, to_le_bytes_ok.
  - intros x _. cbn [serialize serialized_size BigEndianU64_codec]. by rewrite length_reverse, length_to_le_bytes.
  - intros d x rest Hx _ _. apply Reader_bind_Ok.
    exists (reverse (to_le_bytes 8 x)), rest. split.
    + apply read_exact_app'. by rewrite length_reverse, length_to_le_bytes.
    + apply Reader_ret_Ok. by rewrite reverse_involutive, from_to_le_bytes_small.
  - intros d bs x rest Hb Hd.
    apply Reader_bind_Ok in Hd as (buf & mid & [-> Hl]%read_exact_inv & [<- <-]%Reader_ret_Ok).
    apply Forall_app in Hb as [Hb _]. split; [|by exists buf].
    pose proof (be_value_bound buf Hb) as Hv. rewrite Hl in Hv. exact Hv.
Qed.

Section time_map.
Context {V A : Type} `{!Mpt.Annotation V A}.
Implicit Types (t : Mpt.node V A) (m : gmap Z V).

(** A trie that holds the entries of a finite map from times. *)
Definition time_rep t m : Prop :=
  Mpt.Map_ok BigEndianU64_codec (in_u 64) t /\
  map_Forall (fun k _ => in_u 64 k) m /\
  forall k, in_u 64 k -> Mpt.get t (time_path k) = m !! k.

Lemma time_path_length k : length (time_path k) = 16%nat.
Proof.
  unfold Mpt.to_nibbles. cbn [serialize BigEndianU64_codec].
  assert (Hf : forall bs, length (flat_map Mpt.byte_nibbles bs) = (2 * length bs)%nat).
  { induction bs as [|b bs IH]; [done|]. cbn [flat_map]. rewrite length_app, IH. simpl. lia. }
  by rewrite Hf, length_reverse, length_to_le_bytes.
Qed.

Lemma time_short k : in_u 64 k -> (length (serialize BigEndianU64_codec k) <= 127)%nat.
Proof. intros _. cbn [serialize BigEndianU64_codec]. rewrite length_reverse, length_to_le_bytes. lia. Qed.

Lemma time_level : 0 <= RECURSION_LIMIT.
Proof. unfold RECURSION_LIMIT. lia. Qed.

Lemma time_path_inj k k' : in_u 64 k -> in_u 64 k' -> time_path k = time_path k' -> k = k'.
Proof.
  intros Hk Hk' E. apply Z.compare_eq. rewrite <- time_path_cmp, E by done. apply Mpt.path_cmp_refl.
Qed.

Lemma time_path_ok k : in_u 64 k -> Mpt.nibbles_ok (time_path k).
Proof. apply (Mpt.to_nibbles_ok BigEndianU64_codec (in_u 64) 0 time_short). Qed.

(** The keys of a represented map are exactly the trie's paths. *)
Lemma time_rep_get t m q v :
  time_rep t m -> Mpt.get t q = Some v <-> exists k, in_u 64 k /\ q = time_path k /\ m !! k = Some v.
Proof.
  intros ([_ Hk] & _ & Hg). split.
  - intros E. destruct (Hk q) as (k & Hok & ->); [by rewrite E|]. exists k. rewrite <- Hg by done. done.
  - intros (k & Hok & -> & E). by rewrite Hg.
Qed.

Lemma time_rep_new : time_rep Mpt.Map_new ∅.
Proof.
  split_and!; [split; [constructor|]|apply map_Forall_empty|]; [|done].
  by intros p [? ?].
Qed.

Lemma time_rep_insert t m k v :
  time_rep t m -> in_u 64 k ->
  exists t', Mpt.Map_insert BigEndianU64_codec t k v = Ret t' /\ time_rep t' (<[k := v]> m).
Proof.
  intros (Hm & Hin & Hg) Hk.
  destruct (Mpt.Map_insert_spec BigEndianU64_codec (in_u 64) 0 time_level time_short t k v Hm Hk)
    as (t' & E & Hm' & Hg').
  exists t'. split; [done|]. split_and!; [done|by apply map_Forall_insert_2|].
  intros k' Hk'. rewrite Hg'. destruct (decide (time_path k' = time_path k)) as [Ep|Ep].
  - apply time_path_inj in Ep as ->; [|done..]. by rewrite lookup_insert_eq.
  - rewrite lookup_insert_ne by (by intros ->). by apply Hg.
Qed.

Lemma time_path_ltb k k' : in_u 64 k -> in_u 64 k' -> Mpt.path_ltb (time_path k) (time_path k') = (k <? k').
Proof. intros. unfold Mpt.path_ltb. rewrite time_path_cmp by done. unfold Z.ltb. done. Qed.

(** The entries of the trie before a time are the pairs of the map before it. *)
Lemma time_rep_removed t m ts :
  time_rep t m -> in_u 64 ts ->
  (filter (fun e => Mpt.path_ltb e.1 (time_path ts) = true) (Mpt.leaves t [])).*2 ≡ₚ (prune m ts).2.
Proof.
  intros Hr Hts. pose proof (Mpt.canon_shape t (proj1 (proj1 Hr))) as Hs.
  unfold prune. cbn [snd].
  transitivity (((fun e : Z * V => (time_path e.1, e.2)) <$> map_to_list (filter (fun kv => ~ ts <= kv.1) m)).*2).
  2: { rewrite <- list_fmap_compose. done. }
  apply fmap_Permutation, NoDup_Permutation.
  - apply NoDup_filter. eapply NoDup_fmap_1. by apply Mpt.leaves_NoDup.
  - apply NoDup_fmap_2_strong; [|apply NoDup_map_to_list].
    intros [k v] [k' v'] H1%elem_of_map_to_list H2%elem_of_map_to_list [E Ev]%pair_eq. cbn [fst snd] in E, Ev. subst v'.
    apply map_lookup_filter_Some in H1 as [H1 _], H2 as [H2 _].
    apply (proj1 (proj2 Hr)) in H1, H2. apply time_path_inj in E as ->; done.
  - intros [q v]. rewrite list_elem_of_filter, Mpt.elem_of_leaves, time_rep_get by done. cbn [fst snd].
    rewrite list_elem_of_fmap. split.
    + intros (Hlt & k & Hk & -> & Hm). exists (k, v). split; [done|].
      apply elem_of_map_to_list, map_lookup_filter_Some_2; [done|]. cbn [fst].
      rewrite time_path_ltb in Hlt by done. apply Z.ltb_lt in Hlt. lia.
    + intros ([k v'] & [E Ev]%pair_eq & [Hm Hlt]%elem_of_map_to_list%map_lookup_filter_Some).
      cbn [fst snd] in E, Ev, Hlt. subst q v'.
      pose proof (proj1 (proj2 Hr) k v Hm) as Hk. split; [|by exists k].
      rewrite time_path_ltb by done. apply Z.ltb_lt. lia.
Qed.

Lemma time_rep_prune t m ts :
  time_rep t m -> in_u 64 ts ->
  exists t' removed, Mpt.prune t (time_path ts) = Ret (t', removed) /\
    time_rep t' (prune m ts).1 /\ removed ≡ₚ (prune m ts).2.
Proof.
  intros Hr Hts. pose proof Hr as ([Hc Hk] & Hin & Hg).
  destruct (Mpt.prune_spec t (Mpt.canon_shape t Hc) _ (time_path_ok ts Hts)) as (t' & removed & E & _ & Hg' & Hrem).
  exists t', removed. split; [done|]. split.
  - split_and!; [split| |].
    + eapply Mpt.prune_canon; [exact Hc| | |by apply time_path_ok|exact E].
      * by eapply (Mpt.Map_key_bound BigEndianU64_codec (in_u 64) 0 time_short).
      * done.
    + intros p Hp. rewrite Hg' in Hp. destruct (Mpt.path_ltb _ _); [by destruct Hp|by apply Hk].
    + intros k v [Hm _]%map_lookup_filter_Some. by apply Hin in Hm.
    + intros k Hok. rewrite Hg', time_path_ltb by done. unfold prune. cbn [fst].
      rewrite map_lookup_filter, Hg by done.
      destruct (Z.ltb_spec k ts), (m !! k); simpl; try done;
        [rewrite option_guard_False by lia|rewrite option_guard_True by lia]; done.
  - rewrite Hrem. by apply time_rep_removed.
Qed.
(** The entry [find_predecessor] picks in a finite map: the latest before the time. *)
Lemma find_predecessor_max m ts :
  match find_predecessor m ts with
  | None => forall k v, m !! k = Some v -> ts <= k
  | Some (k, v) => m !! k = Some v /\ k < ts /\
      forall k' v', m !! k' = Some v' -> k' < ts -> k' <= k
  end.
Proof.
  set (l := map_to_list (filter (fun kv => kv.1 < ts) m)).
  assert (Hl : forall k v, (k, v) ∈ l <-> m !! k = Some v /\ k < ts).
  { intros k v. unfold l. by rewrite elem_of_map_to_list, map_lookup_filter_Some. }
  assert (Hf : forall l' : list (Z * V),
    match foldr (fun p best => match best with
                               | Some q => if p.1 <? q.1 then Some q else Some p
                               | None => Some p
                               end) None l' with
    | None => l' = []
    | Some p => p ∈ l' /\ forall q, q ∈ l' -> q.1 <= p.1
    end).
  { induction l' as [|p l' IH]; [done|]. cbn [foldr].
    destruct (foldr _ None l') as [q|]; [destruct IH as [Hq Hm]|subst l'].
    - destruct (Z.ltb_spec p.1 q.1); (split; [set_solver|]); intros r [->|Hr]%elem_of_cons; try lia;
        specialize (Hm r Hr); lia.
    - split; [set_solver|]. intros r ->%list_elem_of_singleton. lia. }
  specialize (Hf l). unfold find_predecessor. fold l. destruct (foldr _ None l) as [[k v]|].
  - destruct Hf as [[Hm Hlt]%Hl Hmax]. split_and!; [done..|].
    intros k' v' Hm' Hlt'. apply (Hmax (k', v')), Hl. done.
  - intros k v Hm. destruct (decide (ts <= k)); [done|]. exfalso.
    assert (Hin : (k, v) ∈ l) by (apply Hl; split; [done|lia]). rewrite Hf in Hin. by apply not_elem_of_nil in Hin.
Qed.

Lemma time_rep_predecessor t m ts :
  time_rep t m -> in_u 64 ts ->
  Mpt.find_predecessor t (time_path ts) = Ret (prod_map time_path id <$> find_predecessor m ts).
Proof.
  intros Hr Hts. pose proof Hr as ([Hc Hk] & Hin & Hg).
  destruct (Mpt.find_predecessor_spec t 16 [] (time_path ts) Hc) as (r & E & Hp);
    [|apply time_path_length|by apply time_path_ok|].
  { intros q (k & _ & ->)%Hk. apply time_path_length. }
  unfold Mpt.find_predecessor. cbn [app] in E. rewrite E. f_equal. clear E.
  pose proof (find_predecessor_max m ts) as Hmax. destruct (find_predecessor m ts) as [[k v]|].
  - destruct Hmax as (Hm & Hlt & Hmax). pose proof (Hin k v Hm) as Hok. simpl in Hok.
    assert (Hpk : Mpt.path_cmp (time_path k) (time_path ts) = Lt)
      by (rewrite time_path_cmp by done; by apply Z.compare_lt_iff).
    destruct r as [[q w]|].
    + destruct Hp as (q' & -> & Hq & Hqlt & Hqmax).
      apply (time_rep_get _ _ _ _ Hr) in Hq as (k2 & Hok2 & -> & Hm2).
      rewrite time_path_cmp, Z.compare_lt_iff in Hqlt by done.
      pose proof (Hmax k2 w Hm2 Hqlt) as H1.
      specialize (Hqmax (time_path k) v). rewrite Hg in Hqmax by done. specialize (Hqmax Hm Hpk).
      rewrite time_path_cmp in Hqmax by done.
      assert (k2 = k) as -> by (destruct (Z.compare_spec k k2); lia || done).
      rewrite Hm in Hm2. injection Hm2 as ->. done.
    + exfalso. apply (Hp (time_path k) v); [by rewrite Hg|done].
  - destruct r as [[q w]|]; [|done]. exfalso. destruct Hp as (q' & -> & Hq & Hqlt & _).
    apply (time_rep_get _ _ _ _ Hr) in Hq as (k2 & Hok2 & -> & Hm2).
    rewrite time_path_cmp, Z.compare_lt_iff in Hqlt by done.
    specialize (Hmax k2 w Hm2). lia.
Qed.
End time_map.

(** The trie under a time-filtered map refines a finite map from times: on the
    big-endian paths of [u64] seconds, lookup, insertion, predecessor search and
    pruning never panic and do what the finite map does, the predecessor being
    the latest earlier entry and pruning removing the entries strictly before
    the time. *)
Theorem time_map_refines {V A} `{!Mpt.Annotation V A} (t : Mpt.node V A) (m : gmap Z V) (ts : Z) (v : V) :
  time_rep t m -> in_u 64 ts ->
  Mpt.Map_get BigEndianU64_codec t ts = Ret (m !! ts) /\
  (exists t', Mpt.Map_insert BigEndianU64_codec t ts v = Ret t' /\ time_rep t' (<[ts := v]> m)) /\
  (exists t' removed, Mpt.prune t (time_path ts) = Ret (t', removed) /\
     time_rep t' (prune m ts).1 /\ removed ≡ₚ (prune m ts).2) /\
  Mpt.find_predecessor t (time_path ts) = Ret (prod_map time_path id <$> find_predecessor m ts) /\
  match find_predecessor m ts with
  | None => forall k w, m !! k = Some w -> ts <= k
  | Some (k, w) => m !! k = Some w /\ k < ts /\
      forall k' w', m !! k' = Some w' -> k' < ts -> k' <= k
  end.
Proof.
  intros Hr Hts. split_and!.
  - rewrite (Mpt.Map_get_spec BigEndianU64_codec (in_u 64) 0 time_short) by (done || apply Hr).
    f_equal. by apply Hr.
  - by apply time_rep_insert.
  - by apply time_rep_prune.
  - by apply time_rep_predecessor.
  - apply find_predecessor_max.
Qed.

(** ** Example *)

Module TimeExample.
Local Existing Instance Mpt.SizeAnn.

Definition roots (l : list (Z * Z)) : Mpt.node Z Z :=
  foldl (fun t e => match Mpt.Map_insert BigEndianU64_codec t e.1 e.2 with Ret t' => t' | _ => t end)
    Mpt.Map_new l.

Lemma roots_rep l :
  Forall (fun e => in_u 64 e.1) l -> time_rep (roots l) (foldl (fun m e => <[e.1 := e.2]> m) ∅ l).
Proof.
  intros Hl. unfold roots. generalize (@Mpt.Map_new Z Z), (∅ : gmap Z Z), (@time_rep_new Z Z _).
  induction Hl as [|e l He _ IH]; intros t m Hr; [done|]. cbn [foldl]. apply IH.
  destruct (time_rep_insert t m e.1 e.2 Hr He) as (t' & -> & ?). done.
Qed.

(** Three roots recorded at different times; pruning and searching at 1000. *)
Lemma time_map_refines_witness :
  let t := roots [(7, 100); (999, 101); (1000, 102)] in
  exists t' removed, Mpt.prune t (time_path 1000) = Ret (t', removed) /\
    removed ≡ₚ [100; 101] /\ Mpt.find_predecessor t (time_path 1000) = Ret (Some (time_path 999, 101)).
Proof.
  intros t.
  destruct (time_map_refines t (<[1000 := 102]> (<[999 := 101]> (<[7 := 100]> ∅))) 1000 5)
    as (_ & _ & (t' & removed & E & _ & Hp) & Hf & _).
  - apply (roots_rep [(7, 100); (999, 101); (1000, 102)]). repeat constructor; done.
  - split; vm_compute; [discriminate|reflexivity].
  - exists t', removed. split; [exact E|]. split.
    + rewrite Hp. vm_compute. apply perm_swap.
    + rewrite Hf. vm_compute. reflexivity.
Defined.
End TimeExample.
