(* ===== verification/Pedersen.v ===== *)
(** * Pedersen commitments ([transient-crypto/src/commitment.rs])

    Commitments live in the embedded curve's group, of which only the group
    laws are used: an interface [AbelianGroup].  [hash_to_curve] and the
    generator come with the curve and are arguments; scalars are integers (the
    scalar field acts on the group through any of its representatives). *)

From S2P Require Import Prelude.

Local Open Scope Z_scope.

Class AbelianGroup (G : Type) := {
  gzero : G;
  gadd : G -> G -> G;
  gneg : G -> G;
  gadd_assoc a b c : gadd a (gadd b c) = gadd (gadd a b) c;
  gadd_comm a b : gadd a b = gadd b a;
  gadd_zero_l a : gadd gzero a = a;
  gadd_neg_l a : gadd (gneg a) a = gzero
}.

Declare Scope group_scope.
Delimit Scope group_scope with G.
Notation "a + b" := (gadd a b) : group_scope.
Notation "- a" := (gneg a) : group_scope.
Notation "a - b" := (gadd a (gneg b)) : group_scope.

Section group.
Context {G : Type} `{AbelianGroup G}.
Implicit Types a b c : G.

Lemma gadd_zero_r a : (a + gzero)%G = a.
Proof. by rewrite gadd_comm, gadd_zero_l. Qed.

Lemma gadd_neg_r a : (a - a)%G = gzero.
Proof. by rewrite gadd_comm, gadd_neg_l. Qed.

Lemma gadd_cancel_l a b c : (a + b)%G = (a + c)%G -> b = c.
Proof.
  intros E. rewrite <- (gadd_zero_l b), <- (gadd_neg_l a), <- gadd_assoc, E.
  by rewrite gadd_assoc, gadd_neg_l, gadd_zero_l.
Qed.

Lemma gneg_unique a b : (a + b)%G = gzero -> b = (- a)%G.
Proof. intros E. apply (gadd_cancel_l a). by rewrite E, gadd_neg_r. Qed.

Lemma gneg_zero : (- gzero)%G = (gzero : G).
Proof. symmetry. apply gneg_unique, gadd_zero_l. Qed.

Lemma gadd_swap a b c d : ((a + b) + (c + d))%G = ((a + c) + (b + d))%G.
Proof. by rewrite <- !gadd_assoc, (gadd_assoc b), (gadd_comm b c), <- !gadd_assoc. Qed.

Lemma gneg_add a b : (- (a + b))%G = (- a - b)%G.
Proof.
  symmetry. apply gneg_unique. rewrite gadd_swap, !gadd_neg_r. apply gadd_zero_l.
Qed.

Lemma gneg_neg a : (- - a)%G = a.
Proof. symmetry. apply gneg_unique, gadd_neg_l. Qed.

(** Sums of lists ([iter().fold(unit, Add::add)]). *)
Definition gsum (l : list G) : G := foldl gadd gzero l.

Lemma foldl_gadd x l : foldl gadd x l = (x + gsum l)%G.
Proof.
  unfold gsum. revert x; induction l as [|a l IH]; intros x; simpl; [by rewrite gadd_zero_r|].
  rewrite IH, (IH (gzero + a)%G), gadd_zero_l. by rewrite gadd_assoc.
Qed.

Lemma gsum_cons a l : gsum (a :: l) = (a + gsum l)%G.
Proof. unfold gsum at 1. simpl. by rewrite foldl_gadd, gadd_zero_l. Qed.

Lemma gsum_app l1 l2 : gsum (l1 ++ l2) = (gsum l1 + gsum l2)%G.
Proof. unfold gsum at 1. rewrite foldl_app. apply foldl_gadd. Qed.

#[global] Instance gsum_perm : Proper ((≡ₚ) ==> (=)) gsum.
Proof.
  intros l1 l2 Hp. induction Hp as [|a l1 l2 _ IH|a b l|l1 l2 l3 _ IH1 _ IH2];
    rewrite ?gsum_cons; [done|by rewrite IH| |congruence].
  by rewrite !gadd_assoc, (gadd_comm a b).
Qed.

(** Scalar multiples. *)
Fixpoint nmul (n : nat) a : G :=
  match n with O => gzero | S n' => (a + nmul n' a)%G end.

Definition zmul (v : Z) a : G :=
  if 0 <=? v then nmul (Z.to_nat v) a else (- nmul (Z.to_nat (- v)) a)%G.

Lemma nmul_add n m a : nmul (n + m) a = (nmul n a + nmul m a)%G.
Proof.
  induction n as [|n IH]; simpl; [by rewrite gadd_zero_l|]. by rewrite IH, gadd_assoc.
Qed.

Lemma nmul_sub n m a : (m <= n)%nat -> nmul (n - m) a = (nmul n a - nmul m a)%G.
Proof.
  intros Hle. apply (gadd_cancel_l (nmul m a)). rewrite <- nmul_add.
  replace (m + (n - m))%nat with n by lia.
  by rewrite (gadd_comm (nmul n a)), gadd_assoc, gadd_neg_r, gadd_zero_l.
Qed.

Lemma zmul_0 a : zmul 0 a = gzero.
Proof. done. Qed.

Lemma zmul_add v w a : zmul (v + w) a = (zmul v a + zmul w a)%G.
Proof.
  unfold zmul. destruct (Z.leb_spec 0 v), (Z.leb_spec 0 w), (Z.leb_spec 0 (v + w)); try lia.
  - by rewrite Z2Nat.inj_add, nmul_add by lia.
  - rewrite <- nmul_sub by lia. f_equal. lia.
  - rewrite <- (gneg_neg (nmul (Z.to_nat v) a)), <- gneg_add. f_equal.
    rewrite gadd_comm, <- nmul_sub by lia. f_equal. lia.
  - rewrite gadd_comm, <- nmul_sub by lia. f_equal. lia.
  - rewrite <- (gneg_neg (nmul (Z.to_nat w) a)), <- gneg_add. f_equal.
    rewrite <- nmul_sub by lia. f_equal. lia.
  - rewrite <- gneg_add, <- nmul_add. do 2 f_equal. lia.
Qed.
End group.

Lemma zmul_opp {G} `{AbelianGroup G} v (a : G) : zmul (- v) a = (- zmul v a)%G.
Proof.
  apply gneg_unique. rewrite <- zmul_add, Z.add_opp_diag_r. apply zmul_0.
Qed.

Lemma nmul_zmul {G} `{AbelianGroup G} n v (a : G) : zmul (Z.of_nat n * v) a = nmul n (zmul v a).
Proof.
  induction n as [|n IH]; [done|]. cbn [nmul].
  rewrite Nat2Z.inj_succ, Z.mul_succ_l, Z.add_comm, zmul_add. by rewrite IH.
Qed.

Lemma zmul_mul {G} `{AbelianGroup G} v w (a : G) : zmul (v * w) a = zmul v (zmul w a).
Proof.
  unfold zmul at 2. destruct (Z.leb_spec 0 v).
  - rewrite <- nmul_zmul. by rewrite Z2Nat.id.
  - rewrite <- nmul_zmul, Z2Nat.id by lia. rewrite Z.mul_opp_l, zmul_opp. symmetry. apply gneg_neg.
Qed.

(** [Pedersen::commit], with [h = hash_to_curve(type_)] and the generator [g]. *)
Definition Pedersen_commit {G} `{AbelianGroup G} (h g : G) (v r : Z) : G :=
  (zmul r g + zmul v h)%G.

(** Commitments add up: values and randomness are summed. *)
Lemma Pedersen_commit_add {G} `{AbelianGroup G} (h g : G) v1 r1 v2 r2 :
  (Pedersen_commit h g v1 r1 + Pedersen_commit h g v2 r2)%G
  = Pedersen_commit h g (v1 + v2) (r1 + r2).
Proof. unfold Pedersen_commit. by rewrite !zmul_add, gadd_swap. Qed.

(** ** Commitments with no value part

    A commitment to randomness alone, with a Schnorr proof of knowledge of it
    made non-interactive by a hash of the commitment, the target and the data
    it is bound to. *)
Section schnorr.
Context {G : Type} `{AbelianGroup G} `{!EqDecision G}.
Context (generator : G) (challenge : G -> G -> list Z -> Z).

Record PureGeneratorPedersen := mkPureGenerator {
  commitment : G;
  target : G;
  reply : Z
}.

(** [new_from], with the random scalar it samples as an argument. *)
Definition PureGeneratorPedersen_new_from (rand wit : Z) (challenge_pre : list Z)
  : PureGeneratorPedersen :=
  let commitment := zmul wit generator in
  let target := zmul rand generator in
  mkPureGenerator commitment target (rand + challenge commitment target challenge_pre * wit).

Definition PureGeneratorPedersen_valid (self : PureGeneratorPedersen) (challenge_pre : list Z)
  : bool :=
  let test_left := zmul (reply self) generator in
  let test_right := (target self
    + zmul (challenge (commitment self) (target self) challenge_pre) (commitment self))%G in
  bool_decide (test_left = test_right).
End schnorr.

(** The integers, for examples. *)
#[export] Instance Z_group : AbelianGroup Z.
Proof.
  refine {| gzero := 0; gadd := Z.add; gneg := Z.opp |}; intros; lia.
Defined.

(** ** Properties *)

(** The binding proof is complete and, from two challenges, sound: a proof
    made with the randomness of a commitment is valid for the data it was made
    for; and two valid proofs with the same commitment and target, on data with
    different challenges, determine the multiple of the generator the
    commitment is, up to the challenges' difference. *)
Theorem pure_generator_schnorr {G} `{AbelianGroup G} `{!EqDecision G} (generator : G)
  (challenge : G -> G -> list Z -> Z) (rand wit : Z) (pre pre' : list Z)
  (p p' : PureGeneratorPedersen) :
  commitment p = commitment p' -> target p = target p' ->
  PureGeneratorPedersen_valid generator challenge
    (PureGeneratorPedersen_new_from generator challenge rand wit pre) pre = true /\
  (PureGeneratorPedersen_valid generator challenge p pre = true ->
   PureGeneratorPedersen_valid generator challenge p' pre' = true ->
   zmul (reply p - reply p') generator =
   zmul (challenge (commitment p) (target p) pre - challenge (commitment p') (target p') pre')
     (commitment p)).
Proof.
  intros Hc Ht. unfold PureGeneratorPedersen_valid, PureGeneratorPedersen_new_from.
  cbn [commitment target reply]. split.
  - apply bool_decide_eq_true. by rewrite zmul_add, zmul_mul.
  - intros H1%bool_decide_eq_true H2%bool_decide_eq_true.
    unfold Z.sub. rewrite !zmul_add, !zmul_opp, H1, H2, <- Hc, <- Ht.
    set (t := target p). set (a := zmul _ _). set (b := zmul _ _).
    rewrite gneg_add, gadd_swap, gadd_neg_r, gadd_zero_l. done.
Qed.

Lemma pure_generator_schnorr_witness :
  PureGeneratorPedersen_valid 7 (fun a b l => a + b + Z.of_nat (length l))
    (PureGeneratorPedersen_new_from 7 (fun a b l => a + b + Z.of_nat (length l)) 5 11 [1; 2]) [1; 2]
  = true.
Proof.
  apply (pure_generator_schnorr 7 (fun a b l => a + b + Z.of_nat (length l)) 5 11 [1; 2] []
           (mkPureGenerator 0 0 0) (mkPureGenerator 0 0 0)); reflexivity.
Defined.
