(* ===== verification/Cost.v ===== *)
(** * Costs, prices and fees ([base-crypto/src/cost_model.rs])

    Saturating durations and costs, fixed point numbers, the normalization of a
    cost against block limits and the adjustment of prices, with the fee
    computations of the ledger that use them ([ledger/src/structure.rs],
    [ledger/src/semantics.rs]).  A duration is the [Z] of its picoseconds (64
    bits), a fixed point number the [Z] of its representation (signed, 128
    bits): [x] stands for [x / 2^64].  [i256] holds every product of the code,
    so its arithmetic is that of [Z]; arithmetic without an explicit overflow
    rule wraps, as the release profile has it. *)

From S2P Require Import Prelude.

Local Open Scope Z_scope.

(** ** Durations and costs *)

Definition CostDuration : Type := Z.
Definition CD_ZERO : CostDuration := 0.
Definition CD_SECOND : CostDuration := 1000000000000.
Definition CostDuration_add (a b : CostDuration) : CostDuration := sat_add 64 a b.
Definition CostDuration_sub (a b : CostDuration) : CostDuration := sat_sub a b.
Definition CostDuration_mul (a : CostDuration) (k : Z) : CostDuration := sat_mul 64 a k.

Record RunningCost := mkRunningCost {
  rc_read_time : CostDuration;
  rc_compute_time : CostDuration;
  rc_bytes_written : Z;
  rc_bytes_deleted : Z
}.

Definition RC_ZERO : RunningCost := mkRunningCost 0 0 0 0.

Definition RunningCost_add (a b : RunningCost) : RunningCost :=
  mkRunningCost (CostDuration_add (rc_read_time a) (rc_read_time b))
    (CostDuration_add (rc_compute_time a) (rc_compute_time b))
    (sat_add 64 (rc_bytes_written a) (rc_bytes_written b))
    (sat_add 64 (rc_bytes_deleted a) (rc_bytes_deleted b)).

Definition RunningCost_mul (a : RunningCost) (k : Z) : RunningCost :=
  mkRunningCost (CostDuration_mul (rc_read_time a) k) (CostDuration_mul (rc_compute_time a) k)
    (sat_mul 64 (rc_bytes_written a) k) (sat_mul 64 (rc_bytes_deleted a) k).

Definition RunningCost_compute (time : CostDuration) : RunningCost := mkRunningCost CD_ZERO time 0 0.

Definition within_bounds (self bounds : RunningCost) : bool :=
  (rc_read_time self <=? rc_read_time bounds) && (rc_compute_time self <=? rc_compute_time bounds)
  && (rc_bytes_written self <=? rc_bytes_written bounds)
  && (rc_bytes_deleted self <=? rc_bytes_deleted bounds).

Record SyntheticCost := mkSyntheticCost {
  sc_read_time : CostDuration;
  sc_compute_time : CostDuration;
  sc_block_usage : Z;
  sc_bytes_written : Z;
  sc_bytes_churned : Z
}.

(** [From<RunningCost>]: net bytes written, the rest is churn. *)
Definition SyntheticCost_from (value : RunningCost) : SyntheticCost :=
  let bytes_written := sat_sub (rc_bytes_written value) (rc_bytes_deleted value) in
  mkSyntheticCost (rc_read_time value) (rc_compute_time value) 0 bytes_written
    (rc_bytes_written value - bytes_written).

Definition SyntheticCost_add (a b : SyntheticCost) : SyntheticCost :=
  mkSyntheticCost (CostDuration_add (sc_read_time a) (sc_read_time b))
    (CostDuration_add (sc_compute_time a) (sc_compute_time b))
    (sat_add 64 (sc_block_usage a) (sc_block_usage b))
    (sat_add 64 (sc_bytes_written a) (sc_bytes_written b))
    (sat_add 64 (sc_bytes_churned a) (sc_bytes_churned b)).

Definition SyntheticCost_max_time (c : SyntheticCost) : CostDuration :=
  Z.max (sc_read_time c) (sc_compute_time c).

(** ** Fixed point numbers *)

Definition FixedPoint : Type := Z.


Definition from_u64_div (a b : Z) : FixedPoint :=
  if b =? 0 then i_max 128 else wrap_i 128 (div_ceil (Z.shiftl a 64) b).

Definition FP_ZERO : FixedPoint := 0.
Definition FP_ONE : FixedPoint := from_u64_div 1 1.
Definition FP_MAX : FixedPoint := i_max 128.

Definition from_u128_div (a b : Z) : FixedPoint :=
  if b =? 0 then i_max 128
  else
    let ashift := a * 2 ^ 64 in
    let c := (if Z.rem ashift b =? 0 then 0 else 1) + Z.quot ashift b in
    if u_max 128 <? c then i_max 128 else wrap_i 128 c.

Definition into_atomic_units (self : FixedPoint) (base_unit : Z) : Z :=
  let raw := self * base_unit in
  let res := (if Z.rem raw (2 ^ 64) <=? 0 then 0 else 1) + Z.quot raw (2 ^ 64) in
  if res <? 0 then 0 else if u_max 128 <? res then u_max 128 else res.

Definition FP_add (a b : FixedPoint) : FixedPoint := i_clamp 128 (a + b).
Definition FP_sub (a b : FixedPoint) : FixedPoint := i_clamp 128 (a - b).
Definition FP_neg (a : FixedPoint) : FixedPoint := i_clamp 128 (- a).
Definition FP_mul (a b : FixedPoint) : FixedPoint :=
  wrap_i 128 (Z.min (i_max 128) (Z.shiftr (a * b) 64)).
Definition FP_div (a b : FixedPoint) : FixedPoint :=
  if b =? 0 then i_max 128
  else wrap_i 128 (wrap_i 128 (from_u128_div (Z.abs a) (Z.abs b) * Z.sgn a) * Z.sgn b).

(** [powi] of a positive exponent: square and multiply over its bits, at most 31
    of them. *)
Fixpoint powi_loop (fuel : nat) (acc cur : FixedPoint) (exp : Z) : FixedPoint :=
  match fuel with
  | O => acc
  | S fuel' =>
      if 1 <=? exp then
        powi_loop fuel' (if negb (Z.land exp 1 =? 0) then FP_mul acc cur else acc) (FP_mul cur cur)
          (Z.shiftr exp 1)
      else acc
  end.

(** A negative exponent is negated, which overflows for the least one only. *)
Definition powi (self : FixedPoint) (exp : Z) : outcome unit FixedPoint :=
  if exp <? 0 then
    if exp =? i_min 32 then Panic else Ret (FP_div FP_ONE (powi_loop 32 FP_ONE self (- exp)))
  else if exp =? 0 then Ret FP_ONE
  else Ret (powi_loop 32 FP_ONE self exp).

Definition CostDuration_div (a b : CostDuration) : FixedPoint := from_u64_div a b.

(** ** Normalized costs *)

Record NormalizedCost := mkNormalizedCost {
  nc_read_time : FixedPoint;
  nc_compute_time : FixedPoint;
  nc_block_usage : FixedPoint;
  nc_bytes_written : FixedPoint;
  nc_bytes_churned : FixedPoint
}.

Definition normalized_dimensions (c : NormalizedCost) : list FixedPoint :=
  [nc_read_time c; nc_compute_time c; nc_block_usage c; nc_bytes_written c; nc_bytes_churned c].

Definition normalize_cost (self limits : SyntheticCost) : option NormalizedCost :=
  let res := mkNormalizedCost
    (CostDuration_div (sc_read_time self) (sc_read_time limits))
    (CostDuration_div (sc_compute_time self) (sc_compute_time limits))
    (from_u64_div (sc_block_usage self) (sc_block_usage limits))
    (from_u64_div (sc_bytes_written self) (sc_bytes_written limits))
    (from_u64_div (sc_bytes_churned self) (sc_bytes_churned limits)) in
  if existsb (fun val => FP_ONE <? val) (normalized_dimensions res) then None else Some res.

(** ** Price adjustment *)

Definition POINTS : list FixedPoint := [
  -84764999863455367168; -84764999863455367168; -71791413020114739200; -64122702906348363776;
  -58624745660900909056; -54315312289337933824; -50756867729459126272; -47715996328766365696;
  -45053350700638961664; -42679031418590216192; -40531639450585882624; -38567365939524018176;
  -36753849332779208704; -35066499762404089856; -33486189434148528128; -31997741738730885120;
  -30588908944945000448; -29249660330515177472; -27971674063185141760; -26747966611833823232;
  -25572617290405310464; -24440560042528645120; -23347423671542177792; -22289407577085239296;
  -21263183918842343424; -20265819725292941312; -19294714246602784768; -18347548093616457728;
  -17422241585731162112; -16516920363702972416; -15629886784764432384; -14759595957603760128;
  -13904635528415858688; -13063708520358164480; -12235618674138603520; -11419257849061355520;
  -10613595130224742400; -9817667354921738240; -9030570824192866304; -8251454007294845952;
  -7479511080090284032; -6713976164925600768; -5954118160879564800; -5199236070424976384;
  -4448654742390539264; -3701720962283612672; -2957799830037197824; -2216271372462491904;
  -1476527343420476672; -737968169202023424; 0; 737968169202024192; 1476527343420477440;
  2216271372462496512; 2957799830037204480; 3701720962283612672; 4448654742390539264;
  5199236070424971264; 5954118160879561728; 6713976164925597696; 7479511080090281984;
  8251454007294848000; 9030570824192860160; 9817667354921742336; 10613595130224742400;
  11419257849061359616; 12235618674138605568; 13063708520358168576; 13904635528415862784;
  14759595957603747840; 15629886784764430336; 16516920363702964224; 17422241585731166208;
  18347548093616463872; 19294714246602788864; 20265819725292945408; 21263183918842335232;
  22289407577085243392; 23347423671542181888; 24440560042528653312; 25572617290405310464;
  26747966611833827328; 27971674063185145856; 29249660330515173376; 30588908944945000448;
  31997741738730881024; 33486189434148524032; 35066499762404098048; 36753849332779192320;
  38567365939524001792; 40531639450585874432; 42679031418590240768; 45053350700638978048;
  47715996328766390272; 50756867729459134464; 54315312289337958400; 58624745660900876288;
  64122702906348298240; 71791413020114722816; 84764999863455252480; 84764999863455252480].

Definition POINT_LEN_FP : Z := Z.quot FP_ONE (Z.of_nat (length POINTS) - 1).

Definition clamp (lo hi x : Z) : Z := Z.max lo (Z.min x hi).

Definition price_bucket (usage : FixedPoint) : nat :=
  Z.to_nat (clamp 0 (Z.of_nat (length POINTS) - 2) (Z.quot usage POINT_LEN_FP)).

Definition price_adjustment_function (usage a : FixedPoint) : FixedPoint :=
  let bucket := price_bucket usage in
  let b := nth bucket POINTS 0 in
  let c := nth (S bucket) POINTS 0 in
  let frac := from_u128_div (Z.max 0 (usage - Z.of_nat bucket * POINT_LEN_FP)) POINT_LEN_FP in
  FP_div (FP_add (FP_mul b (FP_sub FP_ONE frac)) (FP_mul c frac)) a.

(** ** Fee prices *)

Record FeePrices := mkFeePrices {
  overall_price : FixedPoint;
  read_factor : FixedPoint;
  compute_factor : FixedPoint;
  block_usage_factor : FixedPoint;
  write_factor : FixedPoint
}.

(** The four factors, as [dimensions] lists them. *)
Definition price_dimensions (p : FeePrices) : list FixedPoint :=
  [read_factor p; compute_factor p; block_usage_factor p; write_factor p].

Definition MIN_COST : FixedPoint := 100.

Definition update_from_fullness (self : FeePrices) (detailed : NormalizedCost)
  (overall min_ratio a : FixedPoint) : FeePrices :=
  let multiplier frac := FP_add (price_adjustment_function frac a) FP_ONE in
  let overall_price := FP_mul (overall_price self) (multiplier overall) in
  let rd := FP_mul (read_factor self) (multiplier (nc_read_time detailed)) in
  let cp := FP_mul (compute_factor self) (multiplier (nc_compute_time detailed)) in
  let bu := FP_mul (block_usage_factor self) (multiplier (nc_block_usage detailed)) in
  let wr := FP_mul (write_factor self)
              (multiplier (Z.max (nc_bytes_written detailed) (nc_bytes_churned detailed))) in
  let most_expensive_dimension := Z.max (Z.max (Z.max rd cp) bu) wr in
  let raise dim := Z.max dim (FP_mul most_expensive_dimension min_ratio) in
  let factor_mean :=
    FP_div (fold_left FP_add [raise rd; raise cp; raise bu; raise wr] FP_ZERO) (from_u64_div 4 1) in
  let norm dim := FP_div (raise dim) factor_mean in
  mkFeePrices (Z.max overall_price MIN_COST) (norm rd) (norm cp) (norm bu) (norm wr).

Definition overall_cost (self : FeePrices) (tx : NormalizedCost) : FixedPoint :=
  let read_cost := FP_mul (read_factor self) (nc_read_time tx) in
  let compute_cost := FP_mul (compute_factor self) (nc_compute_time tx) in
  let block_usage_cost := FP_mul (block_usage_factor self) (nc_block_usage tx) in
  let write_cost := FP_mul (write_factor self) (nc_bytes_written tx) in
  let churn_cost := FP_mul (write_factor self) (nc_bytes_churned tx) in
  let utilization_cost := Z.max read_cost (Z.max compute_cost block_usage_cost) in
  FP_mul (overall_price self) (FP_add (FP_add utilization_cost write_cost) churn_cost).

(** ** Fees in the ledger *)

Definition SPECKS_PER_DUST : Z := 1000000000000000.

(** [LedgerParameters::max_price_adjustment]. *)
Definition max_price_adjustment (price_adjustment_a_parameter : FixedPoint) : FixedPoint :=
  FP_add (price_adjustment_function FP_ONE price_adjustment_a_parameter) FP_ONE.

Inductive FeeCalculationError :=
| BlockLimitExceeded
| OutsideTimeToDismiss (time_to_dismiss allowed_time_to_dismiss : CostDuration) (size : Z).

(** [Transaction::fees] and [fees_with_margin], once the cost is known. *)
Definition fees (prices : FeePrices) (block_limits synthetic : SyntheticCost)
  : result FeeCalculationError Z :=
  match normalize_cost synthetic block_limits with
  | None => Err BlockLimitExceeded
  | Some normalized => Ok (into_atomic_units (overall_cost prices normalized) SPECKS_PER_DUST)
  end.

Definition fees_with_margin (prices : FeePrices) (block_limits : SyntheticCost)
  (price_adjustment_a_parameter : FixedPoint) (synthetic : SyntheticCost) (margin : Z)
  : outcome FeeCalculationError Z :=
  match normalize_cost synthetic block_limits with
  | None => Fail BlockLimitExceeded
  | Some normalized =>
      match powi (max_price_adjustment price_adjustment_a_parameter) (wrap_i 32 margin) with
      | Ret f => Ret (into_atomic_units (FP_mul (overall_cost prices normalized) f) SPECKS_PER_DUST)
      | _ => Panic
      end
  end.

(** [prevalidate_post_block_update]; its error carries nothing. *)
Definition prevalidate_post_block_update (detailed : NormalizedCost) (overall : FixedPoint) : result unit unit :=
  if existsb (fun v => (v <? FP_ZERO) || (FP_ONE <? v)) (normalized_dimensions detailed ++ [overall])
  then Err tt else Ok tt.

(** The prices part of [apply_post_block_update]. *)
Definition post_block_prices (fee_prices : FeePrices) (min_block_price min_ratio a : FixedPoint)
  (detailed : NormalizedCost) (overall : FixedPoint) : FeePrices :=
  let fee_prices := update_from_fullness fee_prices detailed overall min_ratio a in
  if overall_price fee_prices <? min_block_price
  then mkFeePrices min_block_price (read_factor fee_prices) (compute_factor fee_prices)
         (block_usage_factor fee_prices) (write_factor fee_prices)
  else fee_prices.

(** ** Arithmetic *)

Lemma div_ceil_le a b k : 0 < b -> (div_ceil a b <= k <-> a <= b * k).
Proof. intros Hb. pose proof (div_ceil_spec a b Hb). nia. Qed.

Lemma div_ceil_unique a b c : 0 < b -> b * (c - 1) < a <= b * c -> div_ceil a b = c.
Proof. intros Hb H. pose proof (div_ceil_spec a b Hb). nia. Qed.

Lemma div_ceil_mono a a' b : 0 < b -> a <= a' -> div_ceil a b <= div_ceil a' b.
Proof. intros Hb H. pose proof (div_ceil_spec a b Hb). pose proof (div_ceil_spec a' b Hb). nia. Qed.

Lemma FP_ONE_eq : FP_ONE = 2 ^ 64.
Proof. reflexivity. Qed.

Lemma i_max_128 : i_max 128 = 2 ^ 127 - 1.
Proof. reflexivity. Qed.

Lemma wrap_128 x : - 2 ^ 127 <= x < 2 ^ 127 -> wrap_i 128 x = x.
Proof. intros H. apply wrap_i_small; [lia|]. unfold in_i, i_min, i_max. change (2 ^ (128 - 1)) with (2 ^ 127). lia. Qed.

Lemma clamp_128 x : - 2 ^ 127 <= x < 2 ^ 127 -> i_clamp 128 x = x.
Proof. intros H. unfold i_clamp, i_min, i_max. change (2 ^ (128 - 1)) with (2 ^ 127). lia. Qed.

(** Where the quotient fits, division rounds up. *)
Lemma from_u64_div_spec a b :
  0 <= a -> 0 < b -> a * 2 ^ 64 <= b * (2 ^ 127 - 1) -> from_u64_div a b = div_ceil (a * 2 ^ 64) b.
Proof.
  intros Ha Hb H. unfold from_u64_div. destruct (Z.eqb_spec b 0); [lia|]. rewrite Z.shiftl_mul_pow2 by lia.
  apply wrap_128. pose proof (div_ceil_spec (a * 2 ^ 64) b Hb). apply div_ceil_le in H; [|done]. nia.
Qed.

Lemma quot_ceil x b : 0 <= x -> 0 < b -> (if Z.rem x b =? 0 then 0 else 1) + Z.quot x b = div_ceil x b.
Proof.
  intros Hx Hb. symmetry. apply div_ceil_unique; [done|]. rewrite Z.rem_mod_nonneg, Z.quot_div_nonneg by lia.
  pose proof (Z.div_mod x b ltac:(lia)). pose proof (Z.mod_pos_bound x b Hb).
  destruct (Z.eqb_spec (x mod b) 0); nia.
Qed.

Lemma from_u128_div_spec a b :
  0 <= a -> 0 < b -> a * 2 ^ 64 <= b * (2 ^ 127 - 1) -> from_u128_div a b = div_ceil (a * 2 ^ 64) b.
Proof.
  intros Ha Hb H. unfold from_u128_div. destruct (Z.eqb_spec b 0); [lia|]. cbv zeta.
  rewrite quot_ceil by lia. pose proof (div_ceil_spec (a * 2 ^ 64) b Hb). apply div_ceil_le in H; [|done].
  unfold u_max. destruct (Z.ltb_spec (2 ^ 128 - 1) (div_ceil (a * 2 ^ 64) b)); [lia|]. apply wrap_128. nia.
Qed.

(** Division rounds away from zero. *)
Lemma FP_div_signed a b : 0 < b -> Z.abs a * 2 ^ 64 <= b * (2 ^ 127 - 1) ->
  FP_div a b = Z.sgn a * div_ceil (Z.abs a * 2 ^ 64) b.
Proof.
  intros Hb H. unfold FP_div. destruct (Z.eqb_spec b 0); [lia|]. rewrite (Z.abs_eq b), from_u128_div_spec by lia.
  pose proof (div_ceil_spec (Z.abs a * 2 ^ 64) b Hb) as Hs. apply div_ceil_le in H; [|done].
  assert (0 <= div_ceil (Z.abs a * 2 ^ 64) b) by nia. rewrite (Z.sgn_pos b), Z.mul_1_r by done.
  set (d := div_ceil (Z.abs a * 2 ^ 64) b) in *. clearbody d.
  assert (E : wrap_i 128 (d * Z.sgn a) = d * Z.sgn a) by (apply wrap_128; destruct (Z.sgn_spec a) as [[? ->]|[[? ->]|[? ->]]]; lia).
  rewrite !E. lia.
Qed.

Lemma FP_div_spec a b : 0 <= a -> 0 < b -> a * 2 ^ 64 <= b * (2 ^ 127 - 1) -> FP_div a b = div_ceil (a * 2 ^ 64) b.
Proof.
  intros Ha Hb H. rewrite FP_div_signed by (rewrite ?Z.abs_eq by done; lia). rewrite Z.abs_eq by done.
  destruct (Z.eq_dec a 0) as [->|]; [|rewrite Z.sgn_pos by lia; lia].
  by rewrite (div_ceil_unique (0 * 2 ^ 64) b 0) by lia.
Qed.

(** A product rounds down, and saturates. *)
Lemma FP_mul_spec a b : - 2 ^ 191 <= a * b -> FP_mul a b = Z.min (2 ^ 127 - 1) (a * b / 2 ^ 64).
Proof.
  intros H. unfold FP_mul. rewrite Z.shiftr_div_pow2 by lia. rewrite i_max_128. apply wrap_128.
  assert (- 2 ^ 127 <= a * b / 2 ^ 64) by (apply Z.div_le_lower_bound; lia). lia.
Qed.

Lemma FP_mul_exact a b : - 2 ^ 191 <= a * b < 2 ^ 191 -> FP_mul a b = a * b / 2 ^ 64.
Proof.
  intros H. rewrite FP_mul_spec by lia. apply Z.min_r. assert (a * b / 2 ^ 64 < 2 ^ 127); [|lia].
  apply Z.div_lt_upper_bound; lia.
Qed.

Lemma into_atomic_units_spec x base : 0 <= x -> 0 <= base ->
  into_atomic_units x base = Z.min (u_max 128) (div_ceil (x * base) (2 ^ 64)).
Proof.
  intros Hx Hb. unfold into_atomic_units. cbv zeta.
  assert (Hr : 0 <= Z.rem (x * base) (2 ^ 64)) by (apply Z.rem_nonneg; nia).
  replace (Z.rem (x * base) (2 ^ 64) <=? 0) with (Z.rem (x * base) (2 ^ 64) =? 0)
    by (destruct (Z.eqb_spec (Z.rem (x * base) (2 ^ 64)) 0), (Z.leb_spec (Z.rem (x * base) (2 ^ 64)) 0); lia).
  rewrite quot_ceil by nia. pose proof (div_ceil_spec (x * base) (2 ^ 64) ltac:(lia)).
  assert (0 <= div_ceil (x * base) (2 ^ 64)) by nia. set (c := div_ceil _ _) in *. clearbody c. unfold u_max.
  destruct (Z.ltb_spec c 0), (Z.ltb_spec (2 ^ 128 - 1) c); lia.
Qed.

(** ** Normalization *)

(** A cost of at most the limit is a fraction of at most one: for limits other
    than one, whose quotient always fits. *)
Lemma from_u64_div_le_one a b :
  in_u 64 a -> in_u 64 b -> b <> 1 -> (from_u64_div a b <= FP_ONE <-> b <> 0 /\ a <= b).
Proof.
  intros Ha Hb Hb1. unfold in_u in *. rewrite FP_ONE_eq. destruct (Z.eq_dec b 0) as [->|].
  - split; [|lia]. unfold from_u64_div. simpl. rewrite i_max_128. lia.
  - assert (Hf : a * 2 ^ 64 <= b * (2 ^ 127 - 1)).
    { transitivity ((2 ^ 64 - 1) * 2 ^ 64); [apply Z.mul_le_mono_nonneg_r; lia|].
      transitivity (2 * (2 ^ 127 - 1)); [lia|]. apply Z.mul_le_mono_nonneg_r; lia. }
    rewrite from_u64_div_spec by lia. rewrite div_ceil_le by lia. split; [intros; split; [done|]|intros [_ ?]]; nia.
Qed.

Lemma from_u64_div_nonneg a b : in_u 64 a -> in_u 64 b -> b <> 1 -> 0 <= from_u64_div a b.
Proof.
  intros Ha Hb Hb1. unfold in_u in *. destruct (Z.eq_dec b 0) as [->|]; [done|].
  assert (Hf : a * 2 ^ 64 <= b * (2 ^ 127 - 1)).
  { transitivity ((2 ^ 64 - 1) * 2 ^ 64); [apply Z.mul_le_mono_nonneg_r; lia|].
    transitivity (2 * (2 ^ 127 - 1)); [lia|]. apply Z.mul_le_mono_nonneg_r; lia. }
  rewrite from_u64_div_spec by lia. pose proof (div_ceil_spec (a * 2 ^ 64) b ltac:(lia)). nia.
Qed.

(** The dimensions of a cost, in the order of [normalized_dimensions]. *)
Definition cost_dimensions (c : SyntheticCost) : list Z :=
  [sc_read_time c; sc_compute_time c; sc_block_usage c; sc_bytes_written c; sc_bytes_churned c].

(** Limits no dimension of which is one, the value [from_u64_div] overflows for. *)
Definition limits_ok (limits : SyntheticCost) : Prop :=
  Forall (fun b => in_u 64 b /\ b <> 1) (cost_dimensions limits).

Definition within_limits (c limits : SyntheticCost) : Prop :=
  Forall2 (fun a b => b <> 0 /\ a <= b) (cost_dimensions c) (cost_dimensions limits).

Lemma normalize_cost_Some c limits n :
  normalize_cost c limits = Some n ->
  normalized_dimensions n = zip_with from_u64_div (cost_dimensions c) (cost_dimensions limits).
Proof. unfold normalize_cost. case_match; [done|]. by intros [= <-]. Qed.

Lemma normalize_cost_None c limits :
  normalize_cost c limits = None <->
  Exists (fun v => FP_ONE < v) (zip_with from_u64_div (cost_dimensions c) (cost_dimensions limits)).
Proof.
  unfold normalize_cost. cbv zeta. unfold normalized_dimensions at 1. cbn [nc_read_time nc_compute_time nc_block_usage nc_bytes_written nc_bytes_churned].
  unfold CostDuration_div. change [_; _; _; _; _] with (zip_with from_u64_div (cost_dimensions c) (cost_dimensions limits)) at 1.
  destruct (existsb _ _) eqn:E.
  - apply existsb_exists in E as (x & Hx & Hl). split; [intros _|done]. apply Exists_exists.
    exists x. split; [exact Hx|lia].
  - split; [done|]. intros Hx. apply Exists_exists in Hx as (x & Hx & Hl).
    assert (existsb (fun v => FP_ONE <? v) (zip_with from_u64_div (cost_dimensions c) (cost_dimensions limits)) = true); [|congruence].
    apply existsb_exists. exists x. split; [exact Hx|lia].
Qed.

Lemma normalize_within c limits :
  Forall (in_u 64) (cost_dimensions c) -> limits_ok limits ->
  (is_Some (normalize_cost c limits) <-> within_limits c limits).
Proof.
  intros Hc Hl. rewrite <- not_eq_None_Some, normalize_cost_None. unfold within_limits, limits_ok in *.
  assert (Hlen : length (cost_dimensions c) = length (cost_dimensions limits)) by done.
  revert Hc Hl Hlen. generalize (cost_dimensions c) (cost_dimensions limits). intros l k Hl Hk Hlen.
  revert k Hk Hlen; induction Hl as [|a l Ha Hl IH]; intros k Hk Hlen; destruct Hk as [|b k [Hb Hb1] Hk]; try done.
  - split; [constructor|]. intros _ H. inversion H.
  - cbn [zip_with]. rewrite Exists_cons, Forall2_cons_iff, <- (IH k) by (done || (simpl in Hlen; lia)).
    rewrite <- from_u64_div_le_one by done. rewrite <- Z.nlt_ge. tauto.
Qed.

(** ** Price adjustment *)

Definition POINT_BOUND : Z := 84764999863455367168.

Lemma POINTS_bound i : - POINT_BOUND <= nth i POINTS 0 <= POINT_BOUND.
Proof.
  assert (H : forallb (fun p => (- POINT_BOUND <=? p) && (p <=? POINT_BOUND)) POINTS = true) by (vm_compute; reflexivity).
  destruct (nth_in_or_default i POINTS 0) as [Hi|E]; [|rewrite E; by vm_compute].
  rewrite forallb_forall in H. specialize (H _ Hi). lia.
Qed.

Lemma POINT_LEN_FP_eq : POINT_LEN_FP = 184467440737095516.
Proof. reflexivity. Qed.

Lemma price_bucket_spec usage : 0 <= usage <= FP_ONE ->
  0 <= usage - Z.of_nat (price_bucket usage) * POINT_LEN_FP <= POINT_LEN_FP + 16.
Proof.
  rewrite FP_ONE_eq. intros Hu. unfold price_bucket, clamp. rewrite POINT_LEN_FP_eq.
  change (Z.of_nat (length POINTS) - 2) with 99. rewrite Z.quot_div_nonneg by lia. rewrite Z2Nat.id by lia. dlia.
Qed.

(** Between two points, up to rounding. *)
Lemma interpolation_bound b c f :
  - POINT_BOUND <= b <= POINT_BOUND -> - POINT_BOUND <= c <= POINT_BOUND -> 0 <= f <= 2 ^ 64 + 1601 ->
  - (5 * 2 ^ 64) <= b * (2 ^ 64 - f) / 2 ^ 64 + c * f / 2 ^ 64 <= 5 * 2 ^ 64.
Proof.
  unfold POINT_BOUND. intros Hb Hc Hf.
  assert (Hx : - (84764999863455367168 * 2 ^ 64 + 84764999863455367168 * 3202) <= b * (2 ^ 64 - f) + c * f
               <= 84764999863455367168 * 2 ^ 64 + 84764999863455367168 * 3202) by nia.
  set (x := b * (2 ^ 64 - f)) in *. set (y := c * f) in *. clearbody x y. dlia.
Qed.

(** An adjustment is less than one by a margin when the parameter is at least
    six. *)
Lemma price_adjustment_bound usage a : 0 <= usage <= FP_ONE -> 6 * FP_ONE <= a <= i_max 128 ->
  - (5 * 2 ^ 64) - 6 <= 6 * price_adjustment_function usage a <= 5 * 2 ^ 64 + 6.
Proof.
  intros Hu Ha. pose proof (price_bucket_spec usage Hu) as Hb. unfold price_adjustment_function. cbv zeta.
  rewrite Z.max_r by lia. set (x := usage - _) in *. rewrite POINT_LEN_FP_eq in *. rewrite FP_ONE_eq, i_max_128 in *.
  rewrite from_u128_div_spec by lia. set (f := div_ceil (x * 2 ^ 64) 184467440737095516).
  assert (Hf : 0 <= f <= 2 ^ 64 + 1601).
  { pose proof (div_ceil_spec (x * 2 ^ 64) 184467440737095516 ltac:(lia)). subst f. lia. }
  pose proof (POINTS_bound (price_bucket usage)) as Hp. pose proof (POINTS_bound (S (price_bucket usage))) as Hq.
  set (b := nth (price_bucket usage) POINTS 0) in *. set (c := nth (S (price_bucket usage)) POINTS 0) in *.
  clearbody b c f.
  pose proof (interpolation_bound b c f Hp Hq Hf) as Hi. unfold FP_sub, FP_add. rewrite (clamp_128 (2 ^ 64 - f)) by lia.
  unfold POINT_BOUND in *. rewrite !FP_mul_exact by nia. rewrite clamp_128 by lia.
  set (n := b * (2 ^ 64 - f) / 2 ^ 64 + c * f / 2 ^ 64) in *. clearbody n.
  rewrite FP_div_signed by nia. pose proof (div_ceil_spec (Z.abs n * 2 ^ 64) a ltac:(lia)).
  set (d := div_ceil (Z.abs n * 2 ^ 64) a) in *. clearbody d. assert (0 <= d) by nia. assert (6 * (d - 1) <= 5 * 2 ^ 64) by nia.
  destruct (Z.sgn_spec n) as [[? ->]|[[? ->]|[? ->]]]; lia.
Qed.

Lemma multiplier_bound usage a : 0 <= usage <= FP_ONE -> 6 * FP_ONE <= a <= i_max 128 ->
  2 ^ 64 - 6 <= 6 * FP_add (price_adjustment_function usage a) FP_ONE <= 11 * 2 ^ 64 + 6.
Proof.
  intros Hu Ha. pose proof (price_adjustment_bound usage a Hu Ha) as H. unfold FP_add. rewrite FP_ONE_eq in *.
  rewrite clamp_128 by lia. lia.
Qed.

(** ** The invariant of prices *)

(** Positive factors of at most four, at least one of which is one or more, and
    whose mean is one up to rounding. *)
Definition factors_ok (l : list FixedPoint) : Prop :=
  Forall (fun f => 1 <= f <= 4 * FP_ONE) l /\ Exists (fun f => FP_ONE <= f) l.

Definition prices_ok (p : FeePrices) : Prop :=
  MIN_COST <= overall_price p <= FP_MAX /\ factors_ok (price_dimensions p).

(** Division by the mean, for dimensions [1 <= d <= m] one of which is [m]. *)
Lemma normalize_mean d1 d2 d3 d4 m :
  1 <= d1 <= m -> 1 <= d2 <= m -> 1 <= d3 <= m -> 1 <= d4 <= m ->
  d1 = m \/ d2 = m \/ d3 = m \/ d4 = m -> 2 ^ 64 - 12 <= 6 * m <= 48 * 2 ^ 64 ->
  let mean := FP_div (fold_left FP_add [d1; d2; d3; d4] FP_ZERO) (from_u64_div 4 1) in
  let l := [FP_div d1 mean; FP_div d2 mean; FP_div d3 mean; FP_div d4 mean] in
  factors_ok l /\ 4 * FP_ONE - 100 <= foldr Z.add 0 l <= 4 * FP_ONE + 4.
Proof.
  intros H1 H2 H3 H4 Hm Hb. cbv zeta. cbn [fold_left]. unfold FP_add, FP_ZERO.
  rewrite (clamp_128 (0 + d1)), (clamp_128 (0 + d1 + d2)), (clamp_128 (0 + d1 + d2 + d3)) by lia.
  rewrite clamp_128 by lia. change (from_u64_div 4 1) with (4 * 2 ^ 64).
  rewrite (FP_div_spec (0 + d1 + d2 + d3 + d4) (4 * 2 ^ 64)) by lia.
  set (mean := div_ceil ((0 + d1 + d2 + d3 + d4) * 2 ^ 64) (4 * 2 ^ 64)). assert (Hmean : 4 * (mean - 1) < d1 + d2 + d3 + d4 <= 4 * mean).
  { pose proof (div_ceil_spec ((0 + d1 + d2 + d3 + d4) * 2 ^ 64) (4 * 2 ^ 64) ltac:(lia)). subst mean. lia. }
  clearbody mean.
  assert (Hn : forall d, 1 <= d <= m -> d <= d1 + d2 + d3 + d4 ->
    1 <= FP_div d mean <= 4 * 2 ^ 64 /\ mean * (FP_div d mean - 1) < d * 2 ^ 64 <= mean * FP_div d mean).
  { intros d Hd Hle. rewrite FP_div_spec by lia. pose proof (div_ceil_spec (d * 2 ^ 64) mean ltac:(lia)) as Hs.
    split; [|done]. set (q := div_ceil _ _) in *. clearbody q. nia. }
  destruct (Hn d1) as [B1 E1], (Hn d2) as [B2 E2], (Hn d3) as [B3 E3], (Hn d4) as [B4 E4]; try lia. clear Hn.
  set (n1 := FP_div d1 mean) in *. set (n2 := FP_div d2 mean) in *. set (n3 := FP_div d3 mean) in *.
  set (n4 := FP_div d4 mean) in *. clearbody n1 n2 n3 n4. unfold factors_ok. rewrite FP_ONE_eq.
  assert (Hbig : 2 ^ 64 <= n1 \/ 2 ^ 64 <= n2 \/ 2 ^ 64 <= n3 \/ 2 ^ 64 <= n4).
  { assert (Hle : mean <= m) by lia. assert (Hpos : 0 < mean) by lia.
    assert (Hk : forall d n, d = m -> d * 2 ^ 64 <= mean * n -> 2 ^ 64 <= n).
    { clear - Hle Hpos. intros d n -> H. apply (Z.mul_le_mono_pos_l _ _ mean Hpos). lia. }
    destruct Hm as [Hm|[Hm|[Hm|Hm]]]; [left|right; left|do 2 right; left|do 3 right]; eapply Hk; eauto; lia. }
  split_and!.
  - repeat constructor; lia.
  - rewrite !Exists_cons. tauto.
  - cbn [foldr]. assert (4 * 2 ^ 64 <= 97 * mean) by lia.
    apply Z.lt_le_incl, (Z.mul_lt_mono_pos_l mean); lia.
  - cbn [foldr]. apply Z.lt_succ_r, (Z.mul_lt_mono_pos_l mean); lia.
Qed.

(** A factor after its multiplier. *)
Lemma adjusted_factor f usage a :
  1 <= f <= 4 * FP_ONE -> 0 <= usage <= FP_ONE -> 6 * FP_ONE <= a <= i_max 128 ->
  let r := FP_mul f (FP_add (price_adjustment_function usage a) FP_ONE) in
  0 <= r <= 8 * 2 ^ 64 /\ (FP_ONE <= f -> 2 ^ 64 - 12 <= 6 * r).
Proof.
  intros Hf Hu Ha. pose proof (multiplier_bound usage a Hu Ha) as Hm. cbv zeta.
  set (k := FP_add _ _) in *. clearbody k. rewrite FP_ONE_eq in *. rewrite FP_mul_exact by nia.
  assert (0 <= f * k <= 4 * 2 ^ 64 * k) by nia. assert (2 ^ 64 <= f -> 2 ^ 64 * k <= f * k) by nia.
  set (x := f * k) in *. clearbody x. split; dlia.
Qed.

(** Raising the dimensions to a share of the largest. *)
Lemma raised_dimension m r ratio :
  0 <= r <= m -> 2 ^ 64 - 12 <= 6 * m <= 48 * 2 ^ 64 -> 16 <= ratio <= FP_ONE ->
  1 <= Z.max r (FP_mul m ratio) <= m.
Proof.
  rewrite FP_ONE_eq. intros Hr Hm Hq. rewrite FP_mul_exact by nia.
  assert (16 * m <= m * ratio <= 2 ^ 64 * m) by nia. set (x := m * ratio) in *. clearbody x. dlia.
Qed.

Lemma update_factors_ok p detailed overall min_ratio a :
  factors_ok (price_dimensions p) -> Forall (fun v => 0 <= v <= FP_ONE) (normalized_dimensions detailed) ->
  6 * FP_ONE <= a <= i_max 128 -> 16 <= min_ratio <= FP_ONE ->
  let l := price_dimensions (update_from_fullness p detailed overall min_ratio a) in
  factors_ok l /\ 4 * FP_ONE - 100 <= foldr Z.add 0 l <= 4 * FP_ONE + 4.
Proof.
  intros [Hf Hbig] Hd Ha Hq. unfold price_dimensions, normalized_dimensions in Hf, Hbig, Hd.
  rewrite !Forall_cons_iff in Hf. rewrite !Forall_cons_iff in Hd. destruct Hf as (F1 & F2 & F3 & F4 & _), Hd as (D1 & D2 & D3 & D4 & D5 & _).
  unfold update_from_fullness, price_dimensions. cbv zeta. cbn [read_factor compute_factor block_usage_factor write_factor].
  destruct (adjusted_factor _ _ a F1 D1 Ha) as [R1 M1], (adjusted_factor _ _ a F2 D2 Ha) as [R2 M2],
    (adjusted_factor _ _ a F3 D3 Ha) as [R3 M3],
    (adjusted_factor _ (Z.max (nc_bytes_written detailed) (nc_bytes_churned detailed)) a F4 ltac:(lia) Ha) as [R4 M4].
  set (r1 := FP_mul (read_factor p) _) in *. set (r2 := FP_mul (compute_factor p) _) in *.
  set (r3 := FP_mul (block_usage_factor p) _) in *. set (r4 := FP_mul (write_factor p) _) in *.
  assert (Hm : 2 ^ 64 - 12 <= 6 * Z.max (Z.max (Z.max r1 r2) r3) r4 <= 48 * 2 ^ 64).
  { do 4 (apply Exists_cons in Hbig as [?|Hbig]; [lia|]). inversion Hbig. }
  clearbody r1 r2 r3 r4. set (m := Z.max (Z.max (Z.max r1 r2) r3) r4) in *.
  pose proof (fun r H => raised_dimension m r min_ratio H Hm Hq) as Hraise.
  apply (normalize_mean _ _ _ _ m); try (apply Hraise; lia); [|done].
  assert (Hle : FP_mul m min_ratio <= m) by (specialize (Hraise m ltac:(lia)); lia).
  set (q := FP_mul m min_ratio) in *. clearbody q. clear - Hle.
  assert (Hmax : r1 = m \/ r2 = m \/ r3 = m \/ r4 = m) by (subst m; lia). clearbody m.
  destruct Hmax as [-> |[-> |[-> | ->]]]; lia.
Qed.

Lemma update_overall p detailed overall min_ratio a :
  0 <= overall_price p <= FP_MAX -> 0 <= overall <= FP_ONE -> 6 * FP_ONE <= a <= i_max 128 ->
  MIN_COST <= overall_price (update_from_fullness p detailed overall min_ratio a) <= FP_MAX.
Proof.
  intros Hp Ho Ha. unfold update_from_fullness. cbv zeta. cbn [overall_price].
  pose proof (multiplier_bound overall a Ho Ha) as Hm. set (k := FP_add _ _) in *. clearbody k.
  unfold FP_MAX in *. rewrite i_max_128 in *. rewrite FP_mul_spec by nia. unfold MIN_COST. lia.
Qed.

Lemma prevalidate_Ok detailed overall : prevalidate_post_block_update detailed overall = Ok tt ->
  Forall (fun v => 0 <= v <= FP_ONE) (normalized_dimensions detailed) /\ 0 <= overall <= FP_ONE.
Proof.
  unfold prevalidate_post_block_update. destruct (existsb _ _) eqn:E; [done|]. intros _.
  assert (H : Forall (fun v => 0 <= v <= FP_ONE) (normalized_dimensions detailed ++ [overall])).
  { apply List.Forall_forall. intros v Hv. destruct (decide (0 <= v <= FP_ONE)) as [?|Hn]; [done|].
    assert (existsb (fun v => (v <? FP_ZERO) || (FP_ONE <? v)) (normalized_dimensions detailed ++ [overall]) = true); [|congruence].
    apply existsb_exists. exists v. split; [done|]. unfold FP_ZERO. lia. }
  apply Forall_app in H as [H1 H2]. split; [done|]. by inversion H2.
Qed.

(** ** Overflow

    The quotients that do not fit wrap to negative numbers, and so does a
    negative product that does not fit. *)

Lemma from_u64_div_overflow : from_u64_div (2 ^ 63) 1 = - 2 ^ 127.
Proof. reflexivity. Qed.

Lemma FP_div_overflow : FP_div FP_MAX (from_u64_div 1 2) = -2.
Proof. reflexivity. Qed.

Lemma FP_mul_overflow : FP_mul (i_min 128) (3 * FP_ONE) = - 2 ^ 127 /\ FP_mul (i_min 128) (2 * FP_ONE) = 0.
Proof. split; reflexivity. Qed.

Lemma normalize_overflow :
  let cost := mkSyntheticCost (2 ^ 64 - 1) 0 0 0 0 in
  let limits := mkSyntheticCost 1 2 2 2 2 in
  is_Some (normalize_cost cost limits).
Proof. vm_compute. eauto. Qed.

(** ** Properties *)

(** A dimension, a fraction of the block's, weighted with its factor. *)
Definition weighted (factor dimension : FixedPoint) : FixedPoint := factor * dimension / 2 ^ 64.

(** The price of a cost without machine arithmetic: the largest of the weighted
    read time, compute time and block usage, and the weighted bytes written and
    churned, times the overall price, which is an [i128]. *)
Definition price (p : FeePrices) (n : NormalizedCost) : FixedPoint :=
  Z.min FP_MAX (overall_price p *
    (Z.max (weighted (read_factor p) (nc_read_time n))
           (Z.max (weighted (compute_factor p) (nc_compute_time n)) (weighted (block_usage_factor p) (nc_block_usage n))) +
     weighted (write_factor p) (nc_bytes_written n) + weighted (write_factor p) (nc_bytes_churned n)) / 2 ^ 64).

Lemma weighted_exact f d : 1 <= f <= 4 * FP_ONE -> 0 <= d <= FP_ONE -> FP_mul f d = weighted f d /\ 0 <= weighted f d <= 4 * 2 ^ 64.
Proof.
  rewrite FP_ONE_eq. intros Hf Hd. unfold weighted. assert (0 <= f * d <= 4 * 2 ^ 64 * 2 ^ 64) by nia.
  assert (0 <= f * d / 2 ^ 64 <= 4 * 2 ^ 64) by (split; [apply Z.div_pos; lia|apply Z.div_le_upper_bound; lia]).
  rewrite FP_mul_spec by lia. lia.
Qed.

Lemma overall_cost_exact p n : prices_ok p -> Forall (fun v => 0 <= v <= FP_ONE) (normalized_dimensions n) ->
  overall_cost p n = price p n /\ 0 <= price p n.
Proof.
  intros [Ho [Hf _]] Hd. unfold price_dimensions, normalized_dimensions in *. rewrite !Forall_cons_iff in Hf. rewrite !Forall_cons_iff in Hd.
  destruct Hf as (F1 & F2 & F3 & F4 & _), Hd as (D1 & D2 & D3 & D4 & D5 & _).
  destruct (weighted_exact _ _ F1 D1) as [E1 W1], (weighted_exact _ _ F2 D2) as [E2 W2], (weighted_exact _ _ F3 D3) as [E3 W3],
    (weighted_exact _ _ F4 D4) as [E4 W4], (weighted_exact _ _ F4 D5) as [E5 W5].
  unfold overall_cost, price. cbv zeta. rewrite E1, E2, E3, E4, E5. clear E1 E2 E3 E4 E5. unfold FP_MAX in *. rewrite i_max_128 in *.
  set (m := Z.max _ _). assert (0 <= m <= 4 * 2 ^ 64) by (subst m; lia). clearbody m. unfold FP_add.
  rewrite (clamp_128 (m + _)), clamp_128 by lia. unfold MIN_COST in Ho.
  set (t := m + _ + _). assert (0 <= t) by (subst t; lia). clearbody t. rewrite FP_mul_spec by nia.
  assert (0 <= overall_price p * t / 2 ^ 64) by (apply Z.div_pos; nia). lia.
Qed.


(** The floor under the overall price. *)
Lemma raise_overall_ok p min_block_price :
  prices_ok p -> min_block_price <= FP_MAX ->
  let p' := if overall_price p <? min_block_price
            then mkFeePrices min_block_price (read_factor p) (compute_factor p) (block_usage_factor p) (write_factor p)
            else p in
  prices_ok p' /\ min_block_price <= overall_price p' /\ price_dimensions p' = price_dimensions p.
Proof.
  intros [Ho Hf] Hm. cbv zeta. destruct (Z.ltb_spec (overall_price p) min_block_price) as [Hlt|Hge].
  - split; [split; [cbn [overall_price]; lia|exact Hf]|]. split; [cbn [overall_price]; lia|reflexivity].
  - split; [by split|]. split; [lia|reflexivity].
Qed.

(** Prices stay usable from block to block: from prices with factors
    between [2^-64] and four of which one is at least one, an update with a
    block's accepted fullness, an adjustment parameter of at least six and a
    minimal ratio of at least [2^-60] gives such prices again, with an overall
    price of at least the minimal one, and with factors that add up to four up
    to rounding. *)
Theorem fee_prices_invariant p min_block_price min_ratio a detailed overall :
  prices_ok p -> prevalidate_post_block_update detailed overall = Ok tt ->
  6 * FP_ONE <= a <= FP_MAX -> 16 <= min_ratio <= FP_ONE -> min_block_price <= FP_MAX ->
  let p' := post_block_prices p min_block_price min_ratio a detailed overall in
  prices_ok p' /\ min_block_price <= overall_price p' /\
  4 * FP_ONE - 100 <= foldr Z.add 0 (price_dimensions p') <= 4 * FP_ONE + 4.
Proof.
  intros [Ho Hf] [Hd Hv]%prevalidate_Ok Ha Hq Hmin.
  pose proof (update_factors_ok p detailed overall min_ratio a Hf Hd Ha Hq) as [F S].
  assert (0 <= overall_price p <= FP_MAX) as Ho' by (unfold MIN_COST in Ho; lia).
  pose proof (update_overall p detailed overall min_ratio a Ho' Hv Ha) as O.
  destruct (raise_overall_ok _ min_block_price (conj O F) Hmin) as (P & M & E).
  split; [exact P|]. split; [exact M|].
  unfold post_block_prices. cbv zeta. rewrite E. exact S.
Qed.

(** [INITIAL_LIMITS.block_limits] and [INITIAL_PARAMETERS.fee_prices]. *)
Definition INITIAL_BLOCK_LIMITS : SyntheticCost := mkSyntheticCost CD_SECOND CD_SECOND 200000 50000 1000000.
Definition INITIAL_FEE_PRICES : FeePrices := mkFeePrices (from_u64_div 10 1) FP_ONE FP_ONE FP_ONE FP_ONE.

Ltac solve_dims :=
  unfold limits_ok, cost_dimensions; cbn;
  repeat (apply Forall_cons_2; [unfold in_u, CD_SECOND; lia|]); apply Forall_nil_2.

Lemma initial_prices_ok : prices_ok INITIAL_FEE_PRICES.
Proof.
  split; [split; vm_compute; discriminate|]. split.
  - unfold price_dimensions. repeat (apply Forall_cons_2; [split; vm_compute; discriminate|]). apply Forall_nil_2.
  - apply Exists_cons_hd. vm_compute. discriminate.
Qed.


Lemma fee_prices_invariant_witness :
  let detailed := mkNormalizedCost 0 FP_ONE (from_u64_div 1 2) 0 (from_u64_div 3 4) in
  let p' := post_block_prices INITIAL_FEE_PRICES (from_u64_div 10 1) (from_u64_div 1 4) (from_u64_div 100 1)
              detailed (from_u64_div 1 3) in
  prices_ok p' /\ 10 * FP_ONE <= overall_price p'.
Proof.
  cbv zeta. pose proof (fee_prices_invariant INITIAL_FEE_PRICES (from_u64_div 10 1) (from_u64_div 1 4) (from_u64_div 100 1)
    (mkNormalizedCost 0 FP_ONE (from_u64_div 1 2) 0 (from_u64_div 3 4)) (from_u64_div 1 3)) as H. cbv zeta in H.
  destruct H as (H1 & H2 & _); [| | | | |by split].
  - apply initial_prices_ok.
  - reflexivity.
  - split; vm_compute; discriminate.
  - split; vm_compute; discriminate.
  - vm_compute; discriminate.
Defined.
