(* ===== verification/DeltaTracking.v ===== *)
(** * Charging for storage ([storage/src/delta_tracking])

    A contract pays for the storage nodes its state occupies.  The ledger keeps
    with each state the set of nodes that have been paid for, with the number of
    references to each from nodes of the set.  After a call, the nodes that are
    reachable from the new state and not in the set are charged and added, and
    nodes that nothing refers to any more are collected, as far as the call's
    budget goes.

    The storage arena is a parameter: a partial map from hashes to stored nodes.
    The order in which the persistent map of unreferenced keys lists its keys is
    a parameter as well. *)

From S2P Require Import Prelude Serialize Cost.
From stdpp Require Import gmap sorting.

Local Open Scope Z_scope.

(** ** Keys *)

(** A child of a node: a reference into the arena, or a small node embedded with
    its data and children. *)
Inductive ArenaKey {Hash : Type} :=
| Ref (hash : Hash)
| Direct (data : list Z) (children : list ArenaKey).
Arguments ArenaKey : clear implicits.

Section keys.
Context {Hash : Type}.

(** Induction that reaches the children. *)
Fixpoint ArenaKey_nested_ind (P : ArenaKey Hash -> Prop)
  (HR : forall h, P (Ref h)) (HD : forall d cs, Forall P cs -> P (Direct d cs)) (k : ArenaKey Hash) : P k :=
  match k with
  | Ref h => HR h
  | Direct d cs =>
      HD d cs ((fix go cs : Forall P cs :=
        match cs with [] => Forall_nil_2 _ | c :: cs' => Forall_cons_2 _ _ _ (ArenaKey_nested_ind P HR HD c) (go cs') end) cs)
  end.

Fixpoint key_to_tree (k : ArenaKey Hash) : gen_tree (Hash + list Z) :=
  match k with
  | Ref h => GenLeaf (inl h)
  | Direct d cs => GenNode 0 (GenLeaf (inr d) :: map key_to_tree cs)
  end.
Fixpoint key_of_tree (t : gen_tree (Hash + list Z)) : ArenaKey Hash :=
  match t with
  | GenLeaf (inl h) => Ref h
  | GenLeaf (inr d) => Direct d []
  | GenNode _ ts => match ts with GenLeaf (inr d) :: ts' => Direct d (map key_of_tree ts') | _ => Direct [] [] end
  end.

Lemma key_of_to_tree k : key_of_tree (key_to_tree k) = k.
Proof.
  induction k as [h|d cs IH] using ArenaKey_nested_ind; [done|]. cbn. f_equal.
  induction IH as [|c cs Hc _ IH']; [done|]. cbn. by rewrite Hc, IH'.
Qed.

#[export] Instance ArenaKey_eq_dec `{EqDecision Hash} : EqDecision (ArenaKey Hash).
Proof.
  refine (fun x y => cast_if (decide (key_to_tree x = key_to_tree y))).
  - rewrite <- (key_of_to_tree x), <- (key_of_to_tree y). by f_equal.
  - abstract congruence.
Defined.
#[export] Instance ArenaKey_countable `{Countable Hash} : Countable (ArenaKey Hash) :=
  inj_countable' key_to_tree key_of_tree key_of_to_tree.

(** [ArenaKey::refs]: the references that are not embedded; the frontier is a
    stack, which takes the children from the last one. *)
Fixpoint refs (self : ArenaKey Hash) : list Hash :=
  match self with
  | Ref h => [h]
  | Direct _ cs => concat (reverse (map refs cs))
  end.

(** The size of its encoding: a byte for the variant, then the hash, or the data
    and the children as vectors. *)
Fixpoint key_serialized_size (output_size : Z) (k : ArenaKey Hash) : Z :=
  match k with
  | Ref _ => 1 + output_size
  | Direct d cs =>
      1 + Z.of_nat (serialized_size (Vec_codec u8_codec) d) +
      fold_left (fun acc c => acc + key_serialized_size output_size c) cs
        (Z.of_nat (serialized_size u64_codec (wrap 64 (Z.of_nat (length cs)))))
  end.
End keys.

(** A node in the backend, with its size there. *)
Record OnDiskObject {Hash} := mkOnDiskObject {
  od_data : list Z;
  od_children : list (ArenaKey Hash)
}.
Arguments OnDiskObject : clear implicits.
Arguments mkOnDiskObject {Hash}.

Definition on_disk_size {Hash} (output_size : Z) (o : OnDiskObject Hash) : Z :=
  Z.of_nat (length (od_data o)) + 4 + Z.of_nat (length (od_children o)) * output_size.

(** ** Reference counts *)

(** Counts of the keys that are referenced, and the keys that are not. *)
Record RcMap {Hash} `{Countable Hash} := mkRcMap {
  rc_ge_1 : gmap Hash Z;
  rc_0 : gset (ArenaKey Hash)
}.
Arguments RcMap Hash {_ _}.

Section tracking.
Context {Hash : Type} `{Countable Hash}.
Local Abbreviation Key := (ArenaKey Hash).
Local Abbreviation RcMap := (RcMap Hash).
Implicit Types (rcmap : RcMap) (k : Key).

Definition RcMap_default : RcMap := mkRcMap _ _ _ ∅ ∅.

Definition get_rc rcmap k : option Z :=
  match k with
  | Ref h => match rc_ge_1 rcmap !! h with
             | Some count => Some count
             | None => if bool_decide (k ∈ rc_0 rcmap) then Some 0 else None
             end
  | Direct _ _ => if bool_decide (k ∈ rc_0 rcmap) then Some 0 else None
  end.

Definition contains rcmap k : bool := bool_decide (is_Some (get_rc rcmap k)).

Definition ins_root rcmap k : RcMap := mkRcMap _ _ _ (rc_ge_1 rcmap) ({[k]} ∪ rc_0 rcmap).
Definition rm_root rcmap k : RcMap := mkRcMap _ _ _ (rc_ge_1 rcmap) (rc_0 rcmap ∖ {[k]}).

Definition modify_rc rcmap (key : Hash) (updated : Z) : RcMap :=
  let curr := default 0 (rc_ge_1 rcmap !! key) in
  match curr =? 0, updated =? 0 with
  | true, true => mkRcMap _ _ _ (rc_ge_1 rcmap) ({[Ref key]} ∪ rc_0 rcmap)
  | true, false => mkRcMap _ _ _ (<[key := updated]> (rc_ge_1 rcmap)) (rc_0 rcmap ∖ {[Ref key]})
  | false, false => mkRcMap _ _ _ (<[key := updated]> (rc_ge_1 rcmap)) (rc_0 rcmap)
  | false, true => mkRcMap _ _ _ (delete key (rc_ge_1 rcmap)) ({[Ref key]} ∪ rc_0 rcmap)
  end.

Definition remove_unreachable_key rcmap k : option RcMap :=
  if bool_decide (k ∈ rc_0 rcmap) then Some (rm_root rcmap k) else None.

(** ** Costing *)

Context (backend : Hash -> option (OnDiskObject Hash)) (output_size : Z).
Context (keys_of : gset Key -> list Key).

(** [Arena::children]. *)
Definition arena_children (h : Hash) : option (list Key) := od_children <$> backend h.

(** The references from a key: those of the stored node's children, or those
    embedded in the key itself. *)
Definition edges k : option (list Hash) :=
  match k with
  | Ref h => children ← arena_children h; Some (children ≫= refs)
  | Direct _ _ => Some (refs k)
  end.

Definition get_unreachable_keys_not_in rcmap (roots : gset Key) : list Key :=
  filter (fun k => k ∉ roots) (keys_of (rc_0 rcmap)).

Section effects.
Context {E : Type}.

(** [get_writes]: the queue is a stack.  A run over a finite part of the arena
    needs no more fuel than it has keys and references. *)
Fixpoint get_writes_loop (fuel : nat) rcmap (queue : list Key) (keys_added : gset Key) : outcome E (gset Key) :=
  match fuel with
  | O => Panic
  | S fuel' =>
      match queue with
      | [] => mret keys_added
      | key :: queue' =>
          if negb (contains rcmap key) && negb (bool_decide (key ∈ keys_added)) then
            children ← expect (edges key);
            get_writes_loop fuel' rcmap (reverse (Ref <$> children) ++ queue') ({[key]} ∪ keys_added)
          else get_writes_loop fuel' rcmap queue' keys_added
      end
  end.

Definition get_writes (fuel : nat) rcmap (roots : gset Key) : outcome E (gset Key) :=
  get_writes_loop fuel rcmap (elements roots) ∅.

(** [update_rcmap]. *)
Definition inc (m : gmap Key Z) k : gmap Key Z := <[k := wrap 64 (default 0 (m !! k) + 1)]> m.

Definition count_edges (keys_added : list Key) (inc_map : gmap Key Z) : outcome E (gmap Key Z) :=
  try_fold_o (fun m key => children ← expect (edges key); mret (foldl inc m (Ref <$> children))) inc_map keys_added.

Definition apply_increment rcmap (x : Key * Z) : RcMap :=
  match x.1 with
  | Ref r => modify_rc rcmap r (wrap 64 (default 0 (get_rc rcmap x.1) + x.2))
  | Direct _ _ => ins_root rcmap x.1
  end.

Definition update_rcmap rcmap (keys_added : gset Key) : outcome E RcMap :=
  inc_map ← count_edges (elements keys_added) (gset_to_gmap 0 keys_added);
  mret (foldl apply_increment rcmap (map_to_list inc_map)).

(** [gc_rcmap]: the step for one reference of a collected key.  The code caches
    the counts it has read. *)
Definition gc_child rcmap (roots : gset Key) (acc : gmap Key Z * list Key) (child : Key) : gmap Key Z * list Key :=
  let existing := default 0 (get_rc rcmap child) in
  let sub := wrap 64 (default 0 (acc.1 !! child) + 1) in
  (<[child := sub]> acc.1,
   if (existing <=? sub) && negb (bool_decide (child ∈ roots)) then child :: acc.2 else acc.2).

Fixpoint gc_loop (step_limit : nat) rcmap (roots : gset Key) (storage_queue queue : list Key)
  (update_queue : gmap Key Z) (keys_removed : gset Key) : outcome E (gmap Key Z * gset Key) :=
  let next := match storage_queue with
              | k :: sq => Some (k, sq, queue)
              | [] => match queue with k :: q => Some (k, [], q) | [] => None end
              end in
  match next, step_limit with
  | None, _ | _, O => mret (update_queue, keys_removed)
  | Some (key, sq, q), S limit' =>
      children ← expect (edges key);
      let '(update_queue, q) := foldl (gc_child rcmap roots) (update_queue, q) (Ref <$> children) in
      gc_loop limit' rcmap roots sq q update_queue ({[key]} ∪ keys_removed)
  end.

Definition apply_decrement (orig rcmap : RcMap) (x : Key * Z) : RcMap :=
  match x.1 with
  | Ref r => modify_rc rcmap r (sat_sub (default 0 (get_rc orig x.1)) x.2)
  | Direct _ _ => rm_root rcmap x.1
  end.

Definition gc_rcmap (orig_rcmap : RcMap) (roots : gset Key) (step_limit : nat) : outcome E (RcMap * gset Key) :=
  '(update_queue, keys_removed) ←
    gc_loop step_limit orig_rcmap roots (get_unreachable_keys_not_in orig_rcmap roots) [] ∅ ∅;
  let rcmap := foldl (apply_decrement orig_rcmap) orig_rcmap (map_to_list update_queue) in
  rcmap ← try_fold_o (fun m key => expect (remove_unreachable_key m key)) rcmap (elements keys_removed);
  mret (rcmap, keys_removed).

Definition key_bytes k : option Z :=
  match k with
  | Ref h => o ← backend h; Some (on_disk_size output_size o + 32 + 4)
  | Direct _ _ => Some (key_serialized_size output_size k * 2)
  end.

Definition compute_bytes_from_keys (keys : gset Key) : outcome E Z :=
  sizes ← expect (mapM key_bytes (elements keys));
  mret (wrap 64 (foldl Z.add 0 sizes)).

Record WriteDeleteResults := mkWriteDeleteResults {
  wd_bytes_written : Z;
  wd_bytes_deleted : Z;
  nodes_written : Z;
  nodes_deleted : Z;
  processing_cost : RunningCost;
  updated_charged_keys : RcMap
}.

Definition WriteDeleteResults_new (keys_added keys_removed : gset Key) (new_charged_keys : RcMap)
  (cpu_cost : Z -> Z -> RunningCost) : outcome E WriteDeleteResults :=
  let nodes_written := Z.of_nat (size keys_added) in
  let nodes_deleted := Z.of_nat (size keys_removed) in
  written ← compute_bytes_from_keys keys_added;
  deleted ← compute_bytes_from_keys keys_removed;
  mret (mkWriteDeleteResults written deleted nodes_written nodes_deleted
          (cpu_cost nodes_written nodes_deleted) new_charged_keys).

Definition running_cost (self : WriteDeleteResults) : RunningCost :=
  RunningCost_add (mkRunningCost CD_ZERO CD_ZERO (wd_bytes_written self) (wd_bytes_deleted self)) (processing_cost self).

Definition initial_write_delete_costs (fuel : nat) (r0 : gset Key) (cpu_cost : Z -> Z -> RunningCost)
  : outcome E WriteDeleteResults :=
  keys_reachable_from_r0 ← get_writes fuel RcMap_default r0;
  k0 ← update_rcmap RcMap_default keys_reachable_from_r0;
  WriteDeleteResults_new keys_reachable_from_r0 ∅ k0 cpu_cost.

Definition incremental_write_delete_costs (fuel : nat) (k0 : RcMap) (r1 : gset Key)
  (cpu_cost : Z -> Z -> RunningCost) (gc_limit : RunningCost -> nat) : outcome E WriteDeleteResults :=
  keys_added ← get_writes fuel k0 r1;
  let added_cost := cpu_cost (Z.of_nat (size keys_added)) 0 in
  k ← update_rcmap k0 keys_added;
  '(k1, keys_removed) ← gc_rcmap k r1 (gc_limit added_cost);
  WriteDeleteResults_new keys_added keys_removed k1 cpu_cost.
End effects.
End tracking.

(** ** Sums over finite sets *)

Section sums.
Context {A : Type} `{Countable A}.
Implicit Types (f : A -> Z) (S T : gset A).

#[export] Instance sum_permutation : Proper (Permutation ==> eq) (foldr Z.add 0).
Proof. intros l1 l2 Hp. induction Hp; cbn; lia. Qed.

Definition sum_set f S : Z := foldr Z.add 0 (f <$> elements S).

Lemma sum_set_empty f : sum_set f ∅ = 0.
Proof. unfold sum_set. by rewrite elements_empty. Qed.

Lemma sum_set_insert f S x : x ∉ S -> sum_set f ({[x]} ∪ S) = f x + sum_set f S.
Proof. intros Hx. unfold sum_set. by rewrite elements_union_singleton. Qed.

Lemma sum_set_nonneg f S : (forall x, 0 <= f x) -> 0 <= sum_set f S.
Proof. intros Hf. unfold sum_set. induction (elements S) as [|x l IH]; cbn; [done|]. specialize (Hf x). lia. Qed.

Lemma sum_set_union f S T : S ## T -> sum_set f (S ∪ T) = sum_set f S + sum_set f T.
Proof.
  induction S as [|x S Hx IH] using set_ind_L; intros Hd; [by rewrite sum_set_empty, union_empty_l_L|].
  rewrite <- (assoc_L (∪)), !sum_set_insert, IH by set_solver. lia.
Qed.

Lemma sum_set_difference f S T : T ⊆ S -> sum_set f (S ∖ T) = sum_set f S - sum_set f T.
Proof. intros Hs. rewrite (union_difference_L T S Hs) at 2. rewrite sum_set_union by set_solver. lia. Qed.

Lemma sum_set_mono f S T : (forall x, 0 <= f x) -> T ⊆ S -> sum_set f T <= sum_set f S.
Proof.
  intros Hf Hs. pose proof (sum_set_difference f S T Hs). pose proof (sum_set_nonneg f (S ∖ T) Hf). lia.
Qed.

Lemma sum_set_elem f S x : (forall y, 0 <= f y) -> x ∈ S -> f x <= sum_set f S.
Proof.
  intros Hf Hx. pose proof (sum_set_mono f S {[x]} Hf). rewrite <- (right_id_L ∅ (∪) {[x]}), sum_set_insert, sum_set_empty in H0
    by set_solver. lapply H0; [lia|set_solver].
Qed.

Lemma sum_set_pos f S : (forall x, 0 <= f x) -> 0 < sum_set f S -> exists x, x ∈ S /\ 0 < f x.
Proof.
  intros Hf. induction S as [|x S Hx IH] using set_ind_L; [by rewrite sum_set_empty|].
  rewrite sum_set_insert by done. intros Hp. destruct (Z.lt_ge_cases 0 (f x)); [exists x; set_solver|].
  destruct IH as (y & Hy & Hfy); [specialize (Hf x); lia|]. exists y. set_solver.
Qed.
End sums.

Section occ.
Context {A : Type} `{EqDecision A}.

(** How often something occurs in a list. *)
Fixpoint occ (x : A) (l : list A) : Z :=
  match l with [] => 0 | y :: l' => (if decide (y = x) then 1 else 0) + occ x l' end.

Lemma refs_nonneg x l : 0 <= occ x l.
Proof. induction l as [|y l IH]; cbn; [done|]. destruct (decide (y = x)); lia. Qed.
Lemma refs_pos x l : 0 < occ x l <-> x ∈ l.
Proof.
  induction l as [|y l IH]; cbn; [split; [lia|by intros ?%not_elem_of_nil]|]. pose proof (refs_nonneg x l).
  rewrite elem_of_cons, <- IH. destruct (decide (y = x)) as [->|Hne]; split; intros.
  - by left.
  - lia.
  - right. lia.
  - destruct H0 as [->|]; [done|lia].
Qed.
End occ.

(** ** Reference-count maps *)

Section rcmap.
Context {Hash : Type} `{Countable Hash}.
Local Abbreviation Key := (ArenaKey Hash).
Local Abbreviation RcMap := (RcMap Hash).
Implicit Types (K : RcMap) (k : Key).

(** The keys that are charged, and the count of one. *)
Definition charged K : gset Key := rc_0 K ∪ set_map Ref (dom (rc_ge_1 K)).
Definition rc K (h : Hash) : Z := default 0 (rc_ge_1 K !! h).

(** Counts are positive, and a key is in one of the two maps only. *)
Definition Rc_ok K : Prop := forall h c, rc_ge_1 K !! h = Some c -> 1 <= c < 2 ^ 64 /\ Ref h ∉ rc_0 K.

Lemma elem_of_charged K k :
  k ∈ charged K <-> k ∈ rc_0 K \/ exists h, k = Ref h /\ is_Some (rc_ge_1 K !! h).
Proof. unfold charged. rewrite elem_of_union, elem_of_map. setoid_rewrite elem_of_dom. done. Qed.

Lemma rc_range K h : Rc_ok K -> in_u 64 (rc K h).
Proof. unfold rc, in_u. intros Hok. destruct (rc_ge_1 K !! h) eqn:E; cbn; [|lia]. apply Hok in E. lia. Qed.

Lemma get_rc_spec K k :
  get_rc K k = if decide (k ∈ charged K) then Some (match k with Ref h => rc K h | Direct _ _ => 0 end) else None.
Proof.
  unfold get_rc, rc. destruct k as [h|d cs].
  - destruct (rc_ge_1 K !! h) as [c|] eqn:E.
    + rewrite decide_True; [done|]. apply elem_of_charged. right. eauto.
    + case_bool_decide as Hk; [rewrite decide_True; [done|apply elem_of_charged; by left]|].
      rewrite decide_False; [done|]. rewrite elem_of_charged. intros [|(h' & [= <-] & Hs)]; [done|]. rewrite E in Hs. by destruct Hs.
  - case_bool_decide as Hk; [rewrite decide_True; [done|apply elem_of_charged; by left]|].
    rewrite decide_False; [done|]. rewrite elem_of_charged. by intros [|(h' & ? & _)].
Qed.

Lemma contains_spec K k : contains K k = bool_decide (k ∈ charged K).
Proof.
  unfold contains. apply bool_decide_ext. rewrite get_rc_spec. destruct (decide (k ∈ charged K)); [|by split; [intros [? ?]|]].
  split; [done|eauto].
Qed.

Lemma rc_uncharged K h : Ref h ∉ charged K -> rc K h = 0.
Proof.
  unfold rc. rewrite elem_of_charged. intros Hn. destruct (rc_ge_1 K !! h) eqn:E; [|done]. destruct Hn. right. eauto.
Qed.

Lemma rc_default K h : default 0 (get_rc K (Ref h)) = rc K h.
Proof. rewrite get_rc_spec. destruct (decide _) as [|Hn]; [done|]. by rewrite rc_uncharged. Qed.

Lemma rc_0_spec K k : Rc_ok K -> k ∈ rc_0 K <-> k ∈ charged K /\ match k with Ref h => rc K h = 0 | Direct _ _ => True end.
Proof.
  intros Hok. rewrite elem_of_charged. split.
  - intros Hk. split; [by left|]. destruct k as [h|]; [|done]. unfold rc. destruct (rc_ge_1 K !! h) eqn:E; [|done].
    by apply Hok in E as [_ []].
  - intros [[?|(h & -> & [c E])] Hrc]; [done|]. unfold rc in Hrc. rewrite E in Hrc. cbn in Hrc. apply Hok in E. lia.
Qed.

(** What the four cases of [modify_rc] amount to. *)
Lemma modify_rc_cases K h u :
  Rc_ok K ->
  modify_rc K h u = if u =? 0 then mkRcMap _ _ _ (delete h (rc_ge_1 K)) ({[Ref h]} ∪ rc_0 K)
                    else mkRcMap _ _ _ (<[h := u]> (rc_ge_1 K)) (rc_0 K ∖ {[Ref h]}).
Proof.
  intros Hok. unfold modify_rc. destruct (rc_ge_1 K !! h) as [c|] eqn:E; cbn [from_option].
  - unfold id. destruct (Hok h c E) as [Hc Hn]. destruct (Z.eqb_spec c 0); [lia|]. destruct (u =? 0); [done|].
    f_equal. set_solver.
  - cbn. destruct (u =? 0); [|done]. by rewrite delete_id.
Qed.

Lemma modify_rc_spec K h u :
  Rc_ok K -> in_u 64 u ->
  Rc_ok (modify_rc K h u) /\ charged (modify_rc K h u) = {[Ref h]} ∪ charged K /\
  forall h', rc (modify_rc K h u) h' = if decide (h' = h) then u else rc K h'.
Proof.
  intros Hok Hu. rewrite modify_rc_cases by done. unfold in_u in Hu. destruct (Z.eqb_spec u 0) as [->|Hne].
  - split_and!.
    + intros h' c. cbn. intros [Hh E]%lookup_delete_Some. destruct (Hok h' c E). split; [lia|]. set_solver.
    + apply set_eq. intros k. rewrite elem_of_union, !elem_of_charged, elem_of_singleton. cbn. split.
      * intros [Hk|(h' & -> & [c [Hh E]%lookup_delete_Some])]; [set_solver|]. right. right. eauto.
      * intros [->|[Hk|(h' & -> & Hs)]]; [set_solver..|]. destruct (decide (h' = h)) as [->|]; [set_solver|].
        right. exists h'. by rewrite lookup_delete_ne.
    + intros h'. unfold rc. cbn. destruct (decide (h' = h)) as [->|]; [by rewrite lookup_delete_eq|by rewrite lookup_delete_ne].
  - assert (Hin : forall h', is_Some (<[h := u]> (rc_ge_1 K) !! h') <-> h' = h \/ is_Some (rc_ge_1 K !! h')).
    { intros h'. rewrite lookup_insert_is_Some. destruct (decide (h' = h)); naive_solver. }
    split_and!.
    + intros h' c. cbn. intros [[<- <-]|[Hh [? ?]%Hok]]%lookup_insert_Some; (split; [lia|set_solver]).
    + apply set_eq. intros k. rewrite elem_of_union, !elem_of_charged, elem_of_singleton. cbn. setoid_rewrite Hin.
      destruct (decide (k = Ref h)) as [->|Hk]; [|set_solver]. split; [by left|]. intros _. right. eauto.
    + intros h'. unfold rc. cbn. destruct (decide (h' = h)) as [->|]; [by rewrite lookup_insert_eq|by rewrite lookup_insert_ne].
Qed.

Lemma ins_root_spec K d cs :
  Rc_ok K -> Rc_ok (ins_root K (Direct d cs)) /\ charged (ins_root K (Direct d cs)) = {[Direct d cs]} ∪ charged K /\
  forall h, rc (ins_root K (Direct d cs)) h = rc K h.
Proof.
  intros Hok. split_and!; [|apply set_eq; intros k; rewrite elem_of_union, !elem_of_charged; cbn; set_solver|done].
  intros h c E. cbn in *. destruct (Hok h c E). split; [lia|]. set_solver.
Qed.

Lemma remove_key_spec K k :
  Rc_ok K -> k ∈ rc_0 K ->
  exists K', remove_unreachable_key K k = Some K' /\ Rc_ok K' /\ charged K' = charged K ∖ {[k]} /\
    (forall h, rc K' h = rc K h) /\ rc_0 K' = rc_0 K ∖ {[k]}.
Proof.
  intros Hok Hk. unfold remove_unreachable_key. rewrite bool_decide_eq_true_2 by done. eexists. split; [done|].
  split_and!; [|apply set_eq; intros k'; rewrite elem_of_difference, !elem_of_charged, elem_of_singleton; cbn|done|done].
  - intros h c E. cbn in *. destruct (Hok h c E). split; [lia|]. set_solver.
  - split.
    + intros [?|(h & -> & Hs)]; [set_solver|]. split; [eauto|]. intros <-. destruct Hs as [c E]. by apply Hok in E as [_ []].
    + intros [[?|(h & -> & Hs)] Hne]; [set_solver|eauto].
Qed.
End rcmap.

(** ** Reachability *)

Section costing.
Context {Hash : Type} `{Countable Hash} (backend : Hash -> option (OnDiskObject Hash)).
Local Abbreviation Key := (ArenaKey Hash).
Local Abbreviation RcMap := (RcMap Hash).
Local Abbreviation edges := (edges backend).
Implicit Types (K : RcMap) (k : Key) (S W U roots : gset Key).

Definition edges_of k : list Hash := default [] (edges k).

(** The references to a key from the keys of a set. *)
Definition indeg S (h : Hash) : Z := sum_set (fun k => occ h (edges_of k)) S.

(** The nodes of the set can be loaded, and their references stay in it. *)
Definition Closed S : Prop := forall k, k ∈ S -> is_Some (edges k) /\ forall h, h ∈ edges_of k -> Ref h ∈ S.

Inductive Reach roots : Key -> Prop :=
| reach_root k : k ∈ roots -> Reach roots k
| reach_edge k h : Reach roots k -> h ∈ edges_of k -> Reach roots (Ref h).

(** A map of charged keys is in order: closed, with the number of references from
    charged keys as counts. *)
Record Accurate K : Prop := {
  acc_ok : Rc_ok K;
  acc_closed : Closed (charged K);
  acc_counts h : rc K h = indeg (charged K) h
}.

Lemma Reach_closed S roots k : Closed S -> roots ⊆ S -> Reach roots k -> k ∈ S.
Proof. intros HS Hr. induction 1 as [k Hk|k h _ IH Hh]; [set_solver|]. by apply (HS k). Qed.

Lemma Accurate_default : Accurate RcMap_default.
Proof.
  assert (Hc : charged (RcMap_default : RcMap) = ∅) by (unfold charged; cbn; rewrite dom_empty_L; set_solver).
  split; [by intros h c E|intros k; rewrite Hc; set_solver|]. intros h. rewrite Hc. unfold indeg. by rewrite sum_set_empty.
Qed.

Lemma indeg_nonneg S h : 0 <= indeg S h.
Proof. apply sum_set_nonneg. intros k. apply refs_nonneg. Qed.
Lemma indeg_mono S W h : W ⊆ S -> indeg W h <= indeg S h.
Proof. apply sum_set_mono. intros k. apply refs_nonneg. Qed.

(** *** What has to be written *)

(** The references of the keys not yet added, which bounds the run. *)
Definition out_edges U : Z := sum_set (fun k => Z.of_nat (length (edges_of k))) U.

Lemma out_edges_nonneg U : 0 <= out_edges U.
Proof. apply sum_set_nonneg. lia. Qed.

Lemma get_writes_loop_spec {E} K roots U fuel : forall queue added,
  Closed (charged K) -> Closed U ->
  (forall k, k ∈ queue -> k ∈ U /\ Reach roots k) ->
  (forall k, k ∈ added -> k ∈ U /\ Reach roots k /\ (k ∉ charged K) /\
     forall h, h ∈ edges_of k -> Ref h ∈ added ∪ charged K ∪ list_to_set queue) ->
  roots ⊆ added ∪ charged K ∪ list_to_set queue ->
  Z.of_nat (length queue) + out_edges (U ∖ added) < Z.of_nat fuel ->
  exists W, get_writes_loop backend (E := E) fuel K queue added = Ret W /\ forall k, k ∈ W <-> Reach roots k /\ (k ∉ charged K).
Proof.
  induction fuel as [|fuel IH]; intros queue added HK HU Hq Ha Hr Hf; [pose proof (out_edges_nonneg (U ∖ added)); lia|].
  cbn [get_writes_loop]. destruct queue as [|k queue].
  - exists added. split; [done|]. intros k. split; [intros Hk; by destruct (Ha k Hk) as (_ & ? & ? & _)|].
    intros [HR Hn]. enough (k ∈ added ∪ charged K) by set_solver.
    refine (Reach_closed _ roots k _ _ HR); [|clear -Hr; set_solver]. intros x [Hx|Hx]%elem_of_union.
    + destruct (Ha x Hx) as (Hu & _ & _ & Hc). split; [by apply HU|]. intros h Hh%Hc. clear -Hh. set_solver.
    + destruct (HK x Hx) as [Hs Hc]. split; [done|]. intros h Hh%Hc. clear -Hh. set_solver.
  - rewrite contains_spec. destruct (Hq k) as [Hu HRk]; [by left|].
    destruct (negb (bool_decide (k ∈ charged K)) && negb (bool_decide (k ∈ added))) eqn:Eb.
    + apply andb_prop in Eb as [Hn1%negb_true_iff%bool_decide_eq_false Hn2%negb_true_iff%bool_decide_eq_false].
      destruct (HU k Hu) as [[l Hl] Hcl]. rewrite Hl. cbn [expect mbind outcome_bind].
      assert (Hel : edges_of k = l) by (unfold edges_of; by rewrite Hl).
      assert (Hq' : forall x, x ∈ reverse (Ref <$> l) ++ queue <-> (exists h, x = Ref h /\ h ∈ l) \/ x ∈ queue).
      { intros x. by rewrite elem_of_app, elem_of_reverse, list_elem_of_fmap. }
      apply IH; [done|done| | | |].
      * intros x [(h & -> & Hh)|Hx]%Hq'; [|apply Hq; by right]. split; [apply Hcl; by rewrite Hel|].
        eapply reach_edge; [exact HRk|]. by rewrite Hel.
      * intros x [->%elem_of_singleton|Hx]%elem_of_union.
        -- split_and!; [done..|]. intros h Hh. rewrite Hel in Hh. rewrite !elem_of_union, elem_of_list_to_set, Hq'. right. left. eauto.
        -- destruct (Ha x Hx) as (? & ? & ? & Hc). split_and!; [done..|]. intros h Hh%Hc.
           rewrite !elem_of_union, elem_of_list_to_set, Hq' in *. rewrite elem_of_cons in Hh. clear -Hh. set_solver.
      * intros x Hx%Hr. rewrite !elem_of_union, elem_of_list_to_set, Hq' in *. rewrite elem_of_cons in Hx. clear -Hx. set_solver.
      * assert (HU' : U ∖ added = {[k]} ∪ (U ∖ ({[k]} ∪ added))).
        { clear -Hu Hn2. apply set_eq. intros x. destruct (decide (x = k)) as [->|]; set_solver. }
        unfold out_edges in *. rewrite HU', sum_set_insert, Hel in Hf by set_solver.
        rewrite length_app, length_reverse, length_fmap. cbn [length] in Hf. lia.
    + assert (Hk : k ∈ added ∪ charged K).
      { rewrite andb_false_iff, !negb_false_iff, !bool_decide_eq_true in Eb. set_solver. }
      apply IH; [done|done| | | |].
      * intros x Hx. apply Hq. by right.
      * intros x Hx. destruct (Ha x Hx) as (? & ? & ? & Hc). split_and!; [done..|]. intros h Hh%Hc. clear -Hh Hk. set_solver.
      * clear -Hr Hk. set_solver.
      * cbn [length] in Hf. lia.
Qed.

Lemma get_writes_spec {E} K roots U fuel :
  Closed (charged K) -> Closed U -> roots ⊆ U -> Z.of_nat (size roots) + out_edges U < Z.of_nat fuel ->
  exists W, get_writes backend (E := E) fuel K roots = Ret W /\ forall k, k ∈ W <-> Reach roots k /\ (k ∉ charged K).
Proof.
  intros HK HU Hr Hf. unfold get_writes. eapply (get_writes_loop_spec K roots U); [done|done| | | |].
  - intros k Hk%elem_of_elements. split; [set_solver|by constructor].
  - intros k ?%elem_of_empty. done.
  - intros k Hk. rewrite !elem_of_union, elem_of_list_to_set, elem_of_elements. by right.
  - rewrite difference_empty_L. done.
Qed.

(** *** Adding the references of new keys *)

Definition cnt (m : gmap Key Z) (h : Hash) : Z := default 0 (m !! Ref h).
Definition list_indeg (l : list Key) (h : Hash) : Z := foldr Z.add 0 ((fun k => occ h (edges_of k)) <$> l).

Lemma list_indeg_nonneg l h : 0 <= list_indeg l h.
Proof. unfold list_indeg. induction l as [|k l IH]; cbn; [done|]. pose proof (refs_nonneg h (edges_of k)). lia. Qed.

Lemma inc_all_spec l : forall m,
  (forall h, 0 <= cnt m h /\ cnt m h + occ h l < 2 ^ 64) ->
  (forall h, cnt (foldl inc m (Ref <$> l)) h = cnt m h + occ h l) /\
  (forall k, k ∈ dom (foldl inc m (Ref <$> l)) <-> k ∈ dom m \/ exists h, k = Ref h /\ h ∈ l).
Proof.
  induction l as [|h0 l IH]; intros m Hb.
  - cbn [fmap list_fmap foldl occ]. split; [intros; lia|]. intros k. split; [by left|]. intros [|(h & _ & ?%not_elem_of_nil)]; done.
  - cbn [fmap list_fmap foldl occ]. cbn [occ] in Hb.
    assert (Hc : forall h, cnt (inc m (Ref h0)) h = cnt m h + if decide (h0 = h) then 1 else 0).
    { intros h. pose proof (Hb h) as Hbh. pose proof (refs_nonneg h l). unfold cnt, inc in *. destruct (decide (h0 = h)) as [->|Hne].
      - rewrite lookup_insert_eq. cbn [from_option]. change (wrap 64 (default 0 (m !! Ref h) + 1) = default 0 (m !! Ref h) + 1). unfold wrap. rewrite Z.mod_small; lia.
      - rewrite lookup_insert_ne by congruence. lia. }
    destruct (IH (inc m (Ref h0))) as [Hv Hd].
    { intros h. rewrite Hc. specialize (Hb h). pose proof (refs_nonneg h l). destruct (decide (h0 = h)); lia. }
    split.
    + intros h. rewrite Hv, Hc. lia.
    + intros k. rewrite Hd. unfold inc. rewrite dom_insert_L, elem_of_union, elem_of_singleton. setoid_rewrite elem_of_cons. naive_solver.
Qed.

Lemma count_edges_spec {E} l : forall m,
  (forall k, k ∈ l -> is_Some (edges k)) ->
  (forall h, 0 <= cnt m h /\ cnt m h + list_indeg l h < 2 ^ 64) ->
  exists m', count_edges backend (E := E) l m = Ret m' /\ (forall h, cnt m' h = cnt m h + list_indeg l h) /\
    (forall k, k ∈ dom m' <-> k ∈ dom m \/ exists k' h, k' ∈ l /\ k = Ref h /\ h ∈ edges_of k').
Proof.
  unfold count_edges. induction l as [|k l IH]; intros m Hs Hb.
  - exists m. cbn. split_and!; [done|intros; lia|]. intros k. split; [by left|]. intros [|(k' & h & ?%not_elem_of_nil & _)]; done.
  - cbn [try_fold_o]. destruct (Hs k) as [es He]; [by left|]. rewrite He. cbn [expect mbind outcome_bind mret outcome_ret].
    assert (Hes : edges_of k = es) by (unfold edges_of; by rewrite He).
    assert (Hb' : forall h, 0 <= cnt m h /\ cnt m h + occ h es + list_indeg l h < 2 ^ 64).
    { intros h. specialize (Hb h). unfold list_indeg in *. cbn in Hb. rewrite Hes in Hb. lia. }
    destruct (inc_all_spec es m) as [Hv Hd].
    { intros h. specialize (Hb' h). pose proof (list_indeg_nonneg l h). lia. }
    destruct (IH (foldl inc m (Ref <$> es))) as (m' & -> & Hv' & Hd').
    { intros k' Hk'. apply Hs. by right. }
    { intros h. rewrite Hv. specialize (Hb' h). pose proof (refs_nonneg h es). lia. }
    exists m'. split_and!; [done| |].
    + intros h. rewrite Hv', Hv. unfold list_indeg. cbn. rewrite Hes. lia.
    + intros k'. rewrite Hd', Hd. rewrite <- Hes. setoid_rewrite elem_of_cons. naive_solver.
Qed.

Definition by_of (h : Hash) (x : Key * Z) : Z :=
  match x.1 with Ref h' => if decide (h' = h) then x.2 else 0 | Direct _ _ => 0 end.
Definition sum_by (l : list (Key * Z)) (h : Hash) : Z := foldr Z.add 0 (by_of h <$> l).

Lemma sum_by_map (m : gmap Key Z) h : sum_by (map_to_list m) h = cnt m h.
Proof.
  unfold sum_by, cnt. induction m as [|k x m Hk IH] using map_ind; [by rewrite map_to_list_empty|].
  rewrite map_to_list_insert by done. cbn [fmap list_fmap foldr]. rewrite IH. unfold by_of. cbn [fst snd].
  destruct k as [h'|d cs].
  - destruct (decide (h' = h)) as [->|Hne]; [rewrite lookup_insert_eq, Hk; cbn; unfold id; lia|].
    by rewrite lookup_insert_ne by congruence.
  - by rewrite lookup_insert_ne by congruence.
Qed.

Lemma sum_by_nonneg l h : (forall h x, (Ref h, x) ∈ l -> 0 <= x) -> 0 <= sum_by l h.
Proof.
  unfold sum_by. induction l as [|[k x] l IH]; intros Hl; cbn; [done|].
  assert (0 <= foldr Z.add 0 (by_of h <$> l)) by (apply IH; intros ? ? ?; eapply Hl; by right).
  assert (0 <= by_of h (k, x)); [|lia]. unfold by_of. cbn. destruct k as [h'|]; [|done].
  destruct (decide (h' = h)); [|done]. apply (Hl h'). by left.
Qed.

Lemma apply_increments_spec l : forall K,
  Rc_ok K -> (forall h x, (Ref h, x) ∈ l -> 0 <= x) -> (forall h, rc K h + sum_by l h < 2 ^ 64) ->
  let K' := foldl apply_increment K l in
  Rc_ok K' /\ charged K' = charged K ∪ list_to_set (fst <$> l) /\ forall h, rc K' h = rc K h + sum_by l h.
Proof.
  induction l as [|[k by_] l IH]; intros K Hok Hp Hb; cbn [foldl].
  - split_and!; [done|set_solver|intros; cbn; lia].
  - assert (Hp' : forall h x, (Ref h, x) ∈ l -> 0 <= x) by (intros h x Hx; apply (Hp h); by right).
    pose proof (fun h => sum_by_nonneg l h Hp') as Hnn.
    set (K1 := apply_increment K (k, by_)).
    assert (H1 : Rc_ok K1 /\ charged K1 = {[k]} ∪ charged K /\ forall h, rc K1 h = rc K h + by_of h (k, by_)).
    { subst K1. unfold apply_increment, by_of. cbn [fst snd]. destruct k as [h|d cs].
      - pose proof (Hp h by_ ltac:(by left)) as Hby. rewrite rc_default. pose proof (rc_range K h Hok) as Hr. unfold in_u in Hr.
        specialize (Hb h). specialize (Hnn h). unfold sum_by, by_of in Hb, Hnn. cbn in Hb. rewrite decide_True in Hb by done.
        destruct (modify_rc_spec K h (wrap 64 (rc K h + by_)) Hok) as (Ho & Hc & Hv).
        { unfold wrap, in_u. apply Z.mod_pos_bound. lia. }
        split_and!; [done|done|]. intros h'. rewrite Hv. unfold wrap. rewrite Z.mod_small by lia.
        destruct (decide (h' = h)) as [->|]; [by rewrite decide_True|]. rewrite decide_False by congruence. lia.
      - destruct (ins_root_spec K d cs Hok) as (Ho & Hc & Hv). split_and!; [done|done|]. intros h. rewrite Hv. lia. }
    destruct H1 as (Ho & Hc & Hv). destruct (IH K1 Ho) as (Ho' & Hc' & Hv').
    { done. }
    { intros h. rewrite Hv. specialize (Hb h). unfold sum_by in *. cbn in Hb. lia. }
    split_and!; [done|rewrite Hc', Hc; set_solver|]. intros h. rewrite Hv', Hv. unfold sum_by. cbn. lia.
Qed.

Lemma update_rcmap_spec {E} K W :
  Accurate K -> W ## charged K -> Closed (W ∪ charged K) -> (forall h, indeg (W ∪ charged K) h < 2 ^ 64) ->
  exists K', update_rcmap backend (E := E) K W = Ret K' /\ Accurate K' /\ charged K' = W ∪ charged K.
Proof.
  intros [Hok _ Hcnt] Hd Hcl Hb. unfold update_rcmap.
  assert (Hin : forall h, indeg (W ∪ charged K) h = indeg W h + rc K h).
  { intros h. unfold indeg at 1. rewrite sum_set_union by done. by rewrite Hcnt. }
  assert (Hz : forall h, cnt (gset_to_gmap 0 W) h = 0).
  { intros h. unfold cnt. rewrite lookup_gset_to_gmap. by case_guard. }
  assert (Hrc : forall h, 0 <= rc K h) by (intros h; apply (rc_range K h Hok)).
  destruct (count_edges_spec (E := E) (elements W) (gset_to_gmap 0 W)) as (m & -> & Hv & Hdom).
  { intros k Hk%elem_of_elements. apply Hcl. set_solver. }
  { intros h. rewrite Hz. specialize (Hb h). specialize (Hrc h). rewrite Hin in Hb. unfold indeg, sum_set in Hb. unfold list_indeg. lia. }
  cbn [mbind outcome_bind mret outcome_ret]. eexists. split; [done|].
  destruct (apply_increments_spec (map_to_list m) K Hok) as (Ho & Hc & Hv').
  { intros h x Hx%elem_of_map_to_list. assert (x = cnt m h) as -> by (unfold cnt; by rewrite Hx). rewrite Hv, Hz. apply list_indeg_nonneg. }
  { intros h. rewrite sum_by_map, Hv, Hz. specialize (Hb h). rewrite Hin in Hb. unfold indeg, sum_set in Hb. unfold list_indeg. lia. }
  assert (Hc' : charged (foldl apply_increment K (map_to_list m)) = W ∪ charged K).
  { rewrite Hc. apply set_eq. intros k. rewrite !elem_of_union, elem_of_list_to_set, list_elem_of_fmap.
    assert (Hmd : (exists y, k = y.1 /\ y ∈ map_to_list m) <-> k ∈ dom m).
    { rewrite elem_of_dom. split; [intros ([k' x] & -> & Hx%elem_of_map_to_list); eauto|].
      intros [x Hx]. exists (k, x). by rewrite elem_of_map_to_list. }
    rewrite Hmd, Hdom, dom_gset_to_gmap. split; [|set_solver].
    intros [?|[?|(k' & h & Hk'%elem_of_elements & -> & Hh)]]; [by right|by left|].
    apply elem_of_union, (Hcl k'); [set_solver|done]. }
  split; [|done]. split; [done|by rewrite Hc'|]. intros h. rewrite Hc', Hin, Hv', sum_by_map, Hv, Hz. unfold indeg, sum_set, list_indeg. lia.
Qed.


(** *** Collecting *)

(** One collected key: its references are taken off, and what loses its last one
    is queued. *)
Lemma gc_children_spec K roots l : forall upd q,
  Rc_ok K -> (forall h, 0 <= cnt upd h /\ cnt upd h + occ h l <= rc K h) ->
  exists upd' pushed, foldl (gc_child K roots) (upd, q) (Ref <$> l) = (upd', pushed ++ q) /\
    (forall h, cnt upd' h = cnt upd h + occ h l) /\
    (forall k, k ∈ dom upd' <-> k ∈ dom upd \/ exists h, k = Ref h /\ h ∈ l) /\ NoDup pushed /\
    (forall k, k ∈ pushed <-> exists h, k = Ref h /\ h ∈ l /\ (k ∉ roots) /\ cnt upd h + occ h l = rc K h).
Proof.
  induction l as [|h0 l IH]; intros upd q Hok Hb; cbn [fmap list_fmap foldl].
  - exists upd, []. split_and!; [done|intros; cbn; lia| |constructor|].
    + intros k. split; [by left|]. intros [|(h & _ & ?%not_elem_of_nil)]; done.
    + intros k. split; [by intros ?%not_elem_of_nil|]. by intros (h & _ & ?%not_elem_of_nil & _).
  - unfold gc_child at 2. cbn [fst snd]. rewrite rc_default.
    pose proof (Hb h0) as [Hb0 Hb1]. cbn [occ] in Hb1. rewrite decide_True in Hb1 by done. pose proof (refs_nonneg h0 l) as Ho.
    pose proof (rc_range K h0 Hok) as Hr. unfold in_u in Hr.
    assert (Hw : wrap 64 (default 0 (upd !! Ref h0) + 1) = cnt upd h0 + 1).
    { change (default 0 (upd !! Ref h0)) with (cnt upd h0). unfold wrap. rewrite Z.mod_small; lia. }
    rewrite Hw. set (upd1 := <[Ref h0 := cnt upd h0 + 1]> upd).
    assert (Hc : forall h, cnt upd1 h = cnt upd h + if decide (h0 = h) then 1 else 0).
    { intros h. unfold upd1. unfold cnt at 1. destruct (decide (h0 = h)) as [->|Hne]; [by rewrite lookup_insert_eq|].
      rewrite lookup_insert_ne by congruence. change (default 0 (upd !! Ref h)) with (cnt upd h). lia. }
    set (p0 := if (rc K h0 <=? cnt upd h0 + 1) && negb (bool_decide (Ref h0 ∈ roots)) then [Ref h0] else [] : list Key).
    replace (if _ && _ then Ref h0 :: q else q) with (p0 ++ q) by (unfold p0; by destruct (_ && _)).
    destruct (IH upd1 (p0 ++ q) Hok) as (upd' & pushed & -> & Hv & Hd & Hnd & Hp).
    { intros h. rewrite Hc. pose proof (Hb h) as Hbh. cbn [occ] in Hbh. pose proof (refs_nonneg h l). destruct (decide (h0 = h)); lia. }
    assert (Hp0 : forall k, k ∈ p0 <-> k = Ref h0 /\ (k ∉ roots) /\ cnt upd h0 + 1 = rc K h0).
    { intros k. unfold p0. destruct (Z.leb_spec (rc K h0) (cnt upd h0 + 1)); cbn [andb].
      - destruct (bool_decide_reflect (Ref h0 ∈ roots)); cbn [negb].
        + split; [by intros ?%not_elem_of_nil|by intros (-> & ? & _)].
        + rewrite list_elem_of_singleton. split; [intros ->; split_and!; [done|done|lia]|by intros (? & _)].
      - split; [by intros ?%not_elem_of_nil|intros (_ & _ & ?); lia]. }
    exists upd', (pushed ++ p0). rewrite <- app_assoc. split_and!; [done| | | |].
    + intros h. rewrite Hv, Hc. cbn [occ]. lia.
    + intros k. rewrite Hd. unfold upd1. rewrite dom_insert_L, elem_of_union, elem_of_singleton. setoid_rewrite elem_of_cons. naive_solver.
    + apply NoDup_app. split_and!; [done| |unfold p0; destruct (_ && _); [apply NoDup_singleton|constructor]].
      intros k (h & -> & Hh%refs_pos & _ & _)%Hp ([= ->] & _ & Heq)%Hp0. lia.
    + intros k. rewrite elem_of_app, Hp, Hp0. setoid_rewrite elem_of_cons. cbn [occ]. split.
      * intros [(h & -> & Hh & Hr' & Heq)|(-> & Hr' & Heq)].
        -- exists h. split_and!; [done|by right|done|]. rewrite Hc in Heq. lia.
        -- exists h0. split_and!; [done|by left|done|]. rewrite decide_True by done. lia.
      * intros (h & -> & Hh & Hr' & Heq). destruct (decide (h ∈ l)) as [Hin|Hnin].
        -- left. exists h. rewrite Hc. split_and!; [done..|lia].
        -- destruct Hh as [->|]; [|done]. right. split_and!; [done|done|]. rewrite decide_True in Heq by done.
           assert (occ h0 l = 0) by (rewrite <- refs_pos in Hnin; lia). lia.
Qed.

(** What has been collected so far, and what is queued: exactly the keys that are
    no root and have lost all references. *)
Definition unreferenced K (R : gset Key) k : Prop := match k with Ref h => rc K h = indeg R h | Direct _ _ => True end.

Record Collecting K roots (todo : list Key) (upd : gmap Key Z) (R : gset Key) : Prop := {
  gc_nodup : NoDup todo;
  gc_removed k : k ∈ R -> k ∈ charged K /\ (k ∉ roots);
  gc_todo k : k ∈ todo -> k ∈ charged K /\ (k ∉ roots) /\ (k ∉ R);
  gc_counts h : cnt upd h = indeg R h;
  gc_dom k : k ∈ dom upd -> exists h, k = Ref h /\ k ∈ charged K;
  gc_exact k : k ∈ charged K -> k ∉ roots -> k ∈ R \/ k ∈ todo <-> unreferenced K R k
}.

Lemma Collecting_perm K roots todo todo' upd R :
  todo ≡ₚ todo' -> Collecting K roots todo upd R -> Collecting K roots todo' upd R.
Proof. intros Hp [Hn Hr Ht Hc Hd He]. split; [by rewrite <- Hp|done|intros k; rewrite <- Hp; apply Ht|done|done|intros k; rewrite <- Hp; apply He]. Qed.

Lemma indeg_insert R k h : k ∉ R -> indeg ({[k]} ∪ R) h = occ h (edges_of k) + indeg R h.
Proof. intros Hk. unfold indeg. by rewrite sum_set_insert. Qed.

Lemma Collecting_step K roots k todo upd R q :
  Accurate K -> Collecting K roots (k :: todo) upd R ->
  exists l upd' pushed, edges k = Some l /\ foldl (gc_child K roots) (upd, q) (Ref <$> l) = (upd', pushed ++ q) /\
    Collecting K roots (pushed ++ todo) upd' ({[k]} ∪ R).
Proof.
  intros [Hok Hcl Hcnt] [Hn Hr Ht Hc Hd He]. destruct (Ht k) as (Hk & Hkr & HkR); [by left|].
  destruct (Hcl k Hk) as [[l Hl] Hch]. assert (Hel : edges_of k = l) by (unfold edges_of; by rewrite Hl). rewrite Hel in Hch.
  assert (HR' : forall h, indeg ({[k]} ∪ R) h = occ h l + indeg R h) by (intros h; by rewrite indeg_insert, Hel).
  assert (Hle : forall h, occ h l + indeg R h <= rc K h).
  { intros h. rewrite <- HR', Hcnt. apply indeg_mono. set_solver. }
  assert (Hun : forall x, unreferenced K R x -> unreferenced K ({[k]} ∪ R) x).
  { intros [h|]; cbn; [|done]. rewrite HR'. specialize (Hle h). pose proof (refs_nonneg h l). lia. }
  assert (Hnew : forall h, h ∈ l -> Ref h ∉ roots -> ~ (Ref h ∈ R \/ Ref h ∈ k :: todo)).
  { intros h Hh%refs_pos Hr'. rewrite He by (done || apply Hch; by apply refs_pos). cbn. specialize (Hle h). lia. }
  destruct (gc_children_spec K roots l upd q Hok) as (upd' & pushed & E & Hv & Hd' & Hnd & Hp).
  { intros h. rewrite Hc. pose proof (indeg_nonneg R h). specialize (Hle h). lia. }
  exists l, upd', pushed. split_and!; [done|done|]. apply NoDup_cons in Hn as [Hkt Hn]. split.
  - apply NoDup_app. split_and!; [done| |done]. intros x (h & -> & Hh & Hr' & _)%Hp Hx. apply (Hnew h Hh Hr'). right. by right.
  - set_solver.
  - intros x [(h & -> & Hh & Hr' & _)%Hp|Hx]%elem_of_app.
    + split_and!; [by apply Hch|done|]. intros [Heq%elem_of_singleton|Hx]%elem_of_union; apply (Hnew h Hh Hr'); [right; rewrite Heq; by left|by left].
    + destruct (Ht x) as (? & ? & ?); [by right|]. split_and!; [done..|]. set_solver.
  - intros h. rewrite Hv, Hc, HR'. lia.
  - intros x [Hx|(h & -> & Hh)]%Hd'; [by apply Hd|eauto].
  - intros x Hx Hxr. rewrite elem_of_union, elem_of_singleton, elem_of_app. split.
    + intros [[->|HxR]|[(h & -> & Hh & _ & Heq)%Hp|Hxt]].
      * apply Hun, He; [done..|]. right. by left.
      * apply Hun, He; [done..|by left].
      * cbn. rewrite HR', <- Hc. lia.
      * apply Hun, He; [done..|]. right. by right.
    + intros Hu. destruct x as [h|d cs].
      * cbn in Hu. rewrite HR' in Hu. destruct (decide (h ∈ l)) as [Hh|Hh].
        -- right. left. apply Hp. exists h. split_and!; [done..|]. rewrite Hc. lia.
        -- rewrite <- refs_pos in Hh. pose proof (refs_nonneg h l).
           assert (HuR : unreferenced K R (Ref h)) by (cbn; lia). apply He in HuR; [|done..]. rewrite elem_of_cons in HuR. naive_solver.
      * assert (HuR : unreferenced K R (Direct d cs)) by done. apply He in HuR; [|done..]. rewrite elem_of_cons in HuR. naive_solver.
Qed.

Lemma gc_loop_spec {E} K roots limit : forall sq q upd R,
  Accurate K -> Collecting K roots (sq ++ q) upd R ->
  exists upd' R' todo, gc_loop backend (E := E) limit K roots sq q upd R = Ret (upd', R') /\
    Collecting K roots todo upd' R' /\ (size (charged K) <= limit + size R -> todo = [])%nat.
Proof.
  induction limit as [|limit IH]; intros sq q upd R HK HC.
  - exists upd, R, (sq ++ q). split_and!; [|done|].
    + cbn [gc_loop]. by destruct sq; [destruct q|].
    + intros Hs. destruct (sq ++ q) as [|k todo] eqn:Et; [done|]. exfalso.
      destruct (gc_todo _ _ _ _ _ HC k) as (Hk & _ & HkR); [by left|].
      assert (HR : R ⊂ charged K); [|apply subset_size in HR; lia].
      split; [intros x Hx; by apply (gc_removed _ _ _ _ _ HC)|]. intros Hsub. by apply HkR, Hsub.
  - destruct (sq ++ q) as [|k todo] eqn:Et.
    + apply app_nil in Et as [-> ->]. exists upd, R, []. by split_and!.
    + destruct (gc_todo _ _ _ _ _ HC k) as (Hk & _ & HkR); [by left|].
      assert (exists sq' q', todo = sq' ++ q' /\ (match sq with k :: sq => Some (k, sq, q)
        | [] => match q with k :: q => Some (k, [], q) | [] => None end end) = Some (k, sq', q')) as (sq' & q' & -> & Hnext).
      { destruct sq as [|k' sq']; cbn in Et; [|injection Et as -> <-; eauto]. subst q. by exists [], todo. }
      destruct (Collecting_step K roots k (sq' ++ q') upd R q' HK HC) as (l & upd' & pushed & El & Ef & HC').
      cbn [gc_loop]. rewrite Hnext, El. cbn [expect mbind outcome_bind]. rewrite Ef.
      destruct (IH sq' (pushed ++ q') upd' ({[k]} ∪ R) HK) as (u & R' & t & -> & HC2 & Hlim).
      { eapply Collecting_perm; [|exact HC']. rewrite !app_assoc. f_equiv. apply Permutation_app_comm. }
      exists u, R', t. split_and!; [done|done|]. intros Hs. apply Hlim. rewrite size_union, size_singleton by set_solver. lia.
Qed.

(** *** Writing the collection back *)

Lemma apply_decrements_spec K l : forall K1,
  Rc_ok K -> Rc_ok K1 -> NoDup l.*1 -> (forall x, x ∈ l -> 0 <= x.2 /\ exists h, x.1 = Ref h) ->
  let K' := foldl (apply_decrement K) K1 l in
  Rc_ok K' /\ charged K' = charged K1 ∪ list_to_set l.*1 /\
  forall h, rc K' h = match (list_to_map l : gmap Key Z) !! Ref h with Some x => sat_sub (rc K h) x | None => rc K1 h end.
Proof.
  induction l as [|[k x] l IH]; intros K1 Hok Hok1 Hnd Hl; cbn [foldl].
  - split_and!; [done|set_solver|done].
  - destruct (Hl (k, x)) as [Hx [h0 Hk]]; [by left|]. cbn in Hx, Hk. subst k. cbn [fmap list_fmap] in Hnd. apply NoDup_cons in Hnd as [Hn Hnd].
    unfold apply_decrement at 2 4 6. cbn [fst snd]. rewrite rc_default.
    destruct (modify_rc_spec K1 h0 (sat_sub (rc K h0) x) Hok1) as (Ho & Hc & Hv).
    { pose proof (rc_range K h0 Hok). unfold in_u, sat_sub in *. lia. }
    destruct (IH (modify_rc K1 h0 (sat_sub (rc K h0) x)) Hok Ho Hnd) as (Ho' & Hc' & Hv').
    { intros y Hy. apply Hl. by right. }
    split_and!; [done|rewrite Hc', Hc; cbn; set_solver|]. intros h. rewrite Hv', Hv. cbn [list_to_map foldr fst snd uncurry].
    destruct (decide (h = h0)) as [->|Hne].
    + rewrite lookup_insert_eq. by rewrite (not_elem_of_list_to_map_1 l (Ref h0)) by done.
    + by rewrite lookup_insert_ne by congruence.
Qed.

Lemma remove_keys_spec {E} l : forall K,
  Rc_ok K -> NoDup l -> (forall k, k ∈ l -> k ∈ rc_0 K) ->
  exists K', try_fold_o (E := E) (fun m key => expect (remove_unreachable_key m key)) K l = Ret K' /\
    Rc_ok K' /\ charged K' = charged K ∖ list_to_set l /\ forall h, rc K' h = rc K h.
Proof.
  induction l as [|k l IH]; intros K Hok Hnd Hl; cbn [try_fold_o]; [exists K; split_and!; [done|done|set_solver|done]|].
  apply NoDup_cons in Hnd as [Hn Hnd].
  destruct (remove_key_spec K k Hok) as (K1 & -> & Hok1 & Hc1 & Hv1 & H0); [by apply Hl; left|]. cbn [expect mbind outcome_bind].
  destruct (IH K1 Hok1 Hnd) as (K' & -> & Hok' & Hc' & Hv'); [intros x Hx; rewrite H0; specialize (Hl x); set_solver|].
  exists K'. split_and!; [done|done|rewrite Hc', Hc1; set_solver|]. intros h. by rewrite Hv'.
Qed.


Context (output_size : Z) (keys_of : gset Key -> list Key).

(** The order of the persistent map's keys does not matter. *)
Context (Hkeys : forall S, keys_of S ≡ₚ elements S).

Lemma Collecting_start K roots :
  Accurate K -> Collecting K roots (get_unreachable_keys_not_in keys_of K roots) ∅ ∅.
Proof.
  intros [Hok _ Hcnt]. unfold get_unreachable_keys_not_in.
  assert (Hin : forall k, k ∈ filter (fun k => k ∉ roots) (keys_of (rc_0 K)) <-> (k ∉ roots) /\ k ∈ rc_0 K).
  { intros k. by rewrite list_elem_of_filter, Hkeys, elem_of_elements. }
  split.
  - apply NoDup_filter. rewrite Hkeys. apply NoDup_elements.
  - set_solver.
  - intros k [Hr Hk]%Hin. apply rc_0_spec in Hk as [Hk _]; [|done]. split_and!; [done|done|set_solver].
  - intros h. unfold cnt, indeg. by rewrite lookup_empty, sum_set_empty.
  - intros k. rewrite dom_empty. set_solver.
  - intros k Hk Hr. rewrite Hin, rc_0_spec by done. unfold unreferenced, indeg. destruct k as [h|]; [rewrite sum_set_empty|]; set_solver.
Qed.

Lemma gc_rcmap_spec {E} K roots limit :
  Accurate K ->
  exists K' R, gc_rcmap backend keys_of (E := E) K roots limit = Ret (K', R) /\ Accurate K' /\
    charged K' = charged K ∖ R /\ R ⊆ charged K /\ R ## roots /\
    ((size (charged K) <= limit)%nat -> forall k, k ∈ charged K' -> k ∉ roots -> exists k' h, k' ∈ charged K' /\ k = Ref h /\ h ∈ edges_of k').
Proof.
  intros HK. pose proof HK as [Hok Hcl Hcnt]. unfold gc_rcmap.
  destruct (gc_loop_spec (E := E) K roots limit (get_unreachable_keys_not_in keys_of K roots) [] ∅ ∅ HK)
    as (upd & R & todo & -> & [_ Hr Ht Hc Hd He] & Hlim); [rewrite app_nil_r; by apply Collecting_start|].
  cbn [mbind outcome_bind].
  destruct (apply_decrements_spec K (map_to_list upd) K Hok Hok) as (Ho1 & Hc1 & Hv1).
  { apply NoDup_fst_map_to_list. }
  { intros [k x] Hx%elem_of_map_to_list. destruct (Hd k) as (h & -> & _); [by eapply elem_of_dom_2|]. cbn. split; [|eauto].
    assert (x = cnt upd h) as -> by (unfold cnt; by rewrite Hx). rewrite Hc. apply indeg_nonneg. }
  set (K1 := foldl _ _ _) in *. rewrite list_to_map_to_list in Hv1.
  assert (HRs : R ⊆ charged K) by (intros k Hk; by apply Hr).
  assert (Hv1' : forall h, rc K1 h = rc K h - indeg R h).
  { intros h. rewrite Hv1, <- Hc. pose proof (Hc h) as Hch. pose proof (indeg_mono (charged K) R h HRs) as Hm. rewrite <- Hcnt in Hm.
    unfold cnt in *. destruct (upd !! Ref h) as [x|]; cbn in *; unfold id, sat_sub in *; lia. }
  assert (Hc1' : charged K1 = charged K).
  { rewrite Hc1. apply set_eq. intros k. rewrite elem_of_union, elem_of_list_to_set, list_elem_of_fmap. split; [|by left].
    intros [?|([k' x] & -> & Hx%elem_of_map_to_list)]; [done|]. destruct (Hd k') as (h & -> & ?); [by eapply elem_of_dom_2|done]. }
  destruct (remove_keys_spec (E := E) (elements R) K1 Ho1 (NoDup_elements R)) as (K' & -> & Ho' & Hc' & Hv').
  { intros k Hk%elem_of_elements. destruct (Hr k Hk) as [Hkc Hkr]. apply rc_0_spec; [done|]. rewrite Hc1'. split; [done|].
    destruct k as [h|]; [|done]. rewrite Hv1'. assert (Hu : unreferenced K R (Ref h)) by (apply He; [done..|by left]). cbn in Hu. lia. }
  cbn [mbind outcome_bind mret outcome_ret]. rewrite list_to_set_elements_L, Hc1' in Hc'.
  assert (Hin : forall h, indeg (charged K') h = rc K h - indeg R h).
  { intros h. rewrite Hc'. unfold indeg. rewrite sum_set_difference by done. by rewrite Hcnt. }
  exists K', R. split_and!; [done| |done|done|intros k Hk1 Hk2; by apply (Hr k Hk1)|].
  - split; [done| |intros h; by rewrite Hin, Hv', Hv1'].
    intros k Hk. rewrite Hc' in Hk |- *. apply elem_of_difference in Hk as [Hk HkR]. destruct (Hcl k Hk) as [Hs Hch].
    split; [done|]. intros h Hh. apply elem_of_difference. split; [by apply Hch|]. intros HhR. destruct (Hr _ HhR) as [Hh1 Hh2].
    assert (Hu : unreferenced K R (Ref h)) by (apply He; [done..|by left]). cbn in Hu. apply refs_pos in Hh.
    pose proof (sum_set_elem (fun k => occ h (edges_of k)) (charged K') k (fun k => refs_nonneg h _)) as Hle.
    specialize (Hin h). unfold indeg in Hin at 1. rewrite Hc' in Hle, Hin. specialize (Hle ltac:(set_solver)). cbn in Hle. lia.
  - intros Hsz k Hk Hkr. rewrite Hlim in He by (rewrite size_empty; lia). rewrite Hc' in Hk. apply elem_of_difference in Hk as [Hk HkR].
    assert (Hu : ~ unreferenced K R k) by (rewrite <- He by done; rewrite elem_of_nil; naive_solver).
    destruct k as [h|]; [|done]. cbn in Hu. pose proof (indeg_nonneg (charged K') h) as Hp. specialize (Hin h).
    destruct (sum_set_pos (fun k => occ h (edges_of k)) (charged K')) as (k' & Hk' & Hocc); [intros; apply refs_nonneg|unfold indeg in *; lia|].
    exists k', h. split_and!; [done|done|]. by apply refs_pos.
Qed.

(** Stored nodes form no cycles: they are addressed by the hash of their contents. *)
Definition acyclic (rank : Key -> nat) : Prop := forall k h, h ∈ edges_of k -> (rank (Ref h) < rank k)%nat.

Lemma all_reached (rank : Key -> nat) S roots :
  acyclic rank ->
  (forall k, k ∈ S -> k ∉ roots -> exists k' h, k' ∈ S /\ k = Ref h /\ h ∈ edges_of k') ->
  forall k, k ∈ S -> Reach roots k.
Proof.
  intros Hac Hp.
  assert (exists N, forall k, k ∈ S -> (rank k <= N)%nat) as [N HN].
  { clear. induction S as [|x S Hx [N IH]] using set_ind_L; [exists 0%nat; set_solver|].
    exists (rank x + N)%nat. intros k [->%elem_of_singleton|Hk%IH]%elem_of_union; lia. }
  assert (Hn : forall n k, (N - rank k <= n)%nat -> k ∈ S -> Reach roots k).
  { induction n as [|n IH]; intros k Hle Hk; (destruct (decide (k ∈ roots)) as [?|Hr]; [by constructor|]);
      destruct (Hp k Hk Hr) as (k' & h & Hk' & -> & Hh); pose proof (Hac _ _ Hh) as Hlt; pose proof (HN k' Hk').
    - lia.
    - eapply reach_edge; [|exact Hh]. apply IH; [lia|done]. }
  intros k Hk. by apply (Hn (N - rank k)%nat k).
Qed.

(** *** Sizes *)

Definition bytes_of k : Z := default 0 (key_bytes backend output_size k).

Lemma foldl_add l : forall a, foldl Z.add a l = a + foldr Z.add 0 l.
Proof. induction l as [|x l IH]; intros a; cbn; [lia|]. rewrite IH. lia. Qed.

Lemma compute_bytes_spec {E} S :
  Closed S \/ (forall k, k ∈ S -> is_Some (edges k)) ->
  compute_bytes_from_keys backend output_size (E := E) S = Ret (wrap 64 (sum_set bytes_of S)).
Proof.
  intros HS. assert (Hs : forall k, k ∈ S -> is_Some (key_bytes backend output_size k)).
  { intros k Hk. assert (He : is_Some (edges k)) by (destruct HS as [HS|HS]; by apply HS). destruct k as [h|]; cbn in *; [|eauto].
    unfold arena_children in He. destruct (backend h); cbn in *; [eauto|by destruct He]. }
  unfold compute_bytes_from_keys.
  assert (Hm : mapM (key_bytes backend output_size) (elements S) = Some (bytes_of <$> elements S)).
  { apply mapM_Some. assert (Hf : Forall (fun k => is_Some (key_bytes backend output_size k)) (elements S)).
    { apply Forall_forall. intros k Hk%elem_of_elements. by apply Hs. }
    induction Hf as [|k l [x Hx] Hf IH]; cbn; constructor; [|done]. unfold bytes_of. by rewrite Hx. }
  rewrite Hm. cbn [expect mbind outcome_bind mret outcome_ret]. rewrite foldl_add. done.
Qed.
End costing.

Lemma size_union_le {A} `{Countable A} (X Y : gset A) : (size (X ∪ Y) <= size X + size Y)%nat.
Proof. rewrite size_union_alt. pose proof (subseteq_size (Y ∖ X) Y ltac:(set_solver)). lia. Qed.

(** A node refers to another at most as often as it refers to anything. *)
Lemma indeg_le_out {Hash} `{Countable Hash} (backend : Hash -> option (OnDiskObject Hash)) S h :
  indeg backend S h <= out_edges backend S.
Proof.
  unfold indeg, out_edges, sum_set. induction (elements S) as [|k l IH]; cbn; [done|].
  assert (occ h (edges_of backend k) <= Z.of_nat (length (edges_of backend k))); [|lia].
  clear. induction (edges_of backend k) as [|x l IH]; cbn [occ length]; [done|]. destruct (decide (x = h)); lia.
Qed.

(** ** Properties *)

Section theorems.
Context {Hash : Type} `{Countable Hash} (backend : Hash -> option (OnDiskObject Hash)) (output_size : Z).
Implicit Types (K : RcMap Hash) (S U W R : gset (ArenaKey Hash)).
Local Abbreviation Reach := (Reach backend).
Local Abbreviation bytes S := (sum_set (bytes_of backend output_size) S).

(** The part of the arena a run may visit: closed, with counts and sizes that fit
    64 bits, and small enough for the fuel. *)
Record Visible K U (r : gset (ArenaKey Hash)) (fuel : nat) : Prop := {
  vis_closed : Closed backend U;
  vis_roots : r ⊆ U;
  vis_fuel : Z.of_nat (size r) + out_edges backend U < Z.of_nat fuel;
  vis_counts h : indeg backend (U ∪ charged K) h < 2 ^ 64;
  vis_bytes : bytes (U ∪ charged K) < 2 ^ 64
}.
(** The keys to write and the updated counts. *)
Lemma writes_updated {E} K U r fuel :
  Accurate backend K -> Visible K U r fuel ->
  exists W K', get_writes backend (E := E) fuel K r = Ret W /\ update_rcmap backend (E := E) K W = Ret K' /\
    (forall k, k ∈ W <-> Reach r k /\ (k ∉ charged K)) /\ W ⊆ U /\ Accurate backend K' /\ charged K' = W ∪ charged K.
Proof.
  intros HK HV. pose proof HK as [Hok Hcl Hcnt]. destruct HV as [HU Hr Hf Hb _].
  destruct (get_writes_spec (E := E) backend K r U fuel Hcl HU Hr Hf) as (W & EW & HW).
  assert (HWU : W ⊆ U) by (intros k [Hk _]%HW; by eapply Reach_closed).
  destruct (update_rcmap_spec (E := E) backend K W HK) as (K' & EK & HK' & Hc).
  - set_solver.
  - intros k [[HR Hn]%HW|Hk]%elem_of_union.
    + split; [apply HU, HWU, HW; done|]. intros h Hh. destruct (decide (Ref h ∈ charged K)); [set_solver|].
      apply elem_of_union. left. apply HW. split; [by eapply reach_edge|done].
    + destruct (Hcl k Hk) as [Hs Hch]. split; [done|]. intros h Hh%Hch. set_solver.
  - intros h. eapply Z.le_lt_trans; [apply (indeg_mono backend (U ∪ charged K))|apply Hb]. set_solver.
  - exists W, K'. done.
Qed.

Context (Hout : 0 <= output_size).

Lemma bytes_nonneg k : 0 <= bytes_of backend output_size k.
Proof.
  unfold bytes_of, key_bytes. destruct k as [h|d cs].
  - destruct (backend h); cbn; [unfold on_disk_size|done]. unfold id. nia.
  - cbn [default from_option]. unfold id. enough (0 <= key_serialized_size output_size (Direct d cs)) by lia.
    generalize (Direct d cs : ArenaKey Hash). clear -Hout. intros k. induction k as [h|d cs IH] using ArenaKey_nested_ind; cbn; [lia|].
    assert (Hf : forall a, 0 <= a -> 0 <= fold_left (fun acc c => acc + key_serialized_size output_size c) cs a).
    { induction IH as [|c cs Hc _ IH']; cbn; intros a Ha; [done|]. apply IH'. lia. }
    match goal with |- context [fold_left _ _ ?a] => specialize (Hf a ltac:(lia)) end. lia.
Qed.

(** Bytes of a part of what is visible do not overflow. *)
Lemma bytes_exact {E} K U S r fuel :
  Visible K U r fuel -> S ⊆ U ∪ charged K -> (forall k, k ∈ S -> is_Some (edges backend k)) ->
  compute_bytes_from_keys backend output_size (E := E) S = Ret (bytes S).
Proof.
  intros HV HS He. rewrite compute_bytes_spec by (by right). f_equal. unfold wrap. apply Z.mod_small.
  pose proof (vis_bytes _ _ _ _ HV). pose proof (sum_set_mono (bytes_of backend output_size) _ S bytes_nonneg HS).
  pose proof (sum_set_nonneg (bytes_of backend output_size) S bytes_nonneg). lia.
Qed.

Context (keys_of : gset (ArenaKey Hash) -> list (ArenaKey Hash)) (Hkeys : forall S, keys_of S ≡ₚ elements S).

Lemma incremental_charged {E} K U r fuel cpu_cost gc_limit rank :
  Accurate backend K -> Visible K U r fuel -> acyclic backend rank ->
  exists res W R, incremental_write_delete_costs backend output_size keys_of (E := E) fuel K r cpu_cost gc_limit = Ret res /\
    let K' := updated_charged_keys res in
    Accurate backend K' /\ (forall k, Reach r k -> k ∈ charged K') /\
    (forall k, k ∈ W <-> Reach r k /\ (k ∉ charged K)) /\ (forall k, k ∈ R -> ~ Reach r k) /\
    charged K' = (W ∪ charged K) ∖ R /\
    nodes_written res = Z.of_nat (size W) /\ nodes_deleted res = Z.of_nat (size R) /\
    wd_bytes_written res = bytes W /\ bytes (charged K') = bytes (charged K) + wd_bytes_written res - wd_bytes_deleted res /\
    ((size (W ∪ charged K) <= gc_limit (cpu_cost (Z.of_nat (size W)) 0%Z))%nat -> forall k, k ∈ charged K' <-> Reach r k).
Proof.
  intros HK HV Hac. destruct (writes_updated (E := E) K U r fuel HK HV) as (W & K1 & EW & EK & HW & HWU & HK1 & Hc1).
  unfold incremental_write_delete_costs. rewrite EW. cbn [mbind outcome_bind]. rewrite EK. cbn [mbind outcome_bind].
  destruct (gc_rcmap_spec (E := E) backend keys_of Hkeys K1 r (gc_limit (cpu_cost (Z.of_nat (size W)) 0)) HK1)
    as (K' & R & -> & HK' & Hc' & HR & Hrr & Hgc). cbn [mbind outcome_bind]. unfold WriteDeleteResults_new.
  assert (Hreach : forall k, Reach r k -> k ∈ charged K').
  { intros k. apply Reach_closed; [apply HK'|]. intros x Hx. rewrite Hc', Hc1.
    destruct (decide (x ∈ charged K)); [set_solver|]. assert (x ∈ W) by (apply HW; split; [by constructor|done]). set_solver. }
  rewrite (bytes_exact (E := E) K U W r fuel HV); [|clear -HWU; set_solver|intros k Hk%HWU; by apply (vis_closed _ _ _ _ HV)].
  cbn [mbind outcome_bind].
  rewrite (bytes_exact (E := E) K U R r fuel HV);
    [|rewrite Hc1 in HR; clear -HWU HR; set_solver|intros k Hk%HR; by apply (acc_closed _ _ HK1)].
  cbn [mbind outcome_bind mret outcome_ret]. eexists _, W, R. split; [done|]. cbn [updated_charged_keys nodes_written nodes_deleted wd_bytes_written wd_bytes_deleted].
  split_and!; [done|done|done| |by rewrite Hc', Hc1|done|done|done| |].
  - intros k HkR Hk%Hreach. rewrite Hc' in Hk. set_solver.
  - assert (HWd : W ## charged K) by (intros x [_ Hx]%HW; done). rewrite Hc', sum_set_difference, Hc1, sum_set_union by done. lia.
  - rewrite Hc1 in Hgc. intros Hl k. split; [|apply Hreach]. apply (all_reached backend rank); [done|]. by apply Hgc.
Qed.

(** C18. Storage is charged exactly once.  Charging a new state against the keys
    paid for so far never fails; it writes exactly the keys reachable from the
    new roots that are not paid for, and deletes keys that no root reaches; the
    keys paid for afterwards are again closed under references with exact
    counts, contain everything the new roots reach, and differ in size by the
    bytes written less the bytes deleted.  When the collection is not cut off,
    they are exactly what the roots reach. *)
Theorem storage_charged_exactly {E} K U r fuel cpu_cost gc_limit rank :
  Accurate backend K -> Visible K U r fuel -> acyclic backend rank ->
  exists res W R, incremental_write_delete_costs backend output_size keys_of (E := E) fuel K r cpu_cost gc_limit = Ret res /\
    let K' := updated_charged_keys res in
    Accurate backend K' /\ (forall k, Reach r k -> k ∈ charged K') /\
    (forall k, k ∈ W <-> Reach r k /\ (k ∉ charged K)) /\ (forall k, k ∈ R -> ~ Reach r k) /\
    charged K' = (W ∪ charged K) ∖ R /\
    nodes_written res = Z.of_nat (size W) /\ nodes_deleted res = Z.of_nat (size R) /\
    wd_bytes_written res = bytes W /\ bytes (charged K') = bytes (charged K) + wd_bytes_written res - wd_bytes_deleted res /\
    ((size (W ∪ charged K) <= gc_limit (cpu_cost (Z.of_nat (size W)) 0%Z))%nat -> forall k, k ∈ charged K' <-> Reach r k).
Proof. apply incremental_charged. Qed.
End theorems.

(** ** Example *)

(** Node 1 refers to 2 and 3, node 2 to 3, node 4 to 3 and to node 5 through an
    embedded node.  The state moves from 1 to 4. *)
Module DeltaExample.
Definition backend (h : Z) : option (OnDiskObject Z) :=
  if h =? 1 then Some (mkOnDiskObject [7] [Ref 2; Ref 3])
  else if h =? 2 then Some (mkOnDiskObject [8; 8] [Ref 3])
  else if h =? 3 then Some (mkOnDiskObject [9] [])
  else if h =? 4 then Some (mkOnDiskObject [] [Ref 3; Direct [1] [Ref 5]])
  else if h =? 5 then Some (mkOnDiskObject [5] [])
  else None.
Definition keys_of (S : gset (ArenaKey Z)) : list (ArenaKey Z) := elements S.
Definition universe : gset (ArenaKey Z) := list_to_set (Ref <$> [1; 2; 3; 4; 5]).
Definition rank (k : ArenaKey Z) : nat :=
  match k with Ref h => if h =? 1 then 3%nat else if h =? 2 then 2%nat else if h =? 4 then 2%nat else 1%nat | Direct _ _ => 4%nat end.
Definition cost (w d : Z) : RunningCost := RunningCost_compute (w + d).
Definition charged1 : RcMap Z :=
  match (W ← get_writes backend 20 RcMap_default {[Ref 1]}; update_rcmap backend RcMap_default W) : outcome Empty_set _ with
  | Ret K => K
  | _ => RcMap_default
  end.
Definition moved (limit : nat) : outcome Empty_set WriteDeleteResults :=
  incremental_write_delete_costs backend 32 keys_of 20 charged1 {[Ref 4]} cost (fun _ => limit).

Lemma backend_inv h o : backend h = Some o ->
  h = 1 /\ o = mkOnDiskObject [7] [Ref 2; Ref 3] \/ h = 2 /\ o = mkOnDiskObject [8; 8] [Ref 3] \/
  h = 3 /\ o = mkOnDiskObject [9] [] \/ h = 4 /\ o = mkOnDiskObject [] [Ref 3; Direct [1] [Ref 5]] \/
  h = 5 /\ o = mkOnDiskObject [5] [].
Proof. unfold backend. repeat match goal with |- context [h =? ?n] => destruct (Z.eqb_spec h n); [intros [= <-]; naive_solver|] end. done. Qed.

Lemma universe_closed : Closed backend universe.
Proof.
  intros k Hk. unfold universe in Hk. rewrite elem_of_list_to_set, list_elem_of_fmap in Hk. destruct Hk as (h & -> & Hh).
  repeat (apply elem_of_cons in Hh as [->|Hh]); [..|by apply not_elem_of_nil in Hh]; (split; [by eexists|]); intros h Hin; cbn in Hin;
    repeat (apply elem_of_cons in Hin as [->|Hin]); try (by apply not_elem_of_nil in Hin); vm_compute; reflexivity.
Qed.

Lemma backend_acyclic : acyclic backend rank.
Proof.
  intros [h|d cs] h' Hh'; cbn in Hh'; unfold edges_of, edges, arena_children in Hh'.
  - destruct (backend h) as [o|] eqn:E; [|by apply not_elem_of_nil in Hh'].
    apply backend_inv in E as [[-> ->]|[[-> ->]|[[-> ->]|[[-> ->]|[-> ->]]]]]; cbn in Hh';
      repeat (apply elem_of_cons in Hh' as [->|Hh']); try (by apply not_elem_of_nil in Hh'); cbn; lia.
  - cbn. destruct (h' =? 1), (h' =? 2), (h' =? 4); lia.
Qed.

Lemma example_visible K r fuel :
  r ⊆ universe -> charged K ⊆ universe -> Z.of_nat (size r) + out_edges backend universe < Z.of_nat fuel ->
  Visible backend 32 K universe r fuel.
Proof.
  intros Hr HK Hf. assert (HU : universe ∪ charged K = universe) by set_solver.
  split; [apply universe_closed|done|exact Hf| |].
  - intros h. rewrite HU. eapply Z.le_lt_trans; [apply indeg_le_out|]. vm_compute. reflexivity.
  - rewrite HU. vm_compute. reflexivity.
Qed.

Lemma charged1_accurate : Accurate backend charged1.
Proof.
  destruct (writes_updated backend 32 (E := Empty_set) RcMap_default universe {[Ref 1]} 20) as (W & K & EW & EK & _ & _ & HK & _).
  - apply Accurate_default.
  - apply example_visible; [by apply (bool_decide_unpack _); vm_compute|by apply (bool_decide_unpack _); vm_compute|vm_compute; reflexivity].
  - unfold charged1. rewrite EW. cbn [mbind outcome_bind]. by rewrite EK.
Qed.
End DeltaExample.

(** Moving from node 1 to node 4 writes nodes 4 and 5, and deletes 1 and 2. *)
Lemma storage_charged_exactly_witness :
  exists res, DeltaExample.moved 100 = Ret res /\ wd_bytes_written res = 145 /\
    forall k, k ∈ charged (updated_charged_keys res) <-> Reach DeltaExample.backend {[Ref 4]} k.
Proof.
  destruct (storage_charged_exactly DeltaExample.backend 32 ltac:(lia) DeltaExample.keys_of (fun S => Permutation_refl _)
    (E := Empty_set) DeltaExample.charged1 DeltaExample.universe {[Ref 4]} 20 DeltaExample.cost (fun _ => 100%nat)
    DeltaExample.rank DeltaExample.charged1_accurate) as (res & W & R & E & _ & _ & _ & _ & Hc & Hn & _ & Hw & _ & Hall).
  - apply DeltaExample.example_visible; [by apply (bool_decide_unpack _); vm_compute|by apply (bool_decide_unpack _); vm_compute|vm_compute; reflexivity].
  - apply DeltaExample.backend_acyclic.
  - assert (Hv : (fun r => (nodes_written r, wd_bytes_written r)) <$> DeltaExample.moved 100 = Ret (2, 145)) by (vm_compute; reflexivity).
    assert (E' : DeltaExample.moved 100 = Ret res) by exact E. rewrite E' in Hv. injection Hv as Hv1 Hv2.
    exists res. split; [exact E'|]. split; [exact Hv2|]. apply Hall. rewrite Hn in Hv1.
    pose proof (size_union_le W (charged DeltaExample.charged1)) as Hs.
    replace (size (charged DeltaExample.charged1)) with 3%nat in Hs by (vm_compute; reflexivity). lia.
Defined.
