(* ===== verification/StorageBackend.v ===== *)
(** * The storage back-end ([storage-core/src/backend.rs], [gc.rs], [cache.rs], [db.rs])

    The back-end stands between the arena and the database.  It keeps nodes in
    two caches, counts references to nodes that are not in the database yet, keeps
    the counts of roots, writes nodes to the database when the caches grow, and
    collects nodes that nothing refers to.  The configuration is the one with
    [layout-v2] and [gc-v1], where nodes carry no reference counts and garbage is
    collected by marking and sweeping in steps.

    The LRU cache is a library and a parameter ([Lru], with the laws in
    [LruLaws]), and so are the orders in which hash maps and hash sets are listed
    and the order of hashes ([Platform]).  The database is [InMemoryDB].  The
    collector measures the time it has left; the batch sizes it derives from this
    are arguments.  Assertions, debug assertions and overflows panic. *)

From S2P Require Import Prelude Cost DeltaTracking.
From stdpp Require Import gmap sorting.

Local Open Scope Z_scope.

(** ** Values in memory *)

Record Delta := mkDelta { ref_delta : Z; root_delta : Z }.

(** Asserted to be nonzero; the callers pass 1 and -1. *)
Definition new_ref_delta (ref_delta : Z) : Delta := mkDelta ref_delta 0.
Definition new_root_delta (root_delta : Z) : Delta := mkDelta 0 root_delta.

(** Checked addition of 32-bit integers. *)
Definition i32_add {E} (a b : Z) : outcome E Z := if decide (in_i 32 (a + b)) then Ret (a + b) else Panic.

Definition Delta_combine {E} (self other : Delta) : outcome E (option Delta) :=
  ref ← i32_add (ref_delta self) (ref_delta other);
  root ← i32_add (root_delta self) (root_delta other);
  Ret (if (ref =? 0) && (root =? 0) then None else Some (mkDelta ref root)).

(** [CacheValue], without [Dummy], which stands for a value only while
    [update_counts] holds it. *)
Inductive CacheValue {Hash : Type} :=
| CRead (obj : OnDiskObject Hash)
| CUpdate (delta : Delta)
| CReadAndUpdate (delta : Delta) (obj : OnDiskObject Hash)
| CCreate (obj : OnDiskObject Hash)
| CCreateAndUpdate (obj : OnDiskObject Hash) (delta : Delta)
| CCreateAndDelete (obj : OnDiskObject Hash) (delta : Delta).
Arguments CacheValue : clear implicits.

Definition get_obj {Hash} (v : CacheValue Hash) : option (OnDiskObject Hash) :=
  match v with
  | CUpdate _ => None
  | CRead obj | CReadAndUpdate _ obj | CCreate obj | CCreateAndUpdate obj _ | CCreateAndDelete obj _ => Some obj
  end.

Definition is_pending {Hash} (v : CacheValue Hash) : bool :=
  match v with CRead _ => false | _ => true end.

(** ** The cache *)

(** [lru::LruCache]: [lru_iter] lists the entries, [lru_set] assigns through
    [peek_mut]. *)
Class Lru (K V : Type) := {
  lru : Type;
  lru_new : nat -> lru;
  lru_unbounded : lru;
  lru_cap : lru -> option nat;
  lru_iter : lru -> list (K * V);
  lru_peek : lru -> K -> option V;
  lru_set : lru -> K -> V -> lru;
  lru_push : lru -> K -> V -> lru * option (K * V);
  lru_put : lru -> K -> V -> lru;
  lru_pop_entry : lru -> K -> lru * option (K * V);
  lru_promote : lru -> K -> lru;
  lru_pop_lru : lru -> lru * option (K * V);
  lru_clear : lru -> lru
}.
Arguments lru K V {_}.

Section cache.
Context {K V : Type} `{EqDecision K} {L : Lru K V}.

(** [Cache::new]: a capacity of zero is a panic, which the callers exclude. *)
Definition Cache_set (self : lru K V) (key : K) (value : V) : lru K V * option (K * V) :=
  let '(c, evicted) := lru_push self key value in
  (c, match evicted with Some (k, _) => if decide (k = key) then None else evicted | None => None end).
Definition Cache_update_in_place {E} (self : lru K V) (key : K) (value : V) : outcome E (lru K V) :=
  if decide (is_Some (lru_peek self key)) then Ret (lru_put self key value) else Panic.
Definition Cache_len (self : lru K V) : nat := length (lru_iter self).
End cache.

(** ** The database *)

Class Platform (Hash : Type) `{Countable Hash} := {
  set_iter : gset Hash -> list Hash;
  hashmap_iter : gmap Hash (CacheValue Hash) -> list (Hash * CacheValue Hash);
  hash_le : relation Hash;
  hash_le_dec :: RelDecision hash_le
}.

Record InMemoryDB {Hash} `{Countable Hash} := mkDB {
  nodes : gmap Hash (OnDiskObject Hash);
  roots : gmap Hash Z
}.
Arguments InMemoryDB Hash {_ _}.

Inductive DbUpdate {Hash : Type} := InsertNode (obj : OnDiskObject Hash) | DeleteNode | SetRootCount (count : Z).
Arguments DbUpdate : clear implicits.

Section database.
Context {Hash : Type} `{Countable Hash} {PF : Platform Hash}.
Local Abbreviation Obj := (OnDiskObject Hash).
Local Abbreviation DB := (InMemoryDB Hash).
Implicit Types db : DB.

Definition get_node db (key : Hash) : option Obj := nodes db !! key.
Definition insert_node db (key : Hash) (object : Obj) : DB := mkDB _ _ _ (<[key := object]> (nodes db)) (roots db).
Definition delete_node db (key : Hash) : DB := mkDB _ _ _ (delete key (nodes db)) (roots db).
Definition db_root_count db (key : Hash) : Z := default 0 (roots db !! key).
Definition set_root_count db (key : Hash) (count : Z) : DB :=
  mkDB _ _ _ (nodes db) (if 0 <? count then <[key := count]> (roots db) else delete key (roots db)).

Definition db_update db (u : Hash * DbUpdate Hash) : DB :=
  match u.2 with
  | InsertNode value => insert_node db u.1 value
  | DeleteNode => delete_node db u.1
  | SetRootCount count => set_root_count db u.1 count
  end.
Definition batch_update db (iter : list (Hash * DbUpdate Hash)) : DB := foldl db_update db iter.
Definition batch_get_nodes db (keys : list Hash) : list (Hash * option Obj) := (fun k => (k, get_node db k)) <$> keys.

(** The entries of the tree map, in the order of the keys. *)
Definition node_range db : list (Hash * Obj) := merge_sort (fun a b => hash_le a.1 b.1) (map_to_list (nodes db)).
Definition scan db (resume_from : option Hash) (batch_size : nat) : list (Hash * Obj) * option Hash :=
  let batch := take batch_size
    (match resume_from with Some handle => filter (fun kv => ~ hash_le kv.1 handle) (node_range db) | None => node_range db end) in
  (batch, fst <$> last batch).

Definition child_refs (o : Obj) : list Hash := od_children o ≫= refs.

(** [bfs_get_nodes].  One level: the keys not seen before are looked up in the
    cache, the others in the database. *)
Definition bfs_cached (cache_get : Hash -> option Obj) (truncate : bool) (acc : gset Hash * list Hash * list Hash) (k : Hash)
  : gset Hash * list Hash * list Hash :=
  let '(visited, next_keys, unknown_keys) := acc in
  if decide (k ∈ visited) then acc
  else match cache_get k with
       | Some node => ({[k]} ∪ visited, if truncate then next_keys else next_keys ++ child_refs node, unknown_keys)
       | None => ({[k]} ∪ visited, next_keys, unknown_keys ++ [k])
       end.
Definition bfs_fetched {E} (current_depth : nat) (acc : list Hash * list (Hash * Obj)) (kv : Hash * option Obj)
  : outcome E (list Hash * list (Hash * Obj)) :=
  match kv.2 with
  | Some node => Ret (acc.1 ++ child_refs node, acc.2 ++ [(kv.1, node)])
  | None => if (0 <? current_depth)%nat then Panic else Ret acc
  end.
Definition below (bound : option nat) (n : nat) : bool := match bound with Some b => (n <=? b)%nat | None => true end.
Fixpoint bfs_loop {E} (fuel : nat) db (cache_get : Hash -> option Obj) (truncate : bool) (max_depth max_count : option nat)
  (current_depth : nat) (current_keys : list Hash) (visited : gset Hash) (kvs : list (Hash * Obj)) : outcome E (list (Hash * Obj)) :=
  if decide (current_keys = []) then Ret kvs
  else if negb (below max_depth current_depth) then Ret kvs
  else match fuel with
  | O => Panic
  | S fuel =>
      let '(visited, next_keys, unknown_keys) := foldl (bfs_cached cache_get truncate) (visited, [], []) current_keys in
      unknown_keys ← match max_count with
        | Some n => if decide (n < length kvs)%nat then Panic else Ret (take (n - length kvs) unknown_keys)
        | None => Ret unknown_keys
        end;
      '(next_keys, kvs) ← try_fold_o (bfs_fetched current_depth) (next_keys, kvs) (batch_get_nodes db unknown_keys);
      bfs_loop fuel db cache_get truncate max_depth max_count (S current_depth) next_keys visited kvs
  end.
End database.

(** ** The collector *)

Record GcState {Hash} `{Countable Hash} := mkGcState {
  rescan : bool;
  last_roots : gset Hash;
  grey_set : gset Hash;
  mark_set : gset Hash;
  sweep_resume : option Hash
}.
Arguments GcState Hash {_ _}.

Section collector.
Context {Hash : Type} `{Countable Hash} {PF : Platform Hash}.
Local Abbreviation Obj := (OnDiskObject Hash).
Local Abbreviation DB := (InMemoryDB Hash).
Local Abbreviation Gc := (GcState Hash).
Implicit Types (db : DB) (gc : Gc).

Definition GcState_default : Gc := mkGcState _ _ _ true ∅ ∅ ∅ None.
Definition force_rescan gc : Gc := mkGcState _ _ _ true (last_roots gc) (grey_set gc) (mark_set gc) (sweep_resume gc).
Definition with_sets gc (mark grey : gset Hash) : Gc := mkGcState _ _ _ (rescan gc) (last_roots gc) grey mark (sweep_resume gc).

(** The roots: all of them after a change of root counts in the database, else the
    new ones. *)
Definition gc_roots gc (live : list Hash) (db_roots : list Hash) : Gc :=
  if rescan gc then
    let last := list_to_set live ∪ list_to_set db_roots in
    mkGcState _ _ _ false last (grey_set gc ∪ (last ∖ mark_set gc)) (mark_set gc) (sweep_resume gc)
  else foldl (fun gc root =>
    if decide (root ∈ last_roots gc) then gc
    else mkGcState _ _ _ (rescan gc) ({[root]} ∪ last_roots gc) ({[root]} ∪ grey_set gc) (mark_set gc) (sweep_resume gc)) gc live.

(** A child that is neither marked nor grey becomes grey. *)
Definition grey_child (acc : gset Hash * gset Hash * gset Hash) (child : Hash) : gset Hash * gset Hash * gset Hash :=
  let '(mark, grey, next) := acc in
  if decide (child ∈ mark) then acc else if decide (child ∈ grey) then acc else (mark, {[child]} ∪ grey, {[child]} ∪ next).

(** Marking in the caches: [next] are the keys that became grey. *)
Definition mark_cached (cache_read : Hash -> option Obj) (acc : gset Hash * gset Hash * gset Hash) (hash : Hash) : gset Hash * gset Hash * gset Hash :=
  match cache_read hash with
  | Some obj => let '(mark, grey, next) := acc in foldl grey_child ({[hash]} ∪ mark, grey ∖ {[hash]}, next) (child_refs obj)
  | None => acc
  end.
Fixpoint mark_in_cache {E} (fuel : nat) (cache_read : Hash -> option Obj) (to_process mark grey : gset Hash) : outcome E (gset Hash * gset Hash) :=
  if decide (to_process = ∅) then Ret (mark, grey)
  else match fuel with
  | O => Panic
  | S fuel =>
      let '(mark, grey, next) := foldl (mark_cached cache_read) (mark, grey, ∅) (set_iter to_process) in
      mark_in_cache fuel cache_read next mark grey
  end.

(** Marking in the database, in batches of the given sizes. *)
Definition mark_read (acc : gset Hash * gset Hash) (read : Hash * option Obj) : gset Hash * gset Hash :=
  let '(mark, grey, _) := foldl grey_child ({[read.1]} ∪ acc.1, acc.2 ∖ {[read.1]}, ∅) (from_option child_refs [] read.2) in (mark, grey).
Fixpoint mark_on_disk db (batch_sizes : list nat) (mark grey : gset Hash) : gset Hash * gset Hash :=
  if decide (grey = ∅) then (mark, grey)
  else match batch_sizes with
  | [] => (mark, grey)
  | batch_size :: batch_sizes =>
      let batch := take batch_size (set_iter grey) in
      let '(mark, grey) := foldl mark_read (list_to_set batch ∪ mark, grey) (batch_get_nodes db batch) in
      mark_on_disk db batch_sizes mark grey
  end.

(** Sweeping, in batches. *)
Fixpoint sweep db (batch_sizes : list nat) (mark : gset Hash) (resume : option Hash) (cull_set : list Hash) : DB * option Hash * list Hash :=
  match batch_sizes with
  | [] => (db, resume, cull_set)
  | batch_size :: batch_sizes =>
      let '(batch, handle) := scan db resume batch_size in
      let to_delete := filter (fun k => k ∉ mark) batch.*1 in
      let db := batch_update db ((fun k => (k, DeleteNode)) <$> to_delete) in
      if decide (handle = None) then (db, handle, cull_set ++ to_delete) else sweep db batch_sizes mark handle (cull_set ++ to_delete)
  end.

(** [GcState::run]; [cached] bounds the number of nodes in the caches. *)
Definition gc_run {E} gc (live db_roots : list Hash) (read_sizes scan_sizes : list nat) db (cached : nat) (cache_read : Hash -> option Obj)
  : outcome E (Gc * DB * list Hash) :=
  let gc := gc_roots gc live db_roots in
  '(mark, grey) ← mark_in_cache (S (S (S cached))) cache_read (grey_set gc) (mark_set gc) (grey_set gc);
  let '(mark, grey) := mark_on_disk db read_sizes mark grey in
  if decide (grey <> ∅) then Ret (with_sets gc mark grey, db, [])
  else
    let '(db, resume, cull_set) := sweep db scan_sizes mark (sweep_resume gc) [] in
    match resume with
    | Some _ => Ret (mkGcState _ _ _ (rescan gc) (last_roots gc) grey mark resume, db, cull_set)
    | None => Ret (mkGcState _ _ _ true ∅ grey ∅ None, db, cull_set)
    end.
End collector.

(** ** The back-end *)

Record StorageBackendStats := mkStats { get_cache_hits : Z; get_cache_misses : Z }.

Record StorageBackend {Hash} `{Countable Hash} {L : Lru Hash (CacheValue Hash)} := mkBackend {
  database : InMemoryDB Hash;
  cache_size : nat;
  read_cache : lru Hash (CacheValue Hash);
  write_cache : lru Hash (CacheValue Hash);
  live_inserts : gset Hash;
  stats : StorageBackendStats;
  gc_state : GcState Hash
}.
Arguments StorageBackend Hash {_ _ _}.

Section backend.
Context {Hash : Type} `{Countable Hash} {L : Lru Hash (CacheValue Hash)} {PF : Platform Hash}.
Context {E : Type}.
Local Abbreviation Obj := (OnDiskObject Hash).
Local Abbreviation Value := (CacheValue Hash).
Local Abbreviation Backend := (StorageBackend Hash).
Implicit Types (self : Backend) (key : Hash).

Definition backend_new (cache_size : nat) (database : InMemoryDB Hash) : Backend :=
  mkBackend _ _ _ _ database cache_size (if (0 <? cache_size)%nat then lru_new cache_size else lru_unbounded) lru_unbounded ∅ (mkStats 0 0) GcState_default.

Definition with_caches self (r w : lru Hash Value) : Backend :=
  mkBackend _ _ _ _ (database self) (cache_size self) r w (live_inserts self) (stats self) (gc_state self).
Definition with_live self (live : gset Hash) : Backend :=
  mkBackend _ _ _ _ (database self) (cache_size self) (read_cache self) (write_cache self) live (stats self) (gc_state self).
Definition with_db self (db : InMemoryDB Hash) (gc : GcState Hash) : Backend :=
  mkBackend _ _ _ _ db (cache_size self) (read_cache self) (write_cache self) (live_inserts self) (stats self) gc.
Definition with_stats self (hits misses : Z) : Backend :=
  mkBackend _ _ _ _ (database self) (cache_size self) (read_cache self) (write_cache self) (live_inserts self)
    (mkStats (wrap 64 (get_cache_hits (stats self) + hits)) (wrap 64 (get_cache_misses (stats self) + misses))) (gc_state self).

Definition peek_from_memory self key : option Value :=
  match lru_peek (write_cache self) key with Some value => Some value | None => lru_peek (read_cache self) key end.

(** Assignment through [peek_mut_from_memory]. *)
Definition assign_in_memory self key (value : Value) : Backend :=
  if decide (is_Some (lru_peek (write_cache self) key)) then with_caches self (read_cache self) (lru_set (write_cache self) key value)
  else with_caches self (lru_set (read_cache self) key value) (write_cache self).

Definition remove_from_memory self key : outcome E (Backend * Value) :=
  let '(w, popped) := lru_pop_entry (write_cache self) key in
  match popped with
  | Some kv => Ret (with_caches self (read_cache self) w, kv.2)
  | None =>
      let '(r, popped) := lru_pop_entry (read_cache self) key in
      match popped with Some kv => Ret (with_caches self r w, kv.2) | None => Panic end
  end.

Definition cache_insert_new_key self key (value : Value) : outcome E Backend :=
  if decide (is_Some (peek_from_memory self key)) then Panic
  else if is_pending value then
    let '(w, evicted) := Cache_set (write_cache self) key value in
    match evicted with None => Ret (with_caches self (read_cache self) w) | Some _ => Panic end
  else
    let '(r, evicted) := Cache_set (read_cache self) key value in
    match evicted with
    | Some (_, v) => if is_pending v then Panic else Ret (with_caches self r (write_cache self))
    | None => Ret (with_caches self r (write_cache self))
    end.

Definition promote self key : Backend :=
  if decide (is_Some (lru_peek (write_cache self) key)) then with_caches self (read_cache self) (lru_promote (write_cache self) key)
  else with_caches self (lru_promote (read_cache self) key) (write_cache self).

(** *** Counts *)

Inductive Action := Replace (value : Value) | Remove | RemoveWithChildren (obj : Obj).

(** What a change of counts does to a value in memory. *)
Definition count_action (v : Value) (delta : Delta) : outcome E Action :=
  match v with
  | CRead obj => Ret (Replace (CReadAndUpdate delta obj))
  | CUpdate old_delta => d ← Delta_combine delta old_delta; Ret (match d with Some delta => Replace (CUpdate delta) | None => Remove end)
  | CReadAndUpdate old_delta obj =>
      d ← Delta_combine delta old_delta; Ret (Replace (match d with Some delta => CReadAndUpdate delta obj | None => CRead obj end))
  | CCreate obj => Ret (Replace (CCreateAndUpdate obj delta))
  | CCreateAndUpdate obj old_delta =>
      d ← Delta_combine delta old_delta; Ret (Replace (match d with Some delta => CCreateAndUpdate obj delta | None => CCreate obj end))
  | CCreateAndDelete obj old_delta =>
      d ← Delta_combine delta old_delta; Ret (match d with Some delta => Replace (CCreateAndDelete obj delta) | None => RemoveWithChildren obj end)
  end.

(** One key of [update_counts], and the references of the node that the change
    removes, if any. *)
Definition update_count self key (delta : Delta) : outcome E (Backend * list Hash) :=
  match peek_from_memory self key with
  | Some value =>
      action ← count_action value delta;
      match action with
      | Replace value' =>
          let self := assign_in_memory self key value' in
          if decide (is_pending value = is_pending value') then Ret (promote self key, [])
          else '(self, value) ← remove_from_memory self key; self ← cache_insert_new_key self key value; Ret (self, [])
      | Remove => '(self, _) ← remove_from_memory self key; Ret (self, [])
      | RemoveWithChildren obj => '(self, _) ← remove_from_memory self key; Ret (self, child_refs obj)
      end
  | None => self ← cache_insert_new_key self key (CUpdate delta); Ret (self, [])
  end.

(** The recursion of [update_counts] as a list of changes still to be made: those
    of a removed node come before the rest. *)
Fixpoint update_loop (fuel : nat) self (work : list (Hash * Delta)) : outcome E Backend :=
  match work with
  | [] => Ret self
  | (key, delta) :: work =>
      match fuel with
      | O => Panic
      | S fuel => '(self, removed) ← update_count self key delta; update_loop fuel self (((., new_ref_delta (-1)) <$> removed) ++ work)
      end
  end.

(** The references of new nodes in memory, which bounds the length of the loop. *)
Definition created_obj (v : Value) : option Obj :=
  match v with CCreate obj | CCreateAndUpdate obj _ | CCreateAndDelete obj _ => Some obj | _ => None end.
Definition created_refs self : nat :=
  sum_list_with (fun kv : Hash * Value => from_option (fun o => length (child_refs o)) O (created_obj kv.2)) (lru_iter (write_cache self)).

Definition update_counts self (keys : list Hash) (delta : Delta) : outcome E Backend :=
  update_loop (length keys + created_refs self) self ((., delta) <$> keys).

(** *** Operations *)

Definition get self key : outcome E (Backend * option Obj) :=
  if decide (is_Some (peek_from_memory self key ≫= get_obj)) then
    '(self, value) ← remove_from_memory (with_stats self 1 0) key;
    self ← cache_insert_new_key self key value;
    value ← expect (peek_from_memory self key);
    obj ← expect (get_obj value);
    Ret (self, Some obj)
  else
    let self := with_stats self 0 1 in
    self ← match get_node (database self) key with
      | Some obj =>
          match peek_from_memory self key with
          | Some (CUpdate delta) => '(self, _) ← remove_from_memory self key; cache_insert_new_key self key (CReadAndUpdate delta obj)
          | _ => cache_insert_new_key self key (CRead obj)
          end
      | None => Ret self
      end;
    Ret (self, peek_from_memory self key ≫= get_obj).

Definition value_root_delta (v : Value) : Z :=
  match v with
  | CRead _ | CCreate _ => 0
  | CUpdate d | CReadAndUpdate d _ | CCreateAndUpdate _ d | CCreateAndDelete _ d => root_delta d
  end.

Definition get_root_count self key : outcome E Z :=
  root_count ← i32_add (wrap_i 32 (db_root_count (database self) key)) (from_option value_root_delta 0 (peek_from_memory self key));
  if root_count <? 0 then Panic else Ret root_count.

Definition get_roots self : outcome E (gmap Hash Z) :=
  try_fold_o (fun roots_map key =>
    root_count ← get_root_count self key;
    Ret (if 0 <? root_count then <[key := root_count]> roots_map else delete key roots_map)) (roots (database self)) (lru_iter (write_cache self)).*1.

Definition cache self key (data : list Z) (children : list (ArenaKey Hash)) : outcome E Backend :=
  if decide (key ∈ live_inserts self) then Panic
  else
    let self := with_live self ({[key]} ∪ live_inserts self) in
    if decide (is_Some (peek_from_memory self key ≫= get_obj)) then
      '(self, value) ← remove_from_memory self key;
      cache_insert_new_key self key (match value with CCreateAndDelete obj delta => CCreateAndUpdate obj delta | _ => value end)
    else
      self ← update_counts self (children ≫= refs) (new_ref_delta 1);
      match peek_from_memory self key with
      | Some (CUpdate delta) =>
          '(self, _) ← remove_from_memory self key; cache_insert_new_key self key (CCreateAndUpdate (mkOnDiskObject data children) delta)
      | _ => cache_insert_new_key self key (CCreate (mkOnDiskObject data children))
      end.

Definition cache_lazy self key : Backend := with_live self ({[key]} ∪ live_inserts self).

Definition uncache self key : outcome E Backend :=
  if decide (key ∉ live_inserts self) then Panic
  else
    let self := with_live self (live_inserts self ∖ {[key]}) in
    match peek_from_memory self key with
    | Some (CCreate obj) => '(self, _) ← remove_from_memory self key; update_counts self (child_refs obj) (new_ref_delta (-1))
    | Some (CCreateAndUpdate obj delta) =>
        w ← Cache_update_in_place (write_cache self) key (CCreateAndDelete obj delta); Ret (with_caches self (read_cache self) w)
    | _ => Ret self
    end.

Definition unpersist self key : outcome E Backend := update_counts self [key] (new_root_delta (-1)).
Definition persist self key : outcome E Backend := update_counts self [key] (new_root_delta 1).

Definition pre_fetch self key (max_depth : option nat) (truncate : bool) : outcome E Backend :=
  let max_count := if (0 <? cache_size self)%nat then Some (cache_size self) else None in
  kvs ← bfs_loop (2 + size (nodes (database self)) + Cache_len (read_cache self) + Cache_len (write_cache self)) (database self)
    (fun key => peek_from_memory self key ≫= get_obj) truncate max_depth max_count 0 [key] ∅ [];
  try_fold_o (fun self (kv : Hash * Obj) => cache_insert_new_key self kv.1 (CRead kv.2)) self (reverse kvs).

(** The updates of the database that a value from the write cache stands for, and
    whether they change a root count. *)
Definition flush_updates (db : InMemoryDB Hash) (k : Hash) (v : Value) : outcome E (list (Hash * DbUpdate Hash) * bool) :=
  let inserted := match created_obj v with Some obj => [(k, InsertNode obj)] | None => [] end in
  if value_root_delta v =? 0 then Ret (inserted, false)
  else
    root_count ← i32_add (wrap_i 32 (db_root_count db k)) (value_root_delta v);
    if root_count <? 0 then Panic else Ret (inserted ++ [(k, SetRootCount root_count)], true).
Definition flush_one (acc : Backend * list (Hash * DbUpdate Hash)) (kv : Hash * Value) : outcome E (Backend * list (Hash * DbUpdate Hash)) :=
  let '(self, updates) := acc in
  let '(k, v) := kv in
  if is_pending v then
    self ← match get_obj v with Some obj => cache_insert_new_key self k (CRead obj) | None => Ret self end;
    '(new, rooted) ← flush_updates (database self) k v;
    Ret (if rooted : bool then with_db self (database self) (force_rescan (gc_state self)) else self, updates ++ new)
  else Panic.
Definition flush_to_db self (writes : list (Hash * Value)) : outcome E Backend :=
  '(self, updates) ← try_fold_o flush_one (self, []) writes;
  Ret (with_db self (batch_update (database self) updates) (gc_state self)).

(** Entries popped from the write cache until it has the size of the cache. *)
Fixpoint evict (n : nat) (w : lru Hash Value) (evictions : gmap Hash Value) : outcome E (lru Hash Value * gmap Hash Value) :=
  match n with
  | O => Ret (w, evictions)
  | S n => match lru_pop_lru w with (w, Some (k, v)) => evict n w (<[k := v]> evictions) | (_, None) => Panic end
  end.
Definition flush_cache_evictions_to_db self : outcome E Backend :=
  if decide (cache_size self = O) then Ret self
  else
    '(w, evictions) ← evict (Cache_len (write_cache self) - cache_size self) (write_cache self) ∅;
    flush_to_db (with_caches self (read_cache self) w) (hashmap_iter evictions).

Definition flush_all_changes_to_db self : outcome E Backend :=
  flush_to_db (with_caches self (read_cache self) (lru_clear (write_cache self))) (lru_iter (write_cache self)).

(** [gc_override_gc_roots], with the roots that the argument finds in the
    database; [gc] takes those of the database.  The result counts the removed
    nodes. *)
Definition gc_override_gc_roots self (read_sizes scan_sizes : list nat) (roots_of : InMemoryDB Hash -> list Hash) : outcome E (Backend * Z) :=
  '(gc, db, culled) ← gc_run (gc_state self) (set_iter (live_inserts self)) (roots_of (database self)) read_sizes scan_sizes (database self)
    (Cache_len (read_cache self) + Cache_len (write_cache self)) (fun key => peek_from_memory self key ≫= get_obj);
  let w := foldl (fun w key => (lru_pop_entry w key).1) (write_cache self) culled in
  let r := foldl (fun r key => (lru_pop_entry r key).1) (read_cache self) culled in
  Ret (with_caches (with_db self db gc) r w, Z.of_nat (length culled)).
Definition gc self (read_sizes scan_sizes : list nat) : outcome E (Backend * Z) :=
  gc_override_gc_roots self read_sizes scan_sizes (fun db => (map_to_list (roots db)).*1).

Definition get_write_cache_len self : Z := Z.of_nat (Cache_len (write_cache self)).
Definition get_write_cache_obj_bytes (output_size : Z) self : Z :=
  foldr Z.add 0 (omap (fun kv : Hash * Value => on_disk_size output_size <$> get_obj kv.2) (lru_iter (write_cache self))).
End backend.
