(* ===== verification/BackendInvariant.v ===== *)
(** * The invariant of the back-end

    The keys of the arena are hashes of contents, so that a key stands for one
    node.  A caller marks nodes as live ([cache] and [uncache]) and as roots
    ([persist] and [unpersist]).  The invariant says what the caches and the
    database hold for the nodes that are needed: those reachable from live nodes
    and roots.  Reading, marking and writing to the database keep it. *)

From S2P Require Import Prelude Cost DeltaTracking StorageBackend.
From stdpp Require Import gmap sorting.

Local Open Scope Z_scope.

(** ** Laws of the cache *)

Section laws.
Context {K V : Type} `{Countable K} {L : Lru K V}.
Definition lru_map (c : lru K V) : gmap K V := list_to_map (lru_iter c).

(** The documented behaviour of [lru::LruCache] that the back-end relies on: it is
    a map, and a new entry displaces at most one other, and none when there is no
    capacity. *)
Class LruLaws : Prop := {
  lru_keys c : NoDup (lru_iter c).*1;
  lru_peek_map c k : lru_peek c k = lru_map c !! k;
  lru_new_map n : lru_map (lru_new n) = ∅;
  lru_unbounded_map : lru_map lru_unbounded = ∅;
  lru_unbounded_cap : lru_cap lru_unbounded = None;
  lru_set_map c k v : is_Some (lru_map c !! k) -> lru_map (lru_set c k v) = <[k := v]> (lru_map c) /\ lru_cap (lru_set c k v) = lru_cap c;
  lru_push_map c k v c' e : lru_map c !! k = None -> lru_push c k v = (c', e) -> lru_cap c' = lru_cap c /\
    match e with
    | None => lru_map c' = <[k := v]> (lru_map c)
    | Some (k', v') => k' <> k /\ lru_cap c <> None /\ lru_map c !! k' = Some v' /\ lru_map c' = <[k := v]> (delete k' (lru_map c))
    end;
  lru_put_map c k v : is_Some (lru_map c !! k) -> lru_map (lru_put c k v) = <[k := v]> (lru_map c) /\ lru_cap (lru_put c k v) = lru_cap c;
  lru_pop_entry_map c k : lru_map (lru_pop_entry c k).1 = delete k (lru_map c) /\ lru_cap (lru_pop_entry c k).1 = lru_cap c /\
    (lru_pop_entry c k).2 = (k,.) <$> lru_map c !! k;
  lru_promote_map c k : lru_map (lru_promote c k) = lru_map c /\ lru_cap (lru_promote c k) = lru_cap c;
  lru_pop_lru_map c : lru_cap (lru_pop_lru c).1 = lru_cap c /\
    match (lru_pop_lru c).2 with
    | Some (k, v) => lru_map c !! k = Some v /\ lru_map (lru_pop_lru c).1 = delete k (lru_map c)
    | None => lru_map c = ∅
    end;
  lru_clear_map c : lru_map (lru_clear c) = ∅ /\ lru_cap (lru_clear c) = lru_cap c
}.

Context {LL : LruLaws}.
Lemma lru_iter_perm c : lru_iter c ≡ₚ map_to_list (lru_map c).
Proof. unfold lru_map. symmetry. apply map_to_list_to_map, lru_keys. Qed.
Lemma Cache_len_size c : Cache_len c = size (lru_map c).
Proof. unfold Cache_len. by rewrite lru_iter_perm, length_map_to_list. Qed.
End laws.
Arguments LruLaws K V {_ _ _}.

(** Hash maps and hash sets list their entries once, and hashes are ordered. *)
Class PlatformLaws (Hash : Type) `{Platform Hash} : Prop := {
  set_iter_perm X : set_iter X ≡ₚ elements X;
  hashmap_iter_perm m : hashmap_iter m ≡ₚ map_to_list m;
  hash_le_order :: TotalOrder hash_le
}.

(** ** States of the back-end *)

Section states.
Context {Hash : Type} `{Countable Hash} {L : Lru Hash (CacheValue Hash)} {PF : Platform Hash} {LL : LruLaws Hash (CacheValue Hash)} {PL : PlatformLaws Hash}.
Context {E : Type}.
Local Abbreviation Obj := (OnDiskObject Hash).
Local Abbreviation Value := (CacheValue Hash).
Local Abbreviation Backend := (StorageBackend Hash).
Implicit Types (s : Backend) (k : Hash) (v : Value).

Definition writes s : gmap Hash Value := lru_map (write_cache s).
Definition reads s : gmap Hash Value := lru_map (read_cache s).
Definition memory s k : option Value := match writes s !! k with Some v => Some v | None => reads s !! k end.

(** The write cache is unbounded and holds pending values, the read cache holds
    others, and no key is in both. *)
Record Shape s : Prop := {
  sh_cap : lru_cap (write_cache s) = None;
  sh_writes k v : writes s !! k = Some v -> is_pending v = true;
  sh_reads k v : reads s !! k = Some v -> is_pending v = false;
  sh_disjoint : writes s ##ₘ reads s
}.

(** Only the caches change: the new write cache, and a bound of the read cache. *)
Record Caches s s' (w r : gmap Hash Value) : Prop := {
  ca_rest : s' = with_caches s (read_cache s') (write_cache s');
  ca_writes : writes s' = w;
  ca_reads : reads s' ⊆ r
}.
#[local] Hint Constructors Caches : core.

Lemma peek_memory s k : peek_from_memory s k = memory s k.
Proof. unfold peek_from_memory, memory, writes, reads. by rewrite !lru_peek_map. Qed.

Lemma memory_None s k : memory s k = None <-> writes s !! k = None /\ reads s !! k = None.
Proof. unfold memory. destruct (writes s !! k); naive_solver. Qed.

Lemma Shape_shrink s s' : Shape s -> lru_cap (write_cache s') = None -> writes s' ⊆ writes s -> reads s' ⊆ reads s -> Shape s'.
Proof.
  intros [_ Hw Hr Hd] Hc Sw Sr. split; [done|..].
  - intros k v Hk. eapply Hw, lookup_weaken; eauto.
  - intros k v Hk. eapply Hr, lookup_weaken; eauto.
  - eapply map_disjoint_weaken; eauto.
Qed.
Lemma Shape_write s s' k v : Shape s -> lru_cap (write_cache s') = None -> is_pending v = true ->
  writes s' = <[k := v]> (writes s) -> reads s' ⊆ delete k (reads s) -> Shape s'.
Proof.
  intros [_ Hw Hr Hd] Hc Hv Ew Sr. split; [done|..].
  - intros k' x. rewrite Ew. intros [[_ <-]|[_ ?]]%lookup_insert_Some; [done|by eapply Hw].
  - intros k' x Hx. pose proof (lookup_weaken _ _ _ _ Hx Sr) as Hy. apply lookup_delete_Some in Hy as [_ ?]. by eapply Hr.
  - rewrite Ew. eapply map_disjoint_weaken_r; [|done]. apply map_disjoint_insert_l_2; [apply lookup_delete_eq|].
    eapply map_disjoint_weaken_r; [done|apply delete_subseteq].
Qed.
Lemma Shape_read s s' k v : Shape s -> lru_cap (write_cache s') = None -> is_pending v = false ->
  writes s' ⊆ delete k (writes s) -> reads s' ⊆ <[k := v]> (reads s) -> Shape s'.
Proof.
  intros [_ Hw Hr Hd] Hc Hv Sw Sr. split; [done|..].
  - intros k' x Hx. pose proof (lookup_weaken _ _ _ _ Hx Sw) as Hy. apply lookup_delete_Some in Hy as [_ ?]. by eapply Hw.
  - intros k' x Hx. pose proof (lookup_weaken _ _ _ _ Hx Sr) as Hy. apply lookup_insert_Some in Hy as [[_ <-]|[_ ?]]; [done|by eapply Hr].
  - eapply map_disjoint_weaken; [|done|done]. apply map_disjoint_insert_r_2; [apply lookup_delete_eq|].
    eapply map_disjoint_weaken_l; [done|apply delete_subseteq].
Qed.

Lemma Caches_trans s1 s2 s3 w r w' r' : Caches s1 s2 w r -> Caches s2 s3 w' r' -> Caches s1 s3 w' r'.
Proof. intros [E1 _ _] [E2 ? ?]. split; [|done|done]. rewrite E2, E1. done. Qed.

Lemma insert_new s k v : Shape s -> memory s k = None ->
  exists s', cache_insert_new_key (E := E) s k v = Ret s' /\ Shape s' /\ memory s' k = Some v /\
    if is_pending v then Caches s s' (<[k := v]> (writes s)) (reads s) else Caches s s' (writes s) (<[k := v]> (reads s)).
Proof.
  intros Hs Hm. pose proof Hs as [Hc Hw Hr Hd]. pose proof Hm as [Mw Mr]%memory_None. unfold cache_insert_new_key.
  rewrite peek_memory, Hm, decide_False by (by intros []). unfold Cache_set. destruct (is_pending v) eqn:Ep.
  - destruct (lru_push (write_cache s) k v) as [w e] eqn:Eu. destruct (lru_push_map _ _ _ _ _ Mw Eu) as [Hcap Hmap].
    destruct e as [[k' v']|]; [by destruct Hmap as (_ & [] & _)|]. exists (with_caches s (read_cache s) w). split; [done|].
    split; [apply (Shape_write s _ k v); [done|cbn; congruence|done|done|by rewrite delete_id]|].
    split; [|by split]. unfold memory, writes. cbn. by rewrite Hmap, lookup_insert_eq.
  - destruct (lru_push (read_cache s) k v) as [r e] eqn:Eu. destruct (lru_push_map _ _ _ _ _ Mr Eu) as [Hcap Hmap].
    assert (Hsub : lru_map r ⊆ <[k := v]> (reads s) /\ lru_map r !! k = Some v).
    { destruct e as [[k' v']|]; [destruct Hmap as (_ & _ & _ & ->)|rewrite Hmap]; [|split; [done|by rewrite lookup_insert_eq]].
      split; [apply insert_mono, delete_subseteq|by rewrite lookup_insert_eq]. }
    destruct Hsub as [Hsub Hk]. exists (with_caches s r (write_cache s)). split_and!.
    + destruct e as [[k' v']|]; [|done]. destruct Hmap as (Hne & _ & Hk' & _). rewrite decide_False by done. by rewrite (Hr k' v' Hk').
    + apply (Shape_read s _ k v); [done..| |done]. by rewrite delete_id.
    + unfold memory, writes, reads in *. cbn. by rewrite Mw.
    + by split.
Qed.

Lemma memory_write s k v : Shape s -> memory s k = Some v -> is_pending v = true -> writes s !! k = Some v /\ reads s !! k = None.
Proof.
  intros [_ _ Hr Hd] Hm Hp. unfold memory in Hm. destruct (writes s !! k) eqn:Ew; [injection Hm as ->; split; [done|by eapply map_disjoint_Some_l]|].
  apply Hr in Hm. congruence.
Qed.
Lemma memory_read s k v : Shape s -> memory s k = Some v -> is_pending v = false -> writes s !! k = None /\ reads s !! k = Some v.
Proof. intros [_ Hw _ _] Hm Hp. unfold memory in Hm. destruct (writes s !! k) eqn:Ew; [apply Hw in Ew; congruence|done]. Qed.

Lemma remove_write s k v : writes s !! k = Some v -> exists w,
  remove_from_memory (E := E) s k = Ret (with_caches s (read_cache s) w, v) /\ lru_map w = delete k (writes s) /\ lru_cap w = lru_cap (write_cache s).
Proof.
  intros Hk. unfold remove_from_memory. destruct (lru_pop_entry_map (write_cache s) k) as (M1 & C1 & E1).
  destruct (lru_pop_entry (write_cache s) k) as [w p]. cbn [fst snd] in *. subst p. fold (writes s) in *. rewrite Hk. by exists w.
Qed.
Lemma remove_read s k v : writes s !! k = None -> reads s !! k = Some v -> exists r w,
  remove_from_memory (E := E) s k = Ret (with_caches s r w, v) /\ lru_map r = delete k (reads s) /\ lru_map w = writes s /\ lru_cap w = lru_cap (write_cache s).
Proof.
  intros Hw Hk. unfold remove_from_memory. destruct (lru_pop_entry_map (write_cache s) k) as (M1 & C1 & E1).
  destruct (lru_pop_entry (write_cache s) k) as [w p]. cbn [fst snd] in *. subst p. fold (writes s) in *. rewrite Hw. cbn [fmap option_fmap option_map].
  destruct (lru_pop_entry_map (read_cache s) k) as (M2 & C2 & E2). destruct (lru_pop_entry (read_cache s) k) as [r p]. cbn [fst snd] in *. subst p.
  fold (reads s) in *. rewrite Hk. exists r, w. split_and!; [done|done| |done]. rewrite M1. by apply delete_id.
Qed.

Lemma remove_memory_spec s k v : Shape s -> memory s k = Some v ->
  exists s', remove_from_memory (E := E) s k = Ret (s', v) /\ Shape s' /\ Caches s s' (delete k (writes s)) (delete k (reads s)) /\ memory s' k = None.
Proof.
  intros Hs Hm. destruct (is_pending v) eqn:Ep.
  - destruct (memory_write s k v Hs Hm Ep) as [Hk Rk]. destruct (remove_write s k v Hk) as (w & -> & Mw & Cw). eexists. split; [reflexivity|].
    assert (W' : writes (with_caches s (read_cache s) w) = delete k (writes s)) by done. split_and!.
    + apply (Shape_shrink s); [done|cbn; rewrite Cw; apply Hs|rewrite W'; apply delete_subseteq|done].
    + split; [done..|]. by rewrite delete_id.
    + apply memory_None. split; [rewrite W'; apply lookup_delete_eq|done].
  - destruct (memory_read s k v Hs Hm Ep) as [Hk Rk]. destruct (remove_read s k v Hk Rk) as (r & w & -> & Mr & Mw & Cw). eexists. split; [reflexivity|]. split_and!.
    + apply (Shape_shrink s); [done|cbn; rewrite Cw; apply Hs|unfold writes; cbn; by rewrite Mw|unfold reads; cbn; rewrite Mr; apply delete_subseteq].
    + split; [done|unfold writes at 1; cbn; rewrite Mw; by rewrite delete_id|unfold reads at 1; cbn; by rewrite Mr].
    + apply memory_None. unfold writes, reads. cbn. rewrite Mw, Mr, lookup_delete_eq. done.
Qed.

(** Replacing a value and moving it to the cache it belongs to. *)
Definition replace s k v v' : outcome E (Backend * list Hash) :=
  let self := assign_in_memory s k v' in
  if decide (is_pending v = is_pending v') then Ret (promote self k, [])
  else '(self, value) ← remove_from_memory self k; self ← cache_insert_new_key self k value; Ret (self, []).

Lemma replace_write s k v v' : Shape s -> memory s k = Some v -> is_pending v = true ->
  exists s', replace s k v v' = Ret (s', []) /\ Shape s' /\
    if is_pending v' then Caches s s' (<[k := v']> (writes s)) (delete k (reads s)) else Caches s s' (delete k (writes s)) (<[k := v']> (reads s)).
Proof.
  intros Hs Hm Ev. destruct (memory_write s k v Hs Hm Ev) as [Ew Rk]. unfold replace. cbv zeta. unfold assign_in_memory.
  rewrite lru_peek_map. fold (writes s). rewrite Ew. destruct (decide (is_Some (Some v))) as [_|[]]; [|by eexists].
  destruct (lru_set_map (write_cache s) k v' (mk_is_Some _ _ Ew)) as [M1 C1]. fold (writes s) in M1. set (w := lru_set (write_cache s) k v') in *.
  rewrite Ev. destruct (is_pending v') eqn:Ev'; [rewrite decide_True by done|rewrite decide_False by done].
  - unfold promote. cbn [write_cache read_cache with_caches]. rewrite lru_peek_map, M1, lookup_insert_eq, decide_True by done.
    destruct (lru_promote_map w k) as [M2 C2]. eexists. split; [reflexivity|].
    assert (W' : lru_map (lru_promote w k) = <[k := v']> (writes s)) by congruence. split.
    + apply (Shape_write s _ k v'); [done|cbn; rewrite C2, C1; apply Hs|done|done|by rewrite delete_id].
    + split; [done..|]. by rewrite delete_id.
  - set (s1 := with_caches s (read_cache s) w). assert (W1 : writes s1 = <[k := v']> (writes s)) by done.
    destruct (remove_write s1 k v') as (w2 & -> & Mw & Cw); [by rewrite W1, lookup_insert_eq|]. cbn [mbind outcome_bind].
    rewrite W1, delete_insert_eq in Mw. set (s2 := with_caches _ _ w2). assert (S2 : Shape s2).
    { apply (Shape_shrink s); [done|cbn; rewrite Cw; cbn; rewrite C1; apply Hs|unfold writes; cbn; rewrite Mw; apply delete_subseteq|done]. }
    destruct (insert_new s2 k v' S2) as (s3 & E3 & S3 & _ & C3); [apply memory_None; unfold writes; cbn; rewrite Mw, lookup_delete_eq; done|].
    rewrite E3. cbn [mbind outcome_bind]. exists s3. split_and!; [done|done|]. rewrite Ev' in C3.
    apply (Caches_trans s s2 s3 (writes s2) (reads s)); [done|]. unfold writes at 1 in C3. cbn in C3. by rewrite Mw in C3.
Qed.

Lemma replace_read s k v v' : Shape s -> memory s k = Some v -> is_pending v = false -> is_pending v' = true ->
  exists s', replace s k v v' = Ret (s', []) /\ Shape s' /\ Caches s s' (<[k := v']> (writes s)) (delete k (reads s)).
Proof.
  intros Hs Hm Ev Ev'. destruct (memory_read s k v Hs Hm Ev) as [Ew Rk]. unfold replace. cbv zeta. unfold assign_in_memory.
  rewrite lru_peek_map. fold (writes s). rewrite Ew. destruct (decide (is_Some None)) as [[? [=]]|_].
  destruct (lru_set_map (read_cache s) k v' (mk_is_Some _ _ Rk)) as [M1 C1]. fold (reads s) in M1. set (r := lru_set (read_cache s) k v') in *.
  rewrite Ev, Ev', decide_False by done. set (s1 := with_caches s r (write_cache s)). assert (R1 : reads s1 = <[k := v']> (reads s)) by done.
  destruct (remove_read s1 k v' Ew) as (r2 & w2 & -> & Mr & Mw & Cw); [by rewrite R1, lookup_insert_eq|]. cbn [mbind outcome_bind].
  rewrite R1, delete_insert_eq in Mr. change (writes s1) with (writes s) in Mw. set (s2 := with_caches _ r2 w2). assert (S2 : Shape s2).
  { apply (Shape_shrink s); [done|cbn; rewrite Cw; apply Hs|unfold writes; cbn; by rewrite Mw|unfold reads; cbn; rewrite Mr; apply delete_subseteq]. }
  destruct (insert_new s2 k v' S2) as (s3 & E3 & S3 & _ & C3); [apply memory_None; unfold writes, reads; cbn; rewrite Mw, Mr, lookup_delete_eq; done|].
  rewrite E3. cbn [mbind outcome_bind]. exists s3. split_and!; [done|done|]. rewrite Ev' in C3.
  apply (Caches_trans s s2 s3 (writes s2) (reads s2)); [done|]. unfold writes at 1, reads at 1 in C3. cbn in C3. by rewrite Mw, Mr in C3.
Qed.

(** No node comes into memory, and only the caches change. *)
Record Trim s s' : Prop := {
  tr_rest : s' = with_caches s (read_cache s') (write_cache s');
  tr_objs x : is_Some (memory s' x ≫= get_obj) -> is_Some (memory s x ≫= get_obj)
}.
Lemma Trim_refl s : Trim s s.
Proof. split; [by destruct s|done]. Qed.
Lemma Trim_trans s1 s2 s3 : Trim s1 s2 -> Trim s2 s3 -> Trim s1 s3.
Proof. intros [E1 O1] [E2 O2]. split; [rewrite E2, E1; done|auto]. Qed.
Lemma Trim_write s s' k v r : Caches s s' (<[k := v]> (writes s)) r -> r ⊆ reads s -> (is_Some (get_obj v) -> is_Some (memory s k ≫= get_obj)) -> Trim s s'.
Proof.
  intros [Hrest Hw Hr] Hsub Hv. split; [done|]. intros x. unfold memory at 1. rewrite Hw. destruct (decide (x = k)) as [->|Hne]; [by rewrite lookup_insert_eq|].
  rewrite lookup_insert_ne by done. unfold memory. destruct (writes s !! x); [done|]. destruct (reads s' !! x) as [v'|] eqn:Ex; [|by intros []].
  by rewrite (lookup_weaken _ _ _ _ (lookup_weaken _ _ _ _ Ex Hr) Hsub).
Qed.
Lemma Trim_unwrite s s' k r : Caches s s' (delete k (writes s)) r -> delete k r ⊆ reads s -> (is_Some (r !! k) -> is_Some (memory s k ≫= get_obj)) -> Trim s s'.
Proof.
  intros [Hrest Hw Hr] Hsub Hv. split; [done|]. intros x. unfold memory at 1. rewrite Hw. destruct (decide (x = k)) as [->|Hne].
  - rewrite lookup_delete_eq. destruct (reads s' !! k) as [v'|] eqn:Ex; [|by intros []]. intros _. apply Hv. rewrite (lookup_weaken _ _ _ _ Ex Hr). eauto.
  - rewrite lookup_delete_ne by done. unfold memory. destruct (writes s !! x); [done|]. destruct (reads s' !! x) as [v'|] eqn:Ex; [|by intros []].
    pose proof (lookup_weaken _ _ _ _ Ex Hr). by rewrite (lookup_weaken (delete k r) (reads s) x v') by (rewrite ?lookup_delete_ne; done).
Qed.

(** ** What callers may rely on *)

(** The nodes that keys stand for. *)
Context (content : Hash -> Obj).
Definition kids k : list Hash := child_refs (content k).

(** What callers have asked for: the live nodes, the counts of roots, and a bound
    on the changes of counts that their calls lead to. *)
Record Spec := mkSpec { sp_live : gset Hash; sp_roots : Hash -> Z; sp_issued : Z }.
Implicit Types A : Spec.

Inductive Needed A : Hash -> Prop :=
| needed_live k : k ∈ sp_live A -> Needed A k
| needed_root k : 0 < sp_roots A k -> Needed A k
| needed_child p k : Needed A p -> k ∈ kids p -> Needed A k.

Lemma Needed_mono A A' k : sp_live A ⊆ sp_live A' -> (forall x, 0 < sp_roots A x -> 0 < sp_roots A' x) -> Needed A k -> Needed A' k.
Proof. intros Hl Hr. induction 1; [apply needed_live; auto|apply needed_root; auto|by eapply needed_child]. Qed.

Definition created s : gset Hash := dom (omap created_obj (writes s)).
Definition stored s : gset Hash := dom (nodes (database s)).
Definition present s : gset Hash := stored s ∪ created s.

Definition value_ref_delta v : Z :=
  match v with CRead _ | CCreate _ => 0 | CUpdate d | CReadAndUpdate d _ | CCreateAndUpdate _ d | CCreateAndDelete _ d => ref_delta d end.
Definition rdelta s k : Z := from_option value_ref_delta 0 (writes s !! k).
Definition rootd s k : Z := from_option value_root_delta 0 (writes s !! k).
Definition references s k : Z := sum_set (fun p => occ k (kids p)) (created s) + sum_set (fun p => occ k (kids p)) (stored s).
Definition created_count s : Z := sum_set (fun p => Z.of_nat (length (kids p))) (created s).

(** Changes of counts that are still to be made. *)
Local Abbreviation work_list := (list (Hash * Delta)).
Definition pending (f : Delta -> Z) (work : work_list) k : Z :=
  foldr (fun kd n => (if decide (kd.1 = k) then f kd.2 else 0) + n) 0 work.
Definition negative (d : Delta) : Z := Z.min (ref_delta d) 0.

(** The invariant, in the middle of changing counts.  [extra] are references of a
    node that is about to be added. *)
Record Loop A (work : work_list) (extra : Hash -> Z) s : Prop := {
  lo_shape : Shape s;
  lo_writes k v o : writes s !! k = Some v -> get_obj v = Some o -> o = content k;
  lo_reads k v : reads s !! k = Some v -> v = CRead (content k) /\ k ∈ stored s;
  lo_nodes k o : nodes (database s) !! k = Some o -> o = content k;
  lo_known k v : writes s !! k = Some v -> k ∈ present s;
  lo_db_roots k n : roots (database s) !! k = Some n -> 0 < n < 2 ^ 31 /\ k ∈ stored s;
  lo_closed p k : p ∈ present s -> k ∈ kids p -> k ∈ present s;
  lo_live_present : sp_live A ⊆ present s;
  lo_deleted k o d : writes s !! k = Some (CCreateAndDelete o d) -> k ∉ sp_live A;
  lo_refs k : k ∈ created s -> k ∉ stored s ->
    references s k <= rdelta s k + pending negative work k /\ references s k + extra k <= rdelta s k + pending ref_delta work k;
  lo_roots k : db_root_count (database s) k + rootd s k + pending root_delta work k = sp_roots A k;
  lo_root_range k : 0 <= sp_roots A k < 2 ^ 31;
  lo_root_present k : 0 < sp_roots A k -> k ∈ present s;
  lo_room k : Z.abs (rdelta s k) + created_count s + Z.of_nat (length work) <= sp_issued A;
  lo_issued : sp_issued A < 2 ^ 31;
  lo_work : Forall (fun kd => kd.1 ∈ present s /\ -1 <= ref_delta kd.2 <= 1) work;
  lo_tail : Forall (fun kd => root_delta kd.2 = 0 /\ (ref_delta kd.2 = -1 \/ Needed A kd.1)) (tail work)
}.
(** Between calls; no collection is under way. *)
Definition Inv A s : Prop := (live_inserts s = sp_live A /\ gc_state s = GcState_default) /\ Loop A [] (fun _ => 0) s.

Lemma Needed_present A work extra s k : Loop A work extra s -> Needed A k -> k ∈ present s.
Proof. intros Hl. induction 1; [by apply (lo_live_present _ _ _ _ Hl)|by apply (lo_root_present _ _ _ _ Hl)|by eapply (lo_closed _ _ _ _ Hl)]. Qed.

Lemma pending_cons f k d work k' : pending f ((k, d) :: work) k' = (if decide (k = k') then f d else 0) + pending f work k'.
Proof. done. Qed.
Lemma pending_app f work1 work2 k : pending f (work1 ++ work2) k = pending f work1 k + pending f work2 k.
Proof. induction work1 as [|[k' d] work1 IH]; [done|]. cbn [app]. rewrite !pending_cons, IH. lia. Qed.
Lemma pending_items f d keys k : pending f ((., d) <$> keys) k = f d * occ k keys.
Proof. induction keys as [|k' keys IH]; [cbn; lia|]. cbn [fmap list_fmap]. rewrite pending_cons, IH. cbn [occ]. case_decide; lia. Qed.
Lemma pending_nonpos f work k : Forall (fun kd : Hash * Delta => f kd.2 <= 0) work -> pending f work k <= 0.
Proof. induction 1 as [|[k' d] work Hd _ IH]; [done|]. rewrite pending_cons. cbn in Hd. case_decide; lia. Qed.
Lemma pending_zero f work k : Forall (fun kd : Hash * Delta => f kd.2 = 0) work -> pending f work k = 0.
Proof. induction 1 as [|[k' d] work Hd _ IH]; [done|]. rewrite pending_cons. cbn in Hd. case_decide; lia. Qed.
Lemma negative_nonpos work k : pending negative work k <= 0.
Proof. apply pending_nonpos, Forall_forall. intros ? _. unfold negative. lia. Qed.
Lemma negative_elem work k d : (k, d) ∈ work -> ref_delta d = -1 -> pending negative work k <= -1.
Proof.
  intros (l1 & l2 & ->)%list_elem_of_split Hd. rewrite pending_app, pending_cons, decide_True by done.
  pose proof (negative_nonpos l1 k). pose proof (negative_nonpos l2 k). unfold negative at 2. lia.
Qed.

Lemma references_nonneg s k : 0 <= references s k.
Proof. unfold references. pose proof (sum_set_nonneg (fun p => occ k (kids p)) (created s)). pose proof (sum_set_nonneg (fun p => occ k (kids p)) (stored s)).
  assert (forall p, 0 <= occ k (kids p)) by (intros; apply refs_nonneg). intuition lia. Qed.
Lemma references_pos s p k : p ∈ present s -> k ∈ kids p -> 0 < references s k.
Proof.
  intros Hp Hk%refs_pos. assert (Hn : forall p, 0 <= occ k (kids p)) by (intros; apply refs_nonneg). unfold references.
  pose proof (sum_set_nonneg (fun p => occ k (kids p)) (created s) Hn). pose proof (sum_set_nonneg (fun p => occ k (kids p)) (stored s) Hn).
  apply elem_of_union in Hp as [Hp|Hp]; apply (sum_set_elem (fun p => occ k (kids p)) _ _ Hn) in Hp; cbn in Hp; lia.
Qed.
Lemma created_elem s k : k ∈ created s <-> exists v o, writes s !! k = Some v /\ created_obj v = Some o.
Proof. clear content. unfold created. rewrite elem_of_dom, lookup_omap. destruct (writes s !! k) as [v|]; cbn; [|by split; [intros []|naive_solver]]. unfold is_Some. naive_solver. Qed.

Lemma Caches_db s s' w r : Caches s s' w r -> database s' = database s.
Proof. intros [-> _ _]. done. Qed.

Lemma with_rdelta s s' w r k : Caches s s' w r -> rdelta s' k = from_option value_ref_delta 0 (w !! k) /\ rootd s' k = from_option value_root_delta 0 (w !! k).
Proof. intros [_ Hw _]. unfold rdelta, rootd. by rewrite Hw. Qed.

(** A change of counts that keeps the nodes. *)
Lemma Loop_keep A k d work extra s s' w r :
  Loop A ((k, d) :: work) extra s -> Shape s' -> Caches s s' w r -> (forall k', k' <> k -> w !! k' = writes s !! k') -> created s' = created s ->
  (forall v o, w !! k = Some v -> get_obj v = Some o -> o = content k) -> (forall o d', w !! k = Some (CCreateAndDelete o d') -> k ∉ sp_live A) ->
  (forall k' v, r !! k' = Some v -> v = CRead (content k') /\ k' ∈ stored s) ->
  from_option value_ref_delta 0 (w !! k) = rdelta s k + ref_delta d -> from_option value_root_delta 0 (w !! k) = rootd s k + root_delta d ->
  Loop A work extra s'.
Proof.
  intros Hl Hs Hc Hw Hcr Ho Hdel Hr Hrd Hrt. pose proof (Caches_db _ _ _ _ Hc) as Edb.
  assert (Est : stored s' = stored s) by (unfold stored; by rewrite Edb). assert (Epr : present s' = present s) by (unfold present; by rewrite Est, Hcr).
  assert (Erf : forall k', references s' k' = references s k') by (intros k'; unfold references; by rewrite Est, Hcr).
  assert (Ecc : created_count s' = created_count s) by (unfold created_count; by rewrite Hcr).
  assert (Ed : forall k', rdelta s' k' = rdelta s k' + (if decide (k = k') then ref_delta d else 0) /\ rootd s' k' = rootd s k' + (if decide (k = k') then root_delta d else 0)).
  { intros k'. destruct (with_rdelta _ _ _ _ k' Hc) as [-> ->]. case_decide as Hk; [by subst k'|]. rewrite Hw by done. unfold rdelta, rootd. lia. }
  pose proof (lo_work _ _ _ _ Hl) as [[Hkp Hkd] Hwork]%Forall_cons_1.
  destruct Hl as [_ L2 _ L4 L5 L6 L7 L9 L10 L11 L12 L13 L14 L15 L16 _ L18]. split; rewrite ?Est, ?Epr, ?Ecc, ?Edb; try done.
  - intros k' v o. rewrite (ca_writes _ _ _ _ Hc). destruct (decide (k' = k)) as [->|Hne]; [apply Ho|]. rewrite Hw by done. apply L2.
  - intros k' v Hv. apply Hr. eapply lookup_weaken; [done|apply Hc].
  - intros k' v. rewrite (ca_writes _ _ _ _ Hc). destruct (decide (k' = k)) as [->|Hne]; [done|]. rewrite Hw by done. apply L5.
  - intros k' o d'. rewrite (ca_writes _ _ _ _ Hc). destruct (decide (k' = k)) as [->|Hne]; [apply Hdel|]. rewrite Hw by done. apply L10.
  - intros k' Hk' Hns. rewrite Hcr in Hk'. rewrite Erf. destruct (L11 k' Hk' Hns) as [Hn Hp]. rewrite !pending_cons in Hn, Hp. destruct (Ed k') as [-> _].
    unfold negative in Hn at 1. case_decide; lia.
  - intros k'. specialize (L12 k'). rewrite pending_cons in L12. destruct (Ed k') as [_ ->]. case_decide; lia.
  - intros k'. specialize (L15 k'). cbn [length] in L15. destruct (Ed k') as [-> _]. cbn [snd] in Hkd. case_decide; lia.
  - cbn [tail] in L18. destruct L18; [done|done].
Qed.

(** A node that is removed is not referred to, not live and not a root, or it is in
    the database. *)
Lemma Loop_unneeded A k d work extra s v o : Loop A ((k, d) :: work) extra s -> writes s !! k = Some v -> created_obj v = Some o -> k ∉ sp_live A ->
  value_ref_delta v + ref_delta d = 0 -> value_root_delta v + root_delta d = 0 -> k ∉ stored s ->
  references s k = 0 /\ pending negative work k = 0 /\ ~ Needed A k.
Proof.
  intros Hl Hk Hv Hnl Hr Ht Hns. assert (Hcr : k ∈ created s) by (apply created_elem; eauto).
  destruct (lo_refs _ _ _ _ Hl k Hcr Hns) as [Hn _]. rewrite pending_cons, decide_True in Hn by done. unfold rdelta in Hn. rewrite Hk in Hn. cbn in Hn. unfold negative in Hn at 1.
  pose proof (negative_nonpos work k). pose proof (references_nonneg s k). split_and!; [lia..|]. intros HN. inversion HN as [? Hx|? Hx|p ? Hp Hx]; subst.
  - done.
  - pose proof (lo_roots _ _ _ _ Hl k) as Hrt. rewrite pending_cons, decide_True in Hrt by done. unfold rootd in Hrt. rewrite Hk in Hrt. cbn in Hrt.
    rewrite (pending_zero root_delta work) in Hrt by (eapply Forall_impl; [apply (lo_tail _ _ _ _ Hl)|by intros ? []]).
    unfold db_root_count in Hrt. destruct (roots (database s) !! k) as [n|] eqn:En; cbn in Hrt; [|lia]. apply (lo_db_roots _ _ _ _ Hl) in En. tauto.
  - pose proof (references_pos s p k (Needed_present _ _ _ _ _ Hl Hp) Hx). lia.
Qed.

Lemma created_delete s s' k r : Caches s s' (delete k (writes s)) r -> created s' = created s ∖ {[k]}.
Proof. intros [_ Hw _]. unfold created. by rewrite Hw, omap_delete, dom_delete_L. Qed.

Lemma Loop_remove A k d work extra s s' v o :
  Loop A ((k, d) :: work) extra s -> writes s !! k = Some v -> created_obj v = Some o -> k ∉ sp_live A ->
  value_ref_delta v + ref_delta d = 0 -> value_root_delta v + root_delta d = 0 ->
  Shape s' -> Caches s s' (delete k (writes s)) (delete k (reads s)) ->
  Loop A (((., new_ref_delta (-1)) <$> child_refs o) ++ work) extra s' /\ created_count s = Z.of_nat (length (child_refs o)) + created_count s'.
Proof.
  intros Hl Hk Hv Hkl Hr0 Ht0 Hs Hc. pose proof (Caches_db _ _ _ _ Hc) as Edb. assert (Est : stored s' = stored s) by (unfold stored; by rewrite Edb).
  pose proof (created_delete _ _ _ _ Hc) as Ecr. assert (Hkc : k ∈ created s) by (apply created_elem; eauto).
  assert (Eo : o = content k) by (eapply (lo_writes _ _ _ _ Hl); [done|by destruct v; cbn in *]). subst o. change (child_refs (content k)) with (kids k).
  assert (Ecc : created_count s = Z.of_nat (length (kids k)) + created_count s').
  { unfold created_count. rewrite Ecr, sum_set_difference by set_solver. rewrite <- (right_id_L ∅ (∪) {[k]}), sum_set_insert, sum_set_empty by set_solver. lia. }
  split; [|done]. assert (Erf : forall x, references s x = occ x (kids k) + references s' x).
  { intros x. unfold references. rewrite Est, Ecr, sum_set_difference by set_solver. rewrite <- (right_id_L ∅ (∪) {[k]}), sum_set_insert, sum_set_empty by set_solver. lia. }
  pose proof (Loop_unneeded _ _ _ _ _ _ _ _ Hl Hk Hv Hkl Hr0 Ht0) as Hun.
  assert (Hpr : forall x, x ∈ present s -> (x = k -> k ∈ stored s) -> x ∈ present s').
  { intros x Hx Hxk. unfold present. rewrite Est, Ecr. apply elem_of_union in Hx as [?|?]; [set_solver|]. destruct (decide (x = k)); set_solver. }
  assert (Hrp : forall x, x ∈ present s' -> x ∈ present s) by (intros x; unfold present; rewrite Est, Ecr; set_solver).
  assert (Hkid : forall p x, p ∈ present s -> x ∈ kids p -> x ∈ present s').
  { intros p x Hp Hx. apply Hpr; [by eapply (lo_closed _ _ _ _ Hl)|]. intros ->. destruct (decide (k ∈ stored s)) as [|Hns]; [done|].
    destruct (Hun Hns) as [Hz _]. pose proof (references_pos s p k Hp Hx). lia. }
  assert (HN : forall x, Needed A x -> x ∈ present s').
  { intros x Hx. apply Hpr; [by eapply Needed_present|]. intros ->. destruct (decide (k ∈ stored s)) as [|Hns]; [done|]. by destruct (Hun Hns) as (_ & _ & []). }
  assert (Hd : forall x, x <> k -> rdelta s' x = rdelta s x /\ rootd s' x = rootd s x).
  { intros x Hx. destruct (with_rdelta _ _ _ _ x Hc) as [-> ->]. by rewrite lookup_delete_ne. }
  assert (Hd' : rdelta s' k = 0 /\ rootd s' k = 0) by (destruct (with_rdelta _ _ _ _ k Hc) as [-> ->]; by rewrite lookup_delete_eq).
  assert (Hwr : forall x v', writes s' !! x = Some v' -> x <> k /\ writes s !! x = Some v').
  { intros x v'. rewrite (ca_writes _ _ _ _ Hc). intros [? ?]%lookup_delete_Some. done. }
  pose proof (lo_tail _ _ _ _ Hl) as Htl. pose proof (lo_work _ _ _ _ Hl) as [_ Hwk]%Forall_cons_1. cbn [tail] in Htl.
  assert (Hnew : Forall (fun kd : Hash * Delta => root_delta kd.2 = 0 /\ (ref_delta kd.2 = -1 \/ Needed A kd.1)) (((., new_ref_delta (-1)) <$> kids k) ++ work)).
  { apply Forall_app_2; [|done]. apply Forall_fmap, Forall_forall. intros x _. cbn. auto. }
  pose proof Hl as [_ L2 L3 L4 L5 L6 L7 L9 L10 L11 L12 L13 L14 L15 L16 _ _]. split; rewrite ?Est, ?Edb; try done.
  - intros x v' o' [_ ?]%Hwr. by eapply L2.
  - intros x v' Hx. assert (Hx' : delete k (reads s) !! x = Some v') by (eapply lookup_weaken; [done|apply Hc]). apply lookup_delete_Some in Hx' as [_ Hx']. by apply L3.
  - intros x v' [Hne Hx]%Hwr. apply Hpr; [by eapply L5|done].
  - intros p x Hp%Hrp. by apply Hkid.
  - intros x Hx. apply HN. by constructor.
  - intros x o' d' [_ Hx]%Hwr. by eapply L10.
  - intros x Hx Hns. rewrite Ecr in Hx. assert (Hxk : x <> k) by set_solver. destruct (L11 x) as [Hn Hp]; [set_solver|done|].
    rewrite !pending_cons, !decide_False in Hn, Hp by done. rewrite !pending_app, !pending_items. destruct (Hd x Hxk) as [-> _]. rewrite Erf in Hn, Hp.
    unfold negative at 1. cbn [new_ref_delta ref_delta]. lia.
  - intros x. specialize (L12 x). rewrite pending_cons in L12. rewrite pending_app, pending_items. cbn [new_ref_delta root_delta].
    destruct (decide (k = x)) as [<-|Hne]; [destruct Hd' as [_ ->]; unfold rootd in L12; rewrite Hk in L12; cbn in L12; lia|]. destruct (Hd x ltac:(done)) as [_ ->]. lia.
  - intros x Hx. apply HN. by constructor.
  - intros x. rewrite length_app, length_fmap. specialize (L15 x). cbn [length] in L15.
    destruct (decide (x = k)) as [->|Hne]; [destruct Hd' as [-> _]; lia|]. destruct (Hd x Hne) as [-> _]. lia.
  - apply Forall_app_2.
    + apply Forall_fmap, Forall_forall. intros x Hx. cbn. split; [|lia]. eapply Hkid; [|done]. set_solver.
    + apply Forall_forall. intros [x dx] Hx. pose proof (proj1 (Forall_forall _ _) Hwk _ Hx) as [Hxp Hxd]. pose proof (proj1 (Forall_forall _ _) Htl _ Hx) as [_ Hxn].
      split; [|done]. cbn in *. apply Hpr; [done|]. intros ->. destruct (decide (k ∈ stored s)) as [|Hns]; [done|]. destruct (Hun Hns) as (_ & Hz & Hnn).
      destruct Hxn as [Hneg|?]; [|done]. pose proof (negative_elem work k dx Hx Hneg). lia.
  - destruct Hnew; [done|done].
Qed.

Lemma memory_reads A work extra s k v : Loop A work extra s -> memory s k = Some v -> is_pending v = false ->
  v = CRead (content k) /\ k ∈ stored s /\ writes s !! k = None.
Proof. intros Hl Hm Hp. destruct (memory_read s k v (lo_shape _ _ _ _ Hl) Hm Hp) as [Hw Hr]. destruct (lo_reads _ _ _ _ Hl k v Hr). done. Qed.

(** Additions of counts stay in range. *)
Lemma combine_ok A k d work extra s d0 : Loop A ((k, d) :: work) extra s -> rdelta s k = ref_delta d0 -> rootd s k = root_delta d0 ->
  Delta_combine (E := E) d d0 = Ret (if (ref_delta d + ref_delta d0 =? 0) && (root_delta d + root_delta d0 =? 0) then None
    else Some (mkDelta (ref_delta d + ref_delta d0) (root_delta d + root_delta d0))).
Proof.
  intros Hl Hr Ht. assert (H1' : in_i 32 (ref_delta d + ref_delta d0)).
  { pose proof (lo_room _ _ _ _ Hl k) as Hroom. cbn [length] in Hroom. pose proof (lo_issued _ _ _ _ Hl). pose proof (lo_work _ _ _ _ Hl) as [[_ Hd] _]%Forall_cons_1.
    assert (0 <= created_count s) by (apply sum_set_nonneg; lia). cbn [snd] in Hd. rewrite Hr in Hroom. unfold in_i, i_min, i_max. change (2 ^ (32 - 1)) with 2147483648. lia. }
  assert (H2' : in_i 32 (root_delta d + root_delta d0)).
  { pose proof (lo_roots _ _ _ _ Hl k) as Hrt. pose proof (lo_root_range _ _ _ _ Hl k). rewrite pending_cons, decide_True in Hrt by done.
    rewrite (pending_zero root_delta work) in Hrt by (eapply Forall_impl; [apply (lo_tail _ _ _ _ Hl)|by intros ? []]). rewrite Ht in Hrt.
    assert (0 <= db_root_count (database s) k < 2 ^ 31).
    { unfold db_root_count. destruct (roots (database s) !! k) as [n|] eqn:En; cbn; [|lia]. apply (lo_db_roots _ _ _ _ Hl) in En. lia. }
    unfold in_i, i_min, i_max. change (2 ^ (32 - 1)) with 2147483648. lia. }
  unfold Delta_combine, i32_add. rewrite decide_True by done. cbn [mbind outcome_bind]. rewrite decide_True by done. done.
Qed.

Lemma created_insert s s' k v r : Caches s s' (<[k := v]> (writes s)) r ->
  created s' = match created_obj v with Some _ => {[k]} ∪ created s | None => created s ∖ {[k]} end.
Proof.
  intros [_ Hw _]. unfold created. rewrite Hw. apply set_eq. intros x. destruct (created_obj v) as [o|] eqn:Ev.
  - rewrite elem_of_union, elem_of_singleton, !elem_of_dom, !lookup_omap. destruct (decide (x = k)) as [->|Hne].
    + rewrite lookup_insert_eq. cbn. rewrite Ev. naive_solver.
    + rewrite lookup_insert_ne by done. naive_solver.
  - rewrite elem_of_difference, elem_of_singleton, !elem_of_dom, !lookup_omap. destruct (decide (x = k)) as [->|Hne].
    + rewrite lookup_insert_eq. cbn. rewrite Ev. split; [intros [? [=]]|naive_solver].
    + rewrite lookup_insert_ne by done. naive_solver.
Qed.

(** A value in the write cache replaced by one of the same node. *)
Lemma Loop_write A k d work extra s s' v' r :
  Loop A ((k, d) :: work) extra s -> Shape s' -> Caches s s' (<[k := v']> (writes s)) r -> r ⊆ reads s ->
  is_Some (created_obj v') <-> k ∈ created s -> (forall o, get_obj v' = Some o -> o = content k) ->
  (forall o d', v' = CCreateAndDelete o d' -> k ∉ sp_live A) ->
  value_ref_delta v' = rdelta s k + ref_delta d -> value_root_delta v' = rootd s k + root_delta d -> Loop A work extra s' /\ created s' = created s.
Proof.
  intros Hl Hs Hc Hsub Hcr Ho Hdel Hr Ht. assert (Ecr : created s' = created s).
  { rewrite (created_insert _ _ _ _ _ Hc). destruct (created_obj v') as [o|].
    - assert (k ∈ created s) by (apply Hcr; eauto). set_solver.
    - assert (k ∉ created s) by (intros Hk; apply Hcr in Hk as []; done). set_solver. }
  split; [|done]. eapply (Loop_keep A k d work extra s s'); try done.
  - intros k' Hne. by rewrite lookup_insert_ne.
  - intros v o. rewrite lookup_insert_eq. intros [= <-]. apply Ho.
  - intros o d'. rewrite lookup_insert_eq. intros [= ->]. by eapply Hdel.
  - intros k' v Hv. apply (lo_reads _ _ _ _ Hl). by eapply lookup_weaken.
  - by rewrite lookup_insert_eq.
  - by rewrite lookup_insert_eq.
Qed.

(** One that leaves the write cache, which only values of stored nodes do. *)
Lemma Loop_unwrite A k d work extra s s' r :
  Loop A ((k, d) :: work) extra s -> Shape s' -> Caches s s' (delete k (writes s)) r -> k ∉ created s ->
  (forall k' v, r !! k' = Some v -> v = CRead (content k') /\ k' ∈ stored s) ->
  rdelta s k + ref_delta d = 0 -> rootd s k + root_delta d = 0 -> Loop A work extra s' /\ created s' = created s.
Proof.
  intros Hl Hs Hc Hcr Hrd Hr Ht. assert (Ecr : created s' = created s) by (rewrite (created_delete _ _ _ _ Hc); set_solver).
  split; [|done]. eapply (Loop_keep A k d work extra s s'); try done.
  - intros k' Hne. by rewrite lookup_delete_ne.
  - intros v o. by rewrite lookup_delete_eq.
  - intros o d'. by rewrite lookup_delete_eq.
  - rewrite lookup_delete_eq. cbn. lia.
  - rewrite lookup_delete_eq. cbn. lia.
Qed.

(** The action taken on a value, as one of three changes of the write cache. *)
Lemma update_replaces A k d work extra s v v' :
  Loop A ((k, d) :: work) extra s -> memory s k = Some v -> writes s !! k = Some v \/ is_pending v' = true ->
  (is_Some (created_obj v') <-> is_Some (created_obj v)) -> get_obj v' = get_obj v ->
  (forall o d', v' = CCreateAndDelete o d' -> exists d0, v = CCreateAndDelete o d0) ->
  value_ref_delta v' = value_ref_delta v + ref_delta d -> value_root_delta v' = value_root_delta v + root_delta d ->
  exists s', replace s k v v' = Ret (s', []) /\ Trim s s' /\ Loop A work extra s' /\ created s' = created s.
Proof.
  intros Hl Hm Hv Hcr Ho Hdel Hr Ht. pose proof (lo_shape _ _ _ _ Hl) as Hs. destruct (is_pending v) eqn:Ep.
  - destruct (memory_write s k v Hs Hm Ep) as [Hw Hrk]. assert (Hd : rdelta s k = value_ref_delta v /\ rootd s k = value_root_delta v) by (unfold rdelta, rootd; by rewrite Hw).
    destruct Hd as [Er Et]. assert (Hkc : k ∈ created s <-> is_Some (created_obj v)) by (rewrite created_elem, Hw; unfold is_Some; naive_solver).
    destruct (replace_write s k v v' Hs Hm Ep) as (s' & E1 & S' & C'). exists s'. split; [done|]. assert (Hob : is_Some (get_obj v') -> is_Some (memory s k ≫= get_obj)) by (rewrite Ho, Hm; done).
    destruct (is_pending v') eqn:Ep'.
    + split; [by eapply Trim_write; [|apply delete_subseteq|]|]. eapply (Loop_write A k d work extra s s' v'); try done; [apply delete_subseteq|by rewrite Hkc|..|lia|lia].
      * intros o. rewrite Ho. by apply (lo_writes _ _ _ _ Hl).
      * intros o d' [d0 ->]%Hdel. by eapply (lo_deleted _ _ _ _ Hl).
    + destruct v' as [o| | | | |]; try done. split; [eapply Trim_unwrite; [done| |by intros _; apply Hob]; rewrite delete_insert_eq; apply delete_subseteq|]. eapply (Loop_unwrite A k d work extra s s'); try done; cbn in *; try lia.
      * rewrite Hkc, <- Hcr. by intros [].
      * intros k' x [[<- <-]|[_ Hx]]%lookup_insert_Some; [|by apply (lo_reads _ _ _ _ Hl)]. split; [f_equal; by eapply (lo_writes _ _ _ _ Hl)|].
        pose proof (lo_known _ _ _ _ Hl k v Hw) as [|Hx]%elem_of_union; [done|]. apply Hkc, Hcr in Hx as [? [=]].
  - destruct (memory_reads _ _ _ _ _ _ Hl Hm Ep) as (-> & Hst & Hw). destruct Hv as [Hv|Ep']; [congruence|].
    destruct (replace_read s k _ v' Hs Hm Ep Ep') as (s' & E1 & S' & C'). exists s'. split; [done|].
    split; [eapply Trim_write; [done|apply delete_subseteq|by rewrite Hm]|].
    eapply (Loop_write A k d work extra s s' v'); try done; [apply delete_subseteq|..].
    + rewrite Hcr, created_elem. split; [by intros []|intros (? & ? & Hx & _); congruence].
    + intros o. rewrite Ho. by intros [= <-].
    + intros o d' Hx. by destruct (Hdel _ _ Hx).
    + unfold rdelta. rewrite Hw. done.
    + unfold rootd. rewrite Hw. done.
Qed.

Lemma update_count_step A k d work extra s : Loop A ((k, d) :: work) extra s ->
  exists s' removed, update_count (E := E) s k d = Ret (s', removed) /\ Trim s s' /\ Loop A (((., new_ref_delta (-1)) <$> removed) ++ work) extra s' /\
    created_count s = Z.of_nat (length removed) + created_count s'.
Proof.
  intros Hl. pose proof (lo_shape _ _ _ _ Hl) as Hs. unfold update_count. rewrite peek_memory. destruct (memory s k) as [v|] eqn:Hm.
  2: { destruct (insert_new s k (CUpdate d) Hs Hm) as (s' & E1 & S' & _ & C'). rewrite E1. exists s', []. split; [done|]. split; [apply (Trim_write s s' k _ _ C'); [done|by intros []]|]. apply memory_None in Hm as [Hw Hr].
    destruct (Loop_write A k d work extra s s' (CUpdate d) (reads s)) as [HL Ecr]; try done.
    - rewrite created_elem, Hw. split; [by intros []|naive_solver].
    - unfold rdelta. by rewrite Hw.
    - unfold rootd. by rewrite Hw.
    - cbn [fmap list_fmap app length]. split; [done|]. unfold created_count. by rewrite Ecr. }
  assert (Hrep : forall v', writes s !! k = Some v \/ is_pending v' = true -> (is_Some (created_obj v') <-> is_Some (created_obj v)) -> get_obj v' = get_obj v ->
    (forall o d', v' = CCreateAndDelete o d' -> exists d0, v = CCreateAndDelete o d0) ->
    value_ref_delta v' = value_ref_delta v + ref_delta d -> value_root_delta v' = value_root_delta v + root_delta d ->
    exists s' removed, replace s k v v' = Ret (s', removed) /\ Trim s s' /\ Loop A (((., new_ref_delta (-1)) <$> removed) ++ work) extra s' /\
      created_count s = Z.of_nat (length removed) + created_count s').
  { intros v' H1' H2' H3' H4' H5' H6'. destruct (update_replaces A k d work extra s v v') as (s' & E1 & HT & HL & Ecr); try done.
    exists s', []. split_and!; [done..|]. unfold created_count. by rewrite Ecr. }
  unfold replace in Hrep.
  assert (Hwk : is_pending v = true -> writes s !! k = Some v /\ rdelta s k = value_ref_delta v /\ rootd s k = value_root_delta v).
  { intros Hp. destruct (memory_write s k v Hs Hm Hp) as [Hw _]. unfold rdelta, rootd. by rewrite Hw. }
  destruct v as [o|d0|d0 o|o|o d0|o d0]; cbn [count_action mbind outcome_bind].
  - apply Hrep; cbn; try done; try (by right); lia.
  - destruct Hwk as (Hw & Er & Et); [done|]. rewrite (combine_ok _ _ _ _ _ _ _ Hl Er Et). cbn [mbind outcome_bind].
    destruct (_ && _) eqn:Ez; [|apply Hrep; cbn; try done; try (by right); lia]. apply andb_prop in Ez as [Ez1 Ez2].
    destruct (remove_memory_spec s k (CUpdate d0) Hs Hm) as (s' & E1 & S' & C' & _). rewrite E1. exists s', []. split; [done|].
    split; [eapply Trim_unwrite; [done|rewrite delete_delete_eq; apply delete_subseteq|rewrite lookup_delete_eq; by intros []]|].
    destruct (Loop_unwrite A k d work extra s s' (delete k (reads s))) as [HL Ecr]; try done; cbn in *; try lia.
    + rewrite created_elem, Hw. naive_solver.
    + intros k' x [_ Hx]%lookup_delete_Some. by apply (lo_reads _ _ _ _ Hl).
    + split; [done|]. unfold created_count. by rewrite Ecr.
  - destruct Hwk as (Hw & Er & Et); [done|]. rewrite (combine_ok _ _ _ _ _ _ _ Hl Er Et). cbn [mbind outcome_bind].
    destruct (_ && _) eqn:Ez; apply Hrep; cbn; try done; try (by left); try lia.
  - apply Hrep; cbn; try done; try (by right); lia.
  - destruct Hwk as (Hw & Er & Et); [done|]. rewrite (combine_ok _ _ _ _ _ _ _ Hl Er Et). cbn [mbind outcome_bind].
    destruct (_ && _) eqn:Ez; apply Hrep; cbn; try done; try (by left); try lia.
  - destruct Hwk as (Hw & Er & Et); [done|]. rewrite (combine_ok _ _ _ _ _ _ _ Hl Er Et). cbn [mbind outcome_bind].
    destruct (_ && _) eqn:Ez; [|apply Hrep; cbn; try done; try (by left); try lia; naive_solver]. apply andb_prop in Ez as [Ez1 Ez2].
    destruct (remove_memory_spec s k _ Hs Hm) as (s' & E1 & S' & C' & _). rewrite E1. exists s', (child_refs o). split; [done|].
    split; [eapply Trim_unwrite; [done|rewrite delete_delete_eq; apply delete_subseteq|rewrite lookup_delete_eq; by intros []]|].
    apply (Loop_remove A k d work extra s s' (CCreateAndDelete o d0) o); try done; cbn; try lia. by eapply (lo_deleted _ _ _ _ Hl).
Qed.

(** The loop of [update_counts] ends within its bound. *)
Lemma update_loop_spec A extra fuel : forall work s, Loop A work extra s -> Z.of_nat (length work) + created_count s <= Z.of_nat fuel ->
  exists s', update_loop (E := E) fuel s work = Ret s' /\ Trim s s' /\ Loop A [] extra s'.
Proof.
  induction fuel as [|fuel IH]; intros [|[k d] work] s Hl Hf; cbn [update_loop].
  - exists s. split_and!; [done|apply Trim_refl|done].
  - assert (0 <= created_count s) by (apply sum_set_nonneg; lia). cbn [length] in Hf. lia.
  - exists s. split_and!; [done|apply Trim_refl|done].
  - destruct (update_count_step A k d work extra s Hl) as (s1 & removed & -> & T1 & L1 & Hc). cbn [mbind outcome_bind].
    destruct (IH _ s1 L1) as (s2 & E2 & T2 & L2); [rewrite length_app, length_fmap; cbn [length] in Hf; lia|].
    exists s2. split_and!; [done|by eapply Trim_trans|done].
Qed.

Lemma created_refs_count A work extra s : Loop A work extra s -> Z.of_nat (created_refs s) = created_count s.
Proof.
  intros Hl. unfold created_refs, created_count, created. rewrite lru_iter_perm. fold (writes s). set (f := fun kv : Hash * Value => _).
  assert (Hw : forall k v o, writes s !! k = Some v -> created_obj v = Some o -> o = content k).
  { intros k v o Hk Ho. eapply (lo_writes _ _ _ _ Hl); [done|]. by destruct v; cbn in *. }
  clear Hl. revert Hw. generalize (writes s). induction g as [|k v m Hk IH] using map_ind; intros Hw; [by rewrite map_to_list_empty, omap_empty, dom_empty_L, sum_set_empty|].
  rewrite map_to_list_insert by done. cbn [sum_list_with]. unfold f at 1. cbn [snd].
  assert (IH' := IH ltac:(intros k' v' o Hk'; apply Hw; rewrite lookup_insert_ne; [done|congruence])). destruct (created_obj v) as [o|] eqn:Ev.
  - rewrite (omap_insert_Some _ _ _ _ _ Ev), dom_insert_L, sum_set_insert by (rewrite elem_of_dom, lookup_omap, Hk; by intros []).
    rewrite (Hw k v o (lookup_insert_eq _ _ _) Ev) at 1. unfold from_option. change (child_refs (content k)) with (kids k). lia.
  - rewrite (omap_insert_None _ _ _ _ Ev), delete_id by (by rewrite lookup_omap, Hk). cbn [from_option]. lia.
Qed.

Lemma update_counts_spec A extra keys d s : Loop A ((., d) <$> keys) extra s ->
  exists s', update_counts (E := E) s keys d = Ret s' /\ Trim s s' /\ Loop A [] extra s'.
Proof. intros Hl. apply update_loop_spec; [done|]. rewrite length_fmap, <- (created_refs_count _ _ _ _ Hl). lia. Qed.

(** ** The calls *)

Lemma stats_maps s h m : writes (with_stats s h m) = writes s /\ reads (with_stats s h m) = reads s /\ memory (with_stats s h m) = memory s.
Proof. done. Qed.

(** States that differ in values with the same counts. *)
Lemma Loop_ext A work extra s s' : Loop A work extra s -> Shape s' -> database s' = database s -> created s' = created s ->
  (forall k, rdelta s' k = rdelta s k /\ rootd s' k = rootd s k) -> (forall k v, reads s' !! k = Some v -> v = CRead (content k) /\ k ∈ stored s) ->
  (forall k v, writes s' !! k = Some v -> k ∈ present s /\ (forall o, get_obj v = Some o -> o = content k) /\ (forall o d, v = CCreateAndDelete o d -> k ∉ sp_live A)) ->
  Loop A work extra s'.
Proof.
  intros Hl Hs Edb Ecr Hd Hr Hw. assert (Est : stored s' = stored s) by (unfold stored; by rewrite Edb).
  assert (Epr : present s' = present s) by (unfold present; by rewrite Est, Ecr). assert (Ecc : created_count s' = created_count s) by (unfold created_count; by rewrite Ecr).
  assert (Erf : forall k', references s' k' = references s k') by (intros k'; unfold references; by rewrite Est, Ecr).
  destruct Hl as [_ _ _ L4 _ L6 L7 L9 _ L11 L12 L13 L14 L15 L16 L17 L18]. split; rewrite ?Est, ?Epr, ?Ecc, ?Edb; try done.
  - intros k v o Hk. by apply Hw in Hk as (_ & Hk & _); apply Hk.
  - intros k v Hk. by apply Hw in Hk as (? & _).
  - intros k o d Hk. apply Hw in Hk as (_ & _ & Hk). by eapply Hk.
  - intros k. rewrite Ecr, Erf. destruct (Hd k) as [-> _]. apply L11.
  - intros k. destruct (Hd k) as [_ ->]. apply L12.
  - intros k. destruct (Hd k) as [-> _]. apply L15.
Qed.

(** The same values, in an order of its own. *)
Lemma Loop_same A work extra s s' : Loop A work extra s -> Shape s' -> database s' = database s -> writes s' = writes s ->
  (forall k v, reads s' !! k = Some v -> v = CRead (content k) /\ k ∈ stored s) -> Loop A work extra s'.
Proof.
  intros Hl Hs Edb Ew Hr. apply (Loop_ext A work extra s); [done..| | | |].
  - unfold created. by rewrite Ew.
  - intros k. unfold rdelta, rootd. by rewrite Ew.
  - done.
  - intros k v. rewrite Ew. intros Hk. split; [by eapply (lo_known _ _ _ _ Hl)|]. split; [intros o; by apply (lo_writes _ _ _ _ Hl)|]. intros o d ->. by eapply (lo_deleted _ _ _ _ Hl).
Qed.

(** Taking a value out of memory and putting one of the same kind back. *)
Lemma reinsert s k v v' : Shape s -> memory s k = Some v -> is_pending v' = is_pending v ->
  exists s1 s2, remove_from_memory (E := E) s k = Ret (s1, v) /\ cache_insert_new_key (E := E) s1 k v' = Ret s2 /\ Shape s2 /\ memory s2 k = Some v' /\
    if is_pending v then Caches s s2 (<[k := v']> (writes s)) (reads s) else Caches s s2 (writes s) (<[k := v']> (reads s)).
Proof.
  intros Hs Hm Hp. destruct (remove_memory_spec s k v Hs Hm) as (s1 & E1 & S1 & C1 & M1). destruct (insert_new s1 k v' S1 M1) as (s2 & E2 & S2 & M2 & C2).
  exists s1, s2. split_and!; [done..|]. rewrite Hp in C2. pose proof C1 as [_ W1 R1]. destruct (is_pending v) eqn:Ep.
  - eapply (Caches_trans _ _ _ _ _ _ _ C1). rewrite W1, insert_delete_eq in C2. destruct C2 as [? ? ?]. split; [done..|].
    etransitivity; [done|]. etransitivity; [done|apply delete_subseteq].
  - eapply (Caches_trans _ _ _ _ _ _ _ C1). destruct (memory_read s k v Hs Hm Ep) as [Hw _]. rewrite W1, delete_id in C2 by done.
    destruct C2 as [? ? ?]. split; [done..|]. etransitivity; [done|]. apply insert_mono. etransitivity; [done|apply delete_subseteq].
Qed.

Lemma memory_content A work extra s k v o : Loop A work extra s -> memory s k = Some v -> get_obj v = Some o -> o = content k /\ k ∈ present s.
Proof.
  intros Hl Hm Ho. unfold memory in Hm. destruct (writes s !! k) as [v'|] eqn:Ew.
  - injection Hm as ->. split; [by eapply (lo_writes _ _ _ _ Hl)|by eapply (lo_known _ _ _ _ Hl)].
  - apply (lo_reads _ _ _ _ Hl) in Hm as [-> Hst]. injection Ho as <-. split; [done|]. set_solver.
Qed.

Lemma stored_elem s k : k ∈ stored s <-> is_Some (nodes (database s) !! k).
Proof. unfold stored. apply elem_of_dom. Qed.

Lemma Inv_stats A s h m : Inv A s -> Inv A (with_stats s h m).
Proof.
  intros [Hlive Hl]. split; [done|]. apply (Loop_same A _ _ s); try done; [by destruct (lo_shape _ _ _ _ Hl)|]. intros k v. apply (lo_reads _ _ _ _ Hl).
Qed.

(** Only the read cache changes, and has stored nodes. *)
Lemma Inv_reads A s s' w r : Inv A s -> Shape s' -> Caches s s' w r -> w = writes s -> (forall k v, r !! k = Some v -> v = CRead (content k) /\ k ∈ stored s) -> Inv A s'.
Proof.
  intros [Hlive Hl] Hs Hc -> Hr. split; [rewrite (ca_rest _ _ _ _ Hc); done|].
  apply (Loop_same A _ _ s); [done|done|by eapply Caches_db|apply Hc|]. intros k v Hk. apply Hr. eapply lookup_weaken; [done|apply Hc].
Qed.

Lemma get_hit A s k v o : Inv A s -> memory s k = Some v -> get_obj v = Some o ->
  exists s1 s2, remove_from_memory (E := E) s k = Ret (s1, v) /\ cache_insert_new_key (E := E) s1 k v = Ret s2 /\ memory s2 k = Some v /\ Inv A s2.
Proof.
  intros HI Hm Ho. pose proof (lo_shape _ _ _ _ (proj2 HI)) as Hs. destruct (reinsert s k v v Hs Hm eq_refl) as (s1 & s2 & E1 & E2 & S2 & M2 & C2).
  exists s1, s2. split_and!; [done..|]. destruct (is_pending v) eqn:Ep.
  - destruct (memory_write s k v Hs Hm Ep) as [Hw _]. apply (Inv_reads A s s2 _ _ HI S2 C2); [by apply insert_id|apply (lo_reads _ _ _ _ (proj2 HI))].
  - destruct (memory_read s k v Hs Hm Ep) as [_ Hr]. apply (Inv_reads A s s2 _ _ HI S2 C2); [done|]. rewrite (insert_id _ _ _ Hr). apply (lo_reads _ _ _ _ (proj2 HI)).
Qed.

(** A pending change of counts is joined with the node read from the database. *)
Lemma get_update A s k d : Inv A s -> memory s k = Some (CUpdate d) -> k ∈ stored s ->
  exists s1 s2, remove_from_memory (E := E) s k = Ret (s1, CUpdate d) /\ cache_insert_new_key (E := E) s1 k (CReadAndUpdate d (content k)) = Ret s2 /\
    memory s2 k = Some (CReadAndUpdate d (content k)) /\ Inv A s2.
Proof.
  intros [Hlive Hl] Hm Hst. pose proof (lo_shape _ _ _ _ Hl) as Hs. destruct (reinsert s k _ (CReadAndUpdate d (content k)) Hs Hm eq_refl) as (s1 & s2 & E1 & E2 & S2 & M2 & C2).
  exists s1, s2. split_and!; [done..|]. cbn [is_pending] in C2. destruct (memory_write s k _ Hs Hm eq_refl) as [Hw _].
  split; [rewrite (ca_rest _ _ _ _ C2); done|]. assert (Hkc : k ∉ created s) by (rewrite created_elem, Hw; naive_solver).
  apply (Loop_ext A _ _ s); [done|done|by eapply Caches_db| | | |].
  - rewrite (created_insert _ _ _ _ _ C2). cbn. set_solver.
  - intros k'. unfold rdelta, rootd. rewrite (ca_writes _ _ _ _ C2). destruct (decide (k' = k)) as [->|Hne]; [by rewrite lookup_insert_eq, Hw|by rewrite lookup_insert_ne].
  - intros k' x Hx. apply (lo_reads _ _ _ _ Hl). eapply lookup_weaken; [done|apply C2].
  - intros k' x. rewrite (ca_writes _ _ _ _ C2). intros [[<- <-]|[Hne Hx]]%lookup_insert_Some; [split; [set_solver|naive_solver]|].
    split; [by eapply (lo_known _ _ _ _ Hl)|]. split; [intros ?; by apply (lo_writes _ _ _ _ Hl)|]. intros ? ? ->. by eapply (lo_deleted _ _ _ _ Hl).
Qed.

(** A node that is present is read, and reading changes nothing that matters. *)
Lemma get_spec A s k : Inv A s -> exists s' o, get (E := E) s k = Ret (s', o) /\ Inv A s' /\ (k ∈ present s -> o = Some (content k)).
Proof.
  intros HI. unfold get. rewrite peek_memory. destruct (decide _) as [[o Ho]|Hn].
  - destruct (memory s k) as [v|] eqn:Hm; [|done]. cbn in Ho.
    destruct (get_hit A (with_stats s 1 0) k v o) as (s1 & s2 & E1 & E2 & M2 & I2); [by apply Inv_stats|done|done|].
    rewrite E1. cbn [mbind outcome_bind]. rewrite E2. cbn [mbind outcome_bind]. rewrite peek_memory, M2. cbn [expect mbind outcome_bind]. rewrite Ho. cbn [expect mbind outcome_bind].
    destruct (memory_content _ _ _ _ _ _ _ (proj2 HI) Hm Ho) as [-> Hpr]. eexists _, _. done.
  - apply (Inv_stats _ _ 0 1) in HI as H0. set (s0 := with_stats s 0 1) in *. change (get_node (database s0) k) with (nodes (database s) !! k). destruct (nodes (database s) !! k) as [o|] eqn:En.
    2: { cbn [mbind outcome_bind]. eexists _, _. split; [done|]. split; [done|]. intros [Hst|Hcr]%elem_of_union.
      - apply stored_elem in Hst as [? ?]. congruence.
      - destruct Hn. apply created_elem in Hcr as (v & o & Hw & Ho). unfold memory. rewrite Hw. cbn. by destruct v. }
    pose proof (lo_nodes _ _ _ _ (proj2 HI) k o En) as ->. assert (Hst : k ∈ stored s) by (apply stored_elem; eauto). rewrite peek_memory. change (memory s0 k) with (memory s k).
    destruct (memory s k) as [v|] eqn:Hm.
    + destruct v as [o|d|d o|o|o d|o d]; cbn in Hn; try (destruct Hn; eauto; fail).
      destruct (get_update A s0 k d H0 Hm Hst) as (s1 & s2 & E1 & E2 & M2 & I2). rewrite E1. cbn [mbind outcome_bind]. rewrite E2. cbn [mbind outcome_bind].
      rewrite peek_memory, M2. eexists _, _. done.
    + destruct (insert_new s0 k (CRead (content k)) (lo_shape _ _ _ _ (proj2 H0)) Hm) as (s1 & E1 & S1 & M1 & C1). rewrite E1. cbn [mbind outcome_bind]. rewrite peek_memory, M1.
      eexists _, _. split; [done|]. split; [|done]. apply (Inv_reads A s0 s1 _ _ H0 S1 C1); [done|].
      intros k' x [[<- <-]|[_ Hy]]%lookup_insert_Some; [done|]. by apply (lo_reads _ _ _ _ (proj2 HI)).
Qed.

Definition spec_cache A k : Spec := mkSpec ({[k]} ∪ sp_live A) (sp_roots A) (sp_issued A + 2 * Z.of_nat (length (kids k))).
Definition spec_uncache A k : Spec := mkSpec (sp_live A ∖ {[k]}) (sp_roots A) (sp_issued A + 1).
Definition spec_root A k (n : Z) : Spec := mkSpec (sp_live A) (fun x => sp_roots A x + if decide (x = k) then n else 0) (sp_issued A + 1).

(** The invariant for other live nodes. *)
Lemma Loop_respec A A' extra s : Loop A [] extra s -> sp_roots A' = sp_roots A -> sp_issued A <= sp_issued A' < 2 ^ 31 -> sp_live A' ⊆ present s ->
  (forall k o d, writes s !! k = Some (CCreateAndDelete o d) -> k ∉ sp_live A') -> Loop A' [] extra s.
Proof.
  intros [L1 L2 L3 L4 L5 L6 L7 _ _ L11 L12 L13 L14 L15 _ _ _] Er Hi Hp Hd. split; rewrite ?Er; try done; [|lia].
  intros k. specialize (L15 k). lia.
Qed.
Lemma Loop_live A work extra s live : Loop A work extra s -> Loop A work extra (with_live s live).
Proof. intros Hl. apply (Loop_same A _ _ s); try done; [by destruct (lo_shape _ _ _ _ Hl)|]. intros k v. apply (lo_reads _ _ _ _ Hl). Qed.

Lemma cache_hit A s k v o : Loop A [] (fun _ => 0) s -> memory s k = Some v -> get_obj v = Some o ->
  sp_issued A + 2 * Z.of_nat (length (kids k)) < 2 ^ 31 ->
  exists s1 s2, remove_from_memory (E := E) s k = Ret (s1, v) /\
    cache_insert_new_key (E := E) s1 k (match v with CCreateAndDelete obj delta => CCreateAndUpdate obj delta | _ => v end) = Ret s2 /\
    (live_inserts s2 = live_inserts s /\ gc_state s2 = gc_state s) /\ Loop (spec_cache A k) [] (fun _ => 0) s2.
Proof.
  intros Hl Hm Ho Hi. pose proof (lo_shape _ _ _ _ Hl) as Hs. set (v' := match v with CCreateAndDelete obj delta => CCreateAndUpdate obj delta | _ => v end).
  assert (Hv : is_pending v' = is_pending v /\ get_obj v' = get_obj v /\ created_obj v' = created_obj v /\ value_ref_delta v' = value_ref_delta v /\
    value_root_delta v' = value_root_delta v /\ (forall o d, v' <> CCreateAndDelete o d)) by (by destruct v).
  destruct Hv as (Vp & Vo & Vc & Vr & Vt & Vd). destruct (memory_content _ _ _ _ _ _ _ Hl Hm Ho) as [-> Hpr].
  destruct (reinsert s k v v' Hs Hm Vp) as (s1 & s2 & E1 & E2 & S2 & M2 & C2). exists s1, s2. split; [done|]. split; [done|].
  split; [destruct (is_pending v); rewrite (ca_rest _ _ _ _ C2); done|].
  assert (Hc : exists r, Caches s s2 (if is_pending v then <[k := v']> (writes s) else writes s) r /\ forall k' x, r !! k' = Some x -> x = CRead (content k') /\ k' ∈ stored s).
  { destruct (is_pending v) eqn:Ep; [exists (reads s); split; [done|apply (lo_reads _ _ _ _ Hl)]|]. exists (<[k := v']> (reads s)). split; [done|].
    destruct (memory_reads _ _ _ _ _ _ Hl Hm Ep) as (-> & Hst & _). intros k' x [[<- <-]|[_ Hx]]%lookup_insert_Some; [done|by apply (lo_reads _ _ _ _ Hl)]. }
  destruct Hc as (r & Hc & Hr). assert (Hw : forall x, writes s2 !! x = if decide (x = k) then (if is_pending v then Some v' else None) else writes s !! x).
  { intros x. rewrite (ca_writes _ _ _ _ Hc). destruct (is_pending v) eqn:Ep; case_decide as Hx; subst; rewrite ?lookup_insert_eq, ?lookup_insert_ne by done; try done.
    by destruct (memory_read s k v Hs Hm Ep). }
  assert (Hold : writes s !! k = if is_pending v then Some v else None).
  { destruct (is_pending v) eqn:Ep; [by destruct (memory_write s k v Hs Hm Ep)|by destruct (memory_read s k v Hs Hm Ep)]. }
  assert (Hcr : created s2 = created s).
  { apply set_eq. intros x. rewrite !created_elem, Hw. case_decide as Hx; [|done]. subst x. rewrite Hold. destruct (is_pending v); [|done].
    split; intros (? & o' & [= <-] & Ho'); (eexists _, o'; split; [done|congruence]). }
  assert (HL2 : Loop A [] (fun _ => 0) s2).
  { apply (Loop_ext A _ _ s); [done|done|by eapply Caches_db|done| | |].
    - intros x. unfold rdelta, rootd. rewrite Hw. case_decide as Hx; [|done]. subst x. rewrite Hold. destruct (is_pending v); [cbn; split; congruence|done].
    - intros k' x Hx. apply Hr. eapply lookup_weaken; [done|apply Hc].
    - intros k' x. rewrite Hw. case_decide as Hx.
      + subst k'. destruct (is_pending v); [|done]. intros [= <-]. split; [done|]. split; [rewrite Vo; naive_solver|]. intros o d Hx. by destruct (Vd o d).
      + intros Hy. split; [by eapply (lo_known _ _ _ _ Hl)|]. split; [intros ?; by apply (lo_writes _ _ _ _ Hl)|]. intros ? ? ->. by eapply (lo_deleted _ _ _ _ Hl). }
  assert (Hp2 : present s2 = present s).
  { unfold present, stored. by rewrite (Caches_db _ _ _ _ Hc), Hcr. }
  apply (Loop_respec A); [done|done|cbn; lia|rewrite Hp2; cbn; pose proof (lo_live_present _ _ _ _ Hl); set_solver|].
  intros x o d Hx. cbn. rewrite Hw in Hx. case_decide as Hxk; [|pose proof (lo_deleted _ _ _ _ Hl x o d Hx); set_solver].
  destruct (is_pending v); [|done]. injection Hx as Hx. by destruct (Vd o d).
Qed.

Lemma references_zero s k : (forall p, p ∈ present s -> k ∉ kids p) -> references s k = 0.
Proof.
  intros Hk. assert (Hn : forall p, 0 <= occ k (kids p)) by (intros; apply refs_nonneg). unfold references.
  assert (Hz : forall X : gset Hash, X ⊆ present s -> sum_set (fun p => occ k (kids p)) X = 0).
  { intros X HX. destruct (Z.lt_ge_cases 0 (sum_set (fun p => occ k (kids p)) X)) as [Hp|Hp]; [|pose proof (sum_set_nonneg _ X Hn); lia].
    apply sum_set_pos in Hp as (p & Hp & Ho%refs_pos); [|done]. by destruct (Hk p (HX p Hp)). }
  rewrite !Hz; [done|unfold present; set_solver..].
Qed.

(** A new node is added, after its references were counted. *)
Lemma Loop_create A s s' k v r n : Loop (mkSpec (sp_live A) (sp_roots A) (sp_issued A + n)) [] (fun x => occ x (kids k)) s -> Shape s' ->
  Caches s s' (<[k := v]> (writes s)) r -> r ⊆ reads s -> k ∉ created s -> created_obj v = Some (content k) -> (forall o d, v <> CCreateAndDelete o d) ->
  value_ref_delta v = rdelta s k -> value_root_delta v = rootd s k -> (forall x, x ∈ kids k -> x ∈ present s) -> n = Z.of_nat (length (kids k)) ->
  sp_issued A + 2 * n < 2 ^ 31 -> Loop (spec_cache A k) [] (fun _ => 0) s'.
Proof.
  intros Hl Hs Hc Hsub Hnc Hv Hnd Hr Ht Hkids -> Hi. pose proof (Caches_db _ _ _ _ Hc) as Edb. assert (Est : stored s' = stored s) by (unfold stored; by rewrite Edb).
  assert (Ecr : created s' = {[k]} ∪ created s) by (rewrite (created_insert _ _ _ _ _ Hc), Hv; done).
  assert (Epr : present s' = {[k]} ∪ present s) by (unfold present; rewrite Est, Ecr; set_solver).
  assert (Ecc : created_count s' = Z.of_nat (length (kids k)) + created_count s) by (unfold created_count; by rewrite Ecr, sum_set_insert).
  assert (Erf : forall x, references s' x = occ x (kids k) + references s x).
  { intros x. unfold references. rewrite Est, Ecr, sum_set_insert by done. lia. }
  assert (Ed : forall x, rdelta s' x = rdelta s x /\ rootd s' x = rootd s x).
  { intros x. destruct (with_rdelta _ _ _ _ x Hc) as [-> ->]. unfold rdelta, rootd in *. destruct (decide (x = k)) as [->|Hne]; [by rewrite lookup_insert_eq|by rewrite lookup_insert_ne]. }
  pose proof Hl as [L1 L2 L3 L4 L5 L6 L7 L9 L10 L11 L12 L13 L14 L15 L16 _ _]. cbn [sp_live sp_roots sp_issued] in *.
  split; cbn [sp_live sp_roots sp_issued spec_cache]; rewrite ?Est, ?Epr, ?Edb; try done.
  - intros x v' o. rewrite (ca_writes _ _ _ _ Hc). intros [[<- <-]|[_ Hx]]%lookup_insert_Some; [|by apply L2]. intros Ho. destruct v; cbn in *; congruence.
  - intros x v' Hx. apply L3. exact (lookup_weaken _ _ _ _ (lookup_weaken _ _ _ _ Hx (ca_reads _ _ _ _ Hc)) Hsub).
  - intros x v'. rewrite (ca_writes _ _ _ _ Hc). intros [[<- _]|[_ Hx]]%lookup_insert_Some; [set_solver|]. apply L5 in Hx. set_solver.
  - intros p x [->%elem_of_singleton|Hp]%elem_of_union Hx; [apply Hkids in Hx; set_solver|]. pose proof (L7 p x Hp Hx). set_solver.
  - set_solver.
  - intros x o d. rewrite (ca_writes _ _ _ _ Hc). intros [[<- Hx]|[Hne Hx]]%lookup_insert_Some; [by destruct (Hnd o d)|]. apply L10 in Hx. set_solver.
  - intros x Hx Hns. rewrite Erf. cbn [pending foldr]. destruct (Ed x) as [-> _]. destruct (decide (x = k)) as [->|Hne].
    + assert (Hpk : k ∉ present s) by (unfold present; set_solver). rewrite (references_zero s k) by (intros p Hp Hx'; by destruct Hpk; eapply L7).
      assert (Hoc : occ k (kids k) = 0). { pose proof (refs_nonneg k (kids k)). destruct (Z.lt_ge_cases 0 (occ k (kids k))) as [Hp|]; [|lia]. apply refs_pos, Hkids in Hp. done. }
      unfold rdelta. destruct (writes s !! k) as [v'|] eqn:Ew; [by apply L5 in Ew|]. rewrite Hoc. cbn. lia.
    + destruct (L11 x) as [Hn Hp]; [set_solver|done|]. cbn [pending foldr] in Hn, Hp. lia.
  - intros x. destruct (Ed x) as [_ ->]. apply L12.
  - intros x Hx. apply L14 in Hx. set_solver.
  - intros x. rewrite Ecc. destruct (Ed x) as [-> _]. specialize (L15 x). lia.
Qed.

Lemma occ_le_length (x : Hash) l : occ x l <= Z.of_nat (length l).
Proof. induction l as [|y l IH]; cbn; [lia|]. case_decide; lia. Qed.

(** [cache]: the caller has the children's nodes. *)
Lemma cache_spec A s k : Inv A s -> k ∉ sp_live A -> (forall x, x ∈ kids k -> Needed A x) -> sp_issued A + 2 * Z.of_nat (length (kids k)) < 2 ^ 31 ->
  exists s', cache (E := E) s k (od_data (content k)) (od_children (content k)) = Ret s' /\ Inv (spec_cache A k) s'.
Proof.
  intros [[Hlive Hgc] Hl] Hk Hkids Hi. unfold cache. rewrite Hlive, decide_False by done. set (s0 := with_live s ({[k]} ∪ sp_live A)).
  assert (L0 : Loop A [] (fun _ => 0) s0) by (by apply Loop_live). rewrite peek_memory. destruct (decide _) as [[o Ho]|Hn].
  { destruct (memory s0 k) as [v|] eqn:Hm; [|done]. destruct (cache_hit A s0 k v o L0 Hm Ho Hi) as (s1 & s2 & E1 & E2 & Hlv & L2).
    rewrite E1. cbn [mbind outcome_bind]. rewrite E2. exists s2. split; [done|]. split; [destruct Hlv as [-> ->]; done|done]. }
  change (od_children (content k) ≫= refs) with (kids k). set (n := Z.of_nat (length (kids k))). set (A1 := mkSpec (sp_live A) (sp_roots A) (sp_issued A + n)).
  assert (L1 : Loop A1 ((., new_ref_delta 1) <$> kids k) (fun x => occ x (kids k)) s0).
  { pose proof L0 as [M1 M2 M3 M4 M5 M6 M7 M9 M10 M11 M12 M13 M14 M15 M16 _ _].
    assert (HN : forall x, Needed A x -> Needed A1 x) by (intros x; by apply Needed_mono).
    assert (Hw : Forall (fun kd : Hash * Delta => root_delta kd.2 = 0 /\ (ref_delta kd.2 = -1 \/ Needed A1 kd.1)) ((., new_ref_delta 1) <$> kids k))
      by (apply Forall_fmap, Forall_forall; intros x Hx; cbn; auto).
    split; try done; cbn [sp_issued A1].
    - intros x Hx Hns. rewrite !pending_items. change (negative (new_ref_delta 1)) with 0. change (ref_delta (new_ref_delta 1)) with 1.
      destruct (M11 x Hx Hns) as [Hp _]. cbn [pending foldr] in Hp. cbv beta. lia.
    - intros x. rewrite pending_items. change (root_delta (new_ref_delta 1)) with 0. specialize (M12 x). cbn [pending foldr] in M12. cbn [sp_roots A1]. lia.
    - intros x. rewrite length_fmap. specialize (M15 x). cbn [length] in M15. lia.
    - unfold n in *. lia.
    - apply Forall_fmap, Forall_forall. intros x Hx. cbn. split; [|lia]. by eapply Needed_present, Hkids.
    - destruct Hw; done. }
  destruct (update_counts_spec _ _ _ _ _ L1) as (s1 & E1 & T1 & L2). rewrite E1. cbn [mbind outcome_bind]. rewrite peek_memory.
  assert (Hkids1 : forall x, x ∈ kids k -> x ∈ present s1).
  { intros x Hx. eapply Needed_present; [done|]. eapply (Needed_mono A); [done|done|by apply Hkids]. }
  assert (Hn1 : ~ is_Some (memory s1 k ≫= get_obj)) by (intros Hx; by apply Hn, (tr_objs _ _ T1)).
  assert (Hlv1 : live_inserts s1 = {[k]} ∪ sp_live A /\ gc_state s1 = GcState_default) by (rewrite (tr_rest _ _ T1); done). pose proof (lo_shape _ _ _ _ L2) as S1.
  assert (Hnc : k ∉ created s1).
  { intros (v & o & Hw & Ho)%created_elem. destruct Hn1. unfold memory. rewrite Hw. cbn. by destruct v; eauto. }
  destruct (memory s1 k) as [v|] eqn:Hm.
  - destruct v as [o|d|d o|o|o d|o d]; cbn in Hn1; try (destruct Hn1; eauto; fail). destruct (memory_write s1 k _ S1 Hm eq_refl) as [Hw _].
    destruct (reinsert s1 k (CUpdate d) (CCreateAndUpdate (mkOnDiskObject (od_data (content k)) (od_children (content k))) d) S1 Hm eq_refl) as (s2 & s3 & E2 & E3 & S3 & _ & C3).
    rewrite E2. cbn [mbind outcome_bind]. rewrite E3. exists s3. split; [done|]. cbn [is_pending] in C3. split; [rewrite (ca_rest _ _ _ _ C3); done|].
    apply (Loop_create A s1 s3 k _ _ n L2 S3 C3); try done; [cbn; by destruct (content k)|unfold rdelta; by rewrite Hw|unfold rootd; by rewrite Hw].
  - destruct (insert_new s1 k (CCreate (mkOnDiskObject (od_data (content k)) (od_children (content k)))) S1 Hm) as (s3 & E3 & S3 & _ & C3).
    rewrite E3. exists s3. split; [done|]. cbn [is_pending] in C3. split; [rewrite (ca_rest _ _ _ _ C3); done|]. apply memory_None in Hm as [Hw _].
    apply (Loop_create A s1 s3 k _ _ n L2 S3 C3); try done; [cbn; by destruct (content k)|unfold rdelta; by rewrite Hw|unfold rootd; by rewrite Hw].
Qed.

(** One change of counts for a node that is present. *)
Lemma Loop_start A A' s k d : Loop A [] (fun _ => 0) s -> k ∈ present s -> ref_delta d = 0 -> sp_live A' = sp_live A \/ sp_live A' = sp_live A ∖ {[k]} ->
  (forall x, sp_roots A' x = sp_roots A x + if decide (k = x) then root_delta d else 0) -> (forall x, 0 <= sp_roots A' x < 2 ^ 31) ->
  sp_issued A' = sp_issued A + 1 -> sp_issued A' < 2 ^ 31 -> Loop A' [(k, d)] (fun _ => 0) s.
Proof.
  intros [M1 M2 M3 M4 M5 M6 M7 M9 M10 M11 M12 M13 M14 M15 M16 _ _] Hk Hd0 Hlv Hr Hrr Hi Hi'. split; try done.
  - destruct Hlv as [-> | ->]; set_solver.
  - intros x o d' Hx. apply M10 in Hx. destruct Hlv as [-> | ->]; set_solver.
  - intros x Hx Hns. destruct (M11 x Hx Hns) as [Hn Hp]. rewrite !pending_cons. unfold negative at 1. cbn [pending foldr] in *. rewrite Hd0. cbv beta in *. case_decide; lia.
  - intros x. specialize (M12 x). rewrite pending_cons, Hr. cbn [pending foldr] in *. case_decide; lia.
  - intros x Hx. destruct (decide (x = k)) as [->|Hne]; [done|]. apply M14. rewrite Hr, decide_False in Hx by done. lia.
  - intros x. specialize (M15 x). cbn [length] in *. lia.
  - constructor; [|done]. cbn. split; [done|lia].
Qed.

Lemma present_obj A s k : Loop A [] (fun _ => 0) s -> is_Some (memory s k) -> k ∈ present s.
Proof.
  intros Hl [v Hm]. unfold memory in Hm. destruct (writes s !! k) eqn:Ew; [by eapply (lo_known _ _ _ _ Hl)|]. apply (lo_reads _ _ _ _ Hl) in Hm as [_ ?]. unfold present. set_solver.
Qed.

Lemma uncache_spec A s k : Inv A s -> k ∈ sp_live A -> sp_issued A + 1 < 2 ^ 31 -> exists s', uncache (E := E) s k = Ret s' /\ Inv (spec_uncache A k) s'.
Proof.
  intros [[Hlive Hgc] Hl] Hk Hi. unfold uncache. rewrite Hlive, decide_False by (by intros []). set (s0 := with_live s (sp_live A ∖ {[k]})).
  assert (L0 : Loop A [] (fun _ => 0) s0) by (by apply Loop_live). assert (L0' : Loop (spec_uncache A k) [] (fun _ => 0) s0).
  { apply (Loop_respec A); [done|done|cbn; lia|..]; cbn.
    - pose proof (lo_live_present _ _ _ _ L0). set_solver.
    - intros x o d Hx%(lo_deleted _ _ _ _ L0). set_solver. }
  rewrite peek_memory. destruct (memory s0 k) as [v|] eqn:Hm; [|by exists s0]. pose proof (lo_shape _ _ _ _ L0) as S0.
  destruct v as [o|d|d o|o|o d|o d]; try (by exists s0).
  - destruct (remove_memory_spec s0 k _ S0 Hm) as (s1 & E1 & S1 & C1 & _). rewrite E1. cbn [mbind outcome_bind]. destruct (memory_write s0 k _ S0 Hm eq_refl) as [Hw _].
    assert (L1 : Loop (spec_uncache A k) [(k, mkDelta 0 0)] (fun _ => 0) s0).
    { apply (Loop_start A); cbn; try done; [eapply present_obj; [done|by eexists]|by right|intros x; case_decide; lia|apply (lo_root_range _ _ _ _ Hl)]. }
    destruct (Loop_remove _ _ _ _ _ _ s1 _ o L1 Hw) as [L2 _]; [done|cbn; set_solver|done|done|done|done|]. rewrite app_nil_r in L2.
    destruct (update_counts_spec _ _ _ _ _ L2) as (s2 & E2 & T2 & L3). exists s2. split; [done|]. split; [|done]. rewrite (tr_rest _ _ T2), (ca_rest _ _ _ _ C1). done.
  - destruct (memory_write s0 k _ S0 Hm eq_refl) as [Hw Hrk]. unfold Cache_update_in_place. rewrite lru_peek_map. fold (writes s0). rewrite Hw, decide_True by eauto.
    cbn [mbind outcome_bind]. destruct (lru_put_map (write_cache s0) k (CCreateAndDelete o d) (mk_is_Some _ _ Hw)) as [Mp Cp]. eexists. split; [done|]. split; [done|].
    set (s1 := with_caches _ _ _). assert (W1 : writes s1 = <[k := CCreateAndDelete o d]> (writes s0)) by done.
    assert (C1 : Caches s0 s1 (<[k := CCreateAndDelete o d]> (writes s0)) (reads s0)) by done.
    apply (Loop_ext _ _ _ s0); [done|..].
    + apply (Shape_write s0 s1 k (CCreateAndDelete o d)); [done|etransitivity; [exact Cp|apply S0]|done|done|]. by rewrite delete_id.
    + done.
    + rewrite (created_insert _ _ _ _ _ C1). cbn. assert (k ∈ created s0) by (apply created_elem; eauto). set_solver.
    + intros x. unfold rdelta, rootd. rewrite W1. destruct (decide (x = k)) as [->|Hne]; [by rewrite lookup_insert_eq, Hw|by rewrite lookup_insert_ne].
    + apply (lo_reads _ _ _ _ L0').
    + intros x v. rewrite W1. intros [[<- <-]|[_ Hx]]%lookup_insert_Some.
      * split; [by eapply (lo_known _ _ _ _ L0)|]. split; [intros o' [= <-]; by eapply (lo_writes _ _ _ _ L0)|cbn; set_solver].
      * split; [by eapply (lo_known _ _ _ _ L0)|]. split; [intros ?; by apply (lo_writes _ _ _ _ L0)|]. intros ? ? ->. by eapply (lo_deleted _ _ _ _ L0').
Qed.

Lemma root_spec A s k n : Inv A s -> k ∈ present s -> (forall x, 0 <= sp_roots (spec_root A k n) x < 2 ^ 31) -> sp_issued A + 1 < 2 ^ 31 ->
  exists s', update_counts (E := E) s [k] (new_root_delta n) = Ret s' /\ Inv (spec_root A k n) s'.
Proof.
  intros [Hlive Hl] Hk Hr Hi. destruct (update_counts_spec (spec_root A k n) (fun _ => 0) [k] (new_root_delta n) s) as (s' & E1 & T1 & L1).
  - apply (Loop_start A); cbn; try done; [by left|]. intros x. repeat case_decide; congruence || lia.
  - exists s'. split; [done|]. split; [rewrite (tr_rest _ _ T1); done|done].
Qed.

Lemma root_count_spec A s k : Inv A s -> get_root_count (E := E) s k = Ret (sp_roots A k).
Proof.
  intros [_ Hl]. unfold get_root_count. rewrite peek_memory. pose proof (lo_roots _ _ _ _ Hl k) as Hr. pose proof (lo_root_range _ _ _ _ Hl k) as Hrr.
  assert (Hdb : 0 <= db_root_count (database s) k < 2 ^ 31).
  { unfold db_root_count. destruct (roots (database s) !! k) as [n|] eqn:En; cbn; [|lia]. apply (lo_db_roots _ _ _ _ Hl) in En. lia. }
  assert (Hm : from_option value_root_delta 0 (memory s k) = rootd s k).
  { unfold rootd, memory. destruct (writes s !! k); [done|]. destruct (reads s !! k) as [v|] eqn:Er; [|done]. apply (lo_reads _ _ _ _ Hl) in Er as [-> _]. done. }
  rewrite Hm, wrap_i_small by (unfold in_i, i_min, i_max; change (2 ^ (32 - 1)) with 2147483648; lia). cbn [pending foldr] in Hr.
  unfold i32_add. rewrite decide_True by (unfold in_i, i_min, i_max; change (2 ^ (32 - 1)) with 2147483648; lia). cbn [mbind outcome_bind].
  destruct (Z.ltb_spec (db_root_count (database s) k + rootd s k) 0); [lia|]. f_equal. lia.
Qed.

(** ** Writing to the database *)

Definition flush_writes A (kv : Hash * Value) : list (Hash * DbUpdate Hash) :=
  match created_obj kv.2 with Some obj => [(kv.1, InsertNode obj)] | None => [] end ++
  (if value_root_delta kv.2 =? 0 then [] else [(kv.1, SetRootCount (sp_roots A kv.1))]).

Lemma flush_updates_ok A s k v : Loop A [] (fun _ => 0) s -> writes s !! k = Some v ->
  exists rooted, flush_updates (E := E) (database s) k v = Ret (flush_writes A (k, v), rooted).
Proof.
  intros Hl Hw. pose proof (lo_roots _ _ _ _ Hl k) as Hr. pose proof (lo_root_range _ _ _ _ Hl k) as Hrr.
  assert (Hdb : 0 <= db_root_count (database s) k < 2 ^ 31).
  { unfold db_root_count. destruct (roots (database s) !! k) as [n|] eqn:En; cbn; [|lia]. apply (lo_db_roots _ _ _ _ Hl) in En. lia. }
  unfold rootd in Hr. rewrite Hw in Hr. cbn [from_option pending foldr] in Hr. unfold flush_updates, flush_writes. cbn [fst snd].
  destruct (Z.eqb_spec (value_root_delta v) 0) as [Ez|Ez]; [rewrite app_nil_r; by eexists|].
  rewrite wrap_i_small by (unfold in_i, i_min, i_max; change (2 ^ (32 - 1)) with 2147483648; lia).
  unfold i32_add. rewrite decide_True by (unfold in_i, i_min, i_max; change (2 ^ (32 - 1)) with 2147483648; lia). cbn [mbind outcome_bind].
  destruct (Z.ltb_spec (db_root_count (database s) k + value_root_delta v) 0); [lia|]. replace (db_root_count (database s) k + value_root_delta v) with (sp_roots A k) by lia. by eexists.
Qed.

Lemma flush_one_eq s ups k v : flush_one (E := E) (s, ups) (k, v) =
  if is_pending v then
    self ← match get_obj v with Some obj => cache_insert_new_key s k (CRead obj) | None => Ret s end;
    '(new, rooted) ← flush_updates (database self) k v;
    Ret (if rooted : bool then with_db self (database self) (force_rescan (gc_state self)) else self, ups ++ new)
  else Panic.
Proof. done. Qed.

(** The nodes written stay in the read cache as far as there is room; [P] holds of
    the keys in it. *)
Lemma flush_fold A (P : Hash -> Prop) db l : forall s ups, Shape s -> NoDup l.*1 -> database s = db ->
  (forall k v, (k, v) ∈ l -> is_pending v = true /\ memory s k = None /\ (forall o, get_obj v = Some o -> o = content k /\ P k) /\
    exists rooted, flush_updates (E := E) db k v = Ret (flush_writes A (k, v), rooted)) ->
  (forall k v, reads s !! k = Some v -> v = CRead (content k) /\ P k) ->
  exists s', try_fold_o (flush_one (E := E)) (s, ups) l = Ret (s', ups ++ (l ≫= flush_writes A)) /\ Shape s' /\ writes s' = writes s /\ database s' = db /\
    (live_inserts s' = live_inserts s /\ (gc_state s = GcState_default -> gc_state s' = GcState_default)) /\ forall k v, reads s' !! k = Some v -> v = CRead (content k) /\ P k.
Proof.
  induction l as [|[k v] l IH]; intros s ups Hs Hnd Hdb Hl Hr; [exists s; by rewrite app_nil_r|].
  cbn [fmap list_fmap fst] in Hnd. apply NoDup_cons in Hnd as [Hk Hnd]. destruct (Hl k v ltac:(left)) as (Hp & Hm & Ho & rooted & Hu).
  cbn [try_fold_o]. rewrite flush_one_eq, Hp.
  assert (H1 : exists s1, match get_obj v with Some obj => cache_insert_new_key (E := E) s k (CRead obj) | None => Ret s end = Ret s1 /\ Shape s1 /\ writes s1 = writes s /\
    database s1 = db /\ (live_inserts s1 = live_inserts s /\ gc_state s1 = gc_state s) /\ (forall x, x <> k -> memory s x = None -> memory s1 x = None) /\ (forall k v, reads s1 !! k = Some v -> v = CRead (content k) /\ P k)).
  { destruct (get_obj v) as [o|] eqn:Eo; [|by exists s]. destruct (Ho o eq_refl) as [-> HP].
    destruct (insert_new s k (CRead (content k)) Hs Hm) as (s1 & E1 & S1 & _ & C1). cbn [is_pending] in C1. exists s1. split_and!; [done|done|apply C1|by rewrite (Caches_db _ _ _ _ C1)|rewrite (ca_rest _ _ _ _ C1); done..| |].
    - intros x Hx [Hw Hrx]%memory_None. apply memory_None. rewrite (ca_writes _ _ _ _ C1). split; [done|]. destruct (reads s1 !! x) as [y|] eqn:Ey; [|done].
      pose proof (lookup_weaken _ _ _ _ Ey (ca_reads _ _ _ _ C1)) as Hy. rewrite lookup_insert_ne in Hy by done. congruence.
    - intros x y Hy. pose proof (lookup_weaken _ _ _ _ Hy (ca_reads _ _ _ _ C1)) as Hz. apply lookup_insert_Some in Hz as [[<- <-]|[_ Hz]]; [done|by apply Hr]. }
  destruct H1 as (s1 & -> & S1 & W1 & D1 & Lv1 & M1 & R1). cbn [mbind outcome_bind]. rewrite D1, Hu. cbn [mbind outcome_bind].
  set (s2 := if rooted then _ else s1). assert (H2 : Shape s2 /\ writes s2 = writes s1 /\ reads s2 = reads s1 /\ memory s2 = memory s1 /\ database s2 = db /\ (live_inserts s2 = live_inserts s1 /\ (gc_state s1 = GcState_default -> gc_state s2 = GcState_default))).
  { unfold s2. destruct rooted; [|done]. split_and!; try done; [destruct S1; split; done|]. cbn. by intros ->. }
  destruct H2 as (S2 & W2 & R2 & M2 & D2 & Lv2). destruct (IH s2 (ups ++ flush_writes A (k, v)) S2 Hnd D2) as (s' & E' & S' & W' & D' & Lv' & R').
  - intros x y Hx. destruct (Hl x y ltac:(by right)) as (Hp' & Hm' & Ho' & Hu'). split_and!; [done| |done|done]. rewrite M2. apply M1; [|done].
    intros ->. apply Hk. apply list_elem_of_fmap. by exists (k, y).
  - intros x y. rewrite R2. apply R1.
  - exists s'. split_and!; [|done|congruence|done|destruct Lv1, Lv2, Lv'; congruence| |done]; [|intros Hg; apply Lv', Lv2; destruct Lv1; congruence]. rewrite E'. cbn [mbind list_bind]. by rewrite <- app_assoc.
Qed.

Lemma batch_update_app db (u1 u2 : list (Hash * DbUpdate Hash)) : batch_update db (u1 ++ u2) = batch_update (batch_update db u1) u2.
Proof. unfold batch_update. apply foldl_app. Qed.

Lemma flush_writes_db A db k v x :
  nodes (batch_update db (flush_writes A (k, v))) !! x = (if decide (x = k) then match created_obj v with Some o => Some o | None => nodes db !! x end else nodes db !! x) /\
  roots (batch_update db (flush_writes A (k, v))) !! x = if decide (x = k) then
    if value_root_delta v =? 0 then roots db !! x else if 0 <? sp_roots A x then Some (sp_roots A x) else None
  else roots db !! x.
Proof.
  unfold flush_writes. cbn [fst snd]. rewrite batch_update_app. set (db1 := batch_update db _).
  assert (H1 : nodes db1 = match created_obj v with Some o => <[k := o]> (nodes db) | None => nodes db end /\ roots db1 = roots db) by (unfold db1; by destruct (created_obj v)).
  destruct H1 as [N1 R1]. destruct (value_root_delta v =? 0); cbn [batch_update foldl db_update snd fst set_root_count nodes roots]; rewrite N1, R1; split.
  - destruct (created_obj v); case_decide; subst; rewrite ?lookup_insert_eq, ?lookup_insert_ne by done; done.
  - by case_decide.
  - destruct (created_obj v); case_decide; subst; rewrite ?lookup_insert_eq, ?lookup_insert_ne by done; done.
  - case_decide as Hx.
    + subst x. destruct (0 <? sp_roots A k); [by rewrite lookup_insert_eq|by rewrite lookup_delete_eq].
    + destruct (0 <? sp_roots A k); [by rewrite lookup_insert_ne|by rewrite lookup_delete_ne].
Qed.

Lemma flush_db A l : forall db, NoDup l.*1 -> forall x,
  nodes (batch_update db (l ≫= flush_writes A)) !! x = match (list_to_map l : gmap Hash Value) !! x ≫= created_obj with Some o => Some o | None => nodes db !! x end /\
  roots (batch_update db (l ≫= flush_writes A)) !! x =
    match (list_to_map l : gmap Hash Value) !! x with
    | Some v => if value_root_delta v =? 0 then roots db !! x else if 0 <? sp_roots A x then Some (sp_roots A x) else None
    | None => roots db !! x
    end.
Proof.
  induction l as [|[k v] l IH]; intros db Hnd x; [done|]. cbn [fmap list_fmap fst] in Hnd. apply NoDup_cons in Hnd as [Hk Hnd].
  cbn [mbind list_bind list_to_map foldr fst snd]. change (l ≫= flush_writes A) with (mbind (flush_writes A) l). rewrite batch_update_app.
  destruct (IH (batch_update db (flush_writes A (k, v))) Hnd x) as [-> ->]. destruct (flush_writes_db A db k v x) as [-> ->].
  change (foldr _ _ l) with (list_to_map l : gmap Hash Value). assert (Hn : (list_to_map l : gmap Hash Value) !! k = None) by (by apply not_elem_of_list_to_map_1).
  destruct (decide (x = k)) as [->|Hne]; [rewrite Hn, lookup_insert_eq; done|]. rewrite lookup_insert_ne by done. done.
Qed.

(** The invariant after the values [M] of the write cache were written. *)
Lemma flush_invariant A s s' (M W : gmap Hash Value) : Loop A [] (fun _ => 0) s -> Shape s' -> M ##ₘ W -> writes s = M ∪ W -> writes s' = W ->
  (forall x, nodes (database s') !! x = match M !! x ≫= created_obj with Some o => Some o | None => nodes (database s) !! x end) ->
  (forall x, roots (database s') !! x = match M !! x with
    | Some v => if value_root_delta v =? 0 then roots (database s) !! x else if 0 <? sp_roots A x then Some (sp_roots A x) else None
    | None => roots (database s) !! x end) ->
  (forall k v, reads s' !! k = Some v -> v = CRead (content k) /\ k ∈ stored s') -> Loop A [] (fun _ => 0) s'.
Proof.
  intros Hl Hs Hdis Hws Hw Hn Hr Hrd. set (C := dom (omap created_obj M)).
  assert (HW : forall x v, writes s !! x = Some v <-> M !! x = Some v \/ W !! x = Some v) by (intros x v; rewrite Hws; by apply lookup_union_Some).
  assert (Est : stored s' = stored s ∪ C).
  { apply set_eq. intros x. rewrite elem_of_union, !stored_elem, Hn. unfold C. rewrite elem_of_dom, lookup_omap. destruct (_ ≫= _); [naive_solver|]. split; [by left|]. intros [?|[? [=]]]; done. }
  assert (Ecr : created s = C ∪ created s').
  { unfold created, C. rewrite Hws, Hw. rewrite map_omap_union by done. by rewrite dom_union_L. }
  assert (HCd : C ## created s').
  { intros x (o1 & Hx)%elem_of_dom (v2 & o2 & Hy & _)%created_elem. rewrite lookup_omap in Hx. rewrite Hw in Hy. destruct (M !! x) as [v|] eqn:EM; [|done].
    by rewrite (map_disjoint_Some_l _ _ _ _ Hdis EM) in Hy. }
  assert (Epr : present s' = present s) by (unfold present; rewrite Est, Ecr; set_solver).
  assert (Hocc : forall x p, 0 <= occ x (kids p)) by (intros; apply refs_nonneg).
  assert (Erf : forall x, references s' x <= references s x).
  { intros x. unfold references. rewrite Est, Ecr, (sum_set_union _ C) by done. replace (stored s ∪ C) with (stored s ∪ (C ∖ stored s)) by (apply set_eq; intros y; destruct (decide (y ∈ stored s)); set_solver).
    rewrite sum_set_union by set_solver. pose proof (sum_set_mono (fun p => occ x (kids p)) C (C ∖ stored s) (Hocc x)). lapply H0; [lia|set_solver]. }
  assert (Ecc : created_count s' <= created_count s) by (unfold created_count; apply sum_set_mono; [lia|rewrite Ecr; set_solver]).
  assert (Ed : forall x, match M !! x with Some v => rdelta s' x = 0 /\ rootd s' x = 0 /\ rootd s x = value_root_delta v | None => rdelta s' x = rdelta s x /\ rootd s' x = rootd s x end).
  { intros x. unfold rdelta, rootd. rewrite Hw. destruct (M !! x) as [v|] eqn:EM.
    - rewrite (map_disjoint_Some_l _ _ _ _ Hdis EM), (proj2 (HW x v) (or_introl EM)). done.
    - rewrite Hws, lookup_union_r by done. done. }
  pose proof Hl as [M1 M2 M3 M4 M5 M6 M7 M9 M10 M11 M12 M13 M14 M15 M16 _ _]. split; rewrite ?Epr; try done.
  - intros x v o Hx. apply M2. apply HW. rewrite Hw in Hx. by right.
  - intros x o. rewrite Hn. destruct (M !! x) as [v|] eqn:EM; cbn; [|apply M4]. destruct (created_obj v) as [o'|] eqn:Ev; [|apply M4]. intros [= <-].
    apply (M2 x v); [apply HW; by left|by destruct v].
  - intros x v Hx. rewrite Hw in Hx. apply (M5 x v), HW. by right.
  - intros x n. rewrite Hr. assert (Hold : roots (database s) !! x = Some n -> 0 < n < 2 ^ 31 /\ x ∈ stored s') by (intros Hx; apply M6 in Hx; rewrite Est; set_solver).
    destruct (M !! x) as [v|] eqn:EM; [|done]. destruct (value_root_delta v =? 0); [done|]. destruct (Z.ltb_spec 0 (sp_roots A x)); [|done]. intros [= <-]. split; [specialize (M13 x); lia|].
    assert (Hx : x ∈ present s) by (eapply M5; apply HW; by left). rewrite Est. unfold present in Hx. rewrite Ecr in Hx. apply elem_of_union in Hx as [?|[?|Hx]%elem_of_union]; [set_solver..|].
    apply created_elem in Hx as (v' & o & Hv' & _). rewrite Hw in Hv'. by apply (map_disjoint_Some_l _ _ _ _ Hdis) in EM; rewrite EM in Hv'.
  - intros x o d Hx. apply (M10 x o d), HW. rewrite Hw in Hx. by right.
  - intros x Hx Hns. rewrite Est in Hns. destruct (M11 x) as [Hp _]; [set_solver|set_solver|]. specialize (Erf x). specialize (Ed x). cbn [pending foldr] in *. destruct (M !! x) as [v|] eqn:EM.
    + apply created_elem in Hx as (v' & o & Hv' & _). rewrite Hw in Hv'. by apply (map_disjoint_Some_l _ _ _ _ Hdis) in EM; rewrite EM in Hv'.
    + destruct Ed as [-> _]. cbv beta. lia.
  - intros x. specialize (M12 x). specialize (Ed x). unfold db_root_count in *. rewrite Hr. cbn [pending foldr] in *. destruct (M !! x) as [v|] eqn:EM; [|destruct Ed as [_ ->]; done].
    destruct Ed as (_ & -> & Ev). rewrite Ev in M12. destruct (Z.eqb_spec (value_root_delta v) 0) as [Ez|Ez]; [rewrite Ez in M12; lia|]. specialize (M13 x). destruct (Z.ltb_spec 0 (sp_roots A x)); cbn; lia.
  - intros x. specialize (M15 x). specialize (Ed x). destruct (M !! x); [destruct Ed as [-> _]|destruct Ed as [-> _]]; lia.
Qed.

(** Some values of the write cache are written to the database. *)
Lemma flush_spec A s w l : Inv A s -> lru_cap w = None -> NoDup l.*1 -> (list_to_map l : gmap Hash Value) ##ₘ lru_map w -> writes s = list_to_map l ∪ lru_map w ->
  exists s', flush_to_db (E := E) (with_caches s (read_cache s) w) l = Ret s' /\ Inv A s' /\ writes s' = lru_map w.
Proof.
  intros [[Hlive Hgc] Hl] Hcap Hnd Hdis Hws. set (M := list_to_map l : gmap Hash Value) in *. set (s0 := with_caches s (read_cache s) w).
  assert (W0 : writes s0 = lru_map w) by done. pose proof (lo_shape _ _ _ _ Hl) as Hs. pose proof (flush_db A l (database s) Hnd) as Hdb. fold M in Hdb.
  assert (HM : forall k v, (k, v) ∈ l <-> M !! k = Some v) by (intros k v; split; [intros Hx; by apply elem_of_list_to_map_1|apply elem_of_list_to_map_2]).
  assert (HMs : forall k v, M !! k = Some v -> writes s !! k = Some v) by (intros k v Hk; rewrite Hws; by apply lookup_union_Some_l).
  set (db' := batch_update (database s) (l ≫= flush_writes A)) in *. set (P := fun k => is_Some (nodes db' !! k)).
  assert (HP : forall k, k ∈ stored s -> P k).
  { intros k [o Ho]%stored_elem. unfold P. destruct (Hdb k) as [-> _]. destruct (M !! k ≫= created_obj); [by eexists|]. rewrite Ho. by eexists. }
  assert (HPc : forall k v o, M !! k = Some v -> get_obj v = Some o -> P k).
  { intros k v o Hk Ho. pose proof (lo_known _ _ _ _ Hl k v (HMs _ _ Hk)) as [Hst|Hcr]%elem_of_union; [by apply HP|]. unfold P. destruct (Hdb k) as [-> _].
    apply created_elem in Hcr as (v' & o' & Hv' & Ho'). rewrite (HMs _ _ Hk) in Hv'. injection Hv' as <-. rewrite Hk. cbn. rewrite Ho'. by eexists. }
  destruct (flush_fold A P (database s) l s0 []) as (s1 & E1 & S1 & W1 & D1 & Lv1 & R1); [|done|done|..].
  - apply (Shape_shrink s); [done|done|rewrite W0, Hws; by apply map_union_subseteq_r|done].
  - intros k v Hk%HM. pose proof (HMs _ _ Hk) as Hwk. split_and!.
    + by eapply (sh_writes _ Hs).
    + apply memory_None. rewrite W0. split; [by eapply map_disjoint_Some_l|]. eapply map_disjoint_Some_l; [apply (sh_disjoint _ Hs)|done].
    + intros o Ho. split; [by eapply (lo_writes _ _ _ _ Hl)|by eapply HPc].
    + by apply (flush_updates_ok A s).
  - intros k v Hk. destruct (lo_reads _ _ _ _ Hl k v Hk) as [-> Hst]. split; [done|by apply HP].
  - unfold flush_to_db. rewrite E1. cbn [mbind outcome_bind app]. rewrite D1. fold db'. set (s' := with_db s1 db' (gc_state s1)). exists s'. split; [done|].
    assert (W' : writes s' = lru_map w) by (change (writes s') with (writes s1); by rewrite W1). split; [|done].
    split; [destruct Lv1 as [Lv1 Gc1]; split; [by change (live_inserts s') with (live_inserts s1); rewrite Lv1|by apply Gc1]|].
    apply (flush_invariant A s s' M (lru_map w)); try done; [by destruct S1; split|intros x; apply Hdb|intros x; apply Hdb|].
    intros k v Hk. rewrite stored_elem. by apply R1.
Qed.

Lemma evict_spec n : forall (w : lru Hash Value) (ev : gmap Hash Value), (n <= size (lru_map w))%nat -> ev ##ₘ lru_map w ->
  exists w' ev', evict (E := E) n w ev = Ret (w', ev') /\ lru_cap w' = lru_cap w /\ ev' ##ₘ lru_map w' /\ ev' ∪ lru_map w' = ev ∪ lru_map w.
Proof.
  induction n as [|n IH]; intros w ev Hn Hd; [by exists w, ev|]. cbn [evict]. destruct (lru_pop_lru_map w) as [Hc Hp]. destruct (lru_pop_lru w) as [w1 [[k v]|]]; cbn [fst snd] in *.
  - destruct Hp as [Hk Hw1]. assert (Hevk : ev !! k = None) by (by eapply map_disjoint_Some_r). destruct (IH w1 (<[k := v]> ev)) as (w' & ev' & E' & Hc' & Hd' & Hu').
    + rewrite Hw1, map_size_delete, Hk. lia.
    + rewrite Hw1. apply map_disjoint_insert_l_2; [apply lookup_delete_eq|]. eapply map_disjoint_weaken_r; [done|apply delete_subseteq].
    + exists w', ev'. split_and!; [done|congruence|done|]. rewrite Hu', Hw1, <- insert_union_l, insert_union_r by done. by rewrite insert_delete_id.
  - rewrite Hp, map_size_empty in Hn. lia.
Qed.

Lemma flush_evictions_spec A s : Inv A s -> exists s', flush_cache_evictions_to_db (E := E) s = Ret s' /\ Inv A s'.
Proof.
  intros HI. unfold flush_cache_evictions_to_db. case_decide; [by exists s|].
  destruct (evict_spec (Cache_len (write_cache s) - cache_size s) (write_cache s) ∅) as (w & ev & -> & Hc & Hd & Hu); [rewrite Cache_len_size; lia|apply map_disjoint_empty_l|].
  cbn [mbind outcome_bind]. rewrite (left_id_L ∅ (∪)) in Hu. assert (Hev : list_to_map (hashmap_iter ev) = ev).
  { rewrite (list_to_map_proper _ (map_to_list ev)); [apply list_to_map_to_list|rewrite hashmap_iter_perm; apply NoDup_fst_map_to_list|apply hashmap_iter_perm]. }
  destruct (flush_spec A s w (hashmap_iter ev) HI) as (s' & E' & I' & _); [rewrite Hc; apply (lo_shape _ _ _ _ (proj2 HI))|rewrite hashmap_iter_perm; apply NoDup_fst_map_to_list|by rewrite Hev|by rewrite Hev|].
  by exists s'.
Qed.

Lemma flush_all_spec A s : Inv A s -> exists s', flush_all_changes_to_db (E := E) s = Ret s' /\ Inv A s' /\ writes s' = ∅.
Proof.
  intros HI. unfold flush_all_changes_to_db. destruct (lru_clear_map (write_cache s)) as [Hm Hc].
  destruct (flush_spec A s (lru_clear (write_cache s)) (lru_iter (write_cache s)) HI) as (s' & E' & I' & W').
  - rewrite Hc. apply (lo_shape _ _ _ _ (proj2 HI)).
  - apply lru_keys.
  - rewrite Hm. apply map_disjoint_empty_r.
  - rewrite Hm, (right_id_L ∅ (∪)). done.
  - exists s'. by rewrite W', Hm.
Qed.
End states.
