(* ===== verification/BackendTheorems.v ===== *)
(** * The back-end loses nothing

    For callers that keep to the documented duties and to some that are not
    documented ([duties], [cautions]): whatever the caches drop and write, and
    whatever is collected, a node that is reachable from live nodes and roots can
    be read; and a collection that runs to its end leaves exactly these nodes.
    Examples show what goes wrong without each of the undocumented rules. *)

From S2P Require Import Prelude Cost DeltaTracking StorageBackend BackendInvariant.
From stdpp Require Import gmap sorting.

Local Open Scope Z_scope.

Section collect.
Context {Hash : Type} `{Countable Hash} {L : Lru Hash (CacheValue Hash)} {PF : Platform Hash} {LL : LruLaws Hash (CacheValue Hash)} {PL : PlatformLaws Hash}.
Context {E : Type} (content : Hash -> OnDiskObject Hash).
Local Abbreviation Obj := (OnDiskObject Hash).
Local Abbreviation Value := (CacheValue Hash).
Local Abbreviation Backend := (StorageBackend Hash).
Local Abbreviation Spec := (Spec (Hash := Hash)).
Local Abbreviation kids := (kids content).
Local Abbreviation Needed := (Needed content).
Local Abbreviation Inv := (Inv content).
Implicit Types (s : Backend) (k : Hash) (v : Value) (A : Spec) (mark grey : gset Hash).

(** ** Marking *)

(** Marked nodes have their children marked or grey, all of them are needed, and
    what callers marked is among them. *)
Record Marked A mark grey : Prop := {
  mk_closed x c : x ∈ mark -> c ∈ kids x -> c ∈ mark ∪ grey;
  mk_needed x : x ∈ mark ∪ grey -> Needed A x;
  mk_roots x : x ∈ sp_live A \/ 0 < sp_roots A x -> x ∈ mark ∪ grey;
  mk_disjoint : mark ## grey
}.

Lemma Marked_needed A mark x : Marked A mark ∅ -> x ∈ mark <-> Needed A x.
Proof.
  intros [Hc Hn Hr _]. split; [intros Hx; apply Hn; set_solver|]. induction 1 as [x Hx|x Hx|p x _ IH Hx].
  - specialize (Hr x). set_solver.
  - specialize (Hr x). set_solver.
  - specialize (Hc p x IH Hx). set_solver.
Qed.

Lemma grey_child_spec cs : forall mark grey next,
  exists new, foldl grey_child (mark, grey, next) cs = (mark, grey ∪ new, next ∪ new) /\ (forall x, (x ∈ new) <-> (x ∈ cs) /\ (x ∉ mark) /\ (x ∉ grey)).
Proof.
  induction cs as [|c cs IH]; intros mark grey next; cbn [foldl]; [exists ∅; split; [f_equal; [f_equal|]; set_solver|set_solver]|].
  unfold grey_child at 2. destruct (decide (c ∈ mark)) as [Hm|Hm]; [|destruct (decide (c ∈ grey)) as [Hg|Hg]].
  - destruct (IH mark grey next) as (new & -> & Hnew). exists new. split; [done|]. intros x. rewrite Hnew. set_solver.
  - destruct (IH mark grey next) as (new & -> & Hnew). exists new. split; [done|]. intros x. rewrite Hnew. set_solver.
  - destruct (IH mark ({[c]} ∪ grey) ({[c]} ∪ next)) as (new & -> & Hnew). exists ({[c]} ∪ new). split; [f_equal; [f_equal|]; set_solver|].
    intros x. destruct (decide (x = c)); set_solver.
Qed.

(** A node in the caches is marked and its children become grey. *)
Lemma mark_cached_spec A (cache_read : Hash -> option Obj) l : (forall k o, cache_read k = Some o -> o = content k) -> forall mark grey next,
  Marked A mark grey -> list_to_set l ⊆ mark ∪ grey -> next ⊆ grey -> list_to_set l ## next -> NoDup l ->
  exists mark' grey' next', foldl (mark_cached cache_read) (mark, grey, next) l = (mark', grey', next') /\ Marked A mark' grey' /\
    mark ⊆ mark' /\ next' ⊆ grey' /\ (forall k, k ∈ l -> is_Some (cache_read k) -> k ∈ mark') /\ ((forall k, k ∈ l -> cache_read k = None) -> next' = next).
Proof.
  intros Hcr. induction l as [|k l IH]; intros mark grey next HM Hl Hn Hd Hnd; cbn [foldl].
  { exists mark, grey, next. split_and!; try done. intros k Hk. by apply not_elem_of_nil in Hk. }
  apply NoDup_cons in Hnd as [Hk Hnd]. cbn [list_to_set foldr] in Hl, Hd. change (foldr _ _ l) with (list_to_set l : gset Hash) in Hl, Hd.
  unfold mark_cached at 2. destruct (cache_read k) as [o|] eqn:Er.
  - rewrite (Hcr k o Er). change (child_refs (content k)) with (kids k). destruct (grey_child_spec (kids k) ({[k]} ∪ mark) (grey ∖ {[k]}) next) as (new & -> & Hnew).
    destruct (IH ({[k]} ∪ mark) ((grey ∖ {[k]}) ∪ new) (next ∪ new)) as (mark' & grey' & next' & Ef & HM' & Hsub & Hn' & Hc' & _); [| |set_solver| |done|].
    + destruct HM as [M1 M2 M3 M4]. assert (HNk : Needed A k) by (apply M2; set_solver). split.
      * intros x c Hx Hc. destruct (decide (c ∈ {[k]} ∪ mark ∪ (grey ∖ {[k]}))) as [|Hnc]; [set_solver|]. apply elem_of_union in Hx as [->%elem_of_singleton|Hx].
        -- assert (c ∈ new) by (apply Hnew; set_solver). set_solver.
        -- specialize (M1 x c Hx Hc). destruct (decide (c = k)); set_solver.
      * intros x Hx. destruct (decide (x ∈ new)) as [Hxn|Hxn]; [apply Hnew in Hxn as [Hxn _]; by apply (needed_child content A k)|]. apply M2. set_solver.
      * intros x Hx. specialize (M3 x Hx). destruct (decide (x = k)); set_solver.
      * intros x Hx. specialize (Hnew x). set_solver.
    + intros x Hx. destruct (decide (x = k)); set_solver.
    + intros x Hx. specialize (Hnew x). assert (x ∈ mark ∪ grey) by set_solver. assert (x <> k) by set_solver. set_solver.
    + exists mark', grey', next'. split_and!; [done|done|set_solver|done| |].
      * intros x [->|Hx]%elem_of_cons Hs; [set_solver|by apply Hc'].
      * intros Hall. rewrite (Hall k) in Er by left. done.
  - destruct (IH mark grey next) as (mark' & grey' & next' & Ef & HM' & Hsub & Hn' & Hc' & Hz); [done|set_solver|done|set_solver|done|].
    exists mark', grey', next'. split_and!; [done|done|done|done| |].
    + intros x [->|Hx]%elem_of_cons Hs; [rewrite Er in Hs; by destruct Hs|by apply Hc'].
    + intros Hall. apply Hz. intros x Hx. apply Hall. by right.
Qed.

(** Marking in the caches ends: every round but the last marks a node. *)
Lemma mark_in_cache_spec A (cache_read : Hash -> option Obj) (cached : gset Hash) : (forall k o, cache_read k = Some o -> o = content k) ->
  (forall k, is_Some (cache_read k) -> k ∈ cached) -> forall fuel to_process mark grey,
  Marked A mark grey -> to_process ⊆ grey -> (size (cached ∖ mark) < fuel)%nat ->
  exists mark' grey', mark_in_cache (E := E) fuel cache_read to_process mark grey = Ret (mark', grey') /\ Marked A mark' grey'.
Proof.
  intros Hcr Hcd. induction fuel as [|fuel IH]; intros to_process mark grey HM Hp Hf; [lia|]. cbn [mark_in_cache].
  case_decide as Hz; [by exists mark, grey|]. assert (Hls : list_to_set (set_iter to_process) = to_process) by (rewrite set_iter_perm; apply list_to_set_elements_L).
  destruct (mark_cached_spec A cache_read (set_iter to_process) Hcr mark grey ∅ HM) as (mark' & grey' & next' & -> & HM' & Hsub & Hn' & Hc' & Hnone).
  { rewrite Hls. set_solver. } { set_solver. } { set_solver. } { rewrite set_iter_perm. apply NoDup_elements. }
  destruct (decide (Exists (fun k => is_Some (cache_read k)) (set_iter to_process))) as [(k & Hk & Hs)%Exists_exists|Hno].
  - apply IH; [done|done|]. assert (Hlt : (size (cached ∖ mark') < size (cached ∖ mark))%nat); [|lia]. apply subset_size.
    assert (Hkt : k ∈ to_process) by (rewrite <- Hls; by apply elem_of_list_to_set). assert (k ∉ mark) by (pose proof (mk_disjoint _ _ _ HM); set_solver).
    specialize (Hcd k Hs). specialize (Hc' k Hk Hs). split; [set_solver|]. intros Hx. specialize (Hx k). set_solver.
  - rewrite Hnone; [destruct fuel; cbn [mark_in_cache]; rewrite decide_True by done; by exists mark', grey'|].
    intros k Hk. destruct (cache_read k) eqn:Er; [|done]. destruct Hno. apply Exists_exists. exists k. rewrite Er. eauto.
Qed.

(** A batch read from the database: all of it is marked beforehand. *)
Lemma mark_read_spec A db (B : gset Hash) l : forall mark grey,
  (forall k, k ∈ l -> nodes db !! k = Some (content k) /\ Needed A k) -> list_to_set l ⊆ mark -> B ⊆ mark ->
  (forall x c, x ∈ mark -> x ∉ (list_to_set l : gset Hash) -> c ∈ kids x -> c ∈ mark ∪ grey) -> (forall x, x ∈ mark ∪ grey -> Needed A x) ->
  (forall x, x ∈ sp_live A \/ 0 < sp_roots A x -> x ∈ mark ∪ grey) -> (forall x, x ∈ mark -> x ∈ grey -> x ∈ l) ->
  exists grey', foldl mark_read (mark, grey) (batch_get_nodes db l) = (mark, grey') /\ Marked A mark grey'.
Proof.
  induction l as [|k l IH]; intros mark grey Hl Hm HB Hc Hn Hr Hd; cbn [batch_get_nodes fmap list_fmap foldl].
  { exists grey. split; [done|]. split; [|done|done|]; [intros x c Hx Hcx; apply (Hc x c Hx); [|done]; set_solver|]. intros x Hx Hg. specialize (Hd x Hx Hg). by apply not_elem_of_nil in Hd. }
  cbn [list_to_set foldr] in Hm, Hc. change (foldr _ _ l) with (list_to_set l : gset Hash) in Hm, Hc. destruct (Hl k ltac:(left)) as [Hk HNk].
  unfold mark_read at 2. cbn [fst snd]. unfold get_node. rewrite Hk. cbn [from_option]. change (child_refs (content k)) with (kids k).
  destruct (grey_child_spec (kids k) ({[k]} ∪ mark) (grey ∖ {[k]}) ∅) as (new & -> & Hnew). replace ({[k]} ∪ mark) with mark in * by set_solver.
  apply IH; try done.
  - intros x Hx. apply Hl. by right.
  - set_solver.
  - intros x c Hx Hxl Hcx. destruct (decide (c ∈ mark ∪ (grey ∖ {[k]}))) as [|Hnc]; [set_solver|]. destruct (decide (x = k)) as [->|Hne].
    + assert (c ∈ new) by (apply Hnew; set_solver). set_solver.
    + specialize (Hc x c Hx ltac:(set_solver) Hcx). destruct (decide (c = k)); set_solver.
  - intros x Hx. destruct (decide (x ∈ new)) as [Hxn|Hxn]; [apply Hnew in Hxn as [Hxn _]; by apply (needed_child content A k)|]. apply Hn. set_solver.
  - intros x Hx. specialize (Hr x Hx). destruct (decide (x = k)); set_solver.
  - intros x Hx Hg. specialize (Hnew x). assert (Hg' : x ∈ grey /\ x <> k) by set_solver. destruct Hg' as [Hg' Hne]. specialize (Hd x Hx Hg'). apply elem_of_cons in Hd as [?|?]; done.
Qed.

(** Marking in the database ends with nothing grey, given batches enough. *)
Lemma mark_on_disk_spec A db sizes : (forall k, Needed A k -> nodes db !! k = Some (content k)) -> Forall (fun n => 1 <= n)%nat sizes -> forall mark grey,
  Marked A mark grey -> (size (dom (nodes db) ∖ mark) <= length sizes)%nat -> exists mark', mark_on_disk db sizes mark grey = (mark', ∅) /\ Marked A mark' ∅.
Proof.
  intros Hst. induction 1 as [|n sizes Hn _ IH]; intros mark grey HM Hsz.
  - cbn [mark_on_disk]. assert (Hg : grey = ∅).
    { apply set_eq. intros x. split; [|set_solver]. intros Hx. assert (Hxd : x ∈ dom (nodes db)) by (apply elem_of_dom; rewrite Hst; [eauto|apply (mk_needed _ _ _ HM); set_solver]).
      cbn in Hsz. assert (Hz : size (dom (nodes db) ∖ mark) = 0%nat) by lia. apply size_empty_inv in Hz. pose proof (mk_disjoint _ _ _ HM). set_solver. }
    subst grey. rewrite decide_True by done. by exists mark.
  - cbn [mark_on_disk]. case_decide as Hz; [subst grey; by exists mark|]. set (batch := take n (set_iter grey)).
    assert (Hb : forall x, x ∈ batch -> x ∈ grey). { intros x Hx. apply elem_of_elements. rewrite <- set_iter_perm. apply elem_of_take in Hx as (i & Hi & _). by eapply list_elem_of_lookup_2. }
    destruct (mark_read_spec A db (list_to_set batch) batch (list_to_set batch ∪ mark) grey) as (grey' & -> & HM').
    + intros k Hk. assert (HNk : Needed A k) by (apply (mk_needed _ _ _ HM); apply Hb in Hk; set_solver). auto.
    + set_solver.
    + set_solver.
    + intros x c Hx Hxb Hc. pose proof (mk_closed _ _ _ HM x c). set_solver.
    + intros x Hx. apply (mk_needed _ _ _ HM). apply elem_of_union in Hx as [[Hx|Hx]%elem_of_union|Hx]; [|set_solver..]. apply elem_of_list_to_set, Hb in Hx. set_solver.
    + intros x Hx. pose proof (mk_roots _ _ _ HM x Hx). set_solver.
    + intros x Hx Hg. pose proof (mk_disjoint _ _ _ HM). set_solver.
    + apply IH; [done|]. assert (Hlt : (size (dom (nodes db) ∖ (list_to_set batch ∪ mark)) < size (dom (nodes db) ∖ mark))%nat); [|cbn in Hsz; lia]. apply subset_size.
      assert (Hne : exists k, k ∈ batch).
      { destruct batch as [|k l] eqn:Eb; [|exists k; left]. exfalso. apply Hz. assert (Hel : set_iter grey = []) by (unfold batch in Eb; destruct (set_iter grey), n; cbn in *; congruence || lia).
        apply leibniz_equiv, elements_empty_inv, Permutation_nil. by rewrite <- set_iter_perm, Hel. }
      destruct Hne as [k Hk]. pose proof (Hb k Hk) as Hkg. assert (Hkd : k ∈ dom (nodes db)) by (apply elem_of_dom; rewrite Hst; [eauto|apply (mk_needed _ _ _ HM); set_solver]).
      pose proof (mk_disjoint _ _ _ HM). split; [set_solver|]. intros Hx. specialize (Hx k). set_solver.
Qed.
(** ** Sweeping *)

Lemma delete_batch (ks : list Hash) : forall db : InMemoryDB Hash, roots (batch_update db ((fun k => (k, DeleteNode)) <$> ks)) = roots db /\
  forall x, nodes (batch_update db ((fun k => (k, DeleteNode)) <$> ks)) !! x = if decide (x ∈ ks) then None else nodes db !! x.
Proof.
  induction ks as [|k ks IH]; intros db; [done|]. destruct (IH (db_update db (k, DeleteNode))) as [Hr Hn].
  split; [exact Hr|]. intros x. etransitivity; [exact (Hn x)|]. cbn [db_update snd fst delete_node nodes]. destruct (decide (x = k)) as [->|Hne].
  - rewrite (decide_True (P := k ∈ k :: ks)) by left. rewrite lookup_delete_eq. by case_decide.
  - rewrite lookup_delete_ne by done. do 2 case_decide; try done; set_solver.
Qed.

(** The keys already swept, and those that remain. *)
Definition swept (r : option Hash) k : Prop := match r with Some h => hash_le k h | None => False end.
#[local] Instance swept_dec r k : Decision (swept r k).
Proof. destruct r; cbn; apply _. Defined.
Definition remaining (db : InMemoryDB Hash) (r : option Hash) : gset Hash := filter (fun k => ~ swept r k) (dom (nodes db)).

Lemma scan_range db r n : scan db r n = (let batch := take n (filter (fun kv => ~ swept r kv.1) (node_range db)) in (batch, fst <$> last batch)).
Proof.
  unfold scan. destruct r as [h|]; [done|]. cbn [swept]. assert (Hf : forall l : list (Hash * Obj), filter (fun kv => ~ False) l = l); [|by rewrite Hf].
  induction l as [|a l IH]; [done|]. rewrite filter_cons_True by auto. by rewrite IH.
Qed.

Lemma node_range_elem db k : k ∈ (node_range db).*1 <-> k ∈ dom (nodes db).
Proof.
  unfold node_range. rewrite merge_sort_Permutation, elem_of_dom, list_elem_of_fmap. split.
  - intros ([k' o] & -> & Ho%elem_of_map_to_list). by eexists.
  - intros [o Ho]. exists (k, o). split; [done|]. by apply elem_of_map_to_list.
Qed.

(** The keys of a batch are the least of those that remain. *)
Lemma scan_least db r n batch h : take n (filter (fun kv => ~ swept r kv.1) (node_range db)) = batch -> fst <$> last batch = Some h ->
  h ∈ remaining db r /\ (forall k, k ∈ batch.*1 -> k ∈ dom (nodes db)) /\ forall k, k ∈ remaining db r -> hash_le k h -> k ∈ batch.*1.
Proof.
  set (rest := filter _ _). intros Hb Hh. destruct (last batch) as [[h' o]|] eqn:El; [|done]. injection Hh as ->. apply last_Some in El as [pre El].
  assert (Hr : forall k, k ∈ rest.*1 <-> k ∈ remaining db r).
  { intros k. unfold remaining. rewrite elem_of_filter, <- node_range_elem, !list_elem_of_fmap. unfold rest. setoid_rewrite list_elem_of_filter. naive_solver. }
  assert (Hsplit : rest = batch ++ drop n rest) by (rewrite <- Hb; symmetry; apply take_drop). assert (Hin : forall k, k ∈ batch.*1 -> k ∈ remaining db r).
  { intros k Hk. apply Hr. rewrite Hsplit, fmap_app. set_solver. }
  assert (Hhb : h ∈ batch.*1) by (rewrite El, fmap_app; cbn; set_solver). split_and!.
  - by apply Hin.
  - intros k Hk%Hin. unfold remaining in Hk. set_solver.
  - intros k Hk Hle. apply Hr in Hk. rewrite Hsplit, fmap_app in Hk. apply elem_of_app in Hk as [|Hk]; [done|].
    assert (Hs : StronglySorted (fun a b : Hash * Obj => hash_le a.1 b.1) rest).
    { unfold rest. apply StronglySorted_filter. unfold node_range. apply StronglySorted_merge_sort; [intros a b c; by apply transitivity|].
      intros a b. destruct (total hash_le a.1 b.1); auto. }
    assert (Hhk : hash_le h k).
    { apply list_elem_of_fmap in Hk as ([k' o'] & -> & Hk). rewrite Hsplit in Hs. rewrite El in Hs.
      apply (StronglySorted_app_1_elem_of _ _ _ (h, o) (k', o') Hs); [set_solver|done]. }
    assert (k = h) by (by apply (anti_symm hash_le)). by subst.
Qed.
(** A sweep with batches enough deletes the nodes that are not marked. *)
Lemma sweep_spec mark sizes : Forall (fun n => 1 <= n)%nat sizes -> forall db r cull,
  (forall k, k ∈ dom (nodes db) -> swept r k -> k ∈ mark) -> (size (remaining db r) < length sizes)%nat ->
  exists db' culled, sweep db sizes mark r cull = (db', None, cull ++ culled) /\ roots db' = roots db /\
    (forall x, nodes db' !! x = if decide (x ∈ mark) then nodes db !! x else None) /\ forall x, x ∈ culled <-> x ∈ dom (nodes db) ∖ mark.
Proof.
  induction 1 as [|n sizes Hn _ IH]; intros db r cull Hr Hsz; [cbn in Hsz; lia|]. cbn [sweep]. rewrite scan_range. cbv zeta. set (batch := take n _). cbv iota.
  destruct (fst <$> last batch) as [h|] eqn:Eh.
  - rewrite decide_False by done. destruct (scan_least db r n batch h eq_refl Eh) as (Hh & Hb & Hleast). set (gone := filter (fun k => k ∉ mark) batch.*1).
    assert (Hgone : forall x, x ∈ gone <-> (x ∉ mark) /\ x ∈ batch.*1) by (intros x; unfold gone; by rewrite list_elem_of_filter).
    destruct (delete_batch gone db) as [Rd Nd]. set (db1 := batch_update db _) in *.
    assert (Hd1 : forall x, x ∈ dom (nodes db1) <-> x ∈ dom (nodes db) /\ x ∉ gone).
    { intros x. rewrite !elem_of_dom, Nd. case_decide; [split; [by intros []|tauto]|tauto]. }
    destruct (IH db1 (Some h) (cull ++ gone)) as (db' & culled & -> & R' & N' & C').
    + intros k [Hk Hng]%Hd1 Hle. cbn in Hle. destruct (decide (k ∈ mark)) as [|Hnm]; [done|]. destruct (decide (swept r k)) as [Hs|Hs]; [by apply Hr|].
      destruct Hng. apply Hgone. split; [done|]. apply Hleast; [|done]. unfold remaining. set_solver.
    + assert (Hlt : (size (remaining db1 (Some h)) < size (remaining db r))%nat); [|cbn in Hsz; lia]. apply subset_size. split.
      * intros k. unfold remaining. rewrite !elem_of_filter, Hd1. intros [Hk [Hk' _]]. split; [|done]. intros Hs. apply Hk. unfold remaining in Hh. apply elem_of_filter in Hh as [Hh _].
        destruct r as [r|]; [|done]. cbn in *. destruct (total hash_le h r) as [?|Hrh]; [done|]. by transitivity r.
      * intros Hx. specialize (Hx h Hh). unfold remaining in Hx. apply elem_of_filter in Hx as [Hx _]. by apply Hx; cbn.
    + exists db', (gone ++ culled). rewrite app_assoc. split_and!; [done|congruence| |].
      * intros x. rewrite N', Nd. destruct (decide (x ∈ mark)) as [Hx|]; [|done]. rewrite decide_False; [done|]. rewrite Hgone. tauto.
      * intros x. rewrite elem_of_app, C', Hgone, !elem_of_difference, Hd1, Hgone. specialize (Hb x). destruct (decide (x ∈ batch.*1)); tauto.
  - assert (Hz : remaining db r = ∅).
    { apply set_eq. intros k. split; [|set_solver]. intros Hk. unfold remaining in Hk. apply elem_of_filter in Hk as [Hk Hd]. apply node_range_elem, list_elem_of_fmap in Hd as (kv & -> & Hkv).
      assert (Hf : kv ∈ filter (fun kv => ~ swept r kv.1) (node_range db)) by (apply list_elem_of_filter; done). unfold batch in Eh. destruct (filter _ _) as [|a l]; [by apply not_elem_of_nil in Hf|].
      destruct n as [|n]; [lia|]. cbn [take] in Eh. rewrite last_cons in Eh. by destruct (last (take n l)). }
    assert (Eb : batch = []) by (destruct batch as [|a l]; [done|]; rewrite last_cons in Eh; by destruct (last l)). rewrite decide_True by done. rewrite Eb. cbn.
    assert (Hall : forall x, x ∈ dom (nodes db) -> x ∈ mark).
    { intros x Hx. destruct (decide (swept r x)) as [Hs|Hs]; [by apply Hr|]. assert (Hxr : x ∈ remaining db r) by (unfold remaining; set_solver). rewrite Hz in Hxr. set_solver. }
    exists db, []. split_and!; [by rewrite app_nil_r|done| |set_solver]. intros x. case_decide as Hx; [done|]. destruct (nodes db !! x) eqn:Ex; [|done]. destruct Hx. apply Hall, elem_of_dom. eauto.
Qed.

(** ** Collecting *)

(** The collector's answers are enough to come to an end. *)
Definition enough (sizes : list nat) s : Prop := Forall (fun n => 1 <= n)%nat sizes /\ (size (nodes (database s)) < length sizes)%nat.

Lemma pop_all (ks : list Hash) : forall c : lru Hash Value, lru_cap (foldl (fun c k => (lru_pop_entry c k).1) c ks) = lru_cap c /\
  forall x, lru_map (foldl (fun c k => (lru_pop_entry c k).1) c ks) !! x = if decide (x ∈ ks) then None else lru_map c !! x.
Proof.
  induction ks as [|k ks IH]; intros c; cbn [foldl]; [split; [done|intros x; by rewrite decide_False by apply not_elem_of_nil]|].
  destruct (IH (lru_pop_entry c k).1) as [-> Hn]. destruct (lru_pop_entry_map c k) as (Hm & Hc & _). split; [done|]. intros x. rewrite Hn, Hm. destruct (decide (x = k)) as [->|Hne].
  - rewrite (decide_True (P := k ∈ k :: ks)) by left. rewrite lookup_delete_eq. by case_decide.
  - rewrite lookup_delete_ne by done. do 2 case_decide; try done; set_solver.
Qed.

Lemma flushed A s : Inv A s -> writes s = ∅ -> created s = ∅ /\ (forall k, Needed A k -> nodes (database s) !! k = Some (content k)) /\
  (forall k, db_root_count (database s) k = sp_roots A k) /\ forall k, memory s k ≫= get_obj = from_option get_obj None (reads s !! k).
Proof.
  intros [_ Hl] Hw. assert (Hc : created s = ∅) by (unfold created; by rewrite Hw, omap_empty, dom_empty_L). split_and!; [done|..].
  - intros k Hk. pose proof (Needed_present _ _ _ _ _ _ Hl Hk) as Hp. unfold present in Hp. rewrite Hc, (right_id_L ∅ (∪)) in Hp. apply stored_elem in Hp as [o Ho].
    by rewrite Ho, (lo_nodes _ _ _ _ _ Hl k o Ho).
  - intros k. pose proof (lo_roots _ _ _ _ _ Hl k) as Hr. unfold rootd in Hr. rewrite Hw, lookup_empty in Hr. cbn in Hr. lia.
  - intros k. unfold memory. rewrite Hw, lookup_empty. by destruct (reads s !! k).
Qed.

(** A whole run of the collector, between calls. *)
Lemma gc_run_spec A s rs ss : Inv A s -> writes s = ∅ -> enough rs s -> enough ss s ->
  exists db culled, gc_run (E := E) (gc_state s) (set_iter (live_inserts s)) (map_to_list (roots (database s))).*1 rs ss (database s)
      (Cache_len (read_cache s) + Cache_len (write_cache s)) (fun key => peek_from_memory s key ≫= get_obj) = Ret (GcState_default, db, culled) /\
    roots db = roots (database s) /\ (forall x, is_Some (nodes db !! x) <-> Needed A x) /\ (forall x o, nodes db !! x = Some o -> o = content x) /\
    (forall x, x ∈ culled -> x ∈ stored s /\ ~ Needed A x) /\ forall x, x ∈ stored s -> x ∈ culled \/ Needed A x.
Proof.
  intros HI Hw [Hrs Hrl] [Hss Hsl]. destruct (flushed A s HI Hw) as (Hcr & Hnodes & Hroots & Hmem). pose proof HI as [[Hlive Hgc] Hl].
  unfold gc_run. rewrite Hgc, Hlive. unfold gc_roots. cbn [rescan GcState_default mark_set grey_set sweep_resume]. set (last := list_to_set _ ∪ list_to_set _).
  cbn [grey_set mark_set]. replace (∅ ∪ last ∖ ∅) with last by set_solver.
  assert (Hlast : forall x, x ∈ last <-> x ∈ sp_live A \/ 0 < sp_roots A x).
  { intros x. unfold last. rewrite elem_of_union, !elem_of_list_to_set, set_iter_perm, elem_of_elements, <- Hroots. unfold db_root_count. apply or_iff_compat_l. rewrite list_elem_of_fmap. split.
    - intros ([k n] & -> & Hk%elem_of_map_to_list). cbn [fst]. rewrite Hk. apply (lo_db_roots _ _ _ _ _ Hl) in Hk. cbn. lia.
    - intros Hp. destruct (roots (database s) !! x) as [n|] eqn:En; [|cbn in Hp; lia]. exists (x, n). split; [done|by apply elem_of_map_to_list]. }
  assert (HM0 : Marked A ∅ last).
  { split; [set_solver|intros x Hx|intros x Hx%Hlast; set_solver|set_solver]. assert (Hx' : x ∈ last) by set_solver. apply Hlast in Hx' as [?|?]; [by apply needed_live|by apply needed_root]. }
  destruct (mark_in_cache_spec A (fun key => peek_from_memory s key ≫= get_obj) (dom (reads s))) with (fuel := S (S (S (Cache_len (read_cache s) + Cache_len (write_cache s))))) (to_process := last) (mark := ∅ : gset Hash) (grey := last)
    as (mark1 & grey1 & -> & HM1).
  { intros k o. rewrite peek_memory, Hmem. destruct (reads s !! k) as [v|] eqn:Ek; [|done]. apply (lo_reads _ _ _ _ _ Hl) in Ek as [-> _]. by intros [= <-]. }
  { intros k. rewrite peek_memory, Hmem. intros [o Ho]. apply elem_of_dom. by destruct (reads s !! k). }
  { done. } { done. } { rewrite difference_empty_L, size_dom, Cache_len_size. fold (reads s). lia. }
  cbn [mbind outcome_bind]. destruct (mark_on_disk_spec A (database s) rs Hnodes Hrs mark1 grey1 HM1) as (mark & -> & HM).
  { assert (Hsz : (size (dom (nodes (database s)) ∖ mark1) <= size (dom (nodes (database s))))%nat) by (apply subseteq_size; intros x; rewrite elem_of_difference; tauto). rewrite size_dom in Hsz. lia. }
  rewrite decide_False by (by intros []). cbn [sweep_resume].
  destruct (sweep_spec mark ss Hss (database s) None []) as (db & culled & -> & HR & HN & HC).
  { intros k _ []. } { assert (Hsz : (size (remaining (database s) None) <= size (dom (nodes (database s))))%nat) by (apply subseteq_size; intros x; unfold remaining; rewrite elem_of_filter; tauto). rewrite size_dom in Hsz. lia. }
  exists db, culled. split_and!; [done|done|..].
  - intros x. rewrite HN, <- (Marked_needed A mark x HM). case_decide as Hx; [|by split; [intros []|]]. split; [done|]. intros _. rewrite (Hnodes x); [by eexists|]. by apply (Marked_needed A mark x HM).
  - intros x o. rewrite HN. case_decide; [|done]. apply (lo_nodes _ _ _ _ _ Hl).
  - intros x. rewrite HC, elem_of_difference, (Marked_needed A mark x HM). done.
  - intros x Hx. rewrite HC, elem_of_difference, <- (Marked_needed A mark x HM). destruct (decide (x ∈ mark)); [by right|by left].
Qed.

Lemma gc_spec A s rs ss : Inv A s -> writes s = ∅ -> enough rs s -> enough ss s ->
  exists s' n, gc (E := E) s rs ss = Ret (s', n) /\ Inv A s' /\ forall k, k ∈ present s' <-> Needed A k.
Proof.
  intros HI Hw Hrs Hss. destruct (gc_run_spec A s rs ss HI Hw Hrs Hss) as (db & culled & Er & HR & HN & HO & _ & HC). destruct (flushed A s HI Hw) as (Hcr & Hnodes & Hroots & _).
  unfold gc, gc_override_gc_roots. rewrite Er. cbn [mbind outcome_bind]. destruct (pop_all culled (write_cache s)) as [Cw Mw], (pop_all culled (read_cache s)) as [_ Mr].
  set (w := foldl _ (write_cache s) culled) in *. set (r := foldl _ (read_cache s) culled) in *. set (s' := with_caches _ r w). exists s', (Z.of_nat (length culled)). split; [done|].
  assert (W' : writes s' = ∅) by (apply map_empty; intros x; unfold writes; cbn; rewrite Mw; fold (writes s); rewrite Hw, lookup_empty; by case_decide).
  assert (R' : forall x, reads s' !! x = if decide (x ∈ culled) then None else reads s !! x) by (intros x; apply Mr).
  assert (Cr' : created s' = ∅) by (unfold created; by rewrite W', omap_empty, dom_empty_L).
  assert (Hst : forall x, x ∈ stored s' <-> Needed A x) by (intros x; rewrite stored_elem; apply HN).
  assert (Hpr : forall x, x ∈ present s' <-> Needed A x) by (intros x; unfold present; rewrite Cr', (right_id_L ∅ (∪)); apply Hst).
  split; [|done]. pose proof HI as [[Hlive Hgc] Hl]. split; [done|]. pose proof Hl as [L1 L2 L3 L4 L5 L6 L7 L9 L10 L11 L12 L13 L14 L15 L16 _ _].
  split; try done; rewrite ?W'.
  - split; rewrite ?W'; [cbn; rewrite Cw; apply L1|done| |apply map_disjoint_empty_l]. intros x v. rewrite R'. case_decide; [done|]. apply (sh_reads _ L1).
  - done.
  - intros x v. rewrite R'. case_decide as Hx; [done|]. intros Hv. apply L3 in Hv as [-> Hs]. split; [done|]. apply Hst. by destruct (HC x Hs).
  - done.
  - intros x n. change (roots (database s')) with (roots db). rewrite HR. intros Hx. pose proof Hx as [Hn _]%L6. split; [done|]. apply Hst, needed_root. rewrite <- Hroots. unfold db_root_count. rewrite Hx. cbn. lia.
  - intros p x Hp%Hpr Hx. apply Hpr. by apply (needed_child content A p).
  - intros x Hx. apply Hpr. by apply needed_live.
  - done.
  - intros x Hx. rewrite Cr' in Hx. set_solver.
  - intros x. unfold rootd. rewrite W', lookup_empty. cbn. unfold db_root_count. change (roots (database s')) with (roots db). rewrite HR. fold (db_root_count (database s) x). rewrite Hroots. lia.
  - intros x Hx. apply Hpr. by apply needed_root.
  - intros x. unfold rdelta, created_count. rewrite W', Cr', lookup_empty, sum_set_empty. specialize (L15 x). assert (0 <= created_count content s) by (apply sum_set_nonneg; lia). cbn in *. lia.
Qed.

(** ** Fetching ahead *)

Lemma bfs_cached_spec (cg : Hash -> option Obj) trunc keys : forall (visited : gset Hash) next unknown, NoDup unknown -> (forall x, x ∈ unknown -> x ∈ visited) ->
  exists visited' next' unknown', foldl (bfs_cached cg trunc) (visited, next, unknown) keys = (visited', next', unknown') /\ NoDup unknown' /\
    (forall x, x ∈ visited' <-> x ∈ visited \/ x ∈ keys) /\ (forall x, x ∈ unknown' -> x ∈ unknown \/ (x ∈ keys /\ (x ∉ visited) /\ cg x = None)) /\
    (forall x, x ∈ next' -> x ∈ next \/ exists k o, k ∈ keys /\ (k ∉ visited) /\ cg k = Some o /\ x ∈ child_refs o).
Proof.
  induction keys as [|k keys IH]; intros visited next unknown Hnd Hu; cbn [foldl].
  { exists visited, next, unknown. split_and!; [done|done|intros x; rewrite elem_of_nil; tauto|by left|by left]. }
  unfold bfs_cached at 2. destruct (decide (k ∈ visited)) as [Hk|Hk]; [|destruct (cg k) as [o|] eqn:Ek].
  - destruct (IH visited next unknown Hnd Hu) as (v' & n' & u' & Ef & H1' & H2' & H3' & H4'). exists v', n', u'. split_and!; [done|done|..].
    + intros x. rewrite H2', elem_of_cons. naive_solver.
    + intros x [?|(? & ? & ?)]%H3'; [by left|]. right. rewrite elem_of_cons. auto.
    + intros x [?|(k' & o & ? & ? & ? & ?)]%H4'; [by left|]. right. exists k', o. rewrite elem_of_cons. auto.
  - destruct (IH ({[k]} ∪ visited) (if trunc then next else next ++ child_refs o) unknown Hnd) as (v' & n' & u' & Ef & H1' & H2' & H3' & H4'); [set_solver|].
    exists v', n', u'. split_and!; [done|done|..].
    + intros x. rewrite H2', elem_of_cons. set_solver.
    + intros x [?|(? & ? & ?)]%H3'; [by left|]. right. rewrite elem_of_cons. set_solver.
    + intros x [Hx|(k' & o' & Hk' & Hv' & ? & ?)]%H4'; [|right; exists k', o'; rewrite elem_of_cons; set_solver].
      destruct trunc; [by left|]. apply elem_of_app in Hx as [?|?]; [by left|]. right. exists k, o. rewrite elem_of_cons. auto.
  - destruct (IH ({[k]} ∪ visited) next (unknown ++ [k])) as (v' & n' & u' & Ef & H1' & H2' & H3' & H4').
    { apply NoDup_app. split_and!; [done| |apply NoDup_singleton]. intros x Hx ->%list_elem_of_singleton. by apply Hk, Hu. } { intros x [?%Hu| ->%list_elem_of_singleton]%elem_of_app; set_solver. }
    exists v', n', u'. split_and!; [done|done|..].
    + intros x. rewrite H2', elem_of_cons. set_solver.
    + intros x [[?| ->%list_elem_of_singleton]%elem_of_app|(? & ? & ?)]%H3'; [by left|right; split; [by left|done]|]. right. rewrite elem_of_cons. set_solver.
    + intros x [?|(k' & o' & Hk' & Hv' & ? & ?)]%H4'; [by left|]. right. exists k', o'. rewrite elem_of_cons. set_solver.
Qed.

Lemma bfs_fetched_spec (db : InMemoryDB Hash) depth unknown : forall next kvs, NoDup unknown -> (forall k, k ∈ unknown -> (0 < depth)%nat -> is_Some (nodes db !! k)) ->
  exists next' found, try_fold_o (E := E) (bfs_fetched depth) (next, kvs) (batch_get_nodes db unknown) = Ret (next', kvs ++ found) /\ NoDup found.*1 /\
    (forall k o, (k, o) ∈ found -> k ∈ unknown /\ nodes db !! k = Some o) /\ (forall x, x ∈ next' -> x ∈ next \/ exists k o, (k, o) ∈ found /\ x ∈ child_refs o) /\
    (length found <= length unknown)%nat.
Proof.
  induction unknown as [|k unknown IH]; intros next kvs Hnd Hp; cbn [batch_get_nodes fmap list_fmap try_fold_o].
  { exists next, []. rewrite app_nil_r. split_and!; [done|constructor|intros k o []%not_elem_of_nil|by left|done]. }
  apply NoDup_cons in Hnd as [Hk Hnd]. change (get_node db k) with (nodes db !! k). destruct (nodes db !! k) as [o|] eqn:Ek.
  - change (bfs_fetched depth (next, kvs) (k, Some o)) with (Ret (next ++ child_refs o, kvs ++ [(k, o)]) : outcome E _). cbn [mbind outcome_bind]. destruct (IH (next ++ child_refs o) (kvs ++ [(k, o)]) Hnd) as (n' & found & Ef & H1' & H2' & H3' & H4'); [intros x Hx; apply Hp; by right|].
    exists n', ((k, o) :: found). split_and!.
    + etransitivity; [exact Ef|]. by rewrite <- app_assoc.
    + cbn. constructor; [|done]. intros ([k' o'] & -> & Hx)%list_elem_of_fmap. by apply H2' in Hx as [? _].
    + intros k' o' [[= -> ->]|Hx]%elem_of_cons; [split; [by left|done]|]. apply H2' in Hx as [? ?]. split; [by right|done].
    + intros x [[?|?]%elem_of_app|(k' & o' & ? & ?)]%H3'; [by left|right; exists k, o; split; [by left|done]|]. right. exists k', o'. split; [by right|done].
    + cbn [length]. lia.
  - assert (Eb : bfs_fetched depth (next, kvs) (k, None) = (Ret (next, kvs) : outcome E _)).
    { unfold bfs_fetched. cbn [snd]. destruct (Nat.ltb_spec 0 depth) as [Hd|_]; [|done]. destruct (Hp k ltac:(left) Hd) as [? ?]. congruence. }
    rewrite Eb. cbn [mbind outcome_bind].
    destruct (IH next kvs Hnd) as (n' & found & Ef & H1' & H2' & H3' & H4'); [intros x Hx; apply Hp; by right|]. exists n', found. split_and!; [exact Ef|done| |done|cbn [length]; lia].
    intros k' o' [? ?]%H2'. split; [by right|done].
Qed.
(** The search ends: a level with keys to follow has visited a node. *)
Lemma bfs_loop_spec (db : InMemoryDB Hash) (cg : Hash -> option Obj) (U : gset Hash) trunc max_depth max_count :
  (forall k o, cg k = Some o \/ nodes db !! k = Some o -> k ∈ U /\ forall c, c ∈ child_refs o -> is_Some (cg c) \/ is_Some (nodes db !! c)) ->
  forall fuel depth keys visited kvs, (forall k, k ∈ keys -> (0 < depth)%nat -> is_Some (cg k) \/ is_Some (nodes db !! k)) ->
  (size (U ∖ visited) < fuel)%nat -> NoDup kvs.*1 -> (forall k o, (k, o) ∈ kvs -> cg k = None /\ nodes db !! k = Some o /\ k ∈ visited) ->
  (forall n, max_count = Some n -> length kvs <= n)%nat ->
  exists kvs', bfs_loop (E := E) fuel db cg trunc max_depth max_count depth keys visited kvs = Ret kvs' /\ NoDup kvs'.*1 /\ forall k o, (k, o) ∈ kvs' -> cg k = None /\ nodes db !! k = Some o.
Proof.
  intros HU. induction fuel as [|fuel IH]; intros depth keys visited kvs Hkeys Hf Hnd Hkv Hmax; [lia|]. cbn [bfs_loop].
  case_decide; [exists kvs; split_and!; [done|done|]; intros k o Hk; by apply Hkv in Hk as (? & ? & _)|].
  destruct (negb (below max_depth depth)); [exists kvs; split_and!; [done|done|]; intros k o Hk; by apply Hkv in Hk as (? & ? & _)|].
  destruct (bfs_cached_spec cg trunc keys visited [] []) as (visited' & next & unknown & -> & Hnu & Hv' & Hu & Hn); [constructor|by intros x []%not_elem_of_nil|].
  set (unknown' := match max_count with Some n => take (n - length kvs) unknown | None => unknown end).
  assert (Hm : (match max_count with Some n => if decide (n < length kvs)%nat then Panic else Ret (take (n - length kvs) unknown) | None => Ret unknown end : outcome E (list Hash)) = Ret unknown').
  { unfold unknown'. destruct max_count as [n|]; [|done]. rewrite decide_False; [done|]. specialize (Hmax n eq_refl). lia. }
  rewrite Hm. cbn [mbind outcome_bind]. assert (Hsub : sublist unknown' unknown) by (unfold unknown'; destruct max_count; [apply sublist_take|done]).
  assert (Hu' : forall x, x ∈ unknown' -> x ∈ keys /\ (x ∉ visited) /\ cg x = None).
  { intros x Hx. apply (sublist_subseteq _ _ Hsub), Hu in Hx as [Hx|?]; [by apply not_elem_of_nil in Hx|done]. }
  destruct (bfs_fetched_spec db depth unknown' next kvs) as (next' & found & -> & Hnf & Hfd & Hn' & Hlen).
  { eapply sublist_NoDup; done. } { intros k (Hk & _ & Hc)%Hu' Hd. destruct (Hkeys k Hk Hd) as [[? ?]|?]; [congruence|done]. }
  cbn [mbind outcome_bind]. assert (Hfv : forall k o, (k, o) ∈ found -> (k ∈ visited') /\ (k ∉ visited) /\ cg k = None /\ nodes db !! k = Some o).
  { intros k o [Hk Ho]%Hfd. destruct (Hu' k Hk) as (? & ? & ?). split_and!; try done. apply Hv'. by right. }
  assert (Hcase : next' = [] \/ (size (U ∖ visited') < size (U ∖ visited))%nat).
  { destruct next' as [|x next']; [by left|]. right. apply subset_size. assert (Hx : exists k, k ∈ U /\ (k ∉ visited) /\ k ∈ visited').
    { destruct (Hn' x ltac:(left)) as [Hx|(k & o & Hk & _)].
      - apply Hn in Hx as [Hx|(k & o & Hk & Hkv' & Hc & _)]; [by apply not_elem_of_nil in Hx|]. exists k. split_and!; [by apply (HU k o); left|done|apply Hv'; by right].
      - destruct (Hfv k o Hk) as (? & ? & ? & ?). exists k. split_and!; [by apply (HU k o); right|done|done]. }
    destruct Hx as (k & HkU & Hkn & Hkv'). split; [intros y; rewrite !elem_of_difference, Hv'; tauto|]. intros Hx. specialize (Hx k). rewrite !elem_of_difference in Hx. tauto. }
  assert (Hres : NoDup (kvs ++ found).*1 /\ forall k o, (k, o) ∈ kvs ++ found -> cg k = None /\ nodes db !! k = Some o /\ k ∈ visited').
  { split.
    - rewrite fmap_app. apply NoDup_app. split_and!; [done| |done]. intros x ([k o] & -> & Hk)%list_elem_of_fmap ([k' o'] & Hkk & Hk')%list_elem_of_fmap. cbn in Hkk. subst k'.
      apply Hkv in Hk as (_ & _ & Hk). by destruct (Hfv _ _ Hk') as (_ & ? & _).
    - intros k o [Hk|Hk]%elem_of_app; [apply Hkv in Hk as (? & ? & ?); split_and!; [done..|apply Hv'; by left]|]. destruct (Hfv k o Hk) as (? & ? & ? & ?). done. }
  destruct Hres as [Hnd' Hkv']. destruct Hcase as [->|Hlt].
  - exists (kvs ++ found). split_and!; [destruct fuel; cbn [bfs_loop]; by rewrite decide_True|done|]. intros k o Hk. by apply Hkv' in Hk as (? & ? & _).
  - apply IH; [|lia|done|done|].
    + intros x Hx _. apply Hn' in Hx as [Hx|(k & o & Hk & Hx)].
      * apply Hn in Hx as [Hx|(k & o & _ & _ & Hc & Hx)]; [by apply not_elem_of_nil in Hx|]. by apply (HU k o); [left|].
      * destruct (Hfv k o Hk) as (_ & _ & _ & Ho). by apply (HU k o); [right|].
    + intros n ->. specialize (Hmax n eq_refl). rewrite length_app. unfold unknown' in Hlen. rewrite length_take in Hlen. lia.
Qed.

(** Nodes read from the database enter the read cache. *)
Lemma insert_reads A l : forall s, Inv A s -> NoDup l.*1 -> (forall k o, (k, o) ∈ l -> memory s k = None /\ o = content k /\ k ∈ stored s) ->
  exists s', try_fold_o (E := E) (fun self (kv : Hash * Obj) => cache_insert_new_key self kv.1 (CRead kv.2)) s l = Ret s' /\ Inv A s'.
Proof.
  induction l as [|[k o] l IH]; intros s HI Hnd Hl; cbn [try_fold_o]; [by exists s|]. cbn [fmap list_fmap fst] in Hnd. apply NoDup_cons in Hnd as [Hk Hnd].
  destruct (Hl k o ltac:(left)) as (Hm & -> & Hst). cbn [fst snd]. destruct (insert_new (E := E) s k (CRead (content k)) (lo_shape _ _ _ _ _ (proj2 HI)) Hm) as (s1 & -> & S1 & _ & C1).
  cbn [mbind outcome_bind is_pending] in *. apply IH; [|done|].
  - apply (Inv_reads content A s s1 _ _ HI S1 C1); [done|]. intros k' x [[<- <-]|[_ Hy]]%lookup_insert_Some; [done|]. by apply (lo_reads _ _ _ _ _ (proj2 HI)).
  - intros k' o' Hk'. destruct (Hl k' o' ltac:(by right)) as (Hm' & -> & Hst'). split_and!; [|done|unfold stored; rewrite (Caches_db _ _ _ _ C1); done].
    apply memory_None in Hm' as [Hw Hr]. apply memory_None. rewrite (ca_writes _ _ _ _ C1). split; [done|]. destruct (reads s1 !! k') as [y|] eqn:Ey; [|done].
    pose proof (lookup_weaken _ _ _ _ Ey (ca_reads _ _ _ _ C1)) as Hy. rewrite lookup_insert_ne in Hy; [congruence|]. intros ->. apply Hk, list_elem_of_fmap. by exists (k', content k').
Qed.

Lemma present_elem s k : k ∈ present s <-> k ∈ stored s \/ k ∈ created s.
Proof. unfold present. apply elem_of_union. Qed.

(** [pre_fetch], when no change of counts is pending without its node. *)
Lemma pre_fetch_spec A s k max_depth trunc : Inv A s -> (forall x d, writes s !! x <> Some (CUpdate d)) -> exists s', pre_fetch (E := E) s k max_depth trunc = Ret s' /\ Inv A s'.
Proof.
  intros HI Hup. pose proof HI as [_ Hl]. unfold pre_fetch.
  destruct (bfs_loop_spec (database s) (fun key => peek_from_memory s key ≫= get_obj) (present s) trunc max_depth (if (0 <? cache_size s)%nat then Some (cache_size s) else None))
    with (fuel := (2 + size (nodes (database s)) + Cache_len (read_cache s) + Cache_len (write_cache s))%nat) (depth := 0%nat) (keys := [k]) (visited := ∅ : gset Hash) (kvs := [] : list (Hash * Obj))
    as (kvs & -> & Hnd & Hkv).
  - intros x o Hx. assert (Hxo : o = content x /\ x ∈ present s).
    { destruct Hx as [Hx|Hx]; [|split; [by eapply (lo_nodes _ _ _ _ _ Hl)|apply present_elem; left; apply stored_elem; eauto]]. rewrite peek_memory in Hx. destruct (memory s x) as [v|] eqn:Em; [|done].
      by eapply memory_content. }
    destruct Hxo as [-> Hp]. split; [done|]. intros c Hc. pose proof (lo_closed _ _ _ _ _ Hl x c Hp Hc) as [Hs|Hcr]%present_elem; [right; by apply stored_elem|].
    left. rewrite peek_memory. apply created_elem in Hcr as (v & o & Hw & Ho). unfold memory. rewrite Hw. cbn. by destruct v; eauto.
  - intros x _ Hd. lia.
  - assert (Hsz : (size (present s ∖ ∅) <= size (nodes (database s)) + Cache_len (write_cache s))%nat); [|lia]. rewrite difference_empty_L, Cache_len_size. fold (writes s). rewrite <- !size_dom.
    assert (Hsub : present s ⊆ dom (nodes (database s)) ∪ dom (writes s)).
    { intros x [Hx|(v & o & Hx & _)%created_elem]%present_elem; [by apply elem_of_union_l|]. apply elem_of_union_r, elem_of_dom. eauto. }
    etransitivity; [by apply subseteq_size|]. rewrite size_union_alt. assert (size (dom (writes s) ∖ dom (nodes (database s))) <= size (dom (writes s)))%nat by (apply subseteq_size; set_solver). lia.
  - constructor.
  - intros x o []%not_elem_of_nil.
  - intros n Hn. cbn. lia.
  - cbn [mbind outcome_bind]. apply insert_reads; [done|rewrite fmap_reverse, reverse_Permutation; done|]. intros x o Hx. rewrite elem_of_reverse in Hx. apply Hkv in Hx as [Hc Ho].
    rewrite peek_memory in Hc. split_and!; [|by eapply (lo_nodes _ _ _ _ _ Hl)|apply stored_elem; eauto]. destruct (memory s x) as [v|] eqn:Em; [|done].
    destruct v; try done. exfalso. eapply Hup. by destruct (memory_write s x _ (lo_shape _ _ _ _ _ Hl) Em eq_refl).
Qed.
(** ** Sequences of calls *)

Inductive Call :=
| Cache (key : Hash) | CacheLazy (key : Hash) | Uncache (key : Hash) | Persist (key : Hash) | Unpersist (key : Hash)
| Get (key : Hash) | PreFetch (key : Hash) (max_depth : option nat) (truncate : bool)
| FlushEvictions | FlushAll | Collect (read_sizes scan_sizes : list nat).

Definition run_call s (c : Call) : outcome E Backend :=
  match c with
  | Cache k => cache s k (od_data (content k)) (od_children (content k))
  | CacheLazy k => Ret (cache_lazy s k)
  | Uncache k => uncache s k
  | Persist k => persist s k
  | Unpersist k => unpersist s k
  | Get k => '(s, _) ← get s k; Ret s
  | PreFetch k max_depth truncate => pre_fetch s k max_depth truncate
  | FlushEvictions => flush_cache_evictions_to_db s
  | FlushAll => flush_all_changes_to_db s
  | Collect rs ss => s ← flush_all_changes_to_db s; '(s, _) ← gc s rs ss; Ret s
  end.

(** What a call asks for. *)
Definition spec_call A (c : Call) : Spec :=
  match c with
  | Cache k => spec_cache content A k
  | CacheLazy k => mkSpec ({[k]} ∪ sp_live A) (sp_roots A) (sp_issued A)
  | Uncache k => spec_uncache A k
  | Persist k => spec_root A k 1
  | Unpersist k => spec_root A k (-1)
  | _ => A
  end.

(** The duties of callers that the documentation of [StorageBackend] names: a node
    is cached once and after its children, and only live nodes and roots are
    unmarked. *)
Definition duties A (c : Call) : Prop :=
  match c with
  | Cache k => (k ∉ sp_live A) /\ forall x, x ∈ kids k -> Needed A x
  | CacheLazy k | Persist k => Needed A k
  | Uncache k => k ∈ sp_live A
  | Unpersist k => 0 < sp_roots A k
  | _ => True
  end.

(** What the documentation does not ask for but the code needs, each with an
    example below of what goes wrong otherwise: a node that is only tracked does
    not wait for its deletion ([lazy_node_lost]); [pre_fetch] does not meet a
    pending change of counts ([pre_fetch_pending_panics]); a collection follows a
    flush ([pending_root_lost]; so [Collect] stands for both) and is not cut off
    by its time bound ([partial_sweep_loses_child]).  The documentation of [gc]
    even offers collections in parts, and that of [persist] says that a root
    survives every collection.  Counts stay in an [i32]. *)
Definition cautions A s (c : Call) : Prop :=
  match c with
  | Cache k => sp_issued A + 2 * Z.of_nat (length (kids k)) < 2 ^ 31
  | CacheLazy k => forall o d, writes s !! k <> Some (CCreateAndDelete o d)
  | Uncache _ | Unpersist _ => sp_issued A + 1 < 2 ^ 31
  | Persist k => sp_roots A k + 1 < 2 ^ 31 /\ sp_issued A + 1 < 2 ^ 31
  | PreFetch _ _ _ => forall x d, writes s !! x <> Some (CUpdate d)
  | Collect rs ss => forall s', flush_all_changes_to_db (E := E) s = Ret s' -> enough rs s' /\ enough ss s'
  | Get _ | FlushEvictions | FlushAll => True
  end.

(** Careful calls. *)
Definition allowed A s (c : Call) : Prop := duties A c /\ cautions A s c.

Inductive Calls : Spec -> Backend -> list Call -> Spec -> Backend -> Prop :=
| calls_nil A s : Calls A s [] A s
| calls_cons A s c s1 cs A' s' : allowed A s c -> run_call s c = Ret s1 -> Calls (spec_call A c) s1 cs A' s' -> Calls A s (c :: cs) A' s'.

Definition spec_new : Spec := mkSpec ∅ (fun _ => 0) 0.

Lemma new_inv n : Inv spec_new (backend_new n (mkDB _ _ _ ∅ ∅)).
Proof.
  set (s := backend_new _ _). assert (Hw : writes s = ∅) by apply lru_unbounded_map. assert (Hr : reads s = ∅).
  { unfold reads, s, backend_new. cbn [read_cache]. destruct (0 <? n)%nat; [apply lru_new_map|apply lru_unbounded_map]. }
  assert (Hc : created s = ∅) by (unfold created; by rewrite Hw, omap_empty, dom_empty_L). assert (Hst : stored s = ∅) by (unfold stored; apply dom_empty_L).
  assert (Hp : present s = ∅) by (unfold present; rewrite Hst, Hc; apply union_empty_l_L). split; [done|]. split; rewrite ?Hw, ?Hr, ?Hc, ?Hp; try done.
  - split; rewrite ?Hw, ?Hr; [apply lru_unbounded_cap|done|done|apply map_disjoint_empty_l].
  - intros k. unfold rootd. by rewrite Hw, lookup_empty.
  - intros k. unfold rdelta, created_count. rewrite Hw, Hc, lookup_empty, sum_set_empty. done.
Qed.

Lemma call_keeps A s c : Inv A s -> allowed A s c -> exists s', run_call s c = Ret s' /\ Inv (spec_call A c) s'.
Proof.
  intros HI [Hn Hd]. pose proof HI as [[Hlive Hgc] Hl]. destruct c as [k|k|k|k|k|k|k d t| | |rs ss]; cbn [run_call spec_call duties cautions] in *.
  - destruct Hn as [? ?]. by apply cache_spec.
  - eexists. split; [done|]. split; [cbn; by rewrite Hlive|]. apply (Loop_respec content A); [by apply Loop_live|done|cbn; pose proof (lo_issued _ _ _ _ _ Hl); lia|..]; cbn.
    + intros x [->%elem_of_singleton|Hx]%elem_of_union; [exact (Needed_present _ _ _ _ _ _ Hl Hn)|exact (lo_live_present _ _ _ _ _ Hl x Hx)].
    + intros x o d Hx [->%elem_of_singleton|Hx']%elem_of_union; [by destruct (Hd o d)|by eapply (lo_deleted _ _ _ _ _ Hl)].
  - by apply uncache_spec.
  - destruct Hd as (Hr & Hi). apply root_spec; [done|by eapply Needed_present| |done]. intros x. cbn. pose proof (lo_root_range _ _ _ _ _ Hl x). case_decide; subst; lia.
  - apply root_spec; [done|by apply (lo_root_present _ _ _ _ _ Hl)| |done]. intros x. cbn. pose proof (lo_root_range _ _ _ _ _ Hl x). case_decide; subst; lia.
  - destruct (get_spec (E := E) content A s k HI) as (s' & o & -> & HI' & _). by exists s'.
  - by apply pre_fetch_spec.
  - by apply flush_evictions_spec.
  - destruct (flush_all_spec (E := E) content A s HI) as (s' & -> & HI' & _). by exists s'.
  - destruct (flush_all_spec (E := E) content A s HI) as (s1 & E1 & HI1 & Hw1). rewrite E1. cbn [mbind outcome_bind]. destruct (Hd s1 E1) as [Hrs Hss].
    destruct (gc_spec A s1 rs ss HI1 Hw1 Hrs Hss) as (s2 & n & -> & HI2 & _). by exists s2.
Qed.

Lemma Calls_inv A s cs A' s' : Calls A s cs A' s' -> Inv A s -> Inv A' s'.
Proof.
  induction 1 as [|A s c s1 cs A' s' Ha Hr _ IH]; [done|]. intros HI. apply IH. destruct (call_keeps A s c HI Ha) as (s2 & E2 & HI2). rewrite Hr in E2. by injection E2 as ->.
Qed.

(** Calls whose rules say nothing of the state of the caches. *)
Fixpoint asks A (cs : list Call) : Prop := match cs with [] => True | c :: cs => (forall s, allowed A s c) /\ asks (spec_call A c) cs end.
Lemma asks_calls cs : forall A s, Inv A s -> asks A cs -> exists s', Calls A s cs (foldl spec_call A cs) s' /\ try_fold_o run_call s cs = Ret s'.
Proof.
  induction cs as [|c cs IH]; intros A s HI Ha; [exists s; split; [constructor|done]|]. destruct Ha as [Hc Ha]. destruct (call_keeps A s c HI (Hc s)) as (s1 & E1 & HI1).
  destruct (IH _ s1 HI1 Ha) as (s' & Hcs & Hs). exists s'. split; [by eapply calls_cons|]. cbn [try_fold_o]. by rewrite E1.
Qed.


End collect.

(** ** A list as a cache *)

(** Entries from the most to the least recently used. *)
Section list_lru.
Context {K V : Type} `{Countable K}.
Implicit Types (l : list (K * V)) (k : K).

Definition drop_key k l : list (K * V) := filter (fun kv => kv.1 <> k) l.
Fixpoint entries l : list (K * V) := match l with [] => [] | kv :: l => kv :: drop_key kv.1 (entries l) end.
Definition replace_key k (v : V) l : list (K * V) := (fun kv => if decide (kv.1 = k) then (k, v) else kv) <$> l.

Record ListCache := mkListCache { lc_cap : option nat; lc_list : list (K * V) }.
Definition lc_entries (c : ListCache) : list (K * V) := entries (lc_list c).
Definition lc_lookup (c : ListCache) k : option V := (list_to_map (lc_entries c) : gmap K V) !! k.
Definition lc_full (c : ListCache) : bool := match lc_cap c with Some n => (n <=? length (lc_entries c))%nat | None => false end.

#[export] Instance list_lru : Lru K V := {
  lru := ListCache;
  lru_new n := mkListCache (Some n) [];
  lru_unbounded := mkListCache None [];
  lru_cap := lc_cap;
  lru_iter := lc_entries;
  lru_peek := lc_lookup;
  lru_set c k v := mkListCache (lc_cap c) (replace_key k v (lc_entries c));
  lru_push c k v :=
    match lc_lookup c k with
    | Some old => (mkListCache (lc_cap c) ((k, v) :: drop_key k (lc_entries c)), Some (k, old))
    | None =>
        if lc_full c then (mkListCache (lc_cap c) ((k, v) :: removelast (lc_entries c)), last (lc_entries c))
        else (mkListCache (lc_cap c) ((k, v) :: lc_entries c), None)
    end;
  lru_put c k v := mkListCache (lc_cap c) ((k, v) :: drop_key k (lc_entries c));
  lru_pop_entry c k := (mkListCache (lc_cap c) (drop_key k (lc_entries c)), (k,.) <$> lc_lookup c k);
  lru_promote c k := match lc_lookup c k with Some v => mkListCache (lc_cap c) ((k, v) :: drop_key k (lc_entries c)) | None => c end;
  lru_pop_lru c := (mkListCache (lc_cap c) (removelast (lc_entries c)), last (lc_entries c));
  lru_clear c := mkListCache (lc_cap c) []
}.

Local Abbreviation lmap l := (list_to_map l : gmap K V).

Lemma lmap_drop k l : lmap (drop_key k l) = delete k (lmap l).
Proof.
  induction l as [|[k' v] l IH]; [symmetry; apply delete_empty|]. unfold drop_key in *. rewrite filter_cons. cbn [fst list_to_map foldr].
  case_decide as Hk; cbn [list_to_map foldr fst snd]; fold (lmap l); [|subst k'; by rewrite delete_insert_eq].
  change (foldr _ _ (filter _ l)) with (lmap (filter (fun kv => kv.1 <> k) l)). change (foldr _ _ l) with (lmap l). by rewrite IH, delete_insert_ne.
Qed.
Lemma lmap_entries l : lmap (entries l) = lmap l.
Proof.
  induction l as [|[k v] l IH]; [done|]. cbn [entries list_to_map foldr fst snd]. change (foldr _ _ (drop_key _ _)) with (lmap (drop_key k (entries l))). change (foldr _ _ l) with (lmap l).
  by rewrite lmap_drop, IH, insert_delete_eq.
Qed.
Lemma lmap_replace k v l : lmap (replace_key k v l) = alter (fun _ => v) k (lmap l).
Proof.
  induction l as [|[k' v'] l IH]; [symmetry; apply alter_empty|]. cbn [replace_key fmap list_fmap fst]. change (fmap _ l) with (replace_key k v l).
  case_decide as Hk; cbn [list_to_map foldr fst snd]; change (foldr _ _ (replace_key k v l)) with (lmap (replace_key k v l)); change (foldr _ _ l) with (lmap l); rewrite IH.
  - subst k'. apply map_eq. intros x. destruct (decide (x = k)) as [->|Hne]; [by rewrite lookup_insert_eq, lookup_alter_eq, lookup_insert_eq|].
    by rewrite lookup_insert_ne, !lookup_alter_ne, lookup_insert_ne by done.
  - by rewrite alter_insert_ne.
Qed.
Lemma lmap_snoc l k v : NoDup (l ++ [(k, v)]).*1 -> lmap l = delete k (lmap (l ++ [(k, v)])) /\ lmap (l ++ [(k, v)]) !! k = Some v.
Proof.
  rewrite fmap_app, NoDup_app. intros (_ & Hd & _). assert (Hn : lmap l !! k = None) by (apply not_elem_of_list_to_map_1; intros Hk; apply (Hd k Hk); by left).
  rewrite list_to_map_app. cbn. rewrite insert_empty. split; [|by rewrite lookup_union_r, lookup_singleton_eq].
  apply map_eq. intros x. destruct (decide (x = k)) as [->|Hne]; [by rewrite lookup_delete_eq|]. rewrite lookup_delete_ne, lookup_union_l by (rewrite ?lookup_singleton_ne; done). done.
Qed.
Lemma entries_nodup l : NoDup (entries l).*1.
Proof.
  induction l as [|[k v] l IH]; [constructor|]. cbn. constructor.
  - intros (kv & -> & [Hk _]%list_elem_of_filter)%list_elem_of_fmap. done.
  - clear -IH. induction (entries l) as [|kv l' IH']; [constructor|]. unfold drop_key. rewrite filter_cons. cbn in IH. apply NoDup_cons in IH as [Hk IH]. case_decide; [|by apply IH'].
    cbn. constructor; [|by apply IH']. intros (kv' & Hx & [_ Hy]%list_elem_of_filter)%list_elem_of_fmap. apply Hk. rewrite Hx. apply list_elem_of_fmap. by exists kv'.
Qed.

#[export] Instance list_lru_laws : LruLaws K V.
Proof.
  assert (Hm : forall n l, lru_map (mkListCache n l : lru K V) = lmap l) by (intros; apply lmap_entries).
  assert (Hlast : forall c kv, last (lc_entries c) = Some kv -> lmap (lc_entries c) !! kv.1 = Some kv.2 /\ lmap (removelast (lc_entries c)) = delete kv.1 (lmap (lc_entries c))).
  { intros c [k v] [pre Hp]%last_Some. pose proof (entries_nodup (lc_list c)) as Hn. fold (lc_entries c) in Hn. rewrite Hp in *. rewrite removelast_last. by apply lmap_snoc in Hn as [-> ?]. }
  assert (Hnone : forall c, last (lc_entries c) = None -> lc_entries c = []) by (intros c Hl; by apply last_None in Hl).
  split.
  - intros c. apply entries_nodup.
  - done.
  - done.
  - done.
  - done.
  - intros c k v [v' Hk]. split; [|done]. cbn [lru_set list_lru]. rewrite Hm, lmap_replace. apply map_eq. intros x. unfold lru_map in *. cbn [lru_iter list_lru] in *.
    destruct (decide (x = k)) as [->|Hne]; [by rewrite lookup_alter_eq, Hk, lookup_insert_eq|by rewrite lookup_alter_ne, lookup_insert_ne].
  - intros c k v c' e Hk. cbn [lru_push list_lru]. unfold lc_lookup. change (lmap (lc_entries c)) with (lru_map (c : lru K V)). rewrite Hk. destruct (lc_full c) eqn:Ef.
    + intros [= <- <-]. split; [done|]. assert (Hcap : lc_cap c <> None) by (unfold lc_full in Ef; by destruct (lc_cap c)).
      destruct (last (lc_entries c)) as [[k' v']|] eqn:El.
      * destruct (Hlast c _ El) as [Hk' Hr]. cbn [fst snd] in *. split_and!; [|done|done|]; [intros ->; unfold lru_map in Hk; cbn in Hk; congruence|]. rewrite Hm. cbn. change (foldr _ _ _) with (lmap (removelast (lc_entries c))). by rewrite Hr.
      * rewrite Hm. unfold lru_map. cbn [lru_iter list_lru]. by rewrite (Hnone c El).
    + intros [= <- <-]. split; [done|]. by rewrite Hm.
  - intros c k v _. split; [|done]. cbn [lru_put list_lru]. rewrite Hm. cbn. change (foldr _ _ _) with (lmap (drop_key k (lc_entries c))). by rewrite lmap_drop, insert_delete_eq.
  - intros c k. cbn [lru_pop_entry list_lru fst snd]. rewrite Hm, lmap_drop. done.
  - intros c k. cbn [lru_promote list_lru]. destruct (lc_lookup c k) as [v|] eqn:Ek; [|done]. split; [|done]. rewrite Hm. cbn. change (foldr _ _ _) with (lmap (drop_key k (lc_entries c))).
    rewrite lmap_drop, insert_delete_eq. by apply insert_id.
  - intros c. cbn [lru_pop_lru list_lru fst snd]. split; [done|]. destruct (last (lc_entries c)) as [[k v]|] eqn:El.
    + destruct (Hlast c _ El) as [Hk Hr]. split; [done|]. by rewrite Hm, Hr.
    + unfold lru_map. cbn [lru_iter list_lru]. by rewrite (Hnone c El).
  - intros c. by split.
Qed.
End list_lru.

(** ** Examples *)

Module BackendExample.
#[export] Instance platform : Platform Z := { set_iter X := elements X; hashmap_iter m := map_to_list m; hash_le := Z.le }.
#[export] Instance platform_laws : PlatformLaws Z.
Proof. split; [done|done|]. change (TotalOrder Z.le). split; [apply _|]. intros x y. unfold strict. lia. Qed.

(** Node 5 refers to node 1; the others have no children. *)
Definition content (k : Z) : OnDiskObject Z := mkOnDiskObject [k] (if k =? 5 then [Ref 1] else []).

Definition new (cache_size : nat) : StorageBackend Z := backend_new cache_size (mkDB _ _ _ ∅ ∅).
Definition run (cache_size : nat) (cs : list (Call (Hash := Z))) : outcome unit (StorageBackend Z) := try_fold_o (run_call content) (new cache_size) cs.
Definition found (r : outcome unit (StorageBackend Z)) (k : Z) : bool :=
  match s ← r; get s k with Ret (_, Some _) => true | _ => false end.
Definition count (r : outcome unit (StorageBackend Z)) (k : Z) : option Z := match s ← r; get_root_count s k with Ret n => Some n | _ => None end.
Definition swap : list (Call (Hash := Z)) := [Cache 1; Cache 5; Uncache 1; Persist 5; FlushEvictions; Uncache 5].

Lemma kept : forallb (fun k => found (run 1 swap) k) [1; 5] && bool_decide (count (run 1 swap) 5 = Some 1) = true.
Proof. vm_compute. reflexivity. Qed.
Lemma collected : forallb (fun k => found (run 1 (swap ++ [Collect [9; 9; 9]%nat [1; 1; 1]%nat])) k) [1; 5] &&
  negb (found (run 1 (swap ++ [Unpersist 5; Collect [9; 9; 9]%nat [1; 1; 1]%nat])) 1) = true.
Proof. vm_compute. reflexivity. Qed.

(** A collection without a flush loses a root whose count is pending: [persist]
    says that a root survives collections. *)
Definition unflushed (r : outcome unit (StorageBackend Z)) : outcome unit (StorageBackend Z) := s ← r; '(s, _) ← gc s [9; 9]%nat [9; 9]%nat; Ret s.
Lemma pending_root_lost : found (run 9 [Cache 1; FlushAll; Persist 1; Uncache 1]) 1 && negb (found (unflushed (run 9 [Cache 1; FlushAll; Persist 1; Uncache 1])) 1) = true.
Proof. vm_compute. reflexivity. Qed.

(** A sweep that stops between a node and its child: the child is deleted, the node
    is still cached.  When both are cached again, the reference is not counted, and
    the child is dropped as soon as it is uncached. *)
Definition partial : outcome unit (StorageBackend Z) :=
  s ← run 9 [Cache 1; Cache 5; Uncache 1; FlushAll; Uncache 5]; '(s, _) ← gc s [9; 9; 9]%nat [1]%nat; try_fold_o (run_call content) s [Cache 1; Cache 5; Uncache 1].
Lemma partial_sweep_loses_child : found partial 5 && negb (found partial 1) = true.
Proof. vm_compute. reflexivity. Qed.

(** A collection whose time ends when marking does is taken for one that has swept:
    nothing is deleted and the marks are dropped, so that the next one starts
    again. *)
Definition marked_only : outcome unit (StorageBackend Z) :=
  s ← run 9 [Cache 1; FlushAll; Uncache 1]; '(s, _) ← gc s [9]%nat []; Ret s.
Lemma marks_dropped : match marked_only with Ret s => rescan (gc_state s) && bool_decide (mark_set (gc_state s) = ∅) && bool_decide (1 ∈ dom (nodes (database s))) | _ => false end = true.
Proof. vm_compute. reflexivity. Qed.

(** A node that is tracked while it waits for its deletion is deleted. *)
Definition lazily := [Cache 1; Cache 5; Uncache 1; CacheLazy 1; Uncache 5].
Lemma lazy_node_lost : negb (found (run 9 lazily) 1) && bool_decide (1 ∈ (if run 9 lazily is Ret s then live_inserts s else ∅)) = true.
Proof. vm_compute. reflexivity. Qed.

(** Fetching ahead a node with a pending change of counts puts its key in both
    caches, which a debug assertion rejects. *)
Lemma pre_fetch_pending_panics :
  run 1 [Cache 1; Persist 1; FlushAll; Uncache 1; Cache 2; Persist 2; FlushAll; Cache 5; PreFetch 5 None false] = Panic.
Proof. vm_compute. reflexivity. Qed.

Lemma swap_calls : exists A s, Calls (E := unit) content spec_new (new 1) swap A s /\ sp_roots A 5 = 1 /\ run 1 swap = Ret s.
Proof.
  destruct (asks_calls (E := unit) content swap spec_new (new 1)) as (s & Hc & Hs); [apply new_inv|..|exists (foldl (spec_call content) spec_new swap), s; split_and!; [exact Hc|reflexivity|exact Hs]].
  cbn [asks swap]. repeat split; try done; try (cbn; set_solver).
  - intros x ->%list_elem_of_singleton. apply needed_live. cbn. set_solver.
  - apply needed_live. cbn. set_solver.
Qed.
End BackendExample.
Import BackendExample.


