(* ===== verification/VmCost.v ===== *)
(** * The cost model of the virtual machine ([onchain-vm/src/cost_model.rs])

    The coefficients of the instructions' costs, with the prefix [cm_], the
    costs of reads, and the model the ledger starts with
    ([onchain-vm/gen/const_declaration.rs]). *)

From S2P Require Import Prelude Cost.

Local Open Scope Z_scope.

Record CostModel := mkCostModel {
  cm_noop_constant : CostDuration;
  cm_noop_coeff_arg : CostDuration;
  cm_lt : CostDuration;
  cm_eq : CostDuration;
  cm_type_null : CostDuration;
  cm_type_cell : CostDuration;
  cm_type_map : CostDuration;
  cm_type_bmt : CostDuration;
  cm_type_array : CostDuration;
  cm_size_map : CostDuration;
  cm_size_bmt : CostDuration;
  cm_size_array : CostDuration;
  cm_new_null : CostDuration;
  cm_new_cell : CostDuration;
  cm_new_map : CostDuration;
  cm_new_bmt : CostDuration;
  cm_new_array : CostDuration;
  cm_and : CostDuration;
  cm_or : CostDuration;
  cm_neg : CostDuration;
  cm_log_null_constant : CostDuration;
  cm_log_null_coeff_value_size : CostDuration;
  cm_log_cell_constant : CostDuration;
  cm_log_cell_coeff_value_size : CostDuration;
  cm_log_map_constant : CostDuration;
  cm_log_map_coeff_value_size : CostDuration;
  cm_log_bmt_constant : CostDuration;
  cm_log_bmt_coeff_value_size : CostDuration;
  cm_log_array_constant : CostDuration;
  cm_log_array_coeff_value_size : CostDuration;
  cm_root : CostDuration;
  cm_pop : CostDuration;
  cm_popeq_constant : CostDuration;
  cm_popeq_coeff_value_size : CostDuration;
  cm_popeqc_constant : CostDuration;
  cm_popeqc_coeff_value_size : CostDuration;
  cm_addi : CostDuration;
  cm_subi : CostDuration;
  cm_push_null : CostDuration;
  cm_push_cell : CostDuration;
  cm_push_map : CostDuration;
  cm_push_bmt : CostDuration;
  cm_push_array : CostDuration;
  cm_pushs_null : CostDuration;
  cm_pushs_cell : CostDuration;
  cm_pushs_map : CostDuration;
  cm_pushs_bmt : CostDuration;
  cm_pushs_array : CostDuration;
  cm_branch_constant : CostDuration;
  cm_branch_coeff_arg : CostDuration;
  cm_jmp_constant : CostDuration;
  cm_jmp_coeff_arg : CostDuration;
  cm_add : CostDuration;
  cm_sub : CostDuration;
  cm_concat_constant : CostDuration;
  cm_concat_coeff_total_size : CostDuration;
  cm_concatc_constant : CostDuration;
  cm_concatc_coeff_total_size : CostDuration;
  cm_member_constant : CostDuration;
  cm_member_coeff_key_size : CostDuration;
  cm_member_coeff_container_log_size : CostDuration;
  cm_rem_map_constant : CostDuration;
  cm_rem_map_coeff_key_size : CostDuration;
  cm_rem_map_coeff_container_log_size : CostDuration;
  cm_rem_bmt_constant : CostDuration;
  cm_rem_bmt_coeff_key_size : CostDuration;
  cm_rem_bmt_coeff_container_log_size : CostDuration;
  cm_remc_map_constant : CostDuration;
  cm_remc_map_coeff_key_size : CostDuration;
  cm_remc_map_coeff_container_log_size : CostDuration;
  cm_remc_bmt_constant : CostDuration;
  cm_remc_bmt_coeff_key_size : CostDuration;
  cm_remc_bmt_coeff_container_log_size : CostDuration;
  cm_dup_constant : CostDuration;
  cm_dup_coeff_arg : CostDuration;
  cm_swap_constant : CostDuration;
  cm_swap_coeff_arg : CostDuration;
  cm_idx_map_constant : CostDuration;
  cm_idx_map_coeff_key_size : CostDuration;
  cm_idx_map_coeff_container_log_size : CostDuration;
  cm_idx_bmt_constant : CostDuration;
  cm_idx_bmt_coeff_key_size : CostDuration;
  cm_idx_bmt_coeff_container_log_size : CostDuration;
  cm_idx_array : CostDuration;
  cm_idxp_map_constant : CostDuration;
  cm_idxp_map_coeff_key_size : CostDuration;
  cm_idxp_map_coeff_container_log_size : CostDuration;
  cm_idxp_bmt_constant : CostDuration;
  cm_idxp_bmt_coeff_key_size : CostDuration;
  cm_idxp_bmt_coeff_container_log_size : CostDuration;
  cm_idxp_array : CostDuration;
  cm_idxc_map_constant : CostDuration;
  cm_idxc_map_coeff_key_size : CostDuration;
  cm_idxc_map_coeff_container_log_size : CostDuration;
  cm_idxc_bmt_constant : CostDuration;
  cm_idxc_bmt_coeff_key_size : CostDuration;
  cm_idxc_bmt_coeff_container_log_size : CostDuration;
  cm_idxc_array : CostDuration;
  cm_idxpc_map_constant : CostDuration;
  cm_idxpc_map_coeff_key_size : CostDuration;
  cm_idxpc_map_coeff_container_log_size : CostDuration;
  cm_idxpc_bmt_constant : CostDuration;
  cm_idxpc_bmt_coeff_key_size : CostDuration;
  cm_idxpc_bmt_coeff_container_log_size : CostDuration;
  cm_idxpc_array : CostDuration;
  cm_ins_map_constant : CostDuration;
  cm_ins_map_coeff_key_size : CostDuration;
  cm_ins_map_coeff_container_log_size : CostDuration;
  cm_ins_bmt_constant : CostDuration;
  cm_ins_bmt_coeff_key_size : CostDuration;
  cm_ins_bmt_coeff_container_log_size : CostDuration;
  cm_ins_array : CostDuration;
  cm_insc_map_constant : CostDuration;
  cm_insc_map_coeff_key_size : CostDuration;
  cm_insc_map_coeff_container_log_size : CostDuration;
  cm_insc_bmt_constant : CostDuration;
  cm_insc_bmt_coeff_key_size : CostDuration;
  cm_insc_bmt_coeff_container_log_size : CostDuration;
  cm_insc_array : CostDuration;
  cm_ckpt : CostDuration;
  cm_signature_verify_constant : CostDuration;
  cm_signature_verify_coeff_size : CostDuration;
  cm_pedersen_valid : CostDuration;
  cm_verifier_key_load : CostDuration;
  cm_proof_verify_constant : CostDuration;
  cm_proof_verify_coeff_size : CostDuration;
  cm_hash_to_curve : CostDuration;
  cm_ec_add : CostDuration;
  cm_ec_mul : CostDuration;
  cm_transient_hash : CostDuration;
  cm_get_writes_constant : CostDuration;
  cm_get_writes_coeff_keys_added_size : CostDuration;
  cm_update_rcmap_constant : CostDuration;
  cm_update_rcmap_coeff_keys_added_size : CostDuration;
  cm_gc_rcmap_constant : CostDuration;
  cm_gc_rcmap_coeff_keys_removed_size : CostDuration;
  cm_read_time_batched_4k : CostDuration;
  cm_read_time_synchronous_4k : CostDuration
}.

Definition BATCHED_4K_READ_TIME : CostDuration := 2000000.
Definition SYNCHRONOUS_4K_READ_TIME : CostDuration := 85000000.

Definition INITIAL_COST_MODEL : CostModel := {|
  cm_noop_constant := 58049;
  cm_noop_coeff_arg := 0;
  cm_lt := 1004706;
  cm_eq := 1006414;
  cm_type_null := 647378;
  cm_type_cell := 757159;
  cm_type_map := 627432;
  cm_type_bmt := 749668;
  cm_type_array := 583371;
  cm_size_map := 1600393;
  cm_size_bmt := 725665;
  cm_size_array := 1350226;
  cm_new_null := 374871;
  cm_new_cell := 814951;
  cm_new_map := 978652;
  cm_new_bmt := 845753;
  cm_new_array := 842371;
  cm_and := 784624;
  cm_or := 781084;
  cm_neg := 836890;
  cm_log_null_constant := 155124;
  cm_log_null_coeff_value_size := 0;
  cm_log_cell_constant := 314563;
  cm_log_cell_coeff_value_size := 0;
  cm_log_map_constant := 1819826;
  cm_log_map_coeff_value_size := 0;
  cm_log_bmt_constant := 303821;
  cm_log_bmt_coeff_value_size := 1;
  cm_log_array_constant := 610437;
  cm_log_array_coeff_value_size := 18027;
  cm_root := 777264;
  cm_pop := 574527;
  cm_popeq_constant := 385050;
  cm_popeq_coeff_value_size := 15;
  cm_popeqc_constant := 383608;
  cm_popeqc_coeff_value_size := 14;
  cm_addi := 816807;
  cm_subi := 817066;
  cm_push_null := 624886;
  cm_push_cell := 235744;
  cm_push_map := 5763641;
  cm_push_bmt := 238126;
  cm_push_array := 737159;
  cm_pushs_null := 146496;
  cm_pushs_cell := 235886;
  cm_pushs_map := 1005698;
  cm_pushs_bmt := 245902;
  cm_pushs_array := 742982;
  cm_branch_constant := 314875;
  cm_branch_coeff_arg := 8;
  cm_jmp_constant := 54347;
  cm_jmp_coeff_arg := 3;
  cm_add := 1061118;
  cm_sub := 1057552;
  cm_concat_constant := 1283125;
  cm_concat_coeff_total_size := 446;
  cm_concatc_constant := 1293753;
  cm_concatc_coeff_total_size := 447;
  cm_member_constant := 2186970;
  cm_member_coeff_key_size := 1196;
  cm_member_coeff_container_log_size := 1451;
  cm_rem_map_constant := 2636844;
  cm_rem_map_coeff_key_size := 2244;
  cm_rem_map_coeff_container_log_size := 927384;
  cm_rem_bmt_constant := 1232736;
  cm_rem_bmt_coeff_key_size := 0;
  cm_rem_bmt_coeff_container_log_size := 51494566;
  cm_remc_map_constant := 2530191;
  cm_remc_map_coeff_key_size := 2176;
  cm_remc_map_coeff_container_log_size := 927358;
  cm_remc_bmt_constant := 1771176;
  cm_remc_bmt_coeff_key_size := 0;
  cm_remc_bmt_coeff_container_log_size := 51448725;
  cm_dup_constant := 1544062;
  cm_dup_coeff_arg := 455427;
  cm_swap_constant := 1076337;
  cm_swap_coeff_arg := 452216;
  cm_idx_map_constant := 3950157;
  cm_idx_map_coeff_key_size := 2710;
  cm_idx_map_coeff_container_log_size := 771;
  cm_idx_bmt_constant := 3370862;
  cm_idx_bmt_coeff_key_size := 0;
  cm_idx_bmt_coeff_container_log_size := 4721;
  cm_idx_array := 3499242;
  cm_idxp_map_constant := 4790418;
  cm_idxp_map_coeff_key_size := 2942;
  cm_idxp_map_coeff_container_log_size := 0;
  cm_idxp_bmt_constant := 3582794;
  cm_idxp_bmt_coeff_key_size := 0;
  cm_idxp_bmt_coeff_container_log_size := 5227;
  cm_idxp_array := 4206480;
  cm_idxc_map_constant := 3788871;
  cm_idxc_map_coeff_key_size := 2676;
  cm_idxc_map_coeff_container_log_size := 1408;
  cm_idxc_bmt_constant := 3042703;
  cm_idxc_bmt_coeff_key_size := 0;
  cm_idxc_bmt_coeff_container_log_size := 6069;
  cm_idxc_array := 3403868;
  cm_idxpc_map_constant := 4634201;
  cm_idxpc_map_coeff_key_size := 2953;
  cm_idxpc_map_coeff_container_log_size := 1779;
  cm_idxpc_bmt_constant := 3275175;
  cm_idxpc_bmt_coeff_key_size := 0;
  cm_idxpc_bmt_coeff_container_log_size := 6234;
  cm_idxpc_array := 4172169;
  cm_ins_map_constant := 12018964;
  cm_ins_map_coeff_key_size := 1268;
  cm_ins_map_coeff_container_log_size := 1191323;
  cm_ins_bmt_constant := 2961202;
  cm_ins_bmt_coeff_key_size := 0;
  cm_ins_bmt_coeff_container_log_size := 51303653;
  cm_ins_array := 8290200;
  cm_insc_map_constant := 12219353;
  cm_insc_map_coeff_key_size := 2177;
  cm_insc_map_coeff_container_log_size := 1112945;
  cm_insc_bmt_constant := 2866434;
  cm_insc_bmt_coeff_key_size := 0;
  cm_insc_bmt_coeff_container_log_size := 51322518;
  cm_insc_array := 8277527;
  cm_ckpt := 69432;
  cm_signature_verify_constant := 59433142;
  cm_signature_verify_coeff_size := 391;
  cm_pedersen_valid := 178190334;
  cm_verifier_key_load := 3407439241;
  cm_proof_verify_constant := 5825105409;
  cm_proof_verify_coeff_size := 3309321;
  cm_hash_to_curve := 236027131;
  cm_ec_add := 232259;
  cm_ec_mul := 85079549;
  cm_transient_hash := 52808019;
  cm_get_writes_constant := 19261586;
  cm_get_writes_coeff_keys_added_size := 789174;
  cm_update_rcmap_constant := 1055224883;
  cm_update_rcmap_coeff_keys_added_size := 24633794;
  cm_gc_rcmap_constant := 0;
  cm_gc_rcmap_coeff_keys_removed_size := 40271665;
  cm_read_time_batched_4k := BATCHED_4K_READ_TIME;
  cm_read_time_synchronous_4k := SYNCHRONOUS_4K_READ_TIME
|}.

(** The coefficients are 64-bit numbers. *)
Definition cost_coefficients (m : CostModel) : list CostDuration := [
  cm_noop_constant m;
  cm_noop_coeff_arg m;
  cm_lt m;
  cm_eq m;
  cm_type_null m;
  cm_type_cell m;
  cm_type_map m;
  cm_type_bmt m;
  cm_type_array m;
  cm_size_map m;
  cm_size_bmt m;
  cm_size_array m;
  cm_new_null m;
  cm_new_cell m;
  cm_new_map m;
  cm_new_bmt m;
  cm_new_array m;
  cm_and m;
  cm_or m;
  cm_neg m;
  cm_log_null_constant m;
  cm_log_null_coeff_value_size m;
  cm_log_cell_constant m;
  cm_log_cell_coeff_value_size m;
  cm_log_map_constant m;
  cm_log_map_coeff_value_size m;
  cm_log_bmt_constant m;
  cm_log_bmt_coeff_value_size m;
  cm_log_array_constant m;
  cm_log_array_coeff_value_size m;
  cm_root m;
  cm_pop m;
  cm_popeq_constant m;
  cm_popeq_coeff_value_size m;
  cm_popeqc_constant m;
  cm_popeqc_coeff_value_size m;
  cm_addi m;
  cm_subi m;
  cm_push_null m;
  cm_push_cell m;
  cm_push_map m;
  cm_push_bmt m;
  cm_push_array m;
  cm_pushs_null m;
  cm_pushs_cell m;
  cm_pushs_map m;
  cm_pushs_bmt m;
  cm_pushs_array m;
  cm_branch_constant m;
  cm_branch_coeff_arg m;
  cm_jmp_constant m;
  cm_jmp_coeff_arg m;
  cm_add m;
  cm_sub m;
  cm_concat_constant m;
  cm_concat_coeff_total_size m;
  cm_concatc_constant m;
  cm_concatc_coeff_total_size m;
  cm_member_constant m;
  cm_member_coeff_key_size m;
  cm_member_coeff_container_log_size m;
  cm_rem_map_constant m;
  cm_rem_map_coeff_key_size m;
  cm_rem_map_coeff_container_log_size m;
  cm_rem_bmt_constant m;
  cm_rem_bmt_coeff_key_size m;
  cm_rem_bmt_coeff_container_log_size m;
  cm_remc_map_constant m;
  cm_remc_map_coeff_key_size m;
  cm_remc_map_coeff_container_log_size m;
  cm_remc_bmt_constant m;
  cm_remc_bmt_coeff_key_size m;
  cm_remc_bmt_coeff_container_log_size m;
  cm_dup_constant m;
  cm_dup_coeff_arg m;
  cm_swap_constant m;
  cm_swap_coeff_arg m;
  cm_idx_map_constant m;
  cm_idx_map_coeff_key_size m;
  cm_idx_map_coeff_container_log_size m;
  cm_idx_bmt_constant m;
  cm_idx_bmt_coeff_key_size m;
  cm_idx_bmt_coeff_container_log_size m;
  cm_idx_array m;
  cm_idxp_map_constant m;
  cm_idxp_map_coeff_key_size m;
  cm_idxp_map_coeff_container_log_size m;
  cm_idxp_bmt_constant m;
  cm_idxp_bmt_coeff_key_size m;
  cm_idxp_bmt_coeff_container_log_size m;
  cm_idxp_array m;
  cm_idxc_map_constant m;
  cm_idxc_map_coeff_key_size m;
  cm_idxc_map_coeff_container_log_size m;
  cm_idxc_bmt_constant m;
  cm_idxc_bmt_coeff_key_size m;
  cm_idxc_bmt_coeff_container_log_size m;
  cm_idxc_array m;
  cm_idxpc_map_constant m;
  cm_idxpc_map_coeff_key_size m;
  cm_idxpc_map_coeff_container_log_size m;
  cm_idxpc_bmt_constant m;
  cm_idxpc_bmt_coeff_key_size m;
  cm_idxpc_bmt_coeff_container_log_size m;
  cm_idxpc_array m;
  cm_ins_map_constant m;
  cm_ins_map_coeff_key_size m;
  cm_ins_map_coeff_container_log_size m;
  cm_ins_bmt_constant m;
  cm_ins_bmt_coeff_key_size m;
  cm_ins_bmt_coeff_container_log_size m;
  cm_ins_array m;
  cm_insc_map_constant m;
  cm_insc_map_coeff_key_size m;
  cm_insc_map_coeff_container_log_size m;
  cm_insc_bmt_constant m;
  cm_insc_bmt_coeff_key_size m;
  cm_insc_bmt_coeff_container_log_size m;
  cm_insc_array m;
  cm_ckpt m;
  cm_signature_verify_constant m;
  cm_signature_verify_coeff_size m;
  cm_pedersen_valid m;
  cm_verifier_key_load m;
  cm_proof_verify_constant m;
  cm_proof_verify_coeff_size m;
  cm_hash_to_curve m;
  cm_ec_add m;
  cm_ec_mul m;
  cm_transient_hash m;
  cm_get_writes_constant m;
  cm_get_writes_coeff_keys_added_size m;
  cm_update_rcmap_constant m;
  cm_update_rcmap_coeff_keys_added_size m;
  cm_gc_rcmap_constant m;
  cm_gc_rcmap_coeff_keys_removed_size m;
  cm_read_time_batched_4k m;
  cm_read_time_synchronous_4k m].

Definition cost_model_ok (m : CostModel) : Prop := Forall (in_u 64) (cost_coefficients m).

Section reads.
(** [FR_BYTES] comes from the curve library. *)
Context (FR_BYTES : Z) (cost_model : CostModel).

Definition PERSISTENT_HASH_SIZE : Z := 32.

Definition read_cell (size : Z) (sync : bool) : RunningCost :=
  let blocks := Z.max 1 (div_ceil size 4096) in
  if sync then
    let time := CostDuration_add (cm_read_time_synchronous_4k cost_model)
                  (CostDuration_mul (cm_read_time_batched_4k cost_model) (blocks - 1)) in
    mkRunningCost time time 0 0
  else mkRunningCost (CostDuration_mul (cm_read_time_batched_4k cost_model) blocks) CD_ZERO 0 0.

Definition read_map (log_size : Z) (sync : bool) : RunningCost :=
  let layers := div_ceil log_size 4 in
  RunningCost_mul (read_cell (PERSISTENT_HASH_SIZE * 16) sync) layers.

Definition read_array (sync : bool) : RunningCost := read_cell (PERSISTENT_HASH_SIZE * 16) sync.

Definition read_bmt (log_size : Z) (sync : bool) : RunningCost :=
  RunningCost_mul (read_cell (FR_BYTES * 3 + 2) sync) log_size.
End reads.

(** ** Costs are not negative *)

Definition cost_nonneg (c : RunningCost) : Prop :=
  0 <= rc_read_time c /\ 0 <= rc_compute_time c /\ 0 <= rc_bytes_written c /\ 0 <= rc_bytes_deleted c.

Lemma cd_add_nonneg a b : 0 <= a -> 0 <= b -> 0 <= CostDuration_add a b.
Proof. unfold CostDuration_add, sat_add, u_max. lia. Qed.

Lemma cd_mul_nonneg a k : 0 <= a -> 0 <= k -> 0 <= CostDuration_mul a k.
Proof. unfold CostDuration_mul, sat_mul, u_max. nia. Qed.

Lemma compute_nonneg t : 0 <= t -> cost_nonneg (RunningCost_compute t).
Proof. done. Qed.

Lemma div_ceil_nonneg a b : 0 <= a -> 0 < b -> 0 <= div_ceil a b.
Proof. intros Ha Hb. unfold div_ceil. apply Z.div_pos; lia. Qed.

Lemma RunningCost_mul_nonneg c k : cost_nonneg c -> 0 <= k -> cost_nonneg (RunningCost_mul c k).
Proof.
  intros (? & ? & ? & ?) Hk. unfold cost_nonneg, RunningCost_mul; cbn.
  split_and!; by (apply cd_mul_nonneg || (unfold sat_mul, u_max; nia)).
Qed.

#[export] Hint Resolve cd_add_nonneg cd_mul_nonneg compute_nonneg div_ceil_nonneg RunningCost_mul_nonneg : midnight.
