(* ===== verification/Fab.v ===== *)
(** * Field-aligned binary values ([base-crypto/src/fab])

    The values contracts compute with: a value is a sequence of byte strings
    (atoms), an alignment says what each atom is.  [encoding.rs]: normal forms,
    alignments and when a value fits one; [conversions.rs]: integers, booleans
    and hashes as values; [serialize.rs]: the binary format.  An atom is the
    list of its bytes, a value the list of its atoms, an alignment the list of
    its segments. *)

From S2P Require Import Prelude Serialize.
From stdpp Require Import countable gmap sorting.

Local Open Scope Z_scope.

Abbreviation ValueAtom := (list Z) (only parsing).
Abbreviation Value := (list (list Z)) (only parsing).

Inductive AlignmentAtom :=
| Compress
| Bytes (length : Z)
| Field.

(** An option is a disjoint union of alignments, with the variant as a first
    atom. *)
Inductive AlignmentSegment :=
| SegAtom (atom : AlignmentAtom)
| SegOption (options : list (list AlignmentSegment)).

Abbreviation Alignment := (list AlignmentSegment) (only parsing).

Record AlignedValue := mkAlignedValue {
  av_value : Value;
  av_alignment : Alignment
}.

(** ** Atoms *)

Fixpoint drop_zeros (l : list Z) : list Z :=
  match l with
  | 0 :: l' => drop_zeros l'
  | _ => l
  end.

(** [normalize]: pop zeros off the end. *)
Definition normalize (atom : ValueAtom) : ValueAtom := reverse (drop_zeros (reverse atom)).

(** [is_in_normal_form]: the last byte is not zero. *)
Definition is_in_normal_form (atom : ValueAtom) : bool :=
  match reverse atom with 0 :: _ => false | _ => true end.

Definition FIELD_BYTE_LIMIT : Z := 64.

Definition atom_fits (self : AlignmentAtom) (value : ValueAtom) : bool :=
  match self with
  | Compress => true
  | Bytes len => (wrap 32 (Z.of_nat (length value)) <=? len) && is_in_normal_form value
  | Field => (Z.of_nat (length value) <=? FIELD_BYTE_LIMIT) && is_in_normal_form value
  end.

(** ** Conversions *)

Definition InvalidBuiltinDecode : Type := unit.

Definition atom_from_u128 (val : Z) : ValueAtom := normalize (to_le_bytes 16 val).

Definition atom_to_u128 (value : ValueAtom) : result InvalidBuiltinDecode Z :=
  if (length value <=? 16)%nat
  then Ok (from_le_bytes (value ++ replicate (16 - length value) 0))
  else Err tt.

(** [wrap_via_u128!] for an unsigned type of [w] bits. *)
Definition atom_to_uint (w : Z) (value : ValueAtom) : result InvalidBuiltinDecode Z :=
  x ← atom_to_u128 value;
  if x <=? u_max w then Ok x else Err tt.

Definition atom_from_bool (value : bool) : ValueAtom := normalize [if value then 1 else 0].

Definition atom_to_bool (value : ValueAtom) : result InvalidBuiltinDecode bool :=
  byte ← atom_to_uint 8 value;
  if byte =? 0 then Ok false else if byte =? 1 then Ok true else Err tt.

Definition PERSISTENT_HASH_BYTES : nat := 32.

Definition atom_from_hash (hash : list Z) : ValueAtom := normalize hash.

Definition atom_to_hash (value : ValueAtom) : result InvalidBuiltinDecode (list Z) :=
  if (length value <=? PERSISTENT_HASH_BYTES)%nat
  then Ok (value ++ replicate (PERSISTENT_HASH_BYTES - length value) 0)
  else Err tt.

(** [forward_primitive_value!]: a value of one atom. *)
Definition value_to {T} (conv : ValueAtom -> result InvalidBuiltinDecode T) (value : Value)
  : result InvalidBuiltinDecode T :=
  match value with
  | [atom] => conv atom
  | _ => Err tt
  end.

(** ** Alignments *)

Section consume.
Context {T : Type} (f : T -> AlignmentAtom -> T) (len : T -> nat).

(** [consume_internal] threads the value and the accumulator over the segments;
    after an option the value moves on by what the accumulator counted. *)
Fixpoint consume_segment (ts : AlignmentSegment) (value : Value) (acc : T) : option (Value * T) :=
  match ts with
  | SegAtom pty =>
      match value with
      | atom :: value' => if atom_fits pty atom then Some (value', f acc pty) else None
      | [] => None
      end
  | SegOption tys =>
      match value with
      | atom :: value' =>
          if atom_fits (Bytes 2) atom then
            match atom_to_uint 16 atom with
            | Err _ => None
            | Ok branch =>
                let acc := f acc (Bytes 2) in
                let prev_consumed := len acc in
                let pick :=
                  fix pick (tys : list (list AlignmentSegment)) (branch : nat) : option T :=
                    match tys, branch with
                    | [], _ => None
                    | ty :: _, O =>
                        snd <$>
                        (fix go (l : list AlignmentSegment) (value : Value) (acc : T)
                           : option (Value * T) :=
                           match l with
                           | [] => Some (value, acc)
                           | ts :: l' =>
                               match consume_segment ts value acc with
                               | Some (value, acc) => go l' value acc
                               | None => None
                               end
                           end) ty value' acc
                    | _ :: tys', S branch' => pick tys' branch'
                    end in
                match pick tys (Z.to_nat branch) with
                | None => None
                | Some acc => Some (drop (len acc - prev_consumed) value', acc)
                end
            end
          else None
      | [] => None
      end
  end.

Fixpoint consume_segments (l : Alignment) (value : Value) (acc : T) : option (Value * T) :=
  match l with
  | [] => Some (value, acc)
  | ts :: l' =>
      match consume_segment ts value acc with
      | Some (value, acc) => consume_segments l' value acc
      | None => None
      end
  end.

Definition consume_internal (self : Alignment) (value : Value) (acc : T) : option T :=
  snd <$> consume_segments self value acc.
End consume.

(** Counting the atoms. *)
Definition consume_count (self : Alignment) (value : Value) : option nat :=
  consume_internal (fun ctr _ => S ctr) id self value 0%nat.

(** [consume]: the aligned prefix and the rest. *)
Definition consume (self : Alignment) (value : Value) : option (Value * Value) :=
  split_point ← consume_count self value;
  Some (take split_point value, drop split_point value).

Definition fits (self : Alignment) (value : Value) : bool :=
  match consume self value with
  | Some (_, []) => true
  | _ => false
  end.

(** [Alignment::default]: the first variant of an option. *)
Fixpoint default_segment (ts : AlignmentSegment) : Value :=
  match ts with
  | SegAtom _ => [[]]
  | SegOption [] => []
  | SegOption (ty :: _) => flat_map default_segment ty
  end.

Definition Alignment_default (self : Alignment) : Value := flat_map default_segment self.

Definition AlignedValue_new (value : Value) (alignment : Alignment) : option AlignedValue :=
  if fits alignment value then Some (mkAlignedValue value alignment) else None.

Definition AlignedValue_concat (l : list AlignedValue) : AlignedValue :=
  mkAlignedValue (concat (av_value <$> l)) (concat (av_alignment <$> l)).

(** [AlignedValue::from]: a value with the alignment of its type, which must fit. *)
Definition AlignedValue_from {E} (alignment : Alignment) (value : Value) : outcome E AlignedValue :=
  match AlignedValue_new value alignment with Some v => Ret v | None => Panic end.

(** Values of the types that convert: unsigned integers of a number of bytes,
    booleans, hashes, arrays of bytes, vectors of bytes, tuples and options; the payload of [None] is the type's default. *)
Inductive Rust :=
| RUint (bytes x : Z) | RBool (b : bool) | RHash (h : list Z) | RArray (bytes : list Z) | RBytes (bytes : list Z)
| RTuple (fields : list Rust) | ROption (is_some : bool) (payload : Rust).

(** [Aligned::alignment] of their types. *)
Fixpoint rust_alignment (r : Rust) : Alignment :=
  match r with
  | RUint bytes _ => [SegAtom (Bytes bytes)]
  | RBool _ => [SegAtom (Bytes 1)]
  | RHash _ => [SegAtom (Bytes (Z.of_nat PERSISTENT_HASH_BYTES))]
  | RArray bytes => [SegAtom (Bytes (wrap 32 (Z.of_nat (length bytes))))]
  | RBytes _ => [SegAtom Compress]
  | RTuple fields => flat_map rust_alignment fields
  | ROption _ payload => SegAtom (Bytes 1) :: rust_alignment payload
  end.

(** [Value::from]. *)
Fixpoint rust_value (r : Rust) : Value :=
  match r with
  | RUint _ x => [atom_from_u128 x]
  | RBool b => [atom_from_bool b]
  | RHash h => [atom_from_hash h]
  | RArray bytes | RBytes bytes => [normalize bytes]
  | RTuple fields => flat_map rust_value fields
  | ROption is_some payload => atom_from_bool is_some :: rust_value payload
  end.

(** [AlignedValue::from] of the types the virtual machine uses, without its check,
    which passes for arguments in range. *)
Definition av_of_uint (bytes : Z) (x : Z) : AlignedValue :=
  mkAlignedValue [atom_from_u128 x] [SegAtom (Bytes bytes)].
Definition av_of_bool (b : bool) : AlignedValue :=
  mkAlignedValue [atom_from_bool b] [SegAtom (Bytes 1)].
Definition av_of_hash (h : list Z) : AlignedValue :=
  mkAlignedValue [atom_from_hash h] [SegAtom (Bytes (Z.of_nat PERSISTENT_HASH_BYTES))].
Definition av_of_unit : AlignedValue := mkAlignedValue [] [].

(** ** Binary format *)

Definition ONE_BYTE_LIMIT : Z := 2 ^ 5 - 1.
Definition TWO_BYTE_LIMIT : Z := 2 ^ 12 - 1.
Definition THREE_BYTE_LIMIT : Z := 2 ^ 19 - 1.

(** An integer of up to 19 bits with two flags. *)
Definition write_flagged_int (x y : bool) (int : Z) : result ErrorKind (list Z) :=
  let flag_u8 := Z.lor (if x then 128 else 0) (if y then 64 else 0) in
  if int <=? ONE_BYTE_LIMIT then Ok [Z.lor flag_u8 int]
  else if int <=? TWO_BYTE_LIMIT then
    Ok [Z.lor (Z.lor flag_u8 32) (int mod 32); wrap 8 (Z.shiftr int 5)]
  else if int <=? THREE_BYTE_LIMIT then
    Ok [Z.lor (Z.lor flag_u8 32) (int mod 32); Z.lor 128 (Z.shiftr int 5 mod 128);
        wrap 8 (Z.shiftr int 12)]
  else Err InvalidInput.

Definition flagged_int_size (int : Z) : Z :=
  if int <=? ONE_BYTE_LIMIT then 1
  else if int <=? TWO_BYTE_LIMIT then 2
  else if int <=? THREE_BYTE_LIMIT then 3
  else 1000.

Definition read_flagged_int : Reader (bool * bool * Z) :=
  b0 ← read_u8;
  let x := negb (Z.land b0 128 =? 0) in
  let y := negb (Z.land b0 64 =? 0) in
  let a := b0 mod 32 in
  if Z.land b0 32 =? 0 then mret (x, y, a)
  else
    b1 ← read_u8;
    let b := b1 mod 128 in
    if Z.land b1 128 =? 0 then
      if b =? 0 then read_fail InvalidInput else mret (x, y, Z.lor a (Z.shiftl b 5))
    else
      b2 ← read_u8;
      let c := b2 mod 128 in
      if Z.land b2 128 =? 0 then
        if c =? 0 then read_fail InvalidInput
        else mret (x, y, Z.lor (Z.lor a (Z.shiftl b 5)) (Z.shiftl c 12))
      else read_fail InvalidInput.

(** Writing the elements of a list one after the other. *)
Definition write_all {A} (f : A -> result ErrorKind (list Z)) : list A -> result ErrorKind (list Z) :=
  fix go l :=
    match l with
    | [] => Ok []
    | x :: l' => bs ← f x; rest ← go l'; Ok (bs ++ rest)
    end.

Definition sum_size {A} (f : A -> Z) : list A -> Z :=
  fix go l := match l with [] => 0 | x :: l' => f x + go l' end.

Definition len_u32 {A} (l : list A) : Z := wrap 32 (Z.of_nat (length l)).

(** *** Value atoms *)

Definition ValueAtom_serialize (self : ValueAtom) : result ErrorKind (list Z) :=
  match normalize self with
  | [b] => if b <? 32 then write_flagged_int false false b
           else hd ← write_flagged_int false true 1; Ok (hd ++ [b])
  | atom => hd ← write_flagged_int false true (len_u32 atom); Ok (hd ++ atom)
  end.

Definition ValueAtom_serialized_size (self : ValueAtom) : Z :=
  match normalize self with
  | [b] => if b <? 32 then flagged_int_size b else flagged_int_size 1 + 1
  | atom => flagged_int_size (len_u32 atom) + Z.of_nat (length atom)
  end.

Definition ValueAtom_with_flagged_int (x y : bool) (int : Z) : Reader ValueAtom :=
  if x then read_fail InvalidData
  else if y then
    res ← read_exact_to_vec (Z.to_nat int);
    if is_in_normal_form res then mret res else read_fail InvalidData
  else if (int <? 32) && (0 <? int) then mret [int]
  else read_fail InvalidData.

Definition ValueAtom_deserialize : Reader ValueAtom :=
  '(x, y, int) ← read_flagged_int; ValueAtom_with_flagged_int x y int.

(** *** Values *)

Definition Value_serialize (self : Value) : result ErrorKind (list Z) :=
  match self with
  | [atom] => ValueAtom_serialize atom
  | _ => hd ← write_flagged_int true false (len_u32 self);
         body ← write_all ValueAtom_serialize self;
         Ok (hd ++ body)
  end.

Definition Value_serialized_size (self : Value) : Z :=
  match self with
  | [atom] => ValueAtom_serialized_size atom
  | _ => flagged_int_size (len_u32 self) + sum_size ValueAtom_serialized_size self
  end.

Definition Value_deserialize (recursion_depth : Z) : Reader Value :=
  check_rec recursion_depth (fun _ =>
    '(x, y, int) ← read_flagged_int;
    match x, y with
    | false, _ => atom ← ValueAtom_with_flagged_int x y int; mret [atom]
    | true, false => read_many (Z.to_nat int) ValueAtom_deserialize
    | true, true => read_fail InvalidData
    end).

(** *** Alignments *)

Definition AlignmentAtom_serialize (self : AlignmentAtom) : result ErrorKind (list Z) :=
  match self with
  | Compress => write_flagged_int false true 0
  | Field => write_flagged_int false true 1
  | Bytes len => write_flagged_int false false len
  end.

Definition AlignmentAtom_serialized_size (self : AlignmentAtom) : Z :=
  match self with
  | Bytes len => flagged_int_size len
  | Compress | Field => 1
  end.

Definition AlignmentAtom_with_flagged_int (x y : bool) (int : Z) : Reader AlignmentAtom :=
  match x, y with
  | false, false => mret (Bytes int)
  | false, true => if int =? 0 then mret Compress else if int =? 1 then mret Field
                   else read_fail InvalidData
  | _, _ => read_fail InvalidData
  end.

(** An alignment, given how segments are written. *)
Definition write_alignment (seg : AlignmentSegment -> result ErrorKind (list Z)) (self : Alignment)
  : result ErrorKind (list Z) :=
  match self with
  | [s] => seg s
  | _ => hd ← write_flagged_int true true (len_u32 self);
         body ← write_all seg self;
         Ok (hd ++ body)
  end.

Definition alignment_size (seg : AlignmentSegment -> Z) (self : Alignment) : Z :=
  match self with
  | [s] => seg s
  | _ => flagged_int_size (len_u32 self) + sum_size seg self
  end.

Fixpoint AlignmentSegment_serialize (self : AlignmentSegment) : result ErrorKind (list Z) :=
  match self with
  | SegAtom atom => AlignmentAtom_serialize atom
  | SegOption branches =>
      hd ← write_flagged_int true false (len_u32 branches);
      body ← write_all (write_alignment AlignmentSegment_serialize) branches;
      Ok (hd ++ body)
  end.

Fixpoint AlignmentSegment_serialized_size (self : AlignmentSegment) : Z :=
  match self with
  | SegAtom atom => AlignmentAtom_serialized_size atom
  | SegOption branches =>
      flagged_int_size (len_u32 branches)
      + sum_size (alignment_size AlignmentSegment_serialized_size) branches
  end.

Definition Alignment_serialize := write_alignment AlignmentSegment_serialize.
Definition Alignment_serialized_size := alignment_size AlignmentSegment_serialized_size.

Definition AlignmentSegment_with_flagged_int (rd : Reader Alignment) (x y : bool) (int : Z)
  : Reader AlignmentSegment :=
  match x, y with
  | false, _ => atom ← AlignmentAtom_with_flagged_int x y int; mret (SegAtom atom)
  | true, false => branches ← read_many (Z.to_nat int) rd; mret (SegOption branches)
  | true, true => read_fail InvalidData
  end.

Definition AlignmentSegment_deserialize (rd : Z -> Reader Alignment) (recursion_depth : Z)
  : Reader AlignmentSegment :=
  check_rec recursion_depth (fun recursion_depth =>
    '(x, y, int) ← read_flagged_int;
    AlignmentSegment_with_flagged_int (rd recursion_depth) x y int).

Definition Alignment_with_flagged_int (rd : Z -> Reader Alignment) (x y : bool) (int : Z)
  (recursion_depth : Z) : Reader Alignment :=
  if x && y then
    if int =? 1 then read_fail InvalidData
    else read_many (Z.to_nat int) (AlignmentSegment_deserialize rd recursion_depth)
  else s ← AlignmentSegment_with_flagged_int (rd recursion_depth) x y int; mret [s].

(** The recursion through [Alignment::deserialize], which counts its depth; the
    fuel is what the limit leaves. *)
Fixpoint alignment_deserialize (fuel : nat) (recursion_depth : Z) : Reader Alignment :=
  match fuel with
  | O => read_fail InvalidData
  | S fuel' =>
      check_rec recursion_depth (fun recursion_depth =>
        '(x, y, int) ← read_flagged_int;
        Alignment_with_flagged_int (alignment_deserialize fuel') x y int recursion_depth)
  end.

Definition Alignment_deserialize (recursion_depth : Z) : Reader Alignment :=
  alignment_deserialize (S (Z.to_nat (RECURSION_LIMIT - recursion_depth))) recursion_depth.

(** *** Aligned values *)

Definition AlignedValue_serialize (self : AlignedValue) : result ErrorKind (list Z) :=
  value ← Value_serialize (av_value self);
  alignment ← Alignment_serialize (av_alignment self);
  Ok (value ++ alignment).

Definition AlignedValue_serialized_size (self : AlignedValue) : Z :=
  Value_serialized_size (av_value self) + Alignment_serialized_size (av_alignment self).

Definition AlignedValue_deserialize (recursion_depth : Z) : Reader AlignedValue :=
  check_rec recursion_depth (fun recursion_depth =>
    value ← Value_deserialize recursion_depth;
    alignment ← Alignment_deserialize recursion_depth;
    mret (mkAlignedValue value alignment)).

(** ** Integers with flags *)

Definition flag_byte (x y z : bool) (a : Z) : Z :=
  128 * Z.b2z x + 64 * Z.b2z y + 32 * Z.b2z z + a.

Lemma flag_byte_spec x y z a :
  0 <= a < 32 ->
  is_byte (flag_byte x y z a) /\
  Z.lor (Z.lor (Z.lor (if x then 128 else 0) (if y then 64 else 0)) (if z then 32 else 0)) a = flag_byte x y z a /\
  Z.land (flag_byte x y z a) 128 = 128 * Z.b2z x /\ Z.land (flag_byte x y z a) 64 = 64 * Z.b2z y /\
  Z.land (flag_byte x y z a) 32 = 32 * Z.b2z z /\ flag_byte x y z a mod 32 = a.
Proof.
  intros Ha. assert (H : forall b, is_byte b ->
    (let w := flag_byte x y z (b mod 32) in
     (0 <=? w) && (w <? 256) &&
     (Z.lor (Z.lor (Z.lor (if x then 128 else 0) (if y then 64 else 0)) (if z then 32 else 0)) (b mod 32) =? w) &&
     (Z.land w 128 =? 128 * Z.b2z x) && (Z.land w 64 =? 64 * Z.b2z y) && (Z.land w 32 =? 32 * Z.b2z z) &&
     (w mod 32 =? b mod 32)) = true).
  { destruct x, y, z; apply byte_forall; vm_compute; reflexivity. }
  specialize (H a ltac:(unfold is_byte; lia)). cbv zeta in H. rewrite Z.mod_small in H by lia.
  unfold is_byte. set (w := flag_byte x y z a) in *. clearbody w.
  repeat (apply andb_true_iff in H as [H ?]).
  repeat match goal with
  | H : (_ =? _) = true |- _ => apply Z.eqb_eq in H
  | H : (_ <=? _) = true |- _ => apply Z.leb_le in H
  | H : (_ <? _) = true |- _ => apply Z.ltb_lt in H
  end. split_and!; done.
Qed.

Lemma flag_byte_cases b :
  is_byte b -> exists x y z a, 0 <= a < 32 /\ b = flag_byte x y z a.
Proof.
  intros Hb. exists (Z.testbit b 7), (Z.testbit b 6), (Z.testbit b 5), (b mod 32).
  split; [dlia|]. unfold flag_byte. revert b Hb. solve_byte.
Qed.

(** What is written, as arithmetic. *)
Definition flagged_bytes (x y : bool) (n : Z) : list Z :=
  if n <? 32 then [flag_byte x y false n]
  else if n <? 4096 then [flag_byte x y true (n mod 32); n / 32]
  else [flag_byte x y true (n mod 32); 128 + n / 32 mod 128; n / 4096].

Lemma write_flagged_int_bytes x y n : 0 <= n < 2 ^ 19 -> write_flagged_int x y n = Ok (flagged_bytes x y n).
Proof.
  intros Hn. unfold write_flagged_int, flagged_bytes, ONE_BYTE_LIMIT, TWO_BYTE_LIMIT, THREE_BYTE_LIMIT, wrap.
  rewrite !Z.shiftr_div_pow2 by lia. change (2 ^ 5) with 32. change (2 ^ 12) with 4096. change (2 ^ 8) with 256.
  cbv zeta. destruct (Z.leb_spec n (32 - 1)), (Z.ltb_spec n 32); try lia.
  - destruct (flag_byte_spec x y false n) as (_ & <- & _); [lia|]. by rewrite Z.lor_0_r.
  - destruct (flag_byte_spec x y true (n mod 32)) as (_ & <- & _); [dlia|].
    destruct (Z.leb_spec n (4096 - 1)), (Z.ltb_spec n 4096); try lia.
    + by rewrite (Z.mod_small (n / 32)) by dlia.
    + destruct (Z.leb_spec n (2 ^ 19 - 1)); [|lia]. rewrite (Z.mod_small (n / 4096)) by dlia.
      rewrite (Z.lor_comm 128), (lor_add_low _ 1 7) by dlia. do 3 f_equal. lia.
Qed.

Lemma flagged_bytes_ok x y n : 0 <= n < 2 ^ 19 ->
  bytes_ok (flagged_bytes x y n) /\ Z.of_nat (length (flagged_bytes x y n)) = flagged_int_size n.
Proof.
  intros Hn. unfold flagged_bytes, flagged_int_size, ONE_BYTE_LIMIT, TWO_BYTE_LIMIT, THREE_BYTE_LIMIT.
  change (2 ^ 5) with 32. change (2 ^ 12) with 4096.
  destruct (Z.ltb_spec n 32), (Z.leb_spec n (32 - 1)); try lia.
  - split; [|done]. repeat constructor; apply flag_byte_spec; lia.
  - destruct (Z.ltb_spec n 4096), (Z.leb_spec n (4096 - 1)); try lia.
    + split; [|done]. constructor; [apply flag_byte_spec; dlia|]. constructor; [unfold is_byte; dlia|constructor].
    + destruct (Z.leb_spec n (2 ^ 19 - 1)); [|lia]. split; [|done].
      constructor; [apply flag_byte_spec; dlia|].
      constructor; [unfold is_byte; dlia|]. constructor; [unfold is_byte; dlia|constructor].
Qed.

(** What is read, as arithmetic on the bytes. *)
Lemma land_128 : forall b, is_byte b -> Z.land b 128 = 128 * (b / 128).
Proof. solve_byte. Qed.

Lemma read_flagged_first x y z a rest : 0 <= a < 32 ->
  read_flagged_int (flag_byte x y z a :: rest) =
  if z then
    match rest with
    | [] => Err UnexpectedEof
    | b1 :: rest =>
        if Z.land b1 128 =? 0 then
          if b1 mod 128 =? 0 then Err InvalidInput else Ok (x, y, Z.lor a (Z.shiftl (b1 mod 128) 5), rest)
        else
          match rest with
          | [] => Err UnexpectedEof
          | b2 :: rest =>
              if Z.land b2 128 =? 0 then
                if b2 mod 128 =? 0 then Err InvalidInput
                else Ok (x, y, Z.lor (Z.lor a (Z.shiftl (b1 mod 128) 5)) (Z.shiftl (b2 mod 128) 12), rest)
              else Err InvalidInput
          end
    end
  else Ok (x, y, a, rest).
Proof.
  intros Ha. destruct (flag_byte_spec x y z a Ha) as (_ & _ & Hx & Hy & Hz & Hm).
  unfold read_flagged_int. erewrite Reader_bind_step by reflexivity. cbv zeta. rewrite Hx, Hy, Hz, Hm.
  replace (negb (128 * Z.b2z x =? 0)) with x by by destruct x.
  replace (negb (64 * Z.b2z y =? 0)) with y by by destruct y.
  destruct z; [|done]. change (32 * Z.b2z true =? 0) with false. cbv iota. destruct rest as [|b1 rest]; [done|].
  erewrite Reader_bind_step by reflexivity. destruct (Z.land b1 128 =? 0).
  - by destruct (b1 mod 128 =? 0).
  - destruct rest as [|b2 rest]; [done|]. erewrite Reader_bind_step by reflexivity.
    destruct (Z.land b2 128 =? 0); [|done]. by destruct (b2 mod 128 =? 0).
Qed.

Lemma lor_shift a b k : 0 <= k -> 0 <= a < 2 ^ k -> Z.lor a (Z.shiftl b k) = a + b * 2 ^ k.
Proof. intros Hk Ha. rewrite Z.shiftl_mul_pow2 by done. by apply lor_add_low. Qed.

Lemma read_flagged_int_write x y n rest : 0 <= n < 2 ^ 19 ->
  read_flagged_int (flagged_bytes x y n ++ rest) = Ok (x, y, n, rest).
Proof.
  intros Hn. unfold flagged_bytes.
  destruct (Z.ltb_spec n 32); [|destruct (Z.ltb_spec n 4096)]; cbn [app]; rewrite read_flagged_first by dlia.
  - done.
  - rewrite land_128 by (unfold is_byte; dlia). rewrite (Z.mod_small (n / 32) 128) by dlia.
    destruct (Z.eqb_spec (128 * (n / 32 / 128)) 0); [|dlia].
    destruct (Z.eqb_spec (n / 32) 0); [dlia|]. rewrite lor_shift by dlia. do 3 f_equal. dlia.
  - rewrite land_128 by (unfold is_byte; dlia). rewrite (land_128 (n / 4096)) by (unfold is_byte; dlia).
    rewrite (Z.mod_small (n / 4096) 128) by dlia.
    replace ((128 + n / 32 mod 128) mod 128) with (n / 32 mod 128) by dlia.
    destruct (Z.eqb_spec (128 * ((128 + n / 32 mod 128) / 128)) 0); [dlia|].
    destruct (Z.eqb_spec (128 * (n / 4096 / 128)) 0); [|dlia].
    destruct (Z.eqb_spec (n / 4096) 0); [dlia|].
    rewrite (lor_shift _ _ 5) by dlia. rewrite lor_shift by dlia. do 3 f_equal. dlia.
Qed.

(** Only what was written is read: the format has one encoding per integer. *)
Lemma read_flagged_int_canonical bs x y n rest : bytes_ok bs ->
  read_flagged_int bs = Ok (x, y, n, rest) ->
  0 <= n < 2 ^ 19 /\ bs = flagged_bytes x y n ++ rest.
Proof.
  intros Hb E. destruct Hb as [|b0 bs H0 Hb]; [done|].
  destruct (flag_byte_cases b0 H0) as (x' & y' & z & a & Ha & ->). rewrite read_flagged_first in E by done.
  destruct z.
  2: { injection E as -> -> -> ->. split; [lia|]. unfold flagged_bytes. by destruct (Z.ltb_spec n 32); [|lia]. }
  destruct Hb as [|b1 bs H1 Hb]; [done|]. unfold is_byte in *. rewrite (land_128 b1) in E by done.
  destruct (Z.eqb_spec (128 * (b1 / 128)) 0).
  - destruct (Z.eqb_spec (b1 mod 128) 0); [done|]. injection E as -> -> <- ->.
    rewrite lor_shift by dlia. split; [dlia|]. unfold flagged_bytes.
    destruct (Z.ltb_spec (a + b1 mod 128 * 2 ^ 5) 32); [dlia|].
    destruct (Z.ltb_spec (a + b1 mod 128 * 2 ^ 5) 4096); [|dlia]. cbn [app]. do 2 f_equal; [f_equal; dlia|dlia].
  - destruct Hb as [|b2 bs H2 Hb]; [done|]. rewrite (land_128 b2) in E by done.
    destruct (Z.eqb_spec (128 * (b2 / 128)) 0); [|done].
    destruct (Z.eqb_spec (b2 mod 128) 0); [done|]. injection E as -> -> <- ->.
    rewrite (lor_shift _ _ 5) by dlia. rewrite lor_shift by dlia. split; [dlia|]. unfold flagged_bytes.
    set (m := a + b1 mod 128 * 2 ^ 5 + b2 mod 128 * 2 ^ 12).
    destruct (Z.ltb_spec m 32); [dlia|]. destruct (Z.ltb_spec m 4096); [dlia|]. cbn [app].
    do 3 f_equal; [f_equal|..]; unfold m; dlia.
Qed.

(** ** Round trips *)

(** [x] is written by [f] with the announced size and read back by [rd]. *)
Definition transmits {A} (f : A -> result ErrorKind (list Z)) (size : A -> Z) (rd : Reader A) (x : A) : Prop :=
  exists bs, f x = Ok bs /\ bytes_ok bs /\ Z.of_nat (length bs) = size x /\
    forall rest, rd (bs ++ rest) = Ok (x, rest).

Lemma write_all_transmits {A} (f : A -> result ErrorKind (list Z)) size rd l :
  Forall (transmits f size rd) l ->
  transmits (write_all f) (sum_size size) (read_many (length l) rd) l.
Proof.
  induction 1 as [|x l (bs & E & Hb & Hl & Hr) _ (bs' & E' & Hb' & Hl' & Hr')].
  - exists []. split_and!; [done|constructor|done|done].
  - exists (bs ++ bs'). cbn [write_all sum_size length read_many]. fold (write_all f). fold (sum_size size).
    rewrite E. cbn [mbind result_bind]. rewrite E'. split_and!; [done|by apply Forall_app| |].
    + rewrite length_app. lia.
    + intros rest. rewrite <- app_assoc. rewrite (Reader_bind_step _ _ _ x (bs' ++ rest)) by apply Hr.
      by rewrite (Reader_bind_step _ _ _ l rest) by apply Hr'.
Qed.

(** The same for data that starts with an integer with flags: [with_flag] reads
    what follows it. *)
Definition transmits_flagged {A} (f : A -> result ErrorKind (list Z)) (size : A -> Z)
  (with_flag : bool -> bool -> Z -> Reader A) (flags : bool -> bool -> Prop) (a : A) : Prop :=
  exists x y n body, flags x y /\ 0 <= n < 2 ^ 19 /\ f a = Ok (flagged_bytes x y n ++ body) /\ bytes_ok body /\
    Z.of_nat (length (flagged_bytes x y n ++ body)) = size a /\
    forall rest, with_flag x y n (body ++ rest) = Ok (a, rest).

Lemma transmits_of_flagged {A} f size with_flag flags (rd : Reader A) (a : A) :
  (forall bs, rd bs = ('(x, y, int) ← read_flagged_int; with_flag x y int) bs) ->
  transmits_flagged f size with_flag flags a -> transmits f size rd a.
Proof.
  intros Hrd (x & y & n & body & _ & Hn & E & Hb & Hl & Hr). exists (flagged_bytes x y n ++ body).
  split_and!; [done| |done|].
  - apply Forall_app. split; [by apply flagged_bytes_ok|done].
  - intros rest. rewrite Hrd, <- app_assoc.
    by rewrite (Reader_bind_step _ _ _ (x, y, n) (body ++ rest)) by by apply read_flagged_int_write.
Qed.

(** *** Atoms in normal form *)

Lemma drop_zeros_id l : match l with 0 :: _ => False | _ => True end -> drop_zeros l = l.
Proof. by destruct l as [|[]]. Qed.

Lemma drop_zeros_spec l : exists k, l = replicate k 0 ++ drop_zeros l /\
  match drop_zeros l with 0 :: _ => False | _ => True end.
Proof.
  induction l as [|b l (k & E & Hn)]; [by exists 0%nat|]. destruct b as [|p|p].
  - exists (S k). cbn [drop_zeros replicate app]. by rewrite <- E.
  - by exists 0%nat.
  - by exists 0%nat.
Qed.

Lemma normalize_id a : is_in_normal_form a = true -> normalize a = a.
Proof.
  intros Hn. unfold normalize, is_in_normal_form in *. rewrite drop_zeros_id; [by rewrite reverse_involutive|].
  by destruct (reverse a) as [|[]].
Qed.

Lemma normalize_spec a : exists k, a = normalize a ++ replicate k 0 /\ is_in_normal_form (normalize a) = true.
Proof.
  unfold normalize, is_in_normal_form. destruct (drop_zeros_spec (reverse a)) as (k & E & Hn). exists k. split.
  - rewrite <- (reverse_involutive a) at 1. rewrite E at 1. by rewrite reverse_app, reverse_replicate.
  - rewrite reverse_involutive. by destruct (drop_zeros (reverse a)) as [|[]].
Qed.

Lemma normalize_nf a : is_in_normal_form (normalize a) = true.
Proof. by destruct (normalize_spec a) as (k & _ & H). Qed.

Lemma normalize_value a : from_le_bytes (normalize a) = from_le_bytes a.
Proof.
  destruct (normalize_spec a) as (k & E & _). rewrite E at 2.
  rewrite from_le_bytes_app, from_le_bytes_zeros. lia.
Qed.

Lemma normalize_length a : (length (normalize a) <= length a)%nat.
Proof. destruct (normalize_spec a) as (k & E & _). rewrite E at 2. rewrite length_app. lia. Qed.

Lemma normalize_bytes a : bytes_ok a -> bytes_ok (normalize a).
Proof. destruct (normalize_spec a) as (k & E & _). rewrite E at 1. by intros [? _]%Forall_app. Qed.

(** What atoms and values can be written. *)
Definition atom_ok (a : ValueAtom) : Prop :=
  is_in_normal_form a = true /\ bytes_ok a /\ Z.of_nat (length a) < 2 ^ 19.

Definition value_ok (v : Value) : Prop := Forall atom_ok v /\ Z.of_nat (length v) < 2 ^ 19.

Lemma len_u32_small {A} (l : list A) : Z.of_nat (length l) < 2 ^ 19 -> len_u32 l = Z.of_nat (length l).
Proof. intros. unfold len_u32, wrap. apply Z.mod_small. lia. Qed.

Lemma read_body a rest : is_in_normal_form a = true ->
  ValueAtom_with_flagged_int false true (Z.of_nat (length a)) (a ++ rest) = Ok (a, rest).
Proof.
  intros Hn. cbn [ValueAtom_with_flagged_int]. rewrite Nat2Z.id.
  rewrite (Reader_bind_step _ _ _ a rest) by (rewrite read_exact_to_vec_spec; apply read_exact_app).
  by rewrite Hn.
Qed.

Lemma ValueAtom_transmits a : atom_ok a ->
  transmits_flagged ValueAtom_serialize ValueAtom_serialized_size ValueAtom_with_flagged_int
    (fun x _ => x = false) a.
Proof.
  intros (Hn & Hb & Hl). unfold transmits_flagged, ValueAtom_serialize, ValueAtom_serialized_size.
  rewrite normalize_id by done.
  assert (Hgen : exists x y n body, x = false /\ 0 <= n < 2 ^ 19 /\
    (hd ← write_flagged_int false true (len_u32 a); Ok (hd ++ a)) = Ok (flagged_bytes x y n ++ body) /\ bytes_ok body /\
    Z.of_nat (length (flagged_bytes x y n ++ body)) = flagged_int_size (len_u32 a) + Z.of_nat (length a) /\
    forall rest, ValueAtom_with_flagged_int x y n (body ++ rest) = Ok (a, rest)).
  { rewrite len_u32_small by done. exists false, true, (Z.of_nat (length a)), a.
    rewrite write_flagged_int_bytes by lia. split_and!; [done|lia|lia|done|done| |].
    - rewrite length_app, Nat2Z.inj_add. by rewrite (proj2 (flagged_bytes_ok false true (Z.of_nat (length a)) ltac:(lia))).
    - intros rest. by apply read_body. }
  destruct a as [|b [|b' a]]; try exact Hgen. destruct (Z.ltb_spec b 32); [|exact Hgen].
  apply Forall_singleton in Hb as [Hb0 Hb1]. exists false, false, b, [].
  rewrite write_flagged_int_bytes by lia. rewrite app_nil_r. split_and!; [done|lia|lia|done|constructor| |].
  - apply flagged_bytes_ok. lia.
  - intros rest. cbn [ValueAtom_with_flagged_int app].
    assert (b <> 0) by (intros ->; done).
    destruct (Z.ltb_spec b 32), (Z.ltb_spec 0 b); try lia; done.
Qed.

Lemma Value_transmits d v : value_ok v -> d + 1 <= RECURSION_LIMIT ->
  transmits Value_serialize Value_serialized_size (Value_deserialize d) v.
Proof.
  intros [Hv Hl] Hd.
  set (with_flag := fun (x y : bool) (int : Z) => match x, y with
    | false, _ => atom ← ValueAtom_with_flagged_int x y int; mret [atom]
    | true, false => read_many (Z.to_nat int) ValueAtom_deserialize
    | true, true => read_fail InvalidData
    end : Reader Value).
  apply (transmits_of_flagged _ _ with_flag (fun _ _ => True)).
  { intros bs. unfold Value_deserialize. by rewrite check_rec_step. }
  assert (Hmany : length v <> 1%nat -> transmits_flagged
    (fun v => hd ← write_flagged_int true false (len_u32 v); body ← write_all ValueAtom_serialize v; Ok (hd ++ body))
    (fun v => flagged_int_size (len_u32 v) + sum_size ValueAtom_serialized_size v) with_flag (fun _ _ => True) v).
  { intros _. destruct (write_all_transmits ValueAtom_serialize ValueAtom_serialized_size ValueAtom_deserialize v)
      as (bs & E & Hb & Hs & Hr).
    - eapply Forall_impl; [exact Hv|]. intros a Ha. eapply transmits_of_flagged; [done|by apply ValueAtom_transmits].
    - unfold transmits_flagged. cbv beta. rewrite E, len_u32_small by done. exists true, false, (Z.of_nat (length v)), bs.
      rewrite write_flagged_int_bytes by lia. split_and!; [done|lia|lia|done|done| |].
      + rewrite length_app, Nat2Z.inj_add, Hs. f_equal. apply flagged_bytes_ok. lia.
      + intros rest. unfold with_flag. rewrite Nat2Z.id. apply Hr. }
  destruct v as [|a [|a' v]]; [by apply Hmany| |by apply Hmany].
  apply Forall_singleton, ValueAtom_transmits in Hv as (x & y & n & body & -> & Hn & E & Hb & Hs & Hr).
  exists false, y, n, body. split_and!; try done; try lia. intros rest. unfold with_flag.
  by rewrite (Reader_bind_step _ _ _ a rest) by apply Hr.
Qed.

(** *** Alignments *)

Section segment_ind.
Variable P : AlignmentSegment -> Prop.
Hypothesis HAtom : forall a, P (SegAtom a).
Hypothesis HOption : forall branches, Forall (Forall P) branches -> P (SegOption branches).

Fixpoint segment_ind' (s : AlignmentSegment) : P s :=
  match s with
  | SegAtom a => HAtom a
  | SegOption branches =>
      HOption branches
        ((fix go (l : list (list AlignmentSegment)) : Forall (Forall P) l :=
            match l with
            | [] => Forall_nil_2 _
            | b :: l' =>
                Forall_cons_2 _ b l'
                  ((fix go' (b : list AlignmentSegment) : Forall P b :=
                      match b with
                      | [] => Forall_nil_2 _
                      | s :: b' => Forall_cons_2 _ s b' (segment_ind' s) (go' b')
                      end) b) (go l')
            end) branches)
  end.
End segment_ind.

(** How many calls that count the depth are nested in reading. *)
Definition max_of {A} (f : A -> Z) : list A -> Z :=
  fix go l := match l with [] => 0 | x :: l' => Z.max (f x) (go l') end.

Definition alignment_levels (seg : AlignmentSegment -> Z) (l : Alignment) : Z :=
  1 + match l with [s] => seg s | _ => max_of (fun s => 1 + seg s) l end.

Fixpoint segment_levels (s : AlignmentSegment) : Z :=
  match s with
  | SegAtom _ => 0
  | SegOption branches => max_of (alignment_levels segment_levels) branches
  end.

Abbreviation levels_of := (alignment_levels segment_levels).

Inductive segment_ok : AlignmentSegment -> Prop :=
| ok_atom a : match a with Bytes n => 0 <= n < 2 ^ 19 | _ => True end -> segment_ok (SegAtom a)
| ok_option branches :
    Z.of_nat (length branches) < 2 ^ 19 ->
    Forall (fun b => Z.of_nat (length b) < 2 ^ 19 /\ Forall segment_ok b) branches ->
    segment_ok (SegOption branches).

Definition alignment_ok (l : Alignment) : Prop := Z.of_nat (length l) < 2 ^ 19 /\ Forall segment_ok l.

Lemma max_of_elem {A} (f : A -> Z) l x : x ∈ l -> f x <= max_of f l.
Proof.
  induction l as [|y l IH]; [by intros ?%not_elem_of_nil|]. cbn [max_of]. fold (max_of f).
  intros [->|Hx]%elem_of_cons; [lia|]. specialize (IH Hx). lia.
Qed.

Lemma max_of_nonneg {A} (f : A -> Z) l : 0 <= max_of f l.
Proof. induction l as [|y l IH]; cbn [max_of]; [done|]. fold (max_of f). lia. Qed.

Lemma levels_of_pos l : 1 <= levels_of l.
Proof.
  unfold alignment_levels. destruct l as [|s [|s' l]].
  - simpl. lia.
  - destruct s; cbn [segment_levels]; [lia|]. pose proof (max_of_nonneg levels_of options). lia.
  - pose proof (max_of_nonneg (fun s => 1 + segment_levels s) (s :: s' :: l)). lia.
Qed.

(** A segment is transmitted when the limit leaves room for its levels. *)
Definition segment_transmits (s : AlignmentSegment) : Prop := forall fuel d,
  segment_levels s <= Z.of_nat fuel -> d + segment_levels s <= RECURSION_LIMIT ->
  transmits_flagged AlignmentSegment_serialize AlignmentSegment_serialized_size
    (AlignmentSegment_with_flagged_int (alignment_deserialize fuel d)) (fun x y => x && y = false) s.

Lemma alignment_transmits l fuel d :
  Forall segment_transmits l -> Z.of_nat (length l) < 2 ^ 19 ->
  levels_of l <= Z.of_nat fuel -> d + levels_of l <= RECURSION_LIMIT ->
  transmits Alignment_serialize Alignment_serialized_size (alignment_deserialize fuel d) l.
Proof.
  intros Hs Hl Hf Hd. pose proof (levels_of_pos l) as Hpos.
  destruct fuel as [|fuel]; [lia|].
  apply (transmits_of_flagged _ _
    (fun x y int => Alignment_with_flagged_int (alignment_deserialize fuel) x y int (d + 1)) (fun _ _ => True)).
  { intros bs. cbn [alignment_deserialize]. by rewrite check_rec_step by lia. }
  assert (Hmany : length l <> 1%nat -> levels_of l = 1 + max_of (fun s => 1 + segment_levels s) l ->
    transmits_flagged
      (fun l => hd ← write_flagged_int true true (len_u32 l); body ← write_all AlignmentSegment_serialize l; Ok (hd ++ body))
      (fun l => flagged_int_size (len_u32 l) + sum_size AlignmentSegment_serialized_size l)
      (fun x y int => Alignment_with_flagged_int (alignment_deserialize fuel) x y int (d + 1)) (fun _ _ => True) l).
  { intros H1 Hlev. destruct (write_all_transmits AlignmentSegment_serialize AlignmentSegment_serialized_size
      (AlignmentSegment_deserialize (alignment_deserialize fuel) (d + 1)) l) as (bs & E & Hb & Hsz & Hr).
    - rewrite Forall_forall in Hs |- *. intros s Hin. specialize (Hs s Hin).
      pose proof (max_of_elem (fun s => 1 + segment_levels s) l s Hin) as Hm. cbv beta in Hm.
      eapply transmits_of_flagged; [|apply (Hs fuel (d + 1 + 1)); lia].
      intros bs. unfold AlignmentSegment_deserialize. pose proof (max_of_nonneg levels_of).
      rewrite check_rec_step; [done|]. destruct s; cbn [segment_levels] in *; [lia|].
      pose proof (max_of_nonneg levels_of options). lia.
    - unfold transmits_flagged. cbv beta. rewrite E, len_u32_small by done.
      exists true, true, (Z.of_nat (length l)), bs.
      rewrite write_flagged_int_bytes by lia. split_and!; [done|lia|lia|done|done| |].
      + rewrite length_app, Nat2Z.inj_add, Hsz. f_equal. apply flagged_bytes_ok. lia.
      + intros rest. cbn [Alignment_with_flagged_int andb]. destruct (Z.eqb_spec (Z.of_nat (length l)) 1); [lia|].
        rewrite Nat2Z.id. apply Hr. }
  destruct l as [|s [|s' l]]; [by apply Hmany| |by apply Hmany].
  rewrite Forall_singleton in Hs. unfold alignment_levels in Hf, Hd.
  destruct (Hs fuel (d + 1)) as (x & y & n & body & Hxy & Hn & E & Hb & Hsz & Hr); [lia|lia|].
  exists x, y, n, body. split_and!; try done; try lia. intros rest.
  unfold Alignment_with_flagged_int. rewrite Hxy. by rewrite (Reader_bind_step _ _ _ s rest) by apply Hr.
Qed.

Lemma segment_ok_transmits s : segment_ok s -> segment_transmits s.
Proof.
  induction s as [a|branches IH] using segment_ind'; intros Hok fuel d Hf Hd; inversion Hok as [? Ha|? Hl Hbr]; subst.
  - destruct a as [|n|].
    + exists false, true, 0, []. rewrite app_nil_r. cbn [AlignmentSegment_serialize AlignmentAtom_serialize].
      rewrite write_flagged_int_bytes by lia. split_and!; try done; lia.
    + exists false, false, n, []. rewrite app_nil_r. cbn [AlignmentSegment_serialize AlignmentAtom_serialize].
      rewrite write_flagged_int_bytes by lia. split_and!; try done; try lia; try constructor. by apply flagged_bytes_ok.
    + exists false, true, 1, []. rewrite app_nil_r. cbn [AlignmentSegment_serialize AlignmentAtom_serialize].
      rewrite write_flagged_int_bytes by lia. split_and!; try done; lia.
  - cbn [segment_levels] in Hf, Hd.
    destruct (write_all_transmits Alignment_serialize Alignment_serialized_size
      (alignment_deserialize fuel d) branches) as (bs & E & Hb & Hsz & Hr).
    + rewrite Forall_forall in IH, Hbr |- *. intros b Hin. specialize (IH b Hin). destruct (Hbr b Hin) as [Hbl Hbs].
      pose proof (max_of_elem levels_of branches b Hin) as Hm.
      apply alignment_transmits; [|done|lia|lia].
      rewrite Forall_forall in IH, Hbs |- *. intros s Hs. apply IH; [done|]. by apply Hbs.
    + unfold transmits_flagged. cbn [AlignmentSegment_serialize AlignmentSegment_serialized_size].
      fold Alignment_serialize. fold Alignment_serialized_size. rewrite E, len_u32_small by done.
      exists true, false, (Z.of_nat (length branches)), bs.
      rewrite write_flagged_int_bytes by lia. split_and!; [done|lia|lia|done|done| |].
      * rewrite length_app, Nat2Z.inj_add, Hsz. f_equal. apply flagged_bytes_ok. lia.
      * intros rest. cbn [AlignmentSegment_with_flagged_int]. rewrite Nat2Z.id.
        by rewrite (Reader_bind_step _ _ _ branches rest) by apply Hr.
Qed.

Lemma Alignment_transmits d l : alignment_ok l -> 0 <= d -> d + levels_of l <= RECURSION_LIMIT ->
  transmits Alignment_serialize Alignment_serialized_size (Alignment_deserialize d) l.
Proof.
  intros [Hl Hs] Hd Hlev. apply alignment_transmits; [|done|lia|done].
  eapply Forall_impl; [exact Hs|]. apply segment_ok_transmits.
Qed.

(** *** Aligned values *)

Definition aligned_ok (v : AlignedValue) : Prop := value_ok (av_value v) /\ alignment_ok (av_alignment v).

Lemma AlignedValue_transmits d v :
  aligned_ok v -> 0 <= d -> d + 1 + levels_of (av_alignment v) <= RECURSION_LIMIT ->
  transmits AlignedValue_serialize AlignedValue_serialized_size (AlignedValue_deserialize d) v.
Proof.
  intros [Hv Ha] Hd Hlev. pose proof (levels_of_pos (av_alignment v)) as Hpos.
  destruct (Value_transmits (d + 1) (av_value v) Hv) as (b1 & E1 & B1 & L1 & R1); [lia|].
  destruct (Alignment_transmits (d + 1) (av_alignment v) Ha) as (b2 & E2 & B2 & L2 & R2); [lia|lia|].
  exists (b1 ++ b2). unfold AlignedValue_serialize, AlignedValue_serialized_size. rewrite E1. cbn [mbind result_bind].
  rewrite E2. split_and!; [done|by apply Forall_app|rewrite length_app; lia|].
  intros rest. unfold AlignedValue_deserialize. rewrite check_rec_step by lia. rewrite <- app_assoc.
  rewrite (Reader_bind_step _ _ _ (av_value v) (b2 ++ rest)) by apply R1.
  rewrite (Reader_bind_step _ _ _ (av_alignment v) rest) by apply R2. by destruct v.
Qed.

(** ** Conversions *)

Lemma atom_to_u128_spec a : (length a <= 16)%nat -> atom_to_u128 a = Ok (from_le_bytes a).
Proof.
  intros Hl. unfold atom_to_u128. destruct (Nat.leb_spec (length a) 16); [|lia].
  rewrite from_le_bytes_app, from_le_bytes_zeros. f_equal. lia.
Qed.

Lemma atom_from_u128_value x : in_u 128 x -> from_le_bytes (atom_from_u128 x) = x.
Proof.
  intros Hx. unfold atom_from_u128. rewrite normalize_value. by apply from_to_le_bytes_small.
Qed.

Lemma atom_from_u128_short x : (length (atom_from_u128 x) <= 16)%nat.
Proof.
  unfold atom_from_u128. pose proof (normalize_length (to_le_bytes 16 x)) as Hl.
  rewrite length_to_le_bytes in Hl. lia.
Qed.

Lemma atom_uint_roundtrip w x : 0 <= w <= 128 -> in_u w x -> atom_to_uint w (atom_from_u128 x) = Ok x.
Proof.
  intros Hw Hx. unfold in_u in Hx. assert (Hp : 2 ^ w <= 2 ^ 128) by (apply Z.pow_le_mono_r; lia).
  unfold atom_to_uint. rewrite atom_to_u128_spec by apply atom_from_u128_short.
  rewrite atom_from_u128_value by (unfold in_u; lia). cbn [mbind result_bind]. unfold u_max.
  by destruct (Z.leb_spec x (2 ^ w - 1)); [|lia].
Qed.

Lemma atom_bool_roundtrip b : atom_to_bool (atom_from_bool b) = Ok b.
Proof. by destruct b. Qed.

(** Normal forms with the same value are the same. *)
Lemma atom_normal_form_unique a b :
  is_in_normal_form a = true -> is_in_normal_form b = true -> bytes_ok a -> bytes_ok b ->
  from_le_bytes a = from_le_bytes b -> a = b.
Proof.
  assert (Hz : forall l, bytes_ok l -> from_le_bytes l = 0 -> l = replicate (length l) 0).
  { induction l as [|x l IH]; intros Hl E; [done|]. apply Forall_cons in Hl as [Hx Hl].
    cbn [from_le_bytes] in E. pose proof (from_le_bytes_bound l Hl) as Hb. unfold is_byte in Hx.
    cbn [length replicate]. f_equal; [lia|]. apply IH; [done|lia]. }
  assert (Hnf : forall l, bytes_ok l -> is_in_normal_form l = true -> from_le_bytes l = 0 -> l = []).
  { intros l Hl Hn E. specialize (Hz l Hl E). destruct l as [|x l]; [done|].
    rewrite Hz in Hn. cbn [length] in Hn. unfold is_in_normal_form in Hn. by rewrite reverse_replicate in Hn. }
  assert (Htl : forall x l, l <> [] -> is_in_normal_form (x :: l) = is_in_normal_form l).
  { intros x l Hl. unfold is_in_normal_form. rewrite reverse_cons. destruct (reverse l) as [|y r] eqn:E; [|done].
    apply (f_equal reverse) in E. by rewrite reverse_involutive in E. }
  intros Ha Hb Oa Ob; revert b Ha Hb Ob; induction Oa as [|x a Hx Oa IH]; intros b Ha Hb Ob E.
  - symmetry. by apply Hnf.
  - destruct Ob as [|y b Hy Ob]; [apply Hnf; [by constructor|done|done]|].
    cbn [from_le_bytes] in E. pose proof (from_le_bytes_bound a Oa). pose proof (from_le_bytes_bound b Ob).
    unfold is_byte in *. assert (x = y) as -> by dlia. assert (Et : from_le_bytes a = from_le_bytes b) by lia. f_equal.
    destruct (decide (a = [])) as [->|Hna], (decide (b = [])) as [->|Hnb].
    + done.
    + symmetry. apply Hnf; [done| |by rewrite <- Et]. by rewrite Htl in Hb.
    + apply Hnf; [done| |by rewrite Et]. by rewrite Htl in Ha.
    + apply IH; [by rewrite Htl in Ha|by rewrite Htl in Hb|done|done].
Qed.

Lemma atom_to_uint_inv w a x : atom_to_uint w a = Ok x -> bytes_ok a ->
  0 <= x <= u_max w /\ from_le_bytes a = x /\ (length a <= 16)%nat.
Proof.
  unfold atom_to_uint. intros E Hb. destruct (Nat.leb_spec (length a) 16) as [Hl|Hl].
  - rewrite atom_to_u128_spec in E by done. cbn [mbind result_bind] in E.
    destruct (Z.leb_spec (from_le_bytes a) (u_max w)); [|done]. injection E as <-.
    pose proof (from_le_bytes_bound a Hb). split_and!; [lia|done|done|done].
  - unfold atom_to_u128 in E. by destruct (Nat.leb_spec (length a) 16); [lia|].
Qed.

(** ** Fitting an alignment *)

Section counting.
Abbreviation count := (fun (ctr : nat) (_ : AlignmentAtom) => S ctr).
Abbreviation eat_segment := (consume_segment count id).
Abbreviation eat := (consume_segments count id).

(** The variant of an option is consumed like an alignment of its own. *)
Lemma eat_option tys atom value n :
  eat_segment (SegOption tys) (atom :: value) n =
  if atom_fits (Bytes 2) atom then
    match atom_to_uint 16 atom with
    | Err _ => None
    | Ok branch =>
        match tys !! Z.to_nat branch with
        | None => None
        | Some ty => match eat ty value (S n) with
                     | None => None
                     | Some (_, m) => Some (drop (m - S n) value, m)
                     end
        end
    end
  else None.
Proof.
  cbn [consume_segment]. destruct (atom_fits (Bytes 2) atom); [|done].
  destruct (atom_to_uint 16 atom) as [branch|]; [|done]. cbv zeta.
  generalize (Z.to_nat branch). induction tys as [|ty tys IH]; intros k; [done|].
  destruct k as [|k]; [|apply IH]. cbn [lookup list_lookup].
  replace ((fix go (l : list AlignmentSegment) value acc := _) ty value (S n)) with (eat ty value (S n)); [|].
  - by destruct (eat ty value (S n)) as [[v m]|].
  - clear IH. revert value. generalize (S n) as m. induction ty as [|s ty IH]; intros m value; [done|].
    cbn [consume_segments]. destruct (eat_segment s value m) as [[v m']|]; [apply IH|done].
Qed.

(** Consuming takes a prefix, counts its atoms, and does not look further. *)
Definition eats_prefix (f : Value -> nat -> option (Value * nat)) : Prop := forall value n,
  match f value n with
  | None => True
  | Some (rest, m) => exists used, value = used ++ rest /\ m = (n + length used)%nat /\
      forall rest' n', f (used ++ rest') n' = Some (rest', (n' + length used)%nat)
  end.

Lemma eat_prefix l : Forall (fun s => eats_prefix (eat_segment s)) l -> eats_prefix (eat l).
Proof.
  induction 1 as [|s l Hs _ IH]; intros value n; cbn [consume_segments].
  - exists []. split_and!; [done|simpl; lia|]. intros. simpl. f_equal. f_equal. lia.
  - specialize (Hs value n). destruct (eat_segment s value n) as [[v m]|]; [|done].
    destruct Hs as (u1 & -> & -> & H1). specialize (IH v (n + length u1)%nat).
    destruct (eat l v (n + length u1)%nat) as [[v' m']|]; [|done].
    destruct IH as (u2 & -> & -> & H2). exists (u1 ++ u2). rewrite length_app. split_and!; [by rewrite app_assoc|lia|].
    intros rest' n'. rewrite <- app_assoc, H1, H2. do 2 f_equal. lia.
Qed.

Lemma eat_segment_prefix s : eats_prefix (eat_segment s).
Proof.
  induction s as [a|tys IH] using segment_ind'; intros value n.
  - destruct value as [|v value]; [done|]. cbn [consume_segment]. destruct (atom_fits a v) eqn:E; [|done].
    exists [v]. split_and!; [done|simpl; lia|]. intros rest' n'. cbn [app]. rewrite E. f_equal. f_equal. simpl. lia.
  - destruct value as [|v value]; [done|]. rewrite eat_option. destruct (atom_fits (Bytes 2) v) eqn:Ef; [|done].
    destruct (atom_to_uint 16 v) as [branch|] eqn:Eu; [|done].
    destruct (tys !! Z.to_nat branch) as [ty|] eqn:Et; [|done].
    assert (Hty : eats_prefix (eat ty)).
    { apply eat_prefix. rewrite Forall_lookup in IH. by eapply IH. }
    pose proof (Hty value (S n)) as Hv. destruct (eat ty value (S n)) as [[r m]|]; [|done].
    destruct Hv as (used & -> & -> & Hx). exists (v :: used).
    split_and!.
    + rewrite drop_app_length'; [done|]. lia.
    + simpl. lia.
    + intros rest' n'. cbn [app]. rewrite eat_option, Ef, Eu, Et, Hx.
      rewrite drop_app_length' by lia. f_equal. f_equal. simpl. lia.
Qed.

Lemma eat_app l1 l2 v n :
  eat (l1 ++ l2) v n = match eat l1 v n with Some (v', n') => eat l2 v' n' | None => None end.
Proof.
  revert v n; induction l1 as [|s l1 IH]; intros v n; [done|]. cbn [app consume_segments].
  by destruct (eat_segment s v n) as [[v' n']|]; [apply IH|].
Qed.

Lemma fits_eat l v : fits l v = true <-> eat l v 0%nat = Some ([], length v).
Proof.
  pose proof (eat_prefix l (Forall_true _ l eat_segment_prefix) v 0%nat) as Hp.
  unfold fits, consume, consume_count, consume_internal.
  destruct (eat l v 0%nat) as [[r m]|]; [|by split]. destruct Hp as (used & -> & -> & _). cbn [fmap option_fmap option_map snd].
  cbn [mbind option_bind]. rewrite drop_app_length' by lia. split.
  - destruct r; [|done]. intros _. by rewrite app_nil_r.
  - by intros [= -> _].
Qed.
End counting.

(** Concatenation keeps values aligned. *)
Lemma fits_app l1 l2 v1 v2 : fits l1 v1 = true -> fits l2 v2 = true -> fits (l1 ++ l2) (v1 ++ v2) = true.
Proof.
  rewrite !fits_eat. intros H1 H2. rewrite eat_app.
  pose proof (eat_prefix l1 (Forall_true _ l1 eat_segment_prefix) v1 0%nat) as P1. rewrite H1 in P1.
  destruct P1 as (u1 & -> & _ & X1). rewrite app_nil_r in *. rewrite X1.
  pose proof (eat_prefix l2 (Forall_true _ l2 eat_segment_prefix) v2 0%nat) as P2. rewrite H2 in P2.
  destruct P2 as (u2 & -> & _ & X2). rewrite app_nil_r in *. specialize (X2 [] (0 + length u1)%nat).
  rewrite app_nil_r in X2. rewrite X2. do 2 f_equal. rewrite length_app. lia.
Qed.

Definition aligned (v : AlignedValue) : Prop := fits (av_alignment v) (av_value v) = true.


Lemma aligned_concat l : Forall aligned l -> aligned (AlignedValue_concat l).
Proof. induction 1 as [|v l Hv _ IH]; [done|]. by apply fits_app. Qed.

(** A normal form is as short as its value allows. *)
Lemma normal_form_length a n : is_in_normal_form a = true -> bytes_ok a ->
  from_le_bytes a < 256 ^ Z.of_nat n -> (length a <= n)%nat.
Proof.
  destruct (reverse a) as [|x r] eqn:E; intros Hn Hb Hv.
  - apply (f_equal reverse) in E. rewrite reverse_involutive in E. subst. simpl. lia.
  - unfold is_in_normal_form in Hn. rewrite E in Hn. apply (f_equal reverse) in E.
    rewrite reverse_involutive, reverse_cons in E. subst a. apply Forall_app in Hb as [Hb Hx].
    inversion_clear Hx as [|? ? Hx0 _]. unfold is_byte in Hx0. rewrite from_le_bytes_app in Hv.
    pose proof (from_le_bytes_bound _ Hb) as Hr. simpl in Hv. rewrite length_app. simpl.
    assert (x <> 0) by (by intros ->).
    destruct (Nat.le_gt_cases (length (reverse r) + 1) n) as [?|Hgt]; [done|].
    assert (256 ^ Z.of_nat n <= 256 ^ Z.of_nat (length (reverse r))) by (apply Z.pow_le_mono_r; lia).
    assert (256 ^ Z.of_nat (length (reverse r)) * 1 <= 256 ^ Z.of_nat (length (reverse r)) * x)
      by (apply Z.mul_le_mono_nonneg_l; lia). lia.
Qed.

Lemma fits_bytes n a : Z.of_nat (length a) <= n < 2 ^ 32 -> is_in_normal_form a = true ->
  fits [SegAtom (Bytes n)] [a] = true.
Proof.
  intros Hl Hn. assert (Hf : atom_fits (Bytes n) a = true).
  { cbn [atom_fits]. rewrite Hn. unfold wrap. rewrite Z.mod_small by lia. destruct (Z.leb_spec (Z.of_nat (length a)) n); [done|lia]. }
  apply fits_eat. cbn [consume_segments consume_segment]. by rewrite Hf.
Qed.

Lemma aligned_uint n x : 0 <= n <= 16 -> in_u (8 * n) x -> aligned (av_of_uint n x).
Proof.
  intros Hn Hx. assert (2 ^ (8 * n) <= 2 ^ 128) by (apply Z.pow_le_mono_r; lia). unfold in_u in Hx.
  unfold aligned. cbn [av_of_uint av_alignment av_value]. apply fits_bytes.
  - assert (length (atom_from_u128 x) <= Z.to_nat n)%nat; [|lia].
    apply normal_form_length.
    + apply normalize_nf.
    + apply normalize_bytes, to_le_bytes_ok.
    + rewrite atom_from_u128_value by (unfold in_u; lia). rewrite Z2Nat.id by lia.
      change 256 with (2 ^ 8). rewrite <- Z.pow_mul_r by lia. lia.
  - apply normalize_nf.
Qed.

Lemma aligned_bool b : aligned (av_of_bool b).
Proof. by destruct b. Qed.

Lemma aligned_hash h : length h = PERSISTENT_HASH_BYTES -> aligned (av_of_hash h).
Proof.
  intros Hl. apply fits_bytes; [|apply normalize_nf]. pose proof (normalize_length h) as Hn.
  unfold atom_from_hash. rewrite Hl in Hn. unfold PERSISTENT_HASH_BYTES in *. lia.
Qed.

Lemma fits_compress a : fits [SegAtom Compress] [a] = true.
Proof. by apply fits_eat. Qed.

(** The values that the types have: integers in the range of their width, hashes
    of 32 bytes, arrays of fewer than [2^32] bytes. *)
Fixpoint rust_ok (r : Rust) : Prop :=
  match r with
  | RUint bytes x => 0 <= bytes <= 16 /\ in_u (8 * bytes) x
  | RBool _ | RBytes _ => True
  | RHash h => length h = PERSISTENT_HASH_BYTES
  | RArray bytes => Z.of_nat (length bytes) < 2 ^ 32
  | RTuple fields => foldr (fun f P => rust_ok f /\ P) True fields
  | ROption _ payload => rust_ok payload
  end.

Lemma rust_fits : forall r, rust_ok r -> fits (rust_alignment r) (rust_value r) = true.
Proof.
  fix IH 1. intros [n x|b|h|bs|bs|fields|is_some payload]; cbn [rust_ok rust_alignment rust_value]; intros Hr.
  - destruct Hr. by apply aligned_uint.
  - apply aligned_bool.
  - by apply aligned_hash.
  - apply fits_bytes; [|apply normalize_nf]. pose proof (normalize_length bs). unfold wrap. rewrite Z.mod_small by lia. lia.
  - apply fits_compress.
  - induction fields as [|f fields IHf]; [done|]. destruct Hr as [Hf Hr]. cbn [flat_map]. apply fits_app; [by apply IH|by apply IHf].
  - apply (fits_app [SegAtom (Bytes 1)] _ [atom_from_bool is_some]); [apply aligned_bool|by apply IH].
Qed.

Lemma atom_hash_roundtrip h : length h = PERSISTENT_HASH_BYTES -> atom_to_hash (atom_from_hash h) = Ok h.
Proof.
  intros Hl. unfold atom_to_hash, atom_from_hash. pose proof (normalize_length h) as Hn.
  destruct (Nat.leb_spec (length (normalize h)) PERSISTENT_HASH_BYTES); [|lia]. f_equal.
  destruct (normalize_spec h) as (k & E & _). rewrite E at 3. f_equal. f_equal.
  apply (f_equal length) in E. rewrite length_app, length_replicate in E. lia.
Qed.

(** Aligned values are compared as data, and are keys of maps. *)
#[export] Instance AlignmentAtom_eq_dec : EqDecision AlignmentAtom.
Proof. solve_decision. Defined.

#[export] Instance AlignmentAtom_countable : Countable AlignmentAtom.
Proof.
  apply (inj_countable' (fun a => match a with Compress => None | Field => Some None | Bytes n => Some (Some n) end)
    (fun x => match x with None => Compress | Some None => Field | Some (Some n) => Bytes n end)).
  by intros [].
Defined.

Fixpoint segment_tree (s : AlignmentSegment) : gen_tree AlignmentAtom :=
  match s with
  | SegAtom a => GenLeaf a
  | SegOption l => GenNode 0 ((fun b => GenNode 0 (segment_tree <$> b)) <$> l)
  end.

Fixpoint tree_segment (t : gen_tree AlignmentAtom) : AlignmentSegment :=
  match t with
  | GenLeaf a => SegAtom a
  | GenNode _ l =>
      SegOption ((fun b => match b with GenLeaf _ => [] | GenNode _ b => tree_segment <$> b end) <$> l)
  end.

Lemma tree_segment_tree s : tree_segment (segment_tree s) = s.
Proof.
  induction s as [a|l IH] using segment_ind'; [done|]. cbn [segment_tree tree_segment]. f_equal.
  rewrite <- list_fmap_compose. rewrite <- (list_fmap_id l) at 2. apply list_fmap_ext. intros i b Hb.
  rewrite Forall_lookup in IH. specialize (IH i b Hb). cbn. rewrite <- list_fmap_compose.
  rewrite <- (list_fmap_id b) at 2. apply list_fmap_ext. intros j s Hs. rewrite Forall_lookup in IH. by eapply IH.
Qed.

#[export] Instance AlignmentSegment_eq_dec : EqDecision AlignmentSegment.
Proof.
  intros s t. refine (cast_if (decide (segment_tree s = segment_tree t))).
  - abstract (rewrite <- (tree_segment_tree s), <- (tree_segment_tree t); congruence).
  - abstract congruence.
Defined.

#[export] Instance AlignmentSegment_countable : Countable AlignmentSegment.
Proof. apply (inj_countable' segment_tree tree_segment tree_segment_tree). Defined.

#[export] Instance AlignedValue_eq_dec : EqDecision AlignedValue.
Proof. solve_decision. Defined.

#[export] Instance AlignedValue_countable : Countable AlignedValue.
Proof.
  apply (inj_countable' (fun v => (av_value v, av_alignment v)) (fun p => mkAlignedValue p.1 p.2)). by intros [].
Defined.

(** What was written is well formed again when it is read as an aligned value:
    reading does not check that the value fits. *)
Lemma deserialize_unaligned :
  let bs := [Z.lor 64 1; 40; 0] in
  exists v, AlignedValue_deserialize 0 bs = Ok (v, []) /\ fits (av_alignment v) (av_value v) = false.
Proof. eexists. split; [vm_compute; reflexivity|reflexivity]. Qed.

(** The default of an alignment with an option has no atom for the variant. *)
Lemma default_option_unaligned :
  let l := [SegOption [[SegAtom Field]]] in fits l (Alignment_default l) = false.
Proof. reflexivity. Qed.

(** Two encodings of the value with the single atom [5]. *)
Lemma value_two_encodings :
  Value_deserialize 0 [5] = Ok ([[5]], []) /\ Value_deserialize 0 [129; 5] = Ok ([[5]], []) /\
  Value_deserialize 0 [65; 5] = Ok ([[5]], []).
Proof. split_and!; reflexivity. Qed.

(** An aligned value whose atoms are in normal form and whose lengths fit 19
    bits is written, with the announced size, and read back with the rest of the
    input left over, at every depth the recursion limit allows; for the
    alignment [d + 1 + levels] calls are nested. *)
Theorem fab_value_roundtrip d v :
  aligned_ok v -> 0 <= d -> d + 1 + alignment_levels segment_levels (av_alignment v) <= RECURSION_LIMIT ->
  exists bs, AlignedValue_serialize v = Ok bs /\ bytes_ok bs /\
    Z.of_nat (length bs) = AlignedValue_serialized_size v /\
    forall rest, AlignedValue_deserialize d (bs ++ rest) = Ok (v, rest).
Proof. apply AlignedValue_transmits. Qed.

(** C40. Conversions give aligned values.  [AlignedValue::from] does not panic for
    integers of up to 16 bytes in the range of their width, booleans, hashes of 32
    bytes, arrays of fewer than [2^32] bytes, vectors of bytes, and tuples and
    options of such: the value fits the alignment of its type.
    [AlignedValue::new] returns only aligned values, and every one that fits, and
    concatenations of aligned values are aligned.  (Not the defaults of
    alignments: [default_option_unaligned].) *)
Theorem fab_aligned :
  (forall r, rust_ok r -> @AlignedValue_from Empty_set (rust_alignment r) (rust_value r) = Ret (mkAlignedValue (rust_value r) (rust_alignment r))) /\
  (forall l, Forall aligned l -> aligned (AlignedValue_concat l)) /\
  (forall value alignment,
     match AlignedValue_new value alignment with
     | Some v => aligned v /\ av_value v = value /\ av_alignment v = alignment
     | None => fits alignment value = false
     end).
Proof.
  split_and!; [|apply aligned_concat|].
  - intros r Hr. unfold AlignedValue_from, AlignedValue_new. by rewrite rust_fits.
  - intros value alignment. unfold AlignedValue_new, aligned. by destruct (fits alignment value) eqn:E.
Qed.

(** Integers as atoms: encoding then decoding at a width gives the integer
    exactly when it fits; an atom in normal form that decodes is the encoding of
    what it decodes to, so equal integers have equal atoms. *)
Theorem fab_integers w :
  0 <= w <= 128 ->
  (forall x, in_u w x -> atom_to_uint w (atom_from_u128 x) = Ok x) /\
  (forall x, in_u 128 x -> ~ in_u w x -> atom_to_uint w (atom_from_u128 x) = Err tt) /\
  (forall a x, bytes_ok a -> is_in_normal_form a = true -> atom_to_uint w a = Ok x ->
    in_u w x /\ a = atom_from_u128 x).
Proof.
  intros Hw. split_and!; [by intros; apply atom_uint_roundtrip| |].
  - intros x Hx Hn. unfold atom_to_uint. rewrite atom_to_u128_spec by apply atom_from_u128_short.
    rewrite atom_from_u128_value by done. cbn [mbind result_bind]. unfold u_max, in_u in *.
    by destruct (Z.leb_spec x (2 ^ w - 1)); [lia|].
  - intros a x Hb Hn Hx. apply atom_to_uint_inv in Hx as (Hx & E & _); [|done]. unfold u_max in Hx.
    assert (2 ^ w <= 2 ^ 128) by (apply Z.pow_le_mono_r; lia). unfold in_u. split; [lia|].
    apply atom_normal_form_unique; [done|apply normalize_nf|done|apply normalize_bytes, to_le_bytes_ok|].
    rewrite atom_from_u128_value by (unfold in_u; lia). done.
Qed.

Lemma fab_value_roundtrip_witness :
  let v := mkAlignedValue [[5]; [1; 2; 3]; [1]; []] [SegAtom (Bytes 1); SegAtom Field; SegOption [[]; [SegAtom Compress]]] in
  exists bs, AlignedValue_serialize v = Ok bs /\ bytes_ok bs /\
    Z.of_nat (length bs) = AlignedValue_serialized_size v /\
    forall rest, AlignedValue_deserialize 0 (bs ++ rest) = Ok (v, rest).
Proof.
  apply fab_value_roundtrip; [|lia|vm_compute; discriminate].
  assert (Hl : forall A (l : list A), (length l < 10)%nat -> Z.of_nat (length l) < 2 ^ 19) by (intros; lia).
  split; split; cbn; [|lia|lia|].
  - repeat apply Forall_cons_2; try apply Forall_nil_2; split_and!; try done; unfold is_byte;
      try (apply Hl; simpl; lia); repeat apply Forall_cons_2; try apply Forall_nil_2; lia.
  - repeat apply Forall_cons_2; try apply Forall_nil_2; constructor; try done; try lia; try (apply Hl; simpl; lia).
    repeat apply Forall_cons_2; try apply Forall_nil_2; split; try (apply Hl; simpl; lia);
      repeat apply Forall_cons_2; try apply Forall_nil_2; by constructor.
Defined.

Lemma fab_integers_witness :
  atom_to_uint 16 (atom_from_u128 513) = Ok 513 /\ atom_to_uint 8 (atom_from_u128 513) = Err tt.
Proof.
  split.
  - apply (fab_integers 16); [lia|]. unfold in_u. lia.
  - apply (fab_integers 8); [lia|unfold in_u; lia|unfold in_u; lia].
Defined.

Lemma fab_aligned_witness :
  let r := RTuple [RUint 2 513; ROption false (RArray [1; 2; 0]); RBytes [7]] in
  exists v, @AlignedValue_from Empty_set (rust_alignment r) (rust_value r) = Ret v /\ av_value v = [[1; 2]; []; [1; 2]; [7]].
Proof.
  cbv zeta. eexists. split; [apply fab_aligned; cbn; unfold in_u; lia|reflexivity].
Defined.
