(* ===== verification/OnchainVm.v ===== *)
(** * The on-chain virtual machine ([onchain-vm/src], [onchain-state/src/state.rs])

    A stack machine over state values.  [StateValue] with its invariant and
    sizes is from [state.rs]; the instructions, the cache of the initial stack's
    parts and the loop are from [vm.rs] and [ops.rs], the modes of reads from
    [result_mode.rs].  The top of the stack is the head of the list (the source
    keeps it at the end of a vector).  A map is a [gmap], a Merkle tree the
    model of [MerkleTree.v] with byte strings as leaves.  Error messages are
    left out.  Parameters of the model are what the storage arena says about the
    serialized nodes of a value, and the curve library's field elements. *)

From S2P Require Import Prelude Serialize MerkleTree Cost VmCost Fab.
From stdpp Require Import gmap sorting.

Local Open Scope Z_scope.

Declare Scope cost_scope.
Delimit Scope cost_scope with cost.
Notation "a + b" := (CostDuration_add a b) : cost_scope.
Notation "a * k" := (CostDuration_mul a k%Z) : cost_scope.

(** ** State values *)

Section StateValue.
Context {Fr : Type}.

Abbreviation Tree := (@MerkleTreeNode (list Z) Fr unit).

Inductive StateValue :=
| SNull
| SCell (value : AlignedValue)
| SMap (map : gmap AlignedValue StateValue)
| SArray (arr : list StateValue)
| SBmt (tree : Tree).

Definition CELL_BOUND : Z := 2 ^ 15.

Definition log_size (self : StateValue) : Z :=
  match self with
  | SNull => 0
  | SCell a => Z.log2_up (AlignedValue_serialized_size a)
  | SMap m => Z.log2_up (Z.of_nat (size m))
  | SArray a => Z.log2_up (Z.of_nat (length a))
  | SBmt t => Z.of_nat (node_height t)
  end.

(** ** Values on the stack *)

Inductive ValueStrength := Weak | Strong.

Definition strength_and (a b : ValueStrength) : ValueStrength :=
  match a, b with Strong, Strong => Strong | _, _ => Weak end.

Record VmValue := mkVmValue { strength : ValueStrength; vm_value : StateValue }.

Inductive OnchainProgramError :=
| RanOffStack
| RanPastProgramEnd
| ExpectedCell (v : StateValue)
| Decode (e : InvalidBuiltinDecode)
| ArithmeticOverflow
| TooLongForEqual
| TypeError
| OutOfGas
| BoundsExceeded
| LogBoundExceeded
| InvalidArgs
| MissingKey
| CacheMiss
| AttemptedArrayDelete
| ReadMismatch (expected actual : AlignedValue)
| CellBoundExceeded
| StackOverflow
| MerkleTreeError (e : InvalidUpdate).

Definition as_cell (self : StateValue) : outcome OnchainProgramError AlignedValue :=
  match self with
  | SCell value => Ret value
  | _ => Fail (ExpectedCell self)
  end.

(** [?] on a decoding. *)
Definition decoded {T} (r : result InvalidBuiltinDecode T) : outcome OnchainProgramError T :=
  match r with Ok x => Ret x | Err e => Fail (Decode e) end.

Definition updated {T} (r : outcome InvalidUpdate T) : outcome OnchainProgramError T :=
  match r with Ret t => Ret t | Fail e => Fail (MerkleTreeError e) | Panic => Panic end.

(** ** Arithmetic and comparison of values *)

Definition value_to_u64 (v : Value) : outcome OnchainProgramError Z := decoded (value_to (atom_to_uint 64) v).
Definition value_to_bool (v : Value) : outcome OnchainProgramError bool := decoded (value_to atom_to_bool v).

Definition vm_add (a : Value) (b : outcome OnchainProgramError Z) : outcome OnchainProgramError AlignedValue :=
  a ← value_to_u64 a;
  b ← b;
  match checked_add 64 a b with
  | Some c => Ret (av_of_uint 8 c)
  | None => Fail ArithmeticOverflow
  end.

(** The second operand is decoded before the error of the first is returned. *)
Definition vm_sub (a : Value) (b : outcome OnchainProgramError Z) : outcome OnchainProgramError AlignedValue :=
  b ← b;
  a ← value_to_u64 a;
  match checked_sub a b with
  | Some c => Ret (av_of_uint 8 c)
  | None => Fail ArithmeticOverflow
  end.

Definition vm_lt (a b : Value) : outcome OnchainProgramError AlignedValue :=
  a ← value_to_u64 a;
  b ← value_to_u64 b;
  Ret (av_of_bool (a <? b)).

Definition vm_concat (a b : AlignedValue) (bound : Z) : outcome OnchainProgramError AlignedValue :=
  if AlignedValue_serialized_size a + AlignedValue_serialized_size b <=? bound then
    match AlignedValue_new (av_value a ++ av_value b) (av_alignment a ++ av_alignment b) with
    | Some v => Ret v
    | None => Fail TypeError
    end
  else Fail BoundsExceeded.

Definition eq_valid_input (x : AlignedValue) : bool := AlignedValue_serialized_size x <=? 64.

Definition vm_eq (a b : AlignedValue) : outcome OnchainProgramError AlignedValue :=
  match eq_valid_input a, eq_valid_input b with
  | false, false => Fail TooLongForEqual
  | false, true | true, false => Ret (av_of_bool false)
  | true, true => Ret (av_of_bool (bool_decide (a = b)))
  end.

(** ** The cache *)

(** Either the whole structure is cached, or the parts of it under some keys. *)
Inductive InnerCache :=
| Whole
| Parts (map : gmap AlignedValue InnerCache).

Abbreviation Cache := (list InnerCache) (only parsing).

(** A position of the initial stack and the keys from there; [None] for values
    made by the program. *)
Definition CacheKey : Type := option (nat * list AlignedValue).

Definition push_key (self : CacheKey) (key : AlignedValue) : CacheKey :=
  match self with
  | None => None
  | Some (idx, path) => Some (idx, path ++ [key])
  end.

(** The walk along the path: what is missing is added. *)
Fixpoint visit_path (path : list AlignedValue) (cache : InnerCache) : InnerCache * bool :=
  match path with
  | [] => (cache, true)
  | key :: path' =>
      match cache with
      | Whole => (cache, true)
      | Parts map =>
          match map !! key with
          | Some inner => let '(inner', found) := visit_path path' inner in
                          (Parts (<[key := inner']> map), found)
          | None => let '(inner', _) := visit_path path' (Parts ∅) in
                    (Parts (<[key := inner']> map), false)
          end
      end
  end.

(** [Cache::visit]; the position is compared with the length, then indexed. *)
Definition visit (key : CacheKey) (self : Cache) : outcome OnchainProgramError (Cache * bool) :=
  match key with
  | None => Ret (self, true)
  | Some (n, path) =>
      if (length self <? n)%nat then Ret (self, false)
      else
        match self !! n with
        | None => Panic
        | Some inner => let '(inner', found) := visit_path path inner in
                        Ret (<[n := inner']> self, found)
        end
  end.

(** ** Instructions *)

Inductive Key := KValue (v : AlignedValue) | KStack.

Definition is_stack (key : Key) : bool := match key with KStack => true | KValue _ => false end.

Inductive Op {ReadResult : Type} :=
| Noop (n : Z)
| Lt
| Eq
| Type_
| Size
| New
| And
| Or
| Neg
| Log
| Root
| Pop
| Popeq (cached : bool) (result : ReadResult)
| Addi (immediate : Z)
| Subi (immediate : Z)
| Push (storage : bool) (value : StateValue)
| Branch (skip : Z)
| Jmp (skip : Z)
| Add
| Sub
| Concat (cached : bool) (n : Z)
| Member
| Rem (cached : bool)
| Dup (n : Z)
| Swap (n : Z)
| Idx (cached push_path : bool) (path : list Key)
| Ins (cached : bool) (n : Z)
| Ckpt.
Arguments Op : clear implicits.

(** How many entries of the stack an instruction needs. *)
Definition stack_req {R} (op : Op R) : Z :=
  match op with
  | Noop _ | Push _ _ | Jmp _ | Ckpt => 0
  | Type_ | Size | New | Neg | Log | Root | Pop | Popeq _ _ | Addi _ | Subi _ | Branch _ => 1
  | Lt | Eq | And | Or | Add | Sub | Concat _ _ | Member | Rem _ => 2
  | Dup n => n + 1
  | Swap n => n + 2
  | Idx _ _ path => Z.of_nat (length (filter is_stack path)) + 1
  | Ins _ n => n * 2 + 1
  end.

(** *** Events *)

Inductive LogEventType :=
| ShieldedSpend | ShieldedReceive | ShieldedMint | ShieldedBurn
| UnshieldedSpend | UnshieldedReceive | UnshieldedMint | UnshieldedBurn
| Paused | Unpaused | Misc.

Definition LogEventType_try_from (value : Z) : option LogEventType :=
  [ShieldedSpend; ShieldedReceive; ShieldedMint; ShieldedBurn; UnshieldedSpend; UnshieldedReceive;
   UnshieldedMint; UnshieldedBurn; Paused; Unpaused; Misc] !! Z.to_nat value.

Record VersionedLogItem := mkLogItem {
  log_version : Z;
  log_event_type : LogEventType;
  log_data : StateValue
}.

Definition ok_or_none {E T} (r : result E T) : option T := match r with Ok x => Some x | Err _ => None end.

Definition cell_opt (v : StateValue) : option AlignedValue := match v with SCell c => Some c | _ => None end.

Definition try_decode_event (value : StateValue) : option VersionedLogItem :=
  match value with
  | SArray [v0; v1; data] =>
      version_raw ← cell_opt v0;
      version ← ok_or_none (value_to (atom_to_uint 32) (av_value version_raw));
      event_type_raw ← cell_opt v1;
      event_type ← (ok_or_none (value_to (atom_to_uint 8) (av_value event_type_raw)) ≫= LogEventType_try_from);
      Some (mkLogItem version event_type data)
  | _ => None
  end.

(** ** The machine *)

Record machine := mkMachine {
  stack : list (VmValue * CacheKey);
  cache : Cache;
  gas : RunningCost
}.

Definition VM (A : Type) : Type := machine -> outcome OnchainProgramError (A * machine).

#[global] Instance VM_ret : MRet VM := fun _ a m => Ret (a, m).
#[global] Instance VM_bind : MBind VM := fun _ _ k c m =>
  match c m with Ret (a, m') => k a m' | Fail e => Fail e | Panic => Panic end.

Definition lift {A} (o : outcome OnchainProgramError A) : VM A := fun m =>
  match o with Ret a => Ret (a, m) | Fail e => Fail e | Panic => Panic end.
Definition fail {A} (e : OnchainProgramError) : VM A := lift (Fail e).

Definition set_stack (s : list (VmValue * CacheKey)) (m : machine) : machine := mkMachine s (cache m) (gas m).

Definition pop : VM (VmValue * CacheKey) := fun m =>
  match stack m with x :: s => Ret (x, set_stack s m) | [] => Panic end.

Definition push (x : VmValue * CacheKey) : VM unit := fun m => Ret (tt, set_stack (x :: stack m) m).

(** A result of the program: strong, and not linked to the cache. *)
Definition push_result (v : AlignedValue) : VM unit := push (mkVmValue Strong (SCell v), None).

Definition pop_cell : VM AlignedValue := '(v, _) ← pop; lift (as_cell (vm_value v)).

Definition visit_cache (key : CacheKey) : VM bool := fun m =>
  match visit key (cache m) with
  | Ret (c, found) => Ret (found, mkMachine (stack m) c (gas m))
  | Fail e => Fail e
  | Panic => Panic
  end.

End StateValue.

Arguments StateValue Fr : clear implicits.
Arguments VmValue Fr : clear implicits.
Arguments Op Fr ReadResult : clear implicits.
Arguments machine Fr : clear implicits.
Arguments VM Fr A : clear implicits.
Arguments VersionedLogItem Fr : clear implicits.
Arguments OnchainProgramError Fr : clear implicits.

(** ** Executing instructions *)

Section execute.
Context {Fr : Type} (fr_zero : Fr) (transient_hash2 : Fr -> Fr -> Fr) (degrade_to_transient : list Z -> Fr).
(** The bytes of a field element, and how many there are. *)
Context (fr_as_le_bytes : Fr -> list Z) (FR_BYTES : Z).
(** The arena: the data lengths of the nodes a value is stored as, and the size
    of their serialization. *)
Context (node_data_lens : StateValue Fr -> list Z) (StateValue_serialized_size : StateValue Fr -> Z).
Context (cost_model : CostModel) (gas_limit : option RunningCost).

Local Open Scope cost_scope.

Implicit Types op : Op Fr unit.

Definition av_of_digest (d : Fr) : AlignedValue :=
  mkAlignedValue [normalize (fr_as_le_bytes d)] [SegAtom Field].

(** [Sp::serialize_to_node_list_bounded]: every node is charged a hash and its
    data against the limit. *)
Fixpoint charge_nodes (nodes : list Z) (raw_size_limit : Z) : option Z :=
  match nodes with
  | [] => Some raw_size_limit
  | len :: nodes' =>
      rest ← checked_sub raw_size_limit (PERSISTENT_HASH_SIZE + len)%Z;
      charge_nodes nodes' rest
  end.

Definition serialize_to_node_list_bounded (v : StateValue Fr) (limit : Z) : option (list Z) :=
  _ ← charge_nodes (node_data_lens v) limit; Some (node_data_lens v).

Definition MAX_LOG_SIZE : Z := 2 ^ 19.
Definition MAX_LOG_EMITTED : Z := 2 ^ 10.

Definition decode_event (value : StateValue Fr) : option (VersionedLogItem Fr) :=
  let candidate := default (mkLogItem 0 Misc value) (try_decode_event value) in
  _ ← serialize_to_node_list_bounded (log_data candidate) MAX_LOG_EMITTED;
  Some candidate.

(** *** Gas *)

Definition exceeds (g limit : RunningCost) : bool :=
  (rc_compute_time limit <? rc_compute_time g)%Z || (rc_read_time limit <? rc_read_time g)%Z.

Definition incr_gas_full (by_ : RunningCost) : VM Fr unit := fun m =>
  let g := RunningCost_add (gas m) by_ in
  match gas_limit with
  | Some limit => if exceeds g limit then Fail OutOfGas else Ret (tt, mkMachine (stack m) (cache m) g)
  | None => Ret (tt, mkMachine (stack m) (cache m) g)
  end.

Definition incr_gas (by_ : CostDuration) : VM Fr unit := incr_gas_full (RunningCost_compute by_).

Abbreviation cm f := (f cost_model) (only parsing).

(** *** Reading, inserting, removing *)

(** [idx]: an entry of a container. *)
Definition idx (value : VmValue Fr * CacheKey) (key : AlignedValue) (cached : bool)
  : VM Fr (VmValue Fr * CacheKey) :=
  let cache_key := push_key (snd value) key in
  found ← visit_cache cache_key;
  let cache_miss := negb found in
  match vm_value (fst value) with
  | SArray arr =>
      i ← lift (decoded (value_to (atom_to_uint 8) (av_value key)));
      match arr !! Z.to_nat i with
      | None => fail TypeError
      | Some res =>
          if cached && cache_miss then fail CacheMiss
          else mret (mkVmValue (strength (fst value)) res, cache_key)
      end
  | SMap map =>
      let res := default SNull (map !! key) in
      if cached && cache_miss then fail CacheMiss
      else mret (mkVmValue (strength (fst value)) res, cache_key)
  | SBmt tree =>
      k ← lift (value_to_u64 (av_value key));
      if (pow2 (node_height tree) <=? k)%Z then fail MissingKey
      else
        let v := match node_index tree k with
                 | Some (hash, _) => SCell (av_of_hash hash)
                 | None => SNull
                 end in
        mret (mkVmValue (strength (fst value)) v, cache_key)
  | _ => fail TypeError
  end.

Abbreviation update_hash t i leaf := (@try_update_hash (list Z) Fr unit t i leaf tt).
Abbreviation rehash_tree := (rehash fr_zero transient_hash2 degrade_to_transient).

(** A leaf is replaced and the tree is hashed again. *)
Definition update_tree (t : @MerkleTreeNode (list Z) Fr unit) (i : Z) (leaf : list Z)
  : outcome (OnchainProgramError Fr) (StateValue Fr) :=
  t ← updated (update_hash t i leaf);
  t ← updated (rehash_tree t);
  Ret (SBmt t).

Definition HashOutput_default : list Z := replicate PERSISTENT_HASH_BYTES 0.

Definition remove_entry (container : StateValue Fr) (key : AlignedValue)
  : outcome (OnchainProgramError Fr) (StateValue Fr) :=
  match container with
  | SMap m => Ret (SMap (delete key m))
  | SBmt t => i ← value_to_u64 (av_value key); update_tree t i HashOutput_default
  | _ => Fail TypeError
  end.

Definition insert_entry (container : StateValue Fr) (key : AlignedValue) (value : StateValue Fr)
  : outcome (OnchainProgramError Fr) (StateValue Fr) :=
  match container with
  | SArray arr =>
      i ← decoded (value_to (atom_to_uint 8) (av_value key));
      if (Z.to_nat i <? length arr)%nat then Ret (SArray (<[Z.to_nat i := value]> arr)) else Fail TypeError
  | SMap m => Ret (SMap (<[key := value]> m))
  | SBmt t =>
      i ← value_to_u64 (av_value key);
      if (i <? pow2 (node_height t))%Z then
        match value with
        | SCell c =>
            match value_to atom_to_hash (av_value c) with
            | Ok hash => update_tree t i hash
            | Err _ => Fail TypeError
            end
        | _ => Fail TypeError
        end
      else Fail BoundsExceeded
  | _ => Fail TypeError
  end.

(** *** Costs by the kind of value *)

Definition type_info (v : StateValue Fr) : Z * CostDuration :=
  match v with
  | SCell _ => (0, cm cm_type_cell)
  | SNull => (1, cm cm_type_null)
  | SMap _ => (2, cm cm_type_map)
  | SArray a => (wrap 8 (3 + wrap 8 (wrap 8 (Z.of_nat (length a)) * 8)), cm cm_type_array)%Z
  | SBmt t => (wrap 8 (4 + wrap 8 (sat_sub (Z.of_nat (node_height t)) 1 * 8)), cm cm_type_bmt)%Z
  end.

Definition log_cost (v : StateValue Fr) (size : Z) : CostDuration :=
  match v with
  | SNull => cm cm_log_null_constant + cm cm_log_null_coeff_value_size * size
  | SCell _ => cm cm_log_cell_constant + cm cm_log_cell_coeff_value_size * size
  | SMap _ => cm cm_log_map_constant + cm cm_log_map_coeff_value_size * size
  | SBmt _ => cm cm_log_bmt_constant + cm cm_log_bmt_coeff_value_size * size
  | SArray _ => cm cm_log_array_constant + cm cm_log_array_coeff_value_size * size
  end.

Definition push_cost (storage : bool) (v : StateValue Fr) : CostDuration :=
  match v with
  | SNull => if storage then cm cm_pushs_null else cm cm_push_null
  | SCell _ => if storage then cm cm_pushs_cell else cm cm_push_cell
  | SMap _ => if storage then cm cm_pushs_map else cm cm_push_map
  | SBmt _ => if storage then cm cm_pushs_bmt else cm cm_push_bmt
  | SArray _ => if storage then cm cm_pushs_array else cm cm_push_array
  end.

Definition rem_cost (container : StateValue Fr) (key : AlignedValue) : CostDuration :=
  match container with
  | SMap _ => cm cm_rem_map_constant + cm cm_rem_map_coeff_key_size * AlignedValue_serialized_size key
              + cm cm_rem_map_coeff_container_log_size * log_size container
  | SBmt _ => cm cm_rem_bmt_constant + cm cm_rem_bmt_coeff_container_log_size * log_size container
  | _ => CD_ZERO
  end.

Definition rem_read (container : StateValue Fr) : RunningCost :=
  match container with
  | SMap _ => read_map cost_model (log_size container) true
  | SBmt _ => read_bmt FR_BYTES cost_model (log_size container) true
  | _ => RC_ZERO
  end.

(** The constant, key and container coefficients of [idx]. *)
Definition idx_coeffs (v : StateValue Fr) (cached push_path : bool) : CostDuration * CostDuration * CostDuration :=
  match v, cached, push_path with
  | SMap _, true, true =>
      (cm cm_idxpc_map_constant, cm cm_idxpc_map_coeff_key_size, cm cm_idxpc_map_coeff_container_log_size)
  | SMap _, true, false =>
      (cm cm_idxc_map_constant, cm cm_idxc_map_coeff_key_size, cm cm_idxc_map_coeff_container_log_size)
  | SBmt _, true, true =>
      (cm cm_idxpc_bmt_constant, cm cm_idxpc_bmt_coeff_key_size, cm cm_idxpc_bmt_coeff_container_log_size)
  | SBmt _, true, false =>
      (cm cm_idxc_bmt_constant, cm cm_idxc_bmt_coeff_key_size, cm cm_idxc_bmt_coeff_container_log_size)
  | SArray _, true, true => (cm cm_idxpc_array, CD_ZERO, CD_ZERO)
  | SArray _, true, false => (cm cm_idxc_array, CD_ZERO, CD_ZERO)
  | SMap _, false, true =>
      (cm cm_idxp_map_constant, cm cm_idxp_map_coeff_key_size, cm cm_idxp_map_coeff_container_log_size)
  | SMap _, false, false =>
      (cm cm_idx_map_constant, cm cm_idx_map_coeff_key_size, cm cm_idx_map_coeff_container_log_size)
  | SBmt _, false, true =>
      (cm cm_idxp_bmt_constant, cm cm_idxp_bmt_coeff_key_size, cm cm_idxp_bmt_coeff_container_log_size)
  | SBmt _, false, false =>
      (cm cm_idx_bmt_constant, cm cm_idx_bmt_coeff_key_size, cm cm_idx_bmt_coeff_container_log_size)
  | SArray _, false, true => (cm cm_idxp_array, CD_ZERO, CD_ZERO)
  | SArray _, false, false => (cm cm_idx_array, CD_ZERO, CD_ZERO)
  | _, _, _ => (CD_ZERO, CD_ZERO, CD_ZERO)
  end.

Definition ins_coeffs (v : StateValue Fr) (cached : bool) : CostDuration * CostDuration * CostDuration :=
  match v, cached with
  | SMap _, false =>
      (cm cm_ins_map_constant, cm cm_ins_map_coeff_key_size, cm cm_ins_map_coeff_container_log_size)
  | SBmt _, false =>
      (cm cm_ins_bmt_constant, cm cm_ins_bmt_coeff_key_size, cm cm_ins_bmt_coeff_container_log_size)
  | SArray _, false => (cm cm_ins_array, CD_ZERO, CD_ZERO)
  | SMap _, true =>
      (cm cm_insc_map_constant, cm cm_insc_map_coeff_key_size, cm cm_insc_map_coeff_container_log_size)
  | SBmt _, true =>
      (cm cm_insc_bmt_constant, cm cm_insc_bmt_coeff_key_size, cm cm_insc_bmt_coeff_container_log_size)
  | SArray _, true => (cm cm_insc_array, CD_ZERO, CD_ZERO)
  | _, _ => (CD_ZERO, CD_ZERO, CD_ZERO)
  end.

(** The read of a container that is not cached. *)
Definition container_read (v : StateValue Fr) : RunningCost :=
  match v with
  | SArray _ => read_array cost_model true
  | SMap _ => read_map cost_model (log_size v) true
  | SBmt _ => read_bmt FR_BYTES cost_model (log_size v) true
  | _ => RC_ZERO
  end.

Definition entry_size (v : StateValue Fr) : Z :=
  match v with SCell c => AlignedValue_serialized_size c | _ => 1024 end.

Definition affine (coeffs : CostDuration * CostDuration * CostDuration) (key_size container_log_size : Z)
  : CostDuration :=
  let '(constant_cost, linear_cost, log_cost) := coeffs in
  constant_cost + linear_cost * key_size + log_cost * container_log_size.

(** *** [Idx] and [Ins] *)

(** The stack keys of the path, topmost first. *)
Fixpoint pop_keys (path : list Key) : VM Fr (list (VmValue Fr)) :=
  match path with
  | [] => mret []
  | KStack :: path' => '(v, _) ← pop; rest ← pop_keys path'; mret (v :: rest)
  | KValue _ :: path' => pop_keys path'
  end.

Fixpoint refine_path (path : list Key) (stack_keys : list (VmValue Fr)) : outcome (OnchainProgramError Fr) (list (VmValue Fr)) :=
  match path with
  | [] => Ret []
  | KStack :: path' =>
      match stack_keys with
      | v :: stack_keys' => rest ← refine_path path' stack_keys'; Ret (v :: rest)
      | [] => Panic
      end
  | KValue v :: path' => rest ← refine_path path' stack_keys; Ret (mkVmValue Weak (SCell v) :: rest)
  end.

Definition unless (b : bool) (c : VM Fr unit) : VM Fr unit := if b then mret tt else c.

Definition idx_step (cached push_path : bool) (curr : VmValue Fr * CacheKey) (key : VmValue Fr)
  : VM Fr (VmValue Fr * CacheKey) :=
  let v := vm_value (fst curr) in
  _ ← incr_gas (affine (idx_coeffs v cached push_path) (StateValue_serialized_size (vm_value key)) (log_size v));
  _ ← unless cached (incr_gas_full (container_read v));
  _ ← unless (negb push_path) (_ ← push curr; push (key, None));
  key_val ← lift (as_cell (vm_value key));
  curr ← idx curr key_val cached;
  _ ← unless cached (incr_gas_full (read_cell cost_model (entry_size (vm_value (fst curr))) true));
  mret curr.

Fixpoint idx_loop (cached push_path : bool) (path : list (VmValue Fr)) (curr : VmValue Fr * CacheKey)
  : VM Fr (VmValue Fr * CacheKey) :=
  match path with
  | [] => mret curr
  | key :: path' => curr ← idx_step cached push_path curr key; idx_loop cached push_path path' curr
  end.

Definition ins_step (cached : bool) (curr : VmValue Fr * CacheKey) : VM Fr (VmValue Fr * CacheKey) :=
  '(key, _) ← pop;
  '(container, container_key) ← pop;
  let v := vm_value container in
  _ ← incr_gas (affine (ins_coeffs v cached) (StateValue_serialized_size (vm_value key)) (log_size v));
  _ ← unless cached (incr_gas_full (container_read v));
  key_cell ← lift (as_cell (vm_value key));
  cache_hit ← visit_cache (push_key container_key key_cell);
  _ ← unless (negb (cached && negb cache_hit) || match v with SArray _ => true | _ => false end) (fail CacheMiss);
  next ← lift (insert_entry v key_cell (vm_value (fst curr)));
  mret (mkVmValue (strength_and (strength (fst curr)) (strength container)) next, container_key).

Fixpoint ins_loop (n : nat) (cached : bool) (curr : VmValue Fr * CacheKey) : VM Fr (VmValue Fr * CacheKey) :=
  match n with
  | O => mret curr
  | S n' => curr ← ins_step cached curr; ins_loop n' cached curr
  end.

(** *** The other instructions *)

Definition exec_new : VM Fr unit :=
  '(a, _) ← pop;
  cell ← lift (as_cell (vm_value a));
  val ← lift (decoded (value_to (atom_to_uint 8) (av_value cell)));
  let tag := Z.land val 7 in
  new_val ←
    (if (tag =? 0)%Z then _ ← incr_gas (cm cm_new_cell); mret (SCell av_of_unit)
     else if (tag =? 1)%Z then _ ← incr_gas (cm cm_new_null); mret SNull
     else if (tag =? 2)%Z then _ ← incr_gas (cm cm_new_map); mret (SMap ∅)
     else if (tag =? 3)%Z then
       _ ← incr_gas (cm cm_new_array);
       let size := Z.shiftr val 3 in
       if (16 <? size)%Z then fail InvalidArgs else mret (SArray (replicate (Z.to_nat size) SNull))
     else if (tag =? 4)%Z then
       _ ← incr_gas (cm cm_new_bmt); mret (SBmt (blank (S (Z.to_nat (Z.shiftr val 3)))))
     else fail InvalidArgs);
  push (mkVmValue Strong new_val, None).

Definition exec_size : VM Fr unit :=
  '(val, _) ← pop;
  size ←
    match vm_value val with
    | SMap m => _ ← incr_gas (cm cm_size_map); mret (wrap 64 (Z.of_nat (size m)))
    | SBmt t => _ ← incr_gas (cm cm_size_bmt); mret (Z.of_nat (node_height t))
    | SArray a => _ ← incr_gas (cm cm_size_array); mret (Z.of_nat (length a))
    | _ => fail TypeError
    end;
  push_result (av_of_uint 8 size).

Definition exec_member : VM Fr unit :=
  key ← pop_cell;
  '(map, _) ← pop;
  let v := vm_value map in
  _ ← incr_gas (cm cm_member_constant + cm cm_member_coeff_key_size * AlignedValue_serialized_size key
                + cm cm_member_coeff_container_log_size * log_size v);
  _ ← incr_gas_full (read_map cost_model (log_size v) true);
  match v with
  | SMap m => push_result (av_of_bool (bool_decide (is_Some (m !! key))))
  | _ => fail TypeError
  end.

Definition exec_rem (cached : bool) : VM Fr unit :=
  key ← pop_cell;
  '(container, container_key) ← pop;
  let v := vm_value container in
  _ ← incr_gas (rem_cost v key);
  _ ← unless cached (incr_gas_full (rem_read v));
  cache_hit ← visit_cache (push_key container_key key);
  _ ← unless (negb (cached && negb cache_hit)) (fail CacheMiss);
  container_nxt ← lift (remove_entry v key);
  push (mkVmValue (strength container) container_nxt, container_key).

Definition exec_idx (cached push_path : bool) (path : list Key) : VM Fr unit :=
  stack_keys ← pop_keys path;
  refined_path ← lift (refine_path path stack_keys);
  curr ← pop;
  curr ← idx_loop cached push_path refined_path curr;
  push curr.

Definition exec_ins (cached : bool) (n : Z) : VM Fr unit :=
  curr ← pop;
  curr ← ins_loop (Z.to_nat n) cached curr;
  push curr.

Definition exec_concat (n : Z) : VM Fr unit :=
  if (CELL_BOUND <? n)%Z then fail CellBoundExceeded
  else
    a ← pop_cell;
    b ← pop_cell;
    let total_len := (AlignedValue_serialized_size a + AlignedValue_serialized_size b)%Z in
    _ ← incr_gas (cm cm_concat_constant + cm cm_concat_coeff_total_size * total_len);
    v ← lift (vm_concat b a n);
    push_result v.

Definition exec_log : VM Fr (StateValue Fr) :=
  '(val, _) ← pop;
  let v := vm_value val in
  match serialize_to_node_list_bounded v MAX_LOG_SIZE with
  | None => fail LogBoundExceeded
  | Some nodes =>
      let size := foldr (fun len acc => PERSISTENT_HASH_SIZE + len + acc)%Z 0 nodes in
      _ ← incr_gas (log_cost v size);
      _ ← incr_gas_full (mkRunningCost CD_ZERO CD_ZERO size size);
      mret v
  end.

Definition exec_popeq : VM Fr AlignedValue :=
  _ ← incr_gas (cm cm_popeq_constant);
  value ← pop_cell;
  _ ← incr_gas (cm cm_popeq_coeff_value_size * AlignedValue_serialized_size value);
  mret value.

Definition exec_root : VM Fr unit :=
  _ ← incr_gas (cm cm_root);
  '(a, _) ← pop;
  match vm_value a with
  | SBmt tree =>
      match node_root fr_zero degrade_to_transient tree with
      | Some d => push_result (av_of_digest d)
      | None => fail TypeError
      end
  | _ => fail TypeError
  end.

Definition pop_bool : VM Fr bool := v ← pop_cell; lift (value_to_bool (av_value v)).

(** [stack[stack_len - n - 1]] and [stack.swap(stack_len - 1, stack_len - 2 - n)]. *)
Definition dup (n : nat) : VM Fr unit := fun m =>
  match stack m !! n with Some x => push x m | None => Panic end.

Definition swap (n : nat) : VM Fr unit := fun m =>
  match stack m !! O, stack m !! S n with
  | Some x, Some y => Ret (tt, set_stack (<[O := y]> (<[S n := x]> (stack m))) m)
  | _, _ => Panic
  end.

(** What an instruction shows to the mode: nothing, a read or a log entry. *)
Inductive OpOutput := ONone | ORead (value : AlignedValue) | OLog (value : StateValue Fr).

Definition silent (c : VM Fr unit) : VM Fr OpOutput := _ ← c; mret ONone.

(** The body of an instruction, before the jump is taken. *)
Definition exec {R} (op : Op Fr R) : VM Fr OpOutput :=
  match op with
  | Noop n => silent (incr_gas (cm cm_noop_constant + cm cm_noop_coeff_arg * n))
  | Branch skip => silent (incr_gas (cm cm_branch_constant + cm cm_branch_coeff_arg * skip))
  | Jmp skip => silent (incr_gas (cm cm_jmp_constant + cm cm_jmp_coeff_arg * skip))
  | Ckpt => silent (incr_gas (cm cm_ckpt))
  | Lt => silent (_ ← incr_gas (cm cm_lt);
                  b ← pop_cell; a ← pop_cell;
                  v ← lift (vm_lt (av_value a) (av_value b)); push_result v)
  | Eq => silent (_ ← incr_gas (cm cm_eq);
                  a ← pop_cell; b ← pop_cell;
                  v ← lift (vm_eq a b); push_result v)
  | Type_ => silent ('(val, _) ← pop;
                     let '(ty, cost) := type_info (vm_value val) in
                     _ ← incr_gas cost; push_result (av_of_uint 1 ty))
  | Size => silent exec_size
  | New => silent exec_new
  | And => silent (_ ← incr_gas (cm cm_and);
                   a ← pop_bool; b ← pop_bool; push_result (av_of_bool (a && b)))
  | Or => silent (_ ← incr_gas (cm cm_or);
                  a ← pop_bool; b ← pop_bool; push_result (av_of_bool (a || b)))
  | Neg => silent (_ ← incr_gas (cm cm_neg); a ← pop_bool; push_result (av_of_bool (negb a)))
  | Log => v ← exec_log; mret (OLog v)
  | Root => silent exec_root
  | Pop => silent (_ ← incr_gas (cm cm_pop); _ ← pop; mret tt)
  | Popeq _ _ => v ← exec_popeq; mret (ORead v)
  | Addi immediate => silent (_ ← incr_gas (cm cm_addi); a ← pop_cell;
                              v ← lift (vm_add (av_value a) (Ret immediate)); push_result v)
  | Subi immediate => silent (_ ← incr_gas (cm cm_subi); a ← pop_cell;
                              v ← lift (vm_sub (av_value a) (Ret immediate)); push_result v)
  | Push storage value => silent (_ ← incr_gas (push_cost storage value);
                                  push (mkVmValue (if storage then Strong else Weak) value, None))
  | Add => silent (_ ← incr_gas (cm cm_add); a ← pop_cell; b ← pop_cell;
                   v ← lift (vm_add (av_value a) (value_to_u64 (av_value b))); push_result v)
  | Sub => silent (_ ← incr_gas (cm cm_sub); a ← pop_cell; b ← pop_cell;
                   v ← lift (vm_sub (av_value b) (value_to_u64 (av_value a))); push_result v)
  | Concat _ n => silent (exec_concat n)
  | Member => silent exec_member
  | Rem cached => silent (exec_rem cached)
  | Dup n => silent (_ ← incr_gas (cm cm_dup_constant + cm cm_dup_coeff_arg * n);
                     dup (Z.to_nat n))
  | Swap n => silent (_ ← incr_gas (cm cm_swap_constant + cm cm_swap_coeff_arg * n);
                      swap (Z.to_nat n))
  | Idx cached push_path path => silent (exec_idx cached push_path path)
  | Ins cached n => silent (exec_ins cached n)
  end.

(** How many further instructions are skipped. *)
Definition skipped {R} (op : Op Fr R) : VM Fr Z :=
  match op with
  | Branch skip =>
      a ← pop_cell;
      mret (match av_value a with [[]] => 0 | _ => skip end)
  | Jmp skip => mret skip
  | _ => mret 0
  end.

End execute.

Arguments OpOutput Fr : clear implicits.

(** ** Modes *)

(** [ResultMode]: what a read is checked against and which events there are. *)
Record ResultMode (Fr ReadResult Event : Type) := mkResultMode {
  process_read : ReadResult -> AlignedValue -> outcome (OnchainProgramError Fr) (option Event);
  process_log : VersionedLogItem Fr -> option Event
}.
Arguments mkResultMode {Fr ReadResult Event}.
Arguments process_read {Fr ReadResult Event}.
Arguments process_log {Fr ReadResult Event}.

Definition ResultModeVerify {Fr} : ResultMode Fr AlignedValue (VersionedLogItem Fr) :=
  mkResultMode
    (fun expected actual => if bool_decide (expected = actual) then Ret None else Fail (ReadMismatch expected actual))
    (fun event => Some event).

Inductive GatherEvent (Fr : Type) := GRead (v : AlignedValue) | GLog (e : VersionedLogItem Fr).
Arguments GRead {Fr} v.
Arguments GLog {Fr} e.

Definition ResultModeGather {Fr} : ResultMode Fr unit (GatherEvent Fr) :=
  mkResultMode (fun _ real => Ret (Some (GRead real))) (fun event => Some (GLog event)).

Record VmResults (Fr Event : Type) := mkVmResults {
  res_stack : list (VmValue Fr);
  res_events : list Event;
  res_gas_cost : RunningCost
}.
Arguments mkVmResults {Fr Event}.
Arguments res_stack {Fr Event}.
Arguments res_events {Fr Event}.
Arguments res_gas_cost {Fr Event}.

(** ** The loop *)

Definition MAX_STACK_HEIGHT : Z := 2 ^ 16.

Section run.
Context {Fr : Type} (fr_zero : Fr) (transient_hash2 : Fr -> Fr -> Fr) (degrade_to_transient : list Z -> Fr).
Context (fr_as_le_bytes : Fr -> list Z) (FR_BYTES : Z).
Context (node_data_lens : StateValue Fr -> list Z) (StateValue_serialized_size : StateValue Fr -> Z).
Context (cost_model : CostModel).
Context {R Event : Type} (mode : ResultMode Fr R Event).
Context (step_limit : option nat) (gas_limit : option RunningCost).

Abbreviation exec_op := (exec fr_zero transient_hash2 degrade_to_transient fr_as_le_bytes FR_BYTES
                           node_data_lens StateValue_serialized_size cost_model gas_limit).

Definition push_event (events : list Event) (e : option Event) : list Event :=
  match e with Some e => events ++ [e] | None => events end.

(** The event of an instruction. *)
Definition emit (op : Op Fr R) (out : OpOutput Fr) (events : list Event)
  : outcome (OnchainProgramError Fr) (list Event) :=
  match op, out with
  | Popeq _ result, ORead value => e ← process_read mode result value; Ret (push_event events e)
  | _, OLog value => Ret (push_event events (decode_event node_data_lens value ≫= process_log mode))
  | _, _ => Ret events
  end.

Definition check (b : bool) (e : OnchainProgramError Fr) : VM Fr unit := if b then mret tt else fail e.

Definition stack_len : VM Fr Z := fun m => Ret (Z.of_nat (length (stack m)), m).

(** One turn of the loop with [remaining] instructions left, this one included:
    how many of them are done with, and the events so far. *)
Definition step (remaining : nat) (op : Op Fr R) (events : list Event) : VM Fr (nat * list Event) :=
  len ← stack_len;
  _ ← check (stack_req op <=? len) RanOffStack;
  out ← exec_op op;
  events ← lift (emit op out events);
  skip ← skipped op;
  let skip := S (Z.to_nat skip) in
  _ ← check (skip <=? remaining)%nat RanPastProgramEnd;
  len ← stack_len;
  _ ← check (len <=? MAX_STACK_HEIGHT) StackOverflow;
  mret (skip, events).

Definition limit_reached (steps_executed : nat) : bool :=
  match step_limit with Some limit => (limit <=? steps_executed)%nat | None => false end.

(** The loop over what is left of the program, for at most [fuel] turns; [None]
    when they are used up. *)
Fixpoint run_loop (fuel : nat) (program : list (Op Fr R)) (steps_executed : nat) (events : list Event)
  : VM Fr (option (list Event)) :=
  match program with
  | [] => mret (Some events)
  | op :: _ =>
      if limit_reached steps_executed then mret (Some events)
      else match fuel with
      | O => mret None
      | S fuel =>
          '(skip, events) ← step (length program) op events;
          run_loop fuel (drop skip program) (S steps_executed) events
      end
  end.

Definition initial_machine (initial : list (VmValue Fr)) : machine Fr :=
  mkMachine (reverse (imap (fun i val => (val, Some (i, []))) initial))
    ((fun val => match strength val with Weak => Whole | Strong => Parts ∅ end) <$> initial) RC_ZERO.

(** [run_program_internal] on a machine, with a turn for each instruction. *)
Definition run_program_internal (m : machine Fr) (program : list (Op Fr R))
  : outcome (OnchainProgramError Fr) (VmResults Fr Event) :=
  '(events, m) ← run_loop (length program) program 0 [] m;
  events ← expect events;
  Ret (mkVmResults (reverse (fst <$> stack m)) events (gas m)).

(** [run_program_step_limited]; [run_program] has no step limit. *)
Definition run_program_step_limited (initial : list (VmValue Fr)) (program : list (Op Fr R))
  : outcome (OnchainProgramError Fr) (VmResults Fr Event) :=
  run_program_internal (initial_machine initial) program.

End run.

Definition run_program {Fr} fr_zero transient_hash2 degrade_to_transient fr_as_le_bytes FR_BYTES
  node_data_lens StateValue_serialized_size cost_model {R Event} (mode : ResultMode Fr R Event)
  (gas_limit : option RunningCost) :=
  run_program_step_limited fr_zero transient_hash2 degrade_to_transient fr_as_le_bytes FR_BYTES
    node_data_lens StateValue_serialized_size cost_model mode None gas_limit.
