(* ===== verification/VmProperties.v ===== *)
(** * Properties of the virtual machine

    Proofs by the structure of instructions: each property has a rule for
    sequencing and one for each primitive of the machine, and the instructions
    follow by decomposition. *)

From S2P Require Import Prelude Serialize MerkleTree Cost VmCost Fab OnchainVm.
From stdpp Require Import gmap sorting.

Local Open Scope Z_scope.

(** ** The loop by recursion on the program

    Where the code moves on to the rest of the program, this loop passes over
    [skip] instructions, so that properties of runs follow by induction on the
    program.  [run_loop_skip] below shows that the loop of the code is this one. *)

Section skip_loop.
Context {Fr : Type} (fr_zero : Fr) (transient_hash2 : Fr -> Fr -> Fr) (degrade_to_transient : list Z -> Fr).
Context (fr_as_le_bytes : Fr -> list Z) (FR_BYTES : Z).
Context (node_data_lens : StateValue Fr -> list Z) (StateValue_serialized_size : StateValue Fr -> Z).
Context (cost_model : CostModel) {R Event : Type} (mode : ResultMode Fr R Event).
Context (step_limit : option nat) (gas_limit : option RunningCost).

Fixpoint skip_loop (program : list (Op Fr R)) (skip steps_executed : nat) (events : list Event) : VM Fr (list Event) :=
  match program, skip with
  | [], _ => mret events
  | _ :: rest, S skip' => skip_loop rest skip' steps_executed events
  | op :: rest, O =>
      if limit_reached step_limit steps_executed then mret events
      else
        '(skip, events) ← step fr_zero transient_hash2 degrade_to_transient fr_as_le_bytes FR_BYTES node_data_lens
          StateValue_serialized_size cost_model mode gas_limit (length program) op events;
        skip_loop rest (skip - 1) (S steps_executed) events
  end.
End skip_loop.

(** ** Costs *)

Lemma coeff_nonneg m x : cost_model_ok m -> x ∈ cost_coefficients m -> 0 <= x.
Proof. unfold cost_model_ok. rewrite Forall_forall. intros H Hx. apply H in Hx. unfold in_u in Hx. lia. Qed.

(** Finds a coefficient among those of the model. *)
Ltac coeff H :=
  solve [apply (coeff_nonneg _ _ H); unfold cost_coefficients;
         repeat (first [apply list_elem_of_here | apply list_elem_of_further])].

Lemma flagged_int_size_nonneg n : 0 <= flagged_int_size n.
Proof. unfold flagged_int_size. repeat case_match; lia. Qed.

Lemma sum_size_nonneg {A} (f : A -> Z) l : (forall x, x ∈ l -> 0 <= f x) -> 0 <= sum_size f l.
Proof.
  induction l as [|x l IH]; intros H; cbn [sum_size]; [done|]. fold (sum_size f).
  assert (0 <= f x) by (apply H; left). assert (0 <= sum_size f l) by (apply IH; intros; apply H; by right). lia.
Qed.

Lemma ValueAtom_size_nonneg a : 0 <= ValueAtom_serialized_size a.
Proof.
  unfold ValueAtom_serialized_size. pose proof (flagged_int_size_nonneg (len_u32 (normalize a))).
  repeat case_match; try apply flagged_int_size_nonneg; pose proof (flagged_int_size_nonneg 1); lia.
Qed.

Lemma Value_size_nonneg v : 0 <= Value_serialized_size v.
Proof.
  assert (0 <= sum_size ValueAtom_serialized_size v) by (apply sum_size_nonneg; intros; apply ValueAtom_size_nonneg).
  pose proof (flagged_int_size_nonneg (len_u32 v)). unfold Value_serialized_size.
  repeat case_match; try lia. apply ValueAtom_size_nonneg.
Qed.

Lemma alignment_size_nonneg f l : (forall s, s ∈ l -> 0 <= f s) -> 0 <= alignment_size f l.
Proof.
  intros H. pose proof (sum_size_nonneg f l H). pose proof (flagged_int_size_nonneg (len_u32 l)).
  unfold alignment_size. destruct l as [|s [|]]; try lia. apply H. left.
Qed.

Lemma segment_size_nonneg s : 0 <= AlignmentSegment_serialized_size s.
Proof.
  induction s as [a|l IH] using segment_ind'; cbn [AlignmentSegment_serialized_size].
  - destruct a; simpl; try lia. apply flagged_int_size_nonneg.
  - pose proof (flagged_int_size_nonneg (len_u32 l)).
    assert (0 <= sum_size (alignment_size AlignmentSegment_serialized_size) l); [|lia].
    apply sum_size_nonneg. intros b Hb. apply alignment_size_nonneg. intros s Hs.
    rewrite Forall_forall in IH. specialize (IH b Hb). rewrite Forall_forall in IH. by apply IH.
Qed.

Lemma AlignedValue_size_nonneg v : 0 <= AlignedValue_serialized_size v.
Proof.
  unfold AlignedValue_serialized_size, Alignment_serialized_size. pose proof (Value_size_nonneg (av_value v)).
  pose proof (alignment_size_nonneg AlignmentSegment_serialized_size (av_alignment v) (fun s _ => segment_size_nonneg s)). lia.
Qed.

Lemma log_size_nonneg {Fr} (v : StateValue Fr) : 0 <= log_size v.
Proof. destruct v; simpl; try apply Z.log2_up_nonneg; lia. Qed.

#[export] Hint Resolve AlignedValue_size_nonneg log_size_nonneg : midnight.

Section gas.
Context {Fr : Type} (fr_zero : Fr) (transient_hash2 : Fr -> Fr -> Fr) (degrade_to_transient : list Z -> Fr).
Context (fr_as_le_bytes : Fr -> list Z) (FR_BYTES : Z).
Context (node_data_lens : StateValue Fr -> list Z) (StateValue_serialized_size : StateValue Fr -> Z).
Context (cost_model : CostModel).
(** Sizes are not negative. *)
Context (HFR : 0 <= FR_BYTES) (Hnodes : forall v, Forall (fun n => 0 <= n) (node_data_lens v))
        (Hsize : forall v, 0 <= StateValue_serialized_size v).
Context (Hcm : cost_model_ok cost_model).

Ltac cost := repeat (apply cd_add_nonneg || apply cd_mul_nonneg); auto with midnight; first [done | lia | coeff Hcm | idtac].

Lemma read_cell_nonneg size sync : 0 <= size -> cost_nonneg (read_cell cost_model size sync).
Proof.
  intros Hs. unfold read_cell, cost_nonneg. cbv zeta.
  destruct sync; cbn; split_and!; try lia; cost.
Qed.

Lemma read_map_nonneg n sync : 0 <= n -> cost_nonneg (read_map cost_model n sync).
Proof. intros. apply RunningCost_mul_nonneg; [by apply read_cell_nonneg|]. apply div_ceil_nonneg; lia. Qed.

Lemma read_bmt_nonneg n sync : 0 <= n -> cost_nonneg (read_bmt FR_BYTES cost_model n sync).
Proof. intros. apply RunningCost_mul_nonneg; [|done]. apply read_cell_nonneg. lia. Qed.

Lemma container_read_nonneg (v : StateValue Fr) : cost_nonneg (container_read FR_BYTES cost_model v).
Proof.
  destruct v; cbn [container_read]; try done; [apply read_map_nonneg|by apply read_cell_nonneg|apply read_bmt_nonneg];
    apply log_size_nonneg.
Qed.

Lemma rem_read_nonneg (v : StateValue Fr) : cost_nonneg (rem_read FR_BYTES cost_model v).
Proof.
  destruct v; cbn [rem_read]; try done; [apply read_map_nonneg|apply read_bmt_nonneg]; apply log_size_nonneg.
Qed.

Lemma rem_cost_nonneg (v : StateValue Fr) k : 0 <= rem_cost cost_model v k.
Proof. destruct v; cbn [rem_cost]; try done; cost. Qed.

Lemma idx_cost_nonneg (v : StateValue Fr) cached push_path ks : 0 <= ks ->
  0 <= affine (idx_coeffs cost_model v cached push_path) ks (log_size v).
Proof. intros Hk. destruct v, cached, push_path; cbn [idx_coeffs affine]; cost. Qed.

Lemma ins_cost_nonneg (v : StateValue Fr) cached ks : 0 <= ks ->
  0 <= affine (ins_coeffs cost_model v cached) ks (log_size v).
Proof. intros Hk. destruct v, cached; cbn [ins_coeffs affine]; cost. Qed.

Lemma log_cost_nonneg (v : StateValue Fr) n : 0 <= n -> 0 <= log_cost cost_model v n.
Proof. intros Hk. destruct v; cbn [log_cost]; cost. Qed.

Lemma push_cost_nonneg storage (v : StateValue Fr) : 0 <= push_cost cost_model storage v.
Proof. destruct v, storage; cbn [push_cost]; cost. Qed.

Lemma type_cost_nonneg (v : StateValue Fr) : 0 <= snd (type_info cost_model v).
Proof. destruct v; cbn [type_info snd]; cost. Qed.

Lemma entry_size_nonneg (v : StateValue Fr) : 0 <= entry_size v.
Proof. destruct v; simpl; try lia. apply AlignedValue_size_nonneg. Qed.

(** *** Metered computations

    [c] runs under a limit, [c'] without one: they agree as long as the gas of
    [c'] stays within the limit, and otherwise [c] runs out of gas. *)

Context (limit : RunningCost).

Definition gas_ok (g : RunningCost) : Prop := in_u 64 (rc_read_time g) /\ in_u 64 (rc_compute_time g).

Definition gas_le (g g' : RunningCost) : Prop :=
  rc_read_time g <= rc_read_time g' /\ rc_compute_time g <= rc_compute_time g'.

Definition metered {A} (c c' : VM Fr A) : Prop := forall m, gas_ok (gas m) ->
  match c' m with
  | Ret (a, m') => gas_ok (gas m') /\ gas_le (gas m) (gas m') /\
      (exceeds (gas m) limit = false -> c m = if exceeds (gas m') limit then Fail OutOfGas else Ret (a, m'))
  | Fail e => exceeds (gas m) limit = false -> c m = Fail e \/ c m = Fail OutOfGas
  | Panic => exceeds (gas m) limit = false -> c m = Panic \/ c m = Fail OutOfGas
  end.

Lemma exceeds_mono g g' : gas_le g g' -> exceeds g limit = true -> exceeds g' limit = true.
Proof. unfold gas_le, exceeds. lia. Qed.

Lemma metered_pure {A} (f : machine Fr -> outcome (OnchainProgramError Fr) (A * machine Fr)) :
  (forall m, match f m with Ret (_, m') => gas m' = gas m | _ => True end) -> metered f f.
Proof.
  intros H m Hm. specialize (H m). destruct (f m) as [[a m']|e|]; [|by left|by left].
  rewrite H. split_and!; [done|split; lia|]. by intros ->.
Qed.

Lemma metered_ret {A} (a : A) : metered (mret a) (mret a).
Proof. by apply metered_pure. Qed.

Lemma metered_bind {A B} (c c' : VM Fr A) (k k' : A -> VM Fr B) :
  metered c c' -> (forall a, metered (k a) (k' a)) -> metered (c ≫= k) (c' ≫= k').
Proof.
  intros Hc Hk m Hm. specialize (Hc m Hm). unfold mbind, VM_bind.
  destruct (c' m) as [[a m1]|e|].
  - destruct Hc as (Hm1 & Hle & Hc). specialize (Hk a m1 Hm1).
    destruct (k' a m1) as [[b m2]|e|].
    + destruct Hk as (Hm2 & Hle' & Hk). split_and!; [done|unfold gas_le in *; lia|]. intros He. rewrite (Hc He).
      destruct (exceeds (gas m1) limit) eqn:E1; [|by apply Hk]. by rewrite (exceeds_mono _ _ Hle' E1).
    + intros He. rewrite (Hc He). destruct (exceeds (gas m1) limit); [by right|by apply Hk].
    + intros He. rewrite (Hc He). destruct (exceeds (gas m1) limit); [by right|by apply Hk].
  - intros He. destruct (Hc He) as [-> | ->]; [by left|by right].
  - intros He. destruct (Hc He) as [-> | ->]; [by left|by right].
Qed.

Lemma metered_incr_full by_ : cost_nonneg by_ ->
  metered (incr_gas_full (Some limit) by_) (@incr_gas_full Fr None by_).
Proof.
  intros (Hr & Hc & _) m [Gr Gc]. unfold incr_gas_full. cbv zeta.
  assert (Hg : gas_ok (RunningCost_add (gas m) by_) /\ gas_le (gas m) (RunningCost_add (gas m) by_)).
  { unfold gas_ok, gas_le, RunningCost_add, CostDuration_add, sat_add, u_max, in_u in *. cbn. lia. }
  destruct Hg as [H1 H2]. by split_and!.
Qed.

Lemma metered_incr t : 0 <= t -> metered (incr_gas (Some limit) t) (@incr_gas Fr None t).
Proof. intros. apply metered_incr_full. by apply compute_nonneg. Qed.

Lemma metered_lift {A} (o : outcome (OnchainProgramError Fr) A) : metered (lift o) (lift o).
Proof. apply metered_pure. intros m. unfold lift. by destruct o. Qed.

Lemma metered_pop : metered (@pop Fr) pop.
Proof. apply metered_pure. intros m. unfold pop. by destruct (stack m). Qed.

Lemma metered_push x : metered (@push Fr x) (push x).
Proof. by apply metered_pure. Qed.

Lemma metered_visit k : metered (@visit_cache Fr k) (visit_cache k).
Proof. apply metered_pure. intros m. unfold visit_cache. by destruct (visit k (cache m)) as [[]| |]. Qed.

Lemma metered_dup n : metered (@dup Fr n) (dup n).
Proof. apply metered_pure. intros m. unfold dup. by destruct (stack m !! n). Qed.

Lemma metered_swap n : metered (@swap Fr n) (swap n).
Proof. apply metered_pure. intros m. unfold swap. by destruct (stack m !! 0%nat), (stack m !! S n). Qed.
(** Decomposition of a computation into its primitives. *)
Ltac meter_case :=
  match goal with
  | |- metered (_ ≫= _) _ => apply metered_bind; [|intros ?]
  | |- metered (match ?x with _ => _ end) _ => destruct x eqn:?
  | |- metered (unless ?b _) _ => unfold unless
  | |- metered (silent _) _ => unfold silent
  | |- metered (fail _) _ => apply metered_lift
  | |- metered (push_result _) _ => apply metered_push
  | |- metered pop_cell _ => unfold pop_cell
  | |- metered pop_bool _ => unfold pop_bool
  end.
Ltac meter := repeat first
  [ apply metered_ret | apply metered_lift | apply metered_pop | apply metered_push | apply metered_visit
  | apply metered_dup | apply metered_swap
  | apply metered_incr | apply metered_incr_full | meter_case ].

Abbreviation lim := (Some limit).

Lemma metered_idx value key cached : metered (@idx Fr value key cached) (idx value key cached).
Proof. unfold idx. cbv zeta. meter. Qed.

Lemma metered_idx_step cached push_path curr key :
  metered (idx_step FR_BYTES StateValue_serialized_size cost_model lim cached push_path curr key)
    (idx_step FR_BYTES StateValue_serialized_size cost_model None cached push_path curr key).
Proof.
  unfold idx_step. cbv zeta. meter; try apply metered_idx.
  - by apply idx_cost_nonneg.
  - apply container_read_nonneg.
  - apply read_cell_nonneg, entry_size_nonneg.
Qed.

Lemma metered_idx_loop cached push_path path curr :
  metered (idx_loop FR_BYTES StateValue_serialized_size cost_model lim cached push_path path curr)
    (idx_loop FR_BYTES StateValue_serialized_size cost_model None cached push_path path curr).
Proof.
  revert curr; induction path as [|key path IH]; intros curr; cbn [idx_loop]; [apply metered_ret|].
  apply metered_bind; [apply metered_idx_step|done].
Qed.

Lemma metered_pop_keys path : metered (@pop_keys Fr path) (pop_keys path).
Proof. induction path as [|[v|] path IH]; cbn [pop_keys]; meter; done. Qed.

Abbreviation ins_step_at l :=
  (ins_step fr_zero transient_hash2 degrade_to_transient FR_BYTES StateValue_serialized_size cost_model l).

Lemma metered_ins_step cached curr : metered (ins_step_at lim cached curr) (ins_step_at None cached curr).
Proof.
  unfold ins_step. cbv zeta. meter.
  - by apply ins_cost_nonneg.
  - apply container_read_nonneg.
Qed.

Abbreviation ins_loop_at l :=
  (ins_loop fr_zero transient_hash2 degrade_to_transient FR_BYTES StateValue_serialized_size cost_model l).

Lemma metered_ins_loop n cached curr : metered (ins_loop_at lim n cached curr) (ins_loop_at None n cached curr).
Proof.
  revert curr; induction n as [|n IH]; intros curr; cbn [ins_loop]; [apply metered_ret|].
  apply metered_bind; [apply metered_ins_step|done].
Qed.

(** The immediate arguments of an instruction are not negative. *)
Definition op_args_nonneg {R} (op : Op Fr R) : Prop :=
  match op with
  | Noop n | Addi n | Subi n | Branch n | Jmp n | Concat _ n | Dup n | Swap n | Ins _ n => 0 <= n
  | _ => True
  end.

Abbreviation exec_at l := (exec fr_zero transient_hash2 degrade_to_transient fr_as_le_bytes FR_BYTES
                             node_data_lens StateValue_serialized_size cost_model l).

Lemma node_sizes_nonneg l : Forall (fun n => 0 <= n) l ->
  0 <= foldr (fun len acc => PERSISTENT_HASH_SIZE + len + acc) 0 l.
Proof. unfold PERSISTENT_HASH_SIZE. induction 1; cbn [foldr]; lia. Qed.

Lemma metered_log : metered (exec_log node_data_lens cost_model lim) (exec_log node_data_lens cost_model None).
Proof.
  unfold exec_log. apply metered_bind; [apply metered_pop|]. intros [val ck]. cbv zeta.
  unfold serialize_to_node_list_bounded. destruct (charge_nodes _ _); cbn [mbind option_bind]; [|meter].
  pose proof (node_sizes_nonneg _ (Hnodes (vm_value val))). meter; [by apply log_cost_nonneg|done].
Qed.

Lemma metered_exec {R} (op : Op Fr R) : op_args_nonneg op -> metered (exec_at lim op) (exec_at None op).
Proof.
  intros Ha. destruct op; cbn [exec]; cbn in Ha; unfold exec_size, exec_new, exec_root, exec_popeq, exec_concat,
    exec_member, exec_rem, exec_idx, exec_ins; cbv zeta; meter; try cost.
  all: first [ apply metered_log | apply metered_pop_keys | apply metered_idx_loop | apply metered_ins_loop
             | apply push_cost_nonneg | apply rem_cost_nonneg | apply rem_read_nonneg
             | apply read_map_nonneg; auto with midnight | apply Z.add_nonneg_nonneg; auto with midnight | idtac ].
  match goal with E : type_info _ _ = (_, ?c) |- 0 <= ?c => apply (f_equal snd) in E; cbn [snd] in E; rewrite <- E end.
  apply type_cost_nonneg.
Qed.

Lemma metered_skipped {R} (op : Op Fr R) : metered (skipped op) (skipped op).
Proof. destruct op; cbn [skipped]; meter. Qed.

Lemma metered_stack_len : metered (@stack_len Fr) stack_len.
Proof. by apply metered_pure. Qed.

Context {R Event : Type} (mode : ResultMode Fr R Event) (step_limit : option nat).

Abbreviation skip_loop_at l := (skip_loop fr_zero transient_hash2 degrade_to_transient fr_as_le_bytes FR_BYTES
  node_data_lens StateValue_serialized_size cost_model mode step_limit l).

Lemma metered_run program : Forall op_args_nonneg program -> forall skip steps events,
  metered (skip_loop_at lim program skip steps events) (skip_loop_at None program skip steps events).
Proof.
  induction 1 as [|op program Ha _ IH]; intros skip steps events; [apply metered_ret|].
  destruct skip as [|skip]; cbn [skip_loop]; [|apply IH]. unfold step, check. cbv zeta.
  meter; auto using metered_stack_len, metered_exec, metered_skipped.
Qed.
End gas.

(** ** Sequences *)

Lemma VM_bind_run {Fr A B} (c : VM Fr A) (k : A -> VM Fr B) m : (c ≫= k) m = ('(a, m1) ← c m; k a m1).
Proof. reflexivity. Qed.

Lemma VM_bind_Ret {Fr A B} (c : VM Fr A) (k : A -> VM Fr B) m b m' :
  (c ≫= k) m = Ret (b, m') <-> exists a m1, c m = Ret (a, m1) /\ k a m1 = Ret (b, m').
Proof.
  unfold mbind, VM_bind. split.
  - destruct (c m) as [[a m1]| |]; try done. eauto.
  - by intros (a & m1 & -> & ->).
Qed.

Lemma check_Ret {Fr} b e (m : machine Fr) u m' : check b e m = Ret (u, m') -> b = true /\ m' = m.
Proof. destruct b; [|done]. intros [= _ ->]. done. Qed.

(** Splits a sequence that returned. *)
Ltac vm_inv E :=
  repeat match type of E with
  | (_ ≫= _) _ = Ret _ =>
      let a := fresh "a" in let m := fresh "m" in let E' := fresh "E" in
      apply VM_bind_Ret in E as (a & m & E' & E)
  end.

(** ** The loop of the source *)

Section loop.
Context {Fr : Type} (fr_zero : Fr) (transient_hash2 : Fr -> Fr -> Fr) (degrade_to_transient : list Z -> Fr).
Context (fr_as_le_bytes : Fr -> list Z) (FR_BYTES : Z).
Context (node_data_lens : StateValue Fr -> list Z) (StateValue_serialized_size : StateValue Fr -> Z).
Context (cost_model : CostModel) {R Event : Type} (mode : ResultMode Fr R Event).

Abbreviation skip_loop_at sl l := (skip_loop fr_zero transient_hash2 degrade_to_transient fr_as_le_bytes FR_BYTES
  node_data_lens StateValue_serialized_size cost_model mode sl l).
Abbreviation step_at l := (step fr_zero transient_hash2 degrade_to_transient fr_as_le_bytes FR_BYTES
  node_data_lens StateValue_serialized_size cost_model mode l).

(** [program = &program[skip..]]. *)
Lemma skip_loop_drop sl l program : forall skip steps events m,
  skip_loop_at sl l program skip steps events m = skip_loop_at sl l (drop skip program) 0 steps events m.
Proof.
  induction program as [|op program IH]; intros [|skip] steps events m; try done. cbn [skip_loop drop]. apply IH.
Qed.

Lemma skip_loop_unfold sl l op program steps events :
  skip_loop_at sl l (op :: program) 0 steps events =
  if limit_reached sl steps then mret events
  else '(skip, events) ← step_at l (length (op :: program)) op events;
       skip_loop_at sl l program (skip - 1) (S steps) events.
Proof. reflexivity. Qed.

Lemma step_skip l remaining op events m n events' m' :
  step_at l remaining op events m = Ret ((n, events'), m') -> (1 <= n <= remaining)%nat.
Proof.
  unfold step. cbv zeta. intros E. vm_inv E.
  match goal with H : check (_ <=? remaining)%nat _ _ = _ |- _ => apply check_Ret in H as [H _]; apply Nat.leb_le in H end.
  unfold mret, VM_ret in *. simplify_eq. lia.
Qed.

(** A limit of as many steps as there are instructions is no limit: each
    instruction is executed at most once. *)
Lemma skip_loop_steps l n program : forall skip steps events m, (length program + steps <= n)%nat ->
  skip_loop_at (Some n) l program skip steps events m = skip_loop_at None l program skip steps events m.
Proof.
  induction program as [|op program IH]; intros skip steps events m Hn; [done|]. cbn [length] in Hn.
  destruct skip as [|skip]; cbn [skip_loop]; [|by apply IH; lia]. cbn [limit_reached].
  destruct (Nat.leb_spec n steps); [lia|]. unfold mbind, VM_bind. case_match; try done. case_match. case_match. apply IH. lia.
Qed.

Abbreviation run_loop_at sl l := (run_loop fr_zero transient_hash2 degrade_to_transient fr_as_le_bytes FR_BYTES
  node_data_lens StateValue_serialized_size cost_model mode sl l).

(** Every turn leaves fewer instructions: with a turn for each the loop does not
    run out of them. *)
Lemma run_loop_skip sl l fuel : forall program steps events m, (length program <= fuel)%nat ->
  run_loop_at sl l fuel program steps events m = '(ev, m') ← skip_loop_at sl l program 0 steps events m; Ret (Some ev, m').
Proof.
  induction fuel as [|fuel IH]; intros [|op program] steps events m Hf; try done; [cbn in Hf; lia|].
  cbn [run_loop]. rewrite skip_loop_unfold. destruct (limit_reached sl steps); [done|].
  rewrite !VM_bind_run. destruct (step_at l (length (op :: program)) op events m) as [[[n ev] m1]|e|] eqn:Es; cbn [mbind outcome_bind]; [|done..].
  apply step_skip in Es. rewrite IH by (rewrite length_drop; cbn in *; lia).
  destruct n as [|n]; [lia|]. cbn [drop]. by rewrite (skip_loop_drop sl l program (S n - 1)), Nat.sub_succ, Nat.sub_0_r.
Qed.

Lemma run_internal_skip sl l m program :
  run_program_internal fr_zero transient_hash2 degrade_to_transient fr_as_le_bytes FR_BYTES node_data_lens
    StateValue_serialized_size cost_model mode sl l m program =
  '(events, m) ← skip_loop_at sl l program 0 0 [] m; Ret (mkVmResults (reverse (fst <$> stack m)) events (gas m)).
Proof.
  unfold run_program_internal. rewrite run_loop_skip by done. by destruct (skip_loop_at sl l program 0 0 [] m) as [[ev m']| |].
Qed.
End loop.

(** ** Running without the cache

    [sim c c']: when [c] returns, [c'] started with any gas returns the same,
    with the same stack and cache. *)

Section transparency.
Context {Fr : Type} (fr_zero : Fr) (transient_hash2 : Fr -> Fr -> Fr) (degrade_to_transient : list Z -> Fr).
Context (fr_as_le_bytes : Fr -> list Z) (FR_BYTES : Z).
Context (node_data_lens : StateValue Fr -> list Z) (StateValue_serialized_size : StateValue Fr -> Z).
Context (cost_model : CostModel) (l : option RunningCost).

Definition same_but_gas (m m' : machine Fr) : Prop := stack m = stack m' /\ cache m = cache m'.

Definition sim {A} (c c' : VM Fr A) : Prop := forall m m' a m1,
  same_but_gas m m' -> c m = Ret (a, m1) -> exists m1', c' m' = Ret (a, m1') /\ same_but_gas m1 m1'.

Lemma sim_ret {A} (a : A) : sim (mret a) (mret a).
Proof. intros m m' a' m1 Hs [= <- <-]. by exists m'. Qed.

Lemma sim_lift {A} (o : outcome (OnchainProgramError Fr) A) : sim (lift o) (lift o).
Proof. intros m m' a m1 Hs E. unfold lift in *. destruct o; simplify_eq. by exists m'. Qed.

Lemma sim_fail {A} e (c' : VM Fr A) : sim (fail e) c'.
Proof. intros m m' a m1 Hs E. done. Qed.

Lemma sim_bind {A B} (c c' : VM Fr A) (k k' : A -> VM Fr B) :
  sim c c' -> (forall a, sim (k a) (k' a)) -> sim (c ≫= k) (c' ≫= k').
Proof.
  intros Hc Hk m m' b m2 Hs (a & m1 & E1 & E2)%VM_bind_Ret.
  destruct (Hc _ _ _ _ Hs E1) as (m1' & E1' & Hs1). destruct (Hk a _ _ _ _ Hs1 E2) as (m2' & E2' & Hs2).
  exists m2'. split; [|done]. apply VM_bind_Ret. eauto.
Qed.

Lemma sim_incr_full by_ by' : sim (incr_gas_full l by_) (@incr_gas_full Fr None by').
Proof.
  intros m m' a m1 [Hs Hc] E. unfold incr_gas_full in *. cbv zeta in *.
  exists (mkMachine (stack m') (cache m') (RunningCost_add (gas m') by')).
  destruct a. split; [done|]. repeat case_match; simplify_eq; done.
Qed.

Lemma sim_skip_incr by' : sim (mret tt) (@incr_gas_full Fr None by').
Proof. intros m m' [] m1 [Hs Hc] [= <-]. eexists. split; [reflexivity|]. done. Qed.

Lemma sim_incr t t' : sim (incr_gas l t) (@incr_gas Fr None t').
Proof. apply sim_incr_full. Qed.

(** Primitives that only see the stack and the cache. *)
Lemma sim_pure {A} (c : VM Fr A) :
  (forall s ca g g', match c (mkMachine s ca g) with
    | Ret (a, m) => exists m', c (mkMachine s ca g') = Ret (a, m') /\ same_but_gas m m'
    | _ => True end) -> sim c c.
Proof.
  intros H [s ca g] [s' ca' g'] a m1 [Hs Hc] E. simpl in *. subst. specialize (H s' ca' g g'). by rewrite E in H.
Qed.

Lemma sim_pop : sim (@pop Fr) pop.
Proof. apply sim_pure. intros [|x s] ca g g'; [done|]. eexists. by split. Qed.

Lemma sim_push x : sim (@push Fr x) (push x).
Proof. apply sim_pure. intros s ca g g'. eexists. by split. Qed.

Lemma sim_visit k : sim (@visit_cache Fr k) (visit_cache k).
Proof.
  apply sim_pure. intros s ca g g'. unfold visit_cache. simpl. destruct (visit k ca) as [[c b]| |]; try done.
  eexists. by split.
Qed.

Lemma sim_stack_len : sim (@stack_len Fr) stack_len.
Proof. apply sim_pure. intros s ca g g'. eexists. by split. Qed.

Lemma sim_dup n : sim (@dup Fr n) (dup n).
Proof. apply sim_pure. intros s ca g g'. unfold dup. simpl. destruct (s !! n); [|done]. eexists. by split. Qed.

Lemma sim_swap n : sim (@swap Fr n) (swap n).
Proof.
  apply sim_pure. intros s ca g g'. unfold swap. simpl. destruct (s !! 0%nat), (s !! S n); try done. eexists. by split.
Qed.

Ltac sim_case :=
  match goal with
  | |- sim (_ ≫= _) _ => apply sim_bind; [|intros ?]
  | |- sim (match ?x with _ => _ end) _ => destruct x
  | |- sim (unless ?b _) _ => unfold unless
  | |- sim (silent _) _ => unfold silent
  | |- sim (fail _) _ => apply sim_fail
  | |- sim (push_result _) _ => apply sim_push
  | |- sim pop_cell _ => unfold pop_cell
  | |- sim pop_bool _ => unfold pop_bool
  end.
Ltac simulate := repeat first
  [ apply sim_ret | apply sim_lift | apply sim_pop | apply sim_push | apply sim_visit | apply sim_stack_len
  | apply sim_dup | apply sim_swap | apply sim_incr | apply sim_incr_full | apply sim_skip_incr | sim_case ].

Lemma sim_idx value key cached : sim (@idx Fr value key cached) (idx value key false).
Proof. unfold idx. cbv zeta. cbn [andb]. simulate. Qed.

Lemma sim_idx_loop cached push_path path curr :
  sim (idx_loop FR_BYTES StateValue_serialized_size cost_model l cached push_path path curr)
    (idx_loop FR_BYTES StateValue_serialized_size cost_model None false push_path path curr).
Proof.
  revert curr; induction path as [|key path IH]; intros curr; cbn [idx_loop]; [apply sim_ret|].
  apply sim_bind; [|done]. unfold idx_step. cbv zeta. simulate; apply sim_idx.
Qed.

Lemma sim_pop_keys path : sim (@pop_keys Fr path) (pop_keys path).
Proof. induction path as [|[v|] path IH]; cbn [pop_keys]; simulate; done. Qed.

Lemma sim_ins_loop n cached curr :
  sim (ins_loop fr_zero transient_hash2 degrade_to_transient FR_BYTES StateValue_serialized_size cost_model l n cached curr)
    (ins_loop fr_zero transient_hash2 degrade_to_transient FR_BYTES StateValue_serialized_size cost_model None n false curr).
Proof.
  revert curr; induction n as [|n IH]; intros curr; cbn [ins_loop]; [apply sim_ret|].
  apply sim_bind; [|done]. unfold ins_step. cbv zeta. cbn [andb negb orb]. simulate.
Qed.

(** The instruction without its cached variant. *)
Definition uncached {R} (op : Op Fr R) : Op Fr R :=
  match op with
  | Popeq _ r => Popeq false r
  | Concat _ n => Concat false n
  | Rem _ => Rem false
  | Idx _ p path => Idx false p path
  | Ins _ n => Ins false n
  | _ => op
  end.

Abbreviation exec_at lim := (exec fr_zero transient_hash2 degrade_to_transient fr_as_le_bytes FR_BYTES
                               node_data_lens StateValue_serialized_size cost_model lim).

Lemma sim_exec {R} (op : Op Fr R) : sim (exec_at l op) (exec_at None (uncached op)).
Proof.
  destruct op; cbn [exec uncached]; unfold exec_size, exec_new, exec_root, exec_popeq, exec_concat,
    exec_member, exec_rem, exec_idx, exec_ins, exec_log; cbv zeta; cbn [andb negb orb]; simulate;
    auto using sim_pop_keys, sim_idx_loop, sim_ins_loop.
Qed.

Lemma sim_skipped {R} (op : Op Fr R) : sim (skipped op) (skipped (uncached op)).
Proof. destruct op; cbn [skipped uncached]; simulate. Qed.

Context {R Event : Type} (mode : ResultMode Fr R Event) (sl : option nat).

Abbreviation skip_loop_at lim := (skip_loop fr_zero transient_hash2 degrade_to_transient fr_as_le_bytes FR_BYTES
  node_data_lens StateValue_serialized_size cost_model mode sl lim).

Lemma sim_run program : forall skip steps events,
  sim (skip_loop_at l program skip steps events) (skip_loop_at None (uncached <$> program) skip steps events).
Proof.
  induction program as [|op program IH]; intros skip steps events; [apply sim_ret|].
  destruct skip as [|skip]; cbn [skip_loop fmap list_fmap]; [|apply IH]. unfold step, check. cbv zeta.
  replace (stack_req (uncached op)) with (stack_req op) by (by destruct op).
  replace (length (uncached op :: _)) with (length (op :: program)) by (cbn [length]; by rewrite length_fmap).
  simulate; auto using sim_exec, sim_skipped.
  replace (emit node_data_lens mode (uncached op) a1 events) with (emit node_data_lens mode op a1 events) by (by destruct op).
  simulate.
Qed.
End transparency.

(** ** Gathering and verifying *)

Definition op_map {Fr R R'} (f : R -> R') (op : Op Fr R) : Op Fr R' :=
  match op with
  | Noop n => Noop n | Lt => Lt | Eq => Eq | Type_ => Type_ | OnchainVm.Size => OnchainVm.Size | New => New | And => And | Or => Or
  | Neg => Neg | Log => Log | Root => Root | Pop => Pop | Popeq c r => Popeq c (f r) | Addi i => Addi i
  | Subi i => Subi i | Push s v => Push s v | Branch k => Branch k | Jmp k => Jmp k | OnchainVm.Add => OnchainVm.Add | Sub => Sub
  | Concat c n => Concat c n | Member => Member | Rem c => Rem c | Dup n => Dup n | Swap n => Swap n
  | Idx c p path => Idx c p path | Ins c n => Ins c n | Ckpt => Ckpt
  end.

(** A program without the expected results. *)
Definition strip {Fr R} (program : list (Op Fr R)) : list (Op Fr unit) := op_map (fun _ => tt) <$> program.

Lemma length_strip {Fr R} (program : list (Op Fr R)) : length (strip program) = length program.
Proof. apply length_fmap. Qed.

(** A read with what was expected, or a log entry: the specification of both
    modes. *)
Inductive CompareEvent (Fr : Type) := CRead (expected actual : AlignedValue) | CLog (e : VersionedLogItem Fr).
Arguments CRead {Fr}.
Arguments CLog {Fr}.

Definition ResultModeCompare {Fr} : ResultMode Fr AlignedValue (CompareEvent Fr) :=
  mkResultMode (fun expected actual => Ret (Some (CRead expected actual))) (fun event => Some (CLog event)).

Definition matches {Fr} (e : CompareEvent Fr) : Prop :=
  match e with CRead expected actual => expected = actual | CLog _ => True end.

#[export] Instance matches_dec {Fr} (e : CompareEvent Fr) : Decision (matches e).
Proof. destruct e; simpl; apply _. Defined.

Definition logged {Fr} (e : CompareEvent Fr) : option (VersionedLogItem Fr) :=
  match e with CLog e => Some e | CRead _ _ => None end.

Definition gathered {Fr} (e : CompareEvent Fr) : GatherEvent Fr :=
  match e with CRead _ actual => GRead actual | CLog e => GLog e end.

Section modes.
Context {Fr : Type} (fr_zero : Fr) (transient_hash2 : Fr -> Fr -> Fr) (degrade_to_transient : list Z -> Fr).
Context (fr_as_le_bytes : Fr -> list Z) (FR_BYTES : Z).
Context (node_data_lens : StateValue Fr -> list Z) (StateValue_serialized_size : StateValue Fr -> Z).
Context (cost_model : CostModel) (sl : option nat) (l : option RunningCost).

Abbreviation exec_at := (exec fr_zero transient_hash2 degrade_to_transient fr_as_le_bytes FR_BYTES
                           node_data_lens StateValue_serialized_size cost_model l).
Abbreviation skip_loop_at mode := (skip_loop fr_zero transient_hash2 degrade_to_transient fr_as_le_bytes FR_BYTES
  node_data_lens StateValue_serialized_size cost_model mode sl l).
Abbreviation step_at mode := (step fr_zero transient_hash2 degrade_to_transient fr_as_le_bytes FR_BYTES
  node_data_lens StateValue_serialized_size cost_model mode l).

Lemma exec_op_map {R R'} (f : R -> R') (op : Op Fr R) : exec_at (op_map f op) = exec_at op.
Proof. by destruct op. Qed.

Lemma skipped_op_map {R R'} (f : R -> R') (op : Op Fr R) : skipped (op_map f op) = skipped op.
Proof. by destruct op. Qed.

Lemma stack_req_op_map {R R'} (f : R -> R') (op : Op Fr R) : stack_req (op_map f op) = stack_req op.
Proof. by destruct op. Qed.

(** A turn of the loop, before and after its event. *)
Definition before {R} (op : Op Fr R) : VM Fr (OpOutput Fr) :=
  len ← stack_len; _ ← check (stack_req op <=? len) RanOffStack; exec_at op.

Definition after {R} (op : Op Fr R) (remaining : nat) : VM Fr nat :=
  skip ← skipped op;
  _ ← check (S (Z.to_nat skip) <=? remaining)%nat RanPastProgramEnd;
  len ← stack_len;
  _ ← check (len <=? MAX_STACK_HEIGHT) StackOverflow;
  mret (S (Z.to_nat skip)).

Definition then_ {A B} (o : outcome (OnchainProgramError Fr) A) (k : A -> outcome (OnchainProgramError Fr) B) :=
  o ≫= k.

Lemma step_split {R Event} (mode : ResultMode Fr R Event) remaining op events m :
  step_at mode remaining op events m =
  '(out, m1) ← before op m;
  ev ← emit node_data_lens mode op out events;
  '(n, m2) ← after op remaining m1;
  Ret ((n, ev), m2).
Proof.
  unfold step, before, after. unfold mbind, VM_bind, outcome_bind, stack_len. cbv zeta beta iota.
  destruct (check (stack_req op <=? _) RanOffStack m) as [[[] m0]| |]; [|done..].
  destruct (exec_at op m0) as [[out m1]| |]; [|done..]. unfold lift.
  destruct (emit node_data_lens mode op out events) as [ev| |]; [|done..].
  destruct (skipped op m1) as [[k m2]| |]; [|done..].
  destruct (check (S (Z.to_nat k) <=? remaining)%nat RanPastProgramEnd m2) as [[[] m3]| |]; [|done..].
  by destruct (check _ StackOverflow m3) as [[[] m4]| |].
Qed.

Lemma before_op_map {R R'} (f : R -> R') (op : Op Fr R) : before (op_map f op) = before op.
Proof. unfold before. by rewrite exec_op_map, stack_req_op_map. Qed.

Lemma after_op_map {R R'} (f : R -> R') (op : Op Fr R) n : after (op_map f op) n = after op n.
Proof. unfold after. by rewrite skipped_op_map. Qed.

(** The loop around a turn. *)
Lemma skip_loop_turn {R Event} (mode : ResultMode Fr R Event) op program steps events m :
  limit_reached sl steps = false ->
  skip_loop_at mode (op :: program) 0 steps events m =
  '(out, m1) ← before op m;
  ev ← emit node_data_lens mode op out events;
  '(n, m2) ← after op (S (length program)) m1;
  skip_loop_at mode program (n - 1) (S steps) ev m2.
Proof.
  intros Hl. rewrite skip_loop_unfold, Hl. unfold mbind at 1, VM_bind. rewrite step_split. cbn [length].
  destruct (before op m) as [[out m1]| |]; [|done..]. cbn [mbind outcome_bind].
  destruct (emit node_data_lens mode op out events) as [ev| |]; [|done..]. cbn [mbind outcome_bind].
  by destruct (after op (S (length program)) m1) as [[n m2]| |].
Qed.

Lemma emit_gather (op : Op Fr AlignedValue) out events :
  emit node_data_lens ResultModeGather (op_map (fun _ => tt) op) out (map gathered events) =
  ev ← emit node_data_lens ResultModeCompare op out events; Ret (map gathered ev).
Proof.
  destruct out as [|v|v].
  - by destruct op.
  - destruct op; try done. cbn. by rewrite map_app.
  - destruct op; cbn; destruct (decode_event node_data_lens v); cbn; by rewrite ?map_app.
Qed.

(** Verifying succeeds where the comparison matches. *)
Lemma emit_verify (op : Op Fr AlignedValue) out events :
  exists new, emit node_data_lens ResultModeCompare op out events = Ret (events ++ new) /\
    forall ev, if decide (Forall matches new)
      then emit node_data_lens ResultModeVerify op out ev = Ret (ev ++ omap logged new)
      else exists e a, emit node_data_lens ResultModeVerify op out ev = Fail (ReadMismatch e a).
Proof.
  destruct out as [|v|v].
  - exists []. rewrite app_nil_r. split; [by destruct op|]. intros ev. rewrite decide_True by constructor.
    cbn. rewrite app_nil_r. by destruct op.
  - destruct op; try (exists []; rewrite app_nil_r; split; [done|]; intros ev; rewrite decide_True by constructor;
      cbn; by rewrite app_nil_r).
    exists [CRead result v]. split; [done|]. intros ev. cbn. case_bool_decide as E.
    + rewrite decide_True by (by repeat constructor). cbn. by rewrite app_nil_r.
    + rewrite decide_False; [by exists result, v|]. intros H. by inversion H.
  - exists (option_list (CLog <$> decode_event node_data_lens v)).
    split; [destruct op; cbn; destruct (decode_event node_data_lens v); cbn; by rewrite ?app_nil_r|].
    intros ev. rewrite decide_True by (destruct (decode_event node_data_lens v); repeat constructor).
    destruct op; cbn; destruct (decode_event node_data_lens v); cbn; by rewrite ?app_nil_r.
Qed.

(** Gathering sees the reads of the comparing run. *)
Lemma gather_compare program : forall skip steps events m,
  skip_loop_at ResultModeGather (strip program) skip steps (map gathered events) m =
  '(ev, m') ← skip_loop_at ResultModeCompare program skip steps events m; Ret (map gathered ev, m').
Proof.
  induction program as [|op program IH]; intros skip steps events m; [done|].
  unfold strip. cbn [fmap list_fmap]. fold (strip program).
  destruct skip as [|skip]; [|apply IH]. destruct (limit_reached sl steps) eqn:Hl.
  { cbn [skip_loop]. by rewrite Hl. }
  rewrite !skip_loop_turn by done. rewrite before_op_map. destruct (before op m) as [[out m1]| |]; [|done..].
  cbn [mbind outcome_bind]. rewrite length_strip, after_op_map.
  rewrite emit_gather. destruct (emit node_data_lens ResultModeCompare op out events) as [ev| |]; [|done..]. cbn [mbind outcome_bind].
  destruct (after op (S (length program)) m1) as [[n m2]| |]; [|done..]. apply IH.
Qed.

(** Verifying returns exactly where the comparing run returns and every read is
    what was expected. *)
Lemma verify_compare program : forall skip steps events m,
  match skip_loop_at ResultModeCompare program skip steps events m with
  | Ret (ev, m') => exists new, ev = events ++ new /\ forall ev,
      if decide (Forall matches new)
      then skip_loop_at ResultModeVerify program skip steps ev m = Ret (ev ++ omap logged new, m')
      else exists e a, skip_loop_at ResultModeVerify program skip steps ev m = Fail (ReadMismatch e a)
  | _ => forall ev, match skip_loop_at ResultModeVerify program skip steps ev m with Ret _ => False | _ => True end
  end.
Proof.
  induction program as [|op program IH]; intros skip steps events m.
  { exists []. rewrite app_nil_r. split; [done|]. intros ev. rewrite decide_True by constructor. cbn. by rewrite app_nil_r. }
  destruct skip as [|skip]; [|apply IH]. destruct (limit_reached sl steps) eqn:Hl.
  { cbn [skip_loop]. rewrite Hl. exists []. rewrite app_nil_r. split; [done|]. intros ev.
    rewrite decide_True by constructor. cbn. by rewrite app_nil_r. }
  rewrite skip_loop_turn by done.
  assert (Hv : forall ev, skip_loop_at ResultModeVerify (op :: program) 0 steps ev m = _) by (intros ev; by apply skip_loop_turn).
  destruct (before op m) as [[out m1]| |]; cbn [mbind outcome_bind] in *; try (intros ev; by rewrite Hv).
  destruct (emit_verify op out events) as (new & Hc & Hev). rewrite Hc. cbn [mbind outcome_bind].
  destruct (after op (S (length program)) m1) as [[n m2]|e|] eqn:Ea; cbn [mbind outcome_bind] in *.
  - specialize (IH (n - 1)%nat (S steps) (events ++ new) m2).
    destruct (skip_loop_at ResultModeCompare program (n - 1) (S steps) (events ++ new) m2) as [[ev2 m']|e|].
    + destruct IH as (new2 & -> & IH). exists (new ++ new2). rewrite app_assoc. split; [done|]. intros ev.
      rewrite Hv. specialize (Hev ev). destruct (decide (Forall matches new)) as [Hn|Hn].
      * rewrite Hev. cbn [mbind outcome_bind]. specialize (IH (ev ++ omap logged new)). rewrite omap_app, app_assoc.
        destruct (decide (Forall matches new2)) as [H2|H2].
        -- rewrite decide_True by (by apply Forall_app). done.
        -- rewrite decide_False; [done|]. rewrite Forall_app. tauto.
      * rewrite decide_False by (rewrite Forall_app; tauto). destruct Hev as (e & a & ->). by exists e, a.
    + intros ev. rewrite Hv. specialize (Hev ev). destruct (decide (Forall matches new)); [rewrite Hev; apply IH|].
      by destruct Hev as (? & ? & ->).
    + intros ev. rewrite Hv. specialize (Hev ev). destruct (decide (Forall matches new)); [rewrite Hev; apply IH|].
      by destruct Hev as (? & ? & ->).
  - intros ev. rewrite Hv. specialize (Hev ev). destruct (decide (Forall matches new)); [by rewrite Hev|by destruct Hev as (? & ? & ->)].
  - intros ev. rewrite Hv. specialize (Hev ev). destruct (decide (Forall matches new)); [by rewrite Hev|by destruct Hev as (? & ? & ->)].
Qed.

Lemma strip_op_map {R} (v : R) (op : Op Fr unit) : op_map (fun _ => tt) (op_map (fun _ => v) op) = op.
Proof. destruct op as [| | | | | | | | | | | |? []|  | | | | | | | | | | | | | |]; done. Qed.

Lemma emit_filled (op : Op Fr unit) out events :
  let v := match out with ORead v => v | _ => av_of_unit end in
  exists new, emit node_data_lens ResultModeCompare (op_map (fun _ => v) op) out events = Ret (events ++ new) /\ Forall matches new.
Proof.
  cbv zeta. destruct out as [|v|v].
  - exists []. rewrite app_nil_r. split; [by destruct op|constructor].
  - destruct op; try (exists []; rewrite app_nil_r; by split).
    exists [CRead v v]. split; [done|by repeat constructor].
  - exists (option_list (CLog <$> decode_event node_data_lens v)).
    split; [destruct op; cbn; destruct (decode_event node_data_lens v); cbn; by rewrite ?app_nil_r|].
    destruct (decode_event node_data_lens v); repeat constructor.
Qed.

(** The reads of a gathering run fill in the expected results. *)
Lemma gather_fills program : forall skip steps ev m r,
  skip_loop_at ResultModeGather program skip steps ev m = Ret r ->
  exists pv, strip pv = program /\ forall events, exists new,
    skip_loop_at ResultModeCompare pv skip steps events m = Ret (events ++ new, snd r) /\ Forall matches new.
Proof.
  induction program as [|op program IH]; intros skip steps ev m r E.
  { exists []. split; [done|]. intros events. exists []. rewrite app_nil_r. injection E as <-. by split. }
  assert (Hrest : exists pv : list (Op Fr AlignedValue), strip pv = program).
  { exists (op_map (fun _ => av_of_unit) <$> program). unfold strip. rewrite <- list_fmap_compose.
    rewrite <- (list_fmap_id program) at 2. apply list_fmap_ext. intros i o _. apply strip_op_map. }
  destruct skip as [|skip].
  2: { destruct (IH skip steps ev m r E) as (pv & <- & Hpv). exists (op_map (fun _ => av_of_unit) op :: pv). split; [|done].
       unfold strip. cbn [fmap list_fmap]. by rewrite strip_op_map. }
  destruct (limit_reached sl steps) eqn:Hl.
  { cbn [skip_loop] in E. rewrite Hl in E. injection E as <-. destruct Hrest as [pv <-].
    exists (op_map (fun _ => av_of_unit) op :: pv). split; [unfold strip; cbn [fmap list_fmap]; by rewrite strip_op_map|].
    intros events. exists []. rewrite app_nil_r. cbn [skip_loop]. rewrite Hl. by split. }
  rewrite skip_loop_turn in E by done. destruct (before op m) as [[out m1]| |] eqn:Eb; [|done..]. cbn [mbind outcome_bind] in E.
  destruct (emit node_data_lens ResultModeGather op out ev) as [ev1| |]; [|done..]. cbn [mbind outcome_bind] in E.
  destruct (after op (S (length program)) m1) as [[n m2]| |] eqn:Ea; [|done..]. cbn [mbind outcome_bind] in E.
  destruct (IH _ _ _ _ _ E) as (pv & <- & Hpv).
  exists (op_map (fun _ => match out with ORead v => v | _ => av_of_unit end) op :: pv).
  split; [unfold strip; cbn [fmap list_fmap]; by rewrite strip_op_map|]. intros events.
  destruct (emit_filled op out events) as (new & He & Hm). destruct (Hpv (events ++ new)) as (new2 & Hr & Hm2).
  exists (new ++ new2). rewrite skip_loop_turn by done. rewrite before_op_map, Eb. cbn [mbind outcome_bind]. rewrite He.
  cbn [mbind outcome_bind]. rewrite after_op_map. rewrite length_strip in Ea. rewrite Ea. cbn [mbind outcome_bind]. rewrite Hr, app_assoc.
  split; [done|by apply Forall_app].
Qed.
End modes.
