(* ===== verification/VmSafety.v ===== *)
(** * The virtual machine does not go wrong

    Well-formed values ([value_wf]: the shape that [StateValue::invariant] asks of
    a value and of everything in it, aligned cells, and a condition on cells) stay
    well formed, and no instruction panics: the stack is checked before it is
    popped, the cache is only asked for positions of the initial stack, and Merkle
    trees are updated within their shape.  With the bound of
    [StateValue::invariant] as the condition on cells, values are [loadable]; a
    concatenation keeps this when it declares a size a few bytes below the bound. *)

From S2P Require Import Prelude Serialize MerkleTree Cost VmCost Fab OnchainVm VmProperties.
From stdpp Require Import gmap sorting.

Local Open Scope Z_scope.

(** ** Sizes of cells *)

(** What the conversions of the runtime make is smaller than this. *)
Definition SMALL_CELL : Z := 256.

Lemma flagged_int_size_le n : n <= 4095 -> 1 <= flagged_int_size n <= 2.
Proof. intros Hn. unfold flagged_int_size, ONE_BYTE_LIMIT, TWO_BYTE_LIMIT. repeat case_match; lia. Qed.

Lemma atom_size_small a : (length a <= 64)%nat -> 0 <= ValueAtom_serialized_size a <= 66.
Proof.
  intros Hl. pose proof (normalize_length a). split; [apply ValueAtom_size_nonneg|]. unfold ValueAtom_serialized_size.
  assert (Hs : flagged_int_size (len_u32 (normalize a)) <= 2).
  { apply flagged_int_size_le. unfold len_u32, wrap. rewrite Z.mod_small; lia. }
  destruct (normalize a) as [|b [|]]; try lia. destruct (Z.ltb_spec b 32); [pose proof (flagged_int_size_le b); lia|].
  pose proof (flagged_int_size_le 1). lia.
Qed.

Lemma sum_size_le {A} (f : A -> Z) c l : Forall (fun x => f x <= c) l -> sum_size f l <= c * Z.of_nat (length l).
Proof. induction 1 as [|x l Hx _ IH]; cbn [sum_size length]; [lia|]. fold (sum_size f). lia. Qed.

(** A few short atoms. *)
Lemma small_cell vs ss : (length vs <= 3)%nat -> Forall (fun a => (length a <= 64)%nat) vs -> (length ss <= 3)%nat ->
  Forall (fun s => AlignmentSegment_serialized_size s <= 2) ss -> AlignedValue_serialized_size (mkAlignedValue vs ss) <= SMALL_CELL.
Proof.
  intros Hv Ha Hs Hb. unfold AlignedValue_serialized_size, SMALL_CELL. cbn [av_value av_alignment].
  assert (Hva : Forall (fun a => ValueAtom_serialized_size a <= 66) vs) by (eapply Forall_impl; [exact Ha|]; intros; by apply atom_size_small).
  assert (H3 : forall (A : Type) (l : list A), (length l <= 3)%nat -> flagged_int_size (len_u32 l) <= 2).
  { intros A l Hl. apply flagged_int_size_le. unfold len_u32, wrap. rewrite Z.mod_small; lia. }
  assert (V : Value_serialized_size vs <= 200).
  { unfold Value_serialized_size. pose proof (sum_size_le _ _ _ Hva). pose proof (H3 _ vs Hv).
    destruct Hva as [|a l H1 Hl]; [lia|]. destruct l; [lia|]. cbn [length] in *. lia. }
  assert (Alignment_serialized_size ss <= 8); [|lia]. unfold Alignment_serialized_size, alignment_size.
  pose proof (sum_size_le _ _ _ Hb). pose proof (H3 _ ss Hs). destruct Hb as [|a l H1 Hl]; [lia|]. destruct l; [lia|]. cbn [length] in *. lia.
Qed.

Section safety.
Context {Fr : Type} (fr_zero : Fr) (transient_hash2 : Fr -> Fr -> Fr) (degrade_to_transient : list Z -> Fr).
Context (fr_as_le_bytes : Fr -> list Z) (FR_BYTES : Z).
Context (node_data_lens : StateValue Fr -> list Z) (StateValue_serialized_size : StateValue Fr -> Z).
Context (cost_model : CostModel) (l : option RunningCost).
(** A field element has at most 64 bytes. *)
Context (Hfr : forall d, bytes_ok (fr_as_le_bytes d) /\ Z.of_nat (length (fr_as_le_bytes d)) <= FIELD_BYTE_LIMIT).

(** A condition on cells that holds of small ones. *)
Context (cell_fits : AlignedValue -> Prop) (Hsmall : forall v, AlignedValue_serialized_size v <= SMALL_CELL -> cell_fits v).

Abbreviation Tree := (@MerkleTreeNode (list Z) Fr unit).
Abbreviation root_of := (@node_root (list Z) Fr unit fr_zero degrade_to_transient).

(** ** Well-formed values *)

Definition cell_ok (v : AlignedValue) : Prop := aligned v /\ Forall (fun a => bytes_ok a) (av_value v).

(** [MerkleTreeNode::invariant] of every node. *)
Fixpoint tree_ok (t : Tree) : Prop :=
  match t with
  | Leaf hash _ => bytes_ok hash /\ length hash = PERSISTENT_HASH_BYTES
  | Node _ lft rgt _ => node_invariant fr_zero degrade_to_transient t = true /\ tree_ok lft /\ tree_ok rgt
  | _ => True
  end.

(** [StateValue::invariant], one level. *)
Definition invariant (v : StateValue Fr) : Prop :=
  match v with
  | SNull | SMap _ => True
  | SCell v => AlignedValue_serialized_size v <= CELL_BOUND
  | SArray arr => (length arr <= 16)%nat
  | SBmt t => (0 < node_height t <= 32)%nat /\ is_Some (root_of t)
  end.

Definition cell_wf (v : AlignedValue) : Prop := cell_ok v /\ cell_fits v.

(** A value with everything in it; its cells are aligned and satisfy [cell_fits]. *)
Inductive value_wf : StateValue Fr -> Prop :=
| wf_null : value_wf SNull
| wf_cell v : cell_wf v -> value_wf (SCell v)
| wf_map m : map_Forall (fun _ v => value_wf v) m -> value_wf (SMap m)
| wf_array arr : invariant (SArray arr) -> Forall value_wf arr -> value_wf (SArray arr)
| wf_bmt t : invariant (SBmt t) -> tree_ok t -> value_wf (SBmt t).

#[local] Hint Constructors value_wf : midnight.

(** ** Merkle trees *)

Abbreviation rehash_tree := (rehash fr_zero transient_hash2 degrade_to_transient).

Lemma rehash_ok t : tree_ok t -> exists t', rehash_tree t = Ret t' /\ tree_ok t' /\ node_height t' = node_height t /\
  is_Some (root_of t').
Proof.
  induction t as [h a|x h|h|ho lft IHl rgt IHr h]; intros Hok; try (eexists; split_and!; [reflexivity|done|done|eauto]; fail).
  cbn [rehash tree_ok] in *. destruct Hok as (Hi & Hl & Hr). destruct ho as [x|].
  { eexists. split_and!; [reflexivity|done|done|eauto]. }
  destruct (IHl Hl) as (l' & -> & Ll & Hhl & [rl Rl]), (IHr Hr) as (r' & -> & Lr & Hhr & [rr Rr]).
  cbn [mbind outcome_bind]. rewrite Rl, Rr. cbn [expect mbind outcome_bind]. eexists. split; [reflexivity|].
  split_and!; [cbn [tree_ok]; split_and!; try done|done|eauto].
  cbn [node_invariant is_none negb andb] in *. rewrite Hhl, Hhr, Rl, Rr. cbn.
  destruct ((h =? 0)%nat || negb (h - 1 =? node_height lft)%nat || negb (h - 1 =? node_height rgt)%nat); done.
Qed.

Lemma node_invariant_heights ho (lft rgt : Tree) h :
  node_invariant fr_zero degrade_to_transient (Node ho lft rgt h) = true ->
  (0 < h)%nat /\ node_height lft = (h - 1)%nat /\ node_height rgt = (h - 1)%nat.
Proof.
  cbn [node_invariant]. destruct (Nat.eqb_spec h 0), (Nat.eqb_spec (h - 1) (node_height lft)),
    (Nat.eqb_spec (h - 1) (node_height rgt)); cbn; try done. lia.
Qed.

Lemma node_invariant_unhashed (lft rgt : Tree) h :
  (0 < h)%nat -> node_height lft = (h - 1)%nat -> node_height rgt = (h - 1)%nat ->
  node_invariant fr_zero degrade_to_transient (Node None lft rgt h) = true.
Proof.
  intros Hh Hl Hr. cbn [node_invariant]. rewrite Hl, Hr, Nat.eqb_refl.
  by destruct (Nat.eqb_spec h 0); [lia|].
Qed.

Definition update_result (t : Tree) (o : outcome InvalidUpdate Tree) : Prop :=
  match o with
  | Ret t' => tree_ok t' /\ node_height t' = node_height t
  | Fail _ => True
  | Panic => False
  end.

Lemma update_ok leaf : bytes_ok leaf -> length leaf = PERSISTENT_HASH_BYTES ->
  forall fuel t i, (node_height t < fuel)%nat -> tree_ok t -> update_result t (try_update_hash_rec fuel t i leaf tt).
Proof.
  intros Hb Hl. induction fuel as [|fuel IH]; intros t i Hf Ht; [lia|]. cbn [try_update_hash_rec]. cbv zeta.
  destruct (pow2 (node_height t) <=? i); [done|]. destruct (is_collapsed t) eqn:Hc; [done|].
  destruct (Nat.eqb_spec (node_height t) 0) as [E0|E0]; [by unfold update_result; rewrite E0|].
  assert (Hnode : exists ho lft rgt, match t with Stub height => Node None (Stub (height - 1)) (Stub (height - 1)) height | _ => t end
    = Node ho lft rgt (node_height t) /\ tree_ok lft /\ tree_ok rgt /\
    node_height lft = (node_height t - 1)%nat /\ node_height rgt = (node_height t - 1)%nat).
  { destruct t as [h a|x h|h|ho lft rgt h]; try done.
    - by exists None, (Stub (h - 1)), (Stub (h - 1)).
    - destruct Ht as (Hi & ? & ?). apply node_invariant_heights in Hi. exists ho, lft, rgt. naive_solver. }
  destruct Hnode as (ho & lft & rgt & -> & Tl & Tr & Hhl & Hhr).
  set (cmp := pow2 (node_height t - 1)). destruct (i <? cmp).
  - specialize (IH lft i ltac:(lia) Tl). destruct (try_update_hash_rec fuel lft i leaf tt) as [t'| |]; try done.
    destruct IH as [T' H']. cbn. split_and!; try done. apply node_invariant_unhashed; [lia|congruence|done].
  - specialize (IH rgt (i - cmp) ltac:(lia) Tr). destruct (try_update_hash_rec fuel rgt (i - cmp) leaf tt) as [t'| |]; try done.
    destruct IH as [T' H']. cbn. split_and!; try done. apply node_invariant_unhashed; [lia|done|congruence].
Qed.

(** ** Conversions *)

Lemma cell_uint n x : 0 <= n <= 16 -> in_u (8 * n) x -> cell_ok (av_of_uint n x).
Proof.
  intros Hn Hx. split; [by apply aligned_uint|]. apply Forall_singleton. apply normalize_bytes, to_le_bytes_ok.
Qed.

Lemma cell_bool b : cell_ok (av_of_bool b).
Proof.
  split; [apply aligned_bool|]. apply Forall_singleton, normalize_bytes, Forall_singleton. unfold is_byte. destruct b; lia.
Qed.

Lemma cell_hash h : bytes_ok h -> length h = PERSISTENT_HASH_BYTES -> cell_ok (av_of_hash h).
Proof. intros Hb Hl. split; [by apply aligned_hash|]. apply Forall_singleton. by apply normalize_bytes. Qed.

Lemma cell_digest d : cell_ok (av_of_digest fr_as_le_bytes d).
Proof.
  destruct (Hfr d) as [Hb Hl]. split; [|apply Forall_singleton; by apply normalize_bytes].
  unfold aligned. apply fits_eat. cbn [consume_segments consume_segment av_of_digest av_alignment av_value atom_fits].
  rewrite normalize_nf. pose proof (normalize_length (fr_as_le_bytes d)).
  by destruct (Z.leb_spec (Z.of_nat (length (normalize (fr_as_le_bytes d)))) FIELD_BYTE_LIMIT); [|lia].
Qed.

Lemma cell_unit : cell_ok av_of_unit.
Proof. split; [done|constructor]. Qed.

(** The small cells that instructions make. *)
Lemma wf_small v : cell_ok v -> AlignedValue_serialized_size v <= SMALL_CELL -> cell_wf v.
Proof. split; [done|by apply Hsmall]. Qed.

Lemma wf_atom a n : cell_ok (mkAlignedValue [a] [SegAtom n]) -> (length a <= 64)%nat -> AlignmentAtom_serialized_size n <= 2 ->
  cell_wf (mkAlignedValue [a] [SegAtom n]).
Proof. intros Hc Ha Hn. apply wf_small; [done|]. apply small_cell; [cbn; lia|by apply Forall_singleton|cbn; lia|by apply Forall_singleton]. Qed.

Lemma bytes_size_small n : n <= 64 -> AlignmentAtom_serialized_size (Bytes n) <= 2.
Proof. intros Hn. cbn. apply flagged_int_size_le. lia. Qed.

Lemma wf_uint n x : 0 <= n <= 16 -> in_u (8 * n) x -> cell_wf (av_of_uint n x).
Proof.
  intros Hn Hx. apply wf_atom; [by apply cell_uint| |apply bytes_size_small; lia].
  etransitivity; [apply normalize_length|]. rewrite length_to_le_bytes. lia.
Qed.

Lemma wf_bool b : cell_wf (av_of_bool b).
Proof. apply wf_atom; [apply cell_bool| |by apply bytes_size_small]. etransitivity; [apply normalize_length|]. cbn. lia. Qed.

Lemma wf_hash h : bytes_ok h -> length h = PERSISTENT_HASH_BYTES -> cell_wf (av_of_hash h).
Proof.
  intros Hb Hl. apply wf_atom; [by apply cell_hash| |by apply bytes_size_small]. etransitivity; [apply normalize_length|].
  rewrite Hl. unfold PERSISTENT_HASH_BYTES. lia.
Qed.

Lemma wf_digest d : cell_wf (av_of_digest fr_as_le_bytes d).
Proof.
  apply wf_atom; [apply cell_digest| |cbn; lia]. etransitivity; [apply normalize_length|]. destruct (Hfr d) as [_ H].
  unfold FIELD_BYTE_LIMIT in H. lia.
Qed.

Lemma wf_unit : cell_wf av_of_unit.
Proof. apply wf_small; [apply cell_unit|]. by vm_compute. Qed.

Lemma value_to_uint_range w v x : Forall (fun a => bytes_ok a) v -> 0 <= w ->
  value_to (atom_to_uint w) v = Ok x -> in_u w x.
Proof.
  intros Hv Hw E. destruct v as [|a [|]]; try done. inversion_clear Hv as [|? ? Ha _]. cbn in E.
  apply atom_to_uint_inv in E as [E _]; [|done]. unfold u_max in E. unfold in_u. lia.
Qed.

Lemma value_to_hash_ok v h : Forall (fun a => bytes_ok a) v -> value_to atom_to_hash v = Ok h ->
  bytes_ok h /\ length h = PERSISTENT_HASH_BYTES.
Proof.
  intros Hv E. destruct v as [|a [|]]; try done. inversion_clear Hv as [|? ? Ha _]. cbn in E. unfold atom_to_hash in E.
  destruct (Nat.leb_spec (length a) PERSISTENT_HASH_BYTES); [|done]. injection E as <-. split.
  - apply Forall_app. split; [done|]. apply Forall_replicate. unfold is_byte. lia.
  - rewrite length_app, length_replicate. lia.
Qed.

(** ** Weakest preconditions *)

Definition wp {A} (c : VM Fr A) (Q : A -> machine Fr -> Prop) (m : machine Fr) : Prop :=
  match c m with Ret (a, m') => Q a m' | Fail _ => True | Panic => False end.

(** Values on the stack, with links to the [nc] positions of the cache. *)
Definition key_ok (nc : nat) (k : CacheKey) : Prop := match k with Some (n, _) => (n < nc)%nat | None => True end.
Definition entry_ok (nc : nat) (x : VmValue Fr * CacheKey) : Prop := value_wf (vm_value (fst x)) /\ key_ok nc (snd x).
Definition machine_ok (nc : nat) (m : machine Fr) : Prop := length (cache m) = nc /\ Forall (entry_ok nc) (stack m).

Lemma wp_ret {A} (a : A) Q m : Q a m -> wp (mret a) Q m.
Proof. done. Qed.

Lemma wp_bind {A B} (c : VM Fr A) (k : A -> VM Fr B) Q m : wp c (fun a m' => wp (k a) Q m') m -> wp (c ≫= k) Q m.
Proof. unfold wp, mbind, VM_bind. by destruct (c m) as [[a m']| |]. Qed.

Lemma wp_mono {A} (c : VM Fr A) (Q Q' : A -> machine Fr -> Prop) m :
  (forall a m', Q a m' -> Q' a m') -> wp c Q m -> wp c Q' m.
Proof. intros H. unfold wp. destruct (c m) as [[a m']| |]; auto. Qed.

Lemma wp_fail {A} e (Q : A -> machine Fr -> Prop) m : wp (fail e) Q m.
Proof. done. Qed.

Lemma wp_lift {A} (o : outcome (OnchainProgramError Fr) A) (P : A -> Prop) Q m :
  match o with Ret a => P a | Fail _ => True | Panic => False end -> (forall a, P a -> Q a m) -> wp (lift o) Q m.
Proof. unfold wp, lift. destruct o; auto. Qed.

Lemma wp_incr_full by_ Q s ca g : (forall g, Q tt (mkMachine s ca g)) -> wp (incr_gas_full l by_) Q (mkMachine s ca g).
Proof. intros H. unfold wp, incr_gas_full. cbv zeta. cbn. repeat case_match; simplify_eq; done. Qed.

Lemma wp_incr t Q s ca g : (forall g, Q tt (mkMachine s ca g)) -> wp (incr_gas l t) Q (mkMachine s ca g).
Proof. apply wp_incr_full. Qed.

Lemma wp_pop Q x s ca g : Q x (mkMachine s ca g) -> wp pop Q (mkMachine (x :: s) ca g).
Proof. done. Qed.

Lemma wp_push Q x s ca g : Q tt (mkMachine (x :: s) ca g) -> wp (push x) Q (mkMachine s ca g).
Proof. done. Qed.

Lemma wp_stack_len Q m : Q (Z.of_nat (length (stack m))) m -> wp stack_len Q m.
Proof. done. Qed.

Lemma wp_pop_cell Q x s ca g nc : entry_ok nc x ->
  (forall v, cell_wf v -> Q v (mkMachine s ca g)) -> wp pop_cell Q (mkMachine (x :: s) ca g).
Proof.
  intros [Hx _] HQ. unfold pop_cell. apply wp_bind, wp_pop. destruct x as [v k].
  apply (wp_lift _ cell_wf); [|done]. cbn in *. by destruct Hx.
Qed.

Lemma wp_visit k Q s ca g : key_ok (length ca) k ->
  (forall b ca', length ca' = length ca -> Q b (mkMachine s ca' g)) -> wp (visit_cache k) Q (mkMachine s ca g).
Proof.
  intros Hk HQ. unfold wp, visit_cache, visit. cbn [cache stack gas]. destruct k as [[n path]|]; [|by apply HQ].
  cbn in Hk. destruct (Nat.ltb_spec (length ca) n); [lia|]. destruct (lookup_lt_is_Some_2 ca n Hk) as [inner ->].
  destruct (visit_path path inner) as [inner' b]. apply HQ. by rewrite length_insert.
Qed.

Lemma key_ok_push nc k v : key_ok nc k -> key_ok nc (push_key k v).
Proof. by destruct k as [[]|]. Qed.

Lemma wp_unless b c Q s ca g : (forall g, Q tt (mkMachine s ca g)) ->
  (forall Q' s ca g, (forall g, Q' tt (mkMachine s ca g)) -> wp c Q' (mkMachine s ca g)) ->
  wp (unless b c) Q (mkMachine s ca g).
Proof. intros HQ Hc. destruct b; [apply HQ|by apply Hc]. Qed.

Lemma wp_unless_fail b e Q m : Q tt m -> wp (unless b (fail e)) Q m.
Proof. by destruct b. Qed.

(** The operations on containers. *)

Definition good (o : outcome (OnchainProgramError Fr) (StateValue Fr)) : Prop :=
  match o with Ret v => value_wf v | Fail _ => True | Panic => False end.

Lemma update_tree_ok t i leaf : invariant (SBmt t) -> tree_ok t -> bytes_ok leaf -> length leaf = PERSISTENT_HASH_BYTES ->
  good (update_tree fr_zero transient_hash2 degrade_to_transient t i leaf).
Proof.
  intros [Hh _] Ht Hb Hl. unfold update_tree, try_update_hash.
  pose proof (update_ok leaf Hb Hl (S (node_height t)) t i ltac:(lia) Ht) as Hu.
  destruct (try_update_hash_rec _ _ _ _ _) as [t1| |]; try done. destruct Hu as [T1 H1]. cbn [updated mbind outcome_bind].
  destruct (rehash_ok t1 T1) as (t2 & -> & T2 & H2 & R2). cbn. constructor; [|done]. split; [lia|done].
Qed.

Lemma value_to_u64_ok v P : Forall (fun a => bytes_ok a) v -> (forall x, in_u 64 x -> P x) ->
  match @value_to_u64 Fr v with Ret x => P x | Fail _ => True | Panic => False end.
Proof.
  intros Hv HP. unfold value_to_u64, decoded. destruct (value_to (atom_to_uint 64) v) eqn:E; [|done].
  apply HP. by eapply value_to_uint_range; [exact Hv| |exact E].
Qed.

Lemma remove_entry_ok c key : value_wf c -> cell_wf key ->
  good (remove_entry fr_zero transient_hash2 degrade_to_transient c key).
Proof.
  intros Hc [[_ Hk] _]. destruct Hc as [|v Hv|m Hm|arr Hi Ha|t Hi Ht]; try done; cbn [remove_entry].
  - constructor. by apply map_Forall_delete.
  - pose proof (value_to_u64_ok (av_value key) (fun _ => True) Hk ltac:(done)) as Hu.
    destruct (@value_to_u64 Fr (av_value key)) as [i| |]; try done. cbn [mbind outcome_bind]. apply update_tree_ok; try done.
    apply Forall_replicate. unfold is_byte. lia.
Qed.

Lemma insert_entry_ok c key v : value_wf c -> cell_wf key -> value_wf v ->
  good (insert_entry fr_zero transient_hash2 degrade_to_transient c key v).
Proof.
  intros Hc [[_ Hk] _] Hv. destruct Hc as [|w Hw|m Hm|arr Hi Ha|t Hi Ht]; try done; cbn [insert_entry].
  - constructor. by apply map_Forall_insert_2.
  - unfold decoded. destruct (value_to (atom_to_uint 8) (av_value key)); [|done]. cbn [mbind outcome_bind].
    destruct (_ <? _)%nat; [|done]. constructor; [|by apply Forall_insert]. cbn in *. by rewrite length_insert.
  - pose proof (value_to_u64_ok (av_value key) (fun _ => True) Hk ltac:(done)) as Hu.
    destruct (@value_to_u64 Fr (av_value key)) as [i| |]; try done. cbn [mbind outcome_bind]. destruct (_ <? _); [|done].
    destruct Hv as [|c [[_ Hc] _]| | |]; try done. destruct (value_to atom_to_hash (av_value c)) eqn:E; [|done].
    apply value_to_hash_ok in E as [? ?]; [|done]. by apply update_tree_ok.
Qed.

Lemma node_index_ok t i h a : tree_ok t -> node_index t i = Some (h, a) -> bytes_ok h /\ length h = PERSISTENT_HASH_BYTES.
Proof.
  revert i; induction t as [h' a'|x n|n|ho lft IHl rgt IHr n]; intros i Ht E; cbn [node_index] in E; try done.
  - cbn in Ht. by simplify_eq.
  - destruct Ht as (_ & Hl & Hr). cbv zeta in E. destruct (i <? pow2 (n - 1)); eauto.
Qed.

(** ** Instructions *)

Lemma entry_mk nc st v k : value_wf v -> key_ok nc k -> entry_ok nc (mkVmValue st v, k).
Proof. by split. Qed.

Lemma wp_idx value key cached Q s ca g : entry_ok (length ca) value -> cell_wf key ->
  (forall x ca', length ca' = length ca -> entry_ok (length ca) x -> Q x (mkMachine s ca' g)) ->
  wp (idx value key cached) Q (mkMachine s ca g).
Proof.
  intros [Hv Hk] [[Hka Hkb] _] HQ. unfold idx. cbv zeta. apply wp_bind, wp_visit; [by apply key_ok_push|].
  intros b ca' Hca. assert (Hres : forall w, value_wf w ->
    Q (mkVmValue (strength (fst value)) w, push_key (snd value) key) (mkMachine s ca' g)).
  { intros w Hw. apply HQ; [done|]. apply entry_mk; [done|by apply key_ok_push]. }
  destruct Hv as [|v Hv|m Hm|arr Hi Ha|t Hi Ht]; try done.
  - destruct (cached && negb b); [done|]. apply wp_ret, Hres. destruct (m !! key) as [w|] eqn:E; cbn; [by eapply Hm|constructor].
  - apply wp_bind. unfold decoded. destruct (value_to (atom_to_uint 8) (av_value key)) as [i|]; [|done].
    apply (wp_lift _ (fun _ => True)); [done|]. intros i' _. destruct (arr !! Z.to_nat i') as [w|] eqn:E; [|done].
    destruct (cached && negb b); [done|]. apply wp_ret, Hres. rewrite Forall_lookup in Ha. by eapply Ha.
  - apply wp_bind, (wp_lift _ (fun _ => True)); [by apply value_to_u64_ok|]. intros k _. destruct (_ <=? k); [done|].
    apply wp_ret, Hres. destruct (node_index t k) as [[h a]|] eqn:E; [|constructor].
    apply node_index_ok in E as [? ?]; [|done]. constructor. by apply wf_hash.
Qed.

Lemma wp_as_cell v Q m : value_wf v -> (forall c, cell_wf c -> Q c m) -> wp (lift (as_cell v)) Q m.
Proof. intros Hv HQ. apply (wp_lift _ cell_wf); [|done]. by destruct Hv. Qed.

(** Gas does not matter; a computation that only changes it. *)
Ltac wp_gas := first [apply wp_incr | apply wp_incr_full]; intros ?.

Lemma wp_idx_step cached push_path curr key Q s ca g :
  entry_ok (length ca) curr -> value_wf (vm_value key) -> Forall (entry_ok (length ca)) s ->
  (forall x s' ca' g', length ca' = length ca -> entry_ok (length ca) x -> Forall (entry_ok (length ca)) s' ->
     Q x (mkMachine s' ca' g')) ->
  wp (idx_step FR_BYTES StateValue_serialized_size cost_model l cached push_path curr key) Q (mkMachine s ca g).
Proof.
  intros Hc Hk Hs HQ. unfold idx_step. cbv zeta. apply wp_bind. wp_gas. apply wp_bind, wp_unless; [intros ?|intros; by wp_gas].
  apply wp_bind. set (s' := if push_path then (key, None) :: curr :: s else s).
  assert (Hs' : Forall (entry_ok (length ca)) s') by (subst s'; destruct push_path; [repeat constructor|]; done || apply Hc).
  assert (Hpush : forall Q', (forall m, m = mkMachine s' ca g1 -> Q' tt m) ->
    wp (unless (negb push_path) (_ ← push curr; push (key, None))) Q' (mkMachine s ca g1)).
  { intros Q' H'. subst s'. destruct push_path; cbn [negb unless]; by apply H'. }
  apply Hpush. intros ? ->. apply wp_bind, wp_as_cell; [done|]. intros c Hcell.
  apply wp_bind, wp_idx; [done|done|]. intros x ca' Hca Hx.
  apply wp_bind, wp_unless; [intros ?|intros; by wp_gas]. apply wp_ret. by apply HQ.
Qed.

Lemma wp_idx_loop cached push_path path : Forall (fun k => value_wf (vm_value k)) path -> forall curr Q s ca g,
  entry_ok (length ca) curr -> Forall (entry_ok (length ca)) s ->
  (forall x s' ca' g', length ca' = length ca -> entry_ok (length ca) x -> Forall (entry_ok (length ca)) s' ->
     Q x (mkMachine s' ca' g')) ->
  wp (idx_loop FR_BYTES StateValue_serialized_size cost_model l cached push_path path curr) Q (mkMachine s ca g).
Proof.
  induction 1 as [|k path Hk _ IH]; intros curr Q s ca g Hc Hs HQ; cbn [idx_loop]; [by apply HQ|].
  apply wp_bind, wp_idx_step; [done..|]. intros x s' ca' g' Hca Hx Hs'. apply IH; rewrite ?Hca; [done..|].
  intros x2 s2 ca2 g2 Hca2. apply HQ. congruence.
Qed.

Lemma filter_stack_value v path : filter is_stack (KValue v :: path) = filter is_stack path.
Proof. reflexivity. Qed.

Lemma filter_stack_key path : filter is_stack (KStack :: path) = KStack :: filter is_stack path.
Proof. reflexivity. Qed.

(** As many entries as the path has stack keys are popped. *)
Lemma wp_pop_keys path : forall Q s ca g nc, Forall (entry_ok nc) s -> (length (filter is_stack path) <= length s)%nat ->
  (forall keys s', Forall (fun k => value_wf (vm_value k)) keys -> length keys = length (filter is_stack path) ->
     Forall (entry_ok nc) s' -> length s = (length keys + length s')%nat -> Q keys (mkMachine s' ca g)) ->
  wp (pop_keys path) Q (mkMachine s ca g).
Proof.
  induction path as [|[v|] path IH]; intros Q s ca g nc Hs Hl HQ; cbn [pop_keys].
  - by apply HQ.
  - rewrite filter_stack_value in Hl, HQ. by eapply IH.
  - rewrite filter_stack_key in Hl, HQ. destruct s as [|[v k] s]; [simpl in Hl; lia|]. inversion_clear Hs as [|? ? [Hv _] Hs'].
    apply wp_bind, wp_pop, wp_bind. eapply IH; [done|simpl in Hl; lia|]. intros keys s' Hkeys Hlen Hs2 Hlen2.
    apply HQ; [by constructor|simpl; lia|done|simpl; lia].
Qed.

Lemma refine_path_ok path : forall keys, Forall (fun k => value_wf (vm_value k)) keys ->
  Forall (fun k => match k with KValue v => cell_wf v | KStack => True end) path ->
  length keys = length (filter is_stack path) ->
  match @refine_path Fr path keys with
  | Ret r => Forall (fun k => value_wf (vm_value k)) r
  | Fail _ => True
  | Panic => False
  end.
Proof.
  induction path as [|[v|] path IH]; intros keys Hk Hp Hl; cbn [refine_path]; [done| |]; inversion_clear Hp as [|? ? Hv Hp'].
  - rewrite filter_stack_value in Hl. specialize (IH keys Hk Hp' Hl). destruct (refine_path path keys); try done.
    cbn. constructor; [by constructor|done].
  - rewrite filter_stack_key in Hl. destruct Hk as [|k keys Hk Hks]; [done|]. injection Hl as Hl.
    specialize (IH keys Hks Hp' Hl). destruct (refine_path path keys); try done. cbn. by constructor.
Qed.

Abbreviation ins_loop_at := (ins_loop fr_zero transient_hash2 degrade_to_transient FR_BYTES StateValue_serialized_size cost_model l).

Lemma wp_ins_loop cached n : forall curr Q s ca g,
  entry_ok (length ca) curr -> Forall (entry_ok (length ca)) s -> (2 * n <= length s)%nat ->
  (forall x s' ca' g', length ca' = length ca -> entry_ok (length ca) x -> Forall (entry_ok (length ca)) s' ->
     Q x (mkMachine s' ca' g')) ->
  wp (ins_loop_at n cached curr) Q (mkMachine s ca g).
Proof.
  induction n as [|n IH]; intros curr Q s ca g Hc Hs Hl HQ; cbn [ins_loop]; [by apply HQ|].
  destruct s as [|[key kk] [|[cont ck] s]]; [simpl in Hl; lia..|].
  inversion_clear Hs as [|? ? [Hkey _] Hs']. inversion_clear Hs' as [|? ? [Hcont Hck] Hs2]. cbn [fst snd] in *.
  apply wp_bind. unfold ins_step. cbv zeta. apply wp_bind, wp_pop, wp_bind, wp_pop. apply wp_bind. wp_gas.
  apply wp_bind, wp_unless; [intros ?|intros; by wp_gas]. apply wp_bind, wp_as_cell; [done|]. intros c Hcell.
  apply wp_bind, wp_visit; [by apply key_ok_push|]. intros b ca' Hca. apply wp_bind, wp_unless_fail.
  apply wp_bind, (wp_lift _ value_wf); [by apply insert_entry_ok; [..|apply Hc]|]. intros v Hv. apply wp_ret.
  apply IH; rewrite ?Hca; [by apply entry_mk|done|simpl in Hl; lia|].
  intros x2 s2 ca2 g2 Hca2. apply HQ. congruence.
Qed.

(** What a program may contain: arguments that are not negative, well-formed
    values, and concatenations that keep the condition on cells. *)
Definition op_ok {R} (op : Op Fr R) : Prop :=
  op_args_nonneg op /\
  match op with
  | Push _ v => value_wf v
  | Idx _ _ path => Forall (fun k => match k with KValue v => cell_wf v | KStack => True end) path
  | Concat _ n => forall a b v, cell_fits a -> cell_fits b -> @vm_concat Fr a b n = Ret v -> cell_fits v
  | _ => True
  end.

Abbreviation exec_at := (exec fr_zero transient_hash2 degrade_to_transient fr_as_le_bytes FR_BYTES
                           node_data_lens StateValue_serialized_size cost_model l).

(** The machine after the body of an instruction; a branch still has to pop its
    condition. *)
Definition exec_post {R} (op : Op Fr R) (nc : nat) {A} (_ : A) (m : machine Fr) : Prop :=
  machine_ok nc m /\ match op with Branch _ => (0 < length (stack m))%nat | _ => True end.

Lemma machine_mk s ca g nc : length ca = nc -> Forall (entry_ok nc) s -> machine_ok nc (mkMachine s ca g).
Proof. by split. Qed.

Lemma wp_push_cell v Q s ca g nc : cell_wf v -> length ca = nc -> Forall (entry_ok nc) s ->
  (forall m, machine_ok nc m -> Q tt m) -> wp (push_result v) Q (mkMachine s ca g).
Proof. intros Hv Hc Hs HQ. apply wp_push, HQ, machine_mk; [done|]. constructor; [split; [by constructor|done]|done]. Qed.

Lemma wp_pop_bool Q x s ca g nc : entry_ok nc x -> (forall b, Q b (mkMachine s ca g)) ->
  wp pop_bool Q (mkMachine (x :: s) ca g).
Proof.
  intros Hx HQ. unfold pop_bool. apply wp_bind. eapply wp_pop_cell; [done|]. intros v _.
  apply (wp_lift _ (fun _ => True)); [|intros; apply HQ]. unfold value_to_bool, decoded. by destruct (value_to atom_to_bool (av_value v)).
Qed.

(** Results of arithmetic fit 64 bits. *)
Lemma vm_add_ok a (b : outcome (OnchainProgramError Fr) Z) : Forall (fun a => bytes_ok a) a ->
  match b with Ret b => 0 <= b | Fail _ => True | Panic => False end ->
  match vm_add a b with Ret v => cell_wf v | Fail _ => True | Panic => False end.
Proof.
  intros Ha Hb. unfold vm_add. pose proof (value_to_u64_ok a (in_u 64) Ha ltac:(done)) as Hu.
  destruct (@value_to_u64 Fr a) as [x| |]; try done. destruct b as [y| |]; try done. cbn [mbind outcome_bind].
  unfold checked_add, u_max. destruct (Z.leb_spec (x + y) (2 ^ 64 - 1)); [|done]. apply wf_uint; [lia|]. unfold in_u in *.
  change (8 * 8) with 64. lia.
Qed.

Lemma vm_sub_ok a (b : outcome (OnchainProgramError Fr) Z) : Forall (fun a => bytes_ok a) a ->
  match b with Ret b => 0 <= b | Fail _ => True | Panic => False end ->
  match vm_sub a b with Ret v => cell_wf v | Fail _ => True | Panic => False end.
Proof.
  intros Ha Hb. unfold vm_sub. destruct b as [y| |]; try done. cbn [mbind outcome_bind].
  pose proof (value_to_u64_ok a (in_u 64) Ha ltac:(done)) as Hu. destruct (@value_to_u64 Fr a) as [x| |]; try done.
  cbn [mbind outcome_bind]. unfold checked_sub. destruct (Z.leb_spec y x); [|done]. apply wf_uint; [lia|]. unfold in_u in *.
  change (8 * 8) with 64. lia.
Qed.

Lemma vm_lt_ok a b : Forall (fun a => bytes_ok a) a -> Forall (fun a => bytes_ok a) b ->
  match @vm_lt Fr a b with Ret v => cell_wf v | Fail _ => True | Panic => False end.
Proof.
  intros Ha Hb. unfold vm_lt. pose proof (value_to_u64_ok a (in_u 64) Ha ltac:(done)) as Hu.
  destruct (@value_to_u64 Fr a) as [x| |]; try done. pose proof (value_to_u64_ok b (in_u 64) Hb ltac:(done)) as Hu'.
  destruct (@value_to_u64 Fr b) as [y| |]; try done. apply wf_bool.
Qed.

Lemma vm_eq_ok a b : match @vm_eq Fr a b with Ret v => cell_wf v | Fail _ => True | Panic => False end.
Proof. unfold vm_eq. repeat case_match; simplify_eq; try done; apply wf_bool. Qed.

Lemma vm_concat_ok a b n : (forall a b v, cell_fits a -> cell_fits b -> @vm_concat Fr a b n = Ret v -> cell_fits v) -> cell_wf a -> cell_wf b ->
  match @vm_concat Fr a b n with Ret v => cell_wf v | Fail _ => True | Panic => False end.
Proof.
  intros Hn [[Ha Ha'] Fa] [[Hb Hb'] Fb]. specialize (Hn a b). unfold vm_concat in *. destruct (_ <=? n); [|done]. unfold AlignedValue_new in *.
  rewrite (fits_app _ _ _ _ Ha Hb) in *. split; [|by apply Hn]. split; [by apply fits_app|by apply Forall_app].
Qed.

Lemma entries_1 nc (s : list (VmValue Fr * CacheKey)) : Forall (entry_ok nc) s -> 1 <= Z.of_nat (length s) ->
  exists x s', s = x :: s' /\ entry_ok nc x /\ Forall (entry_ok nc) s'.
Proof. intros Hs Hl. destruct Hs as [|x s Hx Hs]; [simpl in Hl; lia|]. by exists x, s. Qed.

Lemma entries_2 nc (s : list (VmValue Fr * CacheKey)) : Forall (entry_ok nc) s -> 2 <= Z.of_nat (length s) ->
  exists x y s', s = x :: y :: s' /\ entry_ok nc x /\ entry_ok nc y /\ Forall (entry_ok nc) s'.
Proof.
  intros Hs Hl. destruct (entries_1 nc s Hs ltac:(lia)) as (x & s1 & -> & Hx & Hs1).
  destruct (entries_1 nc s1 Hs1 ltac:(simpl in Hl; lia)) as (y & s2 & -> & Hy & Hs2). by exists x, y, s2.
Qed.

Lemma wp_silent c Q m : wp c (fun _ m' => Q ONone m') m -> wp (@silent Fr c) Q m.
Proof. intros H. unfold silent. by apply wp_bind. Qed.

(** The postcondition of the instructions other than a branch. *)
Definition ok_post (nc : nat) {A} (_ : A) (m : machine Fr) : Prop := machine_ok nc m.

Section instructions.
Context (s : list (VmValue Fr * CacheKey)) (ca : list InnerCache) (g : RunningCost).
Context (Hs : Forall (entry_ok (length ca)) s).
Abbreviation m0 := (mkMachine s ca g).
Abbreviation post := (ok_post (length ca)).

(** Two cells in, one cell out. *)
Lemma wp_binary cost (f : AlignedValue -> AlignedValue -> outcome (OnchainProgramError Fr) AlignedValue) :
  2 <= Z.of_nat (length s) ->
  (forall a b, cell_wf a -> cell_wf b -> match f a b with Ret v => cell_wf v | Fail _ => True | Panic => False end) ->
  wp (_ ← incr_gas l cost; a ← pop_cell; b ← pop_cell; v ← lift (f a b); push_result v) post m0.
Proof.
  intros Hl Hf. destruct (entries_2 _ s Hs Hl) as (x & y & s' & -> & Hx & Hy & Hs').
  apply wp_bind. wp_gas. apply wp_bind. eapply wp_pop_cell; [exact Hx|]. intros a Ha.
  apply wp_bind. eapply wp_pop_cell; [exact Hy|]. intros b Hb.
  apply wp_bind, (wp_lift _ cell_wf); [by apply Hf|]. intros v Hv. by eapply wp_push_cell.
Qed.

Lemma wp_unary cost (f : AlignedValue -> outcome (OnchainProgramError Fr) AlignedValue) :
  1 <= Z.of_nat (length s) ->
  (forall a, cell_wf a -> match f a with Ret v => cell_wf v | Fail _ => True | Panic => False end) ->
  wp (_ ← incr_gas l cost; a ← pop_cell; v ← lift (f a); push_result v) post m0.
Proof.
  intros Hl Hf. destruct (entries_1 _ s Hs Hl) as (x & s' & -> & Hx & Hs').
  apply wp_bind. wp_gas. apply wp_bind. eapply wp_pop_cell; [exact Hx|]. intros a Ha.
  apply wp_bind, (wp_lift _ cell_wf); [by apply Hf|]. intros v Hv. by eapply wp_push_cell.
Qed.

Lemma wp_logic cost (f : bool -> bool -> bool) : 2 <= Z.of_nat (length s) ->
  wp (_ ← incr_gas l cost; a ← pop_bool; b ← pop_bool; push_result (av_of_bool (f a b))) post m0.
Proof.
  intros Hl. destruct (entries_2 _ s Hs Hl) as (x & y & s' & -> & Hx & Hy & Hs').
  apply wp_bind. wp_gas. apply wp_bind. eapply wp_pop_bool; [exact Hx|]. intros a.
  apply wp_bind. eapply wp_pop_bool; [exact Hy|]. intros b. eapply wp_push_cell; try done. apply wf_bool.
Qed.

Lemma wp_neg cost : 1 <= Z.of_nat (length s) ->
  wp (_ ← incr_gas l cost; a ← pop_bool; push_result (av_of_bool (negb a))) post m0.
Proof.
  intros Hl. destruct (entries_1 _ s Hs Hl) as (x & s' & -> & Hx & Hs').
  apply wp_bind. wp_gas. apply wp_bind. eapply wp_pop_bool; [exact Hx|]. intros a.
  eapply wp_push_cell; try done. apply wf_bool.
Qed.

Lemma wp_type : 1 <= Z.of_nat (length s) ->
  wp ('(val, _) ← pop; let '(ty, cost) := type_info cost_model (vm_value val) in
      _ ← incr_gas l cost; push_result (av_of_uint 1 ty)) post m0.
Proof.
  intros Hl. destruct (entries_1 _ s Hs Hl) as ([v k] & s' & -> & Hx & Hs'). apply wp_bind, wp_pop.
  destruct (type_info cost_model (vm_value v)) as [ty cost] eqn:E. apply wp_bind. wp_gas. eapply wp_push_cell; try done.
  apply wf_uint; [lia|]. unfold in_u. destruct (vm_value v); cbn in E; injection E as <- _; unfold wrap;
    try lia; apply Z.mod_pos_bound; lia.
Qed.

Lemma wp_size : 1 <= Z.of_nat (length s) -> wp (exec_size cost_model l) post m0.
Proof.
  intros Hl. destruct (entries_1 _ s Hs Hl) as ([v k] & s' & -> & [Hv _] & Hs'). unfold exec_size. apply wp_bind, wp_pop.
  assert (Hpush : forall n g, in_u 64 n -> wp (push_result (av_of_uint 8 n)) post (mkMachine s' ca g)).
  { intros n g' Hn. eapply wp_push_cell; try done. by apply wf_uint. }
  apply wp_bind. cbn [fst] in Hv. destruct (vm_value v) as [| |m|arr|t]; try done; apply wp_bind; wp_gas; apply wp_ret, Hpush; unfold in_u.
  - unfold wrap. apply Z.mod_pos_bound. lia.
  - inversion_clear Hv as [| | |? Hi _|]. cbn in Hi. lia.
  - inversion_clear Hv as [| | | |? Hi _]. cbn in Hi. lia.
Qed.

Lemma wp_new : 1 <= Z.of_nat (length s) -> wp (exec_new cost_model l) post m0.
Proof.
  intros Hl. destruct (entries_1 _ s Hs Hl) as ([v k] & s' & -> & [Hv _] & Hs'). unfold exec_new. apply wp_bind, wp_pop.
  apply wp_bind, wp_as_cell; [done|]. intros c [[_ Hc] _].
  apply wp_bind, (wp_lift _ (in_u 8)).
  { unfold decoded. destruct (value_to (atom_to_uint 8) (av_value c)) as [x|] eqn:E; [|done].
    by eapply value_to_uint_range; [exact Hc|lia|exact E]. }
  intros x Hx. cbv zeta. assert (Hpush : forall w g, value_wf w -> wp (push (mkVmValue Strong w, None)) post (mkMachine s' ca g)).
  { intros w g' Hw. apply wp_push, machine_mk; [done|]. by repeat constructor. }
  assert (Hsh : 0 <= Z.shiftr x 3 < 32) by (unfold in_u in Hx; rewrite Z.shiftr_div_pow2 by lia; change (2 ^ 3) with 8; dlia).
  apply wp_bind. destruct (_ =? 0); [apply wp_bind; wp_gas; apply wp_ret, Hpush; constructor; apply wf_unit|].
  destruct (_ =? 1); [apply wp_bind; wp_gas; apply wp_ret, Hpush; constructor|].
  destruct (_ =? 2); [apply wp_bind; wp_gas; apply wp_ret, Hpush; constructor; apply map_Forall_empty|].
  destruct (_ =? 3).
  { apply wp_bind. wp_gas. destruct (Z.ltb_spec 16 (Z.shiftr x 3)); [done|]. apply wp_ret, Hpush. constructor.
    - cbn. rewrite length_replicate. lia.
    - apply Forall_replicate. constructor. }
  destruct (_ =? 4); [|done]. apply wp_bind. wp_gas. apply wp_ret, Hpush. constructor; [|done]. cbn. split; [lia|eauto].
Qed.

Lemma wp_root : 1 <= Z.of_nat (length s) ->
  wp (exec_root fr_zero degrade_to_transient fr_as_le_bytes cost_model l) post m0.
Proof.
  intros Hl. destruct (entries_1 _ s Hs Hl) as ([v k] & s' & -> & [Hv _] & Hs'). unfold exec_root.
  apply wp_bind. wp_gas. apply wp_bind, wp_pop. destruct (vm_value v) as [| | | |t]; try done.
  destruct (node_root _ _ t); [|done]. eapply wp_push_cell; try done. apply wf_digest.
Qed.

Lemma wp_log : 1 <= Z.of_nat (length s) -> wp (exec_log node_data_lens cost_model l) post m0.
Proof.
  intros Hl. destruct (entries_1 _ s Hs Hl) as ([v k] & s' & -> & _ & Hs'). unfold exec_log. apply wp_bind, wp_pop. cbv zeta.
  destruct (serialize_to_node_list_bounded _ _ _); [|done]. apply wp_bind. wp_gas. apply wp_bind. wp_gas.
  by apply wp_ret, machine_mk.
Qed.

Lemma wp_popeq : 1 <= Z.of_nat (length s) -> wp (exec_popeq cost_model l) post m0.
Proof.
  intros Hl. destruct (entries_1 _ s Hs Hl) as (x & s' & -> & Hx & Hs'). unfold exec_popeq. apply wp_bind. wp_gas.
  apply wp_bind. eapply wp_pop_cell; [exact Hx|]. intros v Hv. apply wp_bind. wp_gas. by apply wp_ret, machine_mk.
Qed.

Lemma wp_concat n : (forall a b v, cell_fits a -> cell_fits b -> @vm_concat Fr a b n = Ret v -> cell_fits v) -> 2 <= Z.of_nat (length s) -> wp (exec_concat cost_model l n) post m0.
Proof.
  intros Hn Hl. destruct (entries_2 _ s Hs Hl) as (x & y & s' & -> & Hx & Hy & Hs'). unfold exec_concat. destruct (_ <? n); [done|].
  apply wp_bind. eapply wp_pop_cell; [exact Hx|]. intros a Ha. apply wp_bind. eapply wp_pop_cell; [exact Hy|]. intros b Hb.
  cbv zeta. apply wp_bind. wp_gas. apply wp_bind, (wp_lift _ cell_wf); [by apply vm_concat_ok|]. intros v Hv. by eapply wp_push_cell.
Qed.

Lemma wp_member : 2 <= Z.of_nat (length s) -> wp (exec_member cost_model l) post m0.
Proof.
  intros Hl. destruct (entries_2 _ s Hs Hl) as (x & [v k] & s' & -> & Hx & Hy & Hs'). unfold exec_member.
  apply wp_bind. eapply wp_pop_cell; [exact Hx|]. intros a Ha. apply wp_bind, wp_pop. cbv zeta. apply wp_bind. wp_gas.
  apply wp_bind. wp_gas. destruct (vm_value v); try done. eapply wp_push_cell; try done. apply wf_bool.
Qed.

Lemma wp_rem cached : 2 <= Z.of_nat (length s) ->
  wp (exec_rem fr_zero transient_hash2 degrade_to_transient FR_BYTES cost_model l cached) post m0.
Proof.
  intros Hl. destruct (entries_2 _ s Hs Hl) as (x & [v k] & s' & -> & Hx & [Hv Hk] & Hs'). unfold exec_rem.
  apply wp_bind. eapply wp_pop_cell; [exact Hx|]. intros a Ha. apply wp_bind, wp_pop. cbv zeta. apply wp_bind. wp_gas.
  apply wp_bind, wp_unless; [intros ?|intros; by wp_gas]. apply wp_bind, wp_visit; [by apply key_ok_push|].
  intros b ca' Hca. apply wp_bind, wp_unless_fail. apply wp_bind, (wp_lift _ value_wf); [by apply remove_entry_ok|].
  intros w Hw. apply wp_push, machine_mk; [done|]. by repeat constructor.
Qed.

Lemma wp_dup n : (n < length s)%nat -> wp (dup n) post m0.
Proof.
  intros Hn. destruct (lookup_lt_is_Some_2 s n Hn) as [x Hx]. unfold wp, dup. cbn [stack]. rewrite Hx. apply machine_mk; [done|].
  constructor; [|done]. rewrite Forall_lookup in Hs. by eapply Hs.
Qed.

Lemma wp_swap n : (S n < length s)%nat -> wp (swap n) post m0.
Proof.
  intros Hn. destruct (lookup_lt_is_Some_2 s (S n) Hn) as [y Hy]. destruct (lookup_lt_is_Some_2 s 0 ltac:(lia)) as [x Hx].
  unfold wp, swap. cbn [stack]. rewrite Hx, Hy. apply machine_mk; [done|].
  rewrite Forall_lookup in Hs. apply Forall_insert; [apply Forall_insert|]; [by apply Forall_lookup|by eapply Hs..].
Qed.

Lemma wp_exec_idx cached push_path path :
  Forall (fun k => match k with KValue v => cell_wf v | KStack => True end) path ->
  Z.of_nat (length (filter is_stack path)) + 1 <= Z.of_nat (length s) ->
  wp (exec_idx FR_BYTES StateValue_serialized_size cost_model l cached push_path path) post m0.
Proof.
  intros Hp Hl. unfold exec_idx. apply wp_bind. eapply wp_pop_keys; [exact Hs|lia|]. intros keys s' Hk Hlen Hs' Hlen2.
  apply wp_bind. eapply wp_lift; [by apply refine_path_ok|]. intros refined Hr.
  destruct (entries_1 _ s' Hs' ltac:(lia)) as (curr & s2 & -> & Hc & Hs2). apply wp_bind, wp_pop.
  apply wp_bind, wp_idx_loop; [done..|]. intros x s3 ca' g' Hca Hx Hs3. apply wp_push, machine_mk; [done|]. by constructor.
Qed.

Lemma wp_exec_ins cached n : 0 <= n -> n * 2 + 1 <= Z.of_nat (length s) ->
  wp (exec_ins fr_zero transient_hash2 degrade_to_transient FR_BYTES StateValue_serialized_size cost_model l cached n) post m0.
Proof.
  intros Hn Hl. unfold exec_ins. destruct (entries_1 _ s Hs ltac:(lia)) as (curr & s2 & -> & Hc & Hs2). apply wp_bind, wp_pop.
  apply wp_bind, wp_ins_loop; [done|done|simpl in Hl; lia|]. intros x s3 ca' g' Hca Hx Hs3.
  apply wp_push, machine_mk; [done|]. by constructor.
Qed.
End instructions.

Lemma wp_exec {R} (op : Op Fr R) s ca g : op_ok op -> Forall (entry_ok (length ca)) s -> stack_req op <= Z.of_nat (length s) ->
  wp (exec_at op) (exec_post op (length ca)) (mkMachine s ca g).
Proof.
  intros [Ha Hop] Hs Hl.
  destruct op as [n| | | | | | | | | | | |? r|i|i|st v|k|k| | |? n| | |n|n|? ? path|? n|]; cbn [exec stack_req op_args_nonneg] in *;
    try (apply wp_silent; eapply wp_mono; [intros ? ? H; split; [exact H|done]|]).
  - by wp_gas.
  - apply (wp_binary s ca g Hs _ (fun b a => vm_lt (av_value a) (av_value b))); [done|].
    intros a b [[_ Ha'] _] [[_ Hb'] _]. by apply vm_lt_ok.
  - apply (wp_binary s ca g Hs _ vm_eq); [done|]. intros. apply vm_eq_ok.
  - by apply wp_type.
  - by apply wp_size.
  - by apply wp_new.
  - by apply wp_logic.
  - by apply wp_logic.
  - by apply wp_neg.
  - apply wp_bind. eapply wp_mono; [|by apply wp_log]. intros v m Hm. apply wp_ret. by split.
  - by apply wp_root.
  - destruct (entries_1 _ s Hs Hl) as (x & s' & -> & Hx & Hs'). apply wp_bind. wp_gas. by apply wp_bind, wp_pop, wp_ret, machine_mk.
  - apply wp_bind. eapply wp_mono; [|by apply wp_popeq]. intros v m Hm. apply wp_ret. by split.
  - apply (wp_unary s ca g Hs _ (fun a => vm_add (av_value a) (Ret i))); [done|]. intros a [[_ Ha'] _]. by apply vm_add_ok.
  - apply (wp_unary s ca g Hs _ (fun a => vm_sub (av_value a) (Ret i))); [done|]. intros a [[_ Ha'] _]. by apply vm_sub_ok.
  - apply wp_bind. wp_gas. apply wp_push, machine_mk; [done|]. by repeat constructor.
  - apply wp_silent. wp_gas. split; [by apply machine_mk|]. cbn. lia.
  - by wp_gas.
  - apply (wp_binary s ca g Hs _ (fun a b => vm_add (av_value a) (value_to_u64 (av_value b)))); [done|].
    intros a b [[_ Ha'] _] [[_ Hb'] _]. apply vm_add_ok; [done|]. apply value_to_u64_ok; [done|]. unfold in_u. lia.
  - apply (wp_binary s ca g Hs _ (fun a b => vm_sub (av_value b) (value_to_u64 (av_value a)))); [done|].
    intros a b [[_ Ha'] _] [[_ Hb'] _]. apply vm_sub_ok; [done|]. apply value_to_u64_ok; [done|]. unfold in_u. lia.
  - by apply wp_concat.
  - by apply wp_member.
  - by apply wp_rem.
  - apply wp_bind. wp_gas. apply wp_dup; [done|lia].
  - apply wp_bind. wp_gas. apply wp_swap; [done|lia].
  - by apply wp_exec_idx.
  - by apply wp_exec_ins.
  - by wp_gas.
Qed.

(** ** Programs *)

Lemma wp_skipped {R} (op : Op Fr R) nc m : machine_ok nc m ->
  match op with Branch _ => (0 < length (stack m))%nat | _ => True end -> wp (skipped op) (ok_post nc) m.
Proof.
  intros Hm Hb. destruct m as [s ca g]. destruct Hm as [Hc Hs]. cbn [cache stack] in *.
  destruct op; try (by apply wp_ret). cbn [skipped]. destruct (entries_1 _ s Hs ltac:(lia)) as (x & s' & -> & Hx & Hs').
  apply wp_bind. eapply wp_pop_cell; [exact Hx|]. intros v _. by apply wp_ret.
Qed.

Context {R Event : Type} (mode : ResultMode Fr R Event) (sl : option nat).
(** Reads are checked without panics. *)
Context (Hmode : forall r v, process_read mode r v <> Panic).

Abbreviation skip_loop_at := (skip_loop fr_zero transient_hash2 degrade_to_transient fr_as_le_bytes FR_BYTES
  node_data_lens StateValue_serialized_size cost_model mode sl l).

Lemma emit_no_panic op out events : emit node_data_lens mode op out events <> Panic.
Proof.
  destruct out; cbn [emit]; try by destruct op. destruct op; try done. cbn. intros E.
  apply (Hmode result value). by destruct (process_read mode result value).
Qed.

Lemma wp_check b e Q m : (b = true -> Q tt m) -> wp (@check Fr b e) Q m.
Proof. intros H. destruct b; [by apply H|done]. Qed.

(** The invariant of the loop: well-formed values and a bounded stack. *)
Definition loop_ok (nc : nat) (m : machine Fr) : Prop :=
  machine_ok nc m /\ Z.of_nat (length (stack m)) <= MAX_STACK_HEIGHT.

Lemma wp_run program : Forall op_ok program -> forall skip steps events nc m, loop_ok nc m ->
  wp (skip_loop_at program skip steps events) (fun _ => loop_ok nc) m.
Proof.
  induction 1 as [|op program Hop _ IH]; intros skip steps events nc m Hm; [done|].
  destruct skip as [|skip]; cbn [skip_loop]; [|by apply IH]. destruct (limit_reached sl steps); [done|].
  apply wp_bind. unfold step. cbv zeta. destruct m as [s ca g]. destruct Hm as [[<- Hs] _]. cbn [cache stack] in *.
  apply wp_bind, wp_stack_len, wp_bind, wp_check. cbn [stack]. intros Hreq. apply Z.leb_le in Hreq.
  apply wp_bind. eapply wp_mono; [|by apply wp_exec]. intros out m1 [Hm1 Hbr].
  apply wp_bind, (wp_lift _ (fun _ => True)); [|intros ev _].
  { pose proof (emit_no_panic op out events). by destruct (emit node_data_lens mode op out events). }
  apply wp_bind. eapply wp_mono; [|by apply wp_skipped]. intros k m2 Hm2.
  apply wp_bind, wp_check. intros _. apply wp_bind, wp_stack_len, wp_bind, wp_check. intros Hh. apply Z.leb_le in Hh.
  apply wp_ret, IH. by split.
Qed.

Lemma initial_ok initial : Forall (fun v => value_wf (vm_value v)) initial ->
  Z.of_nat (length initial) <= MAX_STACK_HEIGHT -> loop_ok (length initial) (initial_machine initial).
Proof.
  intros Hi Hl. split; [split|].
  - cbn. by rewrite length_fmap.
  - cbn. apply Forall_reverse, Forall_lookup. intros i [v k]. rewrite list_lookup_imap. intros (w & Hw & E)%fmap_Some.
    simplify_eq. rewrite Forall_lookup in Hi. split; [by eapply Hi|]. cbn. by eapply lookup_lt_Some.
  - cbn. by rewrite length_reverse, length_imap.
Qed.
End safety.

(** ** The bound of cells

    [cell_fits] is either no condition, or the bound that [StateValue::invariant] has
    for cells.  A concatenation compares the sizes of its parts with its bound;
    the result can be larger by the room for two counts. *)

Definition any_cell (_ : AlignedValue) : Prop := True.
Definition in_bound (v : AlignedValue) : Prop := AlignedValue_serialized_size v <= CELL_BOUND.
Definition CONCAT_SLACK : Z := 6.

Lemma in_bound_small v : AlignedValue_serialized_size v <= SMALL_CELL -> in_bound v.
Proof. unfold in_bound, SMALL_CELL, CELL_BOUND. lia. Qed.

Lemma flagged_int_size_pos n : 1 <= flagged_int_size n.
Proof. unfold flagged_int_size. repeat case_match; lia. Qed.

Lemma flagged_int_size_3 n : n <= CELL_BOUND -> flagged_int_size n <= 3.
Proof. intros Hn. unfold CELL_BOUND in Hn. unfold flagged_int_size, ONE_BYTE_LIMIT, TWO_BYTE_LIMIT, THREE_BYTE_LIMIT. repeat case_match; lia. Qed.

Section counted.
Context {A : Type} (f : A -> Z) (Hf : forall x, 1 <= f x).

(** A list of one element is written without its length. *)
Definition counted (l : list A) : Z := match l with [x] => f x | _ => flagged_int_size (len_u32 l) + sum_size f l end.

Lemma sum_size_app l1 l2 : sum_size f (l1 ++ l2) = sum_size f l1 + sum_size f l2.
Proof. induction l1 as [|x l IH]; cbn [sum_size app]; [done|]. fold (sum_size f). lia. Qed.

Lemma sum_size_length l : Z.of_nat (length l) <= sum_size f l.
Proof. induction l as [|x l IH]; cbn [sum_size length]; [lia|]. fold (sum_size f). specialize (Hf x). lia. Qed.

Lemma counted_sum l : sum_size f l <= counted l <= flagged_int_size (len_u32 l) + sum_size f l.
Proof. pose proof (flagged_int_size_pos (len_u32 l)). unfold counted. destruct l as [|x [|]]; cbn [sum_size] in *; lia. Qed.

Lemma counted_app l1 l2 : counted l1 + counted l2 <= CELL_BOUND -> counted (l1 ++ l2) <= counted l1 + counted l2 + 3.
Proof.
  intros Hb. pose proof (counted_sum l1). pose proof (counted_sum l2). pose proof (counted_sum (l1 ++ l2)) as H12. rewrite sum_size_app in H12.
  pose proof (sum_size_length l1). pose proof (sum_size_length l2). assert (flagged_int_size (len_u32 (l1 ++ l2)) <= 3); [|lia].
  apply flagged_int_size_3. unfold len_u32, wrap. rewrite length_app. unfold CELL_BOUND in *. rewrite Z.mod_small; lia.
Qed.
End counted.

Lemma ValueAtom_size_pos a : 1 <= ValueAtom_serialized_size a.
Proof.
  unfold ValueAtom_serialized_size. pose proof (flagged_int_size_pos (len_u32 (normalize a))).
  repeat case_match; try apply flagged_int_size_pos; pose proof (flagged_int_size_pos 1); lia.
Qed.

Lemma Alignment_size_nonneg a : 0 <= Alignment_serialized_size a.
Proof. apply alignment_size_nonneg. intros s _. apply segment_size_nonneg. Qed.

Lemma AlignmentSegment_size_pos s : 1 <= AlignmentSegment_serialized_size s.
Proof.
  destruct s as [a|branches]; cbn [AlignmentSegment_serialized_size]; [destruct a; cbn; try lia; apply flagged_int_size_pos|].
  pose proof (flagged_int_size_pos (len_u32 branches)). assert (0 <= sum_size (alignment_size AlignmentSegment_serialized_size) branches); [|lia].
  apply sum_size_nonneg. intros x _. apply Alignment_size_nonneg.
Qed.

Lemma concat_in_bound {Fr} a b n v : n + CONCAT_SLACK <= CELL_BOUND -> @vm_concat Fr a b n = Ret v -> in_bound v.
Proof.
  unfold vm_concat, AlignedValue_new, CONCAT_SLACK, in_bound. intros Hn. destruct (Z.leb_spec (AlignedValue_serialized_size a + AlignedValue_serialized_size b) n) as [Hs|]; [|done].
  destruct (fits _ _); [|done]. intros [= <-]. unfold AlignedValue_serialized_size in *. cbn [av_value av_alignment].
  pose proof (Value_size_nonneg (av_value a)). pose proof (Value_size_nonneg (av_value b)).
  pose proof (Alignment_size_nonneg (av_alignment a)). pose proof (Alignment_size_nonneg (av_alignment b)).
  assert (Value_serialized_size (av_value a ++ av_value b) <= Value_serialized_size (av_value a) + Value_serialized_size (av_value b) + 3)
    by (apply (counted_app _ ValueAtom_size_pos); unfold counted, Value_serialized_size in *; lia).
  assert (Alignment_serialized_size (av_alignment a ++ av_alignment b) <= Alignment_serialized_size (av_alignment a) + Alignment_serialized_size (av_alignment b) + 3)
    by (apply (counted_app _ AlignmentSegment_size_pos); unfold counted, Alignment_serialized_size, alignment_size in *; lia).
  lia.
Qed.

Section loadable.
Context {Fr : Type} (fr_zero : Fr) (degrade_to_transient : list Z -> Fr).

(** What a stored value must satisfy to be loaded again. *)
Definition loadable : StateValue Fr -> Prop := value_wf fr_zero degrade_to_transient in_bound.

Lemma loadable_invariant v : loadable v -> invariant fr_zero degrade_to_transient v.
Proof. by intros [|c [_ Hc]|m|arr Ha _|t Ht _]. Qed.

Lemma loadable_wf v : loadable v -> value_wf fr_zero degrade_to_transient any_cell v.
Proof.
  revert v. fix IH 2. intros v [|c [Hc _]|m Hm|arr Ha Hv|t Hi Ht]; constructor; try done; [|].
  - revert Hm. unfold map_Forall. intros Hm k w Hk. by apply IH, (Hm k).
  - clear Ha. induction Hv as [|w l Hw _ IHl]; constructor; [by apply IH|done].
Qed.

Definition op_loadable {R} (op : Op Fr R) : Prop :=
  op_args_nonneg op /\
  match op with
  | Push _ v => loadable v
  | Idx _ _ path => Forall (fun k => match k with KValue v => cell_wf in_bound v | KStack => True end) path
  | Concat _ n => n + CONCAT_SLACK <= CELL_BOUND
  | _ => True
  end.

Lemma op_loadable_wf {R} (op : Op Fr R) : op_loadable op -> op_ok fr_zero degrade_to_transient any_cell op.
Proof.
  intros [Ha Hop]. split; [done|]. destruct op as [| | | | | | | | | | | | | | |? v| | | | | | | | | |? ? path| |]; try done; cbn in Hop.
  - by apply loadable_wf.
  - eapply Forall_impl; [exact Hop|]. by intros [k|] [].
Qed.

Lemma op_loadable_ok {R} (op : Op Fr R) : op_loadable op -> op_ok fr_zero degrade_to_transient in_bound op.
Proof. intros [Ha Hop]. split; [done|]. destruct op; try done. cbn in Hop. intros a b v _ _. by apply concat_in_bound. Qed.
End loadable.
