(* ===== verification/VmTheorems.v ===== *)
(** * What the virtual machine guarantees

    The properties of whole runs, from [VmProperties.v] and [VmSafety.v], and
    runs of concrete programs. *)

From S2P Require Import Prelude Serialize MerkleTree Cost VmCost Fab OnchainVm VmProperties VmSafety.
From stdpp Require Import gmap sorting.

Local Open Scope Z_scope.

(** ** A concrete machine *)

Module VmExample.
Definition hash2 (a b : Z) : Z := a + 7 * b.
Definition degrade (h : list Z) : Z := from_le_bytes h.
Definition bytes_of (d : Z) : list Z := to_le_bytes 32 d.
Definition nodes (v : StateValue Z) : list Z := [20].
Definition size_of (v : StateValue Z) : Z := 40.

Definition run {R Event} (mode : ResultMode Z R Event) (limit : option RunningCost) :=
  run_program 0 hash2 degrade bytes_of 32 nodes size_of INITIAL_COST_MODEL mode limit.

Definition cell (x : Z) : StateValue Z := SCell (av_of_uint 8 x).

(** A contract's state: a counter and a tree of two levels. *)
Definition state : StateValue Z := SArray [cell 5; SBmt (blank 2)].

(** Increments the counter, and checks what it was. *)
Definition increment : list (Op Z AlignedValue) :=
  [Push false (cell 0 : StateValue Z); Dup 1; Idx false false [KValue (av_of_uint 1 0)]; Popeq false (av_of_uint 8 5);
   Pop; Idx false true [KValue (av_of_uint 1 0)]; Addi 1; Ins true 1].

Definition initial : list (VmValue Z) := [mkVmValue Strong state].

Lemma costs_ok : cost_model_ok INITIAL_COST_MODEL.
Proof. unfold cost_model_ok. apply (bool_decide_unpack _). vm_compute. exact I. Qed.

Lemma increment_args : Forall op_args_nonneg increment.
Proof. repeat (apply Forall_cons_2; [cbn; try lia; exact I|]). apply Forall_nil_2. Qed.

Lemma u8_cell x : 0 <= x < 256 -> cell_wf in_bound (av_of_uint 1 x).
Proof. intros Hx. apply (wf_uint _ in_bound_small); [lia|]. unfold in_u. change (8 * 1) with 8. lia. Qed.

Lemma u64_cell x : 0 <= x < 2 ^ 64 -> loadable 0 degrade (cell x).
Proof. intros Hx. constructor. apply (wf_uint _ in_bound_small); [lia|]. unfold in_u. change (8 * 8) with 64. lia. Qed.

Lemma state_wf : loadable 0 degrade state.
Proof.
  constructor; [cbn; lia|]. apply Forall_cons_2; [apply u64_cell; lia|]. apply Forall_cons_2; [|apply Forall_nil_2].
  constructor; [|exact I]. split; [cbn; lia|]. eexists. reflexivity.
Qed.

Lemma initial_wf : Forall (fun v => loadable 0 degrade (vm_value v)) initial.
Proof. apply Forall_cons_2; [exact state_wf|apply Forall_nil_2]. Qed.

Lemma increment_ok : Forall (op_loadable 0 degrade) increment.
Proof.
  assert (Hk : Forall (fun k => match k with KValue v => cell_wf in_bound v | KStack => True end) [KValue (av_of_uint 1 0)])
    by (apply Forall_cons_2; [apply u8_cell; lia|apply Forall_nil_2]).
  repeat (apply Forall_cons_2; [split; cbn [op_args_nonneg]; try lia; try exact I; try exact Hk; apply u64_cell; lia|]).
  apply Forall_nil_2.
Qed.

Lemma bytes_of_ok d : bytes_ok (bytes_of d) /\ Z.of_nat (length (bytes_of d)) <= FIELD_BYTE_LIMIT.
Proof. unfold bytes_of. split; [apply to_le_bytes_ok|]. rewrite length_to_le_bytes. unfold FIELD_BYTE_LIMIT. lia. Qed.

Lemma nodes_ok v : Forall (fun n => 0 <= n) (nodes v).
Proof. apply Forall_cons_2; [lia|apply Forall_nil_2]. Qed.
End VmExample.

Definition read_log {Fr} (e : GatherEvent Fr) : option (VersionedLogItem Fr) :=
  match e with GLog e => Some e | GRead _ => None end.

Lemma read_log_gathered {Fr} (l : list (CompareEvent Fr)) : omap read_log (map gathered l) = omap logged l.
Proof. induction l as [|[|] l IH]; cbn; [done|done|]. by f_equal. Qed.

Section theorems.
Context {Fr : Type} (fr_zero : Fr) (transient_hash2 : Fr -> Fr -> Fr) (degrade_to_transient : list Z -> Fr).
Context (fr_as_le_bytes : Fr -> list Z) (FR_BYTES : Z).
Context (node_data_lens : StateValue Fr -> list Z) (StateValue_serialized_size : StateValue Fr -> Z).
Context (cost_model : CostModel).

Abbreviation run_limited mode sl limit := (run_program_step_limited fr_zero transient_hash2 degrade_to_transient
  fr_as_le_bytes FR_BYTES node_data_lens StateValue_serialized_size cost_model mode sl limit).
Abbreviation run mode limit := (run_program fr_zero transient_hash2 degrade_to_transient
  fr_as_le_bytes FR_BYTES node_data_lens StateValue_serialized_size cost_model mode limit).

(** The results of a run, seen by another mode. *)
Definition results_as {E1 E2} (f : list E1 -> list E2) (t : VmResults Fr E1) : VmResults Fr E2 :=
  mkVmResults (res_stack t) (f (res_events t)) (res_gas_cost t).

Abbreviation loop_for mode n limit := (run_loop fr_zero transient_hash2 degrade_to_transient fr_as_le_bytes
  FR_BYTES node_data_lens StateValue_serialized_size cost_model mode None limit n).
Abbreviation loop mode limit program initial := (skip_loop fr_zero transient_hash2 degrade_to_transient fr_as_le_bytes
  FR_BYTES node_data_lens StateValue_serialized_size cost_model mode None limit program 0 0 [] (initial_machine initial)).

Lemma run_verify_compare limit initial program r : run ResultModeVerify limit initial program = Ret r <->
  exists t, run ResultModeCompare limit initial program = Ret t /\ Forall matches (res_events t) /\ r = results_as (omap logged) t.
Proof.
  unfold run_program, run_program_step_limited. rewrite ?run_internal_skip.
  pose proof (verify_compare fr_zero transient_hash2 degrade_to_transient fr_as_le_bytes FR_BYTES node_data_lens
    StateValue_serialized_size cost_model None limit program 0 0 [] (initial_machine initial)) as H.
  destruct (loop ResultModeCompare limit program initial) as [[ev m]|e|].
  - destruct H as (new & -> & H). specialize (H []). cbn [app mbind outcome_bind]. split.
    + destruct (decide (Forall matches new)) as [Hm|Hm].
      * rewrite H. cbn. intros [= <-]. by eexists.
      * by destruct H as (? & ? & ->).
    + intros (t & [= <-] & Hm & ->). cbn in Hm. rewrite decide_True in H by done. by rewrite H.
  - specialize (H []). split; [|by intros (? & ? & _)]. by destruct (loop ResultModeVerify limit program initial).
  - specialize (H []). split; [|by intros (? & ? & _)]. by destruct (loop ResultModeVerify limit program initial).
Qed.

Lemma run_gather_compare limit initial program : run ResultModeGather limit initial (strip program) =
  results_as (map gathered) <$> run ResultModeCompare limit initial program.
Proof.
  unfold run_program, run_program_step_limited. rewrite ?run_internal_skip.
  pose proof (gather_compare fr_zero transient_hash2 degrade_to_transient fr_as_le_bytes FR_BYTES node_data_lens
    StateValue_serialized_size cost_model None limit program 0 0 [] (initial_machine initial)) as H.
  cbn [map] in H. rewrite H. by destruct (loop ResultModeCompare limit program initial) as [[ev m]| |].
Qed.

Lemma run_gather_fills limit initial program r : run ResultModeGather limit initial program = Ret r ->
  exists filled t, strip filled = program /\
    run ResultModeCompare limit initial filled = Ret t /\ Forall matches (res_events t).
Proof.
  unfold run_program, run_program_step_limited. rewrite ?run_internal_skip.
  destruct (loop ResultModeGather limit program initial) as [[ev m]| |] eqn:El; [|done..]. intros _.
  destruct (gather_fills _ _ _ _ _ _ _ _ _ _ _ _ _ _ _ _ El) as (pv & Hp & Hr). destruct (Hr []) as (new & Hn & Hm).
  exists pv. rewrite run_internal_skip, Hn. by eexists.
Qed.

Lemma run_gather_verifies limit initial program r : run ResultModeGather limit initial program = Ret r ->
  exists filled, strip filled = program /\ run ResultModeVerify limit initial filled = Ret (results_as (omap read_log) r).
Proof.
  intros E. destruct (run_gather_fills _ _ _ _ E) as (filled & t & <- & Et & Hm). exists filled. split; [done|].
  apply run_verify_compare. exists t. split_and!; [done|done|]. rewrite run_gather_compare, Et in E. cbn in E. simplify_eq.
  unfold results_as. cbn. by rewrite read_log_gathered.
Qed.

(** Verifying a program and gathering its reads agree.  A run that verifies
    returns exactly when the run that pairs each read with its expected result
    returns and all pairs match, with the same stack, gas and log events.  A
    gathering run of the program without its expected results behaves as the
    pairing run, errors and panics included.  And whatever was gathered can be
    filled in: some program with the same instructions verifies with the same
    stack, gas and log events. *)
Theorem vm_verify_gather (limit : option RunningCost) (initial : list (VmValue Fr)) :
  (forall program r, run ResultModeVerify limit initial program = Ret r <->
    exists t, run ResultModeCompare limit initial program = Ret t /\ Forall matches (res_events t) /\
      r = results_as (omap logged) t) /\
  (forall program, run ResultModeGather limit initial (strip program) =
    results_as (map gathered) <$> run ResultModeCompare limit initial program) /\
  (forall program r, run ResultModeGather limit initial program = Ret r ->
    exists filled, strip filled = program /\
      run ResultModeVerify limit initial filled = Ret (results_as (omap read_log) r)).
Proof.
  split_and!; [intros; apply run_verify_compare|apply run_gather_compare|]. intros. by apply run_gather_verifies.
Qed.

Section gas.
(** Sizes and coefficients are not negative. *)
Context (HFR : 0 <= FR_BYTES) (Hnodes : forall v, Forall (fun n => 0 <= n) (node_data_lens v))
        (Hsize : forall v, 0 <= StateValue_serialized_size v) (Hcm : cost_model_ok cost_model).

Lemma run_gas_limit {R Event} (mode : ResultMode Fr R Event) (limit : RunningCost) initial program :
  exceeds RC_ZERO limit = false -> Forall op_args_nonneg program ->
  (forall r, run mode None initial program = Ret r ->
    run mode (Some limit) initial program = if exceeds (res_gas_cost r) limit then Fail OutOfGas else Ret r) /\
  (forall r, run mode (Some limit) initial program = Ret r ->
    run mode None initial program = Ret r /\ exceeds (res_gas_cost r) limit = false).
Proof.
  intros H0 Hp. unfold run_program, run_program_step_limited. rewrite ?run_internal_skip.
  assert (Hg : gas_ok (gas (initial_machine initial))) by (split; done).
  pose proof (metered_run fr_zero transient_hash2 degrade_to_transient fr_as_le_bytes FR_BYTES node_data_lens
    StateValue_serialized_size cost_model HFR Hnodes Hsize Hcm limit mode None program Hp 0 0 [] _ Hg) as H.
  change (gas (initial_machine initial)) with RC_ZERO in H.
  destruct (loop mode None program initial) as [[ev m]|e|].
  - destruct H as (_ & _ & H). rewrite (H H0). cbn [mbind outcome_bind]. split.
    + intros r [= <-]. cbn. by destruct (exceeds (gas m) limit).
    + intros r. destruct (exceeds (gas m) limit) eqn:E; [done|]. cbn. by intros [= <-].
  - split; [done|]. by destruct (H H0) as [-> | ->].
  - split; [done|]. by destruct (H H0) as [-> | ->].
Qed.

(** Gas saturates, so it stays within 64 bits. *)
Lemma run_gas_ok {R Event} (mode : ResultMode Fr R Event) initial program r :
  Forall op_args_nonneg program -> run mode None initial program = Ret r -> gas_ok (res_gas_cost r).
Proof.
  intros Hp. unfold run_program, run_program_step_limited. rewrite ?run_internal_skip.
  assert (Hg : gas_ok (gas (initial_machine initial))) by (split; done).
  pose proof (metered_run fr_zero transient_hash2 degrade_to_transient fr_as_le_bytes FR_BYTES node_data_lens
    StateValue_serialized_size cost_model HFR Hnodes Hsize Hcm RC_ZERO mode None program Hp 0 0 [] _ Hg) as H.
  destruct (loop mode None program initial) as [[ev m]|e|]; [|done..]. intros [= <-]. apply H.
Qed.

(** The gas limit only cuts runs off: a program that costs no more compute
    and read time than the limit runs as it does without one, and costs the
    same; one that costs more runs out of gas; and a run within a limit is a run
    without one. *)
Theorem vm_gas_limit {R Event} (mode : ResultMode Fr R Event) (limit : RunningCost) initial program :
  exceeds RC_ZERO limit = false -> Forall op_args_nonneg program ->
  (forall r, run mode None initial program = Ret r ->
    run mode (Some limit) initial program = if exceeds (res_gas_cost r) limit then Fail OutOfGas else Ret r) /\
  (forall r, run mode (Some limit) initial program = Ret r ->
    run mode None initial program = Ret r /\ exceeds (res_gas_cost r) limit = false).
Proof. apply run_gas_limit. Qed.
End gas.

(** C25. Programs terminate.  The loop that cuts the executed instructions off the
    program ends, whatever the machine, within as many turns as the program has
    instructions: it never runs out of turns, and more turns or a step limit of
    that size make no difference. *)
Theorem vm_terminates {R Event} (mode : ResultMode Fr R Event) (n : nat) limit program : (length program <= n)%nat ->
  (forall steps events m m', loop_for mode n limit program steps events m <> Ret (None, m')) /\
  (forall steps events m, loop_for mode n limit program steps events m = loop_for mode (length program) limit program steps events m) /\
  (forall initial, run_limited mode (Some n) limit initial program = run mode limit initial program).
Proof.
  intros Hn. split_and!.
  - intros steps events m m'. rewrite run_loop_skip by done. by destruct (skip_loop _ _ _ _ _ _ _ _ _ _ _ _ _ _ _ _) as [[ev m1]| |].
  - intros steps events m. by rewrite !run_loop_skip.
  - intros initial. unfold run_program, run_program_step_limited. rewrite !run_internal_skip. by rewrite skip_loop_steps by lia.
Qed.

(** The cached variants of instructions are only cheaper: when a run with
    them returns, under any limit, the run without them and without a limit
    returns the same stack and events. *)
Theorem vm_cache_transparent {R Event} (mode : ResultMode Fr R Event) limit initial program r :
  run mode limit initial program = Ret r ->
  exists g, run mode None initial (uncached <$> program) = Ret (mkVmResults (res_stack r) (res_events r) g).
Proof.
  unfold run_program, run_program_step_limited. rewrite ?run_internal_skip.
  destruct (loop mode limit program initial) as [[ev m]| |] eqn:E; [|done..]. intros [= <-].
  destruct (sim_run fr_zero transient_hash2 degrade_to_transient fr_as_le_bytes FR_BYTES node_data_lens
    StateValue_serialized_size cost_model limit mode None program 0 0 [] _ (initial_machine initial) _ _ (conj eq_refl eq_refl) E)
    as (m' & E' & [Hs _]).
  exists (gas m'). rewrite E'. cbn. by rewrite Hs.
Qed.

Lemma run_safe {R Event} (mode : ResultMode Fr R Event) limit initial program (cell_fits : AlignedValue -> Prop) :
  (forall v, AlignedValue_serialized_size v <= SMALL_CELL -> cell_fits v) ->
  (forall d, bytes_ok (fr_as_le_bytes d) /\ Z.of_nat (length (fr_as_le_bytes d)) <= FIELD_BYTE_LIMIT) ->
  (forall r v, process_read mode r v <> Panic) ->
  Forall (fun v => value_wf fr_zero degrade_to_transient cell_fits (vm_value v)) initial ->
  Z.of_nat (length initial) <= MAX_STACK_HEIGHT ->
  Forall (op_ok fr_zero degrade_to_transient cell_fits) program ->
  match run mode limit initial program with
  | Ret r => Forall (fun v => value_wf fr_zero degrade_to_transient cell_fits (vm_value v)) (res_stack r) /\
             Z.of_nat (length (res_stack r)) <= MAX_STACK_HEIGHT
  | Fail _ => True
  | Panic => False
  end.
Proof.
  intros Hsm Hfr Hmode Hi Hl Hp. unfold run_program, run_program_step_limited. rewrite run_internal_skip.
  pose proof (wp_run fr_zero transient_hash2 degrade_to_transient fr_as_le_bytes FR_BYTES node_data_lens
    StateValue_serialized_size cost_model limit Hfr cell_fits Hsm mode None Hmode program Hp 0 0 [] _ _
    (initial_ok fr_zero degrade_to_transient cell_fits initial Hi Hl)) as H.
  unfold wp in H. destruct (loop mode limit program initial) as [[ev m]| |]; [|done..]. destruct H as [[_ Hs] Hh]. cbn.
  rewrite length_reverse, length_fmap. split; [|done]. apply Forall_reverse, Forall_fmap.
  eapply Forall_impl; [exact Hs|]. by intros [v k] [Hv _].
Qed.

(** The two conditions on cells together. *)
Lemma run_loadable {R Event} (mode : ResultMode Fr R Event) limit initial program :
  (forall d, bytes_ok (fr_as_le_bytes d) /\ Z.of_nat (length (fr_as_le_bytes d)) <= FIELD_BYTE_LIMIT) ->
  (forall r v, process_read mode r v <> Panic) ->
  Forall (fun v => value_wf fr_zero degrade_to_transient any_cell (vm_value v)) initial ->
  Z.of_nat (length initial) <= MAX_STACK_HEIGHT ->
  Forall (op_ok fr_zero degrade_to_transient any_cell) program ->
  match run mode limit initial program with
  | Ret r => Forall (fun v => value_wf fr_zero degrade_to_transient any_cell (vm_value v)) (res_stack r) /\
             Z.of_nat (length (res_stack r)) <= MAX_STACK_HEIGHT /\
             (Forall (fun v => loadable fr_zero degrade_to_transient (vm_value v)) initial ->
              Forall (op_loadable fr_zero degrade_to_transient) program ->
              Forall (fun v => loadable fr_zero degrade_to_transient (vm_value v)) (res_stack r))
  | Fail _ => True
  | Panic => False
  end.
Proof.
  intros Hfr Hmode Hi Hl Hp. pose proof (run_safe mode limit initial program any_cell ltac:(done) Hfr Hmode Hi Hl Hp) as H.
  pose proof (fun Hi' Hp' => run_safe mode limit initial program in_bound in_bound_small Hfr Hmode Hi' Hl Hp') as Hb.
  destruct (run mode limit initial program) as [r| |]; [|done..]. destruct H as [H1 H2]. split_and!; [done|done|]. intros Hi' Hp'.
  apply Hb; [done|]. eapply Forall_impl; [exact Hp'|]. intros op. apply op_loadable_ok.
Qed.

(** C24. No program goes wrong: from well-formed values, whose cells are aligned,
    whose arrays have at most 16 entries and whose trees are hashed and of
    height 1 to 32, a run of a program with well-formed arguments does not
    panic, every value it leaves on the stack is well formed again, and the
    stack stays within its bound.  When moreover all cells are within the bound
    that is checked on loading, and every concatenation declares a bound that is
    [CONCAT_SLACK] below it, then the cells left on the stack are within the
    bound, so that the values can be loaded again. *)
Theorem vm_safe {R Event} (mode : ResultMode Fr R Event) limit initial program :
  (forall d, bytes_ok (fr_as_le_bytes d) /\ Z.of_nat (length (fr_as_le_bytes d)) <= FIELD_BYTE_LIMIT) ->
  (forall r v, process_read mode r v <> Panic) ->
  Forall (fun v => value_wf fr_zero degrade_to_transient any_cell (vm_value v)) initial ->
  Z.of_nat (length initial) <= MAX_STACK_HEIGHT ->
  Forall (op_ok fr_zero degrade_to_transient any_cell) program ->
  match run mode limit initial program with
  | Ret r => Forall (fun v => value_wf fr_zero degrade_to_transient any_cell (vm_value v)) (res_stack r) /\
             Z.of_nat (length (res_stack r)) <= MAX_STACK_HEIGHT /\
             (Forall (fun v => loadable fr_zero degrade_to_transient (vm_value v)) initial ->
              Forall (op_loadable fr_zero degrade_to_transient) program ->
              Forall (fun v => loadable fr_zero degrade_to_transient (vm_value v)) (res_stack r))
  | Fail _ => True
  | Panic => False
  end.
Proof. apply run_loadable. Qed.
End theorems.

(** ** Witnesses *)

Import VmExample.

Lemma vm_verify_gather_witness :
  exists filled, strip filled = strip increment /\
    exists r, run ResultModeVerify None initial filled = Ret r /\ res_events r = [].
Proof.
  destruct (proj2 (proj2 (vm_verify_gather 0 hash2 degrade bytes_of 32 nodes size_of INITIAL_COST_MODEL None initial))
    (strip increment) _ ltac:(vm_compute; reflexivity)) as (filled & Hs & Hr).
  exists filled. split; [exact Hs|]. eexists. split; [exact Hr|reflexivity].
Defined.

Lemma vm_gas_limit_witness :
  let limit := mkRunningCost 350000000 360000000 0 0 in
  exists r, run ResultModeVerify (Some limit) initial increment = Ret r.
Proof.
  eexists. pose proof (vm_gas_limit 0 hash2 degrade bytes_of 32 nodes size_of INITIAL_COST_MODEL ltac:(lia) nodes_ok
    ltac:(intros; unfold size_of; lia) costs_ok ResultModeVerify (mkRunningCost 350000000 360000000 0 0)
    initial increment eq_refl increment_args) as [H _].
  etransitivity; [apply H; vm_compute; reflexivity|vm_compute; reflexivity].
Defined.

Lemma vm_terminates_witness :
  run_program_step_limited 0 hash2 degrade bytes_of 32 nodes size_of INITIAL_COST_MODEL ResultModeVerify (Some 8%nat) None
    initial increment = run ResultModeVerify None initial increment.
Proof. apply (vm_terminates 0 hash2 degrade bytes_of 32 nodes size_of INITIAL_COST_MODEL). vm_compute. lia. Defined.

Lemma vm_cache_transparent_witness :
  exists r g, run ResultModeVerify None initial increment = Ret r /\
    run ResultModeVerify None initial (uncached <$> increment) = Ret (mkVmResults (res_stack r) (res_events r) g).
Proof.
  destruct (run ResultModeVerify None initial increment) as [r| |] eqn:E; [|vm_compute in E; discriminate E..].
  destruct (vm_cache_transparent _ _ _ _ _ _ _ _ _ _ _ _ _ E) as [g Hg]. exists r, g. split; [reflexivity|exact Hg].
Defined.

Lemma vm_safe_witness :
  match run ResultModeVerify None initial increment with
  | Ret r => Forall (fun v => loadable 0 degrade (vm_value v)) (res_stack r)
  | _ => False
  end.
Proof.
  pose proof (vm_safe 0 hash2 degrade bytes_of 32 nodes size_of INITIAL_COST_MODEL ResultModeVerify None initial increment
    bytes_of_ok ltac:(intros r v; cbn; by case_bool_decide)
    (Forall_impl _ _ _ initial_wf (fun v => loadable_wf 0 degrade (vm_value v))) ltac:(cbn; unfold MAX_STACK_HEIGHT; lia)
    (Forall_impl _ _ _ increment_ok (fun op => op_loadable_wf 0 degrade op))) as H.
  unfold run. destruct (run_program _ _ _ _ _ _ _ _ _ _ _ _) as [r| |] eqn:E; [|vm_compute in E; discriminate E..].
  apply H; [exact initial_wf|exact increment_ok].
Defined.

(** ** The bound of cells

    [concat] compares the sizes of the parts with its bound, not the size of the
    result, which has room for the number of its atoms. *)

Definition half_cell : AlignedValue :=
  mkAlignedValue [replicate (Z.to_nat 16378) 1] [SegAtom (Bytes 16378)].

Lemma concat_exceeds_cell_bound :
  match @vm_concat Z half_cell half_cell CELL_BOUND with
  | Ret v => AlignedValue_serialized_size v = CELL_BOUND + 2
  | _ => False
  end.
Proof. vm_compute. reflexivity. Qed.
