(* ===== verification/ZswapMemo.v ===== *)
(** * Zswap memos ([zswap/src/structure.rs], [zswap/src/lib.rs], [zswap/src/error.rs])

    The size and placement policy of memos, their encoding, and the packing of
    a memo into the field element a spend proof binds to.  A memo is the list of
    its bytes.  The hash [transient_hash] and the modulus of the proof system's
    field are arguments: they come from the proof system's library. *)

From S2P Require Import Prelude Serialize.
From stdpp Require Import list countable.

Local Open Scope Z_scope.

(** ** Errors *)

(** [MalformedOffer]; of an invalid proof and of a ciphertext only the fact is
    kept.  Addresses are byte strings. *)
Inductive MalformedOffer :=
| InvalidProof
| ContractSentCiphertext (address : list Z)
| NonDisjointCoinMerge
| NotNormalized
| MemoOnContractOwnedInput (address : list Z)
| EmptyMemo
| MemoTooLarge (size limit : nat).

#[export] Instance MalformedOffer_eq_dec : EqDecision MalformedOffer.
Proof. solve_decision. Defined.

(** ** Policy *)

Definition MAX_MEMO_BYTES : nat := 512.
Definition MEMO_BYTES_PER_FIELD : nat := 31.

Definition Memo : Type := list Z.

Definition check_memo_len (len : nat) : result MalformedOffer unit :=
  match len with
  | O => Err EmptyMemo
  | _ => if (MAX_MEMO_BYTES <? len)%nat then Err (MemoTooLarge len MAX_MEMO_BYTES) else Ok tt
  end.

Definition memo_well_formed (memo : option Memo) (contract_address : option (list Z))
  : result MalformedOffer unit :=
  match memo with
  | None => Ok tt
  | Some memo =>
      match contract_address with
      | Some address => Err (MemoOnContractOwnedInput address)
      | None => check_memo_len (length memo)
      end
  end.

Definition Memo_new (bytes : list Z) : result MalformedOffer Memo :=
  _ ← check_memo_len (length bytes); Ok bytes.

(** ** Encoding *)

Definition memo_io_error (e : MalformedOffer) : ErrorKind := InvalidData.

Definition Memo_serialize (m : Memo) : result ErrorKind (list Z) :=
  _ ← map_err memo_io_error (check_memo_len (length m));
  Ok (serialize u32_codec (wrap 32 (Z.of_nat (length m))) ++ m).

Definition Memo_serialized_size (m : Memo) : nat :=
  (serialized_size u32_codec (wrap 32 (Z.of_nat (length m))) + length m)%nat.

Definition Memo_deserialize (recursive_depth : Z) : Reader Memo :=
  len ← deserialize u32_codec recursive_depth;
  _ ← lift_res (map_err memo_io_error (check_memo_len (Z.to_nat len)));
  read_exact (Z.to_nat len).

(** ** Commitment to a memo *)

Section commitment.
(** The field's modulus, [transient_hash], and the two domain separators as
    field elements. *)
Context (modulus : Z) (transient_hash : list Z -> Z) (memo_domain_sep : Z).

(** [Fr::from_le_bytes]: at most 32 bytes, below the modulus. *)
Definition FR_BYTES : nat := 32.
Definition Fr_from_le_bytes (bytes : list Z) : option Z :=
  if (length bytes <=? FR_BYTES)%nat then
    let x := from_le_bytes (bytes ++ replicate (FR_BYTES - length bytes) 0) in
    if x <? modulus then Some x else None
  else None.

Definition transient_commit (value : list Z) (opening : Z) : Z :=
  transient_hash (opening :: value).

(** The zero-padded chunk as a field element. *)
Definition memo_chunk (chunk : list Z) : option Z :=
  Fr_from_le_bytes (chunk ++ replicate (MEMO_BYTES_PER_FIELD - length chunk) 0).

Definition memo_fields (m : Memo) : outcome MalformedOffer (list Z) :=
  fields ← expect (mapM memo_chunk (chunks MEMO_BYTES_PER_FIELD m));
  mret (Z.of_nat (length m) :: fields).

Definition memo_to_field (m : Memo) : outcome MalformedOffer Z :=
  fields ← memo_fields m;
  mret (transient_commit fields (transient_hash [memo_domain_sep])).

Definition memo_statement_element (memo : option Memo) : outcome MalformedOffer Z :=
  match memo with Some m => memo_to_field m | None => mret 0 end.
End commitment.

(** ** Lemmas *)

Lemma check_memo_len_Ok len :
  check_memo_len len = Ok tt <-> (1 <= len <= MAX_MEMO_BYTES)%nat.
Proof.
  unfold check_memo_len. destruct len as [|len]; [split; [done|lia]|].
  destruct (Nat.ltb_spec MAX_MEMO_BYTES (S len)); split; (done || lia).
Qed.

Lemma check_memo_len_cases len :
  check_memo_len len = Ok tt \/ exists e, check_memo_len len = Err e.
Proof. destruct (check_memo_len len) as [[]|e]; eauto. Qed.

Definition Memo_ok (m : Memo) : Prop := (1 <= length m <= MAX_MEMO_BYTES)%nat /\ bytes_ok m.

Lemma Memo_len_u32 m : Memo_ok m -> in_u 32 (Z.of_nat (length m)).
Proof. unfold Memo_ok, MAX_MEMO_BYTES, in_u. lia. Qed.

Lemma Memo_roundtrip m rest d :
  Memo_ok m -> bytes_ok rest -> d <= RECURSION_LIMIT ->
  exists bs, Memo_serialize m = Ok bs /\ length bs = Memo_serialized_size m /\
    Memo_deserialize d (bs ++ rest) = Ok (m, rest).
Proof.
  intros Hm Hrest Hd. pose proof (Memo_len_u32 m Hm) as Hu. destruct Hm as [Hl Hb].
  unfold Memo_serialize, Memo_serialized_size, Memo_deserialize.
  assert (Hw : wrap 32 (Z.of_nat (length m)) = Z.of_nat (length m)).
  { unfold wrap. apply Z.mod_small. done. }
  rewrite Hw. rewrite (proj2 (check_memo_len_Ok (length m)) Hl). simpl map_err.
  cbn [mbind result_bind]. eexists. split_and!; [done| |].
  - rewrite length_app, law_size by done. done.
  - rewrite <- app_assoc. erewrite Reader_bind_step.
    2: { apply law_roundtrip; [done|lia|]. by apply Forall_app. }
    rewrite Nat2Z.id, (proj2 (check_memo_len_Ok (length m)) Hl).
    erewrite Reader_bind_step by done. apply read_exact_app.
Qed.

(** Only valid memos decode, and the length is judged before the body is read. *)
Lemma Memo_deserialize_sound d bs m rest :
  bytes_ok bs -> Memo_deserialize d bs = Ok (m, rest) -> Memo_ok m.
Proof.
  intros Hb (len & mid & Hlen & Hd)%Reader_bind_Ok.
  apply law_sound in Hlen as [Hlen [u ->]]; [|done]. apply Forall_app in Hb as [_ Hb].
  apply Reader_bind_Ok in Hd as ([] & mid' & Hc & Hd).
  unfold lift_res in Hc. destruct (check_memo_len (Z.to_nat len)) as [[]|e] eqn:E; [|done].
  injection Hc as <-. apply check_memo_len_Ok in E.
  apply read_exact_inv in Hd as [-> Hl]. apply Forall_app in Hb as [Hb _].
  split; [lia|done].
Qed.

Section commitment_lemmas.
Context (modulus : Z) (transient_hash : list Z -> Z) (memo_domain_sep : Z).
(** One byte less than the field's width always fits. *)
Context (Hmod : 256 ^ 31 <= modulus).

Lemma memo_chunk_spec c :
  bytes_ok c -> (length c <= MEMO_BYTES_PER_FIELD)%nat ->
  exists f, memo_chunk modulus c = Some f /\
    to_le_bytes 31 f = c ++ replicate (MEMO_BYTES_PER_FIELD - length c) 0.
Proof.
  intros Hb Hl. unfold memo_chunk, MEMO_BYTES_PER_FIELD in *.
  set (b := c ++ replicate (31 - length c) 0).
  assert (Hlen : length b = 31%nat) by (unfold b; rewrite length_app, length_replicate; lia).
  assert (Hok : bytes_ok b).
  { apply Forall_app; split; [done|]. apply Forall_replicate. done. }
  unfold Fr_from_le_bytes, FR_BYTES. rewrite Hlen. cbn [Nat.leb Nat.sub].
  assert (Hx : from_le_bytes (b ++ replicate 1 0) = from_le_bytes b).
  { rewrite from_le_bytes_app. simpl. lia. }
  rewrite Hx. pose proof (from_le_bytes_bound b Hok) as Hbd. rewrite Hlen in Hbd.
  change (Z.of_nat 31) with 31 in Hbd. cbv zeta.
  destruct (Z.ltb_spec (from_le_bytes b) modulus); [|lia].
  eexists. split; [done|]. rewrite <- Hlen at 1. by apply to_from_le_bytes.
Qed.

(** The packed fields spell the memo, then zeros. *)
Lemma memo_chunks_spec fuel m :
  bytes_ok m -> (length m <= fuel)%nat ->
  exists fs k, mapM (memo_chunk modulus) (chunks_rec fuel MEMO_BYTES_PER_FIELD m) = Some fs /\
    fs ≫= to_le_bytes 31 = m ++ replicate k 0.
Proof.
  revert m; induction fuel as [|fuel IH]; intros m Hb Hl.
  - destruct m; [|simpl in Hl; lia]. by exists [], 0%nat.
  - destruct m as [|b m]; [by exists [], 0%nat|]. cbn [chunks_rec].
    set (l := b :: m) in *.
    destruct (memo_chunk_spec (take MEMO_BYTES_PER_FIELD l)) as (f & Hf & Hu).
    { by apply Forall_take. }
    { rewrite length_take. lia. }
    destruct (IH (drop MEMO_BYTES_PER_FIELD l)) as (fs & k & Hfs & Hus).
    { by apply Forall_drop. }
    { rewrite length_drop. unfold MEMO_BYTES_PER_FIELD. lia. }
    cbn [mapM]. rewrite Hf. cbn [mbind option_bind]. rewrite Hfs. cbn [mbind option_bind].
    rewrite length_take in Hu.
    destruct (decide (length l <= MEMO_BYTES_PER_FIELD)%nat) as [Hle|].
    + rewrite drop_ge in Hus by done.
      exists (f :: fs), (MEMO_BYTES_PER_FIELD - length l + k)%nat. split; [done|].
      rewrite Nat.min_r in Hu by lia. rewrite bind_cons, Hu, Hus, take_ge, app_nil_l by done.
      by rewrite <- app_assoc, <- replicate_add.
    + exists (f :: fs), k. split; [done|]. rewrite bind_cons, Hu, Hus.
      rewrite Nat.min_l, Nat.sub_diag by lia. rewrite app_nil_r, app_assoc, take_drop. done.
Qed.

Lemma memo_fields_spec m :
  bytes_ok m -> exists fs k, memo_fields modulus m = Ret (Z.of_nat (length m) :: fs) /\
    fs ≫= to_le_bytes 31 = m ++ replicate k 0.
Proof.
  intros Hb. destruct (memo_chunks_spec (length m) m Hb ltac:(lia)) as (fs & k & Hf & Hu).
  exists fs, k. unfold memo_fields, chunks. by rewrite Hf.
Qed.

Lemma memo_fields_inj m1 m2 :
  bytes_ok m1 -> bytes_ok m2 -> memo_fields modulus m1 = memo_fields modulus m2 -> m1 = m2.
Proof.
  intros H1 H2 He.
  destruct (memo_fields_spec m1 H1) as (f1 & k1 & E1 & U1).
  destruct (memo_fields_spec m2 H2) as (f2 & k2 & E2 & U2).
  rewrite E1, E2 in He. injection He as Hl Hf. apply Nat2Z.inj in Hl. subst f2.
  rewrite U1 in U2. apply (f_equal (take (length m1))) in U2.
  rewrite take_app_length in U2. rewrite Hl, take_app_length in U2. done.
Qed.
End commitment_lemmas.

(** ** Properties *)

(** The memo policy is one rule: an input's memo is accepted exactly when it
    is absent, or on a user-owned input with between 1 and 512 bytes; a memo on
    a contract-owned input is diagnosed as such before its size. *)
Theorem memo_policy (memo : option Memo) (contract_address : option (list Z)) :
  memo_well_formed memo contract_address =
  match memo, contract_address with
  | None, _ => Ok tt
  | Some _, Some address => Err (MemoOnContractOwnedInput address)
  | Some m, None =>
      if decide (length m = 0)%nat then Err EmptyMemo
      else if decide (length m <= 512)%nat then Ok tt
      else Err (MemoTooLarge (length m) 512)
  end.
Proof.
  destruct memo as [m|], contract_address as [a|]; try done. unfold memo_well_formed, check_memo_len.
  unfold MAX_MEMO_BYTES. repeat case_decide; destruct (length m) as [|n]; try lia; try done;
    destruct (Nat.ltb_spec 512 (S n)); (done || lia).
Qed.

(** Memos round trip and no other memo gets through: a valid memo is written,
    with the announced length, and read back; whatever is read is valid; and a
    value that is not valid is not written. *)
Theorem memo_encoding (m : Memo) (rest bs : list Z) (d : Z) :
  bytes_ok rest -> bytes_ok bs -> bytes_ok m -> d <= RECURSION_LIMIT ->
  (Memo_ok m -> exists out, Memo_serialize m = Ok out /\ length out = Memo_serialized_size m /\
                  Memo_deserialize d (out ++ rest) = Ok (m, rest)) /\
  (~ Memo_ok m -> Memo_serialize m = Err InvalidData) /\
  (forall m' rest', Memo_deserialize d bs = Ok (m', rest') -> Memo_ok m').
Proof.
  intros Hr Hbs Hm Hd. split_and!.
  - intros Hok. by apply Memo_roundtrip.
  - intros Hno. unfold Memo_serialize.
    destruct (check_memo_len (length m)) as [[]|e] eqn:E; [|done].
    destruct Hno. split; [by apply check_memo_len_Ok|done].
  - intros m' rest' Hdec. exact (Memo_deserialize_sound d bs m' rest' Hbs Hdec).
Qed.

Lemma memo_encoding_witness :
  Memo_serialize [104; 105] = Ok [8; 104; 105] /\
  exists out, Memo_serialize [104; 105] = Ok out /\
    length out = Memo_serialized_size [104; 105] /\
    Memo_deserialize 0 (out ++ [7]) = Ok ([104; 105], [7]).
Proof.
  split; [reflexivity|].
  apply (memo_encoding [104; 105] [7] [] 0).
  - apply (bool_decide_unpack _). vm_compute. exact I.
  - constructor.
  - apply (bool_decide_unpack _). vm_compute. exact I.
  - vm_compute. discriminate.
  - split; [split; vm_compute; lia|]. apply (bool_decide_unpack _). vm_compute. exact I.
Defined.

(** What the element of a memo is the hash of. *)
Definition memo_preimage (modulus sep : Z) (transient_hash : list Z -> Z) (m : Memo) : list Z :=
  transient_hash [sep] :: match memo_fields modulus m with Ret fs => fs | _ => [] end.

Lemma memo_element modulus sep transient_hash m : 256 ^ 31 <= modulus -> bytes_ok m ->
  memo_to_field modulus transient_hash sep m = Ret (transient_hash (memo_preimage modulus sep transient_hash m)).
Proof.
  intros Hmod Hm. destruct (memo_fields_spec modulus Hmod m Hm) as (fs & k & E & _). unfold memo_preimage, memo_to_field. by rewrite E.
Qed.

Lemma memo_preimage_inj modulus sep transient_hash m1 m2 : 256 ^ 31 <= modulus -> bytes_ok m1 -> bytes_ok m2 ->
  memo_preimage modulus sep transient_hash m1 = memo_preimage modulus sep transient_hash m2 -> m1 = m2.
Proof.
  intros Hmod H1 H2 [= He]. apply (memo_fields_inj modulus Hmod); [done..|].
  destruct (memo_fields_spec modulus Hmod m1 H1) as (f1 & k1 & E1 & _), (memo_fields_spec modulus Hmod m2 H2) as (f2 & k2 & E2 & _).
  rewrite E1, E2 in *. by rewrite He.
Qed.

(** C35. The statement element binds the memo: it is always computed, and inputs with
    the same element carry the same memo, absence of a memo included, unless the
    preimages of the two elements are a collision of the transient hash, or one of
    the inputs carries no memo and the preimage of the other's element has the
    hash zero. *)
Theorem memo_statement_binds (modulus sep : Z) (transient_hash : list Z -> Z) (memo1 memo2 : option Memo) :
  256 ^ 31 <= modulus ->
  (forall m, memo1 = Some m -> bytes_ok m) -> (forall m, memo2 = Some m -> bytes_ok m) ->
  let preimage := memo_preimage modulus sep transient_hash in
  exists f1 f2, memo_statement_element modulus transient_hash sep memo1 = Ret f1 /\
    memo_statement_element modulus transient_hash sep memo2 = Ret f2 /\
    (f1 = f2 -> memo1 = memo2 \/
      match memo1, memo2 with
      | Some m1, Some m2 => collision transient_hash (preimage m1) (preimage m2)
      | Some m, None | None, Some m => transient_hash (preimage m) = 0
      | None, None => False
      end).
Proof.
  intros Hmod H1 H2 preimage. destruct memo1 as [m1|], memo2 as [m2|]; cbn [memo_statement_element]; rewrite ?memo_element by eauto;
    (eexists _, _; split_and!; [done..|]; intros He).
  - destruct (decide (preimage m1 = preimage m2)) as [Ep|Hne]; [left|right; by split]. f_equal.
    eapply memo_preimage_inj; [exact Hmod|by apply H1|by apply H2|exact Ep].
  - by right.
  - by right.
  - by left.
Qed.

(** A polynomial in the elements, modulo a prime. *)
Definition example_hash (l : list Z) : Z := foldl (fun acc x => (acc * 257 + x + 1) mod (2 ^ 255 - 19)) 7 l.

Lemma memo_statement_binds_witness :
  exists f1 f2, memo_statement_element (2 ^ 255 - 19) example_hash 3 (Some [104; 105; 0]) = Ret f1 /\
    memo_statement_element (2 ^ 255 - 19) example_hash 3 (Some [104; 105]) = Ret f2 /\ f1 <> f2.
Proof.
  destruct (memo_statement_binds (2 ^ 255 - 19) 3 example_hash (Some [104; 105; 0]) (Some [104; 105]))
    as (f1 & f2 & E1 & E2 & Hb).
  - vm_compute. discriminate.
  - intros m [= <-]. apply (bool_decide_unpack _). vm_compute. exact I.
  - intros m [= <-]. apply (bool_decide_unpack _). vm_compute. exact I.
  - exists f1, f2. split; [exact E1|]. split; [exact E2|].
    intros He. destruct (Hb He) as [Hm|[_ Hc]]; [discriminate Hm|]. vm_compute in Hc. discriminate Hc.
Defined.
