(* ===== verification/Repr.v ===== *)
(** * Byte strings as field elements ([transient-crypto/src/repr.rs], [transient-crypto/src/hash.rs])

    Hash preimages and public inputs are lists of field elements.  A byte string
    is cut into chunks of 31 bytes, which always fit the field, the last and
    possibly shorter chunk first.  The file models this representation, its
    inverse, and the two conversions between the output of the persistent hash
    (32 bytes) and of the transient hash (a field element). *)

From S2P Require Import Prelude Serialize ZswapMemo.
From stdpp Require Import list.

Local Open Scope Z_scope.

Definition FR_BYTES_STORED : nat := FR_BYTES - 1.

Section repr.
Context (modulus : Z).

(** [<[u8]>::field_repr]: the loop takes a chunk from the end of the slice, first
    the bytes beyond a multiple of 31.  The fuel is the length of the slice. *)
Fixpoint bytes_field_repr_loop {E} (fuel : nat) (slice : list Z) : outcome E (list Z) :=
  match fuel, slice with
  | _, [] => Ret []
  | O, _ => Panic
  | S fuel', _ =>
      let len := length slice in
      let stray := (len mod FR_BYTES_STORED)%nat in
      let start := if (stray =? 0)%nat then (len - Nat.min FR_BYTES_STORED len)%nat
                   else (len - stray)%nat in
      f ← expect (Fr_from_le_bytes modulus (drop start slice));
      fs ← bytes_field_repr_loop fuel' (take start slice);
      Ret (f :: fs)
  end.

Definition bytes_field_repr {E} (bytes : list Z) : outcome E (list Z) :=
  bytes_field_repr_loop (length bytes) bytes.

Definition bytes_field_size (bytes : list Z) : nat :=
  (length bytes / FR_BYTES_STORED +
   if (length bytes mod FR_BYTES_STORED =? 0)%nat then 0 else 1)%nat.

Definition as_le_bytes (f : Z) : list Z := to_le_bytes FR_BYTES f.

(** The closure [bytes_from]: the low [k] bytes, when the others are zero. *)
Definition bytes_from (k : nat) (f : Z) : option (list Z) :=
  let repr := as_le_bytes f in
  if existsb (fun b => negb (b =? 0)) (drop k repr) then None else Some (take k repr).

Definition bytes_from_field_repr (repr : list Z) (n : nat) : option (list Z * list Z) :=
  let stray := (n mod FR_BYTES_STORED)%nat in
  let chunks := (n / FR_BYTES_STORED)%nat in
  let expected_size := (chunks + if (stray =? 0)%nat then 0 else 1)%nat in
  if (length repr <? expected_size)%nat then None
  else
    '(tail, repr) ← (if (0 <? stray)%nat then
                       match repr with
                       | f :: repr' => tail ← bytes_from stray f; Some (tail, repr')
                       | [] => None
                       end
                     else Some ([], repr));
    parts ← mapM (bytes_from FR_BYTES_STORED) (reverse (take chunks repr));
    Some (concat parts ++ tail, drop chunks repr).

(** [degrade_to_transient]: the second element of a hash's representation; for
    32 bytes there are two.  [upgrade_from_transient]: the low 31 bytes. *)
Definition degrade_to_transient (persistent : list Z) : Z :=
  match @bytes_field_repr Empty_set persistent with
  | Ret (_ :: f :: _) => f
  | _ => 0
  end.

Definition upgrade_from_transient (transient : Z) : list Z :=
  take FR_BYTES_STORED (as_le_bytes transient) ++ [0].

(** ** Lemmas *)

Context (Hmod : 256 ^ 31 <= modulus <= 256 ^ 32).

Lemma Fr_from_le_bytes_short bs :
  bytes_ok bs -> (length bs <= FR_BYTES_STORED)%nat -> Fr_from_le_bytes modulus bs = Some (from_le_bytes bs).
Proof.
  intros Hb Hl. unfold Fr_from_le_bytes. unfold FR_BYTES_STORED, FR_BYTES in *.
  destruct (Nat.leb_spec (length bs) 32); [|lia].
  rewrite from_le_bytes_app, from_le_bytes_zeros, Z.mul_0_r, Z.add_0_r. cbv zeta.
  pose proof (from_le_bytes_bound bs Hb) as Hx.
  assert (256 ^ Z.of_nat (length bs) <= 256 ^ 31) by (apply Z.pow_le_mono_r; lia).
  destruct (Z.ltb_spec (from_le_bytes bs) modulus); [done|lia].
Qed.

(** The low bytes and the rest of an element. *)
Lemma le_bytes_split k f :
  (k <= FR_BYTES)%nat ->
  as_le_bytes f = to_le_bytes k f ++ drop k (as_le_bytes f).
Proof.
  intros Hk. unfold as_le_bytes. rewrite <- (take_drop k (to_le_bytes FR_BYTES f)) at 1. f_equal.
  clear Hmod. revert f Hk. generalize FR_BYTES. intros n. revert n.
  induction k as [|k IH]; intros n f Hk; [done|]. destruct n as [|n]; [lia|]. cbn [to_le_bytes take].
  f_equal. apply IH. lia.
Qed.

Lemma existsb_zeros l : existsb (fun b => negb (b =? 0)) l = false <-> l = replicate (length l) 0.
Proof.
  induction l as [|b l IH]; [done|]. cbn [existsb length replicate].
  destruct (Z.eqb_spec b 0) as [->|Hb]; simpl; [rewrite IH|]; (split; [|congruence]).
  - by intros <-.
  - done.
Qed.

Lemma bytes_from_Some k f bs :
  (k <= FR_BYTES)%nat -> 0 <= f < 256 ^ 32 ->
  bytes_from k f = Some bs <-> f < 256 ^ Z.of_nat k /\ bs = to_le_bytes k f.
Proof.
  intros Hk Hf. unfold bytes_from. pose proof (le_bytes_split k f Hk) as Hs.
  assert (Hl : length (drop k (as_le_bytes f)) = (FR_BYTES - k)%nat).
  { unfold as_le_bytes. by rewrite length_drop, length_to_le_bytes. }
  assert (Ht : take k (as_le_bytes f) = to_le_bytes k f).
  { rewrite Hs. rewrite take_app_le by (rewrite length_to_le_bytes; lia).
    by rewrite take_ge by (rewrite length_to_le_bytes; lia). }
  assert (Hv : f = from_le_bytes (to_le_bytes k f) + 256 ^ Z.of_nat k * from_le_bytes (drop k (as_le_bytes f))).
  { rewrite <- (from_to_le_bytes_small FR_BYTES f) at 1 by (unfold FR_BYTES; simpl; lia).
    fold (as_le_bytes f). rewrite Hs at 1. by rewrite from_le_bytes_app, length_to_le_bytes. }
  pose proof (from_le_bytes_bound _ (to_le_bytes_ok k f)) as B1. rewrite length_to_le_bytes in B1.
  assert (Hd : bytes_ok (drop k (as_le_bytes f))) by apply Forall_drop, to_le_bytes_ok.
  pose proof (from_le_bytes_bound _ Hd) as B2.
  destruct (existsb _ _) eqn:E.
  - split; [done|]. intros [Hlt _]. exfalso. enough (existsb (fun b => negb (b =? 0)) (drop k (as_le_bytes f)) = false) by congruence.
    apply existsb_zeros, from_le_bytes_inj; [done|apply Forall_replicate; done|by rewrite length_replicate|].
    rewrite from_le_bytes_zeros. nia.
  - rewrite Ht. apply existsb_zeros in E. rewrite E, from_le_bytes_zeros in Hv.
    split; [intros [= <-]; split; [lia|done]|by intros [_ ->]].
Qed.

(** *** Byte strings as lists of elements

    The bytes of elements below [256^31], the first element last. *)

Abbreviation stored := (fun f => 0 <= f < 256 ^ 31).
Definition spell (fs : list Z) : list Z := reverse fs ≫= to_le_bytes FR_BYTES_STORED.

Lemma spell_cons f fs : spell (f :: fs) = spell fs ++ to_le_bytes FR_BYTES_STORED f.
Proof. unfold spell. by rewrite reverse_cons, bind_app, bind_singleton. Qed.

Lemma length_spell fs : length (spell fs) = (length fs * FR_BYTES_STORED)%nat.
Proof.
  induction fs as [|f fs IH]; [done|]. rewrite spell_cons, length_app, IH, length_to_le_bytes. cbn [length]. lia.
Qed.

Lemma spell_ok fs : bytes_ok (spell fs).
Proof.
  induction fs as [|f fs IH]; [constructor|]. rewrite spell_cons. apply Forall_app. split; [done|apply to_le_bytes_ok].
Qed.

Lemma spell_surj q : forall bs,
  bytes_ok bs -> length bs = (q * FR_BYTES_STORED)%nat ->
  exists fs, length fs = q /\ Forall stored fs /\ bs = spell fs.
Proof.
  induction q as [|q IH]; intros bs Hb Hl.
  - exists []. split_and!; [done|constructor|]. by apply nil_length_inv.
  - set (init := take (q * FR_BYTES_STORED) bs). set (lst := drop (q * FR_BYTES_STORED) bs).
    assert (Hlst : length lst = FR_BYTES_STORED) by (unfold lst; rewrite length_drop; lia).
    assert (Hok : bytes_ok lst) by by apply Forall_drop.
    destruct (IH init) as (fs & <- & Hfs & E); [by apply Forall_take|unfold init; rewrite length_take; lia|].
    exists (from_le_bytes lst :: fs). split_and!; [done| |].
    + constructor; [|done]. pose proof (from_le_bytes_bound lst Hok) as B. by rewrite Hlst in B.
    + rewrite spell_cons, <- E. rewrite <- Hlst, to_from_le_bytes by done. unfold init, lst. by rewrite take_drop.
Qed.

(** One turn of the loop. *)
Lemma field_repr_step {E} fuel (front back : list Z) :
  bytes_ok back -> back <> [] ->
  (length front mod FR_BYTES_STORED = 0)%nat -> (length back <= FR_BYTES_STORED)%nat ->
  @bytes_field_repr_loop E (S fuel) (front ++ back) =
  (fs ← bytes_field_repr_loop fuel front; Ret (from_le_bytes back :: fs)).
Proof.
  intros Hb Hne Hf Hl. cbn [bytes_field_repr_loop]. destruct (front ++ back) as [|x l] eqn:Es.
  { by apply app_nil in Es as [_ ?]. }
  rewrite <- Es. cbv zeta.
  replace (if _ =? 0 then _ else _)%nat with (length front).
  { rewrite drop_app_length, take_app_length, Fr_from_le_bytes_short by done. done. }
  assert (0 < length back)%nat by (destruct back; simpl; [done|lia]).
  apply Nat.Div0.mod_divides in Hf as [q Hq]. rewrite length_app, Hq, (Nat.mul_comm _ q), Nat.add_comm, Nat.Div0.mod_add.
  destruct (decide (length back = FR_BYTES_STORED)) as [Hb'|Hb'].
  - rewrite Hb', Nat.Div0.mod_same, Nat.eqb_refl. lia.
  - rewrite Nat.mod_small by lia. destruct (Nat.eqb_spec (length back) 0); lia.
Qed.

Lemma field_repr_spell {E} fs : forall fuel,
  Forall stored fs -> (length fs <= fuel)%nat -> @bytes_field_repr_loop E fuel (spell fs) = Ret fs.
Proof.
  induction fs as [|f fs IH]; intros fuel Hfs Hl; [by destruct fuel|].
  apply Forall_cons in Hfs as [Hf Hfs]. destruct fuel as [|fuel]; [simpl in Hl; lia|].
  rewrite spell_cons, field_repr_step.
  - rewrite IH by (done || (simpl in Hl; lia)). cbn [mbind outcome_bind]. do 2 f_equal.
    by apply (from_to_le_bytes_small FR_BYTES_STORED).
  - apply to_le_bytes_ok.
  - done.
  - rewrite length_spell. apply Nat.Div0.mod_mul.
  - by rewrite length_to_le_bytes.
Qed.

Lemma bytes_from_stored fs :
  Forall stored fs -> mapM (bytes_from FR_BYTES_STORED) (reverse fs) = Some (to_le_bytes FR_BYTES_STORED <$> reverse fs).
Proof.
  intros Hfs%Forall_reverse. apply mapM_Some, Forall2_fmap_r, Forall_Forall2_diag.
  eapply Forall_impl; [exact Hfs|]. cbn beta. intros f Hf.
  assert (256 ^ 31 < 256 ^ 32) by reflexivity.
  apply bytes_from_Some; [unfold FR_BYTES_STORED; lia|lia|]. by split; [apply Hf|].
Qed.

(** The representation and its inverse on a string of [q] chunks and a shorter
    one. *)
Lemma field_repr_parts {E} fs stray :
  Forall stored fs -> bytes_ok stray -> (length stray < FR_BYTES_STORED)%nat ->
  @bytes_field_repr E (spell fs ++ stray) =
  Ret (if (length stray =? 0)%nat then fs else from_le_bytes stray :: fs).
Proof.
  intros Hfs Hs Hl. unfold bytes_field_repr. rewrite length_app, length_spell.
  assert (1 <= FR_BYTES_STORED)%nat by (unfold FR_BYTES_STORED, FR_BYTES; lia).
  destruct stray as [|b stray].
  - rewrite app_nil_r. apply field_repr_spell; [done|]. simpl length. nia.
  - set (l := b :: stray) in *. destruct (Nat.eqb_spec (length l) 0); [done|].
    replace (length fs * FR_BYTES_STORED + length l)%nat with (S (length fs * FR_BYTES_STORED + length stray))
      by (unfold l; simpl length; lia).
    rewrite field_repr_step; [|done|done| |lia].
    + rewrite field_repr_spell; [done|done|nia].
    + rewrite length_spell. apply Nat.Div0.mod_mul.
Qed.

Lemma stray_bound stray :
  bytes_ok stray -> (length stray < FR_BYTES_STORED)%nat -> 0 <= from_le_bytes stray < 256 ^ 32.
Proof.
  intros Hs Hl. pose proof (from_le_bytes_bound stray Hs). unfold FR_BYTES_STORED, FR_BYTES in Hl.
  assert (256 ^ Z.of_nat (length stray) <= 256 ^ 32) by (apply Z.pow_le_mono_r; lia). lia.
Qed.

Lemma from_field_repr_parts fs stray rest :
  Forall stored fs -> bytes_ok stray -> (length stray < FR_BYTES_STORED)%nat ->
  bytes_from_field_repr ((if (length stray =? 0)%nat then fs else from_le_bytes stray :: fs) ++ rest)
    (length fs * FR_BYTES_STORED + length stray) = Some (spell fs ++ stray, rest).
Proof.
  intros Hfs Hs Hl. unfold bytes_from_field_repr.
  rewrite (Nat.add_comm (length fs * FR_BYTES_STORED)), Nat.Div0.mod_add, Nat.mod_small, Nat.div_add, Nat.div_small by (done || lia).
  cbn [Nat.add]. cbv zeta. pose proof (bytes_from_stored fs Hfs) as Hm.
  assert (Hsp : concat (to_le_bytes FR_BYTES_STORED <$> reverse fs) = spell fs).
  { unfold spell. generalize (reverse fs). induction l as [|f l IH]; [done|]. rewrite fmap_cons, bind_cons, <- IH. done. }
  destruct (Nat.eqb_spec (length stray) 0) as [E|E].
  - apply nil_length_inv in E as ->.
    destruct (Nat.ltb_spec (length (fs ++ rest)) (length fs + 0)) as [Hx|_]; [rewrite length_app in Hx; lia|].
    change (0 <? length [])%nat with false.
    cbn [mbind option_bind]. rewrite take_app_length, drop_app_length, Hm. cbn [mbind option_bind].
    by rewrite Hsp.
  - destruct (Nat.ltb_spec (length ((from_le_bytes stray :: fs) ++ rest)) (length fs + 1)) as [Hx|_].
    { rewrite length_app in Hx. simpl in Hx. lia. }
    destruct (Nat.ltb_spec 0 (length stray)); [|lia]. cbn [app].
    rewrite (proj2 (bytes_from_Some (length stray) (from_le_bytes stray) stray ltac:(unfold FR_BYTES_STORED in *; lia)
      (stray_bound stray Hs Hl))).
    + cbn [mbind option_bind]. rewrite take_app_length, drop_app_length, Hm. cbn [mbind option_bind].
      by rewrite Hsp.
    + split; [|by rewrite to_from_le_bytes]. apply from_le_bytes_bound. done.
Qed.

(** Any byte string is its chunks and a shorter rest. *)
Lemma split_stray bs :
  bytes_ok bs -> exists fs stray, bs = spell fs ++ stray /\ Forall stored fs /\ bytes_ok stray /\
    (length stray < FR_BYTES_STORED)%nat /\ length bs = (length fs * FR_BYTES_STORED + length stray)%nat.
Proof.
  intros Hb. set (q := (length bs / FR_BYTES_STORED)%nat).
  pose proof (Nat.div_mod_eq (length bs) FR_BYTES_STORED) as Hd. fold q in Hd.
  pose proof (Nat.mod_upper_bound (length bs) FR_BYTES_STORED ltac:(done)) as Hm.
  destruct (spell_surj q (take (q * FR_BYTES_STORED) bs)) as (fs & Hq & Hfs & E).
  { by apply Forall_take. }
  { rewrite length_take. lia. }
  exists fs, (drop (q * FR_BYTES_STORED) bs). rewrite <- E, take_drop, length_drop, Hq.
  split_and!; [done|done|by apply Forall_drop|lia|lia].
Qed.

(** What the inverse accepts is a representation. *)
Lemma from_field_repr_Some repr n bs rest :
  Forall (fun f => 0 <= f < modulus) repr -> bytes_from_field_repr repr n = Some (bs, rest) ->
  exists fs stray, length fs = (n / FR_BYTES_STORED)%nat /\ bs = spell fs ++ stray /\ Forall stored fs /\
    bytes_ok stray /\ length stray = (n mod FR_BYTES_STORED)%nat /\
    repr = (if (length stray =? 0)%nat then fs else from_le_bytes stray :: fs) ++ rest.
Proof.
  intros Hr. unfold bytes_from_field_repr. cbv zeta.
  set (q := (n / FR_BYTES_STORED)%nat). set (k := (n mod FR_BYTES_STORED)%nat).
  pose proof (Nat.mod_upper_bound n FR_BYTES_STORED ltac:(done)) as Hk. fold k in Hk. clearbody q k.
  destruct (Nat.ltb_spec (length repr) (q + if (k =? 0)%nat then 0 else 1)) as [|Hlen]; [done|].
  assert (Hm : forall fs parts, Forall (fun f => 0 <= f < modulus) fs ->
    mapM (bytes_from FR_BYTES_STORED) (reverse fs) = Some parts -> Forall stored fs /\ concat parts = spell fs).
  { intros fs parts Hfs E%mapM_Some. unfold spell. assert (HF : Forall stored (reverse fs) /\ concat parts = reverse fs ≫= to_le_bytes FR_BYTES_STORED).
    { apply Forall_reverse in Hfs. revert Hfs E. generalize (reverse fs). intros l Hl. revert parts.
      induction Hl as [|f l Hf _ IH]; intros parts E; inversion E as [|? p ? ps Ef Eps]; subst; [done|].
      apply bytes_from_Some in Ef as [Hlt ->]; [|unfold FR_BYTES_STORED; lia|lia].
      destruct (IH ps Eps) as [H1 H2]. rewrite bind_cons, <- H2. split; [|done]. constructor; [|done]. split; [lia|exact Hlt]. }
    destruct HF as [HF ->]. split; [|done]. by apply Forall_reverse. }
  destruct (Nat.eqb_spec k 0) as [->|Hk0].
  - cbn [Nat.ltb Nat.leb mbind option_bind].
    destruct (mapM _ _) as [parts|] eqn:E; [|done]. cbn [mbind option_bind]. intros [= <- <-].
    destruct (Hm (take q repr) parts) as [HF Hc]; [by apply Forall_take|done|].
    exists (take q repr), []. rewrite Hc. cbn [length Nat.eqb]. rewrite take_drop, length_take.
    split_and!; [lia|done|done|constructor|done|done].
  - destruct repr as [|f repr]; [simpl in Hlen; lia|]. apply Forall_cons in Hr as [Hf Hr].
    destruct (Nat.ltb_spec 0 k); [|lia]. destruct (bytes_from k f) as [tl|] eqn:Ef; [|done].
    cbn [mbind option_bind]. destruct (mapM _ _) as [parts|] eqn:E; [|done]. cbn [mbind option_bind]. intros [= <- <-].
    destruct (Hm (take q repr) parts) as [HF Hc]; [by apply Forall_take|done|].
    apply bytes_from_Some in Ef as [Hlt ->]; [|unfold FR_BYTES_STORED in *; lia|lia].
    exists (take q repr), (to_le_bytes k f). rewrite Hc, length_to_le_bytes, length_take.
    destruct (Nat.eqb_spec k 0); [lia|]. rewrite from_to_le_bytes_small by lia. cbn [app]. rewrite take_drop.
    split_and!; [simpl in Hlen; lia|done|done|apply to_le_bytes_ok|done|done].
Qed.
End repr.

(** ** Properties *)

(** Byte strings and field elements correspond: every byte string has a
    representation, of the announced size, from which the inverse recovers it in
    front of any further elements; and whatever the inverse accepts is the
    representation of the bytes it returns, of the requested length.  For a
    hash of 32 bytes, degrading keeps the low 31 bytes, and degrading the
    upgrade of an element below [256^31] gives it back. *)
Theorem bytes_repr_roundtrip (modulus : Z) :
  256 ^ 31 <= modulus <= 256 ^ 32 ->
  (forall bs, bytes_ok bs -> exists fs, bytes_field_repr modulus bs = @Ret Empty_set _ fs /\
     length fs = bytes_field_size bs /\ Forall (fun f => 0 <= f < modulus) fs /\
     forall rest, bytes_from_field_repr (fs ++ rest) (length bs) = Some (bs, rest)) /\
  (forall repr n bs rest, Forall (fun f => 0 <= f < modulus) repr ->
     bytes_from_field_repr repr n = Some (bs, rest) ->
     bytes_ok bs /\ length bs = n /\ exists fs, bytes_field_repr modulus bs = @Ret Empty_set _ fs /\ fs ++ rest = repr) /\
  (forall h, bytes_ok h -> length h = 32%nat -> degrade_to_transient modulus h = from_le_bytes (take 31 h)) /\
  (forall f, 0 <= f < 256 ^ 31 -> degrade_to_transient modulus (upgrade_from_transient f) = f).
Proof.
  intros Hmod. assert (Hdeg : forall h, bytes_ok h -> length h = 32%nat -> degrade_to_transient modulus h = from_le_bytes (take 31 h)).
  { intros h Hb Hl. unfold degrade_to_transient.
    destruct (spell_surj 1 (take 31 h)) as (fs & Hq & Hfs & E); [by apply Forall_take|rewrite length_take, Hl; done|].
    destruct fs as [|f [|]]; try done. rewrite <- (take_drop 31 h) at 1. rewrite E.
    rewrite field_repr_parts; [|done|done|by apply Forall_drop|rewrite length_drop; unfold FR_BYTES_STORED, FR_BYTES; lia].
    rewrite length_drop, Hl. cbn [Nat.sub Nat.eqb]. rewrite spell_cons.
    apply Forall_cons in Hfs as [Hf _]. symmetry. apply (from_to_le_bytes_small FR_BYTES_STORED). done. }
  split_and!.
  - intros bs Hb. destruct (split_stray bs Hb) as (fs & stray & E & Hfs & Hs & Hl & Hlen). rewrite Hlen, E.
    eexists. split_and!; [by apply field_repr_parts| | |].
    + unfold bytes_field_size. rewrite <- E, Hlen, (Nat.add_comm (length fs * FR_BYTES_STORED)), Nat.Div0.mod_add, Nat.mod_small, Nat.div_add, Nat.div_small by (done || lia).
      destruct (Nat.eqb_spec (length stray) 0); simpl; lia.
    + assert (HF : Forall (fun f => 0 <= f < modulus) fs) by (eapply Forall_impl; [exact Hfs|]; cbn beta; intros; lia).
      destruct (Nat.eqb_spec (length stray) 0); [done|]. constructor; [|done].
      pose proof (from_le_bytes_bound stray Hs).
      assert (256 ^ Z.of_nat (length stray) <= 256 ^ 31) by (apply Z.pow_le_mono_r; unfold FR_BYTES_STORED, FR_BYTES in Hl; lia). lia.
    + intros rest. by apply from_field_repr_parts.
  - intros repr n bs rest Hr E. destruct (from_field_repr_Some modulus Hmod repr n bs rest Hr E) as (fs & stray & Hq & -> & Hfs & Hs & Hk & ->).
    pose proof (Nat.mod_upper_bound n FR_BYTES_STORED ltac:(done)) as Hm. pose proof (Nat.div_mod_eq n FR_BYTES_STORED).
    split_and!.
    + apply Forall_app. split; [apply spell_ok|done].
    + rewrite length_app, length_spell. lia.
    + eexists. split; [apply field_repr_parts; [done|done|done|lia]|done].
  - done.
  - intros f Hf. unfold upgrade_from_transient. assert (Hlen : length (as_le_bytes f) = 32%nat) by apply length_to_le_bytes.
    rewrite Hdeg.
    + rewrite take_app_le by (rewrite length_take, Hlen; unfold FR_BYTES_STORED, FR_BYTES; lia).
      rewrite take_take. pose proof (le_bytes_split 31 f ltac:(unfold FR_BYTES; lia)) as Es. rewrite Es.
      rewrite take_app_le by (rewrite length_to_le_bytes; unfold FR_BYTES_STORED, FR_BYTES; lia).
      rewrite take_ge by (rewrite length_to_le_bytes; unfold FR_BYTES_STORED, FR_BYTES; lia).
      by apply (from_to_le_bytes_small 31).
    + apply Forall_app. split; [apply Forall_take, to_le_bytes_ok|repeat constructor; lia].
    + rewrite length_app, length_take, Hlen. done.
Qed.

(** A hash as elements, and back. *)
Lemma bytes_repr_roundtrip_witness :
  let h := to_le_bytes 32 12345678901234567890 in
  exists fs, bytes_field_repr (256 ^ 32) h = @Ret Empty_set _ fs /\ length fs = 2%nat /\
    bytes_from_field_repr fs 32 = Some (h, []).
Proof.
  destruct (bytes_repr_roundtrip (256 ^ 32)) as [H _]; [split; vm_compute; discriminate|].
  destruct (H (to_le_bytes 32 12345678901234567890) (to_le_bytes_ok _ _)) as (fs & E & Hl & _ & Hr).
  exists fs. split_and!; [exact E|exact Hl|]. specialize (Hr []). by rewrite app_nil_r in Hr.
Defined.
