(* ===== verification/Coins.v ===== *)
(** * Coins, tokens and addresses ([coin-structure/src])

    The data that contracts and transactions share: token types, addresses,
    shielded coins and their commitments and nullifiers.  The file models how
    these appear as field-aligned values, which is what contracts compute with,
    as field elements, and as preimages of the persistent hash. *)

From S2P Require Import Prelude Serialize Fab ZswapMemo Repr.
From stdpp Require Import list strings gmap.
From Stdlib Require Ascii String.

Local Open Scope Z_scope.

(** The bytes of a string literal. *)
Definition ascii_bytes (s : string) : list Z :=
  (fun c => Z.of_N (Ascii.N_of_ascii c)) <$> String.list_ascii_of_string s.

(** Addresses, token types, nonces, commitments and nullifiers wrap a hash. *)
Abbreviation HashOutput := (list Z) (only parsing).
Definition BLANK_HASH : HashOutput := replicate PERSISTENT_HASH_BYTES 0.
Definition hash_ok (h : HashOutput) : Prop := bytes_ok h /\ length h = PERSISTENT_HASH_BYTES.

(** ** Data *)

Inductive TokenType :=
| Unshielded (type_ : HashOutput)
| Shielded (type_ : HashOutput)
| Dust.

Inductive PublicAddress :=
| AddrContract (addr : HashOutput)
| AddrUser (addr : HashOutput).

Inductive Recipient :=
| RecipientUser (pk : HashOutput)
| RecipientContract (addr : HashOutput).

Inductive SenderEvidence :=
| SenderUser (sk : HashOutput)
| SenderContract (addr : HashOutput).

Record Info := mkInfo {
  info_nonce : HashOutput;
  info_type : HashOutput;
  info_value : Z
}.

Record QualifiedInfo := mkQualifiedInfo {
  qi_nonce : HashOutput;
  qi_type : HashOutput;
  qi_value : Z;
  qi_mt_index : Z
}.

#[export] Instance TokenType_eq_dec : EqDecision TokenType.
Proof. solve_decision. Defined.
#[export] Instance TokenType_countable : Countable TokenType.
Proof.
  refine (inj_countable' (fun t => match t with Unshielded h => inl h | Shielded h => inr (inl h) | Dust => inr (inr tt) end)
    (fun x => match x with inl h => Unshielded h | inr (inl h) => Shielded h | inr (inr _) => Dust end) _).
  by intros [].
Defined.
#[export] Instance PublicAddress_eq_dec : EqDecision PublicAddress.
Proof. solve_decision. Defined.
#[export] Instance PublicAddress_countable : Countable PublicAddress.
Proof.
  refine (inj_countable' (fun a => match a with AddrContract h => inl h | AddrUser h => inr h end)
    (fun x => match x with inl h => AddrContract h | inr h => AddrUser h end) _).
  by intros [].
Defined.

(** ** As field-aligned values *)

(** What [Aligned], [Into<Value>] and [TryFrom<&ValueSlice>] provide. *)
Record Conv (T : Type) := mkConv {
  into_value : T -> Value;
  try_value : Value -> result InvalidBuiltinDecode T;
  conv_alignment : Alignment
}.
Arguments mkConv {T}.
Arguments into_value {T}.
Arguments try_value {T}.
Arguments conv_alignment {T}.

Definition to_aligned {T} (c : Conv T) (x : T) : AlignedValue := mkAlignedValue (into_value c x) (conv_alignment c).

(** A single atom. *)
Definition atom_conv {T} (from : T -> ValueAtom) (to : ValueAtom -> result InvalidBuiltinDecode T) (a : AlignmentAtom) : Conv T :=
  mkConv (fun x => [from x]) (value_to to) [SegAtom a].

(** [via_hash_output!] and [HashOutput]. *)
Definition hash_conv : Conv HashOutput := atom_conv atom_from_hash atom_to_hash (Bytes (Z.of_nat PERSISTENT_HASH_BYTES)).
Definition uint_conv (bytes : Z) : Conv Z := atom_conv atom_from_u128 (atom_to_uint (8 * bytes)) (Bytes bytes).
Definition bool_conv : Conv bool := atom_conv atom_from_bool atom_to_bool (Bytes 1).
Definition unit_conv : Conv unit := mkConv (fun _ => []) (fun v => match v with [] => Ok tt | _ => Err tt end) [].

Definition atom_to_unit (a : ValueAtom) : result InvalidBuiltinDecode unit := match a with [] => Ok tt | _ => Err tt end.
Definition hash_atom : AlignmentSegment := SegAtom (Bytes (Z.of_nat PERSISTENT_HASH_BYTES)).

Definition TokenType_into (tt_ : TokenType) : Value :=
  match tt_ with
  | Unshielded h => [atom_from_u128 1; atom_from_hash h; []]
  | Shielded h => [atom_from_u128 0; []; atom_from_hash h]
  | Dust => [atom_from_u128 2; []; []]
  end.
Definition TokenType_try (value : Value) : result InvalidBuiltinDecode TokenType :=
  match value with
  | [v0; v1; v2] =>
      variant ← atom_to_uint 8 v0;
      if variant =? 0 then _ ← atom_to_unit v1; h ← atom_to_hash v2; Ok (Shielded h)
      else if variant =? 1 then _ ← atom_to_unit v2; h ← atom_to_hash v1; Ok (Unshielded h)
      else if variant =? 2 then _ ← atom_to_unit v1; _ ← atom_to_unit v2; Ok Dust
      else Err tt
  | _ => Err tt
  end.
Definition TokenType_conv : Conv TokenType := mkConv TokenType_into TokenType_try [SegAtom (Bytes 1); hash_atom; hash_atom].

(** Addresses and recipients are disjoint unions, with the left one under [true]. *)
Definition either_into (left : bool) (h : HashOutput) : Value :=
  if left then [atom_from_bool true; atom_from_hash h; []] else [atom_from_bool false; []; atom_from_hash h].
Definition either_try (value : Value) : result InvalidBuiltinDecode (bool * HashOutput) :=
  match value with
  | [v0; v1; v2] =>
      is_left ← atom_to_bool v0;
      if (is_left : bool) then _ ← atom_to_unit v2; h ← atom_to_hash v1; Ok (true, h)
      else _ ← atom_to_unit v1; h ← atom_to_hash v2; Ok (false, h)
  | _ => Err tt
  end.
Definition either_alignment : Alignment := [SegAtom (Bytes 1); hash_atom; hash_atom].

Definition PublicAddress_conv : Conv PublicAddress :=
  mkConv (fun a => match a with AddrContract h => either_into true h | AddrUser h => either_into false h end)
    (fun v => '(is_left, h) ← either_try v; Ok (if is_left : bool then AddrContract h else AddrUser h)) either_alignment.
Definition Recipient_conv : Conv Recipient :=
  mkConv (fun r => match r with RecipientUser h => either_into true h | RecipientContract h => either_into false h end)
    (fun v => '(is_left, h) ← either_try v; Ok (if is_left : bool then RecipientUser h else RecipientContract h)) either_alignment.

Definition Info_conv : Conv Info :=
  mkConv (fun i => [atom_from_hash (info_nonce i); atom_from_hash (info_type i); atom_from_u128 (info_value i)])
    (fun v => match v with
              | [v0; v1; v2] => n ← atom_to_hash v0; t ← atom_to_hash v1; x ← atom_to_u128 v2; Ok (mkInfo n t x)
              | _ => Err tt
              end) [hash_atom; hash_atom; SegAtom (Bytes 16)].
Definition QualifiedInfo_conv : Conv QualifiedInfo :=
  mkConv (fun i => [atom_from_hash (qi_nonce i); atom_from_hash (qi_type i); atom_from_u128 (qi_value i); atom_from_u128 (qi_mt_index i)])
    (fun v => match v with
              | [v0; v1; v2; v3] => n ← atom_to_hash v0; t ← atom_to_hash v1; x ← atom_to_u128 v2; m ← atom_to_uint 64 v3;
                                    Ok (mkQualifiedInfo n t x m)
              | _ => Err tt
              end) [hash_atom; hash_atom; SegAtom (Bytes 16); SegAtom (Bytes 8)].

(** ** Coins *)

Definition qualify (self : Info) (mt_index : Z) : QualifiedInfo :=
  mkQualifiedInfo (info_nonce self) (info_type self) (info_value self) mt_index.
Definition Info_from (qi : QualifiedInfo) : Info := mkInfo (qi_nonce qi) (qi_type qi) (qi_value qi).

(** [binary_repr] of a coin, and of a flag with a hash. *)
Definition Info_binary (self : Info) : list Z := info_nonce self ++ info_type self ++ to_le_bytes 16 (info_value self).
Definition flagged_binary (flag : bool) (h : HashOutput) : list Z := (if flag then 1 else 0) :: h.

Section hashes.
Context (modulus : Z) (transient_hash : list Z -> Z) (persistent_hash : list Z -> HashOutput).

Definition commitment_preimage (self : Info) (recipient : Recipient) : list Z :=
  ascii_bytes "midnight:zswap-cc[v1]" ++ Info_binary self ++
  match recipient with RecipientUser d => flagged_binary true d | RecipientContract d => flagged_binary false d end.
Definition commitment (self : Info) (recipient : Recipient) : HashOutput := persistent_hash (commitment_preimage self recipient).

Definition nullifier_preimage (self : Info) (se : SenderEvidence) : list Z :=
  ascii_bytes "midnight:zswap-cn[v1]" ++ Info_binary self ++
  match se with SenderUser d => flagged_binary true d | SenderContract d => flagged_binary false d end.
Definition coin_nullifier (self : Info) (se : SenderEvidence) : HashOutput := persistent_hash (nullifier_preimage self se).

Definition public_key_preimage (sk : HashOutput) : list Z := ascii_bytes "midnight:zswap-pk[v1]" ++ sk.
Definition public_key (sk : HashOutput) : HashOutput := persistent_hash (public_key_preimage sk).

Definition Recipient_from (se : SenderEvidence) : Recipient :=
  match se with SenderUser sk => RecipientUser (public_key sk) | SenderContract addr => RecipientContract addr end.

Definition evolve_from {E} (self : Info) (domain_sep : list Z) (value : Z) (type_ : HashOutput) : outcome E Info :=
  sep ← expect (Fr_from_le_bytes modulus domain_sep);
  mret (mkInfo (upgrade_from_transient (transient_hash [sep; degrade_to_transient modulus (info_nonce self)])) type_ value).

(** Token types of a contract. *)
Definition custom_token_type (address domain_sep : HashOutput) : HashOutput :=
  persistent_hash (ascii_bytes "midnight:derive_token" ++ replicate 11 0 ++ domain_sep ++ address).

(** ** As field elements *)

Definition hash_field_repr {E} (h : HashOutput) : outcome E (list Z) := bytes_field_repr modulus h.

Definition hash_from_field_repr (repr : list Z) : option HashOutput :=
  match repr with
  | [f0; f1] =>
      let repr0 := as_le_bytes f0 in
      let repr1 := as_le_bytes f1 in
      if existsb (fun ch => negb (ch =? 0)) (drop 1 repr0) then None
      else if existsb (fun ch => negb (ch =? 0)) (drop 31 repr1) then None
      else Some (take 31 repr1 ++ take 1 repr0)
  | _ => None
  end.

Definition TokenType_field_repr {E} (self : TokenType) : outcome E (list Z) :=
  blank ← hash_field_repr BLANK_HASH;
  match self with
  | Shielded raw => r ← hash_field_repr raw; mret (1 :: r ++ blank)
  | Unshielded raw => r ← hash_field_repr raw; mret (0 :: blank ++ r)
  | Dust => mret (2 :: blank ++ blank)
  end.

Definition TokenType_FIELD_SIZE : nat := 2 * 2 + 1.

Definition u8_from_field_repr (repr : list Z) : option Z :=
  match repr with [f] => if f <=? u_max 8 then Some f else None | _ => None end.

Definition TokenType_from_field_repr (fields : list Z) : option TokenType :=
  if negb (length fields =? TokenType_FIELD_SIZE)%nat then None
  else
    variant ← u8_from_field_repr (take 1 fields);
    fst_ ← hash_from_field_repr (take 2 (drop 1 fields));
    if variant =? 1 then
      snd_ ← hash_from_field_repr (drop 3 fields);
      if bool_decide (snd_ = BLANK_HASH) then Some (Shielded fst_) else None
    else if variant =? 0 then
      if bool_decide (fst_ = BLANK_HASH) then snd_ ← hash_from_field_repr (drop 3 fields); Some (Unshielded snd_) else None
    else if variant =? 2 then
      if bool_decide (fst_ = BLANK_HASH) then
        snd_ ← hash_from_field_repr (drop 3 fields);
        if bool_decide (snd_ = BLANK_HASH) then Some Dust else None
      else None
    else None.
End hashes.

(** ** Laws of the conversions *)

Class ConvLaws {T} (c : Conv T) (ok : T -> Prop) : Prop := {
  conv_back x : ok x -> try_value c (into_value c x) = Ok x;
  conv_aligned x : ok x -> aligned (to_aligned c x);
  conv_bytes x : ok x -> Forall (fun a => bytes_ok a) (into_value c x)
}.

Lemma aligned_atoms vs ss :
  Forall2 (fun a s => aligned (mkAlignedValue [a] [s])) vs ss -> aligned (mkAlignedValue vs ss).
Proof.
  intros Hf. assert (Hc : mkAlignedValue vs ss = AlignedValue_concat (zip_with (fun a s => mkAlignedValue [a] [s]) vs ss)).
  { unfold AlignedValue_concat. induction Hf as [|a s vs ss _ Hf IH]; [done|]. cbn in *. injection IH as E1 E2.
    f_equal; f_equal; congruence. }
  rewrite Hc. apply aligned_concat. clear Hc. induction Hf; cbn; constructor; done.
Qed.

Lemma aligned_blank : aligned (mkAlignedValue [[]] [hash_atom]).
Proof. done. Qed.

Lemma aligned_u8 x : 0 <= x < 256 -> aligned (mkAlignedValue [atom_from_u128 x] [SegAtom (Bytes 1)]).
Proof. intros Hx. apply (aligned_uint 1); [lia|]. unfold in_u. change (2 ^ (8 * 1)) with 256. lia. Qed.

Lemma atom_u128_bytes x : bytes_ok (atom_from_u128 x).
Proof. apply normalize_bytes, to_le_bytes_ok. Qed.
Lemma atom_hash_bytes h : bytes_ok h -> bytes_ok (atom_from_hash h).
Proof. apply normalize_bytes. Qed.
Lemma atom_bool_bytes b : bytes_ok (atom_from_bool b).
Proof. apply normalize_bytes. destruct b; repeat constructor; unfold is_byte; lia. Qed.

Create HintDb conv.
#[export] Hint Resolve aligned_blank aligned_bool atom_u128_bytes atom_hash_bytes atom_bool_bytes : conv.
#[export] Hint Extern 1 (aligned (mkAlignedValue [atom_from_hash _] [_])) => (apply aligned_hash; done) : conv.
#[export] Hint Extern 1 (bytes_ok []) => constructor : conv.

#[export] Instance hash_conv_laws : ConvLaws hash_conv hash_ok.
Proof.
  split; intros h [Hb Hl]; cbn.
  - by apply atom_hash_roundtrip.
  - by apply aligned_hash.
  - constructor; [by apply atom_hash_bytes|constructor].
Qed.

#[export] Instance uint_conv_laws n : ConvLaws (uint_conv (Z.of_nat n)) (fun x => (n <= 16)%nat /\ in_u (8 * Z.of_nat n) x).
Proof.
  split; intros x [Hn Hx].
  - exact (atom_uint_roundtrip (8 * Z.of_nat n) x ltac:(lia) Hx).
  - unfold uint_conv, atom_conv; cbn [into_value]. refine (aligned_uint (Z.of_nat n) x _ Hx); lia.
  - constructor; [apply atom_u128_bytes|constructor].
Qed.

#[export] Instance bool_conv_laws : ConvLaws bool_conv (fun _ => True).
Proof.
  split; intros b _; cbn; [apply atom_bool_roundtrip|apply aligned_bool|constructor; [apply atom_bool_bytes|constructor]].
Qed.

#[export] Instance unit_conv_laws : ConvLaws unit_conv (fun _ => True).
Proof. split; intros []; cbn; [done|done|constructor]. Qed.

Definition TokenType_ok (t : TokenType) : Prop :=
  match t with Unshielded h | Shielded h => hash_ok h | Dust => True end.

Lemma u8_back x : 0 <= x < 256 -> atom_to_uint 8 (atom_from_u128 x) = Ok x.
Proof. intros Hx. apply atom_uint_roundtrip; [lia|]. unfold in_u. lia. Qed.

#[export] Instance TokenType_laws : ConvLaws TokenType_conv TokenType_ok.
Proof.
  split; intros [h|h|] Ht; cbn [TokenType_conv try_value into_value TokenType_into TokenType_try to_aligned conv_alignment].
  1-3: rewrite u8_back by lia; cbn [mbind result_bind Z.eqb atom_to_unit];
    rewrite ?(atom_hash_roundtrip h) by apply Ht; done.
  1-3: apply aligned_atoms; repeat constructor; auto using aligned_u8, aligned_blank, aligned_hash;
    try (apply aligned_u8; lia); try (apply aligned_hash; apply Ht).
  all: rewrite !Forall_cons; split_and!; auto using Forall_nil_2 with conv; apply atom_hash_bytes, Ht.
Qed.

Lemma either_back left h : hash_ok h -> either_try (either_into left h) = Ok (left, h).
Proof.
  intros [_ Hl]. destruct left; cbn [either_into either_try]; rewrite atom_bool_roundtrip; cbn [mbind result_bind atom_to_unit];
    by rewrite atom_hash_roundtrip.
Qed.
Lemma either_aligned left h : hash_ok h -> aligned (mkAlignedValue (either_into left h) either_alignment).
Proof.
  intros [_ Hl]. apply aligned_atoms. destruct left; repeat constructor; auto using aligned_blank, aligned_hash;
    try apply (aligned_bool true); try apply (aligned_bool false); by apply aligned_hash.
Qed.
Lemma either_bytes left h : hash_ok h -> Forall (fun a => bytes_ok a) (either_into left h).
Proof. intros [Hb _]. destruct left; unfold either_into; rewrite !Forall_cons; split_and!; auto using Forall_nil_2 with conv. Qed.

Definition PublicAddress_ok (a : PublicAddress) : Prop := match a with AddrContract h | AddrUser h => hash_ok h end.
Definition Recipient_ok (r : Recipient) : Prop := match r with RecipientUser h | RecipientContract h => hash_ok h end.

#[export] Instance PublicAddress_laws : ConvLaws PublicAddress_conv PublicAddress_ok.
Proof.
  split; intros [h|h] Hh; cbn [PublicAddress_conv try_value into_value to_aligned conv_alignment].
  1-2: by rewrite either_back.
  1-2: by apply either_aligned.
  all: by apply either_bytes.
Qed.
#[export] Instance Recipient_laws : ConvLaws Recipient_conv Recipient_ok.
Proof.
  split; intros [h|h] Hh; cbn [Recipient_conv try_value into_value to_aligned conv_alignment].
  1-2: by rewrite either_back.
  1-2: by apply either_aligned.
  all: by apply either_bytes.
Qed.

Definition Info_ok (i : Info) : Prop := hash_ok (info_nonce i) /\ hash_ok (info_type i) /\ in_u 128 (info_value i).
Definition QualifiedInfo_ok (i : QualifiedInfo) : Prop := Info_ok (Info_from i) /\ in_u 64 (qi_mt_index i).

Lemma u128_back x : in_u 128 x -> atom_to_u128 (atom_from_u128 x) = Ok x.
Proof. intros Hx. rewrite atom_to_u128_spec by apply atom_from_u128_short. by rewrite atom_from_u128_value. Qed.

#[export] Instance Info_laws : ConvLaws Info_conv Info_ok.
Proof.
  split; intros [n t x] ([Bn Ln] & [Bt Lt] & Hx); cbn [Info_conv try_value into_value to_aligned conv_alignment info_nonce info_type info_value] in *.
  - rewrite !atom_hash_roundtrip by done. cbn [mbind result_bind]. by rewrite u128_back.
  - apply aligned_atoms. repeat constructor; try (by apply aligned_hash). by apply (aligned_uint 16).
  - rewrite !Forall_cons; split_and!; auto using Forall_nil_2 with conv.
Qed.
#[export] Instance QualifiedInfo_laws : ConvLaws QualifiedInfo_conv QualifiedInfo_ok.
Proof.
  split; intros [n t x m] [([Bn Ln] & [Bt Lt] & Hx) Hm];
    cbn [QualifiedInfo_conv try_value into_value to_aligned conv_alignment qi_nonce qi_type qi_value qi_mt_index Info_from info_nonce info_type info_value] in *.
  - rewrite !atom_hash_roundtrip by done. cbn [mbind result_bind]. rewrite u128_back by done. cbn [mbind result_bind].
    rewrite atom_uint_roundtrip by (lia || done). done.
  - apply aligned_atoms. repeat constructor; try (by apply aligned_hash); [by apply (aligned_uint 16)|by apply (aligned_uint 8)].
  - rewrite !Forall_cons; split_and!; auto using Forall_nil_2 with conv.
Qed.

(** ** Hashes as field elements *)

#[local] Opaque to_le_bytes.
Section fields.
Context (modulus : Z) (Hmod : 256 ^ 31 <= modulus <= 256 ^ 32).

Lemma hash_from_field_repr_parts f0 f1 :
  hash_from_field_repr [f0; f1] = (tail ← bytes_from 1 f0; body ← bytes_from 31 f1; Some (body ++ tail)).
Proof. unfold hash_from_field_repr, bytes_from. destruct (existsb _ (drop 1 _)); [done|]. by destruct (existsb _ (drop 31 _)). Qed.

Lemma hash_repr_back {E} h :
  hash_ok h -> exists f0 f1, hash_field_repr modulus h = @Ret E _ [f0; f1] /\ hash_from_field_repr [f0; f1] = Some h.
Proof.
  intros [Hb Hl]. unfold PERSISTENT_HASH_BYTES in Hl.
  destruct (spell_surj 1 (take 31 h)) as (fs & Hq & Hfs & E1); [by apply Forall_take|rewrite length_take, Hl; done|].
  destruct fs as [|f [|]]; try done. apply Forall_cons in Hfs as [Hf _]. rewrite spell_cons in E1. cbn in E1.
  assert (Hd : bytes_ok (drop 31 h)) by (by apply Forall_drop).
  assert (Ld : length (drop 31 h) = 1%nat) by (rewrite length_drop, Hl; done).
  exists (from_le_bytes (drop 31 h)), f. split.
  - unfold hash_field_repr. rewrite <- (take_drop 31 h) at 1.
    replace (take 31 h) with (spell [f]) by (rewrite spell_cons; done).
    rewrite field_repr_parts; [by rewrite Ld|done|by apply Forall_singleton|done|rewrite Ld; unfold FR_BYTES_STORED, FR_BYTES; lia].
  - rewrite hash_from_field_repr_parts.
    pose proof (from_le_bytes_bound _ Hd) as Hfb. rewrite Ld in Hfb.
    assert (H0 : bytes_from 1 (from_le_bytes (drop 31 h)) = Some (drop 31 h)).
    { apply bytes_from_Some; [unfold FR_BYTES; lia|lia|]. split; [lia|]. rewrite <- Ld at 2. by rewrite to_from_le_bytes. }
    rewrite H0. cbn [mbind option_bind].
    assert (H1 : bytes_from 31 f = Some (take 31 h)).
    { apply bytes_from_Some; [unfold FR_BYTES; lia|lia|]. split; [exact (proj2 Hf)|done]. }
    rewrite H1. cbn [mbind option_bind]. by rewrite take_drop.
Qed.

Lemma blank_ok : hash_ok BLANK_HASH.
Proof. split; [|done]. unfold BLANK_HASH. apply Forall_replicate. unfold is_byte. lia. Qed.

Lemma TokenType_repr_back {E} t :
  TokenType_ok t -> exists fs, TokenType_field_repr modulus t = @Ret E _ fs /\ length fs = TokenType_FIELD_SIZE /\
    TokenType_from_field_repr fs = Some t.
Proof.
  intros Ht. destruct (hash_repr_back (E := E) BLANK_HASH blank_ok) as (b0 & b1 & Eb & Bb). unfold TokenType_field_repr.
  rewrite Eb. cbn [mbind outcome_bind]. destruct t as [h|h|].
  1-2: destruct (hash_repr_back (E := E) h Ht) as (f0 & f1 & Eh & Bh); rewrite Eh; cbn [mbind outcome_bind mret outcome_ret app].
  all: eexists; split; [reflexivity|]; split; [reflexivity|]; cbn [app]; unfold TokenType_from_field_repr;
    cbn [length TokenType_FIELD_SIZE Nat.mul Nat.add Nat.eqb negb take drop u8_from_field_repr mbind option_bind Z.leb Z.eqb Z.compare u_max].
  all: change (0 <=? u_max 8) with true; change (1 <=? u_max 8) with true; change (2 <=? u_max 8) with true; cbn [mbind option_bind Z.eqb Pos.eqb].
  all: rewrite ?Bb, ?Bh; cbn [mbind option_bind]; rewrite ?bool_decide_eq_true_2 by done; cbn [mbind option_bind];
    rewrite ?Bb, ?Bh; cbn [mbind option_bind]; rewrite ?bool_decide_eq_true_2 by done; done.
Qed.
End fields.

(** ** Properties *)

Lemma flagged_inj f h f' h' : flagged_binary f h = flagged_binary f' h' -> f = f' /\ h = h'.
Proof. unfold flagged_binary. destruct f, f'; intros [=]; done. Qed.

Lemma Info_binary_inj i i' x x' :
  Info_ok i -> Info_ok i' -> Info_binary i ++ x = Info_binary i' ++ x' -> i = i' /\ x = x'.
Proof.
  destruct i as [n t v], i' as [n' t' v']. intros ([_ Ln] & [_ Lt] & Hv) ([_ Ln'] & [_ Lt'] & Hv'). unfold Info_binary.
  cbn in *. rewrite <- !app_assoc. intros E. apply app_inj_1 in E as [-> E]; [|congruence].
  apply app_inj_1 in E as [-> E]; [|congruence]. apply app_inj_1 in E as [E ->]; [|by rewrite !length_to_le_bytes].
  split; [|done]. f_equal. rewrite <- (from_to_le_bytes_small 16 v Hv), <- (from_to_le_bytes_small 16 v' Hv'). by rewrite E.
Qed.

Lemma commitment_preimage_inj c r c' r' :
  Info_ok c -> Info_ok c' -> commitment_preimage c r = commitment_preimage c' r' -> c = c' /\ r = r'.
Proof.
  intros Hc Hc' E. unfold commitment_preimage in E. apply app_inv_head in E. apply Info_binary_inj in E as [-> E]; [|done..].
  split; [done|]. destruct r, r'; apply flagged_inj in E as [? ->]; done.
Qed.
Lemma nullifier_preimage_inj c s c' s' :
  Info_ok c -> Info_ok c' -> nullifier_preimage c s = nullifier_preimage c' s' -> c = c' /\ s = s'.
Proof.
  intros Hc Hc' E. unfold nullifier_preimage in E. apply app_inv_head in E. apply Info_binary_inj in E as [-> E]; [|done..].
  split; [done|]. destruct s, s'; apply flagged_inj in E as [? ->]; done.
Qed.

(** C20. The hashes of a coin bind it: two coins with the same commitment are the same
    coin for the same recipient, two with the same nullifier the same coin with
    the same evidence, and no commitment is a nullifier or a public key, unless
    the two preimages are a collision of the persistent hash. *)
Theorem coin_hashes_bind (persistent_hash : list Z -> list Z) c c' r r' s s' sk :
  Info_ok c -> Info_ok c' ->
  (commitment persistent_hash c r = commitment persistent_hash c' r' ->
     c = c' /\ r = r' \/ collision persistent_hash (commitment_preimage c r) (commitment_preimage c' r')) /\
  (coin_nullifier persistent_hash c s = coin_nullifier persistent_hash c' s' ->
     c = c' /\ s = s' \/ collision persistent_hash (nullifier_preimage c s) (nullifier_preimage c' s')) /\
  (commitment persistent_hash c r = coin_nullifier persistent_hash c' s' ->
     collision persistent_hash (commitment_preimage c r) (nullifier_preimage c' s')) /\
  (commitment persistent_hash c r = public_key persistent_hash sk ->
     collision persistent_hash (commitment_preimage c r) (public_key_preimage sk)).
Proof.
  intros Hc Hc'. split_and!.
  - intros E. destruct (decide (commitment_preimage c r = commitment_preimage c' r')) as [Ep|Hne]; [left|by right].
    by apply commitment_preimage_inj.
  - intros E. destruct (decide (nullifier_preimage c s = nullifier_preimage c' s')) as [Ep|Hne]; [left|by right].
    by apply nullifier_preimage_inj.
  - intros E. split; [|done]. by intros [=].
  - intros E. split; [|done]. by intros [=].
Qed.

Lemma coin_hashes_bind_witness :
  let c := mkInfo (replicate 32 1) (replicate 32 2) 5 in
  let c' := mkInfo (replicate 32 1) (replicate 32 2) 6 in
  commitment id c (RecipientUser []) <> commitment id c' (RecipientUser []) /\
  commitment id c (RecipientUser []) <> coin_nullifier id c (SenderUser []).
Proof.
  cbv zeta. assert (Hh : forall b, is_byte b -> hash_ok (replicate 32 b)) by (intros b Hb; split; [by apply Forall_replicate|done]).
  assert (Hok : forall v, in_u 128 v -> Info_ok (mkInfo (replicate 32 1) (replicate 32 2) v)).
  { intros v Hv. split_and!; [apply Hh; unfold is_byte; lia|apply Hh; unfold is_byte; lia|exact Hv]. }
  assert (H5 : Info_ok (mkInfo (replicate 32 1) (replicate 32 2) 5)) by (apply Hok; unfold in_u; lia).
  assert (H6 : Info_ok (mkInfo (replicate 32 1) (replicate 32 2) 6)) by (apply Hok; unfold in_u; lia).
  destruct (coin_hashes_bind id _ _ (RecipientUser []) (RecipientUser []) (SenderUser []) (SenderUser []) [] H5 H6) as (Hc & _).
  destruct (coin_hashes_bind id _ _ (RecipientUser []) (RecipientUser []) (SenderUser []) (SenderUser []) [] H5 H5) as (_ & _ & Hn & _).
  split.
  - intros E. destruct (Hc E) as [[E1 _]|[Hne Heq]]; [discriminate|]. by apply Hne.
  - intros E. destruct (Hn E) as [Hne Heq]. by apply Hne.
Defined.

(** Token types round trip through values and through field elements. *)
Lemma token_type_roundtrip modulus t :
  256 ^ 31 <= modulus <= 256 ^ 32 -> TokenType_ok t ->
  try_value TokenType_conv (into_value TokenType_conv t) = Ok t /\
  exists fs, TokenType_field_repr modulus t = @Ret Empty_set _ fs /\ TokenType_from_field_repr fs = Some t.
Proof.
  intros Hm Ht. split; [by apply (conv_back (c := TokenType_conv))|].
  destruct (TokenType_repr_back modulus Hm (E := Empty_set) t Ht) as (fs & E & _ & B). eauto.
Qed.

(** The two representations of a token type number the variants differently: 1
    is an unshielded type in a value and a shielded one in field elements. *)
Lemma token_type_variants_differ modulus h :
  256 ^ 31 <= modulus <= 256 ^ 32 -> hash_ok h ->
  (exists rest, into_value TokenType_conv (Unshielded h) = [1] :: rest) /\
  (exists rest, TokenType_field_repr modulus (Unshielded h) = @Ret Empty_set _ (0 :: rest)) /\
  exists rest, TokenType_field_repr modulus (Shielded h) = @Ret Empty_set _ (1 :: rest).
Proof.
  intros Hm Hh. destruct (hash_repr_back modulus Hm (E := Empty_set) BLANK_HASH blank_ok) as (b0 & b1 & Eb & _).
  destruct (hash_repr_back modulus Hm (E := Empty_set) h Hh) as (f0 & f1 & Ef & _). split; [by eexists|].
  unfold TokenType_field_repr. rewrite Eb. cbn [mbind outcome_bind]. rewrite Ef. cbn [mbind outcome_bind mret outcome_ret]. eauto.
Qed.
