(* ===== verification/Runtime.v ===== *)
(** * The contract runtime ([onchain-runtime/src], [onchain-state/src/state.rs])

    A contract call runs a program of the virtual machine on a stack of three
    values: the context of the call, the effects it has claimed so far, and the
    contract's state.  The file models the data of a contract, the conversions
    between effects and state values, the charging of a contract's storage and
    [QueryContext::query], on top of [OnchainVm.v] and [DeltaTracking.v].

    Parameters are the field's modulus and hash, what the arena says about
    stored values, and the order in which a persistent map lists its entries,
    which follows the hashes of its keys. *)

From S2P Require Import Prelude Serialize MerkleTree Cost DeltaTracking VmCost Fab OnchainVm VmProperties VmSafety VmTheorems.
From S2P Require Import ZswapMemo Repr Coins.
From stdpp Require Import gmap sorting.

Local Open Scope Z_scope.

(** ** Data *)

Abbreviation ContractAddress := (list Z) (only parsing).

Record ClaimedContractCallsValue := mkClaimedCall {
  ccc_pos : Z;
  ccc_address : ContractAddress;
  ccc_entry_point : HashOutput;
  ccc_commitment : Z
}.

Record ClaimedUnshieldedSpendsKey := mkSpendsKey {
  cus_type : TokenType;
  cus_address : PublicAddress
}.

#[export] Instance ClaimedCall_eq_dec : EqDecision ClaimedContractCallsValue.
Proof. solve_decision. Defined.
#[export] Instance ClaimedCall_countable : Countable ClaimedContractCallsValue.
Proof.
  refine (inj_countable' (fun c => (ccc_pos c, ccc_address c, ccc_entry_point c, ccc_commitment c))
    (fun '(p, a, e, c) => mkClaimedCall p a e c) _). by intros [].
Defined.
#[export] Instance SpendsKey_eq_dec : EqDecision ClaimedUnshieldedSpendsKey.
Proof. solve_decision. Defined.
#[export] Instance SpendsKey_countable : Countable ClaimedUnshieldedSpendsKey.
Proof. refine (inj_countable' (fun k => (cus_type k, cus_address k)) (fun '(t, a) => mkSpendsKey t a) _). by intros []. Defined.

Record Effects := mkEffects {
  claimed_nullifiers : gset HashOutput;
  claimed_shielded_receives : gset HashOutput;
  claimed_shielded_spends : gset HashOutput;
  claimed_contract_calls : gset ClaimedContractCallsValue;
  shielded_mints : gmap HashOutput Z;
  unshielded_mints : gmap HashOutput Z;
  unshielded_inputs : gmap TokenType Z;
  unshielded_outputs : gmap TokenType Z;
  claimed_unshielded_spends : gmap ClaimedUnshieldedSpendsKey Z
}.
Definition Effects_default : Effects := mkEffects ∅ ∅ ∅ ∅ ∅ ∅ ∅ ∅ ∅.

Record CallContext := mkCallContext {
  own_address : ContractAddress;
  tblock : Z;
  tblock_err : Z;
  parent_block_hash : HashOutput;
  caller : option PublicAddress;
  cc_balance : gmap TokenType Z;
  com_indices : gmap HashOutput Z;
  last_block_time : Z
}.
Definition CallContext_default : CallContext := mkCallContext BLANK_HASH 0 0 BLANK_HASH None ∅ ∅ 0.

Record BlockContext := mkBlockContext {
  bc_tblock : Z;
  bc_tblock_err : Z;
  bc_parent_block_hash : HashOutput;
  bc_last_block_time : Z
}.

(** [TranscriptRejected]. *)
Inductive TranscriptRejected :=
| Execution (e : OnchainProgramError Z)
| EffectDecode (e : InvalidBuiltinDecode)
| FinalStackWrongLength
| WeakStateReturned
| EffectDecodeError.

(** A contract's state value, with the storage that is paid for. *)
Record ChargedState {Hash} `{Countable Hash} := mkChargedState {
  cs_state : StateValue Z;
  cs_charged_keys : RcMap Hash
}.
Arguments ChargedState Hash {_ _}.

Record QueryContext {Hash} `{Countable Hash} := mkQueryContext {
  qc_state : ChargedState Hash;
  qc_effects : Effects;
  qc_address : ContractAddress;
  qc_call_context : CallContext
}.
Arguments QueryContext Hash {_ _}.

Record QueryResults {Hash} `{Countable Hash} {Event : Type} := mkQueryResults {
  qr_context : QueryContext Hash;
  qr_events : list Event;
  qr_gas_cost : RunningCost
}.
Arguments QueryResults Hash {_ _} Event.

Record Transcript := mkTranscript {
  tr_gas : RunningCost;
  tr_effects : Effects;
  tr_program : list (Op Z AlignedValue);
  tr_version : option (Z * Z)
}.
Definition Transcript_VERSION : Z * Z := (2, 3).

Section runtime.
Context (modulus : Z) (transient_hash2 : Z -> Z -> Z).

(** ** Conversions *)

Definition atom_from_Fr (val : Z) : ValueAtom := normalize (as_le_bytes val).
Definition atom_to_Fr (value : ValueAtom) : result InvalidBuiltinDecode Z :=
  if (length value <=? FR_BYTES)%nat
  then match Fr_from_le_bytes modulus value with Some f => Ok f | None => Err tt end
  else Err tt.
Definition Fr_conv : Conv Z := atom_conv atom_from_Fr atom_to_Fr Field.

Definition SpendsKey_conv : Conv ClaimedUnshieldedSpendsKey :=
  mkConv (fun k => into_value TokenType_conv (cus_type k) ++ into_value PublicAddress_conv (cus_address k))
    (fun v => if (length v =? 6)%nat then
                t ← try_value TokenType_conv (take 3 v); a ← try_value PublicAddress_conv (drop 3 v); Ok (mkSpendsKey t a)
              else Err tt)
    (conv_alignment TokenType_conv ++ conv_alignment PublicAddress_conv).

Definition ClaimedCall_conv : Conv ClaimedContractCallsValue :=
  mkConv (fun c => [atom_from_u128 (ccc_pos c); atom_from_hash (ccc_address c); atom_from_hash (ccc_entry_point c);
                    atom_from_Fr (ccc_commitment c)])
    (fun v => match v with
              | [v0; v1; v2; v3] =>
                  p ← atom_to_uint 64 v0; a ← atom_to_hash v1; e ← atom_to_hash v2; c ← atom_to_Fr v3;
                  Ok (mkClaimedCall p a e c)
              | _ => Err tt
              end) [SegAtom (Bytes 8); hash_atom; hash_atom; SegAtom Field].

(** [collect] into a map: a later entry replaces an earlier one with its key. *)
Definition collect {K V} `{Countable K} (l : list (K * V)) : gmap K V := foldl (fun m kv => <[kv.1 := kv.2]> m) ∅ l.

(** The entries of a persistent map, in the order of their keys' hashes. *)
Context (iter : forall K V `{Countable K}, gmap K V -> list (K * V)).
Arguments iter {K V _ _} _.

Definition set_iter {K} `{Countable K} (s : gset K) : list K := fst <$> iter (gset_to_gmap tt s).

Definition map_into {K V} (ck : Conv K) (value : V -> StateValue Z) (entries : list (K * V)) : StateValue Z :=
  SMap (collect ((fun kv => (to_aligned ck kv.1, value kv.2)) <$> entries)).
Definition set_into {K} `{Countable K} (ck : Conv K) (s : gset K) : StateValue Z :=
  map_into ck (fun _ : unit => SNull) ((fun k => (k, tt)) <$> set_iter s).
Definition cells_into {K} `{Countable K} (ck : Conv K) (cv : Conv Z) (m : gmap K Z) : StateValue Z :=
  map_into ck (fun v => SCell (to_aligned cv v)) (iter m).

Definition Effects_into (eff : Effects) : VmValue Z :=
  mkVmValue Weak (SArray [
    set_into hash_conv (claimed_nullifiers eff);
    set_into hash_conv (claimed_shielded_receives eff);
    set_into hash_conv (claimed_shielded_spends eff);
    set_into ClaimedCall_conv (claimed_contract_calls eff);
    cells_into hash_conv (uint_conv 8) (shielded_mints eff);
    cells_into hash_conv (uint_conv 8) (unshielded_mints eff);
    cells_into TokenType_conv (uint_conv 16) (unshielded_inputs eff);
    cells_into TokenType_conv (uint_conv 16) (unshielded_outputs eff);
    cells_into SpendsKey_conv (uint_conv 16) (claimed_unshielded_spends eff)]).

Definition effect_decoded {T} (r : result InvalidBuiltinDecode T) : outcome TranscriptRejected T :=
  match r with Ok x => Ret x | Err e => Fail (EffectDecode e) end.

(** The value of an entry: a cell, or the default for null. *)
Definition map_from_entry {K V} (ck : Conv K) (cv : Conv V) (dflt : V) (kv : AlignedValue * StateValue Z)
  : outcome TranscriptRejected (K * V) :=
  v ← match kv.2 with
      | SCell v => effect_decoded (try_value cv (av_value v))
      | SNull => Ret dflt
      | _ => Fail EffectDecodeError
      end;
  k ← effect_decoded (try_value ck (av_value kv.1));
  Ret (k, v).

Definition map_from {K V} `{Countable K} (ck : Conv K) (cv : Conv V) (dflt : V) (st : StateValue Z)
  : outcome TranscriptRejected (gmap K V) :=
  match st with
  | SMap m => entries ← mapM (map_from_entry ck cv dflt) (iter m); Ret (collect entries)
  | _ => Fail EffectDecodeError
  end.
Definition set_from {K} `{Countable K} (ck : Conv K) (st : StateValue Z) : outcome TranscriptRejected (gset K) :=
  m ← map_from ck unit_conv tt st; Ret (dom m).

Definition Effects_try (val : VmValue Z) : outcome TranscriptRejected Effects :=
  match vm_value val with
  | SArray [a0; a1; a2; a3; a4; a5; a6; a7; a8] =>
      e0 ← set_from hash_conv a0;
      e1 ← set_from hash_conv a1;
      e2 ← set_from hash_conv a2;
      e3 ← set_from ClaimedCall_conv a3;
      e4 ← map_from hash_conv (uint_conv 8) 0 a4;
      e5 ← map_from hash_conv (uint_conv 8) 0 a5;
      e6 ← map_from TokenType_conv (uint_conv 16) 0 a6;
      e7 ← map_from TokenType_conv (uint_conv 16) 0 a7;
      e8 ← map_from SpendsKey_conv (uint_conv 16) 0 a8;
      Ret (mkEffects e0 e1 e2 e3 e4 e5 e6 e7 e8)
  | _ => Fail EffectDecodeError
  end.

Definition cell {T} (c : Conv T) (x : T) : StateValue Z := SCell (to_aligned c x).

Context {Hash : Type} `{Countable Hash}.

Definition QueryContext_into (context : QueryContext Hash) : VmValue Z :=
  let cc := qc_call_context context in
  mkVmValue Weak (SArray [
    cell hash_conv (qc_address context);
    cells_into hash_conv (uint_conv 8) (com_indices cc);
    cell (uint_conv 8) (tblock cc);
    cell (uint_conv 4) (tblock_err cc);
    cell hash_conv (parent_block_hash cc);
    cells_into TokenType_conv (uint_conv 16) (cc_balance cc);
    match caller cc with Some x => cell PublicAddress_conv x | None => SNull end;
    cell (uint_conv 8) (last_block_time cc)]).

(** ** Charging *)

(** The arena: the key of a stored value, the stored nodes, the size of a hash,
    and the order in which unreferenced keys are listed.  The fuel bounds the
    traversal of a state's nodes. *)
Context (as_child : StateValue Z -> ArenaKey Hash) (backend : Hash -> option (OnDiskObject Hash)) (output_size : Z).
Context (keys_of : gset (ArenaKey Hash) -> list (ArenaKey Hash)) (fuel : nat).

Definition ChargedState_new {E} (state : StateValue Z) : outcome E (ChargedState Hash) :=
  results ← initial_write_delete_costs backend output_size fuel {[as_child state]} (fun _ _ => RC_ZERO);
  Ret (mkChargedState _ _ _ state (updated_charged_keys results)).

Definition ChargedState_update {E} (self : ChargedState Hash) (new_state : StateValue Z)
  (cpu_cost : Z -> Z -> RunningCost) (gc_limit : RunningCost -> nat) : outcome E (ChargedState Hash * RunningCost) :=
  results ← incremental_write_delete_costs backend output_size keys_of fuel (cs_charged_keys self) {[as_child new_state]}
              cpu_cost gc_limit;
  Ret (mkChargedState _ _ _ new_state (updated_charged_keys results), running_cost results).

(** ** Queries *)

Context (node_data_lens : StateValue Z -> list Z) (StateValue_serialized_size : StateValue Z -> Z).
Context (cost_model : CostModel).

Definition QueryContext_new (state : ChargedState Hash) (address : ContractAddress) : QueryContext Hash :=
  mkQueryContext _ _ _ state Effects_default address CallContext_default.

Definition QueryContext_qualify (persistent_hash : list Z -> HashOutput) (self : QueryContext Hash) (coin : Info)
  : option QualifiedInfo :=
  qualify coin <$> com_indices (qc_call_context self) !! commitment persistent_hash coin (RecipientContract (qc_address self)).

Definition to_vm_stack (self : QueryContext Hash) : list (VmValue Z) :=
  [QueryContext_into self; Effects_into (qc_effects self); mkVmValue Strong (cs_state (qc_state self))].

(** The closures [query] passes to [update]. *)
Definition update_cost (writes deletes : Z) : RunningCost :=
  RunningCost_compute
    (cm_gc_rcmap_constant cost_model + cm_gc_rcmap_coeff_keys_removed_size cost_model * deletes
     + cm_update_rcmap_constant cost_model + cm_update_rcmap_coeff_keys_added_size cost_model * writes
     + cm_get_writes_constant cost_model + cm_get_writes_coeff_keys_added_size cost_model * writes)%cost.
Definition gc_budget (budget : RunningCost) : nat :=
  Z.to_nat (wrap 64 (into_atomic_units (CostDuration_div (rc_compute_time budget) (cm_gc_rcmap_coeff_keys_removed_size cost_model)) 1)).

Abbreviation vm_run mode gas_limit := (run_program 0 transient_hash2 (degrade_to_transient modulus) as_le_bytes
  (Z.of_nat FR_BYTES) node_data_lens StateValue_serialized_size cost_model mode gas_limit).

(** [query], after the program has run. *)
Definition finish_query {Event} (self : QueryContext Hash) (res : VmResults Z Event) (gas_limit : option RunningCost)
  : outcome TranscriptRejected (QueryResults Hash Event) :=
  match res_stack res with
  | [_; effects; state] =>
      new_state ← match strength state with Strong => Ret (vm_value state) | Weak => Fail WeakStateReturned end;
      effects ← Effects_try effects;
      '(new_charged_state, state_cost) ← ChargedState_update (qc_state self) new_state update_cost gc_budget;
      let gas_cost := RunningCost_add (res_gas_cost res) state_cost in
      if match gas_limit with Some gas_limit => negb (within_bounds gas_cost gas_limit) | None => false end
      then Fail (Execution OutOfGas)
      else Ret (mkQueryResults _ _ _ _ (mkQueryContext _ _ _ new_charged_state effects (qc_address self) (qc_call_context self))
                  (res_events res) gas_cost)
  | _ => Fail FinalStackWrongLength
  end.

Definition query {R Event} (mode : ResultMode Z R Event) (self : QueryContext Hash) (program : list (Op Z R))
  (gas_limit : option RunningCost) : outcome TranscriptRejected (QueryResults Hash Event) :=
  res ← map_fail Execution (vm_run mode gas_limit (to_vm_stack self) program);
  finish_query self res gas_limit.

Definition run_transcript (self : QueryContext Hash) (transcript : Transcript)
  : outcome TranscriptRejected (QueryResults Hash (VersionedLogItem Z)) :=
  query ResultModeVerify self (tr_program transcript) (Some (tr_gas transcript)).
End runtime.

(** ** Maps and sets *)

Lemma collect_lookup {K V} `{Countable K} (l : list (K * V)) k v :
  NoDup l.*1 -> collect l !! k = Some v <-> (k, v) ∈ l.
Proof.
  unfold collect. enough (Hg : forall m : gmap K V, NoDup l.*1 -> foldl (fun m kv => <[kv.1 := kv.2]> m) m l !! k = Some v <->
    (k, v) ∈ l \/ (k ∉ l.*1) /\ m !! k = Some v).
  { intros Hn. rewrite (Hg ∅ Hn). rewrite lookup_empty. naive_solver. }
  induction l as [|[k' v'] l IH]; intros m Hn; cbn [foldl fst snd]; [rewrite elem_of_nil; set_solver|].
  apply NoDup_cons in Hn as [Hk Hn]. rewrite IH by done. rewrite elem_of_cons. cbn [fmap list_fmap fst] in *.
  rewrite not_elem_of_cons. destruct (decide (k = k')) as [->|Hne].
  - rewrite lookup_insert_eq. split; [|naive_solver]. intros [Hi|[_ [= ->]]]; [|by left; left].
    destruct Hk. apply list_elem_of_fmap. by exists (k', v).
  - rewrite lookup_insert_ne by done. naive_solver.
Qed.

Lemma collect_spec {K V} `{Countable K} (l : list (K * V)) (m : gmap K V) : l ≡ₚ map_to_list m -> collect l = m.
Proof.
  intros Hp. assert (Hn : NoDup l.*1) by (rewrite Hp; apply NoDup_fst_map_to_list).
  apply map_eq. intros k. apply option_eq. intros v. rewrite collect_lookup by done. rewrite Hp. apply elem_of_map_to_list.
Qed.

Lemma map_to_list_collect {K V} `{Countable K} (l : list (K * V)) : NoDup l.*1 -> map_to_list (collect l) ≡ₚ l.
Proof.
  intros Hn. apply NoDup_Permutation; [apply NoDup_map_to_list|by eapply NoDup_fmap_1|].
  intros [k v]. rewrite elem_of_map_to_list. by apply collect_lookup.
Qed.

Lemma mapM_fmap_ret {E A B} (f : A -> outcome E B) (g : B -> A) l :
  Forall (fun x => f (g x) = Ret x) l -> mapM f (g <$> l) = Ret l.
Proof. induction 1 as [|x l Hx _ IH]; [done|]. cbn. rewrite Hx. cbn. by rewrite IH. Qed.

Section effects.
Context (iter : forall K V `{Countable K}, gmap K V -> list (K * V)).
Context (Hiter : forall K V `{Countable K} (m : gmap K V), iter K V _ _ m ≡ₚ map_to_list m).
Arguments iter {K V _ _} _.

Lemma set_iter_spec {K} `{Countable K} (s : gset K) : set_iter (@iter) s ≡ₚ elements s.
Proof.
  unfold set_iter. rewrite Hiter. apply NoDup_Permutation; [apply NoDup_fst_map_to_list|apply NoDup_elements|].
  intros k. rewrite elem_of_elements, list_elem_of_fmap. split.
  - intros ([k' []] & -> & Hk%elem_of_map_to_list). apply lookup_gset_to_gmap_Some in Hk. apply Hk.
  - intros Hk. exists (k, tt). split; [done|]. by apply elem_of_map_to_list, lookup_gset_to_gmap_Some.
Qed.

(** The values of entries that decode to what was encoded. *)
Definition value_decodes {V} (cv : Conv V) (dflt : V) (value : V -> StateValue Z) (v : V) : Prop :=
  match value v with
  | SCell a => try_value cv (av_value a) = Ok v
  | SNull => v = dflt
  | _ => False
  end.

(** A map survives being encoded and decoded, in whatever order it is listed. *)
Lemma map_from_into {K V} `{Countable K} (ck : Conv K) (cv : Conv V) (dflt : V) (value : V -> StateValue Z)
  (okk : K -> Prop) `{!ConvLaws ck okk} (m : gmap K V) (l : list (K * V)) :
  l ≡ₚ map_to_list m -> map_Forall (fun k v => okk k /\ value_decodes cv dflt value v) m ->
  map_from (@iter) ck cv dflt (map_into ck value l) = Ret m.
Proof.
  intros Hl Hm. unfold map_into. set (enc := fun kv : K * V => (to_aligned ck kv.1, value kv.2)).
  assert (Hok : Forall (fun kv => map_from_entry ck cv dflt (enc kv) = Ret kv) l).
  { apply Forall_forall. intros [k v] Hk. rewrite Hl in Hk. apply elem_of_map_to_list in Hk. destruct (Hm _ _ Hk) as [Hk1 Hv].
    unfold map_from_entry, enc, value_decodes in *. cbn [fst snd to_aligned av_value].
    destruct (value v) as [|a| | |]; try done; [subst v|rewrite Hv]; cbn [effect_decoded mbind outcome_bind];
      rewrite conv_back by done; done. }
  assert (Hn : NoDup (enc <$> l).*1).
  { assert (Hn1 : NoDup l.*1) by (rewrite Hl; apply NoDup_fst_map_to_list). clear Hl Hm.
    induction Hok as [|[k v] l Hkv Hok IH]; [constructor|]. cbn in Hn1. apply NoDup_cons in Hn1 as [Hk Hn1].
    cbn. apply NoDup_cons. split; [|by apply IH]. intros Hin. apply list_elem_of_fmap in Hin as (kv & Ek & Hin).
    apply list_elem_of_fmap in Hin as ([k' v'] & -> & Hin). destruct Hk. apply list_elem_of_fmap. exists (k', v').
    split; [|done]. cbn in Ek |- *. rewrite Forall_forall in Hok. specialize (Hok _ Hin).
    unfold map_from_entry, enc in Hkv, Hok. cbn [fst snd] in Hkv, Hok. rewrite <- Ek in Hok.
    apply outcome_bind_Ret in Hkv as (? & _ & Hkv), Hok as (? & _ & Hok).
    destruct (effect_decoded _) as [k0| |]; [|done..]. cbn in Hkv, Hok. congruence. }
  assert (Hi : iter (collect (enc <$> l)) ≡ₚ map enc l) by (rewrite Hiter; by apply map_to_list_collect).
  apply Permutation_map_inv in Hi as (l' & El & Hp).
  cbn [map_from]. rewrite El. change (map enc l') with (enc <$> l'). rewrite (mapM_fmap_ret _ enc).
  - cbn. f_equal. apply collect_spec. by rewrite <- Hp.
  - by rewrite <- Hp.
Qed.
End effects.

(** ** Conversions round trip *)

Lemma as_le_bytes_ok d : bytes_ok (as_le_bytes d) /\ Z.of_nat (length (as_le_bytes d)) <= FIELD_BYTE_LIMIT.
Proof. unfold as_le_bytes. split; [apply to_le_bytes_ok|]. rewrite length_to_le_bytes. unfold FR_BYTES, FIELD_BYTE_LIMIT. lia. Qed.

(** Two parts after one another. *)
Lemma cell_ok_app v1 v2 s1 s2 :
  cell_ok (mkAlignedValue v1 s1) -> cell_ok (mkAlignedValue v2 s2) -> cell_ok (mkAlignedValue (v1 ++ v2) (s1 ++ s2)).
Proof.
  intros [A1 B1] [A2 B2]. split; [|by apply Forall_app]. cbn in *.
  replace (mkAlignedValue (v1 ++ v2) (s1 ++ s2)) with (AlignedValue_concat [mkAlignedValue v1 s1; mkAlignedValue v2 s2])
    by (unfold AlignedValue_concat; cbn; by rewrite !app_nil_r).
  apply aligned_concat. by repeat constructor.
Qed.

Lemma conv_cell {T} (c : Conv T) ok `{!ConvLaws c ok} x : ok x -> cell_ok (to_aligned c x).
Proof. intros Hx. split; [by apply (conv_aligned (c := c))|by apply (conv_bytes (c := c))]. Qed.

Section convs.
Context (modulus : Z) (Hmod : 256 ^ 31 <= modulus <= 256 ^ 32).

Lemma Fr_atom_back f : 0 <= f < modulus -> atom_to_Fr modulus (atom_from_Fr f) = Ok f.
Proof.
  intros Hf. unfold atom_to_Fr, atom_from_Fr. pose proof (normalize_length (as_le_bytes f)) as Hl.
  unfold as_le_bytes in *. rewrite length_to_le_bytes in Hl. unfold Fr_from_le_bytes.
  rewrite (proj2 (Nat.leb_le _ _) Hl). cbv zeta. rewrite from_le_bytes_app, from_le_bytes_zeros, normalize_value.
  rewrite from_to_le_bytes_small by (unfold FR_BYTES; lia). rewrite Z.mul_0_r, Z.add_0_r.
  by rewrite (proj2 (Z.ltb_lt _ _)) by lia.
Qed.

#[export] Instance Fr_conv_laws : ConvLaws (Fr_conv modulus) (fun f => 0 <= f < modulus).
Proof.
  split; intros f Hf.
  - cbn. by apply Fr_atom_back.
  - apply (cell_digest as_le_bytes as_le_bytes_ok f).
  - apply (cell_digest as_le_bytes as_le_bytes_ok f).
Qed.

Definition SpendsKey_ok (k : ClaimedUnshieldedSpendsKey) : Prop := TokenType_ok (cus_type k) /\ PublicAddress_ok (cus_address k).
Definition ClaimedCall_ok (c : ClaimedContractCallsValue) : Prop :=
  in_u 64 (ccc_pos c) /\ hash_ok (ccc_address c) /\ hash_ok (ccc_entry_point c) /\ 0 <= ccc_commitment c < modulus.

Lemma TokenType_into_length t : length (TokenType_into t) = 3%nat.
Proof. by destruct t. Qed.
Lemma PublicAddress_into_length a : length (into_value PublicAddress_conv a) = 3%nat.
Proof. by destruct a. Qed.

#[export] Instance SpendsKey_laws : ConvLaws SpendsKey_conv SpendsKey_ok.
Proof.
  assert (Hc : forall k, SpendsKey_ok k -> cell_ok (to_aligned SpendsKey_conv k)).
  { intros [t a] [Ht Ha]. apply cell_ok_app; [by apply (conv_cell TokenType_conv TokenType_ok t)|].
    by apply (conv_cell PublicAddress_conv PublicAddress_ok a). }
  split; [|by intros k Hk; apply Hc|by intros k Hk; apply Hc].
  intros [t a] [Ht Ha]. cbn [SpendsKey_conv into_value try_value cus_type cus_address] in *.
  rewrite length_app, PublicAddress_into_length. cbn [TokenType_conv into_value]. rewrite TokenType_into_length. cbn [Nat.add Nat.eqb].
  rewrite take_app_length', drop_app_length' by (by rewrite TokenType_into_length).
  change (TokenType_into t) with (into_value TokenType_conv t).
  rewrite (conv_back (c := TokenType_conv)) by done. cbn [mbind result_bind].
  by rewrite (conv_back (c := PublicAddress_conv)).
Qed.

#[export] Instance ClaimedCall_laws : ConvLaws (ClaimedCall_conv modulus) ClaimedCall_ok.
Proof.
  assert (Hc : forall c, ClaimedCall_ok c -> cell_ok (to_aligned (ClaimedCall_conv modulus) c)).
  { intros [p a e r] (Hp & Ha & He & Hr). cbn in *.
    apply (cell_ok_app [atom_from_u128 p] _ [SegAtom (Bytes 8)]); [by apply (cell_uint 8)|].
    apply (cell_ok_app [atom_from_hash a] _ [hash_atom]); [apply (conv_cell hash_conv hash_ok a Ha)|].
    apply (cell_ok_app [atom_from_hash e] _ [hash_atom]); [apply (conv_cell hash_conv hash_ok e He)|].
    apply (conv_cell (Fr_conv modulus) _ r Hr). }
  split; [|by intros k Hk; apply Hc|by intros k Hk; apply Hc].
  intros [p a e r] (Hp & [_ Ha] & [_ He] & Hr).
  cbn [ClaimedCall_conv into_value try_value ccc_pos ccc_address ccc_entry_point ccc_commitment] in *.
  rewrite atom_uint_roundtrip by (lia || done). cbn [mbind result_bind]. rewrite !atom_hash_roundtrip by done. cbn [mbind result_bind].
  by rewrite Fr_atom_back.
Qed.
End convs.

(** ** Well-formed contexts *)

Section wellformed.
Context (modulus : Z) (Hmod : 256 ^ 31 <= modulus <= 256 ^ 32).

Record Effects_ok (eff : Effects) : Prop := {
  eff_nullifiers : set_Forall hash_ok (claimed_nullifiers eff);
  eff_receives : set_Forall hash_ok (claimed_shielded_receives eff);
  eff_spends : set_Forall hash_ok (claimed_shielded_spends eff);
  eff_calls : set_Forall (ClaimedCall_ok modulus) (claimed_contract_calls eff);
  eff_shielded_mints : map_Forall (fun k v => hash_ok k /\ in_u 64 v) (shielded_mints eff);
  eff_unshielded_mints : map_Forall (fun k v => hash_ok k /\ in_u 64 v) (unshielded_mints eff);
  eff_inputs : map_Forall (fun k v => TokenType_ok k /\ in_u 128 v) (unshielded_inputs eff);
  eff_outputs : map_Forall (fun k v => TokenType_ok k /\ in_u 128 v) (unshielded_outputs eff);
  eff_unshielded_spends : map_Forall (fun k v => SpendsKey_ok k /\ in_u 128 v) (claimed_unshielded_spends eff)
}.

Record CallContext_ok (cc : CallContext) : Prop := {
  cc_tblock : in_u 64 (tblock cc);
  cc_tblock_err : in_u 32 (tblock_err cc);
  cc_parent : hash_ok (parent_block_hash cc);
  cc_caller : from_option PublicAddress_ok True (caller cc);
  cc_balance_ok : map_Forall (fun k v => TokenType_ok k /\ in_u 128 v) (cc_balance cc);
  cc_indices : map_Forall (fun k v => hash_ok k /\ in_u 64 v) (com_indices cc);
  cc_last : in_u 64 (last_block_time cc)
}.

Lemma Effects_default_ok : Effects_ok Effects_default.
Proof. split; cbn; try apply set_Forall_empty; apply map_Forall_empty. Qed.

Context (iter : forall K V `{Countable K}, gmap K V -> list (K * V)).
Context (Hiter : forall K V `{Countable K} (m : gmap K V), iter K V _ _ m ≡ₚ map_to_list m).
Arguments iter {K V _ _} _.

Lemma set_from_into {K} `{Countable K} (ck : Conv K) okk `{!ConvLaws ck okk} (s : gset K) :
  set_Forall okk s -> set_from (@iter) ck (set_into (@iter) ck s) = Ret s.
Proof.
  intros Hs. unfold set_from, set_into. rewrite (map_from_into (@iter) Hiter ck unit_conv tt _ okk (gset_to_gmap tt s)).
  - cbn [mbind outcome_bind]. by rewrite dom_gset_to_gmap.
  - unfold set_iter. rewrite Hiter, <- list_fmap_compose. apply reflexive_eq.
    induction (map_to_list (gset_to_gmap tt s)) as [|[k []] l IH]; cbn in *; by f_equal.
  - intros k [] [Hk _]%lookup_gset_to_gmap_Some. split; [by apply Hs|done].
Qed.

Lemma cells_from_into {K} `{Countable K} (ck : Conv K) okk `{!ConvLaws ck okk} (n : nat) (m : gmap K Z) :
  (n <= 16)%nat -> map_Forall (fun k v => okk k /\ in_u (8 * Z.of_nat n) v) m ->
  map_from (@iter) ck (uint_conv (Z.of_nat n)) 0 (cells_into (@iter) ck (uint_conv (Z.of_nat n)) m) = Ret m.
Proof.
  intros Hn Hm. unfold cells_into. apply (map_from_into (@iter) Hiter ck _ 0 _ okk m); [apply Hiter|].
  intros k v Hk. destruct (Hm k v Hk) as [Hok Hv]. split; [done|]. cbn [value_decodes to_aligned av_value].
  by apply (conv_back (c := uint_conv (Z.of_nat n))).
Qed.

Lemma Effects_back eff : Effects_ok eff -> Effects_try modulus (@iter) (Effects_into modulus (@iter) eff) = Ret eff.
Proof.
  intros [H0 H1 H2 H3 H4 H5 H6 H7 H8]. unfold Effects_try, Effects_into. cbn [vm_value].
  pose proof (ClaimedCall_laws modulus Hmod) as Hcalls.
  rewrite !(set_from_into hash_conv hash_ok), (set_from_into (ClaimedCall_conv modulus) (ClaimedCall_ok modulus)) by done.
  change 8 with (Z.of_nat 8). change 16 with (Z.of_nat 16).
  rewrite !(cells_from_into hash_conv hash_ok 8), !(cells_from_into TokenType_conv TokenType_ok 16),
    (cells_from_into SpendsKey_conv SpendsKey_ok 16) by (done || lia).
  by destruct eff.
Qed.

(** What goes on the stack is well formed, and its cells are small. *)
Context (cell_fits : AlignedValue -> Prop) (Hsmall : forall v, AlignedValue_serialized_size v <= SMALL_CELL -> cell_fits v).
Abbreviation wf := (value_wf 0 (degrade_to_transient modulus) cell_fits).

Lemma collect_Forall {K V} `{Countable K} (P : V -> Prop) (l : list (K * V)) :
  Forall (fun kv => P kv.2) l -> map_Forall (fun _ v => P v) (collect l).
Proof.
  unfold collect. assert (He : map_Forall (fun (_ : K) v => P v) (∅ : gmap K V)) by apply map_Forall_empty. revert He.
  generalize (∅ : gmap K V). induction l as [|[k v] l IH]; intros m Hm Hl; [done|]. apply Forall_cons in Hl as [Hv Hl].
  apply IH; [|done]. by apply map_Forall_insert_2.
Qed.

Lemma set_into_wf {K} `{Countable K} (ck : Conv K) s : wf (set_into (@iter) ck s).
Proof. constructor. apply collect_Forall, Forall_fmap, Forall_forall. intros kv _. constructor. Qed.

Lemma cells_into_wf {K} `{Countable K} (ck : Conv K) (n : nat) (P : K -> Prop) (m : gmap K Z) :
  (n <= 16)%nat -> map_Forall (fun k v => P k /\ in_u (8 * Z.of_nat n) v) m ->
  wf (cells_into (@iter) ck (uint_conv (Z.of_nat n)) m).
Proof.
  intros Hn Hm. constructor. apply collect_Forall, Forall_fmap, Forall_forall. intros [k v] Hk.
  rewrite Hiter in Hk. apply elem_of_map_to_list in Hk. destruct (Hm _ _ Hk) as [_ Hv]. constructor.
  apply (wf_uint cell_fits Hsmall (Z.of_nat n) v); [lia|exact Hv].
Qed.

Lemma conv_wf {T} (c : Conv T) ok `{!ConvLaws c ok} x : ok x -> AlignedValue_serialized_size (to_aligned c x) <= SMALL_CELL -> wf (cell c x).
Proof. intros Hx Hs. constructor. split; [by apply (conv_cell c ok x)|by apply Hsmall]. Qed.

Lemma hash_wf h : hash_ok h -> wf (cell hash_conv h).
Proof. intros [Hb Hl]. constructor. exact (wf_hash cell_fits Hsmall h Hb Hl). Qed.

Lemma address_wf x : PublicAddress_ok x -> wf (cell PublicAddress_conv x).
Proof.
  intros Hx. apply (conv_wf PublicAddress_conv PublicAddress_ok); [done|].
  assert (Hh : forall h, hash_ok h -> (length (atom_from_hash h) <= 64)%nat).
  { intros h [_ Hl]. unfold atom_from_hash. pose proof (normalize_length h). unfold PERSISTENT_HASH_BYTES in Hl. lia. }
  apply small_cell; [destruct x; cbn; lia| |cbn; lia|].
  - destruct x as [h|h]; repeat apply Forall_cons_2; try apply Forall_nil_2; try (by apply Hh); vm_compute; lia.
  - repeat apply Forall_cons_2; try apply Forall_nil_2; vm_compute; discriminate.
Qed.

Lemma Effects_into_wf eff : Effects_ok eff -> wf (vm_value (Effects_into modulus (@iter) eff)).
Proof.
  intros [H0 H1 H2 H3 H4 H5 H6 H7 H8]. constructor; [cbn; lia|]. rewrite !Forall_cons. split_and!;
    first [apply set_into_wf|by apply (cells_into_wf _ 8 hash_ok); [lia|]|by apply (cells_into_wf _ 16 TokenType_ok); [lia|]
          |by apply (cells_into_wf _ 16 SpendsKey_ok); [lia|]|apply Forall_nil_2].
Qed.

Lemma uint_wf (n : nat) x : (n <= 16)%nat -> in_u (8 * Z.of_nat n) x -> wf (cell (uint_conv (Z.of_nat n)) x).
Proof. intros Hn Hx. constructor. apply (wf_uint cell_fits Hsmall (Z.of_nat n) x); [lia|exact Hx]. Qed.

Lemma QueryContext_into_wf {Hash} `{Countable Hash} (qc : QueryContext Hash) :
  hash_ok (qc_address qc) -> CallContext_ok (qc_call_context qc) -> wf (vm_value (QueryContext_into (@iter) qc)).
Proof.
  intros Ha [Ht Hte Hp Hc Hb Hi Hl]. constructor; [cbn; lia|]. rewrite !Forall_cons. split_and!.
  - by apply hash_wf.
  - by apply (cells_into_wf _ 8 hash_ok); [lia|].
  - by apply (uint_wf 8); [lia|].
  - by apply (uint_wf 4); [lia|].
  - by apply hash_wf.
  - by apply (cells_into_wf _ 16 TokenType_ok); [lia|].
  - destruct (caller _) as [x|]; [|constructor]. by apply address_wf.
  - by apply (uint_wf 8); [lia|].
  - apply Forall_nil_2.
Qed.
End wellformed.

(** ** Queries *)

Lemma bind_no_panic {E A B} (o : outcome E A) (k : A -> outcome E B) :
  o <> Panic -> (forall a, o = Ret a -> k a <> Panic) -> (o ≫= k) <> Panic.
Proof. destruct o as [a| |]; cbn; [|done..]. intros _ Hk. by apply Hk. Qed.

Lemma mapM_no_panic {E A B} (f : A -> outcome E B) l : (forall x, f x <> Panic) -> mapM f l <> Panic.
Proof.
  intros Hf. induction l as [|x l IH]; [done|]. cbn. apply bind_no_panic; [done|]. intros y _. by apply bind_no_panic.
Qed.

Lemma map_from_entry_no_panic {K V} (ck : Conv K) (cv : Conv V) dflt kv : map_from_entry ck cv dflt kv <> Panic.
Proof.
  apply bind_no_panic; [destruct kv.2 as [|a| | |]; try done; by destruct (try_value cv _)|]. intros v _.
  by destruct (try_value ck _).
Qed.

Section decode.
Context (modulus : Z) (iter : forall K V `{Countable K}, gmap K V -> list (K * V)).

Lemma map_from_no_panic {K V} `{Countable K} (ck : Conv K) (cv : Conv V) dflt st : map_from iter ck cv dflt st <> Panic.
Proof.
  destruct st; try done. apply bind_no_panic; [|done]. apply mapM_no_panic, map_from_entry_no_panic.
Qed.
Lemma set_from_no_panic {K} `{Countable K} (ck : Conv K) st : set_from iter ck st <> Panic.
Proof. apply bind_no_panic; [apply map_from_no_panic|done]. Qed.

Lemma Effects_try_no_panic v : Effects_try modulus iter v <> Panic.
Proof.
  unfold Effects_try. destruct (vm_value v) as [| | |arr|]; try done. repeat (destruct arr as [|? arr]; try done).
  repeat (apply bind_no_panic; [first [apply set_from_no_panic|apply map_from_no_panic]|]; intros ? _). done.
Qed.
End decode.

Section query.
Context (modulus : Z) (Hmod : 256 ^ 31 <= modulus <= 256 ^ 32) (transient_hash2 : Z -> Z -> Z).
Context (iter : forall K V `{Countable K}, gmap K V -> list (K * V)).
Context {Hash : Type} `{Countable Hash}.
Context (as_child : StateValue Z -> ArenaKey Hash) (backend : Hash -> option (OnDiskObject Hash)) (output_size : Z).
Context (keys_of : gset (ArenaKey Hash) -> list (ArenaKey Hash)) (fuel : nat).
Context (node_data_lens : StateValue Z -> list Z) (StateValue_serialized_size : StateValue Z -> Z).
Context (cost_model : CostModel).

Abbreviation vm_run mode gas_limit := (run_program 0 transient_hash2 (degrade_to_transient modulus) as_le_bytes
  (Z.of_nat FR_BYTES) node_data_lens StateValue_serialized_size cost_model mode gas_limit).
Abbreviation query_in := (query modulus transient_hash2 iter as_child backend output_size keys_of fuel node_data_lens
  StateValue_serialized_size cost_model).
Abbreviation wf := (value_wf 0 (degrade_to_transient modulus) any_cell).

Abbreviation finish := (finish_query modulus iter as_child backend output_size keys_of fuel cost_model).

Lemma update_inv self new c (cs : ChargedState Hash) :
  ChargedState_update (E := TranscriptRejected) as_child backend output_size keys_of fuel self new
    (update_cost cost_model) (gc_budget cost_model) = Ret (cs, c) ->
  exists (res : WriteDeleteResults (Hash := Hash)) w d, 0 <= w /\ 0 <= d /\ processing_cost res = update_cost cost_model w d /\ c = running_cost res.
Proof.
  intros E. unfold ChargedState_update in E. apply outcome_bind_Ret in E as (res & E & [= _ <-]).
  unfold incremental_write_delete_costs in E. apply outcome_bind_Ret in E as (W & _ & E). apply outcome_bind_Ret in E as (K & _ & E).
  apply outcome_bind_Ret in E as ([K' D] & _ & E). unfold WriteDeleteResults_new in E.
  apply outcome_bind_Ret in E as (w & _ & E). apply outcome_bind_Ret in E as (d & _ & E).
  exists res, (Z.of_nat (size W)), (Z.of_nat (size D)). injection E as <-. split_and!; [lia|lia|done|done].
Qed.

Lemma update_cost_nonneg w d : cost_model_ok cost_model -> 0 <= w -> 0 <= d -> 0 <= rc_compute_time (update_cost cost_model w d).
Proof.
  intros Hcm Hw Hd. cbn. repeat (apply cd_add_nonneg || apply cd_mul_nonneg); try done; coeff Hcm.
Qed.

(** The gas of a query is at least that of its program. *)
Lemma finish_gas {Event} self (res : VmResults Z Event) r :
  cost_model_ok cost_model -> gas_ok (res_gas_cost res) -> finish self res None = Ret r ->
  gas_le (res_gas_cost res) (qr_gas_cost r).
Proof.
  intros Hcm [Hg1 Hg2]. unfold finish_query. destruct (res_stack res) as [|c [|e [|s [|]]]]; try done.
  intros E. apply outcome_bind_Ret in E as (st & _ & E). apply outcome_bind_Ret in E as (eff & _ & E).
  apply outcome_bind_Ret in E as ([cs cost] & Eu & [= <-]). apply update_inv in Eu as (wd & w & d & Hw & Hd & Ep & ->).
  pose proof (update_cost_nonneg w d Hcm Hw Hd) as Hc. unfold gas_le, running_cost, RunningCost_add. rewrite Ep.
  cbn [rc_read_time rc_compute_time qr_gas_cost update_cost RunningCost_compute] in *.
  unfold in_u, CostDuration_add, sat_add, u_max, CD_ZERO in *. split; lia.
Qed.

(** The limit only decides whether the result counts. *)
Lemma finish_limit {Event} self (res : VmResults Z Event) limit :
  finish self res (Some limit) =
  r ← finish self res None;
  if within_bounds (qr_gas_cost r) limit then Ret r else Fail (Execution OutOfGas).
Proof.
  unfold finish_query. destruct (res_stack res) as [|c [|e [|s [|]]]]; try done. destruct (strength s); [done|]. cbn [mbind outcome_bind].
  destruct (Effects_try modulus iter e) as [eff| |]; [|done..]. cbn [mbind outcome_bind].
  destruct (ChargedState_update _ _ _ _ _ _ _ _ _) as [[cs cost]| |]; [|done..]. cbn. by destruct (within_bounds _ limit).
Qed.

(** A contract's state in order: a well-formed value, whose storage is paid for. *)
Definition ChargedState_ok (cs : ChargedState Hash) : Prop :=
  wf (cs_state cs) /\ Accurate backend (cs_charged_keys cs).
Record QueryContext_ok (qc : QueryContext Hash) : Prop := {
  qco_state : ChargedState_ok (qc_state qc);
  qco_effects : Effects_ok modulus (qc_effects qc);
  qco_address : hash_ok (qc_address qc);
  qco_call : CallContext_ok (qc_call_context qc)
}.

Context (Hiter : forall K V `{Countable K} (m : gmap K V), iter K V _ _ m ≡ₚ map_to_list m).

(** Effects survive the machine: what a call has claimed, put on the stack as a
    state value and read back, is what it was, whatever the order in which the
    maps list their entries. *)
Theorem effects_roundtrip eff :
  Effects_ok modulus eff -> Effects_try modulus iter (Effects_into modulus iter eff) = Ret eff.
Proof. by apply Effects_back. Qed.

Lemma to_vm_stack_wf (cell_fits : AlignedValue -> Prop) qc : (forall v, AlignedValue_serialized_size v <= SMALL_CELL -> cell_fits v) ->
  QueryContext_ok qc -> value_wf 0 (degrade_to_transient modulus) cell_fits (cs_state (qc_state qc)) ->
  Forall (fun v => value_wf 0 (degrade_to_transient modulus) cell_fits (vm_value v)) (to_vm_stack modulus iter qc).
Proof.
  intros Hsm [_ He Ha Hc] Hs. unfold to_vm_stack. rewrite !Forall_cons. split_and!; [| |done|apply Forall_nil_2].
  - by apply QueryContext_into_wf.
  - by apply Effects_into_wf.
Qed.

(** The state a program leaves, with what is stored of it. *)
Definition stored_result {R Event} (mode : ResultMode Z R Event) qc program limit : Prop :=
  forall res c e s, vm_run mode limit (to_vm_stack modulus iter qc) program = Ret res -> res_stack res = [c; e; s] ->
  exists U, Visible backend output_size (cs_charged_keys (qc_state qc)) U {[as_child (vm_value s)]} fuel.

Context (Hout : 0 <= output_size) (Hkeys : forall S, keys_of S ≡ₚ elements S).
Context (rank : ArenaKey Hash -> nat) (Hac : acyclic backend rank).

(** C17. Contract calls are safe: run on a context in order, a program with
    well-formed arguments never panics, whatever it leaves on the stack.  When
    the call is accepted, the contract's new state is in order again: aligned
    cells, arrays of at most 16 entries, hashed trees; all storage it refers to
    is paid for, the address and the block it ran in are what they were, and the
    gas, storage included, is within the limit.  When the state before and the
    arguments have their cells within the bound that is checked on loading, and
    concatenations declare a bound [CONCAT_SLACK] below it, the new state can be
    loaded again. *)
Theorem query_safe {R Event} (mode : ResultMode Z R Event) qc program limit :
  (forall r v, process_read mode r v <> Panic) -> QueryContext_ok qc ->
  Forall (op_ok 0 (degrade_to_transient modulus) any_cell) program -> stored_result mode qc program limit ->
  match query_in mode qc program limit with
  | Ret r =>
      let qc' := qr_context r in
      ChargedState_ok (qc_state qc') /\
      (forall k, Reach backend {[as_child (cs_state (qc_state qc'))]} k -> k ∈ charged (cs_charged_keys (qc_state qc'))) /\
      qc_address qc' = qc_address qc /\ qc_call_context qc' = qc_call_context qc /\
      from_option (fun l => within_bounds (qr_gas_cost r) l = true) True limit /\
      (loadable 0 (degrade_to_transient modulus) (cs_state (qc_state qc)) ->
       Forall (op_loadable 0 (degrade_to_transient modulus)) program ->
       loadable 0 (degrade_to_transient modulus) (cs_state (qc_state qc')))
  | Fail _ => True
  | Panic => False
  end.
Proof.
  intros Hmode Hqc Hp Hst. unfold query.
  pose proof (run_loadable 0 transient_hash2 (degrade_to_transient modulus) as_le_bytes (Z.of_nat FR_BYTES) node_data_lens
    StateValue_serialized_size cost_model mode limit (to_vm_stack modulus iter qc) program as_le_bytes_ok Hmode
    (to_vm_stack_wf any_cell qc ltac:(done) Hqc (proj1 (qco_state _ Hqc))) ltac:(cbn; unfold MAX_STACK_HEIGHT; lia) Hp) as Hrun.
  destruct (vm_run mode limit (to_vm_stack modulus iter qc) program) as [res| |] eqn:Er; [|done..]. cbn [map_fail mbind outcome_bind].
  destruct Hrun as (Hwf & _ & Hld). unfold finish_query. destruct (res_stack res) as [|c [|e [|s [|]]]] eqn:Es; try done.
  destruct (strength s); [done|]. cbn [mbind outcome_bind].
  destruct (Effects_try modulus iter e) as [eff| |] eqn:Ee; [|done|by apply Effects_try_no_panic in Ee]. cbn [mbind outcome_bind].
  destruct (Hst res c e s Er Es) as [U HU]. unfold ChargedState_update.
  destruct (incremental_charged backend output_size Hout keys_of Hkeys (E := TranscriptRejected) _ U _ fuel (update_cost cost_model)
    (gc_budget cost_model) rank (proj2 (qco_state _ Hqc)) HU Hac) as (wd & W & D & -> & HK & HR & _).
  cbn [mbind outcome_bind]. destruct (match limit with Some _ => _ | None => _ end) eqn:El; [done|].
  cbn [qr_context qr_gas_cost qc_state qc_address qc_call_context cs_state cs_charged_keys]. split_and!; [| |done|done| |].
  - split; [|done]. cbn. rewrite !Forall_cons in Hwf. apply Hwf.
  - exact HR.
  - destruct limit; [|done]. by apply negb_false_iff in El.
  - intros Hl Hpl. specialize (Hld (to_vm_stack_wf in_bound qc in_bound_small Hqc Hl) Hpl). rewrite !Forall_cons in Hld. apply Hld.
Qed.

Context (Hnodes : forall v, Forall (fun n => 0 <= n) (node_data_lens v))
        (Hsize : forall v, 0 <= StateValue_serialized_size v) (Hcm : cost_model_ok cost_model).

(** A gas limit changes nothing but whether a call is accepted: a call that
    succeeds without a limit and costs no more than the limit succeeds with it
    and has the same result; one that costs more runs out of gas; and a call that
    succeeds with a limit is one that succeeds without. *)
Theorem query_metered {R Event} (mode : ResultMode Z R Event) (qc : QueryContext Hash) program limit :
  exceeds RC_ZERO limit = false -> Forall op_args_nonneg program ->
  (forall r, query_in mode qc program None = Ret r ->
    query_in mode qc program (Some limit) =
    if within_bounds (qr_gas_cost r) limit then Ret r else Fail (Execution OutOfGas)) /\
  (forall r, query_in mode qc program (Some limit) = Ret r ->
    query_in mode qc program None = Ret r /\ within_bounds (qr_gas_cost r) limit = true).
Proof.
  intros H0 Hp. unfold query.
  destruct (run_gas_limit 0 transient_hash2 (degrade_to_transient modulus) as_le_bytes (Z.of_nat FR_BYTES) node_data_lens
    StateValue_serialized_size cost_model ltac:(lia) Hnodes Hsize Hcm mode limit (to_vm_stack modulus iter qc) program H0 Hp) as [H1 H2].
  split.
  - intros r E. destruct (vm_run mode None _ program) as [res| |] eqn:Er; [|done..]. cbn in E.
    pose proof (run_gas_ok 0 transient_hash2 (degrade_to_transient modulus) as_le_bytes (Z.of_nat FR_BYTES) node_data_lens
      StateValue_serialized_size cost_model ltac:(lia) Hnodes Hsize Hcm mode _ program res Hp Er) as Hg.
    rewrite (H1 res eq_refl). pose proof (finish_gas _ _ _ Hcm Hg E) as Hle.
    destruct (exceeds (res_gas_cost res) limit) eqn:Ex; cbn [map_fail mbind outcome_bind]; [|by rewrite finish_limit, E].
    assert (Ef : within_bounds (qr_gas_cost r) limit = false); [|by rewrite Ef].
    unfold exceeds, gas_le, within_bounds in *. lia.
  - intros r E. destruct (vm_run mode (Some limit) _ program) as [res| |] eqn:Er; [|done..]. cbn in E.
    destruct (H2 res eq_refl) as [-> _]. cbn. rewrite finish_limit in E. apply outcome_bind_Ret in E as (r' & -> & E).
    destruct (within_bounds (qr_gas_cost r') limit) eqn:Ew; [|done]. injection E as ->. done.
Qed.

Lemma finish_events {E1 E2} (f : list E1 -> list E2) qc (res : VmResults Z E1) limit :
  finish qc (results_as f res) limit =
  (fun r => mkQueryResults _ _ _ _ (qr_context r) (f (qr_events r)) (qr_gas_cost r)) <$> finish qc res limit.
Proof.
  unfold finish_query. cbn [results_as res_stack res_events res_gas_cost]. destruct (res_stack res) as [|c [|e [|s [|]]]]; try done.
  destruct (strength s); [done|]. cbn [mbind outcome_bind]. destruct (Effects_try modulus iter e); [|done..]. cbn [mbind outcome_bind].
  destruct (ChargedState_update _ _ _ _ _ _ _ _ _) as [[cs cost]| |]; [|done..]. cbn. by destruct (match limit with Some _ => _ | None => _ end).
Qed.

(** What a user gathers the ledger accepts: when a call run to gather its reads
    succeeds, some program with the same instructions and the expected reads
    filled in is accepted by the verifying run in the same context, with the
    same new state and effects, the same gas and the same log. *)
Theorem query_gather_verify (qc : QueryContext Hash) program limit (r : QueryResults Hash (GatherEvent Z)) :
  query_in ResultModeGather qc program limit = Ret r ->
  exists filled, strip filled = program /\
    query_in ResultModeVerify qc filled limit =
    Ret (mkQueryResults _ _ _ _ (qr_context r) (omap read_log (qr_events r)) (qr_gas_cost r)).
Proof.
  unfold query. destruct (vm_run ResultModeGather limit _ program) as [res| |] eqn:Er; [|done..].
  cbn [map_fail mbind outcome_bind]. intros E.
  destruct (run_gather_verifies _ _ _ _ _ _ _ _ _ _ _ _ Er) as (filled & Hs & Ev). exists filled. split; [done|].
  rewrite Ev. cbn [map_fail mbind outcome_bind]. rewrite finish_events, E. done.
Qed.
End query.

(** ** Example *)

Module RuntimeExample.
Definition modulus : Z := 256 ^ 32 - 5.
Definition iter (K V : Type) `{Countable K} (m : gmap K V) : list (K * V) := map_to_list m.
Definition as_child (v : StateValue Z) : ArenaKey Z := Ref 4.
Definition address : ContractAddress := replicate 32 9.
Definition claimed : Effects :=
  mkEffects {[replicate 32 1]} ∅ ∅ {[mkClaimedCall 3 address (replicate 32 2) 77]} {[replicate 32 3 := 100]} ∅
    {[Unshielded (replicate 32 0) := 5]} ∅ {[mkSpendsKey Dust (AddrUser (replicate 32 4)) := 6]}.
Definition context : QueryContext Z :=
  mkQueryContext _ _ _ (mkChargedState _ _ _ VmExample.state DeltaExample.charged1) claimed address
    (mkCallContext address 1000 30 (replicate 32 5) None ∅ ∅ 990).
Definition run {R Event} (mode : ResultMode Z R Event) (program : list (Op Z R)) (limit : option RunningCost) :=
  query modulus VmExample.hash2 (@iter) as_child DeltaExample.backend 32 DeltaExample.keys_of 20 VmExample.nodes
    VmExample.size_of INITIAL_COST_MODEL mode context program limit.

Lemma modulus_ok : 256 ^ 31 <= modulus <= 256 ^ 32.
Proof. vm_compute. split; discriminate. Qed.
Lemma rep_ok b : is_byte b -> hash_ok (replicate 32 b).
Proof. intros Hb. split; [by apply Forall_replicate|done]. Qed.

Lemma claimed_ok : Effects_ok modulus claimed.
Proof.
  split; cbn [claimed_nullifiers claimed_shielded_receives claimed_shielded_spends claimed_contract_calls shielded_mints
    unshielded_mints unshielded_inputs unshielded_outputs claimed_unshielded_spends claimed].
  - apply set_Forall_singleton, rep_ok. unfold is_byte. lia.
  - apply set_Forall_empty.
  - apply set_Forall_empty.
  - apply set_Forall_singleton. split_and!; [cbn; unfold in_u; lia|apply rep_ok; unfold is_byte; lia|apply rep_ok; unfold is_byte; lia|done|done].
  - apply map_Forall_singleton. split; [apply rep_ok; unfold is_byte; lia|unfold in_u; lia].
  - apply map_Forall_empty.
  - apply map_Forall_singleton. split; [apply rep_ok; unfold is_byte; lia|unfold in_u; lia].
  - apply map_Forall_empty.
  - apply map_Forall_singleton. split; [split; [exact I|apply rep_ok; unfold is_byte; lia]|unfold in_u; lia].
Qed.

Abbreviation wf := (loadable 0 (degrade_to_transient modulus)).
Lemma u64_wf x : 0 <= x < 2 ^ 64 -> wf (VmExample.cell x).
Proof. intros Hx. constructor. apply (wf_uint _ in_bound_small); [lia|]. unfold in_u. change (8 * 8) with 64. lia. Qed.

Lemma state_loadable : wf (cs_state (qc_state context)).
Proof.
  constructor; [cbn; lia|]. apply Forall_cons_2; [apply u64_wf; lia|]. apply Forall_cons_2; [|apply Forall_nil_2].
  constructor; [|exact I]. split; [cbn; lia|]. eexists. reflexivity.
Qed.

Lemma context_ok : QueryContext_ok modulus DeltaExample.backend context.
Proof.
  split; [split| | |].
  - apply loadable_wf, state_loadable.
  - apply DeltaExample.charged1_accurate.
  - apply claimed_ok.
  - apply rep_ok. unfold is_byte. lia.
  - split; [cbn; unfold in_u; lia|cbn; unfold in_u; lia|apply (rep_ok 5); unfold is_byte; lia|exact I
           |apply map_Forall_empty|apply map_Forall_empty|cbn; unfold in_u; lia].
Qed.

Lemma increment_ops_ok : Forall (op_loadable 0 (degrade_to_transient modulus)) VmExample.increment.
Proof.
  assert (Hk : Forall (fun k => match k with KValue v => cell_wf in_bound v | KStack => True end) [KValue (av_of_uint 1 0)])
    by (apply Forall_cons_2; [apply VmExample.u8_cell; lia|apply Forall_nil_2]).
  repeat (apply Forall_cons_2; [split; cbn [op_args_nonneg]; try lia; try exact I; try exact Hk; apply u64_wf; lia|]).
  apply Forall_nil_2.
Qed.

Lemma new_state_visible v : exists U, Visible DeltaExample.backend 32 DeltaExample.charged1 U {[as_child v]} 20.
Proof.
  exists DeltaExample.universe.
  apply DeltaExample.example_visible; [by apply (bool_decide_unpack _); vm_compute|by apply (bool_decide_unpack _); vm_compute|vm_compute; reflexivity].
Qed.
End RuntimeExample.

Import RuntimeExample.

Lemma effects_roundtrip_witness :
  Effects_try modulus (@iter) (Effects_into modulus (@iter) claimed) = Ret claimed.
Proof. apply (effects_roundtrip modulus modulus_ok (@iter) (fun _ _ _ _ _ => Permutation_refl _)). apply claimed_ok. Defined.

Lemma query_safe_witness :
  match run ResultModeVerify VmExample.increment None with
  | Ret r => ChargedState_ok modulus DeltaExample.backend (qc_state (qr_context r)) /\ loadable 0 (degrade_to_transient modulus) (cs_state (qc_state (qr_context r)))
  | _ => False
  end.
Proof.
  pose proof (query_safe modulus VmExample.hash2 (@iter) as_child DeltaExample.backend 32 DeltaExample.keys_of 20
    VmExample.nodes VmExample.size_of INITIAL_COST_MODEL (fun _ _ _ _ _ => Permutation_refl _) ltac:(lia)
    (fun _ => Permutation_refl _) DeltaExample.rank DeltaExample.backend_acyclic ResultModeVerify context VmExample.increment None
    ltac:(intros r v; cbn; by case_bool_decide) context_ok
    (Forall_impl _ _ _ increment_ops_ok (fun op => op_loadable_wf 0 (degrade_to_transient modulus) op))
    ltac:(intros res c e s _ _; apply new_state_visible)) as H.
  assert (Hs : (fun _ => tt) <$> run ResultModeVerify VmExample.increment None = Ret tt) by (vm_compute; reflexivity).
  unfold run in *. destruct (query _ _ _ _ _ _ _ _ _ _ _ _ _ _ _); [destruct H as (H1 & _ & _ & _ & _ & H2); exact (conj H1 (H2 state_loadable increment_ops_ok))|discriminate Hs..].
Defined.

Lemma query_metered_witness :
  run ResultModeVerify VmExample.increment (Some (mkRunningCost 1000 1000 1000 1000)) = Fail (Execution OutOfGas).
Proof.
  destruct (query_metered modulus VmExample.hash2 (@iter) as_child DeltaExample.backend 32 DeltaExample.keys_of 20
    VmExample.nodes VmExample.size_of INITIAL_COST_MODEL VmExample.nodes_ok ltac:(intros; unfold VmExample.size_of; lia)
    VmExample.costs_ok ResultModeVerify context VmExample.increment (mkRunningCost 1000 1000 1000 1000) eq_refl
    VmExample.increment_args) as [H _].
  assert (Hs : (fun r => within_bounds (qr_gas_cost r) (mkRunningCost 1000 1000 1000 1000)) <$>
    run ResultModeVerify VmExample.increment None = Ret false) by (vm_compute; reflexivity).
  unfold run in *. destruct (query _ _ _ _ _ _ _ _ _ _ _ _ _ _ None) as [r| |] eqn:E; [|discriminate Hs..].
  injection Hs as Hw. rewrite (H r eq_refl), Hw. reflexivity.
Defined.

Lemma query_gather_verify_witness :
  exists filled r, strip filled = strip VmExample.increment /\ run ResultModeVerify filled None = Ret r.
Proof.
  assert (Hs : (fun _ => tt) <$> run ResultModeGather (strip VmExample.increment) None = Ret tt) by (vm_compute; reflexivity).
  destruct (run ResultModeGather (strip VmExample.increment) None) as [r| |] eqn:E; [|discriminate Hs..]. unfold run in *.
  destruct (query_gather_verify _ _ _ _ _ _ _ _ _ _ _ _ _ _ _ E) as (filled & Hf & Ev).
  eexists filled, _. split; [exact Hf|exact Ev].
Defined.
