(* ===== verification/ZswapOffer.v ===== *)
(** * Zswap offers ([zswap/src/structure.rs], [zswap/src/verify.rs])

    Inputs, outputs and transients, the balance of an offer per token type, the
    normal form, what makes an offer well-formed, and merging.  The parts of the
    proof system are arguments: verification of a proof against a statement, the
    encoding of an input or output as a statement, the curve's group and
    [hash_to_curve].  The derived orders of the data are total orders. *)

From S2P Require Import Prelude MerkleTree Pedersen ZswapMemo.
From stdpp Require Import list sorting countable sets.

Local Open Scope Z_scope.

(** ** Normalizing balances *)

Section deltas.
Context {T : Type} `{!EqDecision T} (tlt : relation T) `{!RelDecision tlt}
  `{!StrictOrder tlt} `{!Trichotomy tlt}.

(** [*map.entry(k).or_insert(0) += v] on a [BTreeMap], kept as a list in key
    order; [i128] addition wraps. *)
Fixpoint btree_add (m : list (T * Z)) (k : T) (v : Z) : list (T * Z) :=
  match m with
  | [] => [(k, wrap_i 128 (0 + v))]
  | (k', v') :: m' =>
      if decide (k = k') then (k', wrap_i 128 (v' + v)) :: m'
      else if decide (tlt k k') then (k, wrap_i 128 (0 + v)) :: m
      else (k', v') :: btree_add m' k v
  end.

(** The order of pairs. *)
Definition delta_le (p q : T * Z) : Prop := tlt p.1 q.1 \/ (p.1 = q.1 /\ p.2 <= q.2).
#[global] Instance delta_le_dec : RelDecision delta_le.
Proof. intros p q. unfold delta_le. apply _. Defined.

Definition normalize_deltas (deltas : list (T * Z)) : list (T * Z) :=
  let new_deltas := foldl (fun map p => btree_add map p.1 p.2) [] deltas in
  let new_deltas := filter (fun p => p.2 <> 0) new_deltas in
  merge_sort delta_le new_deltas.

(** The total of a token type. *)
Definition key_sum (k : T) (l : list (T * Z)) : Z :=
  foldr (fun p n => (if decide (p.1 = k) then p.2 else 0) + n) 0 l.

(** Strictly increasing keys. *)
Definition key_lt (p q : T * Z) : Prop := tlt p.1 q.1.
Abbreviation keys_sorted := (StronglySorted key_lt).

Lemma key_sum_cons k p l : key_sum k (p :: l) = (if decide (p.1 = k) then p.2 else 0) + key_sum k l.
Proof. done. Qed.

Lemma key_sum_app k l1 l2 : key_sum k (l1 ++ l2) = key_sum k l1 + key_sum k l2.
Proof. induction l1 as [|p l1 IH]; [done|]. simpl app. rewrite !key_sum_cons, IH. lia. Qed.

#[global] Instance key_sum_perm k : Proper ((≡ₚ) ==> (=)) (key_sum k).
Proof.
  intros l1 l2 Hp. induction Hp as [|p l1 l2 _ IH|p q l|l1 l2 l3 _ IH1 _ IH2];
    rewrite ?key_sum_cons; lia.
Qed.

Lemma key_sum_above k l : Forall (fun p => tlt k p.1) l -> key_sum k l = 0.
Proof.
  induction 1 as [|p l Hp _ IH]; [done|]. rewrite key_sum_cons, IH.
  rewrite decide_False; [done|]. intros Hk. rewrite Hk in Hp. exact (irreflexivity tlt k Hp).
Qed.

Lemma keys_sorted_above p l : keys_sorted (p :: l) -> Forall (fun q => tlt p.1 q.1) l.
Proof. intros H. by apply StronglySorted_inv in H as [_ H]. Qed.

Lemma btree_add_spec m k v :
  keys_sorted m ->
  keys_sorted (btree_add m k v) /\
  (forall j, Forall (fun q => tlt j q.1) m -> tlt j k -> Forall (fun q => tlt j q.1) (btree_add m k v)) /\
  forall j, key_sum j (btree_add m k v) =
            if decide (j = k) then wrap_i 128 (key_sum j m + v) else key_sum j m.
Proof.
  induction m as [|[k' v'] m IH]; intros Hs; cbn [btree_add].
  - split_and!; [repeat constructor|intros; by repeat constructor|].
    intros j. rewrite key_sum_cons. simpl.
    destruct (decide (k = j)), (decide (j = k)); try congruence; rewrite Z.add_0_r; done.
  - pose proof (keys_sorted_above _ _ Hs) as Hab. apply StronglySorted_inv in Hs as [Hs Hhd].
    destruct (decide (k = k')) as [->|Hne]; [|destruct (decide (tlt k k')) as [Hlt|Hnlt]].
    + split_and!.
      * constructor; done.
      * intros j Hj _. apply Forall_cons in Hj as [Hj1 Hj2]. by constructor.
      * intros j. rewrite !key_sum_cons. simpl. destruct (decide (k' = j)) as [->|]; [|by rewrite decide_False by congruence].
        rewrite decide_True by done. rewrite (key_sum_above j m) by done. by rewrite !Z.add_0_r.
    + assert (Habk : Forall (fun q => tlt k q.1) m).
      { eapply Forall_impl; [exact Hab|]. intros q Hq. simpl in *. by etransitivity. }
      split_and!.
      * constructor; [by constructor|]. constructor; [exact Hlt|exact Habk].
      * intros j Hj Hjk. constructor; [exact Hjk|exact Hj].
      * intros j. rewrite !key_sum_cons. simpl. destruct (decide (k = j)) as [->|].
        -- rewrite (decide_True (P := j = j)), (decide_False (P := k' = j)) by congruence.
           rewrite (key_sum_above j m) by done.
           rewrite !Z.add_0_r. done.
        -- rewrite (decide_False (P := j = k)) by congruence. lia.
    + destruct (IH Hs) as (IHs & IHab & IHk).
      assert (Hk : tlt k' k) by (destruct (trichotomy tlt k k') as [?|[?|?]]; done).
      split_and!.
      * constructor; [done|]. exact (IHab k' Hab Hk).
      * intros j Hj Hjk. apply Forall_cons in Hj as [Hj1 Hj2]. constructor; [exact Hj1|].
        by apply IHab.
      * intros j. rewrite !key_sum_cons, IHk. simpl. 
        destruct (decide (k' = j)) as [->|], (decide (j = k)); try congruence; rewrite ?Z.add_0_l; done.
Qed.

Lemma fold_btree_add l m :
  keys_sorted m -> (forall j, in_i 128 (key_sum j m)) ->
  let r := foldl (fun map p => btree_add map p.1 p.2) m l in
  keys_sorted r /\ forall j, key_sum j r = wrap_i 128 (key_sum j m + key_sum j l).
Proof.
  revert m; induction l as [|[k v] l IH]; intros m Hs Hr; cbn [foldl]; cbv zeta.
  - split; [done|]. intros j. simpl. rewrite Z.add_0_r, wrap_i_small; [done|lia|done].
  - destruct (btree_add_spec m k v Hs) as (Hs' & _ & Hk). cbn [fst snd].
    destruct (IH (btree_add m k v) Hs') as [Hs'' Hk''].
    { intros j. rewrite Hk. destruct (decide (j = k)); [apply wrap_i_range; lia|done]. }
    split; [done|]. intros j. rewrite Hk'', Hk, key_sum_cons. simpl.
    destruct (decide (k = j)) as [->|].
    + rewrite decide_True by done. rewrite wrap_i_add_l by lia. f_equal. lia.
    + by rewrite decide_False by congruence.
Qed.

Lemma filter_nonzero_spec l :
  keys_sorted l ->
  keys_sorted (filter (fun p => p.2 <> 0) l) /\
  forall j, key_sum j (filter (fun p => p.2 <> 0) l) = key_sum j l.
Proof.
  induction 1 as [|p l Hl [IHs IHk] Hp]; [split; [constructor|done]|].
  rewrite filter_cons. destruct (decide (p.2 <> 0)) as [|Hz].
  - split; [|intros j; by rewrite !key_sum_cons, IHk].
    constructor; [done|]. apply Forall_forall. intros q [_ Hq]%list_elem_of_filter.
    by eapply Forall_forall in Hp.
  - split; [done|]. intros j. rewrite IHk, key_sum_cons. apply dec_stable in Hz. rewrite Hz.
    by case_decide.
Qed.

#[global] Instance delta_le_total : Total delta_le.
Proof.
  intros [k v] [k' v']. unfold delta_le. simpl.
  destruct (trichotomy tlt k k') as [?|[->|?]]; [by left; left| |by right; left].
  destruct (decide (v <= v')); [left|right]; right; (split; [done|lia]).
Qed.
#[global] Instance delta_le_trans : Transitive delta_le.
Proof.
  intros [k1 v1] [k2 v2] [k3 v3]. unfold delta_le. simpl.
  intros [H1|[-> H1]] [H2|[-> H2]]; [left; by etransitivity|by left|by left|].
  right. split; [done|lia].
Qed.
#[global] Instance delta_le_antisymm : AntiSymm (=) delta_le.
Proof.
  intros [k v] [k' v']. unfold delta_le. simpl. intros [H1|[-> H1]] [H2|[E H2]]; try subst.
  - exfalso. apply (irreflexivity tlt k). by transitivity k'.
  - destruct (irreflexivity tlt _ H1).
  - destruct (irreflexivity tlt _ H2).
  - f_equal. lia.
Qed.

Lemma keys_sorted_merge_sort l : keys_sorted l -> merge_sort delta_le l = l.
Proof.
  intros Hs. apply (Sorted_unique delta_le).
  - apply Sorted_merge_sort. apply _.
  - apply StronglySorted_Sorted. induction Hs as [|p l Hl IH Hp]; constructor; [done|].
    eapply Forall_impl; [exact Hp|]. intros q Hq. by left.
  - apply merge_sort_Permutation.
Qed.

Abbreviation nonzero := (Forall (fun p : T * Z => p.2 <> 0)).

(** A normal form is determined by its totals. *)
Lemma normal_form_unique l1 l2 :
  keys_sorted l1 -> keys_sorted l2 -> nonzero l1 -> nonzero l2 ->
  (forall j, key_sum j l1 = key_sum j l2) -> l1 = l2.
Proof.
  intros H1; revert l2; induction H1 as [|[k v] l1 H1 IH Hp]; intros l2 H2 N1 N2 Hk.
  - destruct l2 as [|[k v] l2]; [done|]. apply Forall_cons in N2 as [N2 _].
    specialize (Hk k). rewrite key_sum_cons in Hk. simpl in Hk. rewrite decide_True in Hk by done.
    rewrite (key_sum_above k l2) in Hk by apply (keys_sorted_above _ _ H2). simpl in N2. lia.
  - apply Forall_cons in N1 as [Nv N1]. simpl in Nv.
    assert (Hab1 : Forall (fun q => tlt k q.1) l1) by exact Hp.
    destruct l2 as [|[k' v'] l2].
    { specialize (Hk k). rewrite key_sum_cons in Hk. simpl in Hk. rewrite decide_True in Hk by done.
      rewrite (key_sum_above k l1) in Hk by done. lia. }
    pose proof (keys_sorted_above _ _ H2) as Hab2. apply StronglySorted_inv in H2 as [H2 _].
    apply Forall_cons in N2 as [Nv' N2]. simpl in Nv', Hab2.
    assert (Hlow : forall a b l, tlt a b -> Forall (fun q => tlt b q.1) l -> key_sum a l = 0).
    { intros a b l Hab Hl. apply key_sum_above. eapply Forall_impl; [exact Hl|].
      intros q Hq. simpl in *. by etransitivity. }
    destruct (trichotomy tlt k k') as [Hlt|[->|Hlt]].
    + specialize (Hk k). rewrite !key_sum_cons in Hk. simpl in Hk.
      rewrite (decide_True (P := k = k)), (decide_False (P := k' = k)) in Hk
        by (done || (intros ->; destruct (irreflexivity tlt _ Hlt))).
      rewrite (key_sum_above k l1), (Hlow k k' l2) in Hk by done. lia.
    + pose proof (Hk k') as Hk0. rewrite !key_sum_cons in Hk0. simpl in Hk0.
      rewrite !(decide_True (P := k' = k')) in Hk0 by done.
      rewrite (key_sum_above k' l1), (key_sum_above k' l2) in Hk0 by done.
      replace v' with v in * by lia. f_equal. apply IH; [done..|].
      intros j. specialize (Hk j). rewrite !key_sum_cons in Hk. lia.
    + specialize (Hk k'). rewrite !key_sum_cons in Hk. simpl in Hk.
      rewrite (decide_True (P := k' = k')), (decide_False (P := k = k')) in Hk
        by (done || (intros ->; destruct (irreflexivity tlt _ Hlt))).
      rewrite (key_sum_above k' l2), (Hlow k' k l1) in Hk by done. lia.
Qed.

Lemma normalize_deltas_spec l :
  keys_sorted (normalize_deltas l) /\ nonzero (normalize_deltas l) /\
  forall j, key_sum j (normalize_deltas l) = wrap_i 128 (key_sum j l).
Proof.
  unfold normalize_deltas.
  destruct (fold_btree_add l []) as [Hs Hk]; [constructor|intros j; split; done|].
  cbv zeta in *. set (r := foldl _ _ _) in *. clearbody r.
  destruct (filter_nonzero_spec r Hs) as [Hs' Hk'].
  rewrite keys_sorted_merge_sort by done. split_and!; [done| |].
  - apply Forall_forall. by intros p [? _]%list_elem_of_filter.
  - intros j. by rewrite Hk', Hk.
Qed.
End deltas.

(** ** Offers *)

Section offers.
(** Points of the embedded curve; proofs; ciphertexts; token types. *)
Context {Pedersen Proof Ciphertext T : Type} `{!AbelianGroup Pedersen}.
Context (fr_zero : Z) (transient_hash2 : Z -> Z -> Z) (degrade_to_transient : list Z -> Z).

(** Nullifiers, commitments and contract addresses are hashes, byte strings. *)
Record Input := mkInput {
  in_nullifier : list Z;
  in_value_commitment : Pedersen;
  in_contract_address : option (list Z);
  in_merkle_tree_root : Z;
  in_memo : option Memo;
  in_proof : Proof
}.

Record Output := mkOutput {
  out_coin_com : list Z;
  out_value_commitment : Pedersen;
  out_contract_address : option (list Z);
  out_ciphertext : option Ciphertext;
  out_proof : Proof
}.

Record Transient := mkTransient {
  tr_nullifier : list Z;
  tr_coin_com : list Z;
  tr_value_commitment_input : Pedersen;
  tr_value_commitment_output : Pedersen;
  tr_contract_address : option (list Z);
  tr_ciphertext : option Ciphertext;
  tr_proof_input : Proof;
  tr_proof_output : Proof
}.

(** [Delta { token_type, value }]. *)
Local Abbreviation Delta := (T * Z)%type.

Record Offer := mkOffer {
  inputs : list Input;
  outputs : list Output;
  transient : list Transient;
  deltas : list Delta
}.

Definition ZSWAP_TREE_HEIGHT : nat := 32.

(** The root of a tree that has only the transient's commitment. *)
Definition transient_root (coin_com : list Z) : outcome InvalidUpdate Z :=
  t ← try_update_hash (blank ZSWAP_TREE_HEIGHT) 0 coin_com tt;
  rehash_root fr_zero transient_hash2 degrade_to_transient t.

Definition Transient_as_input (t : Transient) : outcome InvalidUpdate Input :=
  match transient_root (tr_coin_com t) with
  | Ret root => mret (mkInput (tr_nullifier t) (tr_value_commitment_input t)
                        (tr_contract_address t) root None (tr_proof_input t))
  | _ => Panic
  end.

Definition Transient_as_output (t : Transient) : Output :=
  mkOutput (tr_coin_com t) (tr_value_commitment_output t) (tr_contract_address t)
    (tr_ciphertext t) (tr_proof_output t).

(** *** The memo rule on an input, from storage and on replacement *)

Definition input_invariant (input : Input) : result MalformedOffer unit :=
  memo_well_formed (in_memo input) (in_contract_address input).

(** [Input::with_memo]: a clone claiming [memo]. *)
Definition Input_with_memo (self : Input) (memo : option Memo) : result MalformedOffer Input :=
  _ ← memo_well_formed memo (in_contract_address self);
  Ok (mkInput (in_nullifier self) (in_value_commitment self) (in_contract_address self)
        (in_merkle_tree_root self) memo (in_proof self)).

(** *** Well-formed inputs and outputs

    [spend_verify] and [output_verify] check a proof against the first element
    of the statement and the rest of it, which [input_statement] and
    [output_statement] make from the remaining fields. *)
Context (modulus memo_domain_sep : Z) (transient_hash : list Z -> Z).
Context (ciphertext_to_field : Ciphertext -> Z).
Context (input_statement : list Z -> Pedersen -> option (list Z) -> Z -> Z -> list Z).
Context (output_statement : list Z -> Pedersen -> option (list Z) -> Z -> list Z).
Context (spend_verify output_verify : Proof -> list Z -> bool).

Definition Input_well_formed (self : Input) (segment : Z) : outcome MalformedOffer unit :=
  _ ← of_result (memo_well_formed (in_memo self) (in_contract_address self));
  first ← memo_statement_element modulus transient_hash memo_domain_sep (in_memo self);
  let statement := first :: input_statement (in_nullifier self) (in_value_commitment self)
                     (in_contract_address self) (in_merkle_tree_root self) segment in
  if spend_verify (in_proof self) statement then mret tt else Fail InvalidProof.

Definition Output_well_formed (self : Output) (segment : Z) : outcome MalformedOffer unit :=
  match out_contract_address self, out_ciphertext self with
  | Some address, Some _ => Fail (ContractSentCiphertext address)
  | _, _ =>
      let msg := match out_ciphertext self with
                 | Some ciph => ciphertext_to_field ciph | None => 0 end in
      let statement := msg :: output_statement (out_coin_com self) (out_value_commitment self)
                         (out_contract_address self) segment in
      if output_verify (out_proof self) statement then mret tt else Fail InvalidProof
  end.

Definition Transient_well_formed (self : Transient) (segment : Z) : outcome MalformedOffer unit :=
  match Transient_as_input self with
  | Ret inp =>
      _ ← Input_well_formed inp segment;
      Output_well_formed (Transient_as_output self) segment
  | _ => Panic
  end.

(** *** Normal form and balance *)

Context `{!EqDecision T} (tlt : relation T) `{!RelDecision tlt} `{!StrictOrder tlt}
  `{!Trichotomy tlt}.
(** The derived orders. *)
Context (ile : relation Input) `{!RelDecision ile}.
Context (ole : relation Output) `{!RelDecision ole}.
Context (tle : relation Transient) `{!RelDecision tle}.
Context `{!EqDecision Input} `{!EqDecision Output} `{!EqDecision Transient}.
(** [hash_to_curve] of a token type in a segment, and the generator. *)
Context (hash_to_curve : T -> Z -> Pedersen) (generator : Pedersen).

Definition Offer_normalize (self : Offer) : Offer :=
  mkOffer (merge_sort ile (inputs self)) (merge_sort ole (outputs self))
    (merge_sort tle (transient self)) (normalize_deltas tlt (deltas self)).

(** [BTreeSet::from_iter]. *)
Definition btree_set {X} `{!EqDecision X} (le : relation X) `{!RelDecision le} (l : list X)
  : list X := merge_sort le (remove_dups l).

Definition is_disjoint {X} `{!EqDecision X} (l1 l2 : list X) : bool :=
  forallb (fun x => negb (bool_decide (x ∈ l2))) l1.

Definition Offer_merge (self other : Offer) : result MalformedOffer Offer :=
  let inputs1 := btree_set ile (inputs self) in
  let inputs2 := btree_set ile (inputs other) in
  let outputs1 := btree_set ole (outputs self) in
  let outputs2 := btree_set ole (outputs other) in
  let transient1 := btree_set tle (transient self) in
  let transient2 := btree_set tle (transient other) in
  if is_disjoint inputs1 inputs2 && is_disjoint outputs1 outputs2
     && is_disjoint transient1 transient2
  then Ok (Offer_normalize (mkOffer (inputs1 ++ inputs2) (outputs1 ++ outputs2)
                              (transient1 ++ transient2) (deltas self ++ deltas other)))
  else Err NonDisjointCoinMerge.

(** [is_sorted] and [windows(2).all(..)]. *)
Fixpoint all_adjacent {X} (p : X -> X -> bool) (l : list X) : bool :=
  match l with
  | x :: ((y :: _) as l') => p x y && all_adjacent p l'
  | _ => true
  end.

Definition memos_well_formed (offer : Offer) : result MalformedOffer unit :=
  try_for_each (fun input => memo_well_formed (in_memo input) (in_contract_address input))
    (inputs offer).

Definition offer_well_formed_common (offer : Offer) (segment : Z)
  : result MalformedOffer Pedersen :=
  if negb (all_adjacent (fun x y => bool_decide (ile x y)) (inputs offer))
     || negb (all_adjacent (fun x y => bool_decide (ole x y)) (outputs offer))
     || negb (all_adjacent (fun x y => bool_decide (tle x y)) (transient offer))
     || negb (all_adjacent (fun x y => bool_decide (tlt x.1 y.1)) (deltas offer))
     || negb (forallb (fun d => negb (d.2 =? 0)) (deltas offer))
  then Err NotNormalized
  else
    _ ← memos_well_formed offer;
    let io_com := gsum ((in_value_commitment <$> inputs offer)
                  ++ ((fun o => gneg (out_value_commitment o)) <$> outputs offer)
                  ++ ((fun io => gadd (tr_value_commitment_input io)
                                      (gneg (tr_value_commitment_output io)))
                      <$> transient offer)) in
    let deltas_com := gsum ((fun d => Pedersen_commit (hash_to_curve d.1 segment) generator d.2 0)
                            <$> deltas offer) in
    Ok (gadd io_com (gneg deltas_com)).

(** [Offer<Proof>::well_formed]: structure first, then the proofs. *)
Fixpoint try_all {X} (f : X -> outcome MalformedOffer unit) (l : list X)
  : outcome MalformedOffer unit :=
  match l with [] => mret tt | x :: l' => _ ← f x; try_all f l' end.

Definition Offer_well_formed (self : Offer) (segment : Z) : outcome MalformedOffer Pedersen :=
  excess ← of_result (offer_well_formed_common self segment);
  _ ← try_all (fun i => Input_well_formed i segment) (inputs self);
  _ ← try_all (fun o => Output_well_formed o segment) (outputs self);
  _ ← try_all (fun t => Transient_well_formed t segment) (transient self);
  mret excess.

(** *** Lemmas: balances as group elements *)

Definition delta_com (segment : Z) (d : T * Z) : Pedersen :=
  Pedersen_commit (hash_to_curve d.1 segment) generator d.2 0.

Lemma delta_com_zmul segment d : delta_com segment d = zmul d.2 (hash_to_curve d.1 segment).
Proof. unfold delta_com, Pedersen_commit. by rewrite zmul_0, gadd_zero_l. Qed.

Lemma gsum_same_key segment (k : T) (l : list (T * Z)) :
  gsum (delta_com segment <$> filter (fun d => d.1 = k) l)
  = zmul (key_sum k l) (hash_to_curve k segment).
Proof.
  induction l as [|d l IH]; [done|]. rewrite filter_cons, key_sum_cons.
  destruct (decide (d.1 = k)) as [<-|]; [|by rewrite IH, Z.add_0_l].
  rewrite fmap_cons, gsum_cons, IH, zmul_add, delta_com_zmul. done.
Qed.

Lemma key_sum_filter_ne (k j : T) (l : list (T * Z)) :
  key_sum j (filter (fun d => d.1 <> k) l) = if decide (j = k) then 0 else key_sum j l.
Proof.
  induction l as [|d l IH]; [by case_decide|]. rewrite filter_cons, key_sum_cons.
  destruct (decide (d.1 <> k)) as [Hne|He%dec_stable].
  - rewrite key_sum_cons, IH. repeat case_decide; subst; try done; lia.
  - rewrite IH. repeat case_decide; subst; try done; lia.
Qed.

(** Deltas that cancel per token type commit to nothing. *)
Lemma gsum_zero_sums segment (l : list (T * Z)) :
  (forall k, key_sum k l = 0) -> gsum (delta_com segment <$> l) = gzero.
Proof.
  clear fr_zero transient_hash2 degrade_to_transient.
  remember (length l) as n eqn:Hn. revert l Hn.
  induction (lt_wf n) as [n _ IH]. intros l -> Hz. destruct l as [|d l]; [done|].
  set (k := d.1).
  assert (Hp : d :: l ≡ₚ filter (fun e => e.1 = k) (d :: l) ++ filter (fun e => e.1 <> k) (d :: l)).
  { by rewrite filter_app_complement. }
  rewrite Hp, fmap_app, gsum_app, gsum_same_key, Hz, zmul_0, gadd_zero_l.
  eapply (IH (length (filter (fun e => e.1 <> k) (d :: l)))); [|done|].
  - rewrite filter_cons, decide_False by (unfold k; tauto). simpl.
    pose proof (length_filter (fun e => e.1 <> k) l). lia.
  - intros j. rewrite key_sum_filter_ne, Hz. by case_decide.
Qed.

Lemma key_sum_opp (k : T) (l : list (T * Z)) : key_sum k ((fun d => (d.1, - d.2)) <$> l) = - key_sum k l.
Proof.
  induction l as [|d l IH]; [done|]. rewrite fmap_cons, !key_sum_cons, IH. simpl. case_decide; lia.
Qed.

Lemma gsum_opp segment (l : list (T * Z)) :
  gsum (delta_com segment <$> ((fun d => (d.1, - d.2)) <$> l)) = gneg (gsum (delta_com segment <$> l)).
Proof.
  induction l as [|d l IH]; [symmetry; apply gneg_zero|].
  rewrite !fmap_cons, !gsum_cons, IH, gneg_add, !delta_com_zmul. simpl. by rewrite zmul_opp.
Qed.

(** The commitment to the deltas depends on the totals per token type alone. *)
Lemma gsum_same_sums segment (l1 l2 : list (T * Z)) :
  (forall k, key_sum k l1 = key_sum k l2) ->
  gsum (delta_com segment <$> l1) = gsum (delta_com segment <$> l2).
Proof.
  clear fr_zero transient_hash2 degrade_to_transient.
  intros Hs.
  assert (Hz : gsum (delta_com segment <$> (l1 ++ ((fun d => (d.1, - d.2)) <$> l2))) = gzero).
  { apply gsum_zero_sums. intros k. rewrite key_sum_app, key_sum_opp, Hs. lia. }
  rewrite fmap_app, gsum_app, gsum_opp, gadd_comm in Hz. apply gneg_unique in Hz.
  by rewrite Hz, gneg_neg.
Qed.

(** *** Lemmas: normal form *)

Lemma all_adjacent_Sorted {X} (R : relation X) `{!RelDecision R} l :
  all_adjacent (fun x y => bool_decide (R x y)) l = true <-> Sorted R l.
Proof.
  induction l as [|x l IH]; [split; [constructor|done]|].
  destruct l as [|y l]; [split; [repeat constructor|done]|].
  cbn [all_adjacent]. rewrite andb_true_iff, IH, bool_decide_eq_true. split.
  - intros [Hxy Hs]. constructor; [done|]. by constructor.
  - intros Hs. apply Sorted_inv in Hs as [Hs Hh]. apply HdRel_inv in Hh. done.
Qed.

Definition io_commitments (offer : Offer) : list Pedersen :=
  (in_value_commitment <$> inputs offer)
  ++ ((fun o => gneg (out_value_commitment o)) <$> outputs offer)
  ++ ((fun io => gadd (tr_value_commitment_input io) (gneg (tr_value_commitment_output io)))
      <$> transient offer).

Definition excess (offer : Offer) (segment : Z) : Pedersen :=
  gadd (gsum (io_commitments offer)) (gneg (gsum (delta_com segment <$> deltas offer))).

Definition normalized (offer : Offer) : Prop :=
  Sorted ile (inputs offer) /\ Sorted ole (outputs offer) /\ Sorted tle (transient offer) /\
  Sorted (fun x y => tlt x.1 y.1) (deltas offer) /\
  Forall (fun d => d.2 <> 0) (deltas offer).

Definition memo_rule (i : Input) : Prop :=
  memo_well_formed (in_memo i) (in_contract_address i) = Ok tt.

(** What [offer_well_formed_common] accepts, and what it returns. *)
Lemma offer_well_formed_common_spec offer segment e :
  offer_well_formed_common offer segment = Ok e <->
  normalized offer /\ Forall memo_rule (inputs offer) /\ e = excess offer segment.
Proof.
  clear fr_zero transient_hash2 degrade_to_transient.
  unfold offer_well_formed_common, normalized.
  set (b1 := all_adjacent _ (inputs offer)). set (b2 := all_adjacent _ (outputs offer)).
  set (b3 := all_adjacent _ (transient offer)). set (b4 := all_adjacent _ (deltas offer)).
  set (b5 := forallb _ (deltas offer)).
  assert (H1 : b1 = true <-> Sorted ile (inputs offer)) by apply all_adjacent_Sorted.
  assert (H2 : b2 = true <-> Sorted ole (outputs offer)) by apply all_adjacent_Sorted.
  assert (H3 : b3 = true <-> Sorted tle (transient offer)) by apply all_adjacent_Sorted.
  assert (H4 : b4 = true <-> Sorted (fun x y => tlt x.1 y.1) (deltas offer))
    by apply (all_adjacent_Sorted (fun x y => tlt x.1 y.1)).
  assert (H5 : b5 = true <-> Forall (fun d => d.2 <> 0) (deltas offer)).
  { unfold b5. rewrite forallb_forall, Forall_forall. split.
    - intros Hf d Hd%list_elem_of_In. specialize (Hf d Hd). lia.
    - intros Hf d Hd%list_elem_of_In. specialize (Hf d Hd). lia. }
  rewrite <- H1, <- H2, <- H3, <- H4, <- H5. clearbody b1 b2 b3 b4 b5.
  destruct (negb b1 || negb b2 || negb b3 || negb b4 || negb b5) eqn:Hn.
  { split; [done|]. intros ((-> & -> & -> & -> & ->) & _). done. }
  rewrite !orb_false_iff, !negb_false_iff in Hn.
  destruct (memos_well_formed offer) as [[]|e'] eqn:Hm.
  - simpl. unfold memos_well_formed in Hm. rewrite try_for_each_Ok in Hm. split.
    + intros [= <-]. split_and!; (done || tauto).
    + intros (_ & _ & ->). done.
  - simpl. split; [done|]. intros (_ & Hf & _).
    unfold memos_well_formed in Hm. apply try_for_each_Ok in Hf. congruence.
Qed.

Lemma is_disjoint_spec {X} `{!EqDecision X} (l1 l2 : list X) :
  is_disjoint l1 l2 = true <-> forall x, x ∈ l1 -> x ∉ l2.
Proof.
  unfold is_disjoint. rewrite forallb_forall. split.
  - intros Hf x Hx%list_elem_of_In. specialize (Hf x Hx).
    by apply negb_true_iff, bool_decide_eq_false in Hf.
  - intros Hf x Hx%list_elem_of_In. apply negb_true_iff, bool_decide_eq_false. by apply Hf.
Qed.

Lemma btree_set_NoDup {X} `{!EqDecision X} (le : relation X) `{!RelDecision le} (l : list X) :
  NoDup l -> btree_set le l ≡ₚ l.
Proof.
  intros Hn. unfold btree_set. rewrite merge_sort_Permutation.
  apply NoDup_Permutation; [apply NoDup_remove_dups|done|]. intros x. apply elem_of_remove_dups.
Qed.

(** *** Merging *)

Context `{!Total ile} `{!Transitive ile} `{!AntiSymm (=) ile}.
Context `{!Total ole} `{!Transitive ole} `{!AntiSymm (=) ole}.
Context `{!Total tle} `{!Transitive tle} `{!AntiSymm (=) tle}.

Lemma Offer_normalize_normalized offer : normalized (Offer_normalize offer).
Proof.
  unfold normalized, Offer_normalize. cbn [inputs outputs transient deltas].
  destruct (normalize_deltas_spec tlt (deltas offer)) as (Hs & Hn & _).
  split_and!; try (apply Sorted_merge_sort; apply _); [by apply StronglySorted_Sorted|done].
Qed.

(** Both offers list each coin once. *)
Definition coins_distinct (offer : Offer) : Prop :=
  NoDup (inputs offer) /\ NoDup (outputs offer) /\ NoDup (transient offer).

Definition coins_disjoint (a b : Offer) : Prop :=
  (forall x, x ∈ inputs a -> x ∉ inputs b) /\ (forall x, x ∈ outputs a -> x ∉ outputs b) /\
  (forall x, x ∈ transient a -> x ∉ transient b).

Lemma btree_set_disjoint {X} `{!EqDecision X} (le : relation X) `{!RelDecision le} (l1 l2 : list X) :
  is_disjoint (btree_set le l1) (btree_set le l2) = true <-> forall x, x ∈ l1 -> x ∉ l2.
Proof.
  rewrite is_disjoint_spec.
  assert (Hm : forall l x, x ∈ btree_set le l <-> x ∈ l).
  { intros l x. unfold btree_set. rewrite merge_sort_Permutation. apply elem_of_remove_dups. }
  split.
  - intros Hd x H1 H2. apply (Hd x); by apply Hm.
  - intros Hd x H1 H2. apply (Hd x); by apply Hm.
Qed.

Lemma Offer_merge_disjoint a b :
  coins_disjoint a b ->
  Offer_merge a b =
    Ok (Offer_normalize (mkOffer (btree_set ile (inputs a) ++ btree_set ile (inputs b))
                           (btree_set ole (outputs a) ++ btree_set ole (outputs b))
                           (btree_set tle (transient a) ++ btree_set tle (transient b))
                           (deltas a ++ deltas b))).
Proof.
  intros (H1 & H2 & H3). unfold Offer_merge.
  by rewrite (proj2 (btree_set_disjoint ile _ _) H1), (proj2 (btree_set_disjoint ole _ _) H2),
    (proj2 (btree_set_disjoint tle _ _) H3).
Qed.

Lemma Offer_merge_Ok a b m : Offer_merge a b = Ok m -> coins_disjoint a b.
Proof.
  unfold Offer_merge. destruct (_ && _) eqn:E; [|done]. intros _.
  rewrite !andb_true_iff in E. destruct E as ((H1 & H2) & H3).
  split_and!; [exact (proj1 (btree_set_disjoint ile _ _) H1)
    |exact (proj1 (btree_set_disjoint ole _ _) H2)|exact (proj1 (btree_set_disjoint tle _ _) H3)].
Qed.

Lemma coins_disjoint_sym a b : coins_disjoint a b -> coins_disjoint b a.
Proof.
  intros (H1 & H2 & H3). split_and!; intros x Hx Hy.
  - exact (H1 x Hy Hx).
  - exact (H2 x Hy Hx).
  - exact (H3 x Hy Hx).
Qed.

(** Merging does not depend on the order of the two offers. *)
Lemma Offer_merge_comm a b : Offer_merge a b = Offer_merge b a.
Proof.
  destruct (Offer_merge a b) as [m|e] eqn:E1.
  - pose proof (Offer_merge_Ok _ _ _ E1) as Hd. rewrite Offer_merge_disjoint in E1 by done.
    rewrite Offer_merge_disjoint by by apply coins_disjoint_sym. rewrite <- E1. f_equal.
    unfold Offer_normalize. cbn [inputs outputs transient deltas].
    assert (Hms : forall X (le : relation X) `{!RelDecision le} `{!Total le} `{!Transitive le}
      `{!AntiSymm (=) le} (l1 l2 : list X), merge_sort le (l1 ++ l2) = merge_sort le (l2 ++ l1)).
    { intros X le ? ? ? ? l1 l2. apply (Sorted_unique le); try (apply Sorted_merge_sort; done).
      rewrite !merge_sort_Permutation. apply Permutation_app_comm. }
    f_equal; [by apply Hms..|].
    destruct (normalize_deltas_spec tlt (deltas a ++ deltas b)) as (S1 & N1 & K1).
    destruct (normalize_deltas_spec tlt (deltas b ++ deltas a)) as (S2 & N2 & K2).
    apply (normal_form_unique tlt); [done..|]. intros j. rewrite K1, K2, !key_sum_app.
    f_equal. lia.
  - destruct (Offer_merge b a) as [m|e'] eqn:E2.
    + apply Offer_merge_Ok, coins_disjoint_sym in E2. by rewrite Offer_merge_disjoint in E1.
    + unfold Offer_merge in E1, E2. repeat case_match; simplify_eq/=. done.
Qed.

Lemma merged_perm {X} `{!EqDecision X} (le : relation X) `{!RelDecision le} (l1 l2 : list X) :
  NoDup l1 -> NoDup l2 -> merge_sort le (btree_set le l1 ++ btree_set le l2) ≡ₚ l1 ++ l2.
Proof. intros H1 H2. by rewrite merge_sort_Permutation, !btree_set_NoDup. Qed.

Lemma io_commitments_perm a b m :
  inputs m ≡ₚ inputs a ++ inputs b -> outputs m ≡ₚ outputs a ++ outputs b ->
  transient m ≡ₚ transient a ++ transient b ->
  gsum (io_commitments m) = gadd (gsum (io_commitments a)) (gsum (io_commitments b)).
Proof.
  intros H1 H2 H3. rewrite <- gsum_app. apply gsum_perm. unfold io_commitments.
  rewrite H1, H2, H3, !fmap_app. solve_Permutation.
Qed.

Lemma try_all_Ret {X} (f : X -> outcome MalformedOffer unit) l :
  try_all f l = Ret tt <-> Forall (fun x => f x = Ret tt) l.
Proof.
  induction l as [|x l IH]; [split; [constructor|done]|]. cbn [try_all]. rewrite Forall_cons.
  destruct (f x) as [[]|e|]; simpl; [rewrite IH; tauto|split; [done|by intros [? _]]..].
Qed.

(** *** Properties *)

(** Merging two well-formed offers whose coins are distinct gives a
    well-formed offer with the coins of both, the sum of the balances per token
    type and the sum of the Pedersen excesses, provided no balance leaves the
    [i128] range. *)
Theorem offer_merge_well_formed (a b : Offer) (segment : Z) (ea eb : Pedersen) :
  offer_well_formed_common a segment = Ok ea ->
  offer_well_formed_common b segment = Ok eb ->
  coins_distinct a -> coins_distinct b -> coins_disjoint a b ->
  (forall k, in_i 128 (key_sum k (deltas a) + key_sum k (deltas b))) ->
  exists m, Offer_merge a b = Ok m /\
    offer_well_formed_common m segment = Ok (gadd ea eb) /\
    inputs m ≡ₚ inputs a ++ inputs b /\ outputs m ≡ₚ outputs a ++ outputs b /\
    transient m ≡ₚ transient a ++ transient b /\
    forall k, key_sum k (deltas m) = key_sum k (deltas a) + key_sum k (deltas b).
Proof.
  clear fr_zero transient_hash2 degrade_to_transient.
  intros Ha Hb (NA1 & NA2 & NA3) (NB1 & NB2 & NB3) Hd Hr.
  apply offer_well_formed_common_spec in Ha as (_ & Ma & ->).
  apply offer_well_formed_common_spec in Hb as (_ & Mb & ->).
  rewrite Offer_merge_disjoint by done. eexists. split; [done|].
  set (m := Offer_normalize _).
  assert (P1 : inputs m ≡ₚ inputs a ++ inputs b) by by apply merged_perm.
  assert (P2 : outputs m ≡ₚ outputs a ++ outputs b) by by apply merged_perm.
  assert (P3 : transient m ≡ₚ transient a ++ transient b) by by apply merged_perm.
  assert (Hk : forall k, key_sum k (deltas m) = key_sum k (deltas a) + key_sum k (deltas b)).
  { intros k. destruct (normalize_deltas_spec tlt (deltas a ++ deltas b)) as (_ & _ & K).
    cbn [m Offer_normalize deltas]. rewrite K, key_sum_app. apply wrap_i_small; [lia|apply Hr]. }
  split_and!; [|done..]. apply offer_well_formed_common_spec. split_and!.
  - apply Offer_normalize_normalized.
  - rewrite P1. by apply Forall_app.
  - unfold excess. rewrite (io_commitments_perm a b m) by done.
    rewrite (gsum_same_sums segment (deltas m) (deltas a ++ deltas b))
      by (intros k; by rewrite Hk, key_sum_app).
    by rewrite fmap_app, gsum_app, gneg_add, gadd_swap.
Qed.

(** Merging is symmetric, errors included; and it fails exactly when the two
    offers share a coin. *)
Theorem offer_merge_symmetric (a b : Offer) :
  Offer_merge a b = Offer_merge b a /\
  (Offer_merge a b = Err NonDisjointCoinMerge <-> ~ coins_disjoint a b).
Proof.
  split; [apply Offer_merge_comm|]. split.
  - intros E Hd. by rewrite Offer_merge_disjoint in E.
  - intros Hd. unfold Offer_merge. destruct (_ && _) eqn:E; [|done].
    rewrite !andb_true_iff in E. destruct E as ((H1 & H2) & H3). destruct Hd.
    split_and!; [exact (proj1 (btree_set_disjoint ile _ _) H1)
      |exact (proj1 (btree_set_disjoint ole _ _) H2)|exact (proj1 (btree_set_disjoint tle _ _) H3)].
Qed.

(** C34. What a verified offer guarantees: it is in normal form; every input
    obeys the memo rule and its spend proof was verified against a statement
    that starts with the element of its own memo; no output to a contract
    carries a ciphertext; and the returned excess is the balance of the value
    commitments minus the commitment to the declared deltas. *)
Theorem offer_well_formed_sound (o : Offer) (segment : Z) (e : Pedersen) :
  Offer_well_formed o segment = Ret e ->
  normalized o /\ e = excess o segment /\
  (forall i, i ∈ inputs o -> memo_rule i /\
     exists first, memo_statement_element modulus transient_hash memo_domain_sep (in_memo i) = Ret first /\
       spend_verify (in_proof i) (first :: input_statement (in_nullifier i) (in_value_commitment i)
         (in_contract_address i) (in_merkle_tree_root i) segment) = true) /\
  (forall out, out ∈ outputs o -> out_contract_address out = None \/ out_ciphertext out = None) /\
  (forall t, t ∈ transient o -> tr_contract_address t = None \/ tr_ciphertext t = None).
Proof.
  unfold Offer_well_formed.
  destruct (offer_well_formed_common o segment) as [e'|] eqn:E1; [|done]. cbn [of_result mbind outcome_bind].
  intros ([] & Hi & ([] & Ho & ([] & Ht & [= <-])%outcome_bind_Ret)%outcome_bind_Ret)%outcome_bind_Ret.
  apply offer_well_formed_common_spec in E1 as (Hn & Hm & ->).
  rewrite try_all_Ret, Forall_forall in Hi. rewrite try_all_Ret, Forall_forall in Ho.
  rewrite try_all_Ret, Forall_forall in Ht. rewrite Forall_forall in Hm.
  assert (Hout : forall out, Output_well_formed out segment = Ret tt ->
    out_contract_address out = None \/ out_ciphertext out = None).
  { intros out Hw. unfold Output_well_formed in Hw.
    destruct (out_contract_address out), (out_ciphertext out); by auto. }
  split_and!; [done|done| | |].
  - intros i Hin. specialize (Hi i Hin). split; [by apply Hm|].
    unfold Input_well_formed in Hi.
    apply outcome_bind_Ret in Hi as (_ & _ & (first & Hf & Hv)%outcome_bind_Ret).
    exists first. split; [done|]. cbv zeta in Hv. by destruct (spend_verify _ _).
  - intros out Hin. by apply Hout, Ho.
  - intros t Hin. specialize (Ht t Hin). unfold Transient_well_formed in Ht.
    destruct (Transient_as_input t); [|done..].
    apply outcome_bind_Ret in Ht as (_ & _ & Hw). by apply Hout in Hw.
Qed.
End offers.

(** Normalizing balances is canonical: the result has strictly increasing
    token types, no zero entry, and for each token type the total of the deltas
    in [i128] arithmetic; deltas with the same totals normalize to the same list. *)
Theorem normalize_deltas_canonical {T} `{!EqDecision T} (tlt : relation T) `{!RelDecision tlt}
  `{!StrictOrder tlt} `{!Trichotomy tlt} (l l' : list (T * Z)) :
  StronglySorted (key_lt tlt) (normalize_deltas tlt l) /\
  Forall (fun p => p.2 <> 0) (normalize_deltas tlt l) /\
  (forall k, key_sum k (normalize_deltas tlt l) = wrap_i 128 (key_sum k l)) /\
  ((forall k, key_sum k l = key_sum k l') -> normalize_deltas tlt l = normalize_deltas tlt l').
Proof.
  destruct (normalize_deltas_spec tlt l) as (S1 & N1 & K1).
  destruct (normalize_deltas_spec tlt l') as (S2 & N2 & K2).
  split_and!; [done..|]. intros Hk. apply (normal_form_unique tlt); [done..|].
  intros j. by rewrite K1, K2, Hk.
Qed.

#[local] Instance Zlt_dec : RelDecision Z.lt := Z.lt_dec.
#[local] Instance Zlt_trichotomy : Trichotomy Z.lt.
Proof. intros x y. destruct (Z.lt_trichotomy x y) as [?|[?|?]]; auto. Qed.

Lemma normalize_deltas_canonical_witness :
  normalize_deltas Z.lt [(2, 5); (1, 7); (2, -5)] = [(1, 7)] /\
  normalize_deltas Z.lt [(2, 5); (1, 7); (2, -5)] = normalize_deltas Z.lt [(1, 3); (1, 4)].
Proof.
  split; [vm_compute; reflexivity|].
  apply (normalize_deltas_canonical Z.lt [(2, 5); (1, 7); (2, -5)] [(1, 3); (1, 4)]).
  intros k. unfold key_sum. simpl. repeat case_decide; lia.
Defined.

(** Any countable type is totally ordered by its encoding; with it, an instance
    of the offers for the examples: a group, proofs and ciphertexts of integers. *)
Definition enc_le {X} `{Countable X} (x y : X) : Prop := (encode x <= encode y)%positive.
#[export] Instance enc_le_dec {X} `{Countable X} : RelDecision (@enc_le X _ _).
Proof. intros x y. unfold enc_le. apply _. Defined.
#[export] Instance enc_le_total {X} `{Countable X} : Total (@enc_le X _ _).
Proof. intros x y. unfold enc_le. lia. Qed.
#[export] Instance enc_le_trans {X} `{Countable X} : Transitive (@enc_le X _ _).
Proof. intros x y z. unfold enc_le. lia. Qed.
#[export] Instance enc_le_antisymm {X} `{Countable X} : AntiSymm (=) (@enc_le X _ _).
Proof. intros x y H1 H2. apply (inj encode). unfold enc_le in *. lia. Qed.

Module OfferExample.
Abbreviation Inp := (@Input Z Z).
Abbreviation Outp := (@Output Z Z Z).
Abbreviation Trans := (@Transient Z Z Z).
Abbreviation Off := (@Offer Z Z Z Z).

#[export] Instance Inp_eq_dec : EqDecision Inp.
Proof. solve_decision. Defined.
#[export] Instance Outp_eq_dec : EqDecision Outp.
Proof. solve_decision. Defined.
#[export] Instance Trans_eq_dec : EqDecision Trans.
Proof. solve_decision. Defined.

#[export] Instance Inp_countable : Countable Inp.
Proof.
  refine (inj_countable'
    (fun i : Inp => (in_nullifier i, in_value_commitment i, in_contract_address i,
                     in_merkle_tree_root i, (in_memo i : option (list Z)), in_proof i))
    (fun p => let '(a, b, c, d, e, f) := p in mkInput a b c d e f) _). by intros [].
Defined.
#[export] Instance Outp_countable : Countable Outp.
Proof.
  refine (inj_countable'
    (fun o : Outp => (out_coin_com o, out_value_commitment o, out_contract_address o,
                      out_ciphertext o, out_proof o))
    (fun p => let '(a, b, c, d, e) := p in mkOutput a b c d e) _). by intros [].
Defined.
#[export] Instance Trans_countable : Countable Trans.
Proof.
  refine (inj_countable'
    (fun t : Trans => (tr_nullifier t, tr_coin_com t, tr_value_commitment_input t,
       tr_value_commitment_output t, tr_contract_address t, tr_ciphertext t,
       tr_proof_input t, tr_proof_output t))
    (fun p => let '(a, b, c, d, e, f, g, h) := p in mkTransient a b c d e f g h) _). by intros [].
Defined.

(** Two offers: one spends 10 of token 1, one creates 4 of it. *)
Definition inp : Inp := mkInput [1] 10 None 7 (Some [104; 105]) 0.
Definition outp : Outp := mkOutput [2] 4 None None 0.
Definition a : Off := mkOffer [inp] [] [] [(1, 10)].
Definition b : Off := mkOffer [] [outp] [] [(1, -4)].

Abbreviation common := (offer_well_formed_common Z.lt enc_le enc_le enc_le (fun k s => k) 0).
Abbreviation merge := (Offer_merge Z.lt enc_le enc_le enc_le).
Abbreviation well_formed :=
  (Offer_well_formed 0 Z.add (fun _ => 3) (2 ^ 255) 5 (fun l => 1 + Z.of_nat (length l)) (fun c => c)
     (fun n v c r s => [r; s]) (fun n v c s => [s]) (fun p s => true) (fun p s => true)
     Z.lt enc_le enc_le enc_le (fun k s => k) 0).
End OfferExample.
#[local] Existing Instances OfferExample.Inp_eq_dec OfferExample.Outp_eq_dec OfferExample.Trans_eq_dec
  OfferExample.Inp_countable OfferExample.Outp_countable OfferExample.Trans_countable.

Lemma offer_merge_well_formed_witness :
  exists m, OfferExample.merge OfferExample.a OfferExample.b = Ok m /\
    OfferExample.common m 0 = Ok (0 + 0) /\
    (forall k, key_sum k (deltas m) = key_sum k (deltas OfferExample.a) + key_sum k (deltas OfferExample.b)).
Proof.
  destruct (offer_merge_well_formed Z.lt enc_le enc_le enc_le (fun k s => k) 0
              OfferExample.a OfferExample.b 0 0 0) as (m & E & W & _ & _ & _ & K).
  - vm_compute. reflexivity.
  - vm_compute. reflexivity.
  - split_and!; repeat constructor; set_solver.
  - split_and!; repeat constructor; set_solver.
  - split_and!; intros x Hx; set_solver.
  - intros k. unfold key_sum. simpl. repeat case_decide; split; vm_compute; congruence.
  - exists m. split; [exact E|]. split; [exact W|exact K].
Defined.

Lemma offer_merge_symmetric_witness :
  OfferExample.merge OfferExample.a OfferExample.a = Err NonDisjointCoinMerge.
Proof.
  apply (offer_merge_symmetric Z.lt enc_le enc_le enc_le OfferExample.a OfferExample.a).
  intros [H _]. apply (H OfferExample.inp); left.
Defined.

Lemma offer_well_formed_sound_witness :
  memo_rule OfferExample.inp /\
  OfferExample.well_formed OfferExample.a 0 = Ret 0.
Proof.
  split; [|vm_compute; reflexivity].
  apply (offer_well_formed_sound 0 Z.add (fun _ => 3) (2 ^ 255) 5 (fun l => 1 + Z.of_nat (length l))
    (fun c => c) (fun n v c r s => [r; s]) (fun n v c s => [s]) (fun p s => true) (fun p s => true)
    Z.lt enc_le enc_le enc_le (fun k s => k) 0 OfferExample.a 0 0).
  - vm_compute. reflexivity.
  - left.
Defined.
