(* ===== verification/ZswapLedger.v ===== *)
(** * The Zswap ledger state ([zswap/src/ledger.rs], [zswap/src/error.rs])

    The shared state of shielded coins: the Merkle tree of coin commitments with
    the set of those commitments, the spent nullifiers, and the recent roots a
    spend may refer to.  Applying an offer spends its inputs, then adds its
    outputs and transients.  A state may follow only some contracts (a
    whitelist), in which case it collapses the coins of others. *)

From S2P Require Import Prelude MerkleTree Storage Pedersen ZswapMemo ZswapOffer.
From stdpp Require Import list gmap sorting.

Local Open Scope Z_scope.

Inductive TransactionInvalid :=
| NullifierAlreadyPresent (nul : list Z)
| CommitmentAlreadyPresent (com : list Z)
| UnknownMerkleRoot (root : Z)
| MerkleTreeError (err : InvalidUpdate).

#[export] Instance TransactionInvalid_eq_dec : EqDecision TransactionInvalid.
Proof. solve_decision. Defined.

Abbreviation ContractAddress := (list Z) (only parsing).
Abbreviation whitelist_t := (option (gset (list Z))).

Section Ledger.
Context {Pedersen Proof Ciphertext T : Type}.
Context (fr_zero : Z) (transient_hash2 : Z -> Z -> Z) (degrade_to_transient : list Z -> Z).

Local Abbreviation Inp := (@Input Pedersen Proof).
Local Abbreviation Outp := (@Output Pedersen Proof Ciphertext).
Local Abbreviation Trans := (@Transient Pedersen Proof Ciphertext).
Local Abbreviation Off := (@Offer Pedersen Proof Ciphertext T).
Local Abbreviation Tree := (@MerkleTreeNode (list Z) Z (option (list Z))).
Local Abbreviation Rep := (Rep fr_zero transient_hash2 degrade_to_transient).
Local Abbreviation collapse := (collapse fr_zero transient_hash2 degrade_to_transient).
Local Abbreviation mroot := (mroot fr_zero transient_hash2 degrade_to_transient).

Record State := mkState {
  coin_coms : Tree;
  coin_coms_set : gset (list Z);
  first_free : Z;
  nullifiers : gset (list Z);
  past_roots : TimeFilterMap Z Z
}.

Definition State_default : State :=
  mkState (blank ZSWAP_TREE_HEIGHT) ∅ 0 ∅ TimeFilterMap_new.

Definition on_whitelist (whitelist : whitelist_t) (contract : option (list Z)) : bool :=
  match whitelist, contract with
  | Some list, Some addr => bool_decide (addr ∈ list)
  | Some _, None => false
  | None, _ => true
  end.

Definition apply_input (self : State) (inp : Inp) (whitelist : whitelist_t)
  : outcome TransactionInvalid State :=
  if negb (TimeFilterMap_contains (past_roots self) (in_merkle_tree_root inp)) then
    Fail (UnknownMerkleRoot (in_merkle_tree_root inp))
  else if bool_decide (in_nullifier inp ∈ nullifiers self) then
    Fail (NullifierAlreadyPresent (in_nullifier inp))
  else if on_whitelist whitelist (in_contract_address inp) then
    mret (mkState (coin_coms self) (coin_coms_set self) (first_free self)
            ({[in_nullifier inp]} ∪ nullifiers self) (past_roots self))
  else mret self.

(** The end of [apply_output] and [apply_transient]: add a commitment to the
    tree at the first free index. *)
Definition add_commitment (self : State) (coin_com : list Z) (contract : option (list Z))
  (whitelist : whitelist_t) : outcome TransactionInvalid (State * list Z * Z) :=
  let coms_set := {[coin_com]} ∪ coin_coms_set self in
  let ff := first_free self in
  tree ← map_fail MerkleTreeError (try_update_hash (coin_coms self) ff coin_com contract);
  tree ← (if negb (on_whitelist whitelist contract)
          then map_fail MerkleTreeError (collapse tree ff ff) else mret tree);
  mret (mkState tree coms_set (ff + 1) (nullifiers self) (past_roots self), coin_com, ff).

Definition apply_output (self : State) (out : Outp) (whitelist : whitelist_t)
  : outcome TransactionInvalid (State * list Z * Z) :=
  if bool_decide (out_coin_com out ∈ coin_coms_set self) then
    Fail (CommitmentAlreadyPresent (out_coin_com out))
  else add_commitment self (out_coin_com out) (out_contract_address out) whitelist.

Definition apply_transient (self : State) (trans : Trans) (whitelist : whitelist_t)
  : outcome TransactionInvalid (State * list Z * Z) :=
  if bool_decide (tr_coin_com trans ∈ coin_coms_set self) then
    Fail (CommitmentAlreadyPresent (tr_coin_com trans))
  else if bool_decide (tr_nullifier trans ∈ nullifiers self) then
    Fail (NullifierAlreadyPresent (tr_nullifier trans))
  else
    let self :=
      if on_whitelist whitelist (tr_contract_address trans) then
        mkState (coin_coms self) (coin_coms_set self) (first_free self)
          ({[tr_nullifier trans]} ∪ nullifiers self) (past_roots self)
      else self in
    add_commitment self (tr_coin_com trans) (tr_contract_address trans) whitelist.

Definition State_try_apply (self : State) (offer : Off) (whitelist : whitelist_t)
  : outcome TransactionInvalid (State * gmap (list Z) Z) :=
  new_st ← try_fold_o (fun state inp => apply_input state inp whitelist) self (inputs offer);
  acc ← try_fold_o (fun acc output =>
          '(state, com, index) ← apply_output acc.1 output whitelist;
          mret (state, <[com := index]> acc.2)) (new_st, ∅) (outputs offer);
  try_fold_o (fun acc trans =>
          '(state, com, index) ← apply_transient acc.1 trans whitelist;
          mret (state, <[com := index]> acc.2)) acc (transient offer).

Definition retains (flt : list ContractAddress) (aux : option (list Z)) : bool :=
  match aux with Some aux => bool_decide (aux ∈ flt) | None => false end.

(** The indices whose coins belong to one of the contracts. *)
Definition retained_indices (self : State) (flt : list ContractAddress) : list Z :=
  fst <$> filter (fun e => retains flt e.2.2 = true) (iter_aux (coin_coms self)).

(** The loop of [filter]: collapse the gap before each retained index. *)
Fixpoint filter_loop (tree : Tree) (p : Z) (indices : list Z)
  : outcome InvalidUpdate (Tree * Z) :=
  match indices with
  | [] => mret (tree, p)
  | i :: indices' =>
      tree ← (if 0 <? i then collapse tree p (i - 1) else mret tree);
      filter_loop tree (if i <? U64_MAX then i + 1 else p) indices'
  end.

Definition State_filter (self : State) (flt : list ContractAddress) : outcome InvalidUpdate Tree :=
  '(tree, p) ← filter_loop (coin_coms self) 0 (retained_indices self flt);
  if 0 <? first_free self then collapse tree p (first_free self - 1) else mret tree.

Definition post_block_update (self : State) (tblock : Timestamp) (retention_duration : Duration)
  : outcome InvalidUpdate State :=
  tree ← rehash fr_zero transient_hash2 degrade_to_transient (coin_coms self);
  root ← expect (node_root fr_zero degrade_to_transient tree);
  let roots := TimeFilterMap_insert (past_roots self) tblock root in
  let roots := TimeFilterMap_filter roots (Timestamp_sub_duration tblock retention_duration) in
  mret (mkState tree (coin_coms_set self) (first_free self) (nullifiers self) roots).

(** ** Invariant

    The tree represents contents [c] that are filled exactly below the first
    free index, each commitment once, and the set of commitments is the set of
    those; nothing from the first free index on is collapsed. *)

Local Abbreviation H := ZSWAP_TREE_HEIGHT.
Local Abbreviation coins := (@contents (list Z) (option (list Z))).

Record coins_ok (c : coins) (ff : Z) (coms : gset (list Z)) : Prop := {
  coins_bound : 0 <= ff <= pow2 H;
  coins_filled i : 0 <= i < pow2 H -> is_Some (c i) <-> i < ff;
  coins_set cm : cm ∈ coms <-> exists i a, 0 <= i < ff /\ c i = Some (cm, a);
  coins_once i j cm a b :
    0 <= i < ff -> 0 <= j < ff -> c i = Some (cm, a) -> c j = Some (cm, b) -> i = j
}.

Record State_ok (st : State) (c : coins) : Prop := {
  ok_rep : Rep H c (coin_coms st);
  ok_coins : coins_ok c (first_free st) (coin_coms_set st);
  ok_visible i : first_free st <= i < pow2 H -> visible (coin_coms st) i = true;
  ok_roots : tfm_ok (past_roots st)
}.

Lemma State_default_ok : State_ok State_default cempty.
Proof.
  split; simpl.
  - constructor. apply not_false_is_true. by intros (i & _ & [? ?])%mempty_false.
  - split.
    + pose proof (pow2_pos H). lia.
    + intros i Hi. split; [by intros [? ?]|lia].
    + intros cm. split; [set_solver|]. by intros (i & a & ? & ?).
    + done.
  - done.
  - apply TimeFilterMap_new_ok.
Qed.

Lemma coins_ok_add c ff coms cm a :
  coins_ok c ff coms -> ff < pow2 H -> cm ∉ coms ->
  coins_ok (cupd c ff (cm, a)) (ff + 1) ({[cm]} ∪ coms).
Proof.
  intros [Hb Hf Hs Ho] Hlt Hcm.
  assert (Hne : forall i b, 0 <= i < ff -> c i <> Some (cm, b)).
  { intros i b Hi E. apply Hcm, Hs. eauto. }
  split.
  - lia.
  - intros i Hi. unfold cupd. destruct (Z.eqb_spec i ff); [split; [lia|eauto]|].
    rewrite Hf by done. lia.
  - intros x. rewrite elem_of_union, elem_of_singleton, Hs. unfold cupd. split.
    + intros [->|(i & b & Hi & Hc)].
      * exists ff, a. rewrite Z.eqb_refl. split; [lia|done].
      * exists i, b. destruct (Z.eqb_spec i ff); [lia|]. split; [lia|done].
    + intros (i & b & Hi & Hc). destruct (Z.eqb_spec i ff); [left; congruence|].
      right. exists i, b. split; [lia|done].
  - intros i j x b1 b2 Hi Hj. unfold cupd.
    destruct (Z.eqb_spec i ff), (Z.eqb_spec j ff); intros E1 E2; simplify_eq.
    + done.
    + by destruct (Hne j b2 ltac:(lia)).
    + by destruct (Hne i b1 ltac:(lia)).
    + eapply Ho; [| |exact E1|exact E2]; lia.
Qed.

Lemma add_commitment_spec st c cm a wl :
  State_ok st c -> first_free st < pow2 H -> cm ∉ coin_coms_set st ->
  exists tree, add_commitment st cm a wl =
      Ret (mkState tree ({[cm]} ∪ coin_coms_set st) (first_free st + 1) (nullifiers st)
             (past_roots st), cm, first_free st) /\
    State_ok (mkState tree ({[cm]} ∪ coin_coms_set st) (first_free st + 1) (nullifiers st)
                (past_roots st)) (cupd c (first_free st) (cm, a)) /\
    forall i, 0 <= i < pow2 H ->
      visible tree i = if i =? first_free st then on_whitelist wl a else visible (coin_coms st) i.
Proof.
  intros [HR Hc HV Ht] Hlt Hcm. pose proof (coins_bound _ _ _ Hc) as Hb.
  unfold add_commitment.
  destruct (try_update_hash_spec _ _ _ H c (coin_coms st) (first_free st) cm a HR) as (t1 & E1 & HR1 & HV1).
  { lia. }
  { apply HV. lia. }
  rewrite E1. cbn [map_fail mbind outcome_bind].
  destruct (on_whitelist wl a); cbn [negb].
  - exists t1. split; [done|]. split; [split; cbn [coin_coms first_free coin_coms_set past_roots]|].
    + done.
    + by apply coins_ok_add.
    + intros i Hi. rewrite HV1 by lia. apply HV. lia.
    + done.
    + intros i Hi. rewrite HV1 by done. destruct (Z.eqb_spec i (first_free st)) as [->|]; [by apply HV|done].
  - destruct (collapse_spec _ _ _ H _ t1 (first_free st) (first_free st) HR1) as (t2 & E2 & HR2 & _ & HV2).
    { unfold interval_ok. lia. }
    rewrite E2. exists t2. split; [done|]. split; [split; cbn [coin_coms first_free coin_coms_set past_roots]|].
    + done.
    + by apply coins_ok_add.
    + intros i Hi. rewrite HV2, HV1, HV by lia. unfold in_interval. lia.
    + done.
    + intros i Hi. rewrite HV2, HV1 by done. unfold in_interval.
      destruct (Z.eqb_spec i (first_free st)) as [->|]; [lia|].
      replace ((first_free st <=? i) && (i <=? first_free st)) with false by lia. by rewrite andb_true_r.
Qed.

Lemma add_commitment_full st c cm a wl :
  State_ok st c -> first_free st = pow2 H ->
  add_commitment st cm a wl = Fail (MerkleTreeError (IndexOutOfTree (first_free st))).
Proof.
  intros [HR Hc HV Ht] Hff. unfold add_commitment.
  rewrite try_update_hash_out by (rewrite (Rep_height _ _ _ _ _ _ HR); lia). done.
Qed.

(** *** Adding a list of coins *)

Fixpoint append (c : coins) (ff : Z) (l : list (list Z * option (list Z))) : coins :=
  match l with
  | [] => c
  | x :: l' => append (cupd c ff x) (ff + 1) l'
  end.

Lemma append_app c ff l1 l2 :
  append c ff (l1 ++ l2) = append (append c ff l1) (ff + Z.of_nat (length l1)) l2.
Proof.
  revert c ff; induction l1 as [|x l1 IH]; intros c ff; simpl app; cbn [append length].
  - by rewrite Z.add_0_r.
  - rewrite IH. f_equal. lia.
Qed.

(** From [(st, m)] with contents [c] to [(st', m')] by adding [added]; of the
    added coins those on the whitelist stay visible. *)
Record Added (wl : whitelist_t) (st : State) (m : gmap (list Z) Z) (c : coins)
  (added : list (list Z * option (list Z))) (st' : State) (m' : gmap (list Z) Z) : Prop := {
  added_ok : State_ok st' (append c (first_free st) added);
  added_first_free : first_free st' = first_free st + Z.of_nat (length added);
  added_set : coin_coms_set st' = list_to_set added.*1 ∪ coin_coms_set st;
  added_NoDup : NoDup added.*1;
  added_fresh cm : cm ∈ added.*1 -> cm ∉ coin_coms_set st;
  added_other cm : cm ∉ added.*1 -> m' !! cm = m !! cm;
  added_index k e : added !! k = Some e -> m' !! e.1 = Some (first_free st + Z.of_nat k);
  added_roots : past_roots st' = past_roots st;
  added_visible i : 0 <= i < pow2 H ->
    visible (coin_coms st') i =
    match (if first_free st <=? i then added !! Z.to_nat (i - first_free st) else None) with
    | Some e => on_whitelist wl e.2
    | None => visible (coin_coms st) i
    end
}.

Lemma Added_nil wl st m c : State_ok st c -> Added wl st m c [] st m.
Proof.
  intros Hok. split; try done.
  - simpl. lia.
  - simpl. set_solver.
  - constructor.
  - by intros cm ?%not_elem_of_nil.
  - intros i _. by destruct (_ <=? _).
Qed.

Lemma Added_trans wl st m c l1 st1 m1 l2 st2 m2 :
  Added wl st m c l1 st1 m1 -> Added wl st1 m1 (append c (first_free st) l1) l2 st2 m2 ->
  Added wl st m c (l1 ++ l2) st2 m2.
Proof.
  intros [A1 A2 A3 A4 A5 A6 A7 A8 A9] [B1 B2 B3 B4 B5 B6 B7 B8 B9].
  rewrite A2 in B1, B2, B7, B9. rewrite A3 in B3, B5.
  assert (Hdis : forall cm, cm ∈ l1.*1 -> cm ∉ l2.*1).
  { intros cm H1 H2. apply B5 in H2. apply H2. rewrite elem_of_union, elem_of_list_to_set. by left. }
  split.
  - by rewrite append_app.
  - rewrite length_app. lia.
  - rewrite B3, fmap_app, list_to_set_app_L. set_solver.
  - rewrite fmap_app. apply NoDup_app. done.
  - intros cm. rewrite fmap_app, elem_of_app. intros [H1|H2]; [by apply A5|].
    intros H3. apply B5 in H2. apply H2. set_solver.
  - intros cm. rewrite fmap_app, not_elem_of_app. intros [H1 H2]. by rewrite B6, A6.
  - intros k e [H1|[Hk H1]]%lookup_app_Some.
    + rewrite B6; [by apply A7|]. apply Hdis, list_elem_of_fmap. exists e. split; [done|].
      by apply list_elem_of_lookup_2 in H1.
    + rewrite (B7 _ _ H1). f_equal. lia.
  - congruence.
  - intros i Hi. rewrite B9, A9 by done.
    destruct (Z.leb_spec (first_free st) i); [|by destruct (Z.leb_spec (first_free st + Z.of_nat (length l1)) i); [lia|]].
    destruct (Z.leb_spec (first_free st + Z.of_nat (length l1)) i).
    + rewrite lookup_app_r by lia.
      replace (Z.to_nat (i - first_free st) - length l1)%nat
        with (Z.to_nat (i - (first_free st + Z.of_nat (length l1)))) by lia.
      by rewrite (lookup_ge_None_2 l1) by lia.
    + by rewrite lookup_app_l by lia.
Qed.

Definition out_coin (o : Outp) := (out_coin_com o, out_contract_address o).
Definition tr_coin (t : Trans) := (tr_coin_com t, tr_contract_address t).

(** The coins an offer adds, in the order of their indices. *)
Definition offer_coins (o : Off) : list (list Z * option (list Z)) :=
  (out_coin <$> outputs o) ++ (tr_coin <$> transient o).

Definition set_nullifiers (st : State) (n : gset (list Z)) : State :=
  mkState (coin_coms st) (coin_coms_set st) (first_free st) n (past_roots st).

Lemma State_ok_nullifiers st c n : State_ok st c -> State_ok (set_nullifiers st n) c.
Proof. by intros [? ? ? ?]. Qed.

Lemma add_commitment_Added st m c cm a wl st' com idx :
  State_ok st c -> cm ∉ coin_coms_set st ->
  add_commitment st cm a wl = Ret (st', com, idx) ->
  Added wl st m c [(cm, a)] st' (<[com := idx]> m) /\ nullifiers st' = nullifiers st.
Proof.
  intros Hok Hcm E. pose proof (coins_bound _ _ _ (ok_coins _ _ Hok)) as Hb.
  destruct (decide (first_free st = pow2 H)) as [Hff|Hff].
  { by rewrite (add_commitment_full st c) in E. }
  destruct (add_commitment_spec st c cm a wl Hok) as (tree & E' & Hok' & Hvis); [lia|done|].
  rewrite E' in E. injection E as <- <- <-. split; [|done].
  split; cbn [first_free coin_coms_set past_roots length fmap list_fmap fst].
  - done.
  - lia.
  - simpl. set_solver.
  - apply NoDup_singleton.
  - by intros x ->%list_elem_of_singleton.
  - intros x Hx. rewrite lookup_insert_ne; [done|]. intros ->. apply Hx. by left.
  - intros k e He. destruct k; [|done]. injection He as <-. rewrite lookup_insert_eq. f_equal. simpl. lia.
  - done.
  - intros i Hi. cbn [coin_coms]. rewrite Hvis by done.
    destruct (Z.eqb_spec i (first_free st)) as [->|Hne].
    + by rewrite Z.leb_refl, Z.sub_diag.
    + destruct (Z.leb_spec (first_free st) i); [|done].
      by destruct (Z.to_nat (i - first_free st)) eqn:En; [lia|].
Qed.

Lemma apply_output_Added st m c o wl st' com idx :
  State_ok st c -> apply_output st o wl = Ret (st', com, idx) ->
  Added wl st m c [out_coin o] st' (<[com := idx]> m) /\ nullifiers st' = nullifiers st.
Proof.
  intros Hok E. unfold apply_output in E. case_bool_decide; [done|].
  by eapply add_commitment_Added.
Qed.

(** Whose nullifiers the state tracks. *)
Definition tracked (wl : whitelist_t) (contract : option (list Z)) (n : list Z) : gset (list Z) :=
  if on_whitelist wl contract then {[n]} else ∅.

Lemma apply_transient_Added st m c t wl st' com idx :
  State_ok st c -> apply_transient st t wl = Ret (st', com, idx) ->
  Added wl st m c [tr_coin t] st' (<[com := idx]> m) /\ (tr_nullifier t ∉ nullifiers st) /\
  nullifiers st' = tracked wl (tr_contract_address t) (tr_nullifier t) ∪ nullifiers st.
Proof.
  intros Hok E. unfold apply_transient in E. do 2 (case_bool_decide; [done|]).
  cbv zeta in E. unfold tracked. destruct (on_whitelist wl (tr_contract_address t)) eqn:W.
  - apply (add_commitment_Added _ m c) in E as [A N]; [|by apply State_ok_nullifiers|done].
    split_and!; [|done|exact N]. destruct A. split; done.
  - apply (add_commitment_Added _ m c) in E as [A N]; [|done|done].
    split_and!; [done|done|]. rewrite N. set_solver.
Qed.

Lemma outputs_Added l wl : forall st m c st' m',
  State_ok st c ->
  try_fold_o (fun acc output => '(state, com, index) ← apply_output acc.1 output wl;
                                mret (state, <[com := index]> acc.2)) (st, m) l = Ret (st', m') ->
  Added wl st m c (out_coin <$> l) st' m' /\ nullifiers st' = nullifiers st.
Proof.
  induction l as [|o l IH]; intros st m c st' m' Hok E; cbn [try_fold_o] in E.
  - injection E as <- <-. split; [by apply Added_nil|done].
  - apply outcome_bind_Ret in E as (acc & E1 & E2). cbn [fst snd] in E1.
    destruct (apply_output st o wl) as [[[st1 com] idx]| |] eqn:E0; [|done..].
    injection E1 as <-. apply (apply_output_Added _ m c) in E0 as [A N]; [|done].
    pose proof (added_ok _ _ _ _ _ _ _ A) as Hok1.
    apply (IH _ _ _ _ _ Hok1) in E2 as [A2 N2].
    split; [|congruence]. rewrite fmap_cons. exact (Added_trans _ _ _ _ [out_coin o] _ _ _ _ _ A A2).
Qed.

(** The nullifiers of a list of spends: none was spent before or twice. *)
Fixpoint Spent (wl : whitelist_t) (l : list (list Z * option (list Z)))
  (before after : gset (list Z)) : Prop :=
  match l with
  | [] => after = before
  | (n, contract) :: l' => (n ∉ before) /\ Spent wl l' (tracked wl contract n ∪ before) after
  end.

Lemma transients_Added l wl : forall st m c st' m',
  State_ok st c ->
  try_fold_o (fun acc trans => '(state, com, index) ← apply_transient acc.1 trans wl;
                               mret (state, <[com := index]> acc.2)) (st, m) l = Ret (st', m') ->
  Added wl st m c (tr_coin <$> l) st' m' /\
  Spent wl ((fun t => (tr_nullifier t, tr_contract_address t)) <$> l) (nullifiers st) (nullifiers st').
Proof.
  induction l as [|t l IH]; intros st m c st' m' Hok E; cbn [try_fold_o] in E.
  - injection E as <- <-. split; [by apply Added_nil|done].
  - apply outcome_bind_Ret in E as (acc & E1 & E2). cbn [fst snd] in E1.
    destruct (apply_transient st t wl) as [[[st1 com] idx]| |] eqn:E0; [|done..].
    injection E1 as <-. apply (apply_transient_Added _ m c) in E0 as (A & N1 & N2); [|done].
    pose proof (added_ok _ _ _ _ _ _ _ A) as Hok1.
    apply (IH _ _ _ _ _ Hok1) in E2 as [A2 S2]. rewrite N2 in S2.
    split; [|rewrite fmap_cons; by split].
    rewrite fmap_cons. exact (Added_trans _ _ _ _ [tr_coin t] _ _ _ _ _ A A2).
Qed.

Lemma inputs_spent l wl : forall st st',
  try_fold_o (fun state inp => apply_input state inp wl) st l = Ret st' ->
  st' = set_nullifiers st (nullifiers st') /\
  Forall (fun i => TimeFilterMap_contains (past_roots st) (in_merkle_tree_root i) = true) l /\
  Spent wl ((fun i => (in_nullifier i, in_contract_address i)) <$> l) (nullifiers st) (nullifiers st').
Proof.
  induction l as [|i l IH]; intros st st' E; cbn [try_fold_o] in E.
  - injection E as <-. split_and!; [by destruct st|constructor|done].
  - apply outcome_bind_Ret in E as (st1 & E1 & E2). unfold apply_input in E1.
    destruct (TimeFilterMap_contains _ _) eqn:Er; [|done]. cbn [negb] in E1.
    case_bool_decide; [done|].
    apply IH in E2 as (Hst & Hr & Hs). unfold tracked in *.
    rewrite fmap_cons. cbn [Spent]. unfold tracked.
    destruct (on_whitelist wl (in_contract_address i)); injection E1 as <-;
      (split_and!; [exact Hst|by constructor|done|]).
    + exact Hs.
    + by rewrite (left_id_L ∅ (∪)).
Qed.

Lemma Spent_app wl l1 l2 b a :
  Spent wl (l1 ++ l2) b a <-> exists m, Spent wl l1 b m /\ Spent wl l2 m a.
Proof.
  revert b; induction l1 as [|[n ct] l1 IH]; intros b; simpl.
  - split; [eauto|]. by intros (m & -> & ?).
  - rewrite IH. split.
    + intros (H1 & m & H2 & H3). eauto.
    + intros (m & (H1 & H2) & H3). eauto.
Qed.

(** With no whitelist every spend is tracked: all nullifiers are new and
    distinct, and afterwards all are spent. *)
Lemma Spent_all l b a :
  Spent None l b a <->
  NoDup l.*1 /\ (forall n, n ∈ l.*1 -> n ∉ b) /\ a = list_to_set l.*1 ∪ b.
Proof.
  revert b; induction l as [|[n ct] l IH]; intros b; cbn [Spent fmap list_fmap fst].
  - split; [intros ->; split_and!; [constructor|by intros n ?%not_elem_of_nil|set_solver]|].
    intros (_ & _ & ->). set_solver.
  - unfold tracked. cbn [on_whitelist]. rewrite IH, NoDup_cons. cbn [list_to_set]. split.
    + intros (Hn & Hd & Hf & ->). split_and!; [|done| |set_solver].
      * intros Hin. apply (Hf n Hin). set_solver.
      * intros x [->|Hx]%elem_of_cons; [done|]. intros Hb. apply (Hf x Hx). set_solver.
    + intros ((Hn & Hd) & Hf & ->). split_and!; [apply Hf; by left|done| |set_solver].
      intros x Hx. rewrite not_elem_of_union, not_elem_of_singleton. split; [|apply Hf; by right].
      intros ->. done.
Qed.

(** All spends of an offer. *)
Definition offer_spends (o : Off) : list (list Z * option (list Z)) :=
  ((fun i => (in_nullifier i, in_contract_address i)) <$> inputs o)
  ++ ((fun t => (tr_nullifier t, tr_contract_address t)) <$> transient o).

Lemma State_try_apply_spec st c o wl st' idx :
  State_ok st c -> State_try_apply st o wl = Ret (st', idx) ->
  Added wl st ∅ c (offer_coins o) st' idx /\
  Spent wl (offer_spends o) (nullifiers st) (nullifiers st') /\
  Forall (fun i => TimeFilterMap_contains (past_roots st) (in_merkle_tree_root i) = true) (inputs o).
Proof.
  intros Hok E. unfold State_try_apply in E.
  apply outcome_bind_Ret in E as (st1 & E1 & E). apply inputs_spent in E1 as (Hst1 & Hroots & S1).
  apply outcome_bind_Ret in E as ([st2 m2] & E2 & E3).
  assert (Hok1 : State_ok st1 c) by (rewrite Hst1; by apply State_ok_nullifiers).
  apply (outputs_Added _ _ _ _ c) in E2 as [A2 N2]; [|done].
  apply (transients_Added _ _ _ _ _ _ _ (added_ok _ _ _ _ _ _ _ A2)) in E3 as [A3 S3].
  rewrite N2 in S3. split_and!; [|apply Spent_app; eauto|done].
  pose proof (Added_trans _ _ _ _ _ _ _ _ _ _ A2 A3) as A. clear -A Hst1.
  destruct A as [B1 B2 B3 B4 B5 B6 B7 B8]. rewrite Hst1 in *. simpl in *. by split.
Qed.

(** *** Progress: when an offer is applied *)

Lemma add_commitment_safe st c cm a wl :
  State_ok st c -> cm ∉ coin_coms_set st -> add_commitment st cm a wl <> Panic.
Proof.
  intros Hok Hcm. pose proof (coins_bound _ _ _ (ok_coins _ _ Hok)) as Hb.
  destruct (decide (first_free st = pow2 H)) as [Hff|Hff].
  - by rewrite (add_commitment_full st c).
  - destruct (add_commitment_spec st c cm a wl Hok) as (tree & -> & _); [lia|done|done].
Qed.

Lemma State_try_apply_no_panic st c o wl : State_ok st c -> State_try_apply st o wl <> Panic.
Proof.
  intros Hok. unfold State_try_apply.
  destruct (try_fold_o_safe (fun s => State_ok s c) (fun s i => apply_input s i wl) (inputs o))
    with (s := st) as [N1 P1]; [|done|].
  { intros s i Hs. unfold apply_input. destruct (negb _); [done|]. case_bool_decide; [done|].
    destruct (on_whitelist _ _); (split; [done|]); intros s' [= <-]; [|done].
    by apply (State_ok_nullifiers s). }
  destruct (try_fold_o _ st (inputs o)) as [st1| |]; [|done..]. specialize (P1 _ eq_refl).
  cbn [mbind outcome_bind].
  destruct (try_fold_o_safe (fun acc : State * gmap (list Z) Z => exists c, State_ok acc.1 c)
    (fun acc output => '(state, com, index) ← apply_output acc.1 output wl;
                       mret (state, <[com := index]> acc.2)) (outputs o))
    with (s := (st1, ∅ : gmap (list Z) Z)) as [N2 P2].
  { intros [s m] x [c' Hs]. cbn [fst snd] in *.
    destruct (apply_output s x wl) as [[[s' cm] k]| |] eqn:E; cbn [mbind outcome_bind].
    - split; [done|]. intros acc [= <-]. apply (apply_output_Added s m c') in E as [A _]; [|done].
      destruct A. simpl. eauto.
    - done.
    - unfold apply_output in E. case_bool_decide; [done|]. by apply (add_commitment_safe s c') in E. }
  { eauto. }
  destruct (try_fold_o _ _ (outputs o)) as [[st2 m2]| |]; [|done..]. specialize (P2 _ eq_refl).
  cbn [mbind outcome_bind].
  apply (try_fold_o_safe (fun acc : State * gmap (list Z) Z => exists c, State_ok acc.1 c)); [|done].
  intros [s m] x [c' Hs]. cbn [fst snd] in *.
  destruct (apply_transient s x wl) as [[[s' cm] k]| |] eqn:E; cbn [mbind outcome_bind].
  - split; [done|]. intros acc [= <-]. apply (apply_transient_Added s m c') in E as [A _]; [|done].
    destruct A. simpl. eauto.
  - done.
  - unfold apply_transient in E. do 2 (case_bool_decide; [done|]). cbv zeta in E.
    destruct (on_whitelist _ _); eapply add_commitment_safe in E; try done.
    by apply (State_ok_nullifiers s).
Qed.

(** The nullifiers after a list of spends. *)
Lemma Spent_det wl l b a a' : Spent wl l b a -> Spent wl l b a' -> a = a'.
Proof.
  revert b; induction l as [|[n ct] l IH]; intros b; cbn [Spent]; [by intros -> ->|].
  intros [_ H1] [_ H2]. eauto.
Qed.

Lemma apply_input_progress st i wl :
  TimeFilterMap_contains (past_roots st) (in_merkle_tree_root i) = true ->
  in_nullifier i ∉ nullifiers st ->
  apply_input st i wl =
  Ret (set_nullifiers st (tracked wl (in_contract_address i) (in_nullifier i) ∪ nullifiers st)).
Proof.
  intros Hr Hn. unfold apply_input, tracked. rewrite Hr. cbn [negb].
  rewrite bool_decide_eq_false_2 by done. destruct (on_whitelist _ _); [done|].
  rewrite (left_id_L ∅ (∪)). by destruct st.
Qed.

Lemma inputs_progress l wl : forall st a,
  Forall (fun i => TimeFilterMap_contains (past_roots st) (in_merkle_tree_root i) = true) l ->
  Spent wl ((fun i => (in_nullifier i, in_contract_address i)) <$> l) (nullifiers st) a ->
  try_fold_o (fun state inp => apply_input state inp wl) st l = Ret (set_nullifiers st a).
Proof.
  induction l as [|i l IH]; intros st a Hr; cbn [try_fold_o fmap list_fmap Spent].
  - intros ->. by destruct st.
  - apply Forall_cons in Hr as [Hr1 Hr]. intros [Hn Hs].
    rewrite (apply_input_progress st i) by done. cbn [mbind outcome_bind].
    by rewrite (IH (set_nullifiers st _) a).
Qed.

(** A list of commitments that can be added. *)
Definition Fits (st : State) (cms : list (list Z)) : Prop :=
  NoDup cms /\ (forall cm, cm ∈ cms -> cm ∉ coin_coms_set st) /\
  first_free st + Z.of_nat (length cms) <= pow2 H.

Lemma Fits_cons st st' cm cms :
  Fits st (cm :: cms) -> coin_coms_set st' = {[cm]} ∪ coin_coms_set st ->
  first_free st' = first_free st + 1 ->
  (cm ∉ coin_coms_set st) /\ first_free st < pow2 H /\ Fits st' cms.
Proof.
  intros ([Hn Hd]%NoDup_cons & Hf & Hl) Es Ef. cbn [length] in Hl.
  split_and!; [apply Hf; by left|lia|]. split_and!; [done| |rewrite Ef; lia].
  intros x Hx. rewrite Es, not_elem_of_union, not_elem_of_singleton. split.
  - by intros ->.
  - apply Hf. by right.
Qed.

Lemma apply_output_progress st c o wl cms :
  State_ok st c -> Fits st (out_coin_com o :: cms) ->
  exists st' c', apply_output st o wl = Ret (st', out_coin_com o, first_free st) /\
    State_ok st' c' /\ Fits st' cms.
Proof.
  intros Hok Hfit. unfold apply_output.
  pose proof Hfit as (_ & Hf & Hl). cbn [length] in Hl.
  rewrite bool_decide_eq_false_2 by (apply Hf; by left).
  destruct (add_commitment_spec st c (out_coin_com o) (out_contract_address o) wl Hok)
    as (tree & -> & Hok' & _); [lia|apply Hf; by left|].
  eexists _, _. split_and!; [done|exact Hok'|]. by apply (Fits_cons st _ (out_coin_com o)).
Qed.

Lemma outputs_progress l wl : forall st (m : gmap (list Z) Z) c,
  State_ok st c -> Fits st (out_coin_com <$> l) ->
  exists st' m', try_fold_o (fun acc output =>
    '(state, com, index) ← apply_output acc.1 output wl;
    mret (state, <[com := index]> acc.2)) (st, m) l = Ret (st', m').
Proof.
  induction l as [|o l IH]; intros st m c Hok Hfit; cbn [try_fold_o]; [by eauto|].
  destruct (apply_output_progress st c o wl _ Hok Hfit)
    as (st1 & c1 & E & Hok1 & Hfit1).
  cbn [fst snd]. rewrite E. by apply (IH _ _ c1).
Qed.

Lemma apply_transient_progress st c t wl cms :
  State_ok st c -> Fits st (tr_coin_com t :: cms) -> tr_nullifier t ∉ nullifiers st ->
  exists st' c', apply_transient st t wl = Ret (st', tr_coin_com t, first_free st) /\
    nullifiers st' = tracked wl (tr_contract_address t) (tr_nullifier t) ∪ nullifiers st /\
    State_ok st' c' /\ Fits st' cms.
Proof.
  intros Hok Hfit Hn. unfold apply_transient.
  pose proof Hfit as (_ & Hf & Hl). cbn [length] in Hl.
  rewrite bool_decide_eq_false_2 by (apply Hf; by left).
  rewrite bool_decide_eq_false_2 by done. cbv zeta. unfold tracked.
  set (n := (if on_whitelist wl (tr_contract_address t) then {[tr_nullifier t]} else ∅) ∪ nullifiers st).
  set (st1 := if on_whitelist wl _ then _ else st).
  assert (E1 : st1 = set_nullifiers st n).
  { unfold st1, n. destruct (on_whitelist _ _); [done|]. rewrite (left_id_L ∅ (∪)). by destruct st. }
  clearbody st1. subst st1.
  destruct (add_commitment_spec (set_nullifiers st n) c (tr_coin_com t) (tr_contract_address t) wl
    (State_ok_nullifiers st c n Hok)) as (tree & -> & Hok' & _); [simpl; lia|apply Hf; by left|].
  eexists _, _. split_and!; [done|done|exact Hok'|]. by apply (Fits_cons st _ (tr_coin_com t)).
Qed.

Lemma transients_progress l wl : forall st (m : gmap (list Z) Z) c a,
  State_ok st c -> Fits st (tr_coin_com <$> l) ->
  Spent wl ((fun t => (tr_nullifier t, tr_contract_address t)) <$> l) (nullifiers st) a ->
  exists st' m', try_fold_o (fun acc trans =>
    '(state, com, index) ← apply_transient acc.1 trans wl;
    mret (state, <[com := index]> acc.2)) (st, m) l = Ret (st', m').
Proof.
  induction l as [|t l IH]; intros st m c a Hok Hfit; cbn [try_fold_o]; [by eauto|].
  rewrite !fmap_cons in *. cbn [Spent]. intros [Hn Hs].
  destruct (apply_transient_progress st c t wl _ Hok Hfit Hn)
    as (st1 & c1 & E & N & Hok1 & Hfit1).
  cbn [fst snd]. rewrite E. apply (IH _ _ c1 a); [done|done|]. by rewrite N.
Qed.

Lemma Fits_app st l1 l2 st' :
  Fits st (l1 ++ l2) -> coin_coms_set st' = list_to_set l1 ∪ coin_coms_set st ->
  first_free st' = first_free st + Z.of_nat (length l1) -> Fits st l1 /\ Fits st' l2.
Proof.
  intros ((N1 & N2 & N3)%NoDup_app & Hf & Hl) Es Ef. rewrite length_app in Hl.
  split; (split_and!; [done| |lia]).
  - intros cm Hc. apply Hf, elem_of_app. by left.
  - intros cm Hc. rewrite Es, not_elem_of_union, elem_of_list_to_set. split.
    + intros Hc1. by apply (N2 cm).
    + apply Hf, elem_of_app. by right.
Qed.

Lemma State_try_apply_progress st c o wl a :
  State_ok st c ->
  Forall (fun i => TimeFilterMap_contains (past_roots st) (in_merkle_tree_root i) = true) (inputs o) ->
  Spent wl (offer_spends o) (nullifiers st) a ->
  Fits st (offer_coins o).*1 ->
  exists st' idx, State_try_apply st o wl = Ret (st', idx).
Proof.
  intros Hok Hr (n & S1 & S2)%Spent_app Hfit. unfold State_try_apply.
  rewrite (inputs_progress _ _ st n) by done. cbn [mbind outcome_bind].
  unfold offer_coins in Hfit. rewrite fmap_app, <- !list_fmap_compose in Hfit.
  change (fst ∘ out_coin) with (@out_coin_com Pedersen Proof Ciphertext) in Hfit.
  change (fst ∘ tr_coin) with (@tr_coin_com Pedersen Proof Ciphertext) in Hfit.
  pose proof (State_ok_nullifiers st c n Hok) as Hok1.
  assert (Hfit1 : Fits (set_nullifiers st n) (out_coin_com <$> outputs o)).
  { destruct (Fits_app st _ _ (mkState (coin_coms st) (list_to_set (out_coin_com <$> outputs o) ∪
      coin_coms_set st) (first_free st + Z.of_nat (length (out_coin_com <$> outputs o)))
      ∅ (past_roots st)) Hfit) as [? _]; done. }
  destruct (outputs_progress (outputs o) wl _ ∅ c Hok1 Hfit1) as (st2 & m2 & E2).
  rewrite E2. cbn [mbind outcome_bind].
  apply (outputs_Added _ _ _ _ c) in E2 as [A N]; [|done].
  apply (transients_progress _ _ _ _ _ a (added_ok _ _ _ _ _ _ _ A)).
  - apply (Fits_app st (out_coin_com <$> outputs o)); [done| |].
    + rewrite (added_set _ _ _ _ _ _ _ A). by rewrite <- list_fmap_compose.
    + rewrite (added_first_free _ _ _ _ _ _ _ A). by rewrite !length_fmap.
  - by rewrite N.
Qed.

Lemma Added_Fits wl st m c l st' m' : Added wl st m c l st' m' -> Fits st l.*1.
Proof.
  intros [A1 A2 A3 A4 A5 A6 A7 A8]. split_and!; [done..|].
  pose proof (coins_bound _ _ _ (ok_coins _ _ A1)). rewrite length_fmap. lia.
Qed.

(** A node with fewer recorded nullifiers, of some contracts only, rejects no
    spend that a full node accepts. *)
Lemma Spent_weaken wl l b a b' :
  Spent None l b a -> b' ⊆ b -> exists a', Spent wl l b' a' /\ a' ⊆ a.
Proof.
  revert b b'; induction l as [|[n ct] l IH]; intros b b'; cbn [Spent].
  - intros -> Hb. eauto.
  - intros [Hn Hs] Hb. destruct (IH _ (tracked wl ct n ∪ b') Hs) as (a' & Hs' & Ha').
    { unfold tracked. cbn [on_whitelist]. destruct (on_whitelist wl ct); set_solver. }
    exists a'. split; [|done]. split; [set_solver|done].
Qed.

(** What a whitelist lets through: a nullifier may occur again after the spend of
    a contract that is not on it. *)
Definition repeats_untracked (wl : whitelist_t) (l : list (list Z * option (list Z))) : Prop :=
  forall i j n ct ct', (i < j)%nat -> l !! i = Some (n, ct) -> l !! j = Some (n, ct') -> on_whitelist wl ct = false.

Lemma Spent_exists wl l b :
  (exists a, Spent wl l b a) <-> repeats_untracked wl l /\ (forall n, n ∈ l.*1 -> n ∉ b).
Proof.
  revert b; induction l as [|[n ct] l IH]; intros b; cbn [Spent].
  - split; [|eauto]. intros _. split; [by intros i j n ct ct' _ ?|]. intros n Hn. by apply not_elem_of_nil in Hn.
  - split.
    + intros (a & Hn & Ha). destruct (proj1 (IH (tracked wl ct n ∪ b))) as [Hr Hf]; [eauto|]. split.
      * intros [|i] [|j] n' c1 c2 Hij H1 H2; cbn in H1, H2; try lia; [|by apply (Hr i j n' c1 c2); [lia|..]].
        simplify_eq. assert (Hin : n' ∈ l.*1) by (apply list_elem_of_fmap; exists (n', c2); split; [done|by eapply list_elem_of_lookup_2]).
        specialize (Hf n' Hin). unfold tracked in Hf. destruct (on_whitelist wl c1); [set_solver|done].
      * intros x [->|Hx]%elem_of_cons; [done|]. specialize (Hf x Hx). set_solver.
    + intros [Hr Hf]. destruct (proj2 (IH (tracked wl ct n ∪ b))) as [a Ha]; [|exists a; split; [apply Hf; left|done]]. split.
      * intros i j n' c1 c2 Hij H1 H2. by apply (Hr (S i) (S j) n' c1 c2); [lia|..].
      * intros x Hx. apply not_elem_of_union. split; [|apply Hf; by right]. unfold tracked.
        destruct (on_whitelist wl ct) eqn:W; [|set_solver]. intros ->%elem_of_singleton. apply list_elem_of_fmap in Hx as ([n' c2] & -> & Hx).
        apply list_elem_of_lookup in Hx as [j Hj]. cbn in Hr. by rewrite (Hr 0%nat (S j) n' ct c2 ltac:(lia) eq_refl Hj) in W.
Qed.

(** *** Filtering *)

Lemma retained_indices_sorted st c flt :
  State_ok st c -> StronglySorted Z.lt (retained_indices st flt).
Proof.
  intros [HR _ _ _]. unfold retained_indices.
  assert (Hs : StronglySorted (fun e e' : Z * (list Z * option (list Z)) => e.1 < e'.1)
                 (filter (fun e => retains flt e.2.2 = true) (iter_aux (coin_coms st)))).
  { apply StronglySorted_filter.
    eapply leaves_in_range_sorted; [exact HR|unfold H; lia|done]. }
  induction Hs as [|e l Hl IH He]; [constructor|]. rewrite fmap_cons. constructor; [done|].
  by apply Forall_fmap.
Qed.

Lemma retained_indices_spec st c flt i :
  State_ok st c ->
  i ∈ retained_indices st flt <->
  0 <= i < first_free st /\ visible (coin_coms st) i = true /\
  exists cm addr, c i = Some (cm, Some addr) /\ addr ∈ flt.
Proof.
  intros [HR HC _ _]. unfold retained_indices. rewrite list_elem_of_fmap.
  assert (Hiff : forall x, (i, x) ∈ iter_aux (coin_coms st) <->
    0 <= i < pow2 H /\ node_index (coin_coms st) i = Some x).
  { intros x. unfold iter_aux, leaves. rewrite (leaves_in_range_spec fr_zero transient_hash2 degrade_to_transient H c); [|done|unfold H; lia|done].
    simpl. naive_solver. }
  split.
  - intros ([i' [cm a]] & -> & [Hr Hin]%list_elem_of_filter). simpl in *.
    apply Hiff in Hin as [Hi Hin]. rewrite (node_index_spec fr_zero transient_hash2 degrade_to_transient H c) in Hin by done.
    destruct (visible _ _); [|done]. destruct a as [addr|]; [|done]. simpl in Hr.
    apply bool_decide_eq_true in Hr. split_and!; [lia| |done|eauto].
    apply (coins_filled _ _ _ HC i'); [done|]. rewrite Hin. eauto.
  - intros (Hi & Hv & cm & addr & Hc & Hin). exists (i, (cm, Some addr)). split; [done|].
    apply list_elem_of_filter. split; [simpl; by apply bool_decide_eq_true|].
    pose proof (coins_bound _ _ _ HC) as Hb. apply Hiff. split; [lia|].
    rewrite (node_index_spec fr_zero transient_hash2 degrade_to_transient H c), Hv by (done || lia). done.
Qed.

(** What the loop hides: the gaps between the retained indices. *)
Definition gap (p q : Z) (l : list Z) (j : Z) : bool :=
  (p <=? j) && (j <? q) && negb (bool_decide (j ∈ l)).

Lemma gap_cons p q i l j :
  p <= i -> i < q -> Forall (Z.lt i) l ->
  gap p q (i :: l) j = in_interval p (i - 1) j || gap (i + 1) q l j.
Proof.
  clear fr_zero transient_hash2 degrade_to_transient.
  intros Hp Hq Hl. unfold gap, in_interval. rewrite Forall_forall in Hl.
  destruct (decide (j = i)) as [->|Hne].
  - rewrite (bool_decide_eq_true_2 (i ∈ i :: l)) by left. lia.
  - rewrite (bool_decide_ext (j ∈ i :: l) (j ∈ l)) by (rewrite elem_of_cons; naive_solver).
    case_bool_decide as Hin; [specialize (Hl _ Hin); lia|]. lia.
Qed.

Lemma filter_loop_spec c ff indices : forall tree p,
  Rep H c tree -> ff < pow2 H -> 0 <= p <= ff -> StronglySorted Z.lt indices ->
  Forall (fun i => p <= i < ff) indices ->
  exists tree' p', filter_loop tree p indices = Ret (tree', p') /\ Rep H c tree' /\
    (is_Some (node_root fr_zero degrade_to_transient tree) ->
     is_Some (node_root fr_zero degrade_to_transient tree')) /\
    p <= p' <= ff /\ Forall (fun i => i < p') indices /\
    forall j, 0 <= j < pow2 H -> visible tree' j = visible tree j && negb (gap p p' indices j).
Proof.
  induction indices as [|i l IH]; intros tree p HR Hff Hp Hs Hr; cbn [filter_loop].
  - exists tree, p. split_and!; [done..|lia|lia|done|].
    intros j Hj. unfold gap. destruct (Z.leb_spec p j), (Z.ltb_spec j p); try lia;
      by rewrite andb_true_r.
  - apply StronglySorted_cons in Hs as [Hi Hs]. apply Forall_cons in Hr as [Hpi Hr].
    assert (Hstep : exists tree1, (if 0 <? i then collapse tree p (i - 1) else mret tree) = Ret tree1 /\
      collapsed_as fr_zero transient_hash2 degrade_to_transient H c tree p (i - 1) tree1).
    { destruct (Z.ltb_spec 0 i).
      - apply collapse_spec; [done|]. unfold interval_ok. lia.
      - exists tree. split; [done|]. split_and!; [done..|]. intros j Hj. unfold in_interval.
        destruct (Z.leb_spec p j), (Z.leb_spec j (i - 1)); try lia; by rewrite andb_true_r. }
    destruct Hstep as (tree1 & E1 & HR1 & Hroot1 & HV1). rewrite E1. cbn [mbind outcome_bind].
    assert (HU : pow2 H <= U64_MAX) by (vm_compute; discriminate).
    destruct (Z.ltb_spec i U64_MAX); [|lia].
    destruct (IH tree1 (i + 1) HR1 Hff) as (tree' & p' & E & HR' & Hroot' & Hp' & Hl' & HV').
    + lia.
    + done.
    + rewrite Forall_forall in *. intros k Hk. specialize (Hi k Hk). specialize (Hr k Hk).
      simpl in *. lia.
    + exists tree', p'. split_and!; [done|done|auto|lia|lia| |].
      * constructor; [lia|done].
      * intros j Hj. rewrite HV', HV1, gap_cons by (done || lia).
        by rewrite negb_orb, andb_assoc.
Qed.

Lemma State_filter_spec st c flt :
  State_ok st c -> first_free st < pow2 H ->
  exists tree, State_filter st flt = Ret tree /\ Rep H c tree /\
    (is_Some (node_root fr_zero degrade_to_transient (coin_coms st)) ->
     is_Some (node_root fr_zero degrade_to_transient tree)) /\
    forall j, 0 <= j < pow2 H ->
      visible tree j = visible (coin_coms st) j &&
        ((first_free st <=? j) || bool_decide (j ∈ retained_indices st flt)).
Proof.
  intros Hok Hff. pose proof (coins_bound _ _ _ (ok_coins _ _ Hok)) as Hb.
  pose proof (retained_indices_sorted st c flt Hok) as Hs.
  assert (Hr : Forall (fun i => 0 <= i < first_free st) (retained_indices st flt)).
  { apply Forall_forall. intros i Hi. by apply (retained_indices_spec st c) in Hi as [? _]. }
  unfold State_filter.
  destruct (filter_loop_spec c (first_free st) _ (coin_coms st) 0 (ok_rep _ _ Hok) Hff ltac:(lia) Hs Hr)
    as (tree & p & E & HR & Hroot & Hp & Hlt & HV).
  rewrite E. cbn [mbind outcome_bind]. generalize dependent (retained_indices st flt).
  intros l Hs Hr E Hlt HV. rewrite Forall_forall in *.
  assert (Hend : exists tree', (if 0 <? first_free st then collapse tree p (first_free st - 1)
      else mret tree) = Ret tree' /\
      collapsed_as fr_zero transient_hash2 degrade_to_transient H c tree p (first_free st - 1) tree').
  { destruct (Z.ltb_spec 0 (first_free st)).
    - apply collapse_spec; [done|]. unfold interval_ok. lia.
    - exists tree. split; [done|]. split_and!; [done..|]. intros j Hj. unfold in_interval.
      destruct (Z.leb_spec p j), (Z.leb_spec j (first_free st - 1)); try lia; by rewrite andb_true_r. }
  destruct Hend as (tree' & E' & HR' & Hroot' & HV'). exists tree'. split_and!; [done|done|auto|].
  intros j Hj. rewrite HV', HV by done. rewrite <- andb_assoc. f_equal. unfold gap, in_interval.
  clear -Hlt Hr Hj Hp. case_bool_decide as Hin; [specialize (Hlt _ Hin); specialize (Hr _ Hin); lia|lia].
Qed.

(** *** After a block *)

Lemma post_block_update_spec st c tblock d :
  State_ok st c -> in_u 64 tblock -> in_u 64 d ->
  multiset_count (tset (past_roots st)) (mroot H c) < u_max 32 ->
  exists st', post_block_update st tblock d = Ret st' /\ State_ok st' c /\
    coin_coms_set st' = coin_coms_set st /\ first_free st' = first_free st /\
    nullifiers st' = nullifiers st /\
    node_root fr_zero degrade_to_transient (coin_coms st') = Some (mroot H c) /\
    (forall j, 0 <= j < pow2 H -> visible (coin_coms st') j = visible (coin_coms st) j) /\
    forall r, TimeFilterMap_contains (past_roots st') r = true <->
      r = mroot H c \/
      exists ts, ts <> tblock /\ Z.max (tblock - d) 0 <= ts /\ time_map (past_roots st) !! ts = Some r.
Proof.
  intros [HR HC HV HT] Ht Hd Hmax. unfold post_block_update.
  destruct (rehash_spec _ _ _ H c _ HR) as (tree & E & HR' & Hroot).
  set (R := mroot H c) in *. clearbody R. rewrite E. cbn [mbind outcome_bind].
  rewrite Hroot. cbn [expect mbind outcome_bind mret outcome_ret].
  assert (Hcut : Timestamp_sub_duration tblock d = Z.max (tblock - d) 0).
  { unfold Timestamp_sub_duration, sat_sub, wrap. destruct Hd as [Hd1 Hd2].
    destruct (Z.leb_spec 0 d); [|lia]. by rewrite Z.mod_small. }
  rewrite Hcut. pose proof (TimeFilterMap_insert_ok (past_roots st) tblock R HT Hmax) as HT1.
  pose proof (TimeFilterMap_filter_ok _ (Z.max (tblock - d) 0) HT1) as HT2.
  pose proof (rehash_visible _ _ _ H c _ _ HR E) as HV'.
  eexists. split_and!; [done| |done..| | |]; cbn [coin_coms past_roots].
  - split; cbn [coin_coms past_roots first_free coin_coms_set]; [done|done| |done].
    intros i Hi. rewrite HV'. by apply HV.
  - done.
  - intros j _. apply HV'.
  - intros r. unfold in_u in *. rewrite insert_filter_contains by (done || lia).
    split; (intros [?|Hr]; [by left|right]).
    + destruct Hr as (ts & x & Hne & Hts & Hx & ->%list_elem_of_singleton). eauto.
    + destruct Hr as (ts & Hne & Hts & Hx). exists ts, r. split_and!; [done..|left].
Qed.

(** *** Facts for the theorems below *)

Lemma append_lookup l : forall c ff i,
  append c ff l i = if (ff <=? i) && (i <? ff + Z.of_nat (length l))
                    then l !! Z.to_nat (i - ff) else c i.
Proof.
  clear fr_zero transient_hash2 degrade_to_transient.
  induction l as [|x l IH]; intros c ff i; cbn [append length].
  - destruct (Z.leb_spec ff i), (Z.ltb_spec i (ff + Z.of_nat 0)); try lia; done.
  - rewrite IH. unfold cupd. destruct (Z.eqb_spec i ff) as [->|Hne].
    + rewrite Z.sub_diag. destruct (Z.leb_spec (ff + 1) ff); [lia|]. cbn [andb].
      destruct (Z.leb_spec ff ff), (Z.ltb_spec ff (ff + Z.of_nat (S (length l)))); try lia. done.
    + destruct (Z.leb_spec (ff + 1) i), (Z.leb_spec ff i); try lia; cbn [andb]; [|done].
      destruct (Z.ltb_spec i (ff + 1 + Z.of_nat (length l))),
        (Z.ltb_spec i (ff + Z.of_nat (S (length l)))); try lia; [|done].
      replace (Z.to_nat (i - ff)) with (S (Z.to_nat (i - (ff + 1)))) by lia. done.
Qed.

Lemma coins_ok_unique c ff s ff' s' : coins_ok c ff s -> coins_ok c ff' s' -> ff = ff' /\ s = s'.
Proof.
  intros [B F S _] [B' F' S' _]. assert (ff = ff') as <-.
  { destruct (Z.lt_trichotomy ff ff') as [Hlt|[?|Hlt]]; [|done|]; exfalso.
    - assert (is_Some (c ff)) as Hs by (apply F'; lia). apply F in Hs; lia.
    - assert (is_Some (c ff')) as Hs by (apply F; lia). apply F' in Hs; lia. }
  split; [done|]. apply set_eq. intros cm. by rewrite S, S'.
Qed.

Lemma Added_indices wl wl2 st st2 m c c2 l st' st2' m1 m2 :
  first_free st = first_free st2 ->
  Added wl st m c l st' m1 -> Added wl2 st2 m c2 l st2' m2 -> m1 = m2.
Proof.
  intros Hff A B. apply map_eq. intros cm. destruct (decide (cm ∈ l.*1)) as [Hin|Hni].
  - apply list_elem_of_lookup in Hin as [k Hk]. apply list_lookup_fmap_Some in Hk as (e & -> & Hk).
    by rewrite (added_index _ _ _ _ _ _ _ A k e Hk), (added_index _ _ _ _ _ _ _ B k e Hk), Hff.
  - by rewrite (added_other _ _ _ _ _ _ _ A cm Hni), (added_other _ _ _ _ _ _ _ B cm Hni).
Qed.

(** A follower of some contracts stands for the same coins and roots as the
    full state, and knows some of its nullifiers. *)
Record Follows (c : coins) (full follower : State) : Prop := {
  follows_full : State_ok full c;
  follows_ok : State_ok follower c;
  follows_roots : past_roots follower = past_roots full;
  follows_nullifiers : nullifiers follower ⊆ nullifiers full
}.

(** Whether a whitelist has the coins of a contract, or of a user. *)
Definition followed (wl : whitelist_t) (contract : option (list Z)) : Prop :=
  match wl with None => True | Some l => exists addr, contract = Some addr /\ addr ∈ l end.

Lemma on_whitelist_followed wl contract : on_whitelist wl contract = true <-> followed wl contract.
Proof.
  destruct wl as [l|], contract as [addr|]; simpl; try done.
  - rewrite bool_decide_eq_true. split; [by exists addr|]. by intros (? & [= ->] & ?).
  - split; [done|]. by intros (? & ? & ?).
Qed.

Lemma Spent_tracked wl l a b n contract :
  Spent wl l a b -> (n, contract) ∈ l -> NoDup l.*1 ->
  (n ∈ b <-> followed wl contract).
Proof.
  assert (Hkeep : forall l a b n, Spent wl l a b -> n ∉ l.*1 -> n ∈ b <-> n ∈ a).
  { clear. induction l as [|[n' ct] l IH]; intros a b n Hs Hn; [by rewrite Hs|].
    destruct Hs as [_ Hs]. rewrite (IH _ _ n Hs) by set_solver. unfold tracked.
    destruct (on_whitelist wl ct); set_solver. }
  revert a; induction l as [|[n' ct] l IH]; intros a Hs Hin Hnd; [by apply not_elem_of_nil in Hin|].
  apply NoDup_cons in Hnd as [Hni Hnd]. destruct Hs as [Hna Hs].
  apply elem_of_cons in Hin as [[= -> ->]|Hin]; [|by eapply IH].
  rewrite (Hkeep _ _ _ _ Hs Hni). unfold tracked. rewrite <- on_whitelist_followed.
  destruct (on_whitelist wl ct); set_solver.
Qed.

(** States of a ledger: from the default by offers and blocks.  A root is in
    the set of recent roots fewer than [2^32 - 1] times. *)
Inductive reachable : State -> Prop :=
| reach_default : reachable State_default
| reach_apply st o wl st' idx :
    reachable st -> State_try_apply st o wl = Ret (st', idx) -> reachable st'
| reach_block st tblock d st' :
    reachable st -> in_u 64 tblock -> in_u 64 d ->
    (forall r, multiset_count (tset (past_roots st)) r < u_max 32) ->
    post_block_update st tblock d = Ret st' -> reachable st'.

Lemma reachable_ok st : reachable st -> exists c, State_ok st c.
Proof.
  induction 1 as [|st o wl st' idx _ [c Hok] E|st tb d st' _ [c Hok] Ht Hd Hm E].
  - exists cempty. apply State_default_ok.
  - apply (State_try_apply_spec st c) in E as (A & _); [|done]. eexists. apply A.
  - destruct (post_block_update_spec st c tb d Hok Ht Hd (Hm _)) as (st1 & E1 & Hok1 & _).
    rewrite E1 in E. injection E as <-. eauto.
Qed.

(** ** Properties *)

(** C21. No double spends: when a state with no whitelist applies an offer, the
    nullifiers of its inputs and transients are distinct and were not spent
    before; afterwards all of them are spent, and no later offer with one of
    them is applied. *)
Theorem zswap_no_double_spend (st st' : State) (c : coins) (o : Off) (idx : gmap (list Z) Z) :
  State_ok st c -> State_try_apply st o None = Ret (st', idx) ->
  NoDup (offer_spends o).*1 /\
  (forall n, n ∈ (offer_spends o).*1 -> n ∉ nullifiers st) /\
  nullifiers st' = list_to_set (offer_spends o).*1 ∪ nullifiers st /\
  (forall o2 n, n ∈ (offer_spends o).*1 -> n ∈ (offer_spends o2).*1 ->
     exists e, State_try_apply st' o2 None = Fail e).
Proof.
  intros Hok E. destruct (State_try_apply_spec st c o None st' idx Hok E) as (A & S & _).
  apply Spent_all in S as (H1 & H2 & H3). split_and!; [done..|].
  intros o2 n Hn Hn2. pose proof (added_ok _ _ _ _ _ _ _ A) as Hok'.
  destruct (State_try_apply st' o2 None) as [[st2 idx2]|e|] eqn:E2; [|eauto|].
  - destruct (State_try_apply_spec _ _ o2 None st2 idx2 Hok' E2) as (_ & S2 & _).
    apply Spent_all in S2 as (_ & Hf & _). destruct (Hf n Hn2). rewrite H3. set_solver.
  - by destruct (State_try_apply_no_panic _ _ o2 None Hok').
Qed.

(** C23. What applying an offer does: the invariant is kept for the contents
    extended by the offer's outputs and transients, which take consecutive
    indices from the first free one; the returned map sends each new
    commitment to the index where the tree now has it; earlier coins keep
    their places; the recent roots do not change. *)
Theorem zswap_apply_refines (st st' : State) (c : coins) (o : Off) (wl : whitelist_t)
  (idx : gmap (list Z) Z) :
  State_ok st c -> State_try_apply st o wl = Ret (st', idx) ->
  exists c', State_ok st' c' /\
    first_free st' = first_free st + Z.of_nat (length (offer_coins o)) /\
    (forall k cm a, offer_coins o !! k = Some (cm, a) ->
       idx !! cm = Some (first_free st + Z.of_nat k) /\
       c' (first_free st + Z.of_nat k) = Some (cm, a)) /\
    (forall i, i < first_free st -> c' i = c i) /\
    coin_coms_set st' = list_to_set (offer_coins o).*1 ∪ coin_coms_set st /\
    past_roots st' = past_roots st.
Proof.
  intros Hok E. destruct (State_try_apply_spec st c o wl st' idx Hok E) as (A & _ & _).
  exists (append c (first_free st) (offer_coins o)). destruct A as [A1 A2 A3 A4 A5 A6 A7 A8].
  split_and!; [done|done| | |done|done].
  - intros k cm a Hk. split; [by apply (A7 k (cm, a))|]. rewrite append_lookup.
    pose proof (lookup_lt_Some _ _ _ Hk) as Hlt.
    destruct (Z.leb_spec (first_free st) (first_free st + Z.of_nat k)); [|lia].
    destruct (Z.ltb_spec (first_free st + Z.of_nat k)
      (first_free st + Z.of_nat (length (offer_coins o)))); [|lia]. cbn [andb].
    by replace (Z.to_nat (first_free st + Z.of_nat k - first_free st)) with k by lia.
  - intros i Hi. rewrite append_lookup. destruct (Z.leb_spec (first_free st) i); [lia|done].
Qed.

(** C22. When an offer is applied: exactly when each input refers to a recent
    root, the nullifiers are unspent, the new commitments are unknown and
    distinct, the tree has room for them, and no nullifier is repeated after a
    spend that the whitelist follows; without a whitelist, when the nullifiers
    are distinct.  Otherwise the result is an error, never a panic. *)
Theorem zswap_acceptance (st : State) (c : coins) (o : Off) (wl : whitelist_t) :
  State_ok st c ->
  let acceptable := Forall (fun i => TimeFilterMap_contains (past_roots st) (in_merkle_tree_root i) = true) (inputs o) /\
    (forall n, n ∈ (offer_spends o).*1 -> n ∉ nullifiers st) /\
    NoDup (offer_coins o).*1 /\ (forall cm, cm ∈ (offer_coins o).*1 -> cm ∉ coin_coms_set st) /\
    first_free st + Z.of_nat (length (offer_coins o)) <= pow2 H in
  State_try_apply st o wl <> Panic /\
  ((exists st' idx, State_try_apply st o wl = Ret (st', idx)) <-> acceptable /\ repeats_untracked wl (offer_spends o)) /\
  ((exists st' idx, State_try_apply st o None = Ret (st', idx)) <-> acceptable /\ NoDup (offer_spends o).*1).
Proof.
  intros Hok. cbv zeta. split; [by eapply State_try_apply_no_panic|].
  assert (Hwl : forall wl, (exists st' idx, State_try_apply st o wl = Ret (st', idx)) <->
    Forall (fun i => TimeFilterMap_contains (past_roots st) (in_merkle_tree_root i) = true) (inputs o) /\
    (exists a, Spent wl (offer_spends o) (nullifiers st) a) /\ Fits st (offer_coins o).*1).
  { intros w. split.
    - intros (st' & idx & E). destruct (State_try_apply_spec st c o w st' idx Hok E) as (A & S & R).
      split_and!; [done|eauto|by eapply Added_Fits].
    - intros (R & [a S] & F). by apply (State_try_apply_progress st c o w a). }
  unfold Fits in Hwl. setoid_rewrite length_fmap in Hwl. split.
  - rewrite Hwl, Spent_exists. tauto.
  - rewrite Hwl. setoid_rewrite Spent_all. split; [naive_solver|]. intros ((R & H1 & H2 & H3 & H4) & H5). split_and!; [done|eauto|done..].
Qed.

(** C26. A follower of some contracts never diverges from the full ledger: what
    the full ledger applies it applies too, with the same indices, and it
    stays a follower with the same root.  Of the new coins it keeps available
    exactly those of its contracts, of the earlier ones what it had; of the new
    nullifiers it records exactly those of its contracts. *)
Theorem zswap_follower_simulates (c : coins) (full follower full' : State) (o : Off)
  (wl : whitelist_t) (idx : gmap (list Z) Z) :
  Follows c full follower -> State_try_apply full o None = Ret (full', idx) ->
  exists c' follower', State_try_apply follower o wl = Ret (follower', idx) /\
    Follows c' full' follower' /\
    rehash_root fr_zero transient_hash2 degrade_to_transient (coin_coms follower') =
    rehash_root fr_zero transient_hash2 degrade_to_transient (coin_coms full') /\
    (forall i, 0 <= i < first_free full ->
       c' i = c i /\ visible (coin_coms follower') i = visible (coin_coms follower) i) /\
    (forall i cm contract, first_free full <= i < first_free full' -> c' i = Some (cm, contract) ->
       visible (coin_coms follower') i = true <-> followed wl contract) /\
    (forall n contract, (n, contract) ∈ offer_spends o ->
       n ∈ nullifiers follower' <-> followed wl contract).
Proof.
  intros [F1 F2 F3 F4] E. destruct (State_try_apply_spec _ c o None full' idx F1 E) as (A & S & R).
  destruct (coins_ok_unique c _ _ _ _ (ok_coins _ _ F1) (ok_coins _ _ F2)) as [Hff Hset].
  pose proof (Added_Fits _ _ _ _ _ _ _ A) as Hfit.
  assert (Hfit' : Fits follower (offer_coins o).*1) by (unfold Fits in *; by rewrite <- Hff, <- Hset).
  destruct (Spent_weaken wl _ _ _ (nullifiers follower) S F4) as (a & Sf & Ha).
  destruct (State_try_apply_progress follower c o wl a F2) as (fw' & idx' & E'); [by rewrite F3|done|done|].
  destruct (State_try_apply_spec _ c o wl fw' idx' F2 E') as (A' & S' & _).
  rewrite (Spent_det _ _ _ _ _ Sf S') in Ha.
  rewrite (Added_indices _ _ _ _ _ _ _ _ _ _ _ _ Hff A A').
  pose proof (added_ok _ _ _ _ _ _ _ A) as Hok. pose proof (added_ok _ _ _ _ _ _ _ A') as Hok'.
  pose proof (coins_bound _ _ _ (ok_coins _ _ Hok)) as Hb. pose proof (coins_bound _ _ _ (ok_coins _ _ F1)) as Hb1.
  pose proof (added_first_free _ _ _ _ _ _ _ A) as Hff'.
  rewrite <- Hff in Hok'. exists (append c (first_free full) (offer_coins o)), fw'.
  split_and!; [done| | | | |].
  - split; [done|done| |done].
    rewrite (added_roots _ _ _ _ _ _ _ A), (added_roots _ _ _ _ _ _ _ A'). done.
  - by rewrite (rehash_root_spec _ _ _ _ _ _ (ok_rep _ _ Hok)), (rehash_root_spec _ _ _ _ _ _ (ok_rep _ _ Hok')).
  - intros i Hi. rewrite append_lookup, (added_visible _ _ _ _ _ _ _ A') by lia. rewrite <- Hff.
    by destruct (Z.leb_spec (first_free full) i); [lia|].
  - intros i cm contract Hi. rewrite append_lookup, (added_visible _ _ _ _ _ _ _ A') by lia. rewrite <- Hff.
    destruct (Z.leb_spec (first_free full) i); [|lia]. cbn [andb].
    destruct (Z.ltb_spec i (first_free full + Z.of_nat (length (offer_coins o)))); [|lia].
    destruct (offer_coins o !! Z.to_nat (i - first_free full)) as [e|] eqn:Ee.
    + intros [= ->]. apply on_whitelist_followed.
    + apply lookup_ge_None in Ee. lia.
  - intros n contract Hn. eapply Spent_tracked; [exact S'|exact Hn|].
    by apply Spent_all in S as (? & _).
Qed.

(** Filtering for contracts: on a hashed state whose tree is not full,
    [filter] returns a tree with the same root in which exactly the coins of
    those contracts (and the free indices) stay available; for each such coin
    the filtered tree yields a Merkle path to the ledger's root. *)
Theorem zswap_filter_keeps_paths (st : State) (c : coins) (flt : list ContractAddress) :
  State_ok st c -> first_free st < pow2 H ->
  is_Some (node_root fr_zero degrade_to_transient (coin_coms st)) ->
  exists tree, State_filter st flt = Ret tree /\
    node_root fr_zero degrade_to_transient tree = node_root fr_zero degrade_to_transient (coin_coms st) /\
    (forall j, 0 <= j < first_free st -> visible tree j = true <->
       visible (coin_coms st) j = true /\ exists cm addr, c j = Some (cm, Some addr) /\ addr ∈ flt) /\
    forall j cm addr, 0 <= j < first_free st -> visible (coin_coms st) j = true ->
      c j = Some (cm, Some addr) -> addr ∈ flt ->
      exists p, path_for_leaf fr_zero degrade_to_transient tree j cm = Ret p /\ path_leaf p = cm /\
        node_root fr_zero degrade_to_transient (coin_coms st) =
        Some (MerklePath_root transient_hash2 degrade_to_transient id p).
Proof.
  intros Hok Hff Hrt. destruct (State_filter_spec st c flt Hok Hff) as (tree & E & HR & Hrt' & HV).
  specialize (Hrt' Hrt). pose proof (ok_rep _ _ Hok) as HR0.
  pose proof (coins_bound _ _ _ (ok_coins _ _ Hok)) as Hb.
  assert (Hvis : forall j, 0 <= j < first_free st -> visible tree j = true <->
       visible (coin_coms st) j = true /\ exists cm addr, c j = Some (cm, Some addr) /\ addr ∈ flt).
  { intros j Hj. rewrite HV by lia. destruct (Z.leb_spec (first_free st) j); [lia|]. cbn [orb].
    rewrite andb_true_iff, bool_decide_eq_true, (retained_indices_spec st c) by done. tauto. }
  destruct Hrt as [x Hx], Hrt' as [x' Hx'].
  pose proof (Rep_root _ _ _ _ _ _ _ HR0 Hx) as Ex. pose proof (Rep_root _ _ _ _ _ _ _ HR Hx') as Ex'.
  exists tree. split_and!; [done|congruence|done|].
  intros j cm addr Hj Hv Hc Hin.
  destruct (path_for_leaf_spec fr_zero transient_hash2 degrade_to_transient id H c tree j cm (Some addr) HR)
    as (p & Ep & _ & Hp & Hroot); [eauto|lia|done|apply Hvis; eauto|].
  exists p. split_and!; [done..|]. rewrite Hx, Ex. by f_equal.
Qed.

(** After a block: the update succeeds, keeps the invariant and the coins,
    hashes the tree, and the roots a spend may refer to are the new root and
    those recorded at other times within the retention period. *)
Theorem zswap_post_block (st : State) (c : coins) (tblock : Timestamp) (d : Duration) :
  State_ok st c -> in_u 64 tblock -> in_u 64 d ->
  multiset_count (tset (past_roots st)) (mroot H c) < u_max 32 ->
  exists st', post_block_update st tblock d = Ret st' /\ State_ok st' c /\
    coin_coms_set st' = coin_coms_set st /\ first_free st' = first_free st /\
    nullifiers st' = nullifiers st /\
    node_root fr_zero degrade_to_transient (coin_coms st') = Some (mroot H c) /\
    forall r, TimeFilterMap_contains (past_roots st') r = true <->
      r = mroot H c \/
      exists ts, ts <> tblock /\ Z.max (tblock - d) 0 <= ts /\ time_map (past_roots st) !! ts = Some r.
Proof.
  intros Hok Ht Hd Hm. destruct (post_block_update_spec st c tblock d Hok Ht Hd Hm)
    as (st' & H1 & H2 & H3 & H4 & H5 & H6 & _ & H7). exists st'. split_and!; done.
Qed.

(** C27. Every reachable ledger state is consistent: its tree represents coins
    that fill the indices below the first free one, no commitment twice, the
    commitment set is the set of those, and the count of each recent root is
    the number of its entries. *)
Theorem zswap_reachable_consistent (st : State) :
  reachable st ->
  exists c, Rep H c (coin_coms st) /\ 0 <= first_free st <= pow2 H /\
    (forall i, 0 <= i < pow2 H -> is_Some (c i) <-> i < first_free st) /\
    (forall cm, cm ∈ coin_coms_set st <-> exists i a, 0 <= i < first_free st /\ c i = Some (cm, a)) /\
    (forall i j cm a b, 0 <= i < first_free st -> 0 <= j < first_free st ->
       c i = Some (cm, a) -> c j = Some (cm, b) -> i = j) /\
    tfm_ok (past_roots st).
Proof.
  intros [c [HR [C1 C2 C3 C4] HV HT]]%reachable_ok. exists c. by split_and!; try apply C1.
Qed.
End Ledger.

(** ** A ledger for the examples

    One output to a contract, one to a user, one transient; then a spend. *)
Module LedgerExample.
Definition hash2 (a b : Z) : Z := (3 * a + 5 * b + 1) mod 1000003.
Definition degrade (l : list Z) : Z := 1 + foldr Z.add 0 l.

Definition out1 : @Output Z Z Z := mkOutput [2] 4 (Some [9]) None 0.
Definition out2 : @Output Z Z Z := mkOutput [3] 4 None None 0.
Definition tr1 : @Transient Z Z Z := mkTransient [7] [4] 0 0 None None 0 0.
Definition o1 : @Offer Z Z Z Z := mkOffer [] [out1; out2] [tr1] [].

Definition apply := @State_try_apply Z Z Z Z 0 hash2 degrade.
Definition post := post_block_update 0 hash2 degrade.

Definition out_state {E A} (d : A) (r : outcome E (A * gmap (list Z) Z)) : A :=
  match r with Ret (st, _) => st | _ => d end.
Definition out_map {E A} (r : outcome E (A * gmap (list Z) Z)) : gmap (list Z) Z :=
  match r with Ret (_, m) => m | _ => ∅ end.

Definition st1 : State := out_state State_default (apply State_default o1 None).
Definition idx1 : gmap (list Z) Z := out_map (apply State_default o1 None).
Definition st2 : State := match post st1 100 10 with Ret st => st | _ => st1 end.

Lemma apply1 : apply State_default o1 None = Ret (st1, idx1).
Proof. vm_compute. reflexivity. Qed.

Lemma st1_ok : exists c, State_ok 0 hash2 degrade st1 c.
Proof.
  eexists. eapply added_ok. eapply (State_try_apply_spec 0 hash2 degrade _ _ o1).
  - apply State_default_ok.
  - exact apply1.
Qed.
End LedgerExample.

Lemma zswap_no_double_spend_witness :
  exists e, LedgerExample.apply LedgerExample.st1 LedgerExample.o1 None = Fail e.
Proof.
  apply (zswap_no_double_spend 0 LedgerExample.hash2 LedgerExample.degrade State_default
    LedgerExample.st1 cempty LedgerExample.o1 LedgerExample.idx1) with (n := [7]).
  - apply State_default_ok.
  - exact LedgerExample.apply1.
  - left.
  - left.
Defined.

Lemma zswap_apply_refines_witness :
  LedgerExample.idx1 !! [3] = Some 1 /\ first_free LedgerExample.st1 = 3.
Proof.
  destruct (zswap_apply_refines 0 LedgerExample.hash2 LedgerExample.degrade State_default
    LedgerExample.st1 cempty LedgerExample.o1 None LedgerExample.idx1) as (c & _ & F & I & _).
  - apply State_default_ok.
  - exact LedgerExample.apply1.
  - split; [|exact F]. destruct (I 1%nat [3] None eq_refl) as [E _]. exact E.
Defined.

Lemma zswap_acceptance_witness :
  LedgerExample.apply State_default LedgerExample.o1 None <> Panic /\ NoDup (offer_spends LedgerExample.o1).*1.
Proof.
  destruct (zswap_acceptance 0 LedgerExample.hash2 LedgerExample.degrade State_default cempty LedgerExample.o1 None
    (State_default_ok _ _ _)) as (Hp & _ & Ha).
  split; [exact Hp|]. apply Ha. eexists _, _. exact LedgerExample.apply1.
Defined.

Lemma zswap_follower_simulates_witness :
  exists follower, LedgerExample.apply State_default LedgerExample.o1 (Some {[ [9] ]})
    = Ret (follower, LedgerExample.idx1).
Proof.
  destruct (zswap_follower_simulates 0 LedgerExample.hash2 LedgerExample.degrade cempty
    State_default State_default LedgerExample.st1 LedgerExample.o1 (Some {[ [9] ]}) LedgerExample.idx1)
    as (c & fw & E & _ & _).
  - split; [apply State_default_ok..|reflexivity|reflexivity].
  - exact LedgerExample.apply1.
  - exists fw. exact E.
Defined.

Lemma zswap_post_block_witness :
  exists (c : @contents (list Z) (option (list Z))) st', LedgerExample.post LedgerExample.st1 100 10 = Ret st' /\
    TimeFilterMap_contains (past_roots st') (mroot 0 LedgerExample.hash2 LedgerExample.degrade 32 c) = true.
Proof.
  destruct LedgerExample.st1_ok as [c Hc]. exists c.
  destruct (zswap_post_block 0 LedgerExample.hash2 LedgerExample.degrade LedgerExample.st1 c 100 10)
    as (st' & E & _ & _ & _ & _ & _ & R).
  - exact Hc.
  - split; vm_compute; congruence.
  - split; vm_compute; congruence.
  - replace (past_roots LedgerExample.st1) with (@TimeFilterMap_new Z Z _ _) by (vm_compute; reflexivity).
    unfold multiset_count. cbn [tset TimeFilterMap_new]. rewrite lookup_empty. vm_compute. reflexivity.
  - exists st'. split; [exact E|]. apply R. by left.
Defined.

Lemma zswap_filter_keeps_paths_witness :
  exists tree, State_filter 0 LedgerExample.hash2 LedgerExample.degrade LedgerExample.st2 [[9]] = Ret tree /\
    node_root 0 LedgerExample.degrade tree = node_root 0 LedgerExample.degrade (coin_coms LedgerExample.st2).
Proof.
  assert (Hok : exists c, State_ok 0 LedgerExample.hash2 LedgerExample.degrade LedgerExample.st2 c).
  { apply (reachable_ok (T := Z) (Pedersen := Z) (Proof := Z) (Ciphertext := Z)). econstructor 3 with (st := LedgerExample.st1) (tblock := 100) (d := 10).
    - econstructor 2; [constructor 1|exact LedgerExample.apply1].
    - split; vm_compute; congruence.
    - split; vm_compute; congruence.
    - intros r.
      replace (past_roots LedgerExample.st1) with (@TimeFilterMap_new Z Z _ _) by (vm_compute; reflexivity).
      unfold multiset_count. cbn [tset TimeFilterMap_new]. rewrite lookup_empty. vm_compute. reflexivity.
    - vm_compute. reflexivity. }
  destruct Hok as [c Hok].
  destruct (zswap_filter_keeps_paths 0 LedgerExample.hash2 LedgerExample.degrade LedgerExample.st2 c [[9]])
    as (tree & E & R & _).
  - exact Hok.
  - vm_compute. reflexivity.
  - vm_compute. eauto.
  - exists tree. split; [exact E|exact R].
Defined.

Lemma zswap_reachable_consistent_witness :
  exists c, Rep 0 LedgerExample.hash2 LedgerExample.degrade 32 c (coin_coms LedgerExample.st1).
Proof.
  destruct (zswap_reachable_consistent (T := Z) (Pedersen := Z) (Proof := Z) (Ciphertext := Z)
    0 LedgerExample.hash2 LedgerExample.degrade LedgerExample.st1) as (c & HR & _).
  - econstructor 2; [constructor 1|exact LedgerExample.apply1].
  - exists c. exact HR.
Defined.
