(* ===== verification/Intents.v ===== *)
(** * Replay protection and unshielded outputs

    [ledger/src/semantics.rs]: [ReplayProtectionState], which remembers the
    hashes of the intents that were applied until their time to live is over,
    and [UtxoState], the unshielded outputs.  The structures are those of
    [ledger/src/structure.rs].  Hashes and addresses are byte strings; an
    intent is seen through its hash and its time to live. *)

From S2P Require Import Prelude Storage.
From stdpp Require Import gmap sorting.

Local Open Scope Z_scope.

Abbreviation IntentHash := (list Z) (only parsing).

(** ** Replay protection *)

Inductive TransactionApplicationError :=
| IntentTtlExpired (ttl tblock : Timestamp)
| IntentTtlTooFarInFuture (ttl limit : Timestamp)
| IntentAlreadyExists.

Record ReplayProtectionState := mkReplayProtectionState {
  time_filter_map : TimeFilterMap (gset IntentHash) IntentHash
}.

Definition ReplayProtectionState_new : ReplayProtectionState :=
  mkReplayProtectionState TimeFilterMap_new.

Definition apply_member (self : ReplayProtectionState) (hash : IntentHash) (ttl tblock : Timestamp)
  (global_ttl : Duration) : result TransactionApplicationError ReplayProtectionState :=
  if TimeFilterMap_contains (time_filter_map self) hash then Err IntentAlreadyExists
  else if ttl <? tblock then Err (IntentTtlExpired ttl tblock)
  else if Timestamp_add_duration tblock global_ttl <? ttl then
    Err (IntentTtlTooFarInFuture ttl (Timestamp_add_duration tblock global_ttl))
  else Ok (mkReplayProtectionState (TimeFilterMap_upsert_one (time_filter_map self) ttl hash)).

Definition replay_post_block_update (self : ReplayProtectionState) (tblock : Timestamp)
  : ReplayProtectionState :=
  mkReplayProtectionState (TimeFilterMap_filter (time_filter_map self) tblock).

Section replay.
Context {Intent : Type}.
(** The hash of an intent without its proofs and signatures, for a segment. *)
Variable intent_hash : Intent -> Z -> IntentHash.
Variable intent_ttl : Intent -> Timestamp.
Implicit Types st : ReplayProtectionState.

Definition apply_intent st (intent : Intent) (tblock : Timestamp) (global_ttl : Duration)
  : result TransactionApplicationError ReplayProtectionState :=
  apply_member st (intent_hash intent 0) (intent_ttl intent) tblock global_ttl.

(** [intents.sorted_iter()]: the intents in the order of their segments. *)
Definition sorted_intents (intents : gmap Z Intent) : list Intent :=
  (merge_sort (fun a b : Z * Intent => a.1 <= b.1) (map_to_list intents)).*2.

Definition apply_tx st (intents : gmap Z Intent) (tblock : Timestamp) (global_ttl : Duration)
  : result TransactionApplicationError ReplayProtectionState :=
  try_fold (fun st intent => apply_intent st intent tblock global_ttl) st (sorted_intents intents).

(** *** States of a chain

    The state at a block time, with the intents accepted so far as pairs of a
    hash and a time to live.  Block times do not decrease; the entries before
    the block time are dropped after a block. *)

Context (global_ttl : Duration).

Inductive replayed : ReplayProtectionState -> Timestamp -> list (IntentHash * Timestamp) -> Prop :=
| replayed_new t : in_u 64 t -> replayed ReplayProtectionState_new t []
| replayed_tick st t t' hist : replayed st t hist -> t <= t' -> in_u 64 t' -> replayed st t' hist
| replayed_member st t hist hash ttl st' :
    replayed st t hist -> apply_member st hash ttl t global_ttl = Ok st' ->
    replayed st' t ((hash, ttl) :: hist)
| replayed_block st t hist : replayed st t hist -> replayed (replay_post_block_update st t) t hist.

Lemma apply_member_Ok st hash ttl t st' :
  apply_member st hash ttl t global_ttl = Ok st' <->
  TimeFilterMap_contains (time_filter_map st) hash = false /\
  t <= ttl <= Timestamp_add_duration t global_ttl /\
  st' = mkReplayProtectionState (TimeFilterMap_upsert_one (time_filter_map st) ttl hash).
Proof.
  unfold apply_member. destruct (TimeFilterMap_contains _ _); [split; [done|by intros [? _]]|].
  destruct (Z.ltb_spec ttl t); [split; [done|lia]|].
  destruct (Z.ltb_spec (Timestamp_add_duration t global_ttl) ttl); [split; [done|lia]|].
  split; [by intros [= <-]|]. by intros (_ & _ & ->).
Qed.

(** What a state holds after a history: a hash at its time to live for every
    intent that is still live, and nothing but accepted intents. *)
Record Holds (st : ReplayProtectionState) (t : Timestamp) (hist : list (IntentHash * Timestamp)) : Prop := {
  holds_ok : tfm_ok (time_filter_map st);
  holds_live hash ttl : (hash, ttl) ∈ hist -> t <= ttl ->
    exists s, time_map (time_filter_map st) !! ttl = Some s /\ hash ∈ s;
  holds_only hash ttl s : time_map (time_filter_map st) !! ttl = Some s -> hash ∈ s -> (hash, ttl) ∈ hist
}.

Lemma contains_set st (hash : IntentHash) :
  tfm_ok (time_filter_map st) ->
  TimeFilterMap_contains (time_filter_map st) hash = true <->
  exists ttl s, time_map (time_filter_map st) !! ttl = Some s /\ hash ∈ s.
Proof.
  intros Hok. rewrite TimeFilterMap_contains_spec by done.
  split; intros (ttl & s & Hs & Hin); exists ttl, s; (split; [done|]); by apply elem_of_elements.
Qed.

Lemma Holds_new t : Holds ReplayProtectionState_new t [].
Proof. split; [apply TimeFilterMap_new_ok|by intros ? ? ?%not_elem_of_nil|done]. Qed.

Lemma Holds_tick st t t' hist : Holds st t hist -> t <= t' -> Holds st t' hist.
Proof. intros [H1 H2 H3] Hle. split; [done| |done]. intros h ttl Hin Hl. apply (H2 h ttl Hin). lia. Qed.

Lemma Holds_member st t hist hash ttl st' : Holds st t hist -> apply_member st hash ttl t global_ttl = Ok st' -> Holds st' t ((hash, ttl) :: hist).
Proof.
  intros [H1 H2 H3] E. apply apply_member_Ok in E as (Hnew & Hb & ->).
  split; [by apply TimeFilterMap_upsert_one_ok| |]; cbn [time_filter_map].
  - intros h l Hin Hl. rewrite TimeFilterMap_upsert_one_lookup.
    apply elem_of_cons in Hin as [[= -> ->]|Hin].
    { rewrite decide_True by done. eexists. split; [done|set_solver]. }
    destruct (H2 h l Hin Hl) as (s & Hs & Hh). destruct (decide (l = ttl)) as [->|]; [|by exists s].
    rewrite Hs. eexists. split; [done|]. set_solver.
  - intros h l s. rewrite TimeFilterMap_upsert_one_lookup. destruct (decide (l = ttl)) as [->|].
    + intros [= <-] [Hh|Hh%elem_of_singleton]%elem_of_union; [|subst; left].
      right. destruct (time_map _ !! ttl) as [s|] eqn:Es; [by eapply H3|set_solver].
    + intros Hs Hh. right. by eapply H3.
Qed.

Lemma Holds_block st t hist : Holds st t hist -> Holds (replay_post_block_update st t) t hist.
Proof.
  intros [H1 H2 H3]. split; [by apply TimeFilterMap_filter_ok| |]; cbn [time_filter_map replay_post_block_update].
  - intros h l Hin Hl. rewrite TimeFilterMap_filter_lookup. rewrite decide_True by done. by apply (H2 h).
  - intros h l s. rewrite TimeFilterMap_filter_lookup. case_decide; [|done]. apply H3.
Qed.

Lemma replayed_holds st t hist : replayed st t hist -> Holds st t hist.
Proof.
  induction 1 as [t Ht|st t t' hist _ IH Hle Ht|st t hist hash ttl st' _ IH E|st t hist _ IH].
  - apply Holds_new.
  - by eapply Holds_tick.
  - by eapply Holds_member.
  - by apply Holds_block.
Qed.

(** What was accepted is rejected from then on. *)
Lemma holds_rejects st t hist hash ttl :
  Holds st t hist -> (hash, ttl) ∈ hist -> exists e, apply_member st hash ttl t global_ttl = Err e.
Proof.
  intros HH Hin. unfold apply_member. destruct (TimeFilterMap_contains _ _) eqn:E; [eauto|].
  destruct (Z.ltb_spec ttl t); [eauto|]. exfalso.
  destruct (holds_live _ _ _ HH hash ttl Hin) as (s & Hs & Hh); [done|].
  rewrite (proj2 (contains_set st hash (holds_ok _ _ _ HH))) in E; [done|by exists ttl, s].
Qed.

Lemma replayed_NoDup st t hist : replayed st t hist -> NoDup hist.
Proof.
  induction 1 as [t Ht|st t t' hist _ IH Hle Ht|st t hist hash ttl st' Hr IH E|st t hist _ IH]; [constructor|done| |done].
  constructor; [|done]. intros Hin.
  destruct (holds_rejects st t hist hash ttl (replayed_holds _ _ _ Hr) Hin) as (e & E'). congruence.
Qed.

(** The intents of an applied transaction join the history. *)
Lemma try_fold_replayed l : forall st t hist st',
  replayed st t hist -> try_fold (fun st i => apply_intent st i t global_ttl) st l = Ok st' ->
  replayed st' t (reverse ((fun i => (intent_hash i 0, intent_ttl i)) <$> l) ++ hist).
Proof.
  induction l as [|i l IH]; intros st t hist st' Hr E; cbn [try_fold] in E; [by injection E as <-|].
  destruct (apply_intent st i t global_ttl) as [st1|] eqn:Ei; [|done].
  rewrite fmap_cons, reverse_cons, <- app_assoc. eapply IH; [|exact E]. by eapply replayed_member.
Qed.

Lemma try_fold_holds l : forall st t hist st',
  Holds st t hist -> try_fold (fun st i => apply_intent st i t global_ttl) st l = Ok st' ->
  Holds st' t (reverse ((fun i => (intent_hash i 0, intent_ttl i)) <$> l) ++ hist).
Proof.
  induction l as [|i l IH]; intros st t hist st' Hr E; cbn [try_fold] in E; [by injection E as <-|].
  destruct (apply_intent st i t global_ttl) as [st1|] eqn:Ei; [|done].
  rewrite fmap_cons, reverse_cons, <- app_assoc. eapply IH; [|exact E]. by eapply Holds_member.
Qed.

(** A transaction with an intent that was accepted before is rejected. *)
Lemma try_fold_rejects l i : forall st t hist,
  Holds st t hist -> i ∈ l -> (intent_hash i 0, intent_ttl i) ∈ hist ->
  exists e, try_fold (fun st i => apply_intent st i t global_ttl) st l = Err e.
Proof.
  induction l as [|j l IH]; intros st t hist HH Hi Hin; [by apply not_elem_of_nil in Hi|]. cbn [try_fold].
  destruct (apply_intent st j t global_ttl) as [st1|e] eqn:Ej; [|eauto]. apply elem_of_cons in Hi as [<-|Hi].
  - destruct (holds_rejects st t hist _ _ HH Hin) as [e E]. unfold apply_intent in Ej. congruence.
  - eapply IH; [by eapply Holds_member|done|by right].
Qed.

(** So is one in which an intent occurs twice. *)
Lemma try_fold_rejects_twice l1 i l2 j : forall st t hist, Holds st t hist -> j ∈ l2 ->
  (intent_hash j 0, intent_ttl j) = (intent_hash i 0, intent_ttl i) ->
  exists e, try_fold (fun st i => apply_intent st i t global_ttl) st (l1 ++ i :: l2) = Err e.
Proof.
  induction l1 as [|k l1 IH]; intros st t hist HH Hj Hk; cbn [app try_fold].
  - destruct (apply_intent st i t global_ttl) as [st1|e] eqn:Ei; [|eauto].
    eapply try_fold_rejects; [by eapply Holds_member|exact Hj|]. rewrite Hk. left.
  - destruct (apply_intent st k t global_ttl) as [st1|e] eqn:Ek; [|eauto]. eapply IH; [by eapply Holds_member|done|done].
Qed.

Lemma sorted_intents_two (m : gmap Z Intent) s s' i i' : s <> s' -> m !! s = Some i -> m !! s' = Some i' ->
  exists l1 x l2 y, sorted_intents m = l1 ++ x :: l2 /\ y ∈ l2 /\ ((x = i /\ y = i') \/ (x = i' /\ y = i)).
Proof.
  intros Hne Hs Hs'. unfold sorted_intents. set (L := merge_sort _ _).
  assert (Hin : (s, i) ∈ L /\ (s', i') ∈ L) by (unfold L; rewrite !merge_sort_Permutation, !elem_of_map_to_list; done).
  destruct Hin as [[l1 [l2 E]]%list_elem_of_split Hi']. rewrite E in Hi' |- *. rewrite fmap_app, fmap_cons.
  apply elem_of_app in Hi' as [Hi'|[[= ->]|Hi']%elem_of_cons]; [|done|].
  - apply list_elem_of_split in Hi' as (l3 & l4 & ->). rewrite fmap_app, fmap_cons, <- app_assoc. cbn [app].
    exists l3.*2, i', (l4.*2 ++ i :: l2.*2), i. split_and!; [done| |by right]. apply elem_of_app. right. left.
  - exists l1.*2, i, l2.*2, i'. split_and!; [done| |by left]. apply list_elem_of_fmap. by exists (s', i').
Qed.

Lemma elem_of_sorted_intents intents i :
  i ∈ sorted_intents intents <-> exists segment, intents !! segment = Some i.
Proof.
  unfold sorted_intents. rewrite (list_elem_of_fmap snd). split.
  - intros ([sg j] & -> & Hin). rewrite merge_sort_Permutation in Hin. apply elem_of_map_to_list in Hin. by exists sg.
  - intros (sg & Hsg). exists (sg, i). split; [done|]. rewrite merge_sort_Permutation. by apply elem_of_map_to_list.
Qed.

(** Times to live are within the global limit, which moves with the block time. *)
Lemma Timestamp_add_mono t t' d : t <= t' -> Timestamp_add_duration t d <= Timestamp_add_duration t' d.
Proof. intros Ht. unfold Timestamp_add_duration, sat_add, sat_sub. destruct (0 <=? d); lia. Qed.

Lemma replayed_window st t hist ttl s :
  replayed st t hist -> time_map (time_filter_map st) !! ttl = Some s ->
  ttl <= Timestamp_add_duration t global_ttl.
Proof.
  intros Hr; revert ttl s.
  induction Hr as [t Ht|st t t' hist _ IH Hle Ht|st t hist hash l st' _ IH E|st t hist _ IH]; intros ttl s.
  - done.
  - intros Hs%IH. pose proof (Timestamp_add_mono t t' global_ttl Hle). lia.
  - apply apply_member_Ok in E as (_ & Hb & ->). cbn [time_filter_map].
    rewrite TimeFilterMap_upsert_one_lookup. case_decide; [lia|apply IH].
  - cbn [time_filter_map replay_post_block_update]. rewrite TimeFilterMap_filter_lookup.
    case_decide; [apply IH|done].
Qed.
End replay.

(** ** Unshielded outputs *)

Record Utxo := mkUtxo {
  utxo_value : Z;
  utxo_owner : list Z;
  utxo_type : list Z;
  utxo_intent_hash : IntentHash;
  utxo_output_no : Z
}.

Record UtxoOutput := mkUtxoOutput {
  output_value : Z;
  output_owner : list Z;
  output_type : list Z
}.

#[export] Instance Utxo_eq_dec : EqDecision Utxo.
Proof. solve_decision. Defined.

#[export] Instance Utxo_countable : Countable Utxo.
Proof.
  refine (inj_countable' (fun u => (utxo_value u, utxo_owner u, utxo_type u, utxo_intent_hash u, utxo_output_no u))
    (fun '(a, b, c, d, e) => mkUtxo a b c d e) _).
  by intros [].
Defined.

Record UtxoMeta := mkUtxoMeta { ctime : Timestamp }.

Record UtxoState := mkUtxoState { utxos : gmap Utxo UtxoMeta }.

Definition UtxoState_insert (self : UtxoState) (utxo : Utxo) (meta : UtxoMeta) : UtxoState :=
  mkUtxoState (<[utxo := meta]> (utxos self)).

Definition UtxoState_remove (self : UtxoState) (utxo : Utxo) : UtxoState :=
  mkUtxoState (delete utxo (utxos self)).

(** The error of [TransactionInvalid] that spending can give. *)
Inductive UtxoInvalid :=
| InputNotInUtxos (utxo : Utxo).

Section utxo.
Context {VerifyingKey : Type}.
(** The address of a verifying key, its hash. *)
Variable user_address : VerifyingKey -> list Z.

Record UtxoSpend := mkUtxoSpend {
  spend_value : Z;
  spend_owner : VerifyingKey;
  spend_type : list Z;
  spend_intent_hash : IntentHash;
  spend_output_no : Z
}.

Record UnshieldedOffer := mkUnshieldedOffer {
  uo_inputs : list UtxoSpend;
  uo_outputs : list UtxoOutput
}.

Definition Utxo_from (x : UtxoSpend) : Utxo :=
  mkUtxo (spend_value x) (user_address (spend_owner x)) (spend_type x) (spend_intent_hash x) (spend_output_no x).

(** The outputs as unspent outputs of the intent, numbered from zero. *)
Definition offer_utxos (offer : UnshieldedOffer) (intent_hash : IntentHash) : list Utxo :=
  imap (fun output_no output =>
          mkUtxo (output_value output) (output_owner output) (output_type output) intent_hash
            (wrap 32 (Z.of_nat output_no))) (uo_outputs offer).

(** The loop over the inputs: remove the output that is spent. *)
Definition spend_one (res : UtxoState) (input : UtxoSpend) : result UtxoInvalid UtxoState :=
  let input_utxo := Utxo_from input in
  if bool_decide (is_Some (utxos res !! input_utxo)) then Ok (UtxoState_remove res input_utxo)
  else Err (InputNotInUtxos input_utxo).

Definition apply_offer (self : UtxoState) (offer : UnshieldedOffer) (intent_hash : IntentHash)
  (tblock : Timestamp) : result UtxoInvalid UtxoState :=
  res ← try_fold spend_one self (uo_inputs offer);
  let outputs : gset Utxo := list_to_set (offer_utxos offer intent_hash) in
  Ok (foldl (fun res output => UtxoState_insert res output (mkUtxoMeta tblock)) res (elements outputs)).
(** *** Amounts *)

(** The amount of a token in a list of outputs, and in a state. *)
Definition amount_of (type : list Z) (u : Utxo) : Z := if decide (utxo_type u = type) then utxo_value u else 0.
Definition amount (type : list Z) (l : list Utxo) : Z := foldr (fun u n => amount_of type u + n) 0 l.
Definition total (type : list Z) (m : gmap Utxo UtxoMeta) : Z := amount type (map_to_list m).*1.

#[local] Instance amount_perm type : Proper ((≡ₚ) ==> (=)) (amount type).
Proof. intros l1 l2 Hp. induction Hp as [|u l1 l2 _ IH|u u' l|l1 l2 l3 _ IH1 _ IH2]; simpl; lia. Qed.

Lemma total_delete type m u :
  is_Some (m !! u) -> total type m = amount_of type u + total type (delete u m).
Proof.
  intros [x Hx]. unfold total. by rewrite <- (map_to_list_delete m u x Hx).
Qed.

Lemma total_insert type m u x :
  m !! u = None -> total type (<[u := x]> m) = amount_of type u + total type m.
Proof. intros Hx. unfold total. by rewrite map_to_list_insert. Qed.

(** *** Spending the inputs *)

(** Spending succeeds exactly when the outputs exist and are distinct. *)
Lemma spend_inputs l : forall st,
  match try_fold spend_one st l with
  | Ok st' => NoDup (Utxo_from <$> l) /\ Forall (fun u => is_Some (utxos st !! u)) (Utxo_from <$> l) /\
      (forall u, utxos st' !! u = if decide (u ∈ Utxo_from <$> l) then None else utxos st !! u) /\
      forall type, total type (utxos st) = amount type (Utxo_from <$> l) + total type (utxos st')
  | Err (InputNotInUtxos u) => u ∈ Utxo_from <$> l /\
      (utxos st !! u = None \/ ~ NoDup (Utxo_from <$> l))
  end.
Proof.
  induction l as [|x l IH]; intros st; cbn [try_fold].
  - split_and!; [constructor|constructor| |done]. intros u. by rewrite decide_False by apply not_elem_of_nil.
  - unfold spend_one at 1. cbv zeta. rewrite fmap_cons. set (y := Utxo_from x) in *.
    destruct (decide (is_Some (utxos st !! y))) as [Hy|Hy].
    2: { rewrite bool_decide_eq_false_2 by done. split; [left|]. left. by apply eq_None_not_Some. }
    rewrite bool_decide_eq_true_2 by done. specialize (IH (UtxoState_remove st y)).
    destruct (try_fold spend_one (UtxoState_remove st y) l) as [st'|[u]]; cbn [utxos UtxoState_remove] in IH.
    + destruct IH as (Hnd & Hin & Hlk & Htot). assert (Hfresh : y ∉ Utxo_from <$> l).
      { intros Hyl. rewrite Forall_forall in Hin. specialize (Hin y Hyl). rewrite lookup_delete_eq in Hin. by destruct Hin. }
      split_and!.
      * by constructor.
      * constructor; [done|]. eapply Forall_impl; [exact Hin|]. cbn. intros u Hu.
        destruct (decide (u = y)) as [->|]; [done|]. by rewrite lookup_delete_ne in Hu by done.
      * intros u. rewrite Hlk. destruct (decide (u = y)) as [->|Hne].
        { rewrite decide_False by done. rewrite decide_True by (by left). apply lookup_delete_eq. }
        rewrite lookup_delete_ne by done. destruct (decide (u ∈ Utxo_from <$> l)) as [Hu|Hu].
        { by rewrite decide_True by (by right). }
        by rewrite decide_False by (intros [|]%elem_of_cons; done).
      * intros type. cbn [amount foldr]. rewrite (total_delete type _ y Hy), Htot. unfold amount. lia.
    + destruct IH as [Hu [Hn|Hn]]; (split; [by right|]).
      * destruct (decide (u = y)) as [->|Hne]; [right; intros [Hy' _]%NoDup_cons; done|].
        left. by rewrite lookup_delete_ne in Hn by done.
      * right. by intros [_ ?]%NoDup_cons.
Qed.

(** *** Adding the outputs *)

Lemma insert_outputs meta l : forall st,
  NoDup l -> let st' := foldl (fun res output => UtxoState_insert res output meta) st l in
  (forall u, utxos st' !! u = if decide (u ∈ l) then Some meta else utxos st !! u) /\
  ((forall u, u ∈ l -> utxos st !! u = None) ->
   forall type, total type (utxos st') = amount type l + total type (utxos st)).
Proof.
  induction l as [|y l IH]; intros st Hnd; cbn [foldl].
  - split; [|done]. intros u. by rewrite decide_False by apply not_elem_of_nil.
  - apply NoDup_cons in Hnd as [Hy Hnd]. destruct (IH (UtxoState_insert st y meta) Hnd) as [Hlk Htot]. split.
    + intros u. rewrite Hlk. cbn [utxos UtxoState_insert]. destruct (decide (u ∈ l)) as [Hu|Hu].
      { by rewrite decide_True by (by right). }
      destruct (decide (u = y)) as [->|Hne].
      { rewrite decide_True by (by left). apply lookup_insert_eq. }
      rewrite lookup_insert_ne by done. by rewrite decide_False by (intros [|]%elem_of_cons; done).
    + intros Hf type. rewrite Htot; cbn [utxos UtxoState_insert].
      * rewrite total_insert by (apply Hf; by left). cbn [amount foldr]. unfold amount. lia.
      * intros u Hu. rewrite lookup_insert_ne by (by intros ->). apply Hf. by right.
Qed.

(** The outputs of an intent with fewer than [2^32] outputs are distinct. *)
Lemma offer_utxos_NoDup offer hash :
  Z.of_nat (length (uo_outputs offer)) <= 2 ^ 32 -> NoDup (offer_utxos offer hash).
Proof.
  intros Hl. unfold offer_utxos. apply NoDup_alt. intros i j u Hi Hj.
  rewrite list_lookup_imap in Hi, Hj.
  destruct (uo_outputs offer !! i) as [x|] eqn:Ei; [|done]. destruct (uo_outputs offer !! j) as [y|] eqn:Ej; [|done].
  simpl in Hi, Hj. rewrite <- Hj in Hi. injection Hi as _ _ _ Hw.
  apply lookup_lt_Some in Ei, Ej. unfold wrap in Hw. rewrite !Z.mod_small in Hw by lia. lia.
Qed.

Lemma offer_utxos_hash offer hash u : u ∈ offer_utxos offer hash -> utxo_intent_hash u = hash.
Proof.
  unfold offer_utxos. intros (i & Hi)%list_elem_of_lookup. rewrite list_lookup_imap in Hi.
  destruct (uo_outputs offer !! i); [|done]. simpl in Hi. by injection Hi as <-.
Qed.
End utxo.

(** ** Properties *)

(** Intents are not replayed: in every state of a chain whose block times do
    not decrease, no intent was accepted twice; an intent accepted before is
    rejected, alone or within a transaction, and an intent whose hash is new
    and whose time to live is within the limits is accepted.  After a block
    the recorded times lie between the block time and the global limit. *)
Theorem intents_not_replayed {Intent} (intent_hash : Intent -> Z -> IntentHash)
  (intent_ttl : Intent -> Timestamp) (global_ttl : Duration) (st : ReplayProtectionState) (t : Timestamp)
  (hist : list (IntentHash * Timestamp)) :
  replayed global_ttl st t hist ->
  NoDup hist /\
  (forall i, (intent_hash i 0, intent_ttl i) ∈ hist ->
     exists e, apply_intent intent_hash intent_ttl st i t global_ttl = Err e) /\
  (forall intents segment i, intents !! segment = Some i -> (intent_hash i 0, intent_ttl i) ∈ hist ->
     exists e, apply_tx intent_hash intent_ttl st intents t global_ttl = Err e) /\
  (forall i, (forall ttl, (intent_hash i 0, ttl) ∉ hist) ->
     t <= intent_ttl i <= Timestamp_add_duration t global_ttl ->
     exists st', apply_intent intent_hash intent_ttl st i t global_ttl = Ok st' /\
       replayed global_ttl st' t ((intent_hash i 0, intent_ttl i) :: hist)) /\
  (forall ttl s, time_map (time_filter_map (replay_post_block_update st t)) !! ttl = Some s ->
     t <= ttl <= Timestamp_add_duration t global_ttl).
Proof.
  intros Hr. pose proof (replayed_holds _ _ _ _ Hr) as HH. split_and!.
  - by eapply replayed_NoDup.
  - intros i Hi. by eapply holds_rejects.
  - intros intents sg i Hsg Hi. destruct (apply_tx _ _ st intents t global_ttl) as [st'|e] eqn:E; [exfalso|eauto].
    apply (try_fold_replayed _ _ _ _ _ _ _ _ Hr), replayed_NoDup, NoDup_app in E as (_ & E & _).
    apply (E (intent_hash i 0, intent_ttl i)); [|done]. apply elem_of_reverse, list_elem_of_fmap.
    exists i. split; [done|]. apply elem_of_sorted_intents. eauto.
  - intros i Hnew Hb. eexists. assert (E : apply_intent intent_hash intent_ttl st i t global_ttl = Ok
      (mkReplayProtectionState (TimeFilterMap_upsert_one (time_filter_map st) (intent_ttl i) (intent_hash i 0)))).
    { apply apply_member_Ok. split_and!; [|lia..|done]. apply not_true_is_false.
      rewrite contains_set by apply HH. intros (ttl & s & Hs & Hin). by apply (Hnew ttl), (holds_only _ _ _ HH _ _ s). }
    split; [exact E|]. by eapply replayed_member.
  - intros ttl s Hs. split.
    + cbn [time_filter_map replay_post_block_update] in Hs. rewrite TimeFilterMap_filter_lookup in Hs.
      by case_decide.
    + eapply replayed_window; [apply replayed_block, Hr|exact Hs].
Qed.

(** Unshielded outputs are spent once and amounts are conserved: an offer is
    applied exactly when the outputs it spends exist and are distinct.  Then
    the spent outputs are gone, the new ones are there with the block time, and
    nothing else changes; and when no output of this intent existed and there
    are at most [2^32] outputs, every token's total changes by the new minus
    the spent amounts. *)
Theorem utxo_apply_offer {VerifyingKey} (user_address : VerifyingKey -> list Z) (st : UtxoState)
  (offer : UnshieldedOffer) (hash : IntentHash) (t : Timestamp) :
  let spent := Utxo_from user_address <$> uo_inputs offer in
  let created := offer_utxos offer hash in
  match apply_offer user_address st offer hash t with
  | Ok st' =>
      NoDup spent /\ Forall (fun u => is_Some (utxos st !! u)) spent /\
      (forall u, utxos st' !! u = if decide (u ∈ created) then Some (mkUtxoMeta t)
                                  else if decide (u ∈ spent) then None else utxos st !! u) /\
      (Z.of_nat (length (uo_outputs offer)) <= 2 ^ 32 ->
       (forall u, is_Some (utxos st !! u) -> utxo_intent_hash u <> hash) ->
       forall type, total type (utxos st') = total type (utxos st) - amount type spent + amount type created)
  | Err (InputNotInUtxos u) => u ∈ spent /\ (utxos st !! u = None \/ ~ NoDup spent)
  end.
Proof.
  cbv zeta. unfold apply_offer. pose proof (spend_inputs user_address (uo_inputs offer) st) as Hs.
  destruct (try_fold (spend_one user_address) st (uo_inputs offer)) as [st1|[u]]; [|done].
  destruct Hs as (Hnd & Hin & Hlk & Htot). cbn [mbind result_bind].
  set (outs := elements (list_to_set (offer_utxos offer hash) : gset Utxo)).
  assert (Ho : forall u, u ∈ outs <-> u ∈ offer_utxos offer hash).
  { intros u. unfold outs. by rewrite elem_of_elements, elem_of_list_to_set. }
  destruct (insert_outputs (mkUtxoMeta t) outs st1) as [Hlk2 Htot2]; [apply NoDup_elements|].
  split_and!; [done|done| |].
  - intros u. rewrite Hlk2, Hlk. destruct (decide (u ∈ outs)) as [Hu|Hu].
    + by rewrite decide_True by by apply Ho.
    + by rewrite (decide_False (P := u ∈ offer_utxos offer hash)) by by rewrite <- Ho.
  - intros Hl Hfresh type. rewrite Htot2, (Htot type).
    + assert (Hp : outs ≡ₚ offer_utxos offer hash).
      { apply NoDup_Permutation; [apply NoDup_elements|by apply offer_utxos_NoDup|done]. }
      rewrite (amount_perm type _ _ Hp). lia.
    + intros u Hu. apply Ho, offer_utxos_hash in Hu. rewrite Hlk. case_decide; [done|].
      destruct (utxos st !! u) eqn:E; [|done]. exfalso. apply (Hfresh u); [by rewrite E|done].
Qed.

(** ** Examples *)

Module IntentExample.
(** Intents as a number for the hash and a time to live. *)
Definition hash (i : Z * Z) (segment : Z) : IntentHash := [i.1; segment].

Definition st0 : ReplayProtectionState := ReplayProtectionState_new.
Definition st1 : ReplayProtectionState :=
  match apply_intent hash snd st0 (1, 150) 100 60 with Ok st => st | Err _ => st0 end.

(** One intent applied at time 100, then a block. *)
Lemma st1_replayed : replayed 60 (replay_post_block_update st1 100) 100 [([1; 0], 150)].
Proof.
  apply replayed_block. eapply (replayed_member 60 st0); [|vm_compute; reflexivity].
  apply replayed_new. split; vm_compute; [discriminate|reflexivity].
Qed.

Definition owner (k : Z) : list Z := [k].
Definition night : list Z := [0].
Definition coin : Utxo := mkUtxo 10 (owner 7) night [42] 0.
Definition offer : UnshieldedOffer :=
  mkUnshieldedOffer [mkUtxoSpend 10 7 night [42] 0] [mkUtxoOutput 4 [8] night; mkUtxoOutput 6 [7] night].
Definition ust : UtxoState := mkUtxoState {[ coin := mkUtxoMeta 5 ]}.
End IntentExample.

(** The applied intent is rejected in any transaction; another one is accepted. *)
Lemma intents_not_replayed_witness :
  let st := replay_post_block_update IntentExample.st1 100 in
  (exists e, apply_tx IntentExample.hash snd st {[ 3 := (1, 150) ]} 100 60 = Err e) /\
  exists st', apply_intent IntentExample.hash snd st (2, 160) 100 60 = Ok st'.
Proof.
  destruct (intents_not_replayed IntentExample.hash snd 60 _ 100 _ IntentExample.st1_replayed)
    as (_ & _ & Htx & Hnew & _). split.
  - apply (Htx _ 3 (1, 150)); [vm_compute; reflexivity|by left].
  - destruct (Hnew (2, 160)) as (st' & E & _); [|vm_compute; split; discriminate|by exists st'].
    intros ttl [= ?]%list_elem_of_singleton.
Defined.

(** Spending an output of 10 for outputs of 4 and 6. *)
Lemma utxo_apply_offer_witness :
  exists st', apply_offer IntentExample.owner IntentExample.ust IntentExample.offer [43] 100 = Ok st' /\
    total IntentExample.night (utxos st') = 10.
Proof.
  pose proof (utxo_apply_offer IntentExample.owner IntentExample.ust IntentExample.offer [43] 100) as H.
  cbv zeta in H. destruct (apply_offer _ _ _ _ _) as [st'|e] eqn:E.
  - exists st'. split; [done|]. destruct H as (_ & _ & _ & Ht). rewrite Ht.
    + vm_compute. reflexivity.
    + vm_compute. discriminate.
    + intros u [m Hm]. unfold IntentExample.ust in Hm. cbn [utxos] in Hm.
      apply lookup_singleton_Some in Hm as [<- _]. discriminate.
  - vm_compute in E. discriminate.
Defined.
