(* ===== verification/Dust.v ===== *)
(** * Dust: the value of fee tokens and their ledger state ([ledger/src/dust.rs])

    Night generates Dust for a delegated address: the value of a Dust output
    rises linearly up to a cap while its backing Night is unspent, and falls
    again afterwards.  The ledger keeps the commitments of Dust outputs and the
    generation entries of Night outputs in two Merkle trees, the spent
    nullifiers, and the recent roots.  The file models the value of an output,
    spends, registrations, the effect of unshielded offers, the end of
    generation by a system transaction ([ledger/src/semantics.rs]) and the update
    after a block.  Hash functions and the address of a verifying key are arguments.
    Events are deferred closures in the code; here they are the computations
    that the closures run. *)

From S2P Require Import Prelude MerkleTree Storage ZswapMemo Repr Coins Intents.
From stdpp Require Import gmap sorting.
From Stdlib Require Import String Ascii.

Local Open Scope Z_scope.

Definition DUST_COMMITMENT_TREE_DEPTH : nat := 32.
Definition DUST_GENERATION_TREE_DEPTH : nat := 32.
Definition DISTRIBUTION_RESOLUTION : Z := 10000.
Definition Timestamp_MAX : Timestamp := u_max 64.
Definition NIGHT : list Z := replicate 32 0.

(** ** The value of an output *)

Record DustOutput := mkDustOutput {
  do_initial_value : Z;
  do_owner : Z;
  do_nonce : Z;
  do_seq : Z;
  do_ctime : Timestamp
}.

Record DustGenerationInfo := mkDustGenerationInfo {
  gi_value : Z;
  gi_owner : Z;
  gi_nonce : list Z;
  gi_dtime : Timestamp
}.

Record DustParameters := mkDustParameters {
  night_dust_ratio : Z;
  generation_decay_rate : Z;
  dust_grace_period : Duration
}.

Definition time_to_cap (self : DustParameters) : Duration :=
  div_ceil (night_dust_ratio self) (generation_decay_rate self).

Definition updated_value (self : DustOutput) (gen_info : DustGenerationInfo) (now : Timestamp)
  (params : DustParameters) : Z :=
  let vfull := sat_mul 128 (gi_value gen_info) (night_dust_ratio params) in
  let rate := sat_mul 128 (gi_value gen_info) (generation_decay_rate params) in
  let tstart_phase_1 := do_ctime self in
  let tend_phase_12 := Z.min (gi_dtime gen_info) now in
  let dt_phase_12 := Timestamp_sub tend_phase_12 tstart_phase_1 in
  let dt_phase_12 := if 0 <=? dt_phase_12 then dt_phase_12 else 0 in
  let value_phase_1_unchecked := sat_add 128 (sat_mul 128 dt_phase_12 rate) (do_initial_value self) in
  let value_phase_12 := Z.min value_phase_1_unchecked vfull in
  let tstart_phase_3 := gi_dtime gen_info in
  let tend_phase_3 := now in
  let dt_phase_3 := Timestamp_sub tend_phase_3 tstart_phase_3 in
  let dt_phase_3 := if 0 <=? dt_phase_3 then dt_phase_3 else 0 in
  sat_sub value_phase_12 (sat_mul 128 dt_phase_3 rate).

Record QualifiedDustOutput := mkQualifiedDustOutput {
  qdo_initial_value : Z;
  qdo_owner : Z;
  qdo_nonce : Z;
  qdo_seq : Z;
  qdo_ctime : Timestamp;
  qdo_backing_night : list Z;
  qdo_mt_index : Z
}.

Definition DustOutput_from (value : QualifiedDustOutput) : DustOutput :=
  mkDustOutput (qdo_initial_value value) (qdo_owner value) (qdo_nonce value) (qdo_seq value) (qdo_ctime value).

Record DustPreProjection := mkDustPreProjection {
  pp_initial_value : Z;
  pp_owner : Z;
  pp_nonce : Z;
  pp_ctime : Timestamp
}.

(** [DustGenerationUniquenessInfo]: value, owner and nonce. *)
Record DustGenerationUniquenessInfo := mkUniquenessInfo {
  ui_value : Z;
  ui_owner : Z;
  ui_nonce : list Z
}.

Definition UniquenessInfo_from (info : DustGenerationInfo) : DustGenerationUniquenessInfo :=
  mkUniquenessInfo (gi_value info) (gi_owner info) (gi_nonce info).

#[export] Instance DustGenerationUniquenessInfo_eq_dec : EqDecision DustGenerationUniquenessInfo.
Proof. solve_decision. Defined.

#[export] Instance DustGenerationUniquenessInfo_countable : Countable DustGenerationUniquenessInfo.
Proof.
  refine (inj_countable' (fun u => (ui_value u, ui_owner u, ui_nonce u)) (fun '(a, b, c) => mkUniquenessInfo a b c) _).
  by intros [].
Defined.

#[export] Instance DustGenerationInfo_eq_dec : EqDecision DustGenerationInfo.
Proof. solve_decision. Defined.

(** ** Hashes *)

Section hashes.
(** The field's modulus and the two hash functions. *)
Context (modulus : Z) (transient_hash : list Z -> Z) (persistent_hash : list Z -> list Z).

(** The first field element of a string literal of at most 31 bytes. *)
Definition literal_field (s : string) : Z := from_le_bytes (ascii_bytes s).

(** [initial_nonce]: a commitment to the output's number, opened by the intent's hash. *)
Definition initial_nonce (output_no : Z) (intent_hash : IntentHash) : list Z :=
  persistent_hash (intent_hash ++ to_le_bytes 4 output_no).

(** The field elements of a hash. *)
Definition hash_fields (h : list Z) : list Z :=
  match @bytes_field_repr modulus Empty_set h with Ret fs => fs | _ => [] end.

Definition dust_nonce (nonce : list Z) (seq sk : Z) : Z := transient_hash (hash_fields nonce ++ [seq; sk]).
Definition dust_first_nonce (nonce : list Z) (dust_addr : Z) : Z :=
  transient_hash (hash_fields nonce ++ [0; dust_addr]).

Definition DustPublicKey_from (sk : Z) : Z := transient_hash [literal_field "mdn:dust:pk"; sk].

Definition pp_fields (p : DustPreProjection) : list Z :=
  [pp_initial_value p; pp_owner p; pp_nonce p; pp_ctime p].
Definition pp_commitment (p : DustPreProjection) : Z :=
  transient_commit transient_hash (pp_fields p) (literal_field "mdn:dust:cm").
Definition pp_nullifier (p : DustPreProjection) : Z :=
  transient_commit transient_hash (pp_fields p) (literal_field "mdn:dust:nul").

Definition qdo_commitment (q : QualifiedDustOutput) : Z :=
  pp_commitment (mkDustPreProjection (qdo_initial_value q) (qdo_owner q) (qdo_nonce q) (qdo_ctime q)).
Definition qdo_nullifier (q : QualifiedDustOutput) (sk : Z) : Z :=
  pp_nullifier (mkDustPreProjection (qdo_initial_value q) sk (qdo_nonce q) (qdo_ctime q)).
Definition do_commitment (o : DustOutput) : Z :=
  pp_commitment (mkDustPreProjection (do_initial_value o) (do_owner o) (do_nonce o) (do_ctime o)).

Definition merkle_hash (g : DustGenerationInfo) : list Z :=
  upgrade_from_transient (transient_hash ([gi_value g; gi_owner g] ++ hash_fields (gi_nonce g) ++ [gi_dtime g])).
End hashes.

(** ** Transactions' Dust parts *)

Section dust.
Context {VerifyingKey Signature Proof Action Binding : Type}.
Context `{!EqDecision VerifyingKey}.
Context (modulus : Z) (transient_hash : list Z -> Z) (persistent_hash : list Z -> list Z).
Context (user_address : VerifyingKey -> list Z).

Record DustSpend := mkDustSpend {
  v_fee : Z;
  old_nullifier : Z;
  new_commitment : Z;
  spend_proof : Proof
}.

Record DustRegistration := mkDustRegistration {
  night_key : VerifyingKey;
  dust_address : option Z;
  allow_fee_payment : Z;
  reg_signature : option Signature
}.

Record DustActions := mkDustActions {
  spends : list DustSpend;
  registrations : list DustRegistration;
  da_ctime : Timestamp
}.

Record Intent := mkIntent {
  guaranteed_unshielded_offer : option (@UnshieldedOffer VerifyingKey);
  fallible_unshielded_offer : option (@UnshieldedOffer VerifyingKey);
  actions : list Action;
  dust_actions : option DustActions;
  ttl : Timestamp;
  binding_commitment : Binding
}.

(** The hash of an intent without its proofs and signatures, for a segment. *)
Context (intent_hash : Intent -> Z -> IntentHash).

(** ** State *)

Local Abbreviation ComTree := (@MerkleTreeNode (list Z) Z unit).
Local Abbreviation GenTree := (@MerkleTreeNode (list Z) Z DustGenerationInfo).
Local Abbreviation transient_hash2 := (fun a b => transient_hash [a; b]).
Local Abbreviation degrade := (degrade_to_transient modulus).
Local Abbreviation initial_nonce := (initial_nonce persistent_hash).
Local Abbreviation merkle_hash := (merkle_hash modulus transient_hash).

Record DustUtxoState := mkDustUtxoState {
  commitments : ComTree;
  commitments_first_free : Z;
  dust_nullifiers : gset Z;
  utxo_root_history : TimeFilterMap Z Z
}.

Record DustGenerationState := mkDustGenerationState {
  address_delegation : gmap (list Z) Z;
  generating_tree : GenTree;
  generating_tree_first_free : Z;
  generating_set : gset DustGenerationUniquenessInfo;
  night_indices : gmap (list Z) Z;
  generation_root_history : TimeFilterMap Z Z
}.

Record DustState := mkDustState {
  utxo : DustUtxoState;
  generation : DustGenerationState
}.

Definition DustUtxoState_default : DustUtxoState :=
  mkDustUtxoState (blank DUST_COMMITMENT_TREE_DEPTH) 0 ∅ TimeFilterMap_new.
Definition DustGenerationState_default : DustGenerationState :=
  mkDustGenerationState ∅ (blank DUST_GENERATION_TREE_DEPTH) 0 ∅ ∅ TimeFilterMap_new.
Definition DustState_default : DustState :=
  mkDustState DustUtxoState_default DustGenerationState_default.

(** [DustStateError], which [TransactionInvalid] and [SystemTransactionError] embed,
    and the other errors of [TransactionInvalid] that this file raises. *)
Inductive DustStateError :=
| GenerationInfoAlreadyPresent (gen_info : DustGenerationInfo)
| DustMerkleTreeError (err : InvalidUpdate).

Inductive DustInvalid :=
| DustStateInvalid (err : DustStateError)
| DustDoubleSpend (nullifier : Z)
| DustDeregistrationNotRegistered (address : list Z)
| DivideByZero.

(** ** Events *)

Inductive DustEvent :=
| DustInitialUtxo (output : QualifiedDustOutput) (gen : DustGenerationInfo) (generation_index : Z)
    (block_time : Timestamp)
| DustGenerationDtimeUpdate (update : @TreeInsertionPath (list Z) Z DustGenerationInfo) (block_time : Timestamp)
| DustSpendProcessed (commitment commitment_index nullifier fee : Z) (declared_time block_time : Timestamp).

(** A deferred event: running it may panic. *)
Definition Deferred : Type := outcome InvalidUpdate DustEvent.

(** The evidence of a generation entry in a tree, [expect]ed to exist. *)
Definition dtime_event (tree : outcome InvalidUpdate GenTree) (idx : Z) (block_time : Timestamp) : Deferred :=
  tree ← tree;
  match insertion_evidence 0 degrade tree idx with
  | Ret update => Ret (DustGenerationDtimeUpdate update block_time)
  | _ => Panic
  end.

(** ** Operations *)

Definition fresh_dust_output (self : DustState) (nonce : list Z) (initial_value night_value : Z)
  (dust_addr : Z) (tnow tblock : Timestamp) : outcome DustStateError (DustState * list Deferred) :=
  let u := utxo self in
  let g := generation self in
  let dust_pre_projection :=
    mkDustPreProjection initial_value dust_addr (dust_first_nonce modulus transient_hash nonce dust_addr) tnow in
  let dust_commitment := pp_commitment transient_hash dust_pre_projection in
  coms ← map_fail DustMerkleTreeError
           (try_update_hash (commitments u) (commitments_first_free u)
              (upgrade_from_transient dust_commitment) tt);
  let gen_info := mkDustGenerationInfo night_value dust_addr nonce Timestamp_MAX in
  if bool_decide (UniquenessInfo_from gen_info ∈ generating_set g) then
    Fail (GenerationInfoAlreadyPresent gen_info)
  else
    tree ← map_fail DustMerkleTreeError
             (try_update_hash (generating_tree g) (generating_tree_first_free g)
                (merkle_hash gen_info) gen_info);
    mret (mkDustState
            (mkDustUtxoState coms (commitments_first_free u + 1) (dust_nullifiers u) (utxo_root_history u))
            (mkDustGenerationState (address_delegation g) tree (generating_tree_first_free g + 1)
               ({[UniquenessInfo_from gen_info]} ∪ generating_set g)
               (<[nonce := generating_tree_first_free g]> (night_indices g)) (generation_root_history g)),
          [Ret (DustInitialUtxo
                  (mkQualifiedDustOutput initial_value dust_addr (pp_nonce dust_pre_projection) 0 tnow nonce
                     (commitments_first_free u))
                  gen_info (generating_tree_first_free g) tblock)]).

Definition apply_spend (self : DustState) (spend : DustSpend) (time tblock : Timestamp)
  : outcome DustInvalid (DustState * list Deferred) :=
  let u := utxo self in
  if bool_decide (old_nullifier spend ∈ dust_nullifiers u) then Fail (DustDoubleSpend (old_nullifier spend))
  else
    coms ← map_fail (fun e => DustStateInvalid (DustMerkleTreeError e))
             (try_update_hash (commitments u) (commitments_first_free u)
                (upgrade_from_transient (new_commitment spend)) tt);
    mret (mkDustState
            (mkDustUtxoState coms (commitments_first_free u + 1)
               ({[old_nullifier spend]} ∪ dust_nullifiers u) (utxo_root_history u))
            (generation self),
          [Ret (DustSpendProcessed (new_commitment spend) (commitments_first_free u) (old_nullifier spend)
                  (v_fee spend) time tblock)]).

(** The Dust that the Night inputs of a key could have generated. *)
Definition generationless_fee_availability (self : DustState) (utxo_state : UtxoState) (parent_intent : Intent)
  (key : VerifyingKey) (params : DustParameters) : Z :=
  let generationless_inputs :=
    filter (fun i => spend_owner i = key /\ spend_type i = NIGHT /\
                     night_indices (generation self) !! initial_nonce (spend_output_no i) (spend_intent_hash i) = None)
      (from_option uo_inputs [] (guaranteed_unshielded_offer parent_intent)) in
  match dust_actions parent_intent with
  | None => 0
  | Some da =>
      let tend := da_ctime da in
      foldl (fun a b => sat_add 128 a b) 0
        ((fun i =>
            let vfull := sat_mul 128 (spend_value i) (night_dust_ratio params) in
            let rate := sat_mul 128 (spend_value i) (generation_decay_rate params) in
            match utxos utxo_state !! Utxo_from user_address i with
            | None => 0
            | Some meta =>
                let dt := Timestamp_sub tend (ctime meta) in
                let dt := if dt <? 0 then 0 else dt in
                let value_unchecked := sat_mul 128 dt rate in
                Z.max 0 (Z.min value_unchecked vfull)
            end) <$> generationless_inputs)
  end.

(** The Night outputs of an offer that an address owns, with their numbers. *)
Definition owned_outputs (parent_intent : Intent) (address : list Z) : list (nat * UtxoOutput) :=
  filter (fun o => output_owner o.2 = address /\ output_type o.2 = NIGHT)
    (imap (fun output_no output => (output_no, output))
       (from_option uo_outputs [] (guaranteed_unshielded_offer parent_intent))).

(** The share of an output of the Dust that is left after fees. *)
Definition registration_share (value output_sum dust_out : Z) : option Z :=
  if output_sum =? 0 then None
  else Some (sat_mul 128 (sat_mul 128 value DISTRIBUTION_RESOLUTION / output_sum) dust_out / DISTRIBUTION_RESOLUTION).

Definition apply_registration (self : DustState) (utxo_state : UtxoState) (fees_remaining : Z)
  (parent_intent : Intent) (registration : DustRegistration) (dust_params : DustParameters)
  (tnow tblock : Timestamp) : outcome DustInvalid (DustState * Z * list Deferred) :=
  let night_address := user_address (night_key registration) in
  let g := generation self in
  let with_delegation d :=
    mkDustState (utxo self)
      (mkDustGenerationState d (generating_tree g) (generating_tree_first_free g) (generating_set g)
         (night_indices g) (generation_root_history g)) in
  state ← match dust_address registration with
          | None =>
              if bool_decide (address_delegation g !! night_address = None) then
                Fail (DustDeregistrationNotRegistered night_address)
              else mret (with_delegation (delete night_address (address_delegation g)))
          | Some addr => mret (with_delegation (<[night_address := addr]> (address_delegation g)))
          end;
  let owned := owned_outputs parent_intent night_address in
  let dust_in :=
    generationless_fee_availability self utxo_state parent_intent (night_key registration) dust_params in
  let fee_paid := Z.min fees_remaining (Z.min (allow_fee_payment registration) dust_in) in
  let fees_remaining := fees_remaining - fee_paid in
  let dust_out := dust_in - fee_paid in
  '(state, events) ←
    match dust_address registration with
    | None => mret (state, [])
    | Some addr =>
        let output_sum := foldl (fun a o => sat_add 128 a (output_value o.2)) 0 owned in
        try_fold_o (fun acc o =>
          initial_value ← match registration_share (output_value o.2) output_sum dust_out with
                          | Some v => mret v
                          | None => Fail DivideByZero
                          end;
          '(state, events) ← map_fail DustStateInvalid
             (fresh_dust_output acc.1 (initial_nonce (wrap 32 (Z.of_nat o.1)) (intent_hash parent_intent 0))
                initial_value (output_value o.2) addr tnow tblock);
          mret (state, acc.2 ++ events)) (state, []) owned
    end;
  mret (state, fees_remaining, events).

(** The first loop of [apply_offer]: an input's generation ends. *)
Definition end_generation (acc : DustState * list Deferred) (tblock : Timestamp) (input : @UtxoSpend VerifyingKey)
  : outcome DustInvalid (DustState * list Deferred) :=
  let g := generation acc.1 in
  match night_indices g !! initial_nonce (spend_output_no input) (spend_intent_hash input) with
  | None => mret acc
  | Some idx =>
      match node_index (generating_tree g) idx with
      | None => mret acc
      | Some (_, info) =>
          let gen_info := mkDustGenerationInfo (gi_value info) (gi_owner info) (gi_nonce info) tblock in
          tree ← map_fail (fun e => DustStateInvalid (DustMerkleTreeError e))
                   (try_update_hash (generating_tree g) idx (merkle_hash gen_info) gen_info);
          mret (mkDustState (utxo acc.1)
                  (mkDustGenerationState (address_delegation g) tree (generating_tree_first_free g)
                     (generating_set g) (night_indices g) (generation_root_history g)),
                acc.2 ++ [dtime_event (rehash 0 transient_hash2 degrade tree) idx tblock])
      end
  end.

(** The system transaction [CNightGeneratesDustUpdate] with the action [Destroy]:
    the generation for a nonce ends at a given time.  The cases that are logged as
    errors go on, as in a build without debug assertions. *)
Definition cnight_destroy (self : DustState) (nonce : list Z) (time tblock : Timestamp)
  : outcome InvalidUpdate (DustState * list Deferred) :=
  let g := generation self in
  match night_indices g !! nonce with
  | None => mret (self, [])
  | Some idx =>
      match node_index (generating_tree g) idx with
      | None => mret (self, [])
      | Some (_, info) =>
          let gen_info := mkDustGenerationInfo (gi_value info) (gi_owner info) (gi_nonce info) time in
          tree ← try_update_hash (generating_tree g) idx (merkle_hash gen_info) gen_info;
          tree ← rehash 0 transient_hash2 degrade tree;
          mret (mkDustState (utxo self)
                  (mkDustGenerationState (address_delegation g) tree (generating_tree_first_free g)
                     (generating_set g) (night_indices g) (generation_root_history g)),
                [dtime_event (Ret tree) idx tblock])
      end
  end.

(** Whether a registration of the intent has to do with an output's owner. *)
Definition handled_by_registration (parent : Intent) (segment : Z) (output : UtxoOutput) : bool :=
  (segment =? 0) &&
  existsb (fun reg => bool_decide (output_owner output = user_address (night_key reg)))
    (from_option registrations [] (dust_actions parent)).

(** The second loop of [apply_offer]: an output of a delegated address starts to generate. *)
Definition start_generation (parent : Intent) (segment : Z) (tblock : Timestamp)
  (acc : DustState * list Deferred) (o : nat * UtxoOutput) : outcome DustInvalid (DustState * list Deferred) :=
  match address_delegation (generation acc.1) !! output_owner o.2 with
  | None => mret acc
  | Some dust_addr =>
      if handled_by_registration parent segment o.2 then mret acc
      else
        '(state, events) ← map_fail DustStateInvalid
           (fresh_dust_output acc.1 (initial_nonce (wrap 32 (Z.of_nat o.1)) (intent_hash parent segment))
              0 (output_value o.2) dust_addr tblock tblock);
        mret (state, acc.2 ++ events)
  end.

Definition dust_apply_offer (self : DustState) (offer : @UnshieldedOffer VerifyingKey) (parent : Intent)
  (segment : Z) (tblock : Timestamp) : outcome DustInvalid (DustState * list Deferred) :=
  acc ← try_fold_o (fun acc input => end_generation acc tblock input) (self, [])
          (filter (fun i => spend_type i = NIGHT) (uo_inputs offer));
  try_fold_o (start_generation parent segment tblock) acc
    (filter (fun o => output_type o.2 = NIGHT)
       (imap (fun output_no output => (output_no, output)) (uo_outputs offer))).

Definition dust_post_block_update (self : DustState) (tblock : Timestamp) (global_ttl : Duration)
  : outcome InvalidUpdate DustState :=
  let u := utxo self in
  let g := generation self in
  coms ← rehash 0 transient_hash2 degrade (commitments u);
  com_root ← expect (node_root 0 degrade coms);
  tree ← rehash 0 transient_hash2 degrade (generating_tree g);
  gen_root ← expect (node_root 0 degrade tree);
  let cutoff := Timestamp_sub_duration tblock global_ttl in
  mret (mkDustState
          (mkDustUtxoState coms (commitments_first_free u) (dust_nullifiers u)
             (TimeFilterMap_filter (TimeFilterMap_insert (utxo_root_history u) tblock com_root) cutoff))
          (mkDustGenerationState (address_delegation g) tree (generating_tree_first_free g) (generating_set g)
             (night_indices g)
             (TimeFilterMap_filter (TimeFilterMap_insert (generation_root_history g) tblock gen_root) cutoff))).
End dust.

(** ** The value of an output, without machine arithmetic *)

Definition dust_capacity (g : DustGenerationInfo) (p : DustParameters) : Z :=
  Z.min (gi_value g * night_dust_ratio p) (u_max 128).
Definition dust_rate (g : DustGenerationInfo) (p : DustParameters) : Z := gi_value g * generation_decay_rate p.

(** What the code computes: generation from the creation to the time the Night is
    spent, up to the capacity, then decay from the time the Night is spent, also
    for an output created later than that. *)
Definition dust_value (o : DustOutput) (g : DustGenerationInfo) (now : Timestamp) (p : DustParameters) : Z :=
  Z.max 0
    (Z.min (do_initial_value o + Z.max 0 (Z.min (gi_dtime g) now - do_ctime o) * dust_rate g p) (dust_capacity g p)
     - Z.max 0 (now - gi_dtime g) * dust_rate g p).

(** The four phases of [spec/dust.md]: there, decay starts at the later of the
    creation and the time the Night is spent. *)
Definition documented_value (o : DustOutput) (g : DustGenerationInfo) (now : Timestamp) (p : DustParameters) : Z :=
  Z.max 0
    (Z.min (do_initial_value o + Z.max 0 (Z.min (gi_dtime g) now - do_ctime o) * dust_rate g p) (dust_capacity g p)
     - Z.max 0 (now - Z.max (do_ctime o) (gi_dtime g)) * dust_rate g p).

Record dust_value_ok (o : DustOutput) (g : DustGenerationInfo) (p : DustParameters) : Prop := {
  dv_initial : in_u 128 (do_initial_value o);
  dv_value : in_u 128 (gi_value g);
  dv_ratio : in_u 64 (night_dust_ratio p);
  dv_rate : in_u 32 (generation_decay_rate p)
}.

(** Saturation commutes with a cap. *)
Lemma sat_mul_cap M dt R : 0 <= dt -> 0 <= R -> Z.min (dt * Z.min R M) M = Z.min (dt * R) M \/ M < 0.
Proof.
  intros Hd HR. destruct (Z.ltb_spec M 0); [by right|left].
  destruct (Z.le_gt_cases R M); [by rewrite (Z.min_l R) by lia|]. rewrite (Z.min_r R) by lia.
  destruct (Z.eq_dec dt 0) as [->|]; [lia|]. assert (M <= dt * M) by nia. assert (M <= dt * R) by nia. lia.
Qed.

Lemma if_max x : (if 0 <=? x then x else 0) = Z.max 0 x.
Proof. destruct (Z.leb_spec 0 x); lia. Qed.

Lemma updated_value_exact o g now p : dust_value_ok o g p -> updated_value o g now p = dust_value o g now p.
Proof.
  intros [[Hi1 Hi2] [Hv _] [Hr _] [Hq _]]. unfold updated_value, dust_value, Timestamp_sub. cbv zeta. rewrite !if_max.
  unfold sat_sub, sat_add, sat_mul. fold (dust_capacity g p).
  set (M := u_max 128). assert (HM : do_initial_value o <= M) by (unfold M, u_max; lia).
  assert (HM0 : 0 <= M) by lia.
  assert (HR : 0 <= dust_rate g p) by (unfold dust_rate; nia).
  change (gi_value g * generation_decay_rate p) with (dust_rate g p).
  assert (HC : 0 <= dust_capacity g p <= M) by (unfold dust_capacity; fold M; nia).
  set (d1 := Z.max 0 (Z.min (gi_dtime g) now - do_ctime o)). set (d3 := Z.max 0 (now - gi_dtime g)).
  assert (0 <= d1) by (unfold d1; lia). assert (0 <= d3) by (unfold d3; lia).
  clearbody M. generalize dependent (dust_rate g p). generalize dependent (dust_capacity g p). clearbody d1 d3. intros C HC R HR.
  destruct (sat_mul_cap M d1 R) as [->|]; [done..| |lia]. destruct (sat_mul_cap M d3 R) as [->|]; [done..| |lia].
  assert (0 <= d1 * R) by nia. assert (0 <= d3 * R) by nia. lia.
Qed.

(** *** Both sides of the time the Night is spent *)

Section value.
Context (o : DustOutput) (g : DustGenerationInfo) (p : DustParameters) (Hok : dust_value_ok o g p).

Lemma dust_rate_pos : 0 <= dust_rate g p.
Proof. destruct Hok as [_ [? _] _ [? _]]. unfold dust_rate. nia. Qed.

Lemma dust_capacity_range : 0 <= dust_capacity g p <= u_max 128.
Proof.
  destruct Hok as [_ [? _] [? _] _]. unfold dust_capacity. assert (0 <= u_max 128) by (unfold u_max; lia).
  set (M := u_max 128) in *. clearbody M. nia.
Qed.

Lemma value_before now : now <= gi_dtime g ->
  updated_value o g now p = Z.min (do_initial_value o + Z.max 0 (now - do_ctime o) * dust_rate g p) (dust_capacity g p).
Proof.
  intros Ht. rewrite updated_value_exact by done. unfold dust_value.
  pose proof dust_rate_pos. pose proof dust_capacity_range. destruct (dv_initial _ _ _ Hok) as [? _].
  rewrite (Z.min_r (gi_dtime g)), (Z.max_l 0 (now - gi_dtime g)), Z.mul_0_l, Z.sub_0_r by lia.
  assert (0 <= Z.max 0 (now - do_ctime o) * dust_rate g p) by nia. lia.
Qed.

Lemma value_after now : gi_dtime g <= now ->
  updated_value o g now p = Z.max 0 (updated_value o g (gi_dtime g) p - (now - gi_dtime g) * dust_rate g p).
Proof.
  intros Ht. rewrite (value_before (gi_dtime g)), updated_value_exact by (done || lia). unfold dust_value.
  rewrite (Z.min_l (gi_dtime g)), (Z.max_r 0 (now - gi_dtime g)) by lia. done.
Qed.

Lemma value_range now : 0 <= updated_value o g now p <= dust_capacity g p.
Proof.
  pose proof dust_rate_pos. pose proof dust_capacity_range. destruct (dv_initial _ _ _ Hok) as [? _].
  destruct (Z.le_ge_cases now (gi_dtime g)).
  - rewrite value_before by done. assert (0 <= Z.max 0 (now - do_ctime o) * dust_rate g p) by nia. lia.
  - rewrite value_after, (value_before (gi_dtime g)) by (done || lia).
    assert (0 <= Z.max 0 (gi_dtime g - do_ctime o) * dust_rate g p) by nia.
    assert (0 <= (now - gi_dtime g) * dust_rate g p) by nia. lia.
Qed.

Lemma value_rises t1 t2 : t1 <= t2 <= gi_dtime g -> updated_value o g t1 p <= updated_value o g t2 p.
Proof.
  intros Ht. rewrite !value_before by lia. pose proof dust_rate_pos.
  assert (Z.max 0 (t1 - do_ctime o) * dust_rate g p <= Z.max 0 (t2 - do_ctime o) * dust_rate g p)
    by (apply Z.mul_le_mono_nonneg_r; lia). lia.
Qed.

Lemma value_falls t1 t2 : gi_dtime g <= t1 <= t2 -> updated_value o g t2 p <= updated_value o g t1 p.
Proof.
  intros Ht. rewrite (value_after t1), (value_after t2) by lia. pose proof dust_rate_pos.
  assert ((t1 - gi_dtime g) * dust_rate g p <= (t2 - gi_dtime g) * dust_rate g p)
    by (apply Z.mul_le_mono_nonneg_r; lia). lia.
Qed.

(** The time to the cap is enough to fill, and to empty. *)
Lemma cap_time dt : 0 < generation_decay_rate p -> time_to_cap p <= dt -> dust_capacity g p <= dt * dust_rate g p.
Proof.
  intros Hr Ht. destruct (div_ceil_spec (night_dust_ratio p) (generation_decay_rate p) Hr) as [_ Hc].
  fold (time_to_cap p) in Hc. destruct Hok as [_ [Hv _] _ _]. unfold dust_rate, dust_capacity.
  assert (night_dust_ratio p <= dt * generation_decay_rate p) by nia.
  assert (gi_value g * night_dust_ratio p <= gi_value g * (dt * generation_decay_rate p)) by nia. lia.
Qed.

Lemma value_full now : 0 < generation_decay_rate p ->
  do_ctime o + time_to_cap p <= now <= gi_dtime g -> updated_value o g now p = dust_capacity g p.
Proof.
  intros Hr Ht. rewrite value_before by lia. pose proof dust_rate_pos. destruct (dv_initial _ _ _ Hok) as [? _].
  pose proof (cap_time (Z.max 0 (now - do_ctime o)) Hr ltac:(lia)). lia.
Qed.

Lemma value_empty now : 0 < generation_decay_rate p ->
  gi_dtime g + time_to_cap p <= now -> updated_value o g now p = 0.
Proof.
  intros Hr Ht. pose proof (cap_time (now - gi_dtime g) Hr ltac:(lia)).
  assert (0 <= time_to_cap p).
  { destruct (dv_ratio _ _ _ Hok) as [Hq _]. destruct (div_ceil_spec (night_dust_ratio p) (generation_decay_rate p) Hr) as [_ Hc].
    fold (time_to_cap p) in Hc. nia. }
  rewrite value_after by lia. pose proof (value_range (gi_dtime g)). lia.
Qed.

(** The documented value is the code's for an output created before the Night is
    spent, and never below it. *)
Lemma documented_same now : do_ctime o <= gi_dtime g -> updated_value o g now p = documented_value o g now p.
Proof. intros Hc. rewrite updated_value_exact by done. unfold dust_value, documented_value. by rewrite (Z.max_r (do_ctime o)) by done. Qed.
Lemma documented_above now : updated_value o g now p <= documented_value o g now p.
Proof. rewrite updated_value_exact by done. unfold dust_value, documented_value. pose proof dust_rate_pos. apply Z.max_le_compat_l. nia. Qed.

(** The change of a spend: what is left at the time of the spend. *)
Definition spend_change (t : Timestamp) (fee : Z) : DustOutput :=
  mkDustOutput (updated_value o g t p - fee) (do_owner o) (do_nonce o) (do_seq o) t.

Lemma spend_change_ok t fee : 0 <= fee <= updated_value o g t p -> dust_value_ok (spend_change t fee) g p.
Proof.
  intros Hf. pose proof (value_range t). pose proof dust_capacity_range. destruct Hok. split; try done.
  cbn [spend_change do_initial_value]. unfold in_u, u_max in *. lia.
Qed.
End value.

Lemma change_before o g p t1 t2 fee :
  dust_value_ok o g p -> do_ctime o <= t1 <= t2 -> t2 <= gi_dtime g -> 0 <= fee <= updated_value o g t1 p ->
  updated_value o g t2 p - fee <= updated_value (spend_change o g p t1 fee) g t2 p <= updated_value o g t2 p.
Proof.
  intros Hok Ht Hd Hf. pose proof (spend_change_ok o g p Hok t1 fee Hf) as Hok'. pose proof (dust_rate_pos o g p Hok).
  rewrite (value_before _ g p Hok' t2 Hd), (value_before o g p Hok t2 Hd).
  cbn [spend_change do_initial_value do_ctime]. rewrite (value_before o g p Hok t1) in * by lia.
  rewrite !Z.max_r in * by lia.
  replace (t2 - do_ctime o) with (t2 - t1 + (t1 - do_ctime o)) by lia. rewrite (Z.mul_add_distr_r (t2 - t1)).
  assert (0 <= (t2 - t1) * dust_rate g p) by nia. lia.
Qed.

Lemma change_value o g p t1 t2 fee :
  dust_value_ok o g p -> do_ctime o <= t1 <= t2 -> t1 <= gi_dtime g -> 0 <= fee <= updated_value o g t1 p ->
  updated_value o g t2 p - fee <= updated_value (spend_change o g p t1 fee) g t2 p <= updated_value o g t2 p.
Proof.
  intros Hok Ht Hd Hf. destruct (Z.le_ge_cases t2 (gi_dtime g)); [by apply change_before|].
  pose proof (spend_change_ok o g p Hok t1 fee Hf) as Hok'.
  pose proof (change_before o g p t1 (gi_dtime g) fee Hok ltac:(lia) ltac:(lia) Hf).
  rewrite (value_after _ g p Hok' t2), (value_after o g p Hok t2) by lia. lia.
Qed.

Definition INITIAL_DUST_PARAMETERS : DustParameters := mkDustParameters (5 * (10 ^ 15 / 10 ^ 6)) 8267 (3 * 60 * 60).

(** ** Properties *)

(** C32. The value of a Dust output, for every amount and parameter of its width:
    the saturating arithmetic computes the piecewise linear function [dust_value],
    which never exceeds the capacity of the backing Night.  For an output created
    no later than the Night is spent, this is the documented function; for one
    created later, as the change of a spend may be, the code decays from the time
    the Night is spent, not from the creation, and gives at most the documented
    value ([change_decays_twice]).  The value rises until the Night is spent and
    falls afterwards; the time to the cap is enough to fill it, and to empty it.
    Spending a fee while the Night is unspent never gains value: the change is
    afterwards worth at most what the output would have been, and at least that
    minus the fee. *)
Theorem dust_value_linear o g p :
  dust_value_ok o g p ->
  (forall now, updated_value o g now p = dust_value o g now p /\ 0 <= updated_value o g now p <= dust_capacity g p) /\
  (forall now, (do_ctime o <= gi_dtime g -> updated_value o g now p = documented_value o g now p) /\
               updated_value o g now p <= documented_value o g now p) /\
  (forall t1 t2, t1 <= t2 <= gi_dtime g -> updated_value o g t1 p <= updated_value o g t2 p) /\
  (forall t1 t2, gi_dtime g <= t1 <= t2 -> updated_value o g t2 p <= updated_value o g t1 p) /\
  (0 < generation_decay_rate p -> forall now,
     (do_ctime o + time_to_cap p <= now <= gi_dtime g -> updated_value o g now p = dust_capacity g p) /\
     (gi_dtime g + time_to_cap p <= now -> updated_value o g now p = 0)) /\
  (forall t1 t2 fee, do_ctime o <= t1 <= t2 -> t1 <= gi_dtime g -> 0 <= fee <= updated_value o g t1 p ->
     updated_value o g t2 p - fee <= updated_value (spend_change o g p t1 fee) g t2 p <= updated_value o g t2 p).
Proof.
  intros Hok. split_and!.
  - intros now. split; [by apply updated_value_exact|by apply value_range].
  - intros now. split; [by apply documented_same|by apply documented_above].
  - by apply value_rises.
  - by apply value_falls.
  - intros Hr now. split; [by apply value_full|by apply value_empty].
  - intros. by apply change_value.
Qed.

(** After the Night is spent, the change of a spend decays from the time the
    Night was spent and not from its own creation: 100 units, of which nothing is
    taken out 10 seconds after the Night was spent, lose 10 seconds of decay
    twice. *)
Lemma change_decays_twice :
  let p := mkDustParameters 100 1 0 in
  let g := mkDustGenerationInfo 1 0 [] 1000 in
  let o := mkDustOutput 100 0 0 0 0 in
  updated_value o g 1010 p = 90 /\ updated_value o g 1020 p = 80 /\
  updated_value (spend_change o g p 1010 0) g 1020 p = 70 /\ documented_value (spend_change o g p 1010 0) g 1020 p = 80.
Proof. split_and!; reflexivity. Qed.

(** One Night generates five Dust, from an empty output in about a week. *)
Lemma dust_value_linear_witness :
  let p := INITIAL_DUST_PARAMETERS in
  let g := mkDustGenerationInfo (10 ^ 6) 0 [] (u_max 64) in
  let o := mkDustOutput 0 0 0 0 1000 in
  time_to_cap p = 604815 /\ updated_value o g (1000 + 604815) p = 5 * 10 ^ 15 /\
  updated_value o g 2000 p - 7 <= updated_value (spend_change o g p 1500 7) g 2000 p <= updated_value o g 2000 p.
Proof.
  set (p := INITIAL_DUST_PARAMETERS). set (g := mkDustGenerationInfo (10 ^ 6) 0 [] (u_max 64)).
  set (o := mkDustOutput 0 0 0 0 1000).
  assert (Hok : dust_value_ok o g p) by (split; split; vm_compute; congruence).
  destruct (dust_value_linear o g p Hok) as (_ & _ & _ & _ & Hcap & Hchange). split; [reflexivity|]. split.
  - destruct (Hcap ltac:(reflexivity) (1000 + 604815)) as [Hf _]. rewrite Hf; [reflexivity|]. split; vm_compute; congruence.
  - apply Hchange; [split; vm_compute; congruence|vm_compute; congruence|split; vm_compute; congruence].
Defined.
