(* ===== verification/DustState.v ===== *)
(** * Dust: invariant and effects of the ledger's operations

    What the trees of a [Dust.DustState] hold, as two append-only logs: the
    commitments and the generation entries.  Every operation of the ledger
    keeps the state consistent with the logs and describes its change by its
    events, which is what wallets replay. *)

From S2P Require Import Prelude MerkleTree Storage ZswapMemo Repr Intents Dust.
From stdpp Require Import gmap sorting.

Local Open Scope Z_scope.

(** ** A Merkle tree that is filled from the left *)

Section log.
Context {A : Type} (transient_hash2 : Z -> Z -> Z) (degrade : list Z -> Z).

Local Abbreviation H := 32%nat.
Local Abbreviation Rep := (Rep 0 transient_hash2 degrade).
Local Abbreviation node := (@MerkleTreeNode (list Z) Z A).

(** The entries below the first free index are there, and nothing from it on is
    collapsed. *)
Record TreeLog (t : node) (c : contents) (ff : Z) : Prop := {
  log_rep : Rep H c t;
  log_bound : 0 <= ff <= pow2 H;
  log_filled i : 0 <= i < pow2 H -> is_Some (c i) <-> i < ff;
  log_open i : ff <= i < pow2 H -> visible t i = true
}.

Definition all_visible (t : node) : Prop := forall i, 0 <= i < pow2 H -> visible t i = true.

Lemma TreeLog_blank : TreeLog (blank H) cempty 0 /\ all_visible (blank H).
Proof.
  split; [|by intros i Hi]. split.
  - constructor. apply not_false_is_true. by intros (i & _ & [? ?])%mempty_false.
  - pose proof (pow2_pos H). lia.
  - intros i Hi. split; [by intros [? ?]|lia].
  - done.
Qed.

Lemma TreeLog_append t c ff x a :
  TreeLog t c ff -> ff < pow2 H ->
  exists t', try_update_hash t ff x a = Ret t' /\ TreeLog t' (cupd c ff (x, a)) (ff + 1) /\
    forall j, 0 <= j < pow2 H -> visible t' j = visible t j.
Proof.
  intros [HR Hb Hf Ho] Hlt.
  destruct (try_update_hash_spec 0 transient_hash2 degrade H c t ff x a HR) as (t' & E & HR' & HV); [lia|by apply Ho; lia|].
  exists t'. split_and!; [done| |done]. split; [done|lia| |].
  - intros i Hi. unfold cupd. destruct (Z.eqb_spec i ff); [split; [lia|eauto]|]. rewrite Hf by done. lia.
  - intros i Hi. rewrite HV by lia. apply Ho. lia.
Qed.

Lemma TreeLog_full t c ff x a :
  TreeLog t c ff -> pow2 H <= ff -> try_update_hash t ff x a = Fail (IndexOutOfTree ff).
Proof. intros [HR _ _ _] Hff. apply try_update_hash_out. by rewrite (Rep_height _ _ _ _ _ _ HR). Qed.

Lemma TreeLog_append_cases t c ff x a :
  TreeLog t c ff ->
  match try_update_hash t ff x a with
  | Ret t' => ff < pow2 H /\ TreeLog t' (cupd c ff (x, a)) (ff + 1) /\
      forall j, 0 <= j < pow2 H -> visible t' j = visible t j
  | Fail _ => ff = pow2 H
  | Panic => False
  end.
Proof.
  intros HL. pose proof (log_bound _ _ _ HL) as Hb. destruct (Z.lt_ge_cases ff (pow2 H)) as [Hlt|Hge].
  - by destruct (TreeLog_append t c ff x a HL Hlt) as (t' & -> & HL' & HV).
  - rewrite (TreeLog_full t c ff x a HL Hge). lia.
Qed.

Lemma TreeLog_set t c ff i x a :
  TreeLog t c ff -> 0 <= i < ff -> visible t i = true ->
  exists t', try_update_hash t i x a = Ret t' /\ TreeLog t' (cupd c i (x, a)) ff /\
    forall j, 0 <= j < pow2 H -> visible t' j = visible t j.
Proof.
  intros [HR Hb Hf Ho] Hi Hv.
  destruct (try_update_hash_spec 0 transient_hash2 degrade H c t i x a HR) as (t' & E & HR' & HV); [lia|done|].
  exists t'. split_and!; [done| |done]. split; [done|lia| |].
  - intros j Hj. unfold cupd. destruct (Z.eqb_spec j i) as [->|]; [split; [lia|eauto]|]. by apply Hf.
  - intros j Hj. rewrite HV by lia. apply Ho. lia.
Qed.

Lemma TreeLog_index t c ff i :
  TreeLog t c ff -> 0 <= i < ff -> visible t i = true -> exists x, node_index t i = Some x /\ c i = Some x.
Proof.
  intros [HR Hb Hf Ho] Hi Hv. destruct (proj2 (Hf i ltac:(lia)) (proj2 Hi)) as [x Hx]. exists x.
  split; [|done]. by rewrite (node_index_spec 0 transient_hash2 degrade H c t i HR), Hv by lia.
Qed.

Lemma TreeLog_rehash t c ff :
  TreeLog t c ff -> exists t', rehash 0 transient_hash2 degrade t = Ret t' /\ TreeLog t' c ff /\
    node_root 0 degrade t' = Some (mroot 0 transient_hash2 degrade H c) /\ forall j, visible t' j = visible t j.
Proof.
  intros [HR Hb Hf Ho]. destruct (rehash_spec 0 transient_hash2 degrade H c t HR) as (t' & E & HR' & Hr).
  pose proof (rehash_visible 0 transient_hash2 degrade H c t t' HR E) as HV. exists t'. split_and!; [done| |done|done].
  split; [done|done|done|]. intros i Hi. rewrite HV. by apply Ho.
Qed.

Lemma TreeLog_collapse t c ff i :
  TreeLog t c ff -> 0 <= i < ff ->
  exists t', collapse 0 transient_hash2 degrade t i i = Ret t' /\ TreeLog t' c ff /\
    forall j, 0 <= j < pow2 H -> visible t' j = visible t j && negb (j =? i).
Proof.
  intros [HR Hb Hf Ho] Hi.
  destruct (collapse_spec 0 transient_hash2 degrade H c t i i HR) as (t' & E & HR' & _ & HV); [unfold interval_ok; lia|].
  assert (HV' : forall j, 0 <= j < pow2 H -> visible t' j = visible t j && negb (j =? i)).
  { intros j Hj. rewrite HV by done. unfold in_interval. f_equal. f_equal. lia. }
  exists t'. split_and!; [done| |done]. split; [done|done|done|].
  intros j Hj. rewrite HV', Ho by lia. lia.
Qed.

(** The evidence of an entry, as replayed on another tree of the log. *)
Lemma TreeLog_evidence t c ff i x :
  TreeLog t c ff -> is_Some (node_root 0 degrade t) -> 0 <= i < ff -> c i = Some x -> visible t i = true ->
  exists es, insertion_evidence 0 degrade t i = Ret (mkInsPath x (reverse es)) /\
    Evidence 0 transient_hash2 degrade H c i es.
Proof. intros [HR Hb _ _] Hr Hi Hc Hv. by apply (insertion_evidence_spec 0 transient_hash2 degrade); try done; lia. Qed.
End log.
Arguments TreeLog {_} _ _ _ _ _.
Arguments all_visible {_} _.

(** ** Events as steps on the logs *)

Section steps.
Context (modulus : Z) (transient_hash : list Z -> Z).

Local Abbreviation H := 32%nat.
Local Abbreviation transient_hash2 := (fun a b => transient_hash [a; b]).
Local Abbreviation degrade := (degrade_to_transient modulus).
Local Abbreviation merkle_hash := (merkle_hash modulus transient_hash).

Record View := mkView {
  v_com : @contents (list Z) unit;
  v_com_ff : Z;
  v_gen : @contents (list Z) DustGenerationInfo;
  v_gen_ff : Z
}.

Definition View_empty : View := mkView cempty 0 cempty 0.

Definition add_com (v : View) (com : Z) : View :=
  mkView (cupd (v_com v) (v_com_ff v) (upgrade_from_transient com, tt)) (v_com_ff v + 1) (v_gen v) (v_gen_ff v).
Definition add_gen (v : View) (g : DustGenerationInfo) : View :=
  mkView (v_com v) (v_com_ff v) (cupd (v_gen v) (v_gen_ff v) (merkle_hash g, g)) (v_gen_ff v + 1).
Definition set_gen (v : View) (i : Z) (g : DustGenerationInfo) : View :=
  mkView (v_com v) (v_com_ff v) (cupd (v_gen v) i (merkle_hash g, g)) (v_gen_ff v).
Definition with_dtime (g : DustGenerationInfo) (t : Timestamp) : DustGenerationInfo :=
  mkDustGenerationInfo (gi_value g) (gi_owner g) (gi_nonce g) t.

Definition event_block_time (e : DustEvent) : Timestamp :=
  match e with
  | DustInitialUtxo _ _ _ t | DustGenerationDtimeUpdate _ t | DustSpendProcessed _ _ _ _ _ t => t
  end.

(** A new output with its generation entry, a spend, the end of a generation. *)
Inductive event_step : View -> DustEvent -> View -> Prop :=
| step_initial v out g t :
    qdo_mt_index out = v_com_ff v -> v_com_ff v < pow2 H -> v_gen_ff v < pow2 H ->
    qdo_owner out = gi_owner g -> qdo_backing_night out = gi_nonce g ->
    event_step v (DustInitialUtxo out g (v_gen_ff v) t) (add_gen (add_com v (qdo_commitment transient_hash out)) g)
| step_spend v com nul fee t t' :
    v_com_ff v < pow2 H ->
    event_step v (DustSpendProcessed com (v_com_ff v) nul fee t t') (add_com v com)
| step_dtime v i h g t t' es :
    0 <= i < v_gen_ff v -> v_gen v i = Some (h, g) ->
    Evidence 0 transient_hash2 degrade H (v_gen (set_gen v i (with_dtime g t))) i es ->
    event_step v (DustGenerationDtimeUpdate (mkInsPath (merkle_hash (with_dtime g t), with_dtime g t) (reverse es)) t')
      (set_gen v i (with_dtime g t)).

Inductive event_steps : View -> list DustEvent -> View -> Prop :=
| steps_nil v : event_steps v [] v
| steps_cons v e v1 es v2 : event_step v e v1 -> event_steps v1 es v2 -> event_steps v (e :: es) v2.

Lemma event_steps_app v1 es1 v2 es2 v3 :
  event_steps v1 es1 v2 -> event_steps v2 es2 v3 -> event_steps v1 (es1 ++ es2) v3.
Proof. induction 1 as [|v e v' es v'' Hs _ IH]; intros H2; [done|]. econstructor; [done|by apply IH]. Qed.

Lemma event_steps_app_inv v1 es1 es2 v3 :
  event_steps v1 (es1 ++ es2) v3 -> exists v2, event_steps v1 es1 v2 /\ event_steps v2 es2 v3.
Proof.
  revert v1; induction es1 as [|e es1 IH]; intros v1 Hs; cbn [app] in Hs; [by exists v1; split; [constructor|]|].
  inversion Hs as [|? ? v ? ? He Hs']; subst. destruct (IH v Hs') as (v2 & H1 & H2). exists v2. split; [by econstructor|done].
Qed.

Lemma event_steps_one v e v' : event_step v e v' -> event_steps v [e] v'.
Proof. intros Hs. econstructor; [done|constructor]. Qed.

(** ** The invariant of the ledger's state *)

Record Dust_ok (st : DustState) (v : View) : Prop := {
  ok_com : TreeLog transient_hash2 degrade (commitments (utxo st)) (v_com v) (v_com_ff v);
  ok_com_ff : commitments_first_free (utxo st) = v_com_ff v;
  ok_com_visible : all_visible (commitments (utxo st));
  ok_gen : TreeLog transient_hash2 degrade (generating_tree (generation st)) (v_gen v) (v_gen_ff v);
  ok_gen_ff : generating_tree_first_free (generation st) = v_gen_ff v;
  ok_gen_visible : all_visible (generating_tree (generation st));
  ok_set u : u ∈ generating_set (generation st) <->
    exists i h g, 0 <= i < v_gen_ff v /\ v_gen v i = Some (h, g) /\ UniquenessInfo_from g = u;
  ok_once i j h h' g g' : 0 <= i < v_gen_ff v -> 0 <= j < v_gen_ff v ->
    v_gen v i = Some (h, g) -> v_gen v j = Some (h', g') -> UniquenessInfo_from g = UniquenessInfo_from g' -> i = j;
  ok_night n i : night_indices (generation st) !! n = Some i ->
    0 <= i < v_gen_ff v /\ exists h g, v_gen v i = Some (h, g) /\ gi_nonce g = n;
  ok_night_all i h g : 0 <= i < v_gen_ff v -> v_gen v i = Some (h, g) ->
    is_Some (night_indices (generation st) !! gi_nonce g);
  ok_utxo_roots : tfm_ok (utxo_root_history (utxo st));
  ok_gen_roots : tfm_ok (generation_root_history (generation st))
}.

Lemma DustState_default_ok : Dust_ok DustState_default View_empty.
Proof.
  destruct (TreeLog_blank (A := unit) transient_hash2 degrade) as [Hc Vc].
  destruct (TreeLog_blank (A := DustGenerationInfo) transient_hash2 degrade) as [Hg Vg].
  split; cbn; try done; try apply TimeFilterMap_new_ok.
  - intros u. split; [set_solver|]. intros (i & h & g & ? & ? & _). done.
Qed.
End steps.

(** ** Operations *)

Section operations.
Context {VerifyingKey Signature Proof Action Binding : Type} `{!EqDecision VerifyingKey}.
Context (modulus : Z) (transient_hash : list Z -> Z) (persistent_hash : list Z -> list Z).
Context (user_address : VerifyingKey -> list Z).

Local Abbreviation Intent := (@Intent VerifyingKey Signature Proof Action Binding).
Local Abbreviation DustSpend := (@DustSpend Proof).
Context (intent_hash : Intent -> Z -> IntentHash).

Local Abbreviation H := 32%nat.
Local Abbreviation transient_hash2 := (fun a b => transient_hash [a; b]).
Local Abbreviation degrade := (degrade_to_transient modulus).
Local Abbreviation merkle_hash := (merkle_hash modulus transient_hash).
Local Abbreviation event_step := (event_step modulus transient_hash).
Local Abbreviation event_steps := (event_steps modulus transient_hash).
Local Abbreviation add_gen := (add_gen modulus transient_hash).
Local Abbreviation set_gen := (set_gen modulus transient_hash).
Local Abbreviation Dust_ok := (Dust_ok modulus transient_hash).
Local Abbreviation fresh_dust_output := (fresh_dust_output modulus transient_hash).
Local Abbreviation end_generation := (end_generation modulus transient_hash persistent_hash).
Local Abbreviation start_generation := (start_generation modulus transient_hash persistent_hash user_address intent_hash).
Local Abbreviation dust_apply_offer := (dust_apply_offer modulus transient_hash persistent_hash user_address intent_hash).
Local Abbreviation apply_registration := (apply_registration modulus transient_hash persistent_hash user_address intent_hash).

(** *** Additions to the logs *)

(** A commitment is added; the generation side does not change. *)
Lemma ok_add_com st v com :
  Dust_ok st v ->
  match try_update_hash (commitments (utxo st)) (commitments_first_free (utxo st)) (upgrade_from_transient com) tt with
  | Ret t => v_com_ff v < pow2 H /\ forall nuls,
      Dust_ok (mkDustState (mkDustUtxoState t (commitments_first_free (utxo st) + 1) nuls (utxo_root_history (utxo st)))
                 (generation st)) (add_com v com)
  | Fail _ => v_com_ff v = pow2 H
  | Panic => False
  end.
Proof.
  intros Hok. rewrite (ok_com_ff _ _ _ _ Hok).
  pose proof (TreeLog_append_cases _ _ _ _ _ (upgrade_from_transient com) tt (ok_com _ _ _ _ Hok)) as HC.
  destruct (try_update_hash _ _ _ _) as [t|e|]; [|done..]. destruct HC as (Hlt & HL & HV). split; [done|].
  intros nuls. destruct Hok.
  split; cbn [utxo generation commitments commitments_first_free utxo_root_history add_com v_com v_com_ff v_gen v_gen_ff]; try done.
  - intros i Hi. rewrite HV by done. by apply ok_com_visible0.
Qed.

(** A generation entry is added under a nonce. *)
Lemma ok_add_gen st v g :
  Dust_ok st v -> UniquenessInfo_from g ∉ generating_set (generation st) ->
  match try_update_hash (generating_tree (generation st)) (generating_tree_first_free (generation st)) (merkle_hash g) g with
  | Ret t => v_gen_ff v < pow2 H /\
      Dust_ok (mkDustState (utxo st) (mkDustGenerationState (address_delegation (generation st)) t
        (generating_tree_first_free (generation st) + 1)
        ({[UniquenessInfo_from g]} ∪ generating_set (generation st))
        (<[gi_nonce g := generating_tree_first_free (generation st)]> (night_indices (generation st)))
        (generation_root_history (generation st)))) (add_gen v g)
  | Fail _ => v_gen_ff v = pow2 H
  | Panic => False
  end.
Proof.
  intros Hok Hfresh. rewrite (ok_gen_ff _ _ _ _ Hok).
  pose proof (TreeLog_append_cases _ _ _ _ _ (merkle_hash g) g (ok_gen _ _ _ _ Hok)) as HC.
  destruct (try_update_hash _ _ _ _) as [t|e|]; [|done..]. destruct HC as (Hlt & HL & HV). split; [done|].
  pose proof (log_bound _ _ _ _ _ (ok_gen _ _ _ _ Hok)) as Hb. destruct Hok.
  split; cbn [utxo generation generating_tree generating_tree_first_free generating_set night_indices
    generation_root_history add_gen v_com v_com_ff v_gen v_gen_ff]; try done.
  - intros i Hi. rewrite HV by done. by apply ok_gen_visible0.
  - intros u. rewrite elem_of_union, elem_of_singleton, ok_set0. unfold cupd. split.
    + intros [->|(i & h & g' & Hi & Hc & Hu)].
      * exists (v_gen_ff v), (merkle_hash g), g. rewrite Z.eqb_refl. split; [lia|done].
      * exists i, h, g'. destruct (Z.eqb_spec i (v_gen_ff v)); [lia|]. split; [lia|done].
    + intros (i & h & g' & Hi & Hc & Hu). destruct (Z.eqb_spec i (v_gen_ff v)); [left; congruence|].
      right. exists i, h, g'. split; [lia|done].
  - intros i j h h' g1 g2 Hi Hj. unfold cupd.
    assert (Hne : forall i h g', 0 <= i < v_gen_ff v -> v_gen v i = Some (h, g') -> UniquenessInfo_from g' <> UniquenessInfo_from g).
    { intros i' h1 g1' Hi' Hc Hu. apply Hfresh. apply ok_set0. eauto 10. }
    destruct (Z.eqb_spec i (v_gen_ff v)), (Z.eqb_spec j (v_gen_ff v)); intros E1 E2 Hu.
    + congruence.
    + injection E1 as <- <-. exfalso. by apply (Hne j h' g2); [lia|done|].
    + injection E2 as <- <-. exfalso. by apply (Hne i h g1); [lia|done|].
    + eapply (ok_once0 i j); [lia|lia|done|done|done].
  - intros n i. destruct (decide (n = gi_nonce g)) as [->|Hn].
    + rewrite lookup_insert_eq. intros [= <-]. split; [lia|]. exists (merkle_hash g), g. unfold cupd. by rewrite Z.eqb_refl.
    + rewrite lookup_insert_ne by done. intros (Hi & h & g' & Hc & Hg)%ok_night0. split; [lia|].
      exists h, g'. unfold cupd. destruct (Z.eqb_spec i (v_gen_ff v)); [lia|done].
  - intros i h g' Hi. unfold cupd. destruct (Z.eqb_spec i (v_gen_ff v)).
    + intros [= <- <-]. rewrite lookup_insert_eq. eauto.
    + intros Hc. destruct (decide (gi_nonce g' = gi_nonce g)) as [->|Hn]; [rewrite lookup_insert_eq; eauto|].
      rewrite lookup_insert_ne by done. by apply (ok_night_all0 i h g'); [lia|].
Qed.

(** The dtime of an entry is set. *)
Lemma ok_set_gen st v i h g time :
  Dust_ok st v -> 0 <= i < v_gen_ff v -> v_gen v i = Some (h, g) ->
  let g' := with_dtime g time in
  exists t, try_update_hash (generating_tree (generation st)) i (merkle_hash g') g' = Ret t /\ all_visible t /\
    TreeLog transient_hash2 degrade t (v_gen (set_gen v i g')) (v_gen_ff v) /\ forall t', all_visible t' ->
    TreeLog transient_hash2 degrade t' (v_gen (set_gen v i g')) (v_gen_ff v) ->
    Dust_ok (mkDustState (utxo st) (mkDustGenerationState (address_delegation (generation st)) t'
               (generating_tree_first_free (generation st)) (generating_set (generation st))
               (night_indices (generation st)) (generation_root_history (generation st)))) (set_gen v i g').
Proof.
  intros Hok Hi Hc. cbv zeta. set (g' := with_dtime g time).
  pose proof (log_bound _ _ _ _ _ (ok_gen _ _ _ _ Hok)) as Hb.
  destruct (TreeLog_set _ _ _ _ _ i (merkle_hash g') g' (ok_gen _ _ _ _ Hok) Hi) as (t & E & HL & HV).
  { apply (ok_gen_visible _ _ _ _ Hok). lia. }
  exists t. split; [done|]. split; [intros j Hj; rewrite HV by done; by apply (ok_gen_visible _ _ _ _ Hok)|].
  split; [exact HL|]. intros t' Hv' HL'. destruct Hok.
  assert (Hlk : forall j, v_gen (set_gen v i g') j = if j =? i then Some (merkle_hash g', g') else v_gen v j) by done.
  split; cbn [utxo generation generating_tree generating_tree_first_free generating_set night_indices
    generation_root_history set_gen v_com v_com_ff v_gen_ff]; try done; setoid_rewrite Hlk.
  - intros u. rewrite ok_set0. split; intros (j & h1 & g1 & Hj & Hc1 & Hu).
    + destruct (Z.eqb_spec j i) as [->|Hne].
      * exists i, (merkle_hash g'), g'. rewrite Z.eqb_refl. rewrite Hc in Hc1. simplify_eq. done.
      * exists j, h1, g1. destruct (Z.eqb_spec j i); [lia|done].
    + destruct (Z.eqb_spec j i) as [->|Hne]; [|by exists j, h1, g1]. exists i, h, g. simplify_eq. done.
  - intros j k h1 h2 g1 g2 Hj Hk. pose proof (ok_once0 i k h h2 g g2 Hi Hk Hc) as O1.
    pose proof (ok_once0 j i h1 h g1 g Hj Hi) as O2.
    destruct (Z.eqb_spec j i) as [->|], (Z.eqb_spec k i) as [->|]; intros E1 E2 Hu.
    + done.
    + injection E1 as <- <-. by apply O1.
    + injection E2 as <- <-. by apply O2.
    + by eapply ok_once0.
  - intros n j (Hj & h1 & g1 & Hc1 & Hn)%ok_night0. split; [done|].
    destruct (Z.eqb_spec j i) as [->|]; [|by exists h1, g1]. rewrite Hc in Hc1. simplify_eq. by eexists _, _.
  - intros j h1 g1 Hj. destruct (Z.eqb_spec j i) as [->|]; [|by apply ok_night_all0].
    intros [= <- <-]. by apply (ok_night_all0 i h g).
Qed.

(** *** Operations run as events

    From view [v0], an operation has reached a state with these deferred events:
    all of them can be run, their block time is [tblock], and they lead to the
    state's view. *)
Definition reached (tblock : Timestamp) (v0 : View) (acc : DustState * list Deferred) : Prop :=
  exists es v, acc.2 = Ret <$> es /\ Forall (fun e => event_block_time e = tblock) es /\
    event_steps v0 es v /\ Dust_ok acc.1 v.

Lemma reached_start tblock st v : Dust_ok st v -> reached tblock v (st, []).
Proof. intros Hok. exists [], v. split_and!; [done|constructor|constructor|done]. Qed.

Lemma reached_trans tblock v0 evs v st' evs' :
  (exists es, evs = Ret <$> es /\ Forall (fun e => event_block_time e = tblock) es /\ event_steps v0 es v) ->
  reached tblock v (st', evs') -> reached tblock v0 (st', evs ++ evs').
Proof.
  intros (es1 & -> & H1 & S1) (es2 & v2 & E2 & H2 & S2 & Hok). cbn in E2. subst evs'.
  exists (es1 ++ es2), v2. rewrite fmap_app. split_and!; [done|by apply Forall_app|by eapply event_steps_app|done].
Qed.

(** An operation on the state of an accumulator, whose events are appended. *)
Lemma reached_op tblock v0 acc (r : outcome DustInvalid (DustState * list Deferred)) :
  reached tblock v0 acc ->
  (forall v, Dust_ok acc.1 v -> r <> Panic /\ forall x, r = Ret x -> reached tblock v x) ->
  let r' := ('(state, events) ← r; mret (state, acc.2 ++ events)) in
  r' <> Panic /\ forall acc', r' = Ret acc' -> reached tblock v0 acc'.
Proof.
  intros (es & v & E & Ht & Hs & Hok) Hr. destruct (Hr v Hok) as [Hp Hret]. cbv zeta.
  destruct r as [[st evs]|e|]; [|done..]. split; [done|]. intros acc' [= <-].
  eapply reached_trans; [by exists es|by apply Hret].
Qed.

Lemma fresh_spec st v nonce iv nv addr tnow tblock :
  Dust_ok st v ->
  match fresh_dust_output st nonce iv nv addr tnow tblock with
  | Ret (st', evs) =>
      exists out, let g := mkDustGenerationInfo nv addr nonce Timestamp_MAX in
        (UniquenessInfo_from g ∉ generating_set (generation st)) /\
        evs = [Ret (DustInitialUtxo out g (v_gen_ff v) tblock)] /\ qdo_initial_value out = iv /\ qdo_ctime out = tnow /\
        event_step v (DustInitialUtxo out g (v_gen_ff v) tblock)
          (add_gen (add_com v (qdo_commitment transient_hash out)) g) /\
        Dust_ok st' (add_gen (add_com v (qdo_commitment transient_hash out)) g) /\
        address_delegation (generation st') = address_delegation (generation st) /\
        dust_nullifiers (utxo st') = dust_nullifiers (utxo st)
  | Fail (GenerationInfoAlreadyPresent g) =>
      g = mkDustGenerationInfo nv addr nonce Timestamp_MAX /\ UniquenessInfo_from g ∈ generating_set (generation st)
  | Fail (DustMerkleTreeError e) => v_com_ff v = pow2 H \/ v_gen_ff v = pow2 H
  | Panic => False
  end.
Proof.
  intros Hok. unfold Dust.fresh_dust_output. cbv zeta.
  set (pp := mkDustPreProjection iv addr (dust_first_nonce modulus transient_hash nonce addr) tnow).
  pose proof (ok_add_com st v (pp_commitment transient_hash pp) Hok) as HC.
  destruct (try_update_hash (commitments (utxo st)) _ _ _) as [coms|e|]; [|by left|done].
  destruct HC as (Hlt & HC). cbn [map_fail mbind outcome_bind]. set (g := mkDustGenerationInfo nv addr nonce Timestamp_MAX).
  case_bool_decide as Hset; [done|].
  pose proof (ok_add_gen _ _ g (HC (dust_nullifiers (utxo st))) Hset) as HG. cbn [generation utxo] in HG.
  destruct (try_update_hash (generating_tree (generation st)) _ _ _) as [tree|e|]; [|by right|done].
  destruct HG as (Hlt' & HG). cbn [map_fail mbind outcome_bind mret outcome_ret].
  eexists. rewrite (ok_gen_ff _ _ _ _ Hok) in *. split_and!; [done|done|done|done| |exact HG|done|done].
  apply step_initial; [apply (ok_com_ff _ _ _ _ Hok)|done..].
Qed.

Lemma fresh_reached st v nonce iv nv addr tnow tblock :
  Dust_ok st v ->
  let r := map_fail DustStateInvalid (fresh_dust_output st nonce iv nv addr tnow tblock) in
  r <> Panic /\ forall x, r = Ret x -> reached tblock v x.
Proof.
  intros Hok. cbv zeta. pose proof (fresh_spec st v nonce iv nv addr tnow tblock Hok) as HS.
  destruct (fresh_dust_output _ _ _ _ _ _ _) as [[st' evs]|e|]; [|done..]. split; [done|]. intros x [= <-].
  destruct HS as (out & _ & -> & _ & _ & Hs & Hok' & _). eexists [_], _. split_and!; [done| | |exact Hok'].
  - by constructor.
  - by apply event_steps_one.
Qed.

Lemma spend_spec st v (spend : DustSpend) time tblock :
  Dust_ok st v ->
  match apply_spend st spend time tblock with
  | Ret (st', evs) =>
      (old_nullifier spend ∉ dust_nullifiers (utxo st)) /\ v_com_ff v < pow2 H /\
      dust_nullifiers (utxo st') = {[old_nullifier spend]} ∪ dust_nullifiers (utxo st) /\
      generation st' = generation st /\ Dust_ok st' (add_com v (new_commitment spend)) /\
      evs = [Ret (DustSpendProcessed (new_commitment spend) (v_com_ff v) (old_nullifier spend) (v_fee spend) time tblock)]
  | Fail (DustDoubleSpend n) => n = old_nullifier spend /\ n ∈ dust_nullifiers (utxo st)
  | Fail _ => v_com_ff v = pow2 H
  | Panic => False
  end.
Proof.
  intros Hok. unfold apply_spend. cbv zeta. case_bool_decide as Hn; [done|].
  pose proof (ok_add_com st v (new_commitment spend) Hok) as HC.
  destruct (try_update_hash _ _ _ _) as [coms|e|]; [|done..]. destruct HC as [Hlt HC].
  cbn [map_fail mbind outcome_bind mret outcome_ret]. rewrite <- (ok_com_ff _ _ _ _ Hok) in *.
  split_and!; [done|done|done|done|apply HC|done].
Qed.

Lemma spend_reached st v (spend : DustSpend) time tblock :
  Dust_ok st v -> let r := apply_spend st spend time tblock in
  r <> Panic /\ forall x, r = Ret x -> reached tblock v x.
Proof.
  intros Hok. cbv zeta. pose proof (spend_spec st v spend time tblock Hok) as HS.
  destruct (apply_spend _ _ _ _) as [[st' evs]|e|]; [|done..]. split; [done|]. intros x [= <-].
  destruct HS as (_ & Hlt & _ & _ & Hok' & ->). eexists [_], _. split_and!; [done| | |exact Hok'].
  - by constructor.
  - apply event_steps_one. by apply step_spend.
Qed.

(** *** Unshielded offers *)

(** The event of an entry whose dtime was set can be run, from the tree or from
    its rehashed form. *)
Lemma dtime_event_run st v i h g time tblock t :
  Dust_ok st v -> 0 <= i < v_gen_ff v -> v_gen v i = Some (h, g) ->
  TreeLog transient_hash2 degrade t (v_gen (set_gen v i (with_dtime g time))) (v_gen_ff v) -> all_visible t ->
  exists e, dtime_event modulus (rehash 0 transient_hash2 degrade t) i tblock = Ret e /\ event_block_time e = tblock /\
    event_step v e (set_gen v i (with_dtime g time)).
Proof.
  intros Hok Hi Hc HL Hv. destruct (TreeLog_rehash _ _ _ _ _ HL) as (t' & E & HL' & Hr & HV). unfold dtime_event.
  rewrite E. cbn [mbind outcome_bind]. pose proof (log_bound _ _ _ _ _ HL) as Hb.
  destruct (TreeLog_evidence _ _ _ _ _ i (merkle_hash (with_dtime g time), with_dtime g time) HL') as (es & -> & HE).
  - by rewrite Hr.
  - done.
  - cbn. unfold cupd. by rewrite Z.eqb_refl.
  - rewrite HV. apply Hv. lia.
  - eexists. split_and!; [done|done|]. by eapply step_dtime.
Qed.

Lemma end_generation_reached v0 acc (input : @UtxoSpend VerifyingKey) tblock :
  reached tblock v0 acc ->
  end_generation acc tblock input <> Panic /\
  forall acc', end_generation acc tblock input = Ret acc' -> reached tblock v0 acc'.
Proof.
  intros Hr. pose proof Hr as (es & v & E & Ht & Hs & Hok). unfold Dust.end_generation. cbv zeta.
  destruct (night_indices _ !! _) as [idx|] eqn:En; [|split; [done|by intros acc' [= <-]]].
  destruct (ok_night _ _ _ _ Hok _ _ En) as (Hi & h & g & Hc & _).
  pose proof (log_bound _ _ _ _ _ (ok_gen _ _ _ _ Hok)) as Hb.
  destruct (TreeLog_index _ _ _ _ _ idx (ok_gen _ _ _ _ Hok) Hi) as (x & Ex & Hx).
  { apply (ok_gen_visible _ _ _ _ Hok). lia. }
  rewrite Ex. rewrite Hc in Hx. injection Hx as <-.
  destruct (ok_set_gen acc.1 v idx h g tblock Hok Hi Hc) as (t & Eu & Hv & HL & Hok').
  unfold with_dtime in Eu. rewrite Eu. cbn [map_fail mbind outcome_bind mret outcome_ret]. split; [done|].
  intros acc' [= <-]. destruct (dtime_event_run acc.1 v idx h g tblock tblock t Hok Hi Hc HL Hv) as (e & Ee & Hb' & Hstep).
  exists (es ++ [e]), (set_gen v idx (with_dtime g tblock)). cbn [fst snd]. rewrite E, Ee, fmap_app. split_and!.
  - done.
  - apply Forall_app. split; [done|]. by constructor.
  - eapply event_steps_app; [done|]. by apply event_steps_one.
  - by apply Hok'.
Qed.

Lemma start_generation_reached parent segment v0 acc o tblock :
  reached tblock v0 acc ->
  start_generation parent segment tblock acc o <> Panic /\
  forall acc', start_generation parent segment tblock acc o = Ret acc' -> reached tblock v0 acc'.
Proof.
  intros Hr. unfold Dust.start_generation. destruct (address_delegation _ !! _) as [addr|]; [|split; [done|by intros ? [= <-]]].
  destruct (handled_by_registration _ _ _ _); [split; [done|by intros ? [= <-]]|].
  apply reached_op; [done|]. intros v Hok. by apply fresh_reached.
Qed.

Lemma offer_reached st v offer parent segment tblock :
  Dust_ok st v -> let r := dust_apply_offer st offer parent segment tblock in
  r <> Panic /\ forall x, r = Ret x -> reached tblock v x.
Proof.
  intros Hok. cbv zeta. unfold Dust.dust_apply_offer.
  destruct (try_fold_o_safe (reached tblock v) (fun acc input => end_generation acc tblock input)
    (filter (fun i => spend_type i = NIGHT) (uo_inputs offer))) with (s := (st, @nil Deferred)) as [H1 H2].
  { intros acc x Hr. by apply end_generation_reached. }
  { by apply reached_start. }
  destruct (try_fold_o _ (st, []) _) as [acc|e|]; [|done..]. cbn [mbind outcome_bind].
  apply (try_fold_o_safe (reached tblock v)); [|by apply H2]. intros acc' x Hr. by apply start_generation_reached.
Qed.

(** *** Registrations *)

Local Abbreviation sum_Z := (foldr Z.add 0).

Lemma foldl_sat_add_nonneg l : forall a, 0 <= a -> Forall (Z.le 0) l -> 0 <= foldl (fun a b => sat_add 128 a b) a l.
Proof.
  induction l as [|x l IH]; intros a Ha Hl; [done|]. apply Forall_cons in Hl as [Hx Hl]. cbn [foldl]. apply IH; [|done].
  unfold sat_add, u_max. lia.
Qed.

Lemma availability_nonneg st us parent key p :
  0 <= generationless_fee_availability persistent_hash user_address (Signature := Signature) (Proof := Proof)
         (Action := Action) (Binding := Binding) st us parent key p.
Proof.
  unfold generationless_fee_availability. destruct (dust_actions parent); [|done]. cbv zeta.
  apply foldl_sat_add_nonneg; [done|]. apply Forall_fmap, Forall_true. intros i. cbn.
  destruct (utxos us !! _); lia.
Qed.

(** The shares of outputs do not exceed what is distributed. *)
Lemma shares_bound (S d : Z) (l shares : list Z) :
  0 < S -> 0 <= d -> Forall (Z.le 0) l -> Forall2 (fun v x => registration_share v S d = Some x) l shares ->
  Forall (Z.le 0) shares /\ sum_Z shares * (DISTRIBUTION_RESOLUTION * S) <= d * (DISTRIBUTION_RESOLUTION * sum_Z l).
Proof.
  intros HS Hd Hl HF. induction HF as [|v x l shares Hx HF IH]; [cbn; split; [constructor|lia]|].
  apply Forall_cons in Hl as [Hv Hl]. destruct (IH Hl) as [IH1 IH2]. cbn [foldr].
  unfold registration_share in Hx. destruct (Z.eqb_spec S 0); [lia|]. injection Hx as <-.
  unfold DISTRIBUTION_RESOLUTION in *. set (r := sat_mul 128 v 10000 / S).
  assert (Hr : 0 <= r /\ r * S <= v * 10000).
  { unfold r. assert (0 <= sat_mul 128 v 10000 <= v * 10000) by (unfold sat_mul, u_max; lia).
    split; [apply Z.div_pos; lia|]. pose proof (Z.mul_div_le (sat_mul 128 v 10000) S HS). lia. }
  assert (Hs : 0 <= sat_mul 128 r d <= r * d) by (unfold sat_mul, u_max; nia).
  pose proof (Z.mul_div_le (sat_mul 128 r d) 10000 ltac:(lia)).
  assert (0 <= sat_mul 128 r d / 10000) by (apply Z.div_pos; lia). clearbody r.
  set (x := sat_mul 128 r d / 10000) in *. clearbody x. split; [by constructor|].
  assert (x * 10000 * S <= d * (10000 * v)) by nia. nia.
Qed.

Lemma output_sum_exact {X} (l : list (X * UtxoOutput)) : forall a,
  0 <= a -> Forall (fun o => 0 <= output_value o.2) l ->
  a + sum_Z ((fun o => output_value o.2) <$> l) <= u_max 128 ->
  foldl (fun a o => sat_add 128 a (output_value o.2)) a l = a + sum_Z ((fun o => output_value o.2) <$> l).
Proof.
  induction l as [|o l IH]; intros a Ha Hl Hs; cbn in *; [lia|]. apply Forall_cons in Hl as [Ho Hl].
  assert (0 <= sum_Z ((fun o : X * UtxoOutput => output_value o.2) <$> l)).
  { clear -Hl. induction Hl; cbn; lia. }
  unfold sat_add. rewrite Z.min_l by lia. rewrite IH; [lia|lia|done|lia].
Qed.

Definition event_initial_value (e : DustEvent) : Z :=
  match e with DustInitialUtxo out _ _ _ => qdo_initial_value out | _ => 0 end.

(** The loop of [apply_registration]. *)
Lemma registration_outputs (nonces : nat -> list Z) S d addr tnow tblock l : forall acc v0,
  reached tblock v0 acc ->
  let r := try_fold_o (fun acc o =>
      initial_value ← match registration_share (output_value o.2) S d with Some v => mret v | None => Fail DivideByZero end;
      '(state, events) ← map_fail DustStateInvalid
         (fresh_dust_output acc.1 (nonces o.1) initial_value (output_value o.2) addr tnow tblock);
      mret (state, acc.2 ++ events)) acc l in
  r <> Panic /\ forall acc', r = Ret acc' -> reached tblock v0 acc' /\
    (address_delegation (generation acc'.1) = address_delegation (generation acc.1)) /\
    (dust_nullifiers (utxo acc'.1) = dust_nullifiers (utxo acc.1)) /\
    exists es, acc'.2 = acc.2 ++ (Ret <$> es) /\
      Forall2 (fun o e => registration_share (output_value o.2) S d = Some (event_initial_value e)) l es.
Proof.
  induction l as [|o l IH]; intros acc v0 Hr; cbn [try_fold_o]; cbv zeta.
  { split; [done|]. intros acc' [= <-]. split_and!; [done|done|done|]. exists []. by rewrite app_nil_r. }
  destruct (registration_share (output_value o.2) S d) as [iv|] eqn:Es; [|done].
  cbn [mbind outcome_bind mret outcome_ret].
  pose proof Hr as (es & v & E & Ht & Hs & Hok).
  pose proof (fresh_spec acc.1 v (nonces o.1) iv (output_value o.2) addr tnow tblock Hok) as HS.
  pose proof (reached_op tblock v0 acc _ Hr (fun v Hok => fresh_reached acc.1 v (nonces o.1) iv (output_value o.2) addr tnow tblock Hok)) as [Hn Hret].
  destruct (fresh_dust_output acc.1 _ _ _ _ _ _) as [[st1 evs1]|e|]; [|done..].
  destruct HS as (out & _ & -> & Hiv & _ & _ & _ & Hd & Hu). cbn [map_fail mbind outcome_bind mret outcome_ret] in *.
  specialize (Hret _ eq_refl). destruct (IH _ v0 Hret) as [IH1 IH2]. cbn [mbind outcome_bind mret outcome_ret] in *.
  split; [exact IH1|]. intros acc' Ea. destruct (IH2 acc' Ea) as (Hr' & Hd' & Hu' & es' & Ee & HF).
  cbn [fst snd] in *. split_and!; [done|congruence|congruence|].
  exists (DustInitialUtxo out (mkDustGenerationInfo (output_value o.2) addr (nonces o.1) Timestamp_MAX) (v_gen_ff v) tblock :: es').
  rewrite Ee, fmap_cons, <- app_assoc. split; [done|]. constructor; [cbn; congruence|done].
Qed.

(** The delegation of addresses is not part of the invariant. *)
Lemma Dust_ok_delegation st v d :
  Dust_ok st v ->
  Dust_ok (mkDustState (utxo st) (mkDustGenerationState d (generating_tree (generation st))
    (generating_tree_first_free (generation st)) (generating_set (generation st)) (night_indices (generation st))
    (generation_root_history (generation st)))) v.
Proof. intros []. by split. Qed.

Local Abbreviation availability := (generationless_fee_availability persistent_hash user_address (Signature := Signature)
  (Proof := Proof) (Action := Action) (Binding := Binding)).

Lemma registration_run st v us fees (parent : Intent) reg p tnow tblock :
  Dust_ok st v ->
  let dust_in := availability st us parent (night_key reg) p in
  let address := user_address (night_key reg) in
  let owned := owned_outputs parent address in
  let r := apply_registration st us fees parent reg p tnow tblock in
  r <> Panic /\ forall st' fr evs, r = Ret (st', fr, evs) ->
    reached tblock v (st', evs) /\ fr = fees - Z.min fees (Z.min (allow_fee_payment reg) dust_in) /\
    address_delegation (generation st') = from_option (fun a => <[address := a]>) (delete address) (dust_address reg)
                                            (address_delegation (generation st)) /\
    dust_nullifiers (utxo st') = dust_nullifiers (utxo st) /\
    (Forall (fun o => 0 <= output_value o.2) owned ->
     sum_Z ((fun o => output_value o.2) <$> owned) <= u_max 128 ->
     exists es, evs = Ret <$> es /\ Forall (Z.le 0) (event_initial_value <$> es) /\
       sum_Z (event_initial_value <$> es) + (fees - fr) <= dust_in).
Proof.
  intros Hok. cbv zeta. unfold Dust.apply_registration. cbv zeta.
  set (dust_in := availability st us parent (night_key reg) p). set (address := user_address (night_key reg)).
  set (owned := owned_outputs parent address). set (paid := Z.min fees (Z.min (allow_fee_payment reg) dust_in)).
  assert (0 <= dust_in) by apply availability_nonneg. assert (paid <= dust_in) by (unfold paid; lia).
  destruct (dust_address reg) as [addr|].
  - cbn [mbind outcome_bind mret outcome_ret].
    set (st1 := mkDustState (utxo st) _). set (S := foldl _ 0 owned).
    destruct (registration_outputs (fun n => initial_nonce persistent_hash (wrap 32 (Z.of_nat n)) (intent_hash parent 0))
      S (dust_in - paid) addr tnow tblock owned (st1, []) v) as [Hn Hret].
    { apply reached_start. by apply Dust_ok_delegation. }
    destruct (try_fold_o _ _ _) as [[st' evs]|e|]; [|done..]. cbn [mbind outcome_bind mret outcome_ret].
    split; [done|]. intros ? ? ? [= <- <- <-]. destruct (Hret _ eq_refl) as (Hr & Hd & Hu & es & Ee & HF).
    cbn [fst snd app] in *. split_and!; [done|done|done|done|]. intros Hv Hs. exists es. split; [done|].
    assert (HS : S = sum_Z ((fun o => output_value o.2) <$> owned)) by (unfold S; rewrite output_sum_exact; [lia|lia|done|lia]).
    apply (Forall2_fmap_l (fun o : nat * UtxoOutput => output_value o.2)
             (fun v e => registration_share v S (dust_in - paid) = Some (event_initial_value e))), 
          (Forall2_fmap_r event_initial_value (fun v x => registration_share v S (dust_in - paid) = Some x)) in HF.
    destruct (Z.eq_dec S 0) as [HS0|HS0].
    { inversion HF as [Ho|v0 x l' l'' Hx]; [by destruct es; [cbn; split; [constructor|lia]|]|].
      unfold registration_share in Hx. by destruct (Z.eqb_spec S 0). }
    assert (0 < S).
    { enough (0 <= S) by lia. rewrite HS. clear -Hv. induction Hv; cbn; lia. }
    destruct (shares_bound S (dust_in - paid) ((fun o => output_value o.2) <$> owned) (event_initial_value <$> es)) as [Hp Hle];
      [done|lia|by apply Forall_fmap|done|].
    split; [done|]. rewrite <- HS in Hle. unfold DISTRIBUTION_RESOLUTION in Hle. nia.
  - case_bool_decide; [done|]. cbn [mbind outcome_bind mret outcome_ret]. split; [done|]. intros ? ? ? [= <- <- <-].
    split_and!; [by apply reached_start, Dust_ok_delegation|done|done|done|]. intros _ _. exists [].
    split; [done|]. cbn. split; [constructor|lia].
Qed.

(** *** The end of a generation by a system transaction *)

Lemma destroy_reached st v nonce time tblock : Dust_ok st v ->
  exists st' evs, cnight_destroy modulus transient_hash st nonce time tblock = Ret (st', evs) /\ reached tblock v (st', evs) /\
    dust_nullifiers (utxo st') = dust_nullifiers (utxo st).
Proof.
  intros Hok. unfold cnight_destroy. cbv zeta.
  destruct (night_indices _ !! _) as [idx|] eqn:En; [|exists st, []; split_and!; [done|by apply reached_start|done]].
  destruct (ok_night _ _ _ _ Hok _ _ En) as (Hi & h & g & Hc & _). pose proof (log_bound _ _ _ _ _ (ok_gen _ _ _ _ Hok)) as Hb.
  destruct (TreeLog_index _ _ _ _ _ idx (ok_gen _ _ _ _ Hok) Hi) as (x & Ex & Hx); [apply (ok_gen_visible _ _ _ _ Hok); lia|].
  rewrite Ex. rewrite Hc in Hx. injection Hx as <-. destruct (ok_set_gen st v idx h g time Hok Hi Hc) as (t & Eu & Hv & HL & Hok').
  unfold with_dtime in Eu. rewrite Eu. cbn [mbind outcome_bind].
  destruct (dtime_event_run st v idx h g time tblock t Hok Hi Hc HL Hv) as (e & Ee & Hb' & Hstep).
  destruct (TreeLog_rehash _ _ _ _ _ HL) as (t' & Et & HL' & _ & HV). rewrite Et in Ee |- *. cbn [mbind outcome_bind mret outcome_ret].
  eexists _, _. split_and!; [done| |done]. exists [e], (set_gen v idx (with_dtime g time)). cbn [fst snd]. split_and!.
  - cbn. by rewrite <- Ee.
  - by constructor.
  - by apply event_steps_one.
  - apply Hok'; [|done]. intros j Hj. rewrite HV. by apply Hv.
Qed.

(** *** After a block *)

Lemma dust_post_block_spec st v tblock d :
  Dust_ok st v -> in_u 64 tblock -> in_u 64 d ->
  let com_root := mroot 0 transient_hash2 degrade H (v_com v) in
  let gen_root := mroot 0 transient_hash2 degrade H (v_gen v) in
  multiset_count (tset (utxo_root_history (utxo st))) com_root < u_max 32 ->
  multiset_count (tset (generation_root_history (generation st))) gen_root < u_max 32 ->
  exists st', dust_post_block_update modulus transient_hash st tblock d = Ret st' /\ Dust_ok st' v /\
    dust_nullifiers (utxo st') = dust_nullifiers (utxo st) /\
    address_delegation (generation st') = address_delegation (generation st) /\
    node_root 0 degrade (commitments (utxo st')) = Some com_root /\
    node_root 0 degrade (generating_tree (generation st')) = Some gen_root /\
    utxo_root_history (utxo st') = TimeFilterMap_filter (TimeFilterMap_insert (utxo_root_history (utxo st)) tblock com_root)
                                     (Timestamp_sub_duration tblock d) /\
    generation_root_history (generation st') =
      TimeFilterMap_filter (TimeFilterMap_insert (generation_root_history (generation st)) tblock gen_root)
        (Timestamp_sub_duration tblock d).
Proof.
  intros Hok Ht Hd. cbv zeta. intros Hc1 Hc2. unfold dust_post_block_update. cbv zeta.
  destruct (TreeLog_rehash _ _ _ _ _ (ok_com _ _ _ _ Hok)) as (t1 & E1 & HL1 & Hr1 & HV1).
  destruct (TreeLog_rehash _ _ _ _ _ (ok_gen _ _ _ _ Hok)) as (t2 & E2 & HL2 & Hr2 & HV2).
  set (R1 := mroot 0 transient_hash2 degrade H (v_com v)) in *. set (R2 := mroot 0 transient_hash2 degrade H (v_gen v)) in *.
  clearbody R1 R2. rewrite E1. cbn [mbind outcome_bind]. rewrite Hr1. cbn [expect mbind outcome_bind]. rewrite E2. cbn [mbind outcome_bind].
  rewrite Hr2. cbn [expect mbind outcome_bind mret outcome_ret]. eexists. split; [done|].
  split_and!; [|done|done|done|done|done|done]. destruct Hok.
  split; cbn [utxo generation commitments commitments_first_free utxo_root_history generating_tree generating_tree_first_free
    generating_set night_indices generation_root_history]; try done.
  - intros i Hi. rewrite HV1. by apply ok_com_visible0.
  - intros i Hi. rewrite HV2. by apply ok_gen_visible0.
  - by apply TimeFilterMap_filter_ok, TimeFilterMap_insert_ok.
  - by apply TimeFilterMap_filter_ok, TimeFilterMap_insert_ok.
Qed.

(** ** States of a chain

    One operation of the ledger at a block time, with the nullifiers it spends;
    [op_create] is the part of claims and system transactions, [op_destroy] the
    other action of a system transaction.  Histories of a
    state: the block time, the deferred events and the nullifiers so far. *)

Inductive dust_op (t : Timestamp) : DustState -> DustState -> list Deferred -> list Z -> Prop :=
| op_spend st (s : DustSpend) time st' evs :
    apply_spend st s time t = Ret (st', evs) -> dust_op t st st' evs [old_nullifier s]
| op_register st us fees (parent : Intent) reg p tnow st' fees' evs :
    apply_registration st us fees parent reg p tnow t = Ret (st', fees', evs) -> dust_op t st st' evs []
| op_offer st offer (parent : Intent) segment st' evs :
    dust_apply_offer st offer parent segment t = Ret (st', evs) -> dust_op t st st' evs []
| op_create st nonce iv nv addr tnow st' evs :
    fresh_dust_output st nonce iv nv addr tnow t = Ret (st', evs) -> dust_op t st st' evs []
| op_destroy st nonce time st' evs :
    cnight_destroy modulus transient_hash st nonce time t = Ret (st', evs) -> dust_op t st st' evs []
| op_block st d st' :
    in_u 64 t -> in_u 64 d ->
    (forall r, multiset_count (tset (utxo_root_history (utxo st))) r < u_max 32) ->
    (forall r, multiset_count (tset (generation_root_history (generation st))) r < u_max 32) ->
    dust_post_block_update modulus transient_hash st t d = Ret st' -> dust_op t st st' [] [].

Inductive dust_reachable : Timestamp -> DustState -> list Deferred -> list Z -> Prop :=
| dr_default t : dust_reachable t DustState_default [] []
| dr_tick t t' st evs spent : dust_reachable t st evs spent -> t <= t' -> dust_reachable t' st evs spent
| dr_op t st evs spent st' evs' spent' :
    dust_reachable t st evs spent -> dust_op t st st' evs' spent' ->
    dust_reachable t st' (evs ++ evs') (spent' ++ spent).

(** The nullifiers change by spends only. *)
Lemma fresh_nullifiers st nonce iv nv addr tnow t st' evs :
  fresh_dust_output st nonce iv nv addr tnow t = Ret (st', evs) -> dust_nullifiers (utxo st') = dust_nullifiers (utxo st).
Proof.
  unfold Dust.fresh_dust_output. cbv zeta. intros (coms & _ & E)%outcome_bind_Ret.
  case_bool_decide; [done|]. apply outcome_bind_Ret in E as (tree & _ & E). by injection E as <- <-.
Qed.

Lemma offer_nullifiers st offer (parent : Intent) segment t st' evs :
  dust_apply_offer st offer parent segment t = Ret (st', evs) -> dust_nullifiers (utxo st') = dust_nullifiers (utxo st).
Proof.
  unfold Dust.dust_apply_offer. intros (acc & E1 & E2)%outcome_bind_Ret.
  set (P := fun acc : DustState * list Deferred => dust_nullifiers (utxo acc.1) = dust_nullifiers (utxo st)).
  refine (try_fold_o_ind P _ _ _ acc (st', evs) (try_fold_o_ind P _ _ _ (st, []) acc eq_refl E1) E2).
  - intros a x a' Ha Ea. unfold P, Dust.start_generation in *. destruct (address_delegation _ !! _); [|by injection Ea as <-].
    destruct (handled_by_registration _ _ _ _); [by injection Ea as <-|].
    apply outcome_bind_Ret in Ea as ([st1 evs1] & Ef & Ea). injection Ea as <-.
    destruct (fresh_dust_output _ _ _ _ _ _ _) as [[]| |] eqn:E; [|done..]. injection Ef as -> ->.
    apply fresh_nullifiers in E. cbn [fst]. congruence.
  - intros a x a' Ha Ea. unfold P, Dust.end_generation in *. cbv zeta in Ea.
    destruct (night_indices _ !! _); [|by injection Ea as <-]. destruct (node_index _ _) as [[]|]; [|by injection Ea as <-].
    apply outcome_bind_Ret in Ea as (? & _ & Ea). by injection Ea as <-.
Qed.

(** What an operation does to a consistent state. *)
Lemma op_consistent t st v st' evs spent :
  Dust_ok st v -> dust_op t st st' evs spent ->
  reached t v (st', evs) /\ NoDup spent /\ (forall n, n ∈ spent -> n ∉ dust_nullifiers (utxo st)) /\
  dust_nullifiers (utxo st') = list_to_set spent ∪ dust_nullifiers (utxo st).
Proof.
  intros Hok Hop. revert Hok. destruct Hop as [st0 s time st1 evs1 E|st0 us fees parent reg p tnow st1 fees1 evs1 E|st0 offer parent sg st1 evs1 E
    |st0 nonce iv nv addr tnow st1 evs1 E|st0 nonce time st1 evs1 E|st0 d st1 Ht Hd Hc1 Hc2 E]; intros Hok.
  - pose proof (spend_reached st0 v s time t Hok) as [_ Hr]. split; [by apply Hr|].
    pose proof (spend_spec st0 v s time t Hok) as HS. rewrite E in HS. destruct HS as (Hn & _ & Hu & _).
    split_and!; [apply NoDup_singleton|by intros n ->%list_elem_of_singleton|]. rewrite Hu. cbn. set_solver.
  - destruct (registration_run st0 v us fees parent reg p tnow t Hok) as [_ Hr].
    destruct (Hr _ _ _ E) as (Hr' & _ & _ & Hu & _). split_and!; [done|constructor|by intros n Hn%not_elem_of_nil|].
    rewrite Hu. set_solver.
  - destruct (offer_reached st0 v offer parent sg t Hok) as [_ Hr]. apply offer_nullifiers in E as Hu.
    split_and!; [by apply Hr|constructor|by intros n Hn%not_elem_of_nil|]. rewrite Hu. set_solver.
  - destruct (fresh_reached st0 v nonce iv nv addr tnow t Hok) as [_ Hr]. apply fresh_nullifiers in E as Hu.
    split_and!; [apply Hr; by rewrite E|constructor|by intros n Hn%not_elem_of_nil|]. rewrite Hu. set_solver.
  - destruct (destroy_reached st0 v nonce time t Hok) as (st2 & evs2 & E2 & Hr & Hu). rewrite E2 in E. injection E as <- <-.
    split_and!; [done|constructor|by intros n Hn%not_elem_of_nil|]. rewrite Hu. set_solver.
  - destruct (dust_post_block_spec st0 v t d Hok Ht Hd (Hc1 _) (Hc2 _)) as (st2 & E2 & Hok2 & Hu & _).
    rewrite E2 in E. injection E as <-. split_and!; [by apply reached_start|constructor|by intros n Hn%not_elem_of_nil|].
    rewrite Hu. set_solver.
Qed.

(** What a history amounts to. *)
Record Consistent (t : Timestamp) (st : DustState) (evs : list Deferred) (spent : list Z)
  (es : list DustEvent) (v : View) : Prop := {
  cons_events : evs = Ret <$> es;
  cons_steps : event_steps View_empty es v;
  cons_ok : Dust_ok st v;
  cons_sorted : StronglySorted Z.le (event_block_time <$> es);
  cons_past : Forall (fun e => event_block_time e <= t) es;
  cons_spent : NoDup spent;
  cons_nullifiers : dust_nullifiers (utxo st) = list_to_set spent
}.

Lemma sorted_app (l1 l2 : list Z) (t : Z) :
  StronglySorted Z.le l1 -> Forall (fun x => x <= t) l1 -> Forall (fun x => x = t) l2 -> StronglySorted Z.le (l1 ++ l2).
Proof.
  intros Hs Ht H2. induction Hs as [|x l1 Hs IH Hx]; cbn [app].
  - induction H2 as [|y l2 -> H2 IH]; constructor; [done|]. eapply Forall_impl; [exact H2|]. cbn. lia.
  - apply Forall_cons in Ht as [Hxt Ht]. constructor; [by apply IH|]. apply Forall_app. split; [done|].
    eapply Forall_impl; [exact H2|]. cbn. lia.
Qed.

Lemma reachable_consistent t st evs spent :
  dust_reachable t st evs spent -> exists es v, Consistent t st evs spent es v.
Proof.
  induction 1 as [t|t t' st evs spent _ (es & v & HC) Ht|t st evs spent st' evs' spent' _ (es & v & HC) Hop].
  - exists [], View_empty. split; [done|constructor|apply DustState_default_ok|constructor|constructor|constructor|done].
  - exists es, v. destruct HC. split; try done. eapply Forall_impl; [done|]. cbn. lia.
  - destruct HC as [-> Hs Hok Hsort Hpast Hnd Hnul].
    destruct (op_consistent t st v st' evs' spent' Hok Hop) as ((es' & v' & Ee & Ht' & Hs' & Hok') & Hnd' & Hnew & Hu).
    cbn [fst snd] in *. exists (es ++ es'), v'. split.
    + by rewrite Ee, fmap_app.
    + by eapply event_steps_app.
    + done.
    + rewrite fmap_app. apply (sorted_app _ _ t); [done|by apply Forall_fmap|]. by apply Forall_fmap.
    + apply Forall_app. split; [done|]. eapply Forall_impl; [exact Ht'|]. cbn. lia.
    + apply NoDup_app. split_and!; [done| |done]. intros n Hn Hn'. apply (Hnew n Hn). rewrite Hnul. set_solver.
    + rewrite Hu, Hnul. set_solver.
Qed.
End operations.

(** ** Examples *)

Module DustExample.
Definition transient (l : list Z) : Z := foldl (fun a x => (31 * a + x + 1) mod 2 ^ 61) 17 l.
Definition persistent (l : list Z) : list Z := take 32 (l ++ replicate 32 0).
Definition modulus : Z := 256 ^ 32.
Definition address (k : Z) : list Z := [k].
Definition intent_hash (i : @Intent Z unit unit unit unit) (segment : Z) : IntentHash := [segment; ttl i].

Definition night : list Z := NIGHT.
Definition reg : @DustRegistration Z unit := mkDustRegistration 7 (Some 99) 150 None.
Definition offer : @UnshieldedOffer Z :=
  mkUnshieldedOffer [mkUtxoSpend 10 7 night [42] 0] [mkUtxoOutput 4 [7] night; mkUtxoOutput 6 [7] night].
Definition intent : @Intent Z unit unit unit unit :=
  mkIntent (Some offer) None [] (Some (mkDustActions [] [reg] 50)) 60 tt.
Definition us : UtxoState := mkUtxoState {[ mkUtxo 10 [7] night [42] 0 := mkUtxoMeta 0 ]}.
Definition params : DustParameters := mkDustParameters 100 1 0.
Definition spend : @DustSpend unit := mkDustSpend 5 1234 777 tt.
Definition spent (st : DustState) : DustState :=
  match apply_spend st spend 50 55 with Ret (st, _) => st | _ => st end.

Lemma spent_reachable :
  exists evs, dust_reachable modulus transient persistent address intent_hash 55 (spent DustState_default) evs [1234].
Proof.
  eexists ([] ++ _). eapply (dr_op _ _ _ _ _ 55 DustState_default [] [] _ _ [1234]); [apply dr_default|].
  apply (op_spend _ _ _ _ _ 55 DustState_default spend 50). vm_compute. reflexivity.
Qed.
End DustExample.

(** ** Properties *)

Section theorems.
Context {VerifyingKey Signature Proof Action Binding : Type} `{!EqDecision VerifyingKey}.
Context (modulus : Z) (transient_hash : list Z -> Z) (persistent_hash : list Z -> list Z).
Context (user_address : VerifyingKey -> list Z).
Context (intent_hash : @Intent VerifyingKey Signature Proof Action Binding -> Z -> IntentHash).
Local Abbreviation reachable := (dust_reachable modulus transient_hash persistent_hash user_address intent_hash).

(** C30. The Dust state of a chain is consistent: none of its deferred events
    panics; every index kept for a Night nonce refers to a generation entry with
    that nonce, so that the branches reporting a violated invariant are never
    taken; the generation entries are the first ones of their tree, no two of
    them have the same value, owner and nonce, and these are exactly the
    members of the uniqueness set. *)
Theorem dust_state_consistent t st evs spent :
  reachable t st evs spent ->
  let g := generation st in
  Forall (fun e => exists x, e = Ret x) evs /\
  (forall n i, night_indices g !! n = Some i ->
     0 <= i < generating_tree_first_free g /\
     exists h info, node_index (generating_tree g) i = Some (h, info) /\ gi_nonce info = n) /\
  (forall i, 0 <= i < pow2 DUST_GENERATION_TREE_DEPTH ->
     is_Some (node_index (generating_tree g) i) <-> i < generating_tree_first_free g) /\
  (forall i j x y, 0 <= i < generating_tree_first_free g -> 0 <= j < generating_tree_first_free g ->
     node_index (generating_tree g) i = Some x -> node_index (generating_tree g) j = Some y ->
     UniquenessInfo_from x.2 = UniquenessInfo_from y.2 -> i = j) /\
  (forall u, u ∈ generating_set g <->
     exists i x, 0 <= i < generating_tree_first_free g /\ node_index (generating_tree g) i = Some x /\
       UniquenessInfo_from x.2 = u).
Proof.
  intros (es & v & HC)%reachable_consistent. pose proof (cons_ok _ _ _ _ _ _ _ _ HC) as Hok. cbv zeta.
  rewrite (ok_gen_ff _ _ _ _ Hok). pose proof (log_bound _ _ _ _ _ (ok_gen _ _ _ _ Hok)) as Hb.
  assert (Hix : forall i, 0 <= i < pow2 DUST_GENERATION_TREE_DEPTH -> node_index (generating_tree (generation st)) i = v_gen v i).
  { intros i Hi. rewrite (node_index_spec _ _ _ _ _ _ i (log_rep _ _ _ _ _ (ok_gen _ _ _ _ Hok))) by done.
    by rewrite (ok_gen_visible _ _ _ _ Hok). }
  assert (Hix' : forall i, 0 <= i < v_gen_ff v -> node_index (generating_tree (generation st)) i = v_gen v i).
  { intros i Hi. apply Hix. unfold DUST_GENERATION_TREE_DEPTH. lia. }
  split_and!.
  - rewrite (cons_events _ _ _ _ _ _ _ _ HC). apply Forall_fmap, Forall_true. intros e. by exists e.
  - intros n i (Hi & h & info & Hc & Hn)%(ok_night _ _ _ _ Hok). split; [done|]. exists h, info. by rewrite Hix'.
  - intros i Hi. rewrite Hix by done. by apply (log_filled _ _ _ _ _ (ok_gen _ _ _ _ Hok)).
  - intros i j [h x] [h' y] Hi Hj. rewrite !Hix' by done. by eapply (ok_once _ _ _ _ Hok).
  - intros u. rewrite (ok_set _ _ _ _ Hok). split.
    + intros (i & h & x & Hi & Hc & Hu). exists i, (h, x). by rewrite Hix'.
    + intros (i & [h x] & Hi & Hc & Hu). exists i, h, x. by rewrite <- Hix'.
Qed.

(** C28. Dust is not spent twice: in every state of a chain the nullifiers spent so
    far are distinct; a spend of one of them is rejected as a double spend, and
    a spend of another one is applied unless the commitment tree is full, and
    then only adds its commitment at the first free index. *)
Theorem dust_no_double_spend t st evs spent (s : @DustSpend Proof) time :
  reachable t st evs spent ->
  NoDup spent /\
  (old_nullifier s ∈ spent -> apply_spend st s time t = Fail (DustDoubleSpend (old_nullifier s))) /\
  (old_nullifier s ∉ spent -> commitments_first_free (utxo st) < pow2 DUST_COMMITMENT_TREE_DEPTH ->
   exists st' evs', apply_spend st s time t = Ret (st', evs') /\
     reachable t st' (evs ++ evs') (old_nullifier s :: spent) /\ generation st' = generation st /\
     commitments_first_free (utxo st') = commitments_first_free (utxo st) + 1 /\
     node_index (commitments (utxo st')) (commitments_first_free (utxo st)) =
       Some (upgrade_from_transient (new_commitment s), tt)).
Proof.
  intros Hr. destruct (reachable_consistent _ _ _ _ _ _ _ _ _ Hr) as (es & v & HC).
  pose proof (cons_ok _ _ _ _ _ _ _ _ HC) as Hok. pose proof (cons_nullifiers _ _ _ _ _ _ _ _ HC) as Hn.
  pose proof (spend_spec modulus transient_hash st v s time t Hok) as HS.
  split; [apply (cons_spent _ _ _ _ _ _ _ _ HC)|]. split.
  - intros Hin. unfold apply_spend. cbv zeta. rewrite bool_decide_eq_true_2; [done|]. rewrite Hn. set_solver.
  - intros Hnin Hlt. rewrite (ok_com_ff _ _ _ _ Hok) in *. unfold DUST_COMMITMENT_TREE_DEPTH in Hlt.
    destruct (apply_spend st s time t) as [[st' evs']|e|] eqn:E; [| |done].
    + destruct HS as (_ & _ & _ & Hg & Hok' & _). exists st', evs'.
      split_and!; [done| |done|by rewrite (ok_com_ff _ _ _ _ Hok')|].
      * apply (dr_op _ _ _ _ _ t st evs spent st' evs' [old_nullifier s] Hr). by apply op_spend with time.
      * pose proof (log_bound _ _ _ _ _ (ok_com _ _ _ _ Hok)).
        rewrite (node_index_spec _ _ _ _ _ _ (v_com_ff v) (log_rep _ _ _ _ _ (ok_com _ _ _ _ Hok'))) by lia.
        rewrite (ok_com_visible _ _ _ _ Hok') by lia. cbn. unfold cupd. by rewrite Z.eqb_refl.
    + destruct e as [|n|a|]; try lia. destruct HS as [-> HS]. rewrite Hn in HS. set_solver.
Qed.

(** C29. A registration does not create Dust: the fee it pays is the least of the
    remaining fees, the allowance and the Dust its Night inputs could have
    generated, and this fee together with the initial values of the new outputs
    is at most the latter (amounts are in range and the values of its outputs
    add up to a 128-bit amount).  The address is delegated or no longer
    delegated as asked, and no nullifier is touched. *)
Theorem dust_registration_conserves t st evs spent us fees (parent : @Intent VerifyingKey Signature Proof Action Binding)
  reg p tnow st' fees' evs' :
  reachable t st evs spent ->
  apply_registration modulus transient_hash persistent_hash user_address intent_hash st us fees parent reg p tnow t =
    Ret (st', fees', evs') ->
  let dust_in := generationless_fee_availability persistent_hash user_address st us parent (night_key reg) p in
  let owned := owned_outputs parent (user_address (night_key reg)) in
  Forall (fun o => 0 <= output_value o.2) owned ->
  foldr Z.add 0 ((fun o => output_value o.2) <$> owned) <= u_max 128 ->
  (fees - fees' = Z.min fees (Z.min (allow_fee_payment reg) dust_in)) /\
  (exists es, evs' = Ret <$> es /\ Forall (Z.le 0) (event_initial_value <$> es) /\
     foldr Z.add 0 (event_initial_value <$> es) + (fees - fees') <= dust_in) /\
  (address_delegation (generation st') !! user_address (night_key reg) = dust_address reg) /\
  dust_nullifiers (utxo st') = dust_nullifiers (utxo st).
Proof.
  intros Hr E. destruct (reachable_consistent _ _ _ _ _ _ _ _ _ Hr) as (es & v & HC). cbv zeta. intros Hv Hs.
  destruct (registration_run modulus transient_hash persistent_hash user_address intent_hash st v us fees parent reg p tnow t
    (cons_ok _ _ _ _ _ _ _ _ HC)) as [_ Hrun].
  destruct (Hrun _ _ _ E) as (_ & -> & Hd & Hn & Hsum). split; [lia|]. split; [by apply Hsum|].
  split; [|done]. rewrite Hd. destruct (dust_address reg); cbn; [apply lookup_insert_eq|apply lookup_delete_eq].
Qed.
End theorems.

Lemma dust_state_consistent_witness :
  generating_set (generation (DustExample.spent DustState_default)) = ∅ /\
  forall i, 0 <= i < pow2 DUST_GENERATION_TREE_DEPTH ->
    ~ is_Some (node_index (generating_tree (generation (DustExample.spent DustState_default))) i).
Proof.
  destruct DustExample.spent_reachable as [evs Hr].
  destruct (dust_state_consistent _ _ _ _ _ _ _ _ _ Hr) as (_ & _ & Hi & _). split; [reflexivity|].
  intros i Hb Hx. apply Hi in Hx; [|done]. change (i < 0) in Hx. lia.
Defined.

Lemma dust_no_double_spend_witness :
  let st := DustExample.spent DustState_default in
  apply_spend st DustExample.spend 51 55 = Fail (DustDoubleSpend 1234) /\
  exists st' evs, apply_spend st (mkDustSpend 5 1235 778 tt) 51 55 = Ret (st', evs) /\
    commitments_first_free (utxo st') = 2.
Proof.
  cbv zeta. destruct DustExample.spent_reachable as [evs Hr]. split.
  - destruct (dust_no_double_spend _ _ _ _ _ 55 _ evs [1234] DustExample.spend 51 Hr) as (_ & Hd & _).
    apply Hd. left.
  - destruct (dust_no_double_spend _ _ _ _ _ 55 _ evs [1234] (mkDustSpend 5 1235 778 tt) 51 Hr) as (_ & _ & Hd).
    destruct Hd as (st' & evs' & E & _ & _ & Hf & _).
    + cbn. by intros [= ?]%list_elem_of_singleton.
    + reflexivity.
    + exists st', evs'. split; [exact E|exact Hf].
Defined.

(** Of 500 units, 150 are paid and 350 distributed over two outputs. *)
Lemma dust_registration_conserves_witness :
  exists st' fees' evs, apply_registration DustExample.modulus DustExample.transient DustExample.persistent
      DustExample.address DustExample.intent_hash DustState_default DustExample.us 200 DustExample.intent
      DustExample.reg DustExample.params 50 55 = Ret (st', fees', evs) /\
    fees' = 50 /\ address_delegation (generation st') !! [7] = Some 99 /\
    exists es, evs = Ret <$> es /\ foldr Z.add 0 (event_initial_value <$> es) <= 350.
Proof.
  destruct (apply_registration DustExample.modulus DustExample.transient DustExample.persistent
      DustExample.address DustExample.intent_hash DustState_default DustExample.us 200 DustExample.intent
      DustExample.reg DustExample.params 50 55) as [[[st' fees'] evs]| |] eqn:E.
  2-3: exfalso; vm_compute in E; discriminate.
  exists st', fees', evs. split; [done|].
  destruct (dust_registration_conserves _ _ _ _ _ 55 DustState_default [] [] _ _ _ _ _ _ _ _ _ (dr_default _ _ _ _ _ 55) E)
    as (Hf & (es & He & _ & Hs) & Hd & _).
  - vm_compute. repeat constructor; discriminate.
  - vm_compute. discriminate.
  - assert (Hx : 200 - fees' = 150) by (rewrite Hf; reflexivity). rewrite Hx in Hs.
    split; [lia|]. split; [exact Hd|]. exists es. split; [exact He|].
    change (generationless_fee_availability _ _ _ _ _ _ _) with 500 in Hs. lia.
Defined.
