(* ===== verification/DustWallet.v ===== *)
(** * Dust wallets ([ledger/src/dust.rs])

    [DustLocalState]: what a wallet keeps of the ledger's Dust.  It holds its own
    copies of the two Merkle trees, in which the entries of others are
    collapsed, and the outputs it can spend.  It follows the ledger by replaying
    events, and spends an output by proving its paths in both trees. *)

From S2P Require Import Prelude MerkleTree Storage ZswapMemo Repr Intents Dust DustState.
From stdpp Require Import gmap sorting.

Local Open Scope Z_scope.

Record DustWalletUtxoState := mkWalletUtxo {
  wu_utxo : QualifiedDustOutput;
  pending_until : option Timestamp
}.

Inductive DustSpendError :=
| BackingNightNotFound (utxo : QualifiedDustOutput)
| NotEnoughDust (available required : Z)
| DustUtxoNotTracked (utxo : QualifiedDustOutput)
| MerkleTreeNotRehashed.

Inductive TreeName := DustGenerationTree | DustCommitmentTree.

Inductive DustLocalStateError :=
| LocalNonLinearInsertion (expected_next received : Z) (tree_name : TreeName)
| LocalMerkleTreeError (err : InvalidUpdate)
| GenerationIndexNotFound (generation_index : Z)
| WrongGenerationInfo (generation_index : Z)
| CommitmentIndexNotFound (commitment_index : Z).

Inductive EventReplayError :=
| NonLinearInsertion (expected_next received : Z) (tree_name : TreeName)
| ReplayMerkleTreeError (err : InvalidUpdate)
| EventForPastTime (synced event : Timestamp).

Record DustStateChanges := mkDustStateChanges {
  received_utxos : list QualifiedDustOutput;
  spent_utxos : list QualifiedDustOutput;
  change_source : list Z
}.

Definition can_merge (self other : DustStateChanges) : bool :=
  bool_decide (change_source self = change_source other).
Definition merge_changes (self other : DustStateChanges) : DustStateChanges :=
  mkDustStateChanges (received_utxos self ++ received_utxos other) (spent_utxos self ++ spent_utxos other)
    (change_source self).

(** [add_change]: merged into the last change when that has the same source. *)
Fixpoint add_change (changes : list DustStateChanges) (change : DustStateChanges) : list DustStateChanges :=
  match changes with
  | [] => [change]
  | [last_change] => if can_merge last_change change then [merge_changes last_change change] else [last_change; change]
  | c :: changes' => c :: add_change changes' change
  end.

Definition maybe_add_change (changes : list DustStateChanges) (maybe_change : option DustStateChanges)
  : list DustStateChanges :=
  match maybe_change with Some change => add_change changes change | None => changes end.

(** The content of an event: one of Dust, a change of parameters, or another. *)
Inductive EventContent :=
| EDust (e : DustEvent)
| EParamChange (dust : DustParameters)
| EOther.

Section wallet.
Context (modulus : Z) (transient_hash : list Z -> Z).

Local Abbreviation transient_hash2 := (fun a b => transient_hash [a; b]).
Local Abbreviation degrade := (degrade_to_transient modulus).
Local Abbreviation merkle_hash := (merkle_hash modulus transient_hash).
Local Abbreviation dust_nonce := (dust_nonce modulus transient_hash).
Local Abbreviation ComTree := (@MerkleTreeNode (list Z) Z unit).
Local Abbreviation GenTree := (@MerkleTreeNode (list Z) Z DustGenerationInfo).
Local Abbreviation rehash := (rehash 0 transient_hash2 degrade).
Local Abbreviation collapse := (collapse 0 transient_hash2 degrade).

Record DustLocalState := mkLocalState {
  l_generating_tree : GenTree;
  l_generating_tree_first_free : Z;
  l_commitment_tree : ComTree;
  l_commitment_tree_first_free : Z;
  l_night_indices : gmap (list Z) Z;
  dust_utxos : gmap Z DustWalletUtxoState;
  sync_time : Timestamp;
  l_params : DustParameters
}.

Definition DustLocalState_new (params : DustParameters) : DustLocalState :=
  mkLocalState (blank DUST_GENERATION_TREE_DEPTH) 0 (blank DUST_COMMITMENT_TREE_DEPTH) 0 ∅ ∅ 0 params.

(** Updates of single fields. *)
Definition set_generating_tree (s : DustLocalState) (t : GenTree) (ff : Z) : DustLocalState :=
  mkLocalState t ff (l_commitment_tree s) (l_commitment_tree_first_free s) (l_night_indices s) (dust_utxos s)
    (sync_time s) (l_params s).
Definition set_commitment_tree (s : DustLocalState) (t : ComTree) (ff : Z) : DustLocalState :=
  mkLocalState (l_generating_tree s) (l_generating_tree_first_free s) t ff (l_night_indices s) (dust_utxos s)
    (sync_time s) (l_params s).
Definition set_owned (s : DustLocalState) (ni : gmap (list Z) Z) (us : gmap Z DustWalletUtxoState) : DustLocalState :=
  mkLocalState (l_generating_tree s) (l_generating_tree_first_free s) (l_commitment_tree s)
    (l_commitment_tree_first_free s) ni us (sync_time s) (l_params s).
Definition set_sync_time (s : DustLocalState) (t : Timestamp) : DustLocalState :=
  mkLocalState (l_generating_tree s) (l_generating_tree_first_free s) (l_commitment_tree s)
    (l_commitment_tree_first_free s) (l_night_indices s) (dust_utxos s) t (l_params s).
Definition set_params (s : DustLocalState) (p : DustParameters) : DustLocalState :=
  mkLocalState (l_generating_tree s) (l_generating_tree_first_free s) (l_commitment_tree s)
    (l_commitment_tree_first_free s) (l_night_indices s) (dust_utxos s) (sync_time s) p.

(** ** Queries *)

Definition generation_info (s : DustLocalState) (qdo : QualifiedDustOutput) : option DustGenerationInfo :=
  i ← l_night_indices s !! qdo_backing_night qdo; x ← node_index (l_generating_tree s) i; Some x.2.

Definition is_available (u : DustWalletUtxoState) : option QualifiedDustOutput :=
  match pending_until u with None => Some (wu_utxo u) | Some _ => None end.

Definition local_utxos (s : DustLocalState) : list QualifiedDustOutput :=
  omap (fun e => is_available e.2) (map_to_list (dust_utxos s)).

Definition find_utxo_by_nullifier (s : DustLocalState) (nullifier : Z) : option QualifiedDustOutput :=
  dust_utxos s !! nullifier ≫= is_available.

(** The sum of [u128]s, which wraps. *)
Definition wallet_balance (s : DustLocalState) (time : Timestamp) : Z :=
  wrap 128 (foldr Z.add 0
    (omap (fun utxo => g ← generation_info s utxo; Some (updated_value (DustOutput_from utxo) g time (l_params s)))
       (local_utxos s))).

(** ** Changes *)

Definition add_utxo (s : DustLocalState) (nullifier : Z) (utxo : QualifiedDustOutput) (pending : option Timestamp)
  : DustLocalState :=
  set_owned s (l_night_indices s) (<[nullifier := mkWalletUtxo utxo pending]> (dust_utxos s)).

Definition remove_utxo (s : DustLocalState) (nullifier : Z) : DustLocalState :=
  set_owned s (l_night_indices s) (delete nullifier (dust_utxos s)).

Definition insert_generation_info (s : DustLocalState) (generation_index : Z) (gen_info : DustGenerationInfo)
  (nonce : option (list Z)) : outcome DustLocalStateError DustLocalState :=
  if negb (generation_index =? l_generating_tree_first_free s) then
    Fail (LocalNonLinearInsertion (l_generating_tree_first_free s) generation_index DustGenerationTree)
  else
    tree ← map_fail LocalMerkleTreeError
             (try_update_hash (l_generating_tree s) generation_index (merkle_hash gen_info) gen_info);
    let ff := l_generating_tree_first_free s + 1 in
    '(tree, ni) ← match nonce with
                  | Some n => mret (tree, <[n := generation_index]> (l_night_indices s))
                  | None => tree ← map_fail LocalMerkleTreeError (collapse tree generation_index generation_index);
                            mret (tree, l_night_indices s)
                  end;
    tree ← map_fail LocalMerkleTreeError (rehash tree);
    mret (set_owned (set_generating_tree s tree ff) ni (dust_utxos s)).

Definition remove_generation_info (s : DustLocalState) (generation_index : Z) (gen_info : DustGenerationInfo)
  : outcome DustLocalStateError DustLocalState :=
  match node_index (l_generating_tree s) generation_index with
  | None => Fail (GenerationIndexNotFound generation_index)
  | Some (_, actual) =>
      if bool_decide (gen_info = actual) then
        tree ← map_fail LocalMerkleTreeError (collapse (l_generating_tree s) generation_index generation_index);
        tree ← map_fail LocalMerkleTreeError (rehash tree);
        mret (set_generating_tree s tree (l_generating_tree_first_free s))
      else Fail (WrongGenerationInfo generation_index)
  end.

Definition collapse_generation_tree (s : DustLocalState) (start end_ : Z) : outcome DustLocalStateError DustLocalState :=
  tree ← map_fail LocalMerkleTreeError (collapse (l_generating_tree s) start end_);
  tree ← map_fail LocalMerkleTreeError (rehash tree);
  mret (set_generating_tree s tree (l_generating_tree_first_free s)).

Definition apply_generation_collapsed_update (s : DustLocalState) (update : @MerkleTreeCollapsedUpdate Z)
  : outcome InvalidUpdate DustLocalState :=
  tree ← apply_collapsed_update (l_generating_tree s) update;
  tree ← rehash tree;
  mret (set_generating_tree s tree (Z.max (l_generating_tree_first_free s) (upd_end update + 1))).

Definition insert_commitment (s : DustLocalState) (commitment_index : Z) (qdo : QualifiedDustOutput) (own_qdo : bool)
  : outcome DustLocalStateError DustLocalState :=
  if negb (commitment_index =? l_commitment_tree_first_free s) then
    Fail (LocalNonLinearInsertion (l_commitment_tree_first_free s) commitment_index DustCommitmentTree)
  else
    tree ← map_fail LocalMerkleTreeError
             (try_update_hash (l_commitment_tree s) commitment_index
                (upgrade_from_transient (qdo_commitment transient_hash qdo)) tt);
    tree ← (if negb own_qdo then map_fail LocalMerkleTreeError (collapse tree commitment_index commitment_index)
            else mret tree);
    tree ← map_fail LocalMerkleTreeError (rehash tree);
    mret (set_commitment_tree s tree (l_commitment_tree_first_free s + 1)).

Definition remove_commitment (s : DustLocalState) (commitment_index : Z) : outcome DustLocalStateError DustLocalState :=
  match node_index (l_commitment_tree s) commitment_index with
  | None => Fail (CommitmentIndexNotFound commitment_index)
  | Some _ =>
      tree ← map_fail LocalMerkleTreeError (collapse (l_commitment_tree s) commitment_index commitment_index);
      tree ← map_fail LocalMerkleTreeError (rehash tree);
      mret (set_commitment_tree s tree (l_commitment_tree_first_free s))
  end.

Definition collapse_commitment_tree (s : DustLocalState) (start end_ : Z) : outcome DustLocalStateError DustLocalState :=
  tree ← map_fail LocalMerkleTreeError (collapse (l_commitment_tree s) start end_);
  tree ← map_fail LocalMerkleTreeError (rehash tree);
  mret (set_commitment_tree s tree (l_commitment_tree_first_free s)).

Definition apply_commitment_collapsed_update (s : DustLocalState) (update : @MerkleTreeCollapsedUpdate Z)
  : outcome InvalidUpdate DustLocalState :=
  tree ← apply_collapsed_update (l_commitment_tree s) update;
  tree ← rehash tree;
  mret (set_commitment_tree s tree (Z.max (l_commitment_tree_first_free s) (upd_end update + 1))).
(** ** Spending *)

Section spend.
Context {Proof : Type}.
(** The proof preimage for an output, its generation entry, the two paths, the
    secret key and the new value; the proof system's business. *)
Context (make_proof : QualifiedDustOutput -> DustGenerationInfo -> @MerklePath Z (list Z) -> @MerklePath Z (list Z) ->
                      Z -> Z -> Proof).

Definition spend (s : DustLocalState) (sk : Z) (utxo : QualifiedDustOutput) (fee : Z) (ctime : Timestamp)
  : outcome DustSpendError (DustLocalState * @DustSpend Proof) :=
  let old_nul := qdo_nullifier transient_hash utxo sk in
  match l_night_indices s !! qdo_backing_night utxo with
  | None => Fail (BackingNightNotFound utxo)
  | Some gen_idx =>
      match node_index (l_generating_tree s) gen_idx with
      | None => Fail (BackingNightNotFound utxo)
      | Some (_, gen_info) =>
          gen_path ← map_fail (fun _ => BackingNightNotFound utxo)
            (path_for_leaf 0 degrade (l_generating_tree s) gen_idx (merkle_hash gen_info));
          com_path ← map_fail (fun _ => DustUtxoNotTracked utxo)
            (path_for_leaf 0 degrade (l_commitment_tree s) (qdo_mt_index utxo)
               (upgrade_from_transient (qdo_commitment transient_hash utxo)));
          let v_new := updated_value (DustOutput_from utxo) gen_info ctime (l_params s) in
          if v_new <? fee then Fail (NotEnoughDust v_new fee)
          else
            let seq := wrap 32 (qdo_seq utxo + 1) in
            let new_output := mkDustOutput (v_new - fee) (qdo_owner utxo)
                                (dust_nonce (qdo_backing_night utxo) seq sk) seq ctime in
            match dust_utxos s !! old_nul with
            | None => Fail (DustUtxoNotTracked utxo)
            | Some entry =>
                let entry := mkWalletUtxo (wu_utxo entry)
                               (Some (Timestamp_add_duration ctime (dust_grace_period (l_params s)))) in
                match node_root 0 degrade (l_commitment_tree s), node_root 0 degrade (l_generating_tree s) with
                | Some _, Some _ =>
                    mret (set_owned s (l_night_indices s) (<[old_nul := entry]> (dust_utxos s)),
                          mkDustSpend fee old_nul (do_commitment transient_hash new_output)
                            (make_proof utxo gen_info com_path gen_path sk (v_new - fee)))
                | _, _ => Fail MerkleTreeNotRehashed
                end
            end
      end
  end.
End spend.

(** ** Time *)

(** What [process_ttls] makes of an output: its new state with the index of its
    backing Night, unless it is dropped. *)
Definition process_ttl (s : DustLocalState) (time : Timestamp) (u : DustWalletUtxoState)
  : option (DustWalletUtxoState * Z) :=
  gen_idx ← l_night_indices s !! qdo_backing_night (wu_utxo u);
  x ← node_index (l_generating_tree s) gen_idx;
  let v_new := updated_value (DustOutput_from (wu_utxo u)) x.2 time (l_params s) in
  let u' := match pending_until u with
            | Some ptime => if ptime <=? time then mkWalletUtxo (wu_utxo u) None else u
            | None => u
            end in
  if (v_new =? 0) && (qdo_ctime (wu_utxo u) <? time) then None else Some (u', gen_idx).

Definition process_ttls (s : DustLocalState) (time : Timestamp) : DustLocalState :=
  let kept := omap (fun u => process_ttl s time u) (dust_utxos s) in
  set_owned s
    (list_to_map ((fun '(_, (u, gen_idx)) => (qdo_backing_night (wu_utxo u), gen_idx)) <$> map_to_list kept))
    (fst <$> kept).

(** ** Replaying events *)

Definition successor_utxo (utxo : QualifiedDustOutput) (now : Timestamp) (subtract_fee new_commitment_index : Z)
  (gen_info : DustGenerationInfo) (sk : Z) (params : DustParameters) : QualifiedDustOutput :=
  let v_now := sat_sub (updated_value (DustOutput_from utxo) gen_info now params) subtract_fee in
  let seq := wrap 32 (qdo_seq utxo + 1) in
  mkQualifiedDustOutput v_now (qdo_owner utxo) (dust_nonce (qdo_backing_night utxo) seq sk) seq now
    (qdo_backing_night utxo) new_commitment_index.

(** The end of every Dust event: the time must not go back. *)
Definition advance_time (s : DustLocalState) (block_time : Timestamp) : outcome EventReplayError DustLocalState :=
  if block_time <? sync_time s then Fail (EventForPastTime (sync_time s) block_time)
  else mret (set_sync_time s block_time).

(** An entry appended to a tree at the index the event names. *)
Definition append_gen (s : DustLocalState) (idx : Z) (g : DustGenerationInfo) : outcome EventReplayError DustLocalState :=
  if negb (idx =? l_generating_tree_first_free s) then
    Fail (NonLinearInsertion (l_generating_tree_first_free s) idx DustGenerationTree)
  else
    tree ← map_fail ReplayMerkleTreeError (try_update_hash (l_generating_tree s) idx (merkle_hash g) g);
    mret (set_generating_tree s tree (l_generating_tree_first_free s + 1)).
Definition append_com (s : DustLocalState) (idx com : Z) : outcome EventReplayError DustLocalState :=
  if negb (idx =? l_commitment_tree_first_free s) then
    Fail (NonLinearInsertion (l_commitment_tree_first_free s) idx DustCommitmentTree)
  else
    tree ← map_fail ReplayMerkleTreeError
             (try_update_hash (l_commitment_tree s) idx (upgrade_from_transient com) tt);
    mret (set_commitment_tree s tree (l_commitment_tree_first_free s + 1)).
Definition collapse_com (s : DustLocalState) (idx : Z) : outcome EventReplayError DustLocalState :=
  tree ← map_fail ReplayMerkleTreeError (collapse (l_commitment_tree s) idx idx);
  mret (set_commitment_tree s tree (l_commitment_tree_first_free s)).

(** The accumulator: the state, the changes, and the generation entries to
    collapse in the end. *)
Definition ReplayAcc : Type := DustLocalState * list DustStateChanges * list Z.

Definition replay_dust (sk : Z) (s : DustLocalState) (source : list Z) (e : DustEvent)
  : outcome EventReplayError (DustLocalState * option DustStateChanges * list Z) :=
  match e with
  | DustInitialUtxo output gen generation_index block_time =>
      s ← append_gen s generation_index gen;
      s ← append_com s (qdo_mt_index output) (qdo_commitment transient_hash output);
      '(s, change, collapses) ←
        (if DustPublicKey_from transient_hash sk =? qdo_owner output then
           mret (set_owned s (<[qdo_backing_night output := generation_index]> (l_night_indices s))
                   (<[qdo_nullifier transient_hash output sk := mkWalletUtxo output None]> (dust_utxos s)),
                 Some (mkDustStateChanges [output] [] source), [])
         else
           s ← collapse_com s (qdo_mt_index output);
           mret (s, None, [generation_index]));
      s ← advance_time s block_time;
      mret (s, change, collapses)
  | DustSpendProcessed commitment commitment_index nullifier fee declared_time block_time =>
      s ← append_com s commitment_index commitment;
      '(s, change) ←
        match dust_utxos s !! nullifier with
        | Some u =>
            match generation_info s (wu_utxo u) with
            | Some gen_info =>
                let qdo_new := successor_utxo (wu_utxo u) declared_time fee commitment_index gen_info sk (l_params s) in
                mret (set_owned s (l_night_indices s)
                        (<[qdo_nullifier transient_hash qdo_new sk := mkWalletUtxo qdo_new None]>
                           (delete nullifier (dust_utxos s))),
                      Some (mkDustStateChanges [qdo_new] [wu_utxo u] source))
            | None => mret (s, None)
            end
        | None => s ← collapse_com s commitment_index; mret (s, None)
        end;
      s ← advance_time s block_time;
      mret (s, change, [])
  | DustGenerationDtimeUpdate update block_time =>
      tree ← map_fail ReplayMerkleTreeError (of_result (update_from_evidence degrade (l_generating_tree s) update));
      s ← advance_time (set_generating_tree s tree (l_generating_tree_first_free s)) block_time;
      mret (s, None, [])
  end.

Definition replay_event (sk : Z) (acc : ReplayAcc) (event : list Z * EventContent) : outcome EventReplayError ReplayAcc :=
  let '(s, changes, gen_collapses) := acc in
  match event.2 with
  | EDust e =>
      '(s, change, collapses) ← replay_dust sk s event.1 e;
      mret (s, maybe_add_change changes change, gen_collapses ++ collapses)
  | EParamChange dust => mret (set_params s dust, changes, gen_collapses)
  | EOther => mret acc
  end.

Definition replay_events_with_changes (s : DustLocalState) (sk : Z) (events : list (list Z * EventContent))
  : outcome EventReplayError (DustLocalState * list DustStateChanges) :=
  '(s, changes, gen_collapses) ← try_fold_o (replay_event sk) (s, [], []) events;
  tree ← map_fail ReplayMerkleTreeError
           (try_fold_o (fun t c => collapse t c c) (l_generating_tree s) gen_collapses);
  com ← map_fail ReplayMerkleTreeError (rehash (l_commitment_tree s));
  tree ← map_fail ReplayMerkleTreeError (rehash tree);
  mret (set_generating_tree (set_commitment_tree s com (l_commitment_tree_first_free s)) tree
          (l_generating_tree_first_free s), changes).

Definition replay_events (s : DustLocalState) (sk : Z) (events : list (list Z * EventContent))
  : outcome EventReplayError DustLocalState :=
  '(s, _) ← replay_events_with_changes s sk events; mret s.
End wallet.

(** ** Following the ledger *)

Section follow.
Context (modulus : Z) (transient_hash : list Z -> Z).

Local Abbreviation H := 32%nat.
Local Abbreviation transient_hash2 := (fun a b => transient_hash [a; b]).
Local Abbreviation degrade := (degrade_to_transient modulus).
Local Abbreviation merkle_hash := (merkle_hash modulus transient_hash).
Local Abbreviation TreeLog := (TreeLog transient_hash2 degrade).
Local Abbreviation event_step := (event_step modulus transient_hash).
Local Abbreviation event_steps := (event_steps modulus transient_hash).
Local Abbreviation replay := (replay_dust modulus transient_hash).
Local Abbreviation replay1 := (replay_event modulus transient_hash).

(** A wallet's trees are the logs, with entries of others collapsed; the entries
    of [collapses] still have to be.  The outputs it tracks and the generation
    entries that back them are not collapsed. *)
Record Wallet_ok (s : DustLocalState) (v : View) (collapses : list Z) : Prop := {
  w_com : TreeLog (l_commitment_tree s) (v_com v) (v_com_ff v);
  w_com_ff : l_commitment_tree_first_free s = v_com_ff v;
  w_gen : TreeLog (l_generating_tree s) (v_gen v) (v_gen_ff v);
  w_gen_ff : l_generating_tree_first_free s = v_gen_ff v;
  w_night n i : l_night_indices s !! n = Some i ->
    0 <= i < v_gen_ff v /\ visible (l_generating_tree s) i = true /\ i ∉ collapses;
  w_utxo nul u : dust_utxos s !! nul = Some u ->
    0 <= qdo_mt_index (wu_utxo u) < v_com_ff v /\ visible (l_commitment_tree s) (qdo_mt_index (wu_utxo u)) = true /\
    is_Some (l_night_indices s !! qdo_backing_night (wu_utxo u));
  w_collapses : Forall (fun i => 0 <= i < v_gen_ff v) collapses
}.

Lemma Wallet_new p : Wallet_ok (DustLocalState_new p) View_empty [].
Proof.
  destruct (TreeLog_blank (A := unit) transient_hash2 degrade) as [Hc _].
  destruct (TreeLog_blank (A := DustGenerationInfo) transient_hash2 degrade) as [Hg _].
  split; cbn; try done.
Qed.

(** *** Single steps *)

Lemma append_gen_ok s v cs g :
  Wallet_ok s v cs -> v_gen_ff v < pow2 H ->
  exists s', append_gen modulus transient_hash s (v_gen_ff v) g = Ret s' /\
    Wallet_ok s' (add_gen modulus transient_hash v g) cs /\ visible (l_generating_tree s') (v_gen_ff v) = true /\
    l_night_indices s' = l_night_indices s /\ dust_utxos s' = dust_utxos s /\
    sync_time s' = sync_time s /\ l_params s' = l_params s.
Proof.
  intros [Hc Hcf Hg Hgf Hn Hu Hk] Hlt. unfold append_gen. rewrite Hgf, Z.eqb_refl. cbn [negb].
  destruct (TreeLog_append _ _ _ _ _ (merkle_hash g) g Hg Hlt) as (t & -> & HL & HV). cbn [map_fail mbind outcome_bind mret outcome_ret].
  pose proof (log_bound _ _ _ _ _ Hg) as Hb. pose proof (log_open _ _ _ _ _ Hg (v_gen_ff v) ltac:(lia)) as Ho.
  eexists. split; [done|]. split_and!; [|cbn; rewrite HV; [done|lia]|done..].
  split; cbn [l_commitment_tree l_commitment_tree_first_free l_generating_tree l_generating_tree_first_free
    l_night_indices dust_utxos set_generating_tree add_gen v_com v_com_ff v_gen v_gen_ff]; try done.
  - intros n i Hi. destruct (Hn n i Hi) as (Hr & Hv & Hnc). split_and!; [lia|lia| |done]. rewrite HV by lia. done.
  - eapply Forall_impl; [exact Hk|]. cbn. lia.
Qed.

Lemma append_com_ok s v cs com :
  Wallet_ok s v cs -> v_com_ff v < pow2 H ->
  exists s', append_com s (v_com_ff v) com = Ret s' /\ Wallet_ok s' (add_com v com) cs /\
    visible (l_commitment_tree s') (v_com_ff v) = true /\ l_night_indices s' = l_night_indices s /\
    dust_utxos s' = dust_utxos s /\ l_generating_tree s' = l_generating_tree s /\
    sync_time s' = sync_time s /\ l_params s' = l_params s.
Proof.
  intros [Hc Hcf Hg Hgf Hn Hu Hk] Hlt. unfold append_com. rewrite Hcf, Z.eqb_refl. cbn [negb].
  destruct (TreeLog_append _ _ _ _ _ (upgrade_from_transient com) tt Hc Hlt) as (t & -> & HL & HV).
  cbn [map_fail mbind outcome_bind mret outcome_ret].
  pose proof (log_bound _ _ _ _ _ Hc) as Hb. pose proof (log_open _ _ _ _ _ Hc (v_com_ff v) ltac:(lia)) as Ho.
  eexists. split; [done|]. split_and!; [|cbn; rewrite HV; [done|lia]|done..].
  split; cbn [l_commitment_tree l_commitment_tree_first_free l_generating_tree l_generating_tree_first_free
    l_night_indices dust_utxos set_commitment_tree add_com v_com v_com_ff v_gen v_gen_ff]; try done.
  intros nul u Hin. destruct (Hu nul u Hin) as (Hr & Hv & Hi). split_and!; [lia|lia| |done]. rewrite HV by lia. done.
Qed.

(** Collapsing the commitment that was just added, which is not tracked. *)
Lemma collapse_com_ok s v cs idx :
  Wallet_ok s v cs -> 0 <= idx < v_com_ff v ->
  (forall nul u, dust_utxos s !! nul = Some u -> qdo_mt_index (wu_utxo u) <> idx) ->
  exists s', collapse_com modulus transient_hash s idx = Ret s' /\ Wallet_ok s' v cs /\
    l_night_indices s' = l_night_indices s /\ sync_time s' = sync_time s /\ l_params s' = l_params s.
Proof.
  intros [Hc Hcf Hg Hgf Hn Hu Hk] Hi Hne. unfold collapse_com.
  destruct (TreeLog_collapse _ _ _ _ _ idx Hc Hi) as (t & -> & HL & HV). cbn [map_fail mbind outcome_bind mret outcome_ret].
  eexists. split; [done|]. split_and!; [|done..].
  pose proof (log_bound _ _ _ _ _ Hc) as Hb.
  split; cbn [l_commitment_tree l_commitment_tree_first_free l_generating_tree l_generating_tree_first_free
    l_night_indices dust_utxos set_commitment_tree]; try done.
  intros nul u Hin. destruct (Hu nul u Hin) as (Hr & Hv & Hb'). split_and!; [lia|lia| |done].
  rewrite HV, Hv by lia. specialize (Hne nul u Hin). lia.
Qed.

Lemma advance_time_ok s v cs t :
  Wallet_ok s v cs -> sync_time s <= t ->
  exists s', advance_time s t = Ret s' /\ Wallet_ok s' v cs /\ sync_time s' = t /\ l_params s' = l_params s.
Proof.
  intros Hw Ht. unfold advance_time. destruct (Z.ltb_spec t (sync_time s)); [lia|].
  eexists. split; [done|]. split_and!; [|done|done]. destruct Hw. by split.
Qed.

(** More entries to collapse, as long as they back nothing. *)
Lemma Wallet_collapses s v cs idx :
  Wallet_ok s v cs -> 0 <= idx < v_gen_ff v -> (forall n, l_night_indices s !! n <> Some idx) -> Wallet_ok s v (cs ++ [idx]).
Proof.
  intros [Hc Hcf Hg Hgf Hn Hu Hk] Hi Hne. split; try done.
  - intros n i E. destruct (Hn n i E) as (Hr & Hv & Hnc). split_and!; [lia|lia|done|].
    rewrite elem_of_app, list_elem_of_singleton. intros [?| ->]; [done|]. by apply (Hne n).
  - apply Forall_app. split; [done|]. by constructor.
Qed.

(** A tracked output is added. *)
Lemma Wallet_track s v cs us nul u ni :
  Wallet_ok s v cs ->
  (forall n i, ni !! n = Some i -> l_night_indices s !! n = Some i \/
     0 <= i < v_gen_ff v /\ visible (l_generating_tree s) i = true /\ i ∉ cs) ->
  (forall n, is_Some (l_night_indices s !! n) -> is_Some (ni !! n)) ->
  (forall m x, us !! m = Some x -> dust_utxos s !! m = Some x) ->
  0 <= qdo_mt_index (wu_utxo u) < v_com_ff v -> visible (l_commitment_tree s) (qdo_mt_index (wu_utxo u)) = true ->
  is_Some (ni !! qdo_backing_night (wu_utxo u)) ->
  Wallet_ok (set_owned s ni (<[nul := u]> us)) v cs.
Proof.
  intros [Hc Hcf Hg Hgf Hn Hu Hk] Hni Hsub Hus Hi Hv Hb.
  split; cbn [l_commitment_tree l_commitment_tree_first_free l_generating_tree l_generating_tree_first_free
    l_night_indices dust_utxos set_owned]; try done.
  - intros n i [E|E]%Hni; [by apply (Hn n)|done].
  - intros m x. destruct (decide (m = nul)) as [->|Hne].
    + rewrite lookup_insert_eq. by intros [= <-].
    + rewrite lookup_insert_ne by done. intros (Hr & Hvx & Hbx)%Hus%Hu. split_and!; [lia|lia|done|by apply Hsub].
Qed.

(** *** Replaying *)

Lemma replay_initial sk s v cs src out g t :
  Wallet_ok s v cs -> qdo_mt_index out = v_com_ff v -> v_com_ff v < pow2 H -> v_gen_ff v < pow2 H -> sync_time s <= t ->
  exists s' change cs', replay sk s src (DustInitialUtxo out g (v_gen_ff v) t) = Ret (s', change, cs') /\
    Wallet_ok s' (add_gen modulus transient_hash (add_com v (qdo_commitment transient_hash out)) g) (cs ++ cs') /\
    sync_time s' = t /\ l_params s' = l_params s.
Proof.
  intros Hw Hm Hlt Hlt' Ht. cbn [replay_dust].
  destruct (append_gen_ok s v cs g Hw Hlt') as (s1 & -> & Hw1 & Hv1 & Hn1 & Hu1 & Ht1 & Hp1). cbn [mbind outcome_bind].
  destruct (append_com_ok s1 _ cs (qdo_commitment transient_hash out) Hw1 Hlt) as (s2 & E2 & Hw2 & Hv2 & Hn2 & Hu2 & Hg2 & Ht2 & Hp2).
  cbn [add_gen v_com_ff] in E2, Hv2. rewrite Hm, E2. cbn [mbind outcome_bind].
  pose proof (log_bound _ _ _ _ _ (w_com _ _ _ Hw)) as Bc. pose proof (log_bound _ _ _ _ _ (w_gen _ _ _ Hw)) as Bg.
  assert (Hfresh : forall n i, l_night_indices s2 !! n = Some i -> i < v_gen_ff v).
  { intros n i. rewrite Hn2, Hn1. intros (? & _)%(w_night _ _ _ Hw). lia. }
  assert (Hcs : v_gen_ff v ∉ cs).
  { intros Hin. pose proof (w_collapses _ _ _ Hw) as Hk. rewrite Forall_forall in Hk. specialize (Hk _ Hin). lia. }
  destruct (_ =? _).
  - cbn [mbind outcome_bind mret outcome_ret].
    assert (Hw3 : Wallet_ok (set_owned s2 (<[qdo_backing_night out := v_gen_ff v]> (l_night_indices s2))
      (<[qdo_nullifier transient_hash out sk := mkWalletUtxo out None]> (dust_utxos s2)))
      (add_gen modulus transient_hash (add_com v (qdo_commitment transient_hash out)) g) cs).
    { apply Wallet_track; [exact Hw2| | |done|cbn; lia|cbn; by rewrite Hm|cbn; rewrite lookup_insert_eq; eauto].
      - intros n i. destruct (decide (n = qdo_backing_night out)) as [->|Hne].
        + rewrite lookup_insert_eq. intros [= <-]. right. cbn. rewrite Hg2. split_and!; [lia|lia|done|done].
        + rewrite lookup_insert_ne by done. by left.
      - intros n Hn. destruct (decide (n = qdo_backing_night out)) as [->|Hne]; [rewrite lookup_insert_eq; eauto|].
        by rewrite lookup_insert_ne. }
    destruct (advance_time_ok _ _ _ t Hw3) as (s4 & -> & Hw4 & Ht4 & Hp4); [cbn; lia|]. cbn [mbind outcome_bind mret outcome_ret].
    eexists _, _, _. split; [done|]. rewrite app_nil_r. split_and!; [done|done|]. rewrite Hp4. cbn. congruence.
  - destruct (collapse_com_ok s2 _ cs (v_com_ff v) Hw2) as (s3 & -> & Hw3 & Hn3 & Ht3 & Hp3).
    { cbn. lia. }
    { intros nul u. rewrite Hu2, Hu1. intros (? & _)%(w_utxo _ _ _ Hw). lia. }
    cbn [mbind outcome_bind mret outcome_ret].
    apply (Wallet_collapses _ _ _ (v_gen_ff v)) in Hw3; [|cbn; lia|intros n; rewrite Hn3; intros Hx%Hfresh; lia].
    destruct (advance_time_ok _ _ _ t Hw3) as (s4 & -> & Hw4 & Ht4 & Hp4); [lia|]. cbn [mbind outcome_bind mret outcome_ret].
    eexists _, _, _. split; [done|]. split_and!; [done|done|congruence].
Qed.

Lemma replay_spend sk s v cs src com nul fee time t :
  Wallet_ok s v cs -> v_com_ff v < pow2 H -> sync_time s <= t ->
  exists s' change cs', replay sk s src (DustSpendProcessed com (v_com_ff v) nul fee time t) = Ret (s', change, cs') /\
    Wallet_ok s' (add_com v com) (cs ++ cs') /\ sync_time s' = t /\ l_params s' = l_params s.
Proof.
  intros Hw Hlt Ht. cbn [replay_dust].
  destruct (append_com_ok s v cs com Hw Hlt) as (s1 & -> & Hw1 & Hv1 & Hn1 & Hu1 & Hg1 & Ht1 & Hp1). cbn [mbind outcome_bind].
  pose proof (log_bound _ _ _ _ _ (w_com _ _ _ Hw)) as Bc.
  assert (Hstep : exists s2 change, (match dust_utxos s1 !! nul with
        | Some u =>
            match generation_info s1 (wu_utxo u) with
            | Some gen_info =>
                let qdo_new := successor_utxo modulus transient_hash (wu_utxo u) time fee (v_com_ff v) gen_info sk (l_params s1) in
                mret (set_owned s1 (l_night_indices s1)
                        (<[qdo_nullifier transient_hash qdo_new sk := mkWalletUtxo qdo_new None]> (delete nul (dust_utxos s1))),
                      Some (mkDustStateChanges [qdo_new] [wu_utxo u] src))
            | None => mret (s1, None)
            end
        | None => s ← collapse_com modulus transient_hash s1 (v_com_ff v); mret (s, None)
        end : outcome EventReplayError _) = Ret (s2, change) /\
      Wallet_ok s2 (add_com v com) cs /\ sync_time s2 = sync_time s /\ l_params s2 = l_params s).
  { destruct (dust_utxos s1 !! nul) as [u|] eqn:Eu.
    - destruct (generation_info s1 (wu_utxo u)) as [gi|]; [|by exists s1, None]. eexists _, _. split; [done|].
      split_and!; [|cbn; done|cbn; done]. apply Wallet_track; [exact Hw1|by left|done| |cbn; lia|done|].
      + intros m x [_ Hx]%lookup_delete_Some. done.
      + cbn. rewrite Hu1 in Eu. rewrite Hn1. by apply (w_utxo _ _ _ Hw nul u).
    - destruct (collapse_com_ok s1 _ cs (v_com_ff v) Hw1) as (s3 & -> & Hw3 & Hn3 & Ht3 & Hp3).
      { cbn. lia. }
      { intros m u. rewrite Hu1. intros (? & _)%(w_utxo _ _ _ Hw). lia. }
      cbn [mbind outcome_bind mret outcome_ret]. eexists _, _. split; [done|]. split_and!; [done|congruence|congruence]. }
  destruct Hstep as (s2 & change & E2 & Hw2 & Ht2 & Hp2).
  cbn [mbind outcome_bind mret outcome_ret] in E2 |- *. rewrite E2. cbn [mbind outcome_bind].
  destruct (advance_time_ok _ _ _ t Hw2) as (s4 & -> & Hw4 & Ht4 & Hp4); [lia|]. cbn [mbind outcome_bind mret outcome_ret].
  eexists _, _, _. split; [done|]. rewrite app_nil_r. split_and!; [done|done|congruence].
Qed.

Lemma replay_dtime sk s v cs src i h g time t es :
  Wallet_ok s v cs -> 0 <= i < v_gen_ff v -> v_gen v i = Some (h, g) ->
  let g' := with_dtime g time in
  let v' := set_gen modulus transient_hash v i g' in
  Evidence 0 transient_hash2 degrade H (v_gen v') i es -> sync_time s <= t ->
  exists s' change cs',
    replay sk s src (DustGenerationDtimeUpdate (mkInsPath (merkle_hash g', g') (reverse es)) t) = Ret (s', change, cs') /\
    Wallet_ok s' v' (cs ++ cs') /\ sync_time s' = t /\ l_params s' = l_params s.
Proof.
  intros Hw Hi Hc. cbv zeta. intros HE Ht. cbn [replay_dust]. unfold update_from_evidence. cbn [ins_leaf ins_path].
  pose proof Hw as [HLc Hcf HLg Hgf Hn Hu Hk]. pose proof (log_bound _ _ _ _ _ HLg) as Bg.
  destruct (update_from_evidence_spec 0 transient_hash2 degrade H
    (v_gen (set_gen modulus transient_hash v i (with_dtime g time))) (v_gen v) (l_generating_tree s) i
    (merkle_hash (with_dtime g time), with_dtime g time) es) as (tree & E & HR & HV).
  { apply (log_rep _ _ _ _ _ HLg). }
  { lia. }
  { by intros j Hj. }
  { exact HE. }
  { eapply no_stub_to_entry; [apply (log_rep _ _ _ _ _ HLg)|lia|exact Hc]. }
  rewrite E. cbn [map_fail of_result mbind outcome_bind].
  assert (Hw1 : Wallet_ok (set_generating_tree s tree (l_generating_tree_first_free s))
    (set_gen modulus transient_hash v i (with_dtime g time)) cs).
  { split; cbn [l_commitment_tree l_commitment_tree_first_free l_generating_tree l_generating_tree_first_free
      l_night_indices dust_utxos set_generating_tree set_gen v_com v_com_ff v_gen_ff]; try done.
    - split; [exact HR|lia| |].
      + intros j Hj. cbn. unfold cupd. destruct (Z.eqb_spec j i) as [->|]; [split; [lia|eauto]|]. by apply (log_filled _ _ _ _ _ HLg).
      + intros j Hj. rewrite HV. by apply (log_open _ _ _ _ _ HLg).
    - intros n j Hj. rewrite HV. by apply (Hn n). }
  destruct (advance_time_ok _ _ _ t Hw1) as (s4 & -> & Hw4 & Ht4 & Hp4); [cbn; lia|]. cbn [mbind outcome_bind mret outcome_ret].
  eexists _, _, _. split; [done|]. rewrite app_nil_r. done.
Qed.

Lemma replay_dust_follows sk s v cs src e v' :
  Wallet_ok s v cs -> event_step v e v' -> sync_time s <= event_block_time e ->
  exists s' change cs', replay sk s src e = Ret (s', change, cs') /\ Wallet_ok s' v' (cs ++ cs') /\
    sync_time s' = event_block_time e /\ l_params s' = l_params s.
Proof.
  intros Hw Hs. destruct Hs; cbn [event_block_time]; intros Ht.
  - by apply replay_initial.
  - by apply replay_spend.
  - by eapply replay_dtime.
Qed.

(** The Dust events among events. *)
Definition dust_events (events : list (list Z * EventContent)) : list DustEvent :=
  omap (fun e => match e.2 with EDust d => Some d | _ => None end) events.

Lemma replay_loop sk events : forall s changes v cs v' rest,
  Wallet_ok s v cs -> event_steps v (dust_events events) v' ->
  StronglySorted Z.le (sync_time s :: (event_block_time <$> dust_events events) ++ rest) ->
  exists s' changes' cs', try_fold_o (replay1 sk) (s, changes, cs) events = Ret (s', changes', cs') /\
    Wallet_ok s' v' cs' /\ StronglySorted Z.le (sync_time s' :: rest).
Proof.
  induction events as [|[src e] events IH]; intros s changes v cs v' rest Hw Hs Hsort.
  - cbn in Hs. inversion Hs; subst. cbn [try_fold_o]. by eexists _, _, _.
  - cbn [try_fold_o]. destruct e as [d|p|].
    + cbn [dust_events omap list_omap snd] in Hs, Hsort. inversion Hs as [|? ? v1 ? ? Hd Hs']; subst.
      rewrite fmap_cons in Hsort. cbn [app] in Hsort. apply StronglySorted_cons in Hsort as [Hle Hsort].
      apply Forall_cons in Hle as [Hle _].
      cbn [replay_event fst snd]. destruct (replay_dust_follows sk s v cs src d v1 Hw Hd Hle) as (s1 & ch & cs1 & -> & Hw1 & Ht1 & _).
      cbn [mbind outcome_bind mret outcome_ret]. eapply IH; [exact Hw1|exact Hs'|]. by rewrite Ht1.
    + cbn [replay_event fst snd mbind outcome_bind mret outcome_ret]. eapply IH; [|exact Hs|exact Hsort]. destruct Hw. by split.
    + cbn [replay_event fst snd mbind outcome_bind mret outcome_ret]. by eapply IH.
Qed.

(** The collapses at the end. *)
Lemma collapse_loop c ff cs : forall (t : @MerkleTreeNode (list Z) Z DustGenerationInfo),
  TreeLog t c ff -> Forall (fun i => 0 <= i < ff) cs ->
  exists t', try_fold_o (fun t i => collapse 0 transient_hash2 degrade t i i) t cs = Ret t' /\ TreeLog t' c ff /\
    forall j, 0 <= j < pow2 H -> j ∉ cs -> visible t' j = visible t j.
Proof.
  induction cs as [|i cs IH]; intros t HL Hcs; cbn [try_fold_o]; [by exists t|].
  apply Forall_cons in Hcs as [Hi Hcs]. destruct (TreeLog_collapse _ _ _ _ _ i HL Hi) as (t1 & -> & HL1 & HV1).
  cbn [mbind outcome_bind]. destruct (IH t1 HL1 Hcs) as (t2 & E2 & HL2 & HV2). exists t2. split_and!; [done|done|].
  intros j Hj Hn. apply not_elem_of_cons in Hn as [Hn Hn']. rewrite HV2, HV1 by done.
  destruct (Z.eqb_spec j i); [done|]. by rewrite andb_true_r.
Qed.

Lemma replay_follows sk s v v' events rest :
  Wallet_ok s v [] -> event_steps v (dust_events events) v' ->
  StronglySorted Z.le (sync_time s :: (event_block_time <$> dust_events events) ++ rest) ->
  exists s' changes, replay_events_with_changes modulus transient_hash s sk events = Ret (s', changes) /\ Wallet_ok s' v' [] /\
    StronglySorted Z.le (sync_time s' :: rest) /\
    node_root 0 degrade (l_commitment_tree s') = Some (mroot 0 transient_hash2 degrade H (v_com v')) /\
    node_root 0 degrade (l_generating_tree s') = Some (mroot 0 transient_hash2 degrade H (v_gen v')).
Proof.
  intros Hw Hs Hsort. unfold replay_events_with_changes.
  destruct (replay_loop sk events s [] v [] v' rest Hw Hs Hsort) as (s1 & ch & cs & -> & [Hc Hcf Hg Hgf Hn Hu Hk] & Hsort').
  cbn [mbind outcome_bind]. destruct (collapse_loop _ _ cs _ Hg Hk) as (t & -> & HL & HV).
  cbn [map_fail mbind outcome_bind].
  destruct (TreeLog_rehash _ _ _ _ _ Hc) as (t1 & -> & HL1 & Hr1 & HV1). cbn [map_fail mbind outcome_bind].
  destruct (TreeLog_rehash _ _ _ _ _ HL) as (t2 & -> & HL2 & Hr2 & HV2). cbn [map_fail mbind outcome_bind mret outcome_ret].
  set (R1 := mroot 0 transient_hash2 degrade H (v_com v')) in *. set (R2 := mroot 0 transient_hash2 degrade H (v_gen v')) in *.
  clearbody R1 R2. eexists _, _. split; [done|]. split; [|split; [done|by split]].
  pose proof (log_bound _ _ _ _ _ Hg) as Bg.
  split; cbn [l_commitment_tree l_commitment_tree_first_free l_generating_tree l_generating_tree_first_free
      l_night_indices dust_utxos set_generating_tree set_commitment_tree]; try done.
  - intros n i Hi. destruct (Hn n i Hi) as (Hr & Hv & Hnc). split_and!; [lia|lia| |by apply not_elem_of_nil].
    rewrite HV2, HV; [done|lia|done].
  - intros nul u Hin. rewrite HV1. by apply (Hu nul).
Qed.

(** Events that come in batches. *)
Definition replay_batches (sk : Z) (s : DustLocalState) (batches : list (list (list Z * EventContent)))
  : outcome EventReplayError DustLocalState :=
  try_fold_o (fun s events => replay_events modulus transient_hash s sk events) s batches.

Lemma replay_batches_follow sk batches : forall s v v',
  Wallet_ok s v [] -> event_steps v (dust_events (concat batches)) v' ->
  StronglySorted Z.le (sync_time s :: (event_block_time <$> dust_events (concat batches))) ->
  exists s', replay_batches sk s batches = Ret s' /\ Wallet_ok s' v' [] /\
    (batches <> [] ->
     node_root 0 degrade (l_commitment_tree s') = Some (mroot 0 transient_hash2 degrade H (v_com v')) /\
     node_root 0 degrade (l_generating_tree s') = Some (mroot 0 transient_hash2 degrade H (v_gen v'))).
Proof.
  induction batches as [|b batches IH]; intros s v v' Hw Hs Hsort.
  - cbn in Hs. inversion Hs; subst. by exists s.
  - cbn [concat] in Hs, Hsort. unfold dust_events in Hs, Hsort. rewrite omap_app in Hs, Hsort. rewrite fmap_app in Hsort.
    apply event_steps_app_inv in Hs as (v1 & H1 & H2).
    destruct (replay_follows sk s v v1 b _ Hw H1 Hsort) as (s1 & ch & E1 & Hw1 & Hsort1 & Hr1).
    assert (Eb : replay_events modulus transient_hash s sk b = Ret s1) by (unfold replay_events; by rewrite E1).
    unfold replay_batches. cbn [try_fold_o]. rewrite Eb. cbn [mbind outcome_bind].
    destruct (IH s1 v1 v' Hw1 H2 Hsort1) as (s2 & E2 & Hw2 & Hr2). exists s2. split; [exact E2|]. split; [done|]. intros _.
    destruct batches as [|b' batches]; [|by apply Hr2].
    cbn in E2. injection E2 as <-. cbn in H2. inversion H2; subst. exact Hr1.
Qed.
End follow.

(** ** Example *)

Module WalletExample.
Import DustExample.
Definition sk : Z := 3.
Definition owner : Z := DustPublicKey_from transient sk.
(** A chain that creates an output of the wallet and one of another owner. *)
Definition create (nonce addr : Z) (st : DustState) : DustState * list Deferred :=
  match fresh_dust_output modulus transient st [nonce] 0 10 addr 50 55 with Ret x => x | _ => (st, []) end.
Definition st1 := create 1 owner DustState_default.
Definition st2 := create 2 8 st1.1.
Definition content (e : Deferred) : list Z * EventContent :=
  ([9], match e with Ret d => EDust d | _ => EOther end).
Definition batches : list (list (list Z * EventContent)) :=
  [content <$> st1.2; ([0], EOther) :: (content <$> st2.2)].

Lemma chain_reachable :
  dust_reachable (VerifyingKey := Z) (Signature := unit) (Proof := unit) (Action := unit) (Binding := unit)
    modulus transient persistent address intent_hash 55 st2.1 (([] ++ st1.2) ++ st2.2) [].
Proof.
  apply (dr_op _ _ _ _ _ 55 st1.1 ([] ++ st1.2) [] _ _ []).
  - apply (dr_op _ _ _ _ _ 55 DustState_default [] [] _ _ []); [apply dr_default|].
    apply (op_create _ _ _ _ _ 55 _ [1] 0 10 owner 50). vm_compute. reflexivity.
  - apply (op_create _ _ _ _ _ 55 _ [2] 0 10 8 50). vm_compute. reflexivity.
Qed.
End WalletExample.

(** ** Property *)

Section theorem.
Context {VerifyingKey Signature Proof Action Binding : Type} `{!EqDecision VerifyingKey}.
Context (modulus : Z) (transient_hash : list Z -> Z) (persistent_hash : list Z -> list Z).
Context (user_address : VerifyingKey -> list Z).
Context (intent_hash : @Intent VerifyingKey Signature Proof Action Binding -> Z -> IntentHash).
Local Abbreviation transient_hash2 := (fun a b => transient_hash [a; b]).
Local Abbreviation degrade := (degrade_to_transient modulus).
Local Abbreviation root t := (rehash 0 transient_hash2 degrade t ≫= fun t' => Ret (node_root 0 degrade t')).

(** C31. A wallet that replays the events of the chain, in any batches, follows it:
    the replay succeeds, its trees then have the same first free indices and the
    same roots as those of the ledger, every output it tracks is in the ledger's
    commitment tree with its own leaf kept, and the generation entry the wallet
    uses for it is the ledger's. *)
Theorem dust_wallet_follows t st evs spent sk p batches :
  dust_reachable modulus transient_hash persistent_hash user_address intent_hash t st evs spent ->
  evs = Ret <$> dust_events (concat batches) -> batches <> [] ->
  Forall (fun e => 0 <= event_block_time e) (dust_events (concat batches)) ->
  exists s, replay_batches modulus transient_hash sk (DustLocalState_new p) batches = Ret s /\
    l_commitment_tree_first_free s = commitments_first_free (utxo st) /\
    l_generating_tree_first_free s = generating_tree_first_free (generation st) /\
    Ret (node_root 0 degrade (l_commitment_tree s)) = root (commitments (utxo st)) /\
    Ret (node_root 0 degrade (l_generating_tree s)) = root (generating_tree (generation st)) /\
    (forall nul u, dust_utxos s !! nul = Some u ->
       let i := qdo_mt_index (wu_utxo u) in
       is_Some (node_index (l_commitment_tree s) i) /\
       node_index (l_commitment_tree s) i = node_index (commitments (utxo st)) i /\
       exists gi x, l_night_indices s !! qdo_backing_night (wu_utxo u) = Some gi /\
         generation_info s (wu_utxo u) = Some x.2 /\ node_index (generating_tree (generation st)) gi = Some x).
Proof.
  intros (es & v & HC)%reachable_consistent He Hne Hpos.
  pose proof (cons_ok _ _ _ _ _ _ _ _ HC) as Hok. rewrite (cons_events _ _ _ _ _ _ _ _ HC) in He.
  apply list_fmap_eq_inj in He; [subst es|by intros ? ? [= ->]].
  destruct (replay_batches_follow modulus transient_hash sk batches (DustLocalState_new p) View_empty v (Wallet_new _ _ p)
    (cons_steps _ _ _ _ _ _ _ _ HC)) as (s & E & Hw & Hr).
  { constructor; [apply (cons_sorted _ _ _ _ _ _ _ _ HC)|]. by apply Forall_fmap. }
  destruct (Hr Hne) as [Hr1 Hr2]. clear Hr. exists s. split; [exact E|].
  destruct (TreeLog_rehash _ _ _ _ _ (ok_com _ _ _ _ Hok)) as (t1 & E1 & _ & R1 & _).
  destruct (TreeLog_rehash _ _ _ _ _ (ok_gen _ _ _ _ Hok)) as (t2 & E2 & _ & R2 & _).
  rewrite E1, E2. cbn [mbind outcome_bind]. rewrite R1, R2, Hr1, Hr2, (ok_com_ff _ _ _ _ Hok), (ok_gen_ff _ _ _ _ Hok).
  destruct Hw as [Hc Hcf Hg Hgf Hn Hu _]. do 4 (split; [first [exact Hcf|exact Hgf|reflexivity]|]).
  pose proof (log_bound _ _ _ _ _ Hc) as Bc. pose proof (log_bound _ _ _ _ _ Hg) as Bg.
  intros nul u Hin. cbv zeta. destruct (Hu nul u Hin) as (Hi & Hv & [gi Hgi]). destruct (Hn _ _ Hgi) as (Hgr & Hgv & _).
  rewrite (node_index_spec _ _ _ _ _ _ _ (log_rep _ _ _ _ _ Hc)), Hv by lia.
  rewrite (node_index_spec _ _ _ _ _ _ _ (log_rep _ _ _ _ _ (ok_com _ _ _ _ Hok))), (ok_com_visible _ _ _ _ Hok) by lia.
  split; [apply (log_filled _ _ _ _ _ Hc); lia|]. split; [done|].
  destruct (proj2 (log_filled _ _ _ _ _ Hg gi ltac:(lia)) ltac:(lia)) as [x Hx]. exists gi, x. split; [done|].
  unfold generation_info. rewrite Hgi. cbn [mbind option_bind].
  rewrite (node_index_spec _ _ _ _ _ _ _ (log_rep _ _ _ _ _ Hg)), Hgv, Hx by lia.
  rewrite (node_index_spec _ _ _ _ _ _ _ (log_rep _ _ _ _ _ (ok_gen _ _ _ _ Hok))), (ok_gen_visible _ _ _ _ Hok) by lia.
  done.
Qed.
End theorem.

(** The wallet tracks its output, at index 0, and not the other one. *)
Lemma dust_wallet_follows_witness :
  exists s, replay_batches DustExample.modulus DustExample.transient WalletExample.sk
      (DustLocalState_new DustExample.params) WalletExample.batches = Ret s /\
    l_commitment_tree_first_free s = 2 /\
    node_root 0 (degrade_to_transient DustExample.modulus) (l_commitment_tree s) <> None.
Proof.
  destruct (dust_wallet_follows _ _ _ _ _ 55 _ _ [] WalletExample.sk DustExample.params WalletExample.batches
    WalletExample.chain_reachable) as (s & E & Hc & _ & Hr & _).
  - vm_compute. reflexivity.
  - discriminate.
  - vm_compute. repeat constructor; discriminate.
  - exists s. split; [exact E|]. split; [rewrite Hc; vm_compute; reflexivity|].
    intros Hx. rewrite Hx in Hr. vm_compute in Hr. discriminate.
Defined.
