(* ===== verification/LedgerData.v ===== *)
(** * Transactions and the ledger's state ([ledger/src/structure.rs])

    The data of the ledger: parameters, contracts and the actions on them,
    transactions, the state, and the events that describe its changes.
    Transactions appear as the ledger applies them, after verification, with
    their proofs and signatures erased.

    What the ledger takes from other libraries is collected in two classes.
    [Prims] has the types and functions the data depends on: the curve and hash
    libraries, the storage arena, and the order in which a persistent map lists
    its entries.  [Hashes] has the hashes and sizes of serialized data.  Keys of
    proofs and signatures and intermediate representations are their bytes. *)

From S2P Require Import Prelude Serialize MerkleTree Storage Cost DeltaTracking VmCost Fab OnchainVm ZswapMemo Repr Coins.
From S2P Require Import Runtime ZswapOffer ZswapLedger Intents Dust.
From stdpp Require Import gmap strings sorting.

Local Open Scope Z_scope.

Class Prims := {
  (** Verifying keys of users, and Pedersen commitments. *)
  SignatureVerifyingKey : Type;
  vk_eq_dec :: EqDecision SignatureVerifyingKey;
  Pedersen : Type;
  CoinCiphertext : Type;
  (** Hashes of the storage arena. *)
  ArenaHash : Type;
  arena_eq_dec :: EqDecision ArenaHash;
  arena_countable :: Countable ArenaHash;
  (** The field and the hashes. *)
  modulus : Z;
  transient_hash : list Z -> Z;
  persistent_hash : list Z -> list Z;
  user_address : SignatureVerifyingKey -> list Z;
  (** The arena: the key of a contract's state, the stored nodes, the size of a
      hash, the order of unreferenced keys, a bound on traversals, and the sizes
      of a value's nodes and of its serialization. *)
  state_key : StateValue Z -> ArenaKey ArenaHash;
  arena : ArenaHash -> option (OnDiskObject ArenaHash);
  arena_hash_size : Z;
  unreferenced_keys : gset (ArenaKey ArenaHash) -> list (ArenaKey ArenaHash);
  traversal_bound : nat;
  node_sizes : StateValue Z -> list Z;
  state_size : StateValue Z -> Z;
  (** The entries of a persistent map, in its order. *)
  map_iter : forall K V `{Countable K}, gmap K V -> list (K * V)
}.
Arguments map_iter {_ K V _ _} _.

(** ** Parameters *)

Record TransactionCostModel := mkTransactionCostModel {
  runtime_cost_model : CostModel;
  baseline_cost : RunningCost;
  validation_factor : FixedPoint;
  guaranteed_factor : FixedPoint;
  fallible_factor : FixedPoint
}.

Definition INITIAL_TRANSACTION_COST_MODEL : TransactionCostModel :=
  mkTransactionCostModel INITIAL_COST_MODEL (mkRunningCost CD_ZERO 100000000 0 0) (from_u64_div 1 4) FP_ONE FP_ONE.

Record TransactionLimits := mkTransactionLimits {
  transaction_byte_limit : Z;
  time_to_dismiss_per_byte : CostDuration;
  min_time_to_dismiss : CostDuration;
  block_limits : SyntheticCost;
  block_withdrawal_minimum_multiple : FixedPoint;
  max_contract_metadata_size : Z
}.

Definition INITIAL_LIMITS : TransactionLimits :=
  mkTransactionLimits (Z.shiftl 1 20) 2000000 15000000000 INITIAL_BLOCK_LIMITS (from_u64_div 1 2) 50000.

Record LedgerParameters := mkLedgerParameters {
  cost_model : TransactionCostModel;
  limits : TransactionLimits;
  dust_parameters : DustParameters;
  fee_prices : FeePrices;
  global_ttl : Duration;
  cost_dimension_min_ratio : FixedPoint;
  price_adjustment_a_parameter : FixedPoint;
  bridge_fee_basis_points : Z;
  c_to_m_bridge_min_amount : Z;
  min_block_price : FixedPoint
}.

Definition STARS_PER_NIGHT : Z := 1000000.
Definition MAX_SUPPLY : Z := 24000000000 * STARS_PER_NIGHT.
Definition NIGHT_TOKEN : TokenType := Unshielded NIGHT.

(** ** Contracts *)

Inductive MaintenanceVerifyingKey := Schnorr (vk : list Z) | ECDSA (vk : list Z).

Record ContractMaintenanceAuthority := mkAuthority {
  committee : list MaintenanceVerifyingKey;
  threshold : Z;
  counter : Z
}.
Definition ContractMaintenanceAuthority_new : ContractMaintenanceAuthority := mkAuthority [] 1 0.

(** The verifier keys of two versions of the proof system, and the IR. *)
Record ContractOperation := mkContractOperation {
  v2 : option (list Z);
  v3 : option (list Z);
  ir : option (list Z)
}.
Definition ContractOperation_new (vk ir : option (list Z)) : ContractOperation := mkContractOperation None vk ir.

#[export] Instance ContractOperation_eq_dec : EqDecision ContractOperation.
Proof. solve_decision. Defined.

Abbreviation EntryPointBuf := (list Z) (only parsing).

(** The names are off by one: [V3] is the key in [v2], [V4] the key in [v3]. *)
Inductive ContractOperationVersion := V3 | V4.
Inductive ContractOperationVersionedVerifierKey := VK3 (vk : list Z) | VK4 (vk : list Z).

Definition version_has (self : ContractOperationVersion) (co : ContractOperation) : bool :=
  match self with V3 => bool_decide (is_Some (v2 co)) | V4 => bool_decide (is_Some (v3 co)) end.
Definition version_rm_from (self : ContractOperationVersion) (co : ContractOperation) : ContractOperation :=
  match self with
  | V3 => mkContractOperation None (v3 co) (ir co)
  | V4 => mkContractOperation (v2 co) None (ir co)
  end.
Definition as_version (self : ContractOperationVersionedVerifierKey) : ContractOperationVersion :=
  match self with VK3 _ => V3 | VK4 _ => V4 end.
Definition vk_insert_into (self : ContractOperationVersionedVerifierKey) (co : ContractOperation) : ContractOperation :=
  match self with
  | VK3 vk => mkContractOperation (Some vk) (v3 co) (ir co)
  | VK4 vk => mkContractOperation (v2 co) (Some vk) (ir co)
  end.

Inductive SingleUpdate :=
| ReplaceAuthority (auth : ContractMaintenanceAuthority)
| VerifierKeyRemove (ep : EntryPointBuf) (version : ContractOperationVersion)
| VerifierKeyInsert (ep : EntryPointBuf) (vk : ContractOperationVersionedVerifierKey)
| IrRemove (ep : EntryPointBuf)
| IrInsert (ep : EntryPointBuf) (ir : list Z).

#[export] Instance Effects_eq_dec : EqDecision Effects.
Proof. solve_decision. Defined.

(** The hash of an entry point's name. *)
Definition ep_hash `{Prims} (ep : EntryPointBuf) : HashOutput :=
  persistent_hash (ascii_bytes "midnight:entry-point" ++ replicate 12 0 ++ ep).

Section data.
Context `{P : Prims}.

Record ContractState := mkContractState {
  data : ChargedState ArenaHash;
  operations : gmap EntryPointBuf ContractOperation;
  maintenance_authority : ContractMaintenanceAuthority;
  balance : gmap TokenType Z
}.

Record ContractCall := mkContractCall {
  call_address : ContractAddress;
  call_entry_point : EntryPointBuf;
  guaranteed_transcript : option Transcript;
  fallible_transcript : option Transcript;
  communication_commitment : Z
}.

Record ContractDeploy := mkContractDeploy {
  initial_state : ContractState;
  deploy_nonce : HashOutput
}.

Record MaintenanceUpdate := mkMaintenanceUpdate {
  upd_address : ContractAddress;
  updates : list SingleUpdate;
  upd_counter : Z;
  upd_signatures : list (Z * list Z)
}.

Inductive ContractAction :=
| Call (call : ContractCall)
| Deploy (deploy : ContractDeploy)
| Maintain (upd : MaintenanceUpdate).

(** ** Transactions *)

(** Proofs and signatures are erased; a segment's number is at most 16 bits. *)
Definition LedgerIntent : Type := @Intent SignatureVerifyingKey unit unit ContractAction Pedersen.
Definition ZswapOffer : Type := @Offer Pedersen unit CoinCiphertext (list Z).

Record StandardTransaction := mkStandardTransaction {
  network_id : string;
  intents : gmap Z LedgerIntent;
  guaranteed_coins : option ZswapOffer;
  fallible_coins : gmap Z ZswapOffer;
  binding_randomness : Z
}.

Inductive ClaimKind := Reward | CardanoBridge.

Record ClaimRewardsTransaction := mkClaimRewards {
  claim_network_id : string;
  claim_value : Z;
  claim_owner : SignatureVerifyingKey;
  claim_nonce : HashOutput;
  claim_kind : ClaimKind
}.

Inductive Transaction :=
| Standard (stx : StandardTransaction)
| ClaimRewards (claim : ClaimRewardsTransaction).

Abbreviation TransactionHash := (list Z) (only parsing).

Record VerifiedTransaction := mkVerifiedTransaction {
  inner : Transaction;
  tx_hash : TransactionHash;
  tx_fees : Z
}.

Definition GUARANTEED_SEGMENT : Z := 0.

(** The keys of a persistent map, sorted and without repetitions. *)
Definition sorted_keys (l : list Z) : list Z := remove_dups (merge_sort Z.le l).

Definition segments (self : StandardTransaction) : list Z :=
  sorted_keys (GUARANTEED_SEGMENT :: (map_iter (intents self)).*1 ++ (map_iter (fallible_coins self)).*1).
Definition fallible_segments (self : StandardTransaction) : list Z :=
  sorted_keys (filter (fun s => s <> GUARANTEED_SEGMENT) ((map_iter (intents self)).*1 ++ (map_iter (fallible_coins self)).*1)).

Record OutputInstructionUnshielded := mkOutputInstruction {
  oi_amount : Z;
  target_address : HashOutput;
  instruction_nonce : HashOutput
}.

(** [mk_intent_hash]: the hash of the tagged serialization of an instruction with
    its token type. *)
Definition to_hash_data (self : OutputInstructionUnshielded) (tt_ : HashOutput) : list Z :=
  tag_header (str_bytes "output-instruction-unshielded-with-token-type[v1]") ++
  tt_ ++ serialize u128_codec (oi_amount self) ++ target_address self ++ instruction_nonce self.
Definition mk_intent_hash (self : OutputInstructionUnshielded) (tt_ : HashOutput) : IntentHash :=
  persistent_hash (to_hash_data self tt_).

Inductive CNightAction := Create | Destroy.
Record CNightGeneratesDustEvent := mkCNightEvent {
  cn_value : Z;
  cn_owner : Z;
  cn_time : Timestamp;
  cn_action : CNightAction;
  cn_nonce : HashOutput
}.

Inductive SystemTransaction :=
| OverwriteParameters (new_params : LedgerParameters)
| DistributeNight (kind : ClaimKind) (outputs : list OutputInstructionUnshielded)
| PayBlockRewardsToTreasury (amount : Z)
| PayFromTreasuryShielded (outputs : list (Z * HashOutput)) (nonce token_type : HashOutput)
| PayFromTreasuryUnshielded (outputs : list OutputInstructionUnshielded) (token_type : HashOutput)
| DistributeReserve (amount : Z)
| CNightGeneratesDustUpdate (events : list CNightGeneratesDustEvent)
| UnlockToTreasury (amount : Z)
| UnlockToReserve (amount : Z).

(** ** State *)

Record LedgerState := mkLedgerState {
  ls_network_id : string;
  parameters : LedgerParameters;
  locked_pool : Z;
  bridge_receiving : gmap HashOutput Z;
  reserve_pool : Z;
  block_reward_pool : Z;
  unclaimed_block_rewards : gmap HashOutput Z;
  treasury : gmap TokenType Z;
  zswap : State;
  contract : gmap ContractAddress ContractState;
  ls_utxo : UtxoState;
  replay_protection : ReplayProtectionState;
  dust : DustState
}.

(** [index] and [update_index]; [unwrap_or_default] is not reached where the
    contract was looked up before. *)
Definition index (self : LedgerState) (address : ContractAddress) : option ContractState := contract self !! address.

Record TransactionContext := mkTransactionContext {
  ref_state : LedgerState;
  block_context : BlockContext;
  whitelist : option (gset ContractAddress)
}.

(** ** Events *)

Record EventSource := mkEventSource {
  es_transaction_hash : TransactionHash;
  logical_segment : Z;
  physical_segment : Z
}.

Inductive ZswapPreimageEvidence :=
| EvCiphertext (ciph : CoinCiphertext)
| EvPublicPreimage (coin : Info) (recipient : Recipient)
| EvNone.

Inductive EventDetails :=
| ZswapInput (nullifier : HashOutput) (address : option ContractAddress)
| ZswapOutput (commitment : HashOutput) (evidence : ZswapPreimageEvidence) (address : option ContractAddress) (mt_index : Z)
| ContractDeployed (address : ContractAddress) (initial : ContractState)
| ContractLog (address : ContractAddress) (entry_point : EntryPointBuf) (logged_item : VersionedLogItem Z)
| ParamChange (params : LedgerParameters)
| DustDetails (event : DustEvent).

Record Event := mkEvent { source : EventSource; content : EventDetails }.

(** An event that is made when it is asked for, which may panic. *)
Definition DeferredEvent : Type := outcome Empty_set Event.

Definition deferred_dust (source : EventSource) (event : Deferred) : DeferredEvent :=
  match event with Ret event => Ret (mkEvent source (DustDetails event)) | _ => Panic end.

(** ** Errors *)

(** [TransactionInvalid], with the errors of the parts embedded. *)
Inductive LedgerInvalid :=
| ZswapInvalid (e : ZswapLedger.TransactionInvalid)
| TranscriptInvalid (e : TranscriptRejected)
| ReplayProtectionViolation (e : TransactionApplicationError)
| UtxosInvalid (e : UtxoInvalid)
| DustPartInvalid (e : DustInvalid)
| EffectsMismatch (declared actual : Effects)
| BalanceCheckOutOfBounds (token_type : TokenType) (current_balance operation_value : Z) (addition : bool)
| ContractNotPresent (address : ContractAddress)
| ContractAlreadyDeployed (address : ContractAddress)
| ContractMetadataTooLarge (address : ContractAddress) (entry_point : EntryPointBuf) (size limit : Z)
| ContractAuthorityMetadataTooLarge (address : ContractAddress) (size limit : Z)
| ReplayCounterMismatch (address : ContractAddress)
| VerifierKeyNotFound (ep : EntryPointBuf) (version : ContractOperationVersion)
| VerifierKeyAlreadyPresent (ep : EntryPointBuf) (version : ContractOperationVersion)
| IrNotFound (ep : EntryPointBuf)
| IrAlreadyPresent (ep : EntryPointBuf)
| NightBalance (total : Z)
| InsufficientClaimable (requested claimable : Z) (claimant : HashOutput) (kind : ClaimKind)
| RewardTooSmall (claimed minimum : Z).

Inductive SystemTransactionError :=
| InvalidBasisPoints (points : Z)
| IllegalPayout (claimed_amount : option Z) (supply : Z) (bridged_amount : option Z) (locked : Z)
| IllegalReserveDistribution (distributed_amount reserve_supply : Z)
| ReplayProtectionFailure (e : TransactionApplicationError)
| SystemCommitmentAlreadyPresent (cm : HashOutput)
| SystemDustError (e : DustStateError)
| SystemMerkleTreeError (e : InvalidUpdate)
| SystemNightBalance (total : Z)
| TreasuryDisabled.

Inductive TransactionResult :=
| Success (events : list Event)
| PartialSuccess (segments : gmap Z (option LedgerInvalid)) (events : list Event)
| Failure (e : LedgerInvalid).
End data.

#[export] Instance ClaimKind_eq_dec : EqDecision ClaimKind.
Proof. solve_decision. Defined.
#[export] Instance CNightAction_eq_dec : EqDecision CNightAction.
Proof. solve_decision. Defined.

(** Hashes and sizes of serialized data. *)
Class Hashes `{Prims} := {
  intent_hash : LedgerIntent -> Z -> IntentHash;
  deploy_address : ContractDeploy -> ContractAddress;
  system_tx_hash : SystemTransaction -> list Z;
  authority_size : ContractMaintenanceAuthority -> Z;
  entry_point_size : list Z -> Z;
  operation_size : ContractOperation -> Z
}.
