(* ===== verification/TxCost.v ===== *)
(** * What a transaction costs ([ledger/src/structure.rs])

    The cost of a transaction is estimated from its contents before it is
    applied: the cost of validating it and of applying its guaranteed and its
    fallible part, in time, bytes written and bytes churned.  Contract calls are
    charged the gas they declare.  Fees are the price of that cost.

    Additions are in the order of the code's [+=]; they saturate.  Parameters
    are the sizes of serialized data, collected in [CostInputs]. *)

From S2P Require Import Prelude Serialize Storage Cost VmCost Fab OnchainVm ZswapMemo Repr Coins Runtime ZswapOffer ZswapLedger.
From S2P Require Import Intents Dust LedgerData.
From stdpp Require Import gmap strings sorting.

Local Open Scope Z_scope.

Declare Scope rc_scope.
Delimit Scope rc_scope with rc.
Notation "a + b" := (RunningCost_add a b) : rc_scope.
Notation "a * k" := (RunningCost_mul a k%Z) : rc_scope.

#[export] Instance ContractOperationVersion_eq_dec : EqDecision ContractOperationVersion.
Proof. solve_decision. Defined.

(** ** The model *)

Definition fr_bytes : Z := Z.of_nat FR_BYTES.
Definition hash_bytes : Z := Z.of_nat PERSISTENT_HASH_BYTES.

Section model.
Context (self : TransactionCostModel).
Local Abbreviation rt := (runtime_cost_model self).
Local Abbreviation zero := RC_ZERO.

Definition cell_read (size : Z) : RunningCost := read_cell rt size true.
Definition cell_write (size : Z) (overwrite : bool) : RunningCost :=
  mkRunningCost CD_ZERO CD_ZERO size (if overwrite then size else 0).
Definition cell_delete (size : Z) : RunningCost := mkRunningCost CD_ZERO CD_ZERO 0 size.
Definition map_index (log_size : Z) : RunningCost := read_map rt log_size true.
Definition proof_verify (size : Z) : RunningCost :=
  RunningCost_compute (cm_proof_verify_constant rt + cm_proof_verify_coeff_size rt * size)%cost.
Definition map_insert (log_size : Z) (overwrite : bool) : RunningCost :=
  let layers := div_ceil log_size 4 in
  (cell_write (hash_bytes * 16) true * layers + cell_write hash_bytes overwrite)%rc.
Definition map_remove (log_size : Z) (guaranteed_present : bool) : RunningCost :=
  if guaranteed_present then map_insert log_size true else (map_insert log_size true + map_index log_size)%rc.
Definition time_filter_map_lookup : RunningCost := (map_index 8 * 2)%rc.
Definition time_filter_map_insert (overwrite : bool) : RunningCost := (map_insert 8 overwrite * 2)%rc.
Definition merkle_tree_index (log_size : Z) : RunningCost := read_bmt fr_bytes rt log_size true.
Definition merkle_tree_insert_no_rehash (log_size : Z) (overwrite : bool) : RunningCost :=
  (cell_write fr_bytes overwrite + cell_write (fr_bytes * 3 + 2)%Z true * log_size)%rc.
Definition merkle_tree_insert_unamortized (log_size : Z) (overwrite : bool) : RunningCost :=
  (RunningCost_compute (cm_transient_hash rt * log_size)%cost + merkle_tree_insert_no_rehash log_size overwrite)%rc.
Definition EXPECTED_AMORTIZE_HASHES : Z := 6.
Definition merkle_tree_insert_amortized (log_size : Z) (overwrite : bool) : RunningCost :=
  (RunningCost_compute (cm_transient_hash rt * EXPECTED_AMORTIZE_HASHES)%cost + merkle_tree_insert_no_rehash log_size overwrite)%rc.

(** [tree_copy] of a value with the given nodes: the length of their data and the
    number of their children. *)
Definition tree_copy (nodes : list (Z * Z)) : RunningCost :=
  mkRunningCost CD_ZERO CD_ZERO (wrap 64 (foldr Z.add 0 ((fun n => n.1 + n.2 * hash_bytes) <$> nodes))) 0.

(** [n.next_power_of_two().ilog2()]; the power of zero and of one is one. *)
Definition next_power_log (n : nat) : Z := Z.log2_up (Z.of_nat n).

Definition EXPECTED_COM_INDICES : nat := 16.
Definition stack_setup_cost_for_effects (eff : Effects) : RunningCost :=
  let maps : list (nat * Z) := [
    (EXPECTED_COM_INDICES, hash_bytes);
    (size (claimed_nullifiers eff), hash_bytes);
    (size (claimed_shielded_receives eff), hash_bytes);
    (size (claimed_shielded_spends eff), hash_bytes);
    (size (claimed_contract_calls eff), hash_bytes * 2 + fr_bytes + 8);
    (size (shielded_mints eff), hash_bytes);
    (size (unshielded_mints eff), hash_bytes);
    (size (unshielded_inputs eff), hash_bytes + 1);
    (size (unshielded_outputs eff), hash_bytes + 1);
    (size (claimed_unshielded_spends eff), hash_bytes * 2 + 1)] in
  RunningCost_compute (foldr CostDuration_add CD_ZERO ((fun '(n, key_len) =>
    (cm_ins_map_constant rt + cm_ins_map_coeff_container_log_size rt * next_power_log n
     + cm_ins_map_coeff_key_size rt * key_len)%cost) <$> maps)).
End model.

Definition VERIFIER_KEY_SIZE : Z := 2875.
Definition EXPECTED_CONTRACT_DEPTH : Z := 32.
Definition EXPECTED_UTXO_DEPTH : Z := 32.
Definition EXPECTED_GENERATION_DEPTH : Z := 32.
Definition EXPECTED_OPERATIONS_DEPTH : Z := 8.
Definition EXPECTED_TOKEN_TYPE_DEPTH : Z := 8.
Definition EXPECTED_TIME_FILTER_MAP_DEPTH : Z := 8.
Definition FRESH_DUST_COMMITMENT_HASHES : Z := 6.
Definition DUST_GENERATION_INFO_SIZE : Z := 16 + fr_bytes + hash_bytes + 8.
Definition DUST_SPEND_PIS : Z := 138.
Definition UTXO_SIZE : Z := 16 + hash_bytes * 3 + 4.
Definition INPUT_PIS : Z := 68.
Definition OUTPUT_PIS : Z := 77.

(** [impl Mul<FixedPoint> for CostDuration]. *)
Definition CostDuration_mul_fp (t : CostDuration) (f : FixedPoint) : CostDuration :=
  Z.min (into_atomic_units (FP_mul (from_u64_div t 1) f) 1) (u_max 64).

Definition scale_compute (c : RunningCost) (f : FixedPoint) : RunningCost :=
  mkRunningCost (rc_read_time c) (CostDuration_mul_fp (rc_compute_time c) f) (rc_bytes_written c) (rc_bytes_deleted c).

Definition add_compute (c : RunningCost) (t : CostDuration) : RunningCost :=
  mkRunningCost (rc_read_time c) (CostDuration_add (rc_compute_time c) t) (rc_bytes_written c) (rc_bytes_deleted c).

(** What the estimate takes from serialization. *)
Class CostInputs `{Prims} := {
  est_size : Transaction -> Z;
  call_version : ContractCall -> option ContractOperationVersion;
  public_inputs_len : ContractCall -> Z;
  signatures_len : @UnshieldedOffer SignatureVerifyingKey -> Z;
  contract_nodes : ContractState -> list (Z * Z);
  authority_nodes : ContractMaintenanceAuthority -> list (Z * Z);
  parameters_size : LedgerParameters -> Z;
  vk_size : list Z -> Z;
  ep_size : list Z -> Z;
  versioned_vk_size : ContractOperationVersionedVerifierKey -> Z;
  ir_size : list Z -> Z
}.

Section cost.
Context `{P : Prims} {CI : CostInputs}.

Local Abbreviation sum_to := (foldl RunningCost_add).
Definition zlen {A} (l : list A) : Z := Z.of_nat (length l).

Definition tx_intents (tx : Transaction) : list LedgerIntent :=
  match tx with Standard stx => (map_iter (intents stx)).*2 | ClaimRewards _ => [] end.
Definition tx_calls (tx : Transaction) : list ContractCall :=
  tx_intents tx ≫= fun intent => omap (fun a => match a with Call c => Some c | _ => None end) (actions intent).
Definition tx_offers (stx : StandardTransaction) : list ZswapOffer :=
  option_list (guaranteed_coins stx) ++ (map_iter (fallible_coins stx)).*2.

(** ** Validation *)

Section validation.
Context (model : TransactionCostModel).
Local Abbreviation rt := (runtime_cost_model model).

Definition action_validation (a : ContractAction) (cost : RunningCost) : RunningCost :=
  match a with
  | Call call => RunningCost_add (add_compute cost (cm_verifier_key_load rt)) (proof_verify model (public_inputs_len call))
  | Maintain upd => add_compute cost (CostDuration_mul (cm_signature_verify_constant rt) (zlen (upd_signatures upd)))
  | Deploy _ => cost
  end.

Definition intent_validation (cost : RunningCost) (intent : LedgerIntent) : RunningCost :=
  let cost := add_compute cost (cm_pedersen_valid rt) in
  let offers := option_list (guaranteed_unshielded_offer intent) ++ option_list (fallible_unshielded_offer intent) in
  let cost := add_compute cost (CostDuration_mul (cm_signature_verify_constant rt) (foldr Z.add 0 (signatures_len <$> offers))) in
  let cost := foldl (fun cost a => action_validation a cost) cost (actions intent) in
  match dust_actions intent with
  | Some da =>
      add_compute (RunningCost_add cost (proof_verify model DUST_SPEND_PIS * zlen (spends da))%rc)
        (CostDuration_mul (cm_signature_verify_constant rt) (zlen (registrations da)))
  | None => cost
  end.

Definition validation_cost_impl (self : Transaction)
  (per_call_vk_read : ContractAddress -> EntryPointBuf -> option ContractOperationVersion -> RunningCost) : SyntheticCost :=
  let result :=
    match self with
    | Standard stx =>
        let unique_calls := remove_dups ((fun c => (call_address c, call_entry_point c, call_version c)) <$> tx_calls self) in
        let cost := sum_to (baseline_cost model) ((fun '(address, ep, version) => per_call_vk_read address ep version) <$> unique_calls) in
        let offers := tx_offers stx in
        let zswap_inputs := foldr Z.add 0 ((fun offer => zlen (inputs offer) + zlen (transient offer)) <$> offers) in
        let zswap_outputs := foldr Z.add 0 ((fun offer => zlen (outputs offer) + zlen (transient offer)) <$> offers) in
        let cost := RunningCost_add cost (proof_verify model INPUT_PIS * zswap_inputs)%rc in
        let cost := RunningCost_add cost (proof_verify model OUTPUT_PIS * zswap_outputs)%rc in
        let cost := foldl intent_validation cost (tx_intents self) in
        let cost := add_compute cost (CostDuration_mul (cm_hash_to_curve rt + cm_ec_mul rt)%cost
                                        (foldr Z.add 0 ((fun o => zlen (deltas o)) <$> offers))) in
        let cost := add_compute cost (cm_ec_mul rt) in
        let res := SyntheticCost_from cost in
        mkSyntheticCost (sc_read_time res) (sc_compute_time res) (est_size self) (sc_bytes_written res) (sc_bytes_churned res)
    | ClaimRewards _ =>
        SyntheticCost_from (RunningCost_add (RunningCost_compute (cm_signature_verify_constant rt)) (baseline_cost model))
    end in
  mkSyntheticCost (sc_read_time result) (CostDuration_mul_fp (sc_compute_time result) (validation_factor model))
    (sc_block_usage result) (sc_bytes_written result) (sc_bytes_churned result).

Definition validation_cost (self : Transaction) : SyntheticCost :=
  let per_call := (cell_read model VERIFIER_KEY_SIZE + map_index model EXPECTED_CONTRACT_DEPTH
                   + map_index model EXPECTED_OPERATIONS_DEPTH)%rc in
  validation_cost_impl self (fun _ _ _ => per_call).

(** The size of the verifier key a call is checked with. *)
Definition op_vk_size (op : ContractOperation) (ver : option ContractOperationVersion) : option Z :=
  match ver with
  | Some V3 => vk_size <$> v2 op
  | Some V4 => vk_size <$> v3 op
  | None => match v3 op with Some vk => Some (vk_size vk) | None => vk_size <$> v2 op end
  end.

Definition validation_cost_with_state (self : Transaction) (ledger : LedgerState) : SyntheticCost :=
  validation_cost_impl self (fun address entry_point ver =>
    let '(vk, ops_log_size) :=
      default (VERIFIER_KEY_SIZE, EXPECTED_OPERATIONS_DEPTH)
        (cstate ← index ledger address;
         op ← operations cstate !! entry_point;
         Some (default VERIFIER_KEY_SIZE (op_vk_size op ver), next_power_log (size (operations cstate)))) in
    (cell_read model vk + map_index model EXPECTED_CONTRACT_DEPTH + map_index model ops_log_size)%rc).
End validation.

(** ** Application *)

Section application.
Context (model : TransactionCostModel).
Local Abbreviation rt := (runtime_cost_model model).

(** The costs of an unshielded offer, in the order they are added. *)
Definition offer_costs (offer : @UnshieldedOffer SignatureVerifyingKey) : list RunningCost :=
  let inputs := zlen (uo_inputs offer) in
  let outputs := zlen (uo_outputs offer) in
  let night_inputs := zlen (filter (fun i => spend_type i = NIGHT) (uo_inputs offer)) in
  let night_outputs := zlen (filter (fun o => output_type o = NIGHT) (uo_outputs offer)) in
  [map_index model EXPECTED_UTXO_DEPTH * inputs;
   (map_remove model EXPECTED_UTXO_DEPTH true + cell_delete UTXO_SIZE) * inputs;
   (map_insert EXPECTED_UTXO_DEPTH false + cell_write UTXO_SIZE false) * outputs;
   (merkle_tree_insert_unamortized model 32 false + cell_write DUST_GENERATION_INFO_SIZE false) * night_inputs;
   (map_index model EXPECTED_UTXO_DEPTH + cell_read model fr_bytes) * night_outputs;
   (cell_read model 8 + cell_write 8 true) * night_outputs;
   (merkle_tree_insert_amortized model 32 false + cell_write DUST_GENERATION_INFO_SIZE false) * night_outputs;
   (map_insert EXPECTED_UTXO_DEPTH false + cell_write 8 false) * night_outputs;
   (cell_read model 8 + cell_write 8 true) * night_outputs;
   (merkle_tree_insert_amortized model EXPECTED_UTXO_DEPTH false + cell_write fr_bytes false) * night_outputs;
   RunningCost_compute (cm_transient_hash rt * FRESH_DUST_COMMITMENT_HASHES * night_outputs)%cost]%rc.

Definition registration_costs (intent : LedgerIntent) (reg : @DustRegistration SignatureVerifyingKey unit) : list RunningCost :=
  match dust_address reg with
  | Some _ =>
      let night_inputs := zlen (filter (fun i => spend_owner i = night_key reg /\ spend_type i = NIGHT)
                                  (from_option uo_inputs [] (guaranteed_unshielded_offer intent))) in
      [map_insert EXPECTED_GENERATION_DEPTH false + cell_write fr_bytes false;
       (map_index model EXPECTED_UTXO_DEPTH + cell_read model 8) * night_inputs;
       (merkle_tree_index model EXPECTED_UTXO_DEPTH + cell_read model DUST_GENERATION_INFO_SIZE) * night_inputs]%rc
  | None => [map_remove model EXPECTED_GENERATION_DEPTH true + cell_delete fr_bytes]%rc
  end.

Definition dust_costs (intent : LedgerIntent) : list RunningCost :=
  let dust_spends := zlen (from_option spends [] (dust_actions intent)) in
  [map_index model 32 * dust_spends;
   (map_insert EXPECTED_UTXO_DEPTH false + cell_write fr_bytes false) * dust_spends;
   (cell_read model 8 + cell_write 8 true) * dust_spends;
   (merkle_tree_insert_amortized model EXPECTED_UTXO_DEPTH false + cell_write fr_bytes false) * dust_spends;
   time_filter_map_lookup model * 2]%rc
  ++ (from_option registrations [] (dust_actions intent) ≫= registration_costs intent).

(** A transcript is charged what it declares, and setting up its stack. *)
Definition transcript_costs (t : option Transcript) : list RunningCost :=
  match t with Some t => [tr_gas t; stack_setup_cost_for_effects model (tr_effects t)] | None => [] end.

Definition update_costs (part : SingleUpdate) : RunningCost :=
  match part with
  | ReplaceAuthority auth => tree_copy (authority_nodes auth) + map_insert 1 true
  | VerifierKeyRemove _ _ => map_remove model EXPECTED_OPERATIONS_DEPTH true + cell_delete VERIFIER_KEY_SIZE + map_insert 1 true
  | VerifierKeyInsert ep vk => map_insert EXPECTED_OPERATIONS_DEPTH false + cell_write (ep_size ep + versioned_vk_size vk)%Z false + map_insert 1 true
  | IrRemove ep => map_insert EXPECTED_OPERATIONS_DEPTH true + cell_delete (ep_size ep) + map_insert 1 true
  | IrInsert ep ir => map_insert EXPECTED_OPERATIONS_DEPTH true + cell_write (ep_size ep + ir_size ir)%Z false + map_insert 1 true
  end%rc.

Definition call_base_cost : RunningCost :=
  (map_index model EXPECTED_CONTRACT_DEPTH + map_insert EXPECTED_CONTRACT_DEPTH true + map_index model 1 + map_insert 1 true)%rc.

(** The guaranteed and the fallible costs of an action. *)
Definition action_costs (a : ContractAction) : list RunningCost * list RunningCost :=
  match a with
  | Call call =>
      let base b := if b : bool then [call_base_cost] else [] in
      let in_guaranteed := bool_decide (is_Some (guaranteed_transcript call)) in
      (base in_guaranteed ++ transcript_costs (guaranteed_transcript call),
       base (negb in_guaranteed) ++ transcript_costs (fallible_transcript call))
  | Deploy deploy =>
      ([], [map_index model EXPECTED_CONTRACT_DEPTH;
            map_insert EXPECTED_CONTRACT_DEPTH false + tree_copy (contract_nodes (initial_state deploy))]%rc)
  | Maintain upd =>
      ([], [map_index model EXPECTED_CONTRACT_DEPTH;
            map_index model 1 * 2 + map_insert 1 true * 2 + cell_read model 8 + cell_write 8 true]%rc
           ++ (update_costs <$> updates upd) ++ [map_insert EXPECTED_CONTRACT_DEPTH true])
  end.

Definition replay_costs : list RunningCost :=
  [time_filter_map_lookup model + cell_read model hash_bytes; time_filter_map_insert false + cell_write hash_bytes false]%rc.

Definition intent_guaranteed (intent : LedgerIntent) : list RunningCost :=
  replay_costs ++ from_option offer_costs [] (guaranteed_unshielded_offer intent) ++ dust_costs intent
  ++ (actions intent ≫= fun a => (action_costs a).1).
Definition intent_fallible (intent : LedgerIntent) : list RunningCost :=
  from_option offer_costs [] (fallible_unshielded_offer intent) ++ (actions intent ≫= fun a => (action_costs a).2).

Definition zswap_cost (offer : ZswapOffer) : RunningCost :=
  let inputs := zlen (inputs offer) + zlen (transient offer) in
  let outputs := zlen (outputs offer) + zlen (transient offer) in
  sum_to RC_ZERO
    [map_index model EXPECTED_TIME_FILTER_MAP_DEPTH * inputs;
     map_index model EXPECTED_UTXO_DEPTH * inputs;
     (map_insert EXPECTED_UTXO_DEPTH false + cell_write hash_bytes false) * inputs;
     map_index model EXPECTED_UTXO_DEPTH * outputs;
     map_insert EXPECTED_UTXO_DEPTH false * outputs;
     (cell_read model 8 + cell_write 8 true) * outputs;
     merkle_tree_insert_amortized model EXPECTED_UTXO_DEPTH false * outputs]%rc.

(** The costs before the parallelism factors. *)
Definition raw_costs (self : Transaction) : RunningCost * RunningCost :=
  let g_cost := sum_to (baseline_cost model) (tx_intents self ≫= intent_guaranteed) in
  let f_cost := sum_to RC_ZERO (tx_intents self ≫= intent_fallible) in
  match self with
  | Standard stx =>
      let g_cost := sum_to g_cost (zswap_cost <$> option_list (guaranteed_coins stx)) in
      let fallible := zswap_cost <$> (map_iter (fallible_coins stx)).*2 in
      (foldl (fun g c => add_compute g (rc_compute_time c)) g_cost fallible, sum_to f_cost fallible)
  | ClaimRewards _ =>
      (sum_to g_cost ([map_index model EXPECTED_UTXO_DEPTH; map_insert EXPECTED_UTXO_DEPTH true] ++ replay_costs
                      ++ [map_insert EXPECTED_UTXO_DEPTH false]), f_cost)
  end.

Definition application_cost (self : Transaction) : SyntheticCost * SyntheticCost :=
  let '(g_cost, f_cost) := raw_costs self in
  let g_cost := scale_compute g_cost (guaranteed_factor model) in
  let f_cost := scale_compute f_cost (fallible_factor model) in
  (SyntheticCost_from g_cost, SyntheticCost_from (RunningCost_add g_cost f_cost)).

Definition time_to_dismiss (self : Transaction) : CostDuration :=
  SyntheticCost_max_time (SyntheticCost_add (application_cost self).1 (validation_cost model self)).
End application.

(** ** Costs and fees *)

Definition cost_from (params : LedgerParameters) (self : Transaction) (validation : SyntheticCost) (enforce_time_to_dismiss : bool)
  : result FeeCalculationError SyntheticCost :=
  let '(guaranteed_cost, app_cost) := application_cost (cost_model params) self in
  let cost_to_dismiss := SyntheticCost_add guaranteed_cost validation in
  let allowed := Z.max (CostDuration_mul (time_to_dismiss_per_byte (limits params)) (est_size self)) (min_time_to_dismiss (limits params)) in
  if enforce_time_to_dismiss && (allowed <? SyntheticCost_max_time cost_to_dismiss)
  then Err (OutsideTimeToDismiss (SyntheticCost_max_time cost_to_dismiss) allowed (est_size self))
  else Ok (SyntheticCost_add validation app_cost).

Definition tx_cost (self : Transaction) (params : LedgerParameters) (enforce_time_to_dismiss : bool)
  : result FeeCalculationError SyntheticCost :=
  cost_from params self (validation_cost (cost_model params) self) enforce_time_to_dismiss.

Definition cost_with_state (self : Transaction) (params : LedgerParameters) (ledger : LedgerState) (enforce_time_to_dismiss : bool)
  : result FeeCalculationError SyntheticCost :=
  cost_from params self (validation_cost_with_state (cost_model params) self ledger) enforce_time_to_dismiss.

Definition tx_fees_of (self : Transaction) (params : LedgerParameters) (enforce_time_to_dismiss : bool) : result FeeCalculationError Z :=
  synthetic ← tx_cost self params enforce_time_to_dismiss;
  fees (fee_prices params) (block_limits (limits params)) synthetic.

Definition fees_with_impl (self : Transaction) (params : LedgerParameters)
  (get_op : ContractAddress -> EntryPointBuf -> option ContractOperation) (enforce_time_to_dismiss : bool)
  : result FeeCalculationError Z :=
  let model := cost_model params in
  let validation := validation_cost_impl model self (fun address entry_point ver =>
    let vk := default VERIFIER_KEY_SIZE (op ← get_op address entry_point; op_vk_size op ver) in
    (cell_read model vk + map_index model EXPECTED_CONTRACT_DEPTH + map_index model EXPECTED_OPERATIONS_DEPTH)%rc) in
  synthetic ← cost_from params self validation enforce_time_to_dismiss;
  fees (fee_prices params) (block_limits (limits params)) synthetic.

(** The least reward that can be claimed: a multiple of the Night whose capacity
    for Dust would pay the claim's fee.  The claim is a phantom one. *)
Definition min_claimable_rewards (phantom : ClaimRewardsTransaction) (self : LedgerParameters) : Z :=
  match tx_cost (ClaimRewards phantom) self true with
  | Err _ => u_max 128
  | Ok synthetic_fee =>
      let real_dust_fee :=
        match normalize_cost synthetic_fee (block_limits (limits self)) with
        | Some norm => overall_cost (fee_prices self) norm
        | None => FP_MAX
        end in
      let night_dust_fp := from_u64_div (night_dust_ratio (dust_parameters self)) (SPECKS_PER_DUST / STARS_PER_NIGHT) in
      let night_to_pay_at_cap := FP_div real_dust_fee night_dust_fp in
      let min_night_fp := FP_mul night_to_pay_at_cap (block_withdrawal_minimum_multiple (limits self)) in
      into_atomic_units min_night_fp STARS_PER_NIGHT
  end.

(** ** System transactions *)

Definition system_tx_cost (self : SystemTransaction) (params : LedgerParameters) : SyntheticCost :=
  let model := cost_model params in
  let rt := runtime_cost_model model in
  let commitment_insert : list RunningCost :=
    [cell_read model 8 + cell_write 8 true;
     merkle_tree_insert_amortized model EXPECTED_UTXO_DEPTH false + cell_write fr_bytes false;
     RunningCost_compute (cm_transient_hash rt * FRESH_DUST_COMMITMENT_HASHES)%cost]%rc in
  let treasury_update : list RunningCost :=
    [cell_read model 16 + cell_write 16 true; map_index model EXPECTED_TOKEN_TYPE_DEPTH; map_insert EXPECTED_TOKEN_TYPE_DEPTH true]%rc in
  SyntheticCost_from
    match self with
    | OverwriteParameters new_params => cell_write (parameters_size new_params) true
    | DistributeNight _ outputs =>
        (sum_to RC_ZERO (replay_costs model ++ [map_insert EXPECTED_GENERATION_DEPTH false; cell_write 16 false] ++ commitment_insert)
         * zlen outputs)%rc
    | PayBlockRewardsToTreasury _ | UnlockToTreasury _ => sum_to RC_ZERO treasury_update
    | PayFromTreasuryShielded outputs _ _ =>
        let cost := sum_to RC_ZERO [RunningCost_compute (cm_transient_hash rt);
                                    merkle_tree_insert_amortized model (Z.of_nat ZSWAP_TREE_HEIGHT) false;
                                    map_insert EXPECTED_UTXO_DEPTH false + cell_write hash_bytes false]%rc in
        sum_to (cost * zlen outputs)%rc treasury_update
    | PayFromTreasuryUnshielded outputs _ =>
        let cost := sum_to RC_ZERO (replay_costs model ++ [map_insert EXPECTED_UTXO_DEPTH false; cell_write UTXO_SIZE false]) in
        sum_to (cost * zlen outputs)%rc (treasury_update ++ commitment_insert)
    | DistributeReserve _ | UnlockToReserve _ => ((cell_read model 16 + cell_write 16 true) * 2)%rc
    | CNightGeneratesDustUpdate events =>
        let creates := zlen (filter (fun e => cn_action e = Create) events) in
        let destroys := (zlen events - creates)%Z in
        let ccost := sum_to RC_ZERO
          ([map_index model EXPECTED_UTXO_DEPTH + cell_read model fr_bytes;
            cell_read model 8 + cell_write 8 true;
            merkle_tree_insert_amortized model 32 false + cell_write DUST_GENERATION_INFO_SIZE false;
            map_insert EXPECTED_UTXO_DEPTH false + cell_write 8 false]%rc ++ commitment_insert) in
        let dcost := sum_to RC_ZERO
          [map_index model EXPECTED_GENERATION_DEPTH; merkle_tree_index model EXPECTED_GENERATION_DEPTH;
           merkle_tree_insert_unamortized model 32 true] in
        (ccost * creates + dcost * destroys)%rc
    end.
End cost.
