(* ===== verification/Ledger.v ===== *)
(** * System transactions and claims ([ledger/src/semantics.rs])

    The supply of Night is fixed.  It sits in pools, in the treasury, in rewards
    and bridged amounts that have not been claimed, in unshielded outputs and in
    contracts.  The file models the check of the total, the system transactions
    that move Night between these places, the claims of users, the application of
    a shielded offer, and the update after a block.

    Sums of the check are those of a release build, which wraps; the amounts
    recorded with the maps are sums that saturate.  [debug_assert]s are left out. *)

From S2P Require Import Prelude Serialize MerkleTree Storage Cost DeltaTracking VmCost Fab OnchainVm ZswapMemo Repr Coins.
From S2P Require Import Runtime ZswapOffer ZswapLedger Intents Dust LedgerData TxCost.
From stdpp Require Import gmap strings sorting.

Local Open Scope Z_scope.

Section ledger.
Context `{P : Prims} {HS : Hashes} {CI : CostInputs}.
Local Abbreviation transient_hash2 := (fun a b => transient_hash [a; b]).
Local Abbreviation degrade := (degrade_to_transient modulus).

(** ** The supply of Night *)

(** [NightAnn] of a map, its value: a sum that saturates. *)
Definition ann_value {K V} `{Countable K} (value : K -> V -> Z) (m : gmap K V) : Z :=
  foldr (sat_add 128) 0 ((fun kv => value kv.1 kv.2) <$> map_to_list m).

Definition utxo_night (u : Utxo) (_ : UtxoMeta) : Z := if decide (utxo_type u = NIGHT) then utxo_value u else 0.
Definition contract_night (_ : ContractAddress) (c : ContractState) : Z := default 0 (balance c !! NIGHT_TOKEN).
Definition entry_night (_ : HashOutput) (v : Z) : Z := v.
Definition treasury_night (st : LedgerState) : Z := default 0 (treasury st !! NIGHT_TOKEN).

Definition check_night_balance_invariant (self : LedgerState) : result Z unit :=
  let total_night := wrap 128
    (ann_value utxo_night (utxos (ls_utxo self)) + locked_pool self + reserve_pool self + block_reward_pool self
     + treasury_night self + ann_value entry_night (unclaimed_block_rewards self)
     + ann_value entry_night (bridge_receiving self) + ann_value contract_night (contract self)) in
  if total_night =? MAX_SUPPLY then Ok tt else Err total_night.

(** The updates [LedgerState { field, ..self }]. *)
Definition with_parameters (st : LedgerState) p : LedgerState :=
  mkLedgerState (ls_network_id st) p (locked_pool st) (bridge_receiving st) (reserve_pool st) (block_reward_pool st)
    (unclaimed_block_rewards st) (treasury st) (zswap st) (contract st) (ls_utxo st) (replay_protection st) (dust st).
Definition with_pools (st : LedgerState) locked reserve rewards : LedgerState :=
  mkLedgerState (ls_network_id st) (parameters st) locked (bridge_receiving st) reserve rewards
    (unclaimed_block_rewards st) (treasury st) (zswap st) (contract st) (ls_utxo st) (replay_protection st) (dust st).
Definition with_claims (st : LedgerState) bridge rewards : LedgerState :=
  mkLedgerState (ls_network_id st) (parameters st) (locked_pool st) bridge (reserve_pool st) (block_reward_pool st)
    rewards (treasury st) (zswap st) (contract st) (ls_utxo st) (replay_protection st) (dust st).
Definition with_treasury (st : LedgerState) t : LedgerState :=
  mkLedgerState (ls_network_id st) (parameters st) (locked_pool st) (bridge_receiving st) (reserve_pool st) (block_reward_pool st)
    (unclaimed_block_rewards st) t (zswap st) (contract st) (ls_utxo st) (replay_protection st) (dust st).
Definition with_zswap (st : LedgerState) z : LedgerState :=
  mkLedgerState (ls_network_id st) (parameters st) (locked_pool st) (bridge_receiving st) (reserve_pool st) (block_reward_pool st)
    (unclaimed_block_rewards st) (treasury st) z (contract st) (ls_utxo st) (replay_protection st) (dust st).
Definition with_contract (st : LedgerState) c : LedgerState :=
  mkLedgerState (ls_network_id st) (parameters st) (locked_pool st) (bridge_receiving st) (reserve_pool st) (block_reward_pool st)
    (unclaimed_block_rewards st) (treasury st) (zswap st) c (ls_utxo st) (replay_protection st) (dust st).
Definition with_utxo (st : LedgerState) u : LedgerState :=
  mkLedgerState (ls_network_id st) (parameters st) (locked_pool st) (bridge_receiving st) (reserve_pool st) (block_reward_pool st)
    (unclaimed_block_rewards st) (treasury st) (zswap st) (contract st) u (replay_protection st) (dust st).
Definition with_replay (st : LedgerState) r : LedgerState :=
  mkLedgerState (ls_network_id st) (parameters st) (locked_pool st) (bridge_receiving st) (reserve_pool st) (block_reward_pool st)
    (unclaimed_block_rewards st) (treasury st) (zswap st) (contract st) (ls_utxo st) r (dust st).
Definition with_dust (st : LedgerState) d : LedgerState :=
  mkLedgerState (ls_network_id st) (parameters st) (locked_pool st) (bridge_receiving st) (reserve_pool st) (block_reward_pool st)
    (unclaimed_block_rewards st) (treasury st) (zswap st) (contract st) (ls_utxo st) (replay_protection st) d.

(** [with_genesis_settings] and [new]; the latter expects its state to be legal. *)
Definition with_genesis_settings (network_id : string) (params : LedgerParameters) (locked reserve treasury_ : Z)
  : result Z LedgerState :=
  let st := mkLedgerState network_id params locked ∅ reserve 0 ∅ {[NIGHT_TOKEN := treasury_]} State_default ∅
              (mkUtxoState ∅) ReplayProtectionState_new DustState_default in
  _ ← check_night_balance_invariant st;
  Ok st.

(** ** Shielded offers *)

(** The events of an offer: its inputs, then its outputs, the transients' last. *)
Definition zswap_input_events (offer : ZswapOffer) (source : EventSource) : outcome Empty_set (list Event) :=
  transients ← mapM (fun t => match Transient_as_input 0 transient_hash2 degrade t with Ret i => Ret i | _ => Panic end) (transient offer);
  Ret ((fun i => mkEvent source (ZswapInput (in_nullifier i) (in_contract_address i))) <$> (inputs offer ++ transients)).
Definition zswap_output_events (offer : ZswapOffer) (com_indices : gmap HashOutput Z) (source : EventSource)
  : outcome Empty_set (list Event) :=
  mapM (fun output : @Output Pedersen unit CoinCiphertext =>
    mt_index ← expect (com_indices !! out_coin_com output);
    Ret (mkEvent source (ZswapOutput (out_coin_com output)
           (match out_ciphertext output with Some ciph => EvCiphertext ciph | None => EvNone end)
           (out_contract_address output) mt_index)))
    (outputs offer ++ (Transient_as_output <$> transient offer)).

Definition no_fail {E A} (o : outcome Empty_set A) : outcome E A := match o with Ret a => Ret a | _ => Panic end.

Definition apply_zswap (self : LedgerState) (offer : ZswapOffer) (whitelist : whitelist_t) (transaction_hash : list Z)
  (segment : Z) : outcome LedgerInvalid (LedgerState * gmap HashOutput Z * list Event) :=
  '(new_zswap, com_indices) ← map_fail ZswapInvalid (State_try_apply 0 transient_hash2 degrade (zswap self) offer whitelist);
  let source := mkEventSource transaction_hash segment segment in
  inputs ← no_fail (zswap_input_events offer source);
  outputs ← no_fail (zswap_output_events offer com_indices source);
  mret (with_zswap self new_zswap, com_indices, inputs ++ outputs).

Definition native_issue_unbalanced (self : LedgerState) (target token_type nonce : HashOutput) (value : Z)
  (event_source : EventSource) : outcome SystemTransactionError (LedgerState * list Event) :=
  let coin := mkInfo nonce token_type value in
  let recipient := RecipientUser target in
  let cm := commitment persistent_hash coin recipient in
  let z := zswap self in
  if bool_decide (cm ∈ coin_coms_set z) then Fail (SystemCommitmentAlreadyPresent cm)
  else
    tree ← map_fail SystemMerkleTreeError (try_update_hash (coin_coms z) (first_free z) cm None);
    mret (with_zswap self (mkState tree ({[cm]} ∪ coin_coms_set z) (first_free z + 1) (nullifiers z) (past_roots z)),
          [mkEvent event_source (ZswapOutput cm (EvPublicPreimage coin recipient) None (first_free z))]).

(** ** System transactions *)

Definition basis_points_of (points val : Z) : result SystemTransactionError Z :=
  if 10000 <? points then Err (InvalidBasisPoints points)
  else Ok (val / 10000 * points + val mod 10000 * points / 10000).

Definition sys_replay (st : LedgerState) (hash : IntentHash) (tblock : Timestamp)
  : result TransactionApplicationError ReplayProtectionState :=
  apply_member (replay_protection st) hash (Timestamp_add_duration tblock (global_ttl (parameters st))) tblock (global_ttl (parameters st)).

Definition sys_checked (st : LedgerState) (events : list DeferredEvent)
  : outcome SystemTransactionError (LedgerState * list DeferredEvent) :=
  match check_night_balance_invariant st with Ok _ => Ret (st, events) | Err total => Fail (SystemNightBalance total) end.

(** One output of [DistributeNight]. *)
Definition distribute_one (kind : ClaimKind) (tblock : Timestamp) (st : LedgerState) (o : OutputInstructionUnshielded)
  : outcome SystemTransactionError LedgerState :=
  replay ← of_result (match sys_replay st (mk_intent_hash o NIGHT) tblock with
                      | Ok r => Ok r | Err e => Err (ReplayProtectionFailure e) end);
  match kind with
  | Reward =>
      let curr_value := default 0 (unclaimed_block_rewards st !! target_address o) in
      mret (with_replay (with_claims st (bridge_receiving st)
              (<[target_address o := sat_add 128 curr_value (oi_amount o)]> (unclaimed_block_rewards st))) replay)
  | CardanoBridge =>
      '(fees, post_fee_amount) ←
        (if oi_amount o <? c_to_m_bridge_min_amount (parameters st) then Ret (oi_amount o, 0)
         else fee ← of_result (basis_points_of (bridge_fee_basis_points (parameters st)) (oi_amount o));
              Ret (fee, wrap 128 (oi_amount o - fee)));
      let treasury_ := <[NIGHT_TOKEN := sat_add 128 (treasury_night st) fees]> (treasury st) in
      let curr_value := default 0 (bridge_receiving st !! target_address o) in
      mret (with_replay (with_claims (with_treasury st treasury_)
              (<[target_address o := sat_add 128 curr_value post_fee_amount]> (bridge_receiving st))
              (unclaimed_block_rewards st)) replay)
  end.

Fixpoint checked_sum (l : list Z) (acc : Z) : option Z :=
  match l with [] => Some acc | x :: l' => acc ← checked_add 128 acc x; checked_sum l' acc end.

Definition distribute_night (self : LedgerState) (kind : ClaimKind) (outputs : list OutputInstructionUnshielded)
  (tblock : Timestamp) : outcome SystemTransactionError (LedgerState * list DeferredEvent) :=
  let totals := (fun sum => match kind with Reward => (sum, 0) | CardanoBridge => (0, sum) end) <$>
                  checked_sum (oi_amount <$> outputs) 0 in
  let illegal := Fail (IllegalPayout (fst <$> totals) (block_reward_pool self) (snd <$> totals) (locked_pool self)) in
  match totals with
  | Some (claimed_total, bridged_total) =>
      if (claimed_total <=? block_reward_pool self) && (bridged_total <=? locked_pool self) then
        let st := with_pools self (locked_pool self - bridged_total) (reserve_pool self) (block_reward_pool self - claimed_total) in
        st ← try_fold_o (distribute_one kind tblock) st outputs;
        sys_checked st []
      else illegal
  | None => illegal
  end.

(** One event of [CNightGeneratesDustUpdate]. *)
Definition cnight_one (source : EventSource) (tblock : Timestamp) (acc : DustState * list DeferredEvent)
  (action : CNightGeneratesDustEvent) : outcome SystemTransactionError (DustState * list DeferredEvent) :=
  match cn_action action with
  | Create =>
      '(dust_state, events) ← map_fail SystemDustError
         (fresh_dust_output modulus transient_hash acc.1 (cn_nonce action) 0 (cn_value action) (cn_owner action) (cn_time action) tblock);
      mret (dust_state, acc.2 ++ (deferred_dust source <$> events))
  | Destroy =>
      '(dust_state, events) ← map_fail SystemMerkleTreeError
         (cnight_destroy modulus transient_hash acc.1 (cn_nonce action) (cn_time action) tblock);
      mret (dust_state, acc.2 ++ (deferred_dust source <$> events))
  end.

Definition to_treasury (self st : LedgerState) (amount : Z) : outcome SystemTransactionError (LedgerState * list DeferredEvent) :=
  sys_checked (with_treasury st (<[NIGHT_TOKEN := sat_add 128 (treasury_night self) amount]> (treasury self))) [].

Definition apply_system_tx (self : LedgerState) (tx : SystemTransaction) (tblock : Timestamp)
  : outcome SystemTransactionError (LedgerState * list DeferredEvent) :=
  let source := mkEventSource (system_tx_hash tx) 0 0 in
  match tx with
  | OverwriteParameters new_params =>
      if 10000 <? bridge_fee_basis_points new_params then Fail (InvalidBasisPoints (bridge_fee_basis_points new_params))
      else Ret (with_parameters self new_params, [Ret (mkEvent source (ParamChange new_params))])
  | DistributeNight kind outputs => distribute_night self kind outputs tblock
  | PayBlockRewardsToTreasury amount =>
      if block_reward_pool self <? amount then Fail (IllegalPayout (Some amount) (block_reward_pool self) None (locked_pool self))
      else to_treasury self (with_pools self (locked_pool self) (reserve_pool self) (block_reward_pool self - amount)) amount
  | UnlockToTreasury amount =>
      if locked_pool self <? amount then Fail (IllegalPayout None (block_reward_pool self) (Some amount) (locked_pool self))
      else to_treasury self (with_pools self (locked_pool self - amount) (reserve_pool self) (block_reward_pool self)) amount
  | PayFromTreasuryShielded _ _ _ | PayFromTreasuryUnshielded _ _ => Fail TreasuryDisabled
  | CNightGeneratesDustUpdate actions =>
      '(dust_state, events) ← try_fold_o (cnight_one source tblock) (dust self, []) actions;
      Ret (with_dust self dust_state, events)
  | DistributeReserve amount =>
      if reserve_pool self <? amount then Fail (IllegalReserveDistribution amount (reserve_pool self))
      else sys_checked (with_pools self (locked_pool self) (reserve_pool self - amount) (wrap 128 (block_reward_pool self + amount))) []
  | UnlockToReserve amount =>
      if locked_pool self <? amount then Fail (IllegalPayout None (block_reward_pool self) (Some amount) (locked_pool self))
      else sys_checked (with_pools self (locked_pool self - amount) (wrap 128 (reserve_pool self + amount)) (block_reward_pool self)) []
  end.

(** ** Claims *)

(** The claimed output starts to generate Dust when its owner has registered. *)
Definition claim_dust (state : LedgerState) (address : HashOutput) (hash : IntentHash) (value : Z) (tblock : Timestamp)
  (event_source : EventSource) : outcome LedgerInvalid (LedgerState * list DeferredEvent) :=
  match address_delegation (generation (dust state)) !! address with
  | None => Ret (state, [])
  | Some dust_addr =>
      '(new_dust, events) ← map_fail (fun e => DustPartInvalid (DustStateInvalid e))
         (fresh_dust_output modulus transient_hash (dust state) (initial_nonce persistent_hash 0 hash) 0 value dust_addr tblock tblock);
      mret (with_dust state new_dust, map (deferred_dust event_source) events)
  end.

(** [claim_unshielded].  A claim that fails leaves the state as it was. *)
Definition claim_unshielded (phantom : ClaimRewardsTransaction) (state : LedgerState) (tx : ClaimRewardsTransaction)
  (context : BlockContext) (event_source : EventSource) : outcome LedgerInvalid (LedgerState * list DeferredEvent) :=
  let address := user_address (claim_owner tx) in
  let claims := match claim_kind tx with CardanoBridge => bridge_receiving state | Reward => unclaimed_block_rewards state end in
  let claimable := default 0 (claims !! address) in
  if claimable <? claim_value tx then
    Fail (InsufficientClaimable (claim_value tx) claimable address (claim_kind tx))
  else if bool_decide (claim_kind tx = Reward) && (claim_value tx <? min_claimable_rewards phantom (parameters state)) then
    Fail (RewardTooSmall (claim_value tx) (min_claimable_rewards phantom (parameters state)))
  else
    let remaining := claimable - claim_value tx in
    let claims := if remaining =? 0 then delete address claims else <[address := remaining]> claims in
    let hash := mk_intent_hash (mkOutputInstruction (claim_value tx) address (claim_nonce tx)) NIGHT in
    replay ← of_result (match sys_replay state hash (bc_tblock context) with
                        | Ok r => Ok r | Err e => Err (ReplayProtectionViolation e) end);
    let output := mkUtxo (claim_value tx) address NIGHT hash 0 in
    let state := with_replay (with_utxo state (UtxoState_insert (ls_utxo state) output (mkUtxoMeta (bc_tblock context)))) replay in
    let state := match claim_kind tx with
                 | CardanoBridge => with_claims state claims (unclaimed_block_rewards state)
                 | Reward => with_claims state (bridge_receiving state) claims
                 end in
    '(state, events) ← claim_dust state address hash (utxo_value output) (bc_tblock context) event_source;
    match check_night_balance_invariant state with
    | Ok _ => Ret (state, events)
    | Err total => Fail (NightBalance total)
    end.

(** ** After a block *)

Definition apply_post_block_update (self : LedgerState) (tblock : Timestamp) (detailed_block_fullness : NormalizedCost)
  (overall_block_fullness : FixedPoint) : outcome InvalidUpdate LedgerState :=
  let p := parameters self in
  let prices := post_block_prices (fee_prices p) (min_block_price p) (cost_dimension_min_ratio p) (price_adjustment_a_parameter p)
                  detailed_block_fullness overall_block_fullness in
  let st := with_parameters self
    (mkLedgerParameters (cost_model p) (limits p) (dust_parameters p) prices (global_ttl p) (cost_dimension_min_ratio p)
       (price_adjustment_a_parameter p) (bridge_fee_basis_points p) (c_to_m_bridge_min_amount p) (min_block_price p)) in
  let st := with_replay st (replay_post_block_update (replay_protection st) tblock) in
  z ← post_block_update 0 transient_hash2 degrade (zswap st) tblock (global_ttl p);
  d ← dust_post_block_update modulus transient_hash (dust st) tblock (global_ttl p);
  Ret (with_dust (with_zswap st z) d).

Definition ledger_post_block_update (self : LedgerState) (tblock : Timestamp) (detailed_block_fullness : NormalizedCost)
  (overall_block_fullness : FixedPoint) : outcome (unit + InvalidUpdate) LedgerState :=
  match prevalidate_post_block_update detailed_block_fullness overall_block_fullness with
  | Err _ => Fail (inl tt)
  | Ok _ => map_fail inr (apply_post_block_update self tblock detailed_block_fullness overall_block_fullness)
  end.
End ledger.
