(* ===== verification/Supply.v ===== *)
(** * The supply of Night is conserved

    Every Night is in exactly one place, and the places add up to the supply.
    System transactions and claims move Night between places; the check of the
    total that follows them never fails. *)

From S2P Require Import Prelude Serialize MerkleTree Storage Cost DeltaTracking VmCost Fab OnchainVm ZswapMemo Repr Coins.
From S2P Require Import Runtime ZswapOffer ZswapLedger Intents Dust LedgerData TxCost Ledger.
From stdpp Require Import gmap strings sorting.

Local Open Scope Z_scope.

(** ** Sums over maps *)

Section sums.
Context {K V : Type} `{Countable K} (f : K -> V -> Z).
Implicit Types m : gmap K V.

Definition night_sum m : Z := foldr Z.add 0 ((fun kv => f kv.1 kv.2) <$> map_to_list m).
Definition entry_of m k : Z := from_option (f k) 0 (m !! k).

Lemma night_sum_fresh m k v : m !! k = None -> night_sum (<[k := v]> m) = f k v + night_sum m.
Proof. intros Hk. unfold night_sum. by rewrite map_to_list_insert. Qed.

Lemma night_sum_delete m k : night_sum (delete k m) = night_sum m - entry_of m k.
Proof.
  unfold entry_of. destruct (m !! k) as [v|] eqn:E; cbn [from_option]; [|rewrite delete_id by done; lia].
  rewrite <- (insert_delete_id m k v E) at 2. rewrite night_sum_fresh by apply lookup_delete_eq. lia.
Qed.

Lemma night_sum_insert m k v : night_sum (<[k := v]> m) = night_sum m - entry_of m k + f k v.
Proof. rewrite <- insert_delete_eq, night_sum_fresh by apply lookup_delete_eq. rewrite night_sum_delete. lia. Qed.

Definition nonneg m : Prop := map_Forall (fun k v => 0 <= f k v) m.

Lemma night_sum_nonneg m : nonneg m -> 0 <= night_sum m.
Proof.
  intros Hm. unfold night_sum. assert (Hl : Forall (fun kv => 0 <= f kv.1 kv.2) (map_to_list m)).
  { apply Forall_forall. intros [k v] Hk. apply elem_of_map_to_list in Hk. apply (Hm _ _ Hk). }
  clear Hm. induction Hl; cbn; lia.
Qed.

Lemma entry_nonneg m k : nonneg m -> 0 <= entry_of m k.
Proof. intros Hm. unfold entry_of. destruct (m !! k) as [v|] eqn:E; cbn; [by apply Hm|lia]. Qed.

Lemma entry_le_sum m k : nonneg m -> entry_of m k <= night_sum m.
Proof.
  intros Hm. pose proof (night_sum_delete m k) as E. assert (0 <= night_sum (delete k m)); [|lia].
  apply night_sum_nonneg. by apply map_Forall_delete.
Qed.

(** What a map records of its entries is their sum, as long as it fits. *)
Lemma ann_value_exact m : nonneg m -> night_sum m <= u_max 128 -> ann_value f m = night_sum m.
Proof.
  intros Hm. unfold night_sum, ann_value. assert (Hl : Forall (fun kv => 0 <= f kv.1 kv.2) (map_to_list m)).
  { apply Forall_forall. intros [k v] Hk. apply elem_of_map_to_list in Hk. apply (Hm _ _ Hk). }
  clear Hm. induction Hl as [|kv l Hx Hl IH]; [done|]. cbn [fmap list_fmap foldr]. intros Hs.
  assert (0 <= foldr Z.add 0 ((fun kv => f kv.1 kv.2) <$> l)) by (clear -Hl; induction Hl; cbn; lia).
  rewrite IH by lia. unfold sat_add. lia.
Qed.
End sums.

#[export] Hint Resolve map_Forall_insert_2 map_Forall_delete : midnight.

Section supply.
Context `{PR : Prims} {HS : Hashes} {CI : CostInputs}.
Implicit Types st : LedgerState.

(** All Night there is. *)
Definition night_total st : Z :=
  night_sum utxo_night (utxos (ls_utxo st)) + locked_pool st + reserve_pool st + block_reward_pool st
  + treasury_night st + night_sum entry_night (unclaimed_block_rewards st)
  + night_sum entry_night (bridge_receiving st) + night_sum contract_night (contract st).

Record amounts_ok st : Prop := {
  ao_utxo : nonneg utxo_night (utxos (ls_utxo st));
  ao_locked : 0 <= locked_pool st;
  ao_reserve : 0 <= reserve_pool st;
  ao_rewards : 0 <= block_reward_pool st;
  ao_treasury : 0 <= treasury_night st;
  ao_unclaimed : nonneg entry_night (unclaimed_block_rewards st);
  ao_bridge : nonneg entry_night (bridge_receiving st);
  ao_contract : nonneg contract_night (contract st)
}.

(** A state in order: amounts are not negative, and add up to the supply. *)
Definition Supply_ok st : Prop := amounts_ok st /\ night_total st = MAX_SUPPLY.

Lemma MAX_SUPPLY_small : 0 < MAX_SUPPLY < 2 ^ 100.
Proof. vm_compute. done. Qed.

Lemma parts_bounded st : amounts_ok st -> night_total st < 2 ^ 127 ->
  0 <= night_sum utxo_night (utxos (ls_utxo st)) < 2 ^ 127 /\ locked_pool st < 2 ^ 127 /\ reserve_pool st < 2 ^ 127 /\
  block_reward_pool st < 2 ^ 127 /\ treasury_night st < 2 ^ 127 /\
  0 <= night_sum entry_night (unclaimed_block_rewards st) < 2 ^ 127 /\
  0 <= night_sum entry_night (bridge_receiving st) < 2 ^ 127 /\ 0 <= night_sum contract_night (contract st) < 2 ^ 127.
Proof.
  intros [H1 H2 H3 H4 H5 H6 H7 H8] Ht. unfold night_total in Ht.
  pose proof (night_sum_nonneg _ _ H1). pose proof (night_sum_nonneg _ _ H6).
  pose proof (night_sum_nonneg _ _ H7). pose proof (night_sum_nonneg _ _ H8). lia.
Qed.

(** The check decides the total. *)
Lemma check_exact st : amounts_ok st -> night_total st < 2 ^ 127 ->
  check_night_balance_invariant st = if night_total st =? MAX_SUPPLY then Ok tt else Err (night_total st).
Proof.
  intros Ha Ht. destruct (parts_bounded st Ha Ht) as (B1 & B2 & B3 & B4 & B5 & B6 & B7 & B8). destruct Ha as [H1 H2 H3 H4 H5 H6 H7 H8].
  unfold check_night_balance_invariant.
  rewrite !ann_value_exact by (done || (unfold u_max; lia)). fold (night_total st). cbv zeta.
  replace (wrap 128 (night_total st)) with (night_total st); [done|]. unfold wrap. rewrite Z.mod_small; [done|].
  unfold night_total in *. lia.
Qed.

Lemma Supply_checked st : Supply_ok st -> check_night_balance_invariant st = Ok tt.
Proof.
  intros [Ha Ht]. pose proof MAX_SUPPLY_small. rewrite check_exact by (done || lia). by rewrite Ht, Z.eqb_refl.
Qed.

Lemma sys_checked_ok st events : Supply_ok st -> sys_checked st events = Ret (st, events).
Proof. intros Hs. unfold sys_checked. by rewrite Supply_checked. Qed.

(** ** Fees of the bridge *)

(** The fee is the given share of the amount, rounded down. *)
Lemma basis_points_exact points val : 0 <= points <= 10000 -> 0 <= val ->
  basis_points_of points val = Ok (val * points / 10000) /\ 0 <= val * points / 10000 <= val.
Proof.
  intros Hp Hv. unfold basis_points_of. destruct (Z.ltb_spec 10000 points); [lia|]. split.
  - f_equal. rewrite (Z.div_mod val 10000) at 3 by lia. rewrite Z.mul_add_distr_r.
    replace (10000 * (val / 10000) * points) with (val / 10000 * points * 10000) by lia.
    rewrite Z.div_add_l by lia. done.
  - split; [apply Z.div_pos; nia|]. apply Z.div_le_upper_bound; nia.
Qed.

(** ** Moving Night *)

(** Part of the supply has left its place and is still to be put somewhere. *)
Definition Owed st (left : Z) : Prop := amounts_ok st /\ night_total st + left = MAX_SUPPLY.

Lemma Owed_zero st : Owed st 0 <-> Supply_ok st.
Proof. unfold Owed, Supply_ok. by rewrite Z.add_0_r. Qed.

(** An amount that is still owed fits wherever it is put. *)
Lemma Owed_room st left : Owed st left -> 0 <= left -> night_total st <= MAX_SUPPLY /\ night_total st < 2 ^ 127 /\ left <= MAX_SUPPLY.
Proof.
  intros [Ha Ht] Hl. pose proof MAX_SUPPLY_small. destruct Ha as [H1 H2 H3 H4 H5 H6 H7 H8]. unfold night_total in *.
  pose proof (night_sum_nonneg _ _ H1). pose proof (night_sum_nonneg _ _ H6).
  pose proof (night_sum_nonneg _ _ H7). pose proof (night_sum_nonneg _ _ H8). lia.
Qed.

Lemma sat_add_owed st left x part : Owed st left -> 0 <= x <= left -> 0 <= part <= night_total st -> sat_add 128 part x = part + x.
Proof.
  intros Ho Hx Hp. destruct (Owed_room st left Ho) as (H1 & H2 & H3); [lia|]. pose proof MAX_SUPPLY_small.
  destruct Ho as [_ Ht]. unfold sat_add, u_max. lia.
Qed.

(** Each part is at most the whole. *)
Lemma part_le_total st : amounts_ok st ->
  treasury_night st <= night_total st /\
  (forall k, entry_of entry_night (unclaimed_block_rewards st) k <= night_total st) /\
  (forall k, entry_of entry_night (bridge_receiving st) k <= night_total st).
Proof.
  intros [H1 H2 H3 H4 H5 H6 H7 H8]. pose proof (night_sum_nonneg _ _ H1). pose proof (night_sum_nonneg _ _ H6).
  pose proof (night_sum_nonneg _ _ H7). pose proof (night_sum_nonneg _ _ H8). unfold night_total.
  split_and!; [lia|intros k; pose proof (entry_le_sum _ _ k H6); lia|intros k; pose proof (entry_le_sum _ _ k H7); lia].
Qed.

Lemma entry_night_eq k v : entry_night k v = v.
Proof. done. Qed.

Lemma default_entry (m : gmap HashOutput Z) k : default 0 (m !! k) = entry_of entry_night m k.
Proof. unfold entry_of, entry_night. by destruct (m !! k). Qed.

(** Adding to a reward, to a bridged amount, to the treasury. *)
Lemma Owed_reward st left k x : Owed st left -> 0 <= x <= left ->
  Owed (with_claims st (bridge_receiving st)
          (<[k := sat_add 128 (default 0 (unclaimed_block_rewards st !! k)) x]> (unclaimed_block_rewards st))) (left - x).
Proof.
  intros Ho Hx. destruct (part_le_total st (proj1 Ho)) as (_ & Hp & _). pose proof (entry_nonneg _ _ k (ao_unclaimed _ (proj1 Ho))) as Hn.
  rewrite default_entry, (sat_add_owed st left x) by (first [done | split; [done | apply Hp]]). destruct Ho as [[H1 H2 H3 H4 H5 H6 H7 H8] Ht].
  split.
  - split; try done. cbn. apply map_Forall_insert_2; [|done]. rewrite entry_night_eq. lia.
  - unfold night_total in *. cbn [ls_utxo locked_pool reserve_pool block_reward_pool unclaimed_block_rewards bridge_receiving contract with_claims].
    unfold treasury_night in *. cbn [treasury with_claims]. rewrite night_sum_insert. rewrite entry_night_eq. lia.
Qed.
Lemma Owed_bridge st left k x : Owed st left -> 0 <= x <= left ->
  Owed (with_claims st (<[k := sat_add 128 (default 0 (bridge_receiving st !! k)) x]> (bridge_receiving st))
          (unclaimed_block_rewards st)) (left - x).
Proof.
  intros Ho Hx. destruct (part_le_total st (proj1 Ho)) as (_ & _ & Hp). pose proof (entry_nonneg _ _ k (ao_bridge _ (proj1 Ho))) as Hn.
  rewrite default_entry, (sat_add_owed st left x) by (first [done | split; [done | apply Hp]]). destruct Ho as [[H1 H2 H3 H4 H5 H6 H7 H8] Ht].
  split.
  - split; try done. cbn. apply map_Forall_insert_2; [|done]. rewrite entry_night_eq. lia.
  - unfold night_total in *. cbn [ls_utxo locked_pool reserve_pool block_reward_pool unclaimed_block_rewards bridge_receiving contract with_claims].
    unfold treasury_night in *. cbn [treasury with_claims]. rewrite night_sum_insert. rewrite entry_night_eq. lia.
Qed.
Lemma Owed_treasury st left x : Owed st left -> 0 <= x <= left ->
  Owed (with_treasury st (<[NIGHT_TOKEN := sat_add 128 (treasury_night st) x]> (treasury st))) (left - x).
Proof.
  intros Ho Hx. destruct (part_le_total st (proj1 Ho)) as (Hp & _ & _). pose proof (ao_treasury _ (proj1 Ho)) as Hn.
  rewrite (sat_add_owed st left x) by (first [done | split; done]). destruct Ho as [[H1 H2 H3 H4 H5 H6 H7 H8] Ht].
  assert (Et : treasury_night (with_treasury st (<[NIGHT_TOKEN := treasury_night st + x]> (treasury st))) = treasury_night st + x)
    by (unfold treasury_night at 1; cbn [treasury with_treasury]; by rewrite lookup_insert_eq).
  split; [split; try done; rewrite Et; lia|]. unfold night_total in *. rewrite Et.
  cbn [ls_utxo locked_pool reserve_pool block_reward_pool unclaimed_block_rewards bridge_receiving contract with_treasury]. lia.
Qed.
Lemma Owed_replay st left r : Owed (with_replay st r) left <-> Owed st left.
Proof. split; intros [[H1 H2 H3 H4 H5 H6 H7 H8] Ht]; (split; [by split|exact Ht]). Qed.
Lemma Owed_dust st left d : Owed (with_dust st d) left <-> Owed st left.
Proof. split; intros [[H1 H2 H3 H4 H5 H6 H7 H8] Ht]; (split; [by split|exact Ht]). Qed.
Lemma Owed_parameters st left p : Owed (with_parameters st p) left <-> Owed st left.
Proof. split; intros [[H1 H2 H3 H4 H5 H6 H7 H8] Ht]; (split; [by split|exact Ht]). Qed.
Lemma Owed_zswap st left z : Owed (with_zswap st z) left <-> Owed st left.
Proof. split; intros [[H1 H2 H3 H4 H5 H6 H7 H8] Ht]; (split; [by split|exact Ht]). Qed.
Lemma Owed_pools st left l r b : Owed st left -> 0 <= l -> 0 <= r -> 0 <= b ->
  Owed (with_pools st l r b) (left + (locked_pool st - l) + (reserve_pool st - r) + (block_reward_pool st - b)).
Proof.
  intros [[H1 H2 H3 H4 H5 H6 H7 H8] Ht] Hl Hr Hb. split; [by split|]. unfold night_total in *. unfold treasury_night in *.
  cbn [ls_utxo locked_pool reserve_pool block_reward_pool unclaimed_block_rewards bridge_receiving contract treasury with_pools]. lia.
Qed.

(** ** System transactions *)

Definition parameters_ok (p : LedgerParameters) : Prop := 0 <= bridge_fee_basis_points p <= 10000.

Lemma distribute_one_owed kind tblock st o left :
  Owed st (oi_amount o + left) -> 0 <= oi_amount o -> 0 <= left -> parameters_ok (parameters st) ->
  match distribute_one kind tblock st o with
  | Ret st' => Owed st' left /\ parameters st' = parameters st
  | Fail (SystemNightBalance _) => False
  | _ => True
  end.
Proof.
  intros Ho Ha Hl Hp. unfold distribute_one. destruct (sys_replay st _ _) as [r|e]; [|done]. cbn [of_result mbind outcome_bind].
  destruct kind.
  - split; [|done]. apply Owed_replay. replace left with (oi_amount o + left - oi_amount o) by lia. apply Owed_reward; [done|lia].
  - assert (Hsplit : exists fee rest, 0 <= fee /\ 0 <= rest /\ fee + rest = oi_amount o /\
      (if oi_amount o <? c_to_m_bridge_min_amount (parameters st) then Ret (oi_amount o, 0)
       else fee ← of_result (basis_points_of (bridge_fee_basis_points (parameters st)) (oi_amount o));
            Ret (fee, wrap 128 (oi_amount o - fee))) = (Ret (fee, rest) : outcome SystemTransactionError (Z * Z))).
    { destruct (_ <? _); [exists (oi_amount o), 0; split_and!; [lia|lia|lia|done]|].
      destruct (basis_points_exact _ _ Hp Ha) as [-> Hf]. set (fee := _ / 10000) in *.
      exists fee, (oi_amount o - fee). split_and!; [lia|lia|lia|]. cbn. do 2 f_equal. unfold wrap. rewrite Z.mod_small; [done|].
      destruct (Owed_room st _ Ho) as (_ & _ & Hr); [lia|]. pose proof MAX_SUPPLY_small. lia. }
    destruct Hsplit as (fee & rest & Hf & Hr & Hs & ->). cbn [mbind outcome_bind]. split; [|done]. apply Owed_replay.
    assert (H1 : Owed (with_treasury st (<[NIGHT_TOKEN := sat_add 128 (treasury_night st) fee]> (treasury st))) (rest + left)).
    { replace (rest + left) with (oi_amount o + left - fee) by lia. apply Owed_treasury; [done|lia]. }
    replace left with (rest + left - rest) by lia. apply (Owed_bridge _ _ (target_address o) rest H1). lia.
Qed.

Lemma distribute_all_owed kind tblock l : forall st left,
  Owed st (foldr Z.add 0 (oi_amount <$> l) + left) -> Forall (fun o => 0 <= oi_amount o) l -> 0 <= left -> parameters_ok (parameters st) ->
  match try_fold_o (distribute_one kind tblock) st l with
  | Ret st' => Owed st' left /\ parameters st' = parameters st
  | Fail (SystemNightBalance _) => False
  | _ => True
  end.
Proof.
  induction l as [|o l IH]; intros st left Ho Hl Hleft Hp; cbn [try_fold_o]; [done|]. apply Forall_cons in Hl as [Ha Hl].
  cbn [fmap list_fmap foldr] in Ho. assert (0 <= foldr Z.add 0 (oi_amount <$> l)) by (clear -Hl; induction Hl; cbn; lia).
  pose proof (distribute_one_owed kind tblock st o (foldr Z.add 0 (oi_amount <$> l) + left)) as H1.
  rewrite Z.add_assoc in H1. specialize (H1 Ho Ha ltac:(lia) Hp).
  destruct (distribute_one kind tblock st o) as [st'|[]|]; try done. destruct H1 as [H1 E1].
  specialize (IH st' left H1 Hl Hleft). rewrite E1 in IH. specialize (IH Hp). cbn [mbind outcome_bind].
  destruct (try_fold_o _ st' l) as [st2|[]|]; done.
Qed.

Lemma checked_sum_exact l : forall acc s, checked_sum l acc = Some s -> s = acc + foldr Z.add 0 l.
Proof.
  induction l as [|x l IH]; intros acc s; cbn; [intros [= <-]; lia|]. unfold checked_add.
  destruct (_ <=? _); cbn; [|done]. intros E%IH. lia.
Qed.

(** Amounts of a system transaction are not negative. *)
Definition system_tx_ok (tx : SystemTransaction) : Prop :=
  match tx with
  | DistributeNight _ outputs => Forall (fun o => 0 <= oi_amount o) outputs
  | PayBlockRewardsToTreasury x | UnlockToTreasury x | DistributeReserve x | UnlockToReserve x => 0 <= x
  | OverwriteParameters p => 0 <= bridge_fee_basis_points p
  | _ => True
  end.

(** The new state of a payout to the treasury. *)
Lemma to_treasury_ok st st1 x : Owed st1 x -> 0 <= x -> treasury st1 = treasury st ->
  exists st', to_treasury st st1 x = Ret (st', []) /\ Supply_ok st' /\ parameters st' = parameters st1.
Proof.
  intros Ho Hx Et. pose proof (Owed_treasury st1 x x Ho ltac:(lia)) as H1. rewrite Z.sub_diag in H1. apply Owed_zero in H1.
  unfold to_treasury. assert (E : treasury_night st1 = treasury_night st) by (unfold treasury_night; by rewrite Et).
  rewrite Et, E in H1. rewrite sys_checked_ok by done. eauto.
Qed.

Lemma wrap_small x : 0 <= x < 2 ^ 128 -> wrap 128 x = x.
Proof. intros Hx. unfold wrap. by apply Z.mod_small. Qed.

Lemma Owed_pools_to st left l r b : Owed st 0 -> 0 <= l -> 0 <= r -> 0 <= b ->
  left = locked_pool st - l + (reserve_pool st - r) + (block_reward_pool st - b) -> Owed (with_pools st l r b) left.
Proof. intros Ho Hl Hr Hb ->. pose proof (Owed_pools st 0 l r b Ho Hl Hr Hb) as H1. by rewrite Z.add_0_l in H1. Qed.

Lemma distribute_night_ok st kind outputs tblock :
  Supply_ok st -> parameters_ok (parameters st) -> Forall (fun o => 0 <= oi_amount o) outputs ->
  match distribute_night st kind outputs tblock with
  | Ret (st', _) => Supply_ok st' /\ parameters_ok (parameters st')
  | Fail (SystemNightBalance _) => False
  | _ => True
  end.
Proof.
  intros Hs Hp Hl. pose proof (proj2 (Owed_zero st) Hs) as Ho. pose proof Hs as [Ha _].
  unfold distribute_night. destruct (checked_sum _ 0) as [s|] eqn:Es; cbn [fmap option_fmap option_map]; [|done].
  apply checked_sum_exact in Es. rewrite Z.add_0_l in Es.
  assert (0 <= s) by (rewrite Es; clear -Hl; induction Hl; cbn; lia).
  destruct (match kind with Reward => (s, 0) | CardanoBridge => (0, s) end) as [c b] eqn:Ek.
  assert (Hcb : 0 <= c /\ 0 <= b /\ c + b = s) by (destruct kind; injection Ek as <- <-; lia).
  destruct (Z.leb_spec c (block_reward_pool st)), (Z.leb_spec b (locked_pool st)); cbn [andb]; try done.
  pose proof (distribute_all_owed kind tblock outputs
    (with_pools st (locked_pool st - b) (reserve_pool st) (block_reward_pool st - c)) 0) as H2.
  rewrite <- Es in H2. pose proof (ao_reserve _ Ha). specialize (H2 ltac:(apply Owed_pools_to; done || lia) Hl ltac:(lia) Hp).
  destruct (try_fold_o _ _ _) as [st'|[]|]; try done. destruct H2 as [H2 Ep]. apply Owed_zero in H2.
  cbn [mbind outcome_bind]. rewrite sys_checked_ok by done. split; [done|]. by rewrite Ep.
Qed.

(** Updates of Dust do not check the total. *)
Lemma cnight_error source tblock l : forall acc e,
  try_fold_o (cnight_one source tblock) acc l = Fail e -> match e with SystemNightBalance _ => False | _ => True end.
Proof.
  induction l as [|a l IH]; intros acc e; cbn [try_fold_o]; [done|].
  destruct (cnight_one source tblock acc a) as [acc'|e'|] eqn:E; cbn [mbind outcome_bind]; [apply IH| |done]. intros [= <-].
  unfold cnight_one in E. destruct (cn_action a).
  - destruct (fresh_dust_output _ _ _ _ _ _ _ _ _) as [[d ev]|e0|]; cbn in E; [done|by injection E as <-|done].
  - destruct (cnight_destroy _ _ _ _ _ _) as [[d ev]|e0|]; cbn in E; [done|by injection E as <-|done].
Qed.

(** C5. System transactions conserve Night.  Applied to a state whose places add up to
    the supply, a system transaction is rejected for other reasons or leads to a
    state whose places add up to the supply again; the check of the total is
    never why it is rejected, and the parameters keep a valid bridge fee. *)
Theorem system_tx_conserves st tx tblock :
  Supply_ok st -> parameters_ok (parameters st) -> system_tx_ok tx ->
  match apply_system_tx st tx tblock with
  | Ret (st', _) => Supply_ok st' /\ parameters_ok (parameters st')
  | Fail (SystemNightBalance _) => False
  | _ => True
  end.
Proof.
  intros Hs Hp Htx. pose proof (proj2 (Owed_zero st) Hs) as Ho. pose proof Hs as [Ha Ht]. pose proof MAX_SUPPLY_small as HM.
  destruct (Owed_room st 0 Ho) as (_ & Hroom & _); [lia|]. destruct (parts_bounded st Ha Hroom) as (_ & B2 & B3 & B4 & _).
  pose proof (ao_locked _ Ha). pose proof (ao_reserve _ Ha). pose proof (ao_rewards _ Ha).
  destruct tx; cbn [apply_system_tx system_tx_ok] in *; try done.
  - destruct (Z.ltb_spec 10000 (bridge_fee_basis_points new_params)); [done|]. split; [|split; done].
    apply Owed_zero. by apply Owed_parameters.
  - by apply distribute_night_ok.
  - destruct (Z.ltb_spec (block_reward_pool st) amount); [done|].
    destruct (to_treasury_ok st (with_pools st (locked_pool st) (reserve_pool st) (block_reward_pool st - amount)) amount)
      as (st' & -> & Hs' & ->); [by apply Owed_pools_to; try lia|done|done|done].
  - destruct (Z.ltb_spec (reserve_pool st) amount); [done|]. rewrite wrap_small by lia.
    rewrite sys_checked_ok; [split; [|done]|]; apply Owed_zero; apply Owed_pools_to; try done; lia.
  - destruct (try_fold_o _ _ _) as [[d ev]|e|] eqn:E; [|by eapply cnight_error in E|done]. split; [|done].
    apply Owed_zero. by apply Owed_dust.
  - destruct (Z.ltb_spec (locked_pool st) amount); [done|].
    destruct (to_treasury_ok st (with_pools st (locked_pool st - amount) (reserve_pool st) (block_reward_pool st)) amount)
      as (st' & -> & Hs' & ->); [by apply Owed_pools_to; try lia|done|done|done].
  - destruct (Z.ltb_spec (locked_pool st) amount); [done|]. rewrite wrap_small by lia.
    rewrite sys_checked_ok; [split; [|done]|]; apply Owed_zero; apply Owed_pools_to; try done; lia.
Qed.

(** ** Claims *)

Definition claimable st (tx : ClaimRewardsTransaction) : Z :=
  entry_of entry_night (match claim_kind tx with CardanoBridge => bridge_receiving st | Reward => unclaimed_block_rewards st end)
    (user_address (claim_owner tx)).

(** The output a claim creates. *)
Definition claim_utxo (tx : ClaimRewardsTransaction) : Utxo :=
  let address := user_address (claim_owner tx) in
  mkUtxo (claim_value tx) address NIGHT (mk_intent_hash (mkOutputInstruction (claim_value tx) address (claim_nonce tx)) NIGHT) 0.

(** The state with the output, and the claim that is left. *)
Definition claimed_state st (tx : ClaimRewardsTransaction) (t : Timestamp) (r : ReplayProtectionState) : LedgerState :=
  let address := user_address (claim_owner tx) in
  let claims := match claim_kind tx with CardanoBridge => bridge_receiving st | Reward => unclaimed_block_rewards st end in
  let remaining := claimable st tx - claim_value tx in
  let claims := if remaining =? 0 then delete address claims else <[address := remaining]> claims in
  let st1 := with_replay (with_utxo st (UtxoState_insert (ls_utxo st) (claim_utxo tx) (mkUtxoMeta t))) r in
  match claim_kind tx with
  | CardanoBridge => with_claims st1 claims (unclaimed_block_rewards st1)
  | Reward => with_claims st1 (bridge_receiving st1) claims
  end.

Lemma claims_left (m : gmap HashOutput Z) k x : nonneg entry_night m -> 0 <= x <= entry_of entry_night m k ->
  let left := entry_of entry_night m k - x in
  let m' := if left =? 0 then delete k m else <[k := left]> m in
  nonneg entry_night m' /\ night_sum entry_night m' = night_sum entry_night m - x /\ entry_of entry_night m' k = left.
Proof.
  intros Hm Hx left m'. subst m'. destruct (Z.eqb_spec left 0) as [E|E].
  - split_and!; [by apply map_Forall_delete|rewrite night_sum_delete; lia|].
    unfold entry_of at 1. rewrite lookup_delete_eq. by rewrite E.
  - split_and!; [apply map_Forall_insert_2; [rewrite entry_night_eq; lia|done]|rewrite night_sum_insert, entry_night_eq; lia|].
    unfold entry_of at 1. rewrite lookup_insert_eq. done.
Qed.

Lemma claimed_total st tx t r : amounts_ok st -> 0 <= claim_value tx <= claimable st tx ->
  let st' := claimed_state st tx t r in
  amounts_ok st' /\ claimable st' tx = claimable st tx - claim_value tx /\
  night_total st' = night_total st - entry_of utxo_night (utxos (ls_utxo st)) (claim_utxo tx).
Proof.
  intros [H1 H2 H3 H4 H5 H6 H7 H8] Hv. cbv zeta.
  assert (Hu : utxo_night (claim_utxo tx) (mkUtxoMeta t) = claim_value tx) by done.
  assert (Hu' : nonneg utxo_night (<[claim_utxo tx := mkUtxoMeta t]> (utxos (ls_utxo st))))
    by (apply map_Forall_insert_2; [rewrite Hu; lia|done]).
  unfold claimed_state, claimable in *. cbv zeta. destruct (claim_kind tx).
  - destruct (claims_left _ _ _ H6 Hv) as (L1 & L2 & L3). split_and!; [by split|done|].
    unfold night_total, treasury_night.
    cbn [ls_utxo utxos locked_pool reserve_pool block_reward_pool unclaimed_block_rewards bridge_receiving contract treasury
         with_claims with_replay with_utxo UtxoState_insert]. rewrite L2, night_sum_insert, Hu. lia.
  - destruct (claims_left _ _ _ H7 Hv) as (L1 & L2 & L3). split_and!; [by split|done|].
    unfold night_total, treasury_night.
    cbn [ls_utxo utxos locked_pool reserve_pool block_reward_pool unclaimed_block_rewards bridge_receiving contract treasury
         with_claims with_replay with_utxo UtxoState_insert]. rewrite L2, night_sum_insert, Hu. lia.
Qed.

Lemma claim_dust_night st address hash v t source st' ev :
  claim_dust st address hash v t source = Ret (st', ev) -> exists d, st' = with_dust st d.
Proof.
  unfold claim_dust. destruct (address_delegation _ !! address).
  - destruct (fresh_dust_output _ _ _ _ _ _ _ _ _) as [[d l]| |]; cbn; [|done..]. intros [= <- _]. eauto.
  - intros [= <- _]. exists (dust st). by destruct st.
Qed.

Lemma claim_dust_error st address hash v t source e :
  claim_dust st address hash v t source = Fail e -> exists e', e = DustPartInvalid e'.
Proof.
  unfold claim_dust. destruct (address_delegation _ !! address); [|done].
  destruct (fresh_dust_output _ _ _ _ _ _ _ _ _) as [[d l]|e0|]; cbn; [done| |done]. intros [= <-]. eauto.
Qed.

Lemma dust_same st d tx : (amounts_ok (with_dust st d) <-> amounts_ok st) /\ night_total (with_dust st d) = night_total st /\
  claimable (with_dust st d) tx = claimable st tx.
Proof. split_and!; [|done|done]. split; intros [H1 H2 H3 H4 H5 H6 H7 H8]; by split. Qed.

(** What a claim does, on every branch. *)
Lemma claim_cases phantom st tx ctx source :
  Supply_ok st -> 0 <= claim_value tx ->
  match claim_unshielded phantom st tx ctx source with
  | Ret (st', _) =>
      Supply_ok st' /\ claim_value tx <= claimable st tx /\ claimable st' tx = claimable st tx - claim_value tx /\
      utxos (ls_utxo st') = <[claim_utxo tx := mkUtxoMeta (bc_tblock ctx)]> (utxos (ls_utxo st)) /\
      (0 < claim_value tx -> utxos (ls_utxo st) !! claim_utxo tx = None)
  | Fail (NightBalance _) => 0 < claim_value tx /\ is_Some (utxos (ls_utxo st) !! claim_utxo tx)
  | _ => True
  end.
Proof.
  intros [Ha Ht] Hv. unfold claim_unshielded. rewrite default_entry. fold (claimable st tx).
  destruct (Z.ltb_spec (claimable st tx) (claim_value tx)); [done|]. destruct (bool_decide _ && _); [done|].
  destruct (sys_replay st _ _) as [r|e]; [|done]. cbn [of_result mbind outcome_bind].
  change (match claim_kind tx with Reward => _ | CardanoBridge => _ end) with (claimed_state st tx (bc_tblock ctx) r).
  destruct (claimed_total st tx (bc_tblock ctx) r Ha ltac:(lia)) as (Ha' & Hc' & Ht').
  destruct (claim_dust _ _ _ _ _ _) as [[st' ev]|e|] eqn:Ed; cbn [mbind outcome_bind]; [|by apply claim_dust_error in Ed as [? ->]|done].
  apply claim_dust_night in Ed as [d ->]. set (st1 := claimed_state st tx (bc_tblock ctx) r) in *.
  destruct (dust_same st1 d tx) as (Hd1 & Hd2 & Hd3). apply Hd1 in Ha'. pose proof MAX_SUPPLY_small.
  assert (Hu : utxos (ls_utxo (with_dust st1 d)) = <[claim_utxo tx := mkUtxoMeta (bc_tblock ctx)]> (utxos (ls_utxo st)))
    by (subst st1; unfold claimed_state; by destruct (claim_kind tx)).
  assert (He : entry_of utxo_night (utxos (ls_utxo st)) (claim_utxo tx) =
               match utxos (ls_utxo st) !! claim_utxo tx with Some _ => claim_value tx | None => 0 end)
    by (unfold entry_of; by destruct (utxos (ls_utxo st) !! claim_utxo tx)).
  rewrite check_exact by (done || (rewrite Hd2, Ht', Ht, He; destruct (utxos (ls_utxo st) !! _); lia)).
  rewrite Hd2, Ht', Ht, He. destruct (Z.eqb_spec (MAX_SUPPLY - (match utxos (ls_utxo st) !! claim_utxo tx with Some _ => claim_value tx | None => 0 end)) MAX_SUPPLY) as [E|E].
  - split_and!; [|lia|by rewrite Hd3|done|].
    + split; [done|]. by rewrite Hd2, Ht', Ht, He.
    + intros Hpos. destruct (utxos (ls_utxo st) !! claim_utxo tx); [lia|done].
  - destruct (utxos (ls_utxo st) !! claim_utxo tx); [|lia]. split; [lia|]. by eexists.
Qed.

(** C6. Claims conserve Night.  A claim is only accepted up to what its owner is
    owed; it turns exactly that amount into an unshielded output of the owner and
    leaves the total as it is, so that the check of the total is not why it
    fails.  Should the very output exist already, a claim of a positive amount is
    rejected instead of overwriting it; a claim of nothing may then only renew
    the creation time of an output of value zero. *)
Theorem claim_conserves phantom st tx ctx source :
  Supply_ok st -> 0 <= claim_value tx ->
  match claim_unshielded phantom st tx ctx source with
  | Ret (st', _) =>
      Supply_ok st' /\ claim_value tx <= claimable st tx /\ claimable st' tx = claimable st tx - claim_value tx /\
      utxos (ls_utxo st') = <[claim_utxo tx := mkUtxoMeta (bc_tblock ctx)]> (utxos (ls_utxo st)) /\
      (0 < claim_value tx -> utxos (ls_utxo st) !! claim_utxo tx = None)
  | Fail (NightBalance _) => 0 < claim_value tx /\ is_Some (utxos (ls_utxo st) !! claim_utxo tx)
  | _ => True
  end.
Proof. apply claim_cases. Qed.

(** A ledger starts with its supply in the pools and the treasury. *)
Lemma genesis_supply name params locked reserve t st :
  0 <= locked -> 0 <= reserve -> 0 <= t -> locked + reserve + t < 2 ^ 127 ->
  with_genesis_settings name params locked reserve t = Ok st -> Supply_ok st.
Proof.
  intros Hl Hr Ht Hs E. unfold with_genesis_settings in E. set (st0 := mkLedgerState _ _ _ _ _ _ _ _ _ _ _ _ _) in E.
  assert (E0 : treasury_night st0 = t) by (unfold treasury_night; cbn [treasury st0]; by rewrite lookup_singleton_eq).
  assert (Ha : amounts_ok st0) by (split; [apply map_Forall_empty|done|done|cbn; lia|by rewrite E0|apply map_Forall_empty..]).
  assert (Et : night_total st0 = locked + reserve + t) by (unfold night_total; rewrite E0; unfold night_sum; cbn [ls_utxo utxos locked_pool reserve_pool block_reward_pool
      unclaimed_block_rewards bridge_receiving contract st0]; rewrite !map_to_list_empty; cbn [fmap list_fmap foldr]; lia).
  rewrite check_exact in E by (rewrite ?Et; done || lia). destruct (Z.eqb_spec (night_total st0) MAX_SUPPLY) as [Em|]; [|done].
  cbn in E. injection E as <-. by split.
Qed.
End supply.

(** ** Example *)

Module SupplyExample.
Definition digest (l : list Z) : list Z := take 32 (to_le_bytes 32 (foldl (fun a x => (31 * a + x + 1) mod 2 ^ 200) 17 l)).

#[export] Instance prims : Prims := {
  SignatureVerifyingKey := Z; Pedersen := Z; CoinCiphertext := Z; ArenaHash := Z;
  modulus := 256 ^ 32 - 5;
  transient_hash := foldl (fun a x => (31 * a + x + 1) mod 2 ^ 61) 17;
  persistent_hash := digest;
  user_address k := replicate 32 k;
  state_key _ := Ref 4;
  arena := DeltaExample.backend;
  arena_hash_size := 32;
  unreferenced_keys := elements;
  traversal_bound := 20;
  node_sizes _ := [20];
  state_size _ := 40;
  map_iter K V _ _ m := map_to_list m
}.
#[export] Instance hashes : Hashes := {
  intent_hash i segment := digest [segment; ttl i];
  deploy_address d := deploy_nonce d;
  system_tx_hash _ := [1];
  authority_size _ := 10;
  entry_point_size ep := Z.of_nat (length ep);
  operation_size _ := 100
}.
#[export] Instance sizes : CostInputs := {
  est_size _ := 1000;
  call_version _ := None;
  public_inputs_len _ := 10;
  signatures_len _ := 1;
  contract_nodes _ := [];
  authority_nodes _ := [];
  parameters_size _ := 500;
  vk_size vk := Z.of_nat (length vk);
  ep_size ep := Z.of_nat (length ep);
  versioned_vk_size _ := 2000;
  ir_size i := Z.of_nat (length i)
}.

Definition params : LedgerParameters :=
  mkLedgerParameters INITIAL_TRANSACTION_COST_MODEL INITIAL_LIMITS INITIAL_DUST_PARAMETERS INITIAL_FEE_PRICES 3600 FP_ONE FP_ONE 100 50 FP_ONE.
Definition genesis : LedgerState :=
  match with_genesis_settings "net" params 1000 (MAX_SUPPLY - 1000) 0 with
  | Ok st => st
  | Err _ => mkLedgerState "" params 0 ∅ 0 0 ∅ ∅ State_default ∅ (mkUtxoState ∅) ReplayProtectionState_new DustState_default
  end.
Definition payout : SystemTransaction := DistributeNight CardanoBridge [mkOutputInstruction 800 (replicate 32 7) (replicate 32 1)].
Definition bridged : LedgerState := match apply_system_tx genesis payout 100 with Ret (st, _) => st | _ => genesis end.
Definition claim : ClaimRewardsTransaction := mkClaimRewards "net" 500 7 (replicate 32 2) CardanoBridge.
Definition ctx : BlockContext := mkBlockContext 200 30 (replicate 32 0) 190.
Definition source : EventSource := mkEventSource [1] 0 0.

Lemma genesis_ok : Supply_ok genesis.
Proof.
  assert (Hv : match with_genesis_settings "net" params 1000 (MAX_SUPPLY - 1000) 0 with Ok _ => true | Err _ => false end = true)
    by (vm_compute; reflexivity).
  unfold genesis. destruct (with_genesis_settings "net" params 1000 (MAX_SUPPLY - 1000) 0) as [st|] eqn:E; [|discriminate Hv].
  apply (genesis_supply "net" params 1000 (MAX_SUPPLY - 1000) 0); [lia|unfold MAX_SUPPLY, STARS_PER_NIGHT; lia|lia| |exact E].
  unfold MAX_SUPPLY, STARS_PER_NIGHT. lia.
Qed.

Lemma bridged_ok : Supply_ok bridged.
Proof.
  pose proof (distribute_night_ok genesis CardanoBridge [mkOutputInstruction 800 (replicate 32 7) (replicate 32 1)] 100 genesis_ok
    ltac:(vm_compute; split; discriminate) ltac:(apply Forall_cons_2; [cbn; lia|apply Forall_nil_2])) as H.
  assert (Hv : (fun _ => tt) <$> apply_system_tx genesis payout 100 = Ret tt) by (vm_compute; reflexivity).
  unfold bridged, payout in *. cbn [apply_system_tx] in *. destruct (distribute_night _ _ _ _) as [[st ev]| |]; [apply H|discriminate Hv..].
Qed.
End SupplyExample.

Import SupplyExample.

Lemma system_tx_conserves_witness : Supply_ok bridged /\ treasury_night bridged = 8.
Proof.
  pose proof (system_tx_conserves genesis payout 100 genesis_ok ltac:(vm_compute; split; discriminate)
    ltac:(apply Forall_cons_2; [cbn; lia|apply Forall_nil_2])) as H.
  assert (Hv : (fun _ => tt) <$> apply_system_tx genesis payout 100 = Ret tt) by (vm_compute; reflexivity).
  split; [|vm_compute; reflexivity]. unfold bridged. destruct (apply_system_tx genesis payout 100) as [[st ev]| |]; [apply H|discriminate Hv..].
Defined.

Lemma claim_conserves_witness :
  match claim_unshielded claim bridged claim ctx source with
  | Ret (st, _) => Supply_ok st /\ claimable st claim = 292
  | _ => False
  end.
Proof.
  pose proof (claim_conserves claim bridged claim ctx source bridged_ok ltac:(cbn; lia)) as H.
  assert (Hv : (fun _ => tt) <$> claim_unshielded claim bridged claim ctx source = Ret tt) by (vm_compute; reflexivity).
  assert (Hc : claimable bridged claim = 792) by (vm_compute; reflexivity).
  destruct (claim_unshielded claim bridged claim ctx source) as [[st ev]| |]; [|discriminate Hv..].
  destruct H as (Hs & _ & Hl & _). split; [exact Hs|]. rewrite Hl, Hc. reflexivity.
Defined.
