(* ===== verification/FeeTheorems.v ===== *)
(** * What a transaction's cost covers

    The estimate of a transaction's cost is the basis of its fees and of the
    limits of a block.  Theorems on the gas that calls declare: it is part of
    the estimate, as long as the compute time stays below half the range of a
    duration; and what happens beyond. *)

From S2P Require Import Prelude Serialize Storage Cost VmCost Fab OnchainVm VmProperties VmTheorems ZswapMemo Repr Coins Runtime ZswapOffer.
From S2P Require Import ZswapLedger Intents Dust LedgerData TxCost Ledger Supply.
From stdpp Require Import gmap strings sorting.

Local Open Scope Z_scope.
Local Abbreviation map_insert := TxCost.map_insert.

(** ** Scaling a duration by a fixed point number *)

(** Ranges of 128-bit integers. *)
Ltac i128 := unfold in_i, i_min, i_max; change (128 - 1) with 127; lia.

(** A duration times a factor, rounded up; the product is an [i128], which holds
    durations up to [2^63]. *)
Definition scaled_time (t : CostDuration) (f : FixedPoint) : CostDuration := Z.min ((t * f + 2 ^ 64 - 1) / 2 ^ 64) (2 ^ 63).

Lemma scaled_time_one t : t <= 2 ^ 63 -> scaled_time t FP_ONE = t.
Proof.
  intros Ht. unfold scaled_time. replace FP_ONE with (2 ^ 64) by (vm_compute; reflexivity).
  replace (t * 2 ^ 64 + 2 ^ 64 - 1) with (2 ^ 64 - 1 + t * 2 ^ 64) by lia. rewrite Z.div_add by lia. rewrite (Z.div_small (2 ^ 64 - 1)) by lia. lia.
Qed.
Lemma scaled_time_mono t t' f : t <= t' -> 0 <= f -> scaled_time t f <= scaled_time t' f.
Proof. intros. unfold scaled_time. apply Z.min_le_compat_r, Z.div_le_mono; nia. Qed.
Lemma scaled_time_factor t f f' : 0 <= t -> f <= f' -> scaled_time t f <= scaled_time t f'.
Proof. intros. unfold scaled_time. apply Z.min_le_compat_r, Z.div_le_mono; nia. Qed.

Lemma atomic_units_one x : 0 <= x <= i_max 128 -> into_atomic_units x 1 = (x + 2 ^ 64 - 1) / 2 ^ 64.
Proof.
  intros Hx. replace (i_max 128) with (2 ^ 127 - 1) in Hx by (vm_compute; reflexivity). unfold into_atomic_units. cbv zeta.
  rewrite Z.mul_1_r, Z.rem_mod_nonneg, Z.quot_div_nonneg by lia. pose proof (Z.div_mod x (2 ^ 64)). pose proof (Z.mod_pos_bound x (2 ^ 64)).
  set (q := x / 2 ^ 64) in *. set (r := x mod 2 ^ 64) in *. assert (Hq : 0 <= q < 2 ^ 63) by nia.
  assert (Hres : (x + 2 ^ 64 - 1) / 2 ^ 64 = (if r <=? 0 then 0 else 1) + q).
  { symmetry. apply Z.div_unique with (if r <=? 0 then 2 ^ 64 - 1 else r - 1); destruct (Z.leb_spec r 0); lia. }
  rewrite Hres. assert (0 <= (if r <=? 0 then 0 else 1) + q <= 2 ^ 63) by (destruct (r <=? 0); lia). set (v := _ + q) in *. clearbody v. unfold u_max.
  destruct (Z.ltb_spec v 0); [lia|]. destruct (Z.ltb_spec (2 ^ 128 - 1) v); lia.
Qed.

(** Scaling is exact on the lower half of the range. *)
Lemma mul_fp_scaled t f : 0 <= t < 2 ^ 63 -> 0 <= f <= FP_MAX -> CostDuration_mul_fp t f = scaled_time t f.
Proof.
  intros Ht Hf. unfold CostDuration_mul_fp, from_u64_div. cbn [Z.eqb]. assert (Hd : div_ceil (Z.shiftl t 64) 1 = t * 2 ^ 64).
  { unfold div_ceil. rewrite Z.shiftl_mul_pow2, Z.div_1_r by lia. lia. }
  rewrite Hd, wrap_i_small by (first [lia | i128]). unfold FP_mul. replace (t * 2 ^ 64 * f) with (t * f * 2 ^ 64) by lia.
  rewrite Z.shiftr_div_pow2, Z.div_mul by lia. assert (Hi : i_max 128 = 2 ^ 127 - 1) by (vm_compute; reflexivity).
  assert (0 <= t * f) by nia. rewrite wrap_i_small by (first [lia | i128]). rewrite atomic_units_one by lia.
  unfold scaled_time, u_max. rewrite Hi. destruct (Z.le_gt_cases (t * f) (2 ^ 127 - 1)) as [Hle|Hgt].
  - rewrite (Z.min_r (2 ^ 127 - 1) (t * f)) by lia. assert ((t * f + 2 ^ 64 - 1) / 2 ^ 64 < 2 ^ 63 + 1) by (apply Z.div_lt_upper_bound; lia). lia.
  - rewrite (Z.min_l (2 ^ 127 - 1) (t * f)) by lia. replace ((2 ^ 127 - 1 + 2 ^ 64 - 1) / 2 ^ 64) with (2 ^ 63) by (vm_compute; reflexivity).
    assert (2 ^ 63 <= (t * f + 2 ^ 64 - 1) / 2 ^ 64) by (apply Z.div_le_lower_bound; lia). lia.
Qed.

(** On the upper half, the conversion to a fixed point number is negative, and the
    product is zero. *)
Lemma mul_fp_upper t f : 2 ^ 63 <= t < 2 ^ 64 -> 0 <= f <= FP_ONE -> CostDuration_mul_fp t f = 0.
Proof.
  intros Ht Hf. replace FP_ONE with (2 ^ 64) in Hf by (vm_compute; reflexivity). unfold CostDuration_mul_fp, from_u64_div. cbn [Z.eqb].
  assert (Hd : div_ceil (Z.shiftl t 64) 1 = t * 2 ^ 64) by (unfold div_ceil; rewrite Z.shiftl_mul_pow2, Z.div_1_r by lia; lia).
  assert (Hw : wrap_i 128 (t * 2 ^ 64) = t * 2 ^ 64 - 2 ^ 128).
  { unfold wrap_i. cbv zeta. rewrite Z.mod_small by lia. change (128 - 1) with 127. destruct (Z.ltb_spec (t * 2 ^ 64) (2 ^ 127)); lia. }
  rewrite Hd, Hw. set (a := t * 2 ^ 64 - 2 ^ 128). assert (Ha : - 2 ^ 127 <= a < 0) by lia. unfold FP_mul. rewrite Z.shiftr_div_pow2 by lia.
  assert (Hq : - 2 ^ 127 <= a * f / 2 ^ 64 <= 0).
  { split; [apply Z.div_le_lower_bound; nia|apply Z.div_le_upper_bound; nia]. }
  rewrite (Z.min_r (i_max 128)) by i128. rewrite wrap_i_small by (first [lia | i128]). set (q := a * f / 2 ^ 64) in *.
  unfold into_atomic_units. rewrite Z.mul_1_r. assert (Hr : Z.rem q (2 ^ 64) <= 0) by (apply Z.rem_nonpos; lia).
  rewrite (proj2 (Z.leb_le _ _) Hr). assert (Hn : Z.quot q (2 ^ 64) <= 0) by (rewrite <- (Z.opp_involutive q), Z.quot_opp_l by lia; pose proof (Z.quot_pos (- q) (2 ^ 64)); lia).
  unfold u_max. destruct (Z.ltb_spec (0 + Z.quot q (2 ^ 64)) 0); [lia|]. destruct (Z.ltb_spec (2 ^ 128 - 1) (0 + Z.quot q (2 ^ 64))); lia.
Qed.

Lemma mul_fp_nonneg t f : 0 <= CostDuration_mul_fp t f.
Proof.
  unfold CostDuration_mul_fp, into_atomic_units. cbv zeta. set (r := _ + _). unfold u_max.
  destruct (Z.ltb_spec r 0); [lia|]. destruct (_ <? _); lia.
Qed.

(** ** Sums of costs *)

Lemma RunningCost_add_nonneg a b : cost_nonneg a -> cost_nonneg b -> cost_nonneg (RunningCost_add a b).
Proof. intros (? & ? & ? & ?) (? & ? & ? & ?). unfold cost_nonneg, CostDuration_add, sat_add, u_max. cbn. unfold CostDuration_add, sat_add, u_max. lia. Qed.
Lemma zlen_nonneg {A} (l : list A) : 0 <= zlen l.
Proof. unfold zlen. lia. Qed.

Lemma sum_nonneg l : forall acc, cost_nonneg acc -> Forall cost_nonneg l -> cost_nonneg (foldl RunningCost_add acc l).
Proof. induction l as [|c l IH]; intros acc Ha Hl; cbn [foldl]; [done|]. apply Forall_cons in Hl as [Hc Hl]. apply IH; [by apply RunningCost_add_nonneg|done]. Qed.

(** A cost below another in what is charged for. *)
Record covers (big small : RunningCost) : Prop := {
  cv_read : rc_read_time small <= rc_read_time big;
  cv_compute : rc_compute_time small <= rc_compute_time big;
  cv_written : rc_bytes_written small <= rc_bytes_written big
}.

(** Declared values are 64 bits wide. *)
Record rc_u64 (c : RunningCost) : Prop := {
  ru_read : in_u 64 (rc_read_time c);
  ru_compute : in_u 64 (rc_compute_time c);
  ru_written : in_u 64 (rc_bytes_written c);
  ru_deleted : in_u 64 (rc_bytes_deleted c)
}.

Lemma covers_add_l a b : rc_u64 a -> cost_nonneg b -> covers (RunningCost_add a b) a.
Proof. intros [] (? & ? & ? & ?). unfold in_u in *. split; cbn; unfold CostDuration_add, sat_add, u_max; lia. Qed.
Lemma covers_add_r a b : rc_u64 b -> cost_nonneg a -> covers (RunningCost_add a b) b.
Proof. intros [] (? & ? & ? & ?). unfold in_u in *. split; cbn; unfold CostDuration_add, sat_add, u_max; lia. Qed.
Lemma covers_trans a b c : covers a b -> covers b c -> covers a c.
Proof. intros [] []. split; lia. Qed.
Lemma rc_u64_nonneg c : rc_u64 c -> cost_nonneg c.
Proof. by intros [[] [] [] []]. Qed.
Lemma rc_u64_add a b : cost_nonneg a -> cost_nonneg b -> rc_u64 (RunningCost_add a b).
Proof. intros (? & ? & ? & ?) (? & ? & ? & ?). split; cbn; unfold in_u, CostDuration_add, sat_add, u_max; lia. Qed.
Lemma covers_refl a : covers a a.
Proof. by split. Qed.

Lemma sum_covers_acc l : forall acc, rc_u64 acc -> Forall cost_nonneg l -> covers (foldl RunningCost_add acc l) acc.
Proof.
  induction l as [|c l IH]; intros acc Ha Hl; cbn [foldl]; [apply covers_refl|]. apply Forall_cons in Hl as [Hc Hl].
  eapply covers_trans; [apply IH; [|done]|by apply covers_add_l]. apply rc_u64_add; [by apply rc_u64_nonneg|done].
Qed.

Lemma sum_covers l c : forall acc, cost_nonneg acc -> Forall cost_nonneg l -> rc_u64 c -> c ∈ l -> covers (foldl RunningCost_add acc l) c.
Proof.
  induction l as [|x l IH]; intros acc Ha Hl Hc Hin; [by apply not_elem_of_nil in Hin|]. apply Forall_cons in Hl as [Hx Hl]. cbn [foldl].
  apply elem_of_cons in Hin as [<-|Hin]; [|apply IH; [by apply RunningCost_add_nonneg|done..]].
  eapply covers_trans; [apply sum_covers_acc; [by apply rc_u64_add|done]|by apply covers_add_r].
Qed.

#[export] Hint Resolve RunningCost_add_nonneg zlen_nonneg : midnight.

(** ** Costs are not negative *)

Record model_ok (m : TransactionCostModel) : Prop := {
  mo_runtime : cost_model_ok (runtime_cost_model m);
  mo_baseline : cost_nonneg (baseline_cost m)
}.

Section nonneg.
Context (m : TransactionCostModel) (Hm : model_ok m).
Local Abbreviation rt := (runtime_cost_model m).

Lemma runtime_ok : cost_model_ok rt.
Proof. apply Hm. Qed.

(** Decides that a duration made of the model's coefficients is not negative. *)
Ltac cost_tac := repeat first [apply cd_add_nonneg | apply cd_mul_nonneg]; first [done | lia | coeff runtime_ok].

Lemma cell_read_nonneg n : 0 <= n -> cost_nonneg (cell_read m n).
Proof. apply read_cell_nonneg, Hm. Qed.
Lemma cell_write_nonneg n o : 0 <= n -> cost_nonneg (cell_write n o).
Proof. intros Hn. unfold cost_nonneg, cell_write; cbn. unfold CD_ZERO. destruct o; lia. Qed.
Lemma cell_delete_nonneg n : 0 <= n -> cost_nonneg (cell_delete n).
Proof. intros Hn. unfold cost_nonneg, CD_ZERO; cbn. unfold CD_ZERO. lia. Qed.
Lemma map_index_nonneg n : 0 <= n -> cost_nonneg (map_index m n).
Proof. apply read_map_nonneg, Hm. Qed.
Lemma map_insert_nonneg n o : 0 <= n -> cost_nonneg (map_insert n o).
Proof.
  intros Hn. apply RunningCost_add_nonneg; [apply RunningCost_mul_nonneg; [by apply cell_write_nonneg|by apply div_ceil_nonneg]|by apply cell_write_nonneg].
Qed.
Lemma map_remove_nonneg n o : 0 <= n -> cost_nonneg (map_remove m n o).
Proof. intros Hn. destruct o; [by apply map_insert_nonneg|]. apply RunningCost_add_nonneg; [by apply map_insert_nonneg|by apply map_index_nonneg]. Qed.
Lemma merkle_index_nonneg n : 0 <= n -> cost_nonneg (merkle_tree_index m n).
Proof. apply read_bmt_nonneg; [by vm_compute|apply Hm]. Qed.
Lemma merkle_write_nonneg n o : 0 <= n -> cost_nonneg (merkle_tree_insert_no_rehash n o).
Proof. intros Hn. apply RunningCost_add_nonneg; [by apply cell_write_nonneg|]. apply RunningCost_mul_nonneg; [by apply cell_write_nonneg|done]. Qed.
Lemma merkle_unamortized_nonneg n o : 0 <= n -> cost_nonneg (merkle_tree_insert_unamortized m n o).
Proof. intros Hn. apply RunningCost_add_nonneg; [|by apply merkle_write_nonneg]. apply compute_nonneg. cost_tac. Qed.
Lemma merkle_amortized_nonneg n o : 0 <= n -> cost_nonneg (merkle_tree_insert_amortized m n o).
Proof. intros Hn. apply RunningCost_add_nonneg; [|by apply merkle_write_nonneg]. apply compute_nonneg. unfold EXPECTED_AMORTIZE_HASHES. cost_tac. Qed.
Lemma proof_verify_nonneg n : 0 <= n -> cost_nonneg (proof_verify m n).
Proof. intros Hn. apply compute_nonneg. cost_tac. Qed.
Lemma tree_copy_nonneg l : cost_nonneg (tree_copy l).
Proof. unfold tree_copy. split_and!; [done|done| |done]. apply Z.mod_pos_bound. lia. Qed.
Lemma stack_setup_nonneg eff : cost_nonneg (stack_setup_cost_for_effects m eff).
Proof.
  apply compute_nonneg. set (l := _ <$> _). assert (Hl : Forall (fun t => 0 <= t) l); [|induction Hl; [done|by apply cd_add_nonneg]].
  unfold l. rewrite !fmap_cons, fmap_nil. rewrite !Forall_cons. split_and!; try apply Forall_nil_2;
    (apply cd_add_nonneg; [apply cd_add_nonneg; [coeff runtime_ok|]|]; apply cd_mul_nonneg; try coeff runtime_ok; try apply Z.log2_up_nonneg; unfold hash_bytes, fr_bytes; lia).
Qed.
End nonneg.

Section charged.
Context `{PR : Prims} {CI : CostInputs}.
Context (Hpi : forall c, 0 <= public_inputs_len c) (Hsig : forall o, 0 <= signatures_len o)
  (Hep : forall e, 0 <= ep_size e) (Hvk : forall v, 0 <= versioned_vk_size v) (Hir : forall i, 0 <= ir_size i)
  (Hkey : forall k, 0 <= vk_size k).
Context (m : TransactionCostModel) (Hm : model_ok m).

(** Decides that a cost made of the model's operations is not negative, by the
    shape of the cost. *)
Ltac rc := repeat match goal with
  | |- cost_nonneg (RunningCost_add _ _) => refine (RunningCost_add_nonneg _ _ _ _)
  | |- cost_nonneg (RunningCost_mul _ _) => refine (RunningCost_mul_nonneg _ _ _ _)
  | |- cost_nonneg (cell_read _ _) => refine (cell_read_nonneg m Hm _ _)
  | |- cost_nonneg (cell_write _ _) => refine (cell_write_nonneg _ _ _)
  | |- cost_nonneg (cell_delete _) => refine (cell_delete_nonneg _ _)
  | |- cost_nonneg (map_index _ _) => refine (map_index_nonneg m Hm _ _)
  | |- cost_nonneg (map_insert _ _) => refine (map_insert_nonneg _ _ _)
  | |- cost_nonneg (map_remove _ _ _) => refine (map_remove_nonneg m Hm _ _ _)
  | |- cost_nonneg (merkle_tree_index _ _) => refine (merkle_index_nonneg m Hm _ _)
  | |- cost_nonneg (merkle_tree_insert_unamortized _ _ _) => refine (merkle_unamortized_nonneg m Hm _ _ _)
  | |- cost_nonneg (merkle_tree_insert_amortized _ _ _) => refine (merkle_amortized_nonneg m Hm _ _ _)
  | |- cost_nonneg (proof_verify _ _) => refine (proof_verify_nonneg m Hm _ _)
  | |- cost_nonneg (tree_copy _) => apply tree_copy_nonneg
  | |- 0 <= zlen _ => apply zlen_nonneg
  end; match goal with |- 0 <= _ => first [assumption | solve [vm_compute; discriminate] | idtac] | _ => idtac end.

(** The same for every cost of a list. *)
Ltac costs := repeat match goal with
  | |- Forall _ (_ :: _) => refine (Forall_cons_2 _ _ _ _ _)
  | |- Forall _ [] => exact (Forall_nil_2 _)
  end; rc.

Lemma lookup_nonneg : cost_nonneg (time_filter_map_lookup m).
Proof. unfold time_filter_map_lookup. rc. Qed.
Lemma tfm_insert_nonneg o : cost_nonneg (time_filter_map_insert o).
Proof. unfold time_filter_map_insert. rc. Qed.

Lemma compute_hashes_nonneg k : 0 <= k -> cost_nonneg (RunningCost_compute (CostDuration_mul (CostDuration_mul (cm_transient_hash (runtime_cost_model m)) FRESH_DUST_COMMITMENT_HASHES) k)).
Proof. intros Hk. apply compute_nonneg, cd_mul_nonneg; [|done]. apply cd_mul_nonneg; [|done]. coeff (runtime_ok m Hm). Qed.

Lemma offer_costs_nonneg o : Forall cost_nonneg (offer_costs m o).
Proof. unfold offer_costs. cbv zeta. costs. refine (compute_hashes_nonneg _ (zlen_nonneg _)). Qed.

Lemma registration_costs_nonneg i r : Forall cost_nonneg (registration_costs m i r).
Proof. unfold registration_costs. destruct (dust_address r); costs. Qed.

Lemma dust_costs_nonneg i : Forall cost_nonneg (dust_costs m i).
Proof.
  unfold dust_costs. cbv zeta. rewrite Forall_app. split.
  - costs. refine lookup_nonneg.
  - apply Forall_bind, Forall_forall. intros r _. apply registration_costs_nonneg.
Qed.

Definition transcript_ok (t : option Transcript) : Prop := from_option (fun t => rc_u64 (tr_gas t)) True t.
Definition action_ok (a : ContractAction) : Prop :=
  match a with Call c => transcript_ok (guaranteed_transcript c) /\ transcript_ok (fallible_transcript c) | _ => True end.

Lemma transcript_costs_nonneg t : transcript_ok t -> Forall cost_nonneg (transcript_costs m t).
Proof.
  intros Ht. destruct t as [t|]; [|apply Forall_nil_2]. cbn [transcript_costs]. rewrite !Forall_cons. split_and!; [by apply rc_u64_nonneg|by apply stack_setup_nonneg|apply Forall_nil_2].
Qed.

Lemma update_costs_nonneg p : cost_nonneg (update_costs m p).
Proof.
  unfold update_costs. destruct p as [auth|e v|e v|e|e i]; rc; first [apply Hep | pose proof (Hep e); pose proof (Hvk v); lia | pose proof (Hep e); pose proof (Hir i); lia].
Qed.

Lemma call_base_nonneg : cost_nonneg (call_base_cost m).
Proof. unfold call_base_cost. rc. Qed.

Lemma action_costs_nonneg a : action_ok a -> Forall cost_nonneg (action_costs m a).1 /\ Forall cost_nonneg (action_costs m a).2.
Proof.
  intros Ha. destruct a as [c|d|u]; cbn [action_costs fst snd action_ok] in *.
  - assert (Hb : forall b : bool, Forall cost_nonneg (if b then [call_base_cost m] else []))
      by (intros []; [apply Forall_cons_2; [apply call_base_nonneg|]|]; apply Forall_nil_2).
    split; apply Forall_app; (split; [apply Hb|apply transcript_costs_nonneg; apply Ha]).
  - split; costs.
  - split; [apply Forall_nil_2|]. rewrite !Forall_app. split_and!; [costs| |costs].
    apply Forall_fmap, Forall_forall. intros p _. apply update_costs_nonneg.
Qed.

Lemma replay_costs_nonneg : Forall cost_nonneg (replay_costs m).
Proof.
  unfold replay_costs. rewrite !Forall_cons. split_and!; [apply RunningCost_add_nonneg; [apply lookup_nonneg|rc]|apply RunningCost_add_nonneg; [apply tfm_insert_nonneg|rc]|apply Forall_nil_2].
Qed.

Definition intent_gas_ok (i : LedgerIntent) : Prop := Forall action_ok (actions i).

Lemma intent_costs_nonneg i : intent_gas_ok i -> Forall cost_nonneg (intent_guaranteed m i) /\ Forall cost_nonneg (intent_fallible m i).
Proof.
  intros Hi. assert (Ho : forall o, Forall cost_nonneg (from_option (offer_costs m) [] o)) by (intros [o|]; [apply offer_costs_nonneg|apply Forall_nil_2]).
  unfold intent_gas_ok in Hi. rewrite Forall_forall in Hi. unfold intent_guaranteed, intent_fallible. rewrite !Forall_app. split_and!.
  - apply replay_costs_nonneg.
  - apply Ho.
  - apply dust_costs_nonneg.
  - apply Forall_bind, Forall_forall. intros a Ha. apply action_costs_nonneg, Hi, Ha.
  - apply Ho.
  - apply Forall_bind, Forall_forall. intros a Ha. apply action_costs_nonneg, Hi, Ha.
Qed.

Lemma zswap_cost_nonneg o : cost_nonneg (zswap_cost m o).
Proof.
  assert (Hl : forall a b : Z, 0 <= a -> 0 <= b -> 0 <= a + b) by lia.
  unfold zswap_cost. cbv zeta. apply sum_nonneg; [done|]. costs; apply Hl; apply zlen_nonneg.
Qed.

(** *** Validation *)

Lemma add_compute_nonneg c t : cost_nonneg c -> 0 <= t -> cost_nonneg (add_compute c t).
Proof. intros (? & ? & ? & ?) Ht. unfold cost_nonneg, add_compute; cbn. split_and!; try done. by apply cd_add_nonneg. Qed.

Lemma sum_Z_nonneg {A} (f : A -> Z) l : (forall x, 0 <= f x) -> 0 <= foldr Z.add 0 (f <$> l).
Proof. intros Hf. induction l as [|x l IH]; cbn; [done|]. pose proof (Hf x). lia. Qed.

Lemma fold_nonneg {A} (f : RunningCost -> A -> RunningCost) l : (forall c a, cost_nonneg c -> cost_nonneg (f c a)) ->
  forall c, cost_nonneg c -> cost_nonneg (foldl f c l).
Proof. intros Hf. induction l as [|a l IH]; intros c Hc; cbn [foldl]; [done|]. by apply IH, Hf. Qed.

Ltac duration := repeat first [apply cd_add_nonneg | apply cd_mul_nonneg]; first [apply zlen_nonneg | coeff (runtime_ok m Hm) | idtac].

Lemma action_validation_nonneg a c : cost_nonneg c -> cost_nonneg (action_validation m a c).
Proof.
  intros Hc. destruct a as [call|d|u]; cbn [action_validation]; [|done|].
  - apply RunningCost_add_nonneg; [apply add_compute_nonneg; [done|duration]|apply (proof_verify_nonneg m Hm), Hpi].
  - apply add_compute_nonneg; [done|duration].
Qed.

Lemma intent_validation_nonneg c i : cost_nonneg c -> cost_nonneg (intent_validation m c i).
Proof.
  intros Hc. unfold intent_validation. cbv zeta. set (c1 := foldl _ _ _). assert (H1 : cost_nonneg c1).
  { apply fold_nonneg; [intros; by apply action_validation_nonneg|]. apply add_compute_nonneg; [apply add_compute_nonneg; [done|duration]|].
    duration. by apply sum_Z_nonneg. }
  destruct (dust_actions i); [|done]. apply add_compute_nonneg; [apply RunningCost_add_nonneg; [done|rc]|duration].
Qed.

Lemma from_nonneg c : cost_nonneg c -> let s := SyntheticCost_from c in
  0 <= sc_read_time s /\ 0 <= sc_bytes_written s /\ 0 <= sc_bytes_churned s /\ sc_bytes_written s + sc_bytes_churned s = rc_bytes_written c.
Proof. intros (? & ? & ? & ?). cbn. unfold sat_sub. lia. Qed.

Lemma validation_nonneg tx v :
  (forall a e ver, cost_nonneg (v a e ver)) -> let s := validation_cost_impl m tx v in
  0 <= sc_read_time s /\ 0 <= sc_compute_time s /\ 0 <= sc_bytes_written s /\ 0 <= sc_bytes_churned s.
Proof.
  intros Hv. cbv zeta. unfold validation_cost_impl. destruct tx as [stx|c]; cbn [sc_read_time sc_compute_time sc_bytes_written sc_bytes_churned].
  - match goal with |- context [SyntheticCost_from ?x] => set (cost := x) end. assert (Hc : cost_nonneg cost).
    { unfold cost. apply add_compute_nonneg; [|duration]. apply add_compute_nonneg; [|duration; apply sum_Z_nonneg; intros; apply zlen_nonneg].
      apply fold_nonneg; [intros; by apply intent_validation_nonneg|].
      assert (Hz : forall (A B C : Type) (f g : A -> list B) (l : list A), 0 <= foldr Z.add 0 ((fun o => zlen (f o) + zlen (g o)) <$> l))
        by (intros; apply sum_Z_nonneg; intros; pose proof (zlen_nonneg (f x)); pose proof (zlen_nonneg (g x)); lia).
      apply RunningCost_add_nonneg; [apply RunningCost_add_nonneg|].
      - apply sum_nonneg; [apply Hm|]. apply Forall_fmap, Forall_forall. intros [[a e] ver] _. apply Hv.
      - apply RunningCost_mul_nonneg; [rc|]. apply sum_Z_nonneg. intros o. pose proof (zlen_nonneg (inputs o)). pose proof (zlen_nonneg (transient o)). lia.
      - apply RunningCost_mul_nonneg; [rc|]. apply sum_Z_nonneg. intros o. pose proof (zlen_nonneg (outputs o)). pose proof (zlen_nonneg (transient o)). lia. }
    destruct (from_nonneg cost Hc) as (H1 & H2 & H3 & _). split_and!; [done|apply mul_fp_nonneg|done|done].
  - match goal with |- context [SyntheticCost_from ?x] => set (cost := x) end. assert (Hc : cost_nonneg cost).
    { unfold cost. apply RunningCost_add_nonneg; [|apply Hm]. apply compute_nonneg. duration. }
    destruct (from_nonneg cost Hc) as (H1 & H2 & H3 & _). split_and!; [done|apply mul_fp_nonneg|done|done].
Qed.

(** *** Application *)

Lemma sum_u64 l : forall acc, cost_nonneg acc -> Forall cost_nonneg l -> l <> [] -> rc_u64 (foldl RunningCost_add acc l).
Proof.
  assert (Hgo : forall l acc, rc_u64 acc -> Forall cost_nonneg l -> rc_u64 (foldl RunningCost_add acc l)).
  { intros l0. induction l0 as [|c l0 IH]; intros acc Ha Hl; cbn [foldl]; [done|]. apply Forall_cons in Hl as [Hc Hl].
    apply IH; [apply rc_u64_add; [by apply rc_u64_nonneg|done]|done]. }
  intros acc Ha Hl Hne. destruct l as [|c l]; [done|]. apply Forall_cons in Hl as [Hc Hl]. cbn [foldl]. apply Hgo; [by apply rc_u64_add|done].
Qed.

Lemma add_computes_covers (l : list RunningCost) : forall c, rc_u64 c -> Forall cost_nonneg l ->
  let c' := foldl (fun g c => add_compute g (rc_compute_time c)) c l in
  rc_u64 c' /\ covers c' c.
Proof.
  induction l as [|x l IH]; intros c Hc Hl; cbn [foldl]; [split; [done|apply covers_refl]|]. apply Forall_cons in Hl as [(_ & Hx & _) Hl].
  assert (H1 : rc_u64 (add_compute c (rc_compute_time x)) /\ covers (add_compute c (rc_compute_time x)) c).
  { destruct Hc as [? [? ?] ? ?]. unfold add_compute, in_u in *. split; split; cbn; unfold in_u, CostDuration_add, sat_add, u_max in *; lia. }
  destruct H1 as [H1 H2]. destruct (IH _ H1 Hl) as [H3 H4]. split; [done|by eapply covers_trans].
Qed.

(** The gas a transcript declares is part of the raw costs of its section. *)
Definition declares (tx : Transaction) (fallible : bool) (gas : RunningCost) : Prop :=
  exists intent call t, intent ∈ tx_intents tx /\ Call call ∈ actions intent /\
    (if fallible then fallible_transcript call else guaranteed_transcript call) = Some t /\ tr_gas t = gas.

Lemma declared_entry tx fallible gas : declares tx fallible gas ->
  gas ∈ (if fallible then tx_intents tx ≫= intent_fallible m else tx_intents tx ≫= intent_guaranteed m).
Proof.
  intros (i & c & t & Hi & Hc & Ht & <-).
  assert (Ha : tr_gas t ∈ (if fallible then (action_costs m (Call c)).2 else (action_costs m (Call c)).1)).
  { cbn [action_costs fst snd]. destruct fallible; rewrite Ht; cbn [transcript_costs]; apply elem_of_app; right; left. }
  destruct fallible; apply list_elem_of_bind; exists i; (split; [|done]); unfold intent_fallible, intent_guaranteed; rewrite !elem_of_app.
  - right. apply list_elem_of_bind. by exists (Call c).
  - right. right. right. apply list_elem_of_bind. by exists (Call c).
Qed.

Lemma raw_covers tx fallible gas : Forall intent_gas_ok (tx_intents tx) -> declares tx fallible gas -> rc_u64 gas ->
  let '(g, f) := raw_costs m tx in rc_u64 (if fallible then f else g) /\ covers (if fallible then f else g) gas.
Proof.
  intros Hok Hd Hg. pose proof (declared_entry tx fallible gas Hd) as Hin. destruct Hd as (i0 & _ & _ & Hi0 & _).
  assert (HG : Forall cost_nonneg (tx_intents tx ≫= intent_guaranteed m)).
  { apply Forall_bind, Forall_forall. intros i Hi. apply intent_costs_nonneg. by apply (proj1 (Forall_forall _ _) Hok). }
  assert (HF : Forall cost_nonneg (tx_intents tx ≫= intent_fallible m)).
  { apply Forall_bind, Forall_forall. intros i Hi. apply intent_costs_nonneg. by apply (proj1 (Forall_forall _ _) Hok). }
  assert (Hz : forall l : list ZswapOffer, Forall cost_nonneg (zswap_cost m <$> l))
    by (intros l; apply Forall_fmap, Forall_forall; intros; apply zswap_cost_nonneg).
  unfold raw_costs. destruct tx as [stx|c]; [|cbn in Hi0; by apply not_elem_of_nil in Hi0].
  destruct fallible.
  - pose proof (sum_covers _ gas RC_ZERO ltac:(done) HF Hg Hin) as H1. assert (Hu : rc_u64 (foldl RunningCost_add RC_ZERO (tx_intents (Standard stx) ≫= intent_fallible m)))
      by (apply sum_u64; [done|done|]; intros E; rewrite E in Hin; by apply not_elem_of_nil in Hin).
    split; [|eapply covers_trans; [by apply sum_covers_acc|done]].
    destruct ((map_iter (fallible_coins stx)).*2) as [|o l]; [done|]. by apply sum_u64; [apply rc_u64_nonneg|apply Hz|].
  - pose proof (sum_covers _ gas (baseline_cost m) (mo_baseline m Hm) HG Hg Hin) as H1.
    assert (Hu : rc_u64 (foldl RunningCost_add (baseline_cost m) (tx_intents (Standard stx) ≫= intent_guaranteed m)))
      by (apply sum_u64; [apply Hm|done|]; intros E; rewrite E in Hin; by apply not_elem_of_nil in Hin).
    set (g := foldl RunningCost_add (baseline_cost m) _) in *. set (g1 := foldl RunningCost_add g _).
    assert (Hg1 : rc_u64 g1 /\ covers g1 g).
    { unfold g1. destruct (guaranteed_coins stx) as [o|]; cbn [option_list fmap list_fmap]; [|split; [done|apply covers_refl]].
      split; [apply sum_u64; [by apply rc_u64_nonneg|apply (Hz [o])|done]|apply sum_covers_acc; [done|apply (Hz [o])]]. }
    destruct Hg1 as [Hu1 Hc1]. destruct (add_computes_covers (zswap_cost m <$> (map_iter (fallible_coins stx)).*2) g1 Hu1 (Hz _)) as [H2 H3].
    split; [done|]. eapply covers_trans; [exact H3|]. by eapply covers_trans.
Qed.

Lemma raw_nonneg stx : Forall intent_gas_ok (tx_intents (Standard stx)) ->
  cost_nonneg (raw_costs m (Standard stx)).1 /\ cost_nonneg (raw_costs m (Standard stx)).2.
Proof.
  intros Hok. rewrite Forall_forall in Hok.
  assert (Hz : forall l : list ZswapOffer, Forall cost_nonneg (zswap_cost m <$> l))
    by (intros l; apply Forall_fmap, Forall_forall; intros; apply zswap_cost_nonneg).
  unfold raw_costs. cbn [fst snd]. split.
  - assert (Hf : forall l c, cost_nonneg c -> Forall cost_nonneg l -> cost_nonneg (foldl (fun g c => add_compute g (rc_compute_time c)) c l)).
    { intros l. induction l as [|x l IH]; intros c Hc Hl; cbn [foldl]; [done|]. apply Forall_cons in Hl as [(_ & Hx & _) Hl].
      apply IH; [by apply add_compute_nonneg|done]. }
    apply Hf; [|apply Hz]. apply sum_nonneg; [|apply Hz]. apply sum_nonneg; [apply Hm|]. apply Forall_bind, Forall_forall. intros i Hi. apply intent_costs_nonneg, Hok, Hi.
  - apply sum_nonneg; [|apply Hz]. apply sum_nonneg; [done|]. apply Forall_bind, Forall_forall. intros i Hi. apply intent_costs_nonneg, Hok, Hi.
Qed.

Lemma scale_nonneg c f : cost_nonneg c -> cost_nonneg (scale_compute c f).
Proof. intros (? & ? & ? & ?). split_and!; try done. apply mul_fp_nonneg. Qed.

(** Adding a cost that is not negative. *)
Lemma synthetic_add_covers v c gas :
  (0 <= sc_read_time v /\ 0 <= sc_compute_time v /\ 0 <= sc_bytes_written v /\ 0 <= sc_bytes_churned v) -> rc_u64 c ->
  rc_read_time gas <= rc_read_time c -> rc_bytes_written gas <= rc_bytes_written c ->
  let s := SyntheticCost_add v (SyntheticCost_from c) in
  rc_read_time gas <= sc_read_time s /\ rc_bytes_written gas <= sc_bytes_written s + sc_bytes_churned s /\ rc_compute_time c <= sc_compute_time s.
Proof.
  intros (? & ? & ? & ?) [[] [] [] []] Hr Hw. cbn. unfold CostDuration_add, sat_add, sat_sub, u_max, in_u in *. lia.
Qed.

(** Each section's cost is part of the scaled sum. *)
Lemma scaled_part (g f : RunningCost) gf ff (fallible : bool) : cost_nonneg g -> cost_nonneg f ->
  let x := if fallible then f else g in let fx := if fallible then ff else gf in
  let app := RunningCost_add (scale_compute g gf) (scale_compute f ff) in rc_u64 x -> 0 <= fx <= FP_MAX ->
  rc_read_time x <= rc_read_time app /\ rc_bytes_written x <= rc_bytes_written app /\
  (rc_compute_time x < 2 ^ 63 -> scaled_time (rc_compute_time x) fx <= rc_compute_time app).
Proof.
  intros (? & ? & ? & ?) (? & ? & ? & ?). cbv zeta. intros [[] [Hx0 ?] [] []] Hfx. pose proof (mul_fp_nonneg (rc_compute_time g) gf).
  pose proof (mul_fp_nonneg (rc_compute_time f) ff). set (x := if fallible then f else g) in *. set (fx := if fallible then ff else gf) in *.
  pose proof (fun Hlt => mul_fp_scaled (rc_compute_time x) fx (conj Hx0 Hlt) Hfx) as Hone.
  assert (Hcap : scaled_time (rc_compute_time x) fx <= 2 ^ 63) by (unfold scaled_time; lia).
  unfold scale_compute. cbn [RunningCost_add rc_read_time rc_compute_time rc_bytes_written]. unfold CostDuration_add, sat_add, u_max.
  subst x fx. destruct fallible; (split_and!; [lia|lia|]); intros Hlt; specialize (Hone Hlt); lia.
Qed.
End charged.

(** ** Properties *)

(** What is assumed of the sizes the estimate asks for. *)
Definition sizes_ok `{PR : Prims} `{CI : !CostInputs} : Prop :=
  (forall c, 0 <= public_inputs_len c) /\ (forall o, 0 <= signatures_len o) /\ (forall e, 0 <= ep_size e) /\
  (forall v, 0 <= versioned_vk_size v) /\ (forall i, 0 <= ir_size i) /\ (forall k, 0 <= vk_size k).

(** C19. Contract calls are charged the gas they declare.  The cost of a transaction
    has at least the read time and the bytes a transcript declares, whichever
    section it runs in; and at least its compute time times the factor of the
    ledger's parameters for that section, rounded up and at most [2^63], so the
    declared time itself where the factor is one, as it is by default.  This is
    provided the compute times of that section add up to less than [2^63]
    picoseconds.  Beyond that, with a factor of at most one, the compute time of
    the section counts as nothing at all. *)
Theorem declared_gas_charged `{PR : Prims} {CI : CostInputs} params tx enforce cost (fallible : bool) gas :
  sizes_ok -> model_ok (cost_model params) ->
  let factor := if fallible then fallible_factor (cost_model params) else guaranteed_factor (cost_model params) in
  0 <= factor <= FP_MAX ->
  Forall intent_gas_ok (tx_intents tx) -> declares tx fallible gas -> rc_u64 gas -> tx_cost tx params enforce = Ok cost ->
  let '(g, f) := raw_costs (cost_model params) tx in
  let section := if fallible then f else g in
  rc_read_time gas <= sc_read_time cost /\ rc_bytes_written gas <= sc_bytes_written cost + sc_bytes_churned cost /\
  (rc_compute_time section < 2 ^ 63 ->
   scaled_time (rc_compute_time gas) factor <= sc_compute_time cost /\
   (FP_ONE <= factor -> rc_compute_time gas <= sc_compute_time cost)) /\
  (2 ^ 63 <= rc_compute_time section -> factor <= FP_ONE -> rc_compute_time (scale_compute section factor) = 0).
Proof.
  intros (Hpi & Hsig & Hep & Hvk & Hir & Hkey) Hm factor Hfac Hok Hd Hu. unfold tx_cost, cost_from, application_cost.
  pose proof (raw_covers Hep Hvk Hir (cost_model params) Hm tx fallible gas Hok Hd Hu) as Hraw.
  destruct tx as [stx|c]; [|destruct Hd as (i & _ & _ & Hi & _); by apply not_elem_of_nil in Hi].
  pose proof (raw_nonneg Hep Hvk Hir (cost_model params) Hm stx Hok) as [Hg0 Hf0].
  destruct (raw_costs (cost_model params) (Standard stx)) as [g f]. cbn [fst snd] in *. destruct (_ && _); [done|]. intros [= <-].
  destruct Hraw as [Hsu Hsc].
  assert (Hv : let s := validation_cost (cost_model params) (Standard stx) in
    0 <= sc_read_time s /\ 0 <= sc_compute_time s /\ 0 <= sc_bytes_written s /\ 0 <= sc_bytes_churned s).
  { apply (validation_nonneg Hpi Hsig (cost_model params) Hm). intros. apply RunningCost_add_nonneg; [apply RunningCost_add_nonneg|];
      [by apply cell_read_nonneg|by apply map_index_nonneg|by apply map_index_nonneg]. }
  cbv zeta in Hv. set (gf := guaranteed_factor (cost_model params)) in *. set (ff := fallible_factor (cost_model params)) in *.
  pose proof (rc_u64_add _ _ (scale_nonneg g gf Hg0) (scale_nonneg f ff Hf0)) as Hsum.
  destruct (scaled_part g f gf ff fallible Hg0 Hf0 Hsu Hfac) as (P1 & P2 & P3). fold factor in P3.
  set (app := RunningCost_add (scale_compute g gf) (scale_compute f ff)) in *. destruct Hsc as [C1 C2 C3].
  destruct (synthetic_add_covers (validation_cost (cost_model params) (Standard stx)) app gas Hv Hsum ltac:(lia) ltac:(lia)) as (S1 & S2 & S3).
  split_and!; [done|done| |].
  - intros Hlt. specialize (P3 Hlt). pose proof (scaled_time_mono _ _ factor C2 (proj1 Hfac)).
    assert (Hle : scaled_time (rc_compute_time gas) factor <= sc_compute_time (SyntheticCost_add (validation_cost (cost_model params) (Standard stx)) (SyntheticCost_from app))) by lia.
    split; [exact Hle|]. intros H1. rewrite <- (scaled_time_one (rc_compute_time gas)) by lia. destruct Hu as [_ [? _] _ _].
    pose proof (scaled_time_factor (rc_compute_time gas) FP_ONE factor). lia.
  - intros Hge H1. apply mul_fp_upper; [|lia]. destruct Hsu as [_ [? ?] _ _]. lia.
Qed.

(** ** Example *)

Module FeeExample.
Import SupplyExample.
Definition gas (compute : Z) : RunningCost := mkRunningCost 1000 compute 10 0.
Definition call (compute : Z) : ContractCall :=
  mkContractCall (replicate 32 3) [1] None (Some (mkTranscript (gas compute) Effects_default [] None)) 0.
Definition calling (compute : Z) : LedgerIntent := mkIntent None None [Call (call compute)] None 300 0.
Definition tx (compute : Z) : Transaction := Standard (mkStandardTransaction "net" {[1 := calling compute]} None ∅ 0).
Definition compute_cost (compute : Z) : option Z :=
  match tx_cost (tx compute) params true with Ok c => Some (sc_compute_time c) | Err _ => None end.

Lemma sizes_hold : sizes_ok.
Proof. unfold sizes_ok. cbn. split_and!; intros; lia. Qed.
Lemma model_holds : model_ok (cost_model params).
Proof. split; [apply (bool_decide_unpack _); vm_compute; exact I|vm_compute; split_and!; discriminate]. Qed.
Lemma tx_intents_eq compute : tx_intents (tx compute) = [calling compute].
Proof. cbn [tx_intents tx intents map_iter prims]. by rewrite map_to_list_singleton. Qed.
Lemma gas_u64 compute : in_u 64 compute -> rc_u64 (gas compute).
Proof. intros Hc. split; [by vm_compute|done|by vm_compute|by vm_compute]. Qed.

Lemma gas_of_calling compute : in_u 64 compute -> Forall intent_gas_ok (tx_intents (tx compute)).
Proof.
  intros Hc. rewrite tx_intents_eq. apply Forall_singleton. unfold intent_gas_ok, calling. cbn [actions]. apply Forall_singleton.
  split; [exact I|by apply gas_u64].
Qed.
Lemma declares_gas compute : declares (tx compute) true (gas compute).
Proof.
  exists (calling compute), (call compute), (mkTranscript (gas compute) Effects_default [] None). rewrite tx_intents_eq.
  split_and!; [left|left|reflexivity|reflexivity].
Qed.

(** Declaring [2^63] picoseconds costs less than declaring a thousandth of a second. *)
Lemma huge_gas_is_cheaper : match compute_cost (2 ^ 63), compute_cost 1000000000 with Some a, Some b => a <? b | _, _ => false end = true.
Proof. vm_compute. reflexivity. Qed.
End FeeExample.

Import SupplyExample FeeExample.

Lemma declared_gas_charged_witness : exists cost, tx_cost (FeeExample.tx 5000) params true = Ok cost /\ 5000 <= sc_compute_time cost.
Proof.
  assert (Hv : match tx_cost (FeeExample.tx 5000) params true with Ok _ => true | Err _ => false end = true) by (vm_compute; reflexivity).
  assert (Hr : (rc_compute_time (raw_costs (cost_model params) (FeeExample.tx 5000)).2 <? 2 ^ 63) = true) by (vm_compute; reflexivity).
  destruct (tx_cost (FeeExample.tx 5000) params true) as [cost|] eqn:E; [|discriminate Hv]. exists cost. split; [reflexivity|].
  assert (H5 : in_u 64 5000) by (split; [discriminate|reflexivity]).
  assert (Hf : 0 <= fallible_factor (cost_model params) <= FP_MAX) by (vm_compute; split; discriminate).
  assert (H1 : FP_ONE <= fallible_factor (cost_model params)) by (vm_compute; discriminate).
  pose proof (declared_gas_charged params (FeeExample.tx 5000) true cost true (gas 5000) sizes_hold model_holds Hf
    (gas_of_calling 5000 H5) (declares_gas 5000) (gas_u64 5000 H5) E) as H.
  destruct (raw_costs (cost_model params) (FeeExample.tx 5000)) as [g f]. destruct H as (_ & _ & H & _).
  apply (proj2 (H (proj1 (Z.ltb_lt _ _) Hr)) H1).
Defined.
