(* ===== verification/LedgerApply.v ===== *)
(** * Applying transactions ([ledger/src/semantics.rs])

    A transaction is applied section by section: the guaranteed section first,
    with replay protection, fees and the check that the shielded offers of the
    other segments can be applied; then each fallible segment, which takes
    effect or leaves the state alone.  The calls, deployments and maintenance
    updates of contracts are the actions of an intent.

    Transactions carry no proofs or signatures here, so erasing them is the
    identity.  Log messages are left out. *)

From S2P Require Import Prelude Serialize MerkleTree Storage Cost DeltaTracking VmCost Fab OnchainVm ZswapMemo Repr Coins.
From S2P Require Import Runtime ZswapOffer ZswapLedger Intents Dust LedgerData TxCost Ledger.
From stdpp Require Import gmap strings sorting.

Local Open Scope Z_scope.

(** A map's entries in the order of their segments ([sorted_iter]). *)
Definition sorted_iter {V} (m : gmap Z V) : list (Z * V) := merge_sort (fun a b => a.1 <= b.1) (map_to_list m).

Definition whitelist_matches (whitelist : option (gset ContractAddress)) (addr : ContractAddress) : bool :=
  match whitelist with Some wl => bool_decide (addr ∈ wl) | None => true end.

Section apply.
Context `{P : Prims} {HS : Hashes} {CI : CostInputs}.
Local Abbreviation transient_hash2 := (fun a b => transient_hash [a; b]).
Local Abbreviation degrade := (degrade_to_transient modulus).
Local Abbreviation run_transcript := (run_transcript modulus transient_hash2 (@map_iter _) state_key arena arena_hash_size
  unreferenced_keys traversal_bound node_sizes state_size).

(** ** The context of a call *)

(** The calls a transcript claims, with whether it is the guaranteed one; the
    first that is the callee's. *)
Definition calls_with_seq (self callee : ContractCall) : option (bool * Z) :=
  let transcripts := ((fun t => (t, true)) <$> option_list (guaranteed_transcript self)) ++
                     ((fun t => (t, false)) <$> option_list (fallible_transcript self)) in
  let calls := t ← transcripts; (fun x => (x, t.2)) <$> set_iter (@map_iter _) (claimed_contract_calls (tr_effects t.1)) in
  (fun c => (c.2, ccc_pos c.1)) <$>
    head (filter (fun c => ccc_address c.1 = call_address callee /\ ccc_entry_point c.1 = ep_hash (call_entry_point callee) /\
                           ccc_commitment c.1 = communication_commitment callee) calls).

Definition calls (self callee : ContractCall) : bool := bool_decide (is_Some (calls_with_seq self callee)).

(** The address of the contract that calls this one, or of the user who owns all
    unshielded inputs. *)
Definition call_caller (self : ContractCall) (intent : LedgerIntent) : option PublicAddress :=
  match head (omap (fun action => match action with
                                  | Call caller => if calls caller self then Some (AddrContract (call_address caller)) else None
                                  | _ => None
                                  end) (actions intent)) with
  | Some caller => Some caller
  | None =>
      match spend_owner <$> (from_option uo_inputs [] (guaranteed_unshielded_offer intent) ++
                             from_option uo_inputs [] (fallible_unshielded_offer intent)) with
      | owner :: owners => if forallb (fun owner2 => bool_decide (owner = owner2)) owners then Some (AddrUser (user_address owner)) else None
      | [] => None
      end
  end.

Definition call_context (self : ContractCall) (block : BlockContext) (intent : LedgerIntent) (state : ContractState)
  (com_indices : gmap HashOutput Z) : CallContext :=
  mkCallContext (call_address self) (bc_tblock block) (bc_tblock_err block) (bc_parent_block_hash block)
    (call_caller self intent) (balance state) com_indices (bc_last_block_time block).

(** ** Contracts *)

Definition update_index (self : LedgerState) (address : ContractAddress) (state : ChargedState ArenaHash)
  (balance : gmap TokenType Z) : LedgerState :=
  let '(operations, authority) := match contract self !! address with
                                  | Some contract => (operations contract, maintenance_authority contract)
                                  | None => (∅, ContractMaintenanceAuthority_new)
                                  end in
  with_contract self (<[address := mkContractState state operations authority balance]> (contract self)).

(** The amounts a contract receives and gives away. *)
Definition add_balance (balance : gmap TokenType Z) (tv : TokenType * Z) : outcome LedgerInvalid (gmap TokenType Z) :=
  let bal := default 0 (balance !! tv.1) in
  match checked_add 128 bal tv.2 with
  | Some v => Ret (<[tv.1 := v]> balance)
  | None => Fail (BalanceCheckOutOfBounds tv.1 bal tv.2 true)
  end.
Definition sub_balance (balance : gmap TokenType Z) (tv : TokenType * Z) : outcome LedgerInvalid (gmap TokenType Z) :=
  let bal := default 0 (balance !! tv.1) in
  match checked_sub bal tv.2 with
  | Some v => Ret (<[tv.1 := v]> balance)
  | None => Fail (BalanceCheckOutOfBounds tv.1 bal tv.2 false)
  end.
Definition move_balance (balance : gmap TokenType Z) (effects : Effects) : outcome LedgerInvalid (gmap TokenType Z) :=
  balance ← try_fold_o add_balance balance (map_iter (unshielded_inputs effects));
  try_fold_o sub_balance balance (map_iter (unshielded_outputs effects)).

Definition apply_call (self res : LedgerState) (call : ContractCall) (guaranteed : bool) (context : TransactionContext)
  (parent_intent : LedgerIntent) (com_indices : gmap HashOutput Z) (event_source : EventSource)
  : outcome LedgerInvalid (LedgerState * list Event) :=
  match index res (call_address call) with
  | None => Fail (ContractNotPresent (call_address call))
  | Some cstate =>
      match (if guaranteed then guaranteed_transcript call else fallible_transcript call) with
      | None => Ret (res, [])
      | Some transcript =>
          let qcontext := QueryContext_new (data cstate) (call_address call) in
          let qcontext := mkQueryContext _ _ _ (qc_state qcontext) (qc_effects qcontext) (qc_address qcontext)
                            (call_context call (block_context context) parent_intent cstate com_indices) in
          results ← map_fail TranscriptInvalid (run_transcript (runtime_cost_model (cost_model (parameters self))) qcontext transcript);
          if decide (qc_effects (qr_context results) <> tr_effects transcript) then
            Fail (EffectsMismatch (tr_effects transcript) (qc_effects (qr_context results)))
          else
            new_balance ← move_balance (balance cstate) (tr_effects transcript);
            Ret (update_index res (call_address call) (qc_state (qr_context results)) new_balance,
                 (fun event => mkEvent event_source (ContractLog (call_address call) (call_entry_point call) event)) <$> qr_events results)
      end
  end.

(** The sizes of a contract's metadata ([ledger/src/verify.rs]). *)
Inductive MetadataSizeError := EntryPointSize (entry_point : EntryPointBuf) (size : Z) | AuthoritySize (size : Z).

Definition check_entry_point_metadata_sizes (state : ContractState) (limit : Z) : result MetadataSizeError unit :=
  let auth_size := authority_size (maintenance_authority state) in
  if limit <? auth_size then Err (AuthoritySize auth_size)
  else try_for_each (fun entry =>
         let size := entry_point_size entry.1 + operation_size entry.2 in
         if limit <? size then Err (EntryPointSize entry.1 size) else Ok tt) (map_iter (operations state)).

Definition metadata_sizes_checked (self : LedgerState) (addr : ContractAddress) (state : ContractState) : outcome LedgerInvalid unit :=
  let limit := max_contract_metadata_size (limits (parameters self)) in
  match check_entry_point_metadata_sizes state limit with
  | Ok _ => Ret tt
  | Err (EntryPointSize entry_point size) => Fail (ContractMetadataTooLarge addr entry_point size limit)
  | Err (AuthoritySize size) => Fail (ContractAuthorityMetadataTooLarge addr size limit)
  end.

Definition apply_deploy (self res : LedgerState) (deploy : ContractDeploy) (event_source : EventSource)
  : outcome LedgerInvalid (LedgerState * list Event) :=
  let addr := deploy_address deploy in
  if bool_decide (is_Some (contract res !! addr)) then Fail (ContractAlreadyDeployed addr)
  else
    _ ← metadata_sizes_checked self addr (initial_state deploy);
    Ret (with_contract res (<[addr := initial_state deploy]> (contract res)),
         [mkEvent event_source (ContractDeployed addr (initial_state deploy))]).

(** *** Maintenance updates *)

Definition with_operations (cstate : ContractState) ops : ContractState :=
  mkContractState (data cstate) ops (maintenance_authority cstate) (balance cstate).
Definition with_authority (cstate : ContractState) auth : ContractState :=
  mkContractState (data cstate) (operations cstate) auth (balance cstate).

(** An operation that has become empty is removed. *)
Definition store_operation (cstate : ContractState) (ep : EntryPointBuf) (op : ContractOperation) : ContractState :=
  with_operations cstate (if decide (op = ContractOperation_new None None) then delete ep (operations cstate)
                          else <[ep := op]> (operations cstate)).

Definition apply_update (cstate : ContractState) (op : SingleUpdate) : outcome LedgerInvalid ContractState :=
  let operation ep := default (ContractOperation_new None None) (operations cstate !! ep) in
  match op with
  | ReplaceAuthority auth => Ret (with_authority cstate auth)
  | VerifierKeyRemove ep ver =>
      match operations cstate !! ep with
      | Some op => if version_has ver op then Ret (store_operation cstate ep (version_rm_from ver op)) else Fail (VerifierKeyNotFound ep ver)
      | None => Fail (VerifierKeyNotFound ep ver)
      end
  | VerifierKeyInsert ep vk =>
      if version_has (as_version vk) (operation ep) then Fail (VerifierKeyAlreadyPresent ep (as_version vk))
      else Ret (with_operations cstate (<[ep := vk_insert_into vk (operation ep)]> (operations cstate)))
  | IrRemove ep =>
      match operations cstate !! ep with
      | Some op => Ret (store_operation cstate ep (mkContractOperation (v2 op) (v3 op) None))
      | None => Fail (IrNotFound ep)
      end
  | IrInsert ep ir_ =>
      if bool_decide (is_Some (ir (operation ep))) then Fail (IrAlreadyPresent ep)
      else Ret (with_operations cstate
                  (<[ep := mkContractOperation (v2 (operation ep)) (v3 (operation ep)) (Some ir_)]> (operations cstate)))
  end.

Definition apply_maintain (self res : LedgerState) (upd : MaintenanceUpdate) : outcome LedgerInvalid LedgerState :=
  let addr := upd_address upd in
  match contract res !! addr with
  | None => Fail (ContractNotPresent addr)
  | Some cstate =>
      let auth := maintenance_authority cstate in
      if negb (counter auth =? upd_counter upd) then Fail (ReplayCounterMismatch addr)
      else
        cstate ← try_fold_o apply_update
                   (with_authority cstate (mkAuthority (committee auth) (threshold auth) (sat_add 32 (counter auth) 1))) (updates upd);
        _ ← metadata_sizes_checked self addr cstate;
        Ret (with_contract res (<[addr := cstate]> (contract res)))
  end.

(** *** The actions of an intent *)

Definition apply_action (self : LedgerState) (guaranteed : bool) (context : TransactionContext) (parent_intent : LedgerIntent)
  (com_indices : gmap HashOutput Z) (event_source : EventSource) (acc : LedgerState * list Event) (action : ContractAction)
  : outcome LedgerInvalid (LedgerState * list Event) :=
  let '(res, events) := acc in
  match action with
  | Call call =>
      if negb (whitelist_matches (whitelist context) (call_address call)) then Ret acc
      else '(res, new) ← apply_call self res call guaranteed context parent_intent com_indices event_source;
           Ret (res, events ++ new)
  | Deploy deploy =>
      if negb (whitelist_matches (whitelist context) (deploy_address deploy)) || guaranteed then Ret acc
      else '(res, new) ← apply_deploy self res deploy event_source;
           Ret (res, events ++ new)
  | Maintain upd =>
      if negb (whitelist_matches (whitelist context) (upd_address upd)) || guaranteed then Ret acc
      else res ← apply_maintain self res upd;
           Ret (res, events)
  end.

Definition apply_actions (self : LedgerState) (calls : list ContractAction) (guaranteed : bool) (context : TransactionContext)
  (parent_intent : LedgerIntent) (com_indices : gmap HashOutput Z) (event_source : EventSource)
  : outcome LedgerInvalid (LedgerState * list Event) :=
  try_fold_o (apply_action self guaranteed context parent_intent com_indices event_source) (self, []) calls.

(** ** Sections *)

Definition tblock_of (context : TransactionContext) : Timestamp := bc_tblock (block_context context).

(** An intent's unshielded offer, on the outputs and on the Dust they generate. *)
Definition apply_unshielded (st : LedgerState) (offer : option UnshieldedOffer) (intent : LedgerIntent) (segment : Z)
  (context : TransactionContext) (source : EventSource) : outcome LedgerInvalid (LedgerState * list DeferredEvent) :=
  match offer with
  | None => Ret (st, [])
  | Some offer =>
      utxo ← map_fail UtxosInvalid (of_result (apply_offer user_address (ls_utxo st) offer (intent_hash intent segment) (tblock_of context)));
      '(dust, events) ← map_fail DustPartInvalid
         (dust_apply_offer modulus transient_hash persistent_hash user_address intent_hash (dust st) offer intent segment (tblock_of context));
      mret (with_dust (with_utxo st utxo) dust, map (deferred_dust source) events)
  end.

(** The offer and the actions of an intent, in the section they belong to. *)
Definition apply_intent_section (st : LedgerState) (intent : LedgerIntent) (guaranteed : bool) (segment : Z)
  (context : TransactionContext) (com_indices : gmap HashOutput Z) (source : EventSource)
  : outcome LedgerInvalid (LedgerState * list DeferredEvent) :=
  '(st, events) ← apply_unshielded st
     (if guaranteed then guaranteed_unshielded_offer intent else fallible_unshielded_offer intent) intent segment context source;
  '(st, new) ← apply_actions st (actions intent) guaranteed context intent com_indices source;
  mret (st, events ++ map Ret new).

Definition apply_optional_zswap (st : LedgerState) (offer : option ZswapOffer) (context : TransactionContext)
  (transaction_hash : list Z) (segment : Z)
  : outcome LedgerInvalid (LedgerState * gmap HashOutput Z * list DeferredEvent) :=
  match offer with
  | None => Ret (st, ∅, [])
  | Some offer =>
      '(st, com_indices, events) ← apply_zswap st offer (whitelist context) transaction_hash segment;
      mret (st, com_indices, map Ret events)
  end.

(** The shielded offers of the fallible segments, applied one after the other. *)
Definition dry_run (z : State) (offers : list ZswapOffer) (context : TransactionContext) : outcome LedgerInvalid State :=
  map_fail ZswapInvalid (try_fold_o (fun z offer =>
    '(z, _) ← State_try_apply 0 transient_hash2 degrade z offer (whitelist context); mret z) z offers).

(** Spends of Dust pay fees first, then registrations. *)
Definition apply_dust_spends (transaction_hash : list Z) (segment : Z) (context : TransactionContext)
  (acc : LedgerState * Z * list DeferredEvent) (entry : Z * LedgerIntent) : outcome LedgerInvalid (LedgerState * Z * list DeferredEvent) :=
  try_fold_o (fun acc s =>
    let '(st, fees_remaining, events) := acc in
    '(dust, new) ← map_fail DustPartInvalid
       (apply_spend (dust st) s (from_option da_ctime 0 (dust_actions entry.2)) (tblock_of context));
    mret (with_dust st dust, sat_sub fees_remaining (v_fee s),
          events ++ map (deferred_dust (mkEventSource transaction_hash segment entry.1)) new))
    acc (from_option spends [] (dust_actions entry.2)).

Definition apply_dust_registrations (transaction_hash : list Z) (segment : Z) (context : TransactionContext)
  (acc : LedgerState * Z * list DeferredEvent) (entry : Z * LedgerIntent) : outcome LedgerInvalid (LedgerState * Z * list DeferredEvent) :=
  try_fold_o (fun acc reg =>
    let '(st, fees_remaining, events) := acc in
    '(dust, fees_remaining, new) ← map_fail DustPartInvalid
       (apply_registration modulus transient_hash persistent_hash user_address intent_hash (dust st) (ls_utxo (ref_state context))
          fees_remaining entry.2 reg (dust_parameters (parameters st)) (from_option da_ctime 0 (dust_actions entry.2)) (tblock_of context));
    mret (with_dust st dust, fees_remaining,
          events ++ map (deferred_dust (mkEventSource transaction_hash segment entry.1)) new))
    acc (from_option registrations [] (dust_actions entry.2)).

(** Fees that are left unpaid are logged. *)
Definition apply_fees (st : LedgerState) (tx : StandardTransaction) (transaction_hash : list Z) (fees segment : Z)
  (context : TransactionContext) : outcome LedgerInvalid (LedgerState * Z * list DeferredEvent) :=
  acc ← try_fold_o (apply_dust_spends transaction_hash segment context) (st, fees, []) (sorted_iter (intents tx));
  try_fold_o (apply_dust_registrations transaction_hash segment context) acc (sorted_iter (intents tx)).

Definition guaranteed_section (self : LedgerState) (tx : StandardTransaction) (transaction_hash : list Z) (fees segment : Z)
  (context : TransactionContext) : outcome LedgerInvalid (LedgerState * list DeferredEvent) :=
  replay ← map_fail ReplayProtectionViolation
    (of_result (apply_tx intent_hash ttl (replay_protection self) (intents tx) (tblock_of context) (global_ttl (parameters self))));
  '(st, com_indices, events) ← apply_optional_zswap (with_replay self replay) (guaranteed_coins tx) context transaction_hash segment;
  _ ← dry_run (zswap st) (sorted_iter (fallible_coins tx)).*2 context;
  '(st, events) ← try_fold_o (fun acc entry =>
     '(st, new) ← apply_intent_section acc.1 entry.2 true segment context com_indices (mkEventSource transaction_hash segment entry.1);
     mret (st, acc.2 ++ new)) (st, events) (sorted_iter (intents tx));
  '(st, _, new) ← apply_fees st tx transaction_hash fees segment context;
  mret (st, events ++ new).

Definition fallible_section (self : LedgerState) (tx : StandardTransaction) (transaction_hash : list Z) (segment : Z)
  (context : TransactionContext) : outcome LedgerInvalid (LedgerState * list DeferredEvent) :=
  '(st, com_indices, events) ← apply_optional_zswap self (fallible_coins tx !! segment) context transaction_hash segment;
  match intents tx !! segment with
  | None => mret (st, events)
  | Some intent =>
      '(st, new) ← apply_intent_section st intent false segment context com_indices
                     (mkEventSource transaction_hash GUARANTEED_SEGMENT segment);
      mret (st, events ++ new)
  end.

Definition apply_section (self : LedgerState) (tx : StandardTransaction) (transaction_hash : list Z) (fees segment : Z)
  (context : TransactionContext) : outcome LedgerInvalid (LedgerState * list DeferredEvent) :=
  '(st, events) ← (if segment =? GUARANTEED_SEGMENT then guaranteed_section self tx transaction_hash fees segment context
                   else fallible_section self tx transaction_hash segment context);
  match check_night_balance_invariant st with
  | Ok _ => Ret (st, events)
  | Err total => Fail (NightBalance total)
  end.

(** ** Transactions *)

(** [GuaranteedApplyResult]. *)
Record GuaranteedApplyResult := mkGuaranteedApplyResult {
  gar_state : LedgerState;
  gar_tx : VerifiedTransaction;
  deferred_events : list DeferredEvent
}.

(** The transaction [min_claimable_rewards] makes up is a parameter of [claim_unshielded]. *)
Definition apply_guaranteed_only (phantom : ClaimRewardsTransaction) (self : LedgerState) (tx : VerifiedTransaction)
  (context : TransactionContext) : outcome LedgerInvalid GuaranteedApplyResult :=
  match inner tx with
  | Standard stx =>
      '(state, deferred_events) ← apply_section self stx (tx_hash tx) (tx_fees tx) 0 context;
      Ret (mkGuaranteedApplyResult state tx deferred_events)
  | ClaimRewards rewards =>
      '(state, events) ← claim_unshielded phantom self rewards (block_context context)
                           (mkEventSource (tx_hash tx) GUARANTEED_SEGMENT GUARANTEED_SEGMENT);
      Ret (mkGuaranteedApplyResult state tx events)
  end.

(** Making the events that were deferred. *)
Definition materialize (l : list DeferredEvent) : outcome Empty_set (list Event) := mapM id l.

(** What a transaction's fallible segments have done so far. *)
Record Progress := mkProgress {
  pr_state : LedgerState;
  pr_events : list Event;
  segment_success : gmap Z (option LedgerInvalid);
  total_success : bool
}.

Definition fallible_step (stx : StandardTransaction) (tx : VerifiedTransaction) (context : TransactionContext)
  (pr : Progress) (segment : Z) : outcome Empty_set Progress :=
  match apply_section (pr_state pr) stx (tx_hash tx) (tx_fees tx) segment context with
  | Ret (state, deferred) =>
      new ← materialize deferred;
      Ret (mkProgress state (pr_events pr ++ new) (<[segment := None]> (segment_success pr)) (total_success pr))
  | Fail e => Ret (mkProgress (pr_state pr) (pr_events pr) (<[segment := Some e]> (segment_success pr)) false)
  | Panic => Panic
  end.

Definition apply_fallible (self : GuaranteedApplyResult) (context : TransactionContext)
  : outcome Empty_set (LedgerState * TransactionResult) :=
  events ← materialize (deferred_events self);
  match inner (gar_tx self) with
  | ClaimRewards _ => Ret (gar_state self, Success events)
  | Standard stx =>
      pr ← try_fold_o (fallible_step stx (gar_tx self) context) (mkProgress (gar_state self) events {[0 := None]} true)
             (fallible_segments stx);
      Ret (pr_state pr, if total_success pr then Success (pr_events pr) else PartialSuccess (segment_success pr) (pr_events pr))
  end.

Definition apply (phantom : ClaimRewardsTransaction) (self : LedgerState) (tx : VerifiedTransaction) (context : TransactionContext)
  : outcome Empty_set (LedgerState * TransactionResult) :=
  match apply_guaranteed_only phantom self tx context with
  | Ret guaranteed => apply_fallible guaranteed context
  | Fail e => Ret (self, Failure e)
  | Panic => Panic
  end.

(** ** Batches *)

Definition batch_apply_independant phantom (self : LedgerState) (txs : list VerifiedTransaction) (context : TransactionContext)
  : outcome Empty_set (list TransactionResult) :=
  mapM (fun tx => '(_, res) ← apply phantom self tx context; mret res) txs.

Fixpoint batch_apply_all_or_nothing phantom (state : LedgerState) (txs : list VerifiedTransaction) (context : TransactionContext)
  (res : list TransactionResult) : outcome LedgerInvalid (LedgerState * list TransactionResult) :=
  match txs with
  | [] => Ret (state, res)
  | tx :: txs =>
      match apply phantom state tx context with
      | Ret (_, Failure err) => Fail err
      | Ret (state2, txres) => batch_apply_all_or_nothing phantom state2 txs context (res ++ [txres])
      | _ => Panic
      end
  end.

Fixpoint batch_apply_until_first_failure phantom (state : LedgerState) (txs : list VerifiedTransaction) (context : TransactionContext)
  (res : list TransactionResult)
  : outcome (LedgerState * list TransactionResult * LedgerInvalid * list VerifiedTransaction) (LedgerState * list TransactionResult) :=
  match txs with
  | [] => Ret (state, res)
  | tx :: txs' =>
      match apply phantom state tx context with
      | Ret (_, Failure err) => Fail (state, res, err, txs)
      | Ret (state2, txres) => batch_apply_until_first_failure phantom state2 txs' context (res ++ [txres])
      | _ => Panic
      end
  end.
End apply.
