(* ===== verification/LedgerTheorems.v ===== *)
(** * What applying a transaction guarantees

    The supply of Night is kept, for amounts far below the width of the ledger's
    sum; the shielded part of a fallible segment never fails after the guaranteed
    section has succeeded; an intent is not applied twice; and what batches and
    maintenance updates do. *)

From S2P Require Import Prelude Serialize MerkleTree Storage Cost DeltaTracking VmCost Fab OnchainVm ZswapMemo Repr Coins.
From S2P Require Import Runtime ZswapOffer ZswapLedger Intents Dust LedgerData TxCost Ledger Supply LedgerApply.
From stdpp Require Import gmap strings sorting.

Local Open Scope Z_scope.
Local Abbreviation apply := LedgerApply.apply.

(** ** Night that a transaction brings in *)

Section inflow.
Context `{PR : Prims} {HS : Hashes} {CI : CostInputs}.
Context (Hiter : forall K V `{Countable K} (m : gmap K V), map_iter m ≡ₚ map_to_list m).
Implicit Types st : LedgerState.

(** Night in the outputs of an offer. *)
Definition output_night (o : UtxoOutput) : Z := if decide (output_type o = NIGHT) then output_value o else 0.
Definition offer_inflow (offer : option (@UnshieldedOffer SignatureVerifyingKey)) : Z :=
  foldr (fun o n => output_night o + n) 0 (from_option uo_outputs [] offer).

(** Night that a call's contract is said to receive, and that a new contract starts with. *)
Definition transcript_inflow (t : option Transcript) : Z :=
  from_option (fun t => default 0 (unshielded_inputs (tr_effects t) !! NIGHT_TOKEN)) 0 t.
Definition action_inflow (guaranteed : bool) (a : ContractAction) : Z :=
  match a with
  | Call c => transcript_inflow (if guaranteed then guaranteed_transcript c else fallible_transcript c)
  | Deploy d => default 0 (balance (initial_state d) !! NIGHT_TOKEN)
  | Maintain _ => 0
  end.
Definition intent_inflow (guaranteed : bool) (i : LedgerIntent) : Z :=
  offer_inflow (if guaranteed then guaranteed_unshielded_offer i else fallible_unshielded_offer i) +
  foldr (fun a n => action_inflow guaranteed a + n) 0 (actions i).
Definition guaranteed_inflow (tx : StandardTransaction) : Z :=
  foldr (fun e n => intent_inflow true e.2 + n) 0 (sorted_iter (intents tx)).
Definition fallible_inflow (tx : StandardTransaction) (segment : Z) : Z :=
  from_option (intent_inflow false) 0 (intents tx !! segment).

(** Amounts are not negative. *)
Definition offer_nonneg (offer : option (@UnshieldedOffer SignatureVerifyingKey)) : Prop :=
  Forall (fun o => 0 <= output_value o) (from_option uo_outputs [] offer).
Definition transcript_nonneg (t : option Transcript) : Prop :=
  from_option (fun t => map_Forall (fun _ v => 0 <= v) (unshielded_inputs (tr_effects t)) /\
                        map_Forall (fun _ v => 0 <= v) (unshielded_outputs (tr_effects t))) True t.
Definition action_nonneg (a : ContractAction) : Prop :=
  match a with
  | Call c => transcript_nonneg (guaranteed_transcript c) /\ transcript_nonneg (fallible_transcript c)
  | Deploy d => 0 <= default 0 (balance (initial_state d) !! NIGHT_TOKEN)
  | Maintain _ => True
  end.
Definition intent_nonneg (i : LedgerIntent) : Prop :=
  offer_nonneg (guaranteed_unshielded_offer i) /\ offer_nonneg (fallible_unshielded_offer i) /\ Forall action_nonneg (actions i).

(** The amounts of a transaction are machine integers whose sums stay far below
    the width of the check's arithmetic. *)
Definition inflow_ok (tx : StandardTransaction) : Prop :=
  map_Forall (fun _ i => intent_nonneg i) (intents tx) /\ guaranteed_inflow tx < 2 ^ 126 /\
  forall segment, fallible_inflow tx segment < 2 ^ 126.

(** ** What the parts of a section do to the total *)

(** The new state is in order, and the total has grown by at most [n]. *)
Definition Grows st st' (n : Z) : Prop := amounts_ok st' /\ night_total st' <= night_total st + n.

Lemma Grows_refl st : amounts_ok st -> Grows st st 0.
Proof. intros Ha. split; [done|lia]. Qed.
Lemma Grows_trans st1 st2 st3 n m : Grows st1 st2 n -> Grows st2 st3 m -> Grows st1 st3 (n + m).
Proof. intros [_ H1] [H2 H3]. split; [done|lia]. Qed.
Lemma Grows_weaken st1 st2 n m : Grows st1 st2 n -> n <= m -> Grows st1 st2 m.
Proof. intros [H1 H2] Hm. split; [done|lia]. Qed.

Lemma Grows_with st st' : amounts_ok st -> ls_utxo st' = ls_utxo st -> locked_pool st' = locked_pool st ->
  reserve_pool st' = reserve_pool st -> block_reward_pool st' = block_reward_pool st -> treasury st' = treasury st ->
  unclaimed_block_rewards st' = unclaimed_block_rewards st -> bridge_receiving st' = bridge_receiving st -> contract st' = contract st ->
  Grows st st' 0.
Proof.
  intros [H1 H2 H3 H4 H5 H6 H7 H8] E1 E2 E3 E4 E5 E6 E7 E8. unfold Grows, night_total, treasury_night in *.
  rewrite E1, E2, E3, E4, E5, E6, E7, E8. split; [|lia]. by split; unfold treasury_night; rewrite ?E1, ?E2, ?E3, ?E4, ?E5, ?E6, ?E7, ?E8.
Qed.

Lemma Grows_dust st st' d n : Grows st st' n -> Grows st (with_dust st' d) n.
Proof. intros H. replace n with (n + 0) by lia. eapply Grows_trans; [exact H|]. by apply Grows_with; [apply H|..]. Qed.
Lemma Grows_utxo st us n : amounts_ok st -> nonneg utxo_night (utxos us) ->
  night_sum utxo_night (utxos us) <= night_sum utxo_night (utxos (ls_utxo st)) + n -> Grows st (with_utxo st us) n.
Proof. intros [H1 H2 H3 H4 H5 H6 H7 H8] Hn Hs. split; [by split|]. unfold night_total, treasury_night. cbn. lia. Qed.
Lemma Grows_contract st cs n : amounts_ok st -> nonneg contract_night cs ->
  night_sum contract_night cs <= night_sum contract_night (contract st) + n -> Grows st (with_contract st cs) n.
Proof. intros [H1 H2 H3 H4 H5 H6 H7 H8] Hn Hs. split; [by split|]. unfold night_total, treasury_night. cbn. lia. Qed.

(** Unshielded outputs. *)
Lemma spend_one_sum us (input : @UtxoSpend SignatureVerifyingKey) us' : nonneg utxo_night (utxos us) -> spend_one user_address us input = Ok us' ->
  nonneg utxo_night (utxos us') /\ night_sum utxo_night (utxos us') <= night_sum utxo_night (utxos us).
Proof.
  intros Hn. unfold spend_one. case_bool_decide; [|done]. intros [= <-]. cbn [utxos UtxoState_remove].
  pose proof (entry_nonneg utxo_night (utxos us) (Utxo_from user_address input) Hn). split; [by apply map_Forall_delete|].
  rewrite night_sum_delete. lia.
Qed.

Lemma insert_sum meta l : forall us, nonneg utxo_night (utxos us) -> Forall (fun u => 0 <= utxo_night u meta) l ->
  let us' := foldl (fun res output => UtxoState_insert res output meta) us l in
  nonneg utxo_night (utxos us') /\
  night_sum utxo_night (utxos us') <= night_sum utxo_night (utxos us) + foldr (fun u n => utxo_night u meta + n) 0 l.
Proof.
  induction l as [|u l IH]; intros us Hn Hl; cbn [foldl foldr]; [split; [done|lia]|]. apply Forall_cons in Hl as [Hu Hl].
  pose proof (entry_nonneg utxo_night (utxos us) u Hn).
  destruct (IH (UtxoState_insert us u meta)) as [H1 H2]; [cbn; by apply map_Forall_insert_2|done|].
  split; [done|]. cbn [utxos UtxoState_insert] in H2. rewrite night_sum_insert in H2. lia.
Qed.

Lemma sum_submseteq {X} (f : X -> Z) (l1 l2 : list X) : l1 ⊆+ l2 -> Forall (fun x => 0 <= f x) l2 ->
  foldr (fun x n => f x + n) 0 l1 <= foldr (fun x n => f x + n) 0 l2.
Proof.
  induction 1 as [|x l1 l2 _ IH|x y l|x l1 l2 _ IH|l1 l2 l3 _ IH1 H2 IH2]; intros Hf; cbn [foldr] in *; [lia| |lia| |].
  - apply Forall_cons in Hf as [? ?]. specialize (IH ltac:(done)). lia.
  - apply Forall_cons in Hf as [? ?]. specialize (IH ltac:(done)). lia.
  - specialize (IH2 Hf). assert (Forall (fun x => 0 <= f x) l2); [|specialize (IH1 ltac:(done)); lia].
    rewrite Forall_forall in *. intros x Hx. apply Hf. by eapply elem_of_submseteq.
Qed.

Lemma imap_utxos_sum hash meta os : forall k, foldr (fun u n => utxo_night u meta + n) 0
    (imap (fun i output => mkUtxo (output_value output) (output_owner output) (output_type output) hash (wrap 32 (Z.of_nat (k + i)%nat))) os) =
  foldr (fun o n => output_night o + n) 0 os.
Proof.
  induction os as [|o os IH]; intros k; [done|]. cbn [imap foldr]. rewrite <- (IH (S k)). f_equal.
  f_equal. apply imap_ext. intros i x _. unfold compose. replace (S k + i)%nat with (k + S i)%nat by lia. reflexivity.
Qed.

Lemma apply_offer_sum us (offer : @UnshieldedOffer SignatureVerifyingKey) hash t us' :
  nonneg utxo_night (utxos us) -> offer_nonneg (Some offer) -> apply_offer user_address us offer hash t = Ok us' ->
  nonneg utxo_night (utxos us') /\
  night_sum utxo_night (utxos us') <= night_sum utxo_night (utxos us) + offer_inflow (Some offer).
Proof.
  intros Hn Ho E. unfold apply_offer in E. destruct (try_fold _ us _) as [us1|] eqn:E1; [|done]. cbn [mbind result_bind] in E.
  injection E as <-. assert (H1 : nonneg utxo_night (utxos us1) /\ night_sum utxo_night (utxos us1) <= night_sum utxo_night (utxos us)).
  { revert E1. apply (try_fold_ind (fun us1 => nonneg utxo_night (utxos us1) /\ night_sum utxo_night (utxos us1) <= night_sum utxo_night (utxos us)));
      [|split; [done|lia]]. intros s x s' _ [Hs1 Hs2] Es. destruct (spend_one_sum _ _ _ Hs1 Es). split; [done|lia]. }
  destruct H1 as [Hn1 Hs1]. set (l := offer_utxos offer hash) in *. set (meta := mkUtxoMeta t).
  assert (Hl : Forall (fun u => 0 <= utxo_night u meta) l).
  { apply Forall_forall. intros u (i & Hi)%list_elem_of_lookup. subst l. unfold offer_utxos in Hi. rewrite list_lookup_imap in Hi.
    destruct (uo_outputs offer !! i) as [o|] eqn:Eo; [|done]. injection Hi as <-. unfold utxo_night. cbn. case_decide; [|lia].
    apply list_elem_of_lookup_2 in Eo. by apply (proj1 (Forall_forall _ _) Ho). }
  assert (Hsub : elements (list_to_set l : gset Utxo) ⊆+ l).
  { apply NoDup_submseteq; [apply NoDup_elements|]. intros u. rewrite elem_of_elements. by rewrite elem_of_list_to_set. }
  destruct (insert_sum meta (elements (list_to_set l : gset Utxo)) us1 Hn1) as [H2 H3].
  { rewrite Forall_forall in *. intros u Hu. apply Hl. by eapply elem_of_submseteq. }
  split; [done|]. pose proof (sum_submseteq (fun u => utxo_night u meta) _ _ Hsub Hl) as H4.
  assert (H5 : foldr (fun u n => utxo_night u meta + n) 0 l = foldr (fun o n => output_night o + n) 0 (uo_outputs offer))
    by exact (imap_utxos_sum hash meta (uo_outputs offer) 0).
  eapply Z.le_trans; [exact H3|]. unfold offer_inflow. cbn [from_option]. rewrite <- H5. apply Zplus_le_compat; [exact Hs1|exact H4].
Qed.

Lemma apply_unshielded_grows st offer intent segment ctx source st' ev :
  amounts_ok st -> offer_nonneg offer -> apply_unshielded st offer intent segment ctx source = Ret (st', ev) ->
  Grows st st' (offer_inflow offer).
Proof.
  intros Ha Ho. unfold apply_unshielded. destruct offer as [offer|]; [|intros [= <- _]; by apply Grows_refl].
  destruct (apply_offer _ _ _ _ _) as [us|] eqn:E; cbn [of_result map_fail mbind outcome_bind]; [|done].
  destruct (dust_apply_offer _ _ _ _ _ _ _ _ _ _) as [[d evs]| |]; cbn [map_fail mbind outcome_bind]; [|done..]. intros [= <- _].
  destruct (apply_offer_sum _ _ _ _ _ (ao_utxo _ Ha) Ho E) as [Hn Hs]. by apply Grows_dust, Grows_utxo.
Qed.

(** Contracts. *)
Lemma Grows_store st addr cs n : amounts_ok st -> 0 <= contract_night addr cs ->
  contract_night addr cs <= entry_of contract_night (contract st) addr + n -> Grows st (with_contract st (<[addr := cs]> (contract st))) n.
Proof.
  intros Ha Hn Hs. apply Grows_contract; [done|by apply map_Forall_insert_2; [|apply Ha]|]. rewrite night_sum_insert. lia.
Qed.

(** A fold over the entries of a map acts once on each key. *)
Lemma add_balance_night b tv b' : 0 <= tv.2 -> add_balance b tv = Ret b' ->
  default 0 (b' !! NIGHT_TOKEN) = default 0 (b !! NIGHT_TOKEN) + (if decide (tv.1 = NIGHT_TOKEN) then tv.2 else 0).
Proof.
  destruct tv as [t v]. unfold add_balance, checked_add. cbn [fst snd]. intros Hv. case_match eqn:E; [|done]. intros [= <-].
  destruct (_ <=? _); [|done]. injection E as <-. case_decide as Ht; [subst t; by rewrite lookup_insert_eq|].
  rewrite lookup_insert_ne by done. lia.
Qed.
Lemma sub_balance_night b tv b' : sub_balance b tv = Ret b' ->
  default 0 (b' !! NIGHT_TOKEN) = default 0 (b !! NIGHT_TOKEN) - (if decide (tv.1 = NIGHT_TOKEN) then tv.2 else 0) /\
  (tv.1 = NIGHT_TOKEN -> 0 <= default 0 (b' !! NIGHT_TOKEN)).
Proof.
  destruct tv as [t v]. unfold sub_balance, checked_sub. cbn [fst snd]. case_match eqn:E; [|done]. intros [= <-].
  destruct (Z.leb_spec v (default 0 (b !! t))); [|done]. injection E as <-. case_decide as Ht.
  - subst t. rewrite lookup_insert_eq. cbn. split; [done|intros _; lia].
  - rewrite lookup_insert_ne by done. split; [lia|done].
Qed.

Definition night_part (tv : TokenType * Z) : Z := if decide (tv.1 = NIGHT_TOKEN) then tv.2 else 0.

Lemma night_parts (m : gmap TokenType Z) : foldr (fun tv n => night_part tv + n) 0 (map_iter m) = default 0 (m !! NIGHT_TOKEN).
Proof.
  assert (Hp : forall l1 l2, l1 ≡ₚ l2 -> foldr (fun tv n => night_part tv + n) 0 l1 = foldr (fun tv n => night_part tv + n) 0 l2)
    by (intros l1 l2; induction 1; cbn in *; lia).
  rewrite (Hp _ _ (Hiter _ _ _ _ m)). induction m as [|t v m Ht IH] using map_ind; [by rewrite map_to_list_empty|].
  rewrite (Hp _ _ (map_to_list_insert m t v Ht)). cbn [foldr]. rewrite IH. unfold night_part. cbn [fst snd]. case_decide as E.
  - subst t. rewrite Ht, lookup_insert_eq. cbn. lia.
  - rewrite lookup_insert_ne by done. lia.
Qed.

Lemma adds_night l : forall b b', Forall (fun tv => 0 <= tv.2) l -> try_fold_o add_balance b l = Ret b' ->
  default 0 (b' !! NIGHT_TOKEN) = default 0 (b !! NIGHT_TOKEN) + foldr (fun tv n => night_part tv + n) 0 l.
Proof.
  induction l as [|tv l IH]; intros b b' Hl; cbn [try_fold_o foldr]; [intros [= <-]; lia|]. apply Forall_cons in Hl as [Hv Hl].
  destruct (add_balance b tv) as [b1| |] eqn:E1; cbn [mbind outcome_bind]; [|done..]. intros E%IH; [|done].
  apply add_balance_night in E1; [|done]. fold (night_part tv) in E1. lia.
Qed.
Lemma subs_night l : forall b b', 0 <= default 0 (b !! NIGHT_TOKEN) -> try_fold_o sub_balance b l = Ret b' ->
  default 0 (b' !! NIGHT_TOKEN) = default 0 (b !! NIGHT_TOKEN) - foldr (fun tv n => night_part tv + n) 0 l /\
  0 <= default 0 (b' !! NIGHT_TOKEN).
Proof.
  induction l as [|tv l IH]; intros b b' Hb; cbn [try_fold_o foldr]; [intros [= <-]; lia|].
  destruct (sub_balance b tv) as [b1| |] eqn:E1; cbn [mbind outcome_bind]; [|done..]. intros E.
  apply sub_balance_night in E1 as [E1 E2]. fold (night_part tv) in E1.
  apply IH in E as [E3 E4]; [lia|]. unfold night_part in E1. case_decide; [by apply E2|lia].
Qed.

Lemma map_iter_Forall {K V} `{Countable K} (P : V -> Prop) (m : gmap K V) : map_Forall (fun _ v => P v) m -> Forall (fun kv => P kv.2) (map_iter m).
Proof.
  intros Hm. apply Forall_forall. intros [k v] Hkv. rewrite (Hiter _ _ _ _ m) in Hkv. apply elem_of_map_to_list in Hkv. apply (Hm _ _ Hkv).
Qed.

(** The Night of a contract after a call: what it had and received, less what it gave away. *)
Lemma move_balance_night b eff b' : 0 <= default 0 (b !! NIGHT_TOKEN) ->
  map_Forall (fun _ v => 0 <= v) (unshielded_inputs eff) -> move_balance b eff = Ret b' ->
  default 0 (b' !! NIGHT_TOKEN) = default 0 (b !! NIGHT_TOKEN) + default 0 (unshielded_inputs eff !! NIGHT_TOKEN)
                                  - default 0 (unshielded_outputs eff !! NIGHT_TOKEN) /\
  0 <= default 0 (b' !! NIGHT_TOKEN).
Proof.
  intros Hb Hin. unfold move_balance. destruct (try_fold_o add_balance b _) as [b1| |] eqn:E1; cbn [mbind outcome_bind]; [|done..].
  intros E2. apply adds_night in E1; [|by apply map_iter_Forall]. rewrite night_parts in E1.
  assert (0 <= default 0 (unshielded_inputs eff !! NIGHT_TOKEN))
    by (destruct (unshielded_inputs eff !! NIGHT_TOKEN) eqn:En; cbn; [by apply (Hin _ _ En)|lia]).
  apply subs_night in E2; [|lia]. rewrite night_parts in E2. lia.
Qed.

Lemma contract_night_entry st addr c : contract st !! addr = Some c ->
  entry_of contract_night (contract st) addr = default 0 (balance c !! NIGHT_TOKEN).
Proof. intros E. unfold entry_of. by rewrite E. Qed.

Lemma contract_nonneg st addr c : amounts_ok st -> contract st !! addr = Some c -> 0 <= default 0 (balance c !! NIGHT_TOKEN).
Proof. intros Ha E. apply (ao_contract _ Ha _ _ E). Qed.

Lemma apply_call_grows self st call g ctx intent ci source st' ev :
  amounts_ok st -> action_nonneg (Call call) -> apply_call self st call g ctx intent ci source = Ret (st', ev) ->
  Grows st st' (action_inflow g (Call call)).
Proof.
  intros Ha [Hg Hf]. unfold apply_call, index. destruct (contract st !! call_address call) as [c|] eqn:Ec; [|done].
  cbn [action_inflow]. assert (Ht : transcript_nonneg (if g then guaranteed_transcript call else fallible_transcript call)) by (by destruct g).
  destruct (if g then guaranteed_transcript call else fallible_transcript call) as [t|]; [|intros [= <- _]; by apply Grows_refl].
  destruct (Runtime.run_transcript _ _ _ _ _ _ _ _ _ _ _ _ _) as [r| |]; cbn [map_fail mbind outcome_bind]; [|done..].
  case_decide as Heff; [done|]. destruct (move_balance _ _) as [b| |] eqn:Em; cbn [mbind outcome_bind]; [|done..]. intros [= <- _].
  apply move_balance_night in Em as [Em Hb]; [|by eapply contract_nonneg|apply Ht]. unfold update_index. rewrite Ec.
  pose proof (contract_night_entry st _ c Ec) as Hentry. destruct Ht as [_ Ho].
  assert (0 <= default 0 (unshielded_outputs (tr_effects t) !! NIGHT_TOKEN))
    by (destruct (unshielded_outputs (tr_effects t) !! NIGHT_TOKEN) eqn:En; cbn; [by apply (Ho _ _ En)|lia]).
  apply Grows_store; [done|done|]. rewrite Hentry. unfold contract_night. cbn [balance].
  change (transcript_inflow (Some t)) with (default 0 (unshielded_inputs (tr_effects t) !! NIGHT_TOKEN)). lia.
Qed.

Lemma apply_deploy_grows self st d source st' ev :
  amounts_ok st -> action_nonneg (Deploy d) -> apply_deploy self st d source = Ret (st', ev) ->
  forall g, Grows st st' (action_inflow g (Deploy d)).
Proof.
  intros Ha Hd. unfold apply_deploy. case_bool_decide as Hc; [done|].
  destruct (metadata_sizes_checked _ _ _); cbn [mbind outcome_bind]; [|done..]. intros [= <- _] g. apply Grows_store; [done|done|].
  unfold entry_of. rewrite (proj2 (eq_None_not_Some _) Hc). unfold contract_night. cbn. lia.
Qed.

Lemma apply_updates_balance us : forall c c', try_fold_o apply_update c us = Ret c' -> balance c' = balance c.
Proof.
  intros c c'. apply (try_fold_o_ind (fun c1 => balance c1 = balance c)); [|done]. intros c1 u c2 <-.
  destruct u; cbn [apply_update]; unfold store_operation; repeat case_match; try done; intros [= <-]; done.
Qed.

Lemma apply_maintain_grows self st upd st' : amounts_ok st -> apply_maintain self st upd = Ret st' -> Grows st st' 0.
Proof.
  intros Ha. unfold apply_maintain. destruct (contract st !! upd_address upd) as [c|] eqn:Ec; [|done]. destruct (negb _); [done|].
  destruct (try_fold_o _ _ _) as [c'| |] eqn:Eu; cbn [mbind outcome_bind]; [|done..]. apply apply_updates_balance in Eu. cbn in Eu.
  destruct (metadata_sizes_checked _ _ _); cbn [mbind outcome_bind]; [|done..]. intros [= <-].
  pose proof (contract_night_entry st _ c Ec) as Hentry. pose proof (contract_nonneg st _ c Ha Ec).
  apply Grows_store; [done|unfold contract_night; by rewrite Eu|]. rewrite Hentry. unfold contract_night. rewrite Eu. lia.
Qed.

Lemma apply_action_grows self g ctx intent ci source acc a acc' :
  amounts_ok acc.1 -> action_nonneg a -> apply_action self g ctx intent ci source acc a = Ret acc' ->
  Grows acc.1 acc'.1 (action_inflow g a).
Proof.
  intros Ha Hn. destruct acc as [st ev]. cbn [fst] in *.
  assert (Hskip : 0 <= action_inflow g a -> Ret (st, ev) = Ret acc' :> outcome LedgerInvalid _ -> Grows st acc'.1 (action_inflow g a))
    by (intros H0 [= <-]; eapply Grows_weaken; [by apply Grows_refl|done]).
  assert (H0 : 0 <= action_inflow g a).
  { destruct a as [c|d|u]; cbn [action_inflow action_nonneg] in *; [|done|done]. assert (Ht : transcript_nonneg (if g then guaranteed_transcript c else fallible_transcript c)) by (by destruct g, Hn).
    destruct (if g then _ else _) as [t|]; [|done]. cbn in *. destruct (unshielded_inputs (tr_effects t) !! NIGHT_TOKEN) eqn:E; cbn; [|lia]. by apply (proj1 Ht _ _ E). }
  specialize (Hskip H0). destruct a as [c|d|u]; cbn [apply_action].
  - destruct (negb _); [done|]. destruct (apply_call _ _ _ _ _ _ _ _) as [[st' new]| |] eqn:E; cbn [mbind outcome_bind]; [|done..].
    intros [= <-]. by eapply apply_call_grows.
  - destruct (_ || _); [done|]. destruct (apply_deploy _ _ _ _) as [[st' new]| |] eqn:E; cbn [mbind outcome_bind]; [|done..].
    intros [= <-]. by eapply apply_deploy_grows.
  - destruct (_ || _); [done|]. destruct (apply_maintain _ _ _) as [st'| |] eqn:E; cbn [mbind outcome_bind]; [|done..].
    intros [= <-]. by eapply apply_maintain_grows.
Qed.

(** Steps that grow the total add up over a list. *)
Lemma fold_grows {X S} (view : S -> LedgerState) (f : S -> X -> outcome LedgerInvalid S) (inflow : X -> Z) l :
  forall s s', amounts_ok (view s) ->
  (forall s x s', x ∈ l -> amounts_ok (view s) -> f s x = Ret s' -> Grows (view s) (view s') (inflow x)) ->
  try_fold_o f s l = Ret s' -> Grows (view s) (view s') (foldr (fun x n => inflow x + n) 0 l).
Proof.
  induction l as [|x l IH]; intros s s' Ha Hf; cbn [try_fold_o foldr]; [intros [= <-]; by apply Grows_refl|].
  destruct (f s x) as [s1| |] eqn:E1; cbn [mbind outcome_bind]; [|done..]. intros E.
  pose proof (Hf s x s1 ltac:(left) Ha E1) as H1. eapply Grows_trans; [exact H1|]. eapply IH; [apply H1| |exact E].
  intros s2 y s3 Hy. apply Hf. by right.
Qed.

Lemma apply_intent_grows st i g segment ctx ci source st' ev :
  amounts_ok st -> intent_nonneg i -> apply_intent_section st i g segment ctx ci source = Ret (st', ev) ->
  Grows st st' (intent_inflow g i).
Proof.
  intros Ha (Hg & Hf & Hact). unfold apply_intent_section.
  destruct (apply_unshielded _ _ _ _ _ _) as [[st1 ev1]| |] eqn:E1; cbn [mbind outcome_bind]; [|done..].
  apply apply_unshielded_grows in E1; [|done|by destruct g].
  destruct (apply_actions _ _ _ _ _ _ _) as [[st2 ev2]| |] eqn:E2; cbn [mbind outcome_bind]; [|done..]. intros [= <- _].
  eapply Grows_trans; [exact E1|]. unfold apply_actions in E2.
  apply (fold_grows fst (apply_action st1 g ctx i ci source) (action_inflow g) _ (st1, []) (st2, ev2)); [apply E1| |exact E2].
  intros s x s' Hx. intros Has. apply apply_action_grows; [done|]. by apply (proj1 (Forall_forall _ _) Hact).
Qed.

Lemma optional_zswap_same st offer ctx h segment st' ci ev :
  apply_optional_zswap st offer ctx h segment = Ret (st', ci, ev) -> exists z, st' = with_zswap st z.
Proof.
  unfold apply_optional_zswap. destruct offer as [o|]; [|intros [= <- _ _]; exists (zswap st); by destruct st].
  unfold apply_zswap. destruct (State_try_apply _ _ _ _ _ _) as [[z m]| |]; cbn [map_fail mbind outcome_bind]; [|done..].
  destruct (no_fail (zswap_input_events _ _)) as [i| |]; cbn [mbind outcome_bind]; [|done..].
  destruct (no_fail (zswap_output_events _ _ _)) as [o'| |]; cbn [mbind outcome_bind]; [|done..]. intros [= <- _ _]. eauto.
Qed.

Lemma Grows_zswap st z : amounts_ok st -> Grows st (with_zswap st z) 0.
Proof. intros Ha. by apply Grows_with. Qed.

(** Paying fees changes nothing but Dust. *)
Lemma apply_fees_same st tx h fees segment ctx st' rem ev :
  apply_fees st tx h fees segment ctx = Ret (st', rem, ev) -> exists d, st' = with_dust st d.
Proof.
  unfold apply_fees. set (R := fun acc : LedgerState * Z * list DeferredEvent => exists d, acc.1.1 = with_dust st d).
  assert (Hstep : forall st1 d, (exists d1, st1 = with_dust st d1) -> exists d2, with_dust st1 d = with_dust st d2)
    by (intros ? d [d1 ->]; by exists d).
  destruct (try_fold_o _ _ _) as [acc| |] eqn:E1; cbn [mbind outcome_bind]; [|done..].
  assert (Hacc : R acc).
  { revert E1. apply (try_fold_o_ind R); [|exists (dust st); by destruct st]. intros s e s' Hs. unfold apply_dust_spends.
    apply (try_fold_o_ind R); [|done]. intros [[st1 f1] ev1] x s1 H1. destruct (apply_spend _ _ _ _) as [[d new]| |]; cbn [map_fail mbind outcome_bind]; [|done..].
    intros [= <-]. by apply Hstep. }
  intros E2. change (R (st', rem, ev)). revert E2. apply (try_fold_o_ind R); [|done]. intros s e s' Hs. unfold apply_dust_registrations.
  apply (try_fold_o_ind R); [|done]. intros [[st1 f1] ev1] x s1 H1.
  destruct (apply_registration _ _ _ _ _ _ _ _ _ _ _ _ _) as [[[d f] new]| |]; cbn [map_fail mbind outcome_bind]; [|done..].
  intros [= <-]. by apply Hstep.
Qed.

Lemma elem_of_sorted_iter {V} (m : gmap Z V) k v : (k, v) ∈ sorted_iter m <-> m !! k = Some v.
Proof. unfold sorted_iter. rewrite merge_sort_Permutation. apply elem_of_map_to_list. Qed.

Lemma guaranteed_grows st tx h fees segment ctx st' ev :
  amounts_ok st -> inflow_ok tx -> guaranteed_section st tx h fees segment ctx = Ret (st', ev) -> Grows st st' (guaranteed_inflow tx).
Proof.
  intros Ha (Hn & _ & _). unfold guaranteed_section.
  destruct (of_result _) as [r| |]; cbn [map_fail mbind outcome_bind]; [|done..].
  destruct (apply_optional_zswap _ _ _ _ _) as [[[st1 ci] ev1]| |] eqn:Ez; cbn [mbind outcome_bind]; [|done..].
  apply optional_zswap_same in Ez as [z ->]. set (st1 := with_zswap (with_replay st r) z).
  destruct (dry_run _ _ _); cbn [mbind outcome_bind]; [|done..].
  destruct (try_fold_o _ _ _) as [[st2 ev2]| |] eqn:E2; cbn [mbind outcome_bind]; [|done..].
  destruct (apply_fees _ _ _ _ _ _) as [[[st3 rem] ev3]| |] eqn:E3; cbn [mbind outcome_bind]; [|done..]. intros [= <- _].
  apply apply_fees_same in E3 as [d ->]. apply Grows_dust. assert (H1 : Grows st st1 0) by (by apply Grows_with).
  replace (guaranteed_inflow tx) with (0 + guaranteed_inflow tx) by lia. eapply Grows_trans; [exact H1|].
  eapply (fold_grows fst _ (fun e : Z * LedgerIntent => intent_inflow true e.2) (sorted_iter (intents tx)) (st1, ev1) (st2, ev2)); [apply H1| |exact E2].
  intros s [k i] s' Hk%elem_of_sorted_iter Has. destruct (apply_intent_section _ _ _ _ _ _ _) as [[st4 new]| |] eqn:E4; cbn [mbind outcome_bind]; [|done..].
  intros [= <-]. eapply apply_intent_grows; [done| |exact E4]. apply (Hn _ _ Hk).
Qed.

Lemma fallible_grows st tx h segment ctx st' ev :
  amounts_ok st -> inflow_ok tx -> fallible_section st tx h segment ctx = Ret (st', ev) -> Grows st st' (fallible_inflow tx segment).
Proof.
  intros Ha (Hn & _ & _). unfold fallible_section.
  destruct (apply_optional_zswap _ _ _ _ _) as [[[st1 ci] ev1]| |] eqn:Ez; cbn [mbind outcome_bind]; [|done..].
  apply optional_zswap_same in Ez as [z ->]. unfold fallible_inflow. pose proof (Grows_zswap st z Ha) as H1.
  destruct (intents tx !! segment) as [i|] eqn:Ei; [|by intros [= <- _]].
  destruct (apply_intent_section _ _ _ _ _ _ _) as [[st2 new]| |] eqn:E2; cbn [mbind outcome_bind]; [|done..]. intros [= <- _].
  cbn [from_option]. replace (intent_inflow false i) with (0 + intent_inflow false i) by lia. eapply Grows_trans; [exact H1|].
  eapply apply_intent_grows; [apply H1| |exact E2]. apply (Hn _ _ Ei).
Qed.

(** A section that is accepted leaves the supply as it was. *)
Lemma section_supply st tx h fees segment ctx st' ev :
  Supply_ok st -> inflow_ok tx -> apply_section st tx h fees segment ctx = Ret (st', ev) -> Supply_ok st'.
Proof.
  intros [Ha Ht] Hin. unfold apply_section. set (sec := if segment =? GUARANTEED_SEGMENT then _ else _).
  destruct sec as [[st1 ev1]| |] eqn:E; cbn [mbind outcome_bind]; [|done..].
  assert (Hg : exists n, Grows st st1 n /\ n < 2 ^ 126).
  { subst sec. pose proof Hin as (_ & Hg & Hf). destruct (segment =? GUARANTEED_SEGMENT).
    - exists (guaranteed_inflow tx). split; [by eapply guaranteed_grows|done].
    - exists (fallible_inflow tx segment). split; [by eapply fallible_grows|done]. }
  destruct Hg as (n & [Ha' Hle] & Hn). pose proof MAX_SUPPLY_small. rewrite check_exact by (done || lia).
  destruct (Z.eqb_spec (night_total st1) MAX_SUPPLY) as [Em|]; [|done]. intros [= <- _]. by split.
Qed.

Definition tx_amounts_ok (tx : VerifiedTransaction) : Prop :=
  match inner tx with Standard stx => inflow_ok stx | ClaimRewards c => 0 <= claim_value c end.

Lemma guaranteed_only_supply phantom st tx ctx g :
  Supply_ok st -> tx_amounts_ok tx -> apply_guaranteed_only phantom st tx ctx = Ret g -> Supply_ok (gar_state g) /\ gar_tx g = tx.
Proof.
  intros Hs Htx. unfold apply_guaranteed_only, tx_amounts_ok in *. destruct (inner tx) as [stx|c].
  - destruct (apply_section _ _ _ _ _ _) as [[st1 ev1]| |] eqn:E; cbn [mbind outcome_bind]; [|done..]. intros [= <-].
    split; [by eapply section_supply|done].
  - pose proof (claim_cases phantom st c (block_context ctx) (mkEventSource (tx_hash tx) GUARANTEED_SEGMENT GUARANTEED_SEGMENT) Hs Htx) as H.
    destruct (claim_unshielded _ _ _ _ _) as [[st1 ev1]| |]; cbn [mbind outcome_bind]; [|done..]. intros [= <-]. split; [apply H|done].
Qed.

Lemma apply_supply phantom st tx ctx st' r :
  Supply_ok st -> tx_amounts_ok tx -> apply phantom st tx ctx = Ret (st', r) -> Supply_ok st'.
Proof.
  intros Hs Htx. unfold LedgerApply.apply. destruct (apply_guaranteed_only _ _ _ _) as [g| |] eqn:Eg; [|by intros [= <- _]|done].
  apply guaranteed_only_supply in Eg as [Hg Et]; [|done..]. unfold apply_fallible. rewrite Et.
  destruct (materialize _) as [evs| |]; cbn [mbind outcome_bind]; [|done..]. unfold tx_amounts_ok in Htx.
  destruct (inner tx) as [stx|c]; [|by intros [= <- _]].
  destruct (try_fold_o _ _ _) as [pr| |] eqn:Ef; cbn [mbind outcome_bind]; [|done..]. intros [= <- _]. revert Ef.
  apply (try_fold_o_ind (fun pr => Supply_ok (pr_state pr))); [|done]. intros p x p' Hp. unfold fallible_step.
  destruct (apply_section _ _ _ _ _ _) as [[st2 ev2]| |] eqn:E; [|by intros [= <-]|done].
  destruct (materialize ev2); cbn [mbind outcome_bind]; [|done..]. intros [= <-]. cbn. by eapply section_supply.
Qed.
End inflow.

(** ** Shielded offers of fallible segments *)

Section shielded.
Context `{PR : Prims} {HS : Hashes} {CI : CostInputs}.
Implicit Types st : LedgerState.
Local Abbreviation transient_hash2 := (fun a b => transient_hash [a; b]).
Local Abbreviation degrade := (degrade_to_transient modulus).
Local Abbreviation try_apply := (State_try_apply 0 transient_hash2 degrade).
Local Abbreviation Zswap_ok z := (exists c, State_ok 0 transient_hash2 degrade z c).

(** One shielded state knows no more than another, and the same roots. *)
Record Behind (x y : State) : Prop := {
  bh_nullifiers : nullifiers x ⊆ nullifiers y;
  bh_coms : coin_coms_set x ⊆ coin_coms_set y;
  bh_first_free : first_free x <= first_free y;
  bh_roots : past_roots x = past_roots y
}.

Lemma Behind_refl x : Behind x x.
Proof. by split. Qed.

Lemma Spent_behind wl l : forall b a b', Spent wl l b a -> b' ⊆ b -> exists a', Spent wl l b' a' /\ a' ⊆ a.
Proof.
  induction l as [|[n ct] l IH]; intros b a b'; cbn [Spent]; [intros -> Hb; eauto|]. intros [Hn Hs] Hb.
  destruct (IH _ _ (tracked wl ct n ∪ b') Hs) as (a' & Hs' & Ha'); [set_solver|]. exists a'. split; [|done]. split; [set_solver|done].
Qed.

Lemma Spent_grows wl l : forall b a, Spent wl l b a -> b ⊆ a.
Proof. induction l as [|[n ct] l IH]; intros b a; cbn [Spent]; [by intros ->|]. intros [_ Hs%IH]. set_solver. Qed.

(** What the state ahead accepts, the state behind accepts; and it stays behind
    whether it applies the offer or not. *)
Lemma try_apply_behind x y (o : ZswapOffer) wl y' idx : Zswap_ok x -> Zswap_ok y -> Behind x y -> try_apply y o wl = Ret (y', idx) ->
  Zswap_ok y' /\ Behind x y' /\
  exists x' idx', try_apply x o wl = Ret (x', idx') /\ Zswap_ok x' /\ Behind x' y'.
Proof.
  intros [cx Hx] [cy Hy] [B1 B2 B3 B4] E. destruct (State_try_apply_spec _ _ _ _ _ _ _ _ _ Hy E) as (A & S & R).
  pose proof (Added_Fits _ _ _ _ _ _ _ _ _ _ A) as (F1 & F2 & F3). destruct (Spent_behind _ _ _ _ (nullifiers x) S B1) as (a & Sa & Ha).
  assert (Hprog : exists x' idx', try_apply x o wl = Ret (x', idx')).
  { eapply State_try_apply_progress; [exact Hx|by rewrite B4|exact Sa|]. split_and!; [done| |lia]. intros cm Hc Hin. apply (F2 cm Hc). set_solver. }
  split_and!; [eexists; apply A| |].
  - destruct A as [A1 A2 A3 _ _ _ _ A8 _]. apply Spent_grows in S. split; [set_solver|rewrite A3; set_solver|lia|congruence].
  - destruct Hprog as (x' & idx' & Ex). exists x', idx'. split; [done|].
    destruct (State_try_apply_spec _ _ _ _ _ _ _ _ _ Hx Ex) as (A' & S' & _). split; [eexists; apply A'|].
    destruct A as [A1 A2 A3 _ _ _ _ A8 _], A' as [A1' A2' A3' _ _ _ _ A8' _]. split; [by rewrite (Spent_det _ _ _ _ _ S' Sa)|rewrite A3, A3'; set_solver|lia|congruence].
Qed.

Lemma dry_fold_behind x (l : list ZswapOffer) wl : forall y y', Zswap_ok x -> Zswap_ok y -> Behind x y ->
  try_fold_o (fun z (offer : ZswapOffer) => '(z, _) ← try_apply z offer wl; mret z) y l = Ret y' -> Zswap_ok y' /\ Behind x y'.
Proof.
  induction l as [|o l IH]; intros y y' Hx Hy Hb; cbn [try_fold_o]; [by intros [= <-]|].
  destruct (try_apply y o wl) as [[y1 idx]| |] eqn:E; cbn [mbind outcome_bind]; [|done..].
  destruct (try_apply_behind x y o wl y1 idx Hx Hy Hb E) as (H1 & H2 & _). by apply IH.
Qed.

(** *** The parts of a section that leave the shielded state alone *)

(** What only the shielded parts, replay protection and the system change. *)
Definition core st : State * ReplayProtectionState * LedgerParameters := (zswap st, replay_protection st, parameters st).

Definition spares {A} (view : A -> LedgerState) (z : State * ReplayProtectionState * LedgerParameters) (r : outcome LedgerInvalid A) : Prop :=
  match r with Ret a => core (view a) = z | Fail (ZswapInvalid _) => False | _ => True end.

Lemma spares_bind {A B} (view : A -> LedgerState) (view' : B -> LedgerState) z r (k : A -> outcome LedgerInvalid B) :
  spares view z r -> (forall a, core (view a) = z -> spares view' z (k a)) -> spares view' z (r ≫= k).
Proof. destruct r as [a|e|]; [|done..]. intros H Hk. by apply Hk. Qed.

Lemma spares_fold {S X} (view : S -> LedgerState) z (f : S -> X -> outcome LedgerInvalid S) l :
  (forall s x, core (view s) = z -> spares view z (f s x)) -> forall s, core (view s) = z -> spares view z (try_fold_o f s l).
Proof.
  intros Hf. induction l as [|x l IH]; intros s Hs; cbn [try_fold_o]; [done|]. apply (spares_bind view view); [by apply Hf|]. intros a Ha. by apply IH.
Qed.

(** A call that gives no state of the ledger and no error of the shielded part. *)
Definition no_zswap_error {A} (r : outcome LedgerInvalid A) : Prop := match r with Fail (ZswapInvalid _) => False | _ => True end.

Lemma no_error_bind {A B} (view : B -> LedgerState) z (r : outcome LedgerInvalid A) (k : A -> outcome LedgerInvalid B) :
  no_zswap_error r -> (forall a, spares view z (k a)) -> spares view z (r ≫= k).
Proof. destruct r as [a|e|]; [|done..]. intros _ Hk. apply Hk. Qed.

Lemma map_fail_no_error {E A} (f : E -> LedgerInvalid) (r : outcome E A) :
  (forall e, match f e with ZswapInvalid _ => False | _ => True end) -> no_zswap_error (map_fail f r).
Proof. intros Hf. destruct r as [a|e|]; cbn; [done| |done]. apply Hf. Qed.

Lemma fold_no_error {S X} (f : S -> X -> outcome LedgerInvalid S) l : (forall s x, no_zswap_error (f s x)) -> forall s, no_zswap_error (try_fold_o f s l).
Proof.
  intros Hf. induction l as [|x l IH]; intros s; cbn [try_fold_o]; [done|]. pose proof (Hf s x) as H1.
  destruct (f s x) as [a|e|]; cbn [mbind outcome_bind]; [apply IH|done|done].
Qed.

Lemma metadata_no_error self addr c : no_zswap_error (metadata_sizes_checked self addr c).
Proof. unfold metadata_sizes_checked. by destruct (check_entry_point_metadata_sizes _ _) as [|[]]. Qed.

Lemma move_balance_no_error b eff : no_zswap_error (move_balance b eff).
Proof.
  unfold move_balance. assert (H1 : no_zswap_error (try_fold_o add_balance b (map_iter (unshielded_inputs eff)))).
  { apply fold_no_error. intros s x. unfold add_balance. by case_match. }
  destruct (try_fold_o add_balance b _); cbn [mbind outcome_bind]; [|done..]. apply fold_no_error. intros s x. unfold sub_balance. by case_match.
Qed.

Lemma apply_call_spares self st call g ctx intent ci source : spares fst (core st) (apply_call self st call g ctx intent ci source).
Proof.
  unfold apply_call. destruct (index st _) as [c|]; [|done]. destruct (if g then _ else _) as [t|]; [|done].
  apply no_error_bind; [by apply map_fail_no_error|]. intros r. case_decide; [done|]. apply no_error_bind; [apply move_balance_no_error|]. intros b.
  cbn. unfold update_index. by destruct (contract st !! call_address call).
Qed.

Lemma apply_maintain_spares self st upd : spares id (core st) (apply_maintain self st upd).
Proof.
  unfold apply_maintain. destruct (contract st !! upd_address upd); [|done]. destruct (negb _); [done|].
  apply no_error_bind; [apply fold_no_error|].
  - intros s u. destruct u; cbn [apply_update]; repeat case_match; done.
  - intros c'. by apply no_error_bind; [apply metadata_no_error|].
Qed.

Lemma apply_actions_spares st acts g ctx intent ci source : spares fst (core st) (apply_actions st acts g ctx intent ci source).
Proof.
  unfold apply_actions. apply (spares_fold fst); [|done]. intros [s ev] a Hs. cbn [fst] in Hs. destruct a as [c|d|u]; cbn [apply_action].
  - destruct (negb _); [done|]. rewrite <- Hs. apply (spares_bind fst fst); [apply apply_call_spares|]. by intros [s' new].
  - destruct (_ || _); [done|]. unfold apply_deploy. case_bool_decide; [done|].
    pose proof (metadata_no_error st (deploy_address d) (initial_state d)) as Hm. by destruct (metadata_sizes_checked _ _ _).
  - destruct (_ || _); [done|]. rewrite <- Hs. by apply (spares_bind id fst); [apply apply_maintain_spares|].
Qed.

Lemma apply_intent_spares st i g segment ctx ci source : spares fst (core st) (apply_intent_section st i g segment ctx ci source).
Proof.
  unfold apply_intent_section. apply (spares_bind fst fst).
  - unfold apply_unshielded. destruct (if g then _ else _) as [o|]; [|done]. apply no_error_bind; [by apply map_fail_no_error|]. intros us.
    apply no_error_bind; [by apply map_fail_no_error|]. by intros [d evs].
  - intros [st1 ev1] <-. cbn [fst]. apply (spares_bind fst fst); [apply apply_actions_spares|]. by intros [st2 ev2].
Qed.

Lemma optional_zswap_Ret st (offer : option ZswapOffer) ctx h segment st' ci ev :
  apply_optional_zswap st offer ctx h segment = Ret (st', ci, ev) ->
  match offer with None => zswap st' = zswap st | Some o => try_apply (zswap st) o (whitelist ctx) = Ret (zswap st', ci) end.
Proof.
  unfold apply_optional_zswap. destruct offer as [o|]; [|by intros [= <- _ _]]. unfold apply_zswap.
  destruct (State_try_apply _ _ _ _ _ _) as [[z m]| |]; cbn [map_fail mbind outcome_bind]; [|done..].
  destruct (no_fail (zswap_input_events _ _)) as [i| |]; cbn [mbind outcome_bind]; [|done..].
  destruct (no_fail (zswap_output_events _ _ _)) as [o'| |]; cbn [mbind outcome_bind]; [|done..]. by intros [= <- <- _].
Qed.

Lemma optional_zswap_Fail st (o : ZswapOffer) ctx h segment z idx :
  try_apply (zswap st) o (whitelist ctx) = Ret (z, idx) -> forall e, apply_optional_zswap st (Some o) ctx h segment <> Fail e.
Proof.
  intros E e. unfold apply_optional_zswap, apply_zswap. rewrite E. cbn [map_fail mbind outcome_bind].
  destruct (zswap_input_events _ _) as [i|[]|]; cbn; [|done]. by destruct (zswap_output_events _ _ _) as [i'|[]|].
Qed.

(** *** The fallible segments of a transaction *)

(** The shielded state after a segment's offer, when that can be applied. *)
Definition offered (z : State) (o : option ZswapOffer) (wl : whitelist_t) : option State :=
  match o with
  | None => Some z
  | Some o => match try_apply z o wl with Ret (z', _) => Some z' | _ => None end
  end.

Lemma fallible_section_zswap st tx h fees segment ctx z :
  segment <> GUARANTEED_SEGMENT -> offered (zswap st) (fallible_coins tx !! segment) (whitelist ctx) = Some z ->
  spares fst (z, replay_protection st, parameters st) (apply_section st tx h fees segment ctx).
Proof.
  intros Hseg Ho. unfold apply_section. rewrite (proj2 (Z.eqb_neq _ _) Hseg). apply (spares_bind fst fst).
  - unfold fallible_section. apply (spares_bind (fun r => r.1.1) fst).
    + unfold offered in Ho. destruct (fallible_coins tx !! segment) as [o|]; [|by injection Ho as <-].
      destruct (try_apply (zswap st) o (whitelist ctx)) as [[z' idx]| |] eqn:E; [|done..]. injection Ho as ->.
      pose proof (optional_zswap_Fail st o ctx h segment z idx E) as Hf.
      destruct (apply_optional_zswap _ _ _ _ _) as [[[st1 ci] ev]|e|] eqn:E1; [|by destruct (Hf e)|done].
      pose proof (optional_zswap_same _ _ _ _ _ _ _ _ E1) as [z1 ->]. apply optional_zswap_Ret in E1.
      rewrite E in E1. cbn in E1. injection E1 as -> _. done.
    + intros [[st1 ci] ev] Hz. cbn [fst] in Hz. destruct (intents tx !! segment) as [i|]; [|done]. rewrite <- Hz.
      apply (spares_bind fst fst); [apply apply_intent_spares|]. by intros [st2 new].
  - intros [st1 ev] Hz. by destruct (check_night_balance_invariant st1).
Qed.

Lemma remove_dups_sorted l : StronglySorted Z.le l -> StronglySorted Z.lt (remove_dups l).
Proof.
  induction 1 as [|x l Hl IH Hx]; cbn [remove_dups]; [constructor|]. case_decide as Hd; [done|]. constructor; [done|].
  rewrite Forall_forall in *. intros y Hy. rewrite elem_of_remove_dups in Hy. specialize (Hx y Hy). assert (x <> y) by (by intros ->). lia.
Qed.

Lemma fallible_segments_sorted (tx : StandardTransaction) : StronglySorted Z.lt (fallible_segments tx).
Proof. apply remove_dups_sorted, StronglySorted_merge_sort; [intros x y z; lia|intros x y; lia]. Qed.

Lemma fallible_segments_nonzero (tx : StandardTransaction) s : s ∈ fallible_segments tx -> s <> GUARANTEED_SEGMENT.
Proof.
  unfold fallible_segments, sorted_keys. rewrite elem_of_remove_dups, merge_sort_Permutation. by intros [? _]%list_elem_of_filter.
Qed.

Lemma sorted_iter_sorted {V} (m : gmap Z V) : StronglySorted (fun a b => a.1 <= b.1) (sorted_iter m).
Proof. apply StronglySorted_merge_sort; [intros x y z; lia|intros x y; lia]. Qed.

(** The offers that are still to come have been tried on a state ahead of the
    present one. *)
Record Tried (tx : StandardTransaction) (wl : whitelist_t) (z : State) (segments : list Z) : Prop := {
  tried_ok : Zswap_ok z;
  tried_offers : exists y y' (L : list (Z * ZswapOffer)),
    Zswap_ok y /\ Behind z y /\ StronglySorted (fun a b => a.1 <= b.1) L /\
    (forall s o, s ∈ segments -> fallible_coins tx !! s = Some o -> (s, o) ∈ L) /\
    try_fold_o (fun z (offer : ZswapOffer) => '(z, _) ← try_apply z offer wl; mret z) y L.*2 = Ret y'
}.

Lemma sorted_split {V} (L1 L2 : list (Z * V)) s o x : StronglySorted (fun a b => a.1 <= b.1) (L1 ++ (s, o) :: L2) -> x ∈ L1 -> x.1 <= s.
Proof.
  induction L1 as [|y L1 IH]; cbn; [by intros _ ?%not_elem_of_nil|]. intros [Hs Hf]%StronglySorted_inv [->|Hx]%elem_of_cons; [|by apply IH].
  rewrite Forall_forall in Hf. apply (Hf (s, o)). apply elem_of_app. right. left.
Qed.
Lemma sorted_tail {V} (L1 L2 : list (Z * V)) x : StronglySorted (fun a b => a.1 <= b.1) (L1 ++ x :: L2) -> StronglySorted (fun a b => a.1 <= b.1) L2.
Proof. induction L1 as [|y L1 IH]; cbn; intros [Hs _]%StronglySorted_inv; [done|by apply IH]. Qed.

Lemma try_fold_o_app {E S X} (f : S -> X -> outcome E S) l1 l2 : forall s, try_fold_o f s (l1 ++ l2) = s' ← try_fold_o f s l1; try_fold_o f s' l2.
Proof. induction l1 as [|x l1 IH]; intros s; cbn [app try_fold_o]; [done|]. destruct (f s x); cbn [mbind outcome_bind]; [apply IH|done|done]. Qed.

(** The next segment's offer can be applied, and whether its segment takes effect
    or not, the remaining offers have been tried. *)
Lemma Tried_next tx wl z s S : StronglySorted Z.lt (s :: S) -> Tried tx wl z (s :: S) ->
  exists z', offered z (fallible_coins tx !! s) wl = Some z' /\ Tried tx wl z' S /\ Tried tx wl z S.
Proof.
  intros [_ Hs]%StronglySorted_inv [Hz (y & y' & L & Hy & Hb & HL & Hin & Hf)].
  destruct (fallible_coins tx !! s) as [o|] eqn:Eo; cbn [offered].
  2: { exists z. split; [done|]. assert (Tried tx wl z S); [|done]. split; [done|]. exists y, y', L. split_and!; try done.
       intros s' o' Hs'. apply Hin. by right. }
  assert (HinL : (s, o) ∈ L) by (apply Hin; [left|done]). apply list_elem_of_split in HinL as (L1 & L2 & ->).
  rewrite fmap_app, try_fold_o_app in Hf. apply outcome_bind_Ret in Hf as (y1 & E1 & E2).
  destruct (dry_fold_behind z L1.*2 wl y y1 Hz Hy Hb E1) as [Hy1 Hb1]. cbn [fmap list_fmap try_fold_o] in E2.
  apply outcome_bind_Ret in E2 as (y2 & E2 & E3). apply outcome_bind_Ret in E2 as ([y2' idx] & E2 & [= ->]).
  destruct (try_apply_behind z y1 o wl y2 idx Hz Hy1 Hb1 E2) as (Hy2 & Hb2 & z' & idx' & Ez & Hz' & Hb'). cbn [snd] in *. rewrite Ez.
  assert (Hrest : forall s' o', s' ∈ S -> fallible_coins tx !! s' = Some o' -> (s', o') ∈ L2).
  { intros s' o' Hs' Eo'. assert (Hlt : s < s') by (by apply (proj1 (Forall_forall _ _) Hs)).
    specialize (Hin s' o' ltac:(by right) Eo'). apply elem_of_app in Hin as [H1|[H1|H1]%elem_of_cons]; [|injection H1 as -> _; lia|done].
    pose proof (sorted_split L1 L2 s o (s', o') HL H1). cbn in *. lia. }
  apply sorted_tail in HL. exists z'. split; [done|]. split; (split; [done|]); exists y2, y', L2; done.
Qed.

(** No segment fails because of its shielded offer. *)
Lemma fallible_loop stx tx ctx S : forall pr pr',
  StronglySorted Z.lt S -> Forall (fun s => s <> GUARANTEED_SEGMENT) S -> Tried stx (whitelist ctx) (zswap (pr_state pr)) S ->
  (forall k e, segment_success pr !! k <> Some (Some (ZswapInvalid e))) ->
  try_fold_o (fallible_step stx tx ctx) pr S = Ret pr' -> forall k e, segment_success pr' !! k <> Some (Some (ZswapInvalid e)).
Proof.
  induction S as [|s S IH]; intros pr pr' Hsort Hnz HT Hp; cbn [try_fold_o]; [by intros [= <-]|].
  apply Forall_cons in Hnz as [Hs Hnz]. destruct (Tried_next _ _ _ _ _ Hsort HT) as (z' & Ez & HT1 & HT2). apply StronglySorted_inv in Hsort as [Hsort _].
  pose proof (fallible_section_zswap (pr_state pr) stx (tx_hash tx) (tx_fees tx) s ctx z' Hs Ez) as Hsec. 
  destruct (fallible_step stx tx ctx pr s) as [pr1| |] eqn:Estep; cbn [mbind outcome_bind]; [|discriminate..].
  unfold fallible_step in Estep. destruct (apply_section _ _ _ _ _ _) as [[st1 ev1]|e|]; cbn [spares fst] in Hsec; [| |done].
  - apply (f_equal (fst ∘ fst)) in Hsec. cbn in Hsec. destruct (materialize ev1); cbn [mbind outcome_bind] in Estep; [|done..]. injection Estep as <-. apply IH; [done|done|cbn; by rewrite Hsec|].
    intros k e'. cbn. destruct (decide (k = s)) as [->|]; [by rewrite lookup_insert_eq|]. rewrite lookup_insert_ne by done. apply Hp.
  - injection Estep as <-. apply IH; [done|done|done|]. intros k e'. cbn. destruct (decide (k = s)) as [->|].
    + rewrite lookup_insert_eq. intros [= ->]. done.
    + rewrite lookup_insert_ne by done. apply Hp.
Qed.

(** After the guaranteed section, the offers have been tried. *)
Lemma guaranteed_tried st tx h fees ctx st' ev : Zswap_ok (zswap st) ->
  apply_section st tx h fees GUARANTEED_SEGMENT ctx = Ret (st', ev) -> Tried tx (whitelist ctx) (zswap st') (fallible_segments tx).
Proof.
  intros Hok. unfold apply_section. rewrite Z.eqb_refl. unfold guaranteed_section.
  destruct (of_result _) as [r| |]; cbn [map_fail mbind outcome_bind]; [|done..].
  destruct (apply_optional_zswap _ _ _ _ _) as [[[st1 ci] ev1]| |] eqn:Ez; cbn [mbind outcome_bind]; [|done..].
  apply optional_zswap_Ret in Ez. change (zswap (with_replay st r)) with (zswap st) in Ez.
  assert (Hok1 : Zswap_ok (zswap st1)).
  { destruct (guaranteed_coins tx) as [o|]; [|by rewrite Ez].
    destruct (try_apply_behind (zswap st) (zswap st) o (whitelist ctx) (zswap st1) ci Hok Hok (Behind_refl _) Ez) as [H1 _]. exact H1. }
  destruct (dry_run (zswap st1) _ ctx) as [z0| |] eqn:Ed0; cbn [mbind outcome_bind]; [|done..]. unfold dry_run in Ed0.
  destruct (try_fold_o _ (zswap st1) _) as [zend| |] eqn:Ed; [|done..]. clear Ed0.
  match goal with |- context [try_fold_o ?f (st1, ev1) ?l] => pose proof (spares_fold fst (core st1) f l) as Hsp end.
  specialize (Hsp ltac:(intros [s1 e1] [k i] Hs; cbn [fst snd] in *; rewrite <- Hs;
    apply (spares_bind fst fst); [apply apply_intent_spares|by intros [s2 e2]]) (st1, ev1) eq_refl).
  destruct (try_fold_o _ (st1, ev1) _) as [[st2 ev2]| |]; cbn [mbind outcome_bind]; [|done..]. cbn [spares fst] in Hsp.
  apply (f_equal (fst ∘ fst)) in Hsp. cbn in Hsp.
  destruct (apply_fees _ _ _ _ _ _) as [[[st3 rem] ev3]| |] eqn:E3; cbn [mbind outcome_bind]; [|done..].
  apply apply_fees_same in E3 as [d ->]. cbn [mret outcome_ret mbind outcome_bind].
  destruct (check_night_balance_invariant _); [|done]. intros [= <- _].
  change (zswap (with_dust st2 d)) with (zswap st2). rewrite Hsp. split; [done|].
  exists (zswap st1), zend, (sorted_iter (fallible_coins tx)). split_and!; [done|apply Behind_refl|apply sorted_iter_sorted| |exact Ed].
  intros s o _ Eo. by apply elem_of_sorted_iter.
Qed.

(** *** Events of shielded offers can always be made *)

Lemma transient_input_total (t : @Transient Pedersen unit CoinCiphertext) : exists i, Transient_as_input 0 transient_hash2 degrade t = Ret i.
Proof.
  unfold Transient_as_input, transient_root.
  destruct (try_update_hash_spec 0 transient_hash2 degrade ZSWAP_TREE_HEIGHT cempty (blank ZSWAP_TREE_HEIGHT) 0 (tr_coin_com t) tt)
    as (t' & -> & HR & _); [constructor; apply not_false_is_true; by intros (i & _ & [? ?])%mempty_false|by vm_compute|by vm_compute|]. cbn [mbind outcome_bind].
  rewrite (rehash_root_spec _ _ _ _ _ _ HR). eauto.
Qed.

Lemma mapM_total {E A B} (f : A -> outcome E B) l : (forall x, x ∈ l -> exists y, f x = Ret y) -> exists ys, mapM f l = Ret ys.
Proof.
  induction l as [|x l IH]; intros Hf; [by exists []|]. change (mapM f (x :: l)) with (y ← f x; k ← mapM f l; mret (y :: k)). destruct (Hf x ltac:(left)) as [y ->]. destruct IH as [ys Hys]; [intros z Hz; apply Hf; by right|].
  cbn [mbind outcome_bind]. rewrite Hys. by eexists.
Qed.

Lemma optional_zswap_total st (o : ZswapOffer) ctx h segment z idx : Zswap_ok (zswap st) ->
  try_apply (zswap st) o (whitelist ctx) = Ret (z, idx) ->
  exists events, apply_optional_zswap st (Some o) ctx h segment = Ret (with_zswap st z, idx, map Ret events).
Proof.
  intros [c Hok] E. unfold apply_optional_zswap, apply_zswap. pose proof (State_try_apply_spec _ _ _ _ _ _ _ _ _ Hok E) as (A & _ & _).
  rewrite E. cbn [map_fail mbind outcome_bind]. unfold zswap_input_events.
  destruct (mapM_total (fun t => match Transient_as_input 0 transient_hash2 degrade t with Ret i => Ret i | _ => Panic end : outcome Empty_set _) (transient o))
    as [ts ->]. { intros t _. destruct (transient_input_total t) as [i ->]. eauto. }
  cbn [mbind outcome_bind no_fail]. unfold zswap_output_events. match goal with |- context [mapM ?f ?l] => destruct (mapM_total f l) as [os Hos] end; [|rewrite Hos; cbn; by eexists].
  intros x Hx. assert (Hin : out_coin_com x ∈ (offer_coins o).*1).
  { unfold offer_coins. rewrite fmap_app, elem_of_app. apply elem_of_app in Hx as [Hx|Hx].
    - left. rewrite <- list_fmap_compose. by apply (list_elem_of_fmap_2 _ _ _ Hx).
    - right. rewrite <- list_fmap_compose. apply list_elem_of_fmap in Hx as (t & -> & Ht). by apply (list_elem_of_fmap_2 _ _ _ Ht). }
  apply list_elem_of_fmap in Hin as (e & He & (k & Hk)%list_elem_of_lookup). pose proof (added_index _ _ _ _ _ _ _ _ _ _ A k e Hk) as Hi.
  rewrite He, Hi. cbn. eauto.
Qed.

Lemma materialize_ret (events : list Event) : materialize (map Ret events) = Ret events.
Proof. unfold materialize. induction events as [|e events IH]; [done|].
  change (mapM id (map Ret (e :: events))) with (k ← mapM id (map Ret events : list DeferredEvent); mret (e :: k) : outcome Empty_set (list Event)). by rewrite IH. Qed.
End shielded.

(** ** Replay *)

Section chain.
Context `{PR : Prims} {HS : Hashes} {CI : CostInputs}.
Context (phantom : ClaimRewardsTransaction).
Implicit Types st : LedgerState.

Definition failed (r : TransactionResult) : Prop := match r with Failure _ => True | _ => False end.

(** The standard transactions a transaction adds to those that were applied. *)
Definition applied (tx : VerifiedTransaction) (r : TransactionResult) : list StandardTransaction :=
  match inner tx, r with Standard stx, Success _ | Standard stx, PartialSuccess _ _ => [stx] | _, _ => [] end.

(** States of a chain at a block time, with the standard transactions that were
    applied, completely or in part. *)
Inductive chain : Timestamp -> LedgerState -> list StandardTransaction -> Prop :=
| chain_start t st : replay_protection st = ReplayProtectionState_new -> chain t st []
| chain_tick t t' st txs : chain t st txs -> t <= t' -> chain t' st txs
| chain_tx st tx ctx st' r txs :
    chain (tblock_of ctx) st txs -> apply phantom st tx ctx = Ret (st', r) -> chain (tblock_of ctx) st' (applied tx r ++ txs)
| chain_system t st tx st' events txs : chain t st txs -> apply_system_tx st tx t = Ret (st', events) -> chain t st' txs
| chain_block t st d f st' txs : chain t st txs -> ledger_post_block_update st t d f = Ret st' -> chain t st' txs.

(** What replay protection holds: the intents of all these transactions. *)
Definition Recorded t st (txs : list StandardTransaction) : Prop :=
  exists hist, Holds (replay_protection st) t hist /\
    forall tx segment i, tx ∈ txs -> intents tx !! segment = Some i -> (intent_hash i 0, ttl i) ∈ hist.

Lemma sys_replay_holds t st hash r hist : Holds (replay_protection st) t hist -> sys_replay st hash t = Ok r ->
  exists x, Holds r t (x :: hist).
Proof. intros HH E. unfold sys_replay in E. eexists. by eapply Holds_member. Qed.

Lemma Recorded_member t st st' txs hash r : Recorded t st txs -> sys_replay st hash t = Ok r -> replay_protection st' = r -> Recorded t st' txs.
Proof.
  intros (hist & HH & Hin) E <-. destruct (sys_replay_holds _ _ _ _ _ HH E) as [x HH']. exists (x :: hist). split; [done|]. intros. right. by eapply Hin.
Qed.

Lemma Recorded_same t st st' txs : Recorded t st txs -> replay_protection st' = replay_protection st -> Recorded t st' txs.
Proof. intros H E. unfold Recorded. by rewrite E. Qed.

Lemma section_replay st tx h fees segment ctx st' ev : segment <> GUARANTEED_SEGMENT ->
  apply_section st tx h fees segment ctx = Ret (st', ev) -> replay_protection st' = replay_protection st.
Proof.
  intros Hs. unfold apply_section. rewrite (proj2 (Z.eqb_neq _ _) Hs). unfold fallible_section.
  destruct (apply_optional_zswap _ _ _ _ _) as [[[st1 ci] ev1]| |] eqn:Ez; cbn [mbind outcome_bind]; [|done..].
  apply optional_zswap_same in Ez as [z ->]. destruct (intents tx !! segment) as [i|].
  - pose proof (apply_intent_spares (with_zswap st z) i false segment ctx ci (mkEventSource h GUARANTEED_SEGMENT segment)) as Hsp.
    destruct (apply_intent_section _ _ _ _ _ _ _) as [[st2 new]| |]; cbn [mbind outcome_bind mret outcome_ret]; [|done..].
    apply (f_equal (snd ∘ fst)) in Hsp. cbn in Hsp. destruct (check_night_balance_invariant st2); [|done]. by intros [= <- _].
  - cbn [mret outcome_ret mbind outcome_bind]. destruct (check_night_balance_invariant _); [|done]. by intros [= <- _].
Qed.

Lemma guaranteed_replay st tx h fees ctx st' ev : apply_section st tx h fees GUARANTEED_SEGMENT ctx = Ret (st', ev) ->
  apply_tx intent_hash ttl (replay_protection st) (intents tx) (tblock_of ctx) (global_ttl (parameters st)) = Ok (replay_protection st').
Proof.
  unfold apply_section. rewrite Z.eqb_refl. unfold guaranteed_section.
  destruct (apply_tx _ _ _ _ _ _) as [r|]; cbn [of_result map_fail mbind outcome_bind]; [|done].
  destruct (apply_optional_zswap _ _ _ _ _) as [[[st1 ci] ev1]| |] eqn:Ez; cbn [mbind outcome_bind]; [|done..].
  apply optional_zswap_same in Ez as [z ->]. destruct (dry_run _ _ ctx); cbn [mbind outcome_bind]; [|done..].
  match goal with |- context [try_fold_o ?f (?s, ev1) ?l] => pose proof (spares_fold fst (core s) f l) as Hsp;
    specialize (Hsp ltac:(intros [s1 e1] [k i] Hs; cbn [fst snd] in *; rewrite <- Hs;
      apply (spares_bind fst fst); [apply apply_intent_spares|by intros [s2 e2]]) (s, ev1) eq_refl) end.
  destruct (try_fold_o _ (_, ev1) _) as [[st2 ev2]| |]; cbn [mbind outcome_bind]; [|done..]. cbn [spares fst] in Hsp.
  apply (f_equal (snd ∘ fst)) in Hsp. cbn in Hsp.
  destruct (apply_fees _ _ _ _ _ _) as [[[st3 rem] ev3]| |] eqn:E3; cbn [mbind outcome_bind]; [|done..].
  apply apply_fees_same in E3 as [d ->]. cbn [mret outcome_ret mbind outcome_bind].
  destruct (check_night_balance_invariant _); [|done]. intros [= <- _]. f_equal. symmetry. exact Hsp.
Qed.

Lemma apply_tx_holds t rp rp' gttl hist (m : gmap Z LedgerIntent) :
  Holds rp t hist -> apply_tx intent_hash ttl rp m t gttl = Ok rp' ->
  exists hist', Holds rp' t hist' /\ (forall x, x ∈ hist -> x ∈ hist') /\ forall s i, m !! s = Some i -> (intent_hash i 0, ttl i) ∈ hist'.
Proof.
  intros HH E. eapply try_fold_holds in E; [|exact HH]. eexists. split; [exact E|]. split; [intros x Hx; apply elem_of_app; by right|].
  intros s i Hs. apply elem_of_app. left. apply elem_of_reverse, list_elem_of_fmap. exists i. split; [done|]. apply elem_of_sorted_intents. eauto.
Qed.

Lemma fallible_replay stx tx ctx S pr pr' : Forall (fun s => s <> GUARANTEED_SEGMENT) S ->
  try_fold_o (fallible_step stx tx ctx) pr S = Ret pr' -> replay_protection (pr_state pr') = replay_protection (pr_state pr).
Proof.
  revert pr. induction S as [|s S IH]; intros pr Hs; cbn [try_fold_o]; [by intros [= <-]|]. apply Forall_cons in Hs as [Hs1 Hs].
  destruct (fallible_step stx tx ctx pr s) as [pr1| |] eqn:Es; cbn [mbind outcome_bind]; [|discriminate..]. intros E%IH; [|done]. rewrite E.
  unfold fallible_step in Es. destruct (apply_section _ _ _ _ _ _) as [[st1 ev1]|e|] eqn:E1; [| |done].
  - destruct (materialize ev1); cbn [mbind outcome_bind] in Es; [|done..]. injection Es as <-. by eapply section_replay.
  - by injection Es as <-.
Qed.

Lemma apply_recorded st tx ctx st' r txs :
  Recorded (tblock_of ctx) st txs -> apply phantom st tx ctx = Ret (st', r) -> Recorded (tblock_of ctx) st' (applied tx r ++ txs).
Proof.
  intros HR. unfold LedgerApply.apply, apply_guaranteed_only, applied. destruct (inner tx) as [stx|c] eqn:Ei.
  - destruct (apply_section st stx _ _ _ _) as [[st1 ev1]|e|] eqn:Eg; cbn [mbind outcome_bind]; [|by intros [= <- <-]|done].
    unfold apply_fallible. cbn [gar_tx gar_state deferred_events]. rewrite Ei. destruct (materialize ev1); cbn [mbind outcome_bind]; [|done..].
    destruct (try_fold_o _ _ _) as [pr| |] eqn:Ef; cbn [mbind outcome_bind]; [|done..]. intros [= <- <-].
    apply fallible_replay in Ef; [|apply Forall_forall; apply fallible_segments_nonzero]. cbn in Ef.
    apply guaranteed_replay in Eg. rewrite <- Ef in Eg. destruct HR as (hist & HH & Hin).
    destruct (apply_tx_holds _ _ _ _ _ _ HH Eg) as (hist' & HH' & H1 & H2).
    assert (Recorded (tblock_of ctx) (pr_state pr) (stx :: txs)); [|by destruct (total_success pr)]. exists hist'. split; [done|].
    intros tx' s i [->|Hx]%elem_of_cons Hs; [by eapply H2|]. by eapply H1, Hin.
  - destruct (claim_unshielded _ _ _ _ _) as [[st1 ev1]|e|] eqn:Ec; cbn [mbind outcome_bind]; [|by intros [= <- _]|done].
    unfold apply_fallible. cbn [gar_tx gar_state deferred_events]. rewrite Ei. destruct (materialize ev1); cbn [mbind outcome_bind]; [|done..].
    intros [= <- _]. cbn [app]. unfold claim_unshielded in Ec. destruct (_ <? _); [done|]. destruct (bool_decide _ && _); [done|].
    destruct (sys_replay st _ _) as [rp|] eqn:Er; [|done]. cbn [of_result mbind outcome_bind] in Ec.
    destruct (claim_dust _ _ _ _ _ _) as [[st2 ev2]| |] eqn:Ed; cbn [mbind outcome_bind] in Ec; [|done..].
    destruct (check_night_balance_invariant st2); [|done]. injection Ec as <- _. apply claim_dust_night in Ed as [d ->].
    eapply Recorded_member; [exact HR|exact Er|]. by destruct (claim_kind c).
Qed.

Lemma distribute_recorded kind t txs l : forall st st', Recorded t st txs -> try_fold_o (distribute_one kind t) st l = Ret st' -> Recorded t st' txs.
Proof.
  intros st st'. apply (try_fold_o_ind (fun s => Recorded t s txs)). intros s o s' Hs. unfold distribute_one.
  destruct (sys_replay s _ _) as [rp|] eqn:Er; [|done]. cbn [of_result mbind outcome_bind]. destruct kind.
  - intros [= <-]. by eapply Recorded_member.
  - destruct (if _ <? _ then _ else _) as [[fees rest]| |]; cbn [mbind outcome_bind]; [|done..]. intros [= <-]. by eapply Recorded_member.
Qed.

Lemma sys_checked_state st events st' events' : sys_checked st events = Ret (st', events') -> st' = st.
Proof. unfold sys_checked. destruct (check_night_balance_invariant st); [|done]. by intros [= <- _]. Qed.

Lemma system_recorded t st tx st' events txs : Recorded t st txs -> apply_system_tx st tx t = Ret (st', events) -> Recorded t st' txs.
Proof.
  intros HR. assert (Hsame : forall s, replay_protection s = replay_protection st -> Recorded t s txs) by (intros s; by apply Recorded_same).
  destruct tx; cbn [apply_system_tx]; try done; try (destruct (_ <? _); [done|]); try (intros E%sys_checked_state; subst st'; by apply Hsame).
  - intros [= <- _]. by apply Hsame.
  - unfold distribute_night. destruct (_ <$> _) as [[c b]|]; [|done]. destruct (_ && _); [|done].
    destruct (try_fold_o _ _ _) as [s| |] eqn:E; cbn [mbind outcome_bind]; [|done..]. intros Es%sys_checked_state. subst st'.
    eapply distribute_recorded; [|exact E]. by apply Hsame.
  - destruct (try_fold_o _ _ _) as [[d ev]| |]; cbn [mbind outcome_bind]; [|done..]. intros [= <- _]. by apply Hsame.
Qed.

Lemma block_recorded t st d f st' txs : Recorded t st txs -> ledger_post_block_update st t d f = Ret st' -> Recorded t st' txs.
Proof.
  intros (hist & HH & Hin). unfold ledger_post_block_update. destruct (prevalidate_post_block_update d f); [|done].
  unfold apply_post_block_update. destruct (post_block_update _ _ _ _ _ _) as [z| |]; cbn [map_fail mbind outcome_bind]; [|done..].
  destruct (dust_post_block_update _ _ _ _ _) as [ds| |]; cbn [map_fail mbind outcome_bind]; [|done..]. intros [= <-].
  exists hist. split; [|done]. by apply Holds_block.
Qed.

Lemma chain_recorded t st txs : chain t st txs -> Recorded t st txs.
Proof.
  induction 1 as [t st E|t t' st txs _ (hist & HH & Hin) Hle|st tx ctx st' r txs _ IH E|t st tx st' ev txs _ IH E|t st d f st' txs _ IH E].
  - exists []. split; [rewrite E; apply Holds_new|]. by intros ? ? ? ?%not_elem_of_nil.
  - exists hist. split; [|done]. by eapply Holds_tick.
  - by eapply apply_recorded.
  - by eapply system_recorded.
  - by eapply block_recorded.
Qed.

(** Two intents that are the same to replay protection. *)
Definition same_intent (i i' : LedgerIntent) : Prop := intent_hash i 0 = intent_hash i' 0 /\ ttl i = ttl i'.

(** C2. Intents are not replayed.  Once a standard transaction was applied,
    completely or in part, every later state of the chain rejects each
    transaction with one of its intents (one with the same hash for segment 0 and
    time to live), alone or merged with others and in whatever segment, and stays
    as it was: after other transactions, system
    transactions, changes of the parameters, updates after blocks, and however
    much time has passed.  A transaction with the same intent in two segments is
    rejected too. *)
Theorem ledger_no_replay t st txs tx stx s i ctx :
  chain t st txs -> inner tx = Standard stx -> intents stx !! s = Some i -> tblock_of ctx = t ->
  (exists before s' i', before ∈ txs /\ intents before !! s' = Some i' /\ same_intent i' i) \/
  (exists s' i', s' <> s /\ intents stx !! s' = Some i' /\ same_intent i' i) ->
  exists e, apply phantom st tx ctx = Ret (st, Failure (ReplayProtectionViolation e)).
Proof.
  intros (hist & HH & Hin)%chain_recorded Ei Hs <- Hbefore.
  assert (He : exists e, apply_tx intent_hash ttl (replay_protection st) (intents stx) (tblock_of ctx) (global_ttl (parameters st)) = Err e).
  { destruct Hbefore as [(before & s' & i' & Hb & Hs' & [Hh Ht])|(s' & i' & Hne & Hs' & [Hh Ht])].
    - eapply try_fold_rejects; [exact HH|apply elem_of_sorted_intents; eauto|]. rewrite <- Hh, <- Ht. by eapply Hin.
    - destruct (sorted_intents_two (intents stx) s' s i' i Hne Hs' Hs) as (l1 & x & l2 & y & E & Hy & Hxy). unfold apply_tx. rewrite E.
      eapply try_fold_rejects_twice; [exact HH|exact Hy|]. destruct Hxy as [[-> ->]|[-> ->]]; by rewrite Hh, Ht. }
  destruct He as [e E]. unfold LedgerApply.apply, apply_guaranteed_only. rewrite Ei. unfold apply_section. rewrite Z.eqb_refl. unfold guaranteed_section.
  rewrite E. cbn. eauto.
Qed.
End chain.

(** ** Maintenance *)

Section maintenance.
Context `{PR : Prims} {HS : Hashes} {CI : CostInputs}.
Implicit Types st : LedgerState.

(** Every new committee counts on from the counter of the update (as checked in
    [MaintenanceUpdate::well_formed]). *)
Definition counter_ok (upd : MaintenanceUpdate) : Prop :=
  forall auth, ReplaceAuthority auth ∈ updates upd -> counter auth = sat_add 32 (upd_counter upd) 1.

Lemma apply_updates_counter n us : forall c c', (forall auth, ReplaceAuthority auth ∈ us -> counter auth = n) ->
  counter (maintenance_authority c) = n -> try_fold_o apply_update c us = Ret c' -> counter (maintenance_authority c') = n.
Proof.
  induction us as [|u us IH]; intros c c' Hu Hc; cbn [try_fold_o]; [by intros [= <-]|].
  destruct (apply_update c u) as [c1| |] eqn:E; cbn [mbind outcome_bind]; [|done..]. apply IH; [intros auth Ha; apply Hu; by right|].
  destruct u; cbn [apply_update] in E; unfold store_operation in E; repeat case_match; simplify_eq; try done. cbn. apply Hu. left.
Qed.

(** C7. Maintenance updates are not replayed.  An update that is applied to a contract
    moves the contract's counter past the update's, so that the same update is
    rejected from then on; the contract's state and balance stay as they are. *)
Theorem maintenance_no_replay self st upd st' :
  counter_ok upd -> 0 <= upd_counter upd < u_max 32 -> apply_maintain self st upd = Ret st' ->
  (exists c c', contract st !! upd_address upd = Some c /\ contract st' = <[upd_address upd := c']> (contract st) /\
     counter (maintenance_authority c) = upd_counter upd /\ counter (maintenance_authority c') = upd_counter upd + 1 /\
     data c' = data c /\ balance c' = balance c) /\
  forall upd' self', upd_address upd' = upd_address upd -> upd_counter upd' = upd_counter upd ->
    apply_maintain self' st' upd' = Fail (ReplayCounterMismatch (upd_address upd)).
Proof.
  intros Hok Hn. unfold apply_maintain at 1. destruct (contract st !! upd_address upd) as [c|] eqn:Ec; [|done].
  destruct (Z.eqb_spec (counter (maintenance_authority c)) (upd_counter upd)) as [Hc|]; cbn [negb]; [|done].
  destruct (try_fold_o _ _ _) as [c'| |] eqn:Eu; cbn [mbind outcome_bind]; [|done..].
  destruct (metadata_sizes_checked _ _ _); cbn [mbind outcome_bind]; [|done..]. intros [= <-].
  assert (Hs : sat_add 32 (upd_counter upd) 1 = upd_counter upd + 1) by (unfold sat_add; lia).
  assert (Hc' : counter (maintenance_authority c') = upd_counter upd + 1).
  { eapply apply_updates_counter; [| |exact Eu]; [intros auth Ha; rewrite <- Hs; by apply Hok|cbn; by rewrite Hc]. }
  assert (Hd : data c' = data c /\ balance c' = balance c).
  { revert Eu. apply (try_fold_o_ind (fun c1 => data c1 = data c /\ balance c1 = balance c)); [|done]. intros c1 u c2 [<- <-].
    destruct u; cbn [apply_update]; unfold store_operation; repeat case_match; try done; by intros [= <-]. }
  split; [exists c, c'; split_and!; try done; apply Hd|]. intros upd' self' Ea En. unfold apply_maintain. rewrite Ea, En.
  cbn [contract with_contract]. rewrite lookup_insert_eq, Hc'. by rewrite (proj2 (Z.eqb_neq _ _)) by lia.
Qed.
End maintenance.

(** ** Properties *)

Section properties.
Context `{PR : Prims} {HS : Hashes} {CI : CostInputs}.
Context (phantom : ClaimRewardsTransaction).
Implicit Types st : LedgerState.
Local Abbreviation transient_hash2 := (fun a b => transient_hash [a; b]).
Local Abbreviation degrade := (degrade_to_transient modulus).

(** C3. The shielded part of a fallible segment cannot fail.  The guaranteed section
    tries the shielded offers of all fallible segments.  After that, whichever of
    the segments take effect and whichever are undone, no segment fails for a
    shielded reason: not for a spent nullifier, a known commitment, an unknown
    root or a full tree. *)
Theorem fallible_offers_apply st tx ctx st' segments events segment e :
  (exists c, State_ok 0 transient_hash2 degrade (zswap st) c) ->
  apply phantom st tx ctx = Ret (st', PartialSuccess segments events) -> segments !! segment <> Some (Some (ZswapInvalid e)).
Proof.
  intros Hok. unfold LedgerApply.apply, apply_guaranteed_only. destruct (inner tx) as [stx|c] eqn:Ei.
  - destruct (apply_section st stx _ _ _ _) as [[st1 ev1]| |] eqn:Eg; cbn [mbind outcome_bind]; [|done..].
    unfold apply_fallible. cbn [gar_tx gar_state deferred_events]. rewrite Ei. apply guaranteed_tried in Eg; [|done].
    destruct (materialize ev1); cbn [mbind outcome_bind]; [|done..].
    destruct (try_fold_o _ _ _) as [pr| |] eqn:Ef; cbn [mbind outcome_bind]; [|done..]. destruct (total_success pr); [done|]. intros [= _ <- _].
    revert segment e. apply (fallible_loop stx tx ctx (fallible_segments stx) (mkProgress st1 a {[0 := None]} true) pr);
      [apply fallible_segments_sorted|apply Forall_forall; apply fallible_segments_nonzero|exact Eg| |exact Ef].
    intros k e. cbn. destruct (decide (k = 0)) as [->|]; [by rewrite lookup_singleton_eq|by rewrite lookup_singleton_ne].
  - destruct (claim_unshielded _ _ _ _ _) as [[st1 ev1]| |]; cbn [mbind outcome_bind]; [|done..].
    unfold apply_fallible. cbn [gar_tx gar_state deferred_events]. rewrite Ei. by destruct (materialize ev1).
Qed.

(** C1. No transaction creates or destroys Night.  In a state whose places add up to
    the supply, apply a transaction whose Night inflow is below 2^126 in each of
    its sections and whose amounts are not negative, as unsigned amounts are (the
    sum that the ledger compares with the supply wraps at 2^128, so that some
    bound is needed): whether the transaction succeeds, fails, or succeeds in some
    of its segments only, the places add up to the supply again, no place holds a
    negative amount, and calls, deployments and offers have together not gained or
    lost a unit of Night. *)
Theorem apply_conserves (Hiter : forall K V `{Countable K} (m : gmap K V), map_iter m ≡ₚ map_to_list m) st tx ctx st' r :
  Supply_ok st -> tx_amounts_ok tx -> apply phantom st tx ctx = Ret (st', r) -> Supply_ok st'.
Proof. by apply apply_supply. Qed.

(** *** Shielded segments *)

Context (Hiter : forall K V `{Countable K} (m : gmap K V), map_iter m ≡ₚ map_to_list m).

(** An intent with nothing to do in its fallible section: no fallible unshielded
    offer, and only calls, all without a fallible transcript. *)
Definition idle (i : LedgerIntent) : Prop :=
  fallible_unshielded_offer i = None /\
  forall a, a ∈ actions i -> exists c, a = Call c /\ fallible_transcript c = None.

(** The contracts that an intent's calls address are there, as far as they are followed. *)
Definition addressed (ctx : TransactionContext) (i : LedgerIntent) (st : LedgerState) : Prop :=
  forall c, Call c ∈ actions i -> whitelist_matches (whitelist ctx) (call_address c) = true -> is_Some (contract st !! call_address c).

Definition grows (st st' : LedgerState) : Prop := forall a, is_Some (contract st !! a) -> is_Some (contract st' !! a).

Lemma addressed_grows ctx i st st' : addressed ctx i st -> grows st st' -> addressed ctx i st'.
Proof. intros H Hg c Hc Hw. by apply Hg, H. Qed.

Lemma grows_insert st a c : grows st (with_contract st (<[a := c]> (contract st))).
Proof. intros b Hb. cbn. destruct (decide (b = a)) as [->|]; [rewrite lookup_insert_eq; eauto|by rewrite lookup_insert_ne]. Qed.

(** What each step of a fold reaches and later steps keep, holds at its end. *)
Lemma try_fold_each {E S X} (R : S -> S -> Prop) (Q : X -> S -> Prop) (f : S -> X -> outcome E S) l :
  (forall s, R s s) -> (forall s1 s2 s3, R s1 s2 -> R s2 s3 -> R s1 s3) -> (forall x s s', Q x s -> R s s' -> Q x s') ->
  (forall s x s', f s x = Ret s' -> R s s' /\ Q x s') ->
  forall s s', try_fold_o f s l = Ret s' -> R s s' /\ forall x, x ∈ l -> Q x s'.
Proof.
  intros HR HT HQ Hf. induction l as [|x l IH]; intros s s'; cbn [try_fold_o].
  - intros [= <-]. split; [done|]. by intros x ?%not_elem_of_nil.
  - destruct (f s x) as [s1| |] eqn:E1; cbn [mbind outcome_bind]; [|discriminate..]. intros E2. destruct (Hf _ _ _ E1) as [H1 H2].
    destruct (IH _ _ E2) as [H3 H4]. split; [by eapply HT|]. intros y [->|Hy]%elem_of_cons; [by eapply HQ|by apply H4].
Qed.

Lemma apply_action_contracts self g ctx i ci source acc a acc' : apply_action self g ctx i ci source acc a = Ret acc' ->
  grows acc.1 acc'.1 /\
  forall c, a = Call c -> whitelist_matches (whitelist ctx) (call_address c) = true -> is_Some (contract acc'.1 !! call_address c).
Proof.
  destruct acc as [st ev], a as [c|d|u]; cbn [apply_action].
  - destruct (whitelist_matches _ _) eqn:Ew; cbn [negb]; [|intros [= <-]; split; [by intros ? ?|intros c' [= <-]; congruence]].
    unfold apply_call, index. destruct (contract st !! call_address c) as [cs|] eqn:Ec; [|done].
    assert (Hdone : forall st', grows st st' -> grows st st' /\
      forall c', Call c = Call c' -> whitelist_matches (whitelist ctx) (call_address c') = true -> is_Some (contract st' !! call_address c')).
    { intros st' Hg. split; [done|]. intros c' [= <-] _. apply Hg. eauto. }
    destruct (if g then _ else _) as [t|]; cbn [mbind outcome_bind]; [|intros [= <-]; apply Hdone; by intros ? ?].
    destruct (map_fail _ _) as [r| |]; cbn [mbind outcome_bind]; [|done..]. case_decide; [done|].
    destruct (move_balance _ _) as [b| |]; cbn [mbind outcome_bind]; [|done..]. intros [= <-]. apply Hdone. cbn. unfold update_index.
    rewrite Ec. apply grows_insert.
  - destruct (_ || _); [intros [= <-]; split; [by intros ? ?|done]|]. unfold apply_deploy. case_bool_decide; [done|].
    destruct (metadata_sizes_checked _ _ _); cbn [mbind outcome_bind]; [|done..]. intros [= <-]. split; [apply grows_insert|done].
  - destruct (_ || _); [intros [= <-]; split; [by intros ? ?|done]|]. unfold apply_maintain. destruct (contract st !! _); [|done].
    destruct (negb _); [done|]. destruct (try_fold_o _ _ _); cbn [mbind outcome_bind]; [|done..].
    destruct (metadata_sizes_checked _ _ _); cbn [mbind outcome_bind]; [|done..]. intros [= <-]. split; [apply grows_insert|done].
Qed.

Lemma apply_intent_contracts st i g segment ctx ci source st' ev : apply_intent_section st i g segment ctx ci source = Ret (st', ev) ->
  grows st st' /\ addressed ctx i st'.
Proof.
  unfold apply_intent_section. destruct (apply_unshielded _ _ _ _ _ _) as [[st1 ev1]| |] eqn:E1; cbn [mbind outcome_bind]; [|done..].
  assert (H1 : contract st1 = contract st).
  { revert E1. unfold apply_unshielded. destruct (if g then _ else _) as [o|]; [|by intros [= <- _]].
    destruct (map_fail UtxosInvalid _) as [us| |]; cbn [mbind outcome_bind]; [|done..].
    destruct (map_fail DustPartInvalid _) as [[ds evs]| |]; cbn [mbind outcome_bind]; [|done..]. by intros [= <- _]. }
  destruct (apply_actions _ _ _ _ _ _ _) as [[st2 ev2]| |] eqn:E2; cbn [mbind outcome_bind]; [|done..]. intros [= <- _].
  eapply (try_fold_each (fun a b => grows a.1 b.1) (fun a acc => forall c, a = Call c ->
    whitelist_matches (whitelist ctx) (call_address c) = true -> is_Some (contract acc.1 !! call_address c))) in E2 as [H2 H3].
  - cbn [fst] in *. split; [intros a; rewrite <- H1; apply H2|]. intros c Hc Hw. by apply (H3 _ Hc).
  - by intros s a.
  - intros s1 s2 s3 Ha Hb a H. by apply Hb, Ha.
  - intros x s s' H Hg c -> Hw. by apply Hg, H.
  - intros s x s'. apply apply_action_contracts.
Qed.

(** After the guaranteed section, the contracts that are called are there. *)
Lemma guaranteed_addressed st tx h fees ctx st' ev : apply_section st tx h fees GUARANTEED_SEGMENT ctx = Ret (st', ev) ->
  forall s i, intents tx !! s = Some i -> addressed ctx i st'.
Proof.
  unfold apply_section. rewrite Z.eqb_refl. unfold guaranteed_section.
  destruct (of_result _) as [r| |]; cbn [map_fail mbind outcome_bind]; [|done..].
  destruct (apply_optional_zswap _ _ _ _ _) as [[[st1 ci] ev1]| |]; cbn [mbind outcome_bind]; [|done..].
  destruct (dry_run _ _ ctx); cbn [mbind outcome_bind]; [|done..].
  destruct (try_fold_o _ (st1, ev1) _) as [[st2 ev2]| |] eqn:E2; cbn [mbind outcome_bind]; [|done..].
  destruct (apply_fees _ _ _ _ _ _) as [[[st3 rem] ev3]| |] eqn:E3; cbn [mbind outcome_bind]; [|done..].
  apply apply_fees_same in E3 as [d ->]. cbn [mret outcome_ret mbind outcome_bind].
  destruct (check_night_balance_invariant _); [|done]. intros [= <- _] s i Hi.
  eapply (try_fold_each (fun a b => grows a.1 b.1) (fun e acc => addressed ctx e.2 acc.1)) in E2 as [_ H2].
  - apply (H2 (s, i)). by apply elem_of_sorted_iter.
  - by intros x addr.
  - intros s1 s2 s3 Ha Hb addr H. by apply Hb, Ha.
  - intros x s1 s2. apply addressed_grows.
  - intros [s1 e1] x s2. destruct (apply_intent_section _ _ _ _ _ _ _) as [[s3 e3]| |] eqn:E; cbn [mbind outcome_bind]; [|done..].
    intros [= <-]. by apply apply_intent_contracts in E.
Qed.

(** The fallible section of an idle intent does nothing. *)
Lemma idle_section st i segment ctx ci source : idle i -> addressed ctx i st ->
  apply_intent_section st i false segment ctx ci source = Ret (st, []).
Proof.
  intros [Ho Ha] Hc. unfold apply_intent_section, apply_unshielded, apply_actions. rewrite Ho. cbn [mbind outcome_bind].
  assert (H : forall l, (forall a, a ∈ l -> a ∈ actions i) -> try_fold_o (apply_action st false ctx i ci source) (st, []) l = Ret (st, [])).
  { induction l as [|a l IH]; intros Hl; cbn [try_fold_o]; [done|].
    destruct (Ha a) as (c & -> & Ht); [apply Hl; left|]. cbn [apply_action]. specialize (IH ltac:(intros; apply Hl; by right)).
    destruct (whitelist_matches _ _) eqn:Ew; cbn [negb mbind outcome_bind]; [|exact IH].
    unfold apply_call, index. destruct (Hc c) as [cs ->]; [apply Hl; left|done|]. rewrite Ht. exact IH. }
  by rewrite H.
Qed.

Lemma shielded_section stx tx ctx s S pr : StronglySorted Z.lt (s :: S) -> s <> GUARANTEED_SEGMENT ->
  (forall i, intents stx !! s = Some i -> idle i /\ addressed ctx i (pr_state pr)) -> Supply_ok (pr_state pr) ->
  Tried stx (whitelist ctx) (zswap (pr_state pr)) (s :: S) ->
  exists st1 new, fallible_step stx tx ctx pr s =
      Ret (mkProgress st1 (pr_events pr ++ new) (<[s := None]> (segment_success pr)) (total_success pr)) /\
    Supply_ok st1 /\ contract st1 = contract (pr_state pr) /\ Tried stx (whitelist ctx) (zswap st1) S.
Proof.
  intros Hsort Hs Hi Hok HT. destruct (Tried_next _ _ _ _ _ Hsort HT) as (z' & Ez & HT1 & _). unfold fallible_step, apply_section.
  rewrite (proj2 (Z.eqb_neq _ _) Hs).
  assert (Hz : exists ci events, apply_optional_zswap (pr_state pr) (fallible_coins stx !! s) ctx (tx_hash tx) s =
                                 Ret (with_zswap (pr_state pr) z', ci, map Ret events)).
  { unfold offered in Ez. destruct (fallible_coins stx !! s) as [o|]; [|injection Ez as <-; exists ∅, []; by destruct (pr_state pr)].
    destruct (State_try_apply _ _ _ _ _ _) as [[z1 idx]| |] eqn:E; [|done..]. injection Ez as ->. exists idx.
    by apply (optional_zswap_total _ o ctx (tx_hash tx) s z' idx (tried_ok _ _ _ _ HT)). }
  destruct Hz as (ci & events & Hz).
  assert (Hsec : fallible_section (pr_state pr) stx (tx_hash tx) s ctx = Ret (with_zswap (pr_state pr) z', map Ret events)).
  { unfold fallible_section. rewrite Hz. cbn [mbind outcome_bind]. destruct (intents stx !! s) as [i|]; [|done].
    destruct (Hi i eq_refl) as [Hidle Hadd]. rewrite idle_section by done. cbn [mbind outcome_bind]. by rewrite app_nil_r. }
  rewrite Hsec. cbn [mbind outcome_bind].
  assert (Hok' : Supply_ok (with_zswap (pr_state pr) z')) by (apply Owed_zero, Owed_zswap, Owed_zero, Hok).
  exists (with_zswap (pr_state pr) z'), events. rewrite Supply_checked by done. by rewrite materialize_ret.
Qed.

Lemma shielded_loop stx tx ctx S : (forall s i, intents stx !! s = Some i -> idle i) ->
  forall pr, StronglySorted Z.lt S -> Forall (fun s => s <> GUARANTEED_SEGMENT) S ->
  (forall s i, intents stx !! s = Some i -> addressed ctx i (pr_state pr)) ->
  Supply_ok (pr_state pr) -> Tried stx (whitelist ctx) (zswap (pr_state pr)) S -> total_success pr = true ->
  exists pr' new, try_fold_o (fallible_step stx tx ctx) pr S = Ret pr' /\ total_success pr' = true /\ pr_events pr' = pr_events pr ++ new /\
    Supply_ok (pr_state pr').
Proof.
  intros Hi. induction S as [|s S IH]; intros pr Hsort Hs Ha Hok HT Ht; cbn [try_fold_o]; [exists pr, []; by rewrite app_nil_r|].
  apply Forall_cons in Hs as [Hs1 Hs].
  destruct (shielded_section stx tx ctx s S pr Hsort Hs1) as (st1 & new & E & Hok1 & Ec & HT1); [|done..|]; [by eauto|].
  apply StronglySorted_inv in Hsort as [Hsort _].
  destruct (IH (mkProgress st1 (pr_events pr ++ new) (<[s := None]> (segment_success pr)) (total_success pr)) Hsort Hs) as (pr' & new' & E' & H1 & H2 & H3); [|done..|].
  { intros s' i Hs' c. cbn [pr_state]. rewrite Ec. by apply (Ha s'). }
  exists pr', (new ++ new'). rewrite E. cbn [mbind outcome_bind]. split_and!; [exact E'|done|by rewrite H2, app_assoc|done].
Qed.

(** C4. Shielded segments always succeed.  When the intents of a transaction have
    nothing to do in their fallible sections (no fallible unshielded offer, and
    no actions but calls without a fallible transcript), so that its fallible
    segments hold shielded offers only, and its guaranteed section succeeds,
    then all its segments succeed and the Night supply is kept.  This is for a
    state that is consistent in its shielded part and in its supply, for amounts
    of Night below 2^126 per section, and when the deferred Dust events of the
    guaranteed section can be made, as [apply] expects. *)
Theorem shielded_segments_succeed st tx stx ctx g events :
  inner tx = Standard stx -> (forall s i, intents stx !! s = Some i -> idle i) ->
  (exists c, State_ok 0 transient_hash2 degrade (zswap st) c) -> Supply_ok st -> inflow_ok stx ->
  apply_guaranteed_only phantom st tx ctx = Ret g -> materialize (deferred_events g) = Ret events ->
  exists st' new, apply phantom st tx ctx = Ret (st', Success (events ++ new)) /\ Supply_ok st'.
Proof.
  intros Ei Hi Hz Hs Hin Eg Em. unfold LedgerApply.apply. rewrite Eg. unfold apply_guaranteed_only in Eg. rewrite Ei in Eg.
  destruct (apply_section st stx _ _ _ _) as [[st1 ev1]| |] eqn:E; cbn [mbind outcome_bind] in Eg; [|done..]. injection Eg as <-.
  unfold apply_fallible. cbn [gar_tx gar_state deferred_events] in *. rewrite Ei, Em. cbn [mbind outcome_bind].
  pose proof (section_supply Hiter _ _ _ _ _ _ _ _ Hs Hin E) as Hs1. pose proof (guaranteed_addressed _ _ _ _ _ _ _ E) as Ha.
  apply guaranteed_tried in E; [|done].
  destruct (shielded_loop stx tx ctx (fallible_segments stx) Hi (mkProgress st1 events {[0 := None]} true)) as (pr & new & -> & H1 & H2 & H3);
    [apply fallible_segments_sorted| |done..|].
  { apply Forall_forall, fallible_segments_nonzero. }
  cbn [mbind outcome_bind]. rewrite H1. exists (pr_state pr), new. by rewrite H2.
Qed.

(** ** Batches *)

(** Applying transactions one after the other, none of which fails. *)
Inductive batch (ctx : TransactionContext) : LedgerState -> list VerifiedTransaction -> LedgerState -> list TransactionResult -> Prop :=
| batch_nil st : batch ctx st [] st []
| batch_cons st tx st1 r txs st' rs :
    apply phantom st tx ctx = Ret (st1, r) -> ~ failed r -> batch ctx st1 txs st' rs -> batch ctx st (tx :: txs) st' (r :: rs).

(** A transaction that fails leaves the state as it was. *)
Lemma apply_failure st tx ctx st' e : apply phantom st tx ctx = Ret (st', Failure e) -> st' = st.
Proof.
  unfold LedgerApply.apply. destruct (apply_guaranteed_only _ _ _ _) as [g|e'|]; [|by intros [= <- _]|done].
  unfold apply_fallible. destruct (materialize _); cbn [mbind outcome_bind]; [|done..].
  destruct (inner _); [|done]. destruct (try_fold_o _ _ _) as [pr| |]; cbn [mbind outcome_bind]; [|done..]. by destruct (total_success pr).
Qed.

Lemma until_failure_step st tx txs ctx res : ~ (exists st1 e, apply phantom st tx ctx = Ret (st1, Failure e)) ->
  batch_apply_until_first_failure phantom st (tx :: txs) ctx res =
    ('(st1, r) ← map_fail (Empty_set_rect _) (apply phantom st tx ctx); batch_apply_until_first_failure phantom st1 txs ctx (res ++ [r])) /\
  batch_apply_all_or_nothing phantom st (tx :: txs) ctx res =
    ('(st1, r) ← map_fail (Empty_set_rect _) (apply phantom st tx ctx); batch_apply_all_or_nothing phantom st1 txs ctx (res ++ [r])).
Proof.
  intros Hn. cbn [batch_apply_until_first_failure batch_apply_all_or_nothing].
  destruct (apply phantom st tx ctx) as [[st1 [ev|sg ev|e]]|[]|]; try done. destruct Hn. eauto.
Qed.

(** Batches.  Applying a batch until its first failure gives the state, the
    results and the transactions left over exactly as if the transactions before
    the failure had been applied alone, one after the other; the transaction at
    fault is the first of those left over and fails in that state.  Applying all
    or nothing succeeds exactly when no transaction fails, with the same state
    and results, and otherwise reports the same failure. *)
Theorem batches_sequential ctx txs : forall st res,
  match batch_apply_until_first_failure phantom st txs ctx res with
  | Ret (st', res') =>
      (exists rs, batch ctx st txs st' rs /\ res' = res ++ rs) /\ batch_apply_all_or_nothing phantom st txs ctx res = Ret (st', res')
  | Fail (st1, res1, err, rest) =>
      (exists before tx after rs, txs = before ++ rest /\ rest = tx :: after /\ batch ctx st before st1 rs /\ res1 = res ++ rs /\
         apply phantom st1 tx ctx = Ret (st1, Failure err)) /\
      batch_apply_all_or_nothing phantom st txs ctx res = Fail err
  | Panic => batch_apply_all_or_nothing phantom st txs ctx res = Panic
  end.
Proof.
  induction txs as [|tx txs IH]; intros st res; [split; [|done]; exists []; rewrite app_nil_r; split; [constructor|done]|].
  destruct (apply phantom st tx ctx) as [[st1 r]|[]|] eqn:E; [|cbn; by rewrite E].
  destruct (match r with Failure e => Some e | _ => None end) as [e|] eqn:Er.
  - destruct r as [| |e']; [done|done|]. cbn [batch_apply_until_first_failure batch_apply_all_or_nothing]. rewrite E. split; [|done].
    exists [], tx, txs, []. rewrite app_nil_r. pose proof (apply_failure _ _ _ _ _ E) as ->. split_and!; try done. constructor.
  - destruct (until_failure_step st tx txs ctx res) as [-> ->]; [intros (st2 & e & E2); rewrite E in E2; by injection E2 as _ ->|].
    rewrite E. cbn [map_fail mbind outcome_bind]. specialize (IH st1 (res ++ [r])).
    assert (Hr : ~ failed r) by (destruct r; [by intros []|by intros []|done]). destruct (batch_apply_until_first_failure _ _ _ _ _) as [[st' res']|[[[st2 res2] err] rest]|]; [| |done].
    + destruct IH as [(rs & H1 & ->) H2]. split; [|done]. exists (r :: rs). rewrite <- app_assoc. split; [by econstructor|done].
    + destruct IH as [(before & tx0 & after & rs & -> & -> & H1 & -> & H3) H2]. split; [|done]. exists (tx :: before), tx0, after, (r :: rs).
      rewrite <- app_assoc. split_and!; try done. by econstructor.
Qed.
End properties.

(** ** Example *)

(** A user claims Night and sends it on; one segment of the transaction asks for
    more than there is, another has a shielded output. *)
Module LedgerApplyExample.
Import SupplyExample.

Definition funded : LedgerState := match claim_unshielded claim bridged claim ctx source with Ret (st, _) => st | _ => bridged end.
Definition context : TransactionContext := mkTransactionContext funded ctx None.

Definition spend : @UtxoSpend SignatureVerifyingKey :=
  mkUtxoSpend 500 7 NIGHT (mk_intent_hash (mkOutputInstruction 500 (replicate 32 7) (replicate 32 2)) NIGHT) 0.
Definition send : LedgerIntent :=
  mkIntent (Some (mkUnshieldedOffer [spend] [mkUtxoOutput 500 (replicate 32 8) NIGHT]))
    (Some (mkUnshieldedOffer [] [mkUtxoOutput 100 (replicate 32 8) NIGHT])) [] None 300 0.
Definition coin : ZswapOffer := mkOffer [] [mkOutput (replicate 32 5) 0 None None tt] [] [].
Definition stx (segment : Z) : StandardTransaction := mkStandardTransaction "net" {[segment := send]} None {[2 := coin]} 0.
Definition tx (segment : Z) : VerifiedTransaction := mkVerifiedTransaction (Standard (stx segment)) [9] 0.

(** Which segments of a transaction succeeded. *)
Definition shape (r : outcome Empty_set (LedgerState * TransactionResult)) : option (list (Z * bool)) :=
  match r with
  | Ret (_, Success _) => Some []
  | Ret (_, PartialSuccess segments _) => Some (sorted_iter ((fun e => match e with None => true | Some _ => false end) <$> segments))
  | _ => None
  end.

Lemma iter_perm K V `{Countable K} (m : gmap K V) : map_iter m ≡ₚ map_to_list m.
Proof. done. Qed.

Lemma funded_ok : Supply_ok funded.
Proof.
  pose proof (claim_cases claim bridged claim ctx source bridged_ok ltac:(cbn; lia)) as H.
  assert (Hv : (fun _ => tt) <$> claim_unshielded claim bridged claim ctx source = Ret tt) by (vm_compute; reflexivity).
  unfold funded. destruct (claim_unshielded claim bridged claim ctx source) as [[st ev]| |]; [apply H|discriminate Hv..].
Qed.

Lemma funded_zswap : zswap funded = State_default.
Proof. vm_compute. reflexivity. Qed.

Lemma partial : shape (apply claim funded (tx 1) context) = Some [(0, true); (1, false); (2, true)].
Proof. vm_compute. reflexivity. Qed.

(** The same without the fallible unshielded offer. *)
Definition quiet : LedgerIntent := mkIntent (guaranteed_unshielded_offer send) None [] None 300 0.
Definition quiet_stx : StandardTransaction := mkStandardTransaction "net" {[1 := quiet]} None {[2 := coin]} 0.
Definition quiet_tx : VerifiedTransaction := mkVerifiedTransaction (Standard quiet_stx) [9] 0.

Lemma full : shape (apply claim funded quiet_tx context) = Some [].
Proof. vm_compute. reflexivity. Qed.

Lemma quiet_idle s i : intents quiet_stx !! s = Some i -> idle i.
Proof.
  cbn [intents quiet_stx]. intros [_ <-]%lookup_singleton_Some. unfold idle, quiet. cbn [fallible_unshielded_offer actions].
  split; [done|]. by intros a ?%not_elem_of_nil.
Qed.

Lemma quiet_ok : inflow_ok quiet_stx.
Proof.
  assert (Hi : intent_nonneg quiet).
  { unfold intent_nonneg, offer_nonneg. cbn. split_and!; [apply Forall_cons_2; [cbn; lia|apply Forall_nil_2]|done|apply Forall_nil_2]. }
  split; [apply map_Forall_singleton; exact Hi|]. split; [vm_compute; reflexivity|].
  intros s. unfold fallible_inflow. cbn [intents quiet_stx]. destruct (decide (s = 1)) as [->|]; [vm_compute; reflexivity|].
  rewrite lookup_singleton_ne by done. vm_compute. reflexivity.
Qed.

Lemma stx_ok segment : inflow_ok (stx segment).
Proof.
  assert (Hi : intent_nonneg send).
  { unfold intent_nonneg, offer_nonneg. cbn. split_and!; [apply Forall_cons_2; [cbn; lia|apply Forall_nil_2]..|apply Forall_nil_2]. }
  split; [apply map_Forall_singleton; exact Hi|]. split.
  - unfold guaranteed_inflow, sorted_iter. cbn [intents stx]. rewrite map_to_list_singleton. vm_compute. reflexivity.
  - intros s. unfold fallible_inflow. cbn [intents stx]. destruct (decide (s = segment)) as [->|].
    + rewrite lookup_singleton_eq. vm_compute. reflexivity.
    + rewrite lookup_singleton_ne by done. vm_compute. reflexivity.
Qed.

Lemma funded_chain : chain claim (tblock_of context) funded [].
Proof.
  assert (Hp : (fun _ => tt) <$> apply_system_tx genesis payout 100 = Ret tt) by (vm_compute; reflexivity).
  assert (Hc : (fun _ => tt) <$> claim_unshielded claim bridged claim ctx (mkEventSource [1] 0 0) = Ret tt) by (vm_compute; reflexivity).
  assert (Hg : replay_protection genesis = ReplayProtectionState_new) by (vm_compute; reflexivity).
  assert (Hb : chain claim 200 bridged []).
  { apply (chain_tick claim 100); [|lia]. unfold bridged. destruct (apply_system_tx genesis payout 100) as [[st ev]| |] eqn:E; [|discriminate Hp..].
    eapply chain_system; [|exact E]. by apply chain_start. }
  unfold funded, source. destruct (claim_unshielded claim bridged claim ctx _) as [[st ev]| |] eqn:E; [|discriminate Hc..].
  change (tblock_of context) with 200 in *. set (vtx := mkVerifiedTransaction (ClaimRewards claim) [1] 0).
  assert (Hm : exists evs, materialize ev = Ret evs).
  { assert (Hv : match claim_unshielded claim bridged claim ctx (mkEventSource [1] 0 0) with Ret (_, []) => true | _ => false end = true)
      by (vm_compute; reflexivity). rewrite E in Hv. destruct ev; [|discriminate Hv]. by exists []. }
  destruct Hm as [evs Em]. apply (chain_tx claim bridged vtx context st (Success evs) [] Hb).
  unfold LedgerApply.apply, apply_guaranteed_only. cbn [inner vtx]. cbn [tx_hash vtx]. unfold GUARANTEED_SEGMENT.
  change (block_context context) with ctx. rewrite E. cbn [mbind outcome_bind].
  unfold apply_fallible. cbn [deferred_events gar_tx gar_state inner vtx]. rewrite Em. reflexivity.
Qed.
End LedgerApplyExample.

Import SupplyExample LedgerApplyExample.

Lemma fallible_offers_apply_witness : exists st' segments events, apply claim funded (tx 1) context = Ret (st', PartialSuccess segments events) /\
  forall e, segments !! 2 <> Some (Some (ZswapInvalid e)).
Proof.
  pose proof partial as Hp. destruct (apply claim funded (tx 1) context) as [[st' [ev|segments ev|e]]| |] eqn:E; try discriminate Hp.
  exists st', segments, ev. split; [reflexivity|]. intros e. eapply (fallible_offers_apply claim funded (tx 1) context); [|exact E].
  rewrite funded_zswap. exists cempty. apply State_default_ok.
Defined.

Lemma apply_conserves_witness : exists st' r, apply claim funded (tx 1) context = Ret (st', r) /\ Supply_ok st'.
Proof.
  pose proof partial as Hp. destruct (apply claim funded (tx 1) context) as [[st' r]| |] eqn:E; try discriminate Hp.
  exists st', r. split; [reflexivity|]. eapply (apply_conserves claim (@iter_perm) funded (tx 1) context); [apply funded_ok|apply (stx_ok 1)|exact E].
Defined.

Lemma shielded_segments_succeed_witness :
  exists st' events, apply claim funded quiet_tx context = Ret (st', Success events) /\ Supply_ok st'.
Proof.
  pose proof full as Hf. assert (Hg : exists g, apply_guaranteed_only claim funded quiet_tx context = Ret g).
  { unfold LedgerApply.apply in Hf. destruct (apply_guaranteed_only _ _ _ _) as [g| |]; [by exists g|discriminate Hf..]. }
  destruct Hg as [g Eg]. assert (Hm : exists events, materialize (deferred_events g) = Ret events).
  { unfold LedgerApply.apply, apply_fallible in Hf. rewrite Eg in Hf. destruct (materialize _) as [evs| |]; [by exists evs|discriminate Hf..]. }
  destruct Hm as [events Em].
  destruct (shielded_segments_succeed claim (@iter_perm) funded quiet_tx quiet_stx context g events) as (st' & new & E & Hs);
    [reflexivity| |rewrite funded_zswap; exists cempty; apply State_default_ok|apply funded_ok|apply quiet_ok|exact Eg|exact Em|].
  - apply quiet_idle.
  - exists st', (events ++ new). split; [exact E|exact Hs].
Defined.

Lemma ledger_no_replay_witness :
  exists st' e, apply claim st' (mkVerifiedTransaction (Standard (stx 2)) [9] 0) context = Ret (st', Failure (ReplayProtectionViolation e)).
Proof.
  pose proof partial as Hp. destruct (apply claim funded (tx 1) context) as [[st' [ev|segments ev|e]]| |] eqn:E; try discriminate Hp.
  exists st'. apply (ledger_no_replay claim (tblock_of context) st' (applied (tx 1) (PartialSuccess segments ev) ++ [])
    (mkVerifiedTransaction (Standard (stx 2)) [9] 0) (stx 2) 2 send context); [|reflexivity|reflexivity|reflexivity|].
  - eapply chain_tx; [|exact E]. apply funded_chain.
  - left. exists (stx 1), 1, send. split; [left|]. split; [reflexivity|split; reflexivity].
Defined.

Definition maintained : LedgerState :=
  with_contract funded {[replicate 32 4 := mkContractState (mkChargedState _ _ _ SNull DeltaExample.charged1) ∅ (mkAuthority [] 1 3) ∅]}.
Definition update : MaintenanceUpdate := mkMaintenanceUpdate (replicate 32 4) [VerifierKeyInsert [1] (VK4 [2]); ReplaceAuthority (mkAuthority [] 2 4)] 3 [].

Lemma maintenance_no_replay_witness :
  exists st', apply_maintain maintained maintained update = Ret st' /\
    apply_maintain maintained st' update = Fail (ReplayCounterMismatch (replicate 32 4)).
Proof.
  assert (Hv : (fun _ => tt) <$> apply_maintain maintained maintained update = Ret tt) by (vm_compute; reflexivity).
  destruct (apply_maintain maintained maintained update) as [st'| |] eqn:E; [|discriminate Hv..]. exists st'. split; [reflexivity|].
  eapply (maintenance_no_replay maintained maintained update st'); [| |exact E|reflexivity|reflexivity].
  - intros auth Ha. apply elem_of_cons in Ha as [Ha|Ha]; [discriminate Ha|]. apply list_elem_of_singleton in Ha. by injection Ha as ->.
  - vm_compute. split; [discriminate|reflexivity].
Defined.
