(* ===== verification/Balance.v ===== *)
(** * Balances of a transaction

    The errors of a malformed transaction ([ledger/src/error.rs]) and the check
    that a transaction does not spend more than it brings in
    ([StandardTransaction::balance] and [balancing_check] of
    [ledger/src/verify.rs]).  The check adds and subtracts in 128 bits, in the
    order of the code; [balance_sound] says that what it accepts is balanced as
    integers, for every token and every segment. *)

From S2P Require Import Prelude Serialize MerkleTree Storage Cost DeltaTracking VmCost Fab OnchainVm ZswapMemo Repr Coins.
From S2P Require Import Runtime ZswapOffer ZswapLedger Intents Dust LedgerData TxCost Ledger Supply LedgerApply.
From stdpp Require Import gmap strings sorting.

Local Open Scope Z_scope.

(** ** Errors *)

Inductive BalanceOperation := Addition | Subtraction.

Inductive SequencingCheckError :=
| CallSequencingViolation (call_predecessor call_successor : Z) (predecessor_address successor_address : ContractAddress)
| SequencingCorrelationViolation (address_1 address_2 : ContractAddress) (call_position_1 call_position_2 : Z)
| GuaranteedInFallibleContextViolation (caller callee : Z) (caller_address callee_address : ContractAddress)
| FallibleInGuaranteedContextViolation (caller callee : Z) (caller_address callee_address : ContractAddress)
| CausalityConstraintViolation (call_predecessor call_successor : Z) (predecessor_address successor_address : ContractAddress)
    (segment_id_predecessor segment_id_successor : Z)
| CallHasEmptyTranscripts (segment_id : Z) (addr : ContractAddress) (call_index : Z).

(** Without the sets that these errors list. *)
Inductive EffectsCheckError :=
| RealCallsSubsetCheckFailure
| AllCommitmentsSubsetCheckFailure
| RealUnshieldedSpendsSubsetCheckFailure
| ClaimedUnshieldedSpendsUniquenessFailure
| ClaimedCallsUniquenessFailure
| NullifiersNEClaimedNullifiers
| CommitmentsNEClaimedShieldedReceives.

Inductive DisjointCheckError :=
| ShieldedInputsDisjointFailure
| ShieldedOutputsDisjointFailure
| UnshieldedInputsDisjointFailure.

Inductive MalformedContractDeploy :=
| NonZeroBalance (balance : gmap TokenType Z)
| IncorrectChargedState
| MetadataTooLarge (entry_point : EntryPointBuf) (size limit : Z)
| AuthorityMetadataTooLarge (size limit : Z).

Section errors.
Context `{P : Prims}.

(** The errors the checks below return. *)
Inductive MalformedTransaction :=
| InvalidNetworkId (expected found : string)
| VerifierKeyNotSet (address : ContractAddress) (operation : EntryPointBuf)
| TransactionTooLarge (tx_size limit : Z)
| VerifierKeyNotPresent (address : ContractAddress) (operation : EntryPointBuf)
| MContractNotPresent (address : ContractAddress)
| MInvalidProof
| MNotNormalized
| FallibleWithoutCheckpoint
| IllegallyDeclaredGuaranteed
| InvalidSchnorrProof
| MZswap (e : MalformedOffer)
| FeeCalculation (e : FeeCalculationError)
| KeyNotInCommittee (address : ContractAddress) (key_id : Z)
| InvalidCommitteeSignature (address : ContractAddress) (key_id : Z)
| InvalidDustRegistrationSignature (registration : @DustRegistration SignatureVerifyingKey unit)
| InvalidDustSpendProof (declared_time : Timestamp) (dust_spend : @DustSpend unit)
| OutOfDustValidityWindow (dust_ctime validity_start validity_end : Timestamp)
| MultipleDustRegistrationsForKey (key : SignatureVerifyingKey)
| InsufficientDustForRegistrationFee (registration : @DustRegistration SignatureVerifyingKey unit) (available_dust : Z)
| ThresholdMissed (address : ContractAddress) (signatures threshold : Z)
| MMalformedContractDeploy (e : MalformedContractDeploy)
| IntentSignatureVerificationFailure
| IntentAtGuaranteedSegmentId
| GuaranteedTranscriptVersion
| FallibleTranscriptVersion
| MTransactionApplicationError (e : TransactionApplicationError)
| MBalanceCheckOutOfBounds (token_type : TokenType) (segment current_balance operation_value : Z) (operation : BalanceOperation)
| BalanceCheckConversionFailure (token_type : TokenType) (segment operation_value : Z)
| PedersenCheckFailure (expected calculated : Pedersen)
| BalanceCheckOverspend (token_type : TokenType) (segment overspent_value : Z)
| EffectsCheckFailure (e : EffectsCheckError)
| DisjointCheckFailure (e : DisjointCheckError)
| SequencingCheckFailure (e : SequencingCheckError)
| InputsNotSorted (ins : list (@UtxoSpend SignatureVerifyingKey))
| OutputsNotSorted (outs : list UtxoOutput)
| DuplicateInputs (ins : list (@UtxoSpend SignatureVerifyingKey))
| InputsSignaturesLengthMismatch (inputs : list (@UtxoSpend SignatureVerifyingKey)) (signatures : Z)
| ZeroValueUtxo (output : UtxoOutput)
| IntentSegmentIdCollision (segment : Z)
| CantMergeTypes.
End errors.

(** ** The balance *)

Section balance.
Context `{P : Prims}.

(** The calls of an intent. *)
Definition intent_calls (intent : LedgerIntent) : list ContractCall :=
  omap (fun a => match a with Call c => Some c | _ => None end) (actions intent).

(** The arguments of a call of [update_balance]. *)
Record BalanceUpdate := mkBalanceUpdate {
  bu_token_type : TokenType;
  bu_segment : Z;
  bu_value : Z;
  bu_operation : BalanceOperation
}.
Definition added (tt_ : TokenType) (segment value : Z) : BalanceUpdate := mkBalanceUpdate tt_ segment value Addition.
Definition subtracted (tt_ : TokenType) (segment value : Z) : BalanceUpdate := mkBalanceUpdate tt_ segment value Subtraction.

Definition update_balance (res : gmap (TokenType * Z) Z) (u : BalanceUpdate)
  : result MalformedTransaction (gmap (TokenType * Z) Z) :=
  let k := (bu_token_type u, bu_segment u) in
  let current_balance := default 0 (res !! k) in
  if i_max 128 <? bu_value u then Err (BalanceCheckConversionFailure (bu_token_type u) (bu_segment u) (bu_value u))
  else
    let bal := match bu_operation u with
               | Addition => current_balance + bu_value u
               | Subtraction => current_balance - bu_value u
               end in
    if bool_decide (in_i 128 bal) then Ok (<[k := bal]> res)
    else Err (MBalanceCheckOutOfBounds (bu_token_type u) (bu_segment u) current_balance (bu_value u) (bu_operation u)).

(** The calls of [update_balance] in the order they are made. *)
Definition offer_updates (segment : Z) (offer : option (@UnshieldedOffer SignatureVerifyingKey)) : list BalanceUpdate :=
  ((fun inp => added (Unshielded (spend_type inp)) segment (spend_value inp)) <$> from_option uo_inputs [] offer) ++
  ((fun out => subtracted (Unshielded (output_type out)) segment (output_value out)) <$> from_option uo_outputs [] offer).

Definition transcript_updates (address : ContractAddress) (segment : Z) (transcript : option Transcript) : list BalanceUpdate :=
  match transcript with
  | None => []
  | Some t =>
      let e := tr_effects t in
      ((fun kv => added (Shielded (custom_token_type persistent_hash address kv.1)) segment kv.2) <$> map_iter (shielded_mints e)) ++
      ((fun kv => added (Unshielded (custom_token_type persistent_hash address kv.1)) segment kv.2) <$> map_iter (unshielded_mints e)) ++
      ((fun kv => subtracted kv.1 segment kv.2) <$> map_iter (unshielded_inputs e)) ++
      ((fun kv => added kv.1 segment kv.2) <$> map_iter (unshielded_outputs e))
  end.

Definition call_updates (segment : Z) (call : ContractCall) : list BalanceUpdate :=
  transcript_updates (call_address call) 0 (guaranteed_transcript call) ++
  transcript_updates (call_address call) segment (fallible_transcript call).

Definition intent_updates (deltas_only : bool) (entry : Z * LedgerIntent) : list BalanceUpdate :=
  let '(segment, intent) := entry in
  ((fun s => added Coins.Dust 0 (v_fee s)) <$> from_option spends [] (dust_actions intent)) ++
  ((fun r => added Coins.Dust 0 (allow_fee_payment r)) <$> from_option registrations [] (dust_actions intent)) ++
  offer_updates 0 (guaranteed_unshielded_offer intent) ++ offer_updates segment (fallible_unshielded_offer intent) ++
  (if deltas_only then [] else intent_calls intent ≫= call_updates segment).

Definition delta_update (segment : Z) (delta : list Z * Z) : BalanceUpdate :=
  if delta.2 <? 0 then subtracted (Shielded delta.1) segment (- delta.2) else added (Shielded delta.1) segment delta.2.

(** The shielded offers with their segments: the fallible ones first. *)
Definition segment_offers (self : StandardTransaction) : list (Z * ZswapOffer) :=
  sorted_iter (fallible_coins self) ++ ((fun o => (GUARANTEED_SEGMENT, o)) <$> option_list (guaranteed_coins self)).

Definition balance_updates (self : StandardTransaction) (fees : option Z) (deltas_only : bool) : list BalanceUpdate :=
  (subtracted Coins.Dust 0 <$> option_list fees) ++
  (sorted_iter (intents self) ≫= intent_updates deltas_only) ++
  (segment_offers self ≫= fun so => delta_update so.1 <$> deltas so.2).

Definition balance_maybe_deltas_only (self : StandardTransaction) (fees : option Z) (deltas_only : bool)
  : result MalformedTransaction (gmap (TokenType * Z) Z) :=
  try_fold update_balance ∅ (balance_updates self fees deltas_only).

Definition tx_balance (self : StandardTransaction) (fees : option Z) : result MalformedTransaction (gmap (TokenType * Z) Z) :=
  balance_maybe_deltas_only self fees false.

(** Which of several overspent tokens is reported is left open. *)
Definition balancing_check (enforce_balancing : bool) (self : StandardTransaction) (fees : Z) : result MalformedTransaction unit :=
  balances ← tx_balance self (Some fees);
  try_for_each (fun kb => if (kb.2 <? 0) && enforce_balancing then Err (BalanceCheckOverspend kb.1.1 kb.1.2 kb.2) else Ok tt)
    (map_to_list balances).
End balance.

(** ** Sums *)

Section zsum.
Context {X : Type}.
Implicit Types (f g : X -> Z) (l : list X).

Definition zsum f l : Z := foldr (fun x n => f x + n) 0 l.

Lemma zsum_app f l1 l2 : zsum f (l1 ++ l2) = zsum f l1 + zsum f l2.
Proof. unfold zsum. induction l1 as [|x l1 IH]; cbn [foldr app fmap list_fmap] in *; lia. Qed.
Lemma zsum_ext f g l : (forall x, x ∈ l -> f x = g x) -> zsum f l = zsum g l.
Proof.
  unfold zsum. induction l as [|x l IH]; intros Hf; [done|]. cbn [foldr]. rewrite (Hf x ltac:(left)). f_equal. apply IH. intros y Hy. apply Hf. by right.
Qed.
Lemma zsum_sub f g l : zsum (fun x => f x - g x) l = zsum f l - zsum g l.
Proof. unfold zsum. induction l as [|x l IH]; cbn [foldr app fmap list_fmap] in *; lia. Qed.
Lemma zsum_add f g l : zsum (fun x => f x + g x) l = zsum f l + zsum g l.
Proof. unfold zsum. induction l as [|x l IH]; cbn [foldr app fmap list_fmap] in *; lia. Qed.
Lemma zsum_zero f l : (forall x, x ∈ l -> f x = 0) -> zsum f l = 0.
Proof. intros Hf. rewrite (zsum_ext f (fun _ => 0)) by done. clear Hf. unfold zsum. induction l as [|x l IH]; cbn [foldr]; lia. Qed.
Lemma zsum_nonneg f l : (forall x, x ∈ l -> 0 <= f x) -> 0 <= zsum f l.
Proof.
  unfold zsum. induction l as [|x l IH]; intros Hf; [done|]. cbn [foldr]. pose proof (Hf x ltac:(left)).
  specialize (IH ltac:(intros y Hy; apply Hf; by right)). lia.
Qed.
#[export] Instance zsum_perm f : Proper ((≡ₚ) ==> (=)) (zsum f).
Proof. intros l1 l2 H. unfold zsum. induction H; cbn [foldr] in *; lia. Qed.
End zsum.

Lemma zsum_fmap {X Y} (f : Y -> Z) (g : X -> Y) l : zsum f (g <$> l) = zsum (fun x => f (g x)) l.
Proof. unfold zsum. induction l as [|x l IH]; cbn [foldr app fmap list_fmap] in *; lia. Qed.
Lemma zsum_bind {X Y} (f : Y -> Z) (g : X -> list Y) l : zsum f (l ≫= g) = zsum (fun x => zsum f (g x)) l.
Proof. induction l as [|x l IH]; [done|]. cbn [mbind list_bind]. by rewrite zsum_app, IH. Qed.
Create Rewrite HintDb zsum.
#[export] Hint Rewrite @zsum_app @zsum_fmap @zsum_bind : zsum.

(** ** What the balance means *)

(** The amounts of a token [tt_] that the parts of a transaction bring into the
    section [s] and take out of it. *)
Section meaning.
Context `{P : Prims} (tt_ : TokenType) (s : Z).

Definition worth (token : TokenType) (segment value : Z) : Z := if decide (token = tt_ /\ segment = s) then value else 0.

Definition offer_credit (segment : Z) (offer : option (@UnshieldedOffer SignatureVerifyingKey)) : Z :=
  zsum (fun i => worth (Unshielded (spend_type i)) segment (spend_value i)) (from_option uo_inputs [] offer).
Definition offer_debit (segment : Z) (offer : option (@UnshieldedOffer SignatureVerifyingKey)) : Z :=
  zsum (fun o => worth (Unshielded (output_type o)) segment (output_value o)) (from_option uo_outputs [] offer).

(** A contract mints its own tokens, and gives away what it holds. *)
Definition transcript_credit (address : ContractAddress) (segment : Z) (t : option Transcript) : Z :=
  from_option (fun t => let e := tr_effects t in
    zsum (fun kv => worth (Shielded (custom_token_type persistent_hash address kv.1)) segment kv.2) (map_iter (shielded_mints e)) +
    zsum (fun kv => worth (Unshielded (custom_token_type persistent_hash address kv.1)) segment kv.2) (map_iter (unshielded_mints e)) +
    zsum (fun kv => worth kv.1 segment kv.2) (map_iter (unshielded_outputs e))) 0 t.
Definition transcript_debit (segment : Z) (t : option Transcript) : Z :=
  from_option (fun t => zsum (fun kv => worth kv.1 segment kv.2) (map_iter (unshielded_inputs (tr_effects t)))) 0 t.

Definition intent_credit (entry : Z * LedgerIntent) : Z :=
  let '(segment, i) := entry in
  zsum (fun d => worth Coins.Dust 0 (v_fee d)) (from_option spends [] (dust_actions i)) +
  zsum (fun r => worth Coins.Dust 0 (allow_fee_payment r)) (from_option registrations [] (dust_actions i)) +
  offer_credit 0 (guaranteed_unshielded_offer i) + offer_credit segment (fallible_unshielded_offer i) +
  zsum (fun c => transcript_credit (call_address c) 0 (guaranteed_transcript c) +
                 transcript_credit (call_address c) segment (fallible_transcript c)) (intent_calls i).
Definition intent_debit (entry : Z * LedgerIntent) : Z :=
  let '(segment, i) := entry in
  offer_debit 0 (guaranteed_unshielded_offer i) + offer_debit segment (fallible_unshielded_offer i) +
  zsum (fun c => transcript_debit 0 (guaranteed_transcript c) + transcript_debit segment (fallible_transcript c)) (intent_calls i).

(** The net amount of shielded tokens, which may be negative. *)
Definition shielded_net (so : Z * ZswapOffer) : Z := zsum (fun d => worth (Shielded d.1) so.1 d.2) (deltas so.2).

Definition tx_credit (stx : StandardTransaction) : Z :=
  zsum intent_credit (sorted_iter (intents stx)) + zsum shielded_net (segment_offers stx).
Definition tx_debit (stx : StandardTransaction) (fees : Z) : Z :=
  worth Coins.Dust 0 fees + zsum intent_debit (sorted_iter (intents stx)).

(** What an update adds to the balance. *)
Definition signed (u : BalanceUpdate) : Z :=
  worth (bu_token_type u) (bu_segment u) (match bu_operation u with Addition => bu_value u | Subtraction => - bu_value u end).

Lemma signed_added token segment v : signed (added token segment v) = worth token segment v.
Proof. done. Qed.
Lemma signed_subtracted token segment v : signed (subtracted token segment v) = - worth token segment v.
Proof. unfold signed, subtracted, worth. cbn. case_decide; lia. Qed.

Lemma zsum_added {X} (token : X -> TokenType) segment (v : X -> Z) l :
  zsum signed ((fun x => added (token x) segment (v x)) <$> l) = zsum (fun x => worth (token x) segment (v x)) l.
Proof. by rewrite zsum_fmap. Qed.
Lemma zsum_subtracted {X} (token : X -> TokenType) segment (v : X -> Z) l :
  zsum signed ((fun x => subtracted (token x) segment (v x)) <$> l) = - zsum (fun x => worth (token x) segment (v x)) l.
Proof.
  rewrite zsum_fmap. rewrite (zsum_ext _ (fun x => 0 - worth (token x) segment (v x))) by (intros; rewrite signed_subtracted; lia).
  rewrite zsum_sub, (zsum_zero (fun _ => 0)) by done. lia.
Qed.

Lemma signed_offer segment offer : zsum signed (offer_updates segment offer) = offer_credit segment offer - offer_debit segment offer.
Proof. unfold offer_updates, offer_credit, offer_debit. rewrite zsum_app, zsum_added, zsum_subtracted. lia. Qed.

Lemma signed_transcript address segment t :
  zsum signed (transcript_updates address segment t) = transcript_credit address segment t - transcript_debit segment t.
Proof.
  destruct t as [t|]; [|done]. unfold transcript_updates, transcript_credit, transcript_debit. cbn [from_option].
  rewrite !zsum_app, !zsum_added, zsum_subtracted. lia.
Qed.

Lemma signed_intent e : zsum signed (intent_updates false e) = intent_credit e - intent_debit e.
Proof.
  destruct e as [segment i]. unfold intent_updates, intent_credit, intent_debit.
  rewrite !zsum_app, !zsum_added, !signed_offer, zsum_bind.
  rewrite (zsum_ext (fun c => zsum signed (call_updates segment c))
    (fun c => (transcript_credit (call_address c) 0 (guaranteed_transcript c) + transcript_credit (call_address c) segment (fallible_transcript c)) -
              (transcript_debit 0 (guaranteed_transcript c) + transcript_debit segment (fallible_transcript c)))).
  2: { intros c _. unfold call_updates. rewrite zsum_app, !signed_transcript. lia. }
  rewrite zsum_sub. lia.
Qed.

Lemma signed_delta segment d : signed (delta_update segment d) = worth (Shielded d.1) segment d.2.
Proof.
  unfold delta_update. destruct (d.2 <? 0); [rewrite signed_subtracted|apply signed_added]. unfold worth. case_decide; lia.
Qed.

Lemma signed_tx stx fees : zsum signed (balance_updates stx (Some fees) false) = tx_credit stx - tx_debit stx fees.
Proof.
  unfold balance_updates, tx_credit, tx_debit. rewrite !zsum_app, !zsum_bind.
  change (subtracted Coins.Dust 0 <$> option_list (Some fees)) with [subtracted Coins.Dust 0 fees].
  rewrite (zsum_ext _ (fun e => intent_credit e - intent_debit e)) by (intros; apply signed_intent). rewrite (zsum_sub intent_credit intent_debit).
  rewrite (zsum_ext (fun so => zsum signed (delta_update so.1 <$> deltas so.2)) shielded_net).
  2: { intros so _. rewrite zsum_fmap. apply zsum_ext. intros d _. apply signed_delta. }
  assert (zsum signed [subtracted Coins.Dust 0 fees] = - worth Coins.Dust 0 fees) as ->.
  2: { match goal with |- _ + (?b - ?c + ?d) = ?b' + ?d' - (_ + ?c') => change b' with b; change c' with c; change d' with d end. lia. }
  pose proof (signed_subtracted Coins.Dust 0 fees). unfold zsum. cbn [foldr]. lia.
Qed.

(** ** The arithmetic of the check *)

Lemma update_balance_exact res u res' :
  update_balance res u = Ok res' -> default 0 (res' !! (tt_, s)) = default 0 (res !! (tt_, s)) + signed u.
Proof.
  unfold update_balance, signed, worth. destruct (i_max 128 <? bu_value u); [done|]. case_bool_decide; [|done]. intros [= <-].
  case_decide as Hk.
  - destruct Hk as [-> ->]. rewrite lookup_insert_eq. cbn. destruct (bu_operation u); lia.
  - rewrite lookup_insert_ne; [lia|]. intros E. apply Hk. by injection E.
Qed.

Lemma balance_exact l : forall res res', try_fold update_balance res l = Ok res' ->
  default 0 (res' !! (tt_, s)) = default 0 (res !! (tt_, s)) + zsum signed l.
Proof.
  induction l as [|u l IH]; intros res res'; cbn [try_fold]; [intros [= <-]; cbn; lia|].
  destruct (update_balance res u) as [res1|] eqn:E; [|done]. intros ->%IH.
  rewrite (update_balance_exact _ _ _ E). unfold zsum. cbn [foldr]. lia.
Qed.
End meaning.

Section exact.
Context `{P : Prims}.

(** As long as everything together fits into 127 bits, no step leaves the range. *)
Lemma balance_total l : forall res bound, 0 <= bound -> Forall (fun u => 0 <= bu_value u) l -> bound + zsum bu_value l < 2 ^ 127 ->
  (forall k, Z.abs (default 0 (res !! k)) <= bound) -> exists res', try_fold update_balance res l = Ok res'.
Proof.
  induction l as [|u l IH]; intros res bound Hb Hl Hs Hres; cbn [try_fold]; [by eexists|].
  apply Forall_cons in Hl as [Hu Hl]. change (zsum bu_value (u :: l)) with (bu_value u + zsum bu_value l) in Hs.
  assert (0 <= zsum bu_value l) by (apply zsum_nonneg; by apply Forall_forall).
  unfold update_balance. pose proof (Hres (bu_token_type u, bu_segment u)) as Hk. unfold i_max. change (128 - 1) with 127.
  destruct (Z.ltb_spec (2 ^ 127 - 1) (bu_value u)); [lia|].
  set (bal := match bu_operation u with Addition => _ | Subtraction => _ end).
  assert (Hbal : Z.abs bal <= bound + bu_value u) by (subst bal; destruct (bu_operation u); lia).
  rewrite bool_decide_true by (unfold in_i, i_min, i_max; change (128 - 1) with 127; lia).
  apply (IH _ (bound + bu_value u)); [lia|done|lia|]. intros k. destruct (decide (k = (bu_token_type u, bu_segment u))) as [->|Hne].
  - by rewrite lookup_insert_eq.
  - rewrite lookup_insert_ne by done. specialize (Hres k). lia.
Qed.

Lemma balancing_check_Ok stx fees balances : tx_balance stx (Some fees) = Ok balances ->
  balancing_check true stx fees = Ok tt <-> forall k, 0 <= default 0 (balances !! k).
Proof.
  intros E. unfold balancing_check. rewrite E. cbn [mbind result_bind]. rewrite try_for_each_Ok, Forall_forall. split.
  - intros H k. destruct (balances !! k) as [b|] eqn:Ek; cbn; [|lia]. specialize (H (k, b)). cbn [fst snd] in H.
    destruct (Z.ltb_spec b 0); [|done]. specialize (H (proj2 (elem_of_map_to_list _ _ _) Ek)). done.
  - intros H [k b] Ek%elem_of_map_to_list. cbn [fst snd]. specialize (H k). rewrite Ek in H. cbn in H. by destruct (Z.ltb_spec b 0); [lia|].
Qed.

Lemma balanced_iff stx fees :
  Forall (fun u => 0 <= bu_value u) (balance_updates stx (Some fees) false) ->
  (balancing_check true stx fees = Ok tt -> forall token segment, tx_debit token segment stx fees <= tx_credit token segment stx) /\
  (zsum bu_value (balance_updates stx (Some fees) false) < 2 ^ 127 ->
   (forall token segment, tx_debit token segment stx fees <= tx_credit token segment stx) -> balancing_check true stx fees = Ok tt).
Proof.
  intros Hnn. assert (Hk : forall balances, tx_balance stx (Some fees) = Ok balances ->
    forall token segment, default 0 (balances !! (token, segment)) = tx_credit token segment stx - tx_debit token segment stx fees).
  { intros b E token segment. rewrite (balance_exact token segment _ _ _ E), signed_tx, lookup_empty. done. }
  split.
  - intros H token segment. destruct (tx_balance stx (Some fees)) as [b|e] eqn:E.
    + apply (balancing_check_Ok _ _ _ E) with (k := (token, segment)) in H. rewrite (Hk b) in H by done. lia.
    + unfold balancing_check in H. by rewrite E in H.
  - intros Hs Hbal. destruct (balance_total (balance_updates stx (Some fees) false) ∅ 0) as [b E]; [lia|done|lia| |].
    { intros k. by rewrite lookup_empty. }
    apply (balancing_check_Ok _ _ b E). intros [token segment]. rewrite (Hk b) by done. specialize (Hbal token segment). lia.
Qed.

(** Transactions are balanced.  A transaction that passes the check takes no
    more of any token out of any section than it brings in, as integers, however
    the additions in 128 bits come out on the way: unshielded outputs and what
    contracts receive are covered by unshielded inputs, by what contracts give
    away and by what they mint of their own tokens; negative shielded balances by
    mints; and the fees by Dust spends and the allowances of registrations.
    Conversely a balanced transaction passes when all its amounts together are
    less than [2^127]. *)
Theorem balance_sound stx fees :
  Forall (fun u => 0 <= bu_value u) (balance_updates stx (Some fees) false) ->
  (balancing_check true stx fees = Ok tt -> forall token segment, tx_debit token segment stx fees <= tx_credit token segment stx) /\
  (zsum bu_value (balance_updates stx (Some fees) false) < 2 ^ 127 ->
   (forall token segment, tx_debit token segment stx fees <= tx_credit token segment stx) -> balancing_check true stx fees = Ok tt).
Proof. apply balanced_iff. Qed.
End exact.

(** ** Example *)

Import Supply.SupplyExample.

Module BalanceExample.
Definition deposit : ContractCall :=
  mkContractCall (replicate 32 3) [1]
    (Some (mkTranscript RC_ZERO (mkEffects ∅ ∅ ∅ ∅ ∅ ∅ {[NIGHT_TOKEN := 2]} ∅ ∅) [] None)) None 0.
Definition pay : LedgerIntent :=
  mkIntent (Some (mkUnshieldedOffer [mkUtxoSpend 10 7 NIGHT (replicate 32 1) 0] [mkUtxoOutput 8 (replicate 32 8) NIGHT])) None
    [Call deposit] (Some (mkDustActions [mkDustSpend 30 1 2 tt] [] 100)) 300 0.
Definition stx : StandardTransaction := mkStandardTransaction "net" {[1 := pay]} None ∅ 0.

Lemma amounts : forallb (fun u => 0 <=? bu_value u) (balance_updates stx (Some 25) false) = true.
Proof. vm_compute. reflexivity. Qed.
Lemma accepted : is_ok (balancing_check true stx 25) = true.
Proof. vm_compute. reflexivity. Qed.
Lemma underpaid : is_ok (balancing_check true stx 31) = false.
Proof. vm_compute. reflexivity. Qed.
End BalanceExample.

Lemma balance_sound_witness :
  tx_debit NIGHT_TOKEN 0 BalanceExample.stx 25 <= tx_credit NIGHT_TOKEN 0 BalanceExample.stx /\ tx_credit NIGHT_TOKEN 0 BalanceExample.stx = 10.
Proof.
  split; [|vm_compute; reflexivity]. apply (balance_sound BalanceExample.stx 25).
  - apply Forall_forall. intros u Hu. pose proof BalanceExample.amounts as H. rewrite forallb_forall in H.
    apply Z.leb_le, H. by apply list_elem_of_In.
  - pose proof BalanceExample.accepted as H. destruct (balancing_check true BalanceExample.stx 25) as [[]|]; [reflexivity|discriminate H].
Defined.
