(* ===== verification/Sequencing.v ===== *)
(** * Calls between contracts

    Two checks of [ledger/src/verify.rs] on the calls of a transaction:
    [effects_check], that what transcripts claim happens in the transaction, and
    [sequencing_check], that the order of calls makes sense.  The latter is an
    optimised version of the check in [spec/intents-transactions.md], which
    builds the transitive closure of a relation between calls; the file
    [CallOrder] proves the two equivalent. *)

From S2P Require Import Prelude Serialize MerkleTree Storage Cost DeltaTracking VmCost Fab OnchainVm ZswapMemo Repr Coins.
From S2P Require Import Runtime ZswapOffer ZswapLedger Intents Dust LedgerData TxCost Ledger Supply LedgerApply Balance.
From stdpp Require Import gmap strings sorting.

Local Open Scope Z_scope.

(** ** Multisets *)

(** [MultiSet] of [ledger/src/primitive.rs]: the counts are [usize], which the
    number of elements in memory does not exceed. *)
Section multiset.
Context {T : Type} `{Countable T}.
Implicit Types m self other : gmap T Z.

Definition mset_insert m (element : T) : gmap T Z := <[element := default 0 (m !! element) + 1]> m.
Definition mset_count m (element : T) : Z := default 0 (m !! element).
Definition mset_has_subset self other : bool := forallb (fun kv => kv.2 <=? mset_count self kv.1) (map_to_list other).
Definition mset_from (l : list T) : gmap T Z := foldl mset_insert ∅ l.
(** The elements that occur more than once. *)
Definition mset_duplicates m : list (T * Z) := filter (fun kv => 1 < kv.2) (map_to_list m).
End multiset.

(** A call's place: the segment of its intent, its contract and its position. *)
Record CallNode := mkCallNode {
  segment_id : Z;
  node_addr : ContractAddress;
  call_index : Z
}.
#[export] Instance CallNode_eq_dec : EqDecision CallNode.
Proof. solve_decision. Defined.
#[export] Instance CallNode_countable : Countable CallNode.
Proof.
  refine (inj_countable' (fun n => (segment_id n, node_addr n, call_index n)) (fun '(s, a, i) => mkCallNode s a i) _). by intros [].
Defined.

(** The derived order of nodes, with addresses ordered as bytes. *)
Fixpoint bytes_leb (a b : list Z) : bool :=
  match a, b with
  | [], _ => true
  | _ :: _, [] => false
  | x :: a', y :: b' => (x <? y) || ((x =? y) && bytes_leb a' b')
  end.
Definition node_le (a b : CallNode) : Prop :=
  segment_id a < segment_id b \/
  (segment_id a = segment_id b /\
   ((node_addr a <> node_addr b /\ bytes_leb (node_addr a) (node_addr b) = true) \/
    (node_addr a = node_addr b /\ call_index a <= call_index b))).
#[export] Instance node_le_dec : RelDecision node_le.
Proof. unfold node_le. intros a b. apply _. Defined.

(** [entry(k).or_default().push(v)]. *)
Definition push_at {K V} `{Countable K} (m : gmap K (list V)) (k : K) (v : V) : gmap K (list V) :=
  <[k := default [] (m !! k) ++ [v]]> m.

Section checks.
Context `{P : Prims}.
Local Abbreviation iter_set := (set_iter (@map_iter _)).

(** ** Effects *)

(** A transcript with the segment of its intent, the segment it runs in, and its contract. *)
Record Placed := mkPlaced {
  pl_intent_segment : Z;
  pl_logical_segment : Z;
  pl_transcript : Transcript;
  pl_address : ContractAddress
}.
Definition pl_effects (t : Placed) : Effects := tr_effects (pl_transcript t).

Definition segment_calls (self : StandardTransaction) : list (Z * ContractCall) :=
  map_iter (intents self) ≫= fun si => (fun c => (si.1, c)) <$> intent_calls si.2.

Definition placed_transcripts (self : StandardTransaction) : list Placed :=
  segment_calls self ≫= fun sc =>
    ((fun t => mkPlaced sc.1 0 t (call_address sc.2)) <$> option_list (guaranteed_transcript sc.2)) ++
    ((fun t => mkPlaced sc.1 sc.1 t (call_address sc.2)) <$> option_list (fallible_transcript sc.2)).

(** The shielded offers by segment; a fallible one replaces the guaranteed one. *)
Definition offers_by_segment (self : StandardTransaction) : list (Z * ZswapOffer) :=
  sorted_iter (fallible_coins self ∪ from_option (fun o => {[0 := o]}) ∅ (guaranteed_coins self)).

Definition with_contract_address {A} (l : list (A * option ContractAddress)) : list (A * ContractAddress) :=
  omap (fun x => (fun addr => (x.1, addr)) <$> x.2) l.

Definition contract_commitments (self : StandardTransaction) : list (Z * HashOutput * ContractAddress) :=
  offers_by_segment self ≫= fun so =>
    (fun ca => (so.1, ca.1, ca.2)) <$>
      (with_contract_address ((fun o => (out_coin_com o, out_contract_address o)) <$> outputs so.2) ++
       with_contract_address ((fun t => (tr_coin_com t, tr_contract_address t)) <$> transient so.2)).
Definition contract_nullifiers (self : StandardTransaction) : list (Z * HashOutput * ContractAddress) :=
  offers_by_segment self ≫= fun so =>
    (fun ca => (so.1, ca.1, ca.2)) <$>
      (with_contract_address ((fun i => (in_nullifier i, in_contract_address i)) <$> inputs so.2) ++
       with_contract_address ((fun t => (tr_nullifier t, tr_contract_address t)) <$> transient so.2)).
Definition all_commitments (self : StandardTransaction) : list (Z * HashOutput) :=
  offers_by_segment self ≫= fun so =>
    (fun c => (so.1, c)) <$> ((out_coin_com <$> outputs so.2) ++ (tr_coin_com <$> transient so.2)).

Definition tx_claimed_nullifiers (self : StandardTransaction) : list (Z * HashOutput * ContractAddress) :=
  placed_transcripts self ≫= fun t => (fun n => (pl_logical_segment t, n, pl_address t)) <$> iter_set (claimed_nullifiers (pl_effects t)).
Definition tx_claimed_receives (self : StandardTransaction) : list (Z * HashOutput * ContractAddress) :=
  placed_transcripts self ≫= fun t => (fun c => (pl_logical_segment t, c, pl_address t)) <$> iter_set (claimed_shielded_receives (pl_effects t)).
Definition tx_claimed_spends (self : StandardTransaction) : list (Z * HashOutput) :=
  placed_transcripts self ≫= fun t => (fun c => (pl_logical_segment t, c)) <$> iter_set (claimed_shielded_spends (pl_effects t)).

(** A call is identified by contract, entry point and commitment. *)
Definition CallKey : Type := ContractAddress * HashOutput * Z.
Definition call_key (call : ContractCall) : CallKey := (call_address call, ep_hash (call_entry_point call), communication_commitment call).
Definition claimed_key (c : ClaimedContractCallsValue) : CallKey := (ccc_address c, ccc_entry_point c, ccc_commitment c).

Definition tx_claimed_calls (self : StandardTransaction) : list (Z * CallKey) :=
  placed_transcripts self ≫= fun t => (fun c => (pl_intent_segment t, claimed_key c)) <$> iter_set (claimed_contract_calls (pl_effects t)).
Definition tx_real_calls (self : StandardTransaction) : list (Z * CallKey) := (fun sc => (sc.1, call_key sc.2)) <$> segment_calls self.

Definition Spend : Type := (Z * bool) * ((TokenType * PublicAddress) * Z).
Definition tx_claimed_unshielded (self : StandardTransaction) : list Spend :=
  placed_transcripts self ≫= fun t =>
    (fun kv => ((pl_intent_segment t, pl_logical_segment t =? 0), ((cus_type kv.1, cus_address kv.1), kv.2)))
      <$> map_iter (claimed_unshielded_spends (pl_effects t)).
Definition tx_real_unshielded (self : StandardTransaction) : list Spend :=
  (placed_transcripts self ≫= fun t =>
     (fun kv => ((pl_intent_segment t, pl_logical_segment t =? 0), ((kv.1, AddrContract (pl_address t)), kv.2)))
       <$> map_iter (unshielded_inputs (pl_effects t))) ++
  (map_iter (intents self) ≫= fun si =>
     let spend guaranteed output := ((si.1, guaranteed), ((Unshielded (output_type output), AddrUser (output_owner output)), output_value output)) in
     (spend true <$> from_option uo_outputs [] (guaranteed_unshielded_offer si.2)) ++
     (spend false <$> from_option uo_outputs [] (fallible_unshielded_offer si.2))).

Definition effects_check (self : StandardTransaction) : result EffectsCheckError unit :=
  if decide (mset_from (contract_nullifiers self) <> mset_from (tx_claimed_nullifiers self)) then Err NullifiersNEClaimedNullifiers
  else if decide (mset_from (contract_commitments self) <> mset_from (tx_claimed_receives self)) then Err CommitmentsNEClaimedShieldedReceives
  else
    let claimed_spends := mset_from (tx_claimed_spends self) in
    if decide (mset_duplicates claimed_spends <> []) then Err ClaimedUnshieldedSpendsUniquenessFailure
    else if negb (mset_has_subset (mset_from (all_commitments self)) claimed_spends) then Err AllCommitmentsSubsetCheckFailure
    else
      let claimed_calls := mset_from (tx_claimed_calls self) in
      if decide (mset_duplicates claimed_calls <> []) then Err ClaimedCallsUniquenessFailure
      else if negb (mset_has_subset (mset_from (tx_real_calls self)) claimed_calls) then Err RealCallsSubsetCheckFailure
      else if negb (mset_has_subset (mset_from (tx_real_unshielded self)) (mset_from (tx_claimed_unshielded self)))
      then Err RealUnshieldedSpendsSubsetCheckFailure
      else Ok tt.

(** ** Sequencing *)

(** [as_indexed]: positions are [u32], of which a transaction has enough. *)
Definition as_indexed {A} (l : list A) : list (Z * A) := imap (fun i x => (Z.of_nat i, x)) l.

Definition call_lookup (calls_in_intent : list (Z * ContractCall)) : gmap CallKey (list Z) :=
  foldl (fun m ic => push_at m (call_key ic.2) ic.1) ∅ calls_in_intent.

(** The calls that a call's transcripts claim, in the order of the sets. *)
Definition call_transcripts (call : ContractCall) : list (Transcript * bool) :=
  ((fun t => (t, true)) <$> option_list (guaranteed_transcript call)) ++ ((fun t => (t, false)) <$> option_list (fallible_transcript call)).
Definition claims (call : ContractCall) : list (ClaimedContractCallsValue * bool) :=
  call_transcripts call ≫= fun tg => (fun c => (c, tg.2)) <$> iter_set (claimed_contract_calls (tr_effects tg.1)).

Definition call_sequencing_check (context_call_position : Z) (contextual_call : ContractCall) (call_lookup : gmap CallKey (list Z))
  : result SequencingCheckError (list (Z * Z * ContractAddress)) :=
  try_fold (fun subs (claim : ClaimedContractCallsValue * bool) =>
    try_fold (fun subs cid2 =>
      if cid2 <=? context_call_position
      then Err (CallSequencingViolation context_call_position cid2 (call_address contextual_call) (ccc_address claim.1))
      else Ok (subs ++ [(cid2, ccc_pos claim.1, ccc_address claim.1)]))
      subs (default [] (call_lookup !! claimed_key claim.1))) [] (claims contextual_call).

(** Sub-calls by sequence number and position. *)
Definition sub_le (a b : Z * Z * ContractAddress) : Prop := a.1.2 < b.1.2 \/ (a.1.2 = b.1.2 /\ a.1.1 <= b.1.1).
#[export] Instance sub_le_dec : RelDecision sub_le.
Proof. unfold sub_le. intros a b. apply _. Defined.

Fixpoint check_windows (contextual_call_address : ContractAddress) (l : list (Z * Z * ContractAddress)) : result SequencingCheckError unit :=
  match l with
  | a :: ((b :: _) as l') =>
      if (a.1.2 <? b.1.2) && (a.1.1 <? b.1.1) then check_windows contextual_call_address l'
      else Err (SequencingCorrelationViolation contextual_call_address a.2 a.1.1 b.1.1)
  | _ => Ok tt
  end.
Definition sequencing_correlation_check (contextual_call_address : ContractAddress) (sequenced_sub_calls : list (Z * Z * ContractAddress))
  : result SequencingCheckError unit :=
  check_windows contextual_call_address (merge_sort sub_le sequenced_sub_calls).

(** What is collected over the intents: the calls with each kind of transcript,
    the calls by contract, and which call precedes which. *)
Record Related := mkRelated {
  guaranteed_calls : gset CallNode;
  fallible_calls : gset CallNode;
  calls_by_address : gmap ContractAddress (list CallNode);
  adjacencies : gmap CallNode (list CallNode)
}.

Definition has_transcript (guaranteed : bool) (call : ContractCall) : bool :=
  bool_decide (is_Some (if guaranteed then guaranteed_transcript call else fallible_transcript call)).

Definition relate_node (segment : Z) (acc : Related * gmap CallKey (list (CallNode * bool))) (ic : Z * ContractCall)
  : result SequencingCheckError (Related * gmap CallKey (list (CallNode * bool))) :=
  let '(r, callers_for_addr) := acc in
  let '(cid, call) := ic in
  let this_node := mkCallNode segment (call_address call) cid in
  let is_guaranteed := has_transcript true call in
  let is_fallible := has_transcript false call in
  if negb (is_guaranteed || is_fallible) then Err (CallHasEmptyTranscripts segment (call_address call) cid)
  else
    let adj := match last (default [] (calls_by_address r !! call_address call)) with
               | Some prev_node => push_at (adjacencies r) prev_node this_node
               | None => adjacencies r
               end in
    Ok (mkRelated (if is_guaranteed then {[this_node]} ∪ guaranteed_calls r else guaranteed_calls r)
          (if is_fallible then {[this_node]} ∪ fallible_calls r else fallible_calls r)
          (push_at (calls_by_address r) (call_address call) this_node) adj,
        foldl (fun m (claim : ClaimedContractCallsValue * bool) => push_at m (claimed_key claim.1) (this_node, claim.2)) callers_for_addr (claims call)).

Definition relate_nodes (r : Related) (segment : Z) (calls_in_intent : list (Z * ContractCall))
  : result SequencingCheckError (Related * gmap CallKey (list (CallNode * bool))) :=
  try_fold (relate_node segment) (r, ∅) calls_in_intent.

Definition check_caller (this_node : CallNode) (call : ContractCall) (adj : gmap CallNode (list CallNode)) (caller : CallNode * bool)
  : result SequencingCheckError (gmap CallNode (list CallNode)) :=
  if caller.2 && has_transcript false call
  then Err (FallibleInGuaranteedContextViolation (call_index caller.1) (call_index this_node) (node_addr caller.1) (call_address call))
  else if negb caller.2 && has_transcript true call
  then Err (GuaranteedInFallibleContextViolation (call_index caller.1) (call_index this_node) (node_addr caller.1) (call_address call))
  else Ok (push_at adj caller.1 this_node).

Definition sequencing_context_check (adj : gmap CallNode (list CallNode)) (segment : Z) (calls_in_intent : list (Z * ContractCall))
  (callers_for_addr : gmap CallKey (list (CallNode * bool))) : result SequencingCheckError (gmap CallNode (list CallNode)) :=
  try_fold (fun adj (ic : Z * ContractCall) =>
    try_fold (check_caller (mkCallNode segment (call_address ic.2) ic.1) ic.2) adj (default [] (callers_for_addr !! call_key ic.2)))
    adj calls_in_intent.

Definition causality_check (r : Related) : result SequencingCheckError unit :=
  try_for_each (fun curr =>
    try_for_each (fun succ =>
      if decide (succ ∈ guaranteed_calls r)
      then Err (CausalityConstraintViolation (call_index curr) (call_index succ) (node_addr curr) (node_addr succ) (segment_id curr) (segment_id succ))
      else Ok tt) (default [] (adjacencies r !! curr)))
    (merge_sort node_le (elements (fallible_calls r))).

Definition sequence_intent (r : Related) (entry : Z * LedgerIntent) : result SequencingCheckError Related :=
  let calls_in_intent := as_indexed (intent_calls entry.2) in
  _ ← try_for_each (fun ic : Z * ContractCall =>
        subs ← call_sequencing_check ic.1 ic.2 (call_lookup calls_in_intent);
        sequencing_correlation_check (call_address ic.2) subs) calls_in_intent;
  '(r, callers_for_addr) ← relate_nodes r entry.1 calls_in_intent;
  adj ← sequencing_context_check (adjacencies r) entry.1 calls_in_intent callers_for_addr;
  Ok (mkRelated (guaranteed_calls r) (fallible_calls r) (calls_by_address r) adj).

Definition sequencing_check (self : StandardTransaction) : result SequencingCheckError unit :=
  r ← try_fold sequence_intent (mkRelated ∅ ∅ ∅ ∅) (sorted_iter (intents self));
  causality_check r.
End checks.

(** ** Counting *)

Section counting.
Context {T : Type} `{Countable T}.
Implicit Types l : list T.

Definition cnt (x : T) l : Z := zsum (fun y => if decide (y = x) then 1 else 0) l.

Lemma cnt_cons x y l : cnt x (y :: l) = (if decide (y = x) then 1 else 0) + cnt x l.
Proof. done. Qed.
Lemma cnt_nonneg x l : 0 <= cnt x l.
Proof. apply zsum_nonneg. intros y _. case_decide; lia. Qed.
Lemma cnt_pos x l : 0 < cnt x l <-> x ∈ l.
Proof.
  induction l as [|y l IH]; [split; [done|by intros ?%not_elem_of_nil]|]. rewrite cnt_cons, elem_of_cons. pose proof (cnt_nonneg x l).
  case_decide as Hy; [split; [by left|lia]|]. rewrite <- IH. split; [right; lia|]. intros [->|?]; [done|lia].
Qed.
Lemma cnt_perm l1 l2 : (forall x, cnt x l1 = cnt x l2) <-> l1 ≡ₚ l2.
Proof.
  split; [|intros Hp x; unfold cnt; by rewrite Hp]. revert l2. induction l1 as [|x l1 IH]; intros l2 Hc.
  - destruct l2 as [|y l2]; [done|]. specialize (Hc y). rewrite cnt_cons, decide_True in Hc by done. pose proof (cnt_nonneg y l2). cbn in Hc. lia.
  - assert (Hx : x ∈ l2). { apply cnt_pos. rewrite <- Hc, cnt_cons, decide_True by done. pose proof (cnt_nonneg x l1). lia. }
    apply elem_of_Permutation in Hx as [l2' Hl]. rewrite Hl. constructor. apply IH. intros y. specialize (Hc y).
    unfold cnt in Hc at 2. rewrite Hl in Hc. rewrite cnt_cons in Hc. unfold cnt. unfold zsum in Hc at 1. cbn [foldr] in Hc. fold (zsum (fun y0 => if decide (y0 = y) then 1 else 0) l2') in Hc. fold (cnt y l1). lia.
Qed.
Lemma cnt_submseteq l1 l2 : (forall x, cnt x l1 <= cnt x l2) <-> l1 ⊆+ l2.
Proof.
  split.
  - revert l2. induction l1 as [|x l1 IH]; intros l2 Hc; [apply submseteq_nil_l|].
    assert (Hx : x ∈ l2). { apply cnt_pos. specialize (Hc x). rewrite cnt_cons, decide_True in Hc by done. pose proof (cnt_nonneg x l1). lia. }
    apply elem_of_Permutation in Hx as [l2' Hl]. rewrite Hl. apply submseteq_skip, IH. intros y. specialize (Hc y).
    rewrite (proj2 (cnt_perm l2 (x :: l2')) Hl y), !cnt_cons in Hc. lia.
  - intros (l & Hl)%submseteq_Permutation x. rewrite (proj2 (cnt_perm _ _) Hl x). unfold cnt at 2. rewrite zsum_app.
    fold (cnt x l1) (cnt x l). pose proof (cnt_nonneg x l). lia.
Qed.
Lemma cnt_NoDup l : (forall x, cnt x l <= 1) <-> NoDup l.
Proof.
  induction l as [|y l IH]; [split; [constructor|done]|]. rewrite NoDup_cons, <- IH. split.
  - intros Hc. split.
    + intros Hy%cnt_pos. specialize (Hc y). rewrite cnt_cons, decide_True in Hc by done. lia.
    + intros x. specialize (Hc x). rewrite cnt_cons in Hc. case_decide; lia.
  - intros [Hy Hc] x. rewrite cnt_cons. case_decide as E; [|specialize (Hc x); lia]. subst y.
    pose proof (cnt_nonneg x l). destruct (decide (0 < cnt x l)) as [Hp|]; [by apply cnt_pos in Hp|lia].
Qed.

Lemma mset_from_lookup l : forall (m : gmap T Z) x,
  foldl mset_insert m l !! x = if decide (0 < cnt x l) then Some (default 0 (m !! x) + cnt x l) else m !! x.
Proof.
  induction l as [|y l IH]; intros m x; [done|]. cbn [foldl]. rewrite IH, cnt_cons. unfold mset_insert. pose proof (cnt_nonneg x l).
  destruct (decide (y = x)) as [->|Hy].
  - rewrite lookup_insert_eq, (decide_True (P := 0 < 1 + cnt x l)) by lia. case_decide; cbn; f_equal; lia.
  - rewrite lookup_insert_ne by done. rewrite Z.add_0_l. done.
Qed.
Lemma mset_from_count l x : mset_count (mset_from l) x = cnt x l.
Proof.
  unfold mset_count, mset_from. rewrite mset_from_lookup, lookup_empty. case_decide; cbn; [lia|]. pose proof (cnt_nonneg x l). lia.
Qed.

Lemma mset_from_eq l1 l2 : mset_from l1 = mset_from l2 <-> l1 ≡ₚ l2.
Proof.
  rewrite <- cnt_perm. split.
  - intros E x. by rewrite <- !mset_from_count, E.
  - intros E. apply map_eq. intros x. unfold mset_from. rewrite !mset_from_lookup. by rewrite E.
Qed.
Lemma mset_from_elem l x n : (x, n) ∈ map_to_list (mset_from l) <-> 0 < cnt x l /\ n = cnt x l.
Proof.
  rewrite elem_of_map_to_list. unfold mset_from. rewrite mset_from_lookup, lookup_empty. cbn [default from_option].
  case_decide; [|split; [done|lia]]. split; [intros [= <-]; lia|intros [_ ->]; f_equal; cbn; lia].
Qed.
Lemma mset_from_subset l1 l2 : mset_has_subset (mset_from l1) (mset_from l2) = true <-> l2 ⊆+ l1.
Proof.
  unfold mset_has_subset. rewrite forallb_forall, <- cnt_submseteq. split.
  - intros Hf x. pose proof (cnt_nonneg x l1). destruct (decide (0 < cnt x l2)); [|lia].
    specialize (Hf (x, cnt x l2)). rewrite <- list_elem_of_In, mset_from_elem in Hf. cbn [fst snd] in Hf. rewrite mset_from_count in Hf. apply Z.leb_le, Hf. lia.
  - intros Hc [x n] [_ ->]%list_elem_of_In%mset_from_elem. cbn [fst snd]. rewrite mset_from_count. apply Z.leb_le, Hc.
Qed.
Lemma mset_from_duplicates l : mset_duplicates (mset_from l) = [] <-> NoDup l.
Proof.
  rewrite <- cnt_NoDup. unfold mset_duplicates. split.
  - intros E x. destruct (decide (1 < cnt x l)); [|lia]. assert (Hx : (x, cnt x l) ∈ filter (fun kv => 1 < kv.2) (map_to_list (mset_from l))).
    { apply list_elem_of_filter. split; [done|]. apply mset_from_elem. lia. }
    rewrite E in Hx. by apply not_elem_of_nil in Hx.
  - intros Hc. apply list_elem_of_nil_inv || idtac. destruct (filter _ _) as [|[x n] l'] eqn:E; [done|].
    assert (Hx : (x, n) ∈ filter (fun kv => 1 < kv.2) (map_to_list (mset_from l))) by (rewrite E; left).
    apply list_elem_of_filter in Hx as [Hn [_ ->]%mset_from_elem]. cbn in Hn. specialize (Hc x). lia.
Qed.
End counting.
