(* ===== verification/CallOrder.v ===== *)
(** * What the checks on calls establish

    The order of calls over all pairs of calls and the transitive closure of
    precedence, and the proof that [sequencing_check] decides it.  The precedence
    of the code is compared with that of [spec/intents-transactions.md], which
    links fewer calls.  And in a transaction which passes [effects_check] too,
    every call that a transcript claims is there. *)

From S2P Require Import Prelude Serialize MerkleTree Storage Cost DeltaTracking VmCost Fab OnchainVm ZswapMemo Repr Coins.
From S2P Require Import Runtime ZswapOffer ZswapLedger Intents Dust LedgerData TxCost Ledger Supply LedgerApply LedgerTheorems Balance Sequencing.
From stdpp Require Import gmap strings sorting relations.

Local Open Scope Z_scope.

(** ** Two of a list *)

Section pairs.
Context {A : Type}.
Implicit Types (R : relation A) (l : list A).

Lemma pair_cons s t x l : [s; t] ⊆+ x :: l -> [s; t] ⊆+ l \/ (s = x /\ t ∈ l) \/ (t = x /\ s ∈ l).
Proof.
  intros [H|(l' & Hp & Hl)]%submseteq_cons_r; [by left|]. right. apply Permutation_length_2_inv in Hp as [[= -> ->]|[= -> ->]].
  - left. split; [done|]. by apply singleton_submseteq_l.
  - right. split; [done|]. by apply singleton_submseteq_l.
Qed.

Lemma sorted_pairs R l s t : StronglySorted R l -> [s; t] ⊆+ l -> R s t \/ R t s.
Proof.
  induction 1 as [|x l Hs IH Hf]; [by intros ?%submseteq_nil_r|]. rewrite Forall_forall in Hf.
  intros [?|[[-> ?]|[-> ?]]]%pair_cons; eauto.
Qed.
Lemma pairs_sorted R R' l : (forall s t, R s t -> R' t s -> False) -> (forall s t, [s; t] ⊆+ l -> R' s t \/ R' t s) -> Sorted R l -> Sorted R' l.
Proof.
  intros Hn. induction l as [|x l IH]; intros Hp Hs; [constructor|]. apply Sorted_inv in Hs as [Hs Hd]. constructor.
  - apply IH; [|done]. intros s t Hst. apply Hp. by apply submseteq_cons.
  - destruct Hd as [|y l Hxy]; constructor. destruct (Hp x y) as [?|?]; [|done|by destruct (Hn _ _ Hxy)].
    apply submseteq_skip, submseteq_skip, submseteq_nil_l.
Qed.
End pairs.

(** Checks in sequence. *)
Lemma try_fold_collect {E A B} (ok : A -> Prop) (g : A -> list B) (f : list B -> A -> result E (list B)) l :
  (forall s x, match f s x with Ok s' => ok x /\ s' = s ++ g x | Err _ => ~ ok x end) ->
  forall s, match try_fold f s l with Ok s' => Forall ok l /\ s' = s ++ (l ≫= g) | Err _ => ~ Forall ok l end.
Proof.
  intros Hf. induction l as [|x l IH]; intros s; cbn [try_fold]; [split; [constructor|by rewrite app_nil_r]|].
  specialize (Hf s x). destruct (f s x) as [s1|e]; [|by intros [? _]%Forall_cons]. destruct Hf as [Hx ->]. specialize (IH (s ++ g x)).
  destruct (try_fold f (s ++ g x) l) as [s2|e]; [|by intros [_ ?]%Forall_cons]. destruct IH as [Hl ->]. split; [by constructor|]. cbn [mbind list_bind]. by rewrite app_assoc.
Qed.
(** A fold whose accumulator represents the elements seen so far. *)
Lemma try_fold_model {E A S} (ok : A -> Prop) (M : list A -> S -> Prop) (f : S -> A -> result E S) l :
  (forall l0 s x, M l0 s -> match f s x with Ok s' => ok x /\ M (l0 ++ [x]) s' | Err _ => ~ ok x end) ->
  forall l0 s, M l0 s -> match try_fold f s l with Ok s' => Forall ok l /\ M (l0 ++ l) s' | Err _ => ~ Forall ok l end.
Proof.
  intros Hf. induction l as [|x l IH]; intros l0 s Hs; cbn [try_fold]; [split; [constructor|by rewrite app_nil_r]|].
  specialize (Hf _ _ x Hs). destruct (f s x) as [s1|e]; [|by intros [? _]%Forall_cons]. destruct Hf as [Hx H1]. specialize (IH _ _ H1).
  destruct (try_fold f s1 l) as [s2|e]; [|by intros [_ ?]%Forall_cons]. destruct IH as [Hl H2]. split; [by constructor|]. by rewrite <- app_assoc in H2.
Qed.

Lemma push_at_default {K V} `{Countable K} (m : gmap K (list V)) k v k' :
  default [] (push_at m k v !! k') = default [] (m !! k') ++ (if decide (k = k') then [v] else []).
Proof.
  unfold push_at. destruct (decide (k = k')) as [<-|Hk]; [by rewrite lookup_insert_eq|]. by rewrite lookup_insert_ne, app_nil_r by done.
Qed.
Lemma push_all_default {K V X} `{Countable K} (k : X -> K) (v : X -> V) l : forall (m : gmap K (list V)) k',
  default [] (foldl (fun m x => push_at m (k x) (v x)) m l !! k') = default [] (m !! k') ++ (v <$> filter (fun x => k x = k') l).
Proof.
  induction l as [|x l IH]; intros m k'; cbn [foldl]; [by rewrite app_nil_r|]. rewrite IH, push_at_default, filter_cons, <- app_assoc.
  by destruct (decide (k x = k')).
Qed.

Section order.
Context `{P : Prims}.
Local Abbreviation node := (CallNode * ContractCall)%type.
Implicit Types (a b : ContractCall) (x y : CallNode * ContractCall) (cs : list (Z * ContractCall)) (L : list (CallNode * ContractCall)).

(** ** The specification *)

(** The calls of an intent and of a transaction with their places, in the order
    of segments and positions. *)
Definition node_of (segment : Z) (ic : Z * ContractCall) : CallNode := mkCallNode segment (call_address ic.2) ic.1.
Definition intent_nodes (entry : Z * LedgerIntent) : list (CallNode * ContractCall) :=
  (fun ic => (node_of entry.1 ic, ic.2)) <$> as_indexed (intent_calls entry.2).
Definition tx_nodes (self : StandardTransaction) : list (CallNode * ContractCall) := sorted_iter (intents self) ≫= intent_nodes.

(** A call claims another, in its guaranteed or its fallible transcript. *)
Definition calls_in (guaranteed : bool) a b : Prop := exists c, (c, guaranteed) ∈ claims a /\ claimed_key c = call_key b.
Definition calls a b : Prop := exists guaranteed, calls_in guaranteed a b.

(** The positions and sequence numbers of the calls that a call claims. *)
Definition sub_calls cs a : list (Z * Z) :=
  claims a ≫= fun claim => (fun ic => (ic.1, ccc_pos claim.1)) <$> filter (fun ic : Z * ContractCall => call_key ic.2 = claimed_key claim.1) cs.

Definition strictly_before (s t : Z * Z) : Prop := s.1 < t.1 /\ s.2 < t.2.

(** The order of an intent's calls: a call has a transcript; what it claims comes
    later, in the order of the sequence numbers; and what it claims in one
    section runs in that section only. *)
Record Sequenced cs : Prop := {
  seq_transcripts : forall i a, (i, a) ∈ cs -> has_transcript true a || has_transcript false a = true;
  seq_later : forall i a s, (i, a) ∈ cs -> s ∈ sub_calls cs a -> i < s.1;
  seq_sorted : forall i a s t, (i, a) ∈ cs -> [s; t] ⊆+ sub_calls cs a -> strictly_before s t \/ strictly_before t s;
  seq_context : forall i j a b g, (i, a) ∈ cs -> (j, b) ∈ cs -> calls_in g a b -> has_transcript (negb g) b = false
}.

(** What the check goes by: a call precedes those it claims in its intent, and all
    later calls of the same contract, in the same intent too. *)
Definition later (n1 n2 : CallNode) : Prop := segment_id n1 < segment_id n2 \/ (segment_id n1 = segment_id n2 /\ call_index n1 < call_index n2).
Definition precedes L x y : Prop :=
  x ∈ L /\ y ∈ L /\ ((segment_id x.1 = segment_id y.1 /\ calls x.2 y.2) \/ (node_addr x.1 = node_addr y.1 /\ later x.1 y.1)).

Definition causal L : Prop := forall x y, tc (precedes L) x y -> has_transcript false x.2 = true -> has_transcript true y.2 = false.

(** Precedence as the specification has it ([spec/intents-transactions.md]): a
    call precedes the other calls it claims in its intent, and the calls of the
    same contract in later segments, but not those in its own. *)
Definition spec_precedes L x y : Prop :=
  x ∈ L /\ y ∈ L /\
  ((segment_id x.1 = segment_id y.1 /\ call_index x.1 <> call_index y.1 /\ calls x.2 y.2) \/
   (segment_id x.1 < segment_id y.1 /\ call_address x.2 = call_address y.2)).

Definition spec_causal L : Prop :=
  forall x y, tc (spec_precedes L) x y -> has_transcript false x.2 = true -> has_transcript true y.2 = false.

(** No intent calls a contract twice. *)
Definition contracts_once (self : StandardTransaction) : Prop :=
  forall segment intent i j a b, intents self !! segment = Some intent -> (i, a) ∈ as_indexed (intent_calls intent) ->
    (j, b) ∈ as_indexed (intent_calls intent) -> call_address a = call_address b -> i = j.

(** The sequencing of a transaction. *)
Definition sequenced (self : StandardTransaction) : Prop :=
  (forall segment intent, intents self !! segment = Some intent -> Sequenced (as_indexed (intent_calls intent))) /\ causal (tx_nodes self).

(** ** The checks of one call *)

Lemma call_lookup_spec cs k : default [] (call_lookup cs !! k) = (filter (fun ic : Z * ContractCall => call_key ic.2 = k) cs).*1.
Proof. unfold call_lookup. by rewrite (push_all_default (fun ic : Z * ContractCall => call_key ic.2) fst), lookup_empty. Qed.

Lemma call_sequencing_ok i a cs :
  match call_sequencing_check i a (call_lookup cs) with
  | Ok subs => (forall s, s ∈ sub_calls cs a -> i < s.1) /\ subs.*1 = sub_calls cs a
  | Err _ => ~ forall s, s ∈ sub_calls cs a -> i < s.1
  end.
Proof.
  unfold call_sequencing_check. set (g := fun claim : ClaimedContractCallsValue * bool =>
    (fun ic : Z * ContractCall => (ic.1, ccc_pos claim.1, ccc_address claim.1)) <$> filter (fun ic : Z * ContractCall => call_key ic.2 = claimed_key claim.1) cs).
  set (ok := fun claim => Forall (fun s : Z * Z * ContractAddress => i < s.1.1) (g claim)).
  match goal with |- match try_fold ?f _ _ with _ => _ end => pose proof (try_fold_collect ok g f (claims a)) as H end.
  assert (Hs : (claims a ≫= g).*1 = sub_calls cs a).
  { clear. unfold sub_calls. induction (claims a) as [|c l IH]; [done|]. cbn [mbind list_bind]. rewrite fmap_app. f_equal; [|exact IH].
    subst g. cbn beta. rewrite <- list_fmap_compose. done. }
  assert (Hok : Forall ok (claims a) <-> forall s, s ∈ sub_calls cs a -> i < s.1).
  { rewrite <- Hs. unfold ok. rewrite Forall_forall. setoid_rewrite Forall_forall. split.
    - intros Hf ? ([s ad] & -> & (c & Hs' & Hc)%list_elem_of_bind)%list_elem_of_fmap. by apply (Hf c Hc (s, ad)).
    - intros Hf c Hc s Hsc. apply (Hf s.1). apply list_elem_of_fmap. exists s. split; [done|]. apply list_elem_of_bind. eauto. }
  ospecialize (H _ []); [|destruct (try_fold _ [] _); [destruct H as [Hf ->]; split; [by apply Hok|done]|by intros Hf; apply H, Hok]].
  clear. intros s c. rewrite call_lookup_spec.
  match goal with |- match try_fold ?f _ ?l with _ => _ end =>
    pose proof (try_fold_collect (fun j => i < j) (fun j => [(j, ccc_pos c.1, ccc_address c.1)]) f l) as H end.
  ospecialize (H _ s).
  2: { destruct (try_fold _ s _) as [s'|].
    - destruct H as [Hf ->]. subst ok g. cbn beta. rewrite !Forall_fmap in *. split; [done|]. f_equal.
      induction (filter _ _) as [|y l IH]; [done|]. cbn. f_equal. apply IH. by apply Forall_cons in Hf as [].
    - subst ok g. cbn beta. rewrite !Forall_fmap in *. exact H. }
  intros l j. cbn beta. destruct (Z.leb_spec j i); [lia|]. split; [lia|done].
Qed.

Lemma check_windows_ok ad (l : list (Z * Z * ContractAddress)) :
  check_windows ad l = Ok tt <-> Sorted (fun s t => strictly_before s.1 t.1) l.
Proof.
  induction l as [|s [|t l] IH]; [split; [constructor|done]|split; [repeat constructor|done]|]. cbn [check_windows].
  destruct ((s.1.2 <? t.1.2) && (s.1.1 <? t.1.1)) eqn:E.
  - apply andb_true_iff in E as [?%Z.ltb_lt ?%Z.ltb_lt]. rewrite IH. split; [intros ?; constructor; [done|by constructor]|by intros [? _]%Sorted_inv].
  - split; [done|]. intros [_ [? ?]%HdRel_inv]%Sorted_inv. apply andb_false_iff in E as [?%Z.ltb_ge|?%Z.ltb_ge]; lia.
Qed.

Lemma correlation_ok ad (l : list (Z * Z * ContractAddress)) :
  sequencing_correlation_check ad l = Ok tt <-> forall s t, [s; t] ⊆+ l.*1 -> strictly_before s t \/ strictly_before t s.
Proof.
  unfold sequencing_correlation_check. rewrite check_windows_ok. set (l' := merge_sort sub_le l).
  assert (Hp : l' ≡ₚ l) by apply merge_sort_Permutation. assert (Hs : Sorted sub_le l').
  { apply Sorted_merge_sort. intros s t. unfold sub_le. lia. }
  assert (Hl' : forall s t, [s; t] ⊆+ l.*1 <-> [s; t] ⊆+ l'.*1) by (intros s t; by rewrite Hp).
  setoid_rewrite Hl'. clearbody l'. clear Hp Hl' l. rename l' into l. split.
  - intros Hl s t. apply (sorted_pairs strictly_before). apply Sorted_StronglySorted; [intros u v w; unfold strictly_before; lia|].
    clear Hs. induction Hl as [|u l ? IH Hd]; [constructor|]. cbn [fmap list_fmap]. constructor; [done|]. destruct Hd; cbn; by constructor.
  - intros Hl. eapply pairs_sorted; [| |exact Hs].
    + intros s t. cbn beta. unfold sub_le, strictly_before. lia.
    + intros s t Hst. apply Hl. change [s.1; t.1] with ([s; t].*1). by apply fmap_submseteq.
Qed.

(** ** What the checks collect *)

Definition at_address (ad : ContractAddress) L : list CallNode := (filter (fun x : CallNode * ContractCall => node_addr x.1 = ad) L).*1.

(** A call and the last one of the same contract before it. *)
Definition prev_edge L (n1 n2 : CallNode) : Prop :=
  exists L1 L2 b, L = L1 ++ (n2, b) :: L2 /\ last (at_address (node_addr n2) L1) = Some n1.
(** A call of an intent and one that it claims. *)
Definition claim_edge (entry : Z * LedgerIntent) (n1 n2 : CallNode) : Prop :=
  exists x y, x ∈ intent_nodes entry /\ y ∈ intent_nodes entry /\ n1 = x.1 /\ n2 = y.1 /\ calls x.2 y.2.

(** The state of the checks after the calls [L], with further edges [E]. *)
Record Relates L (E : relation CallNode) (r : Related) : Prop := {
  rel_guaranteed : forall n, n ∈ guaranteed_calls r <-> exists b, (n, b) ∈ L /\ has_transcript true b = true;
  rel_fallible : forall n, n ∈ fallible_calls r <-> exists b, (n, b) ∈ L /\ has_transcript false b = true;
  rel_address : forall ad, default [] (calls_by_address r !! ad) = at_address ad L;
  rel_adjacent : forall n1 n2, n2 ∈ default [] (adjacencies r !! n1) <-> prev_edge L n1 n2 \/ E n1 n2
}.

Lemma prev_edge_snoc L n b n1 n2 :
  prev_edge (L ++ [(n, b)]) n1 n2 <-> prev_edge L n1 n2 \/ (n2 = n /\ last (at_address (node_addr n) L) = Some n1).
Proof.
  split.
  - intros (L1 & L2 & b2 & HL & Hl). destruct L2 as [|z L2 _] using rev_ind.
    + apply app_inj_tail in HL as [-> [= -> ->]]. by right.
    + rewrite app_comm_cons, app_assoc in HL. apply app_inj_tail in HL as [-> _]. left. by exists L1, L2, b2.
  - intros [(L1 & L2 & b2 & -> & Hl)|[-> Hl]]; [exists L1, (L2 ++ [(n, b)]), b2; by rewrite <- app_assoc|by exists L, [], b].
Qed.

Lemma push_at_elem {K V} `{Countable K} (m : gmap K (list V)) k v k' v' :
  v' ∈ default [] (push_at m k v !! k') <-> v' ∈ default [] (m !! k') \/ (k' = k /\ v' = v).
Proof. rewrite push_at_default, elem_of_app. case_decide; set_solver. Qed.

(** The callers recorded for a key. *)
Definition Callers (segment : Z) cs (m : gmap CallKey (list (CallNode * bool))) : Prop :=
  forall k n g, (n, g) ∈ default [] (m !! k) <-> exists ic c, ic ∈ cs /\ n = node_of segment ic /\ (c, g) ∈ claims ic.2 /\ claimed_key c = k.

Lemma relate_node_ok segment L0 E l0 acc ic :
  Relates (L0 ++ ((fun ic => (node_of segment ic, ic.2)) <$> l0)) E acc.1 /\ Callers segment l0 acc.2 ->
  match relate_node segment acc ic with
  | Ok acc' => has_transcript true ic.2 || has_transcript false ic.2 = true /\
      Relates (L0 ++ ((fun ic => (node_of segment ic, ic.2)) <$> (l0 ++ [ic]))) E acc'.1 /\ Callers segment (l0 ++ [ic]) acc'.2
  | Err _ => ~ has_transcript true ic.2 || has_transcript false ic.2 = true
  end.
Proof.
  destruct acc as [r m], ic as [i a]. unfold relate_node. cbn [fst snd]. intros [[Hg Hf Ha Hj] Hm].
  destruct (has_transcript true a || has_transcript false a) eqn:Et; cbn [negb]; [|done]. split; [done|].
  rewrite fmap_app, app_assoc. set (L := L0 ++ _) in *. split; [split|]; cbn [fst snd guaranteed_calls fallible_calls calls_by_address adjacencies].
  - intros n. cbn [fmap list_fmap snd]. setoid_rewrite elem_of_app. setoid_rewrite list_elem_of_singleton. destruct (has_transcript true a) eqn:E1.
    + cbn match. rewrite elem_of_union, elem_of_singleton, Hg. unfold node_of; cbn. naive_solver.
    + rewrite Hg. naive_solver congruence.
  - intros n. cbn [fmap list_fmap snd]. setoid_rewrite elem_of_app. setoid_rewrite list_elem_of_singleton. destruct (has_transcript false a) eqn:E1.
    + cbn match. rewrite elem_of_union, elem_of_singleton, Hf. unfold node_of; cbn. naive_solver.
    + rewrite Hf. naive_solver congruence.
  - intros ad. rewrite push_at_default, Ha. unfold at_address. rewrite filter_app, fmap_app. f_equal. cbn [fmap list_fmap]. rewrite filter_cons. cbn.
    by case_decide.
  - intros n1 n2. cbn [fmap list_fmap snd]. rewrite prev_edge_snoc. rewrite Ha. cbn [node_of snd fst node_addr].
    destruct (last (at_address (call_address a) L)) as [p|] eqn:El.
    + rewrite push_at_elem, Hj. assert (Some p = Some n1 <-> n1 = p) as -> by (split; congruence). unfold node_of; cbn. tauto.
    + rewrite Hj. assert (None = Some n1 <-> False) as -> by done. tauto.
  - intros k n g. rewrite (push_all_default (fun claim : ClaimedContractCallsValue * bool => claimed_key claim.1) (fun claim => (mkCallNode segment (call_address a) i, claim.2))).
    rewrite elem_of_app, (Hm k n g), list_elem_of_fmap. setoid_rewrite list_elem_of_filter. setoid_rewrite elem_of_app. setoid_rewrite list_elem_of_singleton. split.
    + intros [(ic & c & ? & ? & ? & ?)|([c g'] & [= -> ->] & Hk & Hc)]; [exists ic, c; tauto|exists (i, a), c; tauto].
    + intros (ic & c & [?| ->] & -> & Hc & Hk); [left; exists ic, c; done|]. right. exists (c, g). done.
Qed.

Lemma relate_nodes_ok L E r segment cs : Relates L E r ->
  match relate_nodes r segment cs with
  | Ok acc => Forall (fun ic => has_transcript true ic.2 || has_transcript false ic.2 = true) cs /\
      Relates (L ++ ((fun ic => (node_of segment ic, ic.2)) <$> cs)) E acc.1 /\ Callers segment cs acc.2
  | Err _ => ~ Forall (fun ic => has_transcript true ic.2 || has_transcript false ic.2 = true) cs
  end.
Proof.
  intros Hr. unfold relate_nodes.
  apply (try_fold_model _ (fun l0 acc => Relates (L ++ ((fun ic => (node_of segment ic, ic.2)) <$> l0)) E acc.1 /\ Callers segment l0 acc.2)
    (relate_node segment) cs) with (l0 := []).
  - intros l0 acc ic. apply relate_node_ok.
  - split; [by rewrite app_nil_r|]. intros k n g. cbn [snd]. rewrite lookup_empty. split; [by intros ?%not_elem_of_nil|]. by intros (ic & c & ?%not_elem_of_nil & _).
Qed.

Lemma context_check_ok (R : relation CallNode) adj segment cs m :
  (forall n1 n2, n2 ∈ default [] (adj !! n1) <-> R n1 n2) -> Callers segment cs m ->
  match sequencing_context_check adj segment cs m with
  | Ok adj' => (forall ic jc g, ic ∈ cs -> jc ∈ cs -> calls_in g ic.2 jc.2 -> has_transcript (negb g) jc.2 = false) /\
      forall n1 n2, n2 ∈ default [] (adj' !! n1) <-> R n1 n2 \/
        exists ic jc, ic ∈ cs /\ jc ∈ cs /\ n1 = node_of segment ic /\ n2 = node_of segment jc /\ calls ic.2 jc.2
  | Err _ => ~ forall ic jc g, ic ∈ cs -> jc ∈ cs -> calls_in g ic.2 jc.2 -> has_transcript (negb g) jc.2 = false
  end.
Proof.
  intros HR Hm. set (ok := fun jc : Z * ContractCall => Forall (fun caller : CallNode * bool => has_transcript (negb caller.2) jc.2 = false) (default [] (m !! call_key jc.2))).
  assert (Hok : Forall ok cs <-> forall ic jc g, ic ∈ cs -> jc ∈ cs -> calls_in g ic.2 jc.2 -> has_transcript (negb g) jc.2 = false).
  { unfold ok. rewrite Forall_forall. setoid_rewrite Forall_forall. split.
    - intros Hf ic jc g Hi Hj (c & Hc & Hk). apply (Hf jc Hj (node_of segment ic, g)). apply Hm. eauto 10.
    - intros Hf jc Hj [n g] (ic & c & Hi & -> & Hc & Hk)%Hm. eapply Hf; [exact Hi|exact Hj|]. by exists c. }
  pose proof (try_fold_model ok (fun l0 adj => forall n1 n2, n2 ∈ default [] (adj !! n1) <-> R n1 n2 \/
        exists ic jc, ic ∈ cs /\ jc ∈ l0 /\ n1 = node_of segment ic /\ n2 = node_of segment jc /\ calls ic.2 jc.2)
    (fun adj ic => try_fold (check_caller (mkCallNode segment (call_address ic.2) ic.1) ic.2) adj (default [] (m !! call_key ic.2))) cs) as H.
  ospecialize (H _ [] adj _).
  3: { unfold sequencing_context_check. destruct (try_fold _ adj cs) as [adj'|e]; [destruct H as [Hf H]; split; [by apply Hok|exact H]|by intros Hf; apply H, Hok]. }
  2: { intros n1 n2. rewrite HR. split; [by left|]. intros [?|(? & ? & _ & ?%not_elem_of_nil & _)]; done. }
  clear adj HR. intros l0 adj jc HR. set (this := mkCallNode segment (call_address jc.2) jc.1). set (callers := default [] _) in *.
  pose proof (try_fold_model (fun caller : CallNode * bool => has_transcript (negb caller.2) jc.2 = false)
    (fun done adj' => forall n1 n2, n2 ∈ default [] (adj' !! n1) <-> n2 ∈ default [] (adj !! n1) \/ (n2 = this /\ n1 ∈ done.*1))
    (check_caller this jc.2) callers) as H2. ospecialize (H2 _ [] adj _).
  3: { destruct (try_fold _ adj callers) as [adj'|e]; [|done]. destruct H2 as [Hf H2]. split; [done|]. intros n1 n2. rewrite H2, HR. cbn [app].
       setoid_rewrite elem_of_app. setoid_rewrite list_elem_of_singleton. split.
       - intros [[?|(ic & j2 & ? & ? & ? & ? & ?)]|[-> ([n g] & -> & (ic & c & Hi & Hn & Hc & Hk)%Hm)%list_elem_of_fmap]]; [by left|right; exists ic, j2; naive_solver|].
         right. exists ic, jc. split_and!; [done|by right|done|done|]. by exists g, c.
       - intros [?|(ic & j2 & Hi & [?| ->] & -> & -> & Hcalls)]; [by left; left|left; right; eauto 10|]. right. split; [done|].
         destruct Hcalls as (g & c & Hc & Hk). apply list_elem_of_fmap. exists (node_of segment ic, g). split; [done|]. apply Hm. eauto 10. }
  2: { intros n1 n2. split; [by left|]. intros [?|[_ ?%not_elem_of_nil]]; done. }
  clear. intros done adj' [n g] Hd. unfold check_caller. cbn [fst snd]. destruct g; cbn [andb negb].
  - destruct (has_transcript false jc.2) eqn:E; [done|]. split; [done|]. intros n1 n2. rewrite push_at_elem, Hd, fmap_app, elem_of_app. set_solver.
  - destruct (has_transcript true jc.2) eqn:E; [done|]. split; [done|]. intros n1 n2. rewrite push_at_elem, Hd, fmap_app, elem_of_app. set_solver.
Qed.

Lemma intent_order_ok cs :
  try_for_each (fun ic : Z * ContractCall =>
    subs ← call_sequencing_check ic.1 ic.2 (call_lookup cs); sequencing_correlation_check (call_address ic.2) subs) cs = Ok tt <->
  forall i a, (i, a) ∈ cs -> (forall s, s ∈ sub_calls cs a -> i < s.1) /\
    forall s t, [s; t] ⊆+ sub_calls cs a -> strictly_before s t \/ strictly_before t s.
Proof.
  rewrite try_for_each_Ok, Forall_forall. split.
  - intros Hf i a Ha. specialize (Hf _ Ha). cbn [fst snd] in Hf. pose proof (call_sequencing_ok i a cs) as Hs.
    destruct (call_sequencing_check i a (call_lookup cs)) as [subs|]; cbn [mbind result_bind] in Hf; [|done]. destruct Hs as [? Es]. split; [done|]. rewrite <- Es. by apply (correlation_ok (call_address a)).
  - intros Hf [i a] Ha. destruct (Hf _ _ Ha) as [H1 H2]. cbn [fst snd]. pose proof (call_sequencing_ok i a cs) as Hs.
    destruct (call_sequencing_check i a (call_lookup cs)) as [subs|]; [|done]. destruct Hs as [_ Es]. apply correlation_ok. by rewrite Es.
Qed.

Lemma elem_of_intent_nodes entry x :
  x ∈ intent_nodes entry <-> exists ic, ic ∈ as_indexed (intent_calls entry.2) /\ x = (node_of entry.1 ic, ic.2).
Proof. unfold intent_nodes. rewrite list_elem_of_fmap. naive_solver. Qed.

Lemma Relates_mono L (E E' : relation CallNode) r : (forall n1 n2, E n1 n2 <-> E' n1 n2) -> Relates L E r -> Relates L E' r.
Proof. intros HE [H1 H2 H3 H4]. split; [done..|]. intros n1 n2. by rewrite H4, HE. Qed.

Lemma claim_edge_calls entry n1 n2 :
  (exists ic jc, ic ∈ as_indexed (intent_calls entry.2) /\ jc ∈ as_indexed (intent_calls entry.2) /\
     n1 = node_of entry.1 ic /\ n2 = node_of entry.1 jc /\ calls ic.2 jc.2) <-> claim_edge entry n1 n2.
Proof.
  unfold claim_edge. setoid_rewrite elem_of_intent_nodes. split.
  - intros (ic & jc & ? & ? & -> & -> & ?). exists (node_of entry.1 ic, ic.2), (node_of entry.1 jc, jc.2). eauto 10.
  - intros ([n3 b3] & [n4 b4] & (ic & ? & [= -> ->]) & (jc & ? & [= -> ->]) & -> & -> & ?). exists ic, jc. done.
Qed.

Lemma sequence_intent_ok L E r entry : Relates L E r ->
  match sequence_intent r entry with
  | Ok r' => Sequenced (as_indexed (intent_calls entry.2)) /\ Relates (L ++ intent_nodes entry) (fun n1 n2 => E n1 n2 \/ claim_edge entry n1 n2) r'
  | Err _ => ~ Sequenced (as_indexed (intent_calls entry.2))
  end.
Proof.
  intros Hr. unfold sequence_intent. set (cs := as_indexed _).
  pose proof (intent_order_ok cs) as Ho. destruct (try_for_each _ cs) as [[]|]; cbn [mbind result_bind].
  2: { intros [_ Hl Hs _]. assert (Err e = Ok tt) as [=]. apply Ho. intros i a Ha. split; eauto. }
  destruct Ho as [Ho _]. specialize (Ho eq_refl). pose proof (relate_nodes_ok _ _ _ entry.1 cs Hr) as Hn.
  destruct (relate_nodes r entry.1 cs) as [[r1 m]|]; cbn [mbind result_bind fst snd] in *.
  2: { intros [Ht _ _ _]. apply Hn, Forall_forall. intros [i a] Ha. by eapply Ht. }
  destruct Hn as (Ht & [Hg Hf Had Hj] & Hm). rewrite Forall_forall in Ht. pose proof (context_check_ok _ _ _ _ _ Hj Hm) as Hc.
  destruct (sequencing_context_check _ _ _ _) as [adj|]; cbn [mbind result_bind].
  2: { intros [_ _ _ Hctx]. apply Hc. intros [i a] [j b] g. apply Hctx. }
  destruct Hc as [Hctx Hc]. split.
  - split; [intros i a; apply Ht|intros i a s Ha; by apply Ho|intros i a s t Ha; by eapply Ho|intros i j a b g Ha Hb]. by apply (Hctx (i, a) (j, b)).
  - split; [done..|]. intros n1 n2. cbn [adjacencies]. rewrite Hc, <- (claim_edge_calls entry). unfold intent_nodes. fold cs. tauto.
Qed.

Lemma sequence_intents_ok (l : list (Z * LedgerIntent)) :
  match try_fold sequence_intent (mkRelated ∅ ∅ ∅ ∅) l with
  | Ok r => Forall (fun entry : Z * LedgerIntent => Sequenced (as_indexed (intent_calls entry.2))) l /\
      Relates (l ≫= intent_nodes) (fun n1 n2 => exists entry, entry ∈ l /\ claim_edge entry n1 n2) r
  | Err _ => ~ Forall (fun entry : Z * LedgerIntent => Sequenced (as_indexed (intent_calls entry.2))) l
  end.
Proof.
  apply (try_fold_model _ (fun l0 r => Relates (l0 ≫= intent_nodes) (fun n1 n2 => exists entry, entry ∈ l0 /\ claim_edge entry n1 n2) r)) with (l0 := []).
  - intros l0 r entry Hr. pose proof (sequence_intent_ok _ _ _ entry Hr) as H. destruct (sequence_intent r entry); [|done]. destruct H as [Hs H]. split; [done|].
    rewrite bind_app. cbn [mbind list_bind] in *. rewrite app_nil_r. eapply Relates_mono; [|exact H]. intros n1 n2. cbn beta.
    setoid_rewrite elem_of_app. setoid_rewrite list_elem_of_singleton. naive_solver.
  - split; cbn.
    + intros n. split; [by intros ?%elem_of_empty|by intros (? & ?%not_elem_of_nil & _)].
    + intros n. split; [by intros ?%elem_of_empty|by intros (? & ?%not_elem_of_nil & _)].
    + intros ad. by rewrite lookup_empty.
    + intros n1 n2. rewrite lookup_empty. split; [by intros ?%not_elem_of_nil|]. intros [([|? ?] & ? & ? & [=] & _)|(? & ?%not_elem_of_nil & _)]. done.
Qed.

(** ** The places of calls *)

Lemma elem_of_as_indexed {A} (l : list A) i v : (i, v) ∈ as_indexed l <-> 0 <= i /\ l !! Z.to_nat i = Some v.
Proof.
  unfold as_indexed. rewrite elem_of_lookup_imap. split.
  - intros (n & w & [= -> ->] & Hn). rewrite Nat2Z.id. split; [lia|done].
  - intros [Hi Hl]. exists (Z.to_nat i), v. rewrite Z2Nat.id by done. done.
Qed.
Lemma as_indexed_sorted {A} (l : list A) : StronglySorted (fun u v => u.1 < v.1) (as_indexed l).
Proof.
  unfold as_indexed. induction l as [|w l IH] using rev_ind; [constructor|]. rewrite imap_app. apply StronglySorted_app. split_and!; [|done|repeat constructor].
  intros u v (n & w' & -> & Hn)%elem_of_lookup_imap ->%list_elem_of_singleton. apply lookup_lt_Some in Hn. cbn. lia.
Qed.

Lemma strictly_sorted {V} (l : list (Z * V)) : NoDup l.*1 -> StronglySorted (fun u v => u.1 <= v.1) l -> StronglySorted (fun u v => u.1 < v.1) l.
Proof.
  induction l as [|u l IH]; [constructor|]. intros [Hu Hl]%NoDup_cons [Hs Hf]%StronglySorted_inv. constructor; [by apply IH|].
  rewrite Forall_forall in *. intros v Hv. specialize (Hf v Hv). cbn beta in *. destruct (decide (u.1 = v.1)) as [E|]; [|lia]. destruct Hu. rewrite E.
  by apply list_elem_of_fmap_2.
Qed.
Lemma sorted_iter_strict {V} (m : gmap Z V) : StronglySorted (fun u v => u.1 < v.1) (sorted_iter m).
Proof.
  apply strictly_sorted, sorted_iter_sorted. unfold sorted_iter. rewrite merge_sort_Permutation. apply NoDup_fst_map_to_list.
Qed.

Lemma bind_sorted {A B} (R : relation A) (S : relation B) (f : A -> list B) l :
  StronglySorted R l -> (forall p, StronglySorted S (f p)) -> (forall p q u v, R p q -> u ∈ f p -> v ∈ f q -> S u v) -> StronglySorted S (l ≫= f).
Proof.
  intros Hl Hf HS. induction Hl as [|p l Hl IH Hp]; [constructor|]. cbn [mbind list_bind]. apply StronglySorted_app. split_and!; [|done|done].
  rewrite Forall_forall in Hp. intros u v Hu (q & Hv & Hq)%list_elem_of_bind. eauto.
Qed.

Lemma elem_of_tx_nodes self x : x ∈ tx_nodes self <-> exists intent, intents self !! segment_id x.1 = Some intent /\
  (call_index x.1, x.2) ∈ as_indexed (intent_calls intent) /\ node_addr x.1 = call_address x.2.
Proof.
  destruct x as [[sg ad i] b]. unfold tx_nodes. rewrite list_elem_of_bind. cbn. split.
  - intros ([sg' intent] & ([j c] & Hc & [= -> -> -> ->])%elem_of_intent_nodes & He%elem_of_sorted_iter). exists intent. done.
  - intros (intent & Hi & Hb & ->). exists (sg, intent). split; [|by apply elem_of_sorted_iter]. apply elem_of_intent_nodes. exists (i, b). done.
Qed.
Lemma tx_nodes_unique self n b b' : (n, b) ∈ tx_nodes self -> (n, b') ∈ tx_nodes self -> b = b'.
Proof.
  intros (i & Hi & [_ Hb]%elem_of_as_indexed & _)%elem_of_tx_nodes (i' & Hi' & [_ Hb']%elem_of_as_indexed & _)%elem_of_tx_nodes. cbn in *. congruence.
Qed.
Lemma tx_nodes_sorted self : StronglySorted (fun x y => later x.1 y.1) (tx_nodes self).
Proof.
  eapply bind_sorted; [apply sorted_iter_strict| |].
  - intros entry. unfold intent_nodes. eapply StronglySorted_fmap, as_indexed_sorted. intros u v Huv. right. done.
  - intros u v x y Huv (ic & _ & ->)%elem_of_intent_nodes (jc & _ & ->)%elem_of_intent_nodes. left. exact Huv.
Qed.

(** ** Causality *)

(** Along the edges. *)
Definition edge_causal L (R : relation CallNode) : Prop :=
  forall x y, x ∈ L -> y ∈ L -> R x.1 y.1 -> has_transcript false x.2 = true -> has_transcript true y.2 = false.

Lemma later_split L x y : StronglySorted (fun x y => later x.1 y.1) L -> x ∈ L -> y ∈ L -> later x.1 y.1 ->
  exists L1 L2, L = L1 ++ y :: L2 /\ x ∈ L1.
Proof.
  intros Hs Hx (L1 & L2 & ->)%list_elem_of_split Hl. exists L1, L2. split; [done|].
  apply elem_of_app in Hx as [?|[->|Hx]%elem_of_cons]; [done|unfold later in Hl; lia|].
  apply (StronglySorted_app_1_r _ L1) in Hs. apply StronglySorted_inv in Hs as [_ Hf]. rewrite Forall_forall in Hf. specialize (Hf _ Hx). cbn beta in Hf. unfold later in *. lia.
Qed.

Lemma last_at_address ad L1 n : last (at_address ad L1) = Some n ->
  exists L3 b L4, L1 = L3 ++ (n, b) :: L4 /\ node_addr n = ad /\ Forall (fun x => node_addr x.1 <> ad) L4.
Proof.
  unfold at_address. rewrite fmap_last, fmap_Some. intros ([n' b] & El & ->). pose proof (last_Some_elem_of _ _ El) as [Ha _]%list_elem_of_filter.
  apply last_filter_Some in El as (L3 & L4 & -> & Hf). exists L3, b, L4. done.
Qed.

(** Two calls of a contract, with any number of its calls between them. *)
Lemma same_address_causal L : (forall x, x ∈ L -> has_transcript true x.2 || has_transcript false x.2 = true) -> edge_causal L (prev_edge L) ->
  forall k L1 L2 x y, length L1 = k -> L = L1 ++ y :: L2 -> x ∈ L1 -> node_addr x.1 = node_addr y.1 -> has_transcript false x.2 = true -> has_transcript true y.2 = false.
Proof.
  intros Ht He. induction k as [k IH] using lt_wf_ind. intros L1 L2 x y Hk HL Hx Ha Hfx.
  destruct (last (at_address (node_addr y.1) L1)) as [n|] eqn:El.
  2: { apply last_None in El. unfold at_address in El. apply fmap_nil_inv in El.
       assert (Hin : x ∈ filter (fun x : CallNode * ContractCall => node_addr x.1 = node_addr y.1) L1) by (by apply list_elem_of_filter).
       rewrite El in Hin. by apply not_elem_of_nil in Hin. }
  pose proof El as (L3 & b & L4 & -> & Hn & Hf)%last_at_address. rewrite Forall_forall in Hf.
  assert (Hz : (n, b) ∈ L) by (rewrite HL; set_solver). assert (Hy : y ∈ L) by (rewrite HL; set_solver).
  apply (He (n, b) y Hz Hy). { exists (L3 ++ (n, b) :: L4), L2, y.2. split; [by destruct y|done]. }
  apply elem_of_app in Hx as [Hx|[->|Hx]%elem_of_cons]; [|done|by destruct (Hf x Hx)].
  assert (Hg : has_transcript true b = false).
  { eapply (IH (length L3) _ L3 (L4 ++ y :: L2) x (n, b)); [done|by rewrite HL, <- app_assoc|done|cbn; congruence|done].
    Unshelve. rewrite length_app in Hk. cbn in Hk. lia. }
  specialize (Ht _ Hz). cbn in *. by rewrite Hg in Ht.
Qed.

Lemma causality_check_ok self E r : Relates (tx_nodes self) E r ->
  causality_check r = Ok tt <-> edge_causal (tx_nodes self) (fun n1 n2 => prev_edge (tx_nodes self) n1 n2 \/ E n1 n2).
Proof.
  intros [Hg Hf _ Hj]. unfold causality_check. rewrite try_for_each_Ok, Forall_forall. setoid_rewrite try_for_each_Ok. setoid_rewrite Forall_forall. split.
  - intros Hc [n1 a] [n2 b] Hx Hy HR Ha. specialize (Hc n1). rewrite merge_sort_Permutation, elem_of_elements, Hf in Hc.
    specialize (Hc (ex_intro _ a (conj Hx Ha)) n2 (proj2 (Hj _ _) HR)). cbn beta in Hc. case_decide as Hn; [done|].
    destruct (has_transcript true b) eqn:Eb; [|done]. destruct Hn. apply Hg. eauto.
  - intros Hc n1. rewrite merge_sort_Permutation, elem_of_elements, Hf. intros (a & Hx & Ha) n2 HR%Hj.
    case_decide as Hn; [|done]. apply Hg in Hn as (b & Hy & Hb). specialize (Hc (n1, a) (n2, b) Hx Hy HR Ha). cbn in Hc. congruence.
Qed.

Lemma claim_edge_tx self x y : x ∈ tx_nodes self -> y ∈ tx_nodes self ->
  (exists entry, entry ∈ sorted_iter (intents self) /\ claim_edge entry x.1 y.1) <-> segment_id x.1 = segment_id y.1 /\ calls x.2 y.2.
Proof.
  intros Hx Hy. split.
  - intros (entry & He & [n1 a] & [n2 b] & Ha & Hb & E1 & E2 & Hc). cbn in E1, E2, Hc.
    assert (Hn : forall z, z ∈ intent_nodes entry -> z ∈ tx_nodes self) by (intros z Hz; apply list_elem_of_bind; eauto).
    rewrite <- (tx_nodes_unique self n1 a x.2), <- (tx_nodes_unique self n2 b y.2); [|by apply Hn|subst; by destruct y|by apply Hn|subst; by destruct x].
    split; [|done]. rewrite E1, E2. apply elem_of_intent_nodes in Ha as (? & _ & [= -> _]), Hb as (? & _ & [= -> _]). done.
  - intros [Hs Hc]. apply elem_of_tx_nodes in Hx as (i & Hi & Hxi & Hxa), Hy as (i' & Hi' & Hyi & Hya). rewrite <- Hs, Hi in Hi'. injection Hi' as <-.
    exists (segment_id x.1, i). split; [by apply elem_of_sorted_iter|]. exists x, y. split_and!; [| |done..].
    + apply elem_of_intent_nodes. exists (call_index x.1, x.2). split; [done|]. destruct x as [[] ?]; cbn in *. by subst.
    + apply elem_of_intent_nodes. exists (call_index y.1, y.2). split; [done|]. destruct y as [[] ?]; cbn in *. by subst.
Qed.

Lemma edge_precedes self x y : x ∈ tx_nodes self -> y ∈ tx_nodes self ->
  prev_edge (tx_nodes self) x.1 y.1 \/ (exists entry, entry ∈ sorted_iter (intents self) /\ claim_edge entry x.1 y.1) -> precedes (tx_nodes self) x y.
Proof.
  intros Hx Hy [(L1 & L2 & b & HL & (L3 & a & L4 & -> & Ha & _)%last_at_address)|Hc]; (split; [done|]; split; [done|]).
  - right. split; [done|]. pose proof (tx_nodes_sorted self) as Hs. rewrite HL, <- app_assoc in Hs. apply (StronglySorted_app_1_r _ L3), StronglySorted_inv in Hs as [_ Hf].
    rewrite Forall_forall in Hf. apply (Hf (y.1, b)). set_solver.
  - left. by apply (claim_edge_tx self).
Qed.

Lemma edge_causal_iff self : (forall x, x ∈ tx_nodes self -> has_transcript true x.2 || has_transcript false x.2 = true) ->
  edge_causal (tx_nodes self) (fun n1 n2 => prev_edge (tx_nodes self) n1 n2 \/ exists entry, entry ∈ sorted_iter (intents self) /\ claim_edge entry n1 n2) <->
  causal (tx_nodes self).
Proof.
  intros Ht. split.
  - intros He. assert (Hone : forall x y, precedes (tx_nodes self) x y -> has_transcript false x.2 = true -> has_transcript true y.2 = false).
    { intros x y (Hx & Hy & [Hc|[Ha Hl]]) Hfx; [apply (He x y Hx Hy); [right; by apply (claim_edge_tx self)|done]|].
      destruct (later_split _ _ _ (tx_nodes_sorted self) Hx Hy Hl) as (L1 & L2 & HL & Hx1).
      eapply (same_address_causal _ Ht); [|reflexivity|exact HL|exact Hx1|done|done]. intros u v Hu Hv Hp. apply He; [done|done|by left]. }
    intros x y Hp. induction Hp as [x y Hxy|x y z Hxy Hyz IH]; intros Hfx; [by eapply Hone|]. apply IH. specialize (Hone _ _ Hxy Hfx).
    destruct Hxy as (_ & Hy & _). specialize (Ht _ Hy). by rewrite Hone in Ht.
  - intros Hc x y Hx Hy HR. apply Hc, tc_once. by apply edge_precedes.
Qed.

Lemma sequencing_ok self : sequencing_check self = Ok tt <-> sequenced self.
Proof.
  unfold sequencing_check, sequenced. pose proof (sequence_intents_ok (sorted_iter (intents self))) as H.
  assert (Hall : Forall (fun entry : Z * LedgerIntent => Sequenced (as_indexed (intent_calls entry.2))) (sorted_iter (intents self)) <->
    forall segment intent, intents self !! segment = Some intent -> Sequenced (as_indexed (intent_calls intent))).
  { rewrite Forall_forall. split; [intros Hf s i Hi; by apply (Hf (s, i)), elem_of_sorted_iter|intros Hf [s i] Hi%elem_of_sorted_iter; by apply (Hf s)]. }
  destruct (try_fold _ _ _) as [r|e]; cbn [mbind result_bind].
  - destruct H as [Hs Hr]. rewrite (causality_check_ok self _ r Hr), edge_causal_iff; [rewrite Hall in Hs; tauto|].
    intros x (i & Hi & Hx & _)%elem_of_tx_nodes. by apply (seq_transcripts _ (proj1 Hall Hs _ _ Hi) (call_index x.1)).
  - split; [done|]. intros [Hs _]. destruct (H (proj2 Hall Hs)).
Qed.

Lemma tc_mono {A} (R R' : relation A) (s t : A) : (forall u v, R u v -> R' u v) -> tc R s t -> tc R' s t.
Proof. intros H. induction 1 as [u v E|u v w E _ IH]; [by apply tc_once, H|]. econstructor; [by apply H|done]. Qed.

Lemma spec_precedes_precedes self x y : spec_precedes (tx_nodes self) x y -> precedes (tx_nodes self) x y.
Proof.
  intros (Hx & Hy & H). split; [done|]. split; [done|]. destruct H as [(Hs & _ & Hc)|[Hs Ha]]; [by left|right]. split; [|by left].
  apply elem_of_tx_nodes in Hx as (_ & _ & _ & ->), Hy as (_ & _ & _ & ->). done.
Qed.

Lemma precedes_spec_precedes self x y :
  (forall segment intent, intents self !! segment = Some intent -> Sequenced (as_indexed (intent_calls intent))) -> contracts_once self ->
  precedes (tx_nodes self) x y -> spec_precedes (tx_nodes self) x y.
Proof.
  intros Hseq Honce (Hx & Hy & H). split; [done|]. split; [done|].
  apply elem_of_tx_nodes in Hx as (i & Hi & Hxi & Hxa), Hy as (i' & Hi' & Hyi & Hya). destruct H as [[Hs Hc]|[Ha Hl]].
  - left. split_and!; [done| |done]. rewrite <- Hs, Hi in Hi'. injection Hi' as <-. intros E. destruct Hc as (g & c & Hc & Hk).
    assert (Hlt : call_index x.1 < call_index y.1); [|lia].
    apply (seq_later _ (Hseq _ _ Hi) (call_index x.1) x.2 (call_index y.1, ccc_pos c) Hxi), list_elem_of_bind. exists (c, g). split; [|done].
    apply list_elem_of_fmap. exists (call_index y.1, y.2). split; [done|]. by apply list_elem_of_filter.
  - right. split; [|by rewrite <- Hxa, <- Hya]. destruct Hl as [Hl|[Hs Hl]]; [done|]. rewrite <- Hs, Hi in Hi'. injection Hi' as <-.
    assert (call_index x.1 = call_index y.1) by (eapply Honce; [exact Hi|exact Hxi|exact Hyi|congruence]). lia.
Qed.

(** C10. What the sequencing check accepts.  It accepts a transaction exactly when
    its calls have transcripts, what a call claims comes later in its intent, in
    the order of the sequence numbers and confined to the section that claims it,
    and no fallible call comes before a guaranteed one along the transitive
    closure of the code's precedence: by claims, and by the contract, within an
    intent too.  (The code only links a call with the previous one of its
    contract, and only looks one edge ahead.)  The specification's precedence
    links calls of a contract in different segments only; what the code accepts
    is causal by it as well, and where no intent calls a contract twice the two
    agree, so that the check is then exactly the specified one. *)
Theorem sequencing_check_spec self :
  (sequencing_check self = Ok tt <-> sequenced self) /\
  (sequencing_check self = Ok tt -> spec_causal (tx_nodes self)) /\
  (contracts_once self ->
   (forall segment intent, intents self !! segment = Some intent -> Sequenced (as_indexed (intent_calls intent))) ->
   sequencing_check self = Ok tt <-> spec_causal (tx_nodes self)).
Proof.
  pose proof (sequencing_ok self) as Hok.
  assert (Hspec : sequencing_check self = Ok tt -> spec_causal (tx_nodes self)).
  { intros [_ Hc]%Hok x y Hp. apply Hc. revert Hp. apply tc_mono. intros u v. apply spec_precedes_precedes. }
  split; [done|]. split; [done|]. intros Honce Hseq. split; [done|]. intros Hc. apply Hok. split; [done|].
  intros x y Hp. apply Hc. revert Hp. apply tc_mono. intros u v. by apply precedes_spec_precedes.
Qed.

(** ** Effects *)

Lemma effects_check_ok self : effects_check self = Ok tt ->
  NoDup (tx_claimed_calls self) /\ tx_claimed_calls self ⊆+ tx_real_calls self.
Proof.
  unfold effects_check. repeat (case_decide; [done|]). destruct (mset_has_subset (mset_from (all_commitments self)) _); [|done]. cbn [negb].
  case_decide as Hc; [done|]. destruct (mset_has_subset (mset_from (tx_real_calls self)) _) eqn:Er; [|done]. intros _. split.
  - apply mset_from_duplicates. by destruct (mset_duplicates (mset_from (tx_claimed_calls self))); [|destruct Hc].
  - by apply mset_from_subset.
Qed.

Lemma bind_bind {A B C} (f : A -> list B) (g : B -> list C) l : (l ≫= f) ≫= g = l ≫= fun p => f p ≫= g.
Proof. induction l as [|p l IH]; [done|]. cbn [mbind list_bind]. by rewrite bind_app, IH. Qed.
Lemma fmap_bind_out {A B C} (f : A -> list B) (g : B -> C) l : g <$> (l ≫= f) = l ≫= fun p => g <$> f p.
Proof. induction l as [|p l IH]; [done|]. cbn [mbind list_bind]. by rewrite fmap_app, IH. Qed.
Lemma bind_same {A B} (f g : A -> list B) l : (forall p, f p = g p) -> l ≫= f = l ≫= g.
Proof. intros H. induction l as [|p l IH]; [done|]. cbn [mbind list_bind]. by rewrite H, IH. Qed.
Lemma NoDup_bind_same {A B} (f : A -> list B) l p q v : NoDup (l ≫= f) -> p ∈ l -> q ∈ l -> v ∈ f p -> v ∈ f q -> p = q.
Proof.
  induction l as [|u l IH]; [by intros _ ?%not_elem_of_nil|]. cbn [mbind list_bind]. intros (_ & Hd & Hn)%NoDup_app [->|Hp]%elem_of_cons [->|Hq]%elem_of_cons Hv Hw.
  - done.
  - destruct (Hd _ Hv). apply list_elem_of_bind. eauto.
  - destruct (Hd _ Hw). apply list_elem_of_bind. eauto.
  - by apply IH.
Qed.
Lemma NoDup_bind_one {A B} (f : A -> list B) l p : NoDup (l ≫= f) -> p ∈ l -> NoDup (f p).
Proof.
  intros Hn (l1 & l2 & ->)%list_elem_of_split. rewrite bind_app in Hn. cbn [mbind list_bind] in Hn. by apply NoDup_app in Hn as (_ & _ & (? & _)%NoDup_app).
Qed.
Lemma NoDup_fmap_same {A B} (f : A -> B) l p q : NoDup (f <$> l) -> p ∈ l -> q ∈ l -> f p = f q -> p = q.
Proof.
  induction l as [|u l IH]; [by intros _ ?%not_elem_of_nil|]. intros [Hu Hn]%NoDup_cons [->|Hp]%elem_of_cons [->|Hq]%elem_of_cons E.
  - done.
  - destruct Hu. rewrite E. by apply list_elem_of_fmap_2.
  - destruct Hu. rewrite <- E. by apply list_elem_of_fmap_2.
  - by apply IH.
Qed.

Lemma as_indexed_snd {A} (l : list A) : (as_indexed l).*2 = l.
Proof. apply list_eq. intros i. unfold as_indexed. rewrite list_lookup_fmap, list_lookup_imap. by destruct (l !! i). Qed.

Section iterated.
Context (Hiter : forall K V `{Countable K} (m : gmap K V), map_iter m ≡ₚ map_to_list m).

Lemma segment_calls_nodes self : segment_calls self ≡ₚ (fun x => (segment_id x.1, x.2)) <$> tx_nodes self.
Proof.
  unfold segment_calls, tx_nodes, sorted_iter. rewrite fmap_bind_out, merge_sort_Permutation, Hiter. apply reflexive_eq, bind_same. intros [s i].
  unfold intent_nodes. rewrite <- list_fmap_compose. cbn. rewrite <- (as_indexed_snd (intent_calls i)) at 1. by rewrite <- list_fmap_compose.
Qed.

Lemma claimed_calls_nodes self :
  tx_claimed_calls self ≡ₚ tx_nodes self ≫= fun x => (fun claim => (segment_id x.1, claimed_key claim.1)) <$> claims x.2.
Proof.
  unfold tx_claimed_calls, placed_transcripts. rewrite bind_bind, segment_calls_nodes, list_fmap_bind. apply reflexive_eq, bind_same. intros x.
  unfold claims, call_transcripts. cbn. rewrite fmap_bind_out, !bind_app. destruct (guaranteed_transcript x.2), (fallible_transcript x.2); cbn; by rewrite ?app_nil_r, <- ?list_fmap_compose.
Qed.

Lemma claimed_once self x x' claim claim' : NoDup (tx_claimed_calls self) -> x ∈ tx_nodes self -> x' ∈ tx_nodes self -> segment_id x'.1 = segment_id x.1 ->
  claim ∈ claims x.2 -> claim' ∈ claims x'.2 -> claimed_key claim'.1 = claimed_key claim.1 -> x' = x /\ claim' = claim.
Proof.
  rewrite claimed_calls_nodes. intros Hn Hx Hx' Hs Hc Hc' Hk. assert (x' = x) as ->.
  { apply (NoDup_bind_same _ _ x' x (segment_id x.1, claimed_key claim.1) Hn Hx' Hx); apply list_elem_of_fmap.
    - exists claim'. split; [by rewrite Hs, Hk|done].
    - exists claim. done. }
  split; [done|]. apply (NoDup_fmap_same _ _ claim' claim (NoDup_bind_one _ _ _ Hn Hx) Hc' Hc). by rewrite Hk.
Qed.

Lemma claimed_present self x c g : tx_claimed_calls self ⊆+ tx_real_calls self -> x ∈ tx_nodes self -> (c, g) ∈ claims x.2 ->
  exists y, y ∈ tx_nodes self /\ segment_id y.1 = segment_id x.1 /\ call_key y.2 = claimed_key c.
Proof.
  intros Hsub Hx Hc. assert (Hin : (segment_id x.1, claimed_key c) ∈ tx_real_calls self).
  { eapply elem_of_submseteq, Hsub. rewrite claimed_calls_nodes. apply list_elem_of_bind. exists x. split; [|done]. apply list_elem_of_fmap. by exists (c, g). }
  apply list_elem_of_fmap in Hin as ([s b] & E & Hb). rewrite segment_calls_nodes in Hb.
  apply list_elem_of_fmap in Hb as (y & [= -> ->] & Hy). exists y. split; [done|]. by rewrite (f_equal fst E : segment_id x.1 = _), (f_equal snd E : claimed_key c = _).
Qed.
End iterated.

Lemma node_eq x y : segment_id x.1 = segment_id y.1 -> call_index x.1 = call_index y.1 -> x.2 = y.2 ->
  node_addr x.1 = call_address x.2 -> node_addr y.1 = call_address y.2 -> x = y.
Proof. destruct x as [[] ?], y as [[] ?]. cbn. by intros -> -> -> -> ->. Qed.

(** Two different calls for one claim are two sub-calls with one sequence number. *)
Lemma claim_unique cs i a c g j1 j2 b1 b2 : Sequenced cs -> (i, a) ∈ cs -> (c, g) ∈ claims a -> (j1, b1) ∈ cs -> (j2, b2) ∈ cs ->
  call_key b1 = claimed_key c -> call_key b2 = claimed_key c -> j1 = j2.
Proof.
  intros Hs Ha Hc H1 H2 E1 E2. destruct (decide (j1 = j2)) as [E|Hne]; [done|]. exfalso.
  assert (Hp : [(j1, ccc_pos c); (j2, ccc_pos c)] ⊆+ sub_calls cs a).
  { unfold sub_calls. apply list_elem_of_split in Hc as (l1 & l2 & ->). rewrite bind_app. cbn [mbind list_bind fst].
    etrans; [|apply submseteq_inserts_l, submseteq_inserts_r; reflexivity].
    change [(j1, ccc_pos c); (j2, ccc_pos c)] with ((fun ic : Z * ContractCall => (ic.1, ccc_pos c)) <$> [(j1, b1); (j2, b2)]). apply fmap_submseteq.
    apply NoDup_submseteq; [|intros z [->|[->|?%not_elem_of_nil]%elem_of_cons]%elem_of_cons; [by apply list_elem_of_filter..|done]].
    apply NoDup_cons. split; [|apply NoDup_singleton]. intros [= E _]%list_elem_of_singleton. done. }
  destruct (seq_sorted _ Hs _ _ _ _ Ha Hp) as [[_ ?]|[_ ?]]; cbn in *; lia.
Qed.

Lemma sub_calls_elem cs a c g j b : (c, g) ∈ claims a -> (j, b) ∈ cs -> call_key b = claimed_key c -> (j, ccc_pos c) ∈ sub_calls cs a.
Proof.
  intros Hc Hb Hk. apply list_elem_of_bind. exists (c, g). split; [|done]. apply list_elem_of_fmap. exists (j, b). split; [done|]. by apply list_elem_of_filter.
Qed.

(** C11. The calls that a transcript claims are in the transaction.  If a transaction
    passes the checks of effects and of sequencing, then for a call that one of
    its transcripts claims there is exactly one call in the same intent with the
    claimed contract, entry point and commitment; it comes after the claiming
    call, it runs in the section of the transcript that claims it and in no
    other, and no other claim refers to it. *)
Theorem calls_complete (Hiter : forall K V `{Countable K} (m : gmap K V), map_iter m ≡ₚ map_to_list m) self x c g :
  effects_check self = Ok tt -> sequencing_check self = Ok tt -> x ∈ tx_nodes self -> (c, g) ∈ claims x.2 ->
  exists y, y ∈ tx_nodes self /\ segment_id y.1 = segment_id x.1 /\ call_key y.2 = claimed_key c /\ call_index x.1 < call_index y.1 /\
    has_transcript g y.2 = true /\ has_transcript (negb g) y.2 = false /\
    (forall y', y' ∈ tx_nodes self -> segment_id y'.1 = segment_id x.1 -> call_key y'.2 = claimed_key c -> y' = y) /\
    (forall x' claim, x' ∈ tx_nodes self -> segment_id x'.1 = segment_id x.1 -> claim ∈ claims x'.2 -> claimed_key claim.1 = claimed_key c -> x' = x /\ claim = (c, g)).
Proof.
  intros [Hn Hsub]%effects_check_ok [Hseq _]%sequencing_ok Hx Hc. destruct (claimed_present Hiter _ _ _ _ Hsub Hx Hc) as (y & Hy & Hys & Hyk). exists y.
  pose proof Hx as (i & Hi & Hxi & Hxa)%elem_of_tx_nodes. pose proof Hy as (i' & Hi' & Hyi & Hya)%elem_of_tx_nodes. rewrite Hys, Hi in Hi'. injection Hi' as <-.
  pose proof (Hseq _ _ Hi) as Hs. pose proof (seq_transcripts _ Hs _ _ Hyi) as Ht. pose proof (seq_context _ Hs _ _ _ _ g Hxi Hyi (ex_intro _ c (conj Hc (eq_sym Hyk)))) as Hctx.
  split_and!; try done.
  - eapply (seq_later _ Hs _ _ (call_index y.1, ccc_pos c) Hxi). by eapply sub_calls_elem.
  - destruct g; cbn [negb] in Hctx; rewrite Hctx in Ht; [by rewrite orb_false_r in Ht|done].
  - intros y' Hy' Hs' Hk'. pose proof Hy' as (i' & Hi' & Hyi' & Hya')%elem_of_tx_nodes. rewrite Hs', Hi in Hi'. injection Hi' as <-.
    assert (Ej : call_index y'.1 = call_index y.1) by (eapply claim_unique; [exact Hs|exact Hxi|exact Hc|exact Hyi'|exact Hyi|done|done]).
    apply node_eq; [congruence|done| |done|done]. rewrite Ej in Hyi'. apply elem_of_as_indexed in Hyi as [_ Hyi], Hyi' as [_ Hyi']. congruence.
  - intros x' claim Hx' Hs' Hc' Hk'. by eapply claimed_once.
Qed.
End order.

(** ** Example *)

Import Supply.SupplyExample.

Module OrderExample.
Definition effects (claimed : gset ClaimedContractCallsValue) : Effects := mkEffects ∅ ∅ ∅ claimed ∅ ∅ ∅ ∅ ∅.
Definition transcript (claimed : gset ClaimedContractCallsValue) : Transcript := mkTranscript RC_ZERO (effects claimed) [] None.
Definition claimed : ClaimedContractCallsValue := mkClaimedCall 0 (replicate 32 4) (ep_hash [2]) 7.

(** A contract that calls another one, and a later call of both. *)
Definition caller : ContractCall := mkContractCall (replicate 32 3) [1] (Some (transcript {[claimed]})) None 6.
Definition callee (guaranteed : bool) : ContractCall :=
  let t := Some (transcript ∅) in mkContractCall (replicate 32 4) [2] (if guaranteed then t else None) (if guaranteed then None else t) 7.
Definition last_call : ContractCall := mkContractCall (replicate 32 4) [2] None (Some (transcript ∅)) 8.

Definition intent (calls : list ContractCall) : LedgerIntent := mkIntent None None (Call <$> calls) None 300 0.
Definition tx (calls : list ContractCall) : StandardTransaction := mkStandardTransaction "net" {[1 := intent calls; 2 := intent [last_call]]} None ∅ 0.

Lemma ordered : is_ok (sequencing_check (tx [caller; callee true])) && is_ok (effects_check (tx [caller; callee true])) = true.
Proof. vm_compute. reflexivity. Qed.
Lemma callee_first : is_ok (sequencing_check (tx [callee true; caller])) = false.
Proof. vm_compute. reflexivity. Qed.
Lemma callee_fallible : is_ok (sequencing_check (tx [caller; callee false])) = false.
Proof. vm_compute. reflexivity. Qed.
Lemma callee_missing : is_ok (effects_check (tx [caller])) = false.
Proof. vm_compute. reflexivity. Qed.

(** A fallible and then a guaranteed call of a contract in one intent. *)
Definition repeated : StandardTransaction := mkStandardTransaction "net" {[1 := intent [callee false; callee true]]} None ∅ 0.
End OrderExample.

(** The specification allows such calls, the check does not. *)
Lemma repeated_call_rejected :
  spec_causal (tx_nodes OrderExample.repeated) /\ is_ok (sequencing_check OrderExample.repeated) = false.
Proof.
  split; [|vm_compute; reflexivity].
  assert (Hn : forall x y, ~ spec_precedes (tx_nodes OrderExample.repeated) x y).
  { intros x y (Hx & Hy & H). assert (Hall : forall z, z ∈ tx_nodes OrderExample.repeated -> segment_id z.1 = 1 /\ claims z.2 = []).
    { apply Forall_forall. apply (bool_decide_unpack _). vm_compute. exact I. }
    destruct (Hall x Hx) as [Sx Cx], (Hall y Hy) as [Sy _].
    destruct H as [(_ & _ & g & c & Hc & _)|[Hs _]]; [rewrite Cx in Hc; by apply not_elem_of_nil in Hc|lia]. }
  intros x y [u v E|u v w E _]; by destruct (Hn _ _ E).
Qed.

Lemma sequencing_check_spec_witness :
  let tx := OrderExample.tx [OrderExample.caller; OrderExample.callee true] in
  contracts_once tx /\ sequenced tx /\ spec_causal (tx_nodes tx).
Proof.
  cbv zeta. pose proof OrderExample.ordered as [Hs _]%andb_true_iff. set (tx := OrderExample.tx _) in *.
  destruct (sequencing_check tx) as [[]|] eqn:Es; [|discriminate Hs]. destruct (sequencing_check_spec tx) as (H1 & H2 & H3).
  split; [|split; [apply H1, Es|apply H2, Es]].
  intros segment i j k a b Hi Ha Hb E.
  assert (Hall : map_Forall (fun _ i => Forall (fun x : Z * ContractCall => Forall (fun y : Z * ContractCall =>
    call_address x.2 = call_address y.2 -> x.1 = y.1) (as_indexed (intent_calls i))) (as_indexed (intent_calls i))) (intents tx)).
  { apply (bool_decide_unpack _). vm_compute. exact I. }
  specialize (Hall _ _ Hi). cbn beta in Hall. rewrite Forall_forall in Hall. specialize (Hall _ Ha). rewrite Forall_forall in Hall.
  exact (Hall _ Hb E).
Defined.

Lemma calls_complete_witness :
  exists y, y ∈ tx_nodes (OrderExample.tx [OrderExample.caller; OrderExample.callee true]) /\ segment_id y.1 = 1 /\ 0 < call_index y.1 /\
    has_transcript true y.2 = true /\ has_transcript false y.2 = false.
Proof.
  pose proof OrderExample.ordered as [Hs He]%andb_true_iff. set (tx := OrderExample.tx _) in *.
  destruct (sequencing_check tx) as [[]|] eqn:Es; [|discriminate Hs]. destruct (effects_check tx) as [[]|] eqn:Ee; [|discriminate He].
  destruct (calls_complete (@LedgerApplyExample.iter_perm) tx (mkCallNode 1 (replicate 32 3) 0, OrderExample.caller) OrderExample.claimed true Ee Es)
    as (y & Hy & Hys & _ & Hyi & Ht & Hf & _).
  - apply elem_of_tx_nodes. eexists. split; [apply lookup_insert_eq|]. split; [|reflexivity]. apply elem_of_as_indexed. split; [done|reflexivity].
  - apply (bool_decide_unpack _). vm_compute. exact I.
  - exists y. exact (conj Hy (conj Hys (conj Hyi (conj Ht Hf)))).
Defined.
