(* ===== verification/Verify.v ===== *)
(** * Well-formed transactions

    [Transaction::well_formed] of [ledger/src/verify.rs] with the parts it calls:
    the checks of unshielded offers, intents, contract actions and Dust actions,
    and the checks of a transaction as a whole, of which [Balance] and
    [Sequencing] have the larger ones.  The result is the [VerifiedTransaction]
    that the ledger applies.

    Transactions are sealed ones, with proofs and signatures; the rest of the
    development erases these.  The state is behind the interface of the trait
    [StateReference], with two instances: a ledger state, and a pair of states for
    a transaction that was checked before.

    The primitives are collected in the class [Crypto]: verification of signatures
    and proofs, the orders of keys and coins, and the bytes that are signed. *)

From S2P Require Import Prelude Serialize MerkleTree Storage Pedersen Cost DeltaTracking VmCost Fab OnchainVm ZswapMemo Repr Coins.
From S2P Require Import Runtime ZswapOffer ZswapLedger Intents Dust LedgerData TxCost Ledger Supply LedgerApply Balance Sequencing.
From stdpp Require Import gmap strings sorting.

Local Open Scope Z_scope.

#[export] Instance MaintenanceVerifyingKey_eq_dec : EqDecision MaintenanceVerifyingKey.
Proof. solve_decision. Defined.
#[export] Instance Authority_eq_dec : EqDecision ContractMaintenanceAuthority.
Proof. solve_decision. Defined.
#[export] Instance DustParameters_eq_dec : EqDecision DustParameters.
Proof. solve_decision. Defined.
#[export] Instance RunningCost_eq_dec : EqDecision RunningCost.
Proof. solve_decision. Defined.
#[export] Instance SyntheticCost_eq_dec : EqDecision SyntheticCost.
Proof. solve_decision. Defined.
#[export] Instance FeePrices_eq_dec : EqDecision FeePrices.
Proof. solve_decision. Defined.
#[export] Instance CostModel_eq_dec : EqDecision CostModel.
Proof. solve_decision. Defined.
#[export] Instance TransactionCostModel_eq_dec : EqDecision TransactionCostModel.
Proof. solve_decision. Defined.
#[export] Instance TransactionLimits_eq_dec : EqDecision TransactionLimits.
Proof. solve_decision. Defined.
#[export] Instance LedgerParameters_eq_dec : EqDecision LedgerParameters.
Proof. solve_decision. Defined.
#[export] Instance RcMap_eq_dec {Hash} `{Countable Hash} : EqDecision (RcMap Hash).
Proof. solve_decision. Defined.

(** ** Strictness *)

(** Proofs are verified, not mocked. *)
Record WellFormedStrictness := mkStrictness {
  enforce_balancing : bool;
  verify_native_proofs : bool;
  verify_contract_proofs : bool;
  verify_signatures : bool;
  enforce_limits : bool
}.
Definition WellFormedStrictness_default : WellFormedStrictness := mkStrictness true true true true true.

(** ** Orders *)

Definition lex (c d : comparison) : comparison := match c with Datatypes.Eq => d | _ => c end.
Fixpoint bytes_cmp (a b : list Z) : comparison :=
  match a, b with
  | [], [] => Datatypes.Eq
  | [], _ :: _ => Datatypes.Lt
  | _ :: _, [] => Datatypes.Gt
  | x :: a', y :: b' => lex (x ?= y) (bytes_cmp a' b')
  end.
Definition is_sorted {A} (cmp : A -> A -> comparison) (l : list A) : bool :=
  all_adjacent (fun x y => match cmp x y with Datatypes.Gt => false | _ => true end) l.

(** Elements are inserted into a set one by one. *)
Fixpoint no_duplicates_in {A} `{EqDecision A} (uniq l : list A) : bool :=
  match l with [] => true | x :: l' => negb (bool_decide (x ∈ uniq)) && no_duplicates_in (x :: uniq) l' end.
Definition no_duplicates {A} `{EqDecision A} (l : list A) : bool := no_duplicates_in [] l.

(** A check of each element, which may panic. *)
Fixpoint for_each {E A} (f : A -> outcome E unit) (l : list A) : outcome E unit :=
  match l with [] => Ret tt | x :: l' => _ ← f x; for_each f l' end.

(** ** Primitives *)

Class Crypto `{Prims} := {
  pedersen_group :: AbelianGroup Pedersen;
  pedersen_eq_dec :: EqDecision Pedersen;
  ciphertext_eq_dec :: EqDecision CoinCiphertext;
  (** Signatures of users and of committees, and the order of keys. *)
  Signature : Type;
  signature_verify : list Z -> SignatureVerifyingKey -> Signature -> bool;
  committee_verify : MaintenanceVerifyingKey -> list Z -> list Z -> bool;
  vk_cmp : SignatureVerifyingKey -> SignatureVerifyingKey -> comparison;
  (** Proofs, verified with a key against public inputs, in both versions. *)
  Proof : Type;
  proof_eq_dec :: EqDecision Proof;
  verify_v2 : list Z -> Proof -> list Z -> bool;
  verify_v3 : list Z -> Proof -> list Z -> bool;
  SPEND_VK : list Z;
  (** Shielded offers. *)
  spend_verify : Proof -> list Z -> bool;
  output_verify : Proof -> list Z -> bool;
  memo_domain_sep : Z;
  ciphertext_to_field : CoinCiphertext -> Z;
  input_statement : list Z -> Pedersen -> option (list Z) -> Z -> Z -> list Z;
  output_statement : list Z -> Pedersen -> option (list Z) -> Z -> list Z;
  input_le : relation (@Input Pedersen Proof);
  input_le_dec :: RelDecision input_le;
  output_le : relation (@Output Pedersen Proof CoinCiphertext);
  output_le_dec :: RelDecision output_le;
  transient_le : relation (@Transient Pedersen Proof CoinCiphertext);
  transient_le_dec :: RelDecision transient_le;
  (** The embedded curve. *)
  hash_to_curve : list Z -> Z -> Pedersen;
  generator : Pedersen;
  schnorr_challenge : Pedersen -> Pedersen -> list Z -> Z;
  (** Serialized data: what is signed, and the public inputs of proofs. *)
  data_to_sign : LedgerIntent -> Z -> list Z;
  claim_data_to_sign : ClaimRewardsTransaction -> list Z;
  update_data_to_sign : MaintenanceUpdate -> list Z;
  challenge_pre_for : LedgerIntent -> Z -> list Z;
  binding_input : ContractCall -> Pedersen -> Z;
  op_field_repr : Op Z AlignedValue -> list Z;
  dust_public_inputs : DustParameters -> Z -> Z -> @DustSpend unit -> Timestamp -> Z -> Pedersen -> list Z
}.

Section transactions.
Context `{CR : Crypto}.

#[export] Instance Input_eq_dec : EqDecision (@Input Pedersen Proof).
Proof. solve_decision. Defined.
#[export] Instance Output_eq_dec : EqDecision (@Output Pedersen Proof CoinCiphertext).
Proof. solve_decision. Defined.
#[export] Instance UtxoSpend_eq_dec : EqDecision (@UtxoSpend SignatureVerifyingKey).
Proof. solve_decision. Defined.

(** ** Transactions with proofs and signatures *)

Inductive ProofVersioned := PV2 (proof : Proof) | PV3 (proof : Proof).

(** An intent, with the signatures of its unshielded offers, the proofs of its
    actions and of its Dust spends and the signatures of its Dust registrations,
    by position. *)
Record ProvenIntent := mkProvenIntent {
  body : @Intent SignatureVerifyingKey unit unit ContractAction (@PureGeneratorPedersen Pedersen);
  guaranteed_signatures : list Signature;
  fallible_signatures : list Signature;
  call_proof : nat -> ProofVersioned;
  dust_proof : nat -> Proof;
  registration_signature : nat -> option Signature
}.
Definition ProvenOffer : Type := @Offer Pedersen Proof CoinCiphertext (list Z).

Record ProvenStandard := mkProvenStandard {
  pr_network_id : string;
  pr_intents : gmap Z ProvenIntent;
  pr_guaranteed_coins : option ProvenOffer;
  pr_fallible_coins : gmap Z ProvenOffer;
  pr_binding_randomness : Z
}.
Inductive ProvenTransaction :=
| ProvenStd (stx : ProvenStandard)
| ProvenClaim (claim : ClaimRewardsTransaction) (signature : Signature).

(** [erase_proofs] and [erase_signatures]. *)
Definition erase_intent (self : ProvenIntent) : LedgerIntent :=
  let i := body self in
  mkIntent (guaranteed_unshielded_offer i) (fallible_unshielded_offer i) (actions i) (dust_actions i) (ttl i) (Pedersen.commitment (binding_commitment i)).
Definition erase_offer (self : ProvenOffer) : ZswapOffer :=
  mkOffer
    ((fun i => mkInput (in_nullifier i) (in_value_commitment i) (in_contract_address i) (in_merkle_tree_root i) (in_memo i) tt) <$> inputs self)
    ((fun o => mkOutput (out_coin_com o) (out_value_commitment o) (out_contract_address o) (out_ciphertext o) tt) <$> outputs self)
    ((fun t => mkTransient (tr_nullifier t) (tr_coin_com t) (tr_value_commitment_input t) (tr_value_commitment_output t)
                 (tr_contract_address t) (tr_ciphertext t) tt tt) <$> transient self)
    (deltas self).
Definition erase_standard (self : ProvenStandard) : StandardTransaction :=
  mkStandardTransaction (pr_network_id self) (erase_intent <$> pr_intents self) (erase_offer <$> pr_guaranteed_coins self)
    (erase_offer <$> pr_fallible_coins self) (pr_binding_randomness self).
Definition erase (self : ProvenTransaction) : Transaction :=
  match self with ProvenStd stx => Standard (erase_standard stx) | ProvenClaim claim _ => ClaimRewards claim end.
End transactions.

(** ** The state that is consulted *)

Section reference.
Context `{P : Prims}.
Local Abbreviation checked := (outcome MalformedTransaction).
Local Abbreviation generationless_fee_availability := (generationless_fee_availability persistent_hash user_address).

(** The trait [StateReference].  Checks are passed as functions; a check that
    computes a value is given the value that it has when it is skipped. *)
Class StateReference (R : Type) := {
  stateless_check : R -> checked unit -> checked unit;
  param_check : forall A, R -> A -> bool -> (LedgerParameters -> checked A) -> checked A;
  op_check : R -> ContractAddress -> EntryPointBuf -> (ContractOperation -> checked unit) -> checked unit;
  maintenance_check : R -> ContractAddress -> (ContractMaintenanceAuthority -> checked unit) -> checked unit;
  generationless_fee_availability_check : R -> LedgerIntent -> SignatureVerifyingKey -> (Z -> checked unit) -> checked unit;
  dust_spend_check : R -> Timestamp -> (DustParameters -> Z -> Z -> checked unit) -> checked unit;
  fees_check : forall A, R -> ((ContractAddress -> EntryPointBuf -> option ContractOperation) -> checked A) -> checked A;
  network_check : R -> string -> checked unit
}.

Definition get_op (state : LedgerState) (address : ContractAddress) (entry_point : EntryPointBuf) : checked ContractOperation :=
  match index state address with
  | None => Fail (MContractNotPresent address)
  | Some cstate =>
      match operations cstate !! entry_point with
      | Some op => Ret op
      | None => Fail (VerifierKeyNotPresent address entry_point)
      end
  end.
Definition get_authority (state : LedgerState) (address : ContractAddress) : checked ContractMaintenanceAuthority :=
  match index state address with
  | None => Fail (MContractNotPresent address)
  | Some cstate => Ret (maintenance_authority cstate)
  end.
Definition operation_of (state : LedgerState) (address : ContractAddress) (entry_point : EntryPointBuf) : option ContractOperation :=
  cstate ← index state address; operations cstate !! entry_point.
(** The parameters and the roots at a time. *)
Definition dust_reference (state : LedgerState) (ctime : Timestamp) : DustParameters * Z * Z :=
  (dust_parameters (parameters state),
   default 0 (TimeFilterMap_get (utxo_root_history (utxo (dust state))) ctime),
   default 0 (TimeFilterMap_get (generation_root_history (generation (dust state))) ctime)).
Definition check_network (state : LedgerState) (network : string) : checked unit :=
  if decide (ls_network_id state = network) then Ret tt else Fail (InvalidNetworkId (ls_network_id state) network).

#[export] Instance LedgerState_reference : StateReference LedgerState := {
  stateless_check _ check := check;
  param_check _ self _ _ check := check (parameters self);
  op_check self address entry_point check := op ← get_op self address entry_point; check op;
  maintenance_check self address check := authority ← get_authority self address; check authority;
  generationless_fee_availability_check self parent_intent night_key check :=
    check (generationless_fee_availability (dust self) (ls_utxo self) parent_intent night_key (dust_parameters (parameters self)));
  dust_spend_check self ctime check :=
    let '(params, commitment_root, generation_root) := dust_reference self ctime in check params commitment_root generation_root;
  fees_check _ self check := check (operation_of self);
  network_check self network := check_network self network
}.

Record RevalidationReference := mkRevalidation {
  previously_validated_state : LedgerState;
  new_state : LedgerState
}.

(** What was checked against the old state is only checked again if it differs. *)
#[export] Instance RevalidationReference_reference : StateReference RevalidationReference := {
  stateless_check _ _ := Ret tt;
  param_check _ self initial always check :=
    if always || bool_decide (parameters (previously_validated_state self) <> parameters (new_state self))
    then check (parameters (new_state self)) else Ret initial;
  op_check self address entry_point check :=
    old_op ← get_op (previously_validated_state self) address entry_point;
    new_op ← get_op (new_state self) address entry_point;
    if decide (old_op = new_op) then Ret tt else check new_op;
  maintenance_check self address check :=
    auth_old ← get_authority (previously_validated_state self) address;
    auth_new ← get_authority (new_state self) address;
    if decide (auth_old = auth_new) then Ret tt else check auth_new;
  generationless_fee_availability_check self parent_intent night_key check :=
    let st := new_state self in
    check (generationless_fee_availability (dust st) (ls_utxo st) parent_intent night_key (dust_parameters (parameters st)));
  dust_spend_check self ctime check :=
    let '(params, commitment_root, generation_root) := dust_reference (new_state self) ctime in
    if decide (dust_reference (previously_validated_state self) ctime = (params, commitment_root, generation_root)) then Ret tt
    else check params commitment_root generation_root;
  fees_check _ self check := check (operation_of (new_state self));
  network_check self network := check_network (new_state self) network
}.
End reference.

(** ** Contracts *)

Section wellformed.
Context `{CR : Crypto} {HS : Hashes}.
Context {R : Type} {SR : StateReference R}.
Local Abbreviation checked := (outcome MalformedTransaction).
Local Abbreviation transient_hash2 := (fun a b => transient_hash [a; b]).
Local Abbreviation degrade := (degrade_to_transient modulus).
Implicit Types ref_state : R.

Definition ContractOperation_well_formed (self : ContractOperation) (address : ContractAddress) (operation : EntryPointBuf)
  : result MalformedTransaction unit :=
  match v2 self, v3 self with
  | None, None => Err (VerifierKeyNotSet address operation)
  | _, _ => Ok tt
  end.
Definition ContractState_well_formed (self : ContractState) (address : ContractAddress) : result MalformedTransaction unit :=
  _ ← try_for_each (fun a => ContractOperation_well_formed a.2 address a.1) (map_iter (operations self));
  if negb (counter (maintenance_authority self) =? 0) then Err MNotNormalized else Ok tt.

(** The charged state is rebuilt from the value, so that only the keys can differ. *)
Definition Deploy_well_formed (self : ContractDeploy) ref_state : checked unit :=
  let st := initial_state self in
  _ ← of_result (ContractState_well_formed st (deploy_address self));
  if existsb (fun bal => 0 <? bal.2) (map_iter (balance st)) then Fail (MMalformedContractDeploy (NonZeroBalance (balance st)))
  else
    rechecked_state ← ChargedState_new state_key arena arena_hash_size traversal_bound (cs_state (data st));
    if decide (cs_charged_keys rechecked_state <> cs_charged_keys (data st)) then Fail (MMalformedContractDeploy IncorrectChargedState)
    else
      param_check _ ref_state tt false (fun params =>
        let limit := max_contract_metadata_size (limits params) in
        match check_entry_point_metadata_sizes st limit with
        | Ok _ => Ret tt
        | Err (EntryPointSize entry_point size) => Fail (MMalformedContractDeploy (MetadataTooLarge entry_point size limit))
        | Err (AuthoritySize size) => Fail (MMalformedContractDeploy (AuthorityMetadataTooLarge size limit))
        end).

Definition check_signature (strictness : WellFormedStrictness) (upd : MaintenanceUpdate) (authority : ContractMaintenanceAuthority)
  (entry : Z * list Z) : result MalformedTransaction unit :=
  match committee authority !! Z.to_nat entry.1 with
  | None => Err (KeyNotInCommittee (upd_address upd) entry.1)
  | Some vk =>
      if verify_signatures strictness && negb (committee_verify vk (update_data_to_sign upd) entry.2)
      then Err (InvalidCommitteeSignature (upd_address upd) entry.1) else Ok tt
  end.
Definition new_authorities (upd : MaintenanceUpdate) : list ContractMaintenanceAuthority :=
  omap (fun up => match up with ReplaceAuthority new_auth => Some new_auth | _ => None end) (updates upd).
Definition Maintenance_well_formed (self : MaintenanceUpdate) ref_state (strictness : WellFormedStrictness) : checked unit :=
  maintenance_check ref_state (upd_address self) (fun authority =>
    if negb (all_adjacent (fun x y => x.1 <? y.1) (upd_signatures self)) then Fail MNotNormalized
    else if existsb (fun auth => negb (counter auth =? sat_add 32 (upd_counter self) 1)) (new_authorities self) then Fail MNotNormalized
    else
      _ ← of_result (try_for_each (check_signature strictness self authority) (upd_signatures self));
      if zlen (upd_signatures self) <? threshold authority
      then Fail (ThresholdMissed (upd_address self) (zlen (upd_signatures self)) (threshold authority)) else Ret tt).

(** A proof is verified with the key of its version. *)
Definition call_proof_verify (op : ContractOperation) (proof : ProofVersioned) (pis : list Z) (address : ContractAddress) (entry_point : EntryPointBuf)
  : result MalformedTransaction unit :=
  let '(vk, valid) := match proof with
                      | PV2 p => (v2 op, fun vk => verify_v2 vk p pis)
                      | PV3 p => (v3 op, fun vk => verify_v3 vk p pis)
                      end in
  match vk with
  | None => Err (VerifierKeyNotPresent address entry_point)
  | Some vk => if valid vk then Ok tt else Err MInvalidProof
  end.

Definition public_inputs (self : ContractCall) (binding_com : Pedersen) : list Z :=
  binding_input self binding_com :: communication_commitment self ::
  (from_option tr_program [] (guaranteed_transcript self) ≫= op_field_repr) ++ (from_option tr_program [] (fallible_transcript self) ≫= op_field_repr).

Definition is_noop (op : Op Z AlignedValue) : bool := match op with Noop _ => true | _ => false end.
Definition is_ckpt (op : Op Z AlignedValue) : bool := match op with Ckpt => true | _ => false end.
Definition version_ok (t : Transcript) : bool :=
  match tr_version t with Some (major, minor) => (major =? 2) && (minor <=? 3) | None => false end.

Definition Call_well_formed (self : ContractCall) (proof : ProofVersioned) ref_state (strictness : WellFormedStrictness) (parent : LedgerIntent)
  : checked unit :=
  if from_option (fun fallible => negb (from_option is_ckpt false (head (tr_program fallible))) && bool_decide (is_Some (guaranteed_transcript self)))
       false (fallible_transcript self)
  then Fail FallibleWithoutCheckpoint
  else if existsb (fun transcript => negb (all_adjacent (fun x y => negb (is_noop x && is_noop y)) (tr_program transcript)))
            (option_list (guaranteed_transcript self) ++ option_list (fallible_transcript self))
  then Fail MNotNormalized
  else if verify_contract_proofs strictness
  then op_check ref_state (call_address self) (call_entry_point self) (fun op =>
         if bool_decide (is_Some (v2 op)) && negb (from_option version_ok true (guaranteed_transcript self)) then Fail GuaranteedTranscriptVersion
         else if bool_decide (is_Some (v2 op)) && negb (from_option version_ok true (fallible_transcript self)) then Fail FallibleTranscriptVersion
         else of_result (call_proof_verify op proof (public_inputs self (binding_commitment parent)) (call_address self) (call_entry_point self)))
  else Ret tt.

Definition Action_well_formed (self : ContractAction) (proof : ProofVersioned) ref_state (strictness : WellFormedStrictness) (parent : LedgerIntent)
  : checked unit :=
  match self with
  | Call call => Call_well_formed call proof ref_state strictness parent
  | Deploy deploy => Deploy_well_formed deploy ref_state
  | Maintain upd => Maintenance_well_formed upd ref_state strictness
  end.

(** ** Dust *)

(** [Proof] converts to a [ProofVersioned] of the second version. *)
Definition Spend_well_formed (self : @DustSpend unit) (proof : Proof) ref_state (segment_id : Z) (binding : Pedersen)
  (strictness : WellFormedStrictness) (ctime : Timestamp) : checked unit :=
  if verify_native_proofs strictness
  then dust_spend_check ref_state ctime (fun params commitment_root generation_root =>
         let pis := dust_public_inputs params commitment_root generation_root self ctime segment_id binding in
         match call_proof_verify (mkContractOperation (Some SPEND_VK) None None) (PV2 proof) pis (replicate 32 0) [] with
         | Ok _ => Ret tt
         | Err _ => Fail (InvalidDustSpendProof ctime self)
         end)
  else Ret tt.

Definition Registration_well_formed (self : @DustRegistration SignatureVerifyingKey unit) (signature : option Signature) (segment_id : Z)
  (parent : LedgerIntent) (strictness : WellFormedStrictness) : result MalformedTransaction unit :=
  if negb (verify_signatures strictness) || from_option (signature_verify (data_to_sign parent segment_id) (night_key self)) false signature
  then Ok tt else Err (InvalidDustRegistrationSignature self).

(** The first key that occurs twice in the sorted keys. *)
Fixpoint adjacent_equal (keys : list SignatureVerifyingKey) : option SignatureVerifyingKey :=
  match keys with
  | a :: ((b :: _) as keys') => if decide (a = b) then Some a else adjacent_equal keys'
  | _ => None
  end.
Definition vk_le (a b : SignatureVerifyingKey) : Prop := vk_cmp a b <> Datatypes.Gt.
#[export] Instance vk_le_dec : RelDecision vk_le.
Proof. unfold vk_le. intros a b. apply _. Defined.

Definition DustActions_well_formed (self : @DustActions SignatureVerifyingKey unit unit) (proofs : nat -> Proof)
  (signatures : nat -> option Signature) ref_state (strictness : WellFormedStrictness) (segment_id : Z) (parent : LedgerIntent)
  (tblock : Timestamp) : checked unit :=
  match spends self, registrations self with
  | [], [] => Fail MNotNormalized
  | _, _ =>
    _ ← for_each (fun s : nat * _ => Spend_well_formed s.2 (proofs s.1) ref_state segment_id (binding_commitment parent) strictness (da_ctime self))
          (imap pair (spends self));
    _ ← for_each (fun r : nat * _ => stateless_check ref_state (of_result (Registration_well_formed r.2 (signatures r.1) segment_id parent strictness)))
          (imap pair (registrations self));
    _ ← param_check _ ref_state tt true (fun params =>
          let grace_period := dust_grace_period (dust_parameters params) in
          if (tblock <? da_ctime self) || (Timestamp_add_duration (da_ctime self) grace_period <? tblock)
          then Fail (OutOfDustValidityWindow (da_ctime self) (Timestamp_sub_duration tblock grace_period) tblock) else Ret tt);
    _ ← stateless_check ref_state
          (match adjacent_equal (merge_sort vk_le (night_key <$> registrations self)) with
           | Some key => Fail (MultipleDustRegistrationsForKey key)
           | None => Ret tt
           end);
    if enforce_balancing strictness
    then for_each (fun reg => generationless_fee_availability_check ref_state parent (night_key reg) (fun available =>
           if available <? allow_fee_payment reg then Fail (InsufficientDustForRegistrationFee reg available) else Ret tt))
           (filter (fun reg => 0 < allow_fee_payment reg) (registrations self))
    else Ret tt
  end.

(** ** Intents *)

Definition spend_cmp (a b : @UtxoSpend SignatureVerifyingKey) : comparison :=
  lex (spend_value a ?= spend_value b) (lex (vk_cmp (spend_owner a) (spend_owner b)) (lex (bytes_cmp (spend_type a) (spend_type b))
    (lex (bytes_cmp (spend_intent_hash a) (spend_intent_hash b)) (spend_output_no a ?= spend_output_no b)))).
Definition output_cmp (a b : UtxoOutput) : comparison :=
  lex (output_value a ?= output_value b) (lex (bytes_cmp (output_owner a) (output_owner b)) (bytes_cmp (output_type a) (output_type b))).

(** The check of the form returns the check of the signatures. *)
Definition UnshieldedOffer_well_formed (self : @UnshieldedOffer SignatureVerifyingKey) (signatures : list Signature) (segment_id : Z)
  (parent : LedgerIntent) : result MalformedTransaction (unit -> result MalformedTransaction unit) :=
  let ins := uo_inputs self in
  let outs := uo_outputs self in
  if negb (is_sorted spend_cmp ins) then Err (InputsNotSorted ins)
  else if negb (is_sorted output_cmp outs) then Err (OutputsNotSorted outs)
  else match head (filter (fun o => output_value o = 0) outs) with
  | Some o => Err (ZeroValueUtxo o)
  | None =>
      if negb (no_duplicates ins) then Err (DuplicateInputs ins)
      else
        let verify_input := data_to_sign parent segment_id in
        Ok (fun _ =>
          if negb (length ins =? length signatures)%nat then Err (InputsSignaturesLengthMismatch ins (zlen signatures))
          else try_for_each (fun entry : _ * Signature =>
                 if signature_verify verify_input (spend_owner entry.1) entry.2 then Ok tt else Err IntentSignatureVerificationFailure) (zip ins signatures))
  end.
(** Of a sealed transaction. *)
Definition when_sealed (f : result MalformedTransaction (unit -> result MalformedTransaction unit)) : result MalformedTransaction unit :=
  match f with Ok f => f tt | Err e => Err e end.
Definition optional {A} (f : A -> result MalformedTransaction unit) (o : option A) : result MalformedTransaction unit :=
  match o with Some a => f a | None => Ok tt end.
Definition binding_valid (self : @PureGeneratorPedersen Pedersen) (challenge_pre : list Z) : result MalformedTransaction unit :=
  if PureGeneratorPedersen_valid generator schnorr_challenge self challenge_pre then Ok tt else Err InvalidSchnorrProof.

Definition Intent_well_formed (self : ProvenIntent) (segment_id : Z) ref_state (strictness : WellFormedStrictness) (tblock : Timestamp)
  : checked unit :=
  if segment_id =? GUARANTEED_SEGMENT then Fail IntentAtGuaranteedSegmentId
  else
    let erased := erase_intent self in
    _ ← stateless_check ref_state (of_result (
          _ ← optional (fun offer => when_sealed (UnshieldedOffer_well_formed offer (guaranteed_signatures self) segment_id erased))
                (guaranteed_unshielded_offer (body self));
          _ ← optional (fun offer => when_sealed (UnshieldedOffer_well_formed offer (fallible_signatures self) segment_id erased))
                (fallible_unshielded_offer (body self));
          binding_valid (binding_commitment (body self)) (challenge_pre_for erased segment_id)));
    _ ← for_each (fun a : nat * _ => Action_well_formed a.2 (call_proof self a.1) ref_state strictness erased) (imap pair (actions (body self)));
    match dust_actions (body self) with
    | Some da => DustActions_well_formed da (dust_proof self) (registration_signature self) ref_state strictness segment_id erased tblock
    | None => Ret tt
    end.

(** ** Transactions *)

Definition shielded_offers (self : ProvenStandard) : list ProvenOffer := option_list (pr_guaranteed_coins self) ++ (map_iter (pr_fallible_coins self)).*2.

Definition disjoint_step (acc : list (@Input Pedersen Proof) * list (@Output Pedersen Proof CoinCiphertext)) (offer : ProvenOffer)
  : checked (list (@Input Pedersen Proof) * list (@Output Pedersen Proof CoinCiphertext)) :=
  transient_inputs ← try_fold_o (fun l t => match Transient_as_input 0 transient_hash2 degrade t with Ret i => Ret (l ++ [i]) | _ => Panic end) [] (transient offer);
  let ins := inputs offer ++ transient_inputs in
  let outs := outputs offer ++ (Transient_as_output <$> transient offer) in
  if negb (is_disjoint acc.1 ins) then Fail (DisjointCheckFailure ShieldedInputsDisjointFailure)
  else if negb (is_disjoint acc.2 outs) then Fail (DisjointCheckFailure ShieldedOutputsDisjointFailure)
  else Ret (acc.1 ++ ins, acc.2 ++ outs).
Definition unshielded_offers (self : ProvenStandard) : list (option (@UnshieldedOffer SignatureVerifyingKey)) :=
  map_iter (pr_intents self) ≫= fun si => [guaranteed_unshielded_offer (body si.2); fallible_unshielded_offer (body si.2)].
Definition unshielded_step (acc : list (@UtxoSpend SignatureVerifyingKey)) (offer : option (@UnshieldedOffer SignatureVerifyingKey))
  : checked (list (@UtxoSpend SignatureVerifyingKey)) :=
  let ins := from_option uo_inputs [] offer in
  if negb (is_disjoint acc ins) then Fail (DisjointCheckFailure UnshieldedInputsDisjointFailure) else Ret (acc ++ ins).
(** Proofs are part of the inputs and outputs that are compared. *)
Definition disjoint_check (self : ProvenStandard) : checked unit :=
  _ ← try_fold_o disjoint_step ([], []) (shielded_offers self);
  _ ← try_fold_o unshielded_step [] (unshielded_offers self);
  Ret tt.

Definition offer_commitments (offer : ZswapOffer) : list Pedersen :=
  (in_value_commitment <$> inputs offer) ++ ((fun o => gneg (out_value_commitment o)) <$> outputs offer) ++
  (tr_value_commitment_input <$> transient offer) ++ ((fun t => gneg (tr_value_commitment_output t)) <$> transient offer).
Definition pedersen_check (self : StandardTransaction) : result MalformedTransaction unit :=
  let comm_parts := ((fun si : Z * LedgerIntent => binding_commitment si.2) <$> map_iter (intents self)) ++
    ((option_list (guaranteed_coins self) ++ (map_iter (fallible_coins self)).*2) ≫= offer_commitments) in
  let comm := foldl gadd gzero comm_parts in
  balances ← balance_maybe_deltas_only self None true;
  let expected := foldl gadd (zmul (binding_randomness self) generator)
    (omap (fun kv : (TokenType * Z) * Z => match kv.1.1 with Shielded tt_ => Some (zmul kv.2 (hash_to_curve tt_ kv.1.2)) | _ => None end) (map_to_list balances)) in
  if decide (comm <> expected) then Err (PedersenCheckFailure expected comm) else Ok tt.

Definition ttl_check_weak (self : StandardTransaction) (tblock : Timestamp) (global_ttl : Duration) : result TransactionApplicationError unit :=
  try_for_each (fun si : Z * LedgerIntent =>
    if ttl si.2 <? tblock then Err (IntentTtlExpired (ttl si.2) tblock)
    else if Timestamp_add_duration tblock global_ttl <? ttl si.2
    then Err (IntentTtlTooFarInFuture (ttl si.2) (Timestamp_add_duration tblock global_ttl)) else Ok tt) (map_iter (intents self)).

Definition token_lt (a b : list Z) : Prop := bytes_cmp a b = Datatypes.Lt.
#[export] Instance token_lt_dec : RelDecision token_lt.
Proof. unfold token_lt. intros a b. apply _. Defined.

Definition zswap_well_formed (offer : ProvenOffer) (segment : Z) : checked unit :=
  match Offer_well_formed 0 transient_hash2 degrade modulus memo_domain_sep transient_hash ciphertext_to_field input_statement output_statement
          spend_verify output_verify token_lt input_le output_le transient_le hash_to_curve generator offer segment with
  | Ret _ => Ret tt
  | Fail e => Fail (MZswap e)
  | Panic => Panic
  end.

(** The checks that need no state. *)
Definition stateless_checks (stx : ProvenStandard) : checked unit :=
  _ ← (match pr_guaranteed_coins stx with Some offer => zswap_well_formed offer GUARANTEED_SEGMENT | None => Ret tt end);
  _ ← for_each (fun so : Z * ProvenOffer =>
        if so.1 =? GUARANTEED_SEGMENT then Fail IllegallyDeclaredGuaranteed else zswap_well_formed so.2 so.1) (map_iter (pr_fallible_coins stx));
  _ ← disjoint_check stx;
  _ ← of_result (map_err EffectsCheckFailure (effects_check (erase_standard stx)));
  _ ← of_result (map_err SequencingCheckFailure (sequencing_check (erase_standard stx)));
  of_result (pedersen_check (erase_standard stx)).
End wellformed.

(** Sizes and hashes of serialized transactions. *)
Class Serialized `{Crypto} := {
  serialized_size : ProvenTransaction -> Z;
  transaction_hash : ProvenTransaction -> list Z
}.

Section transaction.
Context `{CR : Crypto} {HS : Hashes} {CI : CostInputs} {SZ : Serialized}.
Context {R : Type} {SR : StateReference R}.
Local Abbreviation checked := (outcome MalformedTransaction).
Implicit Types ref_state : R.

Definition fees_balanced (stx : StandardTransaction) ref_state (strictness : WellFormedStrictness) : checked Z :=
  param_check _ ref_state 0 true (fun params => fees_check _ ref_state (fun get_op =>
    fees ← (match fees_with_impl (Standard stx) params get_op true with
            | Ok fees => Ret fees
            | Err e => if enforce_balancing strictness then Fail (FeeCalculation e) else Ret 0
            end);
    _ ← of_result (balancing_check (enforce_balancing strictness) stx fees);
    Ret fees)).

Definition standard_well_formed (stx : ProvenStandard) ref_state (strictness : WellFormedStrictness) (tblock : Timestamp) : checked Z :=
  let erased := erase_standard stx in
  _ ← network_check ref_state (pr_network_id stx);
  _ ← param_check _ ref_state tt true (fun params => of_result (map_err MTransactionApplicationError (ttl_check_weak erased tblock (global_ttl params))));
  _ ← stateless_check ref_state (stateless_checks stx);
  fees ← fees_balanced erased ref_state strictness;
  _ ← for_each (fun si : Z * ProvenIntent =>
        if si.1 =? GUARANTEED_SEGMENT then Fail IllegallyDeclaredGuaranteed
        else Intent_well_formed si.2 si.1 ref_state strictness tblock) (sorted_iter (pr_intents stx));
  Ret fees.

Definition Claim_well_formed (self : ClaimRewardsTransaction) (signature : Signature) : result MalformedTransaction unit :=
  if signature_verify (claim_data_to_sign self) (claim_owner self) signature then Ok tt else Err IntentSignatureVerificationFailure.

Definition well_formed (self : ProvenTransaction) ref_state (strictness : WellFormedStrictness) (tblock : Timestamp) : checked VerifiedTransaction :=
  _ ← param_check _ ref_state tt false (fun params =>
        if enforce_limits strictness && (transaction_byte_limit (limits params) <? serialized_size self)
        then Fail (TransactionTooLarge (serialized_size self) (transaction_byte_limit (limits params))) else Ret tt);
  match self with
  | ProvenStd stx =>
      fees ← standard_well_formed stx ref_state strictness tblock;
      Ret (mkVerifiedTransaction (erase self) (transaction_hash self) fees)
  | ProvenClaim mtx signature =>
      _ ← network_check ref_state (claim_network_id mtx);
      _ ← stateless_check ref_state (of_result (when_sealed (Ok (fun _ => Claim_well_formed mtx signature))));
      Ret (mkVerifiedTransaction (erase self) (transaction_hash self) 0)
  end.
End transaction.
