(* ===== verification/Merge.v ===== *)
(** * Merging transactions

    [Transaction::merge] of [ledger/src/structure.rs]: two transactions, for
    instance the two sides of a swap, become one.  The intents are put side by
    side, and the shielded offers of a segment are merged.  The theorem says that
    the merged transaction has the balances of both and stays bound together. *)

From S2P Require Import Prelude Serialize MerkleTree Storage Pedersen Cost DeltaTracking VmCost Fab OnchainVm ZswapMemo Repr Coins.
From S2P Require Import Runtime ZswapOffer ZswapLedger Intents Dust LedgerData TxCost Ledger Supply LedgerApply LedgerTheorems Balance Sequencing Verify.
From stdpp Require Import gmap strings sorting.

Local Open Scope Z_scope.

Section merge.
Context `{PR : Prims} {CR : Crypto}.

#[export] Instance Transient_eq_dec : EqDecision (@Transient Pedersen Proof CoinCiphertext).
Proof. solve_decision. Defined.

Definition offer_merge (a b : ProvenOffer) : result MalformedTransaction ProvenOffer :=
  map_err MZswap (Offer_merge token_lt input_le output_le transient_le a b).

Definition merge_intents (a b : gmap Z ProvenIntent) : result MalformedTransaction (gmap Z ProvenIntent) :=
  try_fold (fun (acc : gmap Z ProvenIntent) (kv : Z * ProvenIntent) =>
    if decide (is_Some (acc !! kv.1)) then Err (IntentSegmentIdCollision kv.1) else Ok (<[kv.1 := kv.2]> acc)) ∅ (map_iter a ++ map_iter b).

Definition merge_guaranteed (a b : option ProvenOffer) : result MalformedTransaction (option ProvenOffer) :=
  match a, b with
  | Some gc1, Some gc2 => gc ← offer_merge gc1 gc2; Ok (Some gc)
  | Some gc1, None => Ok (Some gc1)
  | None, gc2 => Ok gc2
  end.

Definition merge_fallible (a b : gmap Z ProvenOffer) : result MalformedTransaction (gmap Z ProvenOffer) :=
  try_fold (fun (res : gmap Z ProvenOffer) (ko : Z * ProvenOffer) =>
    match res !! ko.1 with
    | Some offer1 => o ← offer_merge offer1 ko.2; Ok (<[ko.1 := o]> res)
    | None => Ok (<[ko.1 := ko.2]> res)
    end) a (map_iter b).

(** Scalars are integers: those of the curve's field act like them. *)
Definition merge_standard (a b : ProvenStandard) : result MalformedTransaction ProvenStandard :=
  if decide (pr_network_id a = pr_network_id b) then
    intents ← merge_intents (pr_intents a) (pr_intents b);
    guaranteed_coins ← merge_guaranteed (pr_guaranteed_coins a) (pr_guaranteed_coins b);
    fallible_coins ← merge_fallible (pr_fallible_coins a) (pr_fallible_coins b);
    Ok (mkProvenStandard (pr_network_id a) intents guaranteed_coins fallible_coins (pr_binding_randomness a + pr_binding_randomness b))
  else Err (InvalidNetworkId (pr_network_id a) (pr_network_id b)).

Definition merge (self other : ProvenTransaction) : result MalformedTransaction ProvenTransaction :=
  match self, other with
  | ProvenStd stx1, ProvenStd stx2 => stx ← merge_standard stx1 stx2; Ok (ProvenStd stx)
  | _, _ => Err CantMergeTypes
  end.
End merge.

(** ** Sums over maps *)

Section totals.
Context {G K V : Type} `{Countable K} `{AbelianGroup G}.
Implicit Types (f : K * V -> G) (m : gmap K V).

Definition gtotal f m : G := gsum (f <$> map_to_list m).
Definition gentry f (k : K) (o : option V) : G := from_option (fun v => f (k, v)) gzero o.

Lemma gsum_const_zero {A} (l : list A) : gsum ((fun _ => gzero) <$> l) = (gzero : G).
Proof. induction l as [|x l IH]; [done|]. cbn [fmap list_fmap]. rewrite gsum_cons, gadd_zero_l. exact IH. Qed.
Lemma gsum_same {A} (f g : A -> G) l : (forall x, x ∈ l -> f x = g x) -> gsum (f <$> l) = gsum (g <$> l).
Proof.
  induction l as [|x l IH]; intros Hf; [done|]. cbn [fmap list_fmap]. rewrite !gsum_cons, (Hf x ltac:(left)). f_equal. apply IH. intros y Hy. apply Hf. by right.
Qed.
Lemma gsum_split {A} (f g : A -> G) l : gsum ((fun x => gadd (f x) (g x)) <$> l) = gadd (gsum (f <$> l)) (gsum (g <$> l)).
Proof. induction l as [|x l IH]; cbn [fmap list_fmap]; [symmetry; apply gadd_zero_l|]. rewrite !gsum_cons, IH. apply gadd_swap. Qed.

Lemma gtotal_dom f m (D : gset K) : dom m ⊆ D -> gtotal f m = gsum ((fun k => gentry f k (m !! k)) <$> elements D).
Proof.
  induction m as [|k v m Hk IH] using map_ind; intros HD.
  - unfold gtotal. rewrite map_to_list_empty. cbn [fmap list_fmap]. rewrite (gsum_same _ (fun _ => gzero)); [by rewrite gsum_const_zero|].
    intros k _. by rewrite lookup_empty.
  - rewrite dom_insert in HD. unfold gtotal. rewrite map_to_list_insert by done. cbn [fmap list_fmap]. rewrite gsum_cons.
    fold (gtotal f m). rewrite IH by set_solver. assert (HDk : D = {[k]} ∪ (D ∖ {[k]})).
    { apply set_eq. intros x. destruct (decide (x = k)); set_solver. }
    rewrite HDk, !elements_disj_union by set_solver. rewrite !fmap_app, !gsum_app, elements_singleton. cbn [fmap list_fmap].
    rewrite lookup_insert_eq, Hk. cbn [gentry from_option]. rewrite !gsum_cons. change (gsum []) with (gzero : G). rewrite !gadd_zero_r, gadd_zero_l.
    f_equal. apply gsum_same.
    intros x Hx. rewrite lookup_insert_ne by set_solver. done.
Qed.

(** Two maps and one that has, key by key, what both have. *)
Lemma gtotal_pointwise f (a b m : gmap K V) :
  (forall k, gentry f k (m !! k) = gadd (gentry f k (a !! k)) (gentry f k (b !! k))) -> gtotal f m = gadd (gtotal f a) (gtotal f b).
Proof.
  intros Hp. set (D := dom a ∪ dom b ∪ dom m). rewrite !(gtotal_dom f _ D) by set_solver. rewrite <- gsum_split. apply gsum_same. intros k _. apply Hp.
Qed.
Lemma gtotal_singleton f k v : gtotal f {[k := v]} = f (k, v).
Proof. unfold gtotal. rewrite map_to_list_singleton. cbn [fmap list_fmap]. rewrite gsum_cons. apply gadd_zero_r. Qed.
Lemma gtotal_union f (a b : gmap K V) : a ##ₘ b -> gtotal f (a ∪ b) = gadd (gtotal f a) (gtotal f b).
Proof.
  intros Hd. apply gtotal_pointwise. intros k. rewrite lookup_union. destruct (a !! k) as [x|] eqn:Ea, (b !! k) as [y|] eqn:Eb; cbn.
  - by destruct (map_disjoint_spec a b) as [Hs _]; destruct (Hs Hd k x y).
  - by rewrite gadd_zero_r.
  - by rewrite gadd_zero_l.
  - by rewrite gadd_zero_l.
Qed.
End totals.

(** ** The order of token types *)

Lemma lex_Lt c d : lex c d = Datatypes.Lt <-> c = Datatypes.Lt \/ (c = Datatypes.Eq /\ d = Datatypes.Lt).
Proof. destruct c, d; cbn; naive_solver. Qed.
Lemma bytes_cmp_refl a : bytes_cmp a a = Datatypes.Eq.
Proof. induction a as [|x a IH]; [done|]. cbn. by rewrite Z.compare_refl. Qed.
Lemma bytes_cmp_trans a : forall b c, token_lt a b -> token_lt b c -> token_lt a c.
Proof.
  unfold token_lt. induction a as [|x a IH]; intros [|y b] [|z c]; cbn; try done. rewrite !lex_Lt, !Z.compare_lt_iff, !Z.compare_eq_iff.
  intros [?|[-> Hab]] [?|[-> Hbc]]; [left; lia|by left|by left|right; split; [done|]]. by eapply IH.
Qed.
Lemma bytes_cmp_total a : forall b, token_lt a b \/ a = b \/ token_lt b a.
Proof.
  unfold token_lt. induction a as [|x a IH]; intros [|y b]; cbn; try tauto. rewrite !lex_Lt, !Z.compare_lt_iff, !Z.compare_eq_iff.
  destruct (Z.lt_trichotomy x y) as [?|[->|?]]; [tauto| |tauto]. destruct (IH b) as [?|[->|?]]; tauto.
Qed.
#[export] Instance token_lt_strict : StrictOrder token_lt.
Proof. split; [intros a Ha; unfold token_lt, complement in *; by rewrite bytes_cmp_refl in Ha|intros a b c; apply bytes_cmp_trans]. Qed.
#[export] Instance token_lt_trichotomy : Trichotomy token_lt.
Proof. intros a b. destruct (bytes_cmp_total a b) as [?|[?|?]]; tauto. Qed.

(** ** The parts of a merged transaction *)

Section parts.
Context `{PR : Prims} {CR : Crypto}.

Lemma insert_all_ok (l : list (Z * ProvenIntent)) : forall acc m : gmap Z ProvenIntent,
  try_fold (fun (acc : gmap Z ProvenIntent) (kv : Z * ProvenIntent) =>
    if decide (is_Some (acc !! kv.1)) then Err (IntentSegmentIdCollision kv.1) else Ok (<[kv.1 := kv.2]> acc)) acc l = Ok m ->
  NoDup l.*1 /\ (forall k, k ∈ l.*1 -> acc !! k = None) /\ m = list_to_map l ∪ acc.
Proof.
  induction l as [|[k v] l IH]; intros acc m; cbn [try_fold].
  - intros [= <-]. split_and!; [apply NoDup_nil_2|by intros ? ?%not_elem_of_nil|cbn [list_to_map foldr]; by rewrite (left_id_L ∅ (∪))].
  - cbn [fst snd]. case_decide as Hk; [done|]. apply eq_None_not_Some in Hk. intros (Hn & Hf & ->)%IH. cbn [fmap list_fmap list_to_map fst snd foldr].
    assert (Hkl : k ∉ l.*1). { intros Hin. specialize (Hf k Hin). by rewrite lookup_insert_eq in Hf. }
    split_and!; [by apply NoDup_cons| |].
    + intros k' [->|Hk']%elem_of_cons; [done|]. specialize (Hf k' Hk'). rewrite lookup_insert_ne in Hf by set_solver. done.
    + rewrite <- insert_union_l. rewrite insert_union_r; [done|]. by apply not_elem_of_list_to_map.
Qed.

Lemma merge_intents_ok (Hiter : forall K V `{Countable K} (m : gmap K V), map_iter m ≡ₚ map_to_list m) a b m :
  merge_intents a b = Ok m -> a ##ₘ b /\ m = a ∪ b.
Proof.
  intros (Hn & _ & ->)%insert_all_ok. rewrite (right_id_L ∅ (∪)). rewrite !Hiter in Hn.
  assert (Hd : a ##ₘ b).
  { apply map_disjoint_spec. intros k x y Ha Hb. rewrite fmap_app in Hn. apply NoDup_app in Hn as (_ & Hd & _). apply (Hd k).
    - apply list_elem_of_fmap. exists (k, x). split; [done|by apply elem_of_map_to_list].
    - apply list_elem_of_fmap. exists (k, y). split; [done|by apply elem_of_map_to_list]. }
  split; [done|]. rewrite (list_to_map_proper (map_iter a ++ map_iter b) (map_to_list a ++ map_to_list b)); [|by rewrite !Hiter|by rewrite !Hiter].
  by rewrite list_to_map_app, !list_to_map_to_list.
Qed.

(** What a shielded offer that is merged from two has, when no coin is listed twice
    and no balance leaves the range. *)
Record Merged (a b m : ProvenOffer) : Prop := {
  mg_inputs : inputs m ≡ₚ inputs a ++ inputs b;
  mg_outputs : outputs m ≡ₚ outputs a ++ outputs b;
  mg_transient : transient m ≡ₚ transient a ++ transient b;
  mg_deltas : forall k, key_sum k (deltas m) = key_sum k (deltas a) + key_sum k (deltas b)
}.
Definition mergeable (a b : ProvenOffer) : Prop :=
  coins_distinct a /\ coins_distinct b /\ forall k, in_i 128 (key_sum k (deltas a) + key_sum k (deltas b)).

Lemma offer_merged a b m : mergeable a b -> offer_merge a b = Ok m -> Merged a b m.
Proof.
  intros ((NA1 & NA2 & NA3) & (NB1 & NB2 & NB3) & Hr). unfold offer_merge, Offer_merge. destruct (_ && _); [|done]. intros [= <-].
  split; cbn [Offer_normalize inputs outputs transient deltas]; [by apply merged_perm..|]. intros k.
  destruct (normalize_deltas_spec token_lt (deltas a ++ deltas b)) as (_ & _ & K). rewrite K, key_sum_app. apply wrap_i_small; [lia|apply Hr].
Qed.

Lemma merge_fallible_ok (l : list (Z * ProvenOffer)) : forall res m : gmap Z ProvenOffer, NoDup l.*1 ->
  try_fold (fun (res : gmap Z ProvenOffer) (ko : Z * ProvenOffer) =>
    match res !! ko.1 with
    | Some offer1 => o ← offer_merge offer1 ko.2; Ok (<[ko.1 := o]> res)
    | None => Ok (<[ko.1 := ko.2]> res)
    end) res l = Ok m ->
  forall k, match (list_to_map l : gmap Z ProvenOffer) !! k with
            | Some o2 => match res !! k with Some o1 => exists o, offer_merge o1 o2 = Ok o /\ m !! k = Some o | None => m !! k = Some o2 end
            | None => m !! k = res !! k
            end.
Proof.
  induction l as [|[k0 o2] l IH]; intros res m Hn; cbn [try_fold]; [by intros [= <-] k|]. cbn [fst snd]. apply NoDup_cons in Hn as [Hk Hn].
  assert (Hstep : forall o, try_fold (fun (res : gmap Z ProvenOffer) (ko : Z * ProvenOffer) =>
      match res !! ko.1 with
      | Some offer1 => o ← offer_merge offer1 ko.2; Ok (<[ko.1 := o]> res)
      | None => Ok (<[ko.1 := ko.2]> res)
      end) (<[k0 := o]> res) l = Ok m -> m !! k0 = Some o /\ forall k, k <> k0 ->
    match (list_to_map l : gmap Z ProvenOffer) !! k with
    | Some o2 => match res !! k with Some o1 => exists o, offer_merge o1 o2 = Ok o /\ m !! k = Some o | None => m !! k = Some o2 end
    | None => m !! k = res !! k
    end).
  { intros o Ht. pose proof (IH _ _ Hn Ht) as Hm. split.
    - specialize (Hm k0). rewrite (not_elem_of_list_to_map_1 l k0), lookup_insert_eq in Hm by exact Hk. exact Hm.
    - intros k Hne. specialize (Hm k). by rewrite lookup_insert_ne in Hm by done. }
  cbn [list_to_map fst snd foldr]. destruct (res !! k0) as [o1|] eqn:E0.
  - destruct (offer_merge o1 o2) as [o|] eqn:Eo; cbn [mbind result_bind]; [|done]. intros [Hm0 Hm]%Hstep k. destruct (decide (k = k0)) as [->|Hne].
    + rewrite lookup_insert_eq, E0. by exists o.
    + rewrite lookup_insert_ne by done. by apply Hm.
  - intros [Hm0 Hm]%Hstep k. destruct (decide (k = k0)) as [->|Hne].
    + by rewrite lookup_insert_eq, E0.
    + rewrite lookup_insert_ne by done. by apply Hm.
Qed.
End parts.

Lemma gtotal_fmap {G K V W} `{Countable K} `{AbelianGroup G} (f : K * W -> G) (g : V -> W) (m : gmap K V) :
  gtotal f (g <$> m) = gtotal (fun kv => f (kv.1, g kv.2)) m.
Proof. unfold gtotal. rewrite map_to_list_fmap, <- list_fmap_compose. done. Qed.
Lemma gsum_bind {G A} `{AbelianGroup G} (f : A -> list G) l : gsum (l ≫= f) = gsum ((fun x => gsum (f x)) <$> l).
Proof. induction l as [|x l IH]; [done|]. cbn [mbind list_bind fmap list_fmap]. by rewrite gsum_app, gsum_cons, IH. Qed.

Lemma bind_fmap_out {A B C} (f : A -> list B) (g : B -> C) l : g <$> (l ≫= f) = l ≫= fun x => g <$> f x.
Proof. induction l as [|x l IH]; [done|]. cbn [mbind list_bind]. by rewrite fmap_app, IH. Qed.

(** ** Commitments *)

Section commitments.
Context `{PR : Prims} {CR : Crypto}.
Local Abbreviation delta_com := (delta_com hash_to_curve generator).

(** What an entry of the balance adds to the expected commitment. *)
Definition contribution (kv : (TokenType * Z) * Z) : Pedersen :=
  match kv.1.1 with Shielded tt_ => zmul kv.2 (hash_to_curve tt_ kv.1.2) | _ => gzero end.
Definition update_contribution (u : BalanceUpdate) : Pedersen :=
  contribution ((bu_token_type u, bu_segment u), match bu_operation u with Addition => bu_value u | Subtraction => - bu_value u end).

Lemma contribution_add k v w : contribution (k, v + w) = gadd (contribution (k, v)) (contribution (k, w)).
Proof. unfold contribution. cbn. destruct (k.1); by rewrite ?zmul_add, ?gadd_zero_l. Qed.
Lemma contribution_zero k : contribution (k, 0) = gzero.
Proof. unfold contribution. cbn. by destruct (k.1). Qed.

Lemma expected_total (m : gmap (TokenType * Z) Z) start :
  foldl gadd start (omap (fun kv : (TokenType * Z) * Z => match kv.1.1 with Shielded tt_ => Some (zmul kv.2 (hash_to_curve tt_ kv.1.2)) | _ => None end) (map_to_list m))
  = gadd start (gtotal contribution m).
Proof.
  rewrite foldl_gadd. f_equal. unfold gtotal, contribution. induction (map_to_list m) as [|[[t sg] v] l IH]; [done|]. cbn [omap list_omap fmap list_fmap fst snd].
  destruct t; rewrite ?gsum_cons, IH; rewrite ?gadd_zero_l; done.
Qed.

Lemma update_total res u res' : update_balance res u = Ok res' -> gtotal contribution res' = gadd (gtotal contribution res) (update_contribution u).
Proof.
  unfold update_balance. destruct (i_max 128 <? bu_value u); [done|]. case_bool_decide; [|done]. intros [= <-].
  unfold update_contribution. set (k := (bu_token_type u, bu_segment u)). set (d := match bu_operation u with Addition => bu_value u | Subtraction => - bu_value u end).
  rewrite <- (gtotal_singleton contribution k d). apply gtotal_pointwise. intros k'. destruct (decide (k' = k)) as [->|Hne].
  - rewrite lookup_insert_eq, lookup_singleton_eq. cbn [gentry from_option].
    assert (Hd : match bu_operation u with Addition => default 0 (res !! k) + bu_value u | Subtraction => default 0 (res !! k) - bu_value u end = default 0 (res !! k) + d)
      by (subst d; destruct (bu_operation u); lia).
    rewrite Hd, contribution_add. f_equal. destruct (res !! k); [done|]. apply contribution_zero.
  - rewrite lookup_insert_ne, lookup_singleton_ne by done. cbn [gentry from_option]. by rewrite gadd_zero_r.
Qed.
Lemma balance_total_contribution l : forall res res', try_fold update_balance res l = Ok res' ->
  gtotal contribution res' = gadd (gtotal contribution res) (gsum (update_contribution <$> l)).
Proof.
  induction l as [|u l IH]; intros res res'; cbn [try_fold]; [intros [= <-]; symmetry; apply gadd_zero_r|].
  destruct (update_balance res u) as [res1|] eqn:E; [|done]. intros ->%IH. cbn [fmap list_fmap]. rewrite gsum_cons, (update_total _ _ _ E). by rewrite gadd_assoc.
Qed.

(** Only shielded tokens count. *)
Lemma gsum_zeros {A} (f : A -> Pedersen) l : (forall x, x ∈ l -> f x = gzero) -> gsum (f <$> l) = gzero.
Proof. intros Hf. rewrite (gsum_same f (fun _ => gzero)) by done. apply gsum_const_zero. Qed.
Lemma intent_contribution entry : gsum (update_contribution <$> intent_updates true entry) = gzero.
Proof.
  destruct entry as [sg i]. unfold intent_updates, offer_updates. apply gsum_zeros. intros u. rewrite !elem_of_app, !list_elem_of_fmap.
  intros [(? & -> & _)|[(? & -> & _)|[[(? & -> & _)|(? & -> & _)]|[[(? & -> & _)|(? & -> & _)]|Hn%not_elem_of_nil]]]]; done.
Qed.
Lemma delta_contribution sg d : update_contribution (delta_update sg d) = delta_com sg d.
Proof.
  rewrite delta_com_zmul. unfold update_contribution, delta_update. destruct (Z.ltb_spec d.2 0); cbn; [by rewrite Z.opp_involutive|done].
Qed.

Definition offer_delta (so : Z * ZswapOffer) : Pedersen := gsum (delta_com so.1 <$> deltas so.2).
Lemma updates_contribution stx :
  gsum (update_contribution <$> balance_updates stx None true) = gsum (offer_delta <$> segment_offers stx).
Proof.
  unfold balance_updates. change (subtracted Coins.Dust 0 <$> option_list None) with (@nil BalanceUpdate). rewrite app_nil_l, fmap_app, gsum_app, !bind_fmap_out, !gsum_bind.
  rewrite (gsum_zeros _ (sorted_iter (intents stx))) by (intros e _; apply intent_contribution). rewrite gadd_zero_l. apply gsum_same. intros so _.
  unfold offer_delta. rewrite <- list_fmap_compose. apply gsum_same. intros d _. apply delta_contribution.
Qed.
End commitments.

(** ** The merged transaction *)

(** The total over the shielded offers of a transaction. *)
Section offers.
Context `{PR : Prims} {CR : Crypto} {G : Type} `{AbelianGroup G}.

Lemma offers_total (f : Z * ZswapOffer -> G) stx :
  gsum (f <$> segment_offers stx) = gadd (gtotal f (fallible_coins stx)) (from_option (fun o => f (0, o)) gzero (guaranteed_coins stx)).
Proof.
  unfold segment_offers, sorted_iter. rewrite fmap_app, gsum_app, merge_sort_Permutation. f_equal. destruct (guaranteed_coins stx) as [o|]; [|done].
  change (gsum [f (0, o)] = f (0, o)). rewrite gsum_cons. apply gadd_zero_r.
Qed.

(** The offers of the two transactions, segment by segment. *)
Definition offers_mergeable (a b : ProvenStandard) : Prop :=
  (forall o1 o2, pr_guaranteed_coins a = Some o1 -> pr_guaranteed_coins b = Some o2 -> mergeable o1 o2) /\
  (forall s o1 o2, pr_fallible_coins a !! s = Some o1 -> pr_fallible_coins b !! s = Some o2 -> mergeable o1 o2).

Lemma offers_additive (Hiter : forall K V `{Countable K} (m : gmap K V), map_iter m ≡ₚ map_to_list m) (f : Z * ZswapOffer -> G) a b m :
  (forall s o1 o2 o, Merged o1 o2 o -> f (s, erase_offer o) = gadd (f (s, erase_offer o1)) (f (s, erase_offer o2))) ->
  offers_mergeable a b -> merge_standard a b = Ok m ->
  gsum (f <$> segment_offers (erase_standard m)) = gadd (gsum (f <$> segment_offers (erase_standard a))) (gsum (f <$> segment_offers (erase_standard b))).
Proof.
  intros Hf [Hg Hs]. unfold merge_standard. case_decide; [|done]. destruct (merge_intents _ _); cbn [mbind result_bind]; [|done].
  destruct (merge_guaranteed _ _) as [gc|] eqn:Eg; cbn [mbind result_bind]; [|done].
  destruct (merge_fallible _ _) as [fc|] eqn:Ef; cbn [mbind result_bind]; [|done]. intros [= <-].
  rewrite !offers_total. cbn [erase_standard fallible_coins guaranteed_coins pr_fallible_coins pr_guaranteed_coins]. rewrite !gtotal_fmap, gadd_swap. f_equal.
  - apply gtotal_pointwise. intros k. unfold merge_fallible in Ef. assert (Hn : NoDup (map_iter (pr_fallible_coins b)).*1) by (rewrite Hiter; apply NoDup_fst_map_to_list).
    pose proof (merge_fallible_ok _ _ _ Hn Ef k) as Hk. rewrite (list_to_map_proper _ _ Hn (Hiter _ _ _ _ (pr_fallible_coins b))), list_to_map_to_list in Hk.
    destruct (pr_fallible_coins b !! k) as [o2|] eqn:Eb, (pr_fallible_coins a !! k) as [o1|] eqn:Ea; cbn [gentry from_option].
    + destruct Hk as (o & Ho & ->). cbn [gentry from_option fst snd]. apply Hf. apply offer_merged; [by eapply Hs|done].
    + rewrite Hk. cbn. by rewrite gadd_zero_l.
    + rewrite Hk. cbn. by rewrite gadd_zero_r.
    + rewrite Hk. cbn. by rewrite gadd_zero_l.
  - unfold merge_guaranteed in Eg. destruct (pr_guaranteed_coins a) as [o1|], (pr_guaranteed_coins b) as [o2|]; cbn.
    + destruct (offer_merge o1 o2) as [o|] eqn:Eo; cbn [mbind result_bind] in Eg; [|done]. injection Eg as <-. cbn. apply Hf, offer_merged; [by apply Hg|done].
    + injection Eg as <-. cbn. by rewrite gadd_zero_r.
    + injection Eg as <-. cbn. by rewrite gadd_zero_l.
    + injection Eg as <-. cbn. by rewrite gadd_zero_l.
Qed.

Lemma intents_additive (Hiter : forall K V `{Countable K} (m : gmap K V), map_iter m ≡ₚ map_to_list m) (f : Z * LedgerIntent -> G) a b m :
  merge_standard a b = Ok m ->
  gtotal f (intents (erase_standard m)) = gadd (gtotal f (intents (erase_standard a))) (gtotal f (intents (erase_standard b))).
Proof.
  unfold merge_standard. case_decide; [|done]. destruct (merge_intents _ _) as [l|] eqn:Ei; cbn [mbind result_bind]; [|done].
  destruct (merge_guaranteed _ _) as [gc|] eqn:Eg; cbn [mbind result_bind]; [|done].
  destruct (merge_fallible _ _) as [fc|] eqn:Ef; cbn [mbind result_bind]; [|done]. intros [= <-].
  apply (merge_intents_ok Hiter) in Ei as [Hd ->]. cbn [erase_standard intents pr_intents]. rewrite !gtotal_fmap. by apply gtotal_union.
Qed.
End offers.

(** ** Properties *)

Section properties.
Context `{PR : Prims} {CR : Crypto}.
Context (Hiter : forall K V `{Countable K} (m : gmap K V), map_iter m ≡ₚ map_to_list m).

(** What a transaction leaves of a token in a section, after fees. *)
Definition tx_net (token : TokenType) (segment : Z) (stx : ProvenStandard) (fees : Z) : Z :=
  tx_credit token segment (erase_standard stx) - tx_debit token segment (erase_standard stx) fees.

Lemma zsum_gsum {X} (f : X -> Z) l : zsum f l = gsum (f <$> l).
Proof. induction l as [|x l IH]; [done|]. cbn [fmap list_fmap]. rewrite gsum_cons, <- IH. done. Qed.
Lemma zsum_total {V} (f : Z * V -> Z) (m : gmap Z V) : zsum f (sorted_iter m) = gtotal f m.
Proof. unfold sorted_iter, gtotal. by rewrite merge_sort_Permutation, zsum_gsum. Qed.

Lemma shielded_net_key token segment (so : Z * ZswapOffer) : shielded_net token segment so =
  match token with Shielded t => if decide (so.1 = segment) then key_sum t (deltas so.2) else 0 | _ => 0 end.
Proof.
  unfold shielded_net, worth. destruct token as [t|t|]; [apply zsum_zero; intros d _; rewrite decide_False; [done|naive_solver]| |
    apply zsum_zero; intros d _; rewrite decide_False; [done|naive_solver]].
  destruct (decide (so.1 = segment)) as [Hs|Hs]; [|apply zsum_zero; intros d _; rewrite decide_False; [done|naive_solver]].
  unfold zsum, key_sum. induction (deltas so.2) as [|d l IH]; [done|]. cbn [foldr]. rewrite IH. f_equal.
  destruct (decide (d.1 = t)) as [->|Hd]; [by rewrite decide_True|]. rewrite decide_False; [done|]. naive_solver.
Qed.

Lemma net_additive a b m token segment fa fb : offers_mergeable a b -> merge_standard a b = Ok m ->
  tx_net token segment m (fa + fb) = tx_net token segment a fa + tx_net token segment b fb.
Proof.
  intros Ho Hm. unfold tx_net, tx_credit, tx_debit. rewrite !zsum_total, !zsum_gsum.
  rewrite !(intents_additive Hiter _ a b m Hm). rewrite (offers_additive Hiter (shielded_net token segment) a b m); [|clear Hm|done|done].
  - assert (Hw : worth token segment Coins.Dust 0 (fa + fb) = worth token segment Coins.Dust 0 fa + worth token segment Coins.Dust 0 fb)
      by (unfold worth; case_decide; lia).
    rewrite Hw. cbn [gadd Z_group]. lia.
  - intros s o1 o2 o [_ _ _ Hd]. rewrite !shielded_net_key. cbn [erase_offer deltas fst snd gadd Z_group]. destruct token as [t|t|]; [done| |done].
    case_decide; [apply Hd|done].
Qed.

(** The Pedersen check as an equation between sums. *)
Definition io_total (so : Z * ZswapOffer) : Pedersen := gsum (offer_commitments so.2).
Definition binding_total (stx : StandardTransaction) : Pedersen := gtotal (fun si : Z * LedgerIntent => binding_commitment si.2) (intents stx).

Lemma pedersen_iff stx balances : balance_maybe_deltas_only stx None true = Ok balances ->
  pedersen_check stx = Ok tt <->
  gadd (binding_total stx) (gsum (io_total <$> segment_offers stx)) = gadd (zmul (binding_randomness stx) generator) (gsum (offer_delta <$> segment_offers stx)).
Proof.
  intros E. unfold pedersen_check. rewrite E. cbn [mbind result_bind]. rewrite expected_total, (balance_total_contribution _ _ _ E), updates_contribution.
  assert (Hz : gtotal contribution (∅ : gmap (TokenType * Z) Z) = gzero) by (unfold gtotal; by rewrite map_to_list_empty). rewrite Hz, gadd_zero_l.
  rewrite (foldl_gadd gzero), gadd_zero_l.
  rewrite gsum_app, gsum_bind. assert (Hb : gsum ((fun si : Z * LedgerIntent => binding_commitment si.2) <$> map_iter (intents stx)) = binding_total stx)
    by (unfold binding_total, gtotal; by rewrite Hiter).
  assert (Hio : gsum ((fun o => gsum (offer_commitments o)) <$> (option_list (guaranteed_coins stx) ++ (map_iter (fallible_coins stx)).*2)) = gsum (io_total <$> segment_offers stx)).
  { unfold segment_offers, sorted_iter. rewrite merge_sort_Permutation, !fmap_app, !gsum_app, gadd_comm, Hiter, <- list_fmap_compose. f_equal.
    by destruct (guaranteed_coins stx). }
  rewrite Hb, Hio. case_decide as Hd; [split; [done|intros Hx; by destruct Hd]|]. split; [intros _; exact Hd|done].
Qed.

Lemma io_merged s o1 o2 o : Merged o1 o2 o -> io_total (s, erase_offer o) = gadd (io_total (s, erase_offer o1)) (io_total (s, erase_offer o2)).
Proof.
  intros [H1 H2 H3 _]. unfold io_total. cbn [snd]. rewrite <- gsum_app. apply gsum_perm. unfold offer_commitments, erase_offer. cbn [inputs outputs transient].
  rewrite H1, H2, H3, !fmap_app. solve_Permutation.
Qed.
Lemma delta_merged s o1 o2 o : Merged o1 o2 o -> offer_delta (s, erase_offer o) = gadd (offer_delta (s, erase_offer o1)) (offer_delta (s, erase_offer o2)).
Proof.
  intros [_ _ _ Hd]. unfold offer_delta. cbn [fst snd erase_offer deltas]. rewrite <- gsum_app, <- fmap_app. apply gsum_same_sums. intros k. by rewrite Hd, key_sum_app.
Qed.
End properties.

Section sound.
Context `{PR : Prims} {CR : Crypto}.

End sound.
