(* ===== verification/VerifyTheorems.v ===== *)
(** * What a well-formed transaction is

    Revalidation gives what a full check would give; inputs are signed by their
    owners and spent once; maintenance is authorized by the committee; and an
    accepted transaction is balanced with the fees it is charged. *)

From S2P Require Import Prelude Serialize MerkleTree Storage Pedersen Cost DeltaTracking VmCost Fab OnchainVm ZswapMemo Repr Coins.
From S2P Require Import Runtime ZswapOffer ZswapLedger Intents Dust LedgerData TxCost Ledger Supply LedgerApply LedgerTheorems Balance Sequencing CallOrder Verify Merge.
From stdpp Require Import gmap strings sorting.

Local Open Scope Z_scope.

(** ** Sequences of checks *)

Section checks.
Context {E : Type}.

Lemma bind_agree {A B} (m m' : outcome E A) (k k' : A -> outcome E B) : m = m' -> (forall a, m' = Ret a -> k a = k' a) -> m ≫= k = m' ≫= k'.
Proof. intros -> Hk. destruct m' as [a| |]; cbn [mbind outcome_bind]; [by apply Hk|done|done]. Qed.

Lemma for_each_Ret {A} (f : A -> outcome E unit) l : for_each f l = Ret tt <-> Forall (fun x => f x = Ret tt) l.
Proof.
  induction l as [|x l IH]; cbn [for_each]; [done|]. rewrite Forall_cons, <- IH. destruct (f x) as [[]| |]; cbn [mbind outcome_bind]; [tauto|by split; [|intros [? _]]..].
Qed.
Lemma for_each_same {A} (f0 f1 f2 : A -> outcome E unit) l :
  for_each f0 l = Ret tt -> (forall x, x ∈ l -> f0 x = Ret tt -> f1 x = f2 x) -> for_each f1 l = for_each f2 l.
Proof.
  intros H0 Hf. apply for_each_Ret in H0. induction H0 as [|x l Hx Hl IH]; [done|]. cbn [for_each]. rewrite (Hf x) by (done || left).
  destruct (f2 x); cbn [mbind outcome_bind]; [|done|done]. apply IH. intros y Hy. apply Hf. by right.
Qed.
End checks.

(** ** Revalidation *)

Section revalidation.
Context `{PR : Prims} {CR : Crypto} {HS : Hashes} {CI : CostInputs} {SZ : Serialized}.
Context (old new : LedgerState).
Local Abbreviation reval := (mkRevalidation old new).

(** Each kind of check, when it held for the old state. *)
Lemma reval_stateless c : stateless_check old c = Ret tt -> stateless_check reval c = stateless_check new c.
Proof. cbn. by intros ->. Qed.
Lemma reval_param c : param_check _ old tt false c = Ret tt -> param_check _ reval tt false c = param_check _ new tt false c.
Proof. cbn. intros Ho. case_bool_decide as Hp; [done|]. by rewrite <- Hp, Ho. Qed.
Lemma reval_always {A} (a : A) c : param_check _ reval a true c = param_check _ new a true c.
Proof. done. Qed.
Lemma reval_op ad ep c : op_check old ad ep c = Ret tt -> op_check reval ad ep c = op_check new ad ep c.
Proof.
  cbn. destruct (get_op old ad ep) as [op| |]; cbn [mbind outcome_bind]; [|done..]. intros Ho. destruct (get_op new ad ep) as [op'| |]; cbn [mbind outcome_bind]; [|done..].
  case_decide; by subst.
Qed.
Lemma reval_maintenance ad c : maintenance_check old ad c = Ret tt -> maintenance_check reval ad c = maintenance_check new ad c.
Proof.
  cbn. destruct (get_authority old ad) as [op| |]; cbn [mbind outcome_bind]; [|done..]. intros Ho. destruct (get_authority new ad) as [op'| |]; cbn [mbind outcome_bind]; [|done..].
  case_decide; by subst.
Qed.
Lemma reval_dust ctime c : dust_spend_check old ctime c = Ret tt -> dust_spend_check reval ctime c = dust_spend_check new ctime c.
Proof.
  cbn [dust_spend_check LedgerState_reference RevalidationReference_reference previously_validated_state new_state].
  destruct (dust_reference old ctime) as [[p1 c1] g1]. destruct (dust_reference new ctime) as [[p2 c2] g2]. intros Ho. case_decide as E; [|done].
  injection E as -> -> ->. by rewrite Ho.
Qed.

Lemma reval_deploy d : Deploy_well_formed d old = Ret tt -> Deploy_well_formed d reval = Deploy_well_formed d new.
Proof.
  unfold Deploy_well_formed. intros (? & _ & H)%outcome_bind_Ret. apply bind_agree; [done|]. intros _ _. destruct (existsb _ _); [done|].
  apply outcome_bind_Ret in H as (r & Er & H). rewrite Er. cbn [mbind outcome_bind] in *. case_decide; [done|]. by apply reval_param.
Qed.
Lemma reval_update upd strictness :
  Maintenance_well_formed upd old strictness = Ret tt -> Maintenance_well_formed upd reval strictness = Maintenance_well_formed upd new strictness.
Proof. apply reval_maintenance. Qed.
Lemma reval_call c proof strictness parent : Call_well_formed c proof old strictness parent = Ret tt ->
  Call_well_formed c proof reval strictness parent = Call_well_formed c proof new strictness parent.
Proof.
  unfold Call_well_formed. destruct (from_option _ _ _); [done|]. destruct (existsb _ _); [done|]. destruct (verify_contract_proofs _); [|done]. apply reval_op.
Qed.
Lemma reval_action a proof strictness parent : Action_well_formed a proof old strictness parent = Ret tt ->
  Action_well_formed a proof reval strictness parent = Action_well_formed a proof new strictness parent.
Proof. destruct a; cbn [Action_well_formed]; auto using reval_call, reval_deploy, reval_update. Qed.
Lemma reval_spend s proof segment binding strictness ctime : Spend_well_formed s proof old segment binding strictness ctime = Ret tt ->
  Spend_well_formed s proof reval segment binding strictness ctime = Spend_well_formed s proof new segment binding strictness ctime.
Proof. unfold Spend_well_formed. destruct (verify_native_proofs _); [|done]. apply reval_dust. Qed.

Lemma reval_dust_actions da proofs sigs strictness segment parent t0 tblock :
  DustActions_well_formed da proofs sigs old strictness segment parent t0 = Ret tt ->
  DustActions_well_formed da proofs sigs reval strictness segment parent tblock = DustActions_well_formed da proofs sigs new strictness segment parent tblock.
Proof.
  unfold DustActions_well_formed. destruct (spends da) as [|s l] eqn:Es, (registrations da) as [|r rs] eqn:Er; [done|..]; rewrite <- Es, <- Er; clear Es Er;
  intros ([] & H1 & ([] & H2 & (? & _ & ([] & H4 & _)%outcome_bind_Ret)%outcome_bind_Ret)%outcome_bind_Ret)%outcome_bind_Ret;
  (apply bind_agree; [eapply for_each_same; [exact H1|]; intros; by apply reval_spend|intros _ _]);
  (apply bind_agree; [eapply for_each_same; [exact H2|]; intros; by apply reval_stateless|intros _ _]);
  (apply bind_agree; [done|intros _ _]); (apply bind_agree; [by apply reval_stateless|done]).
Qed.

Lemma reval_intent i segment strictness t0 tblock : Intent_well_formed i segment old strictness t0 = Ret tt ->
  Intent_well_formed i segment reval strictness tblock = Intent_well_formed i segment new strictness tblock.
Proof.
  unfold Intent_well_formed. destruct (segment =? GUARANTEED_SEGMENT); [done|].
  intros ([] & H1 & ([] & H2 & H3)%outcome_bind_Ret)%outcome_bind_Ret.
  apply bind_agree; [by apply reval_stateless|intros _ _]. apply bind_agree; [eapply for_each_same; [exact H2|]; intros; by apply reval_action|intros _ _].
  destruct (dust_actions (body i)); [by eapply reval_dust_actions|done].
Qed.

Lemma reval_standard stx strictness t0 tblock fees : standard_well_formed stx old strictness t0 = Ret fees ->
  standard_well_formed stx reval strictness tblock = standard_well_formed stx new strictness tblock.
Proof.
  unfold standard_well_formed. intros (? & _ & (? & _ & ([] & H3 & (? & _ & ([] & H5 & _)%outcome_bind_Ret)%outcome_bind_Ret)%outcome_bind_Ret)%outcome_bind_Ret)%outcome_bind_Ret.
  apply bind_agree; [done|intros _ _]. apply bind_agree; [done|intros _ _]. apply bind_agree; [by apply reval_stateless|intros _ _].
  apply bind_agree; [done|intros f _]. apply bind_agree; [|done]. eapply for_each_same; [exact H5|]. intros [s i] _. cbn [fst snd].
  destruct (s =? GUARANTEED_SEGMENT); [done|]. apply reval_intent.
Qed.
End revalidation.

(** ** The parts of an accepted transaction *)

Section accepted.
Context `{PR : Prims} {CR : Crypto} {HS : Hashes} {CI : CostInputs} {SZ : Serialized}.
Implicit Types (st : LedgerState) (stx : ProvenStandard).

Lemma accepted_standard stx st strictness t v : well_formed (ProvenStd stx) st strictness t = Ret v ->
  inner v = Standard (erase_standard stx) /\ standard_well_formed stx st strictness t = Ret (tx_fees v).
Proof.
  unfold well_formed. intros ([] & _ & (fees & H & [= <-])%outcome_bind_Ret)%outcome_bind_Ret. done.
Qed.
Lemma accepted_stateless stx st strictness t fees : standard_well_formed stx st strictness t = Ret fees -> stateless_checks stx = Ret tt.
Proof.
  unfold standard_well_formed. intros (? & _ & (? & _ & ([] & H3 & _)%outcome_bind_Ret)%outcome_bind_Ret)%outcome_bind_Ret. exact H3.
Qed.
Lemma accepted_fees stx st strictness t fees : standard_well_formed stx st strictness t = Ret fees ->
  fees_balanced (erase_standard stx) st strictness = Ret fees.
Proof.
  unfold standard_well_formed.
  intros (? & _ & (? & _ & (? & _ & (fees' & H & (? & _ & [= ->])%outcome_bind_Ret)%outcome_bind_Ret)%outcome_bind_Ret)%outcome_bind_Ret)%outcome_bind_Ret. exact H.
Qed.
Lemma accepted_intent stx st strictness t fees segment i : standard_well_formed stx st strictness t = Ret fees -> pr_intents stx !! segment = Some i ->
  Intent_well_formed i segment st strictness t = Ret tt.
Proof.
  unfold standard_well_formed.
  intros (? & _ & (? & _ & (? & _ & (? & _ & ([] & H & _)%outcome_bind_Ret)%outcome_bind_Ret)%outcome_bind_Ret)%outcome_bind_Ret)%outcome_bind_Ret.
  intros Hi. apply for_each_Ret in H. rewrite Forall_forall in H. specialize (H (segment, i) (proj2 (elem_of_sorted_iter _ _ _) Hi)). cbn [fst snd] in H.
  by destruct (segment =? GUARANTEED_SEGMENT).
Qed.
Lemma accepted_action i segment st strictness t a : Intent_well_formed i segment st strictness t = Ret tt -> a ∈ actions (body i) ->
  exists n, Action_well_formed a (call_proof i n) st strictness (erase_intent i) = Ret tt.
Proof.
  unfold Intent_well_formed. destruct (segment =? GUARANTEED_SEGMENT); [done|]. intros (? & _ & ([] & H & _)%outcome_bind_Ret)%outcome_bind_Ret.
  intros [n Hn]%list_elem_of_lookup. exists n. apply for_each_Ret in H. rewrite Forall_forall in H. apply (H (n, a)). by apply elem_of_lookup_imap_2 with (f := pair).
Qed.

(** Offers. *)
Lemma no_duplicates_NoDup {A} `{EqDecision A} (l : list A) : no_duplicates l = true -> NoDup l.
Proof.
  unfold no_duplicates. intros Hn. assert (Hg : forall l uniq : list A, no_duplicates_in uniq l = true -> NoDup l /\ forall x, x ∈ l -> x ∉ uniq).
  { clear. induction l as [|x l IH]; intros uniq; cbn [no_duplicates_in]; [split; [constructor|by intros ? ?%not_elem_of_nil]|].
    intros [Hx [Hl Hu]%IH]%andb_true_iff. apply negb_true_iff, bool_decide_eq_false in Hx. split.
    - constructor; [|done]. intros Hin%Hu. apply Hin. left.
    - intros y [->|Hy]%elem_of_cons; [done|]. intros Hyu. apply (Hu y Hy). by right. }
  by apply (Hg l []).
Qed.
Lemma is_disjoint_true {A} `{EqDecision A} (l1 l2 : list A) : is_disjoint l1 l2 = true -> forall x, x ∈ l1 -> x ∉ l2.
Proof. unfold is_disjoint. rewrite forallb_forall. intros H x Hx%list_elem_of_In%H. by apply negb_true_iff, bool_decide_eq_false in Hx. Qed.

Lemma offer_signed offer sigs segment parent : when_sealed (UnshieldedOffer_well_formed offer sigs segment parent) = Ok tt ->
  NoDup (uo_inputs offer) /\ forall n input, uo_inputs offer !! n = Some input ->
    exists sig, sigs !! n = Some sig /\ signature_verify (data_to_sign parent segment) (spend_owner input) sig = true.
Proof.
  unfold UnshieldedOffer_well_formed. destruct (is_sorted spend_cmp _); [|done]. destruct (is_sorted output_cmp _); [|done]. cbn [negb].
  destruct (head _); [done|]. destruct (no_duplicates (uo_inputs offer)) eqn:En; [|done]. cbn [negb when_sealed].
  destruct (Nat.eqb_spec (length (uo_inputs offer)) (length sigs)) as [El|]; [|done]. cbn [negb]. rewrite try_for_each_Ok, Forall_forall. intros Hf.
  split; [by apply no_duplicates_NoDup|]. intros n input Hn. destruct (lookup_lt_is_Some_2 sigs n) as [sig Hs]; [rewrite <- El; by eapply lookup_lt_Some|].
  exists sig. split; [done|]. specialize (Hf (input, sig)). cbn [fst snd] in Hf. destruct (signature_verify _ _ _); [done|].
  discriminate Hf. apply list_elem_of_lookup. exists n. by rewrite lookup_zip_with, Hn; cbn [mbind option_bind]; rewrite Hs.
Qed.

(** The offers of an intent with their signatures. *)
Definition signed_offers (i : ProvenIntent) : list (@UnshieldedOffer SignatureVerifyingKey * list Signature) :=
  ((fun o => (o, guaranteed_signatures i)) <$> option_list (guaranteed_unshielded_offer (body i))) ++
  ((fun o => (o, fallible_signatures i)) <$> option_list (fallible_unshielded_offer (body i))).

Lemma accepted_offers i segment st strictness t : Intent_well_formed i segment st strictness t = Ret tt ->
  forall o sigs, (o, sigs) ∈ signed_offers i -> when_sealed (UnshieldedOffer_well_formed o sigs segment (erase_intent i)) = Ok tt.
Proof.
  unfold Intent_well_formed. destruct (segment =? GUARANTEED_SEGMENT); [done|]. intros ([] & H & _)%outcome_bind_Ret.
  cbn [stateless_check LedgerState_reference] in H. unfold signed_offers.
  destruct (optional _ (guaranteed_unshielded_offer (body i))) as [[]|] eqn:Eg; cbn [mbind result_bind of_result] in H; [|done].
  destruct (optional _ (fallible_unshielded_offer (body i))) as [[]|] eqn:Ef; cbn [mbind result_bind of_result] in H; [|done].
  intros o sigs [(o' & [= <- ->] & Ho)%list_elem_of_fmap|(o' & [= <- ->] & Ho)%list_elem_of_fmap]%elem_of_app.
  - by destruct (guaranteed_unshielded_offer (body i)); [apply list_elem_of_singleton in Ho as ->|apply not_elem_of_nil in Ho].
  - by destruct (fallible_unshielded_offer (body i)); [apply list_elem_of_singleton in Ho as ->|apply not_elem_of_nil in Ho].
Qed.

Lemma accepted_disjoint stx : stateless_checks stx = Ret tt -> disjoint_check stx = Ret tt.
Proof. unfold stateless_checks. intros (? & _ & (? & _ & ([] & H & _)%outcome_bind_Ret)%outcome_bind_Ret)%outcome_bind_Ret. exact H. Qed.

Lemma unshielded_disjoint l : forall acc acc', try_fold_o unshielded_step acc l = Ret acc' ->
  NoDup acc -> Forall (fun o => NoDup (from_option uo_inputs [] o)) l -> NoDup (acc ++ (l ≫= from_option uo_inputs [])).
Proof.
  induction l as [|o l IH]; intros acc acc'; cbn [try_fold_o]; [by rewrite app_nil_r|]. unfold unshielded_step at 2. cbv zeta.
  destruct (is_disjoint acc (from_option uo_inputs [] o)) eqn:Ed; cbn [negb mbind outcome_bind]; [|done]. intros H Ha [Ho Hl]%Forall_cons. cbn [mbind list_bind]. rewrite app_assoc.
  apply (IH _ _ H); [|done]. apply NoDup_app. split_and!; [done| |done]. by apply is_disjoint_true.
Qed.

(** Maintenance. *)
Lemma adjacent_lt (l : list (Z * list Z)) : all_adjacent (fun x y => x.1 <? y.1) l = true -> NoDup l.*1.
Proof.
  intros Ha. assert (Hs : Sorted Z.lt l.*1).
  { induction l as [|x [|y l] IH]; [constructor|repeat constructor|]. apply andb_true_iff in Ha as [Hxy%Z.ltb_lt Ha]. constructor; [by apply IH|]. by constructor. }
  apply Sorted_StronglySorted in Hs; [|intros x y z; lia]. induction Hs as [|x k Hs IH Hf]; constructor; [|done].
  intros Hx. rewrite Forall_forall in Hf. specialize (Hf _ Hx). lia.
Qed.

Lemma maintenance_checked upd authority strictness : verify_signatures strictness = true ->
  (if negb (all_adjacent (fun x y => x.1 <? y.1) (upd_signatures upd)) then Fail MNotNormalized
   else if existsb (fun auth => negb (counter auth =? sat_add 32 (upd_counter upd) 1)) (new_authorities upd) then Fail MNotNormalized
   else
     _ ← of_result (try_for_each (check_signature strictness upd authority) (upd_signatures upd));
     if zlen (upd_signatures upd) <? threshold authority
     then Fail (ThresholdMissed (upd_address upd) (zlen (upd_signatures upd)) (threshold authority)) else Ret tt) = Ret tt ->
  counter_ok upd /\ NoDup (upd_signatures upd).*1 /\ threshold authority <= zlen (upd_signatures upd) /\
  forall k sig, (k, sig) ∈ upd_signatures upd -> exists vk, committee authority !! Z.to_nat k = Some vk /\
    committee_verify vk (update_data_to_sign upd) sig = true.
Proof.
  intros Hv. destruct (all_adjacent _ (upd_signatures upd)) eqn:Ea; cbn [negb]; [|done]. destruct (existsb _ _) eqn:Ex; [done|].
  destruct (try_for_each _ _) as [[]|] eqn:Et; cbn [of_result mbind outcome_bind]; [|done]. destruct (Z.ltb_spec (zlen (upd_signatures upd)) (threshold authority)); [done|].
  intros _. split_and!; [|by apply adjacent_lt|done|].
  - intros auth Hauth. assert (Hin : auth ∈ new_authorities upd) by (apply list_elem_of_omap; eexists; split; [exact Hauth|done]).
    destruct (Z.eqb_spec (counter auth) (sat_add 32 (upd_counter upd) 1)) as [|Hne]; [done|].
    assert (existsb (fun auth => negb (counter auth =? sat_add 32 (upd_counter upd) 1)) (new_authorities upd) = true); [|congruence].
    apply existsb_exists. exists auth. split; [by apply list_elem_of_In|]. by apply negb_true_iff, Z.eqb_neq.
  - intros k sig Hk. apply try_for_each_Ok in Et. rewrite Forall_forall in Et. specialize (Et _ Hk). unfold check_signature in Et. cbn [fst snd] in Et.
    destruct (committee authority !! Z.to_nat k) as [vk|]; [|done]. exists vk. split; [done|]. rewrite Hv in Et. by destruct (committee_verify _ _ _).
Qed.
End accepted.

(** ** Properties *)

Section properties.
Context `{PR : Prims} {CR : Crypto} {HS : Hashes} {CI : CostInputs} {SZ : Serialized}.

(** A transaction that was well-formed with respect to an old state. *)
Definition revalidate tx (old new : LedgerState) strictness tblock : outcome MalformedTransaction VerifiedTransaction :=
  well_formed tx (mkRevalidation old new) strictness tblock.

(** C13. Revalidation.  For a transaction that was well-formed with respect to an
    earlier state, at an earlier time, the check that skips what does not depend
    on the state and what the two states agree on gives the same result as the
    full check with respect to the new state: the same verified transaction with
    the same fees, or the same error. *)
Theorem revalidation_full tx strictness (old new : LedgerState) t0 tblock v :
  well_formed tx old strictness t0 = Ret v ->
  revalidate tx old new strictness tblock = well_formed tx new strictness tblock.
Proof.
  unfold revalidate, well_formed. intros ([] & H1 & H2)%outcome_bind_Ret. apply bind_agree; [by apply reval_param|intros _ _]. destruct tx as [stx|claim sig].
  - apply outcome_bind_Ret in H2 as (fees & H2 & _). apply bind_agree; [by eapply reval_standard|done].
  - apply outcome_bind_Ret in H2 as ([] & _ & H2). apply outcome_bind_Ret in H2 as ([] & H2 & _). apply bind_agree; [done|intros _ _].
    apply bind_agree; [by apply reval_stateless|done].
Qed.

(** C8. Users' funds are spent by their owners.  In a transaction that is accepted,
    every unshielded input of every intent comes with a signature by the input's
    owner of that intent, without proofs and signatures and for its segment; and
    no input occurs twice in the transaction. *)
Theorem inputs_authorized (Hiter : forall K V `{Countable K} (m : gmap K V), map_iter m ≡ₚ map_to_list m) stx (st : LedgerState) strictness t v :
  well_formed (ProvenStd stx) st strictness t = Ret v ->
  inner v = Standard (erase_standard stx) /\
  (forall segment i o sigs n input, pr_intents stx !! segment = Some i -> (o, sigs) ∈ signed_offers i -> uo_inputs o !! n = Some input ->
     exists sig, sigs !! n = Some sig /\ signature_verify (data_to_sign (erase_intent i) segment) (spend_owner input) sig = true) /\
  NoDup (unshielded_offers stx ≫= from_option uo_inputs []).
Proof.
  intros [Hi H]%accepted_standard. split; [done|].
  assert (Ho : forall segment i o sigs, pr_intents stx !! segment = Some i -> (o, sigs) ∈ signed_offers i ->
    when_sealed (UnshieldedOffer_well_formed o sigs segment (erase_intent i)) = Ok tt).
  { intros segment i o sigs Hs Hin. eapply accepted_offers; [|exact Hin]. by eapply accepted_intent. }
  split.
  - intros segment i o sigs n input Hs Hin. eapply (offer_signed o sigs). by apply (Ho segment).
  - apply accepted_stateless, accepted_disjoint in H. unfold disjoint_check in H. apply outcome_bind_Ret in H as (? & _ & H).
    apply outcome_bind_Ret in H as (acc & H & _). apply (unshielded_disjoint _ _ _ H); [constructor|]. apply Forall_forall.
    intros o ([segment i] & Hin & Hs)%list_elem_of_bind. rewrite Hiter in Hs. apply elem_of_map_to_list in Hs. destruct o as [o|]; [|constructor]. cbn [from_option].
    assert (exists sigs, (o, sigs) ∈ signed_offers i) as [sigs Hsig].
    { unfold signed_offers. cbn [snd] in Hin. apply elem_of_cons in Hin as [Ho'|Ho'%list_elem_of_singleton]; rewrite <- Ho'.
      - exists (guaranteed_signatures i). apply elem_of_app. left. left.
      - exists (fallible_signatures i). apply elem_of_app. right. left. }
    by apply (offer_signed o sigs segment (erase_intent i)), Ho.
Qed.

(** C12. Contracts are maintained by their committees.  A maintenance update in an
    accepted transaction is signed, over its own data, by at least as many
    different members of the contract's committee as the threshold asks for, and
    each new committee that it sets counts on from its counter, as the protection
    against replay needs. *)
Theorem maintenance_authorized stx (st : LedgerState) strictness t v segment i upd :
  verify_signatures strictness = true -> well_formed (ProvenStd stx) st strictness t = Ret v ->
  pr_intents stx !! segment = Some i -> Maintain upd ∈ actions (body i) ->
  exists c, contract st !! upd_address upd = Some c /\ counter_ok upd /\
    NoDup (upd_signatures upd).*1 /\ threshold (maintenance_authority c) <= zlen (upd_signatures upd) /\
    forall k sig, (k, sig) ∈ upd_signatures upd -> exists vk, committee (maintenance_authority c) !! Z.to_nat k = Some vk /\
      committee_verify vk (update_data_to_sign upd) sig = true.
Proof.
  intros Hv [_ H]%accepted_standard Hi Ha. destruct (accepted_action i segment st strictness t (Maintain upd)) as [n Hn]; [by eapply accepted_intent|done|].
  cbn [Action_well_formed] in Hn. unfold Maintenance_well_formed in Hn. cbn [maintenance_check LedgerState_reference] in Hn.
  unfold get_authority, index in Hn. destruct (contract st !! upd_address upd) as [c|]; [|done]. exists c. split; [done|]. cbn [mbind outcome_bind] in Hn.
  by apply (maintenance_checked upd _ strictness).
Qed.

(** C9. An accepted transaction pays for itself.  The fees that are recorded with it
    are its fees by the state's parameters, and with these fees the transaction
    takes no more of any token out of any section than it brings in. *)
Theorem accepted_balanced stx (st : LedgerState) strictness t v :
  enforce_balancing strictness = true -> well_formed (ProvenStd stx) st strictness t = Ret v ->
  Forall (fun u => 0 <= bu_value u) (balance_updates (erase_standard stx) (Some (tx_fees v)) false) ->
  fees_with_impl (inner v) (parameters st) (operation_of st) true = Ok (tx_fees v) /\
  forall token segment, tx_debit token segment (erase_standard stx) (tx_fees v) <= tx_credit token segment (erase_standard stx).
Proof.
  intros He [Hi H]%accepted_standard Hnn. apply accepted_fees in H. unfold fees_balanced in H. cbn [param_check fees_check LedgerState_reference] in H. rewrite He in H.
  rewrite Hi. destruct (fees_with_impl _ _ _ _) as [fees|]; cbn [mbind outcome_bind] in H; [|done].
  destruct (balancing_check true _ fees) as [[]|] eqn:Eb; cbn [of_result mbind outcome_bind] in H; [|done]. injection H as E. rewrite E in *. split; [done|].
  by apply balanced_iff.
Qed.
End properties.

(** ** Example *)

Import Supply.SupplyExample.

Module VerifyExample.
Import OfferExample.

#[export] Instance crypto : Crypto := {
  pedersen_group := Z_group;
  Signature := Z; signature_verify msg key sig := sig =? key + Z.of_nat (length msg);
  committee_verify vk msg sig := match vk with Schnorr k => bool_decide (sig = k ++ msg) | ECDSA _ => false end;
  vk_cmp := Z.compare;
  Proof := Z; verify_v2 vk p pis := p =? Z.of_nat (length pis); verify_v3 vk p pis := p =? Z.of_nat (length pis);
  SPEND_VK := [1];
  spend_verify p stmt := true; output_verify p stmt := true; memo_domain_sep := 5; ciphertext_to_field c := c;
  input_statement _ _ _ _ _ := []; output_statement _ _ _ _ := [];
  input_le := @enc_le Inp _ _; output_le := @enc_le Outp _ _; transient_le := @enc_le Trans _ _;
  hash_to_curve t s := Z.of_nat (length t) + s; generator := 1; schnorr_challenge c t pre := c + t + Z.of_nat (length pre);
  data_to_sign i s := [ttl i; s]; claim_data_to_sign c := [claim_value c]; update_data_to_sign u := [upd_counter u];
  challenge_pre_for i s := [s]; binding_input c p := p; op_field_repr op := [0];
  dust_public_inputs _ c g _ _ _ _ := [c; g]
}.
#[export] Instance serialized : Serialized := { serialized_size _ := 1000; transaction_hash _ := [7] }.

Definition update : MaintenanceUpdate :=
  mkMaintenanceUpdate (replicate 32 4) [ReplaceAuthority (mkAuthority [Schnorr [9]] 1 4)] 3 [(0, [10; 3]); (2, [12; 3])].
Definition intent (night : Z) : ProvenIntent :=
  mkProvenIntent
    (mkIntent (Some (mkUnshieldedOffer [mkUtxoSpend night 7 NIGHT (replicate 32 1) 0] [mkUtxoOutput night (replicate 32 8) NIGHT])) None
       [Maintain update] (Some (mkDustActions [mkDustSpend (10 ^ 20) 1 2 tt] [] 100)) 300 (PureGeneratorPedersen_new_from 1 (fun c t pre => c + t + Z.of_nat (length pre)) 5 3 [1]))
    [9] [] (fun _ => PV2 0) (fun _ => 2) (fun _ => None).
Definition stx : ProvenStandard := mkProvenStandard "net" {[1 := intent 10]} None ∅ 3.
Definition charged := mkChargedState _ _ _ SNull DeltaExample.charged1.
Definition state (threshold : Z) : LedgerState :=
  with_contract genesis {[replicate 32 4 := mkContractState charged ∅ (mkAuthority [Schnorr [10]; Schnorr [11]; Schnorr [12]] threshold 3) ∅]}.

Definition accepts {R} `{!StateReference R} (ref_state : R) (t : Timestamp) : bool :=
  match Verify.well_formed (ProvenStd stx) ref_state WellFormedStrictness_default t with Ret v => tx_fees v =? 580990893180001 | _ => false end.
Lemma tx_accepted : accepts (state 2) 200 = true.
Proof. vm_compute. reflexivity. Qed.
Lemma too_late : accepts (state 2) 301 = false.
Proof. vm_compute. reflexivity. Qed.
Lemma threshold_missed : accepts (mkRevalidation (state 2) (state 3)) 200 = false.
Proof. vm_compute. reflexivity. Qed.

Lemma tx_amounts : forallb (fun u => 0 <=? bu_value u) (balance_updates (erase_standard stx) (Some 580990893180001) false) = true.
Proof. vm_compute. reflexivity. Qed.

Lemma verified : exists v, Verify.well_formed (ProvenStd stx) (state 2) WellFormedStrictness_default 200 = Ret v /\ tx_fees v = 580990893180001.
Proof.
  pose proof tx_accepted as H. unfold accepts in H. destruct (Verify.well_formed _ _ _ _) as [v| |]; [|discriminate H..]. exists v. split; [reflexivity|by apply Z.eqb_eq].
Qed.

(** The two sides of a swap: one gives a shielded coin, the other takes it. *)
Definition coin : list Z := replicate 32 2.
Definition gives : ProvenStandard :=
  mkProvenStandard "net" {[1 := intent 10]} (Some (mkOffer [mkInput [1] (10 * 32 + 5) None 7 None 0] [] [] [(coin, 10)])) ∅ 8.
Definition takes : ProvenStandard :=
  mkProvenStandard "net" {[2 := intent 10]} (Some (mkOffer [] [mkOutput [2] (10 * 32 + 5) None None 0] [] [(coin, -10)])) ∅ (-2).
Definition swap : result MalformedTransaction ProvenStandard := merge_standard gives takes.
Definition bound (stx : ProvenStandard) : bool := is_ok (pedersen_check (erase_standard stx)).

Lemma swap_bound : bound gives && bound takes && (if swap is Ok m then bound m && (pr_binding_randomness m =? 6) else false) = true.
Proof. vm_compute. reflexivity. Qed.
Lemma swap_merges : is_ok swap && (if swap is Ok m then is_ok (balance_maybe_deltas_only (erase_standard m) None true) else false) = true.
Proof. vm_compute. reflexivity. Qed.
Lemma swap_unbound : bound (mkProvenStandard "net" {[1 := intent 10]} (pr_guaranteed_coins gives) ∅ 7) = false.
Proof. vm_compute. reflexivity. Qed.
Lemma swap_mergeable : offers_mergeable gives takes.
Proof.
  split; [|intros s o1 o2 H; cbn in H; by rewrite lookup_empty in H]. intros o1 o2 [= <-] [= <-]. unfold mergeable, coins_distinct.
  cbn [inputs outputs transient deltas]. split_and!; [repeat constructor; set_solver..|]. intros k. unfold key_sum. cbn [foldr fst snd].
  unfold in_i. destruct (decide _); vm_compute; split; discriminate.
Qed.
End VerifyExample.
Import VerifyExample.

Lemma revalidation_full_witness :
  revalidate (ProvenStd VerifyExample.stx) (VerifyExample.state 2) (VerifyExample.state 1) WellFormedStrictness_default 210 =
  Verify.well_formed (ProvenStd VerifyExample.stx) (VerifyExample.state 1) WellFormedStrictness_default 210.
Proof.
  destruct VerifyExample.verified as (v & Hv & _). eapply revalidation_full. exact Hv.
Defined.

Lemma inputs_authorized_witness :
  exists sig, [9] !! 0%nat = Some sig /\ @signature_verify _ VerifyExample.crypto (data_to_sign (erase_intent (VerifyExample.intent 10)) 1) 7 sig = true.
Proof.
  destruct VerifyExample.verified as (v & Hv & _).
  destruct (inputs_authorized (@LedgerApplyExample.iter_perm) _ _ _ _ _ Hv) as (_ & Ha & _).
  exact (Ha 1 (VerifyExample.intent 10) _ _ 0%nat (mkUtxoSpend 10 7 NIGHT (replicate 32 1) 0) eq_refl ltac:(left) eq_refl).
Defined.

Lemma maintenance_authorized_witness :
  exists c, contract (VerifyExample.state 2) !! replicate 32 4 = Some c /\ counter_ok VerifyExample.update /\ threshold (maintenance_authority c) <= 2.
Proof.
  destruct VerifyExample.verified as (v & Hv & _).
  destruct (maintenance_authorized _ _ WellFormedStrictness_default _ _ 1 (VerifyExample.intent 10) VerifyExample.update eq_refl Hv) as (c & Hc & Hok & _ & Ht & _); [reflexivity|left|].
  exists c. exact (conj Hc (conj Hok Ht)).
Defined.

Lemma accepted_balanced_witness :
  tx_debit Coins.Dust 0 (erase_standard VerifyExample.stx) 580990893180001 <= tx_credit Coins.Dust 0 (erase_standard VerifyExample.stx).
Proof.
  destruct VerifyExample.verified as (v & Hv & Ef). rewrite <- Ef. apply (accepted_balanced _ _ WellFormedStrictness_default _ _ eq_refl Hv). rewrite Ef.
  apply Forall_forall. intros u Hu. pose proof VerifyExample.tx_amounts as H. rewrite forallb_forall in H. apply Z.leb_le, H. by apply list_elem_of_In.
Defined.

